(* ===== verification/_CoqProject ===== *)
-Q . S2P
Prelude.v
Lists.v
State.v
Types.v
Committee.v
Certificates.v
LeaderSchedule.v
ConsensusState.v
ConsensusStateProps.v
Bullshark.v
BullsharkSafety.v
ConsensusTask.v
EpochRecords.v
EpochRecordsProps.v
Hardforks.v
BatchOrdering.v
BatchOrderingProps.v
InFlight.v
Engine.v
EngineProps.v
EngineBlocks.v
EngineRestart.v
EngineLoop.v
EngineLoopProps.v
ConsensusChain.v
ConsensusChainProps.v
StateSync.v
StateSyncProps.v
NativeErc20.v
NativeErc20Props.v
MemDb.v
LayeredDb.v
LayeredKey.v
LayeredSim.v
LayeredDbProps.v
PairMap.v
CertStore.v
PendingCerts.v
CertManager.v
CertManagerProps.v
VoteHandler.v
VoteSafety.v
Proposer.v
ProposerProps.v
Certifier.v
CertifierProps.v
Certification.v
Subscriber.v
SubscriberProps.v
BatchValidator.v
Worker.v
Sealing.v
BatchBuilder.v
WorkerProps.v
SealingProps.v
BatchBuilderProps.v
