(* ===== verification/Prelude.v ===== *)
(** * Axyl

    A verification development of Axyl, a node that orders transactions with a
    DAG-based Byzantine fault tolerant consensus (Narwhal and Bullshark) and
    executes them in an EVM (reth). Paths are relative to [src/crates].

    ** The program

    A committee of validators runs the protocol for an epoch. The _worker_ of a
    validator selects transactions from its pool into batches, has a quorum of
    the committee store each batch, and hands its digest to the _primary_. The
    _proposer_ of the primary puts digests into a header of the round, on a
    quorum of certificates of the round before; the _vote handlers_ of the other
    members sign at most one header per author and round; the _certifier_
    collects a quorum of votes into a certificate and publishes it. The
    _certificate manager_ stores certificates after their parents and feeds the
    _consensus task_, whose commit rule (_Bullshark_) turns the DAG of
    certificates into a sequence of sub-DAGs. The _subscriber_ numbers
    and links them into the chain of consensus headers, fetches their batches and
    hands outputs to the _execution engine_, which orders the batches of each
    authority, executes every output as EVM blocks and closes the epoch. A node
    that is not in the committee, or is behind, follows the chain of headers
    through _state synchronization_ and learns committees from signed _epoch
    records_. Tables live in a _layered database_ with a write-behind cache. A
    _native ERC-20_ precompile gives the chain's currency a token interface, and
    _hard forks_ switch rules at block numbers.

    ** How code is modelled

    Functions are Rocq functions with the names of the source. Integers are [Z]
    with the bounds of their width: [uadd] panics on overflow as the release
    profile does ([overflow-checks], [panic = abort]), [sat_add], [sat_sub],
    [checked_add] and [checked_sub] are the saturating and checked operations.
    [Exec] is the result of a fallible function (a value, an error, a panic, or
    fuel that ran out; where the code catches a panic, the model has the error
    that a build which unwinds gives); [ST] of [State] threads mutable state through it. A
    [BTreeMap], [HashMap] or table is a [gmap]; where the code depends on an
    iteration order it is the order of the keys ([btree_list]) or, for hash maps,
    a parameter. Asynchronous tasks are machines: a step per branch of [select!]
    or per suspension point, fed with explicit events, so that a theorem about
    all event lists is one about all interleavings.

    Code outside the repository is an interface with its documented laws and an
    instance that satisfies them: the cryptography and hashes of [Types.Crypto],
    [EpochRecords.EpochCrypto] and [BatchValidator.BatchCodec], the journal of the
    EVM ([NativeErc20.StateAccessAdapter]), the EVM that executes a payload
    ([Engine.BlockExecutor]), the fork conditions ([Hardforks.ForkConditionApi]),
    the persistent tier ([LayeredDb.Database]), the seeded generator of the
    leader swap, and the pool iterator ([BatchBuilder.BestTransactions]). What
    peers answer, timers, clocks and failed writes are arguments.

    ** The files

    Shared:
    - [Prelude], [Lists], [State], [PairMap]: results, integers, maps in key
      order, sorting, the state monad.
    - [Types]: headers, certificates, nonces
      ([infrastructure/types/src/primary], [nonce.rs]).

    Consensus:
    - [Committee] ([types/src/committee.rs]): thresholds and look-ups; quorum
      intersection.
    - [Certificates] ([types/src/primary/*.rs], [aggregator.rs],
      [primary/src/aggregators]): header validation, votes, certificates.
    - [LeaderSchedule] ([consensus/leader_schedule.rs], [reputation.rs]).
    - [ConsensusState], [ConsensusStateProps] ([consensus/state.rs], [utils.rs]):
      the DAG, recovery from the store, flattening of a causal history.
    - [Bullshark], [BullsharkSafety] ([consensus/bullshark.rs]): the commit rule
      and agreement between nodes.
    - [ConsensusTask] ([consensus/state.rs], [consensus_bus.rs]): the task around
      the commit rule.
    - [PendingCerts], [CertManager], [CertManagerProps] ([primary/src/state_sync]),
      [CertStore] ([storage/src/stores/certificate_store.rs]).
    - [VoteHandler], [VoteSafety] ([primary/src/network/handler.rs],
      [state_sync/header_validator.rs]).
    - [Proposer], [ProposerProps] ([primary/src/proposer]).
    - [Certifier], [CertifierProps] ([primary/src/certifier.rs],
      [vote_failure_tracker.rs]) and [Certification], which composes the proposer
      with it.

    Worker:
    - [BatchValidator] ([worker/src/batch-validator], [types/src/worker]).
    - [Worker], [WorkerProps] ([worker/src/network], [batch_fetcher.rs]).
    - [Sealing], [SealingProps] ([quorum_waiter.rs], [worker.rs]).
    - [BatchBuilder], [BatchBuilderProps] ([worker/src/batch-builder]).

    Following the chain:
    - [EpochRecords], [EpochRecordsProps] ([types/src/primary/epoch.rs],
      [stores/epoch_store.rs], [state-sync/src/epoch.rs]).
    - [ConsensusChain], [ConsensusChainProps] ([stores/consensus_store.rs] and the
      functions of [state-sync] that write it).
    - [StateSync], [StateSyncProps] ([state-sync/src/consensus.rs], [lib.rs]).
    - [Subscriber], [SubscriberProps] ([middleware/bridge/src/subscriber.rs]).

    Execution:
    - [Hardforks] ([execution/evm/src/chainspec]).
    - [BatchOrdering], [BatchOrderingProps] ([processor/src/batch/ordering.rs],
      [executed_batch_registry.rs]).
    - [InFlight] ([execution/evm/src/in_flight]).
    - [Engine], [EngineProps], [EngineBlocks] ([processor/src/execution],
      [gas.rs]); [EngineLoop], [EngineLoopProps], [EngineRestart]
      ([processor/src/lib.rs]).
    - [NativeErc20], [NativeErc20Props] ([execution/evm/src/native_erc20]).

    Storage:
    - [MemDb] ([storage/src/mem_db.rs]), [LayeredDb], [LayeredKey], [LayeredSim],
      [LayeredDbProps] ([storage/src/layered_db.rs]).

    ** What the theorems show

    - Agreement: nodes that commit from the same point commit the same sub-DAGs
      ([BullsharkSafety.next_commit_agreement]); the DAGs this needs come from the
      votes of honest members ([VoteSafety.votes_protect_dags]), the headers of
      honest proposers that restart at most one round behind what they stored
      ([ProposerProps.proposer_headers_valid]) and a manager that stores
      certificates after their parents ([CertManagerProps.manager_store_causal]).
      Processing a certificate does not panic and commits exactly the uncommitted
      history of leaders ([Bullshark.process_certificate_safe]), and a consensus
      task commits no slot of the DAG twice ([ConsensusTask.task_run_safe]).
    - Certification: a header gets one certificate
      ([Certification.one_certificate_per_header]), which its peers accept, the
      votes of a quorum make it ([CertifierProps.quorum_certifies]), and fewer
      peers than half of the committee, rounded down, cannot demote a node
      ([CertifierProps.faulty_cannot_demote]).
    - Availability: a sealed batch is in the store of an honest member of every
      quorum ([SealingProps.sealed_batch_available]), the batches of a validator
      are numbered without gap and hold no transaction twice
      ([BatchBuilderProps]), and one connected holder is enough for a node to
      complete an output ([WorkerProps.one_peer_suffices]).
    - One chain: validators and followers hand the same outputs to execution
      ([SubscriberProps]), every header that synchronization emits hangs on the
      executed anchor ([StateSyncProps]), collected epoch records are those of the
      honest chain as long as no answer repeats a key ([EpochRecordsProps]), nodes
      that start an epoch from the same record number alike, and the tables of
      the chain read back what was saved and cached ([ConsensusChainProps]).
    - Execution: the engine refines the sequential execution of the chain of
      outputs whatever the deliveries ([EngineLoopProps]), an output becomes a
      well-formed run of blocks ([EngineBlocks]), and a batch takes effect once
      ([EngineRestart]).
    - The token: every call refines the ledger of the precompile, which is the
      one of ERC-20 and EIP-3009 except on the calls that
      [NativeErc20Props.standard] leaves out, and supply and balances move
      together ([NativeErc20Props]).
    - Storage: under every interleaving of producers, readers and the writer the
      hot tiers of the layered database answer as a map held during the call; a
      read that a removal overtakes between two of its looks may panic
      ([LayeredDbProps]).
    - Limits of the code: theorems exhibit inputs on which the code does not do
      what its comments say (two votes of a round from overlapping
      requests, a restarted proposer that equivocates, a record forged with one
      vote, a forged header that is followed, unexecuted headers that are
      skipped, a single peer that stops the certification of a node).

    ** Bounds and fuel

    A loop that is not structurally recursive takes fuel, and a theorem shows
    that the fuel the definition passes is enough, so that [Diverge] is never its
    result: one step per certificate of the DAG in [order_dag] and [linked], per
    parked batch in [drain_consecutive], per pending certificate in the cascades
    of the manager, per heap entry in the eviction loop, per header in the
    backwards walk, per transaction of the snapshot in [build_loop]. Loops that
    the code bounds have its bound (retries, attempts, [MAX_SEAL_AHEAD]). Tasks
    that run for ever are folds over a finite list of events of any length.

    ** Not modelled

    Peer-to-peer networking (libp2p), the EVM with its block executors, state
    migrations and the legacy inspector path of the token, the MDBX and redb back
    ends and the cold archive, the wiring of tasks, configuration, RPC, the
    command line, metrics and logs: input and output, bindings to libraries, or
    glue whose effect appears in the models as the events and parameters of the
    components. Three parts with logic of their own are left out as well: the
    fetcher and the collector of certificates ([certificate_fetcher.rs],
    [cert_collector.rs]), whose results reach the certificate manager as
    arbitrary fetched certificates, the scores of peers, and the epoch manager
    other than its detection of the boundary. *)
From Stdlib Require Export ZArith Lia List.
From stdpp Require Export base tactics option list numbers sets gmap fin_maps sorting.

Open Scope Z_scope.

(** ** Results of running Rust code *)

(** The result of running a fallible Rust function: a value, an error value,
    a panic (a failed [assert!], [expect], arithmetic overflow under
    [overflow-checks], division by zero) or, for the loops that are modelled
    with fuel, running out of it. *)
Inductive Exec (E A : Type) : Type :=
  | Ret (a : A)
  | Err (e : E)
  | Panic
  | Diverge.
Arguments Ret {E A} a.
Arguments Err {E A} e.
Arguments Panic {E A}.
Arguments Diverge {E A}.

#[export] Instance exec_ret {E} : MRet (Exec E) := fun A a => Ret a.

#[export] Instance exec_bind {E} : MBind (Exec E) := fun A B f m =>
  match m with
  | Ret a => f a
  | Err e => Err e
  | Panic => Panic
  | Diverge => Diverge
  end.

(** [assert!(b)] *)
Definition rassert {E} (b : bool) : Exec E unit :=
  if b then Ret tt else Panic.

(** [o.expect("..")] *)
Definition expect {E A} (o : option A) : Exec E A :=
  match o with Some a => Ret a | None => Panic end.

(** [ensure!(b, e)] *)
Definition ensure {E} (b : bool) (e : E) : Exec E unit :=
  if b then Ret tt else Err e.

(** [r.map_err(f)] *)
Definition map_err {E E' A} (f : E -> E') (m : Exec E A) : Exec E' A :=
  match m with
  | Ret a => Ret a
  | Err e => Err (f e)
  | Panic => Panic
  | Diverge => Diverge
  end.

(** Total correctness of a run: it returns a value satisfying [Q] or an error
    satisfying [R]; it neither panics nor diverges. *)
Definition wp {E A} (m : Exec E A) (Q : A -> Prop) (R : E -> Prop) : Prop :=
  match m with
  | Ret a => Q a
  | Err e => R e
  | Panic => False
  | Diverge => False
  end.

(** A run that must return a value. *)
Abbreviation runs m Q := (wp m Q (fun _ => False)).

(** ** Machine integers *)

Definition u16_max : Z := 2 ^ 16 - 1.
Definition u32_max : Z := 2 ^ 32 - 1.
Definition u64_max : Z := 2 ^ 64 - 1.
Definition u256_max : Z := 2 ^ 256 - 1.

(** [a + b] on an unsigned type with maximum [m], overflow checks on. *)
Definition uadd {E} (m a b : Z) : Exec E Z :=
  if a + b <=? m then Ret (a + b) else Panic.

(** [a - b] on an unsigned type, overflow checks on. *)
Definition usub {E} (a b : Z) : Exec E Z :=
  if b <=? a then Ret (a - b) else Panic.

(** [a * b] on an unsigned type with maximum [m], overflow checks on. *)
Definition umul {E} (m a b : Z) : Exec E Z :=
  if a * b <=? m then Ret (a * b) else Panic.

(** [a / b] on an unsigned type. *)
Definition udiv {E} (a b : Z) : Exec E Z :=
  if b =? 0 then Panic else Ret (a / b).

(** [a.saturating_sub(b)] on an unsigned type. *)
Definition sat_sub (a b : Z) : Z := Z.max 0 (a - b).

(** [a.saturating_add(b)] on an unsigned type with maximum [m]. *)
Definition sat_add (m a b : Z) : Z := Z.min m (a + b).

(** [a.is_multiple_of(b)]: [b = 0] divides only [0]. *)
Definition is_multiple_of (a b : Z) : bool :=
  if b =? 0 then a =? 0 else a mod b =? 0.

(** [iter.sum::<uN>()] with overflow checks on. *)
Fixpoint usum {E} (m acc : Z) (l : list Z) : Exec E Z :=
  match l with
  | [] => Ret acc
  | x :: l' => acc' ← uadd m acc x; usum m acc' l'
  end.

Definition zsum (l : list Z) : Z := foldr Z.add 0 l.

(** ** Ordered maps ([BTreeMap]) *)

(** A [BTreeMap<K, V>] whose keys are ordered integers (numbers, or byte arrays
    read as big-endian numbers) is a [gmap Z V]; iterating it visits the
    entries in ascending key order. *)
Section btree.
Context {A : Type}.

Definition key_le (x y : Z * A) : Prop := x.1 <= y.1.
#[export] Instance key_le_dec : RelDecision key_le.
Proof. intros x y. unfold key_le. apply _. Defined.

Definition btree_list (m : gmap Z A) : list (Z * A) :=
  merge_sort key_le (map_to_list m).
Definition btree_keys (m : gmap Z A) : list Z := (btree_list m).*1.
Definition btree_values (m : gmap Z A) : list A := (btree_list m).*2.

(** [iter.collect::<BTreeMap<_, _>>()]: later entries replace earlier ones. *)
Definition btree_collect (l : list (Z * A)) : gmap Z A :=
  foldl (fun m kv => <[kv.1 := kv.2]> m) ∅ l.

(** [map.retain(|k, _| f k)] *)
Definition retain_keys (f : Z -> bool) (m : gmap Z A) : gmap Z A :=
  filter (fun kv => f kv.1 = true) m.

End btree.

(** ** Program logic of [Exec] *)

Section exec.
Context {E A B : Type}.
Implicit Types m : Exec E A.

Lemma wp_bind m (f : A -> Exec E B) Q R :
  wp m (fun a => wp (f a) Q R) R -> wp (m ≫= f) Q R.
Proof. by destruct m. Qed.

Lemma wp_mono m (Q Q' : A -> Prop) (R R' : E -> Prop) :
  wp m Q R -> (forall a, Q a -> Q' a) -> (forall e, R e -> R' e) -> wp m Q' R'.
Proof. destruct m; simpl; auto. Qed.

Lemma bind_Ret_inv m (f : A -> Exec E B) b :
  m ≫= f = Ret b -> exists a, m = Ret a /\ f a = Ret b.
Proof. destruct m; simpl; [eauto|discriminate..]. Qed.

Lemma wp_Ret_inv m Q R a : wp m Q R -> m = Ret a -> Q a.
Proof. by intros ? ->. Qed.

Lemma runs_Ret m Q : runs m Q -> exists a, m = Ret a /\ Q a.
Proof. destruct m; simpl; naive_solver. Qed.

Lemma wp_assert (b : bool) (Q : unit -> Prop) R :
  b = true -> Q tt -> wp (rassert (E := E) b) Q R.
Proof. by intros ->. Qed.

Lemma wp_expect (o : option A) a (Q : A -> Prop) (R : E -> Prop) :
  o = Some a -> Q a -> wp (expect o) Q R.
Proof. by intros ->. Qed.

Lemma wp_uadd mx a b (Q : Z -> Prop) (R : E -> Prop) :
  a + b <= mx -> Q (a + b) -> wp (uadd mx a b) Q R.
Proof. unfold uadd. intros. by rewrite (proj2 (Z.leb_le _ _)). Qed.

Lemma wp_usub a b (Q : Z -> Prop) (R : E -> Prop) :
  b <= a -> Q (a - b) -> wp (usub a b) Q R.
Proof. unfold usub. intros. by rewrite (proj2 (Z.leb_le _ _)). Qed.

Lemma wp_umul mx a b (Q : Z -> Prop) (R : E -> Prop) :
  a * b <= mx -> Q (a * b) -> wp (umul mx a b) Q R.
Proof. unfold umul. intros. by rewrite (proj2 (Z.leb_le _ _)). Qed.

Lemma wp_udiv a b (Q : Z -> Prop) (R : E -> Prop) :
  b <> 0 -> Q (a / b) -> wp (udiv a b) Q R.
Proof. unfold udiv. intros. by rewrite (proj2 (Z.eqb_neq _ _)). Qed.

Lemma rassert_Ret (b : bool) u : rassert (E := E) b = Ret u -> b = true.
Proof. by destruct b. Qed.

Lemma expect_Ret (o : option A) a : expect (E := E) o = Ret a -> o = Some a.
Proof. destruct o; simpl; congruence. Qed.

Lemma ensure_Ret (b : bool) (e : E) u : ensure b e = Ret u -> b = true.
Proof. by destruct b. Qed.

Lemma uadd_Ret mx a b v : uadd (E := E) mx a b = Ret v -> v = a + b /\ a + b <= mx.
Proof. unfold uadd. case_match eqn:Hle; [|done]. intros [= <-]. lia. Qed.

Lemma usub_Ret a b v : usub (E := E) a b = Ret v -> v = a - b /\ b <= a.
Proof. unfold usub. case_match eqn:Hle; [|done]. intros [= <-]. lia. Qed.

Lemma umul_Ret mx a b v : umul (E := E) mx a b = Ret v -> v = a * b /\ a * b <= mx.
Proof. unfold umul. case_match eqn:Hle; [|done]. intros [= <-]. lia. Qed.

Lemma mret_Ret (a b : A) : mret (M := Exec E) a = Ret b -> a = b.
Proof. by intros [= ->]. Qed.

End exec.

Lemma map_err_Ret {E E' A} (f : E -> E') (m : Exec E A) a : map_err f m = Ret a -> m = Ret a.
Proof. destruct m; simpl; congruence. Qed.

Lemma uadd_ok {E} m x y : x + y <= m -> uadd (E := E) m x y = Ret (x + y).
Proof. intros Hle. unfold uadd. by rewrite (proj2 (Z.leb_le _ _) Hle). Qed.

(** Folds the unfolded [fmap] that [simpl] leaves. *)
Ltac fold_fmap :=
  repeat match goal with
  | |- context [list_fmap ?A ?B ?f ?l] => change (list_fmap A B f l) with (f <$> l)
  | Hf : context [list_fmap ?A ?B ?f ?l] |- _ => change (list_fmap A B f l) with (f <$> l) in Hf
  end.

(** [exec_inv H] splits a hypothesis [m ≫= f = Ret b] into its runs. *)
Ltac exec_inv H :=
  let x := fresh "v" in let H1 := fresh "Hrun" in
  apply bind_Ret_inv in H as (x & H1 & H).

(** [exec_simpl] inverts every successful run in the context: sequences,
    assertions, checks and checked arithmetic. *)
Ltac exec_simpl :=
  repeat match goal with
  | H : (_ ≫= _) = Ret _ |- _ => exec_inv H
  | H : mret _ = Ret _ |- _ => apply mret_Ret in H; simplify_eq
  | H : rassert _ = Ret _ |- _ => apply rassert_Ret in H
  | H : expect _ = Ret _ |- _ => apply expect_Ret in H
  | H : ensure _ _ = Ret _ |- _ => apply ensure_Ret in H
  | H : uadd _ _ _ = Ret ?v |- _ => apply uadd_Ret in H as [? H]; subst v
  | H : usub _ _ = Ret ?v |- _ => apply usub_Ret in H as [? H]; subst v
  | H : umul _ _ _ = Ret ?v |- _ => apply umul_Ret in H as [? H]; subst v
  | H : Ret _ = Ret _ |- _ => injection H as H; simplify_eq
  | H : Err _ = Ret _ |- _ => discriminate H
  | H : Panic = Ret _ |- _ => discriminate H
  | H : Diverge = Ret _ |- _ => discriminate H
  end.

(** ** Sums *)

Lemma zsum_app l k : zsum (l ++ k) = zsum l + zsum k.
Proof. induction l as [|x l IH]; simpl; [done|]. rewrite IH. lia. Qed.

#[export] Instance zsum_perm : Proper ((≡ₚ) ==> (=)) zsum.
Proof. induction 1; simpl; lia. Qed.

Lemma zsum_nonneg l : Forall (fun x => 0 <= x) l -> 0 <= zsum l.
Proof. induction 1; simpl; lia. Qed.

Lemma zsum_submseteq l k :
  l ⊆+ k -> Forall (fun x => 0 <= x) k -> zsum l <= zsum k.
Proof.
  intros [l' ->]%submseteq_Permutation Hk.
  rewrite zsum_app. apply Forall_app in Hk as [_ ?%zsum_nonneg]. lia.
Qed.

Lemma wp_usum {E} mx l acc (Q : Z -> Prop) (R : E -> Prop) :
  Forall (fun x => 0 <= x) l -> acc + zsum l <= mx -> Q (acc + zsum l) ->
  wp (usum mx acc l) Q R.
Proof.
  revert acc. induction l as [|x l IH]; intros acc Hl Hle HQ; simpl in *.
  - by replace (acc + 0) with acc in HQ by lia.
  - apply Forall_cons in Hl as [Hx Hl]. pose proof (zsum_nonneg l Hl).
    apply wp_bind, wp_uadd; [lia|]. apply IH; [done|lia|].
    by replace (acc + x + zsum l) with (acc + (x + zsum l)) by lia.
Qed.

Lemma usum_Ret {E} mx l acc v :
  usum (E := E) mx acc l = Ret v -> v = acc + zsum l.
Proof.
  revert acc. induction l as [|x l IH]; intros acc Hv; simpl in *.
  - injection Hv. lia.
  - exec_simpl. apply IH in Hv. lia.
Qed.

(** ** Ordered maps *)

Section btree_lemmas.
Context {A : Type}.
Implicit Types m : gmap Z A.

Lemma btree_list_perm m : btree_list m ≡ₚ map_to_list m.
Proof. apply merge_sort_Permutation. Qed.

Lemma elem_of_btree_list m k x : (k, x) ∈ btree_list m <-> m !! k = Some x.
Proof. rewrite btree_list_perm. apply elem_of_map_to_list. Qed.

Lemma elem_of_btree_values m x : x ∈ btree_values m <-> exists k, m !! k = Some x.
Proof.
  unfold btree_values. rewrite list_elem_of_fmap. split.
  - intros ([k y] & -> & Hy%elem_of_btree_list). eauto.
  - intros [k Hk%elem_of_btree_list]. by exists (k, x).
Qed.

Lemma elem_of_btree_keys m k : k ∈ btree_keys m <-> is_Some (m !! k).
Proof.
  unfold btree_keys. rewrite list_elem_of_fmap. split.
  - intros ([k' y] & -> & Hy%elem_of_btree_list). eauto.
  - intros [x Hk%elem_of_btree_list]. by exists (k, x).
Qed.

Lemma length_btree_values m : length (btree_values m) = size m.
Proof.
  unfold btree_values. rewrite length_fmap, btree_list_perm.
  apply length_map_to_list.
Qed.

Lemma NoDup_btree_list m : NoDup (btree_list m).
Proof. rewrite btree_list_perm. apply NoDup_map_to_list. Qed.

Lemma NoDup_btree_keys m : NoDup (btree_keys m).
Proof. unfold btree_keys. rewrite btree_list_perm. apply NoDup_fst_map_to_list. Qed.

Lemma StronglySorted_btree_list m : StronglySorted key_le (btree_list m).
Proof. apply StronglySorted_merge_sort; unfold key_le; intros ??; lia. Qed.

Lemma btree_keys_sorted m : StronglySorted Z.lt (btree_keys m).
Proof.
  unfold btree_keys. pose proof (StronglySorted_btree_list m) as Hs.
  pose proof (NoDup_btree_keys m) as Hnd. unfold btree_keys in Hnd.
  induction Hs as [|[k x] l Hs IH Hall]; simpl in *; [constructor|].
  apply NoDup_cons in Hnd as [Hk Hnd]. constructor; [by apply IH|].
  apply Forall_forall. intros k' Hk'. pose proof Hk' as ([k2 x2] & -> & Hin)%list_elem_of_fmap.
  rewrite Forall_forall in Hall. pose proof (Hall _ Hin) as Hle. unfold key_le in Hle. simpl in *.
  enough (k <> k2) by lia. congruence.
Qed.

(** The entry with the least key comes first. *)
Lemma btree_list_head m k x :
  m !! k = Some x -> (forall k', is_Some (m !! k') -> k <= k') ->
  exists l, btree_list m = (k, x) :: l.
Proof.
  intros Hk Hmin. pose proof (StronglySorted_btree_list m) as Hs.
  apply elem_of_btree_list in Hk. destruct (btree_list m) as [|[k0 x0] l] eqn:Hl; [inversion Hk|].
  assert (m !! k0 = Some x0) as Hk0 by (apply elem_of_btree_list; rewrite Hl; left).
  pose proof (Hmin k0 ltac:(eauto)).
  exists l. f_equal. apply elem_of_cons in Hk as [<-|Hk]; [done|].
  apply StronglySorted_inv in Hs as [_ Hall]. rewrite Forall_forall in Hall.
  pose proof (Hall _ Hk) as Hle. unfold key_le in Hle. simpl in Hle.
  assert (k0 = k) as -> by lia.
  assert (m !! k = Some x) as Hk' by (apply elem_of_btree_list; rewrite Hl; by right).
  congruence.
Qed.

Lemma lookup_retain_keys f m k :
  retain_keys f m !! k = if f k then m !! k else None.
Proof.
  unfold retain_keys. rewrite map_lookup_filter.
  destruct (m !! k) as [x|] eqn:Hk; simpl.
  - case_guard as Hf; simpl in *; destruct (f k); naive_solver.
  - by destruct (f k).
Qed.

End btree_lemmas.

Lemma lookup_btree_collect {A} (l : list (Z * A)) (m : gmap Z A) k :
  foldl (fun m kv => <[kv.1 := kv.2]> m) m l !! k =
  match (list_to_map (reverse l) : gmap Z A) !! k with
  | Some x => Some x
  | None => m !! k
  end.
Proof.
  revert m. induction l as [|[k' x] l IH] using rev_ind; intros m.
  - rewrite reverse_nil. simpl. by rewrite lookup_empty.
  - rewrite foldl_app, reverse_app, reverse_singleton. simpl.
    rewrite !lookup_insert. case_decide; [done|]. apply IH.
Qed.

Lemma btree_collect_list_to_map {A} (l : list (Z * A)) :
  btree_collect l = list_to_map (reverse l).
Proof.
  apply map_eq. intros k. unfold btree_collect. rewrite lookup_btree_collect.
  rewrite lookup_empty. by case_match.
Qed.

Lemma size_list_to_map_NoDup {A} (l : list (Z * A)) :
  size (list_to_map l : gmap Z A) = length l -> NoDup l.*1.
Proof.
  assert (Hle : forall l : list (Z * A), (size (list_to_map l : gmap Z A) <= length l)%nat).
  { clear. induction l as [|[k x] l IH]; simpl; [done|].
    rewrite map_size_insert. case_match; simpl; lia. }
  induction l as [|[k x] l IH]; simpl; [constructor|].
  rewrite map_size_insert. intros Hs. specialize (Hle l).
  case_match eqn:Hk; simpl in *; [lia|].
  apply not_elem_of_list_to_map in Hk. constructor; [done|]. apply IH. lia.
Qed.

Lemma filter_Forall_id {A} (P : A -> Prop) `{!forall x, Decision (P x)} (l : list A) :
  Forall P l -> filter P l = l.
Proof.
  induction 1 as [|x l Hx _ IH]; [done|]. by rewrite filter_cons, decide_True, IH.
Qed.

Lemma size_list_to_set_le (l : list Z) : (size (list_to_set l : gset Z) <= length l)%nat.
Proof.
  induction l as [|x l IH]; [done|]. rewrite list_to_set_cons, length_cons.
  rewrite size_union_alt, size_singleton.
  pose proof (subseteq_size ((list_to_set l : gset Z) ∖ {[x]}) (list_to_set l)
    ltac:(set_solver)). lia.
Qed.

(** ** Weighted sums over finite sets *)

Definition wsum (w : Z -> Z) (X : gset Z) : Z := zsum (w <$> elements X).

Section wsum.
Context (w : Z -> Z).
Implicit Types X Y : gset Z.

Lemma wsum_empty : wsum w ∅ = 0.
Proof. unfold wsum. by rewrite elements_empty. Qed.

Lemma wsum_union_disjoint X Y : X ## Y -> wsum w (X ∪ Y) = wsum w X + wsum w Y.
Proof.
  intros. unfold wsum. by rewrite elements_disj_union, fmap_app, zsum_app.
Qed.

Lemma wsum_singleton x : wsum w {[x]} = w x.
Proof. unfold wsum. rewrite elements_singleton. simpl. lia. Qed.

Lemma wsum_insert x X : x ∉ X -> wsum w ({[x]} ∪ X) = w x + wsum w X.
Proof. intros. rewrite wsum_union_disjoint, wsum_singleton by set_solver. done. Qed.

Lemma wsum_nonneg X : (forall x, 0 <= w x) -> 0 <= wsum w X.
Proof.
  intros Hw. apply zsum_nonneg, Forall_fmap, Forall_forall. intros x _. apply Hw.
Qed.

Lemma wsum_mono X Y : (forall x, 0 <= w x) -> X ⊆ Y -> wsum w X <= wsum w Y.
Proof.
  intros Hw HXY. rewrite (union_difference_L X Y HXY).
  rewrite wsum_union_disjoint by set_solver.
  pose proof (wsum_nonneg (Y ∖ X) Hw). lia.
Qed.

Lemma wsum_inclusion_exclusion X Y :
  wsum w X + wsum w Y = wsum w (X ∪ Y) + wsum w (X ∩ Y).
Proof.
  assert (X = (X ∖ Y) ∪ (X ∩ Y)) as HX
    by (apply set_eq; intros x; destruct (decide (x ∈ Y)); set_solver).
  assert (X ∪ Y = (X ∖ Y) ∪ Y) as HU
    by (apply set_eq; intros x; destruct (decide (x ∈ Y)); set_solver).
  rewrite HX at 1. rewrite HU, !wsum_union_disjoint by set_solver. lia.
Qed.

Lemma wsum_list (l : list Z) :
  NoDup l -> wsum w (list_to_set l) = zsum (w <$> l).
Proof.
  intros. unfold wsum. by rewrite elements_list_to_set.
Qed.

Lemma wsum_zero X : (forall x, x ∈ X -> w x = 0) -> wsum w X = 0.
Proof.
  intros H0. unfold wsum.
  assert (Forall (fun x => w x = 0) (elements X)) as Hf
    by (apply Forall_forall; intros x Hx%elem_of_elements; auto).
  induction Hf as [|x l Hx _ IH]; [done|]. change (w x + zsum (w <$> l) = 0). lia.
Qed.

Lemma wsum_ext (w' : Z -> Z) X :
  (forall x, x ∈ X -> w x = w' x) -> wsum w X = wsum w' X.
Proof.
  intros Heq. unfold wsum. f_equal. apply list_fmap_ext.
  intros i x Hx%list_elem_of_lookup_2. by apply Heq, elem_of_elements.
Qed.

End wsum.

(** ** Hint databases *)

Create HintDb axyl.
#[export] Hint Resolve wp_bind wp_assert wp_uadd wp_usub wp_umul wp_udiv : axyl.

Create HintDb axyl_z.
#[export] Hint Unfold u16_max u32_max u64_max u256_max sat_sub sat_add : axyl_z.

(** Linear arithmetic after unfolding the machine-integer helpers. *)
Ltac ulia := repeat autounfold with axyl_z in *; lia.
