(* ===== verification/Lists.v ===== *)
(** * List algorithms of the Rust standard library

    The stable sort behind [slice::sort_by] and [sort_by_key], and writing a
    list of values back to a list of positions. *)
From S2P Require Import Prelude.

(** ** Stable sort *)

Section stable_sort.
Context {A : Type} (le : A -> A -> bool).

Fixpoint insert_sorted (x : A) (l : list A) : list A :=
  match l with
  | [] => [x]
  | y :: l' => if le x y then x :: l else y :: insert_sorted x l'
  end.

(** [l.sort_by(cmp)], with [le x y] for [cmp(x, y) != Greater]. *)
Definition stable_sort (l : list A) : list A := foldr insert_sorted [] l.

Lemma insert_sorted_perm x l : insert_sorted x l ≡ₚ x :: l.
Proof.
  induction l as [|y l IH]; simpl; [done|]. destruct (le x y); [done|].
  rewrite IH. constructor.
Qed.

Lemma stable_sort_perm l : stable_sort l ≡ₚ l.
Proof. induction l as [|x l IH]; simpl; [done|]. by rewrite insert_sorted_perm, IH. Qed.

Lemma elem_of_stable_sort x l : x ∈ stable_sort l <-> x ∈ l.
Proof. by rewrite stable_sort_perm. Qed.

Lemma length_stable_sort l : length (stable_sort l) = length l.
Proof. by rewrite stable_sort_perm. Qed.

(** Elements that compare equal keep their order. *)
Lemma filter_insert_sorted (P : A -> Prop) `{!forall x, Decision (P x)} x l :
  (P x -> forall y, y ∈ l -> P y -> le x y = true) ->
  filter P (insert_sorted x l) = filter P (x :: l).
Proof.
  intros Hle. induction l as [|y l IH]; simpl; [done|].
  destruct (le x y) eqn:Exy; [done|].
  rewrite !filter_cons, IH by (intros; apply Hle; [done|by right|done]). rewrite filter_cons.
  repeat case_decide; try done.
  pose proof (Hle ltac:(done) y ltac:(by left) ltac:(done)). congruence.
Qed.

Lemma stable_sort_stable (P : A -> Prop) `{!forall x, Decision (P x)} l :
  (forall x y, P x -> P y -> le x y = true) -> filter P (stable_sort l) = filter P l.
Proof.
  intros Hle. induction l as [|x l IH]; simpl; [done|].
  rewrite filter_insert_sorted by eauto. by rewrite !filter_cons, IH.
Qed.

Context (le_total : forall x y, le x y = true \/ le y x = true).
Context (le_trans : forall x y z, le x y = true -> le y z = true -> le x z = true).

Abbreviation sorted := (StronglySorted (fun x y => le x y = true)) (only parsing).

Lemma insert_sorted_sorted x l : sorted l -> sorted (insert_sorted x l).
Proof using Type*.
  induction 1 as [|y l Hl IH Hy]; simpl; [by repeat constructor|].
  destruct (le x y) eqn:Exy.
  - constructor; [by constructor|]. constructor; [done|].
    eapply Forall_impl; [done|]. simpl. eauto.
  - constructor; [done|]. rewrite insert_sorted_perm. constructor; [|done].
    destruct (le_total x y); congruence.
Qed.

Lemma stable_sort_sorted l : sorted (stable_sort l).
Proof using Type*. induction l; simpl; [constructor|]. by apply insert_sorted_sorted. Qed.

End stable_sort.

Lemma stable_sort_id {A} (le : A -> A -> bool) l :
  StronglySorted (fun x y => le x y = true) l -> stable_sort le l = l.
Proof.
  induction 1 as [|x l Hl IH Hx]; simpl; [done|]. fold (stable_sort le l). rewrite IH.
  destruct l as [|y l]; simpl; [done|]. inversion Hx as [|?? E ?]; subst. by rewrite E.
Qed.

Lemma StronglySorted_weaken {A} (R R' : A -> A -> Prop) l :
  (forall x y, R x y -> R' x y) -> StronglySorted R l -> StronglySorted R' l.
Proof.
  intros HR. induction 1 as [|x l Hl IH Hx]; constructor; [done|]. eapply Forall_impl; [done|]. auto.
Qed.

(** ** Positions *)

Section positions.
Context {A : Type} (P : A -> Prop) `{!forall x, Decision (P x)}.
Implicit Types l es : list A.

(** The positions of the elements that satisfy [P], from [k] on. *)
Fixpoint positions_from (k : nat) l : list nat :=
  match l with
  | [] => []
  | x :: l' => if decide (P x) then k :: positions_from (S k) l' else positions_from (S k) l'
  end.

(** The list with its [P] elements replaced in order by [es]. *)
Fixpoint refill l es : list A :=
  match l with
  | [] => []
  | x :: l' =>
      if decide (P x) then
        match es with
        | e :: es' => e :: refill l' es'
        | [] => l
        end
      else x :: refill l' es
  end.

Lemma length_positions_from k l : length (positions_from k l) = length (filter P l).
Proof.
  revert k. induction l as [|x l IH]; intros k; simpl; [done|].
  rewrite filter_cons. case_decide; simpl; by rewrite IH.
Qed.

Lemma positions_from_S k l : positions_from (S k) l = S <$> positions_from k l.
Proof.
  revert k. induction l as [|x l IH]; intros k; simpl; [done|].
  case_decide; csimpl; by rewrite IH.
Qed.

Lemma lookup_positions l : mapM (l !!.) (positions_from 0 l) = Some (filter P l).
Proof.
  assert (Haux : forall pre, mapM ((pre ++ l) !!.) (positions_from (length pre) l) = Some (filter P l)).
  { induction l as [|x l IH]; intros pre; simpl; [done|].
    specialize (IH (pre ++ [x])). rewrite <-app_assoc, length_app, Nat.add_1_r in IH. simpl in IH.
    rewrite filter_cons. case_decide; [|done].
    simpl. rewrite list_lookup_middle by done. simpl. by rewrite IH. }
  apply (Haux []).
Qed.

(** Writing [es] to the positions of the [P] elements. *)
Lemma write_positions l es :
  length es = length (filter P l) ->
  foldl (fun acc pe => <[pe.1 := pe.2]> acc) l (zip (positions_from 0 l) es) = refill l es.
Proof.
  assert (Haux : forall pre es, length es = length (filter P l) ->
    foldl (fun acc pe => <[pe.1 := pe.2]> acc) (pre ++ l) (zip (positions_from (length pre) l) es)
    = pre ++ refill l es).
  { induction l as [|x l IH]; intros pre es'; simpl; [done|].
    pose proof (fun y => IH (pre ++ [y])) as IH'. setoid_rewrite length_app in IH'.
    setoid_rewrite Nat.add_1_r in IH'. setoid_rewrite <-app_assoc in IH'. simpl in IH'.
    rewrite filter_cons. case_decide; intros Hlen.
    - destruct es' as [|e es']; [done|]. simpl in *.
      rewrite insert_app_r_alt, Nat.sub_diag by done. simpl. apply IH'. lia.
    - by apply IH'. }
  apply (Haux []).
Qed.

Lemma length_refill l es : length (refill l es) = length l.
Proof.
  revert es. induction l as [|x l IH]; intros es; simpl; [done|].
  case_decide; [destruct es|]; simpl; auto.
Qed.

Lemma refill_filter l : refill l (filter P l) = l.
Proof.
  induction l as [|x l IH]; simpl; [done|]. case_decide.
  - rewrite filter_cons_True by done. by rewrite IH.
  - rewrite filter_cons_False by done. by rewrite IH.
Qed.

Lemma filter_refill l es :
  length es = length (filter P l) -> Forall P es -> filter P (refill l es) = es.
Proof.
  revert es. induction l as [|x l IH]; intros es; simpl; [by destruct es|].
  rewrite filter_cons. case_decide; simpl; intros Hlen Hes.
  - destruct es as [|e es]; [done|]. inversion Hes; subst.
    rewrite filter_cons_True by done. f_equal. apply IH; [simpl in *; lia|done].
  - rewrite filter_cons_False by done. by apply IH.
Qed.

Lemma refill_perm l es : es ≡ₚ filter P l -> refill l es ≡ₚ l.
Proof.
  intros Hes. transitivity (filter P l ++ filter (fun x => ~ P x) l); [|by rewrite filter_app_complement].
  rewrite <-Hes. assert (Hlen : length es = length (filter P l)) by (by rewrite Hes). clear Hes.
  revert es Hlen. induction l as [|x l IH]; intros es; simpl.
  - rewrite !filter_nil. by destruct es.
  - rewrite !filter_cons. case_decide as Hx; simpl; intros Hlen.
    + rewrite decide_False by tauto. destruct es as [|e es]; [done|]. simpl in *.
      by rewrite IH by lia.
    + rewrite decide_True by done. rewrite IH by done. by rewrite Permutation_middle.
Qed.

Lemma Forall_refill (Q : A -> Prop) l es :
  Forall Q l -> Forall Q es -> Forall Q (refill l es).
Proof.
  revert es. induction l as [|x l IH]; intros es Hl Hes; simpl; [done|]. inversion Hl; subst.
  case_decide; [destruct es as [|e es]; [done|inversion Hes; subst]|]; constructor; auto.
Qed.

(** Elements of the other kinds stay where they were. *)
Lemma filter_refill_other (Q : A -> Prop) `{!forall x, Decision (Q x)} l es :
  Forall (fun e => ~ Q e) es -> (forall x, P x -> ~ Q x) ->
  filter Q (refill l es) = filter Q l.
Proof.
  intros Hes HPQ. revert es Hes. induction l as [|x l IH]; intros es Hes; simpl; [done|].
  case_decide.
  - destruct es as [|e es]; [done|]. inversion Hes; subst.
    rewrite !filter_cons_False by auto. by apply IH.
  - rewrite !filter_cons. case_decide; by rewrite IH.
Qed.

Lemma fmap_refill {B} (f : A -> B) (b : B) l es :
  (forall x, P x -> f x = b) -> Forall (fun e => f e = b) es -> f <$> refill l es = f <$> l.
Proof.
  intros HP. revert es. induction l as [|x l IH]; intros es Hes; simpl; [done|].
  case_decide.
  - destruct es as [|e es]; [done|]. inversion Hes; subst. csimpl. rewrite IH by done.
    f_equal. symmetry. by apply HP.
  - csimpl. by rewrite IH.
Qed.

End positions.
