(* ===== verification/State.v ===== *)
(** * Stateful Rust code

    The state and error monad for the methods that take [&mut] state and
    return a [Result], its total-correctness triples, and the big-endian
    encoding of integers. *)
From S2P Require Import Prelude.

(** [Vec<u8>], [Bytes] and the like: one integer per byte. *)
Abbreviation Bytes := (list Z) (only parsing).

(** A computation on a mutable state: what it did to the state is kept when it
    returns an error. *)
Definition ST (S E A : Type) : Type := S -> S * Exec E A.

#[export] Instance st_ret {S E} : MRet (ST S E) := fun A a s => (s, Ret a).

#[export] Instance st_bind {S E} : MBind (ST S E) := fun A B f m s =>
  match m s with
  | (s', Ret a) => f a s'
  | (s', Err e) => (s', Err e)
  | (s', Panic) => (s', Panic)
  | (s', Diverge) => (s', Diverge)
  end.

(** [return Err(e)] *)
Definition throw {S E A} (e : E) : ST S E A := fun s => (s, Err e).

(** A read of the state. *)
Definition gets {S E A} (f : S -> A) : ST S E A := fun s => (s, Ret (f s)).

(** An update of the state that cannot fail. *)
Definition modify {S E} (f : S -> S) : ST S E unit := fun s => (f s, Ret tt).

(** [r.map_err(f)?] on a stateful call. *)
Definition st_map_err {S E E' A} (f : E -> E') (m : ST S E A) : ST S E' A := fun s =>
  match m s with (s', r) => (s', map_err f r) end.

(** [ensure!(b, e)] *)
Definition st_ensure {S E} (b : bool) (e : E) : ST S E unit :=
  if b then mret tt else throw e.

(** [a.checked_add(b)] and [a.checked_sub(b)] on an unsigned type with maximum
    [m]. *)
Definition checked_add (m a b : Z) : option Z := if a + b <=? m then Some (a + b) else None.
Definition checked_sub (a b : Z) : option Z := if b <=? a then Some (a - b) else None.

(** [o.ok_or(e)?] *)
Definition st_ok_or {S E A} (o : option A) (e : E) : ST S E A :=
  match o with Some a => mret a | None => throw e end.

(** Total correctness: the run returns a value and a state satisfying [Q], or
    an error and a state satisfying [R]. *)
Definition swp {S E A} (m : ST S E A) (s : S) (Q : A -> S -> Prop) (R : E -> S -> Prop) : Prop :=
  match m s with
  | (s', Ret a) => Q a s'
  | (s', Err e) => R e s'
  | (_, Panic) | (_, Diverge) => False
  end.

(** The [n] bytes of an integer, most significant first. *)
Fixpoint to_be_bytes (n : nat) (v : Z) : list Z :=
  match n with
  | O => []
  | S n' => to_be_bytes n' (v / 256) ++ [v mod 256]
  end.

(** The integer of big-endian bytes. *)
Definition from_be_bytes (l : list Z) : Z := foldl (fun acc b => acc * 256 + b) 0 l.

(** ** Lemmas *)

Section swp.
Context {S E A B : Type}.
Implicit Types m : ST S E A.

Lemma swp_ret (a : A) (s : S) (Q : A -> S -> Prop) (R : E -> S -> Prop) : Q a s -> swp (mret a) s Q R.
Proof. done. Qed.

Lemma swp_throw (e : E) (s : S) (Q : A -> S -> Prop) (R : E -> S -> Prop) : R e s -> swp (throw e) s Q R.
Proof. done. Qed.

Lemma swp_bind m (f : A -> ST S E B) s Q R :
  swp m s (fun a s' => swp (f a) s' Q R) R -> swp (m ≫= f) s Q R.
Proof.
  unfold swp, mbind, st_bind. by destruct (m s) as [s' [a|e| |]].
Qed.

Lemma swp_mono m s (Q Q' : A -> S -> Prop) (R R' : E -> S -> Prop) :
  swp m s Q R -> (forall a s', Q a s' -> Q' a s') -> (forall e s', R e s' -> R' e s') ->
  swp m s Q' R'.
Proof. unfold swp. destruct (m s) as [s' [a|e| |]]; auto. Qed.

Lemma swp_gets (f : S -> A) s (Q : A -> S -> Prop) (R : E -> S -> Prop) :
  Q (f s) s -> swp (gets f) s Q R.
Proof. done. Qed.

Lemma swp_modify (f : S -> S) s (Q : unit -> S -> Prop) (R : E -> S -> Prop) :
  Q tt (f s) -> swp (modify f) s Q R.
Proof. done. Qed.

Lemma swp_ensure (b : bool) (e : E) s (Q : unit -> S -> Prop) (R : E -> S -> Prop) :
  (b = true -> Q tt s) -> (b = false -> R e s) -> swp (st_ensure b e) s Q R.
Proof. destruct b; cbv; auto. Qed.

Lemma swp_map_err {E'} (g : E' -> E) (m : ST S E' A) s (Q : A -> S -> Prop) (R : E -> S -> Prop) :
  swp m s Q (fun e s' => R (g e) s') -> swp (st_map_err g m) s Q R.
Proof. unfold swp, st_map_err. by destruct (m s) as [s' [a|e| |]]. Qed.

Lemma swp_ok_or (o : option A) (e : E) s (Q : A -> S -> Prop) (R : E -> S -> Prop) :
  (forall a, o = Some a -> Q a s) -> (o = None -> R e s) -> swp (st_ok_or o e) s Q R.
Proof. destruct o; cbv; auto. Qed.

End swp.

(** A stateful bind that returned. *)
Lemma st_bind_Ret {S E A B} (m : ST S E A) (f : A -> ST S E B) s s' b :
  (m ≫= f) s = (s', Ret b) -> exists a s1, m s = (s1, Ret a) /\ f a s1 = (s', Ret b).
Proof. unfold mbind, st_bind. destruct (m s) as [s1 [a|e| |]]; naive_solver. Qed.

Lemma checked_add_Some m a b v : checked_add m a b = Some v <-> v = a + b /\ a + b <= m.
Proof. unfold checked_add. destruct (Z.leb_spec (a + b) m); naive_solver lia. Qed.

Lemma checked_sub_Some a b v : checked_sub a b = Some v <-> v = a - b /\ b <= a.
Proof. unfold checked_sub. destruct (Z.leb_spec b a); naive_solver lia. Qed.

Lemma length_to_be_bytes n v : length (to_be_bytes n v) = n.
Proof.
  revert v. induction n as [|n IH]; intros v; [done|]. simpl. rewrite length_app, IH. simpl. lia.
Qed.

Lemma to_be_bytes_range n v : Forall (fun b => 0 <= b < 256) (to_be_bytes n v).
Proof.
  revert v. induction n as [|n IH]; intros v; simpl; [done|]. apply Forall_app. split; [done|].
  constructor; [|done]. apply Z.mod_pos_bound. lia.
Qed.

(** Encoding and decoding an [n]-byte integer. *)
Lemma from_to_be_bytes n v : 0 <= v < 256 ^ Z.of_nat n -> from_be_bytes (to_be_bytes n v) = v.
Proof.
  revert v. induction n as [|n IH]; intros v Hv; [simpl in *; unfold from_be_bytes; simpl; lia|].
  unfold from_be_bytes in *. simpl. rewrite foldl_app, IH.
  - simpl. pose proof (Z.div_mod v 256). lia.
  - rewrite Nat2Z.inj_succ, Z.pow_succ_r in Hv by lia.
    split; [apply Z.div_pos; lia|]. apply Z.div_lt_upper_bound; lia.
Qed.

Lemma to_be_bytes_inj n v w :
  0 <= v < 256 ^ Z.of_nat n -> 0 <= w < 256 ^ Z.of_nat n -> to_be_bytes n v = to_be_bytes n w -> v = w.
Proof. intros Hv Hw Heq. rewrite <- (from_to_be_bytes n v), <- (from_to_be_bytes n w), Heq; done. Qed.
