(* ===== verification/Types.v ===== *)
(** * Consensus data types

    The data the primary's consensus works on, from
    [crates/infrastructure/types/src]: nonces ([nonce.rs]), headers
    ([primary/header.rs]), certificates ([primary/certificate.rs]) and the
    interface of the cryptographic libraries they call. *)
From S2P Require Import Prelude.

(** ** Identifiers and integers

    32-byte identifiers and digests are the big-endian number of their bytes,
    whose order is the derived lexicographic [Ord] of the byte array. *)
Abbreviation Round := Z (only parsing).
Abbreviation Epoch := Z (only parsing).
Abbreviation VotingPower := Z (only parsing).
Abbreviation TimestampSec := Z (only parsing).
Abbreviation WorkerId := Z (only parsing).
Abbreviation AuthorityIdentifier := Z (only parsing).
Abbreviation BlsPublicKey := Z (only parsing).
Abbreviation BlsSignature := Z (only parsing).
Abbreviation Address := Z (only parsing).
Abbreviation BlockHash := Z (only parsing).
Abbreviation B256 := Z (only parsing).
Abbreviation CertificateDigest := Z (only parsing).
Abbreviation HeaderDigest := Z (only parsing).

(** ** Nonces *)

(** [((epoch as u64) << 32) | round as u64] *)
Definition pack_nonce (epoch : Epoch) (round : Round) : Z :=
  Z.lor (Z.shiftl epoch 32) round.

(** [((nonce >> 32) as u32, nonce as u32)] *)
Definition unpack_nonce (nonce : Z) : Epoch * Round :=
  (Z.land (Z.shiftr nonce 32) u32_max, Z.land nonce u32_max).

(** ** Headers *)

Record BlockNumHash := { bnh_number : Z; bnh_hash : BlockHash }.

(** The serialized fields of a [Header]; the cached digest is off-wire. *)
Record HeaderFields := {
  author : AuthorityIdentifier;
  round : Round;
  epoch : Epoch;
  created_at : TimestampSec;
  payload : list (BlockHash * WorkerId);
  parents : gset CertificateDigest;
  latest_execution_block : BlockNumHash
}.

(** A header with its [OnceCell] digest cache. *)
Record Header := {
  fields :> HeaderFields;
  digest_cell : option HeaderDigest
}.

(** ** Certificates *)

Inductive SignatureVerificationState :=
  | Unsigned (sig : BlsSignature)
  | Unverified (sig : BlsSignature)
  | VerifiedDirectly (sig : BlsSignature)
  | VerifiedIndirectly (sig : BlsSignature)
  | Genesis.

(** [signed_authorities] is the roaring bitmap of committee positions. *)
Record Certificate := {
  header : Header;
  signature_verification_state : SignatureVerificationState;
  signed_authorities : gset Z;
  cert_created_at : TimestampSec
}.

(** ** External cryptography

    The hash function over the BCS encoding of a header, the hash that derives
    an authority's identifier from its BLS key, and the BLS operations are
    libraries outside the repository. *)
Class Crypto := {
  header_hash : HeaderFields -> HeaderDigest;
  key_hash : BlsPublicKey -> AuthorityIdentifier;
  verify_secure : BlsSignature -> HeaderDigest -> BlsPublicKey -> bool;
  aggregate : list BlsSignature -> option BlsSignature;
  verify_aggregate : BlsSignature -> HeaderDigest -> list BlsPublicKey -> bool;
  default_signature : BlsSignature
}.

#[export] Instance BlockNumHash_eq_dec : EqDecision BlockNumHash.
Proof. solve_decision. Defined.
#[export] Instance HeaderFields_eq_dec : EqDecision HeaderFields.
Proof. solve_decision. Defined.
#[export] Instance Header_eq_dec : EqDecision Header.
Proof. solve_decision. Defined.
#[export] Instance SignatureVerificationState_eq_dec :
  EqDecision SignatureVerificationState.
Proof. solve_decision. Defined.
#[export] Instance Certificate_eq_dec : EqDecision Certificate.
Proof. solve_decision. Defined.

Section accessors.
Context `{!Crypto}.

(** [Header::digest]: the cached digest, computed on first use. *)
Definition header_digest (h : Header) : HeaderDigest :=
  match digest_cell h with Some d => d | None => header_hash h end.

(** [Header::nonce] *)
Definition header_nonce (h : Header) : Z := pack_nonce (epoch h) (round h).

(** [Certificate::digest] is the digest of its header. *)
Definition digest (c : Certificate) : CertificateDigest := header_digest (header c).

Definition cert_round (c : Certificate) : Round := round (header c).
Definition cert_epoch (c : Certificate) : Epoch := epoch (header c).
Definition origin (c : Certificate) : AuthorityIdentifier := author (header c).
Definition nonce (c : Certificate) : Z := header_nonce (header c).
Definition cert_parents (c : Certificate) : gset CertificateDigest :=
  parents (header c).

(** [impl PartialEq for Certificate] *)
Definition cert_eqb (c1 c2 : Certificate) : bool :=
  (digest c1 =? digest c2) && (cert_round c1 =? cert_round c2)
  && (cert_epoch c1 =? cert_epoch c2) && (origin c1 =? origin c2).

(** [Certificate::aggregated_signature] *)
Definition aggregated_signature (c : Certificate) : option BlsSignature :=
  match signature_verification_state c with
  | VerifiedDirectly sig | VerifiedIndirectly sig
  | Unverified sig | Unsigned sig => Some sig
  | Genesis => None
  end.

(** [Certificate::is_verified] *)
Definition is_verified (c : Certificate) : bool :=
  match signature_verification_state c with
  | VerifiedDirectly _ | VerifiedIndirectly _ | Genesis => true
  | Unverified _ | Unsigned _ => false
  end.

(** [Certificate::set_signature_verification_state] *)
Definition set_signature_verification_state
    (c : Certificate) (s : SignatureVerificationState) : Certificate :=
  {| header := header c; signature_verification_state := s;
     signed_authorities := signed_authorities c;
     cert_created_at := cert_created_at c |}.

End accessors.

(** The in-memory DAG: for every round, the certificate of each authority
    with its digest. *)
Abbreviation Dag :=
  (gmap Z (gmap Z (Z * Certificate))) (only parsing).

(** Iterating a [BTreeSet] visits its elements in ascending order. *)
Definition btree_set_list (s : gset Z) : list Z := merge_sort Z.le (elements s).

(** ** A concrete instance

    Instantiates the external functions so that closed runs evaluate. *)
Definition example_crypto : Crypto := {|
  header_hash := fun h => round h * 1000 + author h;
  key_hash := fun k => k;
  verify_secure := fun sig d k => sig =? d * 100 + k;
  aggregate := fun sigs => Some (zsum sigs);
  verify_aggregate := fun sig d ks => sig =? zsum ((fun k => d * 100 + k) <$> ks);
  default_signature := 0
|}.

(** The header and certificate of authority [a] at round [r]. *)
Definition example_header (a r : Z) (ps : list Z) : Header :=
  {| fields := {| author := a; round := r; epoch := 0; created_at := r;
                  payload := []; parents := list_to_set ps;
                  latest_execution_block := {| bnh_number := 0; bnh_hash := 0 |} |};
     digest_cell := None |}.

Definition example_cert (a r : Z) (ps : list Z) : Certificate :=
  {| header := example_header a r ps;
     signature_verification_state := VerifiedDirectly 0;
     signed_authorities := ∅; cert_created_at := 0 |}.

(** ** Lemmas *)

Lemma elem_of_btree_set_list s x : x ∈ btree_set_list s <-> x ∈ s.
Proof.
  unfold btree_set_list. rewrite merge_sort_Permutation. apply elem_of_elements.
Qed.

Lemma cert_eqb_refl `{!Crypto} c : cert_eqb c c = true.
Proof. unfold cert_eqb. by rewrite !Z.eqb_refl. Qed.

Lemma cert_eqb_digest `{!Crypto} c1 c2 :
  cert_eqb c1 c2 = true -> digest c1 = digest c2.
Proof. unfold cert_eqb. rewrite !andb_true_iff, !Z.eqb_eq. naive_solver. Qed.

Lemma pack_nonce_add e r :
  0 <= r <= u32_max -> pack_nonce e r = e * 2 ^ 32 + r.
Proof.
  intros Hr. unfold pack_nonce.
  rewrite <- Z.lxor_lor, <- Z.add_nocarry_lxor, Z.shiftl_mul_pow2; [done|lia|..].
  all: apply Z.bits_inj'; intros n Hn; rewrite Z.land_spec, Z.bits_0.
  all: destruct (Z.ltb_spec n 32) as [Hlt|Hge].
  all: try (rewrite Z.shiftl_spec_low by lia; done).
  all: rewrite andb_false_iff; right; apply Z.bits_above_log2; [lia|].
  all: destruct (decide (r = 0)) as [->|]; [simpl; lia|].
  all: apply Z.lt_le_trans with 32; [|lia]; apply Z.log2_lt_pow2; [lia|ulia].
Qed.

Lemma unpack_nonce_divmod n :
  unpack_nonce n = ((n / 2 ^ 32) mod 2 ^ 32, n mod 2 ^ 32).
Proof.
  unfold unpack_nonce, u32_max.
  replace (2 ^ 32 - 1) with (Z.ones 32) by done.
  by rewrite !Z.land_ones, Z.shiftr_div_pow2 by lia.
Qed.

(** packing an epoch and a round into an execution nonce and unpacking it
    returns them unchanged, for every pair of 32-bit values. *)
Theorem nonce_roundtrip e r :
  0 <= e <= u32_max -> 0 <= r <= u32_max -> unpack_nonce (pack_nonce e r) = (e, r).
Proof.
  intros He Hr. rewrite pack_nonce_add, unpack_nonce_divmod by done.
  unfold u32_max in *.
  rewrite Z.div_add_l, (Z.div_small r), (Z.add_comm (e * _)), Z.mod_add by lia.
  rewrite Z.add_0_r. by rewrite !Z.mod_small by lia.
Qed.

Lemma nonce_roundtrip_witness :
  unpack_nonce (pack_nonce 7 498) = (7, 498) /\ pack_nonce 1 0 = 2 ^ 32.
Proof.
  split; [|reflexivity].
  apply (nonce_roundtrip 7 498); split; unfold u32_max; lia.
Defined.
