(* ===== verification/Committee.v ===== *)
(** * Committee

    [crates/infrastructure/types/src/committee.rs]: the validators of an epoch,
    their voting power, the quorum and validity thresholds and the indexes the
    committee is queried through. *)
From S2P Require Import Prelude Types.

(** The committee constructor has no error values: it returns or panics. *)
Abbreviation NoErr := Empty_set (only parsing).

Record Authority := {
  protocol_key : BlsPublicKey;
  authority_voting_power : VotingPower;
  execution_address : Address;
  id : AuthorityIdentifier
}.

Record P2pNode := { network_address : Z; network_key : Z }.
Record BootstrapServer := { bs_primary : P2pNode; bs_worker : P2pNode }.

Record Committee := {
  authorities_map : gmap BlsPublicKey Authority;
  authorities_by_id : gmap AuthorityIdentifier Authority;
  committee_epoch : Epoch;
  quorum_threshold : VotingPower;
  validity_threshold : VotingPower;
  bootstrap_servers : gmap BlsPublicKey BootstrapServer
}.

Record CommitteeBuilder := {
  cb_epoch : Epoch;
  cb_authorities : gmap BlsPublicKey Authority;
  cb_bootstrap_server : gmap BlsPublicKey BootstrapServer
}.

#[export] Instance Authority_eq_dec : EqDecision Authority.
Proof. solve_decision. Defined.

Section committee.
Context `{!Crypto}.

(** [Authority::new] *)
Definition Authority_new (key : BlsPublicKey) (power : VotingPower)
    (addr : Address) : Authority :=
  {| protocol_key := key; authority_voting_power := power;
     execution_address := addr; id := key_hash key |}.

(** [CommitteeInner::total_voting_power] *)
Definition total_voting_power (auths : gmap BlsPublicKey Authority) : Exec NoErr VotingPower :=
  usum u64_max 0 (authority_voting_power <$> btree_values auths).

(** [CommitteeInner::calculate_quorum_threshold] *)
Definition calculate_quorum_threshold (auths : gmap BlsPublicKey Authority) :
    Exec NoErr VotingPower :=
  total_votes ← total_voting_power auths;
  doubled ← umul u64_max 2 total_votes;
  uadd u64_max (doubled / 3) 1.

(** [CommitteeInner::calculate_validity_threshold]: [div_ceil(3)], at least 1. *)
Definition calculate_validity_threshold (auths : gmap BlsPublicKey Authority) :
    Exec NoErr VotingPower :=
  total_votes ← total_voting_power auths;
  let t := (total_votes + 2) / 3 in
  mret (if t =? 0 then 1 else t).

(** [CommitteeInner::load], in a build without [dev-single-node-setup]. *)
Definition load (c : Committee) : Exec NoErr Committee :=
  let by_id := btree_collect ((fun a => (id a, a)) <$> btree_values (authorities_map c)) in
  validity ← calculate_validity_threshold (authorities_map c);
  quorum ← calculate_quorum_threshold (authorities_map c);
  _ ← rassert (1 <? Z.of_nat (size by_id));
  mret {| authorities_map := authorities_map c;
          authorities_by_id := by_id;
          committee_epoch := committee_epoch c;
          quorum_threshold := quorum;
          validity_threshold := validity;
          bootstrap_servers := bootstrap_servers c |}.

(** [Committee::new] *)
Definition Committee_new (auths : gmap BlsPublicKey Authority) (e : Epoch)
    (servers : gmap BlsPublicKey BootstrapServer) : Exec NoErr Committee :=
  c ← load {| authorities_map := auths; authorities_by_id := ∅; committee_epoch := e;
              quorum_threshold := 0; validity_threshold := 0;
              bootstrap_servers := servers |};
  _ ← rassert (Z.of_nat (size (authorities_by_id c))
               =? Z.of_nat (size (authorities_map c)));
  validity ← calculate_validity_threshold (authorities_map c);
  _ ← rassert (validity_threshold c =? validity);
  quorum ← calculate_quorum_threshold (authorities_map c);
  _ ← rassert (quorum_threshold c =? quorum);
  mret c.

(** [CommitteeBuilder::new] *)
Definition CommitteeBuilder_new (e : Epoch) : CommitteeBuilder :=
  {| cb_epoch := e; cb_authorities := ∅; cb_bootstrap_server := ∅ |}.

(** [CommitteeBuilder::add_authority] *)
Definition add_authority (b : CommitteeBuilder) (key : BlsPublicKey)
    (stake : VotingPower) (addr : Address) : CommitteeBuilder :=
  {| cb_epoch := cb_epoch b;
     cb_authorities := <[key := Authority_new key stake addr]> (cb_authorities b);
     cb_bootstrap_server := cb_bootstrap_server b |}.

(** [CommitteeBuilder::add_bootstrap_server] *)
Definition add_bootstrap_server (b : CommitteeBuilder) (key : BlsPublicKey)
    (primary worker : P2pNode) : CommitteeBuilder :=
  {| cb_epoch := cb_epoch b; cb_authorities := cb_authorities b;
     cb_bootstrap_server :=
       <[key := {| bs_primary := primary; bs_worker := worker |}]> (cb_bootstrap_server b) |}.

(** [CommitteeBuilder::add_authority_and_bootstrap] *)
Definition add_authority_and_bootstrap (b : CommitteeBuilder) (key : BlsPublicKey)
    (stake : VotingPower) (primary worker : P2pNode) (addr : Address) :
    CommitteeBuilder :=
  {| cb_epoch := cb_epoch b;
     cb_authorities := <[key := Authority_new key stake addr]> (cb_authorities b);
     cb_bootstrap_server :=
       <[key := {| bs_primary := primary; bs_worker := worker |}]> (cb_bootstrap_server b) |}.

(** [CommitteeBuilder::build] *)
Definition build (b : CommitteeBuilder) : Exec NoErr Committee :=
  Committee_new (cb_authorities b) (cb_epoch b) (cb_bootstrap_server b).

End committee.

(** ** Queries *)

(** [Committee::authority] *)
Definition committee_authority (c : Committee) (i : AuthorityIdentifier) : option Authority :=
  authorities_by_id c !! i.

(** [Committee::authority_by_key] *)
Definition authority_by_key (c : Committee) (k : BlsPublicKey) : option Authority :=
  authorities_map c !! k.

(** [Committee::authorities]: sorted by identifier. *)
Definition authorities (c : Committee) : list Authority :=
  btree_values (authorities_by_id c).

(** [Committee::is_authority] *)
Definition is_authority (c : Committee) (i : AuthorityIdentifier) : bool :=
  bool_decide (is_Some (authorities_by_id c !! i)).

(** [Committee::size] *)
Definition committee_size (c : Committee) : Z := Z.of_nat (size (authorities_map c)).

(** [Committee::voting_power] *)
Definition voting_power (c : Committee) (name : BlsPublicKey) : VotingPower :=
  match authorities_map c !! name with
  | Some a => authority_voting_power a
  | None => 0
  end.

(** [Committee::voting_power_by_id] *)
Definition voting_power_by_id (c : Committee) (i : AuthorityIdentifier) : VotingPower :=
  match authorities_by_id c !! i with
  | Some a => authority_voting_power a
  | None => 0
  end.

(** [Committee::reached_quorum] *)
Definition reached_quorum (c : Committee) (power : VotingPower) : bool :=
  quorum_threshold c <=? power.

(** [Committee::reached_validity] *)
Definition reached_validity (c : Committee) (power : VotingPower) : bool :=
  validity_threshold c <=? power.

(** [Committee::others_primaries_by_id] *)
Definition others_primaries_by_id (c : Committee) (myself : option AuthorityIdentifier) :
    list (AuthorityIdentifier * BlsPublicKey) :=
  (fun a => (id a, protocol_key a)) <$>
  List.filter (fun a => match myself with
                   | Some m => negb (id a =? m)
                   | None => true
                   end) (btree_values (authorities_map c)).

(** [Committee::others_keys_except] *)
Definition others_keys_except (c : Committee) (myself : BlsPublicKey) : list BlsPublicKey :=
  protocol_key <$>
  List.filter (fun a => negb (protocol_key a =? myself)) (btree_values (authorities_map c)).

(** [Committee::bls_keys] *)
Definition bls_keys (c : Committee) : list BlsPublicKey :=
  protocol_key <$> btree_values (authorities_map c).

(** [Committee::number_of_workers] *)
Definition number_of_workers : Z := 1.

(** [quorum_threshold(committee_members)], every member having voting power 1. *)
Definition quorum_threshold_of (committee_members : Z) : Exec NoErr Z :=
  doubled ← umul u64_max 2 committee_members;
  uadd u64_max (doubled / 3) 1.

(** ** Specification *)

(** The voting power of a set of authorities. *)
Definition stake_of (c : Committee) (X : gset AuthorityIdentifier) : Z :=
  wsum (voting_power_by_id c) X.

(** The voting power of the whole committee. *)
Definition total_power (c : Committee) : Z :=
  zsum (authority_voting_power <$> btree_values (authorities_map c)).

(** The number of faulty units of voting power the committee tolerates. *)
Definition max_faulty (c : Committee) : Z := (total_power c - 1) / 3.

(** The authorities a committee is built from: each is stored under its own
    key, with a voting power in the range of its type. *)
Definition authorities_ok (auths : gmap BlsPublicKey Authority) : Prop :=
  forall k a, auths !! k = Some a ->
  protocol_key a = k /\ 0 <= authority_voting_power a <= u64_max.

(** What a constructed committee satisfies. *)
Record committee_wf (c : Committee) : Prop := {
  wf_authorities : authorities_ok (authorities_map c);
  wf_by_id : forall i a, authorities_by_id c !! i = Some a <->
    id a = i /\ exists k, authorities_map c !! k = Some a;
  wf_values : btree_values (authorities_by_id c) ≡ₚ btree_values (authorities_map c);
  wf_size : 1 < committee_size c;
  wf_quorum : quorum_threshold c = 2 * total_power c / 3 + 1;
  wf_validity : validity_threshold c = Z.max 1 ((total_power c + 2) / 3);
  wf_total : 2 * total_power c <= u64_max
}.

(** ** A concrete committee of four authorities of equal power *)

Definition example_builder : CommitteeBuilder :=
  foldl (fun b k => add_authority (H := example_crypto) b k 1 k)
        (CommitteeBuilder_new 0) [1; 2; 3; 4].

Definition example_committee : Committee :=
  match build example_builder with
  | Ret c => c
  | _ => {| authorities_map := ∅; authorities_by_id := ∅; committee_epoch := 0;
            quorum_threshold := 0; validity_threshold := 0; bootstrap_servers := ∅ |}
  end.

(** ** Lemmas *)

Lemma authorities_ok_nonneg auths :
  authorities_ok auths ->
  Forall (fun x => 0 <= x) (authority_voting_power <$> btree_values auths).
Proof.
  intros Hok. apply Forall_fmap, Forall_forall.
  intros a [k Hk]%elem_of_btree_values. apply Hok in Hk as [_ Hp]. simpl. lia.
Qed.

Lemma total_power_nonneg c : authorities_ok (authorities_map c) -> 0 <= total_power c.
Proof. intros. by apply zsum_nonneg, authorities_ok_nonneg. Qed.

Lemma total_voting_power_Ret auths v :
  total_voting_power auths = Ret v ->
  v = zsum (authority_voting_power <$> btree_values auths).
Proof. intros Hv%usum_Ret. lia. Qed.

Lemma validity_Ret auths v :
  calculate_validity_threshold auths = Ret v ->
  authorities_ok auths ->
  v = Z.max 1 ((zsum (authority_voting_power <$> btree_values auths) + 2) / 3).
Proof.
  unfold calculate_validity_threshold. intros Hv Hok. exec_simpl.
  apply total_voting_power_Ret in Hrun as ->.
  pose proof (zsum_nonneg _ (authorities_ok_nonneg _ Hok)).
  set (N := zsum _) in *.
  assert (0 <= (N + 2) / 3) by (apply Z.div_pos; lia).
  case_match eqn:Ht; [apply Z.eqb_eq in Ht|apply Z.eqb_neq in Ht]; lia.
Qed.

Lemma quorum_Ret auths v :
  calculate_quorum_threshold auths = Ret v ->
  let N := zsum (authority_voting_power <$> btree_values auths) in
  v = 2 * N / 3 + 1 /\ 2 * N <= u64_max.
Proof.
  unfold calculate_quorum_threshold. intros Hv. exec_simpl.
  apply total_voting_power_Ret in Hrun as ->. done.
Qed.

Lemma by_id_collect (auths : gmap BlsPublicKey Authority) :
  let l := (fun a => (id a, a)) <$> btree_values auths in
  size (btree_collect l) = size auths -> NoDup l.*1.
Proof.
  intros l Hs. rewrite btree_collect_list_to_map in Hs.
  assert (NoDup (reverse l).*1) as HN.
  { apply size_list_to_map_NoDup. rewrite Hs, length_reverse. subst l.
    by rewrite length_fmap, length_btree_values. }
  by rewrite fmap_reverse, reverse_Permutation in HN.
Qed.

Lemma by_id_values (auths : gmap BlsPublicKey Authority) :
  let l := (fun a => (id a, a)) <$> btree_values auths in
  NoDup l.*1 -> btree_list (btree_collect l) ≡ₚ l.
Proof.
  intros l HN. rewrite btree_list_perm, btree_collect_list_to_map.
  rewrite map_to_list_to_map; [apply reverse_Permutation|].
  by rewrite fmap_reverse, reverse_Permutation.
Qed.

Lemma Committee_new_inv auths e servers c :
  Committee_new auths e servers = Ret c ->
  authorities_map c = auths /\ committee_epoch c = e /\ bootstrap_servers c = servers /\
  authorities_by_id c = btree_collect ((fun a => (id a, a)) <$> btree_values auths) /\
  size (authorities_by_id c) = size auths /\ 1 < Z.of_nat (size (authorities_by_id c)) /\
  calculate_validity_threshold auths = Ret (validity_threshold c) /\
  calculate_quorum_threshold auths = Ret (quorum_threshold c).
Proof.
  unfold Committee_new, load. simpl. intros Hn. exec_simpl. simpl in *.
  rewrite Z.ltb_lt, Z.eqb_eq in *. repeat split; try done; lia.
Qed.

Lemma Committee_new_wf auths e servers c :
  authorities_ok auths -> Committee_new auths e servers = Ret c -> committee_wf c.
Proof.
  intros Hok (Hm & _ & _ & Hby & Hsz & Hgt & Hval & Hq)%Committee_new_inv.
  rewrite Hby in Hsz. pose proof (by_id_collect _ Hsz) as HN.
  pose proof (by_id_values _ HN) as Hperm.
  apply validity_Ret in Hval; [|done]. apply quorum_Ret in Hq as [Hq Ht].
  assert (size (authorities_by_id c) = size auths) as Hsz' by (by rewrite Hby).
  split; rewrite ?Hm; unfold total_power, committee_size; rewrite ?Hm; try done; [| |lia].
  - intros i a. rewrite <- elem_of_btree_list, Hby, Hperm, list_elem_of_fmap.
    setoid_rewrite elem_of_btree_values. naive_solver.
  - unfold btree_values at 1. rewrite Hby, Hperm, <- list_fmap_compose.
    by rewrite list_fmap_id.
Qed.

Section wf.
Context (c : Committee) (Hwf : committee_wf c).

Lemma voting_power_by_id_nonneg i : 0 <= voting_power_by_id c i.
Proof.
  unfold voting_power_by_id. destruct (_ !! i) as [a|] eqn:Hi; [|done].
  apply (wf_by_id _ Hwf) in Hi as (_ & k & Hk).
  apply (wf_authorities _ Hwf) in Hk as [_ ?]. lia.
Qed.

Lemma stake_of_committee :
  stake_of c (list_to_set (btree_keys (authorities_by_id c))) = total_power c.
Proof.
  unfold stake_of, total_power.
  rewrite wsum_list by apply NoDup_btree_keys.
  rewrite <- (wf_values _ Hwf). unfold btree_keys, btree_values.
  rewrite <- !list_fmap_compose. f_equal. apply list_fmap_ext.
  intros n [k a] Hka%list_elem_of_lookup_2%elem_of_btree_list. simpl.
  unfold voting_power_by_id. by rewrite Hka.
Qed.

Lemma stake_of_le_total X : stake_of c X <= total_power c.
Proof.
  rewrite <- stake_of_committee. unfold stake_of.
  set (D := list_to_set (btree_keys (authorities_by_id c))).
  pose proof (wsum_inclusion_exclusion (voting_power_by_id c) (X ∖ D) (X ∩ D)) as H1.
  assert ((X ∖ D) ∪ (X ∩ D) = X) as HX
    by (apply set_eq; intros x; destruct (decide (x ∈ D)); set_solver).
  assert ((X ∖ D) ∩ (X ∩ D) = ∅) as HI by set_solver.
  rewrite HX, HI, wsum_empty in H1.
  assert (wsum (voting_power_by_id c) (X ∖ D) = 0) as H0.
  { apply wsum_zero. intros x [_ Hx]%elem_of_difference. unfold D in Hx.
    rewrite elem_of_list_to_set, elem_of_btree_keys in Hx.
    unfold voting_power_by_id. case_match; naive_solver. }
  pose proof (wsum_mono (voting_power_by_id c) (X ∩ D) D
    voting_power_by_id_nonneg ltac:(set_solver)). lia.
Qed.

Lemma stake_of_inter X Y :
  stake_of c X + stake_of c Y - total_power c <= stake_of c (X ∩ Y).
Proof.
  pose proof (wsum_inclusion_exclusion (voting_power_by_id c) X Y) as H1.
  pose proof (stake_of_le_total (X ∪ Y)). unfold stake_of in *. lia.
Qed.

Lemma quorum_gt_faulty : 0 < quorum_threshold c /\ 0 < validity_threshold c.
Proof.
  rewrite (wf_quorum _ Hwf), (wf_validity _ Hwf).
  pose proof (total_power_nonneg c (wf_authorities _ Hwf)).
  assert (0 <= 2 * total_power c / 3) by (apply Z.div_pos; lia). lia.
Qed.

Lemma quorum_validity_sum :
  total_power c < quorum_threshold c + validity_threshold c.
Proof.
  rewrite (wf_quorum _ Hwf), (wf_validity _ Hwf).
  pose proof (total_power_nonneg c (wf_authorities _ Hwf)).
  Z.to_euclidean_division_equations. lia.
Qed.

(** A quorum and a set with validity stake share an authority. *)
Lemma quorum_meets_validity X Y :
  quorum_threshold c <= stake_of c X -> validity_threshold c <= stake_of c Y ->
  exists i, i ∈ X /\ i ∈ Y.
Proof.
  intros HX HY. pose proof quorum_validity_sum. pose proof (stake_of_inter X Y) as Hi.
  destruct (decide (X ∩ Y = ∅)) as [He|He].
  - rewrite He in Hi. unfold stake_of in Hi at 3. rewrite wsum_empty in Hi. lia.
  - apply set_choose_L in He as [i Hi']. exists i. set_solver.
Qed.

End wf.

Lemma example_build : build example_builder = Ret example_committee.
Proof. vm_compute. reflexivity. Qed.

Lemma example_authorities_ok : authorities_ok (cb_authorities example_builder).
Proof.
  apply (bool_decide_unpack (map_Forall (fun k a => protocol_key a = k /\
    0 <= authority_voting_power a <= u64_max) (cb_authorities example_builder))).
  vm_compute. exact I.
Qed.

Lemma example_committee_wf : committee_wf example_committee.
Proof.
  eapply (Committee_new_wf); [|apply example_build].
  apply example_authorities_ok.
Qed.

Lemma thresholds_values c :
  committee_wf c -> 0 < total_power c ->
  quorum_threshold c = total_power c - max_faulty c /\
  validity_threshold c = max_faulty c + 1.
Proof.
  intros Hwf Hpos. rewrite (wf_quorum _ Hwf), (wf_validity _ Hwf). unfold max_faulty.
  Z.to_euclidean_division_equations. lia.
Qed.

(** Two quorums share validity voting power, hence an honest authority. *)
Lemma quorums_share_honest c X Y :
  committee_wf c -> 0 < total_power c ->
  quorum_threshold c <= stake_of c X -> quorum_threshold c <= stake_of c Y ->
  validity_threshold c <= stake_of c (X ∩ Y) /\
  (forall F, stake_of c F <= max_faulty c -> exists i, i ∈ X /\ i ∈ Y /\ i ∉ F).
Proof.
  intros Hwf Hpos HX HY. destruct (thresholds_values c Hwf Hpos) as [Hq Hv].
  pose proof (stake_of_inter c Hwf X Y) as Hi.
  assert (validity_threshold c <= stake_of c (X ∩ Y)) as Hle.
  { rewrite Hq, Hv in *. unfold max_faulty in *. Z.to_euclidean_division_equations. lia. }
  split; [done|]. intros F HF.
  destruct (decide (X ∩ Y ⊆ F)) as [Hsub|Hsub].
  - pose proof (wsum_mono (voting_power_by_id c) _ _ (voting_power_by_id_nonneg c Hwf) Hsub).
    unfold stake_of in *. lia.
  - assert ((X ∩ Y) ∖ F ≠ ∅) as Hne by (intros He; apply Hsub; intros x Hx;
      destruct (decide (x ∈ F)); [done|set_solver]).
    apply set_choose_L in Hne as [i Hin]. exists i. set_solver.
Qed.

(** ** Properties *)

(** building a committee from authorities stored under their own keys
    either panics or yields a committee whose identifier index holds exactly
    the given authorities and whose thresholds are [2f+1] and [f+1]: [N - f] and
    [f + 1] for the largest [f] with [3f < N]. *)
Theorem committee_new_thresholds auths e servers c :
  authorities_ok auths -> Committee_new auths e servers = Ret c ->
  0 < total_power c ->
  authorities_map c = auths /\
  (forall i a, committee_authority c i = Some a <->
     id a = i /\ exists k, auths !! k = Some a) /\
  quorum_threshold c = total_power c - max_faulty c /\
  validity_threshold c = max_faulty c + 1.
Proof.
  intros Hok Hnew Hpos. pose proof (Committee_new_wf _ _ _ _ Hok Hnew) as Hwf.
  apply Committee_new_inv in Hnew as (Hm & _).
  destruct (thresholds_values c Hwf Hpos) as [-> ->].
  split; [done|]. split; [|done].
  intros i a. unfold committee_authority. rewrite (wf_by_id _ Hwf). by rewrite Hm.
Qed.

(** two sets of authorities that each reach the quorum threshold of a
    well-formed committee share at least the validity threshold of voting
    power, so their intersection has a member outside any faulty set of voting
    power at most [f]. *)
Theorem quorum_intersection c X Y :
  committee_wf c ->
  reached_quorum c (stake_of c X) = true -> reached_quorum c (stake_of c Y) = true ->
  0 < total_power c ->
  reached_validity c (stake_of c (X ∩ Y)) = true /\
  (forall F, stake_of c F <= max_faulty c -> exists i, i ∈ X /\ i ∈ Y /\ i ∉ F).
Proof.
  intros Hwf HX HY Hpos. unfold reached_quorum, reached_validity in *.
  rewrite Z.leb_le in *. by apply quorums_share_honest.
Qed.

Lemma committee_new_thresholds_witness :
  quorum_threshold example_committee = 3 /\ validity_threshold example_committee = 2 /\
  quorum_threshold example_committee
    = total_power example_committee - max_faulty example_committee.
Proof.
  split; [vm_compute; reflexivity|]. split; [vm_compute; reflexivity|].
  apply (committee_new_thresholds
    (cb_authorities example_builder) 0 ∅ example_committee).
  - apply example_authorities_ok.
  - apply example_build.
  - vm_compute. reflexivity.
Defined.

Lemma quorum_intersection_witness :
  reached_validity example_committee
    (stake_of example_committee ({[1; 2; 3]} ∩ {[2; 3; 4]})) = true.
Proof.
  apply (quorum_intersection example_committee {[1; 2; 3]} {[2; 3; 4]}).
  - apply example_committee_wf.
  - vm_compute. reflexivity.
  - vm_compute. reflexivity.
  - vm_compute. reflexivity.
Defined.
