(* ===== verification/Certificates.v ===== *)
(** * Certificates and votes

    [crates/infrastructure/types/src]: header validation
    ([primary/header.rs]), building and verifying certificates
    ([primary/certificate.rs]), votes ([primary/vote.rs]) and the generic vote
    aggregator ([aggregator.rs]);
    [crates/consensus/primary/src/aggregators]: the aggregation of votes into a
    certificate ([votes.rs]) and of certificates into a round's parents
    ([certificates.rs]). *)
From S2P Require Import Prelude Types Committee.

(** ** Errors

    The variants that the modelled functions return. *)

Inductive HeaderError :=
  | InvalidEpoch (theirs ours : Epoch)
  | InvalidHeaderDigest
  | HeaderUnknownAuthority (a : AuthorityIdentifier)
  | UnknownWorkerId
  | TooManyParents (got limit : Z)
  | InvalidParents
  | WrongNumberOfParents (expected got : Z)
  | PeerNotAuthor
  | UnknownExecutionResult (target : BlockNumHash)
  | InvalidGenesisParent (d : CertificateDigest)
  | HeaderStorage
  | HeaderTooOld (d : HeaderDigest) (header_round max_round : Round)
  | HeaderTooNew (d : HeaderDigest) (header_round max_round : Round)
  | InvalidRound (d : HeaderDigest) (header_round : Round)
  | ParentMissingSignature
  | InvalidParentRound
  | InvalidParentTimestamp (header_time parent_time : TimestampSec)
  | DuplicateParents
  | SyncBatches
  | InvalidTimestamp (created received : TimestampSec)
  | AlreadyVoted (d : HeaderDigest) (r : Round)
  | AlreadyVotedForLaterRound (theirs ours : Round)
  | PendingCertificateOneshot.

Inductive CertificateError :=
  | CertificateHeader (e : HeaderError)
  | CertificateTooOld (d : CertificateDigest) (r gc : Round)
  | Inquorate (stake threshold : VotingPower)
  | CertificateInvalidSignature
  | RecoverBlsAggregateSignatureBytes
  | CertificateUnsigned.

Inductive DagError :=
  | DagInvalidSignature
  | DagInvalidHeaderDigest
  | DagUnknownAuthority (a : Z)
  | AuthorityReuse (a : AuthorityIdentifier)
  | CertificateRequiresQuorum.

(** ** Certificates *)

Definition set_header (x : Certificate) (h : Header) : Certificate :=
  {| header := h; signature_verification_state := signature_verification_state x;
     signed_authorities := signed_authorities x; cert_created_at := cert_created_at x |}.

Section certificate.
Context `{!Crypto}.

(** [Header::validate]; the header is returned with its digest cache filled. *)
Definition header_validate (c : Committee) (h : Header) : Exec HeaderError Header :=
  if negb (epoch h =? committee_epoch c) then Err (InvalidEpoch (epoch h) (committee_epoch c))
  else if committee_size c <? Z.of_nat (size (parents h))
  then Err (TooManyParents (Z.of_nat (size (parents h))) (committee_size c))
  else
    let computed := header_hash h in
    let cell := match digest_cell h with Some d => d | None => computed end in
    if negb (cell =? computed) then Err InvalidHeaderDigest
    else match committee_authority c (author h) with
    | None => Err (HeaderUnknownAuthority (author h))
    | Some _ =>
        if existsb (fun p => number_of_workers <=? p.2) (payload h) then Err UnknownWorkerId
        else Ret {| fields := fields h; digest_cell := Some cell |}
    end.

(** [Certificate::genesis]: the other fields have their default values. *)
Definition genesis (c : Committee) : list Certificate :=
  (fun a => {| header := {| fields := {| author := id a; round := 0; epoch := committee_epoch c;
                                         created_at := 0; payload := []; parents := ∅;
                                         latest_execution_block :=
                                           {| bnh_number := 0; bnh_hash := 0 |} |};
                            digest_cell := None |};
               signature_verification_state := Unsigned default_signature;
               signed_authorities := ∅; cert_created_at := 0 |}) <$> authorities c.

(** The loop of [new_internal] over the authorities in key order. The keys of
    a map are distinct, so its inner loop over repeated votes never runs. *)
Fixpoint collect_votes {E} (i : Z) (auths : list (BlsPublicKey * Authority))
    (votes : gmap BlsPublicKey BlsSignature) (sigs : list BlsSignature) (weight : VotingPower)
    (signed : list Z) :
    Exec E (gmap BlsPublicKey BlsSignature * list BlsSignature * VotingPower * list Z) :=
  match auths with
  | [] => mret (votes, sigs, weight, signed)
  | (key, a) :: auths' =>
      match btree_list votes with
      | (k, sig) :: _ =>
          if k =? key then
            weight' ← uadd u64_max weight (authority_voting_power a);
            collect_votes (i + 1) auths' (delete k votes) (sigs ++ [sig]) weight' (signed ++ [i])
          else collect_votes (i + 1) auths' votes sigs weight signed
      | [] => collect_votes (i + 1) auths' votes sigs weight signed
      end
  end.

(** [Certificate::new_internal]; [now] is the clock. *)
Definition new_internal (c : Committee) (h : Header)
    (votes : gmap BlsPublicKey BlsSignature) (check_stake : bool) (now : TimestampSec) :
    Exec DagError Certificate :=
  let auths := btree_collect ((fun a => (protocol_key a, a)) <$> authorities c) in
  '(votes', sigs, weight, signed) ← collect_votes 0 (btree_list auths) votes [] 0 [];
  _ ← match btree_list votes' with
      | [] => mret tt
      | (k, _) :: _ => Err (DagUnknownAuthority k)
      end;
  _ ← ensure (negb check_stake || (quorum_threshold c <=? weight)) CertificateRequiresQuorum;
  bls_signature ← (if bool_decide (sigs = []) then mret default_signature
                   else match aggregate sigs with
                        | Some s => mret s
                        | None => Err DagInvalidSignature
                        end);
  mret {| header := h;
          signature_verification_state :=
            if check_stake then Unverified bls_signature else Unsigned bls_signature;
          signed_authorities := list_to_set signed; cert_created_at := now |}.

(** [Certificate::new_unverified] *)
Definition new_unverified (c : Committee) (h : Header)
    (votes : list (AuthorityIdentifier * BlsSignature)) (now : TimestampSec) :
    Exec DagError Certificate :=
  new_internal c h
    (btree_collect (omap (fun v => (fun a => (protocol_key a, v.2)) <$>
                                    committee_authority c v.1) votes)) true now.

(** The [filter_map] of [signed_by]. *)
Fixpoint signed_by_loop (i : Z) (indexes : list Z) (committee : list BlsPublicKey) :
    VotingPower * list BlsPublicKey :=
  match committee with
  | [] => (0, [])
  | key :: committee' =>
      match indexes with
      | index :: indexes' =>
          if index =? i then
            let '(w, pks) := signed_by_loop (i + 1) indexes' committee' in (w + 1, key :: pks)
          else signed_by_loop (i + 1) indexes committee'
      | [] => signed_by_loop (i + 1) [] committee'
      end
  end.

(** [Certificate::signed_by] *)
Definition signed_by (x : Certificate) (committee : list BlsPublicKey) :
    VotingPower * list BlsPublicKey :=
  signed_by_loop 0 (btree_set_list (signed_authorities x)) committee.

(** [Certificate::verify_signature] *)
Definition verify_signature (x : Certificate) (pks : list BlsPublicKey) :
    Exec CertificateError Certificate :=
  match signature_verification_state x with
  | VerifiedDirectly _ | VerifiedIndirectly _ | Genesis => Ret x
  | Unsigned _ => Err CertificateUnsigned
  | Unverified sig =>
      if verify_aggregate sig (digest x) pks
      then Ret (set_signature_verification_state x (VerifiedDirectly sig))
      else Err CertificateInvalidSignature
  end.

(** [Certificate::validate_and_verify] *)
Definition validate_and_verify (x : Certificate) (c : Committee) :
    Exec CertificateError Certificate :=
  _ ← ensure (cert_epoch x =? committee_epoch c)
        (CertificateHeader (InvalidEpoch (cert_epoch x) (committee_epoch c)));
  if (cert_round x =? 0) && existsb (fun g => cert_eqb g x) (genesis c) then mret x
  else
    h ← map_err CertificateHeader (header_validate c (header x));
    let x1 := set_header x h in
    let '(weight, pks) := signed_by x1 (bls_keys c) in
    _ ← ensure (quorum_threshold c <=? weight) (Inquorate weight (quorum_threshold c));
    verify_signature x1 pks.

(** [Certificate::validate_received] *)
Definition validate_received (x : Certificate) : Exec CertificateError Certificate :=
  match aggregated_signature x with
  | Some sig => Ret (set_signature_verification_state x (Unverified sig))
  | None => Err RecoverBlsAggregateSignatureBytes
  end.

(** [Certificate::verify_cert] *)
Definition verify_cert (x : Certificate) (committee : list BlsPublicKey) :
    Exec CertificateError Certificate :=
  x1 ← validate_received x;
  let '(weight, pks) := signed_by x1 committee in
  threshold ← map_err (fun e : Empty_set => match e with end)
                (quorum_threshold_of (Z.of_nat (length committee)));
  _ ← ensure (threshold <=? weight) (Inquorate weight threshold);
  verify_signature x1 pks.

End certificate.

(** ** Votes *)

Record Vote := {
  header_digest_of : HeaderDigest;
  vote_round : Round;
  vote_epoch : Epoch;
  vote_origin : AuthorityIdentifier;
  vote_author : AuthorityIdentifier;
  vote_signature : BlsSignature
}.

(** [VotesAggregator<Vote>]; [voter_id] of a vote is its author. *)
Record VotesAggregator := {
  seen : gset AuthorityIdentifier;
  votes : list Vote;
  va_weight : VotingPower;
  threshold : VotingPower
}.

(** [VotesAggregator::new] *)
Definition VotesAggregator_new (t : VotingPower) : VotesAggregator :=
  {| seen := ∅; votes := []; va_weight := 0; threshold := t |}.

(** [VotesAggregator::append]; the error is [DuplicateVote]. *)
Definition append (g : VotesAggregator) (v : Vote) (weight : VotingPower) :
    Exec AuthorityIdentifier (VotesAggregator * bool) :=
  if bool_decide (vote_author v ∈ seen g) then Err (vote_author v)
  else
    w ← uadd u64_max (va_weight g) weight;
    mret ({| seen := {[vote_author v]} ∪ seen g; votes := votes g ++ [v];
             va_weight := w; threshold := threshold g |}, threshold g <=? w).

Record HeaderVotesAggregator := {
  inner : VotesAggregator;
  verified_votes : list (AuthorityIdentifier * BlsSignature)
}.

(** [HeaderVotesAggregator::new] *)
Definition HeaderVotesAggregator_new (c : Committee) : HeaderVotesAggregator :=
  {| inner := VotesAggregator_new (quorum_threshold c); verified_votes := [] |}.

Section votes.
Context `{!Crypto}.

(** [Vote::new]; [signature] is the signature service's answer. *)
Definition Vote_new (h : Header) (a : AuthorityIdentifier) (signature : BlsSignature) : Vote :=
  {| header_digest_of := header_digest h; vote_round := round h; vote_epoch := epoch h;
     vote_origin := author h; vote_author := a; vote_signature := signature |}.

(** [HeaderVotesAggregator::append]: the aggregator after the call with its
    result. *)
Definition append_vote (g : HeaderVotesAggregator) (v : Vote) (c : Committee) (h : Header)
    (now : TimestampSec) : HeaderVotesAggregator * Exec DagError (option Certificate) :=
  let a := vote_author v in
  if negb (header_digest_of v =? header_digest h) then (g, Err DagInvalidHeaderDigest)
  else
    match committee_authority c a with
    | None => (g, Err (DagUnknownAuthority a))
    | Some auth =>
        if negb (verify_secure (vote_signature v) (header_digest_of v) (protocol_key auth))
        then (g, Err DagInvalidSignature)
        else
          match append (inner g) v (voting_power_by_id c a) with
          | Ret (inner', quorum) =>
              let g' := {| inner := inner';
                           verified_votes := verified_votes g ++ [(a, vote_signature v)] |} in
              if quorum then
                (g', cert ← new_unverified c h (verified_votes g') now;
                     match aggregated_signature cert with
                     | Some sig => mret (Some (set_signature_verification_state cert
                                                 (VerifiedDirectly sig)))
                     | None => Err DagInvalidSignature
                     end)
              else (g', Ret None)
          | Err _ => (g, Err (AuthorityReuse a))
          | Panic => (g, Panic)
          | Diverge => (g, Diverge)
          end
    end.

End votes.

(** ** Parents of a round *)

Record CertificatesAggregator := {
  ca_weight : VotingPower;
  ca_certificates : list Certificate;
  authorities_seen : gset AuthorityIdentifier
}.

(** [CertificatesAggregator::new] *)
Definition CertificatesAggregator_new : CertificatesAggregator :=
  {| ca_weight := 0; ca_certificates := []; authorities_seen := ∅ |}.

(** [CertificatesAggregator::append] *)
Definition ca_append {E} (g : CertificatesAggregator) (x : Certificate) (c : Committee) :
    Exec E (CertificatesAggregator * option (list Certificate)) :=
  if bool_decide (origin x ∈ authorities_seen g) then mret (g, None)
  else
    let certs := ca_certificates g ++ [x] in
    let s := {[origin x]} ∪ authorities_seen g in
    w ← uadd u64_max (ca_weight g) (voting_power_by_id c (origin x));
    if quorum_threshold c <=? w
    then mret ({| ca_weight := w; ca_certificates := []; authorities_seen := s |}, Some certs)
    else mret ({| ca_weight := w; ca_certificates := certs; authorities_seen := s |}, None).

(** [CertificatesAggregatorManager]; the bus it sends to is the result of
    [append_certificate]. *)
Record CertificatesAggregatorManager := {
  aggregators : gmap Round CertificatesAggregator;
  am_gc_depth : Round
}.

(** [CertificatesAggregatorManager::garbage_collect]: popping the first entry
    while its round is at most [gc_round] keeps the later rounds. *)
Definition garbage_collect (m : CertificatesAggregatorManager) (gc : Round) :
    CertificatesAggregatorManager :=
  {| aggregators := retain_keys (fun r => gc <? r) (aggregators m);
     am_gc_depth := am_gc_depth m |}.

(** [CertificatesAggregatorManager::proactive_gc] *)
Definition am_proactive_gc (m : CertificatesAggregatorManager) (latest_round : Round) :
    CertificatesAggregatorManager :=
  if latest_round <? am_gc_depth m then m
  else garbage_collect m (latest_round - am_gc_depth m).

(** [CertificatesAggregatorManager::append_certificate]: the manager with the
    parents sent to the proposer, if any. *)
Definition append_certificate {E} (m : CertificatesAggregatorManager) (x : Certificate)
    (c : Committee) :
    Exec E (CertificatesAggregatorManager * option (list Certificate * Round)) :=
  let r := cert_round x in
  let m1 := am_proactive_gc m r in
  let g := match aggregators m1 !! r with Some g => g | None => CertificatesAggregator_new end in
  res ← ca_append (E := E) g x c;
  mret ({| aggregators := <[r := res.1]> (aggregators m1); am_gc_depth := am_gc_depth m1 |},
        match res.2 with Some parents => Some (parents, r) | None => None end).

(** ** Specification *)

(** Positions, counted from [i], of the keys selected by [f]. *)
Fixpoint positions (f : BlsPublicKey -> bool) (i : Z) (keys : list BlsPublicKey) : list Z :=
  match keys with
  | [] => []
  | k :: keys' => if f k then i :: positions f (i + 1) keys' else positions f (i + 1) keys'
  end.

(** Every authority has voting power 1, as the epoch manager builds
    committees. *)
Definition unit_powers (c : Committee) : Prop :=
  forall k a, authorities_map c !! k = Some a -> authority_voting_power a = 1.

(** Correctness of BLS aggregation: signatures that verify for their keys
    aggregate to one that verifies for the list of keys. *)
Class CryptoOk `{!Crypto} : Prop :=
  aggregate_verifies : forall d sigs keys, sigs <> [] ->
    Forall2 (fun s k => verify_secure s d k = true) sigs keys ->
    exists s, aggregate sigs = Some s /\ verify_aggregate s d keys = true.

(** The aggregator counts each committee member that voted once, and holds a
    valid signature of each. *)
Record aggregator_ok `{!Crypto} (c : Committee) (h : Header) (g : HeaderVotesAggregator) :
    Prop := {
  ag_nodup : NoDup (fst <$> verified_votes g);
  ag_seen : seen (inner g) = list_to_set (fst <$> verified_votes g);
  ag_weight : va_weight (inner g) = stake_of c (seen (inner g));
  ag_threshold : threshold (inner g) = quorum_threshold c;
  ag_valid : forall a s, (a, s) ∈ verified_votes g -> exists auth,
    committee_authority c a = Some auth /\
    verify_secure s (header_digest h) (protocol_key auth) = true
}.

(** ** Positions and signers *)

Lemma positions_bound f i keys p : p ∈ positions f i keys -> i <= p.
Proof.
  revert i. induction keys as [|k keys IH]; intros i; simpl; [intros Hp; inversion Hp|].
  destruct (f k); [|intros Hp%IH; lia].
  intros [->|Hp%IH]%elem_of_cons; lia.
Qed.

Lemma positions_sorted f i keys : StronglySorted Z.lt (positions f i keys).
Proof.
  revert i. induction keys as [|k keys IH]; intros i; simpl; [constructor|].
  destruct (f k); [|done]. constructor; [done|]. apply Forall_forall.
  intros p Hp%positions_bound. lia.
Qed.

Lemma sorted_lt_le l : StronglySorted Z.lt l -> StronglySorted Z.le l /\ NoDup l.
Proof.
  induction 1 as [|x l Hs [IH1 IH2] Hall]; [split; constructor|]. rewrite Forall_forall in Hall.
  split; constructor; try done.
  - apply Forall_forall. intros y Hy%Hall. lia.
  - intros Hx%Hall. lia.
Qed.

Lemma btree_set_list_sorted l :
  StronglySorted Z.lt l -> btree_set_list (list_to_set l) = l.
Proof.
  intros [Hle Hnd]%sorted_lt_le. apply (StronglySorted_unique Z.le); [|done|].
  - apply StronglySorted_merge_sort; intros ??; lia.
  - unfold btree_set_list. rewrite merge_sort_Permutation. by apply elements_list_to_set.
Qed.

Lemma signed_by_positions f i keys :
  signed_by_loop i (positions f i keys) keys =
  (Z.of_nat (length (List.filter f keys)), List.filter f keys).
Proof.
  revert i. induction keys as [|k keys IH]; intros i; [done|].
  cbn [positions signed_by_loop List.filter]. destruct (f k).
  - rewrite Z.eqb_refl, IH. f_equal. simpl length. lia.
  - rewrite <- (IH (i + 1)).
    destruct (positions f (i + 1) keys) as [|p ps] eqn:Hp; [done|].
    assert (i + 1 <= p) by (eapply (positions_bound f _ keys); rewrite Hp; left).
    by rewrite (proj2 (Z.eqb_neq p i)) by lia.
Qed.

(** ** Collecting votes *)

(** The entries of a key-sorted list of authorities that voted. *)
Definition voted (votes : gmap BlsPublicKey BlsSignature) (k : BlsPublicKey) : bool :=
  bool_decide (is_Some (votes !! k)).

(** Removing a vote below all keys changes nothing for the keys. *)
Lemma delete_voted_ext key (votes : gmap BlsPublicKey BlsSignature)
    (auths : list (BlsPublicKey * Authority)) i :
  (forall k, k ∈ auths.*1 -> key <> k) ->
  List.filter (voted (delete key votes) ∘ fst) auths = List.filter (voted votes ∘ fst) auths /\
  omap (fun p => delete key votes !! p.1) auths = omap (fun p => votes !! p.1) auths /\
  positions (voted (delete key votes)) i auths.*1 = positions (voted votes) i auths.*1.
Proof.
  revert i. induction auths as [|[k a] auths IH]; intros i Hne; [done|].
  assert (delete key votes !! k = votes !! k) as Hk by (apply lookup_delete_ne, Hne; left).
  assert (voted (delete key votes) k = voted votes k) as Hv by (unfold voted; by rewrite Hk).
  destruct (IH (i + 1)) as (IH1 & IH2 & IH3); [intros k' Hk'; apply Hne; by right|].
  split_and!; simpl.
  - rewrite Hv. destruct (voted votes k); [f_equal|]; exact IH1.
  - rewrite Hk. destruct (votes !! k); [f_equal|]; exact IH2.
  - rewrite Hv. destruct (voted votes k); [f_equal|]; exact IH3.
Qed.

Lemma collect_votes_Ret {E} i auths votes sigs weight signed :
  StronglySorted Z.lt auths.*1 ->
  (forall k, is_Some (votes !! k) -> k ∈ auths.*1) ->
  Forall (fun p => 0 <= authority_voting_power p.2) auths ->
  weight + zsum (authority_voting_power ∘ snd <$> List.filter (voted votes ∘ fst) auths) <= u64_max ->
  collect_votes (E := E) i auths votes sigs weight signed =
  Ret (∅, sigs ++ omap (fun p => votes !! p.1) auths,
       weight + zsum (authority_voting_power ∘ snd <$> List.filter (voted votes ∘ fst) auths),
       signed ++ positions (voted votes) i auths.*1).
Proof.
  revert i votes sigs weight signed.
  induction auths as [|[key a] auths IH]; intros i votes sigs weight signed Hs Hdom Hpos Hmax; simpl; fold_fmap.
  { rewrite !app_nil_r. replace (weight + 0) with weight by lia. do 4 f_equal.
    apply map_empty. intros k. destruct (votes !! k) eqn:Hk; [|done].
    exfalso. pose proof (Hdom k ltac:(eauto)) as Hin. inversion Hin. }
  simpl in Hs, Hmax; fold_fmap. apply StronglySorted_inv in Hs as [Hs Hall]. rewrite Forall_forall in Hall.
  apply Forall_cons in Hpos as [Ha Hpos]. simpl in Ha.
  assert (forall k, is_Some (votes !! k) -> k = key \/ key < k) as Hmin.
  { intros k Hk%Hdom. simpl in Hk. apply elem_of_cons in Hk as [->|Hk]; [by left|right].
    by apply Hall. }
  destruct (votes !! key) as [sig|] eqn:Hk.
  - assert (voted votes key = true) as Hv by (unfold voted; rewrite Hk; by apply bool_decide_true).
    rewrite Hv in *. simpl in *; fold_fmap.
    destruct (btree_list_head votes key sig Hk) as [l Hl]; [intros k [->|]%Hmin; lia|].
    rewrite Hl, Z.eqb_refl.
    destruct (delete_voted_ext key votes auths (i + 1)) as (Hfil & Hom & Hps);
      [intros k Hin%Hall; lia|].
    assert (0 <= zsum (authority_voting_power ∘ snd <$> List.filter (voted votes ∘ fst) auths)) as H0.
    { apply zsum_nonneg, Forall_fmap, Forall_forall. intros p [Hp _]%list_elem_of_In%filter_In.
      rewrite Forall_forall in Hpos. by apply Hpos, list_elem_of_In. }
    unfold uadd. rewrite (proj2 (Z.leb_le _ _)) by lia. simpl; fold_fmap.
    rewrite IH; [|done| |done|rewrite Hfil; lia].
    + rewrite Hfil, Hom, Hps, <- !app_assoc, Z.add_assoc. done.
    + intros k. rewrite lookup_delete_is_Some. intros [Hne Hk'].
      apply Hdom in Hk'. apply elem_of_cons in Hk' as [->|?]; done.
  - assert (voted votes key = false) as Hv
      by (unfold voted; rewrite Hk; apply bool_decide_false; by intros []).
    rewrite Hv in *. simpl in *; fold_fmap.
    assert (forall k, is_Some (votes !! k) -> k ∈ auths.*1) as Hdom'.
    { intros k Hk'. pose proof (Hdom k Hk') as [->|?]%elem_of_cons; [|done].
      rewrite Hk in Hk'. by destruct Hk'. }
    destruct (btree_list votes) as [|[k s] l] eqn:Hl; [by apply IH|].
    rewrite (proj2 (Z.eqb_neq k key)); [by apply IH|]. intros ->.
    assert ((key, s) ∈ btree_list votes) as Hin%elem_of_btree_list by (rewrite Hl; left).
    congruence.
Qed.

(** ** The committee in key order *)

Section key_order.
Context (c : Committee) (Hwf : committee_wf c).

Lemma authority_member i a :
  committee_authority c i = Some a -> id a = i /\ authorities_map c !! protocol_key a = Some a.
Proof using Hwf.
  intros (Hi & k & Hk)%(wf_by_id _ Hwf). split; [done|].
  by destruct (wf_authorities _ Hwf _ _ Hk) as [-> _].
Qed.

Lemma member_authority k a :
  authorities_map c !! k = Some a -> committee_authority c (id a) = Some a /\ protocol_key a = k.
Proof using Hwf.
  intros Hk. split; [apply (wf_by_id _ Hwf); split; [done|by exists k]|].
  by apply (wf_authorities _ Hwf).
Qed.

(** Sorting the authorities by key gives the map they were built from. *)
Lemma authorities_by_key :
  btree_collect ((fun a => (protocol_key a, a)) <$> authorities c) = authorities_map c.
Proof using Hwf.
  rewrite btree_collect_list_to_map. apply map_eq. intros k.
  destruct (list_to_map _ !! k) as [a|] eqn:Hk; symmetry.
  - apply elem_of_list_to_map_2 in Hk. rewrite elem_of_reverse, list_elem_of_fmap in Hk.
    destruct Hk as (b & [= -> ->] & [i Hb]%elem_of_btree_values).
    by apply authority_member in Hb as [_ ?].
  - apply not_elem_of_list_to_map_2 in Hk. destruct (authorities_map c !! k) as [a|] eqn:Ha; [|done].
    exfalso. apply Hk. rewrite fmap_reverse, elem_of_reverse, <- list_fmap_compose.
    destruct (member_authority k a Ha) as [Hi Hp]. apply list_elem_of_fmap. exists a.
    split; [done|]. apply elem_of_btree_values. by exists (id a).
Qed.

Lemma bls_keys_sorted : bls_keys c = btree_keys (authorities_map c).
Proof using Hwf.
  unfold bls_keys, btree_values, btree_keys. rewrite <- list_fmap_compose.
  apply list_fmap_ext. intros i [k a] Hi%list_elem_of_lookup_2%elem_of_btree_list. simpl.
  by apply member_authority.
Qed.

(** The authorities of a list of committee members. *)
Definition members (ids : list AuthorityIdentifier) : list Authority :=
  omap (committee_authority c) ids.

Lemma elem_of_members ids a :
  a ∈ members ids <-> exists i, i ∈ ids /\ committee_authority c i = Some a.
Proof. unfold members. apply list_elem_of_omap. Qed.

Lemma members_powers ids :
  (forall i, i ∈ ids -> is_Some (committee_authority c i)) ->
  authority_voting_power <$> members ids = voting_power_by_id c <$> ids /\
  length (members ids) = length ids.
Proof.
  unfold members. induction ids as [|i ids IH]; intros Hmem; [done|].
  destruct (IH ltac:(intros; apply Hmem; by right)) as [IH1 IH2].
  destruct (Hmem i ltac:(left)) as [a Ha]. rewrite fmap_cons. simpl. rewrite Ha, fmap_cons.
  split; [|simpl; f_equal; exact IH2].
  f_equal; [|exact IH1]. unfold voting_power_by_id. unfold committee_authority in Ha. by rewrite Ha.
Qed.

Lemma NoDup_members ids : NoDup ids -> NoDup (members ids).
Proof using Hwf.
  unfold members. induction 1 as [|i ids Hi _ IH]; [constructor|]. simpl.
  destruct (committee_authority c i) as [a|] eqn:Ha; [|exact IH].
  constructor; [|exact IH]. intros (i' & Hi' & Ha')%elem_of_members.
  apply authority_member in Ha as [<- _], Ha' as [<- _]. done.
Qed.

(** The members that a set of votes selects, in key order. *)
Lemma voted_members (votes : gmap BlsPublicKey BlsSignature) ids :
  NoDup ids ->
  (forall k, is_Some (votes !! k) <-> exists i a, i ∈ ids /\ committee_authority c i = Some a /\
     protocol_key a = k) ->
  List.filter (voted votes ∘ fst) (btree_list (authorities_map c)) ≡ₚ
  ((fun a => (protocol_key a, a)) <$> members ids).
Proof using Hwf.
  intros Hnd Hdom. apply NoDup_Permutation.
  - apply NoDup_ListNoDup, List.NoDup_filter, NoDup_ListNoDup, NoDup_btree_list.
  - apply NoDup_fmap_2_strong; [by intros ???? [= _ ->]|by apply NoDup_members].
  - intros [k a]. rewrite list_elem_of_In, filter_In, <- list_elem_of_In, elem_of_btree_list.
    simpl. unfold voted. rewrite bool_decide_eq_true, Hdom, list_elem_of_fmap.
    setoid_rewrite elem_of_members. split.
    + intros (Hk & i & a' & Hi & Ha' & Hp). exists a.
      destruct (member_authority k a Hk) as [Hida <-]. split; [done|].
      apply authority_member in Ha' as Hm. destruct Hm as [_ Hm]. rewrite Hp in Hm.
      rewrite Hk in Hm. injection Hm as ->. eauto.
    + intros (a' & [= -> <-] & i & Hi & Ha). split; [|by eauto].
      apply (authority_member _ _ Ha).
Qed.

Lemma filter_fst {A} (f : Z -> bool) (l : list (Z * A)) :
  (List.filter (f ∘ fst) l).*1 = List.filter f l.*1.
Proof.
  induction l as [|[k x] l IH]; [done|]. rewrite fmap_cons. simpl.
  destruct (f k); simpl; [f_equal|]; exact IH.
Qed.

Lemma voted_stake votes ids :
  NoDup ids -> (forall i, i ∈ ids -> is_Some (committee_authority c i)) ->
  (forall k, is_Some (votes !! k) <-> exists i a, i ∈ ids /\ committee_authority c i = Some a /\
     protocol_key a = k) ->
  zsum (authority_voting_power ∘ snd <$>
    List.filter (voted votes ∘ fst) (btree_list (authorities_map c))) =
  stake_of c (list_to_set ids) /\
  length (List.filter (voted votes) (bls_keys c)) = length ids.
Proof using Hwf.
  intros Hnd Hmem Hdom. pose proof (voted_members votes ids Hnd Hdom) as Hperm.
  destruct (members_powers ids Hmem) as [Hpow Hlen]. split.
  - rewrite Hperm, <- list_fmap_compose. unfold stake_of. rewrite wsum_list by done.
    by rewrite <- Hpow.
  - rewrite bls_keys_sorted. unfold btree_keys. rewrite <- filter_fst, length_fmap, Hperm.
    by rewrite length_fmap.
Qed.

End key_order.

(** ** Building certificates *)

Section build.
Context `{!Crypto} {ok : CryptoOk} (c : Committee) (Hwf : committee_wf c).

(** The votes of [new_unverified] by key. *)
Definition vote_map (vs : list (AuthorityIdentifier * BlsSignature)) :
    gmap BlsPublicKey BlsSignature :=
  btree_collect (omap (fun v => (fun a => (protocol_key a, v.2)) <$> committee_authority c v.1) vs).

Lemma lookup_vote_map vs k s :
  NoDup vs.*1 ->
  vote_map vs !! k = Some s <->
  exists i a, (i, s) ∈ vs /\ committee_authority c i = Some a /\ protocol_key a = k.
Proof using Hwf.
  intros Hnd. unfold vote_map. rewrite btree_collect_list_to_map.
  set (l := omap _ vs).
  assert (forall k s, (k, s) ∈ l <->
    exists i a, (i, s) ∈ vs /\ committee_authority c i = Some a /\ protocol_key a = k) as Hl.
  { intros k' s'. unfold l. rewrite list_elem_of_omap. split.
    - intros ([i s0] & Hin & (a & Ha & [= -> ->])%fmap_Some). eauto.
    - intros (i & a & Hin & Ha & <-). exists (i, s'). simpl. by rewrite Ha. }
  assert (NoDup l.*1) as Hnd'.
  { unfold l. clear Hl l k s. induction vs as [|[i s] vs IH]; [constructor|].
    apply NoDup_cons in Hnd as [Hi Hnd]. specialize (IH Hnd). simpl.
    destruct (committee_authority c i) as [a|] eqn:Ha; simpl; [|done].
    constructor; [|done]. intros ([k s'] & Hk & Hin)%list_elem_of_fmap. simpl in Hk. subst k.
    apply list_elem_of_omap in Hin as ([i' s0] & Hin & (a' & Ha' & [= Hp ->])%fmap_Some).
    simpl in Ha'. apply authority_member in Ha as [Hia Hma], Ha' as [Hia' Hma']; try done.
    rewrite <- Hp, Hma in Hma'. injection Hma' as ->.
    apply Hi, list_elem_of_fmap. exists (i', s0). by subst. }
  rewrite <- Hl. split.
  - intros Hk%elem_of_list_to_map_2. by rewrite elem_of_reverse in Hk.
  - intros Hin. apply elem_of_list_to_map_1; [|by rewrite elem_of_reverse].
    by rewrite fmap_reverse, reverse_Permutation.
Qed.

Lemma vote_map_dom vs :
  NoDup vs.*1 -> forall k, is_Some (vote_map vs !! k) <->
  exists i a, i ∈ vs.*1 /\ committee_authority c i = Some a /\ protocol_key a = k.
Proof using Hwf.
  intros Hnd k. split.
  - intros [s (i & a & Hin & Ha & Hp)%lookup_vote_map]; [|done]. exists i, a.
    split; [apply list_elem_of_fmap; by exists (i, s)|done].
  - intros (i & a & ([i' s] & -> & Hin)%list_elem_of_fmap & Ha & Hp). exists s.
    apply lookup_vote_map; [done|]. eauto.
Qed.

Lemma signatures_match {A} (m : gmap Z BlsSignature) (l : list (Z * A)) :
  Forall2 (fun s k => m !! k = Some s) (omap (fun p => m !! p.1) l) (List.filter (voted m) l.*1).
Proof.
  induction l as [|[k a] l IH]; [constructor|]. rewrite fmap_cons. simpl. unfold voted at 1.
  destruct (m !! k) as [s|] eqn:Hk.
  - rewrite bool_decide_true by eauto. by constructor.
  - by rewrite bool_decide_false by (by intros []).
Qed.

(** A quorum of valid votes makes a certificate whose bitmap is the voters'
    positions in key order and whose signature verifies for them. *)
Lemma new_unverified_Ret h vs now :
  NoDup vs.*1 ->
  (forall a s, (a, s) ∈ vs -> exists auth, committee_authority c a = Some auth /\
     verify_secure s (header_digest h) (protocol_key auth) = true) ->
  quorum_threshold c <= stake_of c (list_to_set vs.*1) ->
  exists sig, new_unverified c h vs now =
    Ret {| header := h; signature_verification_state := Unverified sig;
           signed_authorities := list_to_set (positions (voted (vote_map vs)) 0 (bls_keys c));
           cert_created_at := now |} /\
    verify_aggregate sig (header_digest h) (List.filter (voted (vote_map vs)) (bls_keys c)) = true.
Proof using Hwf ok.
  intros Hnd Hvalid Hq. unfold new_unverified, new_internal. fold (vote_map vs).
  rewrite (authorities_by_key c Hwf).
  assert (forall i, i ∈ vs.*1 -> is_Some (committee_authority c i)) as Hmem.
  { intros i ([i' s] & -> & Hin)%list_elem_of_fmap. destruct (Hvalid _ _ Hin) as (a & Ha & _).
    by exists a. }
  destruct (voted_stake c Hwf (vote_map vs) vs.*1 Hnd Hmem (vote_map_dom vs Hnd)) as [Hstake Hlen].
  pose proof (stake_of_le_total c Hwf (list_to_set vs.*1)). pose proof (wf_total _ Hwf).
  pose proof (total_power_nonneg c (wf_authorities _ Hwf)).
  rewrite collect_votes_Ret; [|apply btree_keys_sorted| | |rewrite Hstake; lia].
  2: { intros k (i & a & _ & Ha & Hp)%vote_map_dom; [|done].
       apply authority_member in Ha as [_ Ha]; [|done]. subst k.
       apply elem_of_btree_keys. by exists a. }
  2: { apply Forall_forall. intros [k a] Hin%elem_of_btree_list.
       by destruct (wf_authorities _ Hwf _ _ Hin) as [_ [? _]]. }
  simpl. rewrite Hstake, (proj2 (Z.leb_le _ _)) by lia. simpl.
  set (sigs := omap _ _). fold (btree_keys (authorities_map c)). rewrite <- (bls_keys_sorted c Hwf).
  pose proof (signatures_match (vote_map vs) (btree_list (authorities_map c))) as Hmatch.
  fold (btree_keys (authorities_map c)) in Hmatch. rewrite <- (bls_keys_sorted c Hwf) in Hmatch.
  assert (sigs <> []) as Hne.
  { intros He. apply Forall2_length in Hmatch. fold sigs in Hmatch. rewrite He, Hlen in Hmatch.
    destruct vs; [|done]. simpl in Hq. unfold stake_of in Hq. rewrite wsum_empty in Hq.
    pose proof (quorum_gt_faulty c Hwf). lia. }
  destruct (aggregate_verifies (header_digest h) sigs
    (List.filter (voted (vote_map vs)) (bls_keys c))) as (sig & Hagg & Hver); [done| |].
  { eapply Forall2_impl; [exact Hmatch|]. simpl. intros s k (i & a & Hin & Ha & <-)%lookup_vote_map;
      [|done]. destruct (Hvalid _ _ Hin) as (a' & Ha' & Hs). congruence. }
  exists sig. rewrite bool_decide_false by done. rewrite Hagg. simpl. done.
Qed.

End build.

(** ** Aggregating votes *)

(** The keys of a set of authorities. *)
Definition keys_of (c : Committee) (X : gset AuthorityIdentifier) (ks : list BlsPublicKey) : Prop :=
  NoDup ks /\
  forall k, k ∈ ks <-> exists i a, i ∈ X /\ committee_authority c i = Some a /\ protocol_key a = k.

Section aggregate.
Context `{!Crypto} {ok : CryptoOk} (c : Committee) (Hwf : committee_wf c).

Lemma bls_keys_spec : NoDup (bls_keys c) /\
  forall k, k ∈ bls_keys c <-> exists i a, committee_authority c i = Some a /\ protocol_key a = k.
Proof using Hwf.
  rewrite (bls_keys_sorted c Hwf). split; [apply NoDup_btree_keys|]. intros k.
  rewrite elem_of_btree_keys. split.
  - intros [a Ha]. exists (id a), a. by apply (member_authority c Hwf).
  - intros (i & a & Ha & <-). apply (authority_member c Hwf) in Ha as [_ ?]. by exists a.
Qed.

Lemma voted_keys_of vs :
  NoDup vs.*1 -> keys_of c (list_to_set vs.*1) (List.filter (voted (vote_map c vs)) (bls_keys c)).
Proof using Hwf.
  intros Hnd. destruct bls_keys_spec as [Hnk Hk]. split.
  - by apply NoDup_ListNoDup, List.NoDup_filter, NoDup_ListNoDup.
  - intros k. rewrite list_elem_of_In, filter_In, <- list_elem_of_In, Hk. unfold voted.
    rewrite bool_decide_eq_true, (vote_map_dom c Hwf vs Hnd). setoid_rewrite elem_of_list_to_set.
    split; [by intros [_ ?]|]. intros (i & a & Hi & Ha & Hp). split; eauto.
Qed.

(** The signers of a built certificate. *)
Lemma signed_by_built h state vs now :
  signed_by {| header := h; signature_verification_state := state;
               signed_authorities := list_to_set (positions (voted (vote_map c vs)) 0 (bls_keys c));
               cert_created_at := now |} (bls_keys c) =
  (Z.of_nat (length (List.filter (voted (vote_map c vs)) (bls_keys c))),
   List.filter (voted (vote_map c vs)) (bls_keys c)).
Proof.
  unfold signed_by. simpl. rewrite btree_set_list_sorted by apply positions_sorted.
  apply signed_by_positions.
Qed.

Lemma aggregator_new_ok h : aggregator_ok c h (HeaderVotesAggregator_new c).
Proof.
  split; simpl; try done; [apply NoDup_nil_2|].
  intros a s Hin. inversion Hin.
Qed.

(** The aggregator with one more verified vote. *)
Definition add_vote (g : HeaderVotesAggregator) (v : Vote) : HeaderVotesAggregator :=
  {| inner := {| seen := {[vote_author v]} ∪ seen (inner g); votes := votes (inner g) ++ [v];
                 va_weight := va_weight (inner g) + voting_power_by_id c (vote_author v);
                 threshold := threshold (inner g) |};
     verified_votes := verified_votes g ++ [(vote_author v, vote_signature v)] |}.

Lemma add_vote_ok h g v auth :
  aggregator_ok c h g -> vote_author v ∉ seen (inner g) ->
  committee_authority c (vote_author v) = Some auth ->
  verify_secure (vote_signature v) (header_digest h) (protocol_key auth) = true ->
  aggregator_ok c h (add_vote g v).
Proof.
  intros [Hnd Hseen Hw Ht Hval] Hnew Ha Hs. split; simpl; try done.
  - rewrite fmap_app. apply NoDup_app. split_and!; [done| |by apply NoDup_singleton].
    intros x Hx ->%list_elem_of_singleton. apply Hnew. rewrite Hseen. by apply elem_of_list_to_set.
  - rewrite fmap_app, list_to_set_app_L, Hseen. simpl. set_solver.
  - unfold stake_of in *. rewrite wsum_insert by done. lia.
  - intros a s. rewrite elem_of_app. intros [Hin|[= -> ->]%list_elem_of_singleton]; eauto.
Qed.

(** The certificate that a quorum of votes makes. *)
Record built_certificate (h : Header) (X : gset AuthorityIdentifier) (x : Certificate) : Prop := {
  bc_header : header x = h;
  bc_quorum : quorum_threshold c <= stake_of c X;
  bc_signature : exists sig, signature_verification_state x = VerifiedDirectly sig /\
    exists ks, signed_by x (bls_keys c) = (Z.of_nat (size X), ks) /\ keys_of c X ks /\
      verify_aggregate sig (header_digest h) ks = true
}.

Lemma append_vote_cases g v h now :
  aggregator_ok c h g ->
  match append_vote g v c h now with
  | (g', Ret res) =>
      g' = add_vote g v /\ aggregator_ok c h g' /\ vote_author v ∉ seen (inner g) /\
      match res with
      | None => stake_of c (seen (inner g')) < quorum_threshold c
      | Some x => built_certificate h (seen (inner g')) x
      end
  | (g', Err (AuthorityReuse a)) => g' = g /\ a = vote_author v /\ a ∈ seen (inner g)
  | (g', Err DagInvalidHeaderDigest) => g' = g /\ header_digest_of v <> header_digest h
  | (g', Err (DagUnknownAuthority a)) => g' = g /\ committee_authority c (vote_author v) = None
  | (g', Err DagInvalidSignature) => g' = g /\ exists auth,
      committee_authority c (vote_author v) = Some auth /\
      verify_secure (vote_signature v) (header_digest h) (protocol_key auth) = false
  | (_, Err CertificateRequiresQuorum) | (_, Panic) | (_, Diverge) => False
  end.
Proof using Hwf ok.
  intros Hg. unfold append_vote.
  destruct (Z.eqb_spec (header_digest_of v) (header_digest h)) as [Hd|Hd]; [|done]. simpl.
  destruct (committee_authority c (vote_author v)) as [auth|] eqn:Ha; [|done].
  rewrite Hd. destruct (verify_secure _ _ _) eqn:Hs; simpl; [|by eauto].
  unfold append. case_bool_decide as Hseen; [done|].
  pose proof (add_vote_ok h g v auth Hg Hseen Ha Hs) as Hg'.
  pose proof (stake_of_le_total c Hwf (seen (inner (add_vote g v)))). pose proof (wf_total _ Hwf).
  pose proof (total_power_nonneg c (wf_authorities _ Hwf)).
  rewrite <- (ag_weight _ _ _ Hg') in *. simpl in *. unfold uadd.
  rewrite (proj2 (Z.leb_le _ _)) by lia. simpl. fold (add_vote g v).
  rewrite (ag_threshold _ _ _ Hg).
  destruct (Z.leb_spec (quorum_threshold c)
    (va_weight (inner g) + voting_power_by_id c (vote_author v))) as [Hq|Hq].
  2: { split_and!; try done. pose proof (ag_weight _ _ _ Hg') as Hw. simpl in *. lia. }
  pose proof (ag_weight _ _ _ Hg') as Hw. simpl in Hw.
  pose proof (ag_seen _ _ _ Hg') as Hsn. simpl in Hsn.
  destruct (new_unverified_Ret c Hwf h (verified_votes (add_vote g v)) now) as (sig & Hnew & Hver);
    [apply Hg'|apply Hg'|simpl; rewrite <- Hsn; lia|].
  simpl in Hnew. rewrite Hnew. simpl. split_and!; try done. split; [done|simpl in *; lia|].
  exists sig. split; [done|]. eexists. unfold set_signature_verification_state. simpl.
  rewrite signed_by_built. split_and!; [|rewrite Hsn; by apply voted_keys_of, (ag_nodup _ _ _ Hg')|done].
  do 2 f_equal. rewrite Hsn, size_list_to_set by apply (ag_nodup _ _ _ Hg').
  eapply (voted_stake c Hwf); [apply (ag_nodup _ _ _ Hg')| |apply (vote_map_dom c Hwf), (ag_nodup _ _ _ Hg')].
  intros i ([i' s] & -> & Hin)%list_elem_of_fmap.
  destruct (ag_valid _ _ _ Hg' _ _ Hin) as (a & Hi & _). by exists a.
Qed.

End aggregate.

(** ** Verifying certificates *)

(** The authorities of a list of keys. *)
Definition signers (c : Committee) (ks : list BlsPublicKey) : list AuthorityIdentifier :=
  omap (fun k => id <$> authorities_map c !! k) ks.

(** The certificate as it is received from the network and verified. *)
Definition receive `{!Crypto} (x : Certificate) (c : Committee) : Exec CertificateError Certificate :=
  x1 ← validate_received x; validate_and_verify x1 c.

(** A certificate whose quorum of signatures was verified. *)
Record quorum_signed `{!Crypto} (c : Committee) (x : Certificate) (ks : list BlsPublicKey) : Prop := {
  qs_epoch : cert_epoch x = committee_epoch c;
  qs_digest : digest x = header_hash (header x);
  qs_parents : Z.of_nat (size (parents (header x))) <= committee_size c;
  qs_author : is_Some (committee_authority c (origin x));
  qs_keys : ks ⊆ bls_keys c /\ NoDup ks;
  qs_weight : quorum_threshold c <= Z.of_nat (length ks);
  qs_signature : exists sig, signature_verification_state x = VerifiedDirectly sig /\
    verify_aggregate sig (digest x) ks = true
}.

Lemma signed_by_loop_spec i indexes keys :
  fst (signed_by_loop i indexes keys) = Z.of_nat (length (snd (signed_by_loop i indexes keys))) /\
  snd (signed_by_loop i indexes keys) `sublist_of` keys.
Proof.
  revert i indexes. induction keys as [|k keys IH]; intros i indexes; [by simpl|].
  destruct indexes as [|j js]; simpl.
  - destruct (IH (i + 1) []) as [H1 H2]. split; [done|by constructor].
  - destruct (j =? i).
    + destruct (IH (i + 1) js) as [H1 H2]. destruct (signed_by_loop (i + 1) js keys) as [w pks].
      simpl in *. split; [lia|by constructor].
    + destruct (IH (i + 1) (j :: js)) as [H1 H2]. split; [done|by constructor].
Qed.

Lemma sublist_nodup_subset {A} (l k : list A) : l `sublist_of` k -> NoDup k -> l ⊆ k /\ NoDup l.
Proof.
  intros Hsub Hnd. split; [|by eapply sublist_NoDup].
  intros x Hx. apply list_elem_of_In. apply list_elem_of_In in Hx.
  revert Hx. induction Hsub; simpl; [done| |]; inversion Hnd; naive_solver.
Qed.

Lemma header_validate_Ret `{!Crypto} c h h' :
  header_validate c h = Ret h' ->
  fields h' = fields h /\ header_digest h' = header_hash h /\ epoch h = committee_epoch c /\
  Z.of_nat (size (parents h)) <= committee_size c /\ is_Some (committee_authority c (author h)).
Proof.
  unfold header_validate. destruct (Z.eqb_spec (epoch h) (committee_epoch c)) as [He|]; [|done].
  simpl. destruct (Z.ltb_spec (committee_size c) (Z.of_nat (size (parents h)))) as [|Hp]; [done|].
  destruct (Z.eqb_spec (match digest_cell h with Some d => d | None => header_hash h end)
    (header_hash h)) as [Hd|]; [|done]. simpl.
  destruct (committee_authority c (author h)) as [a|] eqn:Ha; [|done].
  destruct (existsb _ _); [done|]. intros [= <-]. simpl. split_and!; [done|done|done|lia|by exists a].
Qed.

Section verify.
Context `{!Crypto} (c : Committee) (Hwf : committee_wf c).

Lemma receive_quorum_signed x y :
  cert_round x <> 0 -> receive x c = Ret y ->
  fields (header y) = fields (header x) /\ exists ks, quorum_signed c y ks.
Proof using Hwf.
  intros Hr. unfold receive, validate_received.
  destruct (aggregated_signature x) as [sig|]; simpl; [|done].
  unfold validate_and_verify. intros (u & He & H1)%bind_Ret_inv. apply ensure_Ret in He.
  simpl in He. assert ((cert_round x =? 0) = false) as Hr0 by (apply Z.eqb_neq, Hr).
  unfold cert_round in H1 at 1, Hr0. simpl in H1. rewrite Hr0 in H1. simpl in H1.
  apply bind_Ret_inv in H1 as (h & Hhv & H1). apply map_err_Ret, header_validate_Ret in Hhv.
  destruct Hhv as (Hf & Hd & Hep & Hp & Ha).
  destruct (signed_by _ (bls_keys c)) as [w pks] eqn:Hsb.
  apply bind_Ret_inv in H1 as (u2 & Hq & H1). apply ensure_Ret, Z.leb_le in Hq.
  destruct (signed_by_loop_spec 0 (btree_set_list (signed_authorities x)) (bls_keys c)) as [Hw Hsub].
  unfold signed_by in Hsb. simpl in Hsb. rewrite Hsb in Hw, Hsub. simpl in Hw, Hsub.
  unfold verify_signature in H1. simpl in H1.
  destruct (verify_aggregate sig _ pks) eqn:Hv; [|done]. injection H1 as <-. simpl.
  split; [done|]. exists pks. destruct (bls_keys_spec c Hwf) as [Hnd _].
  split; unfold cert_epoch, origin, digest, parents, author, epoch, header_digest in *; simpl in *.
  all: rewrite ?Hf; try done.
  - rewrite Hf in Hd. by rewrite Hd.
  - by apply sublist_nodup_subset.
  - lia.
  - exists sig. unfold digest, header_digest in Hv. simpl in Hv. rewrite Hf in Hv. by split.
Qed.

(** Every signer is a committee member, counted once. *)
Lemma signers_spec ks :
  unit_powers c -> ks ⊆ bls_keys c -> NoDup ks ->
  NoDup (signers c ks) /\ stake_of c (list_to_set (signers c ks)) = Z.of_nat (length ks) /\
  forall i, i ∈ signers c ks <-> exists a, committee_authority c i = Some a /\ protocol_key a ∈ ks.
Proof using Hwf.
  intros Hunit Hsub Hnd.
  assert (forall i, i ∈ signers c ks <->
    exists a, committee_authority c i = Some a /\ protocol_key a ∈ ks) as Hel.
  { intros i. unfold signers. rewrite list_elem_of_omap. split.
    - intros (k & Hk & (a & Ha & ->)%fmap_Some). exists a.
      by apply (member_authority c Hwf) in Ha as [? ->].
    - intros (a & Ha & Hk). exists (protocol_key a). split; [done|].
      apply (authority_member c Hwf) in Ha as [<- Hm]. by rewrite Hm. }
  assert (NoDup (signers c ks) /\ length (signers c ks) = length ks) as [Hn Hl].
  { clear Hel. unfold signers. induction Hnd as [|k ks Hk Hnd IH]; [by split; [constructor|]|].
    destruct IH as [IH1 IH2]; [intros ??; apply Hsub; by right|].
    destruct (proj1 (proj2 (bls_keys_spec c Hwf) k) (Hsub k ltac:(left))) as (i & a & Ha & Hp).
    destruct (authority_member c Hwf _ _ Ha) as [Hid Hm]. rewrite Hp in Hm. simpl. rewrite Hm. simpl.
    split; [|by f_equal]. constructor; [|done].
    intros (k' & Hk' & (a' & Ha' & Hid')%fmap_Some)%list_elem_of_omap.
    apply (member_authority c Hwf) in Ha' as [Ha' <-]. rewrite <- Hid', Hid, Ha in Ha'.
    injection Ha' as ->. by rewrite Hp in Hk'. }
  split_and!; [done| |done]. unfold stake_of. rewrite wsum_list by done. rewrite <- Hl.
  assert (forall i, i ∈ signers c ks -> voting_power_by_id c i = 1) as Hone.
  { intros i (a & Ha & _)%Hel. destruct (authority_member c Hwf _ _ Ha) as [_ Hm].
    unfold voting_power_by_id. unfold committee_authority in Ha. rewrite Ha. by eapply Hunit. }
  clear -Hone. induction (signers c ks) as [|i l IH]; [done|]. rewrite fmap_cons. simpl.
  fold_fmap. rewrite IH by (intros; apply Hone; by right). rewrite Hone by left. lia.
Qed.

(** An honest signer never signs two headers of one author, round and epoch. *)
Definition votes_once (honest : AuthorityIdentifier -> Prop)
    (signed : AuthorityIdentifier -> HeaderFields -> Prop) : Prop :=
  forall i h1 h2, honest i -> signed i h1 -> signed i h2 ->
    author h1 = author h2 -> round h1 = round h2 -> epoch h1 = epoch h2 ->
    header_hash h1 = header_hash h2.

(** A verifying aggregate contains the signature of each honest key owner. *)
Definition unforgeable (honest : AuthorityIdentifier -> Prop)
    (signed : AuthorityIdentifier -> HeaderFields -> Prop) : Prop :=
  forall sig h ks i a, verify_aggregate sig (header_hash h) ks = true ->
    committee_authority c i = Some a -> protocol_key a ∈ ks -> honest i -> signed i h.

Lemma quorum_signed_unique (F : gset AuthorityIdentifier) signed x1 ks1 x2 ks2 :
  0 < total_power c -> unit_powers c -> stake_of c F <= max_faulty c ->
  unforgeable (fun i => i ∉ F) signed -> votes_once (fun i => i ∉ F) signed ->
  quorum_signed c x1 ks1 -> quorum_signed c x2 ks2 ->
  origin x1 = origin x2 -> cert_round x1 = cert_round x2 -> digest x1 = digest x2.
Proof using Hwf.
  intros Hpos Hunit HF Huf Honce H1 H2 Ho Hr.
  destruct (signers_spec ks1 Hunit) as (_ & Hs1 & Hm1); [apply H1|apply H1|].
  destruct (signers_spec ks2 Hunit) as (_ & Hs2 & Hm2); [apply H2|apply H2|].
  destruct (quorums_share_honest c (list_to_set (signers c ks1)) (list_to_set (signers c ks2)) Hwf
    Hpos) as [_ Hshare]; [rewrite Hs1; apply H1|rewrite Hs2; apply H2|].
  destruct (Hshare F HF) as (i & Hi1 & Hi2 & Hi). rewrite elem_of_list_to_set in Hi1, Hi2.
  apply Hm1 in Hi1 as (a1 & Ha1 & Hk1). apply Hm2 in Hi2 as (a2 & Ha2 & Hk2).
  destruct (qs_signature _ _ _ H1) as (sig1 & _ & Hv1), (qs_signature _ _ _ H2) as (sig2 & _ & Hv2).
  rewrite (qs_digest _ _ _ H1) in Hv1 |- *. rewrite (qs_digest _ _ _ H2) in Hv2 |- *.
  apply (Honce i); try done; [eapply (Huf sig1 _ ks1 i a1); done|eapply (Huf sig2 _ ks2 i a2); done|].
  pose proof (qs_epoch _ _ _ H1). pose proof (qs_epoch _ _ _ H2). unfold cert_epoch in *. congruence.
Qed.

End verify.

(** ** Built certificates verify *)

Section roundtrip.
Context `{!Crypto} {ok : CryptoOk} (c : Committee) (Hwf : committee_wf c) (Hunit : unit_powers c).

Lemma stake_of_le_size X : stake_of c X <= Z.of_nat (size X).
Proof using Hwf Hunit.
  unfold stake_of, wsum, size, set_size. simpl.
  induction (elements X) as [|i l IH]; [done|]. rewrite fmap_cons. simpl. fold_fmap.
  enough (voting_power_by_id c i <= 1) by lia. unfold voting_power_by_id.
  destruct (authorities_by_id c !! i) as [a|] eqn:Ha; [|lia].
  destruct (authority_member c Hwf i a Ha) as [_ Hm]. by rewrite (Hunit _ _ Hm).
Qed.

(** A peer that receives the certificate of the aggregator accepts it. *)
Lemma built_certificate_received h h' X x :
  built_certificate c h X x -> header_validate c h = Ret h' -> round h <> 0 ->
  exists y, receive x c = Ret y /\ header y = h' /\ digest y = digest x /\
    signature_verification_state y = signature_verification_state x.
Proof using Hwf Hunit.
  intros [Hh Hq (sig & Hsig & ks & Hks & _ & Hv)] Hval Hr.
  destruct (header_validate_Ret _ _ _ Hval) as (Hf & Hd & He & _).
  assert (header_digest h = header_hash h) as Hcell.
  { unfold header_validate in Hval. unfold header_digest. repeat case_match; try done.
    all: simplify_eq; match goal with E : negb (_ =? _) = false |- _ =>
      apply negb_false_iff, Z.eqb_eq in E; done end. }
  unfold receive, validate_received, aggregated_signature. rewrite Hsig. simpl.
  unfold validate_and_verify, cert_epoch, cert_round. simpl. rewrite Hh, He, Z.eqb_refl. simpl.
  rewrite (proj2 (Z.eqb_neq _ _) Hr). simpl. rewrite Hval. simpl.
  unfold signed_by in *. simpl. rewrite Hks.
  pose proof (stake_of_le_size X). rewrite (proj2 (Z.leb_le _ _)) by lia. simpl.
  unfold verify_signature, digest. simpl. rewrite Hd, <- Hcell, Hv. eexists. split; [done|]. simpl.
  by rewrite Hd, Hh, Hcell.
Qed.

End roundtrip.

(** The aggregator after a sequence of votes. *)
Definition after_votes `{!Crypto} (c : Committee) (h : Header) (now : TimestampSec)
    (vs : list Vote) : HeaderVotesAggregator :=
  foldl (fun g v => fst (append_vote g v c h now)) (HeaderVotesAggregator_new c) vs.

Lemma after_votes_ok `{!Crypto} {ok : CryptoOk} c h now vs :
  committee_wf c -> aggregator_ok c h (after_votes c h now vs).
Proof.
  intros Hwf. unfold after_votes. pose proof (aggregator_new_ok c h) as Hg. revert Hg.
  generalize (HeaderVotesAggregator_new c). induction vs as [|v vs IH]; intros g Hg; [done|].
  simpl. apply IH. pose proof (append_vote_cases c Hwf g v h now Hg) as Hc.
  destruct (append_vote g v c h now) as [g' [res|[]| |]]; simpl; naive_solver.
Qed.

(** ** Parents *)

(** The certificates of a sequence whose author was not seen before. *)
Fixpoint first_certs (s : gset AuthorityIdentifier) (xs : list Certificate) : list Certificate :=
  match xs with
  | [] => []
  | x :: xs' =>
      if bool_decide (origin x ∈ s) then first_certs s xs'
      else x :: first_certs ({[origin x]} ∪ s) xs'
  end.

(** What an aggregator sends for a sequence of certificates. *)
Fixpoint ca_run {E} (c : Committee) (g : CertificatesAggregator) (xs : list Certificate) :
    Exec E (CertificatesAggregator * list (list Certificate)) :=
  match xs with
  | [] => mret (g, [])
  | x :: xs' =>
      '(g', sent) ← ca_append g x c;
      '(g'', rest) ← ca_run c g' xs';
      mret (g'', match sent with Some l => l :: rest | None => rest end)
  end.

(** What the manager sends for a sequence of certificates. *)
Fixpoint manager_run {E} (c : Committee) (m : CertificatesAggregatorManager)
    (xs : list Certificate) :
    Exec E (CertificatesAggregatorManager * list (list Certificate * Round)) :=
  match xs with
  | [] => mret (m, [])
  | x :: xs' =>
      '(m', sent) ← append_certificate m x c;
      '(m'', rest) ← manager_run c m' xs';
      mret (m'', match sent with Some l => l :: rest | None => rest end)
  end.

(** The authors of a list of certificates. *)
Definition authors (xs : list Certificate) : gset AuthorityIdentifier := list_to_set (origin <$> xs).

(** The parents for a round: one quorum of certificates, then each later
    certificate on its own. *)
Definition quorum_then_singles (c : Committee) (sent : list (list Certificate)) : Prop :=
  match sent with
  | [] => True
  | first :: rest => quorum_threshold c <= stake_of c (authors first) /\
      Forall (fun l => length l = 1%nat) rest
  end.

Definition ca_ok (c : Committee) (g : CertificatesAggregator) : Prop :=
  ca_weight g = stake_of c (authorities_seen g).

Definition am_ok (c : Committee) (m : CertificatesAggregatorManager) : Prop :=
  forall r g, aggregators m !! r = Some g -> ca_ok c g.

Lemma first_certs_NoDup s xs :
  NoDup (origin <$> first_certs s xs) /\ (forall x, x ∈ first_certs s xs -> origin x ∉ s /\ x ∈ xs).
Proof.
  revert s. induction xs as [|x xs IH]; intros s; simpl; [split; [constructor|intros ? Hx; inversion Hx]|].
  case_bool_decide as Hs.
  - destruct (IH s) as [IH1 IH2]. split; [done|]. intros y [? ?]%IH2. split; [done|by right].
  - destruct (IH ({[origin x]} ∪ s)) as [IH1 IH2]. split.
    + rewrite fmap_cons. constructor; [|done]. intros (y & Hy & [Hn _]%IH2)%list_elem_of_fmap. set_solver.
    + intros y [->|[Hn ?]%IH2]%elem_of_cons; [split; [done|left]|]. split; [set_solver|by right].
Qed.

Section parents.
Context (c : Committee) (Hwf : committee_wf c) {E : Type}.

Lemma ca_append_Ret g x :
  ca_ok c g ->
  ca_append (E := E) g x c =
  Ret (if bool_decide (origin x ∈ authorities_seen g) then (g, None)
       else
         let s := {[origin x]} ∪ authorities_seen g in
         let quorum := quorum_threshold c <=? stake_of c s in
         let certs := ca_certificates g ++ [x] in
         ({| ca_weight := stake_of c s; ca_certificates := if quorum then [] else certs;
             authorities_seen := s |}, if quorum then Some certs else None)).
Proof using Hwf.
  intros Hg. unfold ca_append. case_bool_decide as Hs; [done|]. rewrite Hg.
  assert (stake_of c (authorities_seen g) + voting_power_by_id c (origin x) =
    stake_of c ({[origin x]} ∪ authorities_seen g)) as Hw.
  { unfold stake_of. rewrite wsum_insert by done. lia. }
  pose proof (stake_of_le_total c Hwf ({[origin x]} ∪ authorities_seen g)).
  pose proof (wf_total _ Hwf). pose proof (total_power_nonneg c (wf_authorities _ Hwf)).
  unfold uadd. rewrite Hw, (proj2 (Z.leb_le _ _)) by lia. simpl. by destruct (_ <=? _).
Qed.

Lemma ca_append_ok g x g' sent :
  ca_ok c g -> ca_append (E := E) g x c = Ret (g', sent) -> ca_ok c g'.
Proof using Hwf. intros Hg. rewrite ca_append_Ret by done. case_bool_decide; by intros [= <- <-]. Qed.

Lemma stake_of_mono X Y : X ⊆ Y -> stake_of c X <= stake_of c Y.
Proof using Hwf. apply wsum_mono, voting_power_by_id_nonneg, Hwf. Qed.

Lemma ca_run_quorate g xs :
  ca_ok c g -> ca_certificates g = [] -> quorum_threshold c <= stake_of c (authorities_seen g) ->
  exists g', ca_run (E := E) c g xs =
    Ret (g', (fun x => [x]) <$> first_certs (authorities_seen g) xs) /\ ca_certificates g' = [].
Proof using Hwf.
  revert g. induction xs as [|x xs IH]; intros g Hg Hn Hq; [simpl; eauto|].
  cbn [ca_run first_certs]. rewrite ca_append_Ret by done. case_bool_decide as Hs; simpl.
  - destruct (IH g Hg Hn Hq) as (g' & -> & ?). simpl. eauto.
  - pose proof (stake_of_mono (authorities_seen g) ({[origin x]} ∪ authorities_seen g)
      ltac:(set_solver)).
    rewrite (proj2 (Z.leb_le _ _)) by lia. rewrite Hn. simpl.
    edestruct (IH {| ca_weight := stake_of c ({[origin x]} ∪ authorities_seen g);
      ca_certificates := []; authorities_seen := {[origin x]} ∪ authorities_seen g |})
      as (g' & -> & ?); [done|done|simpl; lia|]. simpl. eauto.
Qed.

(** The certificates sent, in order, with those still kept. *)
Lemma ca_run_Ret g xs :
  ca_ok c g -> authorities_seen g = authors (ca_certificates g) ->
  stake_of c (authorities_seen g) < quorum_threshold c ->
  exists g' sent, ca_run (E := E) c g xs = Ret (g', sent) /\
    concat sent ++ ca_certificates g' =
      ca_certificates g ++ first_certs (authorities_seen g) xs /\
    quorum_then_singles c sent /\
    (ca_certificates g' = [] \/ sent = [] /\ stake_of c (authors (ca_certificates g')) < quorum_threshold c).
Proof using Hwf.
  revert g. induction xs as [|x xs IH]; intros g Hg Hs Hq.
  { exists g, []. simpl. rewrite app_nil_r, <- Hs. split_and!; [done|done|done|by right]. }
  cbn [ca_run first_certs]. rewrite ca_append_Ret by done. case_bool_decide as Hn; simpl.
  { destruct (IH g Hg Hs Hq) as (g' & sent & -> & ?). simpl. eauto. }
  set (s := {[origin x]} ∪ authorities_seen g).
  assert (s = authors (ca_certificates g ++ [x])) as Hs'.
  { unfold s, authors. rewrite fmap_app, list_to_set_app_L. fold (authors (ca_certificates g)).
    rewrite <- Hs. simpl. set_solver. }
  destruct (Z.leb_spec (quorum_threshold c) (stake_of c s)) as [Hle|Hlt].
  - destruct (ca_run_quorate {| ca_weight := stake_of c s; ca_certificates := [];
      authorities_seen := s |} xs) as (g' & -> & Hg'); [done|done|done|]. simpl.
    eexists g', _. split; [done|]. rewrite Hg'. simpl. split_and!; [|by rewrite <- Hs'| |by left].
    + rewrite app_nil_r, <- app_assoc. do 2 f_equal. simpl.
      clear. induction (first_certs s xs) as [|y l IHl]; [done|]. simpl. f_equal. exact IHl.
    + apply Forall_forall. intros l (y & -> & _)%list_elem_of_fmap. done.
  - destruct (IH {| ca_weight := stake_of c s; ca_certificates := ca_certificates g ++ [x];
      authorities_seen := s |}) as (g' & sent & -> & Hc & ?); [done|done|done|]. simpl in *.
    eexists g', sent. split; [done|]. by rewrite Hc, <- app_assoc.
Qed.

(** The manager keeps the rounds apart. *)
Lemma append_certificate_Ret m x :
  am_ok c m ->
  exists m' sent g g', append_certificate (E := E) m x c = Ret (m', sent) /\ am_ok c m' /\
    am_gc_depth m' = am_gc_depth m /\
    ca_append (E := E) g x c = Ret (g', (fun p => p.1) <$> sent) /\
    (forall p, sent = Some p -> p.2 = cert_round x) /\
    (forall r, cert_round x < r + am_gc_depth m ->
       aggregators m' !! r = if r =? cert_round x then Some g' else aggregators m !! r) /\
    (cert_round x < cert_round x + am_gc_depth m ->
       g = default CertificatesAggregator_new (aggregators m !! cert_round x)).
Proof using Hwf.
  intros Hm. set (m1 := am_proactive_gc m (cert_round x)).
  assert (am_ok c m1) as Hm1.
  { unfold m1, am_proactive_gc. destruct (_ <? _); [done|]. intros r g Hr.
    apply (Hm r g). unfold garbage_collect in Hr. simpl in Hr.
    rewrite lookup_retain_keys in Hr. by destruct (_ <? r). }
  assert (am_gc_depth m1 = am_gc_depth m) as Hd
    by (unfold m1, am_proactive_gc; by destruct (_ <? _)).
  assert (forall r, cert_round x < r + am_gc_depth m -> aggregators m1 !! r = aggregators m !! r) as Hk.
  { intros r Hr. unfold m1, am_proactive_gc. destruct (_ <? _); [done|]. simpl.
    rewrite lookup_retain_keys. by rewrite (proj2 (Z.ltb_lt _ _)) by lia. }
  set (g := match aggregators m1 !! cert_round x with Some g => g
            | None => CertificatesAggregator_new end).
  assert (ca_ok c g) as Hg.
  { unfold g. destruct (aggregators m1 !! cert_round x) as [g1|] eqn:Hl; [by eapply Hm1|].
    unfold ca_ok. simpl. unfold stake_of. by rewrite wsum_empty. }
  destruct (ca_append (E := E) g x c) as [[g' sent]|e| |] eqn:Happ;
    try (rewrite ca_append_Ret in Happ by done; discriminate).
  unfold append_certificate. fold m1 g. rewrite Happ. simpl.
  eexists _, _, g, g'. split; [done|]. simpl. split_and!; [|done| | | |].
  - intros r g2. simpl. rewrite lookup_insert_Some. intros [[<- <-]|[_ ?]]; [|by eapply Hm1].
    by eapply ca_append_ok.
  - rewrite Happ. by destruct sent.
  - intros p. by destruct sent; intros [= <-].
  - intros r Hr. destruct (Z.eqb_spec r (cert_round x)) as [->|]; [by rewrite lookup_insert_eq|].
    rewrite lookup_insert_ne by done. by apply Hk.
  - intros Hr. unfold g. by rewrite Hk by done.
Qed.

(** What the manager sends for a round is what the round's own aggregator
    sends for the round's certificates. *)
Lemma manager_run_round m xs r :
  am_ok c m -> 0 < am_gc_depth m -> Forall (fun x => cert_round x < r + am_gc_depth m) xs ->
  exists m' outs g', manager_run (E := E) c m xs = Ret (m', outs) /\
    ca_run (E := E) c (default CertificatesAggregator_new (aggregators m !! r))
      (List.filter (fun x => cert_round x =? r) xs) =
    Ret (g', (List.filter (fun p => p.2 =? r) outs).*1).
Proof using Hwf.
  revert m. induction xs as [|x xs IH]; intros m Hm Hd Hall; [simpl; eauto|].
  inversion Hall as [|? ? Hx Hxs]; subst.
  destruct (append_certificate_Ret m x Hm)
    as (m1 & sent & g & g1 & Happ & Hm1 & Hd1 & Hca & Hp & Hk & Hg).
  destruct (IH m1 Hm1) as (m2 & outs & g2 & Hrun & Hcr); [lia|by rewrite Hd1|].
  cbn [manager_run]. rewrite Happ. simpl. rewrite Hrun. simpl.
  rewrite (Hk r Hx) in Hcr. cbn [List.filter].
  destruct (Z.eqb_spec (cert_round x) r) as [<-|Hne].
  - rewrite Z.eqb_refl in Hcr. simpl in Hcr. cbn [ca_run]. rewrite <- Hg by lia.
    rewrite Hca. simpl. rewrite Hcr. simpl. eexists _, _, g2. split; [done|].
    destruct sent as [[l r']|]; [|done]. simpl. specialize (Hp _ eq_refl). simpl in Hp. subst.
    by rewrite Z.eqb_refl.
  - rewrite (proj2 (Z.eqb_neq _ _)) in Hcr by done. eexists _, _, g2. split; [done|].
    destruct sent as [[l r']|]; [|done]. simpl. specialize (Hp _ eq_refl). simpl in Hp. subst.
    by rewrite (proj2 (Z.eqb_neq _ _)) by done.
Qed.

End parents.

(** ** Properties *)

(** after any sequence of votes, the header's vote aggregator rejects a
    vote for another digest, from outside the committee, with a bad signature
    or from an authority already counted, and is then unchanged. It otherwise
    counts the vote once; below a quorum of voting power there is no
    certificate, and from a quorum on there is always one. Every peer of the
    committee accepts that certificate with the same digest. *)
Theorem votes_make_valid_certificate `{!Crypto} {ok : CryptoOk} c h h' now vs v :
  committee_wf c -> unit_powers c -> header_validate c h = Ret h' -> round h <> 0 ->
  let g := after_votes c h now vs in
  match append_vote g v c h now with
  | (g', Ret res) =>
      vote_author v ∉ seen (inner g) /\ seen (inner g') = {[vote_author v]} ∪ seen (inner g) /\
      match res with
      | None => stake_of c (seen (inner g')) < quorum_threshold c
      | Some x => quorum_threshold c <= stake_of c (seen (inner g')) /\ header x = h /\
          exists y, receive x c = Ret y /\ header y = h' /\ digest y = digest x
      end
  | (g', Err (AuthorityReuse a)) => g' = g /\ a = vote_author v /\ a ∈ seen (inner g)
  | (g', Err DagInvalidHeaderDigest) => g' = g /\ header_digest_of v <> header_digest h
  | (g', Err (DagUnknownAuthority a)) => g' = g /\ committee_authority c (vote_author v) = None
  | (g', Err DagInvalidSignature) => g' = g /\ exists auth,
      committee_authority c (vote_author v) = Some auth /\
      verify_secure (vote_signature v) (header_digest h) (protocol_key auth) = false
  | (_, Err CertificateRequiresQuorum) | (_, Panic) | (_, Diverge) => False
  end.
Proof.
  intros Hwf Hunit Hv Hr g.
  pose proof (append_vote_cases c Hwf g v h now (after_votes_ok c h now vs Hwf)) as Hc.
  destruct (append_vote g v c h now) as [g' [res|[]| |]]; try done.
  destruct Hc as (-> & Hok & Hn & Hres). split_and!; [done|done|].
  destruct res as [x|]; [|done]. split_and!; [apply Hres|apply Hres|].
  destruct (built_certificate_received c Hwf Hunit h h' _ x Hres Hv Hr) as (y & ? & ? & ? & _). eauto.
Qed.

(** C36: two certificates of one author and round that peers of a committee
    accept have the same digest, when signatures cannot be forged, the
    authorities outside [F] vote for one header of an author per round and
    the stake of [F] is at most the tolerated one. *)
Theorem certificates_do_not_equivocate `{!Crypto} c (F : gset AuthorityIdentifier) signed
    x1 x2 y1 y2 :
  committee_wf c -> 0 < total_power c -> unit_powers c -> stake_of c F <= max_faulty c ->
  unforgeable c (fun i => i ∉ F) signed -> votes_once (fun i => i ∉ F) signed ->
  receive x1 c = Ret y1 -> receive x2 c = Ret y2 -> cert_round x1 <> 0 ->
  origin x1 = origin x2 -> cert_round x1 = cert_round x2 -> digest y1 = digest y2.
Proof.
  intros Hwf Hpos Hunit HF Huf Ho R1 R2 Hr Horig Hround.
  destruct (receive_quorum_signed c Hwf x1 y1 Hr R1) as (Hf1 & ks1 & H1).
  destruct (receive_quorum_signed c Hwf x2 y2 ltac:(congruence) R2) as (Hf2 & ks2 & H2).
  eapply (quorum_signed_unique c Hwf F signed); try done.
  - unfold origin, author in *. by rewrite Hf1, Hf2.
  - unfold cert_round, round in *. by rewrite Hf1, Hf2.
Qed.

(** fed with any sequence of certificates whose rounds do not let round
    [r] be collected, the aggregation of parents sends for round [r] exactly
    the first certificate of each author, in order of arrival and once each:
    nothing below a quorum, then a quorum of authors at once, then each
    further certificate on its own. *)
Theorem parents_sent_once c depth xs r :
  committee_wf c -> 0 < quorum_threshold c -> 0 < depth ->
  Forall (fun x => cert_round x < r + depth) xs ->
  exists m outs pending,
    manager_run (E := Empty_set) c {| aggregators := ∅; am_gc_depth := depth |} xs = Ret (m, outs) /\
    let sent := (List.filter (fun p => p.2 =? r) outs).*1 in
    let firsts := first_certs ∅ (List.filter (fun x => cert_round x =? r) xs) in
    concat sent ++ pending = firsts /\ NoDup (origin <$> firsts) /\
    quorum_then_singles c sent /\
    (pending = [] \/ sent = [] /\ stake_of c (authors firsts) < quorum_threshold c).
Proof.
  intros Hwf Hq Hd Hall.
  destruct (manager_run_round c Hwf (E := Empty_set) {| aggregators := ∅; am_gc_depth := depth |} xs r)
    as (m & outs & g & Hrun & Hca); [by intros ?? |done|done|].
  simpl in Hca. rewrite lookup_empty in Hca. simpl in Hca.
  destruct (ca_run_Ret c Hwf (E := Empty_set) CertificatesAggregator_new
    (List.filter (fun x => cert_round x =? r) xs)) as (g' & sent & Hca' & Hc & Hs & Hp); [done|done|done|].
  rewrite Hca in Hca'. injection Hca' as <- <-. exists m, outs, (ca_certificates g).
  split; [done|]. cbv zeta. simpl in Hc. split_and!; [done|apply first_certs_NoDup|done|].
  destruct Hp as [Hp|[Hp1 Hp2]]; [by left|right]. split; [done|].
  rewrite Hp1 in Hc. simpl in Hc. by rewrite <- Hc.
Qed.

(** ** Witnesses *)

Lemma example_unit_powers : unit_powers example_committee.
Proof.
  intros k a Hk. apply (bool_decide_unpack (map_Forall (fun _ a => authority_voting_power a = 1)
    (authorities_map example_committee)) ltac:(vm_compute; exact I) k a Hk).
Qed.

Lemma example_crypto_ok : CryptoOk (H := example_crypto).
Proof.
  intros d sigs keys _ Hall. exists (zsum sigs). split; [done|]. simpl. apply Z.eqb_eq.
  induction Hall as [|s k sigs keys Hs _ IH]; [done|]. simpl in *. apply Z.eqb_eq in Hs.
  rewrite IH, Hs. done.
Qed.

(** The vote of authority [a] for a header. *)
Definition example_vote (h : Header) (a : Z) : Vote :=
  Vote_new (H := example_crypto) h a (header_digest (H := example_crypto) h * 100 + a).

Lemma votes_make_valid_certificate_witness :
  let h := example_header 2 1 [] in
  let g := after_votes (H := example_crypto) example_committee h 0
             [example_vote h 1; example_vote h 1; example_vote h 2] in
  exists x y, snd (append_vote (H := example_crypto) g (example_vote h 4) example_committee h 0)
      = Ret (Some x) /\
    receive (H := example_crypto) x example_committee = Ret y.
Proof.
  intros h g.
  pose proof (votes_make_valid_certificate (H := example_crypto) (ok := example_crypto_ok)
    example_committee h {| fields := fields h; digest_cell := Some 1002 |} 0
    [example_vote h 1; example_vote h 1; example_vote h 2] (example_vote h 4)
    example_committee_wf example_unit_powers ltac:(vm_compute; reflexivity)
    ltac:(vm_compute; discriminate)) as Hth.
  cbv zeta in Hth. fold g in Hth.
  assert (match append_vote (H := example_crypto) g (example_vote h 4) example_committee h 0 with
    | (_, Ret (Some _)) => True | _ => False end) as Hv by (vm_compute; exact I).
  destruct (append_vote g (example_vote h 4) example_committee h 0)
    as [g' [[x|]|e| |]]; try (exfalso; exact Hv).
  destruct Hth as (_ & _ & _ & _ & y & Hy & _). exists x, y. split; [reflexivity|exact Hy].
Defined.

(** A received certificate of authority [a] at round 1, signed by three
    authorities whose keys sum to [t]. *)
Definition example_received (a : Z) (signed : gset Z) (t : Z) : Certificate :=
  {| header := example_header a 1 [];
     signature_verification_state := Unverified (3 * (100000 + a * 100) + t);
     signed_authorities := signed; cert_created_at := 0 |}.

Lemma certificates_do_not_equivocate_witness :
  exists y1 y2,
    receive (H := example_crypto) (example_received 2 {[0; 1; 2]} 6) example_committee = Ret y1 /\
    receive (H := example_crypto) (example_received 2 {[1; 2; 3]} 9) example_committee = Ret y2 /\
    digest (H := example_crypto) y1 = digest (H := example_crypto) y2.
Proof.
  assert (forall x, match receive (H := example_crypto) x example_committee with
    | Ret _ => True | _ => False end ->
    exists y, receive (H := example_crypto) x example_committee = Ret y) as Hex.
  { intros x Hx. destruct (receive x example_committee) as [y|e| |]; [|exfalso; exact Hx..].
    exists y. reflexivity. }
  destruct (Hex (example_received 2 {[0; 1; 2]} 6)) as [y1 Hy1]; [vm_compute; exact I|].
  destruct (Hex (example_received 2 {[1; 2; 3]} 9)) as [y2 Hy2]; [vm_compute; exact I|].
  exists y1, y2. split; [exact Hy1|]. split; [exact Hy2|].
  apply (certificates_do_not_equivocate (H := example_crypto) example_committee {[4]}
    (fun _ _ => True) (example_received 2 {[0; 1; 2]} 6) (example_received 2 {[1; 2; 3]} 9)).
  - apply example_committee_wf.
  - vm_compute. reflexivity.
  - apply example_unit_powers.
  - vm_compute. discriminate.
  - intros sig h ks i a _ _ _ _. exact I.
  - intros i h1 h2 _ _ _ Ha Hr _. simpl. rewrite Ha, Hr. reflexivity.
  - exact Hy1.
  - exact Hy2.
  - vm_compute. discriminate.
  - reflexivity.
  - reflexivity.
Defined.

Lemma parents_sent_once_witness :
  exists m outs, manager_run (E := Empty_set) example_committee
    {| aggregators := ∅; am_gc_depth := 10 |}
    [example_cert 1 1 []; example_cert 2 1 []; example_cert 2 2 []; example_cert 1 1 [];
     example_cert 3 1 []; example_cert 4 1 []] = Ret (m, outs) /\
    quorum_then_singles example_committee (List.filter (fun p => p.2 =? 1) outs).*1 /\
    length (List.filter (fun p => p.2 =? 1) outs) = 2%nat.
Proof.
  destruct (parents_sent_once example_committee 10
    [example_cert 1 1 []; example_cert 2 1 []; example_cert 2 2 []; example_cert 1 1 [];
     example_cert 3 1 []; example_cert 4 1 []] 1) as (m & outs & pending & Hrun & _ & _ & Hs & _).
  - apply example_committee_wf.
  - vm_compute. reflexivity.
  - lia.
  - apply (bool_decide_unpack _). vm_compute. exact I.
  - exists m, outs. split; [exact Hrun|]. split; [exact Hs|].
    vm_compute in Hrun. injection Hrun as _ <-. reflexivity.
Defined.
