(* ===== verification/LeaderSchedule.v ===== *)
(** * Reputation scores and the leader schedule

    [crates/infrastructure/types/src/primary/reputation.rs] and
    [crates/consensus/primary/src/consensus/leader_schedule.rs]: the scores
    authorities earn by voting for leaders, the table that swaps badly scoring
    leaders for well scoring ones, and the election of a round's leader. *)
From S2P Require Import Prelude Types Committee.

(** ** Signed 64-bit arithmetic and [f64] square roots *)

(** [x as i64] for [x : u64] *)
Definition as_i64 (x : Z) : Z := if x <? 2 ^ 63 then x else x - 2 ^ 64.

(** An [i64] result with overflow checks on. *)
Definition i64_checked {E} (x : Z) : Exec E Z :=
  if (- 2 ^ 63 <=? x) && (x <? 2 ^ 63) then Ret x else Panic.

(** [x as u64] for [x : i64] *)
Definition i64_as_u64 (x : Z) : Z := if 0 <=? x then x else x + 2 ^ 64.

(** [n as f64] for [n : u64], whose value is an integer: [n] rounded to 53
    significant bits, ties to even. *)
Definition u64_as_f64 (n : Z) : Z :=
  let e := Z.max 0 (Z.log2 n + 1 - 53) in
  let q := n / 2 ^ e in
  let r := n mod 2 ^ e in
  let up := (2 ^ e <? 2 * r) || ((2 ^ e =? 2 * r) && Z.odd q) in
  (q + if up then 1 else 0) * 2 ^ e.

(** [x.sqrt() as u64] for an [f64] [x] whose value is the integer [x]: the
    square root rounded to 53 significant bits, then truncated. The scaled
    root [s] has 53 bits; a root is never half way between two floats. *)
Definition f64_sqrt_as_u64 (x : Z) : Z :=
  let k := 52 - Z.log2 x / 2 in
  let y := x * 4 ^ k in
  let s := Z.sqrt y in
  (s + if s <? y - s * s then 1 else 0) / 2 ^ k.

(** ** Reputation scores *)

Record ReputationScores := {
  scores_per_authority : gmap AuthorityIdentifier Z;
  final_of_schedule : bool
}.

(** [ReputationScores::new] *)
Definition ReputationScores_new (c : Committee) : ReputationScores :=
  {| scores_per_authority := btree_collect ((fun a => (id a, 0)) <$> authorities c);
     final_of_schedule := false |}.

(** [ReputationScores::add_score] *)
Definition add_score {E} (rs : ReputationScores) (a : AuthorityIdentifier) (score : Z) :
    Exec E ReputationScores :=
  v ← match scores_per_authority rs !! a with
      | Some val => uadd u64_max val score
      | None => mret score
      end;
  mret {| scores_per_authority := <[a := v]> (scores_per_authority rs);
          final_of_schedule := final_of_schedule rs |}.

(** [ReputationScores::total_authorities] *)
Definition total_authorities (rs : ReputationScores) : Z :=
  Z.of_nat (size (scores_per_authority rs)).

(** [ReputationScores::all_zero] *)
Definition all_zero (rs : ReputationScores) : bool :=
  negb (existsb (fun kv => 0 <? kv.2) (map_to_list (scores_per_authority rs))).

(** The comparator of [authorities_by_score_desc]: score descending, then
    identifier descending. *)
Definition score_ge (x y : Z * Z) : Prop := y.2 < x.2 \/ (y.2 = x.2 /\ y.1 <= x.1).
#[export] Instance score_ge_dec : RelDecision score_ge.
Proof. intros x y. unfold score_ge. apply _. Defined.

(** [ReputationScores::authorities_by_score_desc] *)
Definition authorities_by_score_desc (rs : ReputationScores) :
    list (AuthorityIdentifier * Z) :=
  merge_sort score_ge (map_to_list (scores_per_authority rs)).

(** ** The leader swap table *)

Record LeaderSwapTable := {
  table_round : Round;
  good_nodes : list Authority;
  bad_nodes : gmap AuthorityIdentifier Authority
}.

(** [LeaderSwapTable::default] *)
Definition LeaderSwapTable_default : LeaderSwapTable :=
  {| table_round := 0; good_nodes := []; bad_nodes := ∅ |}.

(** The random generator of the [rand] crate, seeded with 32 bytes: the index
    [choose] draws from a slice of the given length. *)
Class Rng := choose_index : list Z -> Z -> Z.

(** [choose] returns an element of a non-empty slice. *)
Class RngOk {rng : Rng} : Prop :=
  choose_index_bound : forall seed n, 0 < n -> 0 <= choose_index seed n < n.

Section table.
Context (c : Committee) (auths_by_score : list (AuthorityIdentifier * Z)).

(** The mean of the scores. *)
Definition mean_rep {E} : Exec E Z :=
  match auths_by_score with
  | [] => mret 0
  | _ => total ← usum u64_max 0 (snd <$> auths_by_score);
         udiv total (Z.of_nat (length auths_by_score))
  end.

(** The sum of the squared deviations from the mean. *)
Fixpoint square_sum {E} (mean acc : Z) (l : list (AuthorityIdentifier * Z)) : Exec E Z :=
  match l with
  | [] => mret acc
  | (_, r) :: l' =>
      v ← i64_checked (as_i64 r - as_i64 mean);
      vv ← i64_checked (v * v);
      acc' ← uadd u64_max acc (i64_as_u64 vv);
      square_sum mean acc' l'
  end.

(** The standard deviation of the scores. *)
Definition standard_deviation {E} : Exec E Z :=
  mean ← mean_rep;
  squares ← square_sum mean 0 auths_by_score;
  variance ← udiv squares (Z.of_nat (length auths_by_score));
  mret (f64_sqrt_as_u64 (u64_as_f64 variance)).

(** The authorities, worst first, with a score of at most [bad_ceil]. *)
Definition bad_below (bad_ceil : Z) : list Authority :=
  omap (fun '(i, rep) => if rep <=? bad_ceil then committee_authority c i else None)
       (reverse auths_by_score).

(** The authorities, best first, with a score of at least [good_floor]. *)
Definition good_above (good_floor : Z) : list Authority :=
  omap (fun '(i, rep) => if good_floor <=? rep then committee_authority c i else None)
       auths_by_score.

(** The loop that lowers [bad_ceil] until the bad nodes fit the threshold. *)
Fixpoint bad_nodes_loop {E} (fuel : nat) (list_threshold standard_dev bad_ceil old_bad_ceil : Z) :
    Exec E (list Authority * Z) :=
  match fuel with
  | O => Diverge
  | S fuel' =>
      let bad := bad_below bad_ceil in
      if Z.of_nat (length bad) <=? list_threshold then mret (bad, bad_ceil)
      else
        let bad_ceil' := sat_sub bad_ceil standard_dev in
        if old_bad_ceil =? bad_ceil' then mret (bad, bad_ceil')
        else bad_nodes_loop fuel' list_threshold standard_dev bad_ceil' bad_ceil'
  end.

(** The loop that lowers [good_floor] until there are enough good nodes. *)
Fixpoint good_nodes_loop {E} (fuel : nat)
    (list_threshold standard_dev bad_ceil good_floor old_good_floor : Z) :
    Exec E (list Authority) :=
  match fuel with
  | O => Diverge
  | S fuel' =>
      let good := good_above good_floor in
      if list_threshold <=? Z.of_nat (length good) then mret good
      else
        floor1 ← uadd u64_max bad_ceil 1;
        let good_floor' := Z.max (sat_sub good_floor standard_dev) floor1 in
        if old_good_floor =? good_floor' then mret good
        else good_nodes_loop fuel' list_threshold standard_dev bad_ceil good_floor' good_floor'
  end.

(** The lists of good and bad nodes. *)
Definition good_and_bad {E} (list_threshold : Z) :
    Exec E (list Authority * gmap AuthorityIdentifier Authority) :=
  let highest_rep := match head auths_by_score with Some (_, r) => r | None => 0 end in
  let lowest_rep := match last auths_by_score with Some (_, r) => r | None => 0 end in
  standard_dev ← standard_deviation;
  doubled ← (if standard_dev =? 0 then mret 0 else umul u64_max 2 standard_dev);
  if (standard_dev =? 0) || (sat_sub highest_rep doubled <? lowest_rep) then mret ([], ∅)
  else
    let fuel := S (S (Z.to_nat highest_rep)) in
    let bad_ceil0 := sat_sub highest_rep doubled in
    '(bad, bad_ceil) ← bad_nodes_loop fuel list_threshold standard_dev bad_ceil0 bad_ceil0;
    floor1 ← uadd u64_max bad_ceil 1;
    let good_floor := Z.max (sat_sub highest_rep standard_dev) floor1 in
    good ← good_nodes_loop fuel list_threshold standard_dev bad_ceil good_floor good_floor;
    _ ← rassert (match bad with [] => true | _ => match good with [] => false | _ => true end end);
    mret (good, btree_collect ((fun a => (id a, a)) <$> bad)).

End table.

(** [LeaderSwapTable::new]; the final [expect]s are those of the debug log. *)
Definition LeaderSwapTable_new {E} (c : Committee) (r : Round) (rs : ReputationScores)
    (bad_nodes_percent_threshold : Z) : Exec E LeaderSwapTable :=
  _ ← rassert ((0 <=? bad_nodes_percent_threshold) && (bad_nodes_percent_threshold <=? 33));
  _ ← rassert (final_of_schedule rs);
  let auths_by_score := authorities_by_score_desc rs in
  scaled ← umul u64_max (Z.of_nat (length auths_by_score)) bad_nodes_percent_threshold;
  let list_threshold := Z.max (scaled / 100) 1 in
  '(good, bad) ← good_and_bad c auths_by_score list_threshold;
  _ ← rassert (forallb (fun a => bool_decide (is_Some (scores_per_authority rs !! id a))) good);
  _ ← rassert (forallb (fun a => bool_decide (is_Some (scores_per_authority rs !! id a)))
                 (btree_values bad));
  mret {| table_round := r; good_nodes := good; bad_nodes := bad |}.

(** The little-endian bytes of a [u64]. *)
Fixpoint le_bytes (n : nat) (x : Z) : list Z :=
  match n with
  | O => []
  | S n' => x mod 256 :: le_bytes n' (x / 256)
  end.

(** ** The schedule *)

Record LeaderSchedule := {
  ls_committee : Committee;
  leader_swap_table : LeaderSwapTable
}.

(** [LeaderSchedule::update_leader_swap_table] *)
Definition update_leader_swap_table (ls : LeaderSchedule) (t : LeaderSwapTable) : LeaderSchedule :=
  {| ls_committee := ls_committee ls; leader_swap_table := t |}.

(** [LeaderSchedule::num_of_bad_nodes] *)
Definition num_of_bad_nodes (ls : LeaderSchedule) : Z :=
  Z.of_nat (size (bad_nodes (leader_swap_table ls))).

Section schedule.
Context {rng : Rng}.

(** [LeaderSwapTable::swap] *)
Definition swap {E} (t : LeaderSwapTable) (leader : AuthorityIdentifier) (leader_round : Round) :
    Exec E (option Authority) :=
  match bad_nodes t !! leader with
  | Some _ =>
      let seed := replicate 24 0 ++ le_bytes 8 leader_round in
      let n := Z.of_nat (length (good_nodes t)) in
      good ← expect (match good_nodes t with
                     | [] => None
                     | _ => good_nodes t !! Z.to_nat (choose_index seed n)
                     end);
      mret (Some good)
  | None => mret None
  end.

(** [LeaderSchedule::leader] *)
Definition leader {E} (ls : LeaderSchedule) (r : Round) : Exec E Authority :=
  _ ← rassert (r mod 2 =? 0);
  let half := sat_sub (r / 2) 1 in
  _ ← rassert (negb (committee_size (ls_committee ls) =? 0));
  let next_leader := half mod committee_size (ls_committee ls) in
  l ← expect (authorities (ls_committee ls) !! Z.to_nat next_leader);
  swapped ← swap (leader_swap_table ls) (id l) r;
  mret (match swapped with Some g => g | None => l end).

(** [LeaderSchedule::leader_certificate] *)
Definition leader_certificate {E} (ls : LeaderSchedule) (r : Round) (dag : Dag) :
    Exec E (Authority * option Certificate) :=
  l ← leader ls r;
  mret (l, match dag !! r with
           | Some round_map => snd <$> round_map !! id l
           | None => None
           end).

End schedule.

(** ** Specification *)

(** Scores of exactly the committee's authorities, bounded by [b]. *)
Definition scores_ok (c : Committee) (b : Z) (rs : ReputationScores) : Prop :=
  (forall i, is_Some (scores_per_authority rs !! i) <-> is_Some (authorities_by_id c !! i)) /\
  (forall i v, scores_per_authority rs !! i = Some v -> 0 <= v <= b).

(** A bound on scores under which the statistics of [LeaderSwapTable::new] fit
    their machine types. *)
Definition score_bound_ok (c : Committee) (b : Z) : Prop :=
  0 <= b <= 2 ^ 31 /\ committee_size c * (b * b) <= u64_max /\
  committee_size c * 33 <= u64_max /\ committee_size c * b <= u64_max.

(** What the schedule relies on: the good nodes are members of the committee
    and are not bad, the bad nodes are members filed under their identifiers,
    and there is a good node to swap in whenever there is a bad one. *)
Record table_ok (c : Committee) (t : LeaderSwapTable) : Prop := {
  to_good : forall a, a ∈ good_nodes t -> committee_authority c (id a) = Some a;
  to_bad : forall i a, bad_nodes t !! i = Some a -> committee_authority c i = Some a /\ id a = i;
  to_disjoint : forall a, a ∈ good_nodes t -> bad_nodes t !! id a = None;
  to_nonempty : bad_nodes t <> ∅ -> good_nodes t <> []
}.

(** ** Lemmas *)

Lemma u64_as_f64_bound n : 0 <= n <= u64_max -> 0 <= u64_as_f64 n <= 2 ^ 65.
Proof.
  intros Hn. unfold u64_as_f64, u64_max in *.
  set (e := Z.max 0 (Z.log2 n + 1 - 53)).
  assert (Z.log2 n <= 63).
  { destruct (decide (n = 0)) as [->|]; [simpl; lia|].
    enough (Z.log2 n < 64) by lia. apply Z.log2_lt_pow2; lia. }
  assert (0 <= e <= 11) as He by lia.
  assert (0 < 2 ^ e) by (apply Z.pow_pos_nonneg; lia).
  assert (2 ^ e <= 2 ^ 11) by (apply Z.pow_le_mono_r; lia).
  pose proof (Z.div_mod n (2 ^ e) ltac:(lia)). pose proof (Z.mod_pos_bound n (2 ^ e) ltac:(lia)).
  assert (0 <= n / 2 ^ e) by (apply Z.div_pos; lia).
  match goal with |- context [if ?b then 1 else 0] => set (d := if b then 1 else 0) end.
  assert (0 <= d <= 1) by (subst d; case_match; lia).
  split; [nia|]. assert ((n / 2 ^ e + d) * 2 ^ e <= n + 2 ^ e) by nia. lia.
Qed.

Lemma f64_sqrt_bound x : 0 <= x <= 2 ^ 65 -> 0 <= f64_sqrt_as_u64 x <= 2 ^ 34.
Proof.
  intros Hx. unfold f64_sqrt_as_u64.
  set (k := 52 - Z.log2 x / 2).
  assert (Z.log2 x <= 65).
  { destruct (decide (x = 0)) as [->|]; [simpl; lia|].
    enough (Z.log2 x < 66) by lia. apply Z.log2_lt_pow2; lia. }
  pose proof (Z.log2_nonneg x).
  assert (0 <= k) as Hk by (subst k; Z.to_euclidean_division_equations; lia).
  set (y := x * 4 ^ k).
  assert (0 < 2 ^ k) by (apply Z.pow_pos_nonneg; lia).
  assert (4 ^ k = 2 ^ k * 2 ^ k) as H4 by (rewrite <- Z.pow_mul_l; done).
  assert (0 <= y) by (subst y; nia).
  pose proof (Z.sqrt_spec y ltac:(lia)) as [Hs1 Hs2]. pose proof (Z.sqrt_nonneg y).
  set (s := Z.sqrt y) in *.
  match goal with |- context [if ?b then 1 else 0] => set (d := if b then 1 else 0) end.
  assert (0 <= d <= 1) by (subst d; case_match; lia).
  split; [apply Z.div_pos; lia|].
  apply Z.div_le_upper_bound; [lia|].
  assert (s <= 2 ^ 33 * 2 ^ k); [|lia].
  apply Z.square_le_simpl_nonneg; [nia|]. subst y. rewrite H4 in *.
  assert (x * (2 ^ k * 2 ^ k) <= 2 ^ 65 * (2 ^ k * 2 ^ k)) by nia.
  replace (2 ^ 33 * 2 ^ k * (2 ^ 33 * 2 ^ k)) with (2 ^ 66 * (2 ^ k * 2 ^ k)) by ring. nia.
Qed.

Lemma standard_dev_zero : f64_sqrt_as_u64 (u64_as_f64 0) = 0.
Proof. reflexivity. Qed.

Section scores.
Context (rs : ReputationScores).

Lemma by_score_perm : authorities_by_score_desc rs ≡ₚ map_to_list (scores_per_authority rs).
Proof. apply merge_sort_Permutation. Qed.

Lemma elem_of_by_score i v :
  (i, v) ∈ authorities_by_score_desc rs <-> scores_per_authority rs !! i = Some v.
Proof. rewrite by_score_perm. apply elem_of_map_to_list. Qed.

Lemma by_score_sorted : StronglySorted score_ge (authorities_by_score_desc rs).
Proof.
  apply StronglySorted_merge_sort; unfold score_ge.
  - intros x y z. lia.
  - intros x y. lia.
Qed.

Lemma by_score_head_max p l i v :
  authorities_by_score_desc rs = p :: l -> (i, v) ∈ p :: l -> v <= p.2.
Proof.
  intros Hl Hi. pose proof by_score_sorted as Hs. rewrite Hl in Hs.
  apply elem_of_cons in Hi as [<-|Hi]; [done|].
  apply StronglySorted_inv in Hs as [_ Hf]. rewrite Forall_forall in Hf.
  apply Hf in Hi. unfold score_ge in Hi. simpl in Hi. lia.
Qed.

End scores.

Lemma wp_i64_checked {E} x (Q : Z -> Prop) (R : E -> Prop) :
  - 2 ^ 63 <= x < 2 ^ 63 -> Q x -> wp (i64_checked x) Q R.
Proof. unfold i64_checked. intros. case_match eqn:Hb; [done|]. lia. Qed.

Lemma wp_square_sum {E} mean b l acc :
  0 <= mean <= b -> b <= 2 ^ 31 -> Forall (fun p : Z * Z => 0 <= p.2 <= b) l ->
  0 <= acc -> acc + Z.of_nat (length l) * (b * b) <= u64_max ->
  runs (square_sum (E := E) mean acc l) (fun v =>
    acc <= v <= acc + Z.of_nat (length l) * (b * b) /\
    (Forall (fun p : Z * Z => p.2 = mean) l -> v = acc)).
Proof.
  intros Hm Hb. revert acc. induction l as [|[i r] l IH]; intros acc Hl Hacc Hle; simpl.
  { rewrite Z.add_0_r. split; [lia|done]. }
  apply Forall_cons in Hl as [Hr Hl]. simpl in Hr.
  assert (as_i64 r = r /\ as_i64 mean = mean) as [-> ->]
    by (unfold as_i64; split; case_match; lia).
  assert (0 <= (r - mean) * (r - mean) <= b * b) as Hsq.
  { pose proof (Z.square_nonneg (r - mean)).
    pose proof (Z.mul_nonneg_nonneg (b - (r - mean)) (b + (r - mean))). lia. }
  assert (b * b <= 2 ^ 31 * 2 ^ 31) by (apply Z.mul_le_mono_nonneg; lia).
  apply wp_bind, wp_i64_checked; [lia|]. apply wp_bind, wp_i64_checked; [lia|].
  unfold i64_as_u64. rewrite (proj2 (Z.leb_le 0 _)) by lia.
  rewrite length_cons, Nat2Z.inj_succ in *.
  apply wp_bind, wp_uadd; [nia|].
  eapply wp_mono; [apply IH; [done|nia|nia]| |done].
  intros v [Hv Heq]. split; [nia|].
  intros [Hri Hf]%Forall_cons. rewrite Heq by done. simpl in Hri. nia.
Qed.

Lemma wp_mean_rep {E} b l :
  l <> [] -> 0 <= b -> Forall (fun p : Z * Z => 0 <= p.2 <= b) l ->
  Z.of_nat (length l) * b <= u64_max ->
  runs (mean_rep (E := E) l) (fun m =>
    0 <= m <= b /\ (Forall (fun p : Z * Z => p.2 = 0) l -> m = 0)).
Proof.
  intros Hne Hb Hl Hle. unfold mean_rep. destruct l as [|p l]; [done|]. set (L := p :: l) in *.
  assert (0 <= zsum (snd <$> L) <= Z.of_nat (length L) * b) as Hsum.
  { clear -Hl Hb. induction Hl as [|q L Hq _ IH]; [simpl; lia|].
    rewrite fmap_cons, length_cons. change (zsum (?x :: ?y)) with (x + zsum y). nia. }
  assert (0 < Z.of_nat (length L)) by (subst L; simpl; lia).
  apply wp_bind, wp_usum; [|lia|].
  { apply Forall_fmap. eapply Forall_impl; [done|]. simpl. lia. }
  rewrite Z.add_0_l. apply wp_udiv; [lia|]. split.
  - split; [apply Z.div_pos; lia|]. apply Z.div_le_upper_bound; lia.
  - intros Hz. assert (zsum (snd <$> L) = 0) as ->; [|by apply Z.div_0_l; lia].
    clear -Hz. induction Hz as [|q L Hq _ IH]; [done|].
    rewrite fmap_cons. change (zsum (?x :: ?y)) with (x + zsum y). lia.
Qed.

Lemma wp_standard_deviation {E} b l :
  l <> [] -> 0 <= b <= 2 ^ 31 -> Forall (fun p : Z * Z => 0 <= p.2 <= b) l ->
  Z.of_nat (length l) * b <= u64_max -> Z.of_nat (length l) * (b * b) <= u64_max ->
  runs (standard_deviation (E := E) l) (fun sd =>
    0 <= sd <= 2 ^ 34 /\ (Forall (fun p : Z * Z => p.2 = 0) l -> sd = 0)).
Proof.
  intros Hne Hb Hl H1 H2. unfold standard_deviation.
  apply wp_bind. eapply wp_mono; [apply (wp_mean_rep b); (done || lia)| |done].
  intros m [Hm Hm0]. apply wp_bind.
  eapply wp_mono; [apply (wp_square_sum m b); [done|lia|done|lia|lia]| |done].
  intros sq [Hsq Hsq0]. apply wp_bind.
  assert (0 < Z.of_nat (length l)) by (destruct l; [done|simpl; lia]).
  apply wp_udiv; [lia|]. split.
  - apply f64_sqrt_bound, u64_as_f64_bound. split; [apply Z.div_pos; lia|].
    apply Z.div_le_upper_bound; [lia|]. unfold u64_max in *. nia.
  - intros Hz. rewrite Hsq0.
    + by rewrite Z.div_0_l by lia.
    + rewrite Hm0 by done. done.
Qed.

Lemma wp_bad_nodes_loop {E} c l thr sd fuel ceil :
  1 <= sd -> 0 <= ceil -> (Z.to_nat ceil < fuel)%nat ->
  runs (bad_nodes_loop (E := E) c l fuel thr sd ceil ceil) (fun '(bad, ceil') =>
    0 <= ceil' <= ceil /\ bad = bad_below c l ceil').
Proof.
  intros Hsd. revert ceil. induction fuel as [|fuel IH]; intros ceil Hc Hf; [lia|].
  simpl. case_match; [simpl; split; [lia|done]|].
  case_match eqn:Heq; unfold sat_sub in *.
  - apply Z.eqb_eq in Heq. rewrite <- Heq. simpl. split; [lia|done].
  - apply Z.eqb_neq in Heq. eapply wp_mono; [apply IH; lia| |done].
    intros [bad ceil'] [? ->]. split; [lia|done].
Qed.

Lemma wp_good_nodes_loop {E} c l thr sd bc fuel floor :
  1 <= sd -> 0 <= bc -> bc + 1 <= u64_max -> bc + 1 <= floor -> (Z.to_nat floor < fuel)%nat ->
  runs (good_nodes_loop (E := E) c l fuel thr sd bc floor floor) (fun good =>
    exists floor', bc + 1 <= floor' <= floor /\ good = good_above c l floor').
Proof.
  intros Hsd Hbc Hmx. revert floor. induction fuel as [|fuel IH]; intros floor Hfl Hf; [lia|].
  simpl. case_match; [exists floor; split; [lia|done]|].
  apply wp_bind, wp_uadd; [done|].
  case_match eqn:Heq; unfold sat_sub in *.
  - exists floor; split; [lia|done].
  - apply Z.eqb_neq in Heq. eapply wp_mono; [apply IH; lia| |done].
    intros good (floor' & ? & ->). exists floor'. split; [lia|done].
Qed.

#[local] Arguments bad_nodes_loop : simpl never.
#[local] Arguments good_nodes_loop : simpl never.

Lemma elem_of_good_above c l fl a :
  a ∈ good_above c l fl ->
  exists i v, (i, v) ∈ l /\ fl <= v /\ committee_authority c i = Some a.
Proof.
  unfold good_above. rewrite list_elem_of_omap. intros ([i v] & Hin & Ha).
  case_match eqn:Hle; [|done]. exists i, v. split; [done|]. split; [lia|done].
Qed.

Lemma elem_of_bad_below c l ceil a :
  a ∈ bad_below c l ceil ->
  exists i v, (i, v) ∈ l /\ v <= ceil /\ committee_authority c i = Some a.
Proof.
  unfold bad_below. rewrite list_elem_of_omap. intros ([i v] & Hin & Ha).
  rewrite elem_of_reverse in Hin.
  case_match eqn:Hle; [|done]. exists i, v. split; [done|]. split; [lia|done].
Qed.

Lemma lookup_bad_collect (l : list Authority) i a :
  btree_collect ((fun a => (id a, a)) <$> l) !! i = Some a -> id a = i /\ a ∈ l.
Proof.
  rewrite btree_collect_list_to_map. intros Ha%elem_of_list_to_map_2.
  rewrite elem_of_reverse, list_elem_of_fmap in Ha. naive_solver.
Qed.

Section table_spec.
Context (c : Committee) (Hwf : committee_wf c) (rs : ReputationScores) (b : Z).
Context (Hrs : scores_ok c b rs) (Hb : score_bound_ok c b).

Abbreviation L := (authorities_by_score_desc rs) (only parsing).

Lemma scores_size : Z.of_nat (length L) = committee_size c.
Proof using Hwf Hrs.
  rewrite by_score_perm, length_map_to_list. unfold committee_size.
  assert (dom (scores_per_authority rs) = dom (authorities_by_id c)) as Hd.
  { apply set_eq. intros i. rewrite !elem_of_dom. apply Hrs. }
  assert (size (scores_per_authority rs) = size (authorities_by_id c)) as ->
    by (by rewrite <- !size_dom, Hd).
  by rewrite <- !length_btree_values, (wf_values c Hwf).
Qed.

Lemma scores_nonempty : L <> [].
Proof using Hwf Hrs.
  pose proof scores_size as Hs. pose proof (wf_size c Hwf).
  intros He. rewrite He in Hs. simpl in Hs. lia.
Qed.

Lemma scores_bounded : Forall (fun p : Z * Z => 0 <= p.2 <= b) L.
Proof using Hrs.
  apply Forall_forall. intros [i v] Hi%elem_of_by_score. apply Hrs in Hi. done.
Qed.

Lemma score_authority i v :
  (i, v) ∈ L -> exists a, committee_authority c i = Some a /\ id a = i.
Proof using Hwf Hrs.
  intros Hi%elem_of_by_score. destruct (proj1 (proj1 Hrs i)) as [a Ha]; [eauto|].
  exists a. split; [done|]. by apply (wf_by_id c Hwf) in Ha as [? _].
Qed.

Lemma authority_id i a : committee_authority c i = Some a -> id a = i.
Proof using Hwf. intros Ha. by apply (wf_by_id c Hwf) in Ha as [? _]. Qed.

(** The good nodes above a floor and the bad nodes below a smaller ceiling form
    a table the schedule can rely on. *)
Lemma good_bad_table r ceil fl :
  ceil + 1 <= fl ->
  (bad_below c L ceil <> [] -> good_above c L fl <> []) ->
  table_ok c {| table_round := r; good_nodes := good_above c L fl;
                bad_nodes := btree_collect ((fun a => (id a, a)) <$> bad_below c L ceil) |}.
Proof using Hwf Hrs Hb.
  intros Hlt Hne. split; simpl.
  - intros a (i & v & Hi & _ & Ha)%elem_of_good_above. by rewrite (authority_id _ _ Ha).
  - intros i a (Hid & Hin)%lookup_bad_collect.
    apply elem_of_bad_below in Hin as (j & v & _ & _ & Ha).
    pose proof (authority_id _ _ Ha). by simplify_eq.
  - intros a (i & v & Hi & Hv & Ha)%elem_of_good_above.
    apply eq_None_not_Some. intros [a' (Hid & Hin)%lookup_bad_collect].
    apply elem_of_bad_below in Hin as (j & v' & Hj & Hv' & Ha').
    apply authority_id in Ha as <-. apply authority_id in Ha' as <-. rewrite Hid in Hj.
    apply elem_of_by_score in Hi, Hj. simplify_eq. lia.
  - intros Hbad. apply Hne. intros He. by rewrite He in Hbad.
Qed.

Lemma good_above_head p l fl :
  L = p :: l -> fl <= p.2 -> good_above c L fl <> [].
Proof using Hwf Hrs.
  intros Hl Hle. destruct p as [i v]. simpl in Hle.
  destruct (score_authority i v) as (a & Ha & _); [rewrite Hl; left|].
  unfold good_above. rewrite Hl. simpl. rewrite (proj2 (Z.leb_le _ _)) by done. by rewrite Ha.
Qed.

Lemma wp_good_and_bad {E} thr :
  runs (good_and_bad (E := E) c L thr) (fun '(good, bad) => forall r,
    table_ok c {| table_round := r; good_nodes := good; bad_nodes := bad |}).
Proof using Hwf Hrs Hb.
  unfold good_and_bad. destruct Hb as (Hb0 & Hb1 & Hb2 & Hb3). rewrite <- scores_size in *.
  apply wp_bind. eapply wp_mono; [apply (wp_standard_deviation b);
    auto using scores_nonempty, scores_bounded; lia| |done].
  intros sd [Hsd Hsd0]. destruct (Z.eqb_spec sd 0) as [->|Hne]; simpl.
  { intros r. by split; simpl; try set_solver. }
  apply wp_bind, wp_umul; [ulia|]. case_match; [intros r; by split; simpl; try set_solver|].
  assert (exists i hi l, L = (i, hi) :: l) as (i & hi & l & Hl)
    by (pose proof scores_nonempty; destruct L as [|[] ?]; naive_solver).
  assert (match head L with Some (_, r) => r | None => 0 end = hi) as -> by (by rewrite Hl).
  rewrite Hl in Hsd0.
  assert (0 < hi) as Hhi.
  { destruct (decide (hi = 0)) as [->|]; [|pose proof scores_bounded as Hf;
      rewrite Hl in Hf; apply Forall_cons in Hf as [Hf _]; simpl in Hf; lia].
    exfalso. apply Hne, Hsd0, Forall_forall. intros [j v] Hj.
    pose proof (by_score_head_max rs _ _ j v Hl Hj) as Hv. simpl in *.
    pose proof scores_bounded as Hf. rewrite Hl, Forall_forall in Hf. apply Hf in Hj.
    simpl in Hj. lia. }
  assert (hi <= 2 ^ 31) as Hhi'.
  { pose proof scores_bounded as Hf. rewrite Hl in Hf. apply Forall_cons in Hf as [Hf _].
    simpl in Hf. lia. }
  apply wp_bind. eapply wp_mono; [apply wp_bad_nodes_loop; unfold sat_sub; lia| |done].
  intros [bad ceil] [Hceil ->]. unfold sat_sub in Hceil.
  apply wp_bind, wp_uadd; [ulia|]. apply wp_bind.
  eapply wp_mono; [apply wp_good_nodes_loop; unfold sat_sub; ulia| |done].
  intros good (fl & Hfl & ->). unfold sat_sub in Hfl.
  assert (good_above c L fl <> []) as Hgood by (eapply good_above_head; [done|simpl; lia]).
  apply wp_bind, wp_assert.
  { destruct (bad_below _ _ _); [done|]. by destruct (good_above _ _ _). }
  intros r. by apply good_bad_table; [lia|].
Qed.

Lemma wp_LeaderSwapTable_new {E} r t :
  final_of_schedule rs = true -> 0 <= t <= 33 ->
  runs (LeaderSwapTable_new (E := E) c r rs t) (table_ok c).
Proof using Hwf Hrs Hb.
  intros Hfin Ht. unfold LeaderSwapTable_new. apply wp_bind, wp_assert; [lia|].
  apply wp_bind, wp_assert; [done|]. apply wp_bind, wp_umul.
  { rewrite scores_size. destruct Hb as (_ & _ & Hb2 & _).
    pose proof (wf_size c Hwf). nia. }
  apply wp_bind. eapply wp_mono; [apply wp_good_and_bad| |done].
  intros [good bad] Hok. specialize (Hok r).
  assert (forall a i, committee_authority c i = Some a -> is_Some (scores_per_authority rs !! id a)) as Hsc.
  { intros a i Ha. rewrite (authority_id _ _ Ha). apply Hrs. eauto. }
  apply wp_bind, wp_assert.
  { apply forallb_forall. intros a Ha%list_elem_of_In. apply bool_decide_eq_true.
    by eapply Hsc, (to_good _ _ Hok). }
  apply wp_bind, wp_assert; [|done].
  apply forallb_forall. intros a Ha%list_elem_of_In. apply bool_decide_eq_true.
  apply elem_of_btree_values in Ha as [i Hi]. by eapply Hsc, (to_bad _ _ Hok).
Qed.

End table_spec.

Section election.
Context {rng : Rng} {rng_ok : RngOk} (ls : LeaderSchedule).
Context (Hwf : committee_wf (ls_committee ls)).

Abbreviation c := (ls_committee ls) (only parsing).

Lemma length_authorities : Z.of_nat (length (authorities c)) = committee_size c.
Proof using Hwf.
  unfold authorities, committee_size.
  by rewrite (wf_values _ Hwf), length_btree_values.
Qed.

Lemma elem_of_authorities a : a ∈ authorities c -> committee_authority c (id a) = Some a.
Proof using Hwf.
  unfold authorities. intros [i Hi]%elem_of_btree_values.
  by rewrite (authority_id _ Hwf i a).
Qed.

Lemma wp_swap {E} (i : Z) r :
  table_ok c (leader_swap_table ls) ->
  runs (swap (E := E) (leader_swap_table ls) i r) (fun o => match o with
    | Some g => g ∈ good_nodes (leader_swap_table ls)
    | None => bad_nodes (leader_swap_table ls) !! i = None
    end).
Proof.
  intros Hok. unfold swap. destruct (bad_nodes _ !! i) as [a|] eqn:Hbad; [|done].
  assert (good_nodes (leader_swap_table ls) <> []) as Hne
    by (apply (to_nonempty _ _ Hok); intros He; by rewrite He, lookup_empty in Hbad).
  set (seed := replicate 24 0 ++ le_bytes 8 r). set (g := good_nodes _) in *.
  pose proof (choose_index_bound seed (Z.of_nat (length g))) as Hidx.
  destruct (lookup_lt_is_Some_2 g (Z.to_nat (choose_index seed (Z.of_nat (length g)))))
    as [x Hx]; [destruct g; [done|]; simpl length in *; lia|].
  apply wp_bind, (wp_expect _ x); [by destruct g|].
  by apply list_elem_of_lookup_2 in Hx.
Qed.

Lemma wp_leader {E} r :
  table_ok c (leader_swap_table ls) -> 0 <= r -> r mod 2 = 0 ->
  runs (leader (E := E) ls r) (fun a =>
    committee_authority c (id a) = Some a /\
    bad_nodes (leader_swap_table ls) !! id a = None).
Proof using Hwf rng_ok.
  intros Hok Hr Hev. unfold leader. apply wp_bind, wp_assert; [lia|].
  pose proof (wf_size _ Hwf). apply wp_bind, wp_assert; [lia|].
  pose proof length_authorities.
  pose proof (Z.mod_pos_bound (sat_sub (r / 2) 1) (committee_size c)).
  destruct (lookup_lt_is_Some_2 (authorities c)
    (Z.to_nat (sat_sub (r / 2) 1 mod committee_size c))) as [l Hl]; [lia|].
  apply wp_bind, (wp_expect _ l); [done|]. apply list_elem_of_lookup_2 in Hl.
  apply wp_bind. eapply wp_mono; [by apply wp_swap| |done].
  intros [g|] Hg; simpl; [|by auto using elem_of_authorities].
  split; [by apply (to_good _ _ Hok)|by apply (to_disjoint _ _ Hok)].
Qed.

Lemma leader_round_robin {E} (k : nat) :
  bad_nodes (leader_swap_table ls) = ∅ ->
  exists a, leader (E := E) ls (2 * (Z.of_nat k + 1)) = Ret a /\
    authorities c !! Z.to_nat (Z.of_nat k mod committee_size c) = Some a.
Proof using Hwf.
  intros Hbad. pose proof (wf_size _ Hwf). pose proof length_authorities.
  unfold leader. rewrite (Z.mul_comm 2), Z.mod_mul, Z.div_mul by lia. simpl.
  replace (sat_sub (Z.of_nat k + 1) 1) with (Z.of_nat k) by (unfold sat_sub; lia).
  rewrite (proj2 (Z.eqb_neq (committee_size c) 0)) by lia. simpl.
  pose proof (Z.mod_pos_bound (Z.of_nat k) (committee_size c)).
  destruct (lookup_lt_is_Some_2 (authorities c)
    (Z.to_nat (Z.of_nat k mod committee_size c))) as [l Hl]; [lia|].
  rewrite Hl. simpl. unfold swap. rewrite Hbad, lookup_empty. simpl. eauto.
Qed.

End election.

(** ** Properties *)

(** from final reputation scores of a well-formed committee,
    [LeaderSwapTable::new] returns a table (none of its assertions, divisions,
    overflow checks or loops fails) whose good nodes are committee members
    disjoint from its bad nodes, and under that table every even round has a
    leader that is a committee member and not a bad node. *)
Theorem new_table_elects_good_leaders {rng : Rng} {rng_ok : RngOk} c b rs r t :
  committee_wf c -> scores_ok c b rs -> score_bound_ok c b ->
  final_of_schedule rs = true -> 0 <= t <= 33 ->
  exists tbl, LeaderSwapTable_new (E := Empty_set) c r rs t = Ret tbl /\ table_ok c tbl /\
  forall r', 0 <= r' -> r' mod 2 = 0 ->
  exists a, leader (E := Empty_set) {| ls_committee := c; leader_swap_table := tbl |} r' = Ret a /\
    committee_authority c (id a) = Some a /\ bad_nodes tbl !! id a = None.
Proof.
  intros Hwf Hrs Hb Hfin Ht.
  destruct (runs_Ret _ _ (wp_LeaderSwapTable_new (E := Empty_set) c Hwf rs b Hrs Hb r t Hfin Ht))
    as (tbl & Htbl & Hok).
  exists tbl. split; [done|]. split; [done|]. intros r' Hr' Hev.
  apply runs_Ret. by apply (wp_leader {| ls_committee := c; leader_swap_table := tbl |}).
Qed.

(** while no node is bad, leader election is fair round robin: over any
    [size] consecutive even rounds every authority of the committee is elected
    exactly once. *)
Theorem leader_election_fair {rng : Rng} ls (k : nat) :
  committee_wf (ls_committee ls) -> bad_nodes (leader_swap_table ls) = ∅ ->
  exists elected,
    mapM (leader (E := Empty_set) ls)
      ((fun i => 2 * (Z.of_nat (k + i) + 1)) <$> seq 0 (size (authorities_map (ls_committee ls))))
      = Ret elected /\
    elected ≡ₚ authorities (ls_committee ls).
Proof.
  intros Hwf Hbad. set (l := authorities (ls_committee ls)).
  pose proof (length_authorities ls Hwf) as Hlen. fold l in Hlen.
  exists (rotate k l). split; [|unfold rotate; by rewrite (Permutation_app_comm (drop _ _)), take_drop].
  unfold committee_size in Hlen. apply Nat2Z.inj in Hlen. rewrite <- Hlen.
  assert (forall n j, (j + n <= length l)%nat ->
    mapM (leader (E := Empty_set) ls) ((fun i => 2 * (Z.of_nat (k + i) + 1)) <$> seq j n)
    = Ret (take n (drop j (rotate k l)))) as Hgen.
  { induction n as [|n IH]; intros j Hj; [done|].
    destruct (leader_round_robin (E := Empty_set) ls Hwf (k + j) Hbad) as (a & Ha & Hla).
    simpl. rewrite Ha. simpl. rewrite IH by lia. simpl. do 2 f_equal.
    assert (rotate k l !! j = Some a) as Hja.
    { rewrite lookup_rotate_r by lia. unfold rotate_nat_add.
      rewrite Hlen, <- Nat2Z.inj_add. done. }
    rewrite (drop_S _ _ _ Hja). done. }
  rewrite Hgen by lia. by rewrite drop_0, take_ge by (rewrite length_rotate; lia).
Qed.

(** A score table in which authority 4 never voted. *)
Definition example_scores : ReputationScores :=
  {| scores_per_authority := {[1 := 10; 2 := 10; 3 := 10; 4 := 0]};
     final_of_schedule := true |}.

(** A [bad_nodes_percent_threshold] of zero does not disable the bad list:
    the list threshold is raised to one node, so an authority that never votes
    is still marked bad and swapped out. *)
Theorem zero_threshold_marks_bad :
  exists t, LeaderSwapTable_new (E := Empty_set) example_committee 2 example_scores 0 = Ret t /\
  btree_keys (bad_nodes t) = [4] /\ length (good_nodes t) = 3%nat.
Proof. eexists. vm_compute. split; [reflexivity|]. split; reflexivity. Qed.

(** The generator that always draws the first element. *)
Definition example_rng : Rng := fun _ _ => 0.

Lemma example_rng_ok : RngOk (rng := example_rng).
Proof. intros seed n Hn. unfold choose_index, example_rng. lia. Qed.

Lemma example_scores_ok : scores_ok example_committee 10 example_scores.
Proof.
  split.
  - intros i. rewrite <- !elem_of_dom. apply set_eq. vm_compute. reflexivity.
  - apply (bool_decide_unpack (map_Forall (fun _ v => 0 <= v <= 10)
      (scores_per_authority example_scores))). vm_compute. exact I.
Qed.

Lemma new_table_elects_good_leaders_witness :
  exists tbl, LeaderSwapTable_new (E := Empty_set) example_committee 2 example_scores 33 = Ret tbl /\
  bad_nodes tbl <> ∅ /\
  exists a, leader (E := Empty_set) (rng := example_rng)
    {| ls_committee := example_committee; leader_swap_table := tbl |} 8 = Ret a /\
    bad_nodes tbl !! id a = None.
Proof.
  destruct (new_table_elects_good_leaders (rng := example_rng) (rng_ok := example_rng_ok)
    example_committee 10 example_scores 2 33) as (tbl & Htbl & _ & Hlead).
  - apply example_committee_wf.
  - apply example_scores_ok.
  - unfold score_bound_ok. vm_compute. repeat split; discriminate.
  - reflexivity.
  - lia.
  - exists tbl. split; [assumption|]. split.
    + vm_compute in Htbl. injection Htbl as <-. vm_compute. discriminate.
    + destruct (Hlead 8) as (a & Ha & _ & Hb); [lia|reflexivity|]. exists a. split; assumption.
Defined.

Lemma leader_election_fair_witness :
  exists elected,
    mapM (leader (E := Empty_set) (rng := example_rng)
      {| ls_committee := example_committee; leader_swap_table := LeaderSwapTable_default |})
      [6; 8; 10; 12] = Ret elected /\ elected ≡ₚ authorities example_committee.
Proof.
  apply (leader_election_fair (rng := example_rng)
    {| ls_committee := example_committee; leader_swap_table := LeaderSwapTable_default |} 2).
  - apply example_committee_wf.
  - reflexivity.
Defined.
