(* ===== verification/ConsensusState.v ===== *)
(** * Consensus state

    [crates/consensus/primary/src/consensus/state.rs] (the DAG and the state
    that survives between certificates), [utils.rs] (flattening a leader's
    causal history) and [CommittedSubDag] of
    [crates/infrastructure/types/src/primary/output.rs]. *)
From S2P Require Import Prelude Types Committee LeaderSchedule.

(** ** Committed sub-DAGs *)

Record CommittedSubDag := {
  sd_certificates : list Certificate;
  sd_leader : Certificate;
  reputation_score : ReputationScores;
  sd_commit_timestamp : TimestampSec
}.

(** [CommittedSubDag::new]; the index only feeds a warning. *)
Definition CommittedSubDag_new (certificates : list Certificate) (leader : Certificate)
    (rs : ReputationScores) (previous_sub_dag : option CommittedSubDag) : CommittedSubDag :=
  let previous_sub_dag_ts := match previous_sub_dag with
                             | Some s => sd_commit_timestamp s
                             | None => 0
                             end in
  {| sd_certificates := certificates; sd_leader := leader; reputation_score := rs;
     sd_commit_timestamp := Z.max previous_sub_dag_ts (created_at (header leader)) |}.

(** [CommittedSubDag::commit_timestamp] *)
Definition commit_timestamp (s : CommittedSubDag) : TimestampSec :=
  if sd_commit_timestamp s =? 0 then created_at (header (sd_leader s))
  else sd_commit_timestamp s.

(** [CommittedSubDag::reaches_epoch_boundary] *)
Definition reaches_epoch_boundary (s : CommittedSubDag) (boundary : TimestampSec) : bool :=
  boundary <=? commit_timestamp s.

(** [CommittedSubDag::num_primary_blocks] *)
Definition num_primary_blocks (s : CommittedSubDag) : nat :=
  sum_list ((fun c => length (payload (header c))) <$> sd_certificates s).

(** [CommittedSubDag::leader_round], [CommittedSubDag::leader_epoch] *)
Definition leader_round (s : CommittedSubDag) : Round := cert_round (sd_leader s).
Definition leader_epoch (s : CommittedSubDag) : Epoch := cert_epoch (sd_leader s).

(** ** Errors and state *)

Inductive ConsensusError :=
  | StoreError
  | CertificateEquivocation (new existing : Certificate)
  | ShuttingDown
  | MissingParent (parent : CertificateDigest) (c : Certificate)
  | MissingParentRound (c : Certificate).

Record ConsensusRound := { committed_round : Round; gc_round : Round }.

Record ConsensusState := {
  last_round : ConsensusRound;
  gc_depth : Round;
  last_committed : gmap AuthorityIdentifier Round;
  last_committed_sub_dag : option CommittedSubDag;
  dag : Dag
}.

(** [utils::gc_round] *)
Definition gc_round_of (commit_round depth : Round) : Round := sat_sub commit_round depth.

(** [ConsensusRound::new_with_gc_depth] *)
Definition new_with_gc_depth (committed depth : Round) : ConsensusRound :=
  {| committed_round := committed; gc_round := gc_round_of committed depth |}.

(** [ConsensusRound::update] *)
Definition ConsensusRound_update (cr : ConsensusRound) (new_committed depth : Round) :
    ConsensusRound :=
  let last_committed_round := Z.max (committed_round cr) new_committed in
  {| committed_round := last_committed_round;
     gc_round := gc_round_of last_committed_round depth |}.

(** [ConsensusState::new] *)
Definition ConsensusState_new (depth : Round) : ConsensusState :=
  {| last_round := {| committed_round := 0; gc_round := 0 |}; gc_depth := depth;
     last_committed := ∅; last_committed_sub_dag := None; dag := ∅ |}.

Definition set_dag (st : ConsensusState) (d : Dag) : ConsensusState :=
  {| last_round := last_round st; gc_depth := gc_depth st;
     last_committed := last_committed st;
     last_committed_sub_dag := last_committed_sub_dag st; dag := d |}.

Definition set_last_committed_sub_dag (st : ConsensusState) (s : CommittedSubDag) :
    ConsensusState :=
  {| last_round := last_round st; gc_depth := gc_depth st;
     last_committed := last_committed st;
     last_committed_sub_dag := Some s; dag := dag st |}.

Section state.
Context `{!Crypto}.

(** The loop of [check_parents] over the certificate's parents. *)
Fixpoint check_parents_loop (c : Certificate) (store_parents : gset CertificateDigest)
    (ps : list CertificateDigest) : Exec ConsensusError unit :=
  match ps with
  | [] => mret tt
  | p :: ps' =>
      if bool_decide (p ∈ store_parents) then check_parents_loop c store_parents ps'
      else Err (MissingParent p c)
  end.

(** [ConsensusState::check_parents] *)
Definition check_parents (c : Certificate) (dag : Dag) (gc : Round) : Exec ConsensusError unit :=
  let r := cert_round c in
  gc1 ← uadd u32_max gc 1;
  if r <=? gc1 then mret tt
  else
    r1 ← usub r 1;
    match dag !! r1 with
    | Some round_table =>
        let store_parents := list_to_set (fst <$> btree_values round_table) in
        check_parents_loop c store_parents (btree_set_list (cert_parents c))
    | None => Err (MissingParentRound c)
    end.

(** [ConsensusState::try_insert_in_dag]: the DAG after the call with its result;
    an equivocating certificate replaces the existing one before the error. *)
Definition try_insert_in_dag (dag : Dag) (last_committed : gmap AuthorityIdentifier Round)
    (gc : Round) (c : Certificate) (do_check_parents : bool) :
    Dag * Exec ConsensusError bool :=
  if cert_round c <=? gc then (dag, Ret false)
  else
    match (if do_check_parents then check_parents c dag gc else mret tt) with
    | Ret _ =>
        let round_map := match dag !! cert_round c with Some m => m | None => ∅ end in
        let dag' := <[cert_round c := <[origin c := (digest c, c)]> round_map]> dag in
        let inserted := (match last_committed !! origin c with Some r => r | None => 0 end)
                        <? cert_round c in
        match round_map !! origin c with
        | Some (_, existing) =>
            if digest existing =? digest c then (dag', Ret inserted)
            else (dag', Err (CertificateEquivocation c existing))
        | None => (dag', Ret inserted)
        end
    | Err e => (dag, Err e)
    | Panic => (dag, Panic)
    | Diverge => (dag, Diverge)
    end.

(** [ConsensusState::try_insert] *)
Definition try_insert (st : ConsensusState) (c : Certificate) :
    ConsensusState * Exec ConsensusError bool :=
  let '(d, res) := try_insert_in_dag (dag st) (last_committed st)
                     (gc_round (last_round st)) c true in
  (set_dag st d, res).

(** [ConsensusState::update] *)
Definition update (st : ConsensusState) (c : Certificate) : ConsensusState :=
  let lc := match last_committed st !! origin c with
            | Some r => <[origin c := Z.max r (cert_round c)]> (last_committed st)
            | None => <[origin c := cert_round c]> (last_committed st)
            end in
  let lr := ConsensusRound_update (last_round st) (cert_round c) (gc_depth st) in
  {| last_round := lr; gc_depth := gc_depth st; last_committed := lc;
     last_committed_sub_dag := last_committed_sub_dag st;
     dag := retain_keys (fun r => gc_round lr <? r) (dag st) |}.

(** [ConsensusState::proactive_gc]: the state and the number of rounds pruned. *)
Definition proactive_gc (st : ConsensusState) (highest_seen_round : Round) :
    ConsensusState * Z :=
  if highest_seen_round <=? gc_depth st then (st, 0)
  else
    let proactive_gc_round := sat_sub highest_seen_round (gc_depth st) in
    if proactive_gc_round <=? gc_round (last_round st) then (st, 0)
    else
      let old_len := Z.of_nat (size (dag st)) in
      let dag' := retain_keys (fun r => proactive_gc_round <? r) (dag st) in
      (set_dag st dag', old_len - Z.of_nat (size dag')).

(** The loop of [construct_dag_from_cert_store]: certificates of other epochs
    and orphans are skipped. *)
Fixpoint construct_dag_loop (last_committed : gmap AuthorityIdentifier Round) (gc : Round)
    (current_epoch : Epoch) (d : Dag) (certs : list Certificate) : Exec ConsensusError Dag :=
  match certs with
  | [] => mret d
  | c :: certs' =>
      if negb (cert_epoch c =? current_epoch) then
        construct_dag_loop last_committed gc current_epoch d certs'
      else
        match try_insert_in_dag d last_committed gc c true with
        | (d', Ret _) => construct_dag_loop last_committed gc current_epoch d' certs'
        | (d', Err (MissingParent _ _)) | (d', Err (MissingParentRound _)) =>
            construct_dag_loop last_committed gc current_epoch d' certs'
        | (_, Err e) => Err e
        | (_, Panic) => Panic
        | (_, Diverge) => Diverge
        end
  end.

(** Stable [sort_by_key(|c| c.round())]: insertion keeps equal rounds in order. *)
Fixpoint insert_by_round (c : Certificate) (l : list Certificate) : list Certificate :=
  match l with
  | [] => [c]
  | x :: l' => if cert_round x <=? cert_round c then x :: insert_by_round c l' else c :: l
  end.
Definition sort_by_round (l : list Certificate) : list Certificate :=
  foldl (fun acc c => insert_by_round c acc) [] l.

(** [ConsensusState::construct_dag_from_cert_store]; [after_round] is the
    query of the certificate store. *)
Definition construct_dag_from_cert_store (after_round : Round -> list Certificate)
    (last_committed : gmap AuthorityIdentifier Round) (gc : Round) (current_epoch : Epoch) :
    Exec ConsensusError Dag :=
  gc1 ← uadd u32_max gc 1;
  construct_dag_loop last_committed gc current_epoch ∅ (sort_by_round (after_round gc1)).

(** [ConsensusState::new_from_store] *)
Definition new_from_store (last_committed_round depth : Round)
    (recovered : gmap AuthorityIdentifier Round) (latest_sub_dag : option CommittedSubDag)
    (after_round : Round -> list Certificate) (current_epoch : Epoch) :
    Exec ConsensusError ConsensusState :=
  let lr := new_with_gc_depth last_committed_round depth in
  match construct_dag_from_cert_store after_round recovered (gc_round lr) current_epoch with
  | Ret d => mret {| last_round := lr; gc_depth := depth; last_committed := recovered;
                     last_committed_sub_dag := latest_sub_dag; dag := d |}
  | Err _ => Panic
  | Panic => Panic
  | Diverge => Diverge
  end.

(** ** Flattening a sub-DAG *)

(** The first certificate of a round with the given digest. *)
Definition find_in_round (d : Dag) (r : Round) (p : CertificateDigest) :
    option (CertificateDigest * Certificate) :=
  match d !! r with
  | Some m => List.find (fun x => x.1 =? p) (btree_values m)
  | None => None
  end.

(** Whether the round of a certificate is already committed for its author. *)
Definition already_committed (lc : gmap AuthorityIdentifier Round) (c : Certificate) : bool :=
  match lc !! origin c with Some r => cert_round c <=? r | None => false end.

(** The loop of [order_dag] over the parents of [x]; the buffer is a stack. *)
Fixpoint push_parents (st : ConsensusState) (x : Certificate) (ps : list CertificateDigest)
    (buffer : list Certificate) (seen : gset CertificateDigest) :
    Exec ConsensusError (list Certificate * gset CertificateDigest) :=
  match ps with
  | [] => mret (buffer, seen)
  | p :: ps' =>
      r1 ← usub (cert_round x) 1;
      match find_in_round (dag st) r1 p with
      | Some (dg, c) =>
          if bool_decide (dg ∈ seen) || already_committed (last_committed st) c
          then push_parents st x ps' buffer seen
          else push_parents st x ps' (c :: buffer) ({[dg]} ∪ seen)
      | None => push_parents st x ps' buffer seen
      end
  end.

(** The depth-first loop of [order_dag]. *)
Fixpoint order_dag_loop (fuel : nat) (st : ConsensusState) (gc : Round)
    (buffer : list Certificate) (seen : gset CertificateDigest) (ordered : list Certificate) :
    Exec ConsensusError (list Certificate) :=
  match fuel with
  | O => Diverge
  | S fuel' =>
      match buffer with
      | [] => mret ordered
      | x :: buffer' =>
          let ordered' := ordered ++ [x] in
          gc1 ← uadd u32_max gc 1;
          if cert_round x =? gc1 then order_dag_loop fuel' st gc buffer' seen ordered'
          else
            '(b, s) ← push_parents st x (btree_set_list (cert_parents x)) buffer' seen;
            order_dag_loop fuel' st gc b s ordered'
      end
  end.

(** The order of a committed sequence: by round, then by digest. *)
Definition commit_le (a b : Certificate) : Prop :=
  cert_round a < cert_round b \/ (cert_round a = cert_round b /\ digest a <= digest b).
#[export] Instance commit_le_dec : RelDecision commit_le.
Proof. intros a b. unfold commit_le. apply _. Defined.

(** The entries of the DAG. *)
Definition dag_entries (d : Dag) : list (CertificateDigest * Certificate) :=
  btree_values d ≫= btree_values.

(** [utils::order_dag] *)
Definition order_dag (leader : Certificate) (st : ConsensusState) :
    Exec ConsensusError (list Certificate) :=
  _ ← rassert (0 <? cert_round leader);
  let gc := sat_sub (cert_round leader) (gc_depth st) in
  ordered ← order_dag_loop (S (S (length (dag_entries (dag st))))) st gc [leader] ∅ [];
  mret (merge_sort commit_le ordered).

End state.

(** ** Specification *)

(** The entry of an authority in a round. *)
Definition dag_at (d : Dag) (r : Round) (a : AuthorityIdentifier) :
    option (CertificateDigest * Certificate) :=
  match d !! r with Some m => m !! a | None => None end.

(** A certificate stored in the DAG. *)
Definition in_dag `{!Crypto} (d : Dag) (x : Certificate) : Prop :=
  dag_at d (cert_round x) (origin x) = Some (digest x, x).

(** A well-formed DAG above a floor round: entries are filed under the round
    and the author of their certificate with its digest, the authors are
    committee members, and no two certificates share a digest. *)
Record dag_ok `{!Crypto} (c : Committee) (floor : Round) (d : Dag) : Prop := {
  ok_entry : forall r a dg x, dag_at d r a = Some (dg, x) ->
    dg = digest x /\ cert_round x = r /\ origin x = a;
  ok_member : forall r a e, dag_at d r a = Some e -> is_Some (authorities_by_id c !! a);
  ok_floor : forall r m, d !! r = Some m -> floor < r <= u32_max;
  ok_inj : forall x y, in_dag d x -> in_dag d y -> digest x = digest y ->
    cert_round x = cert_round y /\ origin x = origin y
}.

(** One edge of the sub-DAG that [order_dag] follows: [y] is a parent of [x]
    present in the DAG, [x] is not at the garbage-collection boundary and [y]
    is not committed yet. *)
Definition dag_step `{!Crypto} (st : ConsensusState) (gc : Round) (x y : Certificate) : Prop :=
  cert_round x <> gc + 1 /\
  exists p, p ∈ cert_parents x /\
    find_in_round (dag st) (cert_round x - 1) p = Some (p, y) /\
    already_committed (last_committed st) y = false.

(** The causal history of a leader that is left to commit. *)
Definition sub_dag `{!Crypto} (st : ConsensusState) (leader : Certificate) : Certificate -> Prop :=
  rtc (dag_step st (sat_sub (cert_round leader) (gc_depth st))) leader.

(** ** Lemmas *)

Section dag_lemmas.
Context `{!Crypto}.

Lemma elem_of_dag_entries d dg x :
  (dg, x) ∈ dag_entries d <-> exists r a, dag_at d r a = Some (dg, x).
Proof.
  unfold dag_entries. rewrite list_elem_of_bind. split.
  - intros (m & [a Ha]%elem_of_btree_values & [r Hr]%elem_of_btree_values).
    exists r, a. unfold dag_at. by rewrite Hr.
  - intros (r & a & Hra). unfold dag_at in Hra. destruct (d !! r) as [m|] eqn:Hr; [|done].
    exists m. rewrite !elem_of_btree_values. eauto.
Qed.

Lemma dag_at_in_dag c fl d r a dg x :
  dag_ok c fl d -> dag_at d r a = Some (dg, x) ->
  in_dag d x /\ dg = digest x /\ cert_round x = r /\ origin x = a.
Proof.
  intros Hok Hat. destruct (ok_entry _ _ _ Hok _ _ _ _ Hat) as (-> & <- & <-). done.
Qed.

Lemma in_dag_inj c fl d x y :
  dag_ok c fl d -> in_dag d x -> in_dag d y -> digest x = digest y -> x = y.
Proof.
  intros Hok Hx Hy Hd. destruct (ok_inj _ _ _ Hok x y Hx Hy Hd) as [Hr Ho].
  unfold in_dag in *. rewrite Hr, Ho in Hx. congruence.
Qed.

Lemma in_dag_round c fl d x : dag_ok c fl d -> in_dag d x -> fl < cert_round x <= u32_max.
Proof.
  intros Hok Hx. unfold in_dag, dag_at in Hx.
  destruct (d !! cert_round x) eqn:Hr; [|done]. by eapply ok_floor.
Qed.

Lemma find_in_round_Some c fl d r p dg x :
  dag_ok c fl d -> find_in_round d r p = Some (dg, x) ->
  in_dag d x /\ cert_round x = r /\ digest x = p /\ dg = p.
Proof.
  intros Hok. unfold find_in_round. destruct (d !! r) as [m|] eqn:Hr; [|done].
  intros [Hin Heq]%find_some. apply list_elem_of_In, elem_of_btree_values in Hin as [a Ha].
  simpl in Heq. apply Z.eqb_eq in Heq as ->.
  destruct (dag_at_in_dag c fl d r a p x Hok) as (? & ? & ? & ?); [|done].
  unfold dag_at. by rewrite Hr.
Qed.

Lemma find_in_round_in_dag c fl d x :
  dag_ok c fl d -> in_dag d x ->
  find_in_round d (cert_round x) (digest x) = Some (digest x, x).
Proof.
  intros Hok Hx. destruct (find_in_round d (cert_round x) (digest x)) as [[dg y]|] eqn:Hf.
  - destruct (find_in_round_Some _ _ _ _ _ _ _ Hok Hf) as (Hy & _ & Hd & ->).
    by rewrite (in_dag_inj _ _ _ _ _ Hok Hy Hx Hd).
  - exfalso. unfold find_in_round in Hf. unfold in_dag, dag_at in Hx.
    destruct (d !! cert_round x) as [m|]; [|done].
    eapply find_none in Hf; [|apply list_elem_of_In, elem_of_btree_values; eauto].
    simpl in Hf. by rewrite Z.eqb_refl in Hf.
Qed.

Lemma dag_step_spec c fl st gc x y :
  dag_ok c fl (dag st) -> dag_step st gc x y ->
  in_dag (dag st) y /\ cert_round y = cert_round x - 1 /\ digest y ∈ cert_parents x.
Proof.
  intros Hok (_ & p & Hp & Hf & _).
  by destruct (find_in_round_Some _ _ _ _ _ _ _ Hok Hf) as (? & ? & -> & _).
Qed.

Lemma sub_dag_in_dag c fl st leader x :
  dag_ok c fl (dag st) -> in_dag (dag st) leader -> sub_dag st leader x ->
  in_dag (dag st) x /\ (x = leader \/ cert_round x < cert_round leader).
Proof.
  intros Hok Hl. unfold sub_dag. generalize (sat_sub (cert_round leader) (gc_depth st)).
  intros gc. revert x. apply rtc_ind_r; [by auto|].
  intros y x _ Hyx [Hy Hle].
  destruct (dag_step_spec _ _ _ _ _ _ Hok Hyx) as (? & ? & _). split; [done|].
  right. destruct Hle as [->|]; lia.
Qed.

(** What one pass over the parents of [x] adds to the stack. *)
Lemma wp_push_parents st x ps buffer seen :
  1 <= cert_round x ->
  (forall p dg y, find_in_round (dag st) (cert_round x - 1) p = Some (dg, y) ->
     dg = p /\ digest y = p) ->
  runs (push_parents st x ps buffer seen) (fun '(b, s) => exists new,
    b = new ++ buffer /\ s = (list_to_set (digest <$> new) ∪ seen) /\
    NoDup (digest <$> new) /\
    (forall y, y ∈ new -> (digest y ∉ seen) /\ digest y ∈ ps /\
       find_in_round (dag st) (cert_round x - 1) (digest y) = Some (digest y, y) /\
       already_committed (last_committed st) y = false) /\
    (forall p y, p ∈ ps -> find_in_round (dag st) (cert_round x - 1) p = Some (p, y) ->
       already_committed (last_committed st) y = false -> p ∈ s)).
Proof.
  intros Hx Hfind. revert buffer seen. induction ps as [|p ps IH]; intros buffer seen; simpl.
  { exists []. simpl. rewrite union_empty_l_L. repeat split; try done; try constructor; set_solver. }
  apply wp_bind, wp_usub; [lia|].
  destruct (find_in_round _ _ p) as [[dg y]|] eqn:Hf.
  - destruct (Hfind _ _ _ Hf) as [-> Hd].
    destruct (bool_decide (p ∈ seen) || already_committed (last_committed st) y) eqn:Hskip.
    + eapply wp_mono; [apply IH| |done]. intros [b s] (new & -> & -> & Hnd & Hnew & Hall).
      exists new. split_and!; try done.
      * intros z Hz. apply Hnew in Hz. set_solver.
      * intros q z [->|Hq]%elem_of_cons Hz Hc; [|by eapply Hall].
        assert (z = y) as -> by congruence. rewrite Hc, orb_false_r in Hskip.
        apply bool_decide_eq_true in Hskip. set_solver.
    + apply orb_false_iff in Hskip as [Hseen Hc]. apply bool_decide_eq_false in Hseen.
      eapply wp_mono; [apply IH| |done]. intros [b s] (new & -> & -> & Hnd & Hnew & Hall).
      exists (new ++ [y]). rewrite fmap_app. simpl. rewrite Hd.
      split_and!.
      * by rewrite <- app_assoc.
      * rewrite list_to_set_app_L. simpl. set_solver.
      * apply NoDup_app. split_and!; [done| |apply NoDup_singleton].
        intros q (z & -> & Hz)%list_elem_of_fmap. apply Hnew in Hz. set_solver.
      * intros z [Hz| ->%list_elem_of_singleton]%elem_of_app.
        -- apply Hnew in Hz. set_solver.
        -- rewrite Hd. split_and!; try done. left.
      * intros q z [->|Hq]%elem_of_cons Hz Hcz; [set_solver|]. by eapply Hall.
  - eapply wp_mono; [apply IH| |done]. intros [b s] (new & -> & -> & Hnd & Hnew & Hall).
    exists new. split_and!; try done.
    + intros z Hz. apply Hnew in Hz. set_solver.
    + intros q z [->|Hq]%elem_of_cons Hz Hc; [congruence|]. by eapply Hall.
Qed.

(** The invariant of the depth-first loop. *)
Record dfs_inv (c : Committee) (st : ConsensusState) (gc : Round) (leader : Certificate)
    (buffer : list Certificate) (seen : gset CertificateDigest) (ordered : list Certificate) :
    Prop := {
  dfs_sound : forall x, x ∈ ordered ++ buffer -> rtc (dag_step st gc) leader x;
  dfs_nodup : NoDup (digest <$> (ordered ++ buffer));
  dfs_seen : forall x, x ∈ ordered ++ buffer -> x = leader \/ digest x ∈ seen;
  dfs_seen_inv : forall dg, dg ∈ seen -> exists x, x ∈ ordered ++ buffer /\ digest x = dg;
  dfs_closed : forall x y, x ∈ ordered -> dag_step st gc x y -> digest y ∈ seen;
  dfs_leader : leader ∈ ordered ++ buffer
}.

Section order_dag.
Context (c : Committee) (fl : Round) (st : ConsensusState) (leader : Certificate).
Context (Hok : dag_ok c fl (dag st)) (Hfl : 0 <= fl).
Context (Hl : in_dag (dag st) leader) (Hlr : cert_round leader < u32_max).
Context (Hdepth : 0 <= gc_depth st).

Abbreviation gc := (sat_sub (cert_round leader) (gc_depth st)) (only parsing).

Lemma reach_in_dag x :
  rtc (dag_step st gc) leader x ->
  in_dag (dag st) x /\ (x = leader \/ cert_round x < cert_round leader).
Proof. apply (sub_dag_in_dag c fl st leader x Hok Hl). Qed.

Lemma find_digest r p dg y :
  find_in_round (dag st) r p = Some (dg, y) -> dg = p /\ digest y = p.
Proof.
  intros Hf. by destruct (find_in_round_Some _ _ _ _ _ _ _ Hok Hf) as (_ & _ & ? & ?).
Qed.

(** The stack and the unseen digests of the DAG bound the remaining pops. *)
Definition dfs_measure (buffer : list Certificate) (seen : gset CertificateDigest) : nat :=
  length buffer + size ((list_to_set (fst <$> dag_entries (dag st)) : gset Z) ∖ seen).

Lemma dfs_measure_push new buffer seen :
  NoDup (digest <$> new) ->
  (forall y, y ∈ new -> (digest y ∉ seen) /\ in_dag (dag st) y) ->
  (dfs_measure (new ++ buffer) (list_to_set (digest <$> new) ∪ seen) <= dfs_measure buffer seen)%nat.
Proof.
  intros Hnd Hnew. unfold dfs_measure. rewrite length_app.
  set (D := list_to_set (fst <$> dag_entries (dag st)) : gset Z).
  set (N := list_to_set (digest <$> new) : gset Z).
  assert (N ⊆ D ∖ seen) as Hsub.
  { intros dg (y & -> & Hy)%elem_of_list_to_set%list_elem_of_fmap.
    destruct (Hnew y Hy) as [Hs Hy']. apply elem_of_difference. split; [|done].
    apply elem_of_list_to_set, list_elem_of_fmap. exists (digest y, y). split; [done|].
    apply elem_of_dag_entries. by eexists _, _. }
  assert (size N = length new) as HN.
  { unfold N. rewrite size_list_to_set by done. apply length_fmap. }
  assert (D ∖ (N ∪ seen) = (D ∖ seen) ∖ N) as -> by set_solver.
  rewrite size_difference by done. apply subseteq_size in Hsub. lia.
Qed.

Lemma dfs_inv_skip x buffer seen ordered :
  dfs_inv c st gc leader (x :: buffer) seen ordered ->
  (forall y, ~ dag_step st gc x y) ->
  dfs_inv c st gc leader buffer seen (ordered ++ [x]).
Proof.
  intros [Hs Hn Hse Hsi Hc Hle] Hno.
  assert (ordered ++ x :: buffer = (ordered ++ [x]) ++ buffer) as E by (by rewrite <- app_assoc).
  rewrite E in Hs, Hn, Hse, Hsi, Hle. split; [done..| |done].
  intros y z [Hy| ->%list_elem_of_singleton]%elem_of_app Hyz; [by eapply Hc|].
  by destruct (Hno z).
Qed.

Lemma dfs_inv_push x new buffer seen ordered :
  dfs_inv c st gc leader (x :: buffer) seen ordered ->
  cert_round x <> gc + 1 ->
  NoDup (digest <$> new) ->
  (forall y, y ∈ new -> (digest y ∉ seen) /\ dag_step st gc x y) ->
  (forall y, dag_step st gc x y -> digest y ∈ (list_to_set (digest <$> new) : gset Z) ∪ seen) ->
  dfs_inv c st gc leader (new ++ buffer) (list_to_set (digest <$> new) ∪ seen) (ordered ++ [x]).
Proof.
  intros [Hs Hn Hse Hsi Hc Hle] Hgc Hnd Hnew Hall.
  assert (Hsub : forall y, y ∈ ordered ++ x :: buffer -> y ∈ (ordered ++ [x]) ++ new ++ buffer).
  { set_solver. }
  assert (Hin : forall y, y ∈ (ordered ++ [x]) ++ new ++ buffer ->
    y ∈ ordered ++ x :: buffer \/ y ∈ new).
  { set_solver. }
  assert (Hx : x ∈ ordered ++ x :: buffer) by (rewrite elem_of_app, elem_of_cons; auto).
  split.
  - intros y [Hy|Hy]%Hin; [by apply Hs|]. apply rtc_r with x; [by apply Hs|by apply Hnew].
  - assert (digest <$> ((ordered ++ [x]) ++ new ++ buffer)
      ≡ₚ (digest <$> new) ++ (digest <$> (ordered ++ x :: buffer))) as ->.
    { rewrite <- fmap_app. apply fmap_Permutation. rewrite <- app_assoc. simpl. solve_Permutation. }
    apply NoDup_app. split_and!; [done| |done].
    intros dg (y & -> & Hy)%list_elem_of_fmap (z & Hd & Hz)%list_elem_of_fmap.
    destruct (Hnew y Hy) as [Hys Hxy]. destruct (Hse z Hz) as [->|Hzs]; [|congruence].
    destruct (dag_step_spec _ _ _ _ _ _ Hok Hxy) as (Hyd & Hyr & _).
    rewrite (in_dag_inj _ _ _ _ _ Hok Hyd Hl Hd) in Hyr.
    destruct (reach_in_dag x (Hs x Hx)) as [_ [->|]]; lia.
  - intros y [Hy|Hy]%Hin.
    + destruct (Hse y Hy); [by left|]. right. set_solver.
    + right. apply elem_of_union_l, elem_of_list_to_set, list_elem_of_fmap. eauto.
  - intros dg [Hdg|Hdg]%elem_of_union.
    + apply elem_of_list_to_set, list_elem_of_fmap in Hdg as (y & -> & Hy).
      exists y. split; [|done]. rewrite !elem_of_app. auto.
    + destruct (Hsi dg Hdg) as (y & Hy & <-). eauto.
  - intros y z [Hy| ->%list_elem_of_singleton]%elem_of_app Hyz; [|by apply Hall].
    apply elem_of_union_r. by eapply Hc.
  - by apply Hsub.
Qed.

Lemma wp_order_dag_loop fuel buffer seen ordered :
  dfs_inv c st gc leader buffer seen ordered ->
  (dfs_measure buffer seen < fuel)%nat ->
  runs (order_dag_loop fuel st gc buffer seen ordered) (fun l =>
    exists seen', dfs_inv c st gc leader [] seen' l).
Proof.
  revert buffer seen ordered. induction fuel as [|fuel IH]; intros buffer seen ordered Hinv Hm;
    [lia|]. simpl. destruct buffer as [|x buffer]; [by exists seen|].
  assert (rtc (dag_step st gc) leader x) as Hx.
  { apply (dfs_sound _ _ _ _ _ _ _ Hinv). rewrite elem_of_app, elem_of_cons. auto. }
  apply reach_in_dag in Hx as [Hxd Hxr].
  pose proof (in_dag_round _ _ _ _ Hok Hxd) as Hr.
  apply wp_bind, wp_uadd; [ulia|].
  destruct (Z.eqb_spec (cert_round x) (gc + 1)) as [Heq|Hne].
  - apply IH; [apply dfs_inv_skip; [done|by intros y [? _]]|].
    unfold dfs_measure in *. simpl in Hm. lia.
  - apply wp_bind. eapply wp_mono; [apply wp_push_parents; [lia|apply find_digest]| |done].
    intros [b s] (new & -> & -> & Hnd & Hnew & Hall).
    assert (forall y, y ∈ new -> (digest y ∉ seen) /\ dag_step st gc x y) as Hstep.
    { intros y (Hs & Hp & Hf & Hc)%Hnew. split; [done|]. split; [done|]. exists (digest y).
      by rewrite <- elem_of_btree_set_list. }
    apply IH.
    + apply dfs_inv_push; try done. intros y (_ & p & Hp & Hf & Hc).
      destruct (find_digest _ _ _ _ Hf) as [_ ->]. apply (Hall p y); try done.
      by apply elem_of_btree_set_list.
    + enough (dfs_measure (new ++ buffer) (list_to_set (digest <$> new) ∪ seen)
        <= dfs_measure buffer seen)%nat by (unfold dfs_measure in *; simpl in *; lia).
      apply dfs_measure_push; [done|]. intros y Hy. destruct (Hstep y Hy) as [? Hxy].
      split; [done|]. by apply (dag_step_spec _ _ _ _ _ _ Hok Hxy).
Qed.

Lemma dfs_inv_init : dfs_inv c st gc leader [leader] ∅ [].
Proof.
  split; simpl.
  - intros x ->%list_elem_of_singleton. constructor.
  - apply NoDup_singleton.
  - intros x ->%list_elem_of_singleton. by left.
  - set_solver.
  - set_solver.
  - left.
Qed.

Lemma dfs_complete seen l :
  dfs_inv c st gc leader [] seen l ->
  forall x, rtc (dag_step st gc) leader x -> x ∈ l.
Proof.
  intros [Hs Hn Hse Hsi Hc Hle]. rewrite app_nil_r in *. apply rtc_ind_r; [done|].
  intros x y Hrx Hxy Hx. destruct (Hsi _ (Hc x y Hx Hxy)) as (z & Hz & Hd).
  destruct (reach_in_dag z (Hs z Hz)) as [Hzd _].
  destruct (dag_step_spec _ _ _ _ _ _ Hok Hxy) as (Hyd & _).
  by rewrite (in_dag_inj _ _ _ _ _ Hok Hyd Hzd).
Qed.

Lemma commit_le_total : Total commit_le.
Proof. intros x y. unfold commit_le. lia. Qed.

Lemma commit_le_trans : Transitive commit_le.
Proof. intros x y z. unfold commit_le. lia. Qed.

Lemma wp_order_dag :
  runs (order_dag leader st) (fun l =>
    (forall x, x ∈ l <-> sub_dag st leader x) /\
    NoDup (digest <$> l) /\ StronglySorted commit_le l).
Proof.
  pose proof (in_dag_round _ _ _ _ Hok Hl). unfold order_dag.
  apply wp_bind, wp_assert; [lia|]. apply wp_bind.
  eapply wp_mono; [apply wp_order_dag_loop; [apply dfs_inv_init|]| |done].
  { unfold dfs_measure. simpl.
    enough (size ((list_to_set (fst <$> dag_entries (dag st)) : gset Z) ∖ ∅)
      <= length (dag_entries (dag st)))%nat by lia.
    rewrite difference_empty_L, <- (length_fmap fst). apply size_list_to_set_le. }
  intros l [seen Hinv]. simpl.
  pose proof (merge_sort_Permutation commit_le l) as Hp. split_and!.
  - intros x. rewrite Hp. split.
    + intros Hx. apply (dfs_sound _ _ _ _ _ _ _ Hinv). by rewrite app_nil_r.
    + by apply (dfs_complete seen).
  - rewrite Hp. pose proof (dfs_nodup _ _ _ _ _ _ _ Hinv) as Hn. by rewrite app_nil_r in Hn.
  - apply StronglySorted_merge_sort; [apply commit_le_trans|apply commit_le_total].
Qed.

End order_dag.

End dag_lemmas.

(** ** Agreement of two views

    Nodes may hold different certificates (signer sets) for the same header:
    certificates are compared by header. *)
Definition cert_equiv `{!Crypto} (x y : Certificate) : Prop :=
  digest x = digest y /\ fields (header x) = fields (header y).

(** Equal digests in two DAGs stand for equal headers. *)
Definition digests_agree `{!Crypto} (d1 d2 : Dag) : Prop :=
  forall x y, in_dag d1 x -> in_dag d2 y -> digest x = digest y -> cert_equiv x y.

(** Every parent of the sub-DAG of a leader above the garbage-collection
    boundary is in the DAG. *)
Definition history_complete `{!Crypto} (st : ConsensusState) (leader : Certificate) : Prop :=
  forall x p, sub_dag st leader x ->
  cert_round x <> sat_sub (cert_round leader) (gc_depth st) + 1 -> p ∈ cert_parents x ->
  exists y, in_dag (dag st) y /\ cert_round y = cert_round x - 1 /\ digest y = p.

#[export] Instance cert_equiv_equivalence `{!Crypto} : Equivalence cert_equiv.
Proof. split; unfold cert_equiv; [by intros x|intros x y []; split; congruence|intros x y z [] []; split; congruence]. Qed.

#[export] Instance cert_round_proper `{!Crypto} : Proper (cert_equiv ==> (=)) cert_round.
Proof. intros x y [_ Hf]. unfold cert_round. by rewrite Hf. Qed.
#[export] Instance origin_proper `{!Crypto} : Proper (cert_equiv ==> (=)) origin.
Proof. intros x y [_ Hf]. unfold origin. by rewrite Hf. Qed.
#[export] Instance cert_parents_proper `{!Crypto} : Proper (cert_equiv ==> (=)) cert_parents.
Proof. intros x y [_ Hf]. unfold cert_parents. by rewrite Hf. Qed.
#[export] Instance digest_proper `{!Crypto} : Proper (cert_equiv ==> (=)) digest.
Proof. by intros x y []. Qed.
#[export] Instance already_committed_proper `{!Crypto} lc :
  Proper (cert_equiv ==> (=)) (already_committed lc).
Proof.
  intros x y Hxy. unfold already_committed.
  by rewrite (origin_proper _ _ Hxy), (cert_round_proper _ _ Hxy).
Qed.

Section agreement.
Context `{!Crypto}.

Lemma sub_dag_agree c fl1 fl2 st1 st2 leader1 leader2 x1 :
  dag_ok c fl1 (dag st1) -> dag_ok c fl2 (dag st2) ->
  digests_agree (dag st1) (dag st2) -> history_complete st2 leader2 ->
  gc_depth st1 = gc_depth st2 -> last_committed st1 = last_committed st2 ->
  cert_equiv leader1 leader2 -> sub_dag st1 leader1 x1 ->
  exists x2, sub_dag st2 leader2 x2 /\ cert_equiv x1 x2.
Proof.
  intros Hok1 Hok2 Hag Hcomp Hgc Hlc Hl. unfold sub_dag at 1. revert x1. apply rtc_ind_r.
  { exists leader2. split; [constructor|done]. }
  intros x1 y1 _ Hstep (x2 & Hx2 & Hx). pose proof Hstep as (Hne & p & Hp & Hf & Hc).
  rewrite Hx in Hp, Hne, Hf. rewrite Hl, Hgc in Hne.
  destruct (Hcomp x2 p Hx2 Hne Hp) as (y2 & Hy2 & Hr2 & Hd2).
  destruct (find_in_round_Some _ _ _ _ _ _ _ Hok1 Hf) as (Hy1 & _ & Hd1 & _).
  assert (cert_equiv y1 y2) as Hy by (apply Hag; congruence).
  exists y2. split; [|done]. apply rtc_r with x2; [done|]. split; [done|].
  exists p. rewrite <- Hr2, <- Hd2. split; [by rewrite Hd2|]. split.
  - by apply (find_in_round_in_dag c fl2).
  - by rewrite <- Hlc, <- Hy.
Qed.

(** The sort key of a committed sequence. *)
Definition commit_key (x : Certificate) : Z * Z := (cert_round x, digest x).
Definition commit_key_le (x y : Z * Z) : Prop := x.1 < y.1 \/ (x.1 = y.1 /\ x.2 <= y.2).

Lemma commit_key_sorted l :
  StronglySorted commit_le l -> StronglySorted commit_key_le (commit_key <$> l).
Proof.
  induction 1 as [|x l _ IH Hf]; simpl; constructor; [done|].
  apply Forall_fmap. eapply Forall_impl; [exact Hf|]. done.
Qed.

Lemma NoDup_commit_key l : NoDup (digest <$> l) -> NoDup (commit_key <$> l).
Proof.
  intros Hn. apply (NoDup_fmap_1 snd). rewrite <- list_fmap_compose. exact Hn.
Qed.

Lemma commit_sequences_agree l1 l2 :
  NoDup (digest <$> l1) -> NoDup (digest <$> l2) ->
  StronglySorted commit_le l1 -> StronglySorted commit_le l2 ->
  (forall x, x ∈ l1 -> exists y, y ∈ l2 /\ cert_equiv x y) ->
  (forall y, y ∈ l2 -> exists x, x ∈ l1 /\ cert_equiv y x) ->
  commit_key <$> l1 = commit_key <$> l2.
Proof.
  intros Hn1 Hn2 Hs1 Hs2 H12 H21.
  assert (AntiSymm (=) commit_key_le) as HA.
  { intros [] [] H1 H2. unfold commit_key_le in *. simpl in *. f_equal; lia. }
  apply (StronglySorted_unique commit_key_le); auto using commit_key_sorted.
  apply NoDup_Permutation; auto using NoDup_commit_key.
  assert (forall x y, cert_equiv x y -> commit_key x = commit_key y) as Hk.
  { intros x y Hxy. unfold commit_key. by rewrite Hxy. }
  intros k. rewrite !list_elem_of_fmap. split.
  - intros (x & -> & Hx). destruct (H12 x Hx) as (y & Hy & Hxy). eauto.
  - intros (x & -> & Hx). destruct (H21 x Hx) as (y & Hy & Hxy). eauto.
Qed.

End agreement.

(** ** Invariants of the state *)

(** Every certificate above the garbage-collection boundary has its parents
    in the previous round of the DAG. *)
Definition dag_closed `{!Crypto} (gc : Round) (d : Dag) : Prop :=
  forall x p, in_dag d x -> gc + 1 < cert_round x -> p ∈ cert_parents x ->
  exists y, in_dag d y /\ cert_round y = cert_round x - 1 /\ digest y = p.

(** A certificate handed to consensus: its author is a committee member, its
    round is in range, and its digest collides with no other slot's. *)
Record incoming_ok `{!Crypto} (c : Committee) (d : Dag) (x : Certificate) : Prop := {
  in_member : is_Some (authorities_by_id c !! origin x);
  in_round : 0 <= cert_round x <= u32_max;
  in_digest : forall y, in_dag d y -> digest y = digest x ->
    cert_round y = cert_round x /\ origin y = origin x
}.

(** The invariant of the state that every operation keeps, pruning included. *)
Record state_wf `{!Crypto} (c : Committee) (st : ConsensusState) : Prop := {
  so_dag : dag_ok c (gc_round (last_round st)) (dag st);
  so_gc : gc_round (last_round st) = sat_sub (committed_round (last_round st)) (gc_depth st);
  so_depth : 1 <= gc_depth st;
  so_committed : 0 <= committed_round (last_round st) <= u32_max;
  so_last : forall a r, last_committed st !! a = Some r -> r <= committed_round (last_round st);
  so_sub_dag : forall s, last_committed_sub_dag st = Some s ->
    0 <= leader_round s <= committed_round (last_round st) /\
    scores_ok c (leader_round s) (reputation_score s)
}.

(** The invariant while no round above the garbage-collection boundary is
    pruned: the DAG is also closed under parents. *)
Record state_ok `{!Crypto} (c : Committee) (st : ConsensusState) : Prop := {
  so_wf :> state_wf c st;
  so_closed : dag_closed (gc_round (last_round st)) (dag st)
}.

Section invariants.
Context `{!Crypto}.

(** The DAG with a certificate filed in its slot. *)
Definition dag_insert (d : Dag) (x : Certificate) : Dag :=
  <[cert_round x := <[origin x := (digest x, x)]>
     (match d !! cert_round x with Some m => m | None => ∅ end)]> d.

Lemma dag_at_insert d x r a :
  dag_at (dag_insert d x) r a =
  if decide (r = cert_round x /\ a = origin x) then Some (digest x, x) else dag_at d r a.
Proof.
  unfold dag_insert, dag_at. rewrite lookup_insert.
  destruct (decide (cert_round x = r)) as [<-|Hr].
  - rewrite lookup_insert. repeat case_decide; try naive_solver.
    by destruct (d !! cert_round x).
  - case_decide; naive_solver.
Qed.

Lemma in_dag_insert d x y :
  in_dag (dag_insert d x) y <->
  y = x \/ (in_dag d y /\ ~ (cert_round y = cert_round x /\ origin y = origin x)).
Proof.
  unfold in_dag. rewrite dag_at_insert. case_decide as Heq.
  - split; [|naive_solver]. intros [=]. by left.
  - split; [by right|]. intros [->|[? _]]; [naive_solver|done].
Qed.

Lemma dag_insert_ok c fl d x :
  dag_ok c fl d -> incoming_ok c d x -> fl < cert_round x -> dag_ok c fl (dag_insert d x).
Proof.
  intros Hok Hin Hfl. split.
  - intros r a dg y. rewrite dag_at_insert. case_decide as Heq.
    + intros [= <- <-]. naive_solver.
    + apply (ok_entry _ _ _ Hok).
  - intros r a e. rewrite dag_at_insert. case_decide as Heq.
    + intros _. destruct Heq as [_ ->]. apply Hin.
    + apply (ok_member _ _ _ Hok).
  - intros r m. unfold dag_insert. rewrite lookup_insert. case_decide as Heq.
    + intros _. pose proof (in_round _ _ _ Hin). lia.
    + apply (ok_floor _ _ _ Hok).
  - intros y z. rewrite !in_dag_insert. intros [->|[Hy _]] [->|[Hz _]] Hd; [done|..].
    + destruct (in_digest _ _ _ Hin z Hz); [congruence|]. done.
    + destruct (in_digest _ _ _ Hin y Hy); [congruence|]. done.
    + by apply (ok_inj _ _ _ Hok).
Qed.

Lemma check_parents_loop_spec x ps store :
  check_parents_loop x store ps = Ret tt /\ (forall p, p ∈ ps -> p ∈ store) \/
  exists p, check_parents_loop x store ps = Err (MissingParent p x) /\ p ∈ ps /\ p ∉ store.
Proof.
  induction ps as [|p ps IH]; simpl; [left; set_solver|].
  case_bool_decide as Hp; [|right; exists p; set_solver].
  destruct IH as [[-> ?]|(q & -> & ? & ?)]; [left|right; exists q]; set_solver.
Qed.

(** The digests stored in a round. *)
Lemma elem_of_store_parents c fl d r m p :
  dag_ok c fl d -> d !! r = Some m ->
  p ∈ (list_to_set (fst <$> btree_values m) : gset Z) <->
  exists y, in_dag d y /\ cert_round y = r /\ digest y = p.
Proof.
  intros Hok Hr. rewrite elem_of_list_to_set, list_elem_of_fmap. split.
  - intros ([dg y] & -> & [a Ha]%elem_of_btree_values). exists y.
    destruct (dag_at_in_dag c fl d r a dg y Hok) as (? & -> & ? & ?); [|done].
    unfold dag_at. by rewrite Hr.
  - intros (y & Hy & <- & <-). unfold in_dag, dag_at in Hy. rewrite Hr in Hy.
    exists (digest y, y). split; [done|]. apply elem_of_btree_values. eauto.
Qed.

(** What [check_parents] decides. *)
Definition parents_present (gc : Round) (d : Dag) (x : Certificate) : Prop :=
  gc + 1 < cert_round x -> forall p, p ∈ cert_parents x ->
  exists y, in_dag d y /\ cert_round y = cert_round x - 1 /\ digest y = p.

Lemma wp_check_parents c gc d x :
  dag_ok c gc d -> 0 <= gc -> gc < cert_round x <= u32_max ->
  wp (check_parents x d gc) (fun _ => parents_present gc d x) (fun e =>
    gc + 1 < cert_round x /\
    ((exists p, e = MissingParent p x /\ p ∈ cert_parents x /\
        forall y, in_dag d y -> cert_round y = cert_round x - 1 -> digest y <> p) \/
     (e = MissingParentRound x /\ d !! (cert_round x - 1) = None))).
Proof.
  intros Hok Hgc Hx. unfold check_parents. apply wp_bind, wp_uadd; [lia|].
  destruct (Z.leb_spec (cert_round x) (gc + 1)) as [Hle|Hlt].
  { intros ?. lia. }
  apply wp_bind, wp_usub; [lia|]. destruct (d !! (cert_round x - 1)) as [m|] eqn:Hm; [|split; [done|by right]].
  pose proof (elem_of_store_parents c gc d (cert_round x - 1) m) as Hst.
  destruct (check_parents_loop_spec x (btree_set_list (cert_parents x))
    (list_to_set (fst <$> btree_values m))) as [[-> Hall]|(p & -> & Hp & Hn)].
  - intros _ p Hp%elem_of_btree_set_list%Hall. by apply (Hst p Hok Hm) in Hp.
  - split; [done|]. left. exists p. split; [done|]. rewrite elem_of_btree_set_list in Hp.
    split; [done|]. intros y Hy Hr Hd. apply Hn, (Hst p Hok Hm). eauto.
Qed.

(** The outcomes of [try_insert_in_dag] on a well-formed DAG. *)
Lemma try_insert_in_dag_spec c lc gc d x :
  dag_ok c gc d -> 0 <= gc -> incoming_ok c d x ->
  let inserted := (match lc !! origin x with Some r => r | None => 0 end) <? cert_round x in
  (cert_round x <= gc /\ try_insert_in_dag d lc gc x true = (d, Ret false)) \/
  (gc < cert_round x /\ parents_present gc d x /\
   (forall y, in_dag d y -> cert_round y = cert_round x -> origin y = origin x ->
      digest y = digest x) /\
   try_insert_in_dag d lc gc x true = (dag_insert d x, Ret inserted)) \/
  (gc < cert_round x /\ parents_present gc d x /\
   exists e, in_dag d e /\ cert_round e = cert_round x /\ origin e = origin x /\
     digest e <> digest x /\
     try_insert_in_dag d lc gc x true = (dag_insert d x, Err (CertificateEquivocation x e))) \/
  (gc + 1 < cert_round x /\ exists p, p ∈ cert_parents x /\
     (forall y, in_dag d y -> cert_round y = cert_round x - 1 -> digest y <> p) /\
     try_insert_in_dag d lc gc x true = (d, Err (MissingParent p x))) \/
  (gc + 1 < cert_round x /\ d !! (cert_round x - 1) = None /\
     try_insert_in_dag d lc gc x true = (d, Err (MissingParentRound x))).
Proof.
  intros Hok Hgc Hin inserted. unfold try_insert_in_dag.
  destruct (Z.leb_spec (cert_round x) gc) as [Hle|Hlt]; [by left|right].
  pose proof (in_round _ _ _ Hin) as Hr.
  pose proof (wp_check_parents c gc d x Hok Hgc ltac:(lia)) as Hcp.
  destruct (check_parents x d gc) as [u|e| |] eqn:Hc; [| |done..]; simpl in Hcp.
  - change (<[_ := _]> d) with (dag_insert d x).
    destruct ((match d !! cert_round x with Some m => m | None => ∅ end) !! origin x)
      as [[dg e]|] eqn:He.
    + assert (dag_at d (cert_round x) (origin x) = Some (dg, e)) as Hat
        by (unfold dag_at; by destruct (d !! cert_round x)).
      destruct (dag_at_in_dag _ _ _ _ _ _ _ Hok Hat) as (Hed & _ & Her & Heo).
      destruct (Z.eqb_spec (digest e) (digest x)) as [Hd|Hd].
      * left. split_and!; try done. intros y Hy Hyr Hyo. unfold in_dag in Hy.
        rewrite Hyr, Hyo, Hat in Hy. congruence.
      * right. left. split_and!; try done. eauto 10.
    + left. split_and!; try done. intros y Hy Hyr Hyo. unfold in_dag, dag_at in Hy.
      rewrite Hyr, Hyo in Hy. destruct (d !! cert_round x); [congruence|done].
  - right; right. destruct Hcp as [Hlt1 [(p & -> & Hp & Hn)|[-> Hn]]]; [left|right]; eauto 10.
Qed.

Lemma dag_insert_closed gc d x :
  dag_closed gc d -> parents_present gc d x ->
  (forall y, in_dag d y -> cert_round y = cert_round x -> origin y = origin x ->
     digest y = digest x) ->
  dag_closed gc (dag_insert d x).
Proof.
  intros Hcl Hpp Hsame y p Hy Hr Hp.
  assert (exists z, in_dag d z /\ cert_round z = cert_round y - 1 /\ digest z = p)
    as (z & Hz & Hzr & Hzd).
  { apply in_dag_insert in Hy as [->|[Hy _]]; [by apply Hpp|by apply Hcl]. }
  destruct (decide (cert_round z = cert_round x /\ origin z = origin x)) as [[Hzx Hzo]|Hne].
  - exists x. rewrite in_dag_insert. split_and!; [by left|lia|]. by rewrite <- (Hsame z).
  - exists z. rewrite in_dag_insert. eauto.
Qed.

Lemma in_dag_retain f d x :
  in_dag (retain_keys f d) x <-> f (cert_round x) = true /\ in_dag d x.
Proof.
  unfold in_dag, dag_at. rewrite lookup_retain_keys.
  destruct (f (cert_round x)); [naive_solver|]. split; [done|]. by intros [? _].
Qed.

Lemma retain_dag_ok c fl fl' d :
  dag_ok c fl d -> fl <= fl' -> dag_ok c fl' (retain_keys (fun r => fl' <? r) d).
Proof.
  intros Hok Hle.
  assert (forall r a e, dag_at (retain_keys (fun r => fl' <? r) d) r a = Some e ->
    dag_at d r a = Some e) as Hat.
  { intros r a e. unfold dag_at. rewrite lookup_retain_keys. by destruct (fl' <? r). }
  split.
  - intros r a dg x Hx%Hat. by apply (ok_entry _ _ _ Hok).
  - intros r a e He%Hat. by apply (ok_member _ _ _ Hok) in He.
  - intros r m. rewrite lookup_retain_keys. destruct (Z.ltb_spec fl' r); [|done].
    intros Hm%(ok_floor _ _ _ Hok). lia.
  - intros x y. rewrite !in_dag_retain. intros [_ Hx] [_ Hy]. by apply (ok_inj _ _ _ Hok).
Qed.

Lemma retain_closed gc gc' d :
  dag_closed gc d -> gc <= gc' -> dag_closed gc' (retain_keys (fun r => gc' <? r) d).
Proof.
  intros Hcl Hle x p [_ Hx]%in_dag_retain Hr Hp.
  destruct (Hcl x p Hx ltac:(lia) Hp) as (y & Hy & Hyr & Hyd).
  exists y. rewrite in_dag_retain. split_and!; try done. lia.
Qed.

Lemma try_insert_state_wf c st x st' b :
  state_wf c st -> incoming_ok c (dag st) x -> try_insert st x = (st', Ret b) ->
  state_wf c st' /\ last_round st' = last_round st /\ gc_depth st' = gc_depth st /\
  last_committed st' = last_committed st /\
  last_committed_sub_dag st' = last_committed_sub_dag st /\
  (gc_round (last_round st) < cert_round x -> in_dag (dag st') x) /\
  (dag_closed (gc_round (last_round st)) (dag st) ->
   dag_closed (gc_round (last_round st)) (dag st')).
Proof.
  intros Hst Hin. unfold try_insert.
  assert (0 <= gc_round (last_round st)) as Hgc by (rewrite (so_gc _ _ Hst); unfold sat_sub; lia).
  destruct (try_insert_in_dag_spec c (last_committed st) _ _ x (so_dag _ _ Hst) Hgc Hin)
    as [[Hle ->]|[(Hlt & Hpp & Hsame & ->)|[(_ & _ & e & _ & _ & _ & _ & ->)|
        [(_ & p & _ & _ & ->)|(_ & _ & ->)]]]]; intros [= <- _].
  - split_and!; try done; [|lia]. destruct Hst. by split.
  - split_and!; try done; [|intros _; simpl; rewrite in_dag_insert; by left|].
    + destruct Hst. split; simpl; try done. by apply dag_insert_ok.
    + intros Hcl. by apply dag_insert_closed.
Qed.

(** Committing a certificate keeps the invariant. *)
Lemma update_gc_mono c st x :
  state_wf c st -> gc_round (last_round st) <= gc_round (last_round (update st x)).
Proof. intros Hst. simpl. rewrite (so_gc _ _ Hst). unfold gc_round_of, sat_sub. lia. Qed.

Lemma update_state_wf c st x :
  state_wf c st -> 0 <= cert_round x <= u32_max -> state_wf c (update st x).
Proof.
  intros Hst Hx. pose proof (update_gc_mono c st x Hst) as Hle.
  destruct Hst as [Hdag Hgc Hd Hc Hl Hs]. split; simpl in *; try done.
  - by eapply retain_dag_ok.
  - lia.
  - intros a r. destruct (last_committed st !! origin x) as [r0|] eqn:Ho.
    + rewrite lookup_insert. case_decide; [intros [= <-]|intros Ha%Hl; lia].
      apply Hl in Ho. lia.
    + rewrite lookup_insert. case_decide; [intros [= <-]; lia|intros Ha%Hl; lia].
  - intros s Hsd. apply Hs in Hsd as [? ?]. split; [lia|done].
Qed.

Lemma update_closed c st x :
  state_wf c st -> dag_closed (gc_round (last_round st)) (dag st) ->
  dag_closed (gc_round (last_round (update st x))) (dag (update st x)).
Proof.
  intros Hst Hcl. pose proof (update_gc_mono c st x Hst) as Hle. by eapply retain_closed.
Qed.

(** Pruning keeps the invariant, but not the closure under parents. *)
Lemma proactive_gc_state_wf c st r :
  state_wf c st -> state_wf c (proactive_gc st r).1.
Proof.
  intros Hst. unfold proactive_gc. case_match; [done|].
  destruct (Z.leb_spec (sat_sub r (gc_depth st)) (gc_round (last_round st))) as [|Hlt]; [done|].
  destruct Hst as [Hdag Hgc Hd Hc Hl Hs]. split; simpl; try done.
  pose proof (retain_dag_ok c _ (sat_sub r (gc_depth st)) _ Hdag ltac:(lia)) as [H1 H2 H3 H4].
  split; try done. intros r' m Hm. apply H3 in Hm. lia.
Qed.

(** The sub-DAG of a leader at or above the committed round is complete. *)
Lemma state_history_complete c st leader :
  state_ok c st -> in_dag (dag st) leader ->
  committed_round (last_round st) <= cert_round leader -> history_complete st leader.
Proof.
  intros Hst Hl Hle.
  assert (forall x, sub_dag st leader x -> in_dag (dag st) x /\
    sat_sub (cert_round leader) (gc_depth st) + 1 <= cert_round x) as Hreach.
  { unfold sub_dag. pose proof (so_depth _ _ Hst).
    pose proof (in_dag_round _ _ _ _ (so_dag _ _ Hst) Hl).
    rewrite (so_gc _ _ Hst) in *.
    apply rtc_ind_r; [unfold sat_sub in *; split; [done|lia]|].
    intros x y _ Hxy [_ Hx]. pose proof Hxy as [Hne _].
    destruct (dag_step_spec _ _ _ _ _ _ (so_dag _ _ Hst) Hxy) as (? & ? & _). split; [done|lia]. }
  intros x p Hx Hne Hp. apply Hreach in Hx as [Hx Hge].
  apply (so_closed _ _ Hst); [done| |done]. rewrite (so_gc _ _ Hst). unfold sat_sub in *. lia.
Qed.

End invariants.

