(* ===== verification/ConsensusStateProps.v ===== *)
(** * The consensus state: recovery and properties

    Recovery of the DAG from the certificate store
    ([ConsensusState::new_from_store]) establishes the state invariant; the
    properties of insertion, recovery and flattening ([try_insert],
    [construct_dag_from_cert_store], [order_dag]), with a concrete DAG for
    their witnesses. *)

From S2P Require Import Prelude Types Committee LeaderSchedule ConsensusState.

(** ** Recovery from the store *)

(** Stored certificates: committee members' certificates with rounds in range
    and without digest collisions. *)
Definition store_ok `{!Crypto} (c : Committee) (l : list Certificate) : Prop :=
  Forall (fun x => is_Some (authorities_by_id c !! origin x) /\ 0 <= cert_round x <= u32_max) l /\
  Forall (fun x => Forall (fun y => digest x = digest y ->
    cert_round x = cert_round y /\ origin x = origin y) l) l.

Section recovery.
Context `{!Crypto}.

Lemma insert_by_round_perm x l : insert_by_round x l ≡ₚ x :: l.
Proof.
  induction l as [|y l IH]; simpl; [done|]. case_match; [|done].
  rewrite IH. apply Permutation_swap.
Qed.

Lemma sort_by_round_perm l : sort_by_round l ≡ₚ l.
Proof.
  unfold sort_by_round. induction l as [|x l IH] using rev_ind; [done|].
  rewrite foldl_app. simpl. rewrite insert_by_round_perm, IH. solve_Permutation.
Qed.

Lemma store_incoming_ok c l d x :
  store_ok c l -> x ∈ l -> (forall y, in_dag d y -> y ∈ l) -> incoming_ok c d x.
Proof.
  intros [Hm Hi] Hx Hd. rewrite Forall_forall in Hm, Hi.
  destruct (Hm x Hx) as [? ?]. split; [done..|].
  intros y Hy%Hd Hyx. specialize (Hi y Hy). rewrite Forall_forall in Hi. by apply Hi.
Qed.

Lemma wp_construct_dag_loop c lc gc e l d certs :
  store_ok c l -> 0 <= gc -> certs ⊆ l ->
  dag_ok c gc d -> dag_closed gc d ->
  (forall y, in_dag d y -> y ∈ l /\ cert_epoch y = e) ->
  wp (construct_dag_loop lc gc e d certs) (fun d' =>
    dag_ok c gc d' /\ dag_closed gc d' /\ (forall y, in_dag d' y -> y ∈ l /\ cert_epoch y = e))
  (fun err => exists x y, err = CertificateEquivocation x y /\ x ∈ l /\ y ∈ l /\
    cert_round x = cert_round y /\ origin x = origin y /\ digest x <> digest y).
Proof.
  intros Hst Hgc. revert d. induction certs as [|x certs IH]; intros d Hsub Hok Hcl Hd;
    simpl; [by split_and!|].
  assert (x ∈ l) as Hxl by (apply Hsub; left).
  assert (certs ⊆ l) as Hsub' by (intros z Hz; apply Hsub; by right).
  destruct (Z.eqb_spec (cert_epoch x) e) as [Hxe|]; cbn [negb]; [|apply IH; assumption].
  assert (incoming_ok c d x) as Hin.
  { apply (store_incoming_ok c l); [assumption..|]. intros y Hy. apply (Hd y Hy). }
  destruct (try_insert_in_dag_spec c lc gc d x Hok Hgc Hin)
    as [[Hle ->]|[(Hlt & Hpp & Hsame & ->)|[(_ & _ & y & Hy & Hr & Ho & Hne & ->)|
        [(_ & p & _ & _ & ->)|(_ & _ & ->)]]]].
  - apply IH; assumption.
  - apply IH; [assumption|by apply dag_insert_ok|by apply dag_insert_closed|].
    intros y. rewrite in_dag_insert. intros [->|[Hy _]]; [by split|apply (Hd y Hy)].
  - exists x, y. apply Hd in Hy as [? _]. split_and!; try congruence; assumption.
  - apply IH; assumption.
  - apply IH; assumption.
Qed.

Lemma wp_construct_dag c lc gc e after_round :
  store_ok c (after_round (gc + 1)) -> 0 <= gc < u32_max ->
  wp (construct_dag_from_cert_store after_round lc gc e) (fun d =>
    dag_ok c gc d /\ dag_closed gc d /\
    (forall y, in_dag d y -> y ∈ after_round (gc + 1) /\ cert_epoch y = e))
  (fun err => exists x y, err = CertificateEquivocation x y /\
    x ∈ after_round (gc + 1) /\ y ∈ after_round (gc + 1) /\
    cert_round x = cert_round y /\ origin x = origin y /\ digest x <> digest y).
Proof.
  intros Hst Hgc. unfold construct_dag_from_cert_store. apply wp_bind, wp_uadd; [lia|].
  apply wp_construct_dag_loop; try done; try lia.
  intros x. by rewrite sort_by_round_perm.
Qed.

(** ** [order_dag] on the consensus state *)

Lemma state_order_dag c st leader :
  state_wf c st -> in_dag (dag st) leader -> cert_round leader < u32_max ->
  runs (order_dag leader st) (fun l =>
    (forall x, x ∈ l <-> sub_dag st leader x) /\
    NoDup (digest <$> l) /\ StronglySorted commit_le l).
Proof.
  intros Hst Hl Hr.
  eapply (wp_order_dag c (gc_round (last_round st))); try done; [apply Hst| |].
  - rewrite (so_gc _ _ Hst). unfold sat_sub. lia.
  - pose proof (so_depth _ _ Hst). lia.
Qed.

Lemma order_dag_Ret c st leader l :
  state_wf c st -> in_dag (dag st) leader -> cert_round leader < u32_max ->
  order_dag leader st = Ret l ->
  (forall x, x ∈ l <-> sub_dag st leader x) /\
  NoDup (digest <$> l) /\ StronglySorted commit_le l.
Proof.
  intros Hst Hl Hr Hrun. pose proof (state_order_dag c st leader Hst Hl Hr) as Hw.
  by rewrite Hrun in Hw.
Qed.

Lemma new_from_store_state_ok c committed depth lc sub after_round e st :
  let gc := gc_round_of committed depth in
  store_ok c (after_round (gc + 1)) -> 1 <= depth -> 0 <= committed <= u32_max ->
  (forall a r, lc !! a = Some r -> r <= committed) ->
  (forall s, sub = Some s -> 0 <= leader_round s <= committed /\
     scores_ok c (leader_round s) (reputation_score s)) ->
  new_from_store committed depth lc sub after_round e = Ret st -> state_ok c st.
Proof.
  intros gc Hst Hd Hc Hlc Hsub. unfold new_from_store. simpl. fold gc.
  assert (0 <= gc < u32_max) as Hgc by (unfold gc, gc_round_of, sat_sub, u32_max in *; lia).
  pose proof (wp_construct_dag c lc gc e after_round Hst Hgc) as Hw.
  destruct (construct_dag_from_cert_store after_round lc gc e); try done.
  destruct Hw as (Hok & Hcl & _). intros [= <-]. by split; [split|].
Qed.

(** Two nodes at the same commit point flatten a leader alike. *)
Lemma sub_dag_lists_agree c st1 st2 leader1 leader2 l1 l2 :
  state_ok c st1 -> state_ok c st2 ->
  digests_agree (dag st1) (dag st2) ->
  last_round st1 = last_round st2 -> gc_depth st1 = gc_depth st2 ->
  last_committed st1 = last_committed st2 ->
  in_dag (dag st1) leader1 -> in_dag (dag st2) leader2 -> cert_equiv leader1 leader2 ->
  committed_round (last_round st1) <= cert_round leader1 ->
  (forall x, x ∈ l1 <-> sub_dag st1 leader1 x) -> NoDup (digest <$> l1) ->
  StronglySorted commit_le l1 ->
  (forall x, x ∈ l2 <-> sub_dag st2 leader2 x) -> NoDup (digest <$> l2) ->
  StronglySorted commit_le l2 ->
  commit_key <$> l1 = commit_key <$> l2.
Proof.
  intros Hst1 Hst2 Hag Hlr Hgc Hlc Hl1 Hl2 Hl Hr He1 Hn1 Hs1 He2 Hn2 Hs2.
  pose proof (cert_round_proper _ _ Hl) as Hlr'.
  apply commit_sequences_agree; try done.
  - intros x Hx%He1. setoid_rewrite He2.
    eapply (sub_dag_agree c _ _ st1 st2); try done; try apply Hst1; try apply Hst2.
    apply (state_history_complete c); try done. rewrite <- Hlr. lia.
  - intros y Hy%He2. setoid_rewrite He1.
    eapply (sub_dag_agree c _ _ st2 st1); try done; try apply Hst1; try apply Hst2.
    + intros a b Ha Hb Hd. symmetry. by apply Hag.
    + apply (state_history_complete c); try done.
Qed.

Lemma in_dag_Forall (P : Certificate -> Prop) d :
  Forall P (snd <$> dag_entries d) -> forall x, in_dag d x -> P x.
Proof.
  rewrite Forall_forall. intros HP x Hx. apply HP, list_elem_of_fmap.
  exists (digest x, x). split; [done|].
  apply elem_of_dag_entries. by exists (cert_round x), (origin x).
Qed.

Lemma digests_agree_Forall d1 d2 :
  Forall (fun x => Forall (fun y => digest x = digest y ->
      fields (header x) = fields (header y)) (snd <$> dag_entries d2))
    (snd <$> dag_entries d1) ->
  digests_agree d1 d2.
Proof.
  intros Hall x y Hx Hy Hd. pose proof (in_dag_Forall _ _ Hall x Hx) as Hall'.
  pose proof (in_dag_Forall _ _ Hall' y Hy) as Hf. split; [done|by apply Hf].
Qed.

End recovery.

(** ** A concrete DAG

    Four authorities, garbage-collection depth 4. Authority 4's certificates
    of rounds 5 to 7 were missing from the history of the leader of round 6
    and are first referenced by the leader of round 8, authority 4. *)
Definition example_digest (a r : Z) : Z := r * 1000 + a.
Definition example_round (r : Z) (with4 : bool) : list Certificate :=
  (fun a => example_cert a r
     ((fun b => example_digest b (r - 1)) <$>
        if with4 || (a =? 4) then [1; 2; 3; 4] else [1; 2; 3])) <$> [1; 2; 3; 4].
Definition example_store : list Certificate :=
  example_round 3 false ++ example_round 4 false ++ example_round 5 false ++
  example_round 6 false ++ example_round 7 false ++ example_round 8 false ++
  example_round 9 true.

Definition example_state_of (store : list Certificate) : ConsensusState :=
  match new_from_store (H := example_crypto) 6 4 {[1 := 5; 2 := 5; 3 := 6; 4 := 3]} None
          (fun _ => store) 0 with
  | Ret st => st
  | _ => ConsensusState_new 4
  end.
Definition example_state : ConsensusState := example_state_of example_store.
(** The same node before round 9. *)
Definition example_state_short : ConsensusState := example_state_of (take 24 example_store).
Definition example_leader : Certificate :=
  example_cert 4 8 [7001; 7002; 7003; 7004].

Lemma example_state_of_ok store st :
  bool_decide (store_ok (H := example_crypto) example_committee store) = true ->
  new_from_store (H := example_crypto) 6 4 {[1 := 5; 2 := 5; 3 := 6; 4 := 3]} None
    (fun _ => store) 0 = Ret st ->
  state_ok (H := example_crypto) example_committee st.
Proof.
  intros Hst%bool_decide_eq_true_1.
  apply (new_from_store_state_ok (H := example_crypto) example_committee 6 4 _ None
    (fun _ => store) 0); [exact Hst|lia|unfold u32_max; lia| |done].
  apply (bool_decide_unpack (map_Forall (fun _ r => r <= 6) _)). vm_compute. exact I.
Qed.

Lemma example_state_ok : state_ok (H := example_crypto) example_committee example_state.
Proof. apply (example_state_of_ok example_store); vm_compute; reflexivity. Qed.

Lemma example_state_short_ok :
  state_ok (H := example_crypto) example_committee example_state_short.
Proof. apply (example_state_of_ok (take 24 example_store)); vm_compute; reflexivity. Qed.

(** ** Properties *)

(** [order_dag] terminates without panicking on every well-formed DAG and
    returns exactly the part of the leader's causal history that is above the
    garbage-collection boundary and not yet committed, each header once, in the
    order of rounds and then digests. *)
Theorem order_dag_correct `{!Crypto} c st leader :
  state_wf c st -> in_dag (dag st) leader -> cert_round leader < u32_max ->
  exists l, order_dag leader st = Ret l /\
  (forall x, x ∈ l <-> sub_dag st leader x) /\
  NoDup (digest <$> l) /\ StronglySorted commit_le l.
Proof.
  intros Hst Hl Hr. apply runs_Ret. by apply (state_order_dag c).
Qed.

Lemma order_dag_correct_witness :
  exists l, order_dag (H := example_crypto) example_leader example_state = Ret l /\
  (forall x, x ∈ l <-> sub_dag (H := example_crypto) example_state example_leader x) /\
  NoDup (digest (H := example_crypto) <$> l) /\
  StronglySorted (commit_le (H := example_crypto)) l.
Proof.
  apply (order_dag_correct (H := example_crypto) example_committee).
  - exact example_state_ok.
  - vm_compute. reflexivity.
  - vm_compute. reflexivity.
Defined.

(** two nodes whose DAGs have no colliding digests and that committed the
    same certificates so far flatten the same leader, from whatever DAGs they
    hold, into the same sequence of rounds and digests. *)
Theorem order_dag_agreement `{!Crypto} c st1 st2 leader1 leader2 l1 l2 :
  state_ok c st1 -> state_ok c st2 ->
  digests_agree (dag st1) (dag st2) ->
  last_round st1 = last_round st2 -> gc_depth st1 = gc_depth st2 ->
  last_committed st1 = last_committed st2 ->
  in_dag (dag st1) leader1 -> in_dag (dag st2) leader2 -> cert_equiv leader1 leader2 ->
  committed_round (last_round st1) <= cert_round leader1 < u32_max ->
  order_dag leader1 st1 = Ret l1 -> order_dag leader2 st2 = Ret l2 ->
  commit_key <$> l1 = commit_key <$> l2.
Proof.
  intros Hst1 Hst2 Hag Hlr Hgc Hlc Hl1 Hl2 Hl Hr H1 H2.
  pose proof (cert_round_proper _ _ Hl) as Hlr'.
  destruct (order_dag_Ret _ _ _ _ Hst1 Hl1 ltac:(lia) H1) as (He1 & Hn1 & Hs1).
  destruct (order_dag_Ret _ _ _ _ Hst2 Hl2 ltac:(lia) H2) as (He2 & Hn2 & Hs2).
  apply (sub_dag_lists_agree c st1 st2 leader1 leader2); try done. lia.
Qed.

Lemma order_dag_agreement_witness :
  exists l1 l2, order_dag (H := example_crypto) example_leader example_state = Ret l1 /\
  order_dag (H := example_crypto) example_leader example_state_short = Ret l2 /\
  commit_key (H := example_crypto) <$> l1 = commit_key (H := example_crypto) <$> l2.
Proof.
  do 2 eexists. split; [|split].
  3: { apply (order_dag_agreement (H := example_crypto) example_committee
         example_state example_state_short example_leader example_leader).
    - exact example_state_ok.
    - exact example_state_short_ok.
    - apply digests_agree_Forall.
      apply (bool_decide_unpack (Forall (fun x => Forall (fun y => _ -> _ = _) _) _)).
      vm_compute. exact I.
    - vm_compute. reflexivity.
    - vm_compute. reflexivity.
    - vm_compute. reflexivity.
    - vm_compute. reflexivity.
    - vm_compute. reflexivity.
    - split; reflexivity.
    - split; vm_compute; [discriminate|reflexivity].
    - vm_compute. reflexivity.
    - vm_compute. reflexivity. }
  - vm_compute. reflexivity.
  - vm_compute. reflexivity.
Defined.

(** every outcome of [ConsensusState::try_insert]: a certificate at or
    below the garbage-collection round is ignored; one whose parents are not
    all in the previous round of the DAG is rejected with the missing parent
    and the state unchanged; one that conflicts with another certificate of its
    author and round is reported as an equivocation; any other one is filed
    with its parents present, the invariant is kept, and the result says
    whether its round is above its author's last committed round. *)
Theorem try_insert_outcomes `{!Crypto} c st x :
  state_wf c st -> incoming_ok c (dag st) x ->
  let gc := gc_round (last_round st) in
  match try_insert st x with
  | (st', Ret b) =>
      (cert_round x <= gc /\ b = false /\ dag st' = dag st) \/
      (gc < cert_round x /\ state_wf c st' /\ in_dag (dag st') x /\
       parents_present gc (dag st) x /\
       (forall r a, ~ (r = cert_round x /\ a = origin x) ->
          dag_at (dag st') r a = dag_at (dag st) r a) /\
       b = ((match last_committed st !! origin x with Some r => r | None => 0 end)
            <? cert_round x))
  | (st', Err (MissingParent p y)) =>
      y = x /\ dag st' = dag st /\ p ∈ cert_parents x /\
      forall z, in_dag (dag st) z -> cert_round z = cert_round x - 1 -> digest z <> p
  | (st', Err (MissingParentRound y)) =>
      y = x /\ dag st' = dag st /\ dag st !! (cert_round x - 1) = None
  | (st', Err (CertificateEquivocation y e)) =>
      y = x /\ in_dag (dag st) e /\ cert_round e = cert_round x /\
      origin e = origin x /\ digest e <> digest x
  | (_, Err StoreError) | (_, Err ShuttingDown) | (_, Panic) | (_, Diverge) => False
  end.
Proof.
  intros Hst Hin gc.
  pose proof (try_insert_state_wf c st x) as Hkeep. unfold try_insert in *.
  assert (0 <= gc) as Hgc by (unfold gc; rewrite (so_gc _ _ Hst); unfold sat_sub; lia).
  destruct (try_insert_in_dag_spec c (last_committed st) gc (dag st) x (so_dag _ _ Hst) Hgc Hin)
    as [[Hle Hres]|[(Hlt & Hpp & Hsame & Hres)|[(Hlt & Hpp & e & He & Hr & Ho & Hne & Hres)|
        [(Hlt & p & Hp & Hn & Hres)|(Hlt & Hn & Hres)]]]]; unfold gc in *; rewrite Hres in *; simpl.
  - by left.
  - right. destruct (Hkeep _ _ Hst Hin eq_refl) as (Hok & _ & _ & _ & _ & Hdag & _).
    split_and!; try done; [by apply Hdag|].
    intros r a Hra. rewrite dag_at_insert. by case_decide.
  - done.
  - done.
  - done.
Qed.

Lemma try_insert_outcomes_witness :
  match try_insert (H := example_crypto) example_state
          (example_cert 1 10 [9001; 9002; 9003; 9004]) with
  | (st', Ret b) => b = true
  | _ => False
  end /\
  match try_insert (H := example_crypto) example_state (example_cert 1 10 [9001; 9009]) with
  | (st', Err (MissingParent p y)) =>
      p ∈ cert_parents y /\
      forall z, in_dag (H := example_crypto) (dag example_state) z -> cert_round z = 9 ->
        digest (H := example_crypto) z <> p
  | _ => False
  end.
Proof.
  split; [vm_compute; reflexivity|].
  pose proof (try_insert_outcomes (H := example_crypto) example_committee example_state
    (example_cert 1 10 [9001; 9009]) example_state_ok) as Hout.
  assert (incoming_ok (H := example_crypto) example_committee (dag example_state)
    (example_cert 1 10 [9001; 9009])) as Hin.
  { split; [vm_compute; eexists; reflexivity|split; vm_compute; discriminate|].
    apply (in_dag_Forall (H := example_crypto) (fun y => _ -> _ /\ _)).
    apply (bool_decide_unpack (Forall (fun y => _ -> _ /\ _) _)). vm_compute. exact I. }
  specialize (Hout Hin). cbv zeta in Hout.
  destruct (try_insert (H := example_crypto) example_state (example_cert 1 10 [9001; 9009]))
    as [st' r] eqn:Hr.
  assert (r = Err (MissingParent 9009 (example_cert 1 10 [9001; 9009]))) as ->.
  { apply (f_equal snd) in Hr. simpl in Hr. rewrite <- Hr. vm_compute. reflexivity. }
  destruct Hout as (_ & _ & Hp & Hz). split; [exact Hp|].
  intros z Hz1 Hz2. apply Hz; [exact Hz1|]. rewrite Hz2. reflexivity.
Defined.

(** the DAG rebuilt from the certificate store is well-formed, holds only
    stored certificates of the current epoch and is closed under parents above
    the garbage-collection boundary, whatever orphans and certificates of other
    epochs the store holds; the only error is two stored certificates of one
    author and round with different headers. *)
Theorem recovered_dag_sound `{!Crypto} c lc gc e after_round :
  store_ok c (after_round (gc + 1)) -> 0 <= gc < u32_max ->
  wp (construct_dag_from_cert_store after_round lc gc e) (fun d =>
    dag_ok c gc d /\ dag_closed gc d /\
    (forall y, in_dag d y -> y ∈ after_round (gc + 1) /\ cert_epoch y = e))
  (fun err => exists x y, err = CertificateEquivocation x y /\
    x ∈ after_round (gc + 1) /\ y ∈ after_round (gc + 1) /\
    cert_round x = cert_round y /\ origin x = origin y /\ digest x <> digest y).
Proof. apply wp_construct_dag. Qed.

Lemma recovered_dag_sound_witness :
  exists d, construct_dag_from_cert_store (H := example_crypto) (fun _ => example_store)
              ∅ 2 0 = Ret d /\
  dag_ok (H := example_crypto) example_committee 2 d /\
  dag_closed (H := example_crypto) 2 d /\
  size d = 7%nat.
Proof.
  assert (match construct_dag_from_cert_store (H := example_crypto) (fun _ => example_store) ∅ 2 0
    with Ret d => size d = 7%nat | _ => False end) as Hv by (vm_compute; reflexivity).
  destruct (construct_dag_from_cert_store (H := example_crypto) (fun _ => example_store) ∅ 2 0)
    as [d|e| |] eqn:Hd; try (exfalso; exact Hv).
  exists d. split; [reflexivity|].
  pose proof (recovered_dag_sound (H := example_crypto) example_committee ∅ 2 0
    (fun _ => example_store)) as Hw.
  rewrite Hd in Hw. destruct Hw as (Hok & Hcl & _).
  - apply (bool_decide_unpack (store_ok (H := example_crypto) example_committee example_store)).
    vm_compute. exact I.
  - split; vm_compute; [discriminate|reflexivity].
  - split; [exact Hok|]. split; [exact Hcl|exact Hv].
Defined.


(** [proactive_gc] can change what a leader commits. In the example state
    a tick at highest seen round 9 prunes round 5; the leader of round 8 then
    commits without authority 4's certificate of round 5, which a node whose
    timer has not fired commits in the same sub-DAG. *)
Theorem proactive_gc_changes_commit :
  let st' := (proactive_gc example_state 9).1 in
  exists l l',
    order_dag (H := example_crypto) example_leader example_state = Ret l /\
    order_dag (H := example_crypto) example_leader st' = Ret l' /\
    commit_key (H := example_crypto) <$> l =
      [(5, 5004); (6, 6001); (6, 6002); (6, 6004); (7, 7001); (7, 7002); (7, 7003);
       (7, 7004); (8, 8004)] /\
    commit_key (H := example_crypto) <$> l' =
      [(6, 6001); (6, 6002); (6, 6004); (7, 7001); (7, 7002); (7, 7003);
       (7, 7004); (8, 8004)].
Proof. do 2 eexists. split_and!; vm_compute; reflexivity. Qed.
