(* ===== verification/Bullshark.v ===== *)
(** * Bullshark

    [crates/consensus/primary/src/consensus/bullshark.rs]: the commit rule. A
    leader is elected for every even round; it commits once certificates of the
    next round with [f + 1] voting power reference it, and then every earlier
    uncommitted leader it has a path to commits before it. Metrics are not
    modelled, except for the leader election that one of them performs. *)
From S2P Require Import Prelude Types Committee LeaderSchedule ConsensusState ConsensusStateProps.

(** [Outcome] of [consensus/mod.rs] *)
Inductive Outcome :=
  | CertificateBelowCommitRound
  | NoLeaderElectedForOddRound
  | LeaderBelowCommitRound
  | LeaderNotFound
  | NotEnoughSupportForLeader
  | Commit
  | ScheduleChanged.
#[export] Instance Outcome_eq_dec : EqDecision Outcome.
Proof. solve_decision. Defined.

Record Bullshark := {
  committee : Committee;
  max_inserted_certificate_round : Round;
  num_sub_dags_per_schedule : Z;
  leader_schedule : LeaderSchedule;
  bad_nodes_stake_threshold : Z
}.

(** [Bullshark::new] *)
Definition Bullshark_new (c : Committee) (num_sub_dags : Z) (ls : LeaderSchedule)
    (threshold : Z) : Bullshark :=
  {| committee := c; max_inserted_certificate_round := 0;
     num_sub_dags_per_schedule := num_sub_dags; leader_schedule := ls;
     bad_nodes_stake_threshold := threshold |}.

Definition set_leader_schedule (b : Bullshark) (ls : LeaderSchedule) : Bullshark :=
  {| committee := committee b;
     max_inserted_certificate_round := max_inserted_certificate_round b;
     num_sub_dags_per_schedule := num_sub_dags_per_schedule b; leader_schedule := ls;
     bad_nodes_stake_threshold := bad_nodes_stake_threshold b |}.

Definition set_max_inserted (b : Bullshark) (r : Round) : Bullshark :=
  {| committee := committee b; max_inserted_certificate_round := r;
     num_sub_dags_per_schedule := num_sub_dags_per_schedule b;
     leader_schedule := leader_schedule b;
     bad_nodes_stake_threshold := bad_nodes_stake_threshold b |}.

(** [iter.step_by(2)] *)
Fixpoint step_by2 {A} (l : list A) : list A :=
  match l with
  | x :: _ :: l' => x :: step_by2 l'
  | _ => l
  end.

(** [(lo..=hi).rev()] and [(lo..hi).rev()] *)
Definition range_rev_incl (lo hi : Z) : list Z := reverse (seqZ lo (hi - lo + 1)).
Definition range_rev (lo hi : Z) : list Z := reverse (seqZ lo (hi - lo)).

Section bullshark.
Context `{!Crypto} {rng : Rng}.

(** ** Reputation *)

(** The loop of [resolve_reputation_score] over the committed sequence: one
    point for every certificate of the round after the previous leader's that
    has this leader among its parents. *)
Fixpoint score_votes (rs : ReputationScores) (leader_digest : CertificateDigest)
    (leader_round : Round) (sequence : list Certificate) :
    Exec ConsensusError ReputationScores :=
  match sequence with
  | [] => mret rs
  | x :: sequence' =>
      next ← uadd u32_max leader_round 1;
      rs' ← (if (cert_round x =? next) && bool_decide (leader_digest ∈ cert_parents x)
             then add_score rs (origin x) 1 else mret rs);
      score_votes rs' leader_digest leader_round sequence'
  end.

(** The scores a new sub-DAG starts from. *)
Definition initial_score (b : Bullshark) (st : ConsensusState) (sub_dag_index : Z) :
    ReputationScores :=
  if is_multiple_of (sub_dag_index / 2) (num_sub_dags_per_schedule b)
  then ReputationScores_new (committee b)
  else match last_committed_sub_dag st with
       | Some last => reputation_score last
       | None => ReputationScores_new (committee b)
       end.

(** [Bullshark::resolve_reputation_score] *)
Definition resolve_reputation_score (b : Bullshark) (st : ConsensusState)
    (committed_sequence : list Certificate) (sub_dag_index : Z) :
    Exec ConsensusError ReputationScores :=
  let rs := initial_score b st sub_dag_index in
  rs' ← match last_committed_sub_dag st with
        | Some last => score_votes rs (digest (sd_leader last)) (cert_round (sd_leader last))
                         committed_sequence
        | None => mret rs
        end;
  let rs'' := {| scores_per_authority := scores_per_authority rs';
                 final_of_schedule := is_multiple_of (sub_dag_index / 2 + 1)
                                        (num_sub_dags_per_schedule b) |} in
  _ ← rassert (total_authorities rs'' =? committee_size (committee b));
  mret rs''.

(** ** Leaders *)

(** One step of [linked]: the certificates of a round referenced by the
    frontier. *)
Definition referenced (d : Dag) (r : Round) (parents : list Certificate) : list Certificate :=
  match d !! r with
  | Some m =>
      snd <$> filter (fun e => existsb (fun x => bool_decide (e.1 ∈ cert_parents x)) parents = true)
                (btree_values m)
  | None => []
  end.

Fixpoint linked_loop (d : Dag) (rounds : list Round) (parents : list Certificate) :
    list Certificate :=
  match rounds with
  | [] => parents
  | r :: rounds' => linked_loop d rounds' (referenced d r parents)
  end.

(** [Bullshark::linked] *)
Definition linked (leader prev_leader : Certificate) (d : Dag) : bool :=
  existsb (fun x => cert_eqb x prev_leader)
    (linked_loop d (range_rev (cert_round prev_leader) (cert_round leader)) [leader]).

(** The loop of [order_leaders] over the earlier even rounds. *)
Fixpoint order_leaders_loop (ls : LeaderSchedule) (d : Dag) (leader : Certificate)
    (rounds : list Round) (to_commit : list Certificate) :
    Exec ConsensusError (list Certificate) :=
  match rounds with
  | [] => mret to_commit
  | r :: rounds' =>
      found ← leader_certificate ls r d;
      match found.2 with
      | Some prev_leader =>
          if linked leader prev_leader d
          then order_leaders_loop ls d prev_leader rounds' (prev_leader :: to_commit)
          else order_leaders_loop ls d leader rounds' to_commit
      | None => order_leaders_loop ls d leader rounds' to_commit
      end
  end.

(** [Bullshark::order_leaders] *)
Definition order_leaders (b : Bullshark) (leader : Certificate) (st : ConsensusState) :
    Exec ConsensusError (list Certificate) :=
  _ ← rassert (cert_round leader mod 2 =? 0);
  lo ← uadd u32_max (committed_round (last_round st)) 2;
  hi ← usub (cert_round leader) 2;
  to_commit ← order_leaders_loop (leader_schedule b) (dag st) leader
                (step_by2 (range_rev_incl lo hi)) [leader];
  _ ← rassert (forallb (fun x => bool_decide (is_Some (committee_authority (committee b) (origin x))))
                 to_commit);
  mret to_commit.

(** [Bullshark::update_leader_schedule] *)
Definition update_leader_schedule (b : Bullshark) (leader_round : Round)
    (rs : ReputationScores) : Exec ConsensusError (Bullshark * bool) :=
  if final_of_schedule rs then
    t ← LeaderSwapTable_new (committee b) leader_round rs (bad_nodes_stake_threshold b);
    mret (set_leader_schedule b (update_leader_swap_table (leader_schedule b) t), true)
  else mret (b, false).

(** ** Committing *)

(** The voting power behind a leader in the round after it. *)
Definition leader_support (c : Committee) (leader_digest : CertificateDigest)
    (round_table : gmap AuthorityIdentifier (CertificateDigest * Certificate)) :
    Exec ConsensusError VotingPower :=
  usum u64_max 0 ((fun e => voting_power_by_id c (origin e.2)) <$>
    filter (fun e => leader_digest ∈ cert_parents e.2) (btree_values round_table)).

(** One iteration of the loop of [commit_leader]: flatten the leader's sub-DAG,
    score it, record it, update the schedule. *)
Definition commit_sub_dag (b : Bullshark) (st : ConsensusState) (leader : Certificate) :
    Exec ConsensusError (Bullshark * ConsensusState * CommittedSubDag * bool) :=
  let sub_dag_index := nonce leader in
  sequence ← order_dag leader st;
  let st1 := foldl update st sequence in
  rs ← resolve_reputation_score b st1 sequence sub_dag_index;
  let sub_dag := CommittedSubDag_new sequence leader rs (last_committed_sub_dag st1) in
  let st2 := set_last_committed_sub_dag st1 sub_dag in
  '(b', changed) ← update_leader_schedule b (cert_round leader) rs;
  mret (b', st2, sub_dag, changed).

(** The loop of [commit_leader] over the leaders to commit. *)
Fixpoint commit_loop (b : Bullshark) (st : ConsensusState) (leaders : list Certificate)
    (committed : list CommittedSubDag) :
    Exec ConsensusError (Bullshark * ConsensusState * (Outcome * list CommittedSubDag)) :=
  match leaders with
  | [] => mret (b, st, (Commit, committed))
  | leader :: leaders' =>
      '(b', st', sub_dag, changed) ← commit_sub_dag b st leader;
      if changed && negb (bool_decide (leaders' = []))
      then mret (b', st', (ScheduleChanged, committed ++ [sub_dag]))
      else commit_loop b' st' leaders' (committed ++ [sub_dag])
  end.

(** [Bullshark::commit_leader] *)
Definition commit_leader (b : Bullshark) (leader_round : Round) (st : ConsensusState) :
    Exec ConsensusError (Bullshark * ConsensusState * (Outcome * list CommittedSubDag)) :=
  found ← leader_certificate (leader_schedule b) leader_round (dag st);
  match found.2 with
  | None => mret (b, st, (LeaderNotFound, []))
  | Some leader =>
      next ← uadd u32_max leader_round 1;
      round_table ← expect (dag st !! next);
      power ← leader_support (committee b) (digest leader) round_table;
      if power <? validity_threshold (committee b)
      then mret (b, st, (NotEnoughSupportForLeader, []))
      else
        leaders_to_commit ← order_leaders b leader st;
        commit_loop b st leaders_to_commit []
  end.

(** The retry loop of [process_certificate]; every [ScheduleChanged] commits
    at least one leader, so the leader's round bounds the iterations. *)
Fixpoint process_loop (fuel : nat) (b : Bullshark) (leader_round : Round) (st : ConsensusState)
    (committed : list CommittedSubDag) :
    Exec ConsensusError (Bullshark * ConsensusState * (Outcome * list CommittedSubDag)) :=
  match fuel with
  | O => Diverge
  | S fuel' =>
      '(b', st', (outcome, subs)) ← commit_leader b leader_round st;
      let committed' := committed ++ subs in
      if decide (outcome = ScheduleChanged)
      then process_loop fuel' b' leader_round st' committed'
      else mret (b', st', (outcome, committed'))
  end.

(** [Bullshark::report_leader_on_time_metrics] *)
Definition report_leader_on_time_metrics (b : Bullshark) (certificate_round : Round) :
    Exec ConsensusError Bullshark :=
  _ ← (if (max_inserted_certificate_round b <? certificate_round) &&
          is_multiple_of certificate_round 2 && (2 <? certificate_round)
       then
         previous ← usub certificate_round 2;
         _ ← leader (leader_schedule b) previous;
         mret tt
       else mret tt);
  mret (set_max_inserted b (Z.max (max_inserted_certificate_round b) certificate_round)).

(** [Bullshark::process_certificate] once the certificate is in the DAG. *)
Definition process_inserted (b : Bullshark) (st : ConsensusState) (certificate : Certificate) :
    Exec ConsensusError (Bullshark * ConsensusState * (Outcome * list CommittedSubDag)) :=
  let round := cert_round certificate in
  b1 ← report_leader_on_time_metrics b round;
  r ← usub round 1;
  if negb (is_multiple_of r 2) || (r <? 2)
  then mret (b1, st, (NoLeaderElectedForOddRound, []))
  else if r <=? committed_round (last_round st)
  then mret (b1, st, (LeaderBelowCommitRound, []))
  else
    '(b2, st2, (outcome, subs)) ← process_loop (S (Z.to_nat r)) b1 r st [];
    if bool_decide (subs = []) then mret (b2, st2, (outcome, subs))
    else mret (b2, st2, (Commit, subs)).

(** [Bullshark::process_certificate]: the state after the call with its
    result; a failed insertion keeps the protocol and the state it left. *)
Definition process_certificate (b : Bullshark) (st : ConsensusState) (certificate : Certificate) :
    Bullshark * ConsensusState * Exec ConsensusError (Outcome * list CommittedSubDag) :=
  match try_insert st certificate with
  | (st', Ret true) =>
      match process_inserted b st' certificate with
      | Ret (b2, st2, res) => (b2, st2, Ret res)
      | Err e => (b, st', Err e)
      | Panic => (b, st', Panic)
      | Diverge => (b, st', Diverge)
      end
  | (st', Ret false) => (b, st', Ret (CertificateBelowCommitRound, []))
  | (st', Err e) => (b, st', Err e)
  | (st', Panic) => (b, st', Panic)
  | (st', Diverge) => (b, st', Diverge)
  end.

End bullshark.

(** ** Specification *)

(** The protocol object is consistent with its committee. *)
Record bullshark_ok (c : Committee) (b : Bullshark) : Prop := {
  bo_wf : committee_wf c;
  bo_committee : committee b = c;
  bo_schedule : ls_committee (leader_schedule b) = c;
  bo_table : table_ok c (leader_swap_table (leader_schedule b));
  bo_threshold : 0 <= bad_nodes_stake_threshold b <= 33
}.

(** What one committed leader does to the state. *)
Record sub_dag_committed `{!Crypto} (c : Committee) (st : ConsensusState) (l : Certificate)
    (st' : ConsensusState) (s : CommittedSubDag) : Prop := {
  sc_leader : sd_leader s = l;
  sc_members : forall x, x ∈ sd_certificates s <-> sub_dag st l x;
  sc_nodup : NoDup (digest <$> sd_certificates s);
  sc_sorted : StronglySorted commit_le (sd_certificates s);
  sc_timestamp : sd_commit_timestamp s =
    Z.max (match last_committed_sub_dag st with Some p => sd_commit_timestamp p | None => 0 end)
          (created_at (header l));
  sc_round : committed_round (last_round st') = cert_round l;
  sc_depth : gc_depth st' = gc_depth st;
  sc_last : last_committed_sub_dag st' = Some s;
  sc_new : forall x, x ∈ sd_certificates s -> in_dag (dag st) x /\
    already_committed (last_committed st) x = false /\
    already_committed (last_committed st') x = true;
  sc_mono : forall x, already_committed (last_committed st) x = true ->
    already_committed (last_committed st') x = true;
  sc_dag : forall x, in_dag (dag st') x <->
    in_dag (dag st) x /\ gc_round (last_round st') < cert_round x
}.

(** Committing leaders one after the other: each is a certificate of the DAG at
    an even round above the committed one, and its sub-DAG is committed. *)
Inductive commit_run `{!Crypto} {rng : Rng} (c : Committee) :
    Bullshark * ConsensusState -> list CommittedSubDag -> Bullshark * ConsensusState -> Prop :=
  | commit_run_nil s : commit_run c s [] s
  | commit_run_cons b st l b' st' s changed subs s'' :
      in_dag (dag st) l -> committed_round (last_round st) < cert_round l ->
      cert_round l mod 2 = 0 ->
      commit_sub_dag b st l = Ret (b', st', s, changed) ->
      state_wf c st' -> sub_dag_committed c st l st' s ->
      commit_run c (b', st') subs s'' ->
      commit_run c (b, st) (s :: subs) s''.

(** ** Ranges of rounds *)

Lemma range_rev_incl_nil lo hi : hi < lo -> range_rev_incl lo hi = [].
Proof. intros. unfold range_rev_incl. by rewrite seqZ_nil by lia. Qed.

Lemma range_rev_incl_cons lo hi :
  lo <= hi -> range_rev_incl lo hi = hi :: range_rev_incl lo (hi - 1).
Proof.
  intros. unfold range_rev_incl.
  replace (hi - lo + 1) with ((hi - 1 - lo + 1) + 1) by lia.
  rewrite seqZ_app, reverse_app by lia. f_equal. rewrite seqZ_cons, seqZ_nil by lia.
  simpl. unfold reverse. simpl. f_equal. lia.
Qed.

Lemma range_rev_as_incl lo hi : range_rev lo hi = range_rev_incl lo (hi - 1).
Proof. unfold range_rev, range_rev_incl. do 2 f_equal. lia. Qed.

Lemma step_by2_range_cons lo hi :
  lo <= hi -> step_by2 (range_rev_incl lo hi) = hi :: step_by2 (range_rev_incl lo (hi - 2)).
Proof.
  intros. rewrite range_rev_incl_cons by lia.
  destruct (decide (lo <= hi - 1)).
  - rewrite range_rev_incl_cons by lia. simpl. do 3 f_equal. lia.
  - rewrite !range_rev_incl_nil by lia. done.
Qed.

(** Induction on the even rounds below a leader. *)
Lemma step_by2_range_ind (P : Z -> list Z -> Prop) lo :
  (forall hi, hi < lo -> P hi []) ->
  (forall hi l, lo <= hi -> l = step_by2 (range_rev_incl lo (hi - 2)) -> P (hi - 2) l ->
     P hi (hi :: l)) ->
  forall hi, P hi (step_by2 (range_rev_incl lo hi)).
Proof.
  intros Hnil Hcons hi.
  remember (Z.to_nat (hi - lo + 1)) as n eqn:Hn. revert hi Hn.
  induction (lt_wf n) as [n _ IH]; intros hi ->.
  destruct (decide (hi < lo)) as [Hlt|Hge].
  { rewrite range_rev_incl_nil by done. by apply Hnil. }
  rewrite step_by2_range_cons by lia. apply Hcons; [lia|done|].
  eapply IH; [|reflexivity]. lia.
Qed.

(** ** Updating the state with a committed sequence *)

Section updates.
Context `{!Crypto}.

Lemma updates_state_wf c st l :
  state_wf c st -> Forall (fun x => 0 <= cert_round x <= u32_max) l ->
  state_wf c (foldl update st l).
Proof.
  intros Hst Hl. revert st Hst. induction Hl as [|x l Hx _ IH]; intros st Hst; [done|].
  simpl. apply IH. by apply update_state_wf.
Qed.

Lemma updates_same st l :
  gc_depth (foldl update st l) = gc_depth st /\
  last_committed_sub_dag (foldl update st l) = last_committed_sub_dag st.
Proof.
  revert st. induction l as [|x l IH]; intros st; [done|]. simpl.
  by destruct (IH (update st x)) as [-> ->].
Qed.

Lemma updates_committed_mono st l :
  committed_round (last_round st) <= committed_round (last_round (foldl update st l)).
Proof.
  revert st. induction l as [|y l IH]; intros st; simpl; [lia|].
  etransitivity; [|apply IH]. simpl. lia.
Qed.

Lemma updates_gc_mono st l :
  gc_round (last_round st) = gc_round_of (committed_round (last_round st)) (gc_depth st) ->
  gc_round (last_round st) <= gc_round (last_round (foldl update st l)).
Proof.
  revert st. induction l as [|z l IH]; intros st Hst; simpl; [lia|].
  etransitivity; [|by apply IH]. simpl. rewrite Hst. unfold gc_round_of, sat_sub. lia.
Qed.

Lemma updates_committed_round st l r :
  committed_round (last_round st) <= r ->
  Forall (fun x => cert_round x <= r) l -> (exists x, x ∈ l /\ cert_round x = r) ->
  committed_round (last_round (foldl update st l)) = r.
Proof.
  intros Hst Hl Hex.
  assert (committed_round (last_round (foldl update st l)) <= r /\
    forall x, x ∈ l -> cert_round x <= committed_round (last_round (foldl update st l)))
    as [Hle Hge].
  { clear Hex. revert st Hst. induction Hl as [|x l Hx _ IH]; intros st Hst; simpl.
    { split; [done|]. intros x Hx. inversion Hx. }
    destruct (IH (update st x)) as [IH1 IH2]; [simpl; lia|]. split; [done|].
    intros y [->|Hy]%elem_of_cons; [|by apply IH2].
    pose proof (updates_committed_mono (update st x) l) as Hm.
    simpl in Hm. lia. }
  destruct Hex as (x & Hx & <-). apply Hge in Hx. lia.
Qed.

Lemma update_already_committed st x y :
  already_committed (last_committed (update st x)) y = true <->
  already_committed (last_committed st) y = true \/
  (origin y = origin x /\ cert_round y <= cert_round x).
Proof.
  unfold already_committed. simpl.
  destruct (last_committed st !! origin x) as [r|] eqn:Hx; rewrite lookup_insert;
    case_decide as Ho.
  - rewrite Ho in *. rewrite Hx. rewrite !Z.leb_le. split; [intros; lia|].
    intros [?|[_ ?]]; lia.
  - split; [by left|]. by intros [?|[? _]].
  - rewrite Ho in *. rewrite Hx, Z.leb_le. split; [by right|]. by intros [?|[_ ?]].
  - split; [by left|]. by intros [?|[? _]].
Qed.

Lemma updates_already_committed st l y :
  already_committed (last_committed (foldl update st l)) y = true <->
  already_committed (last_committed st) y = true \/
  exists x, x ∈ l /\ origin y = origin x /\ cert_round y <= cert_round x.
Proof.
  revert st. induction l as [|x l IH]; intros st; simpl.
  { split; [by left|]. intros [?|(x & Hx & _)]; [done|inversion Hx]. }
  rewrite IH, update_already_committed. split.
  - intros [[?|[? ?]]|(z & Hz & ? & ?)]; [by left|right..].
    + exists x. split; [left|done].
    + exists z. split; [by right|done].
  - intros [?|(z & [->|Hz]%elem_of_cons & ? & ?)]; [by left; left|by left; right|right].
    by exists z.
Qed.

Lemma updates_in_dag st l x :
  gc_round (last_round st) = gc_round_of (committed_round (last_round st)) (gc_depth st) ->
  in_dag (dag (foldl update st l)) x /\
    gc_round (last_round (foldl update st l)) < cert_round x <->
  in_dag (dag st) x /\ gc_round (last_round (foldl update st l)) < cert_round x.
Proof.
  revert st. induction l as [|y l IH]; intros st Hgc; [done|]. simpl.
  rewrite IH by done. simpl. rewrite in_dag_retain.
  pose proof (updates_gc_mono (update st y) l eq_refl) as Hm. simpl in Hm.
  split; intros [? ?]; (split; [|done]).
  - naive_solver.
  - split; [lia|done].
Qed.

End updates.

(** ** Reputation scores *)

Section scores.
Context `{!Crypto} {rng : Rng} {rng_ok : RngOk} (c : Committee).
Context (Hwf : committee_wf c).

Lemma scores_new_ok : scores_ok c 0 (ReputationScores_new c).
Proof using Hwf.
  assert (forall i, scores_per_authority (ReputationScores_new c) !! i =
    if decide (is_Some (authorities_by_id c !! i)) then Some 0 else None) as Hlk.
  { intros i. unfold ReputationScores_new. simpl. rewrite btree_collect_list_to_map.
    destruct (list_to_map _ !! i) as [v|] eqn:Hi.
    - apply elem_of_list_to_map_2 in Hi.
      rewrite elem_of_reverse, list_elem_of_fmap in Hi. destruct Hi as (a & [= -> ->] & Ha).
      rewrite decide_True; [done|].
      apply (elem_of_authorities {| ls_committee := c;
        leader_swap_table := LeaderSwapTable_default |} Hwf) in Ha. by eexists.
    - apply not_elem_of_list_to_map_2 in Hi. rewrite decide_False; [done|].
      intros [a Ha]. apply Hi. rewrite fmap_reverse, elem_of_reverse.
      rewrite <- list_fmap_compose. apply list_elem_of_fmap. exists a.
      split; [symmetry; by apply (authority_id _ Hwf)|].
      apply elem_of_btree_values. by exists i. }
  split.
  - intros i. rewrite Hlk. by case_decide.
  - intros i v. rewrite Hlk. case_decide; [|done]. intros [= <-]. lia.
Qed.

(** One point per authority: the voters of a round have distinct authors. *)
Lemma wp_score_votes rs dg r l b :
  scores_ok c (b + 1) rs -> 0 <= b -> b + 1 <= u64_max -> r < u32_max ->
  Forall (fun x => is_Some (authorities_by_id c !! origin x)) l ->
  NoDup (origin <$> filter (fun x => cert_round x = r + 1) l) ->
  (forall x v, x ∈ l -> cert_round x = r + 1 ->
     scores_per_authority rs !! origin x = Some v -> v <= b) ->
  runs (score_votes rs dg r l) (scores_ok c (b + 1)).
Proof.
  intros Hrs Hb Hmax Hr Hl. revert rs Hrs. induction Hl as [|x l Hx _ IH];
    intros rs Hrs Hnd Hle; simpl; [done|].
  apply wp_bind, wp_uadd; [lia|]. rewrite filter_cons in Hnd.
  destruct (Z.eqb_spec (cert_round x) (r + 1)) as [Hxr|Hxr]; simpl.
  2: { rewrite decide_False in Hnd by done. apply IH; [done..|].
       intros y v Hy. apply Hle. by right. }
  rewrite decide_True in Hnd by done. apply NoDup_cons in Hnd as [Hnx Hnd].
  case_bool_decide; simpl.
  2: { apply IH; [done..|]. intros y v Hy. apply Hle. by right. }
  destruct Hrs as [Hdom Hrng]. pose proof (proj2 (Hdom _) Hx) as [v Hv].
  unfold add_score, uadd. rewrite Hv.
  pose proof (Hle x v ltac:(left) Hxr Hv). pose proof (Hrng _ _ Hv).
  rewrite (proj2 (Z.leb_le (v + 1) u64_max)) by lia. simpl. apply IH; simpl.
  - split; simpl.
    + intros i. rewrite lookup_insert. case_decide as Hi; [|apply Hdom].
      subst. split; [done|by eauto].
    + intros i w. rewrite lookup_insert. case_decide; [intros [= <-]; lia|apply Hrng].
  - done.
  - intros y w Hy Hyr. rewrite lookup_insert_ne; [apply Hle; [by right|done]|].
    intros Heq. apply Hnx. rewrite Heq. apply list_elem_of_fmap. exists y.
    split; [done|]. by apply list_elem_of_filter.
Qed.

Lemma scores_total b rs : scores_ok c b rs -> total_authorities rs = committee_size c.
Proof using Hwf.
  intros [Hdom _]. unfold total_authorities, committee_size. f_equal.
  rewrite <- (length_btree_values (authorities_map c)), <- (wf_values _ Hwf).
  rewrite length_btree_values, <- !size_dom. f_equal. apply set_eq. intros i.
  by rewrite !elem_of_dom.
Qed.

Lemma scores_ok_weaken b b' rs : scores_ok c b rs -> b <= b' -> scores_ok c b' rs.
Proof. intros [Hd Hr] Hle. split; [done|]. intros i v Hv%Hr. lia. Qed.

End scores.

(** ** Committing one leader *)

Section commit_one.
Context `{!Crypto} {rng : Rng} {rng_ok : RngOk} (c : Committee).

Lemma NoDup_round_origins fl d l r :
  dag_ok c fl d -> NoDup (digest <$> l) -> (forall x, x ∈ l -> in_dag d x) ->
  NoDup (origin <$> filter (fun x => cert_round x = r) l).
Proof.
  intros Hok Hnd Hl. apply NoDup_fmap_2_strong.
  - intros x y [Hx Hxl]%list_elem_of_filter [Hy Hyl]%list_elem_of_filter Ho.
    apply Hl in Hxl, Hyl. unfold in_dag in *. rewrite Hx, Hy, Ho in *. congruence.
  - by apply NoDup_filter, (NoDup_fmap_1 digest).
Qed.

Lemma wp_resolve_reputation_score b st l idx r :
  bullshark_ok c b -> 0 <= r < u32_max ->
  (forall s, last_committed_sub_dag st = Some s ->
     0 <= leader_round s < r /\ scores_ok c (leader_round s) (reputation_score s)) ->
  Forall (fun x => is_Some (authorities_by_id c !! origin x)) l ->
  (forall r', NoDup (origin <$> filter (fun x => cert_round x = r') l)) ->
  runs (resolve_reputation_score b st l idx) (scores_ok c r).
Proof.
  intros Hb Hr Hlast Hl Hnd. destruct Hb as [Hwf Hc _ _ _].
  assert (scores_ok c 0 (ReputationScores_new (committee b))) as Hnew
    by (rewrite Hc; by apply scores_new_ok).
  unfold resolve_reputation_score. apply wp_bind.
  eapply (wp_mono _ (scores_ok c r) _ (fun _ => False)); [|intros rs Hrs|done].
  2: { apply wp_bind, wp_assert; [|done]. apply Z.eqb_eq. rewrite Hc.
       by apply (scores_total c Hwf r). }
  unfold initial_score. destruct (last_committed_sub_dag st) as [s|].
  2: { apply (scores_ok_weaken c 0); [by case_match|lia]. }
  destruct (Hlast s eq_refl) as [Hsr Hsc].
  set (rs := (if is_multiple_of _ _ then _ else _) : ReputationScores).
  assert (scores_ok c (leader_round s) rs) as Hrs.
  { unfold rs. case_match; [|done]. eapply scores_ok_weaken; [done|lia]. }
  eapply wp_mono; [apply (wp_score_votes c _ _ _ _ (leader_round s))| |done].
  - eapply scores_ok_weaken; [done|lia].
  - lia.
  - unfold u64_max, u32_max in *. lia.
  - unfold leader_round in Hsr. lia.
  - done.
  - apply Hnd.
  - intros x v _ _ Hv. by apply (proj2 Hrs) in Hv as [? ?].
  - intros rs' Hrs'. eapply scores_ok_weaken; [done|lia].
Qed.

Lemma wp_update_leader_schedule b r rs :
  bullshark_ok c b -> scores_ok c r rs -> score_bound_ok c r ->
  runs (update_leader_schedule b r rs) (fun '(b', changed) =>
    bullshark_ok c b' /\ (changed = false -> b' = b)).
Proof.
  intros Hb Hrs Hbd. pose proof Hb as [Hwf Hc Hls Ht Hth]. unfold update_leader_schedule.
  destruct (final_of_schedule rs) eqn:Hf; [|by split].
  rewrite Hc. apply wp_bind. eapply wp_mono; [by eapply wp_LeaderSwapTable_new| |done].
  intros t Htbl. by split; [split|].
Qed.

Lemma wp_commit_sub_dag b st l :
  bullshark_ok c b -> state_wf c st -> in_dag (dag st) l ->
  committed_round (last_round st) < cert_round l < u32_max ->
  score_bound_ok c (cert_round l) ->
  runs (commit_sub_dag b st l) (fun '(b', st', s, changed) =>
    bullshark_ok c b' /\ (changed = false -> b' = b) /\ state_wf c st' /\
    sub_dag_committed c st l st' s).
Proof.
  intros Hb Hst Hl Hr Hbd. unfold commit_sub_dag. apply wp_bind.
  eapply wp_mono; [apply (state_order_dag c); try done; lia| |done].
  intros seq (Hseq & Hnd & Hsort).
  assert (forall x, x ∈ seq -> in_dag (dag st) x /\ (x = l \/ cert_round x < cert_round l))
    as Hin by (intros x Hx%Hseq; by eapply sub_dag_in_dag; [apply Hst|..]).
  pose proof (so_committed _ _ Hst) as Hcr.
  assert (Forall (fun x => 0 <= cert_round x <= u32_max) seq) as Hrng.
  { apply Forall_forall. intros x [Hx _]%Hin.
    apply (in_dag_round _ _ _ _ (so_dag _ _ Hst)) in Hx.
    rewrite (so_gc _ _ Hst) in Hx. unfold sat_sub in Hx. lia. }
  pose proof (updates_state_wf c st seq Hst Hrng) as Hst1.
  destruct (updates_same st seq) as [Hdep Hsub].
  assert (committed_round (last_round (foldl update st seq)) = cert_round l) as Hcom.
  { apply updates_committed_round; [lia| |].
    - apply Forall_forall. intros x [_ [->|]]%Hin; lia.
    - exists l. split; [apply Hseq; constructor|done]. }
  apply wp_bind. eapply wp_mono; [apply (wp_resolve_reputation_score _ _ _ _ (cert_round l))| |done].
  { done. }
  { lia. }
  { rewrite Hsub. intros s Hs. apply (so_sub_dag _ _ Hst) in Hs as [? ?]. split; [lia|done]. }
  { apply Forall_forall. intros x [Hx _]%Hin. by eapply ok_member, Hx; apply Hst. }
  { intros r'. eapply NoDup_round_origins; [apply Hst|done|]. intros x Hx. by apply Hin. }
  intros rs Hrs. apply wp_bind. eapply wp_mono; [by apply wp_update_leader_schedule| |done].
  intros [b' changed] [Hb' Hch]. simpl. split_and!; try done.
  - destruct Hst1. split; simpl; try done.
    intros s [= <-]. unfold leader_round. simpl. rewrite Hcom. split; [lia|done].
  - split; simpl; try done.
    + by rewrite Hsub.
    + intros x Hx. split; [by apply Hin|]. split.
      * apply Hseq in Hx. unfold sub_dag in Hx. apply rtc_inv_r in Hx as [<-|(y & _ & Hyx)];
          [|by destruct Hyx as (_ & p & _ & _ & ?)].
        unfold already_committed. destruct (last_committed st !! origin l) eqn:Hlc; [|done].
        apply (so_last _ _ Hst) in Hlc. lia.
      * apply updates_already_committed. right. by exists x.
    + intros x Hx. apply updates_already_committed. by left.
    + intros x. rewrite <- (updates_in_dag st seq x (so_gc _ _ Hst)).
      split; [|by intros [? _]]. intros Hx. split; [done|].
      by apply (in_dag_round _ _ _ _ (so_dag _ _ Hst1)) in Hx as [? _].
Qed.

End commit_one.

(** ** Paths *)

(** A parent edge of the DAG. *)
Definition dag_edge `{!Crypto} (d : Dag) (x y : Certificate) : Prop :=
  in_dag d y /\ cert_round y = cert_round x - 1 /\ digest y ∈ cert_parents x.

(** A path of parent edges. *)
Definition dag_path `{!Crypto} (d : Dag) : Certificate -> Certificate -> Prop :=
  rtc (dag_edge d).

Section paths.
Context `{!Crypto} (c : Committee) (fl : Z) (d : Dag).
Context (Hok : dag_ok c fl d).

Lemma dag_path_in_dag x y : in_dag d x -> dag_path d x y -> in_dag d y.
Proof. intros Hx. induction 1 as [|x y z [Hy _] _ IH]; auto. Qed.

Lemma dag_path_round x y : dag_path d x y -> x = y \/ cert_round y < cert_round x.
Proof. induction 1 as [|x y z (_ & Hy & _) _ [->|IH]]; [by left|right; lia..]. Qed.

Lemma elem_of_referenced r ps y :
  y ∈ referenced d r ps <->
  in_dag d y /\ cert_round y = r /\ exists x, x ∈ ps /\ digest y ∈ cert_parents x.
Proof using Hok.
  unfold referenced. destruct (d !! r) as [m|] eqn:Hr.
  2: { split; [intros Hy; inversion Hy|]. intros (Hy & <- & _).
       unfold in_dag, dag_at in Hy. by rewrite Hr in Hy. }
  rewrite list_elem_of_fmap. split.
  - intros ([dg z] & -> & [Hex Hz]%list_elem_of_filter). simpl in *.
    apply elem_of_btree_values in Hz as [a Ha].
    destruct (dag_at_in_dag c fl d r a dg z Hok) as (Hin & -> & Hrz & _);
      [unfold dag_at; by rewrite Hr|].
    split_and!; [done..|]. apply existsb_exists in Hex as (x & Hx & Hp).
    apply bool_decide_eq_true in Hp. exists x. split; [by apply list_elem_of_In|done].
  - intros (Hy & <- & x & Hx & Hp). exists (digest y, y). split; [done|].
    apply list_elem_of_filter. split.
    + apply existsb_exists. exists x. split; [by apply list_elem_of_In|].
      by apply bool_decide_eq_true.
    + unfold in_dag, dag_at in Hy. rewrite Hr in Hy. apply elem_of_btree_values. eauto.
Qed.

Lemma elem_of_linked_loop lo hi ps y :
  lo <= hi + 1 -> (forall x, x ∈ ps -> cert_round x = hi + 1) ->
  y ∈ linked_loop d (range_rev_incl lo hi) ps <->
  cert_round y = lo /\ exists x, x ∈ ps /\ dag_path d x y.
Proof using Hok.
  remember (Z.to_nat (hi + 1 - lo)) as n eqn:Hn. revert hi ps Hn.
  induction n as [|n IH]; intros hi ps Hn Hle Hps.
  - rewrite range_rev_incl_nil by lia. simpl. split.
    + intros Hy. pose proof (Hps y Hy). split; [lia|]. exists y. split; [done|constructor].
    + intros (Hy & x & Hx & Hp). destruct (dag_path_round _ _ Hp) as [<-|]; [done|].
      apply Hps in Hx. lia.
  - rewrite range_rev_incl_cons by lia. simpl. rewrite IH; [|lia..|].
    2: { intros x (_ & Hx & _)%elem_of_referenced. lia. }
    split.
    + intros (Hy & x & (Hx & Hr & z & Hz & Hp)%elem_of_referenced & Hpath).
      split; [done|]. exists z. split; [done|]. eapply rtc_l; [|exact Hpath].
      split_and!; [done| |done]. rewrite (Hps z Hz). lia.
    + intros (Hy & z & Hz & Hpath). split; [done|]. pose proof (Hps z Hz) as Hzr.
      apply rtc_inv in Hpath as [->|(x & (Hx & Hr & Hp) & Hpath)]; [lia|].
      exists x. split; [|done]. apply elem_of_referenced. split_and!; [done|lia|eauto].
Qed.

(** [linked] decides whether there is a path between two certificates. *)
Lemma linked_path x y :
  in_dag d x -> in_dag d y -> linked x y d = true <-> dag_path d x y.
Proof using Hok.
  intros Hx Hy. unfold linked. rewrite range_rev_as_incl, existsb_exists.
  assert (forall z, cert_eqb z y = true -> in_dag d z -> z = y) as Heq.
  { intros z Hz. unfold cert_eqb in Hz. rewrite !andb_true_iff, !Z.eqb_eq in Hz.
    destruct Hz as [[[Hd _] _] _]. intros Hzd. by apply (in_dag_inj c fl d). }
  destruct (decide (cert_round y <= cert_round x)) as [Hle|Hgt].
  2: { rewrite range_rev_incl_nil by lia. simpl. split.
       - intros (z & [<-|[]] & Hz%Heq); [subst; lia|done].
       - intros [->|?]%dag_path_round; lia. }
  assert (forall z, z ∈ linked_loop d (range_rev_incl (cert_round y) (cert_round x - 1)) [x] <->
    cert_round z = cert_round y /\ dag_path d x z) as Hloop.
  { intros z. rewrite elem_of_linked_loop;
      [|lia|intros z' Hz'; apply list_elem_of_singleton in Hz' as ->; lia].
    split; intros (Hz & Hp); (split; [done|]).
    - destruct Hp as (? & ->%list_elem_of_singleton & ?). done.
    - exists x. split; [by apply list_elem_of_singleton|done]. }
  split.
  - intros (z & Hz%list_elem_of_In & Hzy). apply Hloop in Hz as [Hzr Hp].
    rewrite <- (Heq z); try done. by apply (dag_path_in_dag x).
  - intros Hp. exists y. split; [|apply cert_eqb_refl]. apply list_elem_of_In, Hloop. done.
Qed.

End paths.

(** ** Ordering the leaders *)

Section leaders_below.
Context (found : Round -> option Certificate) (link : Certificate -> Certificate -> bool).

(** The loop of [order_leaders] as a function: the leaders of the given
    descending rounds that are linked to the one before them. *)
Fixpoint leaders_below (leader : Certificate) (rounds : list Round) : list Certificate :=
  match rounds with
  | [] => []
  | r :: rounds' =>
      match found r with
      | Some prev =>
          if link leader prev then leaders_below prev rounds' ++ [prev]
          else leaders_below leader rounds'
      | None => leaders_below leader rounds'
      end
  end.

Lemma elem_of_leaders_below leader rounds x :
  x ∈ leaders_below leader rounds -> exists r, r ∈ rounds /\ found r = Some x.
Proof.
  revert leader. induction rounds as [|r rounds IH]; intros leader; simpl;
    [intros Hx; inversion Hx|].
  assert (forall l, x ∈ leaders_below l rounds -> exists r', r' ∈ r :: rounds /\ found r' = Some x)
    as IH'.
  { intros l Hx. destruct (IH l Hx) as (r' & Hr' & Hf). exists r'. split; [by right|done]. }
  destruct (found r) as [prev|] eqn:Hf; [|apply IH']. destruct (link leader prev); [|apply IH'].
  intros [Hx| ->%list_elem_of_singleton]%elem_of_app; [by eapply IH'|].
  exists r. split; [left|done].
Qed.

Context (Hfound : forall r x, found r = Some x -> cert_round x = r).

Lemma leaders_below_sorted leader rounds :
  StronglySorted (fun r s => s < r) rounds ->
  StronglySorted (fun x y => cert_round x < cert_round y) (leaders_below leader rounds).
Proof using Hfound.
  intros Hs. revert leader. induction Hs as [|r rounds _ IH Hlt]; intros leader; simpl;
    [constructor|].
  destruct (found r) as [prev|] eqn:Hf; [|done]. destruct (link leader prev); [|done].
  apply StronglySorted_app_2; [|done|by repeat constructor].
  intros x y Hx ->%list_elem_of_singleton.
  apply elem_of_leaders_below in Hx as (r' & Hr' & Hx). rewrite Forall_forall in Hlt.
  rewrite (Hfound _ _ Hf), (Hfound _ _ Hx). by apply Hlt.
Qed.

(** A leader that every later candidate is linked to is selected. *)
Lemma leaders_below_complete leader rounds r x :
  r ∈ rounds -> found r = Some x -> StronglySorted (fun r s => s < r) rounds ->
  link leader x = true ->
  (forall s y, s ∈ rounds -> r < s -> found s = Some y -> link y x = true) ->
  x ∈ leaders_below leader rounds.
Proof.
  intros Hr Hf Hs. revert leader. induction Hs as [|s rounds _ IH Hlt]; intros leader Hlink Hall;
    [inversion Hr|]. simpl.
  apply elem_of_cons in Hr as [->|Hr].
  { rewrite Hf, Hlink. apply elem_of_app. right. by apply list_elem_of_singleton. }
  assert (forall l, link l x = true -> x ∈ leaders_below l rounds) as IH'.
  { intros l Hl. apply IH; [done|done|]. intros s' y Hs'. apply Hall. by right. }
  rewrite Forall_forall in Hlt. specialize (Hlt _ Hr).
  destruct (found s) as [prev|] eqn:Hfs; [|by apply IH'].
  destruct (link leader prev); [|by apply IH'].
  apply elem_of_app. left. apply IH'. eapply Hall; [left|done|done].
Qed.

(** Below a selected leader the selection is the leader's own. *)
Lemma leaders_below_cut leader rounds r x :
  r ∈ rounds -> found r = Some x -> StronglySorted (fun r s => s < r) rounds ->
  link leader x = true ->
  (forall s y, s ∈ rounds -> r < s -> found s = Some y -> link y x = true) ->
  exists post, leaders_below leader rounds =
    leaders_below x (filter (fun s => s < r) rounds) ++ x :: post.
Proof.
  intros Hr Hf Hs. revert leader. induction Hs as [|s rounds Hs IH Hlt]; intros leader Hlink Hall;
    [inversion Hr|]. simpl. rewrite Forall_forall in Hlt.
  apply elem_of_cons in Hr as [->|Hr].
  { rewrite Hf, Hlink. exists []. f_equal. rewrite filter_cons, decide_False by lia.
    by rewrite filter_Forall_id by (by apply Forall_forall). }
  pose proof (Hlt _ Hr) as Hrs. rewrite filter_cons, decide_False by lia.
  assert (forall l, link l x = true -> exists post, leaders_below l rounds =
    leaders_below x (filter (fun s => s < r) rounds) ++ x :: post) as IH'.
  { intros l Hl. apply IH; [done|done|]. intros s' y Hs'. apply Hall. by right. }
  destruct (found s) as [prev|] eqn:Hfs; [|by apply IH'].
  destruct (link leader prev); [|by apply IH'].
  destruct (IH' prev) as [post ->]; [eapply Hall; [left|done|done]|].
  exists (post ++ [prev]). by rewrite <- app_assoc.
Qed.

End leaders_below.

(** Two selections agree when the candidates agree and the links do. *)
Lemma leaders_below_agree (R : Certificate -> Certificate -> Prop) found1 link1 found2 link2
    l1 l2 rounds :
  R l1 l2 ->
  (forall r x1 x2 y1 y2, r ∈ rounds -> R x1 x2 -> found1 r = Some y1 -> found2 r = Some y2 ->
     R y1 y2 /\ link1 x1 y1 = link2 x2 y2) ->
  (forall r x1 x2 y1, r ∈ rounds -> R x1 x2 -> found1 r = Some y1 -> found2 r = None ->
     link1 x1 y1 = false) ->
  (forall r x1 x2 y2, r ∈ rounds -> R x1 x2 -> found1 r = None -> found2 r = Some y2 ->
     link2 x2 y2 = false) ->
  Forall2 R (leaders_below found1 link1 l1 rounds) (leaders_below found2 link2 l2 rounds).
Proof.
  revert l1 l2. induction rounds as [|r rounds IH]; intros l1 l2 HR Hb H1 H2; simpl;
    [constructor|].
  assert (forall x1 x2, R x1 x2 ->
    Forall2 R (leaders_below found1 link1 x1 rounds) (leaders_below found2 link2 x2 rounds)) as IH'.
  { intros x1 x2 HR'. apply IH; [done|intros r' **..].
    - eapply (Hb r'); try done. by right.
    - eapply (H1 r'); try done. by right.
    - eapply (H2 r'); try done. by right. }
  destruct (found1 r) as [y1|] eqn:Hf1, (found2 r) as [y2|] eqn:Hf2.
  - destruct (Hb r l1 l2 y1 y2 ltac:(left) HR Hf1 Hf2) as [HR' ->].
    destruct (link2 l2 y2); [|by apply IH'].
    apply Forall2_app; [by apply IH'|by repeat constructor].
  - rewrite (H1 r l1 l2 y1) by (done || left). by apply IH'.
  - rewrite (H2 r l1 l2 y2) by (done || left). by apply IH'.
  - by apply IH'.
Qed.

(** The rounds of [order_leaders]. *)
Lemma elem_of_even_rounds lo hi r :
  r ∈ step_by2 (range_rev_incl lo hi) <-> lo <= r <= hi /\ (hi - r) mod 2 = 0.
Proof.
  revert hi. apply (step_by2_range_ind (fun hi l => r ∈ l <-> lo <= r <= hi /\ (hi - r) mod 2 = 0)).
  - intros hi Hhi. split; [intros Hr; inversion Hr|lia].
  - intros hi l Hle _ IH. rewrite elem_of_cons, IH.
    pose proof (Z_div_mod_eq_full (hi - r) 2). pose proof (Z_div_mod_eq_full (hi - 2 - r) 2).
    pose proof (Z.mod_pos_bound (hi - r) 2). pose proof (Z.mod_pos_bound (hi - 2 - r) 2). lia.
Qed.

Lemma even_rounds_sorted lo hi :
  StronglySorted (fun r s => s < r) (step_by2 (range_rev_incl lo hi)).
Proof.
  apply (step_by2_range_ind (fun hi l => StronglySorted (fun r s => s < r) l)).
  - intros. constructor.
  - intros h l Hle -> IH. constructor; [done|]. apply Forall_forall. intros s Hs.
    apply elem_of_even_rounds in Hs as [? _]. lia.
Qed.

(** Dropping the rounds down to an even one leaves the rounds below it. *)
Lemma filter_even_rounds lo hi r :
  r <= hi -> (hi - r) mod 2 = 0 ->
  filter (fun s => s < r) (step_by2 (range_rev_incl lo hi)) = step_by2 (range_rev_incl lo (r - 2)).
Proof.
  revert hi. apply (step_by2_range_ind (fun hi l => r <= hi -> (hi - r) mod 2 = 0 ->
    filter (fun s => s < r) l = _)).
  - intros hi Hhi Hle _. by rewrite range_rev_incl_nil by lia.
  - intros hi l Hle -> IH Hrh Hev. rewrite filter_cons, decide_False by lia.
    destruct (decide (r = hi)) as [->|].
    + apply filter_Forall_id, Forall_forall. intros s Hs.
      apply elem_of_even_rounds in Hs as [? _]. lia.
    + pose proof (Z_div_mod_eq_full (hi - r) 2).
      apply IH; [lia|]. replace (hi - 2 - r) with (hi - r + (-1) * 2) by lia.
      by rewrite Z_mod_plus_full.
Qed.

Lemma even_below n r : n mod 2 = 0 -> (n - 2 - r) mod 2 = 0 -> r mod 2 = 0.
Proof.
  intros Hn Hr. replace r with (n - 2 - (n - 2 - r)) by lia.
  by rewrite Zminus_mod, Hr, (Zminus_mod n), Hn.
Qed.

Section order_leaders.
Context `{!Crypto} {rng : Rng} {rng_ok : RngOk} (c : Committee).

(** The certificate of a round's leader, if the DAG has it. *)
Definition found_leader (b : Bullshark) (d : Dag) (r : Round) : option Certificate :=
  match leader (E := ConsensusError) (leader_schedule b) r with
  | Ret a => snd <$> dag_at d r (id a)
  | _ => None
  end.

(** The leaders committed by a supported leader, oldest first. *)
Definition leaders_of (b : Bullshark) (st : ConsensusState) (leader : Certificate) :
    list Certificate :=
  leaders_below (found_leader b (dag st)) (fun x y => linked x y (dag st)) leader
    (step_by2 (range_rev_incl (committed_round (last_round st) + 2) (cert_round leader - 2)))
  ++ [leader].

Lemma leader_certificate_Ret b r d :
  bullshark_ok c b -> 0 <= r -> r mod 2 = 0 ->
  exists a, leader (E := ConsensusError) (leader_schedule b) r = Ret a /\
    leader_certificate (E := ConsensusError) (leader_schedule b) r d =
      Ret (a, found_leader b d r).
Proof using rng_ok.
  intros [Hwf Hc Hls Ht Hth] Hr Hev. subst c.
  destruct (runs_Ret _ _ (wp_leader (E := ConsensusError) (leader_schedule b)
    ltac:(by rewrite Hls) r ltac:(by rewrite Hls) Hr Hev)) as (a & Ha & Hca & _).
  exists a. unfold leader_certificate, found_leader. rewrite Ha.
  simpl. unfold dag_at. by destruct (d !! r).
Qed.

Lemma found_leader_in_dag b fl d r x :
  dag_ok c fl d -> found_leader b d r = Some x -> in_dag d x /\ cert_round x = r.
Proof.
  intros Hok. unfold found_leader. destruct (leader _ r) as [a| | |]; try done.
  rewrite fmap_Some. intros ([dg y] & Hat & ->).
  by destruct (dag_at_in_dag _ _ _ _ _ _ _ Hok Hat) as (? & -> & ? & ?).
Qed.

Lemma order_leaders_loop_Ret b d l rounds acc :
  bullshark_ok c b -> Forall (fun r => 0 <= r /\ r mod 2 = 0) rounds ->
  order_leaders_loop (leader_schedule b) d l rounds acc =
  Ret (leaders_below (found_leader b d) (fun x y => linked x y d) l rounds ++ acc).
Proof using rng_ok.
  intros Hb Hr. revert l acc. induction Hr as [|r rounds [Hr Hev] _ IH]; intros l acc; [done|].
  simpl. destruct (leader_certificate_Ret b r d Hb Hr Hev) as (a & _ & ->). simpl.
  destruct (found_leader b d r) as [prev|]; [|apply IH].
  destruct (linked l prev d); [|apply IH]. by rewrite IH, <- app_assoc.
Qed.

Lemma leaders_of_ok b st l :
  state_wf c st -> in_dag (dag st) l -> committed_round (last_round st) < cert_round l ->
  cert_round l mod 2 = 0 ->
  StronglySorted (fun x y => cert_round x < cert_round y) (leaders_of b st l) /\
  forall x, x ∈ leaders_of b st l -> in_dag (dag st) x /\
    committed_round (last_round st) < cert_round x <= cert_round l /\ cert_round x mod 2 = 0.
Proof.
  intros Hst Hl Hlt Hev. unfold leaders_of.
  assert (forall r x, found_leader b (dag st) r = Some x ->
    in_dag (dag st) x /\ cert_round x = r) as Hf
    by (intros r x; apply (found_leader_in_dag b (gc_round (last_round st))), Hst).
  assert (forall x, x ∈ leaders_below (found_leader b (dag st)) (fun x y => linked x y (dag st)) l
    (step_by2 (range_rev_incl (committed_round (last_round st) + 2) (cert_round l - 2))) ->
    in_dag (dag st) x /\ committed_round (last_round st) < cert_round x < cert_round l /\
    cert_round x mod 2 = 0) as Hin.
  { intros x (r & [Hr Hre]%elem_of_even_rounds & Hx)%elem_of_leaders_below.
    apply Hf in Hx as [Hx <-]. split; [done|]. split; [lia|].
    by apply (even_below (cert_round l)). }
  split.
  - apply StronglySorted_app_2; [|apply leaders_below_sorted|by repeat constructor].
    + intros x y Hx ->%list_elem_of_singleton. apply Hin in Hx. lia.
    + intros r x Hx. apply (Hf _ _ Hx).
    + apply even_rounds_sorted.
  - intros x [Hx| ->%list_elem_of_singleton]%elem_of_app; [|split_and!; try done; lia].
    apply Hin in Hx as (? & ? & ?). split_and!; try done; lia.
Qed.

Lemma order_leaders_Ret b st l :
  bullshark_ok c b -> state_wf c st -> in_dag (dag st) l ->
  committed_round (last_round st) < cert_round l < u32_max -> cert_round l mod 2 = 0 ->
  order_leaders b l st = Ret (leaders_of b st l).
Proof using rng_ok.
  intros Hb Hst Hl Hr Hev. unfold order_leaders. pose proof (so_committed _ _ Hst).
  assert (2 <= cert_round l) as H2.
  { pose proof (Z_div_mod_eq_full (cert_round l) 2). lia. }
  rewrite Hev. simpl. unfold uadd, usub.
  rewrite (proj2 (Z.leb_le _ _)), (proj2 (Z.leb_le _ _)) by lia. simpl.
  rewrite order_leaders_loop_Ret; [|done|].
  2: { apply Forall_forall. intros r [? Hre]%elem_of_even_rounds.
       split; [lia|by apply (even_below (cert_round l))]. }
  simpl. fold (leaders_of b st l).
  rewrite (proj2 (forallb_forall _ _)); [done|].
  intros x Hx%list_elem_of_In. apply bool_decide_eq_true.
  apply leaders_of_ok in Hx as (Hx & _); try done; [|lia].
  rewrite (bo_committee _ _ Hb). by eapply ok_member, Hx; apply Hst.
Qed.

End order_leaders.

(** ** Support *)

(** The authors of the certificates of a round that have a digest among their
    parents. *)
Definition supporters (d : Dag) (r : Round) (dg : CertificateDigest) : gset AuthorityIdentifier :=
  match d !! r with
  | Some m => list_to_set ((fun e => origin e.2) <$>
      filter (fun e => dg ∈ cert_parents e.2) (btree_values m))
  | None => ∅
  end.

Section support.
Context `{!Crypto} (c : Committee) (Hwf : committee_wf c).

Lemma elem_of_supporters fl d r dg a :
  dag_ok c fl d ->
  a ∈ supporters d r dg <->
  exists x, in_dag d x /\ cert_round x = r /\ origin x = a /\ dg ∈ cert_parents x.
Proof.
  intros Hok. unfold supporters. destruct (d !! r) as [m|] eqn:Hr.
  2: { split; [by intros ?%elem_of_empty|]. intros (x & Hx & <- & _).
       unfold in_dag, dag_at in Hx. by rewrite Hr in Hx. }
  rewrite elem_of_list_to_set, list_elem_of_fmap. split.
  - intros ([e x] & -> & [Hp [a' Ha']%elem_of_btree_values]%list_elem_of_filter).
    destruct (dag_at_in_dag c fl d r a' e x Hok) as (Hx & _ & Hxr & _);
      [unfold dag_at; by rewrite Hr|]. by exists x.
  - intros (x & Hx & <- & <- & Hp). exists (digest x, x). split; [done|].
    apply list_elem_of_filter. split; [done|]. apply elem_of_btree_values.
    unfold in_dag, dag_at in Hx. rewrite Hr in Hx. eauto.
Qed.

Lemma leader_support_Ret fl d r dg m :
  dag_ok c fl d -> d !! r = Some m ->
  leader_support c dg m = Ret (stake_of c (supporters d r dg)).
Proof using Hwf.
  intros Hok Hr. unfold supporters. rewrite Hr. unfold leader_support.
  set (l := filter _ _). set (k := (fun e => origin e.2) <$> l).
  assert (NoDup k) as Hnd.
  { apply (sublist_NoDup _ (btree_keys m)); [apply NoDup_btree_keys|].
    replace (btree_keys m) with ((fun e : Z * Certificate => origin e.2) <$> btree_values m).
    - apply fmap_sublist, sublist_filter.
    - unfold btree_keys, btree_values. rewrite <- list_fmap_compose.
      apply list_fmap_ext. intros i [a [e x]] Hi. apply list_elem_of_lookup_2 in Hi.
      apply elem_of_btree_list in Hi.
      destruct (dag_at_in_dag c fl d r a e x Hok) as (_ & _ & _ & Ho); [|done].
      unfold dag_at. by rewrite Hr. }
  replace ((fun e => voting_power_by_id c (origin e.2)) <$> l)
    with (voting_power_by_id c <$> k) by (unfold k; by rewrite <- list_fmap_compose).
  pose proof (stake_of_le_total c Hwf (list_to_set k)) as Hle.
  unfold stake_of in *. rewrite wsum_list in * by done.
  pose proof (wf_total _ Hwf). pose proof (total_power_nonneg c (wf_authorities _ Hwf)).
  assert (runs (usum (E := ConsensusError) u64_max 0 (voting_power_by_id c <$> k))
    (fun v => v = zsum (voting_power_by_id c <$> k))) as Hw.
  { apply wp_usum; [|lia|done]. apply Forall_fmap, Forall_forall.
    intros a _. apply voting_power_by_id_nonneg, Hwf. }
  apply runs_Ret in Hw as (v & -> & ->). done.
Qed.

End support.

(** ** Runs of commits *)

(** The certificates committed by a run, in order. *)
Definition committed_certificates (subs : list CommittedSubDag) : list Certificate :=
  subs ≫= sd_certificates.

(** The timestamp of the last committed sub-DAG. *)
Definition last_timestamp (st : ConsensusState) : TimestampSec :=
  match last_committed_sub_dag st with Some s => sd_commit_timestamp s | None => 0 end.

Section runs.
Context `{!Crypto} {rng : Rng} (c : Committee).

Lemma commit_run_app s1 subs1 s2 subs2 s3 :
  commit_run c s1 subs1 s2 -> commit_run c s2 subs2 s3 -> commit_run c s1 (subs1 ++ subs2) s3.
Proof. induction 1; simpl; [done|]. intros. econstructor; eauto. Qed.

Lemma commit_run_in_dag s subs s' x :
  commit_run c s subs s' -> in_dag (dag s'.2) x -> in_dag (dag s.2) x.
Proof.
  induction 1 as [|b st l b' st' sb ch subs s'' Hl Hlt Hev _ Hst' Hc Hrun IH]; simpl; [done|].
  by intros [? _]%IH%Hc.
Qed.

Lemma commit_run_gc s subs s' :
  commit_run c s subs s' -> state_wf c s.2 ->
  state_wf c s'.2 /\ gc_round (last_round s.2) <= gc_round (last_round s'.2) /\
  gc_depth s'.2 = gc_depth s.2.
Proof.
  induction 1 as [|b st l b' st' sb ch subs s'' Hl Hlt Hev _ Hst' Hc Hrun IH]; simpl in *; [done|].
  intros Hst. destruct (IH Hst') as (? & Hle & ->). split_and!; [done| |apply Hc].
  etransitivity; [|exact Hle]. rewrite (so_gc _ _ Hst), (so_gc _ _ Hst'), (sc_round _ _ _ _ _ Hc).
  rewrite (sc_depth _ _ _ _ _ Hc). unfold sat_sub. lia.
Qed.

Lemma commit_run_closed s subs s' :
  commit_run c s subs s' -> state_wf c s.2 ->
  dag_closed (gc_round (last_round s.2)) (dag s.2) ->
  dag_closed (gc_round (last_round s'.2)) (dag s'.2).
Proof.
  induction 1 as [|b st l b' st' sb ch subs s'' Hl Hlt Hev _ Hst' Hc Hrun IH]; simpl in *; [done|].
  intros Hst Hcl. apply IH; [done|]. intros x p [Hx Hxr]%Hc Hr Hp.
  assert (gc_round (last_round st) <= gc_round (last_round st')) as Hle.
  { rewrite (so_gc _ _ Hst), (so_gc _ _ Hst'), (sc_round _ _ _ _ _ Hc), (sc_depth _ _ _ _ _ Hc).
    unfold sat_sub. lia. }
  destruct (Hcl x p Hx ltac:(lia) Hp) as (y & Hy & Hyr & Hyd). exists y.
  split_and!; try done. apply Hc. split; [done|lia].
Qed.

Lemma commit_run_kept s subs s' x :
  commit_run c s subs s' -> state_wf c s.2 -> in_dag (dag s.2) x ->
  gc_round (last_round s'.2) < cert_round x -> in_dag (dag s'.2) x.
Proof.
  induction 1 as [|b st l b' st' sb ch subs s'' Hl Hlt Hev _ Hst' Hc Hrun IH]; simpl in *; [done|].
  intros Hst Hx Hgc. apply IH; [done| |done]. apply Hc. split; [done|].
  destruct (commit_run_gc _ _ _ Hrun Hst') as (_ & Hle & _). simpl in Hle. lia.
Qed.

Lemma commit_run_rounds s subs s' :
  commit_run c s subs s' ->
  StronglySorted Z.lt (committed_round (last_round s.2) :: (leader_round <$> subs)) /\
  Forall (fun r => r mod 2 = 0) (leader_round <$> subs) /\
  last (committed_round (last_round s.2) :: (leader_round <$> subs)) =
    Some (committed_round (last_round s'.2)).
Proof.
  induction 1 as [s|b st l b' st' sb ch subs s'' Hl Hlt Hev _ Hst' Hc _ IH]; simpl.
  { split_and!; [repeat constructor..|done]. }
  destruct IH as (IH1 & IH2 & IH3). simpl in *. unfold leader_round at 1 3 5 6.
  rewrite (sc_leader _ _ _ _ _ Hc). rewrite (sc_round _ _ _ _ _ Hc) in *.
  split_and!.
  - constructor; [done|]. constructor; [done|]. apply StronglySorted_inv in IH1 as [_ IH1].
    eapply Forall_impl; [exact IH1|]. intros r Hr. simpl in Hr. lia.
  - by constructor.
  - done.
Qed.

Lemma commit_run_mono s subs s' x :
  commit_run c s subs s' -> already_committed (last_committed s.2) x = true ->
  already_committed (last_committed s'.2) x = true.
Proof.
  induction 1 as [|b st l b' st' sb ch subs s'' Hl Hlt Hev _ Hst' Hc Hrun IH]; simpl in *; [done|].
  intros Hx%Hc. by apply IH.
Qed.

Lemma commit_run_certificates s subs s' x :
  commit_run c s subs s' -> x ∈ committed_certificates subs ->
  in_dag (dag s.2) x /\ already_committed (last_committed s.2) x = false /\
  already_committed (last_committed s'.2) x = true.
Proof.
  induction 1 as [|b st l b' st' sb ch subs s'' Hl Hlt Hev _ Hst' Hc Hrun IH]; simpl in *.
  { intros Hx. inversion Hx. }
  unfold committed_certificates in *. simpl. rewrite elem_of_app. intros [Hx|Hx].
  - apply (sc_new _ _ _ _ _ Hc) in Hx as (? & ? & ?). split_and!; try done.
    by eapply (commit_run_mono (b', st')).
  - apply IH in Hx as ([? _]%Hc & Hno & ?). split_and!; try done.
    destruct (already_committed (last_committed st) x) eqn:Hac; [|done].
    apply Hc in Hac. congruence.
Qed.

Lemma commit_run_nodup s subs s' fl :
  dag_ok c fl (dag s.2) -> commit_run c s subs s' ->
  NoDup (digest <$> committed_certificates subs).
Proof.
  intros Hok Hrun. revert fl Hok.
  induction Hrun as [|b st l b' st' sb ch subs s'' Hl Hlt Hev _ Hst' Hc Hrun IH]; intros fl Hok;
    simpl in *; [constructor|].
  unfold committed_certificates in *. simpl. rewrite fmap_app. apply NoDup_app. split_and!.
  - apply Hc.
  - intros dg (x & -> & Hx)%list_elem_of_fmap (y & Hd & Hy)%list_elem_of_fmap.
    apply (sc_new _ _ _ _ _ Hc) in Hx as (Hxd & _ & Hx).
    eapply commit_run_certificates in Hy as (Hyd & Hy & _); [|done]. simpl in *.
    apply Hc in Hyd as [Hyd _]. rewrite (in_dag_inj _ _ _ x y Hok) in Hx by done. congruence.
  - eapply IH, Hst'.
Qed.

Lemma commit_run_timestamps s subs s' :
  commit_run c s subs s' ->
  StronglySorted Z.le (last_timestamp s.2 :: (sd_commit_timestamp <$> subs)).
Proof.
  induction 1 as [|b st l b' st' sb ch subs s'' Hl Hlt Hev _ Hst' Hc Hrun IH]; simpl in *.
  { repeat constructor. }
  unfold last_timestamp at 1 in IH. rewrite (sc_last _ _ _ _ _ Hc) in IH.
  pose proof (sc_timestamp _ _ _ _ _ Hc) as Hts. fold (last_timestamp st) in Hts.
  constructor; [done|]. constructor; [lia|]. apply StronglySorted_inv in IH as [_ IH].
  eapply Forall_impl; [exact IH|]. intros t Ht. simpl in Ht. lia.
Qed.

Lemma commit_run_last s subs s' :
  commit_run c s subs s' -> subs <> [] ->
  last (leader_round <$> subs) = Some (committed_round (last_round s'.2)).
Proof.
  intros Hrun Hne. destruct (commit_run_rounds _ _ _ Hrun) as (_ & _ & <-).
  by destruct subs.
Qed.

(** A run that leaves leaders uncommitted stays below them. *)
Lemma run_before_rest s subs s' rest :
  commit_run c s subs s' -> subs <> [] -> rest <> [] ->
  StronglySorted (fun x y => cert_round x < cert_round y) ((sd_leader <$> subs) ++ rest) ->
  exists y, y ∈ rest /\ committed_round (last_round s.2) < committed_round (last_round s'.2) /\
    committed_round (last_round s'.2) < cert_round y.
Proof.
  intros Hrun Hne Hrest Hs. destruct rest as [|y rest]; [done|]. exists y. split; [left|].
  destruct (commit_run_rounds _ _ _ Hrun) as (Hrs & _ & _).
  pose proof (commit_run_last _ _ _ Hrun Hne) as Hlast.
  apply last_Some_elem_of in Hlast.
  apply StronglySorted_inv in Hrs as [_ Hrs]. rewrite Forall_forall in Hrs.
  split; [by apply Hrs|]. apply list_elem_of_fmap in Hlast as (z & -> & Hz).
  apply (StronglySorted_app_1_elem_of _ _ _ (sd_leader z) y Hs);
    [by apply list_elem_of_fmap_2|left].
Qed.

End runs.

(** ** Processing a certificate *)

Section process.
Context `{!Crypto} {rng : Rng} {rng_ok : RngOk} (c : Committee).

(** Rounds below which the reputation statistics fit their types. *)
Definition rounds_ok (rmax : Round) : Prop :=
  rmax <= u32_max /\ forall r, 0 <= r < rmax -> score_bound_ok c r.

Lemma wp_commit_loop rmax b st leaders acc :
  rounds_ok rmax -> bullshark_ok c b -> state_wf c st ->
  StronglySorted (fun x y => cert_round x < cert_round y) leaders ->
  (forall x, x ∈ leaders -> in_dag (dag st) x /\
     committed_round (last_round st) < cert_round x < rmax /\ cert_round x mod 2 = 0) ->
  runs (commit_loop b st leaders acc) (fun '(b', st', (o, subs)) =>
    bullshark_ok c b' /\ exists new rest, subs = acc ++ new /\
    commit_run c (b, st) new (b', st') /\ leaders = (sd_leader <$> new) ++ rest /\
    ((o = Commit /\ rest = []) \/ (o = ScheduleChanged /\ rest <> [] /\ new <> []))).
Proof using rng_ok.
  intros [Hu32 Hbd]. revert b st acc. induction leaders as [|l leaders IH];
    intros b st acc Hb Hst Hs Hin; simpl.
  { split; [done|]. exists [], []. rewrite app_nil_r. split_and!; [done|constructor|done|by left]. }
  apply StronglySorted_inv in Hs as [Hs Hlt]. rewrite Forall_forall in Hlt.
  destruct (Hin l ltac:(left)) as (Hl & Hr & Hev). pose proof (so_committed _ _ Hst).
  destruct (runs_Ret _ _ (wp_commit_sub_dag c b st l Hb Hst Hl ltac:(lia) (Hbd (cert_round l) ltac:(lia))))
    as ([[[b' st'] s] changed] & Hone & Hb' & _ & Hst' & Hc).
  rewrite Hone. simpl.
  assert (forall subs s'', commit_run c (b', st') subs s'' -> commit_run c (b, st) (s :: subs) s'')
    as Hcons by (intros; apply (commit_run_cons c b st l b' st' s changed); try done; lia).
  destruct (changed && negb (bool_decide (leaders = []))) eqn:Hch.
  - simpl. split; [done|]. exists [s], leaders.
    apply andb_true_iff in Hch as [_ Hne%negb_true_iff%bool_decide_eq_false].
    split_and!; [done|by apply Hcons; constructor| |by right].
    simpl. by rewrite (sc_leader _ _ _ _ _ Hc).
  - eapply wp_mono; [apply IH| |done]; try done.
    + intros x Hx. destruct (Hin x ltac:(by right)) as (Hxd & Hxr & Hxe).
      pose proof (Hlt x Hx) as Hlx. simpl in Hlx. split_and!; try done; [|rewrite (sc_round _ _ _ _ _ Hc); lia|lia].
      apply Hc. split; [done|]. rewrite (so_gc _ _ Hst'), (sc_round _ _ _ _ _ Hc).
      pose proof (so_depth _ _ Hst'). unfold sat_sub. lia.
    + intros [[b'' st''] [o subs]] (Hb'' & new & rest & -> & Hrun & Hleaders & Ho).
      split; [done|]. exists (s :: new), rest. split_and!.
      * by rewrite <- app_assoc.
      * by apply Hcons.
      * simpl. by rewrite (sc_leader _ _ _ _ _ Hc), Hleaders.
      * destruct Ho as [?|(? & ? & ?)]; [by left|by right].
Qed.

(** What [commit_leader] does: nothing, or a run that commits the leaders of
    the round's leader, all of them or as many as the schedule allows. *)
Definition commit_leader_post (b : Bullshark) (st : ConsensusState) (r : Round)
    (b' : Bullshark) (st' : ConsensusState) (o : Outcome) (subs : list CommittedSubDag) : Prop :=
  (subs = [] /\ b' = b /\ st' = st /\ (o = LeaderNotFound \/ o = NotEnoughSupportForLeader)) \/
  exists l rest, found_leader b (dag st) r = Some l /\
    validity_threshold c <= stake_of c (supporters (dag st) (r + 1) (digest l)) /\
    commit_run c (b, st) subs (b', st') /\
    leaders_of b st l = (sd_leader <$> subs) ++ rest /\ subs <> [] /\
    ((o = Commit /\ rest = []) \/ (o = ScheduleChanged /\ rest <> [])).

Lemma wp_commit_leader rmax b st r :
  rounds_ok rmax -> bullshark_ok c b -> state_wf c st ->
  committed_round (last_round st) < r < rmax -> r mod 2 = 0 ->
  is_Some (dag st !! (r + 1)) ->
  runs (commit_leader b r st) (fun '(b', st', (o, subs)) =>
    bullshark_ok c b' /\ commit_leader_post b st r b' st' o subs).
Proof using rng_ok.
  intros Hrm Hb Hst Hr Hev [m Hm]. pose proof (so_committed _ _ Hst). unfold commit_leader.
  destruct (leader_certificate_Ret c b r (dag st) Hb ltac:(lia) Hev) as (a & Ha & ->). simpl.
  destruct (found_leader b (dag st) r) as [l|] eqn:Hf.
  2: { simpl. split; [done|]. left. auto. }
  destruct (found_leader_in_dag c b _ _ _ _ (so_dag _ _ Hst) Hf) as [Hl Hlr].
  apply wp_bind, wp_uadd; [destruct Hrm; lia|]. apply wp_bind, (wp_expect _ m); [done|].
  rewrite (bo_committee _ _ Hb).
  rewrite (leader_support_Ret c (bo_wf _ _ Hb) _ _ _ _ _ (so_dag _ _ Hst) Hm). simpl.
  destruct (Z.ltb_spec (stake_of c (supporters (dag st) (r + 1) (digest l)))
    (validity_threshold c)) as [Hlow|Hsup]; [simpl; split; [done|]; left; auto|].
  rewrite (order_leaders_Ret c b st l Hb Hst Hl) by (destruct Hrm; subst r; try done; lia). simpl.
  destruct (leaders_of_ok c b st l Hst Hl ltac:(lia) ltac:(by subst r)) as [Hs Hin].
  eapply wp_mono; [apply (wp_commit_loop rmax)| |done]; try done.
  { intros x (? & ? & ?)%Hin. split_and!; try done; lia. }
  intros [[b' st'] [o subs]] (Hb' & new & rest & Hsubs & Hrun & Hleaders & Ho).
  simpl in Hsubs. subst new. split; [done|]. right. exists l, rest. split_and!; try done.
  - destruct Ho as [[-> ->]|(_ & _ & ?)]; [|done]. intros ->. simpl in Hleaders.
    by apply app_nil in Hleaders as [_ ?].
  - destruct Ho as [?|(? & ? & _)]; [by left|by right].
Qed.

(** The retry loop ends: every retry has raised the committed round, which
    stays below the round of the leader that triggers the commit. *)
Lemma wp_process_loop rmax fuel b st r acc x :
  rounds_ok rmax -> bullshark_ok c b -> state_wf c st ->
  committed_round (last_round st) < r < rmax -> r mod 2 = 0 ->
  in_dag (dag st) x -> cert_round x = r + 1 ->
  (Z.to_nat (r - committed_round (last_round st)) <= fuel)%nat ->
  runs (process_loop fuel b r st acc) (fun '(b', st', (o, subs)) =>
    bullshark_ok c b' /\ exists new, subs = acc ++ new /\
    commit_run c (b, st) new (b', st') /\ o <> ScheduleChanged /\
    committed_round (last_round st') <= r /\
    (o = Commit -> new <> [] /\ committed_round (last_round st') = r)).
Proof using rng_ok.
  intros Hrm. revert b st acc. induction fuel as [|fuel IH]; intros b st acc Hb Hst Hr Hev Hx Hxr Hf;
    [lia|]. simpl.
  assert (is_Some (dag st !! (r + 1))) as Hnext.
  { unfold in_dag, dag_at in Hx. rewrite Hxr in Hx. by destruct (dag st !! (r + 1)). }
  destruct (runs_Ret _ _ (wp_commit_leader rmax b st r Hrm Hb Hst Hr Hev Hnext))
    as ([[b' st'] [o subs]] & Hone & Hb' & Hpost).
  rewrite Hone. simpl.
  destruct Hpost as [(-> & -> & -> & Ho)|(l & rest & Hfl & _ & Hrun & Hleaders & Hne & Ho)].
  { rewrite decide_False by (destruct Ho as [->| ->]; done). simpl. split; [done|].
    exists []. split_and!; [done|constructor|by destruct Ho as [->| ->]|lia|].
    by destruct Ho as [->| ->]. }
  destruct (found_leader_in_dag c b _ _ _ _ (so_dag _ _ Hst) Hfl) as [Hl Hlr].
  destruct (leaders_of_ok c b st l Hst Hl ltac:(lia) ltac:(by subst r)) as [Hs Hin].
  destruct (commit_run_gc c _ _ _ Hrun Hst) as (Hst' & _ & Hdep). simpl in Hst', Hdep.
  destruct Ho as [[-> ->]|[-> Hrest]].
  - rewrite decide_False by done. simpl. split; [done|]. exists subs.
    assert (committed_round (last_round st') = r) as Hcr;
      [|split_and!; [done|done|done|lia|by intros _]].
    rewrite app_nil_r in Hleaders. rewrite <- Hlr. apply (Some_inj (A := Z)).
    pose proof (commit_run_last c _ _ _ Hrun Hne) as Hlast. simpl in Hlast. rewrite <- Hlast.
    change (leader_round <$> subs) with ((cert_round ∘ sd_leader) <$> subs).
    rewrite list_fmap_compose, <- Hleaders, fmap_last.
    unfold leaders_of. by rewrite last_snoc.
  - rewrite decide_True by done.
    assert (committed_round (last_round st) < committed_round (last_round st') < r) as Hlt.
    { destruct (run_before_rest c _ _ _ _ Hrun Hne Hrest ltac:(by rewrite <- Hleaders))
        as (y & Hy & ? & ?).
      destruct (Hin y) as (_ & ? & _); [rewrite Hleaders; apply elem_of_app; by right|].
      simpl in *. lia. }
    assert (in_dag (dag st') x) as Hx'.
    { apply (commit_run_kept c _ _ _ x Hrun Hst Hx). simpl.
      rewrite (so_gc _ _ Hst'). unfold sat_sub. pose proof (so_depth _ _ Hst').
      pose proof (so_committed _ _ Hst). lia. }
    eapply wp_mono; [apply (IH b' st' (acc ++ subs)); try done; lia| |done].
    intros [[b'' st''] [o subs']] (Hb'' & new & -> & Hrun' & Ho & Hle & Hc). split; [done|].
    exists (subs ++ new). split_and!; [by rewrite app_assoc|by eapply commit_run_app|done|done|].
    intros Hcm. destruct (Hc Hcm) as [_ ?]. split; [|done]. by destruct subs.
Qed.

End process.

Section process_certificate.
Context `{!Crypto} {rng : Rng} {rng_ok : RngOk} (c : Committee).

Lemma wp_report_leader b r :
  bullshark_ok c b -> 0 <= r ->
  runs (report_leader_on_time_metrics b r) (fun b' =>
    bullshark_ok c b' /\ leader_schedule b' = leader_schedule b).
Proof using rng_ok.
  intros Hb Hr. unfold report_leader_on_time_metrics. apply wp_bind.
  apply (wp_mono _ (fun _ => True) _ (fun _ => False)); [|intros [] _|done].
  - destruct (_ && _) eqn:Hc; [|done].
    rewrite !andb_true_iff, !Z.ltb_lt in Hc. destruct Hc as [[_ Hev] H2].
    unfold is_multiple_of in Hev. simpl in Hev. apply Z.eqb_eq in Hev.
    apply wp_bind, wp_usub; [lia|]. apply wp_bind.
    destruct (leader_certificate_Ret c b (r - 2) ∅ Hb ltac:(lia)) as (a & -> & _); [|done].
    by rewrite Zminus_mod, Hev.
  - simpl. destruct Hb. by split; [split|].
Qed.

Lemma wp_process_inserted rmax b st x :
  rounds_ok c rmax -> bullshark_ok c b -> state_wf c st -> in_dag (dag st) x ->
  0 < cert_round x <= rmax ->
  runs (process_inserted b st x) (fun '(b', st', (o, subs)) =>
    bullshark_ok c b' /\ o <> ScheduleChanged /\
    (subs <> [] -> o = Commit /\ committed_round (last_round st') < cert_round x) /\
    (o = Commit -> subs <> []) /\
    exists b1, leader_schedule b1 = leader_schedule b /\ commit_run c (b1, st) subs (b', st')).
Proof using rng_ok.
  intros Hrm Hb Hst Hx Hr. unfold process_inserted.
  apply wp_bind. eapply wp_mono; [apply wp_report_leader; [done|lia]| |done].
  intros b1 [Hb1 Hsch]. apply wp_bind, wp_usub; [lia|].
  assert (forall o, o <> ScheduleChanged -> o <> Commit ->
    bullshark_ok c b1 /\ o <> ScheduleChanged /\
    (([] : list CommittedSubDag) <> [] -> o = Commit /\ committed_round (last_round st) < cert_round x) /\
    (o = Commit -> ([] : list CommittedSubDag) <> []) /\
    exists b1', leader_schedule b1' = leader_schedule b /\ commit_run c (b1', st) [] (b1, st))
    as Hnone by (intros o ??; split_and!; try done; exists b1; split; [done|constructor]).
  destruct (negb (is_multiple_of (cert_round x - 1) 2) || (cert_round x - 1 <? 2)) eqn:Hodd;
    [by apply Hnone|].
  apply orb_false_iff in Hodd as [Hev%negb_false_iff H2%Z.ltb_ge].
  unfold is_multiple_of in Hev. simpl in Hev. apply Z.eqb_eq in Hev.
  destruct (Z.leb_spec (cert_round x - 1) (committed_round (last_round st))) as [|Hlt];
    [by apply Hnone|]. pose proof (so_committed _ _ Hst).
  apply wp_bind. eapply wp_mono; [apply (wp_process_loop c rmax _ _ _ _ _ x)| |done]; try done; try lia.
  intros [[b2 st2] [o subs]] (Hb2 & new & -> & Hrun & Ho & Hle & Hcm). simpl in *.
  case_bool_decide as Hne; simpl; split_and!; try done.
  - by intros [? _]%Hcm.
  - by exists b1.
  - intros _. split; [done|lia].
  - by exists b1.
Qed.

(** What [process_certificate] returns: a failed insertion, or a run of
    commits from the state with the certificate in it. *)
Lemma process_certificate_spec rmax b st x :
  rounds_ok c rmax -> bullshark_ok c b -> state_wf c st -> incoming_ok c (dag st) x ->
  cert_round x <= rmax ->
  match process_certificate b st x with
  | (b', st', Ret (o, subs)) =>
      bullshark_ok c b' /\ state_wf c st' /\ (state_ok c st -> state_ok c st') /\
      o <> ScheduleChanged /\ (o = Commit <-> subs <> []) /\
      exists b1 st1, leader_schedule b1 = leader_schedule b /\ state_wf c st1 /\
        (try_insert st x).1 = st1 /\ last_committed st1 = last_committed st /\
        last_round st1 = last_round st /\
        last_committed_sub_dag st1 = last_committed_sub_dag st /\
        commit_run c (b1, st1) subs (b', st')
  | (b', _, Err (MissingParent _ y)) | (b', _, Err (MissingParentRound y)) => b' = b /\ y = x
  | (b', _, Err (CertificateEquivocation y _)) => b' = b /\ y = x
  | (_, _, Err StoreError) | (_, _, Err ShuttingDown) | (_, _, Panic) | (_, _, Diverge) => False
  end.
Proof using rng_ok.
  intros Hrm Hb Hst Hin Hr. unfold process_certificate.
  assert (0 <= gc_round (last_round st)) as Hgc by (rewrite (so_gc _ _ Hst); unfold sat_sub; lia).
  pose proof (try_insert_state_wf c st x) as Hkeep.
  pose proof (try_insert_in_dag_spec c (last_committed st) _ _ x (so_dag _ _ Hst) Hgc Hin) as Hspec.
  unfold try_insert in *.
  destruct Hspec as [[Hle Hres]|[(Hlt & Hpp & Hsame & Hres)|[(_ & _ & e & _ & _ & _ & _ & Hres)|
    [(_ & p & _ & _ & Hres)|(_ & _ & Hres)]]]]; rewrite Hres in *; try done.
  - destruct (Hkeep _ _ Hst Hin eq_refl) as (Hst' & ? & ? & ? & ? & _ & Hcl).
    split_and!; try done; [intros [_ ?]; by split|].
    exists b, (set_dag st (dag st)). split_and!; try done. constructor.
  - destruct (Hkeep _ _ Hst Hin eq_refl) as (Hst' & ? & ? & ? & ? & Hx & Hcl).
    specialize (Hx Hlt). set (st1 := set_dag st (dag_insert (dag st) x)) in *.
    destruct (_ <? cert_round x).
    + destruct (runs_Ret _ _ (wp_process_inserted rmax b st1 x Hrm Hb Hst' Hx ltac:(lia)))
        as ([[b' st'] [o subs]] & -> & Hb' & Ho & Hne & Hcm & b1 & Hb1 & Hrun).
      destruct (commit_run_gc c _ _ _ Hrun Hst') as (Hst'' & _ & _). simpl in Hst''.
      split_and!; try done; [|split; [done|by intros [? _]%Hne]|].
      * intros [_ Hcl0]. split; [done|].
        by apply (commit_run_closed c _ _ _ Hrun Hst'), Hcl.
      * exists b1, st1. by split_and!.
    + split_and!; try done; [intros [_ ?]; split; [done|by apply Hcl]|].
      exists b, st1. split_and!; try done. constructor.
Qed.

End process_certificate.

(** ** A concrete protocol state

    Authority 1's certificate of round 9 is in the DAG; the one of authority 2
    completes the support of the leader of round 8, authority 4. *)
Definition example_bullshark : Bullshark :=
  Bullshark_new example_committee 100
    {| ls_committee := example_committee; leader_swap_table := LeaderSwapTable_default |} 33.
Definition example_before : ConsensusState := example_state_of (take 25 example_store).
Definition example_trigger : Certificate := example_cert 2 9 [8001; 8002; 8003; 8004].

Lemma example_bullshark_ok : bullshark_ok example_committee example_bullshark.
Proof.
  split; simpl; try done; [exact example_committee_wf|].
  split; simpl; try done. intros a Ha. inversion Ha.
Qed.

Lemma example_rounds_ok : rounds_ok example_committee 100.
Proof.
  split; [unfold u32_max; lia|]. intros r Hr. unfold score_bound_ok.
  assert (committee_size example_committee = 4) as -> by (vm_compute; reflexivity).
  unfold u64_max. repeat split; nia.
Qed.

Lemma example_before_ok : state_ok (H := example_crypto) example_committee example_before.
Proof. apply (example_state_of_ok (take 25 example_store)); vm_compute; reflexivity. Qed.

Lemma example_trigger_ok :
  incoming_ok (H := example_crypto) example_committee (dag example_before) example_trigger.
Proof.
  split; [vm_compute; eexists; reflexivity|split; vm_compute; discriminate|].
  apply (in_dag_Forall (H := example_crypto) (fun y => _ -> _ /\ _)).
  apply (bool_decide_unpack (Forall (fun y => _ -> _ /\ _) _)). vm_compute. exact I.
Qed.

(** ** Properties *)

(** C9: [process_certificate] never panics (no assertion, [expect], overflow or
    division fails) and its retry loop terminates, for every certificate of a
    committee member without digest collision while rounds stay in the range of
    the reputation statistics. It keeps the invariants of the state and of the
    schedule, never returns [ScheduleChanged], and returns [Commit] exactly when
    it returns sub-DAGs. These are committed one after the other, starting from
    the state with the certificate inserted: each is the commit of a certificate
    of the DAG of an even round above the last committed one and holds, once each
    and in the order of rounds, exactly its [sub_dag]: the certificates its
    parent links reach over certificates that were neither committed before nor
    in the collected rounds. Its only errors are missing parents and
    equivocation of the given certificate, which leave the protocol
    unchanged. *)
Theorem process_certificate_safe `{!Crypto} {rng : Rng} {rng_ok : RngOk} c rmax b st x :
  rounds_ok c rmax -> bullshark_ok c b -> state_wf c st -> incoming_ok c (dag st) x ->
  cert_round x <= rmax ->
  match process_certificate b st x with
  | (b', st', Ret (o, subs)) =>
      bullshark_ok c b' /\ state_wf c st' /\ (state_ok c st -> state_ok c st') /\
      o <> ScheduleChanged /\ (o = Commit <-> subs <> []) /\
      exists b1, leader_schedule b1 = leader_schedule b /\
        commit_run c (b1, (try_insert st x).1) subs (b', st')
  | (b', _, Err (MissingParent _ y)) | (b', _, Err (MissingParentRound y))
  | (b', _, Err (CertificateEquivocation y _)) => b' = b /\ y = x
  | (_, _, Err StoreError) | (_, _, Err ShuttingDown) | (_, _, Panic) | (_, _, Diverge) => False
  end.
Proof.
  intros Hrm Hb Hst Hin Hr. pose proof (process_certificate_spec c rmax b st x Hrm Hb Hst Hin Hr) as Hs.
  destruct (process_certificate b st x) as [[b' st'] [[o subs]|[]| |]]; try done.
  destruct Hs as (? & ? & ? & ? & ? & b1 & st1 & ? & _ & <- & _ & _ & _ & ?). split_and!; try done. by exists b1.
Qed.

Lemma process_certificate_safe_witness :
  match process_certificate (H := example_crypto) (rng := example_rng)
          example_bullshark example_before example_trigger with
  | (b', st', Ret (o, subs)) =>
      state_wf (H := example_crypto) example_committee st' /\ o = Commit /\ length subs = 1%nat /\
      exists b1, commit_run (H := example_crypto) (rng := example_rng) example_committee
        (b1, (try_insert (H := example_crypto) example_before example_trigger).1) subs (b', st')
  | _ => False
  end.
Proof.
  pose proof (process_certificate_safe (H := example_crypto) (rng := example_rng)
    (rng_ok := example_rng_ok) example_committee 100 example_bullshark example_before
    example_trigger example_rounds_ok example_bullshark_ok example_before_ok
    example_trigger_ok ltac:(vm_compute; discriminate)) as Hs.
  destruct (process_certificate (H := example_crypto) (rng := example_rng)
    example_bullshark example_before example_trigger) as [[b' st'] r] eqn:Hp.
  assert (match r with Ret (o, subs) => o = Commit /\ length subs = 1%nat | _ => False end) as Ho.
  { apply (f_equal snd) in Hp. cbn [snd] in Hp. rewrite <- Hp. vm_compute. split; reflexivity. }
  destruct r as [[o subs]|e| |]; try contradiction. destruct Ho as [Ho Hl].
  destruct Hs as (_ & Hst & _ & _ & _ & b1 & _ & Hrun).
  split; [exact Hst|]. split; [exact Ho|]. split; [exact Hl|]. exists b1. exact Hrun.
Defined.

(** every certificate is committed at most once: the certificates of the
    sub-DAGs one call returns have distinct digests, none of them was committed
    before the call, and all of them count as committed after it. *)
Theorem commits_exactly_once `{!Crypto} {rng : Rng} {rng_ok : RngOk} c rmax b st x b' st' o subs :
  rounds_ok c rmax -> bullshark_ok c b -> state_wf c st -> incoming_ok c (dag st) x ->
  cert_round x <= rmax ->
  process_certificate b st x = (b', st', Ret (o, subs)) ->
  NoDup (digest <$> committed_certificates subs) /\
  forall y, y ∈ committed_certificates subs ->
    already_committed (last_committed st) y = false /\
    already_committed (last_committed st') y = true.
Proof.
  intros Hrm Hb Hst Hin Hr Hp.
  pose proof (process_certificate_spec c rmax b st x Hrm Hb Hst Hin Hr) as Hs. rewrite Hp in Hs.
  destruct Hs as (_ & _ & _ & _ & _ & b1 & st1 & _ & Hst1 & _ & <- & _ & _ & Hrun).
  split; [exact (commit_run_nodup c (b1, st1) _ _ _ (so_dag _ _ Hst1) Hrun)|].
  intros y Hy. by destruct (commit_run_certificates c _ _ _ y Hrun Hy) as (_ & ? & ?).
Qed.

Lemma commits_exactly_once_witness :
  exists b' st' subs,
    process_certificate (H := example_crypto) (rng := example_rng)
      example_bullshark example_before example_trigger = (b', st', Ret (Commit, subs)) /\
    NoDup (digest (H := example_crypto) <$> committed_certificates subs) /\
    length (committed_certificates subs) = 9%nat.
Proof.
  destruct (process_certificate (H := example_crypto) (rng := example_rng)
    example_bullshark example_before example_trigger) as [[b' st'] r] eqn:Hp.
  assert (match r with
          | Ret (o, subs) => o = Commit /\ length (committed_certificates subs) = 9%nat
          | _ => False end) as Ho.
  { apply (f_equal snd) in Hp. cbn [snd] in Hp. rewrite <- Hp. vm_compute. split; reflexivity. }
  destruct r as [[o subs]|e| |]; try contradiction. destruct Ho as [-> Hlen].
  exists b', st', subs. split; [reflexivity|]. split; [|exact Hlen].
  exact (proj1 (commits_exactly_once (H := example_crypto) (rng := example_rng)
    (rng_ok := example_rng_ok) example_committee 100 example_bullshark example_before
    example_trigger b' st' Commit subs example_rounds_ok example_bullshark_ok example_before_ok
    example_trigger_ok ltac:(vm_compute; discriminate) Hp)).
Defined.

(** sub-DAGs are committed in the order of their leaders: the leader rounds
    of one call are even, strictly increasing and above the committed round,
    the committed round becomes the last of them, and the commit timestamps
    never go back. *)
Theorem commits_in_leader_order `{!Crypto} {rng : Rng} {rng_ok : RngOk} c rmax b st x b' st' o subs :
  rounds_ok c rmax -> bullshark_ok c b -> state_wf c st -> incoming_ok c (dag st) x ->
  cert_round x <= rmax ->
  process_certificate b st x = (b', st', Ret (o, subs)) ->
  StronglySorted Z.lt (committed_round (last_round st) :: (leader_round <$> subs)) /\
  Forall (fun r => r mod 2 = 0) (leader_round <$> subs) /\
  last (committed_round (last_round st) :: (leader_round <$> subs)) =
    Some (committed_round (last_round st')) /\
  StronglySorted Z.le (last_timestamp st :: (sd_commit_timestamp <$> subs)).
Proof.
  intros Hrm Hb Hst Hin Hr Hp.
  pose proof (process_certificate_spec c rmax b st x Hrm Hb Hst Hin Hr) as Hs. rewrite Hp in Hs.
  destruct Hs as (_ & _ & _ & _ & _ & b1 & st1 & _ & Hst1 & _ & _ & <- & Hsub & Hrun).
  destruct (commit_run_rounds c _ _ _ Hrun) as (? & ? & ?).
  split_and!; try done. pose proof (commit_run_timestamps c _ _ _ Hrun) as Hts.
  unfold last_timestamp in *. simpl in Hts. by rewrite Hsub in Hts.
Qed.

Lemma commits_in_leader_order_witness :
  exists b' st' subs,
    process_certificate (H := example_crypto) (rng := example_rng)
      example_bullshark example_before example_trigger = (b', st', Ret (Commit, subs)) /\
    Forall (fun r => r mod 2 = 0) (leader_round <$> subs) /\ leader_round <$> subs = [8].
Proof.
  destruct (process_certificate (H := example_crypto) (rng := example_rng)
    example_bullshark example_before example_trigger) as [[b' st'] r] eqn:Hp.
  assert (match r with
          | Ret (o, subs) => o = Commit /\ leader_round <$> subs = [8]
          | _ => False end) as Ho.
  { apply (f_equal snd) in Hp. cbn [snd] in Hp. rewrite <- Hp. vm_compute. split; reflexivity. }
  destruct r as [[o subs]|e| |]; try contradiction. destruct Ho as [-> Hlen].
  exists b', st', subs. split; [reflexivity|]. split; [|exact Hlen].
  exact (proj1 (proj2 (commits_in_leader_order (H := example_crypto) (rng := example_rng)
    (rng_ok := example_rng_ok) example_committee 100 example_bullshark example_before
    example_trigger b' st' Commit subs example_rounds_ok example_bullshark_ok example_before_ok
    example_trigger_ok ltac:(vm_compute; discriminate) Hp))).
Defined.
