(* ===== verification/BullsharkSafety.v ===== *)
(** * Safety of the commit rule

    Two nodes with different DAGs that start from the same commit point commit
    the same leaders and the same certificates: a leader that one node commits
    directly is in the causal history of every leader the other node commits
    later (quorum intersection), the walk of [order_leaders] selects the same
    leaders below it, and [order_dag] flattens them alike. *)
From S2P Require Import Prelude Types Committee LeaderSchedule ConsensusState ConsensusStateProps Bullshark.

(** ** Two views of the DAG *)

(** Two views hold no conflicting certificates of one author and round. *)
Definition no_equivocation `{!Crypto} (d1 d2 : Dag) : Prop :=
  forall x y, in_dag d1 x -> in_dag d2 y -> cert_round x = cert_round y -> origin x = origin y ->
  cert_equiv x y.

(** Certificates above the garbage-collection boundary have parents of a
    quorum of authorities. *)
Definition quorum_parents `{!Crypto} (c : Committee) (gc : Round) (d : Dag) : Prop :=
  forall x, in_dag d x -> gc + 1 < cert_round x ->
  exists Q, quorum_threshold c <= stake_of c Q /\
    forall a, a ∈ Q -> exists y, dag_edge d x y /\ origin y = a.

Section two_views.
Context `{!Crypto} (c : Committee) (Hwf : committee_wf c).

Lemma cert_equiv_parents x y : cert_equiv x y -> cert_parents x = cert_parents y.
Proof. intros [_ Hf]. unfold cert_parents. by rewrite Hf. Qed.

Lemma cert_equiv_round x y : cert_equiv x y -> cert_round x = cert_round y.
Proof. intros [_ Hf]. unfold cert_round. by rewrite Hf. Qed.

Lemma cert_equiv_origin x y : cert_equiv x y -> origin x = origin y.
Proof. intros [_ Hf]. unfold origin. by rewrite Hf. Qed.

Lemma no_equivocation_sym d1 d2 : no_equivocation d1 d2 -> no_equivocation d2 d1.
Proof. intros Hne x y Hx Hy Hr Ho. symmetry. by apply Hne. Qed.

Lemma digests_agree_sym d1 d2 : digests_agree d1 d2 -> digests_agree d2 d1.
Proof. intros Ha x y Hx Hy Hd. symmetry. by apply Ha. Qed.

(** A path in one view exists in every other view that has its start. *)
Lemma dag_path_transfer gc2 d1 d2 x1 x2 y1 :
  digests_agree d1 d2 -> dag_closed gc2 d2 ->
  dag_path d1 x1 y1 -> cert_equiv x1 x2 -> in_dag d2 x2 -> gc2 < cert_round y1 ->
  exists y2, dag_path d2 x2 y2 /\ cert_equiv y1 y2.
Proof.
  intros Hag Hcl Hp. revert x2. induction Hp as [x1|x1 z1 y1 (Hz1 & Hzr & Hzp) Hp IH];
    intros x2 Hx Hx2 Hgc; [exists x2; split; [constructor|done]|].
  pose proof (cert_equiv_round _ _ Hx) as Hxr.
  assert (cert_round y1 <= cert_round z1) by (destruct (dag_path_round _ _ _ Hp) as [->|]; lia).
  destruct (Hcl x2 (digest z1) Hx2) as (z2 & Hz2 & Hz2r & Hd).
  { lia. }
  { by rewrite <- (cert_equiv_parents _ _ Hx). }
  destruct (IH z2) as (y2 & Hy2 & Hy); [by apply Hag|done..|].
  exists y2. split; [|done]. eapply rtc_l; [|exact Hy2]. split_and!; [done..|].
  rewrite Hd, <- (cert_equiv_parents _ _ Hx). done.
Qed.

(** Every certificate has a descendant in each earlier round. *)
Lemma quorum_path_down gc d x r :
  quorum_parents c gc d -> in_dag d x -> gc < r <= cert_round x ->
  exists y, dag_path d x y /\ cert_round y = r.
Proof using Hwf.
  intros Hq Hx Hr. remember (Z.to_nat (cert_round x - r)) as n eqn:Hn.
  revert x Hx Hr Hn. induction n as [|n IH]; intros x Hx Hr Hn.
  { exists x. split; [constructor|lia]. }
  destruct (Hq x Hx ltac:(lia)) as (Q & HQ & Hedges).
  destruct (decide (Q = ∅)) as [->|(a & Ha)%set_choose_L].
  { unfold stake_of in HQ. rewrite wsum_empty in HQ.
    destruct (quorum_gt_faulty c Hwf). lia. }
  destruct (Hedges a Ha) as (y & Hxy & _). pose proof Hxy as (Hy & Hyr & _).
  destruct (IH y Hy ltac:(lia) ltac:(lia)) as (z & Hz & Hzr).
  exists z. split; [by eapply rtc_l|done].
Qed.

(** The commit rule: a certificate supported in one view by [f + 1] voting
    power has a path from every certificate two rounds later or more, in every
    view. *)
Lemma supported_has_path gc1 gc2 d1 d2 l1 x2 :
  dag_ok c gc1 d1 -> dag_ok c gc2 d2 -> no_equivocation d1 d2 -> digests_agree d1 d2 ->
  dag_closed gc2 d2 -> quorum_parents c gc2 d2 ->
  in_dag d1 l1 ->
  validity_threshold c <= stake_of c (supporters d1 (cert_round l1 + 1) (digest l1)) ->
  in_dag d2 x2 -> cert_round l1 + 1 < cert_round x2 -> gc2 < cert_round l1 ->
  exists l2, dag_path d2 x2 l2 /\ cert_equiv l1 l2.
Proof using Hwf.
  intros Hok1 Hok2 Hne Hag Hcl Hq Hl1 Hsup Hx2 Hr Hgc.
  destruct (quorum_path_down gc2 d2 x2 (cert_round l1 + 2) Hq Hx2 ltac:(lia))
    as (y & Hxy & Hyr).
  assert (in_dag d2 y) as Hy by (by apply (dag_path_in_dag d2 x2)).
  destruct (Hq y Hy ltac:(lia)) as (Q & HQ & Hedges).
  destruct (quorum_meets_validity c Hwf Q
    (supporters d1 (cert_round l1 + 1) (digest l1)) HQ Hsup) as (a & HaQ & HaS).
  destruct (Hedges a HaQ) as (p2 & Hyp & Ho). pose proof Hyp as (Hp2 & Hp2r & _).
  apply (elem_of_supporters c gc1) in HaS as (p1 & Hp1 & Hp1r & Hp1o & Hlp); [|done].
  assert (cert_equiv p1 p2) as Hp by (apply Hne; try done; [lia|congruence]).
  rewrite (cert_equiv_parents _ _ Hp) in Hlp.
  destruct (Hcl p2 (digest l1) Hp2 ltac:(lia) Hlp) as (l2 & Hl2 & Hl2r & Hd).
  exists l2. split; [|by apply Hag].
  unfold dag_path in *. etransitivity; [exact Hxy|]. eapply rtc_l; [exact Hyp|].
  apply rtc_once. split_and!; [done..|]. by rewrite Hd.
Qed.

End two_views.

(** ** Agreement on leaders *)

Section leader_agreement.
Context `{!Crypto} {rng : Rng} {rng_ok : RngOk} (c : Committee).

Lemma found_leader_origin b fl d r x :
  dag_ok c fl d -> found_leader b d r = Some x ->
  exists a, leader (E := ConsensusError) (leader_schedule b) r = Ret a /\ origin x = id a.
Proof.
  intros Hok. unfold found_leader. destruct (leader _ r) as [a| | |]; try done.
  rewrite fmap_Some. intros ([dg y] & Hat & ->). exists a. split; [done|].
  by destruct (dag_at_in_dag _ _ _ _ _ _ _ Hok Hat) as (_ & _ & _ & ?).
Qed.

(** The leader of a round found in one view is found in every view that has a
    certificate of its author. *)
Lemma found_leader_transfer b1 b2 fl d1 d2 r x1 x2 :
  dag_ok c fl d1 -> leader_schedule b1 = leader_schedule b2 ->
  found_leader b1 d1 r = Some x1 -> in_dag d2 x2 -> cert_equiv x1 x2 ->
  found_leader b2 d2 r = Some x2.
Proof.
  intros Hok Hs Hf Hx2 Hx. pose proof (found_leader_in_dag c b1 _ _ _ _ Hok Hf) as [_ Hr].
  destruct (found_leader_origin _ _ _ _ _ Hok Hf) as (a & Ha & Ho).
  unfold found_leader. rewrite <- Hs, Ha.
  rewrite <- Ho, <- Hr, (cert_equiv_round _ _ Hx), (cert_equiv_origin _ _ Hx).
  unfold in_dag in Hx2. by rewrite Hx2.
Qed.

Context (b1 b2 : Bullshark) (st1 st2 : ConsensusState).
Context (Hsched : leader_schedule b1 = leader_schedule b2).
Context (Hst1 : state_ok c st1) (Hst2 : state_ok c st2).
Context (Hcom : committed_round (last_round st1) = committed_round (last_round st2)).
Context (Hag : digests_agree (dag st1) (dag st2)).
Context (Hne : no_equivocation (dag st1) (dag st2)).

(** The same leader in both views. *)
Definition same_leader (x1 x2 : Certificate) : Prop :=
  cert_equiv x1 x2 /\ in_dag (dag st1) x1 /\ in_dag (dag st2) x2.

Lemma above_gc r : committed_round (last_round st1) < r ->
  gc_round (last_round st1) < r /\ gc_round (last_round st2) < r.
Proof using Hst1 Hst2 Hcom.
  intros Hr. rewrite (so_gc _ _ Hst1), (so_gc _ _ Hst2).
  pose proof (so_depth _ _ Hst1). pose proof (so_depth _ _ Hst2).
  pose proof (so_committed _ _ Hst1). unfold sat_sub. lia.
Qed.

Lemma linked_agree x1 x2 y1 y2 :
  same_leader x1 x2 -> same_leader y1 y2 -> committed_round (last_round st1) < cert_round y1 ->
  linked x1 y1 (dag st1) = linked x2 y2 (dag st2).
Proof using Hst1 Hst2 Hcom Hag.
  intros (Hx & Hx1 & Hx2) (Hy & Hy1 & Hy2) Hr. destruct (above_gc _ Hr) as [Hg1 Hg2].
  assert (forall b1 b2 : bool, (b1 = true <-> b2 = true) -> b1 = b2) as Hbool
    by (intros [] [] Hb; naive_solver).
  apply Hbool. rewrite (linked_path c _ _ (so_dag _ _ Hst1)) by done.
  rewrite (linked_path c _ _ (so_dag _ _ Hst2)) by done. split; intros Hp.
  - destruct (dag_path_transfer (gc_round (last_round st2)) (dag st1) (dag st2) x1 x2 y1)
      as (z & Hz & Hyz); try done; [apply Hst2|].
    assert (in_dag (dag st2) z) by (by apply (dag_path_in_dag _ x2)).
    rewrite <- (in_dag_inj c _ _ z y2 (so_dag _ _ Hst2)); try done.
    destruct Hyz as [Hd _], Hy as [Hd' _]. congruence.
  - destruct (dag_path_transfer (gc_round (last_round st1)) (dag st2) (dag st1) x2 x1 y2)
      as (z & Hz & Hyz); try done.
    + by apply digests_agree_sym.
    + apply Hst1.
    + by rewrite <- (cert_equiv_round _ _ Hy).
    + assert (in_dag (dag st1) z) by (by apply (dag_path_in_dag _ x1)).
      rewrite <- (in_dag_inj c _ _ z y1 (so_dag _ _ Hst1)); try done.
      destruct Hyz as [Hd _], Hy as [Hd' _]. congruence.
Qed.

(** A leader missing from one view has no path to it in the other. *)
Lemma linked_missing_r x1 x2 y1 r :
  same_leader x1 x2 -> found_leader b1 (dag st1) r = Some y1 ->
  found_leader b2 (dag st2) r = None -> committed_round (last_round st1) < r ->
  linked x1 y1 (dag st1) = false.
Proof using Hst1 Hst2 Hcom Hag Hsched.
  intros (Hx & Hx1 & Hx2) Hf1 Hf2 Hr. destruct (above_gc _ Hr) as [_ Hg2].
  destruct (linked x1 y1 (dag st1)) eqn:Hl; [|done].
  destruct (found_leader_in_dag c b1 _ _ _ _ (so_dag _ _ Hst1) Hf1) as [Hy1 Hyr].
  apply (linked_path c _ _ (so_dag _ _ Hst1)) in Hl; [|done..].
  destruct (dag_path_transfer (gc_round (last_round st2)) (dag st1) (dag st2) x1 x2 y1)
    as (z & Hz & Hyz); try done; [apply Hst2|lia|].
  rewrite (found_leader_transfer b1 b2 _ _ (dag st2) r y1 z (so_dag _ _ Hst1)) in Hf2; try done.
  by apply (dag_path_in_dag _ x2).
Qed.

End leader_agreement.

(** What two nodes that are about to commit have in common. *)
Record same_commit_point `{!Crypto} (c : Committee) (b1 b2 : Bullshark)
    (st1 st2 : ConsensusState) : Prop := {
  cp_bullshark1 : bullshark_ok c b1;
  cp_bullshark2 : bullshark_ok c b2;
  cp_schedule : leader_schedule b1 = leader_schedule b2;
  cp_state1 : state_ok c st1;
  cp_state2 : state_ok c st2;
  cp_committed : committed_round (last_round st1) = committed_round (last_round st2);
  cp_even : committed_round (last_round st1) mod 2 = 0;
  cp_digests : digests_agree (dag st1) (dag st2);
  cp_honest : no_equivocation (dag st1) (dag st2);
  cp_quorum1 : quorum_parents c (gc_round (last_round st1)) (dag st1);
  cp_quorum2 : quorum_parents c (gc_round (last_round st2)) (dag st2)
}.

(** A round's leader that can be committed directly in a view. *)
Record direct_leader `{!Crypto} {rng : Rng} (c : Committee) (b : Bullshark)
    (st : ConsensusState) (l : Certificate) : Prop := {
  dl_found : found_leader b (dag st) (cert_round l) = Some l;
  dl_even : cert_round l mod 2 = 0;
  dl_round : committed_round (last_round st) < cert_round l;
  dl_support : validity_threshold c <=
    stake_of c (supporters (dag st) (cert_round l + 1) (digest l))
}.

Section prefix.
Context `{!Crypto} {rng : Rng} {rng_ok : RngOk} (c : Committee).

Lemma same_commit_point_sym b1 b2 st1 st2 :
  same_commit_point c b1 b2 st1 st2 -> same_commit_point c b2 b1 st2 st1.
Proof.
  intros []. split; try done; [congruence|..].
  - by apply digests_agree_sym.
  - by apply no_equivocation_sym.
Qed.

(** The leaders that two views find for one round are the same. *)
Lemma found_leaders_same b1 b2 st1 st2 r y1 y2 :
  same_commit_point c b1 b2 st1 st2 ->
  found_leader b1 (dag st1) r = Some y1 -> found_leader b2 (dag st2) r = Some y2 ->
  same_leader st1 st2 y1 y2.
Proof.
  intros [_ _ Hsch Hst1 Hst2 _ _ _ Hhon _ _] Hf1 Hf2.
  destruct (found_leader_in_dag c b1 _ _ _ _ (so_dag _ _ Hst1) Hf1) as [Hy1 Hy1r].
  destruct (found_leader_in_dag c b2 _ _ _ _ (so_dag _ _ Hst2) Hf2) as [Hy2 Hy2r].
  destruct (found_leader_origin c b1 _ _ _ _ (so_dag _ _ Hst1) Hf1) as (a1 & Ha1 & Ho1).
  destruct (found_leader_origin c b2 _ _ _ _ (so_dag _ _ Hst2) Hf2) as (a2 & Ha2 & Ho2).
  split_and!; [|done..]. apply Hhon; congruence.
Qed.

Lemma leaders_below_same b1 b2 st1 st2 l1 l2 rounds :
  same_commit_point c b1 b2 st1 st2 -> same_leader st1 st2 l1 l2 ->
  (forall r, r ∈ rounds -> committed_round (last_round st1) < r) ->
  Forall2 (same_leader st1 st2)
    (leaders_below (found_leader b1 (dag st1)) (fun x y => linked x y (dag st1)) l1 rounds)
    (leaders_below (found_leader b2 (dag st2)) (fun x y => linked x y (dag st2)) l2 rounds).
Proof.
  intros Hcp Hl Hr. pose proof Hcp as [_ _ Hsch Hst1 Hst2 Hcom _ Hdig Hhon _ _].
  apply leaders_below_agree; [done|..].
  - intros r x1 x2 y1 y2 Hrr Hx Hf1 Hf2.
    pose proof (found_leaders_same _ _ _ _ _ _ _ Hcp Hf1 Hf2) as Hy. split; [done|].
    apply (linked_agree c); try done.
    destruct (found_leader_in_dag c b1 _ _ _ _ (so_dag _ _ Hst1) Hf1) as [_ ->]. by apply Hr.
  - intros r x1 x2 y1 Hrr Hx Hf1 Hf2.
    eapply (linked_missing_r c b1 b2 st1 st2); try done. by apply Hr.
  - intros r x1 x2 y2 Hrr (Hx & Hx1 & Hx2) Hf1 Hf2.
    apply (linked_missing_r c b2 b1 st2 st1 (eq_sym Hsch) Hst2 Hst1 (eq_sym Hcom)
      (digests_agree_sym _ _ Hdig) x2 x1 y2 r); try done.
    rewrite <- Hcom. by apply Hr.
Qed.

(** A directly committed leader is reached, in every other view, from every
    certificate two rounds later or more. *)
Lemma direct_leader_reached b1 b2 st1 st2 l1 y :
  same_commit_point c b1 b2 st1 st2 -> direct_leader c b1 st1 l1 ->
  in_dag (dag st2) y -> cert_round l1 + 1 < cert_round y ->
  exists x, linked y x (dag st2) = true /\ same_leader st1 st2 l1 x /\
    found_leader b2 (dag st2) (cert_round l1) = Some x.
Proof.
  intros [Hb1 _ Hsch Hst1 Hst2 Hcom _ Hdig Hhon _ Hq2] [Hf1 _ Hr1 Hs1] Hy Hlt.
  destruct (found_leader_in_dag c b1 _ _ _ _ (so_dag _ _ Hst1) Hf1) as [Hl1 _].
  destruct (above_gc c st1 st2 Hst1 Hst2 Hcom _ Hr1) as [_ Hgc].
  destruct (supported_has_path c (bo_wf _ _ Hb1) (gc_round (last_round st1))
    (gc_round (last_round st2)) (dag st1) (dag st2) l1 y) as (x & Hp & Hx);
    try done; [apply Hst1|apply Hst2|apply Hst2|].
  assert (in_dag (dag st2) x) as Hxd by (by apply (dag_path_in_dag _ y)).
  exists x. split_and!; try done.
  - by apply (linked_path c _ _ (so_dag _ _ Hst2)).
  - by apply (found_leader_transfer c b1 b2 _ _ _ _ l1 x (so_dag _ _ Hst1)).
Qed.

(** A directly committed leader and its leaders are a prefix of what any other
    view commits with a later leader. *)
Lemma leaders_of_prefix b1 b2 st1 st2 l1 l2 :
  same_commit_point c b1 b2 st1 st2 -> direct_leader c b1 st1 l1 -> direct_leader c b2 st2 l2 ->
  cert_round l1 <= cert_round l2 ->
  exists pre post, leaders_of b2 st2 l2 = pre ++ post /\
    Forall2 (same_leader st1 st2) (leaders_of b1 st1 l1) pre.
Proof.
  intros Hcp Hd1 [Hf2 He2 Hr2 _] Hle. pose proof Hd1 as [Hf1 He1 Hr1 _].
  pose proof (cp_committed _ _ _ _ _ Hcp) as Hcom. pose proof (cp_state2 _ _ _ _ _ Hcp) as Hst2.
  set (below r x := leaders_below (found_leader b2 (dag st2)) (fun x y => linked x y (dag st2)) x
    (step_by2 (range_rev_incl (committed_round (last_round st2) + 2) (r - 2)))).
  assert (forall x, same_leader st1 st2 l1 x ->
    Forall2 (same_leader st1 st2) (leaders_of b1 st1 l1) (below (cert_round l1) x ++ [x])) as Hsame.
  { intros x Hx. unfold leaders_of. rewrite Hcom.
    apply Forall2_app; [|constructor; [done|constructor]].
    apply leaders_below_same; try done. intros r [? _]%elem_of_even_rounds. lia. }
  destruct (decide (cert_round l1 = cert_round l2)) as [Heq|Hneq].
  { exists (leaders_of b2 st2 l2), []. rewrite app_nil_r. split; [done|].
    unfold leaders_of at 2. rewrite <- Heq. apply Hsame.
    rewrite <- Heq in Hf2. by eapply found_leaders_same. }
  pose proof (Z_div_mod_eq_full (cert_round l1) 2) as Hm1.
  pose proof (Z_div_mod_eq_full (cert_round l2) 2) as Hm2.
  destruct (found_leader_in_dag c b2 _ _ _ _ (so_dag _ _ Hst2) Hf2) as [Hl2 _].
  destruct (direct_leader_reached b1 b2 st1 st2 l1 l2 Hcp Hd1 Hl2 ltac:(lia))
    as (x & Hlk & Hx & Hfx).
  destruct (leaders_below_cut (found_leader b2 (dag st2)) (fun x y => linked x y (dag st2)) l2
    (step_by2 (range_rev_incl (committed_round (last_round st2) + 2) (cert_round l2 - 2)))
    (cert_round l1) x) as [post Hcut].
  - pose proof (cp_even _ _ _ _ _ Hcp) as Hev.
    pose proof (Z_div_mod_eq_full (committed_round (last_round st1)) 2).
    apply elem_of_even_rounds. split; [lia|].
    replace (cert_round l2 - 2 - cert_round l1) with
      (cert_round l2 + (-1) * 2 - cert_round l1) by lia.
    by rewrite Zminus_mod, Z_mod_plus_full, He2, He1.
  - done.
  - apply even_rounds_sorted.
  - done.
  - intros s y [Hs Hse]%elem_of_even_rounds Hlt Hfy.
    destruct (found_leader_in_dag c b2 _ _ _ _ (so_dag _ _ Hst2) Hfy) as [Hy Hyr].
    apply even_below in Hse; [|done]. pose proof (Z_div_mod_eq_full s 2).
    destruct (direct_leader_reached b1 b2 st1 st2 l1 y Hcp Hd1 Hy ltac:(lia))
      as (x' & Hlk' & _ & Hfx'). by simplify_eq.
  - exists (below (cert_round l1) x ++ [x]), (post ++ [l2]). split; [|by apply Hsame].
    unfold leaders_of. rewrite Hcut, filter_even_rounds; [|lia|].
    + by rewrite <- !app_assoc.
    + replace (cert_round l2 - 2 - cert_round l1) with
        (cert_round l2 + (-1) * 2 - cert_round l1) by lia.
      by rewrite Zminus_mod, Z_mod_plus_full, He2, He1.
Qed.

End prefix.

(** ** The first commit of two nodes *)

Section first_commit.
Context `{!Crypto} {rng : Rng} {rng_ok : RngOk} (c : Committee).

(** The heads of two leader lists are the same. *)
Lemma first_leaders_same b1 b2 st1 st2 l1 l2 h1 t1 h2 t2 :
  same_commit_point c b1 b2 st1 st2 -> direct_leader c b1 st1 l1 -> direct_leader c b2 st2 l2 ->
  leaders_of b1 st1 l1 = h1 :: t1 -> leaders_of b2 st2 l2 = h2 :: t2 ->
  same_leader st1 st2 h1 h2.
Proof.
  intros Hcp Hd1 Hd2 He1 He2.
  destruct (decide (cert_round l1 <= cert_round l2)) as [Hle|Hle].
  - destruct (leaders_of_prefix c b1 b2 st1 st2 l1 l2 Hcp Hd1 Hd2 Hle) as (pre & post & Hpre & Hall).
    rewrite He1 in Hall. apply Forall2_cons_inv_l in Hall as (x & pre' & Hx & _ & ->).
    rewrite He2 in Hpre. by injection Hpre as -> _.
  - destruct (leaders_of_prefix c b2 b1 st2 st1 l2 l1) as (pre & post & Hpre & Hall);
      [by apply same_commit_point_sym|done..|lia|].
    rewrite He2 in Hall. apply Forall2_cons_inv_l in Hall as (x & pre' & Hx & _ & ->).
    rewrite He1 in Hpre. injection Hpre as -> _. destruct Hx as (? & ? & ?). by split_and!.
Qed.

(** What the first sub-DAG of [commit_leader] says about the leader. *)
Lemma commit_leader_first rmax b st r b' st' o s subs :
  rounds_ok c rmax -> bullshark_ok c b -> state_ok c st ->
  committed_round (last_round st) < r < rmax -> r mod 2 = 0 -> is_Some (dag st !! (r + 1)) ->
  commit_leader b r st = Ret (b', st', (o, s :: subs)) ->
  exists l h t st1, direct_leader c b st l /\ leaders_of b st l = h :: t /\
    committed_round (last_round st) < cert_round h /\ sub_dag_committed c st h st1 s.
Proof using rng_ok.
  intros Hrm Hb Hst Hr Hev Hnext Hret.
  pose proof (wp_commit_leader c rmax b st r Hrm Hb Hst Hr Hev Hnext) as Hw. rewrite Hret in Hw.
  destruct Hw as (_ & [(? & _)|(l & rest & Hf & Hsup & Hrun & Hleaders & _ & _)]); [done|].
  destruct (found_leader_in_dag c b _ _ _ _ (so_dag _ _ Hst) Hf) as [Hl <-].
  inversion Hrun as [|b0 st0 h b1 st1 s0 ch subs0 s'' Hh Hhr _ _ _ Hc _]; subst.
  exists l, h, ((sd_leader <$> subs) ++ rest), st1. split_and!; try done.
  - split; try done. lia.
  - rewrite Hleaders. simpl. by rewrite (sc_leader _ _ _ _ _ Hc).
Qed.

End first_commit.

(** ** Concrete views *)

(** The example DAG up to round 11: authority 4's round 8 is committed
    directly by the first view, authority 1's round 10 by the second. *)
Definition example_store_long : list Certificate :=
  example_store ++ example_round 10 true ++ example_round 11 true.
Definition example_view1 : ConsensusState := example_state_of example_store.
Definition example_view2 : ConsensusState := example_state_of example_store_long.

Lemma no_equivocation_Forall `{!Crypto} d1 d2 :
  Forall (fun x => Forall (fun y => cert_round x = cert_round y -> origin x = origin y ->
      digest x = digest y /\ fields (header x) = fields (header y)) (snd <$> dag_entries d2))
    (snd <$> dag_entries d1) ->
  no_equivocation d1 d2.
Proof.
  intros Hall x y Hx Hy Hr Ho. pose proof (in_dag_Forall _ _ Hall x Hx) as Hall'.
  by apply (in_dag_Forall _ _ Hall' y Hy).
Qed.

(** The authors of the parents of a certificate. *)
Definition parent_authors `{!Crypto} (d : Dag) (x : Certificate) : gset AuthorityIdentifier :=
  list_to_set (origin <$> filter (fun y => cert_round y = cert_round x - 1 /\
    digest y ∈ cert_parents x) (snd <$> dag_entries d)).

Lemma quorum_parents_Forall `{!Crypto} c gc d :
  dag_ok c gc d ->
  Forall (fun x => gc + 1 < cert_round x ->
    quorum_threshold c <= stake_of c (parent_authors d x)) (snd <$> dag_entries d) ->
  quorum_parents c gc d.
Proof.
  intros Hok Hall x Hx Hr. exists (parent_authors d x).
  split; [by apply (in_dag_Forall _ _ Hall x Hx)|].
  intros a [y [-> Hy]]%elem_of_list_to_set%list_elem_of_fmap.
  apply list_elem_of_filter in Hy as [[Hyr Hyp] Hy].
  apply list_elem_of_fmap in Hy as ([dg y'] & -> & (r & a' & Hat)%elem_of_dag_entries).
  exists y'. split; [|done]. split_and!; try done. by eapply dag_at_in_dag.
Qed.

Lemma example_view1_ok : state_ok (H := example_crypto) example_committee example_view1.
Proof. apply (example_state_of_ok example_store); vm_compute; reflexivity. Qed.

Lemma example_view2_ok : state_ok (H := example_crypto) example_committee example_view2.
Proof. apply (example_state_of_ok example_store_long); vm_compute; reflexivity. Qed.

Lemma example_same_commit_point :
  same_commit_point (H := example_crypto) example_committee example_bullshark example_bullshark
    example_view1 example_view2.
Proof.
  split.
  - exact example_bullshark_ok.
  - exact example_bullshark_ok.
  - reflexivity.
  - exact example_view1_ok.
  - exact example_view2_ok.
  - vm_compute. reflexivity.
  - vm_compute. reflexivity.
  - apply digests_agree_Forall.
    apply (bool_decide_unpack (Forall (fun x => Forall (fun y => _ -> _ = _) _) _)).
    vm_compute. exact I.
  - apply no_equivocation_Forall.
    apply (bool_decide_unpack (Forall (fun x => Forall (fun y => _ -> _ -> _ /\ _) _) _)).
    vm_compute. exact I.
  - apply quorum_parents_Forall; [exact (so_dag (H := example_crypto) _ _ example_view1_ok)|].
    apply (bool_decide_unpack (Forall (fun x => _ -> _ <= _) _)). vm_compute. exact I.
  - apply quorum_parents_Forall; [exact (so_dag (H := example_crypto) _ _ example_view2_ok)|].
    apply (bool_decide_unpack (Forall (fun x => _ -> _ <= _) _)). vm_compute. exact I.
Qed.

(** ** Properties *)

(** C1: total order. Two nodes that start from the same commit point (same
    committed rounds, same schedule) with arbitrary different DAGs, and that
    each commit with [commit_leader] at whatever leader rounds, commit the same
    first leader with the same sequence of certificates, in the same order.
    The DAGs hold no conflicting certificates of one author and round, and
    their certificates have quorums of parents. *)
Theorem next_commit_agreement `{!Crypto} {rng : Rng} {rng_ok : RngOk} c rmax
    b1 b2 st1 st2 r1 r2 b1' b2' st1' st2' o1 o2 s1 s2 subs1 subs2 :
  rounds_ok c rmax -> same_commit_point c b1 b2 st1 st2 ->
  last_round st1 = last_round st2 -> gc_depth st1 = gc_depth st2 ->
  last_committed st1 = last_committed st2 ->
  committed_round (last_round st1) < r1 < rmax -> r1 mod 2 = 0 ->
  committed_round (last_round st2) < r2 < rmax -> r2 mod 2 = 0 ->
  is_Some (dag st1 !! (r1 + 1)) -> is_Some (dag st2 !! (r2 + 1)) ->
  commit_leader b1 r1 st1 = Ret (b1', st1', (o1, s1 :: subs1)) ->
  commit_leader b2 r2 st2 = Ret (b2', st2', (o2, s2 :: subs2)) ->
  cert_equiv (sd_leader s1) (sd_leader s2) /\
  commit_key <$> sd_certificates s1 = commit_key <$> sd_certificates s2.
Proof.
  intros Hrm Hcp Hlr Hdep Hlc Hr1 He1 Hr2 He2 Hn1 Hn2 Hret1 Hret2.
  pose proof Hcp as [Hb1 Hb2 _ Hst1 Hst2 _ _ Hdig _ _ _].
  destruct (commit_leader_first c rmax _ _ _ _ _ _ _ _ Hrm Hb1 Hst1 Hr1 He1 Hn1 Hret1)
    as (l1 & h1 & t1 & st1'' & Hd1 & Hl1 & Hc1 & Hs1).
  destruct (commit_leader_first c rmax _ _ _ _ _ _ _ _ Hrm Hb2 Hst2 Hr2 He2 Hn2 Hret2)
    as (l2 & h2 & t2 & st2'' & Hd2 & Hl2 & Hc2 & Hs2).
  destruct (first_leaders_same c _ _ _ _ _ _ _ _ _ _ Hcp Hd1 Hd2 Hl1 Hl2) as (Hh & Hh1 & Hh2).
  rewrite (sc_leader _ _ _ _ _ Hs1), (sc_leader _ _ _ _ _ Hs2). split; [done|].
  apply (sub_dag_lists_agree c st1 st2 h1 h2); try done; first [apply Hs1|apply Hs2|lia].
Qed.

Lemma next_commit_agreement_witness :
  exists b1' st1' o1 s1 b2' st2' o2 s2 s3,
    commit_leader (H := example_crypto) (rng := example_rng) example_bullshark 8 example_view1 =
      Ret (b1', st1', (o1, [s1])) /\
    commit_leader (H := example_crypto) (rng := example_rng) example_bullshark 10 example_view2 =
      Ret (b2', st2', (o2, [s2; s3])) /\
    cert_equiv (H := example_crypto) (sd_leader s1) (sd_leader s2) /\
    commit_key (H := example_crypto) <$> sd_certificates s1 =
      commit_key (H := example_crypto) <$> sd_certificates s2.
Proof.
  assert (match commit_leader (H := example_crypto) (rng := example_rng) example_bullshark 8
    example_view1 with Ret (_, _, (_, [_])) => True | _ => False end) as Hv1
    by (vm_compute; exact I).
  assert (match commit_leader (H := example_crypto) (rng := example_rng) example_bullshark 10
    example_view2 with Ret (_, _, (_, [_; _])) => True | _ => False end) as Hv2
    by (vm_compute; exact I).
  destruct (commit_leader (H := example_crypto) (rng := example_rng) example_bullshark 8
    example_view1) as [[[b1' st1'] [o1 [|s1 [|]]]]|e| |] eqn:H1; try (exfalso; exact Hv1).
  destruct (commit_leader (H := example_crypto) (rng := example_rng) example_bullshark 10
    example_view2) as [[[b2' st2'] [o2 [|s2 [|s3 [|]]]]]|e| |] eqn:H2; try (exfalso; exact Hv2).
  exists b1', st1', o1, s1, b2', st2', o2, s2, s3. split; [reflexivity|]. split; [reflexivity|].
  apply (next_commit_agreement (H := example_crypto) (rng := example_rng)
    (rng_ok := example_rng_ok) example_committee 100 example_bullshark example_bullshark
    example_view1 example_view2 8 10 b1' b2' st1' st2' o1 o2 s1 s2 [] [s3]).
  - exact example_rounds_ok.
  - exact example_same_commit_point.
  - vm_compute. reflexivity.
  - vm_compute. reflexivity.
  - vm_compute. reflexivity.
  - split; vm_compute; reflexivity.
  - reflexivity.
  - split; vm_compute; reflexivity.
  - reflexivity.
  - vm_compute. eexists. reflexivity.
  - vm_compute. eexists. reflexivity.
  - exact H1.
  - exact H2.
Defined.

(** a leader that one node commits directly is committed by every other
    node: whenever another node at the same commit point orders the leaders of
    a later supported leader, the first node's list of leaders is a prefix of
    the second node's, certificate by certificate. *)
Theorem committed_leaders_prefix `{!Crypto} {rng : Rng} {rng_ok : RngOk} c
    b1 b2 st1 st2 l1 l2 ls1 ls2 :
  same_commit_point c b1 b2 st1 st2 -> direct_leader c b1 st1 l1 -> direct_leader c b2 st2 l2 ->
  cert_round l1 <= cert_round l2 < u32_max ->
  order_leaders b1 l1 st1 = Ret ls1 -> order_leaders b2 l2 st2 = Ret ls2 ->
  exists pre post, ls2 = pre ++ post /\ Forall2 cert_equiv ls1 pre.
Proof.
  intros Hcp Hd1 Hd2 Hr H1 H2. pose proof Hcp as [Hb1 Hb2 _ Hst1 Hst2 _ _ _ _ _ _].
  destruct (found_leader_in_dag c b1 _ _ _ _ (so_dag _ _ Hst1) (dl_found _ _ _ _ Hd1)) as [Hl1 _].
  destruct (found_leader_in_dag c b2 _ _ _ _ (so_dag _ _ Hst2) (dl_found _ _ _ _ Hd2)) as [Hl2 _].
  pose proof (dl_round _ _ _ _ Hd1). pose proof (dl_round _ _ _ _ Hd2).
  rewrite (order_leaders_Ret c) in H1, H2 by
    (first [exact (so_wf _ _ Hst1)|exact (so_wf _ _ Hst2)|done|lia|by destruct Hd1, Hd2]).
  simplify_eq.
  destruct (leaders_of_prefix c _ _ _ _ _ _ Hcp Hd1 Hd2 ltac:(lia)) as (pre & post & -> & Hall).
  exists pre, post. split; [done|]. eapply Forall2_impl; [exact Hall|]. by intros x y [? _].
Qed.

Definition example_leader2 : Certificate := example_cert 1 10 [9001; 9002; 9003; 9004].

Lemma committed_leaders_prefix_witness :
  exists ls1 ls2 pre post,
    order_leaders (H := example_crypto) (rng := example_rng) example_bullshark
      example_leader example_view1 = Ret ls1 /\
    order_leaders (H := example_crypto) (rng := example_rng) example_bullshark
      example_leader2 example_view2 = Ret ls2 /\
    ls2 = pre ++ post /\ Forall2 (cert_equiv (H := example_crypto)) ls1 pre.
Proof.
  assert (match order_leaders (H := example_crypto) (rng := example_rng) example_bullshark
    example_leader example_view1 with Ret _ => True | _ => False end) as Hv1
    by (vm_compute; exact I).
  assert (match order_leaders (H := example_crypto) (rng := example_rng) example_bullshark
    example_leader2 example_view2 with Ret _ => True | _ => False end) as Hv2
    by (vm_compute; exact I).
  destruct (order_leaders (H := example_crypto) (rng := example_rng) example_bullshark
    example_leader example_view1) as [ls1|e| |] eqn:H1; try (exfalso; exact Hv1).
  destruct (order_leaders (H := example_crypto) (rng := example_rng) example_bullshark
    example_leader2 example_view2) as [ls2|e| |] eqn:H2; try (exfalso; exact Hv2).
  destruct (committed_leaders_prefix (H := example_crypto) (rng := example_rng)
    (rng_ok := example_rng_ok) example_committee example_bullshark example_bullshark
    example_view1 example_view2 example_leader example_leader2 ls1 ls2) as (pre & post & Hp & Hall).
  - exact example_same_commit_point.
  - split; vm_compute; [reflexivity|reflexivity|reflexivity|discriminate].
  - split; vm_compute; [reflexivity|reflexivity|reflexivity|discriminate].
  - split; vm_compute; [discriminate|reflexivity].
  - exact H1.
  - exact H2.
  - exists ls1, ls2, pre, post. split; [reflexivity|]. split; [reflexivity|]. split; assumption.
Defined.

(** [linked] is correct: on certificates of a well-formed DAG it returns
    true exactly when there is a path of parent references between them. *)
Theorem linked_decides_path `{!Crypto} c fl d x y :
  dag_ok c fl d -> in_dag d x -> in_dag d y ->
  linked x y d = true <-> rtc (dag_edge d) x y.
Proof. intros. by apply (linked_path c fl). Qed.

Lemma linked_decides_path_witness :
  rtc (dag_edge (H := example_crypto) (dag example_view1)) example_leader
    (example_cert 4 5 [4001; 4002; 4003; 4004]) /\
  ~ rtc (dag_edge (H := example_crypto) (dag example_view1))
      (example_cert 1 8 [7001; 7002; 7003]) (example_cert 4 5 [4001; 4002; 4003; 4004]).
Proof.
  split.
  - apply (linked_decides_path (H := example_crypto) example_committee 2).
    + exact (so_dag (H := example_crypto) _ _ example_view1_ok).
    + vm_compute. reflexivity.
    + vm_compute. reflexivity.
    + vm_compute. reflexivity.
  - intros Hp.
    apply (linked_decides_path (H := example_crypto) example_committee 2) in Hp.
    + vm_compute in Hp. discriminate Hp.
    + exact (so_dag (H := example_crypto) _ _ example_view1_ok).
    + vm_compute. reflexivity.
    + vm_compute. reflexivity.
Defined.
