(* ===== verification/ConsensusTask.v ===== *)
(** * The consensus task

    [Consensus] of [crates/consensus/primary/src/consensus/state.rs]: recovery
    when an epoch starts ([spawn]), the event loop ([run]) and the handling of
    one certificate ([new_certificate]), with the parts of the consensus bus
    ([consensus_bus.rs]) they write. Awaited channels and the execution watch
    are inputs of the events. *)
From S2P Require Import Prelude Types Committee LeaderSchedule ConsensusState ConsensusStateProps Bullshark.

(** ** The consensus bus *)

Inductive NodeMode := CvvActive | CvvInactive | Observer.
#[export] Instance NodeMode_eq_dec : EqDecision NodeMode.
Proof. solve_decision. Defined.

Record PromotionBarrier := {
  pb_epoch : Epoch;
  pb_round : Round;
  pb_digest : option CertificateDigest
}.

(** What the task writes to the bus; the channels hold what was sent. *)
Record ConsensusBus := {
  node_mode : NodeMode;
  mode_transition : option NodeMode;
  promotion_barrier : option PromotionBarrier;
  certificate_fetcher : list Certificate;
  sequence : list CommittedSubDag;
  committed_reports : list (Round * list Certificate);
  consensus_rounds : ConsensusRound;
  shutdown_notified : bool
}.

(** [ConsensusBus::request_mode_transition] *)
Definition request_mode_transition (b : ConsensusBus) (target : NodeMode) : ConsensusBus :=
  if decide (node_mode b = Observer \/ node_mode b = target) then b
  else {| node_mode := node_mode b; mode_transition := Some target;
          promotion_barrier := promotion_barrier b;
          certificate_fetcher := certificate_fetcher b; sequence := sequence b;
          committed_reports := committed_reports b; consensus_rounds := consensus_rounds b;
          shutdown_notified := shutdown_notified b |}.

(** The barrier of [new_certificate]: monotonic within an epoch, and a barrier
    of another epoch is replaced. *)
Definition raise_barrier (current : option PromotionBarrier) (e : Epoch) (failing_round : Round)
    (missing : option CertificateDigest) : option PromotionBarrier :=
  let supersedes := match current with
                    | None => true
                    | Some b => negb (pb_epoch b =? e) || (pb_round b <? failing_round)
                    end in
  if supersedes then Some {| pb_epoch := e; pb_round := failing_round; pb_digest := missing |}
  else current.

(** The demotion of [new_certificate] on a missing parent. *)
Definition demote (b : ConsensusBus) (e : Epoch) (failing : Certificate)
    (missing : option CertificateDigest) : ConsensusBus :=
  let b1 := request_mode_transition b CvvInactive in
  {| node_mode := node_mode b1; mode_transition := mode_transition b1;
     promotion_barrier := raise_barrier (promotion_barrier b1) e (cert_round failing) missing;
     certificate_fetcher := certificate_fetcher b1 ++ [failing]; sequence := sequence b1;
     committed_reports := committed_reports b1; consensus_rounds := consensus_rounds b1;
     shutdown_notified := true |}.

(** The exit of [new_certificate] on a sub-DAG that execution contradicts. *)
Definition bogus (b : ConsensusBus) : ConsensusBus :=
  let b1 := request_mode_transition b CvvInactive in
  {| node_mode := node_mode b1; mode_transition := mode_transition b1;
     promotion_barrier := promotion_barrier b1;
     certificate_fetcher := certificate_fetcher b1; sequence := sequence b1;
     committed_reports := committed_reports b1; consensus_rounds := consensus_rounds b1;
     shutdown_notified := true |}.

Definition send_sequence (b : ConsensusBus) (s : CommittedSubDag) : ConsensusBus :=
  {| node_mode := node_mode b; mode_transition := mode_transition b;
     promotion_barrier := promotion_barrier b; certificate_fetcher := certificate_fetcher b;
     sequence := sequence b ++ [s]; committed_reports := committed_reports b;
     consensus_rounds := consensus_rounds b; shutdown_notified := shutdown_notified b |}.

Definition report_committed (b : ConsensusBus) (r : Round) (certs : list Certificate) :
    ConsensusBus :=
  {| node_mode := node_mode b; mode_transition := mode_transition b;
     promotion_barrier := promotion_barrier b; certificate_fetcher := certificate_fetcher b;
     sequence := sequence b; committed_reports := committed_reports b ++ [(r, certs)];
     consensus_rounds := consensus_rounds b; shutdown_notified := shutdown_notified b |}.

(** [ConsensusBus::update_consensus_rounds] *)
Definition update_consensus_rounds (b : ConsensusBus) (r : ConsensusRound) : ConsensusBus :=
  {| node_mode := node_mode b; mode_transition := mode_transition b;
     promotion_barrier := promotion_barrier b; certificate_fetcher := certificate_fetcher b;
     sequence := sequence b; committed_reports := committed_reports b;
     consensus_rounds := r; shutdown_notified := shutdown_notified b |}.

(** ** The task *)

Record Consensus := {
  co_committee : Committee;
  co_bus : ConsensusBus;
  protocol : Bullshark;
  co_state : ConsensusState;
  active : bool;
  highest_seen_round : Round
}.

(** What the environment decides while a certificate is handled: whether
    execution confirms a block and whether the channels are open. *)
Record Env := {
  wait_for_execution : BlockNumHash -> bool;
  sequence_open : bool;
  committed_open : bool
}.

Section task.
Context `{!Crypto} {rng : Rng}.

(** [Consensus::spawn] up to the state: [primed_round] is the round the bus was
    primed with, the other arguments are read from the store. *)
Definition spawn_state (primed_round depth : Round) (recovered : gmap AuthorityIdentifier Round)
    (latest : option CommittedSubDag) (after_round : Round -> list Certificate)
    (current_epoch : Epoch) : Exec ConsensusError ConsensusState :=
  let db_round := foldr Z.max 0 (btree_values recovered) in
  let last_committed_round := Z.max primed_round db_round in
  let latest_sub_dag := match latest with
                        | Some s => if current_epoch <=? leader_epoch s then Some s else None
                        | None => None
                        end in
  _ ← rassert (match latest_sub_dag with
               | Some s => leader_round s <=? last_committed_round
               | None => true
               end);
  new_from_store last_committed_round depth recovered latest_sub_dag after_round current_epoch.

(** The loop of [new_certificate] that hands the sub-DAGs over in order: the
    bus with [Ret] the certificates to report, or [Ret None] after a bogus
    sub-DAG. *)
Fixpoint send_sub_dags (env : Env) (b : ConsensusBus) (subs : list CommittedSubDag)
    (certs : list Certificate) : ConsensusBus * Exec ConsensusError (option (list Certificate)) :=
  match subs with
  | [] => (b, Ret (Some certs))
  | s :: subs' =>
      if wait_for_execution env (latest_execution_block (header (sd_leader s))) then
        if sequence_open env
        then send_sub_dags env (send_sequence b s) subs' (certs ++ sd_certificates s)
        else (b, Err ShuttingDown)
      else (bogus b, Ret None)
  end.

(** The report to the primary; the highest committed round must be the
    committed round of the state. *)
Definition report (env : Env) (b : ConsensusBus) (st : ConsensusState)
    (certs : list Certificate) : ConsensusBus * Exec ConsensusError unit :=
  match certs with
  | [] => (b, Ret tt)
  | _ =>
      let leader_commit_round := foldr Z.max 0 (cert_round <$> certs) in
      if committed_open env then
        let b1 := report_committed b leader_commit_round certs in
        if committed_round (last_round st) =? leader_commit_round
        then (update_consensus_rounds b1 (last_round st), Ret tt)
        else (b1, Panic)
      else (b, Err ShuttingDown)
  end.

Definition set_task (t : Consensus) (p : Bullshark) (st : ConsensusState) (b : ConsensusBus) :
    Consensus :=
  {| co_committee := co_committee t; co_bus := b; protocol := p; co_state := st;
     active := active t; highest_seen_round := highest_seen_round t |}.

(** [Consensus::new_certificate] *)
Definition new_certificate (env : Env) (t : Consensus) (x : Certificate) :
    Consensus * Exec ConsensusError unit :=
  if negb (cert_epoch x =? committee_epoch (co_committee t)) then (t, Ret tt)
  else
    match process_certificate (protocol t) (co_state t) x with
    | (p, st, Ret (outcome, subs)) =>
        if active t then
          match send_sub_dags env (co_bus t) subs [] with
          | (b, Ret (Some certs)) =>
              let '(b', res) := report env b st certs in (set_task t p st b', res)
          | (b, Ret None) => (set_task t p st b, Ret tt)
          | (b, Err e) => (set_task t p st b, Err e)
          | (b, Panic) => (set_task t p st b, Panic)
          | (b, Diverge) => (set_task t p st b, Diverge)
          end
        else (set_task t p st (co_bus t), Ret tt)
    | (p, st, Err (MissingParent d y)) =>
        (set_task t p st (demote (co_bus t) (committee_epoch (co_committee t)) y (Some d)),
         Err ShuttingDown)
    | (p, st, Err (MissingParentRound y)) =>
        (set_task t p st (demote (co_bus t) (committee_epoch (co_committee t)) y None),
         Err ShuttingDown)
    | (p, st, Err e) => (set_task t p st (co_bus t), Err e)
    | (p, st, Panic) => (set_task t p st (co_bus t), Panic)
    | (p, st, Diverge) => (set_task t p st (co_bus t), Diverge)
    end.

(** The events of [Consensus::run]. *)
Inductive Event :=
  | Shutdown
  | NewCertificate (env : Env) (x : Certificate)
  | GcTick.

(** How an iteration of the loop ends. *)
Inductive Status := Running | Stopped | Failed (e : ConsensusError) | Panicked.

Definition set_highest (t : Consensus) (r : Round) : Consensus :=
  {| co_committee := co_committee t; co_bus := co_bus t; protocol := protocol t;
     co_state := co_state t; active := active t; highest_seen_round := r |}.

(** One iteration of the loop of [Consensus::run]. *)
Definition run_step (t : Consensus) (ev : Event) : Consensus * Status :=
  match ev with
  | Shutdown => (t, Stopped)
  | NewCertificate env x =>
      let t1 := set_highest t (Z.max (highest_seen_round t) (cert_round x)) in
      match new_certificate env t1 x with
      | (t', Ret _) => (t', Running)
      | (t', Err ShuttingDown) => (t', Stopped)
      | (t', Err e) => (t', Failed e)
      | (t', Panic) => (t', Panicked)
      | (t', Diverge) => (t', Panicked)
      end
  | GcTick =>
      if 0 <? highest_seen_round t
      then (set_task t (protocol t) (proactive_gc (co_state t) (highest_seen_round t)).1 (co_bus t),
            Running)
      else (t, Running)
  end.

(** [Consensus::run] on a list of events. *)
Fixpoint run (t : Consensus) (evs : list Event) : Consensus * Status :=
  match evs with
  | [] => (t, Running)
  | ev :: evs' =>
      match run_step t ev with
      | (t', Running) => run t' evs'
      | (t', s) => (t', s)
      end
  end.

End task.

(** ** Specification *)

(** The slot of the DAG a certificate fills. *)
Definition slot (x : Certificate) : Round * AuthorityIdentifier := (cert_round x, origin x).

(** The certificates the task may receive: committee members', with rounds in
    range and without digest collisions. *)
Record universe_ok `{!Crypto} (c : Committee) (rmax : Round) (U : Certificate -> Prop) : Prop := {
  u_member : forall x, U x -> is_Some (authorities_by_id c !! origin x);
  u_round : forall x, U x -> 0 <= cert_round x <= rmax;
  u_digest : forall x y, U x -> U y -> digest x = digest y ->
    cert_round x = cert_round y /\ origin x = origin y
}.

(** What was handed to execution: every slot once and none that the recovered
    rounds [lc] count as committed, leaders in increasing rounds. *)
Record sequence_ok (lc : gmap AuthorityIdentifier Round) (t : Consensus) : Prop := {
  sq_slots : NoDup (slot <$> committed_certificates (sequence (co_bus t)));
  sq_fresh : forall x, x ∈ committed_certificates (sequence (co_bus t)) -> already_committed lc x = false;
  sq_leaders : StronglySorted Z.lt (leader_round <$> sequence (co_bus t))
}.

Record task_ok `{!Crypto} (c : Committee) (U : Certificate -> Prop) (lc : gmap AuthorityIdentifier Round)
    (t : Consensus) : Prop := {
  tk_bullshark : bullshark_ok c (protocol t);
  tk_state : state_wf c (co_state t);
  tk_dag : forall x, in_dag (dag (co_state t)) x -> U x;
  tk_sequence : sequence_ok lc t;
  tk_recovered : forall x, already_committed lc x = true -> already_committed (last_committed (co_state t)) x = true;
  tk_committed : forall x, x ∈ committed_certificates (sequence (co_bus t)) ->
    already_committed (last_committed (co_state t)) x = true;
  tk_leaders : Forall (fun r => r <= committed_round (last_round (co_state t)))
    (leader_round <$> sequence (co_bus t))
}.

(** ** Lemmas *)

Section task_lemmas.
Context `{!Crypto} {rng : Rng} {rng_ok : RngOk}.
Context (c : Committee) (rmax : Round) (U : Certificate -> Prop) (lc : gmap AuthorityIdentifier Round).
Context (Hrm : rounds_ok c rmax) (HU : universe_ok c rmax U).

(** A slot is committed or not whatever certificate fills it. *)
Lemma already_committed_slot m x y :
  slot x = slot y -> already_committed m x = already_committed m y.
Proof. unfold slot, already_committed. by intros [= -> ->]. Qed.

Lemma sub_dag_slots st l st' s fl :
  dag_ok c fl (dag st) -> sub_dag_committed c st l st' s -> NoDup (slot <$> sd_certificates s).
Proof.
  intros Hok Hc. apply NoDup_fmap_2_strong.
  - intros x y (Hx & _)%(sc_new _ _ _ _ _ Hc) (Hy & _)%(sc_new _ _ _ _ _ Hc) [= Hr Ho].
    unfold in_dag in *. rewrite Hr, Ho in Hx. congruence.
  - eapply NoDup_fmap_1, Hc.
Qed.

Lemma commit_run_slots s subs s' fl :
  dag_ok c fl (dag s.2) -> commit_run c s subs s' ->
  NoDup (slot <$> committed_certificates subs).
Proof.
  intros Hok Hrun. revert fl Hok.
  induction Hrun as [|b st l b' st' sb ch subs s'' Hl Hlt Hev _ Hst' Hc Hrun IH]; intros fl Hok;
    simpl in *; [constructor|].
  unfold committed_certificates in *. simpl. rewrite fmap_app. apply NoDup_app. split_and!.
  - by eapply sub_dag_slots.
  - intros z (x & -> & Hx)%list_elem_of_fmap (y & Hxy & Hy)%list_elem_of_fmap.
    apply (sc_new _ _ _ _ _ Hc) in Hx as (_ & _ & Hx).
    eapply (commit_run_certificates c) in Hy as (_ & Hy & _); [|done]. simpl in Hy.
    rewrite (already_committed_slot _ _ _ Hxy) in Hx. congruence.
  - eapply IH, Hst'.
Qed.

Lemma try_insert_dag_sub st x y :
  state_wf c st -> incoming_ok c (dag st) x ->
  in_dag (dag (try_insert st x).1) y -> y = x \/ in_dag (dag st) y.
Proof.
  intros Hst Hin. unfold try_insert.
  assert (0 <= gc_round (last_round st)) as Hgc by (rewrite (so_gc _ _ Hst); unfold sat_sub; lia).
  destruct (try_insert_in_dag_spec c (last_committed st) _ _ x (so_dag _ _ Hst) Hgc Hin)
    as [[Hle ->]|[(Hlt & Hpp & Hsame & ->)|[(_ & _ & e & _ & _ & _ & _ & ->)|
        [(_ & p & _ & _ & ->)|(_ & _ & ->)]]]]; simpl; try (by right);
    rewrite in_dag_insert; naive_solver.
Qed.

Lemma proactive_gc_same st r :
  last_round (proactive_gc st r).1 = last_round st /\
  last_committed (proactive_gc st r).1 = last_committed st /\
  forall x, in_dag (dag (proactive_gc st r).1) x -> in_dag (dag st) x.
Proof.
  unfold proactive_gc. repeat case_match; simpl; split_and!; try done.
  intros x Hx. by apply in_dag_retain in Hx as [_ ?].
Qed.

Lemma universe_incoming st x :
  (forall y, in_dag (dag st) y -> U y) -> U x -> incoming_ok c (dag st) x.
Proof using Hrm HU.
  intros Hd Hx. destruct Hrm as [Hu _]. destruct HU as [Hm Hr Hdg].
  split; [by apply Hm|apply Hr in Hx; lia|]. intros y Hy Heq. apply Hdg; auto.
Qed.

(** The sub-DAGs handed over are a prefix of the committed ones. *)
Lemma send_sub_dags_spec env b subs certs :
  let '(b', res) := send_sub_dags env b subs certs in
  exists k, sequence b' = sequence b ++ take k subs /\
  match res with
  | Ret (Some certs') => certs' = certs ++ committed_certificates subs /\ take k subs = subs
  | Ret None | Err ShuttingDown => True
  | _ => False
  end.
Proof.
  revert b certs. induction subs as [|s subs IH]; intros b certs; simpl.
  { exists O. unfold committed_certificates. simpl. by rewrite !app_nil_r. }
  destruct (wait_for_execution env _).
  2: { exists O. rewrite take_0, app_nil_r. unfold bogus, request_mode_transition.
       by case_decide. }
  destruct (sequence_open env); [|exists O; by rewrite take_0, app_nil_r].
  specialize (IH (send_sequence b s) (certs ++ sd_certificates s)).
  destruct (send_sub_dags env (send_sequence b s) subs (certs ++ sd_certificates s)) as [b' res].
  destruct IH as (k & Hk & Hres). exists (S k). simpl in *.
  split; [by rewrite Hk, <- app_assoc|].
  destruct res as [[certs'|]|[]| |]; try done. destruct Hres as [-> ->].
  split; [|done]. unfold committed_certificates. simpl. by rewrite app_assoc.
Qed.

Lemma sorted_last (l : list Z) m x :
  StronglySorted Z.lt l -> last l = Some m -> x ∈ l -> x <= m.
Proof.
  intros Hs. induction Hs as [|y l Hs IH Hall]; [done|].
  destruct l as [|z l]; simpl; [by intros [= ->] ->%list_elem_of_singleton|].
  intros Hl [->|Hx]%elem_of_cons; [|by apply IH].
  rewrite Forall_forall in Hall. apply last_Some_elem_of in Hl. apply Hall in Hl. lia.
Qed.

(** Handing over a prefix of what a commit run committed. *)
Lemma sequence_extend t p st st1 b1 subs k bus' :
  task_ok c U lc t -> last_committed st1 = last_committed (co_state t) ->
  last_round st1 = last_round (co_state t) -> state_wf c st1 ->
  commit_run c (b1, st1) subs (p, st) ->
  sequence bus' = sequence (co_bus t) ++ take k subs ->
  sequence_ok lc (set_task t p st bus') /\
  (forall x, x ∈ committed_certificates (sequence bus') ->
     already_committed (last_committed st) x = true) /\
  Forall (fun r => r <= committed_round (last_round st)) (leader_round <$> sequence bus').
Proof.
  intros [_ _ _ [Hslots Hfresh Hlead] Hrec Hcom Hle] Hlc Hlr Hst1 Hrun Hseq.
  destruct (commit_run_rounds c _ _ _ Hrun) as (Hrs & _ & Hlast). cbn [snd] in Hrs, Hlast.
  assert (forall x, x ∈ committed_certificates (take k subs) ->
    x ∈ committed_certificates subs) as Hsub.
  { intros x. unfold committed_certificates. rewrite <- (take_drop k subs) at 2.
    rewrite bind_app, elem_of_app. by left. }
  assert (forall r, r ∈ leader_round <$> take k subs -> r ∈ leader_round <$> subs) as Hsubr.
  { intros r. rewrite <- (take_drop k subs) at 2. rewrite fmap_app, elem_of_app. by left. }
  rewrite Forall_forall in Hle. pose proof Hrs as [Hs Hall]%StronglySorted_inv.
  rewrite Forall_forall in Hall. rewrite Hlr in Hall.
  split_and!; [split; simpl|..]; rewrite Hseq.
  - unfold committed_certificates. rewrite bind_app, fmap_app. apply NoDup_app.
    split_and!; [done| |].
    + intros z (x & -> & Hx)%list_elem_of_fmap (y & Hxy & Hy)%list_elem_of_fmap.
      apply Hcom in Hx. apply Hsub, (commit_run_certificates c _ _ _ y Hrun) in Hy as (_ & Hy & _).
      simpl in Hy. rewrite Hlc, <- (already_committed_slot _ _ _ Hxy) in Hy. congruence.
    + pose proof (commit_run_slots (b1, st1) _ _ _ (so_dag _ _ Hst1) Hrun) as Hnd.
      unfold committed_certificates in Hnd. rewrite <- (take_drop k subs) in Hnd.
      rewrite bind_app, fmap_app in Hnd. by apply NoDup_app in Hnd as (? & _).
  - intros x. unfold committed_certificates. rewrite bind_app, elem_of_app. intros [Hx|Hx]; [by apply Hfresh|].
    apply Hsub, (commit_run_certificates c _ _ _ x Hrun) in Hx as (_ & Hx & _). simpl in Hx. rewrite Hlc in Hx.
    apply not_true_iff_false. intros ?%Hrec. congruence.
  - rewrite fmap_app. apply StronglySorted_app_2; [|done|].
    + intros r1 r2 H1%Hle H2%Hsubr%Hall. lia.
    + rewrite <- (take_drop k subs), fmap_app in Hs. by apply StronglySorted_app_1_l in Hs.
  - intros x. unfold committed_certificates. rewrite bind_app, elem_of_app. intros [Hx|Hx].
    + apply (commit_run_mono c _ _ _ x Hrun). simpl. rewrite Hlc. by apply Hcom.
    + by apply Hsub, (commit_run_certificates c _ _ _ x Hrun) in Hx as (_ & _ & ?).
  - rewrite fmap_app. apply Forall_app. split; apply Forall_forall; intros r Hr.
    + apply Hle in Hr. rewrite <- Hlr in Hr.
      pose proof (sorted_last _ _ (committed_round (last_round st1)) Hrs Hlast ltac:(left)).
      simpl in *. lia.
    + apply (sorted_last _ _ r Hrs Hlast). right. by apply Hsubr.
Qed.

Lemma foldr_max_eq (l : list Z) m :
  0 <= m -> (forall x, x ∈ l -> x <= m) -> m ∈ l -> foldr Z.max 0 l = m.
Proof.
  intros Hm Hle Hin.
  assert (foldr Z.max 0 l <= m) as H1.
  { clear Hin. induction l as [|x l IH]; simpl; [done|].
    pose proof (Hle x ltac:(left)). specialize (IH (fun y Hy => Hle y (list_elem_of_further _ _ _ Hy))).
    lia. }
  assert (m <= foldr Z.max 0 l) as H2.
  { clear Hle H1. induction l as [|x l IH]; [inversion Hin|].
    apply elem_of_cons in Hin as [->|Hin]; simpl; [lia|]. specialize (IH Hin). lia. }
  lia.
Qed.

(** The highest round of what a run commits is the round of its last leader. *)
Lemma commit_run_highest s subs s' :
  commit_run c s subs s' -> state_wf c s.2 ->
  (forall x, x ∈ committed_certificates subs -> cert_round x <= committed_round (last_round s'.2)) /\
  (subs <> [] -> committed_round (last_round s'.2) ∈ cert_round <$> committed_certificates subs).
Proof.
  induction 1 as [|b st l b' st' sb ch subs s'' Hl Hlt Hev _ Hst' Hc Hrun IH]; simpl; intros Hst.
  { split; [|done]. intros x Hx. inversion Hx. }
  destruct (IH Hst') as [IH1 IH2]. destruct (commit_run_rounds c _ _ _ Hrun) as (Hrs & _ & Hlast).
  cbn [snd] in Hrs, Hlast.
  pose proof (sorted_last _ _ _ Hrs Hlast ltac:(left)) as Hge.
  rewrite (sc_round _ _ _ _ _ Hc) in Hge. unfold committed_certificates in *. simpl. split.
  - intros x. rewrite elem_of_app. intros [Hx|Hx]; [|by apply IH1].
    apply Hc in Hx. apply (sub_dag_in_dag c _ _ _ _ (so_dag _ _ Hst) Hl) in Hx as [_ [->|]]; lia.
  - intros _. rewrite fmap_app, elem_of_app. destruct subs as [|s2 subs]; [left|right; by apply IH2].
    simpl in Hlast. injection Hlast as <-. rewrite (sc_round _ _ _ _ _ Hc).
    apply list_elem_of_fmap. exists l. split; [done|]. apply Hc. constructor.
Qed.

Lemma report_spec env b st b1 st1 p subs :
  commit_run c (b1, st1) subs (p, st) -> state_wf c st1 -> 0 <= committed_round (last_round st) ->
  let '(b', res) := report env b st (committed_certificates subs) in
  sequence b' = sequence b /\
  match res with Ret _ | Err ShuttingDown => True | _ => False end.
Proof.
  intros Hrun Hst1 H0. unfold report.
  destruct (committed_certificates subs) as [|x l] eqn:Hcs; [done|].
  destruct (committed_open env); [|done].
  destruct (commit_run_highest _ _ _ Hrun Hst1) as [Hle Hin]. rewrite Hcs in Hle, Hin.
  assert (subs <> []) as Hne by (intros ->; done). specialize (Hin Hne). cbn [snd] in *.
  rewrite (foldr_max_eq _ (committed_round (last_round st))); [|done| |done].
  - by rewrite Z.eqb_refl.
  - intros r (y & -> & Hy)%list_elem_of_fmap. by apply Hle.
Qed.

Lemma sequence_ok_same t t' :
  sequence (co_bus t') = sequence (co_bus t) -> sequence_ok lc t -> sequence_ok lc t'.
Proof. intros Heq []. split; by rewrite Heq. Qed.

(** One certificate: no panic, and the invariant is kept while the task runs. *)
Lemma new_certificate_ok env t x :
  task_ok c U lc t -> U x ->
  let '(t', res) := new_certificate env t x in
  sequence_ok lc t' /\
  match res with
  | Ret _ => task_ok c U lc t'
  | Err _ => True
  | Panic | Diverge => False
  end.
Proof using Hrm HU rng_ok.
  intros Ht Hx. pose proof Ht as [Hb Hst Hdag Hseq Hrec Hcom Hle]. unfold new_certificate.
  destruct (negb _); [done|].
  pose proof (universe_incoming _ _ Hdag Hx) as Hin.
  pose proof (process_certificate_spec c rmax (protocol t) (co_state t) x Hrm Hb Hst Hin
    (proj2 (u_round _ _ _ HU x Hx))) as Hspec.
  destruct (process_certificate (protocol t) (co_state t) x) as [[p st] [[o subs]|e| |]]; try done.
  2: { assert (forall d, sequence (demote (co_bus t) (committee_epoch (co_committee t)) x d) =
         sequence (co_bus t)) as Hdem
         by (intros d; unfold demote, request_mode_transition; by case_decide).
       destruct e; try done; destruct Hspec as [-> ->]; (split; [|done]);
         (eapply sequence_ok_same; [|exact Hseq]); [done|apply Hdem..]. }
  destruct Hspec as (Hp & Hst' & _ & _ & _ & b1 & st1 & _ & Hst1 & Hins & Hlc & Hlr & _ & Hrun).
  assert (forall y, in_dag (dag st) y -> U y) as Hdag'.
  { intros y Hy%(commit_run_in_dag c _ _ _ y Hrun). simpl in Hy. subst st1.
    apply (try_insert_dag_sub _ _ y Hst Hin) in Hy as [->|]; auto. }
  assert (forall k bus', sequence bus' = sequence (co_bus t) ++ take k subs ->
    sequence_ok lc (set_task t p st bus') /\ task_ok c U lc (set_task t p st bus')) as Hext.
  { intros k bus' Hbus.
    destruct (sequence_extend t p st st1 b1 subs k bus' Ht Hlc Hlr Hst1 Hrun Hbus) as (? & ? & ?).
    assert (forall y, already_committed lc y = true -> already_committed (last_committed st) y = true)
      by (intros y Hy; apply (commit_run_mono c _ _ _ y Hrun); simpl; rewrite Hlc; auto).
    by split; [|split]. }
  destruct (active t).
  2: { destruct (Hext O (co_bus t)) as [? ?]; [by rewrite take_0, app_nil_r|done]. }
  pose proof (send_sub_dags_spec env (co_bus t) subs []) as Hsend.
  destruct (send_sub_dags env (co_bus t) subs []) as [bus' [[certs|]|e| |]];
    destruct Hsend as (k & Hk & Hres); try done; destruct (Hext k bus' Hk) as [Hs Hok]; try done.
  destruct Hres as [-> Hall]. simpl.
  pose proof (report_spec env bus' st b1 st1 p subs Hrun Hst1
    (proj1 (so_committed _ _ Hst'))) as Hrep.
  destruct (report env bus' st (committed_certificates subs)) as [bus'' res].
  destruct Hrep as [Hsame Hres]. rewrite Hk in Hsame. destruct (Hext k bus'' Hsame) as [Hs'' Hok''].
  split; [done|]. destruct res as [|[]| |]; done.
Qed.

(** One iteration of the loop. *)
Lemma run_step_ok t ev :
  task_ok c U lc t -> (forall env x, ev = NewCertificate env x -> U x) ->
  let '(t', s) := run_step t ev in
  sequence_ok lc t' /\ s <> Panicked /\ (s = Running -> task_ok c U lc t').
Proof using Hrm HU rng_ok.
  intros Ht Hev. destruct ev as [|env x|]; simpl.
  - split_and!; [apply Ht|done..].
  - set (t1 := set_highest t _).
    assert (task_ok c U lc t1) as Ht1 
      by (destruct Ht; split; try done; by apply (sequence_ok_same t)).
    pose proof (new_certificate_ok env t1 x Ht1 (Hev _ _ eq_refl)) as Hn.
    destruct (new_certificate env t1 x) as [t' [[]|[]| |]]; by destruct Hn.
  - destruct (0 <? highest_seen_round t); [|split_and!; [apply Ht|done..]].
    destruct Ht as [Hb Hst Hdag Hseq Hrec Hcom Hle].
    split_and!; [by apply (sequence_ok_same t)|done|]. intros _.
    pose proof (proactive_gc_state_wf c _ (highest_seen_round t) Hst) as Hst'.
    pose proof (proactive_gc_same (co_state t) (highest_seen_round t)) as (Hlr & Hlc & Hd).
    split; simpl; try done.
    + intros x Hx. by apply Hdag, Hd.
    + by apply (sequence_ok_same t).
    + by rewrite Hlc.
    + by rewrite Hlc.
    + by rewrite Hlr.
Qed.

Lemma run_ok t evs :
  task_ok c U lc t -> (forall env x, NewCertificate env x ∈ evs -> U x) ->
  let '(t', s) := run t evs in sequence_ok lc t' /\ s <> Panicked.
Proof using Hrm HU rng_ok.
  revert t. induction evs as [|ev evs IH]; intros t Ht Hevs; simpl; [split; [apply Ht|done]|].
  pose proof (run_step_ok t ev Ht ltac:(intros env x ->; apply (Hevs env x); left)) as Hs.
  destruct (run_step t ev) as [t' s]. destruct Hs as (Hseq & Hs & Hrun).
  destruct s; try done. apply IH; [by apply Hrun|].
  intros env x Hx. apply (Hevs env x). by right.
Qed.

End task_lemmas.

Section spawn.
Context `{!Crypto} (c : Committee) (rmax : Round) (U : Certificate -> Prop).

Lemma foldr_max_ge (l : list Z) x : x ∈ l -> x <= foldr Z.max 0 l.
Proof.
  induction l as [|y l IH]; [intros Hx; inversion Hx|].
  intros [->|Hx]%elem_of_cons; simpl; [lia|]. specialize (IH Hx). lia.
Qed.

Lemma foldr_max_le (l : list Z) m : 0 <= m -> (forall x, x ∈ l -> x <= m) -> foldr Z.max 0 l <= m.
Proof.
  intros Hm Hl. induction l as [|y l IH]; simpl; [done|].
  pose proof (Hl y ltac:(left)). enough (foldr Z.max 0 l <= m) by lia.
  apply IH. intros x Hx. apply Hl. by right.
Qed.

(** The recovered state satisfies the invariant. *)
Lemma spawn_state_ok primed depth lc latest after_round e st :
  rounds_ok c rmax -> universe_ok c rmax U -> 1 <= depth -> 0 <= primed <= rmax ->
  (forall a r, lc !! a = Some r -> r <= rmax) ->
  (forall s, latest = Some s -> 0 <= leader_round s /\
     scores_ok c (leader_round s) (reputation_score s)) ->
  (forall r x, x ∈ after_round r -> U x) ->
  spawn_state primed depth lc latest after_round e = Ret st ->
  state_ok c st /\ forall x, in_dag (dag st) x -> U x.
Proof.
  intros [Hu _] HU Hd Hpr Hlc Hlat Hstore. unfold spawn_state.
  set (last := Z.max primed (foldr Z.max 0 (btree_values lc))).
  set (sub := match latest with Some s => _ | None => None end).
  intros Hrun. apply bind_Ret_inv in Hrun as (u & Hass%rassert_Ret & Hnew).
  assert (foldr Z.max 0 (btree_values lc) <= rmax) as Hdb.
  { apply foldr_max_le; [lia|]. intros r [a Ha]%elem_of_btree_values. by eapply Hlc. }
  assert (store_ok c (after_round (gc_round_of last depth + 1))) as Hst.
  { split; apply Forall_forall; intros x Hx%Hstore.
    - split; [by eapply u_member|]. pose proof (u_round _ _ _ HU x Hx). lia.
    - apply Forall_forall. intros y Hy%Hstore Heq. by apply (u_digest _ _ _ HU). }
  split.
  - eapply (new_from_store_state_ok c last depth lc sub after_round e); try done; [unfold last; lia|..].
    + intros a r Ha. unfold last. pose proof (foldr_max_ge (btree_values lc) r) as Hge.
      enough (r <= foldr Z.max 0 (btree_values lc)) by lia.
      apply Hge, elem_of_btree_values. eauto.
    + intros s Hs. rewrite Hs in Hass. apply Z.leb_le in Hass. unfold sub in Hs.
      destruct latest as [s'|]; [|done]. destruct (e <=? leader_epoch s'); [|done].
      injection Hs as ->. destruct (Hlat s eq_refl). split; [lia|done].
  - unfold new_from_store in Hnew. simpl in Hnew.
    pose proof (wp_construct_dag c lc (gc_round_of last depth) e after_round Hst) as Hw.
    destruct (construct_dag_from_cert_store _ _ _ _) as [d| | |]; try done.
    injection Hnew as <-. simpl. intros x Hx.
    destruct Hw as (_ & _ & Hin); [unfold gc_round_of, sat_sub, last, u32_max in *; lia|].
    destruct (Hin x Hx) as [Hxs _]. by eapply Hstore.
Qed.

Lemma spawn_state_recovered primed depth lc latest after_round e st :
  spawn_state primed depth lc latest after_round e = Ret st -> last_committed st = lc.
Proof.
  unfold spawn_state, new_from_store. intros (u & _ & Hnew)%bind_Ret_inv.
  destruct (construct_dag_from_cert_store _ _ _ _); try done. by injection Hnew as <-.
Qed.

End spawn.

(** ** Properties *)

(** C10: A consensus task that starts from the state recovered by [spawn]
    handles every sequence of events (certificates, garbage-collection ticks,
    closing channels, failing execution checks) without panicking. What it hands
    to execution, over all of the run, commits every slot of the DAG (author and
    round) at most once, none that the recovered rounds count as committed, and
    in strictly increasing leader rounds. The certificates of the store and of
    the events are of committee members, of rounds in the range of the
    reputation statistics and of distinct digests. *)
Theorem task_run_safe `{!Crypto} {rng : Rng} {rng_ok : RngOk} c rmax U p bus is_active
    primed depth lc latest after_round e st evs :
  rounds_ok c rmax -> universe_ok c rmax U -> bullshark_ok c p -> sequence bus = [] ->
  1 <= depth -> 0 <= primed <= rmax -> (forall a r, lc !! a = Some r -> r <= rmax) ->
  (forall s, latest = Some s -> 0 <= leader_round s /\
     scores_ok c (leader_round s) (reputation_score s)) ->
  (forall r x, x ∈ after_round r -> U x) ->
  spawn_state primed depth lc latest after_round e = Ret st ->
  (forall env x, NewCertificate env x ∈ evs -> U x) ->
  let '(t', s) := run {| co_committee := c; co_bus := bus; protocol := p; co_state := st;
                         active := is_active; highest_seen_round := 0 |} evs in
  s <> Panicked /\
  NoDup (slot <$> committed_certificates (sequence (co_bus t'))) /\
  (forall x, x ∈ committed_certificates (sequence (co_bus t')) -> already_committed lc x = false) /\
  StronglySorted Z.lt (leader_round <$> sequence (co_bus t')).
Proof.
  intros Hrm HU Hp Hbus Hd Hpr Hlc Hlat Hstore Hspawn Hevs.
  destruct (spawn_state_ok c rmax U primed depth lc latest after_round e st) as [Hst Hdag]; try done.
  apply spawn_state_recovered in Hspawn as Hrec.
  pose proof (run_ok c rmax U lc Hrm HU {| co_committee := c; co_bus := bus; protocol := p;
    co_state := st; active := is_active; highest_seen_round := 0 |} evs) as Hrun.
  destruct (run _ evs) as [t' s]. destruct Hrun as [[? ? ?] ?]; [|done|by split_and!].
  split; simpl; rewrite ?Hbus, ?Hrec; try done; [by apply Hst| |].
  - split; simpl; rewrite Hbus; try constructor. intros x Hx. inversion Hx.
  - intros x Hx. inversion Hx.
Qed.

(** The environment in which everything succeeds. *)
Definition example_env : Env :=
  {| wait_for_execution := fun _ => true; sequence_open := true; committed_open := true |}.
Definition example_bus : ConsensusBus :=
  {| node_mode := CvvActive; mode_transition := None; promotion_barrier := None;
     certificate_fetcher := []; sequence := []; committed_reports := [];
     consensus_rounds := {| committed_round := 6; gc_round := 2 |}; shutdown_notified := false |}.
Definition example_events : list Event :=
  [NewCertificate example_env example_trigger; GcTick;
   NewCertificate example_env (example_cert 3 9 [8001; 8002; 8003; 8004]); Shutdown].

Lemma task_run_safe_witness :
  match spawn_state (H := example_crypto) 6 4 {[1 := 5; 2 := 5; 3 := 6; 4 := 3]} None
          (fun _ => take 25 example_store) 0 with
  | Ret st =>
      let '(t', s) := run (H := example_crypto) (rng := example_rng)
        {| co_committee := example_committee; co_bus := example_bus;
           protocol := example_bullshark; co_state := st; active := true;
           highest_seen_round := 0 |} example_events in
      s <> Panicked /\
      NoDup (slot <$> committed_certificates (sequence (co_bus t'))) /\
      (forall x, x ∈ committed_certificates (sequence (co_bus t')) ->
         already_committed {[1 := 5; 2 := 5; 3 := 6; 4 := 3]} x = false) /\
      StronglySorted Z.lt (leader_round <$> sequence (co_bus t'))
  | _ => False
  end.
Proof.
  assert (match spawn_state (H := example_crypto) 6 4 {[1 := 5; 2 := 5; 3 := 6; 4 := 3]} None
    (fun _ => take 25 example_store) 0 with Ret _ => True | _ => False end) as Hv
    by (vm_compute; exact I).
  destruct (spawn_state (H := example_crypto) 6 4 {[1 := 5; 2 := 5; 3 := 6; 4 := 3]} None
    (fun _ => take 25 example_store) 0) as [st|e| |] eqn:Hs; try (exfalso; exact Hv).
  apply (task_run_safe (H := example_crypto) (rng := example_rng) (rng_ok := example_rng_ok)
    example_committee 100 (fun x => x ∈ example_store) example_bullshark example_bus true 6 4
    {[1 := 5; 2 := 5; 3 := 6; 4 := 3]} None (fun _ => take 25 example_store) 0 st example_events).
  - exact example_rounds_ok.
  - split.
    + apply (proj1 (Forall_forall (fun x => is_Some (authorities_by_id example_committee !! origin x))
        example_store)).
      apply (bool_decide_unpack (Forall (fun x => is_Some _) example_store)). vm_compute. exact I.
    + apply (proj1 (Forall_forall (fun x => 0 <= cert_round x <= 100) example_store)).
      apply (bool_decide_unpack (Forall (fun x => _ <= _ <= _) example_store)).
      vm_compute. exact I.
    + intros x y Hx Hy.
      apply (proj1 (Forall_forall (fun y => digest (H := example_crypto) x =
        digest (H := example_crypto) y -> cert_round x = cert_round y /\ origin x = origin y)
        example_store)); [|exact Hy]. revert x Hx.
      apply (proj1 (Forall_forall (fun x => Forall (fun y => digest (H := example_crypto) x =
        digest (H := example_crypto) y -> cert_round x = cert_round y /\ origin x = origin y)
        example_store) example_store)).
      apply (bool_decide_unpack (Forall (fun x => Forall (fun y => _ -> _ /\ _) example_store)
        example_store)). vm_compute. exact I.
  - exact example_bullshark_ok.
  - reflexivity.
  - lia.
  - lia.
  - apply (bool_decide_unpack (map_Forall (fun _ r => r <= 100) _)). vm_compute. exact I.
  - intros s Hn. discriminate Hn.
  - intros r x Hx. rewrite <- (take_drop 25 example_store). apply elem_of_app. left. exact Hx.
  - exact Hs.
  - intros env x Hx. unfold example_events in Hx.
    apply elem_of_cons in Hx as [Hx|Hx]; [injection Hx as _ ->|].
    { apply (bool_decide_unpack (example_trigger ∈ example_store)). vm_compute. exact I. }
    apply elem_of_cons in Hx as [Hx|Hx]; [discriminate Hx|].
    apply elem_of_cons in Hx as [Hx|Hx]; [injection Hx as _ ->|].
    { apply (bool_decide_unpack (example_cert 3 9 [8001; 8002; 8003; 8004] ∈ example_store)).
      vm_compute. exact I. }
    apply elem_of_cons in Hx as [Hx|Hx]; [discriminate Hx|]. inversion Hx.
Defined.

(** a certificate whose parents are missing from the DAG demotes the node
    instead of forking it: the task stops with [ShuttingDown], commits nothing,
    asks for the missing ancestors, requests inactive mode unless it is already
    inactive or an observer, and the promotion barrier of the epoch is at or
    above the round of the failing certificate and never goes down. *)
Theorem missing_parent_demotes `{!Crypto} {rng : Rng} env t x p st e :
  cert_epoch x = committee_epoch (co_committee t) ->
  process_certificate (protocol t) (co_state t) x = (p, st, Err e) ->
  (exists d, e = MissingParent d x) \/ e = MissingParentRound x ->
  let '(t', res) := new_certificate env t x in
  res = Err ShuttingDown /\ sequence (co_bus t') = sequence (co_bus t) /\
  certificate_fetcher (co_bus t') = certificate_fetcher (co_bus t) ++ [x] /\
  shutdown_notified (co_bus t') = true /\
  (node_mode (co_bus t) = CvvActive -> mode_transition (co_bus t') = Some CvvInactive) /\
  exists b, promotion_barrier (co_bus t') = Some b /\
    pb_epoch b = committee_epoch (co_committee t) /\ cert_round x <= pb_round b /\
    forall b0, promotion_barrier (co_bus t) = Some b0 -> pb_epoch b0 = pb_epoch b ->
      pb_round b0 <= pb_round b.
Proof.
  intros He Hp Hcase. unfold new_certificate. rewrite He, Z.eqb_refl, Hp. simpl.
  assert (forall d, let b' := demote (co_bus t) (committee_epoch (co_committee t)) x d in
    sequence b' = sequence (co_bus t) /\
    certificate_fetcher b' = certificate_fetcher (co_bus t) ++ [x] /\
    shutdown_notified b' = true /\
    (node_mode (co_bus t) = CvvActive -> mode_transition b' = Some CvvInactive) /\
    exists b, promotion_barrier b' = Some b /\
      pb_epoch b = committee_epoch (co_committee t) /\ cert_round x <= pb_round b /\
      forall b0, promotion_barrier (co_bus t) = Some b0 -> pb_epoch b0 = pb_epoch b ->
        pb_round b0 <= pb_round b) as Hdem;
    [|destruct Hcase as [[d ->]| ->]; (split; [done|apply Hdem])].
  intros d. unfold demote, request_mode_transition.
  split_and!; try (by case_decide); [simpl; case_decide as Hm; simpl; [|done]|].
  { intros Hn. rewrite Hn in Hm. by destruct Hm. }
  simpl. unfold raise_barrier.
  replace (promotion_barrier (if decide _ then _ else _)) with (promotion_barrier (co_bus t))
    by (by case_decide).
  destruct (promotion_barrier (co_bus t)) as [b0|]; [|by eexists; split_and!].
  destruct (Z.eqb_spec (pb_epoch b0) (committee_epoch (co_committee t))) as [Hep|Hep]; simpl.
  - destruct (Z.ltb_spec (pb_round b0) (cert_round x)); eexists; split_and!; try done;
      simpl; try lia; intros b1 [= <-] _; lia.
  - eexists. split_and!; try done. by intros b1 [= <-].
Qed.

Definition example_task : Consensus :=
  {| co_committee := example_committee; co_bus := example_bus; protocol := example_bullshark;
     co_state := example_before; active := true; highest_seen_round := 9 |}.
Definition example_orphan : Certificate := example_cert 1 10 [9001; 9009].

Lemma missing_parent_demotes_witness :
  let '(t', res) := new_certificate (H := example_crypto) (rng := example_rng) example_env
                      example_task example_orphan in
  res = Err ShuttingDown /\ mode_transition (co_bus t') = Some CvvInactive.
Proof.
  assert (snd (process_certificate (H := example_crypto) (rng := example_rng)
    example_bullshark example_before example_orphan) = Err (MissingParent 9009 example_orphan))
    as Hv by (vm_compute; reflexivity).
  destruct (process_certificate (H := example_crypto) (rng := example_rng)
    example_bullshark example_before example_orphan) as [[p st] r] eqn:Hp.
  cbn [snd] in Hv. subst r.
  pose proof (missing_parent_demotes (H := example_crypto) (rng := example_rng) example_env
    example_task example_orphan p st (MissingParent 9009 example_orphan) eq_refl Hp
    (or_introl (ex_intro _ 9009 eq_refl))) as Hd.
  destruct (new_certificate (H := example_crypto) (rng := example_rng) example_env
    example_task example_orphan) as [t' res].
  destruct Hd as (Hres & _ & _ & _ & Hm & _). split; [exact Hres|]. apply Hm. reflexivity.
Defined.
