(* ===== verification/EpochRecords.v ===== *)
(** * Epoch records

    The signed chain of epoch records that lets a node learn committees without
    executed state: [EpochRecord], [EpochVote] and [EpochCertificate] of
    [infrastructure/types/src/primary/epoch.rs], the tables of
    [infrastructure/storage/src/stores/epoch_store.rs], and the validation and
    collection of records from peers of [consensus/state-sync/src/epoch.rs].
    What peers answer is an input. *)
From S2P Require Import Prelude Lists State Types Committee Certificates.

(** ** Records, votes and certificates *)

Record EpochRecord := {
  er_epoch : Epoch;
  er_committee : list BlsPublicKey;
  er_next_committee : list BlsPublicKey;
  er_parent_hash : B256;
  er_parent_state : BlockNumHash;
  er_parent_consensus : B256
}.

Record EpochVote := {
  ev_epoch_hash : B256;
  ev_public_key : BlsPublicKey;
  ev_signature : BlsSignature
}.

Record EpochCertificate := {
  ec_epoch_hash : B256;
  ec_signature : BlsSignature;
  ec_signed_authorities : gset Z
}.

#[export] Instance EpochRecord_eq_dec : EqDecision EpochRecord.
Proof. solve_decision. Defined.

(** The hash of the BCS encoding of a record, and BLS signatures over an epoch
    digest under the epoch-boundary intent. *)
Class EpochCrypto := {
  record_hash : EpochRecord -> B256;
  verify_epoch_vote : BlsSignature -> B256 -> BlsPublicKey -> bool;
  aggregate_epoch_votes : list BlsSignature -> option BlsSignature;
  verify_epoch_aggregate : BlsSignature -> B256 -> list BlsPublicKey -> bool
}.

(** [sorted_keys]: the codec sorts the committees both ways. *)
Definition sort_keys (keys : list BlsPublicKey) : list BlsPublicKey := merge_sort Z.le keys.
Definition wire_record (r : EpochRecord) : EpochRecord :=
  {| er_epoch := er_epoch r; er_committee := sort_keys (er_committee r);
     er_next_committee := sort_keys (er_next_committee r); er_parent_hash := er_parent_hash r;
     er_parent_state := er_parent_state r; er_parent_consensus := er_parent_consensus r |}.

(** [super_quorum] *)
Definition super_quorum (r : EpochRecord) : Z := Z.of_nat (length (er_committee r)) * 2 / 3 + 1.

Section records.
Context `{!EpochCrypto}.

(** [EpochRecord::digest] *)
Definition record_digest (r : EpochRecord) : B256 := record_hash (wire_record r).

(** [EpochVote::check_signature] *)
Definition check_signature (v : EpochVote) : bool :=
  verify_epoch_vote (ev_signature v) (ev_epoch_hash v) (ev_public_key v).

(** [ValidatorAggregateSignature::verify_secure] *)
Definition verify_epoch_signatures (sig : BlsSignature) (hash : B256) (pks : list BlsPublicKey) : bool :=
  match pks with [] => true | _ => verify_epoch_aggregate sig hash pks end.

(** [EpochCertificate::check_signatures] *)
Definition check_signatures (cert : EpochCertificate) (signers : list BlsPublicKey) : bool :=
  verify_epoch_signatures (ec_signature cert) (ec_epoch_hash cert) signers.

(** [EpochRecord::verify_with_cert] *)
Definition verify_with_cert (r : EpochRecord) (cert : EpochCertificate) : bool :=
  if negb (record_digest r =? ec_epoch_hash cert) then false
  else
    let '(signers, pks) :=
      signed_by_loop 0 (btree_set_list (ec_signed_authorities cert)) (er_committee r) in
    if signers <? super_quorum r then false
    else verify_epoch_signatures (ec_signature cert) (ec_epoch_hash cert) pks.

(** [EpochRecord::verify_against_committee] *)
Definition verify_against_committee (r : EpochRecord) (expected : list BlsPublicKey)
    (cert : EpochCertificate) : bool :=
  if negb (bool_decide (er_committee r = expected)) then false else verify_with_cert r cert.

(** ** The epoch store *)

Record EpochDb := {
  epoch_records : gmap Epoch EpochRecord;
  epoch_records_index : gmap B256 Epoch;
  epoch_certs : gmap B256 EpochCertificate;
  pending_records : gmap Epoch EpochRecord
}.

(** [get_committee_keys] *)
Definition get_committee_keys (db : EpochDb) (epoch : Epoch) : option (list BlsPublicKey) :=
  match epoch_records db !! epoch with
  | Some rec => Some (er_committee rec)
  | None => er_next_committee <$> epoch_records db !! sat_sub epoch 1
  end.

(** [save_epoch_record] *)
Definition save_epoch_record (db : EpochDb) (rec : EpochRecord) : EpochDb :=
  {| epoch_records := <[er_epoch rec := wire_record rec]> (epoch_records db);
     epoch_records_index := <[record_digest rec := er_epoch rec]> (epoch_records_index db);
     epoch_certs := epoch_certs db; pending_records := pending_records db |}.

(** [save_epoch_record_with_cert] *)
Definition save_epoch_record_with_cert (db : EpochDb) (rec : EpochRecord) (cert : EpochCertificate) :
    EpochDb :=
  {| epoch_records := <[er_epoch rec := wire_record rec]> (epoch_records db);
     epoch_records_index := <[record_digest rec := er_epoch rec]> (epoch_records_index db);
     epoch_certs := <[record_digest rec := cert]> (epoch_certs db);
     pending_records := delete (er_epoch rec) (pending_records db) |}.

(** [remove_epoch_record] *)
Definition remove_epoch_record (db : EpochDb) (epoch : Epoch) : EpochDb :=
  match epoch_records db !! epoch with
  | Some rec =>
      {| epoch_records := delete epoch (epoch_records db);
         epoch_records_index := delete (record_digest rec) (epoch_records_index db);
         epoch_certs := delete (record_digest rec) (epoch_certs db);
         pending_records := pending_records db |}
  | None => db
  end.

(** [get_epoch_by_number], [get_epoch_by_hash] *)
Definition get_epoch_by_number (db : EpochDb) (epoch : Epoch) :
    option (EpochRecord * option EpochCertificate) :=
  record ← epoch_records db !! epoch;
  Some (record, epoch_certs db !! record_digest record).
Definition get_epoch_by_hash (db : EpochDb) (hash : B256) :
    option (EpochRecord * option EpochCertificate) :=
  epoch ← epoch_records_index db !! hash;
  record ← epoch_records db !! epoch;
  Some (record, epoch_certs db !! record_digest record).

(** [save_pending_epoch_record], [pending_epoch_records],
    [clear_pending_epoch_record] *)
Definition save_pending_epoch_record (db : EpochDb) (rec : EpochRecord) : EpochDb :=
  {| epoch_records := epoch_records db; epoch_records_index := epoch_records_index db;
     epoch_certs := epoch_certs db;
     pending_records := <[er_epoch rec := wire_record rec]> (pending_records db) |}.
Definition pending_epoch_records (db : EpochDb) : list EpochRecord :=
  stable_sort (fun x y => er_epoch x <=? er_epoch y) (btree_values (pending_records db)).
Definition clear_pending_epoch_record (db : EpochDb) (epoch : Epoch) : EpochDb :=
  {| epoch_records := epoch_records db; epoch_records_index := epoch_records_index db;
     epoch_certs := epoch_certs db; pending_records := delete epoch (pending_records db) |}.

(** ** Validation *)

(** [epoch_committee_valid] *)
Definition epoch_committee_valid (epoch_rec : EpochRecord) (committee : list BlsPublicKey) : bool :=
  let epoch_committee_len := Z.of_nat (length (er_committee epoch_rec)) in
  let committee_len := Z.of_nat (length committee) in
  match committee_len ?= epoch_committee_len with
  | Lt => false
  | Eq => bool_decide (committee = er_committee epoch_rec)
  | Gt =>
      let required := (committee_len * 2 + 2) / 3 in
      if epoch_committee_len <? required then false
      else forallb (fun k => bool_decide (k ∈ committee)) (er_committee epoch_rec)
  end.

(** [get_committee] *)
Definition get_committee (db : EpochDb) (epoch : Epoch) : option (B256 * list BlsPublicKey) :=
  if epoch =? 0 then committee ← get_committee_keys db 0; Some (0, committee)
  else
    prev ← epoch_records db !! (epoch - 1);
    Some (record_digest prev, er_next_committee prev).

(** [epoch_record_valid] *)
Definition epoch_record_valid (db : EpochDb) (epoch : Epoch) (epoch_rec : EpochRecord)
    (cert : EpochCertificate) : bool :=
  if negb (er_epoch epoch_rec =? epoch) then false
  else
    match get_committee db epoch with
    | None => false
    | Some (parent_hash, committee) =>
        (parent_hash =? er_parent_hash epoch_rec) && epoch_committee_valid epoch_rec committee &&
        verify_with_cert epoch_rec cert
    end.

(** ** Collection from peers *)

(** One request to some peer: the request cannot be sent, an answer that is no
    record, or a record with its certificate. *)
Inductive EpochReply :=
  | NoSend
  | NoRecord
  | Served (record : EpochRecord) (cert : EpochCertificate).

(** The answers of the members to an attestation request, each with the member
    that was asked, in order of arrival. *)
Abbreviation Arrivals := (list (BlsPublicKey * option (EpochRecord * EpochCertificate))).

(** The collector's database and what peers will answer it. *)
Record Collector := {
  c_db : EpochDb;
  c_replies : list EpochReply;
  c_attestations : list Arrivals
}.

Definition with_db (c : Collector) (db : EpochDb) : Collector :=
  {| c_db := db; c_replies := c_replies c; c_attestations := c_attestations c |}.

(** [request_epoch_cert], with [n] attempts left; an answer comes through the
    codec. *)
Fixpoint request_epoch_cert (n : nat) (replies : list EpochReply) :
    list EpochReply * option (EpochRecord * EpochCertificate) :=
  match n, replies with
  | O, _ => (replies, None)
  | S n, [] | S n, NoSend :: _ => (tail replies, None)
  | S n, NoRecord :: replies => request_epoch_cert n replies
  | S n, Served record cert :: replies => (replies, Some (wire_record record, cert))
  end.

Inductive FetchOutcome := Saved | Rejected | Unavailable.

(** [fetch_and_save_epoch] *)
Definition fetch_and_save_epoch (epoch : Epoch) (c : Collector) : Collector * FetchOutcome :=
  let '(replies, answer) := request_epoch_cert 3 (c_replies c) in
  let c := {| c_db := c_db c; c_replies := replies; c_attestations := c_attestations c |} in
  match answer with
  | Some (epoch_rec, cert) =>
      if negb (epoch_record_valid (c_db c) epoch epoch_rec cert) then (c, Rejected)
      else (with_db c (save_epoch_record_with_cert (c_db c) epoch_rec cert), Saved)
  | None => (c, Unavailable)
  end.

(** The outstanding requests once [member] has answered one. *)
Fixpoint take_ask (member : BlsPublicKey) (asks : list BlsPublicKey) : option (list BlsPublicKey) :=
  match asks with
  | [] => None
  | a :: asks => if a =? member then Some asks else cons a <$> take_ask member asks
  end.

(** The loop of [committee_attested_record] over the arrivals: [asks] are the
    members whose answers are outstanding, one for each request. *)
Fixpoint attest_loop (epoch : Epoch) (needed : Z) (asks : list BlsPublicKey) (votes : gmap B256 Z)
    (arrivals : Arrivals) : option (EpochRecord * EpochCertificate) :=
  match arrivals with
  | [] => None
  | (member, answer) :: arrivals =>
      match take_ask member asks with
      | None => attest_loop epoch needed asks votes arrivals
      | Some asks =>
          match answer with
          | None => attest_loop epoch needed asks votes arrivals
          | Some (record, cert) =>
              let record := wire_record record in
              if negb (er_epoch record =? epoch) || negb (verify_with_cert record cert)
              then attest_loop epoch needed asks votes arrivals
              else
                let count := default 0 (votes !! record_digest record) + 1 in
                if needed <=? count then Some (record, cert)
                else attest_loop epoch needed asks (<[record_digest record := count]> votes) arrivals
          end
      end
  end.

(** [committee_attested_record] *)
Definition committee_attested_record (epoch : Epoch) (committee : list BlsPublicKey)
    (arrivals : Arrivals) : Exec NoErr (option (EpochRecord * EpochCertificate)) :=
  needed ← quorum_threshold_of (Z.of_nat (length committee));
  mret (attest_loop epoch needed committee ∅ arrivals).

(** Whether the record of an epoch is stored with its certificate. *)
Definition certified (db : EpochDb) (epoch : Epoch) : bool :=
  match get_epoch_by_number db epoch with Some (_, Some _) => true | _ => false end.

(** The arm of [collect_epoch_records] for an epoch that did not land: whether
    its committee attests the record of the next one. *)
Definition pass_hole (epoch : Epoch) (c : Collector) : Collector * Exec NoErr bool :=
  match get_committee (c_db c) epoch with
  | None => (c, Ret false)
  | Some (_, committee) =>
      let arrivals := default [] (head (c_attestations c)) in
      let c := {| c_db := c_db c; c_replies := c_replies c;
                  c_attestations := tail (c_attestations c) |} in
      match committee_attested_record (epoch + 1) committee arrivals with
      | Ret (Some (record, cert)) =>
          (with_db c (save_epoch_record_with_cert (c_db c) record cert), Ret true)
      | Ret None => (c, Ret false)
      | Err e => (c, Err e)
      | Panic => (c, Panic)
      | Diverge => (c, Diverge)
      end
  end.

(** The loop of [collect_epoch_records]; the range overflows when it yields the
    largest epoch. *)
Fixpoint collect_loop (fuel : nat) (epoch result_epoch : Epoch) (c : Collector) :
    Collector * Exec NoErr Epoch :=
  match fuel with
  | O => (c, Diverge)
  | S fuel =>
      if u32_max <=? epoch then (c, Panic)
      else if certified (c_db c) epoch then collect_loop fuel (epoch + 1) result_epoch c
      else
        let '(c, outcome) := fetch_and_save_epoch epoch c in
        match outcome with
        | Saved => collect_loop fuel (epoch + 1) epoch c
        | Rejected | Unavailable =>
            let '(c, passed) := pass_hole epoch c in
            match passed with
            | Ret true => collect_loop fuel (epoch + 1) (epoch + 1) c
            | Ret false => (c, Ret result_epoch)
            | Err e => (c, Err e)
            | Panic => (c, Panic)
            | Diverge => (c, Diverge)
            end
        end
  end.

(** Every turn passes over a stored record, or uses up an answer. *)
Definition collect_fuel (c : Collector) : nat :=
  size (epoch_records (c_db c)) + 2 * length (c_replies c) + 2 * length (c_attestations c) + 1.

(** [collect_epoch_records] *)
Definition collect_epoch_records (last_epoch : Epoch) (c : Collector) : Collector * Exec NoErr Epoch :=
  collect_loop (collect_fuel c) last_epoch last_epoch c.

(** [retry_missing_epoch]: [late] tells for each attempt whether the budget is
    spent after it. *)
Fixpoint retry_missing_epoch (target : Epoch) (late : list bool) (c : Collector) : Collector * bool :=
  if certified (c_db c) target then (c, true)
  else
    let '(c, outcome) := fetch_and_save_epoch target c in
    match outcome with
    | Saved => (c, true)
    | _ => match late with
           | false :: late => retry_missing_epoch target late c
           | _ => (c, false)
           end
    end.

Definition MAX_RETRY_ROUNDS : Z := 3.
Definition MAX_BACKFILL_SCAN : nat := 64.
Definition MAX_BACKFILL_PER_PASS : nat := 4.
Definition MAX_BACKFILL_ATTEMPTS : Z := 10.
Definition BACKFILL_COOLDOWN_PASSES : Z := 20.

(** [missing_epochs] *)
Definition missing_epochs (present : gset Epoch) (max : nat) : list Epoch :=
  match head (btree_set_list present), last (btree_set_list present) with
  | Some first, Some last =>
      take max (filter (fun epoch => epoch ∉ present) (seqZ first (last - first)))
  | _, _ => []
  end.

(** [backfill_due] *)
Definition backfill_due (attempts : Z) (pass : Z) : bool :=
  (attempts <? MAX_BACKFILL_ATTEMPTS) || (pass mod BACKFILL_COOLDOWN_PASSES =? 0).

(** The loop of [backfill_missing_records]. *)
Fixpoint backfill_loop (holes : list Epoch) (attempts : gmap Epoch Z) (saved : nat) (c : Collector) :
    Collector * gmap Epoch Z * nat :=
  match holes with
  | [] => (c, attempts, saved)
  | epoch :: holes =>
      let '(c, outcome) := fetch_and_save_epoch epoch c in
      match outcome with
      | Saved => backfill_loop holes (delete epoch attempts) (S saved) c
      | _ => backfill_loop holes
               (<[epoch := Z.min u32_max (default 0 (attempts !! epoch) + 1)]> attempts) saved c
      end
  end.

(** [backfill_missing_records] *)
Definition backfill_missing_records (attempts : gmap Epoch Z) (pass : Z) (c : Collector) :
    Collector * gmap Epoch Z * nat :=
  let present := dom (epoch_records (c_db c)) in
  let holes := take MAX_BACKFILL_PER_PASS
    (filter (fun epoch => backfill_due (default 0 (attempts !! epoch)) pass = true)
       (missing_epochs present MAX_BACKFILL_SCAN)) in
  let attempts := filter (fun kv => kv.1 ∉ present) attempts in
  backfill_loop holes attempts 0 c.

(** The variables of the task of [spawn_epoch_record_collector]; [requested] is
    the watch [requested_missing_epoch]. *)
Record CollectorTask := {
  ct_collector : Collector;
  requested : Epoch;
  ct_last_epoch : Epoch;
  backfill_attempts : gmap Epoch Z;
  backfill_pass : Z;
  retry_target : option (Epoch * Z)
}.

(** What happens around one turn of the loop: the epoch on the watch, whether
    the budget or a change of the watch ends the retry after each of its
    attempts, and whether a backfill is due. *)
Record CollectorTurn := {
  tn_requested : Epoch;
  tn_late : list bool;
  tn_backfill : bool
}.

(** The retry target after a walk that reached [last_epoch]. *)
Definition pursue (target : option (Epoch * Z)) (last_epoch requested_epoch : Epoch) :
    option (Epoch * Z) :=
  if last_epoch <? requested_epoch then
    match target with
    | Some (epoch, rounds) =>
        Some (if epoch =? requested_epoch then (epoch, rounds + 1) else (requested_epoch, 0))
    | None => Some (requested_epoch, 0)
    end
  else None.

(** The walk at the top of a turn. *)
Definition turn_walk (t : CollectorTask) : CollectorTask * Exec NoErr unit :=
  let requested_epoch := Z.max (requested t) (match retry_target t with Some (e, _) => e | None => 0 end) in
  if requested_epoch <=? ct_last_epoch t then (t, Ret tt)
  else
    let '(c, r) := collect_epoch_records (ct_last_epoch t) (ct_collector t) in
    let t' last_epoch :=
      {| ct_collector := c;
         requested := if (last_epoch <? requested_epoch) && (last_epoch <? requested t)
                      then last_epoch else requested t;
         ct_last_epoch := last_epoch; backfill_attempts := backfill_attempts t;
         backfill_pass := backfill_pass t;
         retry_target := pursue (retry_target t) last_epoch requested_epoch |} in
    match r with
    | Ret last_epoch => (t' last_epoch, Ret tt)
    | Err e => (t' (ct_last_epoch t), Err e)
    | Panic => (t' (ct_last_epoch t), Panic)
    | Diverge => (t' (ct_last_epoch t), Diverge)
    end.

Definition set_retry (t : CollectorTask) (c : Collector) (x : option (Epoch * Z)) : CollectorTask :=
  {| ct_collector := c; requested := requested t; ct_last_epoch := ct_last_epoch t;
     backfill_attempts := backfill_attempts t; backfill_pass := backfill_pass t; retry_target := x |}.

(** The backfill at the end of a turn. *)
Definition turn_backfill (t : CollectorTask) : CollectorTask :=
  let pass := backfill_pass t + 1 in
  let '(c, attempts, _) := backfill_missing_records (backfill_attempts t) pass (ct_collector t) in
  {| ct_collector := c; requested := requested t; ct_last_epoch := ct_last_epoch t;
     backfill_attempts := attempts; backfill_pass := pass; retry_target := retry_target t |}.

(** The retry of a turn. *)
Definition turn_retry (late : list bool) (target : Epoch) (rounds : Z) (t : CollectorTask) :
    CollectorTask :=
  let '(c, landed) := retry_missing_epoch target late (ct_collector t) in
  set_retry t c (if landed then None else Some (target, rounds + 1)).

(** The watch as the turn finds it. *)
Definition observe (e : Epoch) (t : CollectorTask) : CollectorTask :=
  {| ct_collector := ct_collector t; requested := e; ct_last_epoch := ct_last_epoch t;
     backfill_attempts := backfill_attempts t; backfill_pass := backfill_pass t;
     retry_target := retry_target t |}.

(** One turn of the loop. *)
Definition collector_turn (n : CollectorTurn) : ST CollectorTask NoErr unit :=
  let fill := if tn_backfill n then modify turn_backfill else mret tt in
  _ ← modify (observe (tn_requested n));
  _ ← turn_walk;
  target ← gets retry_target;
  match target with
  | Some (target, rounds) =>
      if MAX_RETRY_ROUNDS <=? rounds
      then _ ← modify (fun t => set_retry t (ct_collector t) None); fill
      else modify (turn_retry (tn_late n) target rounds)
  | None => fill
  end.

(** The task: the last stored epoch to start from, then turn after turn. *)
Definition CollectorTask_new (c : Collector) : CollectorTask :=
  {| ct_collector := c; requested := 0;
     ct_last_epoch := default 0 (last (btree_keys (epoch_records (c_db c))));
     backfill_attempts := ∅; backfill_pass := 0; retry_target := None |}.
Fixpoint collector_run (turns : list CollectorTurn) : ST CollectorTask NoErr unit :=
  match turns with
  | [] => mret tt
  | n :: turns => _ ← collector_turn n; collector_run turns
  end.

End records.
