(* ===== verification/EpochRecordsProps.v ===== *)
(** * Trust in epoch records

    What the collection of epoch records guarantees: the records a node stores
    are those the honest members of the committees sign, whatever its peers
    answer, unless a record repeats a key in its committee; and what one member
    can do with such a record. *)
From S2P Require Import Prelude Lists State Types Committee Certificates EpochRecords.

(** ** The codec *)

Lemma sort_keys_perm l : sort_keys l ≡ₚ l.
Proof. apply merge_sort_Permutation. Qed.

Lemma sort_keys_sorted l : StronglySorted Z.le (sort_keys l).
Proof. apply StronglySorted_merge_sort; intros ??; lia. Qed.

Lemma sort_keys_unique l k : StronglySorted Z.le k -> l ≡ₚ k -> sort_keys l = k.
Proof.
  intros Hk Hp. apply (StronglySorted_unique Z.le); [apply sort_keys_sorted|done|].
  by rewrite sort_keys_perm.
Qed.

Lemma sort_keys_idemp l : sort_keys (sort_keys l) = sort_keys l.
Proof. apply sort_keys_unique; [apply sort_keys_sorted|done]. Qed.

Lemma wire_record_idemp r : wire_record (wire_record r) = wire_record r.
Proof. unfold wire_record at 1. cbn -[sort_keys]. by rewrite !sort_keys_idemp. Qed.

Lemma record_digest_wire `{!EpochCrypto} r : record_digest (wire_record r) = record_digest r.
Proof. unfold record_digest. by rewrite wire_record_idemp. Qed.

(** ** Trust in records *)

Section trust.
Context `{!EpochCrypto}.
Context (canon : Epoch -> EpochRecord) (genesis_record : EpochRecord).
Context (honest : BlsPublicKey -> bool) (signed : BlsPublicKey -> B256 -> Prop).

Definition faulty (keys : list BlsPublicKey) : nat := length (filter (fun k => honest k = false) keys).

(** A committee with fewer than a third of faulty members. *)
Definition sound (keys : list BlsPublicKey) : Prop :=
  NoDup keys /\ (3 * faulty keys < length keys)%nat.

(** The records that honest members sign form one chain [canon], with sound
    committees; the dummy record of epoch 0 names the genesis committee. *)
Record honest_chain : Prop := {
  hc_wire : forall e, wire_record (canon e) = canon e;
  hc_epoch : forall e, er_epoch (canon e) = e;
  hc_sound : forall e, sound (er_committee (canon e)) /\ sound (er_next_committee (canon e));
  hc_genesis : sound (er_committee genesis_record) /\ sound (er_next_committee genesis_record) /\
    er_epoch genesis_record = 0;
  hc_signs : forall k r, honest k = true -> signed k (record_digest r) ->
    record_digest r = record_digest (canon (er_epoch r))
}.

(** Signatures cannot be forged and the digest has no collisions. *)
Record records_secure : Prop := {
  rs_unforgeable : forall sig d pks k, verify_epoch_aggregate sig d pks = true -> k ∈ pks ->
    honest k = true -> signed k d;
  rs_collision_free : forall r r', record_digest r = record_digest r' -> wire_record r = wire_record r'
}.

Hypothesis chain : honest_chain.
Hypothesis secure : records_secure.

(** The stored records are those of the chain, up to the dummy of epoch 0, and
    certificates are held for records of the chain only. *)
Definition held (e : Epoch) (r : EpochRecord) : Prop := r = canon e \/ (e = 0 /\ r = genesis_record).
Record db_ok (db : EpochDb) : Prop := {
  do_records : forall e r, epoch_records db !! e = Some r -> held e r;
  do_certs : forall d cert, epoch_certs db !! d = Some cert -> exists e, d = record_digest (canon e)
}.

Lemma held_sound e r : held e r -> sound (er_committee r) /\ sound (er_next_committee r).
Proof using chain. intros [->|[_ ->]]; [apply (hc_sound chain)|]. by destruct (hc_genesis chain) as (? & ? & _). Qed.

Lemma db_ok_committee db e ph committee :
  db_ok db -> get_committee db e = Some (ph, committee) -> sound committee.
Proof using chain.
  intros [Hr _]. unfold get_committee, get_committee_keys.
  destruct (Z.eqb_spec e 0) as [->|]; intros Hc.
  - destruct (epoch_records db !! 0) as [r|] eqn:E; simplify_option_eq; by eapply held_sound, Hr.
  - destruct (epoch_records db !! (e - 1)) as [r|] eqn:E; simplify_option_eq. by eapply held_sound, Hr.
Qed.

Lemma signed_by_loop_sublist i js keys n pks :
  signed_by_loop i js keys = (n, pks) -> n = Z.of_nat (length pks) /\ pks `sublist_of` keys.
Proof. intros E. pose proof (signed_by_loop_spec i js keys) as Hsp. by rewrite E in Hsp. Qed.

(** Distinct keys of a committee that are more than its faulty members include
    an honest one. *)
Lemma honest_among keys pks :
  NoDup pks -> pks ⊆ keys -> (faulty keys < length pks)%nat ->
  exists k, k ∈ pks /\ honest k = true.
Proof.
  intros Hnd Hsub Hlen.
  destruct (decide (Exists (fun k => honest k = true) pks)) as [He|He].
  { apply Exists_exists in He as (k & ? & ?). eauto. }
  exfalso. apply not_Exists_Forall in He; [|apply _]. rewrite Forall_forall in He.
  assert (pks ⊆+ filter (fun k => honest k = false) keys) as Hle%submseteq_length.
  { apply NoDup_submseteq; [done|]. intros k Hk. apply list_elem_of_filter.
    split; [by apply not_true_is_false, He|by apply Hsub]. }
  unfold faulty in Hlen. lia.
Qed.

(** A committee that passes is made of members of the one expected, enough of
    them for its super quorum to outnumber the faulty ones. *)
Lemma epoch_committee_valid_spec r keys :
  sound keys -> epoch_committee_valid r keys = true ->
  er_committee r ⊆ keys /\ Z.of_nat (faulty keys) < super_quorum r.
Proof.
  intros [_ Hf]. unfold epoch_committee_valid, super_quorum.
  destruct (Z.compare_spec (Z.of_nat (length keys)) (Z.of_nat (length (er_committee r)))) as [Hl|Hl|Hl];
    [|done|].
  - intros ->%bool_decide_eq_true. split; [done|]. Z.to_euclidean_division_equations. lia.
  - destruct (Z.ltb_spec (Z.of_nat (length (er_committee r))) ((Z.of_nat (length keys) * 2 + 2) / 3)); [done|].
    rewrite forallb_forall. intros Hall. split.
    + intros k Hk. apply (bool_decide_eq_true (k ∈ keys)), Hall. by apply list_elem_of_In.
    + Z.to_euclidean_division_equations. lia.
Qed.

(** A record without repeated keys that is validated is the record of the
    chain. *)
Lemma epoch_record_valid_canonical db e r cert :
  db_ok db -> NoDup (er_committee r) -> epoch_record_valid db e r cert = true ->
  er_epoch r = e /\ wire_record r = canon e.
Proof using chain secure.
  intros Hdb Hnd. unfold epoch_record_valid.
  destruct (Z.eqb_spec (er_epoch r) e) as [He|]; [|done]. cbn.
  destruct (get_committee db e) as [[ph committee]|] eqn:Hc; [|done].
  intros [[_ Hv]%andb_prop Hcert]%andb_prop. apply (db_ok_committee _ _ _ _ Hdb) in Hc as Hs.
  destruct (epoch_committee_valid_spec _ _ Hs Hv) as [Hsub Hq].
  unfold verify_with_cert in Hcert. destruct (Z.eqb_spec (record_digest r) (ec_epoch_hash cert)) as [Hd|]; [|done].
  cbn in Hcert. destruct (signed_by_loop _ _ _) as [n pks] eqn:E.
  apply signed_by_loop_sublist in E as [-> Hpks].
  destruct (Z.ltb_spec (Z.of_nat (length pks)) (super_quorum r)) as [|Hn]; [done|].
  destruct (honest_among committee pks) as (k & Hk & Hh).
  { by eapply sublist_NoDup. }
  { intros x Hx. apply Hsub. by eapply sublist_subseteq. }
  { lia. }
  assert (verify_epoch_aggregate (ec_signature cert) (record_digest r) pks = true) as Hver.
  { rewrite Hd. by destruct pks; [inversion Hk|]. }
  pose proof (hc_signs chain k r Hh (rs_unforgeable secure _ _ _ _ Hver Hk Hh)) as Hcan.
  apply (rs_collision_free secure) in Hcan. rewrite He, (hc_wire chain) in Hcan. done.
Qed.

Lemma take_ask_perm k asks asks' : take_ask k asks = Some asks' -> asks ≡ₚ k :: asks'.
Proof.
  revert asks'. induction asks as [|a asks IH]; intros asks'; cbn; [done|].
  destruct (Z.eqb_spec a k) as [->|]; [by intros [= ->]|]. intros Hr.
  destruct (take_ask k asks) as [l|]; simplify_eq/=. rewrite (IH l) by done. constructor.
Qed.

Lemma faulty_perm l k : l ≡ₚ k -> faulty l = faulty k.
Proof. intros Hp. unfold faulty. by rewrite Hp. Qed.

Lemma faulty_cons k l : faulty (k :: l) = ((if honest k then 0 else 1) + faulty l)%nat.
Proof. unfold faulty. rewrite filter_cons. by destruct (honest k) eqn:E; case_decide. Qed.

(** An honest member serves records of the chain only. *)
Definition honest_answer (x : BlsPublicKey * option (EpochRecord * EpochCertificate)) : Prop :=
  forall r cert, x.2 = Some (r, cert) -> honest x.1 = true -> wire_record r = canon (er_epoch r).

(** A record that enough members attest is the record of the chain: the count
    of any other digest is at most that of the faulty members that answered. *)
Lemma attest_loop_canonical e needed committee asks votes arrivals r cert :
  (forall d, d <> record_digest (canon e) ->
     default 0 (votes !! d) + Z.of_nat (faulty asks) <= Z.of_nat (faulty committee)) ->
  Z.of_nat (faulty committee) < needed -> Forall honest_answer arrivals ->
  attest_loop e needed asks votes arrivals = Some (r, cert) ->
  er_epoch r = e /\ wire_record r = canon e.
Proof using chain secure.
  intros Hv Hn Ha. revert asks votes Hv. induction Ha as [|[k a] arrivals Hk Ha IH]; intros asks votes Hv; cbn [attest_loop]; [done|].
  destruct (take_ask k asks) as [asks'|] eqn:Eask; [|by apply IH].
  apply take_ask_perm, faulty_perm in Eask. rewrite faulty_cons in Eask.
  assert (forall d, d <> record_digest (canon e) ->
     default 0 (votes !! d) + Z.of_nat (faulty asks') <= Z.of_nat (faulty committee)) as Hv'.
  { intros d Hd%Hv. lia. }
  destruct a as [[r' cert']|]; [|by apply IH].
  destruct (Z.eqb_spec (er_epoch (wire_record r')) e) as [He|]; cbn [negb orb]; [|by apply IH].
  destruct (verify_with_cert (wire_record r') cert'); cbn [negb]; [|by apply IH].
  destruct (decide (record_digest (wire_record r') = record_digest (canon e))) as [Hd|Hd].
  - destruct (Z.leb_spec needed (default 0 (votes !! record_digest (wire_record r')) + 1)).
    + intros [= <- <-]. split; [done|]. apply (rs_collision_free secure) in Hd.
      by rewrite Hd, (hc_wire chain).
    + apply IH. intros d Hne. rewrite lookup_insert_ne by congruence. by apply Hv'.
  - destruct (honest k) eqn:Eh.
    { contradict Hd. rewrite (Hk _ _ eq_refl Eh). by rewrite <-He. }
    pose proof (Hv _ Hd).
    destruct (Z.leb_spec needed (default 0 (votes !! record_digest (wire_record r')) + 1)); [lia|].
    apply IH. intros d Hne. destruct (decide (d = record_digest (wire_record r'))) as [->|].
    + rewrite lookup_insert_eq. cbn. lia.
    + rewrite lookup_insert_ne by done. by apply Hv'.
Qed.

Lemma committee_attested_canonical e committee arrivals r cert :
  sound committee -> Forall honest_answer arrivals ->
  committee_attested_record e committee arrivals = Ret (Some (r, cert)) ->
  er_epoch r = e /\ wire_record r = canon e.
Proof using chain secure.
  intros [_ Hf] Ha Hr. unfold committee_attested_record, quorum_threshold_of in Hr.
  apply bind_Ret_inv in Hr as (needed & Hneed & [= Hr]).
  apply bind_Ret_inv in Hneed as (d & [-> _]%umul_Ret & [-> _]%uadd_Ret).
  eapply (attest_loop_canonical e _ committee committee ∅ arrivals r cert); [| |done|done].
  - intros d _. rewrite lookup_empty. cbn. lia.
  - Z.to_euclidean_division_equations. lia.
Qed.

(** ** The collector *)

Lemma save_db_ok db e r cert :
  db_ok db -> er_epoch r = e -> wire_record r = canon e ->
  db_ok (save_epoch_record_with_cert db r cert).
Proof.
  intros [Hr Hc] He Hw. split; cbn.
  - intros e' r'. rewrite lookup_insert. case_decide; [|apply Hr]. intros [= <-]. left. congruence.
  - intros d c'. rewrite lookup_insert. case_decide; [|apply Hc]. intros _. exists e. subst d.
    by rewrite <-record_digest_wire, Hw.
Qed.

(** What peers answer: any record with distinct keys, and from honest members
    records of the chain. *)
Definition reply_ok (x : EpochReply) : Prop :=
  match x with Served r _ => NoDup (er_committee r) | _ => True end.
Record collector_ok (c : Collector) : Prop := {
  co_db : db_ok (c_db c);
  co_replies : Forall reply_ok (c_replies c);
  co_attestations : Forall (Forall honest_answer) (c_attestations c)
}.

Lemma request_epoch_cert_ok n replies replies' a :
  Forall reply_ok replies -> request_epoch_cert n replies = (replies', a) ->
  Forall reply_ok replies' /\ (length replies' <= length replies)%nat /\
  forall r cert, a = Some (r, cert) ->
    NoDup (er_committee r) /\ wire_record r = r /\ (length replies' < length replies)%nat.
Proof.
  intros Hf. revert replies Hf. induction n as [|n IH]; intros replies Hf; cbn.
  { intros [= <- <-]. by split_and!. }
  destruct Hf as [|x replies Hx Hf]; cbn; [by intros [= <- <-]; split_and!|].
  destruct x as [| |r cert]; cbn in *.
  - intros [= <- <-]. split_and!; [done|lia|done].
  - intros Hr. apply IH in Hr as (? & ? & Ha); [|done]. split_and!; [done|lia|].
    intros r cert ->. destruct (Ha _ _ eq_refl) as (? & ? & ?). split_and!; [done..|lia].
  - intros [= <- <-]. split_and!; [done|lia|]. intros r' cert' [= <- <-].
    split_and!; [by cbn; rewrite sort_keys_perm|apply wire_record_idemp|lia].
Qed.

Lemma fetch_and_save_ok e c c' o :
  collector_ok c -> fetch_and_save_epoch e c = (c', o) ->
  collector_ok c' /\ c_attestations c' = c_attestations c /\
  match o with
  | Saved => (length (c_replies c') < length (c_replies c))%nat /\
      exists r, epoch_records (c_db c') = <[e := r]> (epoch_records (c_db c))
  | _ => (length (c_replies c') <= length (c_replies c))%nat /\ c_db c' = c_db c
  end.
Proof using chain secure.
  intros [Hdb Hr Ha]. unfold fetch_and_save_epoch.
  destruct (request_epoch_cert 3 (c_replies c)) as [replies a] eqn:E.
  destruct (request_epoch_cert_ok _ _ _ _ Hr E) as (Hr' & Hl & Hans). cbn.
  destruct a as [[r cert]|]; [|by intros [= <- <-]].
  destruct (Hans _ _ eq_refl) as (Hnd & Hw & Hlt).
  destruct (epoch_record_valid (c_db c) e r cert) eqn:Ev; cbn; [|by intros [= <- <-]].
  destruct (epoch_record_valid_canonical _ _ _ _ Hdb Hnd Ev) as [He Hcan].
  intros [= <- <-]. cbn. split_and!; [|done|done|by exists (wire_record r); rewrite He].
  split; cbn; [by eapply save_db_ok|done|done].
Qed.

(** Stored epochs from [e] on. *)
Definition above (e : Epoch) (m : gmap Epoch EpochRecord) : nat := size (filter (fun kv => e <= kv.1) m).

Lemma above_le e m : (above e m <= size m)%nat.
Proof. apply map_size_filter. Qed.

Lemma above_next e m r : m !! e = Some r -> (above (e + 1) m < above e m)%nat.
Proof.
  intros Hm. unfold above.
  replace (filter (fun kv => e <= kv.1) m) with (<[e := r]> (filter (fun kv => e + 1 <= kv.1) m)).
  { rewrite map_size_insert_None; [cbn; lia|]. apply map_lookup_filter_None. right. intros x _. cbn. lia. }
  apply map_eq. intros k. destruct (decide (k = e)) as [->|].
  - rewrite lookup_insert_eq. symmetry. apply map_lookup_filter_Some. by cbn.
  - rewrite lookup_insert_ne by done. apply option_eq. intros x.
    rewrite !map_lookup_filter_Some. cbn. naive_solver lia.
Qed.

Lemma above_insert e k m r : (above e (<[k := r]> m) <= above e m + 1)%nat /\
  (k < e -> above e (<[k := r]> m) = above e m).
Proof.
  unfold above. rewrite map_filter_insert. cbn. split.
  - case_decide; [rewrite map_size_insert; case_match; cbn; lia|].
    rewrite map_filter_delete, map_size_delete. case_match; cbn; lia.
  - intros Hk. rewrite decide_False by lia. rewrite map_filter_delete.
    f_equal. apply delete_id, map_lookup_filter_None. right. intros x _. cbn. lia.
Qed.

Lemma above_succ e m : (above (e + 1) m <= above e m)%nat.
Proof.
  destruct (m !! e) as [r|] eqn:E; [by apply above_next in E; lia|].
  unfold above. apply Nat.eq_le_incl. f_equal. apply map_filter_ext. intros k r Hk. cbn.
  destruct (decide (k = e)) as [->|]; [congruence|lia].
Qed.

Definition work (e : Epoch) (c : Collector) : nat :=
  above e (epoch_records (c_db c)) + 2 * length (c_replies c) + 2 * length (c_attestations c).

Lemma fetch_work e c c' o :
  collector_ok c -> fetch_and_save_epoch e c = (c', o) ->
  collector_ok c' /\
  match o with
  | Saved => (work (e + 1) c' < work e c)%nat
  | _ => (work e c' <= work e c)%nat
  end.
Proof using chain secure.
  intros Hok Hf. destruct (fetch_and_save_ok _ _ _ _ Hok Hf) as (Hok' & Ha & Ho).
  split; [done|]. unfold work. rewrite Ha.
  destruct o; [destruct Ho as (Hl & r & ->)|destruct Ho as [Hl ->]; lia..].
  rewrite (proj2 (above_insert _ _ _ _)) by lia.
  pose proof (above_succ e (epoch_records (c_db c))). lia.
Qed.

Lemma pass_hole_ok e c c' r :
  collector_ok c -> pass_hole e c = (c', r) ->
  collector_ok c' /\ r <> Diverge /\ (r = Ret true -> (work (e + 1) c' < work e c)%nat).
Proof using chain secure.
  intros [Hdb Hr Ha]. unfold pass_hole.
  destruct (get_committee (c_db c) e) as [[ph committee]|] eqn:Hc; [|by intros [= <- <-]].
  assert (Forall honest_answer (default [] (head (c_attestations c))) /\
          Forall (Forall honest_answer) (tail (c_attestations c))) as [Hh Ht].
  { destruct Ha; by split. }
  destruct (committee_attested_record _ _ _) as [[[r' cert]|]| | |] eqn:Ec.
  2-5: intros [= <- <-]; split_and!; [by split| |done]; try done.
  2: exfalso; revert Ec; unfold committee_attested_record, quorum_threshold_of, umul, uadd;
    cbn; repeat case_match; cbn; repeat case_match; done.
  intros [= <- <-]. destruct (committee_attested_canonical _ _ _ _ _ (db_ok_committee _ _ _ _ Hdb Hc) Hh Ec) as [He Hw].
  split_and!; [|done|].
  - split; cbn; [by eapply save_db_ok|done|done].
  - intros _. unfold work. cbn. rewrite He.
    pose proof (proj1 (above_insert (e + 1) (e + 1) (epoch_records (c_db c)) (wire_record r'))).
    pose proof (above_succ e (epoch_records (c_db c))).
    destruct (c_attestations c) as [|a atts]; cbn; [|lia].
    unfold committee_attested_record, quorum_threshold_of in Ec.
    by repeat (apply bind_Ret_inv in Ec as (? & _ & Ec)).
Qed.

(** The walk ends, and stores records of the chain only. *)
Lemma collect_loop_ok fuel e res c :
  collector_ok c -> (work e c < fuel)%nat ->
  collector_ok (collect_loop fuel e res c).1 /\ (collect_loop fuel e res c).2 <> Diverge.
Proof using chain secure.
  revert e res c. induction fuel as [|fuel IH]; intros e res c Hok Hw; [lia|]. cbn [collect_loop].
  destruct (u32_max <=? e); [done|].
  destruct (certified (c_db c) e) eqn:Eg.
  { apply IH; [done|]. unfold certified, get_epoch_by_number in Eg.
    destruct (epoch_records (c_db c) !! e) eqn:Er; [|done].
    pose proof (above_next _ _ _ Er). unfold work in *. lia. }
  destruct (fetch_and_save_epoch e c) as [c1 o] eqn:Ef.
  destruct (fetch_work _ _ _ _ Hok Ef) as [Hok1 Hw1].
  destruct o; [apply IH; [done|lia]| |].
  all: destruct (pass_hole e c1) as [c2 r] eqn:Ep.
  all: destruct (pass_hole_ok _ _ _ _ Hok1 Ep) as (Hok2 & Hr & Hw2).
  all: destruct r as [[]| | |]; try done.
  all: apply IH; [done|]; specialize (Hw2 eq_refl); lia.
Qed.

Lemma collect_epoch_records_ok e c :
  collector_ok c ->
  collector_ok (collect_epoch_records e c).1 /\ (collect_epoch_records e c).2 <> Diverge.
Proof using chain secure.
  intros Hok. apply collect_loop_ok; [done|]. unfold work, collect_fuel.
  pose proof (above_le e (epoch_records (c_db c))). lia.
Qed.

Lemma retry_missing_epoch_ok target late c :
  collector_ok c -> collector_ok (retry_missing_epoch target late c).1.
Proof using chain secure.
  revert c. induction late as [|[] late IH]; intros c Hok; cbn.
  all: destruct (certified _ _); [done|].
  all: destruct (fetch_and_save_epoch target c) as [c1 o] eqn:Ef.
  all: destruct (fetch_work _ _ _ _ Hok Ef) as [Hok1 _]; destruct o; auto.
Qed.

Lemma backfill_loop_ok holes attempts saved c :
  collector_ok c -> collector_ok (backfill_loop holes attempts saved c).1.1.
Proof using chain secure.
  revert attempts saved c. induction holes as [|e holes IH]; intros attempts saved c Hok; cbn; [done|].
  destruct (fetch_and_save_epoch e c) as [c1 o] eqn:Ef.
  destruct (fetch_work _ _ _ _ Hok Ef) as [Hok1 _]. destruct o; by apply IH.
Qed.

Definition task_fine (x : CollectorTask * Exec NoErr unit) : Prop :=
  collector_ok (ct_collector x.1) /\ x.2 <> Diverge.

Lemma turn_walk_ok t : collector_ok (ct_collector t) -> task_fine (turn_walk t).
Proof using chain secure.
  intros Hok. unfold turn_walk. case_match; [done|].
  destruct (collect_epoch_records_ok (ct_last_epoch t) _ Hok) as [Hc Hr].
  destruct (collect_epoch_records _ _) as [c r]. by destruct r.
Qed.

Lemma turn_backfill_ok t : collector_ok (ct_collector t) -> collector_ok (ct_collector (turn_backfill t)).
Proof using chain secure.
  intros Hok. unfold turn_backfill, backfill_missing_records.
  match goal with |- context [backfill_loop ?h ?a 0 _] => pose proof (backfill_loop_ok h a 0 _ Hok) as Hb end.
  by destruct (backfill_loop _ _ _ _) as [[c a] n].
Qed.

Lemma collector_turn_ok n t : collector_ok (ct_collector t) -> task_fine (collector_turn n t).
Proof using chain secure.
  intros Hok. unfold collector_turn, mbind, st_bind, modify, gets, mret, st_ret. cbn.
  destruct (turn_walk_ok (observe (tn_requested n) t) Hok) as [Hc Hr].
  destruct (turn_walk _) as [t1 []]; cbn in *; try done.
  destruct (retry_target t1) as [[target rounds]|].
  - destruct (MAX_RETRY_ROUNDS <=? rounds).
    + destruct (tn_backfill n); split; try done. by apply turn_backfill_ok.
    + unfold turn_retry. pose proof (retry_missing_epoch_ok target (tn_late n) _ Hc).
      by destruct (retry_missing_epoch _ _ _) as [c landed].
  - destruct (tn_backfill n); split; try done. by apply turn_backfill_ok.
Qed.

(** C24: Trustless collection of epoch records: whatever peers answer, in walks past
    holes, retries and backfills, as long as no answer repeats a key in its
    committee, the collector stores only records of the chain that the honest
    members sign, and keeps certificates of those only; and every walk ends. *)
Theorem collected_records_canonical turns c t r :
  collector_ok c -> collector_run turns (CollectorTask_new c) = (t, r) ->
  db_ok (c_db (ct_collector t)) /\ r <> Diverge.
Proof using chain secure.
  intros Hok. enough (Hrun : forall t0, collector_ok (ct_collector t0) -> task_fine (collector_run turns t0)).
  { intros E. specialize (Hrun (CollectorTask_new c) Hok). rewrite E in Hrun. by destruct Hrun as [[]]. }
  clear c Hok t r. induction turns as [|n turns IH]; intros t Hok; [done|].
  cbn. unfold mbind, st_bind. destruct (collector_turn_ok n t Hok) as [Hc Hr].
  destruct (collector_turn n t) as [t1 []]; cbn in *; try done. by apply IH.
Qed.

End trust.

(** ** What certifies a record *)

(** BLS aggregation: votes that verify for their keys aggregate to a signature
    that verifies for the list of keys. *)
Class EpochCryptoOk `{!EpochCrypto} : Prop :=
  aggregate_votes_verify : forall d sigs keys, sigs <> [] ->
    Forall2 (fun s k => verify_epoch_vote s d k = true) sigs keys ->
    exists s, aggregate_epoch_votes sigs = Some s /\ verify_epoch_aggregate s d keys = true.

Section certify.
Context `{!EpochCrypto} {crypto_ok : EpochCryptoOk}.

(** A certificate that names a super quorum of the committee's keys, with their
    aggregate signature, verifies. *)
Lemma certificate_verifies r f sig :
  super_quorum r <= Z.of_nat (length (List.filter f (er_committee r))) ->
  verify_epoch_aggregate sig (record_digest r) (List.filter f (er_committee r)) = true ->
  verify_with_cert r {| ec_epoch_hash := record_digest r; ec_signature := sig;
    ec_signed_authorities := list_to_set (positions f 0 (er_committee r)) |} = true.
Proof.
  intros Hq Hs. unfold verify_with_cert. cbn. rewrite Z.eqb_refl. cbn.
  rewrite btree_set_list_sorted by apply positions_sorted. rewrite signed_by_positions.
  rewrite (proj2 (Z.ltb_ge _ _)) by done.
  unfold verify_epoch_signatures. destruct (List.filter f (er_committee r)) eqn:E; [done|].
  by rewrite <-E in *.
Qed.

(** A record built on the stored parent, whose committee is the one the parent
    names and of which a super quorum signed, is accepted. *)
Lemma next_record_accepted db p r f sig :
  er_epoch r <> 0 -> epoch_records db !! (er_epoch r - 1) = Some p ->
  er_parent_hash r = record_digest p -> er_committee r = er_next_committee p ->
  super_quorum r <= Z.of_nat (length (List.filter f (er_committee r))) ->
  verify_epoch_aggregate sig (record_digest r) (List.filter f (er_committee r)) = true ->
  exists cert, epoch_record_valid db (er_epoch r) r cert = true.
Proof.
  intros He Hp Hh Hc Hq Hs. eexists. unfold epoch_record_valid. rewrite Z.eqb_refl. cbn.
  unfold get_committee. rewrite (proj2 (Z.eqb_neq _ _) He), Hp. cbn. rewrite Hh, Z.eqb_refl. cbn.
  apply andb_true_intro. split; [|by eapply certificate_verifies].
  unfold epoch_committee_valid. rewrite Hc, Z.compare_refl. by apply bool_decide_eq_true_2.
Qed.

Lemma List_filter_true {A} (l : list A) : List.filter (fun _ => true) l = l.
Proof. induction l; cbn; congruence. Qed.

Lemma sort_keys_replicate n k : sort_keys (replicate n k) = replicate n k.
Proof.
  apply sort_keys_unique; [|done]. induction n; cbn; constructor; [done|].
  apply Forall_replicate. lia.
Qed.

(** C39: One member can forge an epoch record. The keys of a record that lists
    fewer keys than the expected committee only have to be members of it, and
    may repeat: the record that lists one member two thirds of the committee's
    size times is certified by that member's vote alone. A collector that is
    served it stores it, and from then on holds the committee that it names
    for the next epoch. *)
Theorem one_vote_forges_record db e ph committee r v :
  get_committee db e = Some (ph, committee) -> 0 <= e -> (3 <= length committee)%nat ->
  ev_public_key v ∈ committee -> check_signature v = true -> ev_epoch_hash v = record_digest r ->
  er_epoch r = e -> er_parent_hash r = ph ->
  er_committee r = replicate (Z.to_nat ((Z.of_nat (length committee) * 2 + 2) / 3)) (ev_public_key v) ->
  exists cert, forall replies attestations,
    let '(c, outcome) := fetch_and_save_epoch e
      {| c_db := db; c_replies := Served r cert :: replies; c_attestations := attestations |} in
    outcome = Saved /\
    get_committee (c_db c) (e + 1) = Some (record_digest r, sort_keys (er_next_committee r)).
Proof using crypto_ok.
  intros Hc He Hn Hk Hv Hd Hre Hrp Hrc. set (n := Z.of_nat (length committee)) in *.
  set (m := Z.to_nat ((n * 2 + 2) / 3)) in *.
  assert (Z.of_nat m = (n * 2 + 2) / 3 /\ Z.of_nat m < n /\ 0 < Z.of_nat m) as (Hm & Hmn & Hm0).
  { unfold m. rewrite Z2Nat.id; Z.to_euclidean_division_equations; lia. }
  assert (length (er_committee (wire_record r)) = m) as Hlen.
  { cbn. rewrite Hrc, sort_keys_replicate. apply length_replicate. }
  destruct (aggregate_votes_verify (record_digest r) (replicate m (ev_signature v)) (er_committee (wire_record r)))
    as (sig & _ & Hs).
  { destruct m; [lia|done]. }
  { cbn. rewrite Hrc, sort_keys_replicate. apply Forall2_replicate. by rewrite <-Hd. }
  eexists. intros replies attestations. unfold fetch_and_save_epoch. cbn [c_replies request_epoch_cert c_db].
  assert (epoch_record_valid db e (wire_record r) {| ec_epoch_hash := record_digest (wire_record r);
    ec_signature := sig; ec_signed_authorities :=
      list_to_set (positions (fun _ => true) 0 (er_committee (wire_record r))) |} = true) as ->.
  { unfold epoch_record_valid. cbn [er_epoch wire_record]. rewrite Hre, Z.eqb_refl. cbn [negb]. rewrite Hc.
    cbn [er_parent_hash wire_record]. rewrite Hrp, Z.eqb_refl. cbn [andb]. apply andb_true_intro. split.
    - unfold epoch_committee_valid. rewrite Hlen. fold n. rewrite (proj2 (Z.compare_gt_iff _ _)) by lia.
      rewrite (proj2 (Z.ltb_ge _ _)) by lia. cbn. rewrite Hrc, sort_keys_replicate.
      apply forallb_forall. intros x Hx%list_elem_of_In. apply elem_of_replicate in Hx as [-> _].
      by apply bool_decide_eq_true_2.
    - apply certificate_verifies; rewrite List_filter_true; [|by rewrite record_digest_wire].
      unfold super_quorum. rewrite Hlen. Z.to_euclidean_division_equations. lia. }
  cbn [negb]. split; [done|]. unfold get_committee. rewrite (proj2 (Z.eqb_neq _ _)) by lia. cbn.
  replace (e + 1 - 1) with e by lia. rewrite Hre, lookup_insert_eq. cbn.
  rewrite !record_digest_wire. do 2 f_equal. apply sort_keys_idemp.
Qed.

(** The records of an epoch read back by number and by digest. *)
Lemma save_read db r cert :
  let db' := save_epoch_record_with_cert db r cert in
  get_epoch_by_number db' (er_epoch r) = Some (wire_record r, Some cert) /\
  get_epoch_by_hash db' (record_digest r) = Some (wire_record r, Some cert) /\
  get_committee_keys db' (er_epoch r) = Some (sort_keys (er_committee r)) /\
  er_epoch r ∉ dom (pending_records db').
Proof.
  cbn. unfold get_epoch_by_number, get_epoch_by_hash, get_committee_keys. cbn.
  rewrite !lookup_insert_eq. cbn. rewrite lookup_insert_eq. cbn.
  rewrite !record_digest_wire, lookup_insert_eq. split_and!; try done. set_solver.
Qed.

End certify.

(** ** Examples *)

Module EpochExamples.

Definition record_tuple (r : EpochRecord) :=
  (er_epoch r, er_committee r, er_next_committee r, er_parent_hash r,
   (bnh_number (er_parent_state r), bnh_hash (er_parent_state r)), er_parent_consensus r).

(** One record per epoch, by a committee of four of which 14 is faulty. *)
Definition canon (e : Epoch) : EpochRecord :=
  {| er_epoch := e; er_committee := [11; 12; 13; 14]; er_next_committee := [11; 12; 13; 14];
     er_parent_hash := 0; er_parent_state := {| bnh_number := 0; bnh_hash := 0 |};
     er_parent_consensus := e |}.
Definition honest (k : BlsPublicKey) : bool := negb (k =? 14).

Definition hash (r : EpochRecord) : B256 := Z.pos (encode (record_tuple r)).
Definition signs (d : B256) : bool :=
  match decode (A := _) (Z.to_pos d) with
  | Some t => let '(e, _, _, _, _, _) := t : Z * list Z * list Z * Z * (Z * Z) * Z in
              d =? hash (canon e)
  | None => false
  end.

(** Honest keys only sign the records [canon]. *)
Definition crypto : EpochCrypto := {|
  record_hash := hash;
  verify_epoch_vote := fun _ d k => signs d || negb (honest k);
  aggregate_epoch_votes := fun sigs => head sigs;
  verify_epoch_aggregate := fun _ d ks => signs d || forallb (fun k => negb (honest k)) ks
|}.
#[export] Existing Instance crypto.

#[export] Instance crypto_ok : EpochCryptoOk.
Proof.
  intros d sigs keys Hne Hf. destruct Hf as [|s k sigs keys Hs Hf]; [done|]. exists s. split; [done|].
  cbn in *. destruct (signs d); [done|]. cbn in *. rewrite Hs. cbn.
  clear Hs Hne. induction Hf as [|s' k' sigs keys Hs' _ IH]; [done|]. cbn. by rewrite Hs', IH.
Qed.

Lemma hash_inj r r' : hash r = hash r' -> r = r'.
Proof.
  intros [= He%(inj _)]. destruct r as [? ? ? ? [] ?], r' as [? ? ? ? [] ?]. cbn in He. by simplify_eq.
Qed.

Lemma signs_spec d : signs d = true -> exists e, d = hash (canon e).
Proof.
  unfold signs. destruct (decode _) as [[[[[[e c] n] p] s] x]|]; [|done]. intros ->%Z.eqb_eq. by exists e.
Qed.

Lemma canon_wire e : wire_record (canon e) = canon e.
Proof. done. Qed.

Lemma secure : records_secure honest (fun _ d => signs d = true).
Proof.
  split.
  - cbn. intros _ d pks k Hv Hk Hh. destruct (signs d); [done|]. cbn in Hv.
    rewrite forallb_forall in Hv. specialize (Hv k). rewrite Hh in Hv. by discriminate Hv; apply list_elem_of_In.
  - intros r r' Hd. by apply hash_inj.
Qed.

Lemma chain : honest_chain canon (canon 0) honest (fun _ d => signs d = true).
Proof.
  assert (sound honest [11; 12; 13; 14]) as Hs.
  { split; [repeat constructor; set_solver|]. vm_compute. lia. }
  split; [done|done|done|done|]. intros k r _ [e He]%signs_spec.
  unfold record_digest in *. cbn in He. apply hash_inj in He. cbn. rewrite He.
  f_equal. change (wire_record (canon (er_epoch r))) with (canon (er_epoch r)).
  f_equal. change (er_epoch r) with (er_epoch (wire_record r)). by rewrite He.
Qed.

Definition db : EpochDb :=
  {| epoch_records := {[0 := canon 0]}; epoch_records_index := {[record_digest (canon 0) := 0]};
     epoch_certs := ∅; pending_records := ∅ |}.

(** A certificate of the first three members. *)
Definition cert (r : EpochRecord) : EpochCertificate :=
  {| ec_epoch_hash := record_digest r; ec_signature := 5; ec_signed_authorities := {[0; 1; 2]} |}.

Definition collector : Collector :=
  {| c_db := db; c_replies := [Served (canon 0) (cert (canon 0)); NoRecord; NoSend];
     c_attestations := [[(12, Some (canon 2, cert (canon 2))); (14, None);
                         (13, Some (canon 2, cert (canon 2))); (11, Some (canon 2, cert (canon 2)))]] |}.

Lemma collector_fine : collector_ok canon (canon 0) honest collector.
Proof.
  split.
  - split; cbn.
    + intros e r [<- <-]%lookup_singleton_Some. by left.
    + intros d c. by rewrite lookup_empty.
  - repeat constructor; set_solver.
  - repeat constructor; intros r c; cbn; intros [= <- <-] _; done.
Qed.

Lemma collected_records_canonical_witness :
  let x := collector_run [{| tn_requested := 3; tn_late := [true]; tn_backfill := true |}]
             (CollectorTask_new collector) in
  (db_ok canon (canon 0) (c_db (ct_collector x.1)) /\ x.2 <> Diverge) /\
  dom (epoch_records (c_db (ct_collector x.1))) = ({[0; 2]} : gset Z).
Proof.
  intros x. split.
  - exact (collected_records_canonical canon (canon 0) honest _ chain secure _ collector x.1 x.2
      collector_fine (surjective_pairing x)).
  - vm_compute. reflexivity.
Defined.

(** Member 14 forges the record of epoch 1. *)
Definition forged : EpochRecord :=
  {| er_epoch := 1; er_committee := [14; 14; 14]; er_next_committee := [99];
     er_parent_hash := record_digest (canon 0); er_parent_state := {| bnh_number := 0; bnh_hash := 0 |};
     er_parent_consensus := 0 |}.

Lemma one_vote_forges_record_witness :
  exists cert, forall replies attestations,
    let '(c, outcome) := fetch_and_save_epoch 1
      {| c_db := db; c_replies := Served forged cert :: replies; c_attestations := attestations |} in
    outcome = Saved /\ get_committee (c_db c) 2 = Some (record_digest forged, [99]).
Proof.
  exact (one_vote_forges_record db 1 (record_digest (canon 0)) [11; 12; 13; 14] forged
    {| ev_epoch_hash := record_digest forged; ev_public_key := 14; ev_signature := 0 |}
    ltac:(vm_compute; reflexivity) ltac:(lia) ltac:(cbn; lia) ltac:(set_solver)
    ltac:(vm_compute; reflexivity) eq_refl eq_refl eq_refl eq_refl).
Defined.

End EpochExamples.
