(* ===== verification/Hardforks.v ===== *)
(** * Hard forks

    [crates/execution/evm/src/chainspec]: the forks and their version bytes
    ([fork.rs]), the schedule of each network ([schedule.rs]), the queries on a
    schedule ([hardforks.rs]) and the base fee of the next block ([spec.rs]).

    [ForkCondition] and [calc_next_block_base_fee] are library code: what the
    schedules use of the first is its constructors [Block] and [Never] with
    [active_at_block] as documented ([ForkConditionOk]); the second is a
    parameter. *)
From Stdlib Require Import Ascii String.
From S2P Require Import Prelude.
#[local] Open Scope string_scope.
#[local] Open Scope Z_scope.
#[local] Open Scope list_scope.

(** ** Forks *)

Inductive RaylsHardFork :=
  | Eip1559 | BatchDigestV2 | AdminTransfer | PrecompileGasFix | RlsStorage | Tokenomics | Uups
  | Erc20PrecompileBytecode | TransactionLoadBalancing | UsdrSupplyCorrection | EmptyOutputBlock
  | DynamicCommitteeSizing | HybridRewards | OutputSeqNormalization
  | SenderAffinityLoadBalancing | Eip161EmptyAccountGuard | EpochCloseSeedV2
  | CertificateFetchEpochV2 | Erc20PrecompileDirectCall.

(** [RaylsHardFork::VARIANTS], in declaration order. *)
Definition VARIANTS : list RaylsHardFork :=
  [Eip1559; BatchDigestV2; AdminTransfer; PrecompileGasFix; RlsStorage; Tokenomics; Uups;
   Erc20PrecompileBytecode; TransactionLoadBalancing; UsdrSupplyCorrection; EmptyOutputBlock;
   DynamicCommitteeSizing; HybridRewards; OutputSeqNormalization;
   SenderAffinityLoadBalancing; Eip161EmptyAccountGuard; EpochCloseSeedV2;
   CertificateFetchEpochV2; Erc20PrecompileDirectCall].

(** [RaylsHardFork::version_byte] *)
Definition version_byte (f : RaylsHardFork) : Z :=
  match f with
  | Eip1559 => 0x01
  | BatchDigestV2 => 0x02
  | AdminTransfer => 0x03
  | PrecompileGasFix => 0x04
  | RlsStorage => 0x05
  | Tokenomics => 0x06
  | Uups => 0x07
  | Erc20PrecompileBytecode => 0x08
  | TransactionLoadBalancing => 0x09
  | UsdrSupplyCorrection => 0x0a
  | EmptyOutputBlock => 0x0b
  | DynamicCommitteeSizing => 0x0c
  | HybridRewards => 0x0d
  | OutputSeqNormalization => 0x0e
  | SenderAffinityLoadBalancing => 0x0f
  | Eip161EmptyAccountGuard => 0x10
  | EpochCloseSeedV2 => 0x11
  | CertificateFetchEpochV2 => 0x12
  | Erc20PrecompileDirectCall => 0x13
  end.

(** The derived order on forks: the position in the declaration. *)
Definition fork_index (f : RaylsHardFork) : Z :=
  match f with
  | Eip1559 => 0 | BatchDigestV2 => 1 | AdminTransfer => 2 | PrecompileGasFix => 3
  | RlsStorage => 4 | Tokenomics => 5 | Uups => 6 | Erc20PrecompileBytecode => 7
  | TransactionLoadBalancing => 8 | UsdrSupplyCorrection => 9 | EmptyOutputBlock => 10
  | DynamicCommitteeSizing => 11 | HybridRewards => 12 | OutputSeqNormalization => 13
  | SenderAffinityLoadBalancing => 14 | Eip161EmptyAccountGuard => 15 | EpochCloseSeedV2 => 16
  | CertificateFetchEpochV2 => 17 | Erc20PrecompileDirectCall => 18
  end.

Lemma fork_index_VARIANTS f : nth_error VARIANTS (Z.to_nat (fork_index f)) = Some f.
Proof. by destruct f. Qed.

Lemma fork_index_inj f g : fork_index f = fork_index g -> f = g.
Proof.
  intros Heq. pose proof (fork_index_VARIANTS f) as Hf. rewrite Heq, fork_index_VARIANTS in Hf.
  congruence.
Qed.

#[export] Instance RaylsHardFork_eq_dec : EqDecision RaylsHardFork.
Proof.
  intros f g. destruct (decide (fork_index f = fork_index g)) as [He|Hn].
  - left. by apply fork_index_inj.
  - right. intros ->. done.
Defined.

(** [fork.name()]: the identifier of the variant. *)
Definition fork_name (f : RaylsHardFork) : string :=
  match f with
  | Eip1559 => "Eip1559"
  | BatchDigestV2 => "BatchDigestV2"
  | AdminTransfer => "AdminTransfer"
  | PrecompileGasFix => "PrecompileGasFix"
  | RlsStorage => "RlsStorage"
  | Tokenomics => "Tokenomics"
  | Uups => "Uups"
  | Erc20PrecompileBytecode => "Erc20PrecompileBytecode"
  | TransactionLoadBalancing => "TransactionLoadBalancing"
  | UsdrSupplyCorrection => "UsdrSupplyCorrection"
  | EmptyOutputBlock => "EmptyOutputBlock"
  | DynamicCommitteeSizing => "DynamicCommitteeSizing"
  | HybridRewards => "HybridRewards"
  | OutputSeqNormalization => "OutputSeqNormalization"
  | SenderAffinityLoadBalancing => "SenderAffinityLoadBalancing"
  | Eip161EmptyAccountGuard => "Eip161EmptyAccountGuard"
  | EpochCloseSeedV2 => "EpochCloseSeedV2"
  | CertificateFetchEpochV2 => "CertificateFetchEpochV2"
  | Erc20PrecompileDirectCall => "Erc20PrecompileDirectCall"
  end.

(** [u8::to_ascii_lowercase] and [str::eq_ignore_ascii_case] *)
Definition to_ascii_lowercase (a : ascii) : ascii :=
  let n := nat_of_ascii a in
  if (65 <=? n)%nat && (n <=? 90)%nat then ascii_of_nat (n + 32) else a.

Fixpoint eq_ignore_ascii_case (s t : string) : bool :=
  match s, t with
  | EmptyString, EmptyString => true
  | String a s', String b t' =>
      Ascii.eqb (to_ascii_lowercase a) (to_ascii_lowercase b) && eq_ignore_ascii_case s' t'
  | _, _ => false
  end.

(** [RaylsHardFork::from_name] *)
Definition from_name (name : string) : option RaylsHardFork :=
  List.find (fun f => eq_ignore_ascii_case (fork_name f) name) VARIANTS.

(** ** Schedules *)

Inductive ForkCondition := Block (n : Z) | Never.

#[export] Instance ForkCondition_eq_dec : EqDecision ForkCondition.
Proof. solve_decision. Defined.

Record ScheduledFork := { fork : RaylsHardFork; condition : ForkCondition }.

#[export] Instance ScheduledFork_eq_dec : EqDecision ScheduledFork.
Proof. solve_decision. Defined.

Abbreviation sched f c := {| fork := f; condition := c |} (only parsing).

(** [RaylsHardFork::devnet] *)
Definition devnet : list ScheduledFork :=
  [sched Eip1559 (Block 0);
   sched BatchDigestV2 (Block 0);
   sched AdminTransfer (Block 0);
   sched PrecompileGasFix (Block 0);
   sched RlsStorage (Block 0);
   sched Tokenomics (Block 0);
   sched Uups (Block 0);
   sched Erc20PrecompileBytecode (Block 1);
   sched TransactionLoadBalancing (Block 0);
   sched UsdrSupplyCorrection Never;
   sched EmptyOutputBlock (Block 0);
   sched DynamicCommitteeSizing (Block 0);
   sched HybridRewards Never;
   sched OutputSeqNormalization (Block 0);
   sched SenderAffinityLoadBalancing (Block 0);
   sched Eip161EmptyAccountGuard (Block 0);
   sched EpochCloseSeedV2 Never;
   sched CertificateFetchEpochV2 Never;
   sched Erc20PrecompileDirectCall Never].

(** [RaylsHardFork::testnet] *)
Definition testnet : list ScheduledFork :=
  [sched Eip1559 (Block 281800);
   sched BatchDigestV2 (Block 560539);
   sched AdminTransfer (Block 560539);
   sched PrecompileGasFix (Block 900000);
   sched RlsStorage (Block 900000);
   sched Tokenomics (Block 1879000);
   sched Uups (Block 2872000);
   sched Erc20PrecompileBytecode Never;
   sched TransactionLoadBalancing (Block 4386290);
   sched UsdrSupplyCorrection Never;
   sched EmptyOutputBlock (Block 6663630);
   sched DynamicCommitteeSizing (Block 10934554);
   sched HybridRewards Never;
   sched OutputSeqNormalization (Block 17300000);
   sched SenderAffinityLoadBalancing (Block 17300000);
   sched Eip161EmptyAccountGuard (Block 22075500);
   sched EpochCloseSeedV2 Never;
   sched CertificateFetchEpochV2 Never;
   sched Erc20PrecompileDirectCall Never].

(** [RaylsHardFork::mainnet] *)
Definition mainnet : list ScheduledFork :=
  [sched Eip1559 (Block 0);
   sched BatchDigestV2 (Block 0);
   sched AdminTransfer Never;
   sched PrecompileGasFix (Block 0);
   sched RlsStorage Never;
   sched Tokenomics Never;
   sched Uups Never;
   sched Erc20PrecompileBytecode (Block 893558);
   sched TransactionLoadBalancing (Block 893558);
   sched UsdrSupplyCorrection (Block 3569194);
   sched EmptyOutputBlock (Block 3569194);
   sched DynamicCommitteeSizing (Block 8291010);
   sched HybridRewards Never;
   sched OutputSeqNormalization (Block 12231705);
   sched SenderAffinityLoadBalancing (Block 12231705);
   sched Eip161EmptyAccountGuard (Block 13832605);
   sched EpochCloseSeedV2 Never;
   sched CertificateFetchEpochV2 Never;
   sched Erc20PrecompileDirectCall Never].

(** [RaylsHardFork::local] *)
Definition local : list ScheduledFork :=
  [sched Eip1559 (Block 0);
   sched BatchDigestV2 (Block 0);
   sched AdminTransfer (Block 0);
   sched PrecompileGasFix (Block 0);
   sched RlsStorage (Block 0);
   sched Tokenomics (Block 0);
   sched Uups (Block 0);
   sched Erc20PrecompileBytecode (Block 1);
   sched TransactionLoadBalancing (Block 0);
   sched UsdrSupplyCorrection Never;
   sched EmptyOutputBlock (Block 0);
   sched DynamicCommitteeSizing (Block 0);
   sched HybridRewards (Block 1);
   sched OutputSeqNormalization (Block 0);
   sched SenderAffinityLoadBalancing (Block 0);
   sched Eip161EmptyAccountGuard (Block 0);
   sched EpochCloseSeedV2 (Block 0);
   sched CertificateFetchEpochV2 (Block 0);
   sched Erc20PrecompileDirectCall (Block 0)].

Inductive RaylsNetwork := Devnet | Testnet | Mainnet | Local_.

(** [RaylsHardFork::for_network] *)
Definition for_network (n : RaylsNetwork) : list ScheduledFork :=
  match n with
  | Devnet => devnet
  | Testnet => testnet
  | Mainnet => mainnet
  | Local_ => local
  end.

(** ** Queries *)

Definition sched_le (x y : ScheduledFork) : Prop := fork_index (fork x) <= fork_index (fork y).
#[export] Instance sched_le_dec : RelDecision sched_le.
Proof. intros x y. unfold sched_le. apply _. Defined.

#[export] Instance sched_le_trans : Transitive sched_le.
Proof. intros x y z. unfold sched_le. lia. Qed.
#[export] Instance sched_le_total : Total sched_le.
Proof. intros x y. unfold sched_le. lia. Qed.

Record RaylsChainHardforks := { forks : list ScheduledFork }.

(** [RaylsChainHardforks::new]. [ScheduledFork] orders by fork and then by
    condition; the second never decides between two entries of a schedule,
    which lists a fork once. *)
Definition RaylsChainHardforks_new (l : list ScheduledFork) : RaylsChainHardforks :=
  {| forks := merge_sort sched_le l |}.

(** [<[T]>::binary_search_by] of the standard library, with the comparison of
    [rayls_fork_activation]: the loop that halves [size]. *)
Fixpoint bs_loop (fuel : nat) (l : list ScheduledFork) (f : RaylsHardFork) (base size : nat) : nat :=
  match fuel with
  | O => base
  | S fuel' =>
      if (size <=? 1)%nat then base
      else
        let half := (size / 2)%nat in
        let mid := (base + half)%nat in
        let base' :=
          match l !! mid with
          | Some e => if fork_index f <? fork_index (fork e) then base else mid
          | None => base
          end in
        bs_loop fuel' l f base' (size - half)
  end.

Definition binary_search_by (l : list ScheduledFork) (f : RaylsHardFork) : option nat :=
  match l !! bs_loop (length l) l f 0 (length l) with
  | Some e => if fork_index (fork e) =? fork_index f
              then Some (bs_loop (length l) l f 0 (length l)) else None
  | None => None
  end.

(** [rayls_fork_activation] of [RaylsChainHardforks] *)
Definition rayls_fork_activation (h : RaylsChainHardforks) (f : RaylsHardFork) : ForkCondition :=
  match binary_search_by (forks h) f with
  | Some idx => match forks h !! idx with Some e => condition e | None => Never end
  | None => Never
  end.

(** The trait [RaylsHardforks]: what its provided methods use of a schedule,
    with [ForkCondition::active_at_block] as a parameter. *)
Class ForkConditionApi := active_at_block : ForkCondition -> Z -> bool.

Class ForkConditionOk `{!ForkConditionApi} : Prop := {
  active_block : forall b n, active_at_block (Block b) n = (b <=? n);
  active_never : forall n, active_at_block Never n = false
}.

Section queries.
Context `{!ForkConditionApi} (activation : RaylsHardFork -> ForkCondition).

(** [is_rayls_fork_active_at_block] *)
Definition is_rayls_fork_active_at_block (f : RaylsHardFork) (block_number : Z) : bool :=
  active_at_block (activation f) block_number.

(** [rayls_fork_activation_block] *)
Definition rayls_fork_activation_block (f : RaylsHardFork) : option Z :=
  match activation f with Block b => Some b | Never => None end.

(** [version_byte_at_block]: [Iterator::max] of the active forks' bytes. *)
Definition version_byte_at_block (block : Z) : option Z :=
  foldl (fun acc b => Some (match acc with Some a => Z.max a b | None => b end)) None
    (version_byte <$> List.filter (fun f => active_at_block (activation f) block) VARIANTS).

(** [newly_activated_forks] *)
Definition newly_activated_forks (prev_block block : Z) : list RaylsHardFork :=
  List.filter (fun f => negb (active_at_block (activation f) prev_block)
                        && active_at_block (activation f) block) VARIANTS.

(** [RaylsChainSpec]: the fee policy beside the schedule. *)
Record FeePolicy := { min_base_fee : Z; base_fee_params : Z * Z }.

(** [compute_next_base_fee]; the fee rule and [MIN_PROTOCOL_BASE_FEE] are
    library code. *)
Definition compute_next_base_fee (MIN_PROTOCOL_BASE_FEE : Z)
    (calc_next_block_base_fee : Z -> Z -> Z -> Z * Z -> Z) (p : FeePolicy)
    (parent_gas_used parent_gas_limit : Z) (parent_base_fee : option Z)
    (next_block_number : Z) : Z :=
  if is_rayls_fork_active_at_block Eip1559 next_block_number then
    let current := match parent_base_fee with Some b => b | None => min_base_fee p end in
    Z.max (calc_next_block_base_fee parent_gas_used parent_gas_limit current (base_fee_params p))
      (min_base_fee p)
  else MIN_PROTOCOL_BASE_FEE.

End queries.

(** ** Specification *)

(** The condition a schedule lists for a fork. *)
Definition scheduled (l : list ScheduledFork) (f : RaylsHardFork) : ForkCondition :=
  match List.find (fun e => bool_decide (fork e = f)) l with
  | Some e => condition e
  | None => Never
  end.

(** The schedule lists no fork twice. *)
Definition schedule_ok (l : list ScheduledFork) : Prop := NoDup (fork <$> l).

(** The forks that blocks [n + 1], ..., [n + k] activate, in block order. *)
Fixpoint activated_in `{!ForkConditionApi} (activation : RaylsHardFork -> ForkCondition)
    (n : Z) (k : nat) : list RaylsHardFork :=
  match k with
  | O => []
  | S k' => newly_activated_forks activation n (n + 1) ++ activated_in activation (n + 1) k'
  end.

#[export] Instance fork_condition_api : ForkConditionApi := fun c n =>
  match c with Block b => b <=? n | Never => false end.

#[export] Instance fork_condition_ok : ForkConditionOk.
Proof. done. Qed.

(** ** Lemmas *)

Lemma elem_of_VARIANTS f : f ∈ VARIANTS.
Proof. apply (bool_decide_unpack _). by destruct f. Qed.

Lemma NoDup_VARIANTS : NoDup VARIANTS.
Proof. apply (bool_decide_unpack _). by vm_compute. Qed.

Lemma find_fork (l : list ScheduledFork) f :
  match List.find (fun e => bool_decide (fork e = f)) l with
  | Some e => e ∈ l /\ fork e = f
  | None => forall e, e ∈ l -> fork e <> f
  end.
Proof.
  destruct (List.find _ l) as [e|] eqn:Hf.
  - apply find_some in Hf as [Hin He]. by rewrite list_elem_of_In, bool_decide_eq_true in *.
  - intros e Hin. apply list_elem_of_In in Hin. apply (find_none _ _ Hf) in Hin.
    by apply bool_decide_eq_false in Hin.
Qed.

(** An entry of a schedule is the one found for its fork. *)
Lemma scheduled_elem l e : schedule_ok l -> e ∈ l -> scheduled l (fork e) = condition e.
Proof.
  intros Hok Hin. unfold scheduled. pose proof (find_fork l (fork e)) as Hf.
  destruct (List.find _ l) as [e'|]; [|by destruct (Hf e Hin)].
  destruct Hf as [Hin' Heq]. apply list_elem_of_lookup in Hin as [i Hi], Hin' as [j Hj].
  assert (i = j) as ->; [|congruence].
  eapply NoDup_lookup; [exact Hok| |]; rewrite list_lookup_fmap; [by rewrite Hi|].
  rewrite Hj. simpl. by rewrite Heq.
Qed.

Lemma scheduled_none l f : (forall e, e ∈ l -> fork e <> f) -> scheduled l f = Never.
Proof.
  intros Hn. unfold scheduled. pose proof (find_fork l f) as Hf.
  destruct (List.find _ l) as [e|]; [|done]. destruct Hf as [Hin He]. by destruct (Hn e Hin).
Qed.

Lemma sorted_lookup l i j x y :
  StronglySorted sched_le l -> l !! i = Some x -> l !! j = Some y -> (i < j)%nat -> sched_le x y.
Proof.
  intros Hs. revert i j. induction Hs as [|z l Hs IH Hall]; intros i j Hi Hj Hlt; [done|].
  destruct i as [|i], j as [|j]; simpl in *; try lia.
  - simplify_eq. rewrite Forall_forall in Hall. by eapply Hall, list_elem_of_lookup_2.
  - eapply IH; [exact Hi|exact Hj|lia].
Qed.

(** The loop of the binary search keeps the last entry at most [f] in its
    window and ends at it. *)
Lemma bs_loop_spec fuel l f base size :
  StronglySorted sched_le l -> (0 < size <= fuel)%nat -> (base + size <= length l)%nat ->
  (forall i e, l !! i = Some e -> (base + size <= i)%nat -> fork_index f < fork_index (fork e)) ->
  (base = 0%nat \/ exists e, l !! base = Some e /\ fork_index (fork e) <= fork_index f) ->
  let r := bs_loop fuel l f base size in
  (r < length l)%nat /\
  (forall i e, l !! i = Some e -> (r < i)%nat -> fork_index f < fork_index (fork e)) /\
  (r = 0%nat \/ exists e, l !! r = Some e /\ fork_index (fork e) <= fork_index f).
Proof.
  intros Hs. revert base size. induction fuel as [|fuel IH]; intros base size Hsz Hb Hhi Hlo; [lia|].
  cbn [bs_loop]. destruct (Nat.leb_spec size 1) as [Hle|Hgt].
  - assert (size = 1%nat) as -> by lia. split_and!; [lia| |done]. intros i e Hi Hlt. eapply Hhi; [done|lia].
  - pose proof (Nat.div_lt size 2 ltac:(lia) ltac:(lia)).
    pose proof (Nat.div_str_pos size 2 ltac:(lia)). pose proof (Nat.div_mod_eq size 2).
    pose proof (Nat.mod_upper_bound size 2 ltac:(lia)).
    destruct (lookup_lt_is_Some_2 l (base + size / 2)) as [e He]; [lia|]. rewrite He.
    destruct (Z.ltb_spec (fork_index f) (fork_index (fork e))) as [Hlt|Hge].
    + apply IH; [lia|lia| |done]. intros i e' Hi Hge.
      destruct (decide (i = base + size / 2)%nat) as [->|Hne]; [by simplify_eq|].
      eapply Z.lt_le_trans; [exact Hlt|].
      eapply (sorted_lookup l); [done|exact He|exact Hi|lia].
    + apply IH; [lia|lia| |by eauto]. intros i e' Hi Hge'. eapply Hhi; [done|lia].
Qed.

Lemma binary_search_spec l f :
  StronglySorted sched_le l ->
  match binary_search_by l f with
  | Some i => exists e, l !! i = Some e /\ fork e = f
  | None => forall e, e ∈ l -> fork e <> f
  end.
Proof.
  intros Hs. unfold binary_search_by. destruct (decide (l = [])) as [->|Hne].
  { simpl. intros e Hin. inversion Hin. }
  assert (0 < length l)%nat by (destruct l; [done|simpl; lia]).
  destruct (bs_loop_spec (length l) l f 0 (length l) Hs) as (Hlt & Hhi & Hlo); [lia|lia| |by left|].
  { intros i e Hi Hge. apply lookup_lt_Some in Hi. lia. }
  destruct (lookup_lt_is_Some_2 _ _ Hlt) as [e He]. rewrite He.
  destruct (Z.eqb_spec (fork_index (fork e)) (fork_index f)) as [Heq|Hneq].
  { exists e. split; [done|]. by apply fork_index_inj. }
  intros e' [i Hi]%list_elem_of_lookup Hf. subst f.
  destruct (decide (bs_loop (length l) l (fork e') 0 (length l) < i)%nat) as [Hi'|Hi'].
  { pose proof (Hhi i e' Hi Hi'). lia. }
  destruct (decide (i = bs_loop (length l) l (fork e') 0 (length l))) as [->|Hn]; [by simplify_eq|].
  pose proof (sorted_lookup l _ _ e' e Hs Hi He ltac:(lia)) as Hle. unfold sched_le in Hle.
  destruct Hlo as [H0|(e2 & He2 & Hle2)]; [lia|]. simplify_eq. lia.
Qed.

Lemma new_sorted l : StronglySorted sched_le (forks (RaylsChainHardforks_new l)).
Proof.
  apply (StronglySorted_merge_sort _).
Qed.

Lemma new_activation l f :
  schedule_ok l -> rayls_fork_activation (RaylsChainHardforks_new l) f = scheduled l f.
Proof.
  intros Hok. unfold rayls_fork_activation.
  pose proof (binary_search_spec _ f (new_sorted l)) as Hb.
  assert (forall e, e ∈ forks (RaylsChainHardforks_new l) <-> e ∈ l) as Hel.
  { intros e. simpl. by rewrite merge_sort_Permutation. }
  destruct (binary_search_by _ f) as [i|].
  - destruct Hb as (e & Hi & <-). rewrite Hi. symmetry. apply scheduled_elem; [done|].
    apply Hel. by eapply list_elem_of_lookup_2.
  - symmetry. apply scheduled_none. intros e Hin. by apply Hb, Hel.
Qed.

Section activation.
Context `{!ForkConditionApi} {ok : ForkConditionOk} (activation : RaylsHardFork -> ForkCondition).

(** A fork stays active. *)
Lemma active_mono f n m :
  n <= m -> active_at_block (activation f) n = true -> active_at_block (activation f) m = true.
Proof using ok.
  destruct (activation f); rewrite ?active_block, ?active_never; [|done].
  rewrite !Z.leb_le. lia.
Qed.

Lemma elem_of_newly f n m :
  f ∈ newly_activated_forks activation n m <->
  active_at_block (activation f) n = false /\ active_at_block (activation f) m = true.
Proof.
  unfold newly_activated_forks. rewrite list_elem_of_In, filter_In, andb_true_iff, negb_true_iff.
  pose proof (elem_of_VARIANTS f) as Hf. rewrite list_elem_of_In in Hf. clear -Hf. tauto.
Qed.

Lemma activated_in_spec n k :
  NoDup (activated_in activation n k) /\
  forall f, f ∈ activated_in activation n k <->
    active_at_block (activation f) n = false /\ active_at_block (activation f) (n + Z.of_nat k) = true.
Proof using ok.
  revert n. induction k as [|k IH]; intros n; cbn [activated_in].
  { split; [constructor|]. intros f. rewrite Z.add_0_r. split; [intros Hf; inversion Hf|].
    intros [-> ?]. done. }
  destruct (IH (n + 1)) as [IH1 IH2].
  replace (n + 1 + Z.of_nat k) with (n + Z.of_nat (S k)) in IH2 by lia. split.
  - apply NoDup_app. split_and!; [apply NoDup_ListNoDup, List.NoDup_filter, NoDup_ListNoDup, NoDup_VARIANTS| |done].
    intros f [_ Hf]%elem_of_newly [Hf' _]%IH2. congruence.
  - intros f. rewrite elem_of_app, elem_of_newly, IH2. split.
    + intros [[Hn H1]|[Hn H1]]; (split; [|]); try done.
      * eapply active_mono; [|exact H1]. lia.
      * destruct (active_at_block (activation f) n) eqn:Ha; [|done].
        by rewrite (active_mono f n (n + 1)) in Hn by (done || lia).
    + intros [Hn H1]. destruct (active_at_block (activation f) (n + 1)) eqn:Ha; auto.
Qed.

(** The version byte is the greatest of the active forks. *)
Lemma fold_max_spec l acc :
  match foldl (fun acc b => Some (match acc with Some a => Z.max a b | None => b end)) acc l with
  | Some m => (Some m = acc \/ m ∈ l) /\ (forall a, acc = Some a -> a <= m) /\ (forall b, b ∈ l -> b <= m)
  | None => acc = None /\ l = []
  end.
Proof.
  revert acc. induction l as [|b l IH]; intros acc; simpl.
  { destruct acc as [a|]; [|done]. split_and!; [by left|by intros ? [= <-]|intros b Hb; inversion Hb]. }
  specialize (IH (Some (match acc with Some a => Z.max a b | None => b end))).
  destruct (foldl _ _ l) as [m|]; [|naive_solver]. destruct IH as (H1 & H2 & H3).
  specialize (H2 _ eq_refl). split_and!.
  - destruct H1 as [[= H1]|H1]; [|right; by right].
    destruct acc as [a|]; [|right; subst; left]. destruct (Z.max_spec a b) as [[_ Hm]|[_ Hm]].
    + right. rewrite H1, Hm. left.
    + left. congruence.
  - intros a ->. lia.
  - intros x [->|Hx]%elem_of_cons; [destruct acc; lia|by apply H3].
Qed.

Lemma version_byte_spec n :
  match version_byte_at_block activation n with
  | Some v => (exists f, active_at_block (activation f) n = true /\ version_byte f = v) /\
      forall f, active_at_block (activation f) n = true -> version_byte f <= v
  | None => forall f, active_at_block (activation f) n = false
  end.
Proof.
  unfold version_byte_at_block.
  set (l := List.filter (fun f => active_at_block (activation f) n) VARIANTS).
  assert (forall f, f ∈ l <-> active_at_block (activation f) n = true) as Hl.
  { intros f. unfold l. rewrite list_elem_of_In, filter_In.
    pose proof (elem_of_VARIANTS f) as Hf. rewrite list_elem_of_In in Hf. clear -Hf. tauto. }
  pose proof (fold_max_spec (version_byte <$> l) None) as Hm.
  destruct (foldl _ _ _) as [v|].
  - destruct Hm as ([?|(f & -> & Hf)%list_elem_of_fmap] & _ & Hall); [done|].
    split; [exists f; split; [by apply Hl|done]|].
    intros g Hg. apply Hall, list_elem_of_fmap. exists g. split; [done|by apply Hl].
  - destruct Hm as [_ Hnil]. apply fmap_nil_inv in Hnil. intros f.
    destruct (active_at_block (activation f) n) eqn:Ha; [|done].
    apply Hl in Ha. rewrite Hnil in Ha. inversion Ha.
Qed.

End activation.

Lemma eq_ignore_case_refl s : eq_ignore_ascii_case s s = true.
Proof. induction s as [|a s IH]; simpl; [done|]. by rewrite Ascii.eqb_refl, IH. Qed.

Lemma eq_ignore_case_trans s t u :
  eq_ignore_ascii_case s t = true -> eq_ignore_ascii_case u t = true -> eq_ignore_ascii_case s u = true.
Proof.
  revert t u. induction s as [|a s IH]; intros [|b t] [|d u]; simpl; try done.
  rewrite !andb_true_iff, !Ascii.eqb_eq. intros [-> H1] [-> H2]. split; [done|by eapply IH].
Qed.

Lemma fork_name_inj f g : eq_ignore_ascii_case (fork_name f) (fork_name g) = true -> f = g.
Proof.
  assert (forallb (fun f => forallb (fun g => negb (eq_ignore_ascii_case (fork_name f) (fork_name g))
    || bool_decide (f = g)) VARIANTS) VARIANTS = true) as Hall by (vm_compute; reflexivity).
  intros Heq. rewrite forallb_forall in Hall.
  pose proof (elem_of_VARIANTS f) as Hf. pose proof (elem_of_VARIANTS g) as Hg.
  rewrite list_elem_of_In in Hf, Hg. specialize (Hall f Hf). rewrite forallb_forall in Hall.
  specialize (Hall g Hg). rewrite Heq in Hall. simpl in Hall. by apply bool_decide_eq_true in Hall.
Qed.

(** ** Properties *)

(** on a schedule that lists no fork twice, in whatever order, the binary
    search of the fork queries finds each listed fork's condition, and a fork
    that is not listed never activates. *)
Theorem schedule_lookup l f :
  schedule_ok l ->
  (forall c, {| fork := f; condition := c |} ∈ l ->
     rayls_fork_activation (RaylsChainHardforks_new l) f = c) /\
  (f ∉ (fork <$> l) -> rayls_fork_activation (RaylsChainHardforks_new l) f = Never).
Proof.
  intros Hok. rewrite new_activation by done. split.
  - intros c Hin. apply (scheduled_elem l _ Hok Hin).
  - intros Hn. apply scheduled_none. intros e He <-. apply Hn, list_elem_of_fmap. eauto.
Qed.

(** block by block, the chain runs the migrations of each fork exactly
    once: over the blocks after [n] up to [n + k] the newly activated forks
    are those inactive at [n] and active at [n + k], none twice, whatever the
    blocks the work is split at. Forks stay active, and the protocol version
    byte never decreases. *)
Theorem forks_activate_once `{!ForkConditionApi} {ok : ForkConditionOk}
    (activation : RaylsHardFork -> ForkCondition) n k1 k2 :
  activated_in activation n (k1 + k2) ≡ₚ
    activated_in activation n k1 ++ activated_in activation (n + Z.of_nat k1) k2 /\
  NoDup (activated_in activation n (k1 + k2)) /\
  activated_in activation n (k1 + k2) ≡ₚ newly_activated_forks activation n (n + Z.of_nat (k1 + k2)) /\
  (forall v, version_byte_at_block activation n = Some v ->
     exists w, version_byte_at_block activation (n + Z.of_nat k1) = Some w /\ v <= w).
Proof.
  destruct (activated_in_spec activation n (k1 + k2)) as [Hnd Hel]. split_and!; [|done| |].
  - clear. revert n. induction k1 as [|k1 IH]; intros n; [by rewrite Z.add_0_r|].
    cbn [activated_in Nat.add]. rewrite IH, <- app_assoc. do 3 f_equiv. lia.
  - apply NoDup_Permutation; [done| |].
    + apply NoDup_ListNoDup, List.NoDup_filter, NoDup_ListNoDup, NoDup_VARIANTS.
    + intros f. by rewrite Hel, elem_of_newly.
  - intros v Hv. pose proof (version_byte_spec activation n) as Hs. rewrite Hv in Hs.
    destruct Hs as [(f & Hf & <-) _].
    apply (active_mono activation f n (n + Z.of_nat k1)) in Hf; [|lia].
    pose proof (version_byte_spec activation (n + Z.of_nat k1)) as Hs.
    destruct (version_byte_at_block activation (n + Z.of_nat k1)) as [w|]; [|congruence].
    exists w. split; [done|]. by apply Hs.
Qed.

(** The lookup by name finds exactly the forks: a name that spells a
    fork's in any mix of cases gives that fork, and any other name none. *)
Theorem from_name_exact s f :
  from_name s = Some f <-> eq_ignore_ascii_case (fork_name f) s = true.
Proof.
  unfold from_name. destruct (List.find _ VARIANTS) as [g|] eqn:Hf.
  - apply find_some in Hf as [_ Hg]. split; [by intros [= <-]|]. intros Hs. f_equal.
    apply fork_name_inj. by eapply eq_ignore_case_trans.
  - split; [done|]. intros Hs. pose proof (elem_of_VARIANTS f) as Hin.
    rewrite list_elem_of_In in Hin. pose proof (find_none _ _ Hf f Hin) as Hn. simpl in Hn. congruence.
Qed.

(** Every network's schedule lists every fork once, in declaration order.
    The local network does not activate all mainnet forks and the devnet does
    not activate all forks at genesis, as their descriptions say: the supply
    correction is scheduled on mainnet only. *)
Theorem network_schedules :
  (forall n, fork <$> for_network n = VARIANTS) /\
  let on n f := rayls_fork_activation (RaylsChainHardforks_new (for_network n)) f in
  on Mainnet UsdrSupplyCorrection = Block 3569194 /\ on Local_ UsdrSupplyCorrection = Never /\
  on Devnet UsdrSupplyCorrection = Never /\ on Devnet HybridRewards = Never /\
  on Devnet Erc20PrecompileBytecode = Block 1.
Proof. split; [by intros []|]. by vm_compute. Qed.

(** ** Witnesses *)

Lemma schedule_lookup_witness :
  rayls_fork_activation (RaylsChainHardforks_new (reverse mainnet)) Eip161EmptyAccountGuard
  = Block 13832605.
Proof.
  apply (schedule_lookup (reverse mainnet) Eip161EmptyAccountGuard).
  - apply (bool_decide_unpack (NoDup (fork <$> reverse mainnet))). vm_compute. exact I.
  - apply (bool_decide_unpack (_ ∈ _)). vm_compute. exact I.
Defined.

Lemma forks_activate_once_witness :
  let act := rayls_fork_activation (RaylsChainHardforks_new mainnet) in
  activated_in act 893556 (1 + 2) ≡ₚ [Erc20PrecompileBytecode; TransactionLoadBalancing].
Proof.
  intros act. destruct (forks_activate_once (ok := fork_condition_ok) act 893556 1 2) as (_ & _ & Hp & _).
  rewrite Hp. vm_compute. reflexivity.
Defined.
