(* ===== verification/BatchOrdering.v ===== *)
(** * Batch ordering

    The per-authority sequence ordering of the execution layer, with parking
    of out-of-order batches: [crates/middleware/processor/src/batch/ordering.rs]
    with its data types ([crates/infrastructure/types/src/processor/batch_ordering.rs],
    [prepared_batch.rs], [worker/sealed_batch.rs]), its store
    ([crates/infrastructure/storage/src/stores/batch_ordering_store.rs]) and the
    dedup registry ([crates/infrastructure/types/src/executed_batch_registry.rs]).

    A panic aborts the process ([panic = "abort"] in the release profile), so
    the operations pass the state they change explicitly and a [Panic] has no
    state. *)
From S2P Require Import Prelude Lists State Types Committee LeaderSchedule ConsensusState.


(** ** Batches *)

Record Batch := {
  transactions : list Bytes;
  b_epoch : Epoch;
  b_beneficiary : Address;
  base_fee_per_gas : Z;
  b_worker_id : WorkerId;
  seq : Z;
  received_at : option TimestampSec
}.

(** The batch that decoding its encoding gives: [received_at] is
    [#[serde(skip)]]. *)
Definition wire_batch (b : Batch) : Batch :=
  {| transactions := transactions b; b_epoch := b_epoch b; b_beneficiary := b_beneficiary b;
     base_fee_per_gas := base_fee_per_gas b; b_worker_id := b_worker_id b; seq := seq b;
     received_at := None |}.

Record PreparedBatch := {
  pb_batch : Batch;
  batch_digest : B256;
  beneficiary : Address;
  output_digest : B256;
  output_nonce : Z;
  timestamp : Z;
  pb_epoch : Epoch;
  worker_id : WorkerId;
  batch_index : Z;
  drained : bool;
  gas_limit : Z
}.

(** [drained.drained = true] *)
Definition set_drained (p : PreparedBatch) : PreparedBatch :=
  {| pb_batch := pb_batch p; batch_digest := batch_digest p; beneficiary := beneficiary p;
     output_digest := output_digest p; output_nonce := output_nonce p; timestamp := timestamp p;
     pb_epoch := pb_epoch p; worker_id := worker_id p; batch_index := batch_index p;
     drained := true; gas_limit := gas_limit p |}.

(** ** Ordering state *)

Definition MAX_PARKED_PER_AUTHORITY : nat := 32.

Inductive AcceptResult :=
  | InOrder (p : PreparedBatch)
  | Parked
  | OverflowForced (p : PreparedBatch).

Record AuthoritySeqState := {
  last_executed_seq : option Z;
  parked : gmap Z PreparedBatch
}.

Record BatchOrderingState := {
  bos_epoch : Epoch;
  bos_authorities : gmap Address AuthoritySeqState
}.

(** [Default::default()] *)
Definition default_authority : AuthoritySeqState := {| last_executed_seq := None; parked := ∅ |}.
Definition default_ordering : BatchOrderingState := {| bos_epoch := 0; bos_authorities := ∅ |}.

(** ** Persisted form *)

Record ParkedRef := {
  pr_batch_digest : B256;
  pr_beneficiary : Address;
  pr_output_digest : B256;
  pr_output_nonce : Z;
  pr_timestamp : Z;
  pr_epoch : Epoch;
  pr_worker_id : WorkerId;
  pr_batch_index : Z;
  pr_drained : bool;
  pr_gas_limit : Z
}.

(** [ParkedRef::from] *)
Definition ParkedRef_from (p : PreparedBatch) : ParkedRef :=
  {| pr_batch_digest := batch_digest p; pr_beneficiary := beneficiary p;
     pr_output_digest := output_digest p; pr_output_nonce := output_nonce p;
     pr_timestamp := timestamp p; pr_epoch := pb_epoch p; pr_worker_id := worker_id p;
     pr_batch_index := batch_index p; pr_drained := drained p; pr_gas_limit := gas_limit p |}.

(** [ParkedRef::into_prepared] *)
Definition into_prepared (r : ParkedRef) (b : Batch) : PreparedBatch :=
  {| pb_batch := b; batch_digest := pr_batch_digest r; beneficiary := pr_beneficiary r;
     output_digest := pr_output_digest r; output_nonce := pr_output_nonce r;
     timestamp := pr_timestamp r; pb_epoch := pr_epoch r; worker_id := pr_worker_id r;
     batch_index := pr_batch_index r; drained := pr_drained r; gas_limit := pr_gas_limit r |}.

Record StoredAuthoritySeqState := {
  st_last_executed_seq : option Z;
  st_parked : gmap Z ParkedRef
}.

Record StoredBatchOrderingState := {
  st_epoch : Epoch;
  st_authorities : gmap Address StoredAuthoritySeqState
}.

(** [StoredBatchOrderingState::from] *)
Definition Stored_from (state : BatchOrderingState) : StoredBatchOrderingState :=
  {| st_epoch := bos_epoch state;
     st_authorities :=
       (fun auth => {| st_last_executed_seq := last_executed_seq auth;
                       st_parked := ParkedRef_from <$> parked auth |}) <$> bos_authorities state |}.

(** The tables the ordering reads and writes. A row's bytes are what decoding
    them gives: the single ordering row decodes in the compact format, in the
    older by-value format, or in neither; a [Batches] or [ConsensusBlocks] row
    that no longer decodes is [None]. *)
Inductive OrderingRow :=
  | Compact (s : StoredBatchOrderingState)
  | Legacy (s : BatchOrderingState)
  | Undecodable.

Record OrderingDb := {
  ordering_row : option OrderingRow;
  Batches : gmap B256 (option Batch);
  ConsensusBlocks : gmap Z (option CommittedSubDag)
}.

(** [write_batch_ordering_state] *)
Definition write_batch_ordering_state (db : OrderingDb) (ordering : BatchOrderingState) :
    OrderingDb :=
  {| ordering_row := Some (Compact (Stored_from ordering)); Batches := Batches db;
     ConsensusBlocks := ConsensusBlocks db |}.

(** [reconstruct_parked]: the entries whose body is missing or corrupt go. *)
Definition reconstruct_parked (stored : StoredBatchOrderingState)
    (bodies : gmap B256 (option Batch)) : BatchOrderingState :=
  {| bos_epoch := st_epoch stored;
     bos_authorities :=
       (fun auth =>
          {| last_executed_seq := st_last_executed_seq auth;
             parked := omap (fun r => match bodies !! pr_batch_digest r with
                                      | Some (Some batch) => Some (into_prepared r batch)
                                      | Some None | None => None
                                      end) (st_parked auth) |}) <$> st_authorities stored |}.

(** [read_batch_ordering_state]: [None] is the error of a row in neither
    format. *)
Definition read_batch_ordering_state (db : OrderingDb) : option (option BatchOrderingState) :=
  match ordering_row db with
  | None => Some None
  | Some Undecodable => None
  | Some (Legacy s) => Some (Some s)
  | Some (Compact stored) =>
      let digests := btree_values (st_authorities stored) ≫= fun auth =>
                       pr_batch_digest <$> btree_values (st_parked auth) in
      let bodies := foldl (fun m d => match Batches db !! d with
                                      | Some bytes => <[d := bytes]> m
                                      | None => m
                                      end) ∅ digests in
      Some (Some (reconstruct_parked stored bodies))
  end.

(** ** Dedup registry *)

Definition MAX_NONCE_TOO_HIGH_RETRIES : Z := 3.

Record ExecutedBatchRegistry := {
  digests : gset B256;
  retry_counts : gmap B256 Z
}.

(** [ExecutedBatchRegistry::default] *)
Definition default_registry : ExecutedBatchRegistry := {| digests := ∅; retry_counts := ∅ |}.

(** [ExecutedBatchRegistry::from_digests] *)
Definition from_digests (ds : gset B256) : ExecutedBatchRegistry :=
  {| digests := ds; retry_counts := ∅ |}.

(** [try_register]: whether the digest is new; the output digest is logged. *)
Definition try_register (r : ExecutedBatchRegistry) (d : B256) :
    ExecutedBatchRegistry * bool :=
  ({| digests := {[d]} ∪ digests r; retry_counts := retry_counts r |},
   bool_decide (d ∉ digests r)).

(** [contains] *)
Definition contains (r : ExecutedBatchRegistry) (d : B256) : bool :=
  bool_decide (d ∈ digests r).

(** [drop_digest] *)
Definition drop_digest (r : ExecutedBatchRegistry) (d : B256) : ExecutedBatchRegistry * bool :=
  let count := default 0 (retry_counts r !! d) in
  if MAX_NONCE_TOO_HIGH_RETRIES <=? count then
    ({| digests := digests r; retry_counts := <[d := count]> (retry_counts r) |}, false)
  else
    ({| digests := digests r ∖ {[d]}; retry_counts := <[d := count + 1]> (retry_counts r) |}, true).

(** ** The ordering *)

Record BatchOrdering := {
  batch_ordering_state : BatchOrderingState;
  batch_ordering_store : OrderingDb;
  bo_authority : Address;
  executed_own_watermark : option Z
}.

Definition set_state (o : BatchOrdering) (s : BatchOrderingState) : BatchOrdering :=
  {| batch_ordering_state := s; batch_ordering_store := batch_ordering_store o;
     bo_authority := bo_authority o; executed_own_watermark := executed_own_watermark o |}.

(** [state.authorities.get_mut(&a)] and the write through it. *)
Definition set_authority (o : BatchOrdering) (a : Address) (auth : AuthoritySeqState) :
    BatchOrdering :=
  set_state o {| bos_epoch := bos_epoch (batch_ordering_state o);
                 bos_authorities := <[a := auth]> (bos_authorities (batch_ordering_state o)) |}.

(** [BatchOrdering::new] *)
Definition BatchOrdering_new (store : OrderingDb) (state : BatchOrderingState)
    (address : Address) : BatchOrdering :=
  {| batch_ordering_state := state; batch_ordering_store := store; bo_authority := address;
     executed_own_watermark := bos_authorities state !! address ≫= last_executed_seq |}.

(** [BatchOrdering::new_with_empty_state] *)
Definition new_with_empty_state (store : OrderingDb) : BatchOrdering :=
  BatchOrdering_new store default_ordering 0.

(** [Option<u64>]'s derived order: [None] is below every [Some]. *)
Definition option_gtb (x y : option Z) : bool :=
  match x, y with
  | Some a, Some b => b <? a
  | Some _, None => true
  | None, _ => false
  end.

(** [update_executed_watermark] *)
Definition update_executed_watermark (o : BatchOrdering) (a : Address) (watermark : option Z) :
    BatchOrdering :=
  if bool_decide (a <> bo_authority o) then o
  else
    {| batch_ordering_state := batch_ordering_state o;
       batch_ordering_store := batch_ordering_store o; bo_authority := bo_authority o;
       executed_own_watermark :=
         if option_gtb watermark (executed_own_watermark o) then watermark
         else executed_own_watermark o |}.

(** The two writes that accept sequence number [s]: [last_executed_seq] and the
    watch. *)
Definition accept_seq (o : BatchOrdering) (a : Address) (s : Z) (ps : gmap Z PreparedBatch) :
    BatchOrdering :=
  update_executed_watermark
    (set_authority o a {| last_executed_seq := Some s; parked := ps |}) a (Some s).

(** [try_accept] *)
Definition try_accept {E} (o : BatchOrdering) (a : Address) (batch_seq : Z)
    (prepared : PreparedBatch) (seq_normalization : bool) :
    Exec E (BatchOrdering * AcceptResult) :=
  if batch_seq =? 0 then Ret (o, InOrder prepared)
  else
    let auth := default default_authority (bos_authorities (batch_ordering_state o) !! a) in
    match last_executed_seq auth with
    | Some last_seq =>
        if batch_seq <=? last_seq then Ret (o, InOrder prepared)
        else
          expected_seq ← uadd u64_max last_seq 1;
          if negb (batch_seq =? expected_seq) then
            if (MAX_PARKED_PER_AUTHORITY <=? size (parked auth))%nat then
              if seq_normalization then
                from ← uadd u64_max batch_seq 1;
                Ret (accept_seq o a batch_seq (retain_keys (fun s => from <=? s) (parked auth)),
                     OverflowForced prepared)
              else
                Ret (accept_seq o a batch_seq (parked auth), OverflowForced prepared)
            else
              Ret (set_authority o a
                     {| last_executed_seq := Some last_seq;
                        parked := <[batch_seq := prepared]> (parked auth) |}, Parked)
          else Ret (accept_seq o a batch_seq (parked auth), InOrder prepared)
    | None => Ret (accept_seq o a batch_seq (parked auth), InOrder prepared)
    end.

(** The loop of [drain_consecutive]. *)
Fixpoint drain_consecutive_loop {E} (fuel : nat) (o : BatchOrdering) (a : Address)
    (collected : list PreparedBatch) (registry : ExecutedBatchRegistry) (check_dedup : bool) :
    Exec E (BatchOrdering * list PreparedBatch * ExecutedBatchRegistry) :=
  match fuel with
  | O => Diverge
  | S fuel =>
      match bos_authorities (batch_ordering_state o) !! a with
      | None => Ret (o, collected, registry)
      | Some auth =>
          match last_executed_seq auth with
          | None => Ret (o, collected, registry)
          | Some last_seq =>
              next_seq ← uadd u64_max last_seq 1;
              match parked auth !! next_seq with
              | None => Ret (o, collected, registry)
              | Some p =>
                  let o := accept_seq o a next_seq (delete next_seq (parked auth)) in
                  if check_dedup then
                    let '(registry, fresh) := try_register registry (batch_digest p) in
                    if negb fresh then
                      drain_consecutive_loop fuel o a collected registry check_dedup
                    else
                      drain_consecutive_loop fuel o a (collected ++ [set_drained p]) registry
                        check_dedup
                  else
                    drain_consecutive_loop fuel o a (collected ++ [set_drained p]) registry
                      check_dedup
              end
          end
      end
  end.

(** The parked batches of one authority. *)
Definition parked_of (o : BatchOrdering) (a : Address) : gmap Z PreparedBatch :=
  parked (default default_authority (bos_authorities (batch_ordering_state o) !! a)).

(** [drain_consecutive]: each iteration that continues takes a parked batch
    out. *)
Definition drain_consecutive {E} (o : BatchOrdering) (a : Address)
    (collected : list PreparedBatch) (registry : ExecutedBatchRegistry) (check_dedup : bool) :
    Exec E (BatchOrdering * list PreparedBatch * ExecutedBatchRegistry) :=
  drain_consecutive_loop (S (size (parked_of o a))) o a collected registry check_dedup.

(** [a.beneficiary.cmp(&b.beneficiary).then(a.batch.seq.cmp(&b.batch.seq))] is
    not [Greater]. *)
Definition drain_le (x y : PreparedBatch) : bool :=
  (beneficiary x <? beneficiary y) ||
  ((beneficiary x =? beneficiary y) && (seq (pb_batch x) <=? seq (pb_batch y))).

(** [drain_epoch] *)
Definition drain_epoch (o : BatchOrdering) (new_epoch : Epoch) :
    BatchOrdering * list PreparedBatch :=
  if new_epoch <=? bos_epoch (batch_ordering_state o) then (o, [])
  else
    let drained := btree_values (bos_authorities (batch_ordering_state o)) ≫= fun auth =>
                     btree_values (parked auth) in
    (set_state o {| bos_epoch := new_epoch; bos_authorities := ∅ |}, stable_sort drain_le drained).

(** [persist] *)
Definition persist (o : BatchOrdering) : BatchOrdering :=
  {| batch_ordering_state := batch_ordering_state o;
     batch_ordering_store :=
       write_batch_ordering_state (batch_ordering_store o) (batch_ordering_state o);
     bo_authority := bo_authority o; executed_own_watermark := executed_own_watermark o |}.

(** [BatchOrdering::last_executed_seq] *)
Definition last_executed_seq_of (o : BatchOrdering) (a : Address) : option Z :=
  bos_authorities (batch_ordering_state o) !! a ≫= last_executed_seq.

(** [tracked_authorities], [parked_count] *)
Definition tracked_authorities (o : BatchOrdering) : nat :=
  size (bos_authorities (batch_ordering_state o)).
Definition parked_count (o : BatchOrdering) (a : Address) : nat :=
  match bos_authorities (batch_ordering_state o) !! a with
  | Some auth => size (parked auth)
  | None => 0
  end.

(** ** Recovery *)

(** [leader_epoch_and_batch_digests] of a stored consensus block. *)
Definition leader_epoch_and_batch_digests (s : CommittedSubDag) : Epoch * list B256 :=
  (leader_epoch s, sd_certificates s ≫= fun c => (payload (header c)).*1).

(** One block's batches: the highest sequence number per beneficiary. *)
Definition seed_digest (bs : gmap B256 (option Batch)) (by_addr : gmap Address Z) (d : B256) :
    gmap Address Z :=
  match bs !! d with
  | Some (Some batch) =>
      <[b_beneficiary batch := match by_addr !! b_beneficiary batch with
                               | Some s => Z.max s (seq batch)
                               | None => seq batch
                               end]> by_addr
  | Some None | None => by_addr
  end.

(** The reverse walk over [ConsensusBlocks]. *)
Fixpoint walk_history {E} (bs : gmap B256 (option Batch)) (current_epoch : Epoch)
    (rows : list (option CommittedSubDag)) (by_addr : gmap Address Z) :
    Exec E (gmap Address Z) :=
  match rows with
  | [] => Ret by_addr
  | None :: _ => Panic
  | Some s :: rows =>
      let '(block_epoch, batch_digests) := leader_epoch_and_batch_digests s in
      if block_epoch <? current_epoch then Ret by_addr
      else walk_history bs current_epoch rows (foldl (seed_digest bs) by_addr batch_digests)
  end.

(** [recover_authorities_from_history] *)
Definition recover_authorities_from_history {E} (store : OrderingDb) (current_epoch : Epoch) :
    Exec E (gmap Address AuthoritySeqState) :=
  by_addr ← walk_history (E := E) (Batches store) current_epoch
              (reverse (btree_values (ConsensusBlocks store))) ∅;
  Ret (fmap (M := gmap Z) (fun s => {| last_executed_seq := Some s; parked := ∅ |}) by_addr).

(** [from_history] *)
Definition from_history {E} (store : OrderingDb) (current_epoch : Epoch) (address : Address) :
    Exec E BatchOrdering :=
  row ← expect (E := E) (read_batch_ordering_state store);
  let state := default default_ordering row in
  valid_frame ← (if bos_epoch state =? current_epoch then Ret true
                 else next ← uadd u32_max (bos_epoch state) 1; Ret (next =? current_epoch));
  if bool_decide (bos_authorities state = ∅) || negb valid_frame then
    recovered ← recover_authorities_from_history store current_epoch;
    Ret (BatchOrdering_new store {| bos_epoch := current_epoch; bos_authorities := recovered |} address)
  else Ret (BatchOrdering_new store state address).
