(* ===== verification/BatchOrderingProps.v ===== *)
(** * Correctness of batch ordering

    What [BatchOrdering.v]'s operations do on every branch: acceptance keeps
    the ordering well formed, draining terminates and takes exactly the
    consecutive run, the persisted state reloads, and how a restart without it
    is seeded. *)
From S2P Require Import Prelude Lists State Types Committee LeaderSchedule ConsensusState.
From S2P Require Import BatchOrdering.

(** ** Well-formed ordering states *)

(** The parked batches of an authority sit more than [g] above its watermark,
    under their own sequence number; there are at most
    [MAX_PARKED_PER_AUTHORITY] of them, and none before the first batch. *)
Record seq_state_ok (g : Z) (a : Address) (auth : AuthoritySeqState) : Prop := {
  so_none : last_executed_seq auth = None -> parked auth = ∅;
  so_last l : last_executed_seq auth = Some l -> 0 <= l <= u64_max;
  so_above l s p : last_executed_seq auth = Some l -> parked auth !! s = Some p -> l + g < s;
  so_key s p : parked auth !! s = Some p ->
    seq (pb_batch p) = s /\ beneficiary p = a /\ 0 < s <= u64_max /\ drained p = false;
  so_size : (size (parked auth) <= MAX_PARKED_PER_AUTHORITY)%nat
}.

(** Between outputs there is a gap above every watermark; while a batch of
    authority [a] is being accepted, [a]'s may be missing. *)
Definition ordering_ok_at (g : Address -> Z) (o : BatchOrdering) : Prop :=
  forall a auth, bos_authorities (batch_ordering_state o) !! a = Some auth ->
    seq_state_ok (g a) a auth.
Definition settled : Address -> Z := fun _ => 1.
Definition accepting (a : Address) : Address -> Z := fun b => if decide (a = b) then 0 else 1.
Abbreviation ordering_ok := (ordering_ok_at settled).

(** The state of an authority, empty when it is not tracked. *)
Definition auth_of (o : BatchOrdering) (a : Address) : AuthoritySeqState :=
  default default_authority (bos_authorities (batch_ordering_state o) !! a).

Lemma default_authority_ok g a : seq_state_ok g a default_authority.
Proof. split; simpl; try done. by rewrite map_size_empty; unfold MAX_PARKED_PER_AUTHORITY; lia. Qed.

Lemma auth_of_ok g o a : ordering_ok_at g o -> seq_state_ok (g a) a (auth_of o a).
Proof.
  intros Ho. unfold auth_of. destruct (_ !! a) as [auth|] eqn:E; simpl; [by apply Ho|].
  apply default_authority_ok.
Qed.

Lemma seq_state_ok_weaken g g' a auth : g' <= g -> seq_state_ok g a auth -> seq_state_ok g' a auth.
Proof.
  intros Hg [Hn Hl Ha Hk Hs]. split; try done. intros l s p E1 E2. specialize (Ha l s p E1 E2). lia.
Qed.

Lemma settled_accepting a o : ordering_ok o -> ordering_ok_at (accepting a) o.
Proof.
  intros Ho b auth Hb. apply Ho in Hb. eapply seq_state_ok_weaken; [|done].
  unfold settled, accepting. case_decide; lia.
Qed.

Lemma new_with_empty_state_ok store : ordering_ok (new_with_empty_state store).
Proof. intros a auth. simpl. by rewrite lookup_empty. Qed.

(** ** Frames of the writes *)

Lemma authorities_update_watermark o a w :
  batch_ordering_state (update_executed_watermark o a w) = batch_ordering_state o.
Proof. unfold update_executed_watermark. by case_bool_decide. Qed.

Lemma authorities_accept_seq o a s ps :
  bos_authorities (batch_ordering_state (accept_seq o a s ps)) =
  <[a := {| last_executed_seq := Some s; parked := ps |}]> (bos_authorities (batch_ordering_state o)).
Proof. unfold accept_seq. by rewrite authorities_update_watermark. Qed.

Lemma epoch_accept_seq o a s ps :
  bos_epoch (batch_ordering_state (accept_seq o a s ps)) = bos_epoch (batch_ordering_state o).
Proof. unfold accept_seq. by rewrite authorities_update_watermark. Qed.

(** A write of one authority's state. *)
Lemma accept_seq_ok g g' o a s ps :
  ordering_ok_at g o -> (forall b, b <> a -> g' b = g b) ->
  seq_state_ok (g' a) a {| last_executed_seq := Some s; parked := ps |} ->
  ordering_ok_at g' (accept_seq o a s ps).
Proof.
  intros Ho Hg Ha b auth. rewrite authorities_accept_seq. destruct (decide (a = b)) as [<-|].
  - rewrite lookup_insert_eq. by intros [= <-].
  - rewrite lookup_insert_ne, Hg by done. apply Ho.
Qed.

(** Two accepts in a row are the later one. *)
Lemma accept_seq_twice o a s s' ps ps' :
  s <= s' -> accept_seq (accept_seq o a s ps) a s' ps' = accept_seq o a s' ps'.
Proof.
  intros Hs. destruct o as [[e au] st me w].
  unfold accept_seq, update_executed_watermark, set_authority, set_state. simpl.
  destruct (bool_decide (a <> me)) eqn:Eb; simpl; rewrite Eb; simpl;
    rewrite insert_insert_eq; [done|].
  f_equal. unfold option_gtb. destruct w as [w|]; repeat case_match; simplify_eq; f_equal; lia.
Qed.

(** ** Draining *)

(** The batches parked at [l + 1], [l + 2], ... up to the first gap. *)
Fixpoint run_from (fuel : nat) (ps : gmap Z PreparedBatch) (l : Z) : list PreparedBatch :=
  match fuel with
  | O => []
  | S fuel =>
      match ps !! (l + 1) with
      | Some p => p :: run_from fuel ps (l + 1)
      | None => []
      end
  end.

(** The batches of a list the registry lets through, registered one by one. *)
Fixpoint register_all (check : bool) (r : ExecutedBatchRegistry) (l : list PreparedBatch) :
    ExecutedBatchRegistry * list PreparedBatch :=
  match l with
  | [] => (r, [])
  | p :: l =>
      if check then
        let '(r', fresh) := try_register r (batch_digest p) in
        let '(r', out) := register_all check r' l in
        (r', if fresh then set_drained p :: out else out)
      else
        let '(r', out) := register_all check r l in (r', set_drained p :: out)
  end.

Lemma run_from_delete fuel ps l k : k <= l -> run_from fuel (delete k ps) l = run_from fuel ps l.
Proof.
  revert l. induction fuel as [|fuel IH]; intros l Hk; simpl; [done|].
  rewrite lookup_delete_ne by lia. destruct (ps !! (l + 1)); [|done]. rewrite IH by lia. done.
Qed.

Lemma lookup_run_from fuel ps l i p :
  run_from fuel ps l !! i = Some p -> ps !! (l + 1 + Z.of_nat i) = Some p.
Proof.
  revert l i. induction fuel as [|fuel IH]; intros l i; simpl; [done|].
  destruct (ps !! (l + 1)) as [q|] eqn:E; [|done]. destruct i as [|i]; simpl.
  - intros [= <-]. by rewrite Z.add_0_r.
  - intros Hi%IH. by replace (l + 1 + Z.of_nat (S i)) with (l + 1 + 1 + Z.of_nat i) by lia.
Qed.

(** The run is maximal: the next sequence number is not parked. *)
Lemma run_from_maximal fuel ps l :
  (size ps <= fuel)%nat -> (forall s p, ps !! s = Some p -> l < s) ->
  ps !! (l + Z.of_nat (length (run_from fuel ps l)) + 1) = None.
Proof.
  revert ps l. induction fuel as [|fuel IH]; intros ps l Hsz Habove; simpl.
  - assert (ps = ∅) as -> by (apply map_size_empty_inv; lia). apply lookup_empty.
  - destruct (ps !! (l + 1)) as [p|] eqn:E; simpl; [|by rewrite Z.add_0_r].
    specialize (IH (delete (l + 1) ps) (l + 1)). rewrite run_from_delete in IH by lia.
    replace (l + Z.of_nat (S (length (run_from fuel ps (l + 1)))) + 1)
      with (l + 1 + Z.of_nat (length (run_from fuel ps (l + 1))) + 1) by lia.
    rewrite lookup_delete_ne in IH by lia. apply IH.
    + rewrite map_size_delete, E. simpl. lia.
    + intros s q [Hne Hs]%lookup_delete_Some. specialize (Habove s q Hs). lia.
Qed.

Lemma retain_keys_delete (ps : gmap Z PreparedBatch) k l :
  k <= l -> retain_keys (fun s => l <? s) (delete k ps) = retain_keys (fun s => l <? s) ps.
Proof.
  intros Hk. apply map_eq. intros s. rewrite !lookup_retain_keys.
  destruct (Z.ltb_spec l s); [|done]. by rewrite lookup_delete_ne by lia.
Qed.

Lemma retain_keys_all (ps : gmap Z PreparedBatch) l :
  (forall s p, ps !! s = Some p -> l < s) -> retain_keys (fun s => l <? s) ps = ps.
Proof.
  intros Habove. apply map_eq. intros s. rewrite lookup_retain_keys.
  destruct (Z.ltb_spec l s); [done|]. destruct (ps !! s) eqn:E; [|done].
  apply Habove in E. lia.
Qed.

Section drain.
Context {E : Type}.

(** The result of draining an authority whose watermark is [l]. *)
Definition drained_to (o : BatchOrdering) (a : Address) (l : Z) (ps : gmap Z PreparedBatch)
    (taken : list PreparedBatch) : BatchOrdering :=
  match taken with
  | [] => o
  | _ => let l' := l + Z.of_nat (length taken) in
         accept_seq o a l' (retain_keys (fun s => l' <? s) ps)
  end.

Lemma size_delete_lookup (ps : gmap Z PreparedBatch) k p :
  ps !! k = Some p -> size ps = S (size (delete k ps)).
Proof.
  intros Hk. rewrite map_size_delete, Hk. assert (size ps <> 0%nat); [|simpl; lia].
  intros H0%map_size_empty_inv. by rewrite H0, lookup_empty in Hk.
Qed.

Lemma run_from_step ps l p :
  ps !! (l + 1) = Some p ->
  run_from (size ps) ps l =
  p :: run_from (size (delete (l + 1) ps)) (delete (l + 1) ps) (l + 1).
Proof.
  intros Hp. rewrite (size_delete_lookup ps _ _ Hp). simpl. rewrite Hp. f_equal.
  by rewrite run_from_delete by lia.
Qed.

Lemma drained_to_step o a l ps p taken :
  ps !! (l + 1) = Some p -> (forall s q, ps !! s = Some q -> l < s) ->
  drained_to (accept_seq o a (l + 1) (delete (l + 1) ps)) a (l + 1) (delete (l + 1) ps) taken =
  drained_to o a l ps (p :: taken).
Proof.
  intros Hp Habove. unfold drained_to. destruct taken as [|q taken].
  - simpl. rewrite <-(retain_keys_delete ps (l + 1)) by lia.
    rewrite retain_keys_all; [done|]. intros s q [Hne Hs]%lookup_delete_Some.
    specialize (Habove s q Hs). lia.
  - rewrite accept_seq_twice by lia. cbn [length]. rewrite retain_keys_delete by lia.
    by replace (l + 1 + Z.of_nat (S (length taken))) with (l + Z.of_nat (S (S (length taken))))
      by lia.
Qed.

Lemma drain_loop_spec fuel o a l ps coll reg check :
  bos_authorities (batch_ordering_state o) !! a =
    Some {| last_executed_seq := Some l; parked := ps |} ->
  l < u64_max -> (forall s p, ps !! s = Some p -> l < s < u64_max) -> (size ps < fuel)%nat ->
  let taken := run_from (size ps) ps l in
  drain_consecutive_loop (E := E) fuel o a coll reg check =
  Ret (drained_to o a l ps taken, coll ++ (register_all check reg taken).2,
       (register_all check reg taken).1).
Proof.
  revert o l ps coll reg. induction fuel as [|fuel IH]; intros o l ps coll reg Ho Hl Hps Hsz; [lia|].
  cbn [drain_consecutive_loop]. rewrite Ho. cbn [last_executed_seq parked].
  rewrite uadd_ok by lia. cbn [mbind exec_bind].
  destruct (ps !! (l + 1)) as [p|] eqn:Ep.
  2:{ assert (run_from (size ps) ps l = []) as -> by (destruct (size ps); simpl; by rewrite ?Ep).
      simpl. by rewrite app_nil_r. }
  pose proof (size_delete_lookup _ _ _ Ep) as Hsize.
  rewrite (run_from_step _ _ _ Ep).
  rewrite <-(drained_to_step o a l ps p) by (try done; intros s q Hs; apply (Hps s q Hs)).
  set (o1 := accept_seq o a (l + 1) (delete (l + 1) ps)).
  set (ps1 := delete (l + 1) ps) in *. set (taken1 := run_from (size ps1) ps1 (l + 1)).
  assert (IH1 : forall coll reg, drain_consecutive_loop (E := E) fuel o1 a coll reg check =
    Ret (drained_to o1 a (l + 1) ps1 taken1, coll ++ (register_all check reg taken1).2,
         (register_all check reg taken1).1)).
  { intros coll' reg'. apply IH; [|pose proof (Hps _ _ Ep); lia| |lia].
    - unfold o1. by rewrite authorities_accept_seq, lookup_insert_eq.
    - intros s q [Hne Hs]%lookup_delete_Some. specialize (Hps s q Hs). lia. }
  cbn [register_all]. destruct check.
  - destruct (try_register reg (batch_digest p)) as [reg1 fresh].
    destruct fresh; cbn [negb]; rewrite IH1;
      destruct (register_all true reg1 taken1) as [reg2 out]; simpl; by rewrite <-?app_assoc.
  - rewrite IH1. destruct (register_all false reg taken1) as [reg2 out]; simpl.
    by rewrite <-app_assoc.
Qed.

End drain.

(** Lookup of the authority a drain touches, and of the others. *)
Lemma auth_of_accept_seq o a s ps b :
  auth_of (accept_seq o a s ps) b =
  if decide (a = b) then {| last_executed_seq := Some s; parked := ps |} else auth_of o b.
Proof.
  unfold auth_of. rewrite authorities_accept_seq. case_decide as Hab.
  - subst. by rewrite lookup_insert_eq.
  - by rewrite lookup_insert_ne.
Qed.

Lemma retain_above_ok a l l' (ps : gmap Z PreparedBatch) :
  seq_state_ok 0 a {| last_executed_seq := Some l; parked := ps |} -> l <= l' <= u64_max ->
  ps !! (l' + 1) = None ->
  seq_state_ok 1 a {| last_executed_seq := Some l'; parked := retain_keys (fun s => l' <? s) ps |}.
Proof.
  intros [Hn Hl Ha Hk Hs] Hl' Hgap. simpl in *. specialize (Hl l eq_refl). split; simpl; try done.
  - intros ? [= <-]. lia.
  - intros ? s p [= <-]. rewrite lookup_retain_keys. destruct (Z.ltb_spec l' s); [|done].
    intros Hp. destruct (decide (s = l' + 1)) as [->|]; [congruence|lia].
  - intros s p. rewrite lookup_retain_keys. destruct (Z.ltb_spec l' s); [|done]. apply Hk.
  - etrans; [|exact Hs]. apply map_subseteq_size, map_filter_subseteq.
Qed.

(** The sequence numbers an authority's ordering can count past. *)
Definition below_max (auth : AuthoritySeqState) : Prop :=
  (forall l, last_executed_seq auth = Some l -> l < u64_max) /\
  (forall s p, parked auth !! s = Some p -> s < u64_max).

Definition orderings_below_max (o : BatchOrdering) : Prop := forall a, below_max (auth_of o a).

(** What draining authority [a] does to the ordering, the collected batches and
    the registry. *)
Record drain_result (check : bool) (o : BatchOrdering) (a : Address) (coll : list PreparedBatch)
    (reg : ExecutedBatchRegistry) (o' : BatchOrdering) (coll' : list PreparedBatch)
    (reg' : ExecutedBatchRegistry) (taken : list PreparedBatch) : Prop := {
  dr_run i p l : last_executed_seq (auth_of o a) = Some l -> taken !! i = Some p ->
    parked_of o a !! (l + 1 + Z.of_nat i) = Some p;
  dr_gap l : last_executed_seq (auth_of o a) = Some l ->
    parked_of o a !! (l + Z.of_nat (length taken) + 1) = None;
  dr_last : last_executed_seq (auth_of o' a) =
    (fun l => l + Z.of_nat (length taken)) <$> last_executed_seq (auth_of o a);
  dr_parked l : last_executed_seq (auth_of o a) = Some l ->
    parked_of o' a = retain_keys (fun s => l + Z.of_nat (length taken) <? s) (parked_of o a);
  dr_untracked : last_executed_seq (auth_of o a) = None -> taken = [] /\ o' = o;
  dr_other b : b <> a -> auth_of o' b = auth_of o b;
  dr_frame : bos_epoch (batch_ordering_state o') = bos_epoch (batch_ordering_state o);
  dr_collected : coll' = coll ++ (register_all check reg taken).2;
  dr_registry : reg' = (register_all check reg taken).1
}.

Lemma drained_to_result check o a coll reg l ps :
  bos_authorities (batch_ordering_state o) !! a =
    Some {| last_executed_seq := Some l; parked := ps |} ->
  (forall s p, ps !! s = Some p -> l < s) ->
  let taken := run_from (size ps) ps l in
  drain_result check o a coll reg (drained_to o a l ps taken)
    (coll ++ (register_all check reg taken).2) (register_all check reg taken).1 taken.
Proof.
  intros Ho Habove taken.
  assert (Ha : auth_of o a = {| last_executed_seq := Some l; parked := ps |})
    by (unfold auth_of; by rewrite Ho).
  assert (Hp : parked_of o a = ps) by (unfold parked_of; by rewrite Ho).
  assert (Hto : auth_of (drained_to o a l ps taken) a =
    {| last_executed_seq := Some (l + Z.of_nat (length taken));
       parked := retain_keys (fun s => l + Z.of_nat (length taken) <? s) ps |}).
  { unfold drained_to. destruct taken eqn:Et.
    - rewrite Ha. simpl. rewrite Z.add_0_r. by rewrite retain_keys_all.
    - rewrite auth_of_accept_seq, decide_True by done. done. }
  split; rewrite ?Ha, ?Hp, ?Hto; cbn [last_executed_seq fmap option_fmap option_map]; try done.
  - intros i p ? [= <-]. apply lookup_run_from.
  - intros ? [= <-]. by apply run_from_maximal.
  - intros ? [= <-]. change (parked_of ?x a) with (parked (auth_of x a)). by rewrite Hto.
  - intros b Hb. unfold drained_to. destruct taken; [done|].
    by rewrite auth_of_accept_seq, decide_False.
  - unfold drained_to. destruct taken; [done|]. apply epoch_accept_seq.
Qed.

Lemma drained_to_ok o a l ps :
  bos_authorities (batch_ordering_state o) !! a =
    Some {| last_executed_seq := Some l; parked := ps |} ->
  ordering_ok_at (accepting a) o -> (forall s p, ps !! s = Some p -> l < s) ->
  ordering_ok (drained_to o a l ps (run_from (size ps) ps l)).
Proof.
  intros Ea Ho Habove. pose proof (Ho _ _ Ea) as Hok. unfold accepting in Hok.
  rewrite decide_True in Hok by done. pose proof (so_last _ _ _ Hok l eq_refl) as Hl.
  pose proof (run_from_maximal (size ps) ps l ltac:(done) Habove) as Hgap.
  assert (Hlen : l <= l + Z.of_nat (length (run_from (size ps) ps l)) <= u64_max).
  { split; [lia|].
    destruct (run_from (size ps) ps l !! (length (run_from (size ps) ps l) - 1)%nat) as [q|] eqn:Eq.
    - pose proof (lookup_run_from _ _ _ _ _ Eq) as Hq. apply (so_key _ _ _ Hok) in Hq.
      apply lookup_lt_Some in Eq. lia.
    - apply lookup_ge_None in Eq. lia. }
  pose proof (retain_above_ok a l _ ps Hok Hlen Hgap) as Hnew.
  unfold drained_to. destruct (run_from (size ps) ps l) as [|p taken] eqn:Er.
  - intros b auth Hb. pose proof (Ho _ _ Hb) as Hb'. unfold accepting in Hb'.
    case_decide; [subst b|done]. rewrite Ea in Hb. simplify_eq.
    simpl in Hnew. rewrite Z.add_0_r, retain_keys_all in Hnew by done. done.
  - eapply accept_seq_ok; [done| |done]. intros b Hb. unfold settled, accepting.
    by rewrite decide_False.
Qed.

Lemma drain_consecutive_spec {E} o a coll reg check :
  ordering_ok_at (accepting a) o -> below_max (auth_of o a) ->
  exists o' coll' reg' taken,
    drain_consecutive (E := E) o a coll reg check = Ret (o', coll', reg') /\
    drain_result check o a coll reg o' coll' reg' taken /\ ordering_ok o'.
Proof.
  intros Ho [Hl Hs].
  assert (Hnone : last_executed_seq (auth_of o a) = None ->
    drain_consecutive (E := E) o a coll reg check = Ret (o, coll, reg) /\
    drain_result check o a coll reg o coll reg []).
  { intros Hn. split.
    - unfold drain_consecutive, parked_of. simpl. unfold auth_of in Hn.
      destruct (_ !! a) as [auth|]; [|done]. simpl in Hn. by rewrite Hn.
    - split; rewrite ?Hn; simpl; rewrite ?app_nil_r; done. }
  destruct (last_executed_seq (auth_of o a)) as [l|] eqn:El.
  2:{ destruct (Hnone eq_refl). exists o, coll, reg, []. split_and!; [done..|].
      intros b auth Hb. pose proof (Ho _ _ Hb) as Hok. unfold accepting in Hok.
      case_decide; [subst|done]. unfold auth_of in El. rewrite Hb in El. simpl in El.
      destruct Hok as [Hn' ? Ha ? ?]. split; try done. congruence. }
  unfold auth_of in El. destruct (bos_authorities _ !! a) as [[last ps]|] eqn:Ea; [|done].
  simpl in El. subst last. pose proof (Ho _ _ Ea) as Hok.
  unfold accepting in Hok. rewrite decide_True in Hok by done.
  assert (Habove : forall s p, ps !! s = Some p -> l < s).
  { intros s p Hp. pose proof (so_above _ _ _ Hok l s p eq_refl Hp). lia. }
  unfold drain_consecutive. replace (parked_of o a) with ps by (unfold parked_of; by rewrite Ea).
  unfold auth_of in Hs. rewrite Ea in Hs. simpl in Hs.
  pose proof (drain_loop_spec (E := E) (S (size ps)) o a l ps coll reg check Ea (Hl l eq_refl))
    as Hspec.
  specialize (Hspec ltac:(intros s p Hp; split; [by eapply Habove|by eapply Hs]) ltac:(lia)).
  eexists _, _, _, _. split; [exact Hspec|]. split; [by apply drained_to_result|].
  by apply drained_to_ok.
Qed.

(** [drain_consecutive] terminates and returns on every well-formed
    ordering whose sequence numbers are below [u64::MAX]: it takes exactly the
    batches parked at the sequence numbers following the watermark up to the
    first gap, in order, advances the watermark past them, leaves the batches
    above the gap and every other authority as they were, registers each taken
    batch when asked to and collects those that were not registered before, and
    keeps the ordering well formed. *)
Theorem drain_consecutive_correct {E} o a coll reg check :
  ordering_ok_at (accepting a) o -> below_max (auth_of o a) ->
  exists o' coll' reg' taken,
    drain_consecutive (E := E) o a coll reg check = Ret (o', coll', reg') /\
    drain_result check o a coll reg o' coll' reg' taken /\ ordering_ok o'.
Proof. apply drain_consecutive_spec. Qed.

(** ** Acceptance *)

(** A batch prepared for authority [a] with sequence number [s]. *)
Definition prepared_for (a : Address) (s : Z) (p : PreparedBatch) : Prop :=
  seq (pb_batch p) = s /\ beneficiary p = a /\ drained p = false /\ 0 <= s < u64_max.

(** [None] below every sequence number. *)
Definition watermark_le (x y : option Z) : Prop :=
  match x, y with
  | Some l, Some l' => l <= l'
  | Some _, None => False
  | None, _ => True
  end.

#[export] Instance watermark_le_preorder : PreOrder watermark_le.
Proof.
  split; [intros [?|]; simpl; lia|]. intros [x|] [y|] [z|]; simpl; try done. lia.
Qed.

(** The ordering moves forward: the epoch is the same, no watermark goes down,
    and every sequence number stays below [u64::MAX]. *)
Record moves (o o' : BatchOrdering) : Prop := {
  mv_epoch : bos_epoch (batch_ordering_state o') = bos_epoch (batch_ordering_state o);
  mv_watermark a :
    watermark_le (last_executed_seq (auth_of o a)) (last_executed_seq (auth_of o' a));
  mv_below : orderings_below_max o -> orderings_below_max o'
}.

#[export] Instance moves_preorder : PreOrder moves.
Proof.
  split; [by intros o; split|]. intros x y z [He Hw Ho] [He' Hw' Ho']. split.
  - by rewrite He', He.
  - intros a. etrans; [apply Hw|apply Hw'].
  - auto.
Qed.

(** A write of one authority's state. *)
Lemma moves_authority o o' a auth :
  (forall b, auth_of o' b = if decide (a = b) then auth else auth_of o b) ->
  bos_epoch (batch_ordering_state o') = bos_epoch (batch_ordering_state o) ->
  watermark_le (last_executed_seq (auth_of o a)) (last_executed_seq auth) ->
  (below_max (auth_of o a) -> below_max auth) ->
  moves o o'.
Proof.
  intros Hof He Hw Hok. split; [done| |].
  - intros b. rewrite Hof. case_decide; [by subst|done].
  - intros Hb b. rewrite Hof. case_decide; [subst; auto|done].
Qed.

Lemma auth_of_set_authority o a auth b :
  auth_of (set_authority o a auth) b = if decide (a = b) then auth else auth_of o b.
Proof.
  unfold auth_of. simpl. case_decide as Hab.
  - subst. by rewrite lookup_insert_eq.
  - by rewrite lookup_insert_ne.
Qed.

(** Moving the watermark up to [s]. *)
Lemma advance_ok g auth a s (ps : gmap Z PreparedBatch) :
  0 <= s < u64_max -> ps ⊆ parked auth -> (forall k p, ps !! k = Some p -> s < k) ->
  seq_state_ok g a auth -> seq_state_ok 0 a {| last_executed_seq := Some s; parked := ps |}.
Proof.
  intros Hs Hps Habove [Hn Hl Ha Hk Hsz]. split; simpl; try done.
  - intros ? [= <-]. lia.
  - intros ? k p [= <-] Hp. apply Habove in Hp. lia.
  - intros k p Hp. apply Hk. by eapply lookup_weaken.
  - etrans; [by apply map_subseteq_size|done].
Qed.

Lemma accept_seq_moves o a s (ps : gmap Z PreparedBatch) :
  ordering_ok o -> 0 <= s < u64_max -> ps ⊆ parked (auth_of o a) ->
  (forall k p, ps !! k = Some p -> s < k) ->
  watermark_le (last_executed_seq (auth_of o a)) (Some s) ->
  ordering_ok_at (accepting a) (accept_seq o a s ps) /\ moves o (accept_seq o a s ps).
Proof.
  intros Ho Hs Hps Habove Hw. split.
  - eapply accept_seq_ok; [exact Ho| |].
    + intros b Hb. unfold accepting, settled. by rewrite decide_False.
    + unfold accepting. rewrite decide_True by done. eapply advance_ok; [done|done|done|].
      by apply auth_of_ok.
  - eapply moves_authority; [apply auth_of_accept_seq|apply epoch_accept_seq|done|].
    intros [_ Hb]. split; simpl; [intros ? [= <-]; lia|]. intros k p Hp.
    eapply Hb. by eapply lookup_weaken.
Qed.

(** Parking a batch above the next sequence number. *)
Lemma park_moves o a l s p :
  ordering_ok o -> last_executed_seq (auth_of o a) = Some l -> l + 1 < s -> prepared_for a s p ->
  (size (parked (auth_of o a)) < MAX_PARKED_PER_AUTHORITY)%nat ->
  let o' := set_authority o a {| last_executed_seq := Some l;
                                 parked := <[s := p]> (parked (auth_of o a)) |} in
  ordering_ok o' /\ moves o o'.
Proof.
  intros Ho El Hs (Hseq & Hbene & Hdr & Hr) Hsz o'. pose proof (auth_of_ok _ o a Ho) as Hok.
  pose proof (so_last _ _ _ Hok l El) as Hl. split.
  - intros b auth. simpl. destruct (decide (a = b)) as [<-|]; [|rewrite lookup_insert_ne by done; apply Ho].
    rewrite lookup_insert_eq. intros [= <-]. destruct Hok as [Hn _ Ha Hk _]. unfold settled in *.
    split; simpl; try done.
    + by intros ? [= <-].
    + intros ? k q [= <-] [[<- <-]|[? Hq]]%lookup_insert_Some; [lia|by eapply Ha].
    + intros k q [[<- <-]|[? Hq]]%lookup_insert_Some; [|by apply Hk].
      split_and!; [done|done|lia|lia|done].
    + rewrite map_size_insert. destruct (_ !! s); simpl; lia.
  - eapply moves_authority; [apply auth_of_set_authority|done|by rewrite El|].
    intros [Hb1 Hb2]. split; simpl; [by intros ? [= <-]; apply Hb1|].
    intros k q [[<- <-]|[? Hq]]%lookup_insert_Some; [lia|by eapply Hb2].
Qed.

(** [try_accept] after [OutputSeqNormalization] returns, and moves the ordering
    forward; a parked batch leaves it settled. *)
Lemma try_accept_spec {E} o a s p :
  ordering_ok o -> prepared_for a s p ->
  exists o' r, try_accept (E := E) o a s p true = Ret (o', r) /\ moves o o' /\
    ((r = InOrder p \/ r = OverflowForced p) /\ ordering_ok_at (accepting a) o' \/
     r = Parked /\ ordering_ok o').
Proof.
  intros Ho Hp. destruct (Hp) as (Hseq & Hbene & Hdr & Hs). unfold try_accept.
  assert (Hid : moves o o /\ ordering_ok_at (accepting a) o) by (by split; [|apply settled_accepting]).
  destruct (Z.eqb_spec s 0) as [|Hs0]; [exists o, (InOrder p); tauto|].
  fold (auth_of o a). pose proof (auth_of_ok _ o a Ho) as Hok.
  destruct (last_executed_seq (auth_of o a)) as [l|] eqn:El.
  2:{ eexists _, _. split; [done|].
      destruct (accept_seq_moves o a s (parked (auth_of o a))) as [H1 H2]; [done|lia|done| | |tauto].
      - by rewrite (so_none _ _ _ Hok El).
      - by rewrite El. }
  destruct (Z.leb_spec s l) as [|Hsl]; [exists o, (InOrder p); tauto|].
  pose proof (so_last _ _ _ Hok l El). rewrite (uadd_ok u64_max l 1) by lia.
  cbn [mbind exec_bind].
  destruct (Z.eqb_spec s (l + 1)) as [->|Hne]; cbn [negb].
  { eexists _, _. split; [done|].
    destruct (accept_seq_moves o a (l + 1) (parked (auth_of o a))) as [H1 H2]; [done|lia|done| | |tauto].
    - intros k q Hq. apply (so_above _ _ _ Hok l k q El Hq).
    - rewrite El. simpl. lia. }
  destruct (Nat.leb_spec MAX_PARKED_PER_AUTHORITY (size (parked (auth_of o a)))) as [Hfull|Hroom].
  - rewrite (uadd_ok u64_max s 1) by lia. cbn [mbind exec_bind].
    eexists _, _. split; [done|].
    destruct (accept_seq_moves o a s (retain_keys (fun k => s + 1 <=? k) (parked (auth_of o a))))
      as [H1 H2]; [done|lia|apply map_filter_subseteq| | |tauto].
    + intros k q. rewrite lookup_retain_keys. destruct (Z.leb_spec (s + 1) k); [lia|done].
    + rewrite El. simpl. lia.
  - destruct (park_moves o a l s p) as [H1 H2]; [done|done|lia|done|done|].
    eexists _, _. split; [done|]. tauto.
Qed.

(** Draining moves the ordering forward too. *)
Lemma drain_moves check o a coll reg o' coll' reg' taken :
  drain_result check o a coll reg o' coll' reg' taken -> ordering_ok o' -> moves o o'.
Proof.
  intros [Hrun Hgap Hlast Hparked Hunt Hother Hframe _ _] Ho'. split; [done| |].
  - intros b. destruct (decide (b = a)) as [->|]; [|by rewrite Hother].
    rewrite Hlast. destruct (last_executed_seq (auth_of o a)); simpl; [lia|done].
  - intros Hb b. destruct (decide (b = a)) as [->|]; [|rewrite Hother by done; apply Hb].
    destruct (last_executed_seq (auth_of o a)) as [l|] eqn:El.
    2:{ destruct (Hunt eq_refl) as [_ ->]. apply Hb. }
    destruct (Hb a) as [Hb1 Hb2]. split.
    + rewrite Hlast. simpl. intros ? [= <-]. specialize (Hb1 l El).
      destruct (Nat.eq_0_gt_0_cases (length taken)) as [->|Hlen]; [lia|].
      destruct (lookup_lt_is_Some_2 taken (length taken - 1)) as [p Hp]; [lia|].
      apply (Hrun _ _ l eq_refl), Hb2 in Hp. lia.
    + change (parked (auth_of o' a)) with (parked_of o' a). rewrite (Hparked l eq_refl).
      intros s p. rewrite lookup_retain_keys. destruct (_ <? s); [|done]. apply Hb2.
Qed.

(** ** Persistence *)

(** A prepared batch as it reloads: its batch without the node-local
    [received_at]. *)
Definition reloaded (p : PreparedBatch) : PreparedBatch :=
  into_prepared (ParkedRef_from p) (wire_batch (pb_batch p)).
Definition reloaded_state (s : BatchOrderingState) : BatchOrderingState :=
  {| bos_epoch := bos_epoch s;
     bos_authorities := (fun auth => {| last_executed_seq := last_executed_seq auth;
                                        parked := reloaded <$> parked auth |}) <$> bos_authorities s |}.

(** Every parked batch has its row in [Batches]. *)
Definition bodies_stored (db : OrderingDb) (s : BatchOrderingState) : Prop :=
  forall a auth k p, bos_authorities s !! a = Some auth -> parked auth !! k = Some p ->
    Batches db !! batch_digest p = Some (Some (wire_batch (pb_batch p))).

Lemma lookup_bodies (rows m : gmap B256 (option Batch)) ds d row :
  rows !! d = Some row -> d ∈ ds \/ m !! d = Some row ->
  foldl (fun m d => match rows !! d with Some bytes => <[d := bytes]> m | None => m end) m ds !! d
  = Some row.
Proof.
  intros Hd. revert m. induction ds as [|d' ds IH]; intros m Hin; simpl.
  - destruct Hin as [Hin|]; [by apply elem_of_nil in Hin|done].
  - apply IH. destruct (decide (d = d')) as [->|Hne].
    + right. by rewrite Hd, lookup_insert_eq.
    + destruct Hin as [[|]%elem_of_cons|Hm]; [done|by left|]. right.
      destruct (rows !! d'); [by rewrite lookup_insert_ne|done].
Qed.

Lemma reconstruct_stored s bodies :
  (forall a auth k p, bos_authorities s !! a = Some auth -> parked auth !! k = Some p ->
     bodies !! batch_digest p = Some (Some (wire_batch (pb_batch p)))) ->
  reconstruct_parked (Stored_from s) bodies = reloaded_state s.
Proof.
  intros Hb. unfold reconstruct_parked, reloaded_state. simpl. f_equal.
  apply map_eq. intros a. rewrite !lookup_fmap.
  destruct (bos_authorities s !! a) as [auth|] eqn:Ea; simpl; [|done]. do 2 f_equal.
  apply map_eq. intros k. rewrite lookup_omap, !lookup_fmap.
  destruct (parked auth !! k) as [p|] eqn:Ep; simpl; [|done].
  by rewrite (Hb a auth k p Ea Ep).
Qed.

Lemma read_persisted o :
  bodies_stored (batch_ordering_store o) (batch_ordering_state o) ->
  read_batch_ordering_state (batch_ordering_store (persist o)) =
  Some (Some (reloaded_state (batch_ordering_state o))).
Proof.
  intros Hb. unfold read_batch_ordering_state. simpl. do 2 f_equal.
  apply reconstruct_stored. intros a auth k p Ea Ep.
  apply lookup_bodies; [by eapply Hb|]. left. apply list_elem_of_bind.
  exists {| st_last_executed_seq := last_executed_seq auth;
            st_parked := ParkedRef_from <$> parked auth |}. split.
  - apply list_elem_of_fmap. exists (ParkedRef_from p). split; [done|].
    apply elem_of_btree_values. exists k. simpl. by rewrite lookup_fmap, Ep.
  - apply elem_of_btree_values. exists a. simpl. by rewrite lookup_fmap, Ea.
Qed.

(** A restart from a persisted ordering restores it: when every parked
    batch has its row in [Batches] and the persisted epoch is the current one
    or the one before, [from_history] rebuilds the epoch, every watermark and
    every parked batch (without the node-local receive time), whatever the
    consensus history holds, and seeds the own-authority watch with the own
    watermark. *)
Theorem persist_from_history {E} o current_epoch :
  let state := batch_ordering_state o in
  bodies_stored (batch_ordering_store o) state -> bos_authorities state <> ∅ ->
  bos_epoch state + 1 <= u32_max ->
  current_epoch = bos_epoch state \/ current_epoch = bos_epoch state + 1 ->
  exists o', from_history (E := E) (batch_ordering_store (persist o)) current_epoch
               (bo_authority o) = Ret o' /\
    batch_ordering_state o' = reloaded_state state /\
    (forall a, last_executed_seq_of o' a = last_executed_seq_of o a) /\
    (forall a, parked_of o' a = reloaded <$> parked_of o a) /\
    executed_own_watermark o' = last_executed_seq_of o (bo_authority o).
Proof.
  intros state Hb Hne He Hcur. unfold from_history. rewrite (read_persisted o Hb).
  cbn [expect mbind exec_bind from_option Datatypes.id]. fold state.
  assert (Hnone : bool_decide (bos_authorities (reloaded_state state) = ∅) = false).
  { apply bool_decide_eq_false. simpl. by rewrite fmap_empty_iff. }
  assert (Hlast : forall a, bos_authorities (reloaded_state state) !! a ≫= last_executed_seq
                  = last_executed_seq_of o a).
  { intros a. unfold last_executed_seq_of. simpl. rewrite lookup_fmap.
    fold state. by destruct (bos_authorities state !! a). }
  assert (Hframe : (if bos_epoch (reloaded_state state) =? current_epoch then Ret true
    else next ← uadd u32_max (bos_epoch (reloaded_state state)) 1; Ret (next =? current_epoch))
    = Ret (E := E) true).
  { simpl. destruct (Z.eqb_spec (bos_epoch state) current_epoch); [done|].
    rewrite uadd_ok by done. simpl. f_equal. apply Z.eqb_eq. lia. }
  rewrite Hframe. cbn [mbind exec_bind]. rewrite Hnone. cbn [negb orb].
  eexists. split; [done|]. split_and!; [done|done| |apply Hlast].
  intros a. unfold parked_of. simpl. rewrite lookup_fmap. fold state.
  destruct (bos_authorities state !! a); simpl; [done|]. by rewrite fmap_empty.
Qed.

(** ** Sequence number [u64::MAX] *)

(** [batch.seq] is the proposer's choice. A batch with sequence number
    [u64::MAX] that is the first of its authority in the epoch is accepted in
    order; the drain that follows every acceptance then computes
    [last_seq + 1], which overflows: the process aborts, on every node that
    executes the output. *)
Theorem max_seq_batch_aborts {E} o a p coll reg check seq_normalization :
  last_executed_seq (auth_of o a) = None ->
  exists o', try_accept (E := E) o a u64_max p seq_normalization = Ret (o', InOrder p) /\
    drain_consecutive (E := E) o' a coll reg check = Panic.
Proof.
  intros Hn. unfold try_accept. fold (auth_of o a). rewrite Hn.
  eexists. split; [done|]. unfold drain_consecutive. cbn [drain_consecutive_loop].
  by rewrite authorities_accept_seq, lookup_insert_eq.
Qed.

(** ** Witnesses *)

Definition example_batch (a s : Z) : Batch :=
  {| transactions := [[1]]; b_epoch := 5; b_beneficiary := a; base_fee_per_gas := 7;
     b_worker_id := 0; seq := s; received_at := Some 9 |}.
Definition example_prepared (a s d : Z) : PreparedBatch :=
  {| pb_batch := example_batch a s; batch_digest := d; beneficiary := a; output_digest := 77;
     output_nonce := 0; timestamp := 0; pb_epoch := 5; worker_id := 0; batch_index := 0;
     drained := false; gas_limit := 30000000 |}.

Definition example_db : OrderingDb :=
  {| ordering_row := None;
     Batches := {[101 := Some (wire_batch (example_batch 7 1));
                  103 := Some (wire_batch (example_batch 7 3))]};
     ConsensusBlocks := ∅ |}.

(** Authority 7 has executed sequence number 1 and has 3 parked, in epoch 5. *)
Definition example_ordering : BatchOrdering :=
  BatchOrdering_new example_db
    {| bos_epoch := 5;
       bos_authorities := {[7 := {| last_executed_seq := Some 1;
                                    parked := {[3 := example_prepared 7 3 103]} |}]} |} 7.

Lemma example_lookup (a : Address) auth :
  bos_authorities (batch_ordering_state example_ordering) !! a = Some auth ->
  a = 7 /\ auth = {| last_executed_seq := Some 1; parked := {[3 := example_prepared 7 3 103]} |}.
Proof. simpl. by intros [<- <-]%lookup_singleton_Some. Qed.

Lemma example_ordering_ok : ordering_ok example_ordering.
Proof.
  intros a auth [-> ->]%example_lookup. split; simpl; try done.
  - intros ? [= <-]. ulia.
  - intros ? s p [= <-] [<- <-]%lookup_singleton_Some. unfold settled. lia.
  - intros s p [<- <-]%lookup_singleton_Some. by split_and!.
  - rewrite map_size_singleton. unfold MAX_PARKED_PER_AUTHORITY. lia.
Qed.

Lemma max_seq_batch_aborts_witness :
  exists o', try_accept (E := unit) (new_with_empty_state example_db) 7 u64_max
               (example_prepared 7 u64_max 1) true =
               Ret (o', InOrder (example_prepared 7 u64_max 1)) /\
    drain_consecutive (E := unit) o' 7 [] default_registry true = Panic.
Proof. apply max_seq_batch_aborts. reflexivity. Defined.

(** Sequence number 2 has just been accepted: 3 drains. *)
Lemma drain_consecutive_correct_witness :
  let o := accept_seq example_ordering 7 2 (parked (auth_of example_ordering 7)) in
  exists o' coll' reg' taken,
    drain_consecutive (E := unit) o 7 [] default_registry true = Ret (o', coll', reg') /\
    drain_result true o 7 [] default_registry o' coll' reg' taken /\ ordering_ok o'.
Proof.
  apply drain_consecutive_correct.
  - apply (accept_seq_moves example_ordering 7 2); [apply example_ordering_ok|unfold u64_max; lia|done| |].
    + change (parked (auth_of example_ordering 7)) with
        ({[3 := example_prepared 7 3 103]} : gmap Z PreparedBatch).
      intros k p [<- <-]%lookup_singleton_Some. lia.
    + change (1 <= 2). lia.
  - change (below_max {| last_executed_seq := Some 2; parked := {[3 := example_prepared 7 3 103]} |}).
    split; simpl; [intros ? [= <-]; unfold u64_max; lia|].
    intros s p [<- <-]%lookup_singleton_Some. unfold u64_max. lia.
Defined.

Lemma persist_from_history_witness :
  exists o', from_history (E := unit) (batch_ordering_store (persist example_ordering)) 6 7 = Ret o' /\
    batch_ordering_state o' = reloaded_state (batch_ordering_state example_ordering) /\
    (forall a, last_executed_seq_of o' a = last_executed_seq_of example_ordering a) /\
    (forall a, parked_of o' a = reloaded <$> parked_of example_ordering a) /\
    executed_own_watermark o' = last_executed_seq_of example_ordering 7.
Proof.
  apply (persist_from_history example_ordering 6); [|done|unfold u32_max; simpl; lia|by right].
  intros a auth k p [-> ->]%example_lookup. cbn [parked].
  intros [<- <-]%lookup_singleton_Some. reflexivity.
Defined.

(** ** Reseeding from history *)

(** A sub-DAG of epoch 5 whose one certificate carries the batches 101 and
    103. *)
Definition example_block : CommittedSubDag :=
  let c := {| header := {| fields := {| author := 1; round := 2; epoch := 5; created_at := 0;
                                        payload := [(101, 0); (103, 0)]; parents := ∅;
                                        latest_execution_block := {| bnh_number := 0; bnh_hash := 0 |} |};
                           digest_cell := None |};
              signature_verification_state := Genesis; signed_authorities := ∅;
              cert_created_at := 0 |} in
  {| sd_certificates := [c]; sd_leader := c;
     reputation_score := {| scores_per_authority := ∅; final_of_schedule := false |};
     sd_commit_timestamp := 0 |}.

(** The database of a node that stopped while executing the first output of
    epoch 5: the boundary persisted the emptied ordering, the output itself is
    in [ConsensusBlocks] and not executed yet. *)
Definition boundary_db : OrderingDb :=
  {| ordering_row := Some (Compact {| st_epoch := 5; st_authorities := ∅ |});
     Batches := Batches example_db; ConsensusBlocks := {[1 := Some example_block]} |}.

(** The batches with sequence numbers 1 and 3 of authority 7, one after the
    other. *)
Definition accept_1_3 (o : BatchOrdering) : Exec unit (AcceptResult * AcceptResult) :=
  r1 ← try_accept o 7 1 (example_prepared 7 1 101) true;
  r3 ← try_accept r1.1 7 3 (example_prepared 7 3 103) true;
  Ret (r1.2, r3.2).

(** A node that stopped while it executed the first output of an epoch
    does not execute that output as the others do: the walk over the stored
    consensus blocks counts the batches of committed outputs that were not
    executed, so the restarted node executes sequence number 3 at once where
    the others, who have executed only 1, park it. *)
Theorem reseed_counts_unexecuted :
  exists o, from_history (E := unit) boundary_db 5 9 = Ret o /\
    accept_1_3 o =
      Ret (InOrder (example_prepared 7 1 101), InOrder (example_prepared 7 3 103)) /\
    accept_1_3 (BatchOrdering_new boundary_db {| bos_epoch := 5; bos_authorities := ∅ |} 9) =
      Ret (InOrder (example_prepared 7 1 101), Parked).
Proof. eexists. split; [by vm_compute|]. by vm_compute. Qed.
