(* ===== verification/InFlight.v ===== *)
(** * In-flight transaction tracking

    [crates/execution/evm/src/in_flight]: the marks of transactions that were
    sealed or forwarded and not yet observed mined ([marks.rs]), the tracker
    over them ([mod.rs]) and its counters ([metrics.rs]).

    Every method mutates the marks under the tracker's lock, drops the lock and
    then publishes the size change to the counters and the release watch. The
    two halves are separate definitions ([locked], [publish]), so that the
    methods of concurrent callers can be interleaved between them. *)
From S2P Require Import Prelude Types.

Abbreviation TxHash := Z (only parsing).
(** Nanoseconds. *)
Abbreviation Instant := Z (only parsing).
Abbreviation Duration := Z (only parsing).

Definition DURATION_MAX : Duration := u64_max * 10 ^ 9 + 999999999.

(** [Duration::saturating_mul] *)
Definition duration_saturating_mul (d : Duration) (k : Z) : Duration := Z.min DURATION_MAX (d * k).

(** [Duration::from_secs(60)] *)
Definition DROPPED_HOLD : Duration := 60 * 10 ^ 9.

(** ** Marks *)

Record DuePolicy := {
  after : Duration;
  backoff_shift_cap : Z;
  min_anchor_advance : Z
}.

(** [DuePolicy::ttl] *)
Definition DuePolicy_ttl (d : Duration) : DuePolicy :=
  {| after := d; backoff_shift_cap := 0; min_anchor_advance := 0 |}.

Inductive Mark :=
  | Sent (at_ : Instant) (anchor : Z) (attempts : Z)
  | AckedStale
  | Held (at_ : Instant) (sender : Address).

(** [Mark::is_due]; [Instant::duration_since] is zero when [at] is later. *)
Definition is_due (m : Mark) (now : Instant) (anchor : Z) (policy : DuePolicy) : bool :=
  match m with
  | Sent t mark_anchor attempts =>
      let shift := Z.min (Z.min attempts (backoff_shift_cap policy)) 31 in
      let wait := duration_saturating_mul (after policy) (Z.shiftl 1 shift) in
      (wait <=? sat_sub now t)
      && (sat_add u64_max mark_anchor (min_anchor_advance policy) <=? anchor)
  | Held t _ => DROPPED_HOLD <=? sat_sub now t
  | AckedStale => false
  end.

(** [Mark::resend] *)
Definition resend (m : Mark) (now : Instant) (anchor : Z) : Mark :=
  match m with
  | Sent _ _ attempts => Sent now anchor (sat_add u32_max attempts 1)
  | Held _ _ => Sent now anchor (sat_add u32_max 0 1)
  | AckedStale => AckedStale
  end.

Inductive Armed := Sealing (p : DuePolicy) | Forwarding.

(** ** The tracker *)

Record Inner := {
  marks : gmap TxHash Mark;
  armed : option Armed
}.

Record InFlightMetrics := {
  gauge : Z;
  marked : Z;
  marked_forward : Z;
  released_reconcile : Z;
  released_dropped : Z;
  released_ttl : Z;
  released_clear : Z
}.

Record InFlightTracker := {
  inner : Inner;
  metrics : InFlightMetrics;
  release_epoch : Z
}.

(** [InFlightTracker::new] on fresh metrics. *)
Definition InFlightTracker_new : InFlightTracker :=
  {| inner := {| marks := ∅; armed := None |};
     metrics := {| gauge := 0; marked := 0; marked_forward := 0; released_reconcile := 0;
                   released_dropped := 0; released_ttl := 0; released_clear := 0 |};
     release_epoch := 0 |}.

(** [is_in_flight], [len], [InFlightTracker::is_due] *)
Definition is_in_flight (t : InFlightTracker) (hash : TxHash) : bool :=
  bool_decide (is_Some (marks (inner t) !! hash)).
Definition len (t : InFlightTracker) : nat := size (marks (inner t)).
Definition hash_is_due (t : InFlightTracker) (hash : TxHash) (now : Instant) (anchor : Z)
    (policy : DuePolicy) : bool :=
  match marks (inner t) !! hash with
  | None => true
  | Some m => is_due m now anchor policy
  end.

Record ForwardProbe := { forwarded : bool; due : bool; probe_attempts : Z }.

(** [ForwardMarks::probe] *)
Definition probe (t : InFlightTracker) (policy : DuePolicy) (hash : TxHash) (now : Instant)
    (anchor : Z) : ForwardProbe :=
  let mark := marks (inner t) !! hash in
  {| forwarded := bool_decide (is_Some mark);
     due := hash_is_due t hash now anchor policy;
     probe_attempts := match mark with
                       | Some (Sent _ _ attempts) => attempts
                       | Some AckedStale => u32_max
                       | _ => 0
                       end |}.

(** ** Publishing *)

Inductive Cause := Reconcile | Dropped | Ttl | Clear.

Definition add_released (c : Cause) (d : Z) (m : InFlightMetrics) : InFlightMetrics :=
  {| gauge := gauge m - d; marked := marked m; marked_forward := marked_forward m;
     released_reconcile := match c with Reconcile => released_reconcile m + d
                                   | _ => released_reconcile m end;
     released_dropped := match c with Dropped => released_dropped m + d
                                 | _ => released_dropped m end;
     released_ttl := match c with Ttl => released_ttl m + d | _ => released_ttl m end;
     released_clear := match c with Clear => released_clear m + d | _ => released_clear m end |}.

(** What a method still has to publish after it has dropped the lock. *)
Inductive Callback :=
  | OnMarked (previous current : nat)
  | OnForwarded (previous current : nat)
  | OnReleased (previous current : nat) (counter : Cause).

(** [on_marked], [on_forwarded], [on_released]: the size differences saturate
    at zero. *)
Definition publish (t : InFlightTracker) (cb : Callback) : InFlightTracker :=
  let m := metrics t in
  match cb with
  | OnMarked previous current =>
      let delta := Z.of_nat (current - previous) in
      {| inner := inner t;
         metrics := {| gauge := gauge m + delta; marked := marked m + delta;
                       marked_forward := marked_forward m;
                       released_reconcile := released_reconcile m;
                       released_dropped := released_dropped m; released_ttl := released_ttl m;
                       released_clear := released_clear m |};
         release_epoch := release_epoch t |}
  | OnForwarded previous current =>
      {| inner := inner t;
         metrics := {| gauge := gauge m; marked := marked m;
                       marked_forward := marked_forward m + Z.of_nat (current - previous);
                       released_reconcile := released_reconcile m;
                       released_dropped := released_dropped m; released_ttl := released_ttl m;
                       released_clear := released_clear m |};
         release_epoch := release_epoch t |}
  | OnReleased previous current counter =>
      let delta := Z.of_nat (previous - current) in
      {| inner := inner t; metrics := add_released counter delta m;
         release_epoch := if 0 <? delta then release_epoch t + 1 else release_epoch t |}
  end.

(** ** The locked halves of the methods *)

Definition with_marks (i : Inner) (ms : gmap TxHash Mark) : Inner :=
  {| marks := ms; armed := armed i |}.

(** A [retain] under the lock, counted under one cause. *)
Definition lock_retain (f : TxHash -> Mark -> bool) (c : Cause) (i : Inner) :
    Inner * list Callback :=
  let ms := filter (fun kv => f kv.1 kv.2 = true) (marks i) in
  (with_marks i ms, [OnReleased (size (marks i)) (size ms) c]).

(** [track_all] *)
Definition lock_track_all (hashes : list TxHash) (mark : Mark) (i : Inner) :
    Inner * list Callback :=
  match hashes with
  | [] => (i, [])
  | _ =>
      let ms := foldl (fun ms hash => <[hash := mark]> ms) (marks i) hashes in
      (with_marks i ms, [OnMarked (size (marks i)) (size ms)])
  end.

(** [ForwardMarks::mark_forwarded] *)
Definition lock_mark_forwarded (hashes : list TxHash) (now : Instant) (anchor : Z) (i : Inner) :
    Inner * list Callback :=
  match hashes with
  | [] => (i, [])
  | _ =>
      let ms := foldl (fun ms hash =>
                  <[hash := match ms !! hash with
                            | Some mark => resend mark now anchor
                            | None => Sent now anchor 0
                            end]> ms) (marks i) hashes in
      (with_marks i ms, [OnMarked (size (marks i)) (size ms);
                         OnForwarded (size (marks i)) (size ms)])
  end.

(** [hold_dropped] *)
Definition lock_hold_dropped (dropped : list (Address * TxHash)) (now : Instant) (i : Inner) :
    Inner * list Callback :=
  (with_marks i
     (foldl (fun ms sh => match ms !! sh.2 with
                          | Some (Sent _ _ _) => <[sh.2 := Held now sh.1]> ms
                          | _ => ms
                          end) (marks i) dropped), []).

(** [release_hashes] *)
Definition lock_release_hashes (mined : list TxHash) (i : Inner) : Inner * list Callback :=
  let ms := foldl (fun ms hash => delete hash ms) (marks i) mined in
  (with_marks i ms, [OnReleased (size (marks i)) (size ms) Reconcile]).

(** [clear] *)
Definition lock_clear (i : Inner) : Inner * list Callback :=
  let '(ms, released) := match armed i with
                         | Some (Sealing _) => (∅, size (marks i))
                         | Some Forwarding => (marks i, 0%nat)
                         | None => (∅, size (marks i))
                         end in
  ({| marks := ms; armed := None |},
   if (0 <? released)%nat then [OnReleased released 0 Clear] else []).

(** The methods that write, with the clock they read. *)
Inductive Op :=
  | ArmSealing (policy : DuePolicy)
  | ArmForwarding
  | SealMark (hashes : list TxHash) (now : Instant)
  | MarkForwarded (hashes : list TxHash) (now : Instant) (anchor : Z)
  | MarkAckedStale (hashes : list TxHash)
  | ReleaseDue (policy : DuePolicy) (now : Instant) (anchor : Z)
  | HoldDropped (dropped : list (Address * TxHash)) (now : Instant)
  | ReleaseAdvanced (senders : list Address)
  | ReleaseMined (live : gset TxHash)
  | ReleaseHashes (mined : list TxHash)
  | ClearAll.

Definition locked (op : Op) (i : Inner) : Inner * list Callback :=
  match op with
  | ArmSealing policy =>
      ({| marks := ∅; armed := Some (Sealing policy) |}, [OnReleased (size (marks i)) 0 Clear])
  | ArmForwarding => ({| marks := marks i; armed := Some Forwarding |}, [])
  | SealMark hashes now => lock_track_all hashes (Sent now 0 0) i
  | MarkForwarded hashes now anchor => lock_mark_forwarded hashes now anchor i
  | MarkAckedStale hashes => lock_track_all hashes AckedStale i
  | ReleaseDue policy now anchor =>
      lock_retain (fun _ m => negb (is_due m now anchor policy)) Ttl i
  | HoldDropped dropped now => lock_hold_dropped dropped now i
  | ReleaseAdvanced senders =>
      lock_retain (fun _ m => match m with
                              | Held _ sender => negb (bool_decide (sender ∈ senders))
                              | _ => true
                              end) Dropped i
  | ReleaseMined live => lock_retain (fun h _ => bool_decide (h ∈ live)) Reconcile i
  | ReleaseHashes mined => lock_release_hashes mined i
  | ClearAll => lock_clear i
  end.

(** A method that runs without interruption. *)
Definition set_inner (t : InFlightTracker) (i : Inner) : InFlightTracker :=
  {| inner := i; metrics := metrics t; release_epoch := release_epoch t |}.
Definition run_op (op : Op) (t : InFlightTracker) : InFlightTracker :=
  let '(i, cbs) := locked op (inner t) in foldl publish (set_inner t i) cbs.

(** [sweep_due]: the policy is read under one lock acquisition and the marks
    are released under another. *)
Definition sweep_policy (t : InFlightTracker) : option DuePolicy :=
  match armed (inner t) with Some (Sealing policy) => Some policy | _ => None end.
Definition sweep_due (t : InFlightTracker) (now : Instant) (anchor : Z) :
    InFlightTracker * nat :=
  match sweep_policy t with
  | None => (t, 0%nat)
  | Some policy =>
      let t' := run_op (ReleaseDue policy now anchor) t in (t', (len t - len t')%nat)
  end.

(** ** Concurrent callers *)

(** The tracker with the calls in progress: what each still has to publish, and
    the sweeps that have read their policy. *)
Record TrackerWorld := {
  tracker : InFlightTracker;
  calls : list (list Callback);
  sweeps : list DuePolicy
}.

Inductive TrackerEvent :=
  | Begin (op : Op)
  | Publish (k : nat)
  | SweepRead
  | SweepRelease (k : nat) (now : Instant) (anchor : Z).

Definition begin_op (op : Op) (w : TrackerWorld) : TrackerWorld :=
  let '(i, cbs) := locked op (inner (tracker w)) in
  {| tracker := set_inner (tracker w) i; calls := calls w ++ [cbs]; sweeps := sweeps w |}.

Definition world_step (w : TrackerWorld) (e : TrackerEvent) : TrackerWorld :=
  match e with
  | Begin op => begin_op op w
  | Publish k =>
      match calls w !! k with
      | Some (cb :: cbs) => {| tracker := publish (tracker w) cb; calls := <[k := cbs]> (calls w);
                               sweeps := sweeps w |}
      | _ => w
      end
  | SweepRead =>
      match sweep_policy (tracker w) with
      | Some policy => {| tracker := tracker w; calls := calls w;
                          sweeps := sweeps w ++ [policy] |}
      | None => w
      end
  | SweepRelease k now anchor =>
      match sweeps w !! k with
      | Some policy =>
          begin_op (ReleaseDue policy now anchor)
            {| tracker := tracker w; calls := calls w; sweeps := delete k (sweeps w) |}
      | None => w
      end
  end.

Definition world_new : TrackerWorld := {| tracker := InFlightTracker_new; calls := []; sweeps := [] |}.
Definition world_run (es : list TrackerEvent) : TrackerWorld := foldl world_step world_new es.

(** ** Conservation *)

(** The size change a callback stands for. *)
Definition owed (cb : Callback) : Z :=
  match cb with
  | OnMarked previous current => Z.of_nat (current - previous)
  | OnForwarded _ _ => 0
  | OnReleased previous current _ => - Z.of_nat (previous - current)
  end.
Definition owed_all (cbs : list Callback) : Z := zsum (owed <$> cbs).
Definition owed_calls (cs : list (list Callback)) : Z := zsum (owed_all <$> cs).

(** Marked minus everything released, by the counters. *)
Definition net (m : InFlightMetrics) : Z :=
  marked m - released_reconcile m - released_dropped m - released_ttl m - released_clear m.

Lemma size_filter_le {A} (P : Z * A -> Prop) `{!forall x, Decision (P x)} (m : gmap Z A) :
  (size (filter P m) <= size m)%nat.
Proof. apply map_subseteq_size, map_filter_subseteq. Qed.

Lemma size_foldl_insert_ge (f : gmap TxHash Mark -> TxHash -> Mark) hs m :
  (size m <= size (foldl (fun ms h => <[h := f ms h]> ms) m hs))%nat.
Proof.
  revert m. induction hs as [|h hs IH]; intros m; simpl; [done|].
  etrans; [|apply IH]. rewrite map_size_insert. destruct (m !! h); simpl; lia.
Qed.

Lemma size_foldl_delete_le (hs : list TxHash) (m : gmap TxHash Mark) :
  (size (foldl (fun ms h => delete h ms) m hs) <= size m)%nat.
Proof.
  revert m. induction hs as [|h hs IH]; intros m; simpl; [done|].
  etrans; [apply IH|]. rewrite map_size_delete. destruct (m !! h); simpl; lia.
Qed.

Lemma size_hold_dropped now dropped i :
  size (marks (lock_hold_dropped dropped now i).1) = size (marks i).
Proof.
  unfold lock_hold_dropped. simpl. generalize (marks i). intros m. revert m.
  induction dropped as [|[s h] l IH]; intros m; simpl; [done|].
  destruct (m !! h) as [[]|] eqn:E; rewrite IH; try done.
  rewrite map_size_insert, E. done.
Qed.

(** What a locked half leaves to publish is its size change. *)
Lemma locked_owed op i :
  Z.of_nat (size (marks (locked op i).1)) - Z.of_nat (size (marks i)) = owed_all (locked op i).2.
Proof.
  assert (Hret : forall f c, Z.of_nat (size (marks (lock_retain f c i).1))
                 - Z.of_nat (size (marks i)) = owed_all (lock_retain f c i).2).
  { intros f c. unfold owed_all. simpl.
    pose proof (size_filter_le (fun kv => f kv.1 kv.2 = true) (marks i)). lia. }
  assert (Htrack : forall m hs, Z.of_nat (size (marks (lock_track_all hs m i).1))
                 - Z.of_nat (size (marks i)) = owed_all (lock_track_all hs m i).2).
  { intros m [|h hs]; unfold owed_all; cbn -[foldl size]; [lia|].
    pose proof (size_foldl_insert_ge (fun _ _ => m) (h :: hs) (marks i)). lia. }
  destruct op as [p| |hs now|hs now a|hs|p now a|d now|ss|live|hs|]; cbn [locked]; auto.
  - unfold owed_all. simpl. rewrite map_size_empty. lia.
  - unfold owed_all. simpl. lia.
  - destruct hs as [|h hs]; unfold owed_all; cbn -[foldl size]; [lia|].
    pose proof (size_foldl_insert_ge (fun ms hash => match ms !! hash with
                  | Some mark => resend mark now a | None => Sent now a 0 end) (h :: hs) (marks i)).
    lia.
  - pose proof (size_hold_dropped now d i) as E. unfold owed_all. simpl in *. lia.
  - unfold owed_all. simpl. pose proof (size_foldl_delete_le hs (marks i)). lia.
  - unfold lock_clear, owed_all. destruct (armed i) as [[p|]|]; simpl;
      rewrite ?map_size_empty; try (destruct (size (marks i)); simpl; lia); lia.
Qed.

Lemma publish_net t cb :
  net (metrics (publish t cb)) = net (metrics t) + owed cb /\
  (gauge (metrics t) = net (metrics t) ->
   gauge (metrics (publish t cb)) = net (metrics (publish t cb))).
Proof.
  destruct cb as [p c|p c|p c []]; unfold net; simpl; split; lia.
Qed.

Lemma owed_calls_publish cs k cb cbs :
  cs !! k = Some (cb :: cbs) -> owed_calls (<[k := cbs]> cs) = owed_calls cs - owed cb.
Proof.
  unfold owed_calls. revert k. induction cs as [|c cs IH]; intros [|k]; simpl; try done.
  - intros [= ->]. unfold owed_all, zsum. csimpl. lia.
  - intros Hk. specialize (IH k Hk). unfold zsum in *. simpl. fold_fmap. lia.
Qed.

Definition conserved (w : TrackerWorld) : Prop :=
  Z.of_nat (len (tracker w)) = net (metrics (tracker w)) + owed_calls (calls w) /\
  gauge (metrics (tracker w)) = net (metrics (tracker w)).

Lemma begin_conserved op w : conserved w -> conserved (begin_op op w).
Proof.
  unfold conserved, begin_op, len. pose proof (locked_owed op (inner (tracker w))) as Hl.
  destruct (locked op (inner (tracker w))) as [i cbs]. simpl in *. intros [Hn Hg].
  unfold owed_calls in *. rewrite fmap_app, zsum_app. simpl. split; [lia|done].
Qed.

Lemma step_conserved w e : conserved w -> conserved (world_step w e).
Proof.
  intros Hw. destruct e as [op|k| |k now anchor]; simpl.
  - by apply begin_conserved.
  - destruct (calls w !! k) as [[|cb cbs]|] eqn:E; [done| |done].
    destruct (publish_net (tracker w) cb) as [Hn Hg], Hw as [Hl Hgn].
    unfold conserved. simpl. rewrite (owed_calls_publish _ _ cb) by done. split; [|by auto].
    replace (len (publish (tracker w) cb)) with (len (tracker w)) by (by destruct cb). lia.
  - by destruct (sweep_policy (tracker w)).
  - destruct (sweeps w !! k); [|done]. by apply begin_conserved.
Qed.

(** However the tracker's methods of concurrent callers interleave, each
    one mutating the marks under the lock and publishing after it has dropped
    it, the gauge equals marked minus reconciled, dropped, expired and cleared,
    and the number of live marks differs from it by exactly what the calls in
    progress have yet to publish; with no call in progress they are equal. *)
Theorem in_flight_conservation (es : list TrackerEvent) :
  let w := world_run es in
  let m := metrics (tracker w) in
  gauge m = marked m - released_reconcile m - released_dropped m - released_ttl m
            - released_clear m /\
  Z.of_nat (len (tracker w)) = gauge m + owed_calls (calls w) /\
  (Forall (fun cbs => cbs = []) (calls w) -> Z.of_nat (len (tracker w)) = gauge m).
Proof.
  assert (Hc : conserved (world_run es)).
  { unfold world_run. assert (H0 : conserved world_new) by done. revert H0.
    generalize world_new. induction es as [|e es IH]; intros w Hw; simpl; [done|].
    by apply IH, step_conserved. }
  destruct Hc as [Hl Hg]. simpl. rewrite Hg at 2 3. split_and!; [by rewrite Hg| |].
  - lia.
  - intros Hq. enough (owed_calls (calls (world_run es)) = 0) by lia. clear -Hq.
    induction Hq as [|? ? -> ? IH]; [done|]. done.
Qed.

(** The release watch ticks once per release that frees a mark, never for one
    that frees none. *)
Lemma release_ticks t cb :
  release_epoch (publish t cb) =
  release_epoch t + (if owed cb <? 0 then 1 else 0).
Proof.
  destruct cb as [p c|p c|p c k]; simpl;
    repeat match goal with |- context [?a <? ?b] => destruct (Z.ltb_spec a b) end; lia.
Qed.

(** A sweep that has read the sealing policy releases the forwarding marks made
    after the tracker was rearmed for forwarding. *)
Lemma sweep_races_rearm :
  let policy := {| after := 10; backoff_shift_cap := 0; min_anchor_advance := 0 |} in
  let before := [Begin (ArmSealing policy); SweepRead; Begin ClearAll; Begin ArmForwarding;
                 Begin (MarkForwarded [7] 100 5)] in
  let w := world_run before in
  let w' := world_run (before ++ [SweepRelease 0 120 5]) in
  armed (inner (tracker w)) = Some Forwarding /\ is_in_flight (tracker w) 7 = true /\
  armed (inner (tracker w')) = Some Forwarding /\ is_in_flight (tracker w') 7 = false.
Proof. by vm_compute. Qed.

(** ** Settling a block *)

(** [UnsettledExecution::settle]: the marks of the senders the block advanced
    are released, then the transactions it dropped as nonce-too-high are
    held. *)
Definition settle_marks (t : InFlightTracker) (executed_senders : list Address)
    (dropped : list (Address * TxHash)) (now : Instant) : InFlightTracker :=
  let t := match executed_senders with
           | [] => t
           | _ => run_op (ReleaseAdvanced executed_senders) t
           end in
  match dropped with
  | [] => t
  | _ => run_op (HoldDropped dropped now) t
  end.


Lemma lookup_hold_dropped dropped now i h :
  marks (lock_hold_dropped dropped now i).1 !! h =
  match marks i !! h with
  | Some (Sent at_ anchor attempts) =>
      match List.find (fun sh => h =? sh.2) dropped with
      | Some sh => Some (Held now sh.1)
      | None => Some (Sent at_ anchor attempts)
      end
  | m => m
  end.
Proof.
  unfold lock_hold_dropped. simpl. generalize (marks i). intros m. revert m.
  induction dropped as [|[s k] l IH]; intros m; simpl; [by destruct (m !! h) as [[]|]|].
  rewrite IH. destruct (Z.eqb_spec h k) as [->|Hne].
  - destruct (m !! k) as [[]|] eqn:E; simpl; rewrite ?lookup_insert_eq, ?E; done.
  - destruct (m !! k) as [[]|] eqn:E; simpl; rewrite ?lookup_insert_ne by done; done.
Qed.

Lemma run_op_inner op t : inner (run_op op t) = (locked op (inner t)).1.
Proof.
  unfold run_op. destruct (locked op (inner t)) as [i cbs]. simpl.
  assert (H : forall cbs t, inner (foldl publish t cbs) = inner t).
  { clear. induction cbs as [|cb cbs IH]; intros t; simpl; [done|]. rewrite IH. by destruct cb. }
  by rewrite H.
Qed.

(** The mark of every hash after a block is settled: a hash held for a sender
    the block advanced is released; a sent hash the block dropped is held for
    its sender from now on; every other mark is untouched. *)
Lemma settle_marks_lookup t executed_senders dropped now h :
  marks (inner (settle_marks t executed_senders dropped now)) !! h =
  match marks (inner t) !! h with
  | Some (Held at_ sender) =>
      if decide (sender ∈ executed_senders) then None else Some (Held at_ sender)
  | Some (Sent at_ anchor attempts) =>
      match List.find (fun sh => h =? sh.2) dropped with
      | Some sh => Some (Held now sh.1)
      | None => Some (Sent at_ anchor attempts)
      end
  | m => m
  end.
Proof.
  assert (Hrel : marks (inner (match executed_senders with
                         | [] => t | _ => run_op (ReleaseAdvanced executed_senders) t end)) !! h
    = match marks (inner t) !! h with
      | Some (Held at_ sender) =>
          if decide (sender ∈ executed_senders) then None else Some (Held at_ sender)
      | m => m
      end).
  { destruct executed_senders as [|s ss].
    - by destruct (marks (inner t) !! h) as [[]|].
    - rewrite run_op_inner. simpl. rewrite map_lookup_filter.
      destruct (marks (inner t) !! h) as [[]|]; simpl; try done.
      repeat case_guard; case_decide; try done; naive_solver. }
  unfold settle_marks. destruct dropped as [|sh dropped].
  - rewrite Hrel. simpl. by destruct (marks (inner t) !! h) as [[]|]; [|..].
  - rewrite run_op_inner. cbn [locked]. rewrite lookup_hold_dropped, Hrel.
    destruct (marks (inner t) !! h) as [[]|]; try done. by case_decide.
Qed.
