(* ===== verification/Engine.v ===== *)
(** * Execution of consensus outputs

    From a consensus output to EVM blocks:
    [crates/middleware/processor/src/execution/orchestrator.rs] (the processor),
    [execution/block.rs] (one block), [gas.rs] with
    [crates/infrastructure/types/src/gas_accumulator.rs], [ConsensusOutput] of
    [crates/infrastructure/types/src/primary/output.rs], and how the payload
    becomes a block header ([crates/execution/evm/src/evm/config.rs],
    [evm/block.rs]).

    The EVM itself is the interface [BlockExecutor]. The batch tracker only
    logs. *)
From S2P Require Import Prelude Lists State Types Committee LeaderSchedule ConsensusState.
From S2P Require Import Hardforks BatchOrdering InFlight.
#[local] Open Scope Z_scope.

(** ** Consensus outputs *)

Record CertifiedBatch := { cb_address : Address; cb_batches : list Batch }.

Record ConsensusOutput := {
  co_sub_dag : CommittedSubDag;
  co_batches : list CertifiedBatch;
  batch_digests : list B256;
  parent_hash : B256;
  number : Z;
  extra : B256;
  close_epoch : bool
}.

(** The hash functions over a committed sub-DAG (its certificates' digests, its
    leader's, its timestamp), over a consensus header, and over a signature. *)
Class OutputHashes := {
  hash_sub_dag : list CertificateDigest -> CertificateDigest -> TimestampSec -> B256;
  hash_consensus_header : B256 -> B256 -> Z -> B256;
  keccak256_signature : BlsSignature -> B256
}.

Record ConsensusHeader := {
  ch_parent_hash : B256;
  ch_sub_dag : CommittedSubDag;
  ch_number : Z;
  ch_extra : B256
}.

(** [ConsensusOutput::consensus_header], the conversion into the header. *)
Definition consensus_header (o : ConsensusOutput) : ConsensusHeader :=
  {| ch_parent_hash := parent_hash o; ch_sub_dag := co_sub_dag o; ch_number := number o;
     ch_extra := extra o |}.

Section output.
Context `{!Crypto, !OutputHashes}.

(** [CommittedSubDag::digest] *)
Definition sub_dag_digest (s : CommittedSubDag) : B256 :=
  hash_sub_dag (digest <$> sd_certificates s) (digest (sd_leader s)) (sd_commit_timestamp s).

(** [ConsensusHeader::digest_from_parts] *)
Definition digest_from_parts (parent_hash : B256) (s : CommittedSubDag) (number : Z) : B256 :=
  hash_consensus_header parent_hash (sub_dag_digest s) number.

(** [ConsensusHeader::digest] *)
Definition ch_digest (h : ConsensusHeader) : B256 :=
  digest_from_parts (ch_parent_hash h) (ch_sub_dag h) (ch_number h).

(** [consensus_header_hash], [ConsensusOutput::digest] and [epoch_close_seed] *)
Definition consensus_header_hash (o : ConsensusOutput) : B256 :=
  digest_from_parts (parent_hash o) (co_sub_dag o) (number o).
Definition epoch_close_seed (o : ConsensusOutput) : B256 := consensus_header_hash o.

(** [keccak_leader_sigs] *)
Definition keccak_leader_sigs (o : ConsensusOutput) : B256 :=
  keccak256_signature
    (default default_signature (aggregated_signature (sd_leader (co_sub_dag o)))).

End output.

Definition co_leader (o : ConsensusOutput) : Certificate := sd_leader (co_sub_dag o).

(** [nonce], [committed_at] *)
Definition co_nonce (o : ConsensusOutput) : Z := nonce (co_leader o).
Definition committed_at (o : ConsensusOutput) : TimestampSec := commit_timestamp (co_sub_dag o).

(** [flatten_batches] *)
Definition flatten_batches (o : ConsensusOutput) : list (nat * nat) :=
  concat (imap (fun cert_idx cb => (fun batch_idx => (cert_idx, batch_idx))
                                     <$> List.seq 0 (length (cb_batches cb))) (co_batches o)).

(** ** Blocks *)

(** The fields of a sealed [ExecHeader] that the processor and its restart read
    or that name the consensus data; [txs_empty] is
    [transaction_root_is_empty]. *)
Record SealedHeader := {
  h_hash : B256;
  h_parent_hash : B256;
  h_number : Z;
  h_nonce : Z;
  h_gas_used : Z;
  h_gas_limit : Z;
  h_base_fee_per_gas : option Z;
  h_beneficiary : Address;
  h_timestamp : Z;
  h_mix_hash : B256;
  h_difficulty : Z;
  h_parent_beacon_block_root : option B256;
  h_ommers_hash : B256;
  h_requests_hash : option B256;
  h_extra_data : option B256;
  txs_empty : bool
}.

Record RLPayload := {
  parent_header : SealedHeader;
  pl_beneficiary : Address;
  pl_nonce : Z;
  pl_batch_index : Z;
  pl_timestamp : Z;
  pl_batch_digest : B256;
  consensus_header_digest : B256;
  pl_base_fee_per_gas : Z;
  pl_gas_limit : Z;
  mix_hash : B256;
  pl_close_epoch : option B256;
  pl_worker_id : WorkerId
}.

(** [TxValidationCounts]: the counts that are only reported are left out. *)
Record TxValidationCounts := {
  nonce_too_high : Z;
  nonce_too_high_details : list (Address * TxHash)
}.

(** What executing the transactions of a payload gives: the gas, whether any
    transaction was included, the senders of the included ones, the counts of
    the dropped ones and the hash of the sealed block. *)
Record Execution := {
  ex_gas_used : Z;
  ex_txs_empty : bool;
  ex_senders : list Address;
  ex_counts : TxValidationCounts;
  ex_hash : B256
}.

Record ExecutedBlock := { eb_header : SealedHeader; eb_senders : list Address }.

(** The EVM environment: executing a payload on top of the local chain,
    announcing and finalizing a canonical head. *)
Class BlockExecutor (S E : Type) := {
  check_persistence_completion : S -> S;
  execute_block : S -> RLPayload -> list Bytes -> list ExecutedBlock -> S * Exec E Execution;
  commit_blocks : S -> list ExecutedBlock -> S;
  finalize_block : S -> SealedHeader -> S * Exec E unit
}.

(** The chain specification: when each fork activates, and the fee rule. *)
Record ChainSpec := {
  activation : RaylsHardFork -> ForkCondition;
  fee_policy : FeePolicy;
  calc_next_block_base_fee : Z -> Z -> Z -> Z * Z -> Z;
  EMPTY_OMMER_ROOT_HASH : B256;
  EMPTY_REQUESTS_HASH : B256
}.

Definition MIN_PROTOCOL_BASE_FEE : Z := 7.

Section header.
Context `{!ForkConditionApi} (spec : ChainSpec).

(** [resolve_batch_digest_fields] *)
Definition resolve_batch_digest_fields (block_number : Z) (d : B256) : B256 * option B256 :=
  if is_rayls_fork_active_at_block (activation spec) BatchDigestV2 block_number
  then (EMPTY_OMMER_ROOT_HASH spec, Some d)
  else (d, Some (EMPTY_REQUESTS_HASH spec)).

(** [batch_index << 16 | worker_id] *)
Definition pack_difficulty (index : Z) (worker : WorkerId) : Z :=
  Z.lor (Z.shiftl index 16) worker.

(** [first_batch] *)
Definition first_batch (difficulty : Z) : bool := difficulty <? 65536.

(** The header of the block built for a payload: [next_evm_env] and
    [context_for_next_block] fill the environment, [assemble_block] the
    header. *)
Definition assemble_block (p : RLPayload) (next_number : Z) (x : Execution) : SealedHeader :=
  let '(ommers_hash, requests_hash) := resolve_batch_digest_fields next_number (pl_batch_digest p) in
  {| h_hash := ex_hash x; h_parent_hash := h_hash (parent_header p); h_number := next_number; h_nonce := pl_nonce p;
     h_gas_used := ex_gas_used x; h_gas_limit := pl_gas_limit p;
     h_base_fee_per_gas := Some (pl_base_fee_per_gas p); h_beneficiary := pl_beneficiary p;
     h_timestamp := pl_timestamp p; h_mix_hash := mix_hash p;
     h_difficulty := pack_difficulty (pl_batch_index p) (pl_worker_id p);
     h_parent_beacon_block_root := Some (consensus_header_digest p);
     h_ommers_hash := ommers_hash; h_requests_hash := requests_hash;
     h_extra_data := pl_close_epoch p; txs_empty := ex_txs_empty x |}.

End header.

(** [PreparedBatch::build_payload] *)
Definition build_payload (p : PreparedBatch) (parent : SealedHeader) (close : option B256)
    (base_fee : Z) : RLPayload :=
  {| parent_header := parent; pl_beneficiary := beneficiary p; pl_nonce := output_nonce p;
     pl_batch_index := batch_index p; pl_timestamp := timestamp p;
     pl_batch_digest := batch_digest p; consensus_header_digest := output_digest p;
     pl_base_fee_per_gas := base_fee; pl_gas_limit := gas_limit p;
     mix_hash := Z.lxor (output_digest p) (batch_digest p); pl_close_epoch := close;
     pl_worker_id := worker_id p |}.

(** ** Gas accumulator *)

Record Accumulated := { acc_blocks : Z; acc_gas_used : Z; acc_base_fee : Z }.

Record GasAccumulator := {
  ga_inner : list Accumulated;
  leader_counts : gmap AuthorityIdentifier Z;
  rewards_committee : option Committee
}.

(** [RewardsBackend::get_authority_address] *)
Definition get_authority_address (g : GasAccumulator) (id : AuthorityIdentifier) :
    option Address :=
  c ← rewards_committee g; execution_address <$> committee_authority c id.

(** [inc_leader_count] *)
Definition inc_leader_count {E} (g : GasAccumulator) (leader : AuthorityIdentifier) :
    Exec E GasAccumulator :=
  count ← uadd u32_max (default 0 (leader_counts g !! leader)) 1;
  Ret {| ga_inner := ga_inner g; leader_counts := <[leader := count]> (leader_counts g);
         rewards_committee := rewards_committee g |}.

Definition set_ga_inner (g : GasAccumulator) (l : list Accumulated) : GasAccumulator :=
  {| ga_inner := l; leader_counts := leader_counts g; rewards_committee := rewards_committee g |}.

(** [GasAccumulator::inc_block] *)
Definition inc_block {E} (g : GasAccumulator) (worker : WorkerId) (gas_used : Z) :
    Exec E GasAccumulator :=
  if gas_used =? 0 then Ret g
  else
    acc ← expect (ga_inner g !! Z.to_nat worker);
    blocks ← uadd u64_max (acc_blocks acc) 1;
    gas ← uadd u64_max (acc_gas_used acc) gas_used;
    Ret (set_ga_inner g
           (<[Z.to_nat worker := {| acc_blocks := blocks; acc_gas_used := gas;
                                    acc_base_fee := acc_base_fee acc |}]> (ga_inner g))).

(** [GasAccumulator::clear] *)
Definition clear_gas (g : GasAccumulator) : GasAccumulator :=
  {| ga_inner := (fun acc => {| acc_blocks := 0; acc_gas_used := 0;
                                acc_base_fee := acc_base_fee acc |}) <$> ga_inner g;
     leader_counts := ∅; rewards_committee := rewards_committee g |}.

Section gas.
Context `{!ForkConditionApi} (spec : ChainSpec).

(** [chain_spec.compute_next_base_fee] at the block after [h]. *)
Definition next_base_fee (h : SealedHeader) (next_block : Z) : Z :=
  compute_next_base_fee (activation spec) MIN_PROTOCOL_BASE_FEE (calc_next_block_base_fee spec)
    (fee_policy spec) (h_gas_used h) (h_gas_limit h) (h_base_fee_per_gas h) next_block.

(** [resolve_base_fee] *)
Definition resolve_base_fee {E} (parent : SealedHeader) (batch_base_fee : Z) : Exec E Z :=
  next_block ← uadd u64_max (h_number parent) 1;
  Ret (if is_rayls_fork_active_at_block (activation spec) Eip1559 next_block
       then next_base_fee parent next_block else batch_base_fee).

(** [update_base_fee_after_block] *)
Definition update_base_fee_after_block {E} (g : GasAccumulator) (h : SealedHeader) :
    Exec E GasAccumulator :=
  next_block ← uadd u64_max (h_number h) 1;
  Ret (if is_rayls_fork_active_at_block (activation spec) Eip1559 next_block
       then set_ga_inner g ((fun acc => {| acc_blocks := acc_blocks acc;
                                           acc_gas_used := acc_gas_used acc;
                                           acc_base_fee := next_base_fee h next_block |})
                              <$> ga_inner g)
       else g).

End gas.

(** ** Collecting the batches of an output *)

Record OutputContext := { oc_digest : B256; oc_nonce : Z; oc_timestamp : Z; oc_epoch : Epoch }.

Record BatchContext := {
  bc_batches : list (nat * nat);
  arc_batches : list (Address * list Batch);
  bc_digests : list B256
}.

(** [arc_batches[cert_idx]], [arc_batches[cert_idx].1[batch_idx]] *)
Definition cert_batches {E} (arc : list (Address * list Batch)) (cert_idx : nat) :
    Exec E (Address * list Batch) := expect (arc !! cert_idx).
Definition batch_at {E} (arc : list (Address * list Batch)) (i : nat * nat) : Exec E Batch :=
  cb ← cert_batches arc i.1; expect (cb.2 !! i.2).

(** The positions each authority holds, in the order of the output. *)
Fixpoint group_positions {E} (arc : list (Address * list Batch)) (position : nat)
    (flattened : list (nat * nat)) (by_authority : gmap Address (list nat)) :
    Exec E (gmap Address (list nat)) :=
  match flattened with
  | [] => Ret by_authority
  | (cert_idx, _) :: rest =>
      cb ← cert_batches arc cert_idx;
      group_positions arc (S position) rest
        (<[cb.1 := default [] (by_authority !! cb.1) ++ [position]]> by_authority)
  end.

(** [f] on every element, in order. *)
Fixpoint exec_map {E A B} (f : A -> Exec E B) (l : list A) : Exec E (list B) :=
  match l with
  | [] => Ret []
  | x :: l => y ← f x; ys ← exec_map f l; Ret (y :: ys)
  end.

(** One authority's positions, rewritten in ascending order of the sequence
    numbers. *)
Definition normalize_positions {E} (arc : list (Address * list Batch)) (positions : list nat)
    (fd : list (nat * nat) * list B256) : Exec E (list (nat * nat) * list B256) :=
  let '(flattened, digests) := fd in
  if (length positions <? 2)%nat then Ret fd
  else
    entries ← exec_map (fun p => i ← expect (flattened !! p); d ← expect (digests !! p);
                                 b ← batch_at arc i; Ret (seq b, (i, d))) positions;
    let sorted := stable_sort (fun x y => x.1 <=? y.1) entries in
    Ret (foldl (fun fd pe => (<[pe.1 := pe.2.2.1]> fd.1, <[pe.1 := pe.2.2.2]> fd.2))
           (flattened, digests) (zip positions sorted)).

Fixpoint normalize_all {E} (arc : list (Address * list Batch)) (groups : list (list nat))
    (fd : list (nat * nat) * list B256) : Exec E (list (nat * nat) * list B256) :=
  match groups with
  | [] => Ret fd
  | positions :: groups => fd ← normalize_positions arc positions fd; normalize_all arc groups fd
  end.

(** [normalize_authority_seq_order] *)
Definition normalize_authority_seq_order {E} (flattened : list (nat * nat)) (digests : list B256)
    (arc : list (Address * list Batch)) : Exec E (list (nat * nat) * list B256) :=
  by_authority ← group_positions arc 0 flattened ∅;
  normalize_all arc (btree_values by_authority) (flattened, digests).

(** The ordering and the registry, with the batches collected so far. *)
Definition Collecting : Type := BatchOrdering * ExecutedBatchRegistry * list PreparedBatch.

(** The [PreparedBatch] built for one batch of the output. *)
Definition prepare (batch : Batch) (d : B256) (bene : Address) (ctx : OutputContext)
    (batch_index gas_limit : Z) : PreparedBatch :=
  {| pb_batch := batch; batch_digest := d; beneficiary := bene; output_digest := oc_digest ctx;
     output_nonce := oc_nonce ctx; timestamp := oc_timestamp ctx; pb_epoch := oc_epoch ctx;
     worker_id := b_worker_id batch; batch_index := batch_index; drained := false;
     gas_limit := gas_limit |}.

(** The body of the loop of [collect_executable_batches]. *)
Definition collect_batch {E} (bc : BatchContext) (ctx : OutputContext)
    (batch_digest_v2 seq_normalization : bool) (gas_limit : Z) (index : nat)
    (i : nat * nat) (st : Collecting) : Exec E Collecting :=
  let '(ordering, registry, executable) := st in
  d ← expect (bc_digests bc !! index);
  if contains registry d then Ret st
  else
    cb ← cert_batches (arc_batches bc) i.1;
    batch ← expect (cb.2 !! i.2);
    let bene := cb.1 in
    let prepared := prepare batch d bene ctx (Z.of_nat index) gas_limit in
    if batch_digest_v2 then
      accepted ← try_accept ordering bene (seq batch) prepared seq_normalization;
      match accepted with
      | (ordering, Parked) => Ret (ordering, registry, executable)
      | (ordering, InOrder p) | (ordering, OverflowForced p) =>
          let '(registry, fresh) := try_register registry d in
          if negb fresh then Ret (ordering, registry, executable)
          else
            drained ← drain_consecutive ordering bene (executable ++ [p]) registry true;
            let '(ordering, executable, registry) := drained in
            Ret (ordering, registry, executable)
      end
    else
      let '(registry, fresh) := try_register registry d in
      if negb fresh then Ret (ordering, registry, executable)
      else
        accepted ← try_accept ordering bene (seq batch) prepared seq_normalization;
        match accepted with
        | (ordering, Parked) => Ret (ordering, registry, executable)
        | (ordering, InOrder p) | (ordering, OverflowForced p) =>
            drained ← drain_consecutive ordering bene (executable ++ [p]) registry false;
            let '(ordering, executable, registry) := drained in
            Ret (ordering, registry, executable)
        end.

Fixpoint collect_loop {E} (bc : BatchContext) (ctx : OutputContext)
    (batch_digest_v2 seq_normalization : bool) (gas_limit : Z) (index : nat)
    (batches : list (nat * nat)) (st : Collecting) : Exec E Collecting :=
  match batches with
  | [] => Ret st
  | i :: batches =>
      st ← collect_batch bc ctx batch_digest_v2 seq_normalization gas_limit index i st;
      collect_loop bc ctx batch_digest_v2 seq_normalization gas_limit (S index) batches st
  end.

(** [collect_executable_batches] *)
Definition collect_executable_batches {E} (bc : BatchContext) (ctx : OutputContext)
    (batch_digest_v2 seq_normalization : bool) (gas_limit : Z)
    (ordering : BatchOrdering) (registry : ExecutedBatchRegistry) : Exec E Collecting :=
  collect_loop bc ctx batch_digest_v2 seq_normalization gas_limit 0 (bc_batches bc)
    (ordering, registry, []).

(** ** The processor *)

Inductive RLEngineError (E : Type) :=
  | Reth (e : E)
  | ChannelClosed
  | EmptyQueue
  | ConsensusOutputStreamClosed
  | UnknownAuthority (id : AuthorityIdentifier)
  | ExecutionPanic
  | ConsensusFork (epoch : Epoch) (round : Round).
Arguments Reth {E} e.
Arguments ChannelClosed {E}.
Arguments EmptyQueue {E}.
Arguments ConsensusOutputStreamClosed {E}.
Arguments UnknownAuthority {E} id.
Arguments ExecutionPanic {E}.
Arguments ConsensusFork {E} epoch round.

Record Processor (S : Type) := {
  reth_env : S;
  gas_accumulator : GasAccumulator;
  executed_batch_registry : ExecutedBatchRegistry;
  batch_ordering : BatchOrdering;
  in_flight_tracker : InFlightTracker
}.
Arguments reth_env {S}.
Arguments gas_accumulator {S}.
Arguments executed_batch_registry {S}.
Arguments batch_ordering {S}.
Arguments in_flight_tracker {S}.

Section processor.
Context `{!Crypto, !OutputHashes, !ForkConditionApi}.
Context {S Er : Type} `{!BlockExecutor S Er}.
(** The chain specification, the block gas limit and the clock: the instant at
    which a block was settled. *)
Context (spec : ChainSpec) (block_gas_limit : Z) (clock : SealedHeader -> Instant).

Abbreviation P := (Processor S).
Abbreviation M := (ST P (RLEngineError Er)).

Definition set_reth (p : P) (s : S) : P :=
  {| reth_env := s; gas_accumulator := gas_accumulator p;
     executed_batch_registry := executed_batch_registry p; batch_ordering := batch_ordering p;
     in_flight_tracker := in_flight_tracker p |}.
Definition set_gas (p : P) (g : GasAccumulator) : P :=
  {| reth_env := reth_env p; gas_accumulator := g;
     executed_batch_registry := executed_batch_registry p; batch_ordering := batch_ordering p;
     in_flight_tracker := in_flight_tracker p |}.
Definition set_registry (p : P) (r : ExecutedBatchRegistry) : P :=
  {| reth_env := reth_env p; gas_accumulator := gas_accumulator p;
     executed_batch_registry := r; batch_ordering := batch_ordering p;
     in_flight_tracker := in_flight_tracker p |}.
Definition set_ordering (p : P) (o : BatchOrdering) : P :=
  {| reth_env := reth_env p; gas_accumulator := gas_accumulator p;
     executed_batch_registry := executed_batch_registry p; batch_ordering := o;
     in_flight_tracker := in_flight_tracker p |}.
Definition set_tracker (p : P) (t : InFlightTracker) : P :=
  {| reth_env := reth_env p; gas_accumulator := gas_accumulator p;
     executed_batch_registry := executed_batch_registry p; batch_ordering := batch_ordering p;
     in_flight_tracker := t |}.

(** A call that does not touch the processor's state. *)
Definition lift {A} (m : Exec (RLEngineError Er) A) : M A := fun p => (p, m).

(** A call of the EVM environment; its errors become [Reth]. *)
Definition call_reth {A} (f : S -> S * Exec Er A) : M A := fun p =>
  let '(s, r) := f (reth_env p) in (set_reth p s, map_err Reth r).

(** [is_*_active(parent)]: the fork's activation at the block after [parent]. *)
Definition active_after (f : RaylsHardFork) (parent : SealedHeader) : M bool :=
  next ← lift (uadd u64_max (h_number parent) 1);
  mret (is_rayls_fork_active_at_block (activation spec) f next).

Record UnsettledExecution := {
  ue_header : SealedHeader;
  validation_counts : TxValidationCounts;
  executed_senders : list Address
}.

(** [settle] *)
Definition settle (u : UnsettledExecution) (tracked : bool) :
    M (SealedHeader * TxValidationCounts) :=
  _ ← (if tracked then
         modify (fun p => set_tracker p
           (settle_marks (in_flight_tracker p) (executed_senders u)
              (nonce_too_high_details (validation_counts u)) (clock (ue_header u))))
       else mret tt);
  mret (ue_header u, validation_counts u).

(** [execute_payload]; [build_block_from_batch_payload] is the executor's run
    followed by the assembly of the header. *)
Definition execute_payload (payload : RLPayload) (txs : list Bytes)
    (executed_blocks : list ExecutedBlock) : M (UnsettledExecution * list ExecutedBlock) :=
  next ← lift (uadd u64_max (h_number (parent_header payload)) 1);
  x ← call_reth (fun s => execute_block s payload txs executed_blocks);
  let h := assemble_block spec payload next x in
  mret ({| ue_header := h; validation_counts := ex_counts x; executed_senders := ex_senders x |},
        executed_blocks ++ [{| eb_header := h; eb_senders := ex_senders x |}]).

(** [execute_prepared_batch] *)
Definition execute_prepared_batch (prepared : PreparedBatch) (canonical_header : SealedHeader)
    (close : option B256) (executed_blocks : list ExecutedBlock) :
    M (SealedHeader * TxValidationCounts * list ExecutedBlock) :=
  base_fee ← lift (resolve_base_fee spec canonical_header (base_fee_per_gas (pb_batch prepared)));
  let payload := build_payload prepared canonical_header close base_fee in
  ub ← execute_payload payload (transactions (pb_batch prepared)) executed_blocks;
  hc ← settle ub.1 true;
  gas ← gets gas_accumulator;
  gas ← lift (inc_block gas (worker_id prepared) (h_gas_used hc.1));
  gas ← lift (update_base_fee_after_block spec gas hc.1);
  _ ← modify (fun p => set_gas p gas);
  mret (hc.1, hc.2, ub.2).

(** [execute_empty_block] *)
Definition execute_empty_block (canonical_header : SealedHeader) (output : ConsensusOutput)
    (out_digest : B256) (executed_blocks : list ExecutedBlock) (close : option B256) :
    M (SealedHeader * list ExecutedBlock) :=
  base_fee ← lift (resolve_base_fee spec canonical_header MIN_PROTOCOL_BASE_FEE);
  gas ← gets gas_accumulator;
  bene ← st_ok_or (get_authority_address gas (origin (co_leader output)))
           (UnknownAuthority (origin (co_leader output)));
  let payload := {| parent_header := canonical_header; pl_beneficiary := bene;
                    pl_nonce := co_nonce output; pl_batch_index := 0;
                    pl_timestamp := committed_at output; pl_batch_digest := 0;
                    consensus_header_digest := out_digest; pl_base_fee_per_gas := base_fee;
                    pl_gas_limit := h_gas_limit canonical_header; mix_hash := out_digest;
                    pl_close_epoch := close; pl_worker_id := 0 |} in
  ub ← execute_payload payload [] executed_blocks;
  hc ← settle ub.1 false;
  mret (hc.1, ub.2).

(** The loop of [drain_and_execute_epoch_parked] before
    [OutputSeqNormalization]. *)
Fixpoint execute_parked (batch_digest_v2 : bool) (parked : list PreparedBatch)
    (canonical_header : SealedHeader) (executed_blocks : list ExecutedBlock) :
    M (SealedHeader * list ExecutedBlock) :=
  match parked with
  | [] => mret (canonical_header, executed_blocks)
  | p :: parked =>
      fresh ← (if batch_digest_v2 then
                 registry ← gets executed_batch_registry;
                 let '(registry, fresh) := try_register registry (batch_digest p) in
                 _ ← modify (fun st => set_registry st registry); mret fresh
               else mret true);
      if negb fresh then execute_parked batch_digest_v2 parked canonical_header executed_blocks
      else
        r ← execute_prepared_batch p canonical_header None executed_blocks;
        execute_parked batch_digest_v2 parked r.1.1 r.2
  end.

(** [drain_and_execute_epoch_parked] *)
Definition drain_and_execute_epoch_parked (e : Epoch) (canonical_header : SealedHeader)
    (executed_blocks : list ExecutedBlock) (batch_digest_v2 : bool) :
    M (SealedHeader * list ExecutedBlock) :=
  ordering ← gets batch_ordering;
  let '(ordering, epoch_parked) := drain_epoch ordering e in
  _ ← modify (fun p => set_ordering p ordering);
  discard ← active_after OutputSeqNormalization canonical_header;
  if discard : bool then
    _ ← modify (fun p => set_ordering p (persist (batch_ordering p)));
    mret (canonical_header, executed_blocks)
  else execute_parked batch_digest_v2 epoch_parked canonical_header executed_blocks.

(** The loop over the collected batches: [i] is the index of the first, and
    the batch at [close_at] carries [close]. *)
Fixpoint execute_collected (batch_digest_v2 : bool) (close_at : option nat)
    (close : option B256) (i : nat) (collected : list PreparedBatch)
    (canonical_header : SealedHeader) (executed_blocks : list ExecutedBlock) :
    M (SealedHeader * list ExecutedBlock) :=
  match collected with
  | [] => mret (canonical_header, executed_blocks)
  | p :: collected =>
      let close_epoch := if bool_decide (Some i = close_at) then close else None in
      r ← execute_prepared_batch p canonical_header close_epoch executed_blocks;
      let '(h, counts, executed_blocks) := r in
      _ ← (if batch_digest_v2
              && (Z.of_nat (length (transactions (pb_batch p))) =? nonce_too_high counts) then
             modify (fun st => set_registry st
                       (drop_digest (executed_batch_registry st) (batch_digest p)).1)
           else mret tt);
      execute_collected batch_digest_v2 close_at close (Datatypes.S i) collected h executed_blocks
  end.

(** The index of the collected batch that holds the last position of the
    output. *)
Definition last_current_output_idx (num_output_batches : nat) (collected : list PreparedBatch) :
    option nat :=
  match num_output_batches with
  | O => None
  | Datatypes.S pos =>
      fst <$> list_find (fun b => drained b = false /\ batch_index b = Z.of_nat pos) collected
  end.

(** The first half of [execute_consensus_output]: the previous epoch's parked
    batches, then the executable batches of this output. The result is the
    canonical header, the blocks so far, the collected batches and whether
    [BatchDigestV2] is active. *)
Definition collect_output (output : ConsensusOutput) (parent : SealedHeader) :
    M (SealedHeader * list ExecutedBlock * list PreparedBatch * bool) :=
  _ ← modify (fun p => set_reth p (check_persistence_completion (reth_env p)));
  gas ← gets gas_accumulator;
  gas ← lift (inc_leader_count gas (origin (co_leader output)));
  _ ← modify (fun p => set_gas p gas);
  let batches := flatten_batches output in
  let e := cert_epoch (co_leader output) in
  batch_digest_v2 ← active_after BatchDigestV2 parent;
  seq_normalization ← active_after OutputSeqNormalization parent;
  drained ← drain_and_execute_epoch_parked e parent [] batch_digest_v2;
  let '(canonical_header, executed_blocks) := drained in
  _ ← lift (rassert (length batches =? length (batch_digests output))%nat);
  let output_ctx := {| oc_digest := consensus_header_hash output; oc_nonce := co_nonce output;
                       oc_timestamp := committed_at output; oc_epoch := e |} in
  let arc := (fun cb => (cb_address cb, cb_batches cb)) <$> co_batches output in
  fd ← (if seq_normalization : bool then
          lift (normalize_authority_seq_order batches (batch_digests output) arc)
        else mret (batches, batch_digests output));
  let batch_ctx := {| bc_batches := fd.1; arc_batches := arc; bc_digests := fd.2 |} in
  ordering ← gets batch_ordering;
  registry ← gets executed_batch_registry;
  st ← lift (collect_executable_batches batch_ctx output_ctx batch_digest_v2 seq_normalization
               block_gas_limit ordering registry);
  let '(ordering, registry, collected) := st in
  _ ← modify (fun p => set_registry (set_ordering p ordering) registry);
  mret (canonical_header, executed_blocks, collected, batch_digest_v2).

(** [execute_consensus_output] up to the blocks it commits: the canonical
    header, the blocks, and whether [EmptyOutputBlock] was active. *)
Definition build_output (output : ConsensusOutput) (parent : SealedHeader) :
    M (SealedHeader * list ExecutedBlock * bool) :=
  c ← collect_output output parent;
  let '(canonical_header, executed_blocks, collected, batch_digest_v2) := c in
  let blocks_before_output := length executed_blocks in
  let num_output_batches := length (flatten_batches output) in
  seed_v2 ← (if close_epoch output then active_after EpochCloseSeedV2 canonical_header
             else mret false);
  let close := if close_epoch output
               then Some (if seed_v2 : bool then epoch_close_seed output
                          else keccak_leader_sigs output)
               else None in
  let close_at := last_current_output_idx num_output_batches collected in
  r ← execute_collected batch_digest_v2 close_at close 0 collected canonical_header executed_blocks;
  let '(canonical_header, executed_blocks) := r in
  let output_produced_block := (blocks_before_output <? length executed_blocks)%nat in
  let close_unconsumed := close_epoch output && bool_decide (close_at = None) in
  empty_output_block_active ← active_after EmptyOutputBlock canonical_header;
  let output_had_batches := (0 <? num_output_batches)%nat in
  let produce_empty :=
    if empty_output_block_active : bool then negb output_produced_block || close_unconsumed
    else match collected with
         | [] => negb output_had_batches
                 || (close_epoch output
                     && (batch_digest_v2 || (length executed_blocks =? 0)%nat))
         | _ => close_unconsumed && batch_digest_v2
         end in
  r ← (if produce_empty then
         execute_empty_block canonical_header output (consensus_header_hash output)
           executed_blocks close
       else mret (canonical_header, executed_blocks));
  mret (r.1, r.2, empty_output_block_active).

(** [finish_executing_output] *)
Definition finish_executing_output (blocks : list ExecutedBlock) : M unit :=
  _ ← lift (expect (last blocks));
  modify (fun p => set_reth p (commit_blocks (reth_env p) blocks)).

Definition persist_ordering : M unit :=
  modify (fun p => set_ordering p (persist (batch_ordering p))).

(** [execute_consensus_output], with the blocks it committed. *)
Definition execute_output (output : ConsensusOutput) (parent : SealedHeader) :
    M (SealedHeader * list ExecutedBlock) :=
  r ← build_output output parent;
  let '(canonical_header, executed_blocks, empty_output_block_active) := r in
  if negb empty_output_block_active && (length executed_blocks =? 0)%nat then
    _ ← persist_ordering; mret (canonical_header, executed_blocks)
  else
    _ ← finish_executing_output executed_blocks;
    _ ← call_reth (fun s => finalize_block s canonical_header);
    _ ← persist_ordering;
    mret (canonical_header, executed_blocks).

Definition execute_consensus_output (output : ConsensusOutput) (parent : SealedHeader) :
    M SealedHeader :=
  r ← execute_output output parent; mret r.1.

End processor.
