(* ===== verification/EngineProps.v ===== *)
(** * Correctness of the processor

    The normalization of an output's batches, the collection of the executable
    ones, and the blocks an output is executed as ([Engine.v]). *)
From S2P Require Import Prelude Lists State Types Committee LeaderSchedule ConsensusState.
From S2P Require Import Hardforks BatchOrdering BatchOrderingProps InFlight Engine.
#[local] Open Scope Z_scope.

(** ** Normalization *)

Section normalize.
Context {E : Type} (arc : list (Address * list Batch)).

(** A batch of the output: where it is and its digest. *)
Abbreviation Entry := ((nat * nat) * B256)%type.

Definition entry_authority (e : Entry) : option Address := fst <$> arc !! e.1.1.
Definition entry_batch (e : Entry) : option Batch := cb ← arc !! e.1.1; cb.2 !! e.1.2.
Definition entry_seq (e : Entry) : Z := default 0 (seq <$> entry_batch e).
Definition entry_le (x y : Entry) : bool := entry_seq x <=? entry_seq y.

(** The entries of authority [a]. *)
Definition held_by (a : Address) (e : Entry) : Prop := entry_authority e = Some a.
#[export] Instance held_by_dec a e : Decision (held_by a e).
Proof. unfold held_by. apply _. Defined.

Definition valid_entry (e : Entry) : Prop := is_Some (entry_batch e).

Lemma valid_entry_authority e : valid_entry e -> is_Some (entry_authority e).
Proof.
  unfold valid_entry, entry_batch, entry_authority. destruct (arc !! e.1.1); simpl; [by eauto|].
  by intros [].
Qed.

Lemma batch_at_entry e :
  valid_entry e -> exists b, batch_at (E := E) arc e.1 = Ret b /\ seq b = entry_seq e.
Proof.
  unfold valid_entry, entry_seq, entry_batch, batch_at, cert_batches.
  destruct (arc !! e.1.1) as [cb|]; simpl; [|by intros []].
  destruct (cb.2 !! e.1.2) as [b|]; simpl; [|by intros []]. by exists b.
Qed.

(** The positions a group holds depend only on who holds each position. *)
Lemma positions_by_authority a k (z z' : list Entry) :
  entry_authority <$> z = entry_authority <$> z' ->
  positions_from (held_by a) k z = positions_from (held_by a) k z'.
Proof.
  revert k z'. induction z as [|e z IH]; intros k [|e' z'] Hz; [done..|].
  csimpl in Hz. injection Hz as He Hz. simpl. rewrite (IH _ z' Hz).
  repeat case_decide; unfold held_by in *; [done|congruence..|done].
Qed.

Lemma filter_nil_positions a k z :
  positions_from (held_by a) k z = [] <-> filter (held_by a) z = [].
Proof.
  rewrite <-!length_zero_iff_nil. by rewrite length_positions_from.
Qed.

(** [group_positions] computes the positions of every authority. *)
Lemma group_positions_spec k (z : list Entry) m :
  Forall valid_entry z ->
  exists m', group_positions (E := E) arc k z.*1 m = Ret m' /\
    forall a, m' !! a = match positions_from (held_by a) k z with
                        | [] => m !! a
                        | ps => Some (default [] (m !! a) ++ ps)
                        end.
Proof.
  revert k m. induction z as [|e z IH]; intros k m Hz; simpl; [by exists m|].
  inversion Hz as [|? ? He Hz']; subst. destruct e as [[ci bi] d]. csimpl.
  destruct (valid_entry_authority _ He) as [a Ha]. unfold entry_authority in Ha. simpl in Ha.
  unfold cert_batches at 1. destruct (arc !! ci) as [[a' bs]|] eqn:Ec; simplify_eq/=.
  destruct (IH (S k) (<[a := default [] (m !! a) ++ [k]]> m) Hz') as (m' & Hm' & Hl).
  exists m'. split; [done|]. intros b. rewrite Hl. simpl.
  case_decide as Hab; unfold held_by, entry_authority in Hab; simpl in Hab; rewrite Ec in Hab;
    simpl in Hab; simplify_eq.
  - rewrite lookup_insert_eq. simpl. destruct (positions_from (held_by b) (S k) z); [done|].
    by rewrite <-app_assoc.
  - rewrite lookup_insert_ne by congruence. done.
Qed.

Lemma exec_map_entries (z : list Entry) ps es :
  mapM (z !!.) ps = Some es -> Forall valid_entry es ->
  exec_map (E := E) (fun p => i ← expect (z.*1 !! p); d ← expect (z.*2 !! p);
                              b ← batch_at arc i; Ret (seq b, (i, d))) ps =
  Ret ((fun e => (entry_seq e, e)) <$> es).
Proof.
  revert es. induction ps as [|p ps IH]; intros es; simpl; [by intros [= <-]|].
  intros (e & Hp & (es' & Hps & [= <-])%bind_Some)%bind_Some Hv. inversion Hv; subst.
  rewrite !list_lookup_fmap, Hp. simpl.
  destruct (batch_at_entry e) as (b & Hb & Hs); [done|]. rewrite Hb. simpl.
  rewrite (IH es') by done. simpl. rewrite Hs. simpl. by destruct e.
Qed.

Lemma stable_sort_fmap {A B} (f : A -> B) (le : A -> A -> bool) (le' : B -> B -> bool) l :
  (forall x y, le' (f x) (f y) = le x y) ->
  stable_sort le' (f <$> l) = f <$> stable_sort le l.
Proof.
  intros Hle. assert (Hins : forall x l, insert_sorted le' (f x) (f <$> l) = f <$> insert_sorted le x l).
  { intros x l'. induction l' as [|y l' IH]; csimpl; [done|]. rewrite Hle.
    destruct (le x y); csimpl; [done|]. by rewrite IH. }
  induction l as [|x l IH]; csimpl; [done|]. fold (stable_sort le' (f <$> l)). by rewrite IH, Hins.
Qed.

Lemma zip_keyed (ps : list nat) (es : list Entry) :
  (fun pe => (pe.1, pe.2.2)) <$> zip ps ((fun e => (entry_seq e, e)) <$> es) = zip ps es.
Proof.
  revert es. induction ps as [|p ps IH]; intros [|e es]; csimpl; [done..|]. by rewrite IH.
Qed.

(** Writing entries to both lists is writing them to the zipped list. *)
Lemma write_both (z : list Entry) (pes : list (nat * (Z * Entry))) :
  foldl (fun fd pe => (<[pe.1 := pe.2.2.1]> fd.1, <[pe.1 := pe.2.2.2]> fd.2)) (z.*1, z.*2) pes =
  let z' := foldl (fun acc pe => <[pe.1 := pe.2]> acc) z ((fun pe => (pe.1, pe.2.2)) <$> pes) in
  (z'.*1, z'.*2).
Proof.
  revert z. induction pes as [|[p [s e]] pes IH]; intros z; csimpl; [done|].
  rewrite <-!list_fmap_insert. by rewrite IH.
Qed.

(** One authority's positions are refilled with its entries in ascending order
    of their sequence numbers. *)
Lemma normalize_positions_spec a (z : list Entry) :
  Forall valid_entry z ->
  let z' := refill (held_by a) z (stable_sort entry_le (filter (held_by a) z)) in
  normalize_positions (E := E) arc (positions_from (held_by a) 0 z) (z.*1, z.*2) =
  Ret (z'.*1, z'.*2).
Proof.
  intros Hz z'. unfold normalize_positions.
  destruct (Nat.ltb_spec (length (positions_from (held_by a) 0 z)) 2) as [Hlt|Hge].
  - rewrite length_positions_from in Hlt. do 2 f_equal; unfold z'.
    all: replace (stable_sort entry_le (filter (held_by a) z)) with (filter (held_by a) z)
      by (destruct (filter (held_by a) z) as [|? [|? ?]]; simpl in *; try done; lia).
    all: by rewrite refill_filter.
  - assert (Hv : Forall valid_entry (filter (held_by a) z)).
    { rewrite Forall_forall in *. intros e [_ He]%list_elem_of_filter. auto. }
    rewrite (exec_map_entries z _ (filter (held_by a) z)) by (try done; apply lookup_positions).
    cbn [mbind exec_bind].
    rewrite (stable_sort_fmap (fun e => (entry_seq e, e)) entry_le) by done.
    rewrite write_both, zip_keyed. unfold z'.
    by rewrite <-(write_positions (held_by a)) by (by rewrite length_stable_sort).
Qed.

(** The entries with the positions of the authorities in [as_] normalized. *)
Definition normalize_entries (auths : list Address) (z : list Entry) : list Entry :=
  foldl (fun z a => refill (held_by a) z (stable_sort entry_le (filter (held_by a) z))) z auths.

Lemma sorted_group_held a z :
  Forall (held_by a) (stable_sort entry_le (filter (held_by a) z)).
Proof.
  rewrite Forall_forall. intros e. rewrite elem_of_stable_sort, list_elem_of_filter. tauto.
Qed.

Lemma refill_group_authority a z :
  entry_authority <$> refill (held_by a) z (stable_sort entry_le (filter (held_by a) z)) =
  entry_authority <$> z.
Proof. apply (fmap_refill _ _ (Some a)); [done|]. apply sorted_group_held. Qed.

Lemma refill_group_valid a z :
  Forall valid_entry z ->
  Forall valid_entry (refill (held_by a) z (stable_sort entry_le (filter (held_by a) z))).
Proof.
  intros Hz. apply Forall_refill; [done|]. rewrite stable_sort_perm.
  rewrite Forall_forall in *. intros e [_ He]%list_elem_of_filter. auto.
Qed.

Lemma normalize_entries_authority auths z :
  entry_authority <$> normalize_entries auths z = entry_authority <$> z.
Proof.
  revert z. induction auths as [|a auths IH]; intros z; simpl; [done|].
  unfold normalize_entries in *. simpl. rewrite IH. apply refill_group_authority.
Qed.

Lemma normalize_entries_perm auths z : normalize_entries auths z ≡ₚ z.
Proof.
  unfold normalize_entries. revert z. induction auths as [|a auths IH]; intros z; simpl; [done|].
  rewrite IH. apply refill_perm, stable_sort_perm.
Qed.

Lemma normalize_entries_filter auths z a :
  NoDup auths ->
  filter (held_by a) (normalize_entries auths z) =
  if decide (a ∈ auths) then stable_sort entry_le (filter (held_by a) z)
  else filter (held_by a) z.
Proof.
  revert z. unfold normalize_entries.
  induction auths as [|b auths IH]; intros z Hnd; simpl; [done|].
  inversion Hnd as [|? ? Hb Hnd']; subst. rewrite IH by done.
  destruct (decide (a = b)) as [->|Hab].
  - rewrite decide_False, decide_True by (done || by left).
    rewrite filter_refill; [done|by rewrite length_stable_sort|apply sorted_group_held].
  - rewrite filter_refill_other.
    + destruct (decide (a ∈ auths)); [by rewrite decide_True by (by right)|].
      rewrite decide_False; [done|]. intros [|]%elem_of_cons; done.
    + eapply Forall_impl; [apply sorted_group_held|]. unfold held_by. simpl. congruence.
    + unfold held_by. congruence.
Qed.

Lemma normalize_all_spec auths z0 z :
  Forall valid_entry z -> entry_authority <$> z = entry_authority <$> z0 ->
  normalize_all (E := E) arc ((fun a => positions_from (held_by a) 0 z0) <$> auths) (z.*1, z.*2) =
  Ret ((normalize_entries auths z).*1, (normalize_entries auths z).*2).
Proof.
  revert z. induction auths as [|a auths IH]; intros z Hz Ha; [done|].
  cbn [fmap list_fmap normalize_all].
  rewrite <-(positions_by_authority a 0 z z0 Ha), normalize_positions_spec by done.
  cbn [mbind exec_bind]. rewrite IH; [done|by apply refill_group_valid|].
  by rewrite refill_group_authority.
Qed.

(** [normalize_authority_seq_order] on the entries of an output. *)
Lemma normalize_spec flattened digests :
  length flattened = length digests -> Forall valid_entry (zip flattened digests) ->
  exists f' d', normalize_authority_seq_order (E := E) flattened digests arc = Ret (f', d') /\
    length f' = length d' /\ zip f' d' ≡ₚ zip flattened digests /\
    entry_authority <$> zip f' d' = entry_authority <$> zip flattened digests /\
    forall a, filter (held_by a) (zip f' d') =
              stable_sort entry_le (filter (held_by a) (zip flattened digests)).
Proof.
  intros Hlen Hz. set (z := zip flattened digests) in *.
  assert (Hf : z.*1 = flattened) by (apply fst_zip; lia).
  assert (Hd : z.*2 = digests) by (apply snd_zip; lia).
  unfold normalize_authority_seq_order. rewrite <-Hf, <-Hd.
  destruct (group_positions_spec 0 z ∅ Hz) as (m & -> & Hm). cbn [mbind exec_bind].
  assert (Hvals : btree_values m = (fun a => positions_from (held_by a) 0 z) <$> btree_keys m).
  { unfold btree_values, btree_keys. rewrite <-list_fmap_compose.
    apply list_fmap_ext. intros i [a ps] Hi. simpl.
    apply list_elem_of_lookup_2, elem_of_btree_list in Hi. rewrite Hm, lookup_empty in Hi. simpl in Hi.
    by destruct (positions_from (held_by a) 0 z); simplify_eq. }
  rewrite Hvals, normalize_all_spec by done.
  eexists _, _. split; [done|]. rewrite !length_fmap. split; [done|].
  rewrite zip_fst_snd. split; [apply normalize_entries_perm|].
  split; [apply normalize_entries_authority|].
  intros a. rewrite normalize_entries_filter by apply NoDup_btree_keys.
  case_decide as Ha; [done|]. rewrite elem_of_btree_keys, Hm, lookup_empty in Ha. simpl in Ha.
  destruct (positions_from (held_by a) 0 z) eqn:Ep; [|exfalso; apply Ha; by eexists].
  apply filter_nil_positions in Ep. by rewrite Ep.
Qed.
End normalize.

(** [output.batches] as the processor keeps them. *)
Definition arc_of (output : ConsensusOutput) : list (Address * list Batch) :=
  (fun cb => (cb_address cb, cb_batches cb)) <$> co_batches output.

Lemma elem_of_flatten_batches output i :
  i ∈ flatten_batches output ->
  exists cb, co_batches output !! i.1 = Some cb /\ (i.2 < length (cb_batches cb))%nat.
Proof.
  unfold flatten_batches. rewrite list_elem_of_In, in_concat. intros (l & Hl & Hi).
  apply list_elem_of_In in Hl, Hi.
  apply elem_of_lookup_imap in Hl as (k & cb & -> & Hk).
  apply list_elem_of_fmap in Hi as (j & -> & Hj). apply elem_of_seq in Hj.
  exists cb. simpl. split; [done|lia].
Qed.

Lemma flatten_batches_valid output ds :
  Forall (valid_entry (arc_of output)) (zip (flatten_batches output) ds).
Proof.
  rewrite Forall_forall. intros [i d] Hi. apply elem_of_zip_l in Hi.
  apply elem_of_flatten_batches in Hi as (cb & Hcb & Hlt).
  unfold valid_entry, entry_batch, arc_of. simpl. rewrite list_lookup_fmap, Hcb. simpl.
  by apply lookup_lt_is_Some_2.
Qed.

(** Normalizing an output rearranges its batches: the result is a
    permutation of the output's batches with their digests, every position
    stays with the authority that held it, each authority's batches end up in
    ascending order of their sequence numbers, and batches of one authority
    with equal sequence numbers keep their order. It never panics. *)
Theorem normalize_authority_seq_order_correct {E} output :
  let arc := arc_of output in
  let z := zip (flatten_batches output) (batch_digests output) in
  length (flatten_batches output) = length (batch_digests output) ->
  exists f' d', normalize_authority_seq_order (E := E) (flatten_batches output)
                  (batch_digests output) arc = Ret (f', d') /\
    length f' = length d' /\
    zip f' d' ≡ₚ z /\
    entry_authority arc <$> zip f' d' = entry_authority arc <$> z /\
    (forall a, StronglySorted (fun x y => entry_seq arc x <= entry_seq arc y)
                 (filter (held_by arc a) (zip f' d'))) /\
    (forall a s, filter (fun e => entry_seq arc e = s) (filter (held_by arc a) (zip f' d')) =
                 filter (fun e => entry_seq arc e = s) (filter (held_by arc a) z)).
Proof.
  intros arc z Hlen.
  destruct (normalize_spec (E := E) arc _ _ Hlen (flatten_batches_valid output _))
    as (f' & d' & Hn & Hl & Hp & Ha & Hf).
  exists f', d'. split_and!; [done|done|done|done| |]; intros a; rewrite Hf.
  - eapply StronglySorted_weaken; [|apply stable_sort_sorted]; unfold entry_le.
    + intros x y. apply Z.leb_le.
    + intros x y. rewrite !Z.leb_le. lia.
    + intros x y w. rewrite !Z.leb_le. lia.
  - intros s. apply stable_sort_stable. intros x y Hx Hy. unfold entry_le. apply Z.leb_le. lia.
Qed.

(** ** Collection *)

(** From registry [reg] to [reg'], the batches [l] were let through: each
    digest once, each one new, and nothing else was registered. *)
Record let_through (reg reg' : ExecutedBatchRegistry) (l : list PreparedBatch) : Prop := {
  lt_nodup : NoDup (batch_digest <$> l);
  lt_new p : p ∈ l -> batch_digest p ∉ digests reg;
  lt_registered d : d ∈ digests reg' <-> d ∈ digests reg \/ d ∈ batch_digest <$> l;
  lt_retries : retry_counts reg' = retry_counts reg
}.

Lemma let_through_refl reg : let_through reg reg [].
Proof. split; simpl; [constructor|by intros p ?%elem_of_nil| |done]. set_solver. Qed.

(** Registering one more batch. *)
Lemma let_through_register reg reg' l p :
  let_through reg reg' l ->
  let '(reg'', fresh) := try_register reg' (batch_digest p) in
  let_through reg reg'' (if fresh then l ++ [p] else l).
Proof.
  intros [Hnd Hnew Hreg Hret]. simpl. case_bool_decide as Hd.
  - split; simpl.
    + rewrite fmap_app. apply NoDup_app. csimpl. split_and!; [done| |apply NoDup_singleton].
      intros x Hx ->%list_elem_of_singleton. apply Hd, Hreg. by right.
    + intros q [Hq|Hq%list_elem_of_singleton]%elem_of_app; [auto|]. subst q. rewrite Hreg in Hd. tauto.
    + intros d. rewrite fmap_app, elem_of_union, elem_of_singleton, Hreg, elem_of_app. csimpl.
      rewrite list_elem_of_singleton. tauto.
    + done.
  - split; simpl; [done|done| |done]. intros d.
    rewrite elem_of_union, elem_of_singleton, Hreg. split; [|tauto].
    intros [Heq|]; [subst d|done]. by apply Hreg.
Qed.

Lemma let_through_register_all reg reg' l taken :
  let_through reg reg' l ->
  let_through reg (register_all true reg' taken).1 (l ++ (register_all true reg' taken).2).
Proof.
  revert reg' l. induction taken as [|p taken IH]; intros reg' l Hl; simpl; [by rewrite app_nil_r|].
  pose proof (let_through_register reg reg' l (set_drained p) Hl) as H1. simpl in H1.
  set (reg1 := {| digests := _; retry_counts := _ |}) in *.
  case_bool_decide; specialize (IH reg1 _ H1);
    destruct (register_all true reg1 taken) as [reg2 out]; simpl in *; [|done].
  by rewrite <-app_assoc in IH.
Qed.

(** Whatever a drain returns, the registry let the collected batches
    through. *)
Lemma drain_loop_through {E} fuel o a l reg o' l' reg' reg0 :
  let_through reg0 reg l ->
  drain_consecutive_loop (E := E) fuel o a l reg true = Ret (o', l', reg') ->
  let_through reg0 reg' l'.
Proof.
  revert o l reg. induction fuel as [|fuel IH]; intros o l reg Hl; [done|].
  cbn [drain_consecutive_loop]. destruct (_ !! a) as [auth|]; [|by intros [= _ <- <-]].
  destruct (last_executed_seq auth) as [n|]; [|by intros [= _ <- <-]].
  intros (next & _ & Hk)%bind_Ret_inv. destruct (parked auth !! next) as [p|]; [|by injection Hk as _ <- <-].
  pose proof (let_through_register reg0 reg l (set_drained p) Hl) as H1. cbn [batch_digest set_drained] in H1.
  destruct (try_register reg (batch_digest p)) as [reg1 fresh]. destruct fresh; cbn [negb] in Hk; eauto.
Qed.

Lemma try_accept_result {E} o a s p norm o' r :
  try_accept (E := E) o a s p norm = Ret (o', r) ->
  r = InOrder p \/ r = Parked \/ r = OverflowForced p.
Proof.
  unfold try_accept. destruct (s =? 0); [intros [= _ <-]; by left|].
  destruct (last_executed_seq _) as [n|]; [|intros [= _ <-]; by left].
  destruct (s <=? n); [intros [= _ <-]; by left|]. intros (e & _ & Hk)%bind_Ret_inv.
  destruct (negb _); [|injection Hk as _ <-; by left].
  destruct (Nat.leb _ _); [|injection Hk as _ <-; auto].
  destruct norm; [apply bind_Ret_inv in Hk as (f & _ & Hk)|]; injection Hk as _ <-; auto.
Qed.

(** Collecting lets batches through, whatever the ordering does (after
    [BatchDigestV2]). *)
Lemma collect_loop_through {E} bc ctx norm gl index ixs o reg l o' reg' l' reg0 :
  let_through reg0 reg l ->
  collect_loop (E := E) bc ctx true norm gl index ixs (o, reg, l) = Ret (o', reg', l') ->
  let_through reg0 reg' l'.
Proof.
  revert index o reg l. induction ixs as [|i ixs IH]; intros index o reg l Hl; cbn [collect_loop].
  { by intros [= _ <- <-]. }
  intros ([[o1 reg1] l1] & Hb & Hk)%bind_Ret_inv. eapply IH; [|exact Hk]. clear IH Hk.
  unfold collect_batch in Hb. apply bind_Ret_inv in Hb as (d & _ & Hb).
  destruct (contains reg d); [by injection Hb as _ <- <-|].
  apply bind_Ret_inv in Hb as (cb & _ & Hb). apply bind_Ret_inv in Hb as (b & _ & Hb).
  apply bind_Ret_inv in Hb as ([o2 r] & Ha%try_accept_result & Hb).
  pose proof (let_through_register reg0 reg l (prepare b d cb.1 ctx (Z.of_nat index) gl) Hl) as H1.
  cbn [batch_digest prepare] in H1. destruct (try_register reg d) as [reg2 fresh].
  destruct Ha as [-> |[-> | ->]]; [|by injection Hb as _ <- <-|];
    (destruct fresh; cbn [negb] in Hb; [|by injection Hb as _ <- <-]);
    apply bind_Ret_inv in Hb as ([[o3 l3] reg3] & Hd & [= _ <- <-]);
    by eapply drain_loop_through.
Qed.

Section collect.
Context {E : Type} (bc : BatchContext) (ctx : OutputContext) (block_gas_limit : Z).
Abbreviation arc := (arc_batches bc).

(** A batch of the context that the ordering can count past. *)
Definition countable (i : nat * nat) : Prop :=
  exists cb b, arc !! i.1 = Some cb /\ cb.2 !! i.2 = Some b /\ 0 <= seq b < u64_max.

(** The state of the collection, from where it started. *)
Record collecting (o0 : BatchOrdering) (reg0 : ExecutedBatchRegistry) (st : Collecting) : Prop := {
  cg_moves : moves o0 st.1.1;
  cg_ok : ordering_ok st.1.1;
  cg_below : orderings_below_max st.1.1;
  cg_through : let_through reg0 st.1.2 st.2
}.

(** Accepting a batch that executes: it is registered and collected, and the
    parked batches it frees follow. *)
Lemma collect_accepted o0 reg0 o reg l o' a p :
  collecting o0 reg0 (o, reg, l) -> moves o o' -> ordering_ok_at (accepting a) o' ->
  batch_digest p ∉ digests reg ->
  exists st', (drained ← drain_consecutive (E := E) o' a (l ++ [p]) (try_register reg (batch_digest p)).1 true;
               let '(ordering, executable, registry) := drained in
               Ret (ordering, registry, executable)) = Ret st' /\ collecting o0 reg0 st'.
Proof.
  intros [Hm Ho Hb Ht] Hm' Ho' Hd. cbn [fst snd] in Hm, Ho, Hb, Ht. pose proof (mv_below _ _ Hm' Hb) as Hb'.
  destruct (drain_consecutive_spec (E := E) o' a (l ++ [p]) (try_register reg (batch_digest p)).1 true
              Ho' (Hb' a)) as (o2 & l2 & reg2 & taken & Hdr & Hres & Ho2).
  rewrite Hdr. cbn [mbind exec_bind]. eexists. split; [done|].
  pose proof (drain_moves _ _ _ _ _ _ _ _ _ Hres Ho2) as Hm2. split; simpl; [|done| |].
  - etrans; [done|]. by etrans.
  - by apply (mv_below _ _ Hm2).
  - rewrite (dr_collected _ _ _ _ _ _ _ _ _ Hres), (dr_registry _ _ _ _ _ _ _ _ _ Hres).
    apply let_through_register_all. pose proof (let_through_register reg0 reg l p Ht) as H1.
    simpl in H1. rewrite bool_decide_eq_true_2 in H1 by done. done.
Qed.

Lemma collect_batch_spec o0 reg0 index i st :
  collecting o0 reg0 st -> countable i -> is_Some (bc_digests bc !! index) ->
  exists st', collect_batch (E := E) bc ctx true true block_gas_limit index i st = Ret st' /\
    collecting o0 reg0 st'.
Proof.
  destruct st as [[o reg] l]. intros Hst (cb & b & Hcb & Hbb & Hs) [d Hd].
  unfold collect_batch. rewrite Hd. cbn [expect mbind exec_bind]. unfold contains.
  case_bool_decide as Hc; [by eexists|]. unfold cert_batches. rewrite Hcb.
  cbn [expect mbind exec_bind]. rewrite Hbb. cbn [expect mbind exec_bind].
  set (p := prepare b d cb.1 ctx (Z.of_nat index) block_gas_limit).
  destruct (try_accept_spec (E := E) o cb.1 (seq b) p) as (o' & r & Hacc & Hm & Hr);
    [apply Hst|done|]. rewrite Hacc. cbn [mbind exec_bind].
  destruct Hr as [[Hr Ho']|[-> Ho']].
  - assert (Hfresh : try_register reg d = ((try_register reg d).1, true)).
    { unfold try_register. simpl. by rewrite bool_decide_eq_true_2. }
    destruct Hr as [-> | ->]; rewrite Hfresh; cbn [negb];
      by apply (collect_accepted o0 reg0 o reg l o' cb.1 p).
  - eexists. split; [done|]. destruct Hst as [Hm0 ? Hb ?]. split; simpl in *; [by etrans|done| |done].
    by apply (mv_below _ _ Hm).
Qed.

Lemma collect_loop_spec o0 reg0 index ixs st :
  collecting o0 reg0 st -> Forall countable ixs ->
  (index + length ixs <= length (bc_digests bc))%nat ->
  exists st', collect_loop (E := E) bc ctx true true block_gas_limit index ixs st = Ret st' /\
    collecting o0 reg0 st'.
Proof.
  revert index st. induction ixs as [|i ixs IH]; intros index st Hst His Hlen; simpl; [by eexists|].
  inversion His; subst. simpl in Hlen.
  destruct (collect_batch_spec o0 reg0 index i st) as (st1 & -> & Hst1);
    [done|done|apply lookup_lt_is_Some_2; lia|].
  cbn [mbind exec_bind]. apply IH; [done|done|lia].
Qed.

(** Collecting the executable batches of an output (after
    [BatchDigestV2] and [OutputSeqNormalization]) returns whenever the
    sequence numbers are below [u64::MAX]: no batch ixs collected twice, none
    that was already registered is collected, exactly the collected ones are
    added to the registry, no authority's watermark goes down, and the ordering
    stays well formed, with at most 32 parked batches per authority, all above
    its next expected sequence number. *)
Theorem collect_executable_batches_correct o reg :
  ordering_ok o -> orderings_below_max o -> Forall countable (bc_batches bc) ->
  (length (bc_batches bc) <= length (bc_digests bc))%nat ->
  exists o' reg' l,
    collect_executable_batches (E := E) bc ctx true true block_gas_limit o reg = Ret (o', reg', l) /\
    let_through reg reg' l /\ moves o o' /\ ordering_ok o' /\ orderings_below_max o'.
Proof.
  intros Ho Hb Hc Hlen.
  destruct (collect_loop_spec o reg 0 (bc_batches bc) (o, reg, [])) as ([[o' reg'] l] & Hl & [Hm Ho' Hb' Ht]);
    [|done|lia|].
  - split; simpl; [done|done|done|apply let_through_refl].
  - by exists o', reg', l.
Qed.
End collect.
