(* ===== verification/EngineBlocks.v ===== *)
(** * The blocks of an output

    What [execute_consensus_output] of [Engine.v] commits for one output and
    over a run of outputs: a chain of blocks on the parent, at least one per
    output, exactly one that closes the epoch, and a bounded number of
    executions per batch. *)
From S2P Require Import Prelude Lists State Types Committee LeaderSchedule ConsensusState.
From S2P Require Import Hardforks BatchOrdering BatchOrderingProps InFlight Engine EngineProps.
#[local] Open Scope Z_scope.

Section blocks.
Context `{!Crypto, !OutputHashes, !ForkConditionApi}.
Context {S Er : Type} `{!BlockExecutor S Er}.
Context (spec : ChainSpec) (block_gas_limit : Z) (clock : SealedHeader -> Instant).

Abbreviation P := (Processor S).
Abbreviation M := (ST P (RLEngineError Er)).
Implicit Types (p : P) (h : SealedHeader) (blocks : list ExecutedBlock).

(** ** One block *)

(** What a run leaves alone besides the EVM, the gas totals and the marks. *)
Definition same_books (p p' : P) : Prop :=
  executed_batch_registry p' = executed_batch_registry p /\
  batch_ordering p' = batch_ordering p.

Lemma lift_Ret {A} (m : Exec (RLEngineError Er) A) p p' a :
  lift m p = (p', Ret a) -> p' = p /\ m = Ret a.
Proof. unfold lift. by intros [= -> ->]. Qed.

Lemma call_reth_Ret {A} (f : S -> S * Exec Er A) p p' a :
  call_reth f p = (p', Ret a) -> exists s, f (reth_env p) = (s, Ret a) /\ p' = set_reth p s.
Proof.
  unfold call_reth. destruct (f (reth_env p)) as [s r]. intros [= <- Hr%map_err_Ret]. subst. eauto.
Qed.

(** The block built for [payload] on the given chain. *)
Definition built (payload : RLPayload) (b : ExecutedBlock) : Prop :=
  exists x, eb_header b = assemble_block spec payload (h_number (parent_header payload) + 1) x.

Lemma execute_payload_Ret payload txs blocks p p' u blocks' :
  execute_payload spec payload txs blocks p = (p', Ret (u, blocks')) ->
  same_books p p' /\
  exists b, built payload b /\ ue_header u = eb_header b /\ blocks' = blocks ++ [b].
Proof.
  unfold execute_payload. intros (n & p1 & (-> & Hn)%lift_Ret & Hk)%st_bind_Ret.
  apply uadd_Ret in Hn as [-> _].
  apply st_bind_Ret in Hk as (x & p2 & (s & _ & ->)%call_reth_Ret & [= <- <- <-]).
  split; [done|].
  exists {| eb_header := assemble_block spec payload (h_number (parent_header payload) + 1) x;
            eb_senders := ex_senders x |}. split_and!; [by exists x|done|done].
Qed.

Lemma execute_prepared_batch_Ret pb h close blocks p p' h' counts blocks' :
  execute_prepared_batch spec clock pb h close blocks p = (p', Ret (h', counts, blocks')) ->
  same_books p p' /\
  exists b fee, built (build_payload pb h close fee) b /\ h' = eb_header b /\ blocks' = blocks ++ [b].
Proof.
  unfold execute_prepared_batch.
  intros (fee & p1 & (-> & _)%lift_Ret & Hk)%st_bind_Ret.
  apply st_bind_Ret in Hk as ([u bs] & p2 & Hp%execute_payload_Ret & Hk).
  destruct Hp as ([Hr Ho] & b & Hb & Hu & ->).
  apply st_bind_Ret in Hk as ([h1 c1] & p3 & Hset & Hk). unfold settle in Hset.
  injection Hset as <- <- <-.
  apply st_bind_Ret in Hk as (gas & p4 & [= <- <-] & Hk).
  apply st_bind_Ret in Hk as (gas1 & p5 & (-> & _)%lift_Ret & Hk).
  apply st_bind_Ret in Hk as (gas2 & p6 & (-> & _)%lift_Ret & Hk).
  injection Hk as <- <- <- <-. split; [by split|]. by exists b, fee.
Qed.

Lemma execute_empty_block_Ret h output d blocks close p p' h' blocks' :
  execute_empty_block spec clock h output d blocks close p = (p', Ret (h', blocks')) ->
  same_books p p' /\
  exists b payload, built payload b /\ parent_header payload = h /\ pl_close_epoch payload = close /\
    pl_batch_digest payload = 0 /\ pl_nonce payload = co_nonce output /\
    h' = eb_header b /\ blocks' = blocks ++ [b].
Proof.
  unfold execute_empty_block.
  intros (fee & p1 & (-> & _)%lift_Ret & Hk)%st_bind_Ret.
  apply st_bind_Ret in Hk as (gas & p2 & [= <- <-] & Hk).
  apply st_bind_Ret in Hk as (bene & p3 & Hok & Hk).
  assert (p3 = p) as -> by (unfold st_ok_or in Hok; destruct (get_authority_address _ _); by injection Hok).
  apply st_bind_Ret in Hk as ([u bs] & p4 & (Hsame & b & Hb & Hu & ->)%execute_payload_Ret & Hk).
  injection Hk as <- <- <-. split; [done|]. eexists b, _. split_and!; [exact Hb|done..].
Qed.

(** ** Chains of blocks *)

(** [blocks] extends [h] up to [h'], one number at a time. *)
Fixpoint chain h blocks h' : Prop :=
  match blocks with
  | [] => h' = h
  | b :: blocks =>
      h_parent_hash (eb_header b) = h_hash h /\ h_number (eb_header b) = h_number h + 1 /\
      chain (eb_header b) blocks h'
  end.

Lemma chain_app h l1 h1 l2 h2 : chain h l1 h1 -> chain h1 l2 h2 -> chain h (l1 ++ l2) h2.
Proof.
  revert h. induction l1 as [|b l1 IH]; intros h; simpl; [by intros ->|].
  intros (? & ? & Hc) Hc2. split_and!; [done|done|]. by eapply IH.
Qed.

Lemma chain_number h blocks h' : chain h blocks h' -> h_number h' = h_number h + Z.of_nat (length blocks).
Proof.
  revert h. induction blocks as [|b blocks IH]; intros h; simpl; [intros ->; lia|].
  intros (_ & Hn & Hc%IH). lia.
Qed.

Lemma built_header payload b :
  built payload b ->
  h_parent_hash (eb_header b) = h_hash (parent_header payload) /\
  h_number (eb_header b) = h_number (parent_header payload) + 1 /\
  h_extra_data (eb_header b) = pl_close_epoch payload /\
  h_nonce (eb_header b) = pl_nonce payload.
Proof.
  intros [x ->]. unfold assemble_block. destruct (resolve_batch_digest_fields _ _ _). done.
Qed.

Lemma built_chain payload b : built payload b -> chain (parent_header payload) [b] (eb_header b).
Proof. intros (? & ? & _)%built_header. done. Qed.

(** The epoch-close seeds of a list of blocks. *)
Definition seeds blocks : list B256 := omap (fun b => h_extra_data (eb_header b)) blocks.

Lemma seeds_app l1 l2 : seeds (l1 ++ l2) = seeds l1 ++ seeds l2.
Proof. apply omap_app. Qed.

Lemma seeds_built payload b :
  built payload b -> seeds [b] = match pl_close_epoch payload with Some s => [s] | None => [] end.
Proof. intros (_ & _ & He & _)%built_header. unfold seeds. simpl. by rewrite He. Qed.

(** ** The collected batches *)

(** One block per prepared batch, in order; the batch at [close_at] carries
    [close]. *)
Lemma execute_collected_Ret v2 close_at close i collected h blocks p p' h' blocks' :
  execute_collected spec clock v2 close_at close i collected h blocks p = (p', Ret (h', blocks')) ->
  exists new, blocks' = blocks ++ new /\ length new = length collected /\ chain h new h' /\
    batch_ordering p' = batch_ordering p /\
    seeds new = match close_at, close with
                | Some j, Some s => if decide (i <= j < i + length collected)%nat then [s] else []
                | _, _ => []
                end.
Proof.
  revert i h blocks p. induction collected as [|pb collected IH]; intros i h blocks p; cbn [execute_collected].
  - intros [= <- <- <-]. exists []. rewrite app_nil_r. split_and!; try done.
    destruct close_at as [j|], close; try done. rewrite decide_False; [done|]. simpl. lia.
  - intros ([[h1 counts] bs] & p1 & Hb & Hk)%st_bind_Ret.
    apply execute_prepared_batch_Ret in Hb as ([_ Ho] & b & fee & Hb & -> & ->).
    apply st_bind_Ret in Hk as ([] & p2 & Hdrop & Hk).
    assert (Ho2 : batch_ordering p2 = batch_ordering p1) by (case_match; by injection Hdrop as <-).
    apply IH in Hk as (new & -> & Hlen & Hc & Ho' & Hs).
    exists (b :: new). rewrite <-app_assoc. split_and!; [done|simpl; lia| |congruence|].
    + apply (chain_app h [b] (eb_header b)); [by apply built_chain in Hb|done].
    + change (b :: new) with ([b] ++ new). rewrite seeds_app, (seeds_built _ _ Hb), Hs. simpl.
      destruct close_at as [j|]; [|by case_bool_decide]. destruct close as [s|]; [|by case_bool_decide].
      destruct (decide (i = j)) as [->|Hij];
        [rewrite bool_decide_eq_true_2 by done|rewrite bool_decide_eq_false_2 by congruence];
        repeat case_decide; try done; simpl in *; lia.
Qed.

Lemma execute_parked_Ret v2 parked h blocks p p' h' blocks' :
  execute_parked spec clock v2 parked h blocks p = (p', Ret (h', blocks')) ->
  exists new, blocks' = blocks ++ new /\ chain h new h' /\ seeds new = [].
Proof.
  revert h blocks p. induction parked as [|pb parked IH]; intros h blocks p; cbn [execute_parked].
  - intros [= _ <- <-]. exists []. by rewrite app_nil_r.
  - intros (fresh & p1 & _ & Hk)%st_bind_Ret. destruct (negb fresh); [by eapply IH|].
    apply st_bind_Ret in Hk as ([[h1 c] bs] & p2 & Hb & Hk).
    apply execute_prepared_batch_Ret in Hb as (_ & b & fee & Hb & -> & ->).
    cbn [fst snd] in Hk. apply IH in Hk as (new & -> & Hc & Hs). exists (b :: new).
    rewrite <-app_assoc.
    split_and!; [done|by apply built_chain in Hb as [? [? _]]|].
    change (b :: new) with ([b] ++ new). by rewrite seeds_app, (seeds_built _ _ Hb), Hs.
Qed.

Lemma active_after_Ret f h p p' b :
  active_after (Er := Er) spec f h p = (p', Ret b) ->
  p' = p /\ b = is_rayls_fork_active_at_block (activation spec) f (h_number h + 1).
Proof.
  unfold active_after. intros (n & p1 & (-> & Hn)%lift_Ret & [= <- <-])%st_bind_Ret.
  by apply uadd_Ret in Hn as [-> _].
Qed.

Lemma drain_and_execute_Ret e h v2 p p' h' blocks' :
  drain_and_execute_epoch_parked spec clock e h [] v2 p = (p', Ret (h', blocks')) ->
  chain h blocks' h' /\ seeds blocks' = [] /\
  (is_rayls_fork_active_at_block (activation spec) OutputSeqNormalization (h_number h + 1) = true ->
   blocks' = []).
Proof.
  unfold drain_and_execute_epoch_parked.
  intros (o & p1 & [= <- <-] & Hk)%st_bind_Ret. destruct (drain_epoch _ e) as [o' parked].
  apply st_bind_Ret in Hk as ([] & p2 & [= <-] & Hk).
  apply st_bind_Ret in Hk as (discard & p3 & (-> & ->)%active_after_Ret & Hk).
  destruct (is_rayls_fork_active_at_block _ _ _).
  - by injection Hk as <- <- <-.
  - apply execute_parked_Ret in Hk as (new & -> & Hc & Hs). done.
Qed.

(** After [OutputSeqNormalization] the epoch boundary leaves the registry
    alone. *)
Lemma drain_and_execute_registry e h v2 p p' r :
  drain_and_execute_epoch_parked spec clock e h [] v2 p = (p', Ret r) ->
  is_rayls_fork_active_at_block (activation spec) OutputSeqNormalization (h_number h + 1) = true ->
  executed_batch_registry p' = executed_batch_registry p.
Proof.
  intros Hrun Hn. unfold drain_and_execute_epoch_parked in Hrun.
  apply st_bind_Ret in Hrun as (o & p1 & [= <- <-] & Hk). destruct (drain_epoch _ e) as [o' parked].
  apply st_bind_Ret in Hk as ([] & p2 & [= <-] & Hk).
  apply st_bind_Ret in Hk as (discard & p3 & (-> & ->)%active_after_Ret & Hk).
  rewrite Hn in Hk. by injection Hk as <-.
Qed.

Lemma last_current_output_idx_lt n collected i :
  last_current_output_idx n collected = Some i -> (i < length collected)%nat.
Proof.
  unfold last_current_output_idx. destruct n as [|pos]; [done|].
  destruct (list_find _ _) as [[j b]|] eqn:E; [|done]. simpl. intros [= <-].
  apply list_find_Some in E as (E & _). by apply lookup_lt_Some in E.
Qed.

(** ** One output *)

(** The seed the epoch-closing block on top of [h] carries. *)
Definition close_seed (output : ConsensusOutput) h : B256 :=
  if is_rayls_fork_active_at_block (activation spec) EpochCloseSeedV2 (h_number h + 1)
  then epoch_close_seed output else keccak_leader_sigs output.

(** The blocks of an output, without the ones of the previous epoch's parked
    batches. *)
Record own_blocks (output : ConsensusOutput) h (own : list ExecutedBlock) h' : Prop := {
  ob_chain : chain h own h';
  ob_nonempty : own <> [];
  ob_seeds : seeds own = if close_epoch output then [close_seed output h] else []
}.

(** The end of [build_output]: the collected batches, then the fallback. *)
Lemma execute_and_fallback_Ret v2 collected n output d h blocks p1 p2 h1 blocks1 p3 h2 blocks2 :
  let close := if close_epoch output then Some (close_seed output h) else None in
  let close_at := last_current_output_idx n collected in
  let unconsumed := close_epoch output && bool_decide (close_at = None) in
  execute_collected spec clock v2 close_at close 0 collected h blocks p1 = (p2, Ret (h1, blocks1)) ->
  (if negb (length blocks <? length blocks1)%nat || unconsumed
   then execute_empty_block spec clock h1 output d blocks1 close
   else mret (h1, blocks1)) p2 = (p3, Ret (h2, blocks2)) ->
  exists own, blocks2 = blocks ++ own /\ own_blocks output h own h2.
Proof.
  intros close close_at unconsumed Hex Hfb.
  apply execute_collected_Ret in Hex as (new & -> & Hlen & Hc & _ & Hs).
  assert (Hnew : seeds new = match close_at, close with Some _, Some s => [s] | _, _ => [] end).
  { rewrite Hs. destruct close_at as [j|] eqn:Ej; [|done]. destruct close; [|done].
    apply last_current_output_idx_lt in Ej. rewrite decide_True by lia. done. }
  assert (Hcol : close_at <> None -> new <> []).
  { intros Hj ->. destruct close_at as [j|] eqn:Ej; [|done].
    apply last_current_output_idx_lt in Ej. simpl in Hlen. lia. }
  rewrite length_app in Hfb. unfold unconsumed in Hfb. clear unconsumed.
  destruct (negb _ || _) eqn:Ec in Hfb.
  - apply execute_empty_block_Ret in Hfb as (_ & b & pl & Hb & Hpar & Hcl & _ & _ & -> & ->).
    exists (new ++ [b]). split; [by rewrite app_assoc|]. split.
    + eapply chain_app; [done|]. rewrite <-Hpar. by apply built_chain.
    + by destruct new.
    + rewrite seeds_app, Hnew, (seeds_built _ _ Hb), Hcl. unfold close.
      destruct (close_epoch output); [|by destruct close_at].
      assert (close_at = None) as ->; [|done].
      destruct close_at; [|done]. simpl in Ec. rewrite orb_false_r in Ec.
      destruct new; [by destruct Hcol|]. simpl in Ec.
      destruct (Nat.ltb_spec (length blocks) (length blocks + Datatypes.S (length new))); [done|lia].
  - injection Hfb as <- <- <-. exists new. split; [done|].
    apply orb_false_iff in Ec as [Hp%negb_false_iff Hu]. split; [done| |].
    + intros ->. simpl in Hp. rewrite Nat.add_0_r, Nat.ltb_irrefl in Hp. done.
    + rewrite Hnew. unfold close. destruct (close_epoch output); [|by destruct close_at].
      simpl in Hu. apply bool_decide_eq_false in Hu. by destruct close_at.
Qed.

Lemma collect_output_Ret output parent p p' h1 drained collected v2 :
  collect_output spec block_gas_limit clock output parent p =
    (p', Ret (h1, drained, collected, v2)) ->
  v2 = is_rayls_fork_active_at_block (activation spec) BatchDigestV2 (h_number parent + 1) /\
  chain parent drained h1 /\ seeds drained = [] /\
  (is_rayls_fork_active_at_block (activation spec) OutputSeqNormalization (h_number parent + 1) = true ->
   drained = [] /\
   (v2 = true -> let_through (executed_batch_registry p) (executed_batch_registry p') collected)).
Proof.
  unfold collect_output. intros ([] & p1 & [= <-] & Hk)%st_bind_Ret.
  apply st_bind_Ret in Hk as (gas & p2 & [= <- _] & Hk).
  apply st_bind_Ret in Hk as (gas' & p3 & (-> & _)%lift_Ret & Hk).
  apply st_bind_Ret in Hk as ([] & p4 & [= <-] & Hk).
  apply st_bind_Ret in Hk as (v2' & p5 & (-> & Hv2)%active_after_Ret & Hk).
  apply st_bind_Ret in Hk as (norm & p6 & (-> & _)%active_after_Ret & Hk).
  apply st_bind_Ret in Hk as ([h2 drained'] & p7 & Hd & Hk).
  pose proof (drain_and_execute_registry _ _ _ _ _ _ Hd) as Hr7.
  apply drain_and_execute_Ret in Hd as (Hc & Hs & Hdr).
  apply st_bind_Ret in Hk as ([] & p8 & (-> & _)%lift_Ret & Hk).
  apply st_bind_Ret in Hk as (fd & p9 & Hfd & Hk).
  assert (p9 = p7) as -> by (destruct norm; [by apply lift_Ret in Hfd as [-> _]|by injection Hfd]).
  apply st_bind_Ret in Hk as (o & p10 & [= <- <-] & Hk).
  apply st_bind_Ret in Hk as (reg & p11 & [= <- <-] & Hk).
  apply st_bind_Ret in Hk as ([[o' reg'] collected'] & p12 & (-> & Hcol)%lift_Ret & Hk).
  injection Hk as <- <- <- <- <-. split_and!; [done|done|done|]. intros Hn. split; [by apply Hdr|].
  intros ->. simpl. simpl in Hr7. rewrite (Hr7 Hn) in Hcol.
  eapply collect_loop_through; [apply let_through_refl|exact Hcol].
Qed.

Lemma build_output_Ret output parent p p' h blocks :
  (forall n, h_number parent < n ->
     is_rayls_fork_active_at_block (activation spec) EmptyOutputBlock n = true) ->
  forall eob, build_output spec block_gas_limit clock output parent p = (p', Ret (h, blocks, eob)) ->
  eob = true /\
  exists drained own h1, blocks = drained ++ own /\ chain parent drained h1 /\ seeds drained = [] /\
    (is_rayls_fork_active_at_block (activation spec) OutputSeqNormalization (h_number parent + 1) = true ->
     drained = []) /\
    own_blocks output h1 own h.
Proof.
  intros Hactive eob. unfold build_output.
  intros ([[[h1 drained] collected] v2] & p1 & Hcol & Hk)%st_bind_Ret.
  apply collect_output_Ret in Hcol as (_ & Hc & Hs & Hn).
  apply st_bind_Ret in Hk as (seed_v2 & p14 & Hseed & Hk).
  apply st_bind_Ret in Hk as ([h2 blocks2] & p15 & Hex & Hk).
  apply st_bind_Ret in Hk as (eob' & p16 & (-> & Heob)%active_after_Ret & Hk).
  assert (eob' = true) as ->.
  { rewrite Heob. apply Hactive. apply execute_collected_Ret in Hex as (new & _ & _ & Hc2 & _).
    apply chain_number in Hc, Hc2. lia. }
  apply st_bind_Ret in Hk as ([h3 blocks3] & p17 & Hfb & Hk). injection Hk as _ -> -> <-.
  split; [done|].
  assert (Hclose : (if close_epoch output
                    then Some (if seed_v2 then epoch_close_seed output else keccak_leader_sigs output)
                    else None)
                   = (if close_epoch output then Some (close_seed output h1) else None)).
  { destruct (close_epoch output); [|done]. apply active_after_Ret in Hseed as [_ ->]. done. }
  rewrite Hclose in Hex, Hfb.
  destruct (execute_and_fallback_Ret _ _ _ _ _ _ _ _ _ _ _ _ _ _ Hex Hfb) as (own & -> & Hown).
  exists drained, own, h1. split_and!; [done|done|done|by intros Hx; apply Hn in Hx as []|done].
Qed.

(** Every fork that fixes how an output becomes blocks is active above [n]. *)
Definition current_rules (n : Z) : Prop :=
  forall m, n < m -> forall f,
    f ∈ [BatchDigestV2; EmptyOutputBlock; OutputSeqNormalization; EpochCloseSeedV2] ->
    is_rayls_fork_active_at_block (activation spec) f m = true.

Lemma execute_output_Ret output parent p p' h blocks :
  (forall n, h_number parent < n ->
     is_rayls_fork_active_at_block (activation spec) EmptyOutputBlock n = true) ->
  execute_output spec block_gas_limit clock output parent p = (p', Ret (h, blocks)) ->
  exists p1, build_output spec block_gas_limit clock output parent p = (p1, Ret (h, blocks, true)) /\
    executed_batch_registry p' = executed_batch_registry p1.
Proof.
  intros Hactive. unfold execute_output. intros ([[h1 bs] eob] & p1 & Hb & Hk)%st_bind_Ret.
  destruct (build_output_Ret _ _ _ _ _ _ Hactive _ Hb) as [-> _]. cbn [negb andb] in Hk.
  apply st_bind_Ret in Hk as ([] & p2 & Hf & Hk). unfold finish_executing_output in Hf.
  apply st_bind_Ret in Hf as (b & p3 & (-> & _)%lift_Ret & [= <-]).
  apply st_bind_Ret in Hk as ([] & p4 & (s & _ & ->)%call_reth_Ret & Hk).
  injection Hk as <- <- <-. by exists p1.
Qed.

(** C13: Executing an output under the current rules extends the parent by a
    chain of blocks with consecutive numbers, each on the hash of the one
    before. An output yields at least one block whatever happens to its batches
    (none, all duplicates, all parked); when it closes the epoch exactly one of
    them carries the epoch-close seed, the hash of the output's consensus
    header, and otherwise none does. *)
Theorem output_blocks_correct output parent p p' h blocks :
  current_rules (h_number parent) ->
  execute_output spec block_gas_limit clock output parent p = (p', Ret (h, blocks)) ->
  chain parent blocks h /\ blocks <> [] /\ h_number parent < h_number h /\
  seeds blocks = if close_epoch output then [consensus_header_hash output] else [].
Proof.
  intros Hrules Hrun.
  assert (Hactive : forall n, h_number parent < n ->
     is_rayls_fork_active_at_block (activation spec) EmptyOutputBlock n = true).
  { intros n Hn. apply (Hrules n Hn). set_solver. }
  apply execute_output_Ret in Hrun as (p1 & Hb & _); [|done].
  destruct (build_output_Ret _ _ _ _ _ _ Hactive _ Hb) as (_ & dr & own & h1 & -> & Hc & Hs & Hn & Ho).
  rewrite Hn in * by (apply Hrules; [lia|set_solver]). simpl in Hc. subst h1.
  destruct Ho as [Hc Hne Hseeds]. simpl. split_and!; [done|done| |].
  - apply chain_number in Hc. destruct own; [done|]. simpl in Hc. lia.
  - rewrite Hseeds. unfold close_seed. rewrite Hrules; [done|lia|set_solver].
Qed.

(** ** Certificate variants *)

(** Two outputs that differ only in the signatures of their certificates (and
    in what is not part of the commitment): two nodes can hold different
    certificates for the same headers. *)
Record variants (o1 o2 : ConsensusOutput) : Prop := {
  va_certificates :
    header <$> sd_certificates (co_sub_dag o1) = header <$> sd_certificates (co_sub_dag o2);
  va_leader : header (co_leader o1) = header (co_leader o2);
  va_timestamp : sd_commit_timestamp (co_sub_dag o1) = sd_commit_timestamp (co_sub_dag o2);
  va_batches : co_batches o1 = co_batches o2;
  va_digests : batch_digests o1 = batch_digests o2;
  va_parent : parent_hash o1 = parent_hash o2;
  va_number : number o1 = number o2;
  va_close : close_epoch o1 = close_epoch o2
}.

Lemma st_bind_ext {A B} (m : M A) (f g : A -> M B) p :
  (forall a p1, m p = (p1, Ret a) -> f a p1 = g a p1) -> (m ≫= f) p = (m ≫= g) p.
Proof. unfold mbind, st_bind. destruct (m p) as [p1 [a|e| |]]; auto. Qed.

Lemma variants_hash o1 o2 : variants o1 o2 -> consensus_header_hash o1 = consensus_header_hash o2.
Proof.
  intros [Hc Hl Ht _ _ Hp Hn _]. unfold consensus_header_hash, digest_from_parts, sub_dag_digest.
  unfold co_leader in Hl. rewrite Hp, Hn, Ht. f_equal. f_equal; [|unfold digest; by rewrite Hl].
  assert (Hd : forall l, digest <$> l = header_digest <$> (header <$> l))
    by (intros l; by rewrite <-list_fmap_compose).
  by rewrite !Hd, Hc.
Qed.

Lemma variants_committed_at o1 o2 : variants o1 o2 -> committed_at o1 = committed_at o2.
Proof.
  intros [_ Hl Ht _ _ _ _ _]. unfold committed_at, commit_timestamp. unfold co_leader in Hl.
  by rewrite Ht, Hl.
Qed.

Lemma variants_empty_block o1 o2 h d blocks close :
  variants o1 o2 ->
  execute_empty_block (S := S) spec clock h o1 d blocks close =
  execute_empty_block spec clock h o2 d blocks close.
Proof.
  intros Hv. unfold execute_empty_block. rewrite (variants_committed_at o1 o2 Hv).
  unfold co_nonce, nonce, origin. by rewrite (va_leader _ _ Hv).
Qed.

Lemma variants_collect_output o1 o2 parent :
  variants o1 o2 ->
  collect_output spec block_gas_limit clock o1 parent =
  collect_output spec block_gas_limit clock o2 parent.
Proof.
  intros Hv. unfold collect_output, flatten_batches.
  rewrite (variants_hash _ _ Hv), (variants_committed_at _ _ Hv), (va_batches _ _ Hv),
    (va_digests _ _ Hv).
  unfold co_nonce, nonce, origin, cert_epoch. by rewrite (va_leader _ _ Hv).
Qed.

Lemma variants_build_output o1 o2 parent p :
  current_rules (h_number parent) -> variants o1 o2 ->
  build_output spec block_gas_limit clock o1 parent p =
  build_output spec block_gas_limit clock o2 parent p.
Proof.
  intros Hrules Hv. unfold build_output, epoch_close_seed.
  rewrite (variants_collect_output _ _ _ Hv), (variants_hash _ _ Hv), (va_close _ _ Hv).
  replace (length (flatten_batches o1)) with (length (flatten_batches o2))
    by (unfold flatten_batches; by rewrite (va_batches _ _ Hv)).
  apply st_bind_ext. intros [[[h1 drained] collected] v2] q1 (_ & Hc & _ & Hn)%collect_output_Ret.
  destruct Hn as [-> _]; [apply Hrules; [lia|set_solver]|]. simpl in Hc. subst h1.
  apply st_bind_ext. intros seed_v2 q2 Hseed.
  assert (Heq : (if close_epoch o2 then Some (if seed_v2 then consensus_header_hash o2
                                              else keccak_leader_sigs o1) else None)
    = (if close_epoch o2 then Some (if seed_v2 then consensus_header_hash o2
                                    else keccak_leader_sigs o2) else None)).
  { destruct (close_epoch o2); [|done]. apply active_after_Ret in Hseed as [_ ->].
    rewrite Hrules; [done|lia|set_solver]. }
  rewrite Heq. apply st_bind_ext. intros [h2 blocks2] q3 _.
  apply st_bind_ext. intros eob q4 _. by rewrite (variants_empty_block o1 o2) by done.
Qed.

Lemma variants_execute_output o1 o2 parent p :
  current_rules (h_number parent) -> variants o1 o2 ->
  execute_output spec block_gas_limit clock o1 parent p =
  execute_output spec block_gas_limit clock o2 parent p.
Proof.
  intros Hrules Hv. unfold execute_output, mbind, st_bind.
  by rewrite (variants_build_output o1 o2).
Qed.

(** C32: Under the current rules the execution of an output does not depend on
    which certificates a node holds for the committed headers: two outputs
    that differ only in the signatures of their certificates run to the same
    result, with the same blocks and the same state, from any state. *)
Theorem certificate_variants_agree o1 o2 parent p :
  current_rules (h_number parent) -> variants o1 o2 ->
  execute_output spec block_gas_limit clock o1 parent p =
  execute_output spec block_gas_limit clock o2 parent p.
Proof.
  apply variants_execute_output.
Qed.

(** ** How often a batch is executed *)

(** Outputs executed one after the other, with all their blocks. *)
Fixpoint run_outputs (outputs : list ConsensusOutput) (parent : SealedHeader) :
    M (SealedHeader * list ExecutedBlock) :=
  match outputs with
  | [] => mret (parent, [])
  | output :: outputs =>
      r ← execute_output spec block_gas_limit clock output parent;
      rest ← run_outputs outputs r.1;
      mret (rest.1, r.2 ++ rest.2)
  end.

Lemma current_rules_step output parent p p' h blocks :
  current_rules (h_number parent) ->
  execute_output spec block_gas_limit clock output parent p = (p', Ret (h, blocks)) ->
  current_rules (h_number h).
Proof.
  intros Hrules Hex.
  assert (Hactive : forall n, h_number parent < n ->
     is_rayls_fork_active_at_block (activation spec) EmptyOutputBlock n = true)
    by (intros n Hn; apply (Hrules n Hn); set_solver).
  apply execute_output_Ret in Hex as (p2 & Hb & _); [|done].
  destruct (build_output_Ret _ _ _ _ _ _ Hactive _ Hb) as (_ & dr & own & h2 & -> & Hc & _ & _ & Ho).
  intros m Hm. apply Hrules. apply chain_number in Hc. destruct Ho as [Hc' _ _].
  apply chain_number in Hc'. simpl in Hm. lia.
Qed.

Lemma variants_run_outputs l1 l2 parent p :
  current_rules (h_number parent) -> Forall2 variants l1 l2 ->
  run_outputs l1 parent p = run_outputs l2 parent p.
Proof.
  intros Hrules Hl. revert parent p Hrules.
  induction Hl as [|o1 o2 l1 l2 Ho Hl IH]; intros parent p Hrules; cbn [run_outputs]; [done|].
  unfold mbind at 1 3, st_bind at 1 3. rewrite (variants_execute_output o1 o2) by done.
  destruct (execute_output _ _ _ o2 parent p) as [p1 [[h b]|er| |]] eqn:Hex; [|done..].
  unfold mbind, st_bind. by rewrite (IH h) by (by eapply current_rules_step).
Qed.

(** The blocks built for the batch with digest [d]: post-[BatchDigestV2] the
    header's requests hash is the batch digest. *)
Definition executions (d : B256) blocks : Z :=
  Z.of_nat (length (filter (fun b => h_requests_hash (eb_header b) = Some d) blocks)).

(** The executions of [d] the registry has let through: one for every retry
    spent, and one if it is registered. *)
Definition spent (reg : ExecutedBatchRegistry) (d : B256) : Z :=
  default 0 (retry_counts reg !! d) + (if decide (d ∈ digests reg) then 1 else 0).

Definition retries_ok (reg : ExecutedBatchRegistry) : Prop :=
  forall d n, retry_counts reg !! d = Some n -> 0 <= n <= MAX_NONCE_TOO_HIGH_RETRIES.

Lemma executions_app d l1 l2 : executions d (l1 ++ l2) = executions d l1 + executions d l2.
Proof. unfold executions. rewrite filter_app, length_app. lia. Qed.

Lemma executions_built payload b d :
  is_rayls_fork_active_at_block (activation spec) BatchDigestV2
    (h_number (parent_header payload) + 1) = true ->
  built payload b -> executions d [b] = if decide (pl_batch_digest payload = d) then 1 else 0.
Proof.
  intros Hv2 [x Hx]. unfold executions. rewrite filter_cons, filter_nil, Hx.
  unfold assemble_block, resolve_batch_digest_fields. rewrite Hv2. cbn [h_requests_hash].
  repeat case_decide; simplify_eq; done.
Qed.

Lemma spent_drop reg d d' :
  d ∈ digests reg -> retries_ok reg ->
  spent (drop_digest reg d).1 d' = spent reg d' /\ retries_ok (drop_digest reg d).1 /\
  (forall x, x <> d -> x ∈ digests (drop_digest reg d).1 <-> x ∈ digests reg).
Proof.
  intros Hd Hok. unfold drop_digest, MAX_NONCE_TOO_HIGH_RETRIES.
  assert (Hc : 0 <= default 0 (retry_counts reg !! d) <= 3).
  { destruct (retry_counts reg !! d) eqn:Erc; simpl; [by apply (Hok d)|lia]. }
  set (c := default 0 (retry_counts reg !! d)) in *. unfold spent, retries_ok.
  destruct (Z.leb_spec 3 c); cbn [fst digests retry_counts].
  - split_and!; [|intros x n [[<- <-]|[_ ?]]%lookup_insert_Some; [done|by apply (Hok x)]|done].
    f_equal. destruct (decide (d = d')) as [<-|]; [by rewrite lookup_insert_eq|by rewrite lookup_insert_ne].
  - split_and!; [|intros x n [[<- <-]|[_ ?]]%lookup_insert_Some;
                  [unfold MAX_NONCE_TOO_HIGH_RETRIES; lia|by apply (Hok x)]|set_solver].
    destruct (decide (d = d')) as [<-|].
    + rewrite lookup_insert_eq. simpl. fold c. rewrite decide_False, decide_True by set_solver. lia.
    + rewrite lookup_insert_ne by done. f_equal.
      destruct (decide (d' ∈ digests reg)); [rewrite decide_True|rewrite decide_False]; set_solver.
Qed.

Lemma let_through_spent reg reg' l d :
  let_through reg reg' l -> retries_ok reg ->
  retries_ok reg' /\ spent reg' d = spent reg d + (if decide (d ∈ batch_digest <$> l) then 1 else 0).
Proof.
  intros [Hnd Hnew Hreg Hret] Hok. split; [unfold retries_ok; by rewrite Hret|].
  unfold spent. rewrite Hret. destruct (decide (d ∈ batch_digest <$> l)) as [Hd|Hd].
  - apply list_elem_of_fmap in Hd as Hp. destruct Hp as (q & -> & Hq). pose proof (Hnew q Hq).
    rewrite decide_True, decide_False by (try done; apply Hreg; by right). lia.
  - destruct (decide (d ∈ digests reg)); [rewrite decide_True by (apply Hreg; by left)
      |rewrite decide_False by (rewrite Hreg; tauto)]; lia.
Qed.

Lemma execute_collected_spent close_at close i collected h blocks p p' h' blocks' :
  (forall n, h_number h < n ->
     is_rayls_fork_active_at_block (activation spec) BatchDigestV2 n = true) ->
  NoDup (batch_digest <$> collected) ->
  (forall q, q ∈ collected -> batch_digest q ∈ digests (executed_batch_registry p)) ->
  retries_ok (executed_batch_registry p) ->
  execute_collected spec clock true close_at close i collected h blocks p = (p', Ret (h', blocks')) ->
  retries_ok (executed_batch_registry p') /\
  exists new, blocks' = blocks ++ new /\ forall d,
    executions d new = (if decide (d ∈ batch_digest <$> collected) then 1 else 0) /\
    spent (executed_batch_registry p') d = spent (executed_batch_registry p) d.
Proof.
  revert i h blocks p. induction collected as [|q collected IH];
    intros i h blocks p Hv2 Hnd Hreg Hok; cbn [execute_collected].
  { intros [= <- <- <-]. split; [done|]. exists []. rewrite app_nil_r. split; [done|]. done. }
  intros ([[h1 counts] bs] & p1 & Hb & Hk)%st_bind_Ret.
  apply execute_prepared_batch_Ret in Hb as ([Hsame _] & b & fee & Hb & -> & ->).
  apply st_bind_Ret in Hk as ([] & p2 & Hdrop & Hk). csimpl in Hnd. apply NoDup_cons in Hnd as [Hq Hnd].
  assert (Hr2 : retries_ok (executed_batch_registry p2) /\
    (forall d, spent (executed_batch_registry p2) d = spent (executed_batch_registry p) d) /\
    (forall x, x <> batch_digest q ->
       x ∈ digests (executed_batch_registry p2) <-> x ∈ digests (executed_batch_registry p))).
  { rewrite <-Hsame. destruct (andb _ _).
    - injection Hdrop as <-. simpl.
      assert (Hin : batch_digest q ∈ digests (executed_batch_registry p1)).
      { rewrite Hsame. apply Hreg. by left. }
      assert (Hok1 : retries_ok (executed_batch_registry p1)) by (by rewrite Hsame).
      pose proof (fun d => spent_drop _ _ d Hin Hok1) as Hsd.
      split_and!; [apply (Hsd 0)|intros d; apply (Hsd d)|apply (Hsd 0)].
    - injection Hdrop as <-. by rewrite Hsame. }
  destruct Hr2 as (Hok2 & Hs2 & Hd2). pose proof (built_header _ _ Hb) as (_ & Hnum & _).
  simpl in Hnum. apply IH in Hk as (Hok' & new & -> & Hnew); [|intros; apply Hv2; lia|done| |done].
  - split; [done|]. exists (b :: new). rewrite <-app_assoc. split; [done|]. intros d.
    destruct (Hnew d) as [He Hs]. split; [|by rewrite Hs, Hs2].
    change (b :: new) with ([b] ++ new). rewrite executions_app, He, (executions_built _ _ d) with (2 := Hb)
      by (apply Hv2; simpl; lia).
    csimpl. cbn [pl_batch_digest build_payload]. destruct (decide (batch_digest q = d)) as [<-|Hne].
    + rewrite decide_False, decide_True by (done || by left). done.
    + destruct (decide (d ∈ batch_digest <$> collected)).
      * rewrite decide_True by (by right). done.
      * rewrite decide_False; [done|]. by intros [?|?]%elem_of_cons.
  - intros x Hx. apply Hd2; [|apply Hreg; by right]. intros Heq. apply Hq. rewrite <-Heq.
    apply list_elem_of_fmap. eauto.
Qed.

(** The fallback block counts for no batch. *)
Lemma fallback_executions (c : bool) h output dg blocks close p p' h' blocks' d :
  is_rayls_fork_active_at_block (activation spec) BatchDigestV2 (h_number h + 1) = true -> d <> 0 ->
  (if c then execute_empty_block spec clock h output dg blocks close else mret (h, blocks)) p =
    (p', Ret (h', blocks')) ->
  executed_batch_registry p' = executed_batch_registry p /\
  executions d blocks' = executions d blocks.
Proof.
  intros Hv2 Hd Hfb. destruct c; [|by injection Hfb as <- <- <-].
  apply execute_empty_block_Ret in Hfb as ([Hr _] & b & pl & Hb & Hpar & _ & Hdig & _ & -> & ->).
  split; [done|]. rewrite executions_app, (executions_built _ _ d) with (2 := Hb) by (by rewrite Hpar).
  rewrite Hdig, decide_False by done. lia.
Qed.

Lemma build_output_spent output parent p p' h blocks eob :
  current_rules (h_number parent) -> retries_ok (executed_batch_registry p) ->
  build_output spec block_gas_limit clock output parent p = (p', Ret (h, blocks, eob)) ->
  retries_ok (executed_batch_registry p') /\
  forall d, d <> 0 -> executions d blocks + spent (executed_batch_registry p) d =
                      spent (executed_batch_registry p') d.
Proof.
  intros Hrules Hok. unfold build_output.
  intros ([[[h1 drained] collected] v2] & p1 & Hcol & Hk)%st_bind_Ret.
  apply collect_output_Ret in Hcol as (Hv2 & Hc & _ & Hn).
  rewrite Hrules in Hv2 by (lia || set_solver). subst v2.
  destruct Hn as [-> Hthrough]; [apply Hrules; [lia|set_solver]|]. simpl in Hc. subst h1.
  specialize (Hthrough eq_refl).
  apply st_bind_Ret in Hk as (seed_v2 & p2 & Hseed & Hk).
  assert (p2 = p1) as ->.
  { destruct (close_epoch output); [by apply active_after_Ret in Hseed as [-> _]|by injection Hseed]. }
  apply st_bind_Ret in Hk as ([h2 blocks2] & p3 & Hex & Hk).
  pose proof (execute_collected_Ret _ _ _ _ _ _ _ _ _ _ _ Hex) as (new0 & _ & _ & Hch & _).
  destruct (fun d => let_through_spent _ _ _ d Hthrough Hok) with (d := 0) as [Hok1 _].
  apply execute_collected_spent in Hex as (Hok3 & new & -> & Hnew);
    [|intros n Hlt; apply Hrules; [lia|set_solver]|apply Hthrough| |done].
  2:{ intros q Hq. apply (lt_registered _ _ _ Hthrough). right. apply list_elem_of_fmap. eauto. }
  apply st_bind_Ret in Hk as (eob' & p4 & (-> & _)%active_after_Ret & Hk).
  apply st_bind_Ret in Hk as ([h3 blocks3] & p5 & Hfb & Hk). injection Hk as <- -> -> _.
  assert (Hv2 : is_rayls_fork_active_at_block (activation spec) BatchDigestV2 (h_number h2 + 1) = true).
  { apply chain_number in Hch. apply Hrules; [lia|set_solver]. }
  pose proof (fun d Hd => fallback_executions _ _ _ _ _ _ _ _ _ _ d Hv2 Hd Hfb) as Hfall.
  destruct (Hfall 1 ltac:(done)) as [-> _]. split; [done|]. intros d Hd.
  destruct (Hfall d Hd) as [_ ->], (Hnew d) as [He Hs].
  destruct (let_through_spent _ _ _ d Hthrough Hok) as [_ Hl]. simpl. rewrite He, Hs, Hl. lia.
Qed.

Lemma run_outputs_spent outputs parent p p' h blocks :
  current_rules (h_number parent) -> retries_ok (executed_batch_registry p) ->
  run_outputs outputs parent p = (p', Ret (h, blocks)) ->
  retries_ok (executed_batch_registry p') /\
  forall d, d <> 0 -> executions d blocks + spent (executed_batch_registry p) d =
                      spent (executed_batch_registry p') d.
Proof.
  revert parent p blocks. induction outputs as [|output outputs IH];
    intros parent p blocks Hrules Hok; cbn [run_outputs].
  { intros [= <- <- <-]. done. }
  intros ([h1 bs1] & p1 & Hex & Hk)%st_bind_Ret.
  pose proof (current_rules_step _ _ _ _ _ _ Hrules Hex) as Hrules'.
  apply execute_output_Ret in Hex as (p2 & Hb & Hr); [|intros n Hn; apply (Hrules n Hn); set_solver].
  destruct (build_output_spent _ _ _ _ _ _ _ Hrules Hok Hb) as [Hok2 Hs2]. rewrite <-Hr in Hok2, Hs2.
  apply st_bind_Ret in Hk as ([h3 rest] & p3 & Hrest & Hk). injection Hk as <- <- <-.
  apply IH in Hrest as [Hok3 Hs3]; [|done|done].
  split; [done|]. intros d Hd. simpl. rewrite executions_app. specialize (Hs2 d Hd).
  specialize (Hs3 d Hd). lia.
Qed.

(** Over any run of outputs under the current rules, starting with an
    empty registry, a batch is executed at most once more than the number of
    times its digest was given back for retry (every one of its transactions
    was nonce-too-high), and at most four times. *)
Theorem batch_executions_bounded outputs parent p p' h blocks d :
  current_rules (h_number parent) -> executed_batch_registry p = default_registry -> d <> 0 ->
  run_outputs outputs parent p = (p', Ret (h, blocks)) ->
  executions d blocks <= 1 + default 0 (retry_counts (executed_batch_registry p') !! d) /\
  executions d blocks <= 4.
Proof.
  intros Hrules Hreg Hd Hrun. assert (Hok : retries_ok (executed_batch_registry p)).
  { rewrite Hreg. intros x n Hx. simpl in Hx. by rewrite lookup_empty in Hx. }
  destruct (run_outputs_spent _ _ _ _ _ _ Hrules Hok Hrun) as [Hok' Hs]. specialize (Hs d Hd).
  rewrite Hreg in Hs. change (spent default_registry d) with 0 in Hs.
  assert (Hb : spent (executed_batch_registry p') d <=
               1 + default 0 (retry_counts (executed_batch_registry p') !! d)).
  { unfold spent. case_decide; lia. }
  assert (default 0 (retry_counts (executed_batch_registry p') !! d) <= 3).
  { destruct (_ !! d) as [n|] eqn:En; simpl; [|lia]. apply (Hok' d n En). }
  lia.
Qed.

End blocks.

(** ** Witnesses *)

(** An executor that includes every transaction. *)
#[local] Instance example_executor : BlockExecutor unit unit := {|
  check_persistence_completion := fun s => s;
  execute_block := fun s payload txs _ =>
    (s, Ret {| ex_gas_used := 21000 * Z.of_nat (length txs);
               ex_txs_empty := bool_decide (txs = []); ex_senders := [];
               ex_counts := {| nonce_too_high := 0; nonce_too_high_details := [] |};
               ex_hash := 1000 + h_number (parent_header payload) |});
  commit_blocks := fun s _ => s;
  finalize_block := fun s _ => (s, Ret tt)
|}.
#[local] Existing Instance example_crypto.
#[local] Instance example_hashes : OutputHashes := {|
  hash_sub_dag := fun cs l t => zsum cs + l + t;
  hash_consensus_header := fun p s n => p + s + n;
  keccak256_signature := fun s => s + 1
|}.

Definition example_spec : ChainSpec :=
  {| activation := fun _ => Block 0;
     fee_policy := {| min_base_fee := 7; base_fee_params := (8, 2) |};
     calc_next_block_base_fee := fun _ _ fee _ => fee;
     EMPTY_OMMER_ROOT_HASH := 1; EMPTY_REQUESTS_HASH := 2 |}.

Lemma example_rules n : 0 <= n -> current_rules example_spec n.
Proof.
  intros Hn m Hm f _. unfold is_rayls_fork_active_at_block. simpl. rewrite active_block.
  apply Z.leb_le. lia.
Qed.

Definition example_parent : SealedHeader :=
  {| h_hash := 500; h_parent_hash := 499; h_number := 10; h_nonce := 0; h_gas_used := 0;
     h_gas_limit := 30000000; h_base_fee_per_gas := Some 7; h_beneficiary := 0; h_timestamp := 0;
     h_mix_hash := 0; h_difficulty := 0; h_parent_beacon_block_root := None; h_ommers_hash := 0;
     h_requests_hash := None; h_extra_data := None; txs_empty := true |}.

(** The last output of an epoch: authority 7's batches with sequence numbers 3
    and 2, whose leader certificate is held with the given signature state. *)
Definition example_output (sig : SignatureVerificationState) : ConsensusOutput :=
  let c := {| header := example_header 1 2 []; signature_verification_state := sig;
              signed_authorities := ∅; cert_created_at := 0 |} in
  {| co_sub_dag := {| sd_certificates := [c]; sd_leader := c;
                      reputation_score := {| scores_per_authority := ∅; final_of_schedule := false |};
                      sd_commit_timestamp := 5 |};
     co_batches := [{| cb_address := 7; cb_batches := [example_batch 7 3; example_batch 7 2] |}];
     batch_digests := [103; 102]; parent_hash := 40; number := 9; extra := 0; close_epoch := true |}.

Definition example_processor : Processor unit :=
  {| reth_env := tt;
     gas_accumulator := {| ga_inner := [{| acc_blocks := 0; acc_gas_used := 0; acc_base_fee := 7 |}];
                           leader_counts := ∅; rewards_committee := Some example_committee |};
     executed_batch_registry := default_registry; batch_ordering := new_with_empty_state example_db;
     in_flight_tracker := InFlightTracker_new |}.

Definition example_run (o : ConsensusOutput) :=
  execute_output example_spec 30000000 (fun _ => 0) o example_parent example_processor.

Lemma output_blocks_correct_witness :
  exists p' h blocks, example_run (example_output Genesis) = (p', Ret (h, blocks)) /\
    chain example_parent blocks h /\ blocks <> [] /\ h_number example_parent < h_number h /\
    seeds blocks = [consensus_header_hash (example_output Genesis)].
Proof.
  destruct (example_run (example_output Genesis)) as [p' r] eqn:Erun.
  assert (Hr : exists h blocks, r = Ret (h, blocks)) by (vm_compute in Erun; injection Erun as _ <-; eauto).
  destruct Hr as (h & blocks & ->). exists p', h, blocks. split; [done|].
  apply (output_blocks_correct example_spec 30000000 (fun _ => 0) (example_output Genesis)
           example_parent example_processor p'); [apply example_rules; simpl; lia|exact Erun].
Defined.

Lemma certificate_variants_agree_witness :
  example_run (example_output Genesis) = example_run (example_output (VerifiedDirectly 8)).
Proof.
  exact (certificate_variants_agree example_spec 30000000 (fun _ => 0) (example_output Genesis)
           (example_output (VerifiedDirectly 8)) example_parent example_processor
           (example_rules 10 ltac:(lia)) ltac:(split; reflexivity)).
Defined.

Lemma batch_executions_bounded_witness :
  exists p' h blocks,
    run_outputs example_spec 30000000 (fun _ => 0) [example_output Genesis; example_output Genesis]
      example_parent example_processor = (p', Ret (h, blocks)) /\
    executions 103 blocks <= 1 + default 0 (retry_counts (executed_batch_registry p') !! 103) /\
    executions 103 blocks <= 4.
Proof.
  destruct (run_outputs example_spec 30000000 (fun _ => 0)
    [example_output Genesis; example_output Genesis] example_parent example_processor) as [p' r] eqn:Erun.
  assert (Hr : exists h blocks, r = Ret (h, blocks)) by (vm_compute in Erun; injection Erun as _ <-; eauto).
  destruct Hr as (h & blocks & ->). exists p', h, blocks. split; [done|].
  apply (batch_executions_bounded example_spec 30000000 (fun _ => 0)
           [example_output Genesis; example_output Genesis] example_parent example_processor p' h);
    [apply example_rules; simpl; lia|reflexivity|lia|exact Erun].
Defined.

Lemma normalize_authority_seq_order_correct_witness :
  let output := example_output Genesis in
  exists f' d', normalize_authority_seq_order (E := unit) (flatten_batches output)
                  (batch_digests output) (arc_of output) = Ret (f', d') /\
    length f' = length d' /\
    zip f' d' ≡ₚ zip (flatten_batches output) (batch_digests output) /\
    entry_authority (arc_of output) <$> zip f' d' =
      entry_authority (arc_of output) <$> zip (flatten_batches output) (batch_digests output) /\
    (forall a, StronglySorted (fun x y => entry_seq (arc_of output) x <= entry_seq (arc_of output) y)
                 (filter (held_by (arc_of output) a) (zip f' d'))) /\
    (forall a s, filter (fun e => entry_seq (arc_of output) e = s)
                   (filter (held_by (arc_of output) a) (zip f' d')) =
                 filter (fun e => entry_seq (arc_of output) e = s)
                   (filter (held_by (arc_of output) a)
                      (zip (flatten_batches output) (batch_digests output)))).
Proof. apply (normalize_authority_seq_order_correct (example_output Genesis)). reflexivity. Defined.

Definition example_context : BatchContext :=
  {| bc_batches := [(0%nat, 1%nat); (0%nat, 0%nat)]; arc_batches := arc_of (example_output Genesis);
     bc_digests := [102; 103] |}.

Lemma collect_executable_batches_correct_witness :
  exists o' reg' l,
    collect_executable_batches (E := unit) example_context
      {| oc_digest := 1; oc_nonce := 2; oc_timestamp := 3; oc_epoch := 0 |} true true 30000000
      (new_with_empty_state example_db) default_registry = Ret (o', reg', l) /\
    let_through default_registry reg' l /\ moves (new_with_empty_state example_db) o' /\
    ordering_ok o' /\ orderings_below_max o'.
Proof.
  apply collect_executable_batches_correct.
  - apply new_with_empty_state_ok.
  - intros a. unfold auth_of. simpl. rewrite lookup_empty. split; [done|]. intros s p Hp. vm_compute in Hp. done.
  - repeat constructor; eexists _, _; (split_and!; [reflexivity|reflexivity|..]; simpl; ulia).
  - simpl. lia.
Defined.
