(* ===== verification/EngineRestart.v ===== *)
(** * The registry of executed batches across a restart

    [reconstruct_batch_digests] of [middleware/processor/src/lib.rs] and
    [batch_txns_all_pending] of [execution/evm/src/reth_env/execution.rs]: what a
    restarted node knows about the batches it executed. The file follows what a
    run of outputs does to the registry block by block, shows that a batch
    takes effect at most once, and compares the rebuilt registry with that of a
    node that kept running. *)
From S2P Require Import Prelude Lists State Types Committee LeaderSchedule ConsensusState.
From S2P Require Import Hardforks BatchOrdering BatchOrderingProps InFlight Engine EngineProps EngineBlocks.
#[local] Open Scope Z_scope.

Definition DIGEST_RECONSTRUCTION_DEPTH : Z := 2000.

(** What the restarting node reads: canonical headers by number ([None] is an
    error of the provider), stored batches, and the latest state; decoding a
    transaction and recovering its signer are third-party code. *)
Record RestartView := {
  header_by_number : Z -> option (option SealedHeader);
  stored_batch : B256 -> option (option Batch);
  recover_transaction : Bytes -> option (Address * Z);
  latest_accounts : option (Address -> option (option Z))
}.

(** [batch_txns_all_pending] *)
Definition batch_txns_all_pending (v : RestartView) (txs : list Bytes) : bool :=
  match txs with
  | [] => false
  | _ =>
      match latest_accounts v with
      | None => false
      | Some account =>
          forallb (fun tx =>
            match recover_transaction v tx with
            | None => false
            | Some (sender, nonce) =>
                match account sender with
                | None => false
                | Some acc => negb (nonce <? default 0 acc)
                end
            end) txs
      end
  end.

(** Whether an empty block's batch is given back for retry. *)
Definition retryable (v : RestartView) (d : B256) : bool :=
  match stored_batch v d with
  | Some (Some b) => batch_txns_all_pending v (transactions b)
  | _ => false
  end.

(** The body of the loop for one header. *)
Definition reconstruct_header (v : RestartView) (r : ExecutedBatchRegistry) (h : SealedHeader) :
    ExecutedBatchRegistry :=
  let output_digest := default 0 (h_parent_beacon_block_root h) in
  if negb (h_mix_hash h =? output_digest) && negb (output_digest =? 0) then
    let batch_digest := Z.lxor (h_mix_hash h) output_digest in
    let r := (try_register r batch_digest).1 in
    if txs_empty h && retryable v batch_digest then (drop_digest r batch_digest).1 else r
  else r.

Fixpoint reconstruct_loop (v : RestartView) (nums : list Z) (r : ExecutedBatchRegistry) :
    ExecutedBatchRegistry :=
  match nums with
  | [] => r
  | n :: nums =>
      match header_by_number v n with
      | Some (Some h) => reconstruct_loop v nums (reconstruct_header v r h)
      | Some None => reconstruct_loop v nums r
      | None => r
      end
  end.

(** [reconstruct_batch_digests] *)
Definition reconstruct_batch_digests (v : RestartView) (tip : Z) : ExecutedBatchRegistry :=
  let start := Z.max 1 (sat_sub tip DIGEST_RECONSTRUCTION_DEPTH) in
  reconstruct_loop v (seqZ start (tip - start + 1)) default_registry.

(** ** What a block does to the registry *)

(** A batch was executed; [true] when all its transactions were nonce-too-high
    and its digest was given back. *)
Abbreviation BatchRun := (B256 * bool)%type.

Definition give_back (r : ExecutedBatchRegistry) (x : BatchRun) : ExecutedBatchRegistry :=
  if x.2 then (drop_digest r x.1).1 else r.
Definition record_run (r : ExecutedBatchRegistry) (x : BatchRun) : ExecutedBatchRegistry :=
  give_back (try_register r x.1).1 x.

Definition register_all (r : ExecutedBatchRegistry) (ds : list B256) : ExecutedBatchRegistry :=
  {| digests := digests r ∪ list_to_set ds; retry_counts := retry_counts r |}.

Lemma registry_eq r1 r2 : digests r1 = digests r2 -> retry_counts r1 = retry_counts r2 -> r1 = r2.
Proof. by destruct r1, r2; simpl; intros -> ->. Qed.

Lemma try_register_register r d : (try_register r d).1 = register_all r [d].
Proof. apply registry_eq; simpl; [set_solver|done]. Qed.

Lemma give_back_register r x ds :
  x.1 ∉ ds -> give_back (register_all r ds) x = register_all (give_back r x) ds.
Proof.
  intros Hd. unfold give_back. destruct x.2; [|done]. unfold drop_digest, register_all. simpl.
  case_match; [done|]. apply registry_eq; simpl; [set_solver|done].
Qed.

(** Registering the batches of an output first and executing them afterwards is
    the same as executing them one at a time. *)
Lemma give_back_all r xs :
  NoDup xs.*1 -> foldl give_back (register_all r xs.*1) xs = foldl record_run r xs.
Proof.
  revert r. induction xs as [|x xs IH]; intros r Hnd; csimpl; [by apply registry_eq; simpl; [set_solver|]|].
  csimpl in Hnd. apply NoDup_cons in Hnd as [Hx Hnd]. rewrite <-IH by done. f_equal.
  unfold record_run. rewrite try_register_register, <-give_back_register by done. f_equal.
  apply registry_eq; simpl; [set_solver|done].
Qed.

(** Every run finds its batch unregistered. *)
Fixpoint fresh_runs (r : ExecutedBatchRegistry) (xs : list BatchRun) : Prop :=
  match xs with
  | [] => True
  | x :: xs => x.1 ∉ digests r /\ fresh_runs (record_run r x) xs
  end.

Lemma record_run_other r x d : d <> x.1 -> d ∈ digests (record_run r x) <-> d ∈ digests r.
Proof.
  intros Hd. unfold record_run, give_back, try_register. destruct x.2; simpl; [|set_solver].
  unfold drop_digest. case_match; simpl; set_solver.
Qed.

Lemma record_run_retries r x d :
  d <> x.1 -> retry_counts (record_run r x) !! d = retry_counts r !! d.
Proof.
  intros Hd. unfold record_run, give_back, try_register. destruct x.2; simpl; [|done].
  unfold drop_digest. case_match; simpl; by rewrite lookup_insert_ne.
Qed.

Lemma fresh_runs_distinct r xs :
  NoDup xs.*1 -> (forall d, d ∈ xs.*1 -> d ∉ digests r) -> fresh_runs r xs.
Proof.
  revert r. induction xs as [|x xs IH]; intros r Hnd Hnew; csimpl; [done|]. csimpl in Hnd. csimpl in Hnew.
  apply NoDup_cons in Hnd as [Hx Hnd]. split; [apply Hnew; by left|]. apply IH; [done|].
  intros d Hd. rewrite record_run_other; [apply Hnew; by right|]. by intros ->.
Qed.

Lemma fresh_runs_app r xs ys :
  fresh_runs r (xs ++ ys) <-> fresh_runs r xs /\ fresh_runs (foldl record_run r xs) ys.
Proof. revert r. induction xs as [|x xs IH]; intros r; simpl; [tauto|]. rewrite IH. tauto. Qed.

(** A registered batch is not run. *)
Lemma registered_not_run r xs d : d ∈ digests r -> fresh_runs r xs -> d ∉ xs.*1.
Proof.
  revert r. induction xs as [|x xs IH]; intros r Hd; csimpl; [by intros _ Hx%elem_of_nil|].
  intros [Hx Hf] [->|Hin]%elem_of_cons; [done|]. apply (IH (record_run r x)); [|done|done].
  apply record_run_other; [|done]. by intros ->.
Qed.

(** ** The runs of a sequence of outputs *)

Section trace.
Context `{!Crypto, !OutputHashes, !ForkConditionApi}.
Context {S Er : Type} `{!BlockExecutor S Er}.
Context (spec : ChainSpec) (block_gas_limit : Z) (clock : SealedHeader -> Instant).

Abbreviation P := (Processor S).
Implicit Types (p : P) (h : SealedHeader) (b : ExecutedBlock) (blocks : list ExecutedBlock).

(** [b] is the block of the run [x] of a batch. *)
Definition block_run b (x : BatchRun) : Prop :=
  h_requests_hash (eb_header b) = Some x.1 /\
  (exists out, h_parent_beacon_block_root (eb_header b) = Some out /\
               h_mix_hash (eb_header b) = Z.lxor out x.1) /\
  exists s payload txs local s' ex,
    execute_block s payload txs local = (s', Ret ex) /\ txs_empty (eb_header b) = ex_txs_empty ex /\
    x.2 = (Z.of_nat (length txs) =? nonce_too_high (ex_counts ex)).

(** [b] is a block without a batch. *)
Definition fallback_block b : Prop :=
  h_requests_hash (eb_header b) = Some 0 /\
  h_parent_beacon_block_root (eb_header b) = Some (h_mix_hash (eb_header b)).

(** The blocks with the runs they stand for. *)
Inductive traced : list ExecutedBlock -> list BatchRun -> Prop :=
  | traced_nil : traced [] []
  | traced_run b x blocks xs : block_run b x -> traced blocks xs -> traced (b :: blocks) (x :: xs)
  | traced_fallback b blocks xs : fallback_block b -> traced blocks xs -> traced (b :: blocks) xs.

Lemma traced_app l1 xs1 l2 xs2 : traced l1 xs1 -> traced l2 xs2 -> traced (l1 ++ l2) (xs1 ++ xs2).
Proof. induction 1; intros Hl; simpl; [done|by constructor; auto|by constructor; auto]. Qed.

Lemma execute_prepared_batch_run pb h close blocks p p' h' counts blocks' :
  is_rayls_fork_active_at_block (activation spec) BatchDigestV2 (h_number h + 1) = true ->
  execute_prepared_batch spec clock pb h close blocks p = (p', Ret (h', counts, blocks')) ->
  executed_batch_registry p' = executed_batch_registry p /\
  exists b, h' = eb_header b /\ blocks' = blocks ++ [b] /\ h_number h' = h_number h + 1 /\
    block_run b (batch_digest pb,
                 Z.of_nat (length (transactions (pb_batch pb))) =? nonce_too_high counts).
Proof.
  intros Hv2. unfold execute_prepared_batch.
  intros (fee & p1 & (-> & _)%lift_Ret & Hk)%st_bind_Ret.
  apply st_bind_Ret in Hk as ([u bs] & p2 & Hp & Hk). unfold execute_payload in Hp.
  apply st_bind_Ret in Hp as (n & q1 & (-> & Hn)%lift_Ret & Hp). apply uadd_Ret in Hn as [-> _].
  apply st_bind_Ret in Hp as (x & q2 & (s & Hx & ->)%call_reth_Ret & [= <- <- <-]).
  apply st_bind_Ret in Hk as ([h1 c1] & p3 & Hset & Hk). unfold settle in Hset.
  injection Hset as <- <- <-.
  apply st_bind_Ret in Hk as (gas & p4 & [= <- <-] & Hk).
  apply st_bind_Ret in Hk as (gas1 & p5 & (-> & _)%lift_Ret & Hk).
  apply st_bind_Ret in Hk as (gas2 & p6 & (-> & _)%lift_Ret & Hk).
  injection Hk as <- <- <- <-. split; [done|]. eexists. split_and!; [|done| |].
  - done.
  - unfold assemble_block, resolve_batch_digest_fields. simpl. by rewrite Hv2.
  - unfold assemble_block, resolve_batch_digest_fields. simpl. rewrite Hv2. simpl. split_and!; [done| |].
    + by exists (output_digest pb).
    + eexists _, _, _, _, _, x. split_and!; [exact Hx|done|done].
Qed.

Lemma execute_collected_trace close_at close i collected h blocks p p' h' blocks' :
  (forall n, h_number h < n ->
     is_rayls_fork_active_at_block (activation spec) BatchDigestV2 n = true) ->
  execute_collected spec clock true close_at close i collected h blocks p = (p', Ret (h', blocks')) ->
  exists new xs, blocks' = blocks ++ new /\ traced new xs /\ xs.*1 = batch_digest <$> collected /\
    h_number h <= h_number h' /\
    executed_batch_registry p' = foldl give_back (executed_batch_registry p) xs.
Proof.
  revert i h blocks p. induction collected as [|q collected IH]; intros i h blocks p Hv2; cbn [execute_collected].
  { intros [= <- <- <-]. exists [], []. rewrite app_nil_r. split_and!; [done|constructor|done|lia|done]. }
  intros ([[h1 counts] bs] & p1 & Hb & Hk)%st_bind_Ret.
  apply execute_prepared_batch_run in Hb as (Hr1 & b & -> & -> & Hnum & Hrun); [|apply Hv2; lia].
  apply st_bind_Ret in Hk as ([] & p2 & Hdrop & Hk).
  apply IH in Hk as (new & xs & -> & Ht & Hxs & Hn & Hr); [|intros n Hlt; apply Hv2; lia].
  set (x := (batch_digest q, Z.of_nat (length (transactions (pb_batch q))) =? nonce_too_high counts)) in *.
  exists (b :: new), (x :: xs). rewrite <-app_assoc. csimpl. rewrite Hxs.
  split_and!; [done|by constructor|done|lia|]. rewrite Hr. f_equal. unfold give_back. cbn [andb] in Hdrop.
  change (Z.of_nat (length (transactions (pb_batch q))) =? nonce_too_high counts) with x.2 in Hdrop.
  destruct x.2; injection Hdrop as <-; simpl; by rewrite Hr1.
Qed.

Lemma fallback_trace (c : bool) h output blocks close p p' h' blocks' :
  is_rayls_fork_active_at_block (activation spec) BatchDigestV2 (h_number h + 1) = true ->
  (if c then execute_empty_block spec clock h output (consensus_header_hash output) blocks close
   else mret (h, blocks)) p = (p', Ret (h', blocks')) ->
  executed_batch_registry p' = executed_batch_registry p /\ h_number h <= h_number h' /\
  exists new, blocks' = blocks ++ new /\ traced new [].
Proof.
  intros Hv2. destruct c; [|intros [= <- <- <-]; split_and!; [done|lia|exists []; by rewrite app_nil_r; split; [|constructor]]].
  unfold execute_empty_block. intros (fee & p1 & (-> & _)%lift_Ret & Hk)%st_bind_Ret.
  apply st_bind_Ret in Hk as (gas & p2 & [= <- <-] & Hk).
  apply st_bind_Ret in Hk as (bene & p3 & Hok & Hk).
  assert (p3 = p) as -> by (unfold st_ok_or in Hok; destruct (get_authority_address _ _); by injection Hok).
  apply st_bind_Ret in Hk as ([u bs] & p4 & Hp & Hk).
  apply execute_payload_Ret in Hp as ([Hr _] & b & [x Hx] & Hu & ->).
  injection Hk as <- <- <-. rewrite Hu. unfold assemble_block, resolve_batch_digest_fields in Hx. simpl in Hx.
  rewrite Hv2 in Hx. split_and!; [done|rewrite Hx; simpl; lia|].
  exists [b]. split; [done|]. constructor; [|constructor]. unfold fallback_block. by rewrite Hx.
Qed.

(** What one output does to the registry. *)
Lemma execute_output_trace output parent p p' h blocks :
  current_rules spec (h_number parent) ->
  execute_output spec block_gas_limit clock output parent p = (p', Ret (h, blocks)) ->
  exists xs, traced blocks xs /\ fresh_runs (executed_batch_registry p) xs /\
    executed_batch_registry p' = foldl record_run (executed_batch_registry p) xs.
Proof.
  intros Hrules Hex.
  apply execute_output_Ret in Hex as (p1 & Hb & ->); [|intros n Hn; apply (Hrules n Hn); set_solver].
  unfold build_output in Hb.
  apply st_bind_Ret in Hb as ([[[h1 drained] collected] v2] & q1 & Hcol & Hk).
  apply collect_output_Ret in Hcol as (Hv2 & Hc & _ & Hn).
  rewrite Hrules in Hv2 by (lia || set_solver). subst v2.
  destruct Hn as [-> Hthrough]; [apply Hrules; [lia|set_solver]|]. simpl in Hc. subst h1.
  specialize (Hthrough eq_refl). destruct Hthrough as [Hnd Hnew Hreg Hret].
  apply st_bind_Ret in Hk as (seed_v2 & q2 & Hseed & Hk).
  assert (q2 = q1) as ->.
  { destruct (close_epoch output); [by apply active_after_Ret in Hseed as [-> _]|by injection Hseed]. }
  apply st_bind_Ret in Hk as ([h2 blocks2] & q3 & Hex & Hk).
  apply execute_collected_trace in Hex as (new & xs & -> & Ht & Hxs & Hn2 & Hr3);
    [|intros n Hlt; apply Hrules; [lia|set_solver]].
  apply st_bind_Ret in Hk as (eob' & q4 & (-> & _)%active_after_Ret & Hk).
  apply st_bind_Ret in Hk as ([h3 blocks3] & q5 & Hfb & Hk). injection Hk as <- -> -> _.
  apply fallback_trace in Hfb as (Hr5 & _ & new2 & -> & Ht2); [|apply Hrules; [lia|set_solver]].
  exists xs. rewrite <-Hxs in Hnd. rewrite Hr5, Hr3. split_and!.
  - rewrite <-(app_nil_r xs). by apply traced_app.
  - apply fresh_runs_distinct; [done|]. rewrite Hxs. intros d (q & -> & Hq)%list_elem_of_fmap. by apply Hnew.
  - rewrite <-give_back_all by done. f_equal. apply registry_eq; [|done]. apply set_eq. intros d.
    rewrite Hreg, Hxs. simpl. set_solver.
Qed.

Lemma run_outputs_trace outputs parent p p' h blocks :
  current_rules spec (h_number parent) ->
  run_outputs spec block_gas_limit clock outputs parent p = (p', Ret (h, blocks)) ->
  exists xs, traced blocks xs /\ fresh_runs (executed_batch_registry p) xs /\
    executed_batch_registry p' = foldl record_run (executed_batch_registry p) xs.
Proof.
  revert parent p blocks. induction outputs as [|output outputs IH]; intros parent p blocks Hrules; cbn [run_outputs].
  { intros [= <- <- <-]. exists []. by split_and!; [constructor|..]. }
  intros ([h1 bs1] & p1 & Hex & Hk)%st_bind_Ret.
  pose proof (current_rules_step _ _ _ _ _ _ _ _ _ Hrules Hex) as Hrules'.
  apply execute_output_trace in Hex as (xs1 & Ht1 & Hf1 & Hr1); [|done].
  apply st_bind_Ret in Hk as ([h3 rest] & p3 & Hrest & Hk). injection Hk as <- <- <-.
  apply IH in Hrest as (xs2 & Ht2 & Hf2 & Hr2); [|done].
  exists (xs1 ++ xs2). split_and!; [by apply traced_app| |].
  - apply fresh_runs_app. by rewrite <-Hr1.
  - by rewrite foldl_app, <-Hr1.
Qed.

(** ** A batch takes effect once *)

Lemma traced_split l1 b l2 xs d :
  traced (l1 ++ b :: l2) xs -> h_requests_hash (eb_header b) = Some d -> d <> 0 ->
  exists xs1 x xs2, xs = xs1 ++ x :: xs2 /\ traced l2 xs2 /\ block_run b x /\ x.1 = d.
Proof.
  revert xs. induction l1 as [|c l1 IH]; intros xs Ht Hb Hd; inversion Ht as [|? x ? xs' Hrun Hrest|? ? ? Hfb Hrest]; subst.
  - exists [], x, xs'. split_and!; [done..|]. destruct Hrun as [Hx _]. congruence.
  - destruct Hfb as [Hx _]. congruence.
  - destruct (IH _ Hrest Hb Hd) as (xs1 & y & xs2 & -> & ? & ? & ?). by exists (x :: xs1), y, xs2.
  - by apply IH.
Qed.

Lemma traced_digest l xs b d :
  traced l xs -> b ∈ l -> h_requests_hash (eb_header b) = Some d -> d <> 0 -> d ∈ xs.*1.
Proof.
  intros Ht (l1 & l2 & ->)%list_elem_of_split Hb Hd.
  destruct (traced_split _ _ _ _ _ Ht Hb Hd) as (xs1 & x & xs2 & -> & _ & _ & <-).
  rewrite fmap_app. csimpl. set_solver.
Qed.

(** The executor counts a transaction as nonce-too-high only when it leaves it
    out of the block. *)
Definition counts_left_out : Prop :=
  forall s payload txs local s' x, execute_block s payload txs local = (s', Ret x) ->
    ex_txs_empty x = false -> nonce_too_high (ex_counts x) <> Z.of_nat (length txs).

Lemma effect_registered outputs parent p p' h l1 b l2 d :
  counts_left_out -> current_rules spec (h_number parent) ->
  run_outputs spec block_gas_limit clock outputs parent p = (p', Ret (h, l1 ++ b :: l2)) ->
  d <> 0 -> h_requests_hash (eb_header b) = Some d -> txs_empty (eb_header b) = false ->
  d ∈ digests (executed_batch_registry p') /\
  exists xs, traced l2 xs /\ d ∉ xs.*1.
Proof.
  intros Hlaw Hrules Hrun Hd Hb He.
  apply run_outputs_trace in Hrun as (xs & Ht & Hf & ->); [|done].
  destruct (traced_split _ _ _ _ _ Ht Hb Hd) as (xs1 & x & xs2 & -> & Ht2 & Hbx & <-).
  apply fresh_runs_app in Hf as [_ [_ Hf]]. rewrite foldl_app. simpl.
  set (r := foldl record_run _ xs1) in *.
  assert (Hx : x.1 ∈ digests (record_run r x)).
  { destruct Hbx as (_ & _ & s & pl & txs & loc & s' & ex & Hex & Hem & Hx2). rewrite Hem in He.
    pose proof (Hlaw _ _ _ _ _ _ Hex He). unfold record_run, give_back. rewrite Hx2.
    destruct (Z.eqb_spec (Z.of_nat (length txs)) (nonce_too_high (ex_counts ex))); [congruence|].
    simpl. set_solver. }
  pose proof (registered_not_run _ _ _ Hx Hf) as Hnot. split; [|by exists xs2].
  clear - Hx Hf Hnot. revert Hx Hf Hnot. generalize (record_run r x). generalize x.1. clear r x.
  induction xs2 as [|y ys IH]; intros d r Hd Hf Hnot; simpl; [done|]. csimpl in Hnot.
  destruct Hf as [_ Hf]. apply IH; [|done|set_solver]. apply record_run_other; [set_solver|done].
Qed.

(** C30: A batch takes effect at most once: over any run of outputs under the
    current rules, once a block built for a batch includes one of its
    transactions, its digest stays registered and no later block is built for
    the batch, however often it is committed or given back for retry before. *)
Theorem batch_takes_effect_once outputs parent p p' h l1 b l2 d :
  counts_left_out -> current_rules spec (h_number parent) ->
  run_outputs spec block_gas_limit clock outputs parent p = (p', Ret (h, l1 ++ b :: l2)) ->
  d <> 0 -> h_requests_hash (eb_header b) = Some d -> txs_empty (eb_header b) = false ->
  d ∈ digests (executed_batch_registry p') /\
  Forall (fun b' => h_requests_hash (eb_header b') <> Some d) l2.
Proof.
  intros Hlaw Hrules Hrun Hd Hb He.
  destruct (effect_registered _ _ _ _ _ _ _ _ _ Hlaw Hrules Hrun Hd Hb He) as (Hreg & xs & Ht & Hx).
  split; [done|]. apply Forall_forall. intros b' Hb' Hd'. apply Hx. by eapply traced_digest.
Qed.

(** ** The registry of a restarted node *)

Lemma run_outputs_chain outputs parent p p' h blocks :
  current_rules spec (h_number parent) ->
  run_outputs spec block_gas_limit clock outputs parent p = (p', Ret (h, blocks)) ->
  chain parent blocks h.
Proof.
  revert parent p blocks. induction outputs as [|output outputs IH]; intros parent p blocks Hrules; cbn [run_outputs].
  { by intros [= <- <- <-]. }
  intros ([h1 bs1] & p1 & Hex & Hk)%st_bind_Ret.
  pose proof (current_rules_step _ _ _ _ _ _ _ _ _ Hrules Hex) as Hrules'.
  apply st_bind_Ret in Hk as ([h3 rest] & p3 & Hrest & Hk). injection Hk as <- <- <-.
  apply IH in Hrest; [|done]. simpl. eapply chain_app; [|exact Hrest].
  apply execute_output_Ret in Hex as (p2 & Hb & _); [|intros n Hn; apply (Hrules n Hn); set_solver].
  apply build_output_Ret in Hb as (_ & dr & own & h2 & -> & Hc & _ & _ & [Hc' _ _]);
    [|intros n Hn; apply (Hrules n Hn); set_solver]. by eapply chain_app.
Qed.

Lemma chain_split h l1 b l2 h' :
  chain h (l1 ++ b :: l2) h' ->
  h_number (eb_header b) = h_number h + Z.of_nat (length l1) + 1 /\ chain (eb_header b) l2 h'.
Proof.
  revert h. induction l1 as [|c l1 IH]; intros h; simpl; [intros (_ & ? & ?); split; [lia|done]|].
  intros (_ & Hn & Hc). destruct (IH _ Hc). split; [lia|done].
Qed.

(** The digest a block of a run stands for, read back from its header. *)
Lemma reconstruct_run v r b x d :
  block_run b x ->
  (x.1 <> d -> d ∈ digests r -> d ∈ digests (reconstruct_header v r (eb_header b))) /\
  (x.1 = d -> d <> 0 -> txs_empty (eb_header b) = false ->
   h_parent_beacon_block_root (eb_header b) <> Some 0 ->
   d ∈ digests (reconstruct_header v r (eb_header b))).
Proof.
  intros (_ & (out & Hroot & Hmix) & _). unfold reconstruct_header. rewrite Hroot, Hmix. simpl.
  assert (Hx : Z.lxor (Z.lxor out x.1) out = x.1).
  { by rewrite (Z.lxor_comm out), Z.lxor_assoc, Z.lxor_nilpotent, Z.lxor_0_r. }
  rewrite Hx. split.
  - intros Hne Hd. destruct (negb _ && _); [|done].
    destruct (txs_empty _ && _); simpl; [|set_solver]. unfold drop_digest. case_match; simpl; set_solver.
  - intros <- Hd He Ho. rewrite He. simpl.
    destruct (Z.eqb_spec (Z.lxor out x.1) out) as [Heq|_].
    { destruct Hd. rewrite <-Hx, Heq. apply Z.lxor_nilpotent. }
    destruct (Z.eqb_spec out 0); [congruence|]. simpl. set_solver.
Qed.

Lemma reconstruct_fallback v r b : fallback_block b -> reconstruct_header v r (eb_header b) = r.
Proof. intros [_ Hroot]. unfold reconstruct_header. rewrite Hroot. simpl. by rewrite Z.eqb_refl. Qed.

(** What the node reads agrees with the blocks it executed. *)
Definition reads_chain (v : RestartView) (tip : Z) blocks : Prop :=
  (forall n, 1 <= n <= tip -> header_by_number v n <> None) /\
  Forall (fun b => header_by_number v (h_number (eb_header b)) = Some (Some (eb_header b))) blocks.

Lemma reconstruct_loop_app v ns1 ns2 r :
  (forall n, n ∈ ns1 -> header_by_number v n <> None) ->
  exists r', reconstruct_loop v (ns1 ++ ns2) r = reconstruct_loop v ns2 r'.
Proof.
  revert r. induction ns1 as [|n ns1 IH]; intros r Hn; simpl; [by exists r|].
  destruct (header_by_number v n) as [[h|]|] eqn:E; [apply IH; set_solver..|].
  destruct (Hn n ltac:(set_solver) E).
Qed.

(** The blocks after a batch that took effect leave its digest registered. *)
Lemma reconstruct_keeps v l xs h h' r d :
  chain h l h' -> traced l xs -> d ∉ xs.*1 -> d ∈ digests r ->
  Forall (fun b => header_by_number v (h_number (eb_header b)) = Some (Some (eb_header b))) l ->
  d ∈ digests (reconstruct_loop v (seqZ (h_number h + 1) (h_number h' - h_number h)) r).
Proof.
  intros Hc Ht. revert h r Hc. induction Ht as [|b x l xs Hrun Ht IH|b l xs Hfb Ht IH];
    intros h r Hc Hx Hd Hv; simpl in Hc.
  - subst h'. by rewrite Z.sub_diag.
  - destruct Hc as (_ & Hn & Hc). pose proof (chain_number _ _ _ Hc). csimpl in Hx.
    apply Forall_cons in Hv as [Hb Hv].
    rewrite seqZ_cons by lia. simpl. rewrite <-Hn, Hb.
    replace (Z.succ (h_number (eb_header b))) with (h_number (eb_header b) + 1) by lia.
    replace (Z.pred (h_number h' - h_number h)) with (h_number h' - h_number (eb_header b)) by lia.
    apply not_elem_of_cons in Hx as [Hxd Hx].
    apply IH; [done|done| |done]. destruct (reconstruct_run v r b x d Hrun) as [Hk _]. apply Hk; [congruence|done].
  - destruct Hc as (_ & Hn & Hc). pose proof (chain_number _ _ _ Hc).
    apply Forall_cons in Hv as [Hb Hv].
    rewrite seqZ_cons by lia. simpl. rewrite <-Hn, Hb, (reconstruct_fallback v r b Hfb).
    replace (Z.succ (h_number (eb_header b))) with (h_number (eb_header b) + 1) by lia.
    replace (Z.pred (h_number h' - h_number h)) with (h_number h' - h_number (eb_header b)) by lia.
    by apply IH.
Qed.

(** A restart does not forget a batch that took effect in the last 2000
    blocks: the registry rebuilt from the chain contains the digest of every
    batch with a transaction in a block of that window, so the restarted node
    does not execute it again. *)
Theorem restart_keeps_effects v outputs parent p p' h l1 b l2 d :
  counts_left_out -> current_rules spec (h_number parent) -> 0 <= h_number parent ->
  run_outputs spec block_gas_limit clock outputs parent p = (p', Ret (h, l1 ++ b :: l2)) ->
  d <> 0 -> h_requests_hash (eb_header b) = Some d -> txs_empty (eb_header b) = false ->
  h_parent_beacon_block_root (eb_header b) <> Some 0 ->
  reads_chain v (h_number h) (l1 ++ b :: l2) ->
  h_number h - DIGEST_RECONSTRUCTION_DEPTH <= h_number (eb_header b) ->
  contains (reconstruct_batch_digests v (h_number h)) d = true.
Proof.
  intros Hlaw Hrules Hpos Hrun Hd Hb He Hroot [Hread Hv] Hwin. apply bool_decide_eq_true_2.
  destruct (effect_registered _ _ _ _ _ _ _ _ _ Hlaw Hrules Hrun Hd Hb He) as (_ & xs2 & Ht2 & Hx).
  pose proof (run_outputs_chain _ _ _ _ _ _ Hrules Hrun) as Hc.
  apply run_outputs_trace in Hrun as (xs & Ht & _); [|done].
  destruct (traced_split _ _ _ _ _ Ht Hb Hd) as (_ & x & _ & _ & _ & Hbx & Hxd). clear Ht xs.
  destruct (chain_split _ _ _ _ _ Hc) as [Hnum Hc2]. pose proof (chain_number _ _ _ Hc2) as Htip.
  apply Forall_app in Hv as [_ [Hvb Hv2]%Forall_cons].
  unfold reconstruct_batch_digests. set (start := Z.max 1 _).
  assert (Hs : 1 <= start <= h_number (eb_header b))
    by (unfold start, sat_sub, DIGEST_RECONSTRUCTION_DEPTH in *; lia).
  replace (h_number h - start + 1) with
    ((h_number (eb_header b) - start) + (1 + (h_number h - h_number (eb_header b)))) by lia.
  rewrite seqZ_app by lia.
  destruct (reconstruct_loop_app v (seqZ start (h_number (eb_header b) - start))
    (seqZ (start + (h_number (eb_header b) - start)) (1 + (h_number h - h_number (eb_header b))))
    default_registry) as [r ->].
  { intros n Hn%elem_of_seqZ. apply Hread. lia. }
  replace (start + (h_number (eb_header b) - start)) with (h_number (eb_header b)) by lia.
  rewrite seqZ_cons by lia. simpl. rewrite Hvb.
  replace (Z.succ (h_number (eb_header b))) with (h_number (eb_header b) + 1) by lia.
  replace (Z.pred (1 + (h_number h - h_number (eb_header b)))) with
    (h_number h - h_number (eb_header b)) by lia.
  eapply reconstruct_keeps; [done|done|done| |done]. by apply (reconstruct_run v r b x d Hbx).
Qed.

End trace.

(** ** Witnesses *)

#[local] Existing Instance example_executor.
#[local] Existing Instance example_hashes.
#[local] Existing Instance example_crypto.

Lemma example_counts_left_out : counts_left_out (S := unit) (Er := unit).
Proof.
  intros s payload txs local s' x [= <- <-]. simpl. intros Htxs%bool_decide_eq_false_1.
  destruct txs; [done|]. simpl. lia.
Qed.

Abbreviation example_effects :=
  (run_outputs example_spec 30000000 (fun _ => 0) [example_output Genesis] example_parent
     example_processor).

Lemma batch_takes_effect_once_witness :
  exists p' h b l2, example_effects = (p', Ret (h, [] ++ b :: l2)) /\
    102 ∈ digests (executed_batch_registry p') /\
    Forall (fun b' => h_requests_hash (eb_header b') <> Some 102) l2.
Proof.
  assert (Hrun : exists p' h b l2, example_effects = (p', Ret (h, [] ++ b :: l2)) /\
            h_requests_hash (eb_header b) = Some 102 /\ txs_empty (eb_header b) = false)
    by (eexists _, _, _, _; simpl; split_and!; [vm_compute; reflexivity|reflexivity|reflexivity]).
  destruct Hrun as (p' & h & b & l2 & Hrun & Hb & He). exists p', h, b, l2. split; [exact Hrun|].
  apply (batch_takes_effect_once example_spec 30000000 (fun _ => 0) [example_output Genesis]
           example_parent example_processor p' h [] b l2 102 example_counts_left_out
           (example_rules 10 ltac:(lia)) Hrun ltac:(lia) Hb He).
Defined.

(** The node of the example reads its own blocks. *)
Definition view_of (first : Z) (blocks : list ExecutedBlock) (stored : gmap B256 Batch) (account_nonce : Z) :
    RestartView :=
  {| header_by_number := fun n => Some (if n <? first then None else eb_header <$> blocks !! Z.to_nat (n - first));
     stored_batch := fun d => Some (stored !! d);
     recover_transaction := fun tx => match tx with [n] => Some (0, n) | _ => None end;
     latest_accounts := Some (fun _ => Some (Some account_nonce)) |}.

Lemma view_reads first blocks h h' stored n tip :
  chain h blocks h' -> first = h_number h + 1 -> reads_chain (view_of first blocks stored n) tip blocks.
Proof.
  intros Hc ->. split; [done|]. apply Forall_lookup. intros i b Hi. simpl.
  assert (Hn : h_number (eb_header b) = h_number h + 1 + Z.of_nat i).
  { rewrite <-(take_drop_middle _ _ _ Hi) in Hc. apply chain_split in Hc as [-> _].
    rewrite length_take. apply lookup_lt_Some in Hi. lia. }
  rewrite Hn. destruct (Z.ltb_spec (h_number h + 1 + Z.of_nat i) (h_number h + 1)); [lia|].
  replace (Z.to_nat _) with i by lia. by rewrite Hi.
Qed.

Lemma restart_keeps_effects_witness :
  exists p' h b l2, example_effects = (p', Ret (h, [] ++ b :: l2)) /\
    contains (reconstruct_batch_digests (view_of 11 ([] ++ b :: l2) ∅ 0) (h_number h)) 102 = true.
Proof.
  assert (Hrun : exists p' h b l2, example_effects = (p', Ret (h, [] ++ b :: l2)) /\
            (h_requests_hash (eb_header b) = Some 102 /\ txs_empty (eb_header b) = false /\
             h_parent_beacon_block_root (eb_header b) = Some 4056) /\
            h_number h = 12 /\ h_number (eb_header b) = 11)
    by (eexists _, _, _, _; simpl; split_and!; [vm_compute; reflexivity|reflexivity..]).
  destruct Hrun as (p' & h & b & l2 & Hrun & (Hb & He & Hroot) & Hh & Hn).
  exists p', h, b, l2. split; [exact Hrun|].
  apply (restart_keeps_effects example_spec 30000000 (fun _ => 0) (view_of 11 ([] ++ b :: l2) ∅ 0)
           [example_output Genesis] example_parent example_processor p' h [] b l2 102
           example_counts_left_out (example_rules 10 ltac:(lia)) ltac:(simpl; lia) Hrun ltac:(lia) Hb He).
  - rewrite Hroot. done.
  - apply (view_reads 11 _ example_parent h); [|reflexivity].
    apply (run_outputs_chain example_spec 30000000 (fun _ => 0) [example_output Genesis] example_parent
             example_processor p'); [apply (example_rules 10); lia|exact Hrun].
  - rewrite Hh, Hn. unfold DIGEST_RECONSTRUCTION_DEPTH. lia.
Defined.

(** ** A retry that a restart forgets *)

(** One account: a transaction is its nonce, included when it is the account's,
    left out as nonce-too-high above it and skipped below. *)
Definition nonce_step (st : Z * Z * Z) (tx : Bytes) : Z * Z * Z :=
  let '(account, included, high) := st in
  match tx with
  | [n] => if n =? account then (account + 1, included + 1, high)
           else if account <? n then (account, included, high + 1) else st
  | _ => st
  end.

Definition nonce_executor : BlockExecutor Z unit := {|
  check_persistence_completion := fun s => s;
  execute_block := fun s payload txs _ =>
    let '(account, included, high) := foldl nonce_step (s, 0, 0) txs in
    (account,
     Ret {| ex_gas_used := 21000 * included; ex_txs_empty := included =? 0; ex_senders := [];
            ex_counts := {| nonce_too_high := high; nonce_too_high_details := [] |};
            ex_hash := 1000 + h_number (parent_header payload) |});
  commit_blocks := fun s _ => s;
  finalize_block := fun s _ => (s, Ret tt)
|}.

(** The leader of [r] commits one batch of authority 7. *)
Definition retry_output (r s d : Z) (txs : list Bytes) : ConsensusOutput :=
  let c := {| header := example_header 1 r []; signature_verification_state := Genesis;
              signed_authorities := ∅; cert_created_at := 0 |} in
  {| co_sub_dag := {| sd_certificates := [c]; sd_leader := c;
                      reputation_score := {| scores_per_authority := ∅; final_of_schedule := false |};
                      sd_commit_timestamp := r |};
     co_batches := [{| cb_address := 7;
                       cb_batches := [{| transactions := txs; b_epoch := 0; b_beneficiary := 7;
                                         base_fee_per_gas := 7; b_worker_id := 0; seq := s;
                                         received_at := None |}] |}];
     batch_digests := [d]; parent_hash := 40; number := r; extra := 0; close_epoch := false |}.

Definition retry_batch : Batch :=
  {| transactions := [[1]]; b_epoch := 0; b_beneficiary := 7; base_fee_per_gas := 7; b_worker_id := 0;
     seq := 1; received_at := None |}.

Definition retry_processor : Processor Z :=
  {| reth_env := 0; gas_accumulator := gas_accumulator example_processor;
     executed_batch_registry := default_registry; batch_ordering := batch_ordering example_processor;
     in_flight_tracker := InFlightTracker_new |}.

Abbreviation retry_run :=
  (run_outputs (BlockExecutor0 := nonce_executor) example_spec 30000000 (fun _ => 0)).

(** A retry that a restart forgets. Batch 201 holds a transaction with
    nonce 1 of an account at nonce 0: it is executed as nonce-too-high and its
    digest given back. Another batch then brings the account to nonce 2. A node
    that keeps running has 201 unregistered and executes it when it is
    committed again; a node that restarts in between finds its transaction
    mined, keeps 201 registered and drops it. From the same chain and the same
    output they build different blocks. *)
Theorem restart_forgets_retry :
  exists p h blocks,
    retry_run [retry_output 2 1 201 [[1]]; retry_output 4 2 202 [[0]; [1]]] example_parent
      retry_processor = (p, Ret (h, blocks)) /\
    let v := view_of 11 blocks {[201 := retry_batch]} (reth_env p) in
    let restarted := set_registry p (reconstruct_batch_digests v (h_number h)) in
    reads_chain v (h_number h) blocks /\
    exists p1 h1 b1 p2 h2 b2,
      retry_run [retry_output 6 1 201 [[1]]] h p = (p1, Ret (h1, b1)) /\
      retry_run [retry_output 6 1 201 [[1]]] h restarted = (p2, Ret (h2, b2)) /\
      h_requests_hash h1 = Some 201 /\ h_requests_hash h2 = Some 0.
Proof.
  assert (Hrun : exists p h blocks,
    retry_run [retry_output 2 1 201 [[1]]; retry_output 4 2 202 [[0]; [1]]] example_parent
      retry_processor = (p, Ret (h, blocks)) /\
    let v := view_of 11 blocks {[201 := retry_batch]} (reth_env p) in
    exists p1 h1 b1 p2 h2 b2,
      retry_run [retry_output 6 1 201 [[1]]] h p = (p1, Ret (h1, b1)) /\
      retry_run [retry_output 6 1 201 [[1]]] h
        (set_registry p (reconstruct_batch_digests v (h_number h))) = (p2, Ret (h2, b2)) /\
      h_requests_hash h1 = Some 201 /\ h_requests_hash h2 = Some 0).
  { eexists _, _, _. split; [vm_compute; reflexivity|]. cbv zeta. eexists _, _, _, _, _, _.
    split_and!; [vm_compute; reflexivity|vm_compute; reflexivity|reflexivity|reflexivity]. }
  destruct Hrun as (p & h & blocks & Hrun & Hnext). exists p, h, blocks. split; [exact Hrun|].
  split; [|exact Hnext]. apply (view_reads 11 _ example_parent h); [|reflexivity].
  eapply (run_outputs_chain (BlockExecutor0 := nonce_executor)); [|exact Hrun].
  apply (example_rules 10). lia.
Qed.
