(* ===== verification/EngineLoop.v ===== *)
(** * The execution engine's loop

    [ExecutorEngine] of [middleware/processor/src/lib.rs]: the future that
    takes consensus outputs from its channel, drops duplicates and stale
    deliveries, halts on a fork, queues what it admits and executes the queue
    one output at a time on a blocking thread. A call of [poll] is a sequence of
    steps; the channel, the shutdown notice and the blocking thread act between
    any two of them. The path that delivered an output and the batch tracker
    only feed logs and metrics; [max_round] is compiled for tests only. *)
From S2P Require Import Prelude Lists State Types Committee LeaderSchedule ConsensusState.
From S2P Require Import Hardforks BatchOrdering BatchOrderingProps InFlight Engine EngineBlocks.
#[local] Open Scope Z_scope.

Definition MAX_QUEUED_OUTPUTS : nat := 100.

Record LastAdmitted := {
  la_position : Epoch * Round;
  la_subdag_digest : B256;
  la_number : Z
}.

(** [Ord] on pairs. *)
Definition position_cmp (a b : Epoch * Round) : comparison :=
  match a.1 ?= b.1 with Eq => a.2 ?= b.2 | c => c end.

(** The [(epoch, leader_round)] of a sub-DAG. *)
Definition sub_dag_position (s : CommittedSubDag) : Epoch * Round :=
  (cert_epoch (sd_leader s), cert_round (sd_leader s)).
Definition position (o : ConsensusOutput) : Epoch * Round := sub_dag_position (co_sub_dag o).

(** The mpsc channel as its receiver sees it. *)
Record Channel := { messages : list ConsensusOutput; closed : bool }.

(** Where a call of [poll] stands: [Suspended] between two calls. *)
Inductive Pc (Er : Type) :=
  | Suspended
  | AtLoop
  | AtTask
  | AtReceiver
  | Finished (r : Exec (RLEngineError Er) unit).
Arguments Suspended {Er}.
Arguments AtLoop {Er}.
Arguments AtTask {Er}.
Arguments AtReceiver {Er}.
Arguments Finished {Er} r.

(** The oneshot channel of an execution task: nothing sent yet, its result, or
    the sender dropped without one. *)
Inductive TaskState (Er : Type) :=
  | Running
  | Sent (r : Exec (RLEngineError Er) SealedHeader)
  | Torn.
Arguments Running {Er}.
Arguments Sent {Er} r.
Arguments Torn {Er}.

(** A spawned task: the output and the parent header its thread holds, and the
    receiver with the anchor that the engine keeps. *)
Record PendingTask (Er : Type) := {
  pt_job : option (ConsensusOutput * SealedHeader);
  pt_state : TaskState Er;
  pt_number : Z;
  pt_anchor : option ConsensusHeader
}.
Arguments pt_job {Er}.
Arguments pt_state {Er}.
Arguments pt_number {Er}.
Arguments pt_anchor {Er}.

Record ExecutorEngine (S Er : Type) := {
  queued : list ConsensusOutput;
  pending_task : option (PendingTask Er);
  consensus_output_stream : Channel;
  en_parent_header : SealedHeader;
  rx_shutdown : bool;
  last_admitted : option LastAdmitted;
  processor : Processor S;
  executed_anchor_tx : option ConsensusHeader;
  engine_idle_tx : option bool;
  shutdown_requested : bool
}.
Arguments queued {S Er}.
Arguments pending_task {S Er}.
Arguments consensus_output_stream {S Er}.
Arguments en_parent_header {S Er}.
Arguments rx_shutdown {S Er}.
Arguments last_admitted {S Er}.
Arguments processor {S Er}.
Arguments executed_anchor_tx {S Er}.
Arguments engine_idle_tx {S Er}.
Arguments shutdown_requested {S Er}.

(** The engine as a task of the runtime: where its future stands, the wakers
    the current call of [poll] has registered, and whether one has fired. *)
Record EngineTask (S Er : Type) := {
  engine : ExecutorEngine S Er;
  pc : Pc Er;
  stream_waker : bool;
  task_waker : bool;
  woken : bool
}.
Arguments engine {S Er}.
Arguments pc {S Er}.
Arguments stream_waker {S Er}.
Arguments task_waker {S Er}.
Arguments woken {S Er}.

Section engine.
Context `{!Crypto, !OutputHashes, !ForkConditionApi}.
Context {S Er : Type} `{!BlockExecutor S Er}.
Context (spec : ChainSpec) (block_gas_limit : Z) (clock : SealedHeader -> Instant).

Abbreviation Engine := (ExecutorEngine S Er).
Abbreviation Task := (EngineTask S Er).
Implicit Types (e : Engine) (w : Task) (o : ConsensusOutput).

(** Updates of one field. *)
Definition set_queued e (x : list ConsensusOutput) : Engine :=
  {| queued := x; pending_task := pending_task e;
     consensus_output_stream := consensus_output_stream e;
     en_parent_header := en_parent_header e; rx_shutdown := rx_shutdown e;
     last_admitted := last_admitted e; processor := processor e;
     executed_anchor_tx := executed_anchor_tx e; engine_idle_tx := engine_idle_tx e;
     shutdown_requested := shutdown_requested e |}.
Definition set_pending e (x : option (PendingTask Er)) : Engine :=
  {| queued := queued e; pending_task := x;
     consensus_output_stream := consensus_output_stream e;
     en_parent_header := en_parent_header e; rx_shutdown := rx_shutdown e;
     last_admitted := last_admitted e; processor := processor e;
     executed_anchor_tx := executed_anchor_tx e; engine_idle_tx := engine_idle_tx e;
     shutdown_requested := shutdown_requested e |}.
Definition set_stream e (x : Channel) : Engine :=
  {| queued := queued e; pending_task := pending_task e; consensus_output_stream := x;
     en_parent_header := en_parent_header e; rx_shutdown := rx_shutdown e;
     last_admitted := last_admitted e; processor := processor e;
     executed_anchor_tx := executed_anchor_tx e; engine_idle_tx := engine_idle_tx e;
     shutdown_requested := shutdown_requested e |}.
Definition set_executed e (x : SealedHeader) : Engine :=
  {| queued := queued e; pending_task := pending_task e;
     consensus_output_stream := consensus_output_stream e; en_parent_header := x;
     rx_shutdown := rx_shutdown e; last_admitted := last_admitted e; processor := processor e;
     executed_anchor_tx := executed_anchor_tx e; engine_idle_tx := engine_idle_tx e;
     shutdown_requested := shutdown_requested e |}.
Definition set_notice e (x : bool) : Engine :=
  {| queued := queued e; pending_task := pending_task e;
     consensus_output_stream := consensus_output_stream e;
     en_parent_header := en_parent_header e; rx_shutdown := x;
     last_admitted := last_admitted e; processor := processor e;
     executed_anchor_tx := executed_anchor_tx e; engine_idle_tx := engine_idle_tx e;
     shutdown_requested := shutdown_requested e |}.
Definition set_last e (x : option LastAdmitted) : Engine :=
  {| queued := queued e; pending_task := pending_task e;
     consensus_output_stream := consensus_output_stream e;
     en_parent_header := en_parent_header e; rx_shutdown := rx_shutdown e; last_admitted := x;
     processor := processor e; executed_anchor_tx := executed_anchor_tx e;
     engine_idle_tx := engine_idle_tx e; shutdown_requested := shutdown_requested e |}.
Definition set_processor e (x : Processor S) : Engine :=
  {| queued := queued e; pending_task := pending_task e;
     consensus_output_stream := consensus_output_stream e;
     en_parent_header := en_parent_header e; rx_shutdown := rx_shutdown e;
     last_admitted := last_admitted e; processor := x;
     executed_anchor_tx := executed_anchor_tx e; engine_idle_tx := engine_idle_tx e;
     shutdown_requested := shutdown_requested e |}.
Definition set_anchor e (x : option ConsensusHeader) : Engine :=
  {| queued := queued e; pending_task := pending_task e;
     consensus_output_stream := consensus_output_stream e;
     en_parent_header := en_parent_header e; rx_shutdown := rx_shutdown e;
     last_admitted := last_admitted e; processor := processor e; executed_anchor_tx := x;
     engine_idle_tx := engine_idle_tx e; shutdown_requested := shutdown_requested e |}.
Definition set_idle e (x : option bool) : Engine :=
  {| queued := queued e; pending_task := pending_task e;
     consensus_output_stream := consensus_output_stream e;
     en_parent_header := en_parent_header e; rx_shutdown := rx_shutdown e;
     last_admitted := last_admitted e; processor := processor e;
     executed_anchor_tx := executed_anchor_tx e; engine_idle_tx := x;
     shutdown_requested := shutdown_requested e |}.
Definition set_shutdown e (x : bool) : Engine :=
  {| queued := queued e; pending_task := pending_task e;
     consensus_output_stream := consensus_output_stream e;
     en_parent_header := en_parent_header e; rx_shutdown := rx_shutdown e;
     last_admitted := last_admitted e; processor := processor e;
     executed_anchor_tx := executed_anchor_tx e; engine_idle_tx := engine_idle_tx e;
     shutdown_requested := x |}.

(** ** The engine *)

(** [ExecutorEngine::new]: the dedup anchor comes from the last executed
    consensus header, and number 0 stands for none. *)
Definition ExecutorEngine_new (stream : Channel) (parent : SealedHeader) (p : Processor S)
    (anchor_tx : option ConsensusHeader) (idle_tx : option bool)
    (last_consensus_header : ConsensusHeader) : Engine :=
  {| queued := []; pending_task := None; consensus_output_stream := stream;
     en_parent_header := parent; rx_shutdown := false;
     last_admitted :=
       if 0 <? ch_number last_consensus_header then
         Some {| la_position := sub_dag_position (ch_sub_dag last_consensus_header);
                 la_subdag_digest := sub_dag_digest (ch_sub_dag last_consensus_header);
                 la_number := ch_number last_consensus_header |}
       else None;
     processor := p; executed_anchor_tx := anchor_tx; engine_idle_tx := idle_tx;
     shutdown_requested := false |}.

(** [spawn_execution_task]: the queue is never empty when it is called; the
    anchor of that branch, which nothing reads, is left out. *)
Definition spawn_execution_task e : Engine :=
  match queued e with
  | o :: rest =>
      set_pending (set_queued e rest)
        (Some {| pt_job := Some (o, en_parent_header e); pt_state := Running;
                 pt_number := number o; pt_anchor := Some (consensus_header o) |})
  | [] =>
      set_pending e
        (Some {| pt_job := None; pt_state := Sent (Err EmptyQueue); pt_number := 0;
                 pt_anchor := None |})
  end.

Definition is_idle e : bool :=
  match pending_task e, queued e with None, [] => true | _, _ => false end.

(** The decision on an output taken from the channel: admitted, dropped as stale
    or as a duplicate, or a fork. The epoch comparison of a warning can
    overflow. *)
Definition admission (last : option LastAdmitted) o : Exec (RLEngineError Er) bool :=
  match last with
  | None => Ret true
  | Some last =>
      match position_cmp (position o) (la_position last) with
      | Lt => Ret false
      | Eq =>
          if la_subdag_digest last =? sub_dag_digest (co_sub_dag o) then Ret false
          else Err (ConsensusFork (position o).1 (position o).2)
      | Gt => _ ← uadd u32_max (la_position last).1 1; Ret true
      end
  end.

Definition admitted_as o : LastAdmitted :=
  {| la_position := position o; la_subdag_digest := sub_dag_digest (co_sub_dag o);
     la_number := number o |}.

Definition enqueue e o : Engine :=
  set_queued (set_last e (Some (admitted_as o))) (queued e ++ [o]).

(** ** A call of [poll] *)

Definition goto w e (c : Pc Er) : Task :=
  {| engine := e; pc := c; stream_waker := stream_waker w; task_waker := task_waker w;
     woken := woken w |}.

(** The start of the call: the shutdown notice. *)
Definition poll_start w : Task :=
  let e := engine w in
  let e := if rx_shutdown e then set_shutdown e true else e in
  {| engine := e; pc := if rx_shutdown e && is_idle e then Finished (Ret tt) else AtLoop;
     stream_waker := false; task_waker := false; woken := false |}.

(** The top of the loop: the next message of the channel, unless the queue is
    full. *)
Definition poll_stream w : Task :=
  let e := engine w in
  if (MAX_QUEUED_OUTPUTS <=? length (queued e))%nat then goto w e AtTask
  else
    match messages (consensus_output_stream e) with
    | o :: rest =>
        let e := set_stream e {| messages := rest; closed := closed (consensus_output_stream e) |} in
        match admission (last_admitted e) o with
        | Ret true => goto w (enqueue e o) AtTask
        | Ret false => goto w e AtLoop
        | Err er => goto w e (Finished (Err er))
        | Panic => goto w e (Finished Panic)
        | Diverge => goto w e (Finished Diverge)
        end
    | [] =>
        if closed (consensus_output_stream e) then
          if is_idle e then
            goto w e (Finished (if shutdown_requested e then Ret tt
                                else Err ConsensusOutputStreamClosed))
          else goto w e AtTask
        else
          {| engine := e; pc := AtTask; stream_waker := true; task_waker := task_waker w;
             woken := woken w |}
    end.

(** The end of the call: whether the engine is idle is published. *)
Definition poll_pending w : Task :=
  let e := engine w in
  goto w (match engine_idle_tx e with Some _ => set_idle e (Some (is_idle e)) | None => e end)
    Suspended.

(** The next task is spawned when none is pending. *)
Definition poll_spawn w : Task :=
  let e := engine w in
  match pending_task e with
  | Some _ => goto w e AtReceiver
  | None =>
      match queued e with
      | [] => poll_pending w
      | _ => goto w (spawn_execution_task e) AtReceiver
      end
  end.

(** The receiver of the pending task. *)
Definition poll_receiver w : Task :=
  let e := engine w in
  match pending_task e with
  | None => goto w e AtLoop
  | Some t =>
      match pt_state t with
      | Running =>
          poll_pending {| engine := e; pc := AtReceiver; stream_waker := stream_waker w;
                          task_waker := true; woken := woken w |}
      | Torn =>
          goto w (set_pending e None)
            (Finished (if shutdown_requested e then Ret tt else Err ChannelClosed))
      | Sent (Ret h) =>
          let e := set_executed (set_pending e None) h in
          goto w (match executed_anchor_tx e, pt_anchor t with
                  | Some _, Some a => set_anchor e (Some a)
                  | _, _ => e
                  end) AtLoop
      | Sent (Err ChannelClosed) =>
          goto w (set_pending e None)
            (Finished (if shutdown_requested e then Ret tt else Err ChannelClosed))
      | Sent (Err er) => goto w (set_pending e None) (Finished (Err er))
      | Sent Panic => goto w (set_pending e None) (Finished Panic)
      | Sent Diverge => goto w (set_pending e None) (Finished Diverge)
      end
  end.

(** One step of the engine's task. *)
Definition turn w : Task :=
  match pc w with
  | Suspended => poll_start w
  | AtLoop => poll_stream w
  | AtTask => poll_spawn w
  | AtReceiver => poll_receiver w
  | Finished _ => w
  end.

(** A whole call of [poll] during which nothing else acts: the shutdown check
    and then the loop. *)
Definition returned w : bool :=
  match pc w with Suspended | Finished _ => true | _ => false end.
Fixpoint poll_loop (fuel : nat) w : Task :=
  match fuel with
  | O => w
  | Datatypes.S fuel => if returned w then w else poll_loop fuel (turn w)
  end.
Definition poll_fuel w : nat := 3 * length (messages (consensus_output_stream (engine w))) + 6.
Definition poll w : Task := poll_loop (poll_fuel w) (turn w).

(** ** What acts on the engine from outside *)

(** The blocking thread runs its job to the end; a panic is caught and sent as
    an error. (This is what the code does in a build that unwinds. The release
    profile of [Cargo.toml] aborts on a panic, before it can be caught: the node
    stops there instead of with this error.) *)
Definition run_job w : Task :=
  let e := engine w in
  match pending_task e with
  | Some t =>
      match pt_job t, pt_state t with
      | Some (o, parent), Running =>
          match execute_consensus_output spec block_gas_limit clock o parent (processor e) with
          | (_, Diverge) => w
          | (p, r) =>
              let r := match r with Panic => Err ExecutionPanic | r => r end in
              {| engine := set_processor
                   (set_pending e (Some {| pt_job := pt_job t; pt_state := Sent r;
                                           pt_number := pt_number t; pt_anchor := pt_anchor t |})) p;
                 pc := pc w; stream_waker := stream_waker w; task_waker := false;
                 woken := woken w || task_waker w |}
          end
      | _, _ => w
      end
  | None => w
  end.

(** The runtime drops the blocking task before it has sent its result. *)
Definition drop_job w : Task :=
  let e := engine w in
  match pending_task e with
  | Some t =>
      match pt_state t with
      | Running =>
          {| engine := set_pending e (Some {| pt_job := pt_job t; pt_state := Torn;
                                              pt_number := pt_number t; pt_anchor := pt_anchor t |});
             pc := pc w; stream_waker := stream_waker w; task_waker := false;
             woken := woken w || task_waker w |}
      | _ => w
      end
  | None => w
  end.

(** A change of the channel wakes the engine if it waits on it. *)
Definition with_stream w (c : Channel) : Task :=
  {| engine := set_stream (engine w) c; pc := pc w; stream_waker := false;
     task_waker := task_waker w; woken := woken w || stream_waker w |}.

Inductive EngineEvent :=
  | Send (o : ConsensusOutput)
  | CloseStream
  | Notice
  | RunJob
  | DropJob
  | Turn.

(** A send to a closed channel, or to an engine that has stopped, fails. *)
Definition engine_step w (ev : EngineEvent) : Task :=
  let c := consensus_output_stream (engine w) in
  match ev with
  | Send o =>
      match pc w with
      | Finished _ => w
      | _ => if closed c then w
             else with_stream w {| messages := messages c ++ [o]; closed := false |}
      end
  | CloseStream => with_stream w {| messages := messages c; closed := true |}
  | Notice => {| engine := set_notice (engine w) true; pc := pc w; stream_waker := stream_waker w;
                 task_waker := task_waker w; woken := true |}
  | RunJob => run_job w
  | DropJob => drop_job w
  | Turn => turn w
  end.

(** A spawned task is polled once to begin with. *)
Definition engine_task e : Task :=
  {| engine := e; pc := Suspended; stream_waker := false; task_waker := false; woken := true |}.

Definition engine_run e (es : list EngineEvent) : Task := foldl engine_step (engine_task e) es.

(** The outputs sent along a run. *)
Definition sent (es : list EngineEvent) : list ConsensusOutput :=
  omap (fun ev => match ev with Send o => Some o | _ => None end) es.

(** ** Admission *)

(** The outputs admitted out of a sequence of deliveries, with the anchor after
    them. *)
Fixpoint admissions (last : option LastAdmitted) (l : list ConsensusOutput) :
    Exec (RLEngineError Er) (list ConsensusOutput * option LastAdmitted) :=
  match l with
  | [] => Ret ([], last)
  | o :: l =>
      a ← admission last o;
      if a : bool then
        r ← admissions (Some (admitted_as o)) l; Ret (o :: r.1, r.2)
      else admissions last l
  end.

Definition position_lt (a b : Epoch * Round) : Prop := a.1 < b.1 \/ (a.1 = b.1 /\ a.2 < b.2).
Definition output_lt (o1 o2 : ConsensusOutput) : Prop := position_lt (position o1) (position o2).

Lemma position_cmp_spec a b :
  match position_cmp a b with
  | Lt => position_lt a b | Eq => a = b | Gt => position_lt b a
  end.
Proof.
  unfold position_cmp, position_lt. destruct a as [a1 a2], b as [b1 b2]. simpl.
  destruct (Z.compare_spec a1 b1) as [->| |]; [|lia..].
  destruct (Z.compare_spec a2 b2) as [->| |]; [done|lia..].
Qed.

#[export] Instance position_lt_strict : StrictOrder position_lt.
Proof.
  unfold position_lt. split; [intros a Ha|intros a b c Ha Hb]; lia.
Qed.

Definition after (last : option LastAdmitted) o : Prop :=
  match last with Some l => position_lt (la_position l) (position o) | None => True end.

Lemma admission_true last o : admission last o = Ret true -> after last o.
Proof.
  destruct last as [l|]; [|done]. simpl. pose proof (position_cmp_spec (position o) (la_position l)) as Hc.
  destruct (position_cmp _ _); [|done|]; [case_match; done|]. intros _. done.
Qed.

Lemma admissions_app last l1 l2 a last1 :
  admissions last l1 = Ret (a, last1) ->
  admissions last (l1 ++ l2) = (r ← admissions last1 l2; Ret (a ++ r.1, r.2)).
Proof.
  revert last a. induction l1 as [|o l1 IH]; intros last a; simpl.
  { intros [= <- <-]. by destruct (admissions last l2) as [[??]| | |]. }
  destruct (admission last o) as [[]| | |]; try done; simpl.
  - destruct (admissions _ l1) as [[a1 x]| | |] eqn:E1; try done. intros [= <- ->].
    rewrite (IH _ _ E1). by destruct (admissions last1 l2) as [[??]| | |].
  - apply IH.
Qed.

Lemma admissions_sorted last l a last' :
  admissions last l = Ret (a, last') ->
  a `sublist_of` l /\ StronglySorted output_lt a /\ Forall (after last) a.
Proof.
  revert last a. induction l as [|o l IH]; intros last a; simpl.
  { intros [= <- <-]. by repeat constructor. }
  destruct (admission last o) as [[]| | |] eqn:Ea; try done; simpl.
  - destruct (admissions _ l) as [[a1 x]| | |] eqn:E1; try done. intros [= <- ->].
    destruct (IH _ _ E1) as (Hs & Hsort & Hf). apply admission_true in Ea.
    split_and!; [by apply sublist_skip|by constructor|]. constructor; [done|].
    eapply Forall_impl; [exact Hf|]. intros x Hx. destruct last as [la|]; [|done]. simpl in *.
    by etrans.
  - intros Ha. destruct (IH _ _ Ha) as (Hs & ? & ?). split_and!; [by apply sublist_cons|done|done].
Qed.

(** ** The engine executes what it admits, in order *)

Section run.
Context (last0 : option LastAdmitted) (h0 : SealedHeader) (p0 : Processor S)
  (anchor0 : option ConsensusHeader).

Abbreviation run_outputs := (run_outputs spec block_gas_limit clock).
Abbreviation execute_output := (execute_output spec block_gas_limit clock).

(** The output of the pending task. *)
Definition job_of e : list ConsensusOutput :=
  match pending_task e with
  | Some t => match pt_job t with Some (o, _) => [o] | None => [] end
  | None => []
  end.

(** What the thread sends for the result of an execution. *)
Definition task_result (r : Exec (RLEngineError Er) (SealedHeader * list ExecutedBlock)) :
    Exec (RLEngineError Er) SealedHeader :=
  match r with
  | Ret x => Ret x.1
  | Err er => Err er
  | Panic => Err ExecutionPanic
  | Diverge => Diverge
  end.

(** The pending task runs the output [o] on the last executed header; [p] is
    the processor's state before it. *)
Definition task_ok e (p : Processor S) (t : PendingTask Er) o : Prop :=
  pt_job t = Some (o, en_parent_header e) /\ pt_anchor t = Some (consensus_header o) /\
  match pt_state t with
  | Running | Torn => processor e = p
  | Sent r => exists r', execute_output o (en_parent_header e) p = (processor e, r') /\
                         r' <> Diverge /\ r = task_result r'
  end.

(** The executed outputs [ran] and the state [p] they lead to: the engine's
    parent header is their last block and its published anchor the last of
    them. *)
Record executed e (ran : list ConsensusOutput) (p : Processor S) (blocks : list ExecutedBlock) :
    Prop := {
  ex_run : run_outputs ran h0 p0 = (p, Ret (en_parent_header e, blocks));
  ex_anchor : executed_anchor_tx e =
    (fun a => default a (consensus_header <$> last ran)) <$> anchor0
}.

Record live (snt : list ConsensusOutput) e consumed ran p blocks : Prop := {
  lv_stream : consumed ++ messages (consensus_output_stream e) `prefix_of` snt;
  lv_open : closed (consensus_output_stream e) = false ->
    snt = consumed ++ messages (consensus_output_stream e);
  lv_admitted : admissions last0 consumed = Ret (ran ++ job_of e ++ queued e, last_admitted e);
  lv_queue : (length (queued e) <= MAX_QUEUED_OUTPUTS)%nat;
  lv_executed : executed e ran p blocks;
  lv_task : match pending_task e with
            | None => processor e = p
            | Some t => exists o, task_ok e p t o
            end
}.

(** Why the engine stops. *)
Inductive stop_reason (snt : list ConsensusOutput) e consumed adm ran p :
    Exec (RLEngineError Er) unit -> Prop :=
  | stop_shutdown : shutdown_requested e = true -> stop_reason snt e consumed adm ran p (Ret tt)
  | stop_closed :
      closed (consensus_output_stream e) = true -> shutdown_requested e = false -> ran = adm ->
      stop_reason snt e consumed adm ran p (Err ConsensusOutputStreamClosed)
  | stop_admission o last r :
      consumed ++ [o] `prefix_of` snt -> admissions last0 consumed = Ret (adm, last) ->
      admission last o = r -> (forall b, r <> Ret b) ->
      stop_reason snt e consumed adm ran p (_ ← r; Ret tt)
  | stop_execution o p' r er :
      ran ++ [o] `prefix_of` adm -> execute_output o (en_parent_header e) p = (p', r) ->
      r <> Diverge -> task_result r = Err er -> stop_reason snt e consumed adm ran p (Err er)
  | stop_torn o :
      ran ++ [o] `prefix_of` adm -> shutdown_requested e = false ->
      stop_reason snt e consumed adm ran p (Err ChannelClosed).

Record stopped (snt : list ConsensusOutput) e r consumed ran p blocks : Prop := {
  sp_stream : consumed `prefix_of` snt;
  sp_executed : executed e ran p blocks;
  sp_queue : (length (queued e) <= MAX_QUEUED_OUTPUTS)%nat;
  sp_reason : exists adm last, admissions last0 consumed = Ret (adm, last) /\ ran `prefix_of` adm /\
    stop_reason snt e consumed adm ran p r
}.

Definition inv (snt : list ConsensusOutput) w : Prop :=
  exists consumed ran p blocks,
    match pc w with
    | Finished r => stopped snt (engine w) r consumed ran p blocks
    | _ => live snt (engine w) consumed ran p blocks
    end.

Lemma inv_live snt w : (forall r, pc w <> Finished r) ->
  inv snt w <-> exists consumed ran p blocks, live snt (engine w) consumed ran p blocks.
Proof. unfold inv. by destruct (pc w) eqn:E; intros Hn; [..|destruct (Hn r)]. Qed.

Lemma run_outputs_snoc l o h p p1 h1 b1 p2 h2 b2 :
  run_outputs l h p = (p1, Ret (h1, b1)) -> execute_output o h1 p1 = (p2, Ret (h2, b2)) ->
  run_outputs (l ++ [o]) h p = (p2, Ret (h2, b1 ++ b2)).
Proof.
  revert h p b1. induction l as [|x l IH]; intros h p b1; cbn [run_outputs EngineBlocks.run_outputs app].
  - intros [= -> -> <-] He. unfold mbind, st_bind. rewrite He. cbn. by rewrite app_nil_r.
  - intros ([hx bx] & px & Hx & Hk)%st_bind_Ret He. unfold mbind, st_bind. rewrite Hx.
    apply st_bind_Ret in Hk as ([hr br] & pr & Hr & [= <- <- <-]). cbn [fst] in *.
    rewrite (IH _ _ _ Hr He). cbn. by rewrite app_assoc.
Qed.

Lemma execute_consensus_output_run o h p p' r :
  execute_consensus_output spec block_gas_limit clock o h p = (p', r) ->
  exists r', execute_output o h p = (p', r') /\
    match r with Panic => Err ExecutionPanic | r => r end = task_result r' /\
    (r' = Diverge <-> r = Diverge).
Proof.
  unfold execute_consensus_output, mbind, st_bind.
  destruct (execute_output o h p) as [p1 [x|er| |]]; intros [= <- <-]; eexists; split_and!; done.
Qed.

(** Steps that keep what the invariant reads of the engine. *)
Lemma live_ext snt e e' consumed ran p blocks :
  live snt e consumed ran p blocks ->
  queued e' = queued e -> pending_task e' = pending_task e ->
  consensus_output_stream e' = consensus_output_stream e ->
  en_parent_header e' = en_parent_header e -> last_admitted e' = last_admitted e ->
  processor e' = processor e -> executed_anchor_tx e' = executed_anchor_tx e ->
  live snt e' consumed ran p blocks.
Proof.
  intros [Hs Ho Ha Hq [Hr Hx] Ht] Eq Ep Es Eh El Epr Ean.
  split; unfold job_of; rewrite ?Eq, ?Ep, ?Es, ?El, ?Epr; try done.
  - split; by rewrite ?Eh, ?Ean.
  - destruct (pending_task e) as [t|]; [|done]. unfold task_ok. by rewrite Eh, Epr.
Qed.

Lemma poll_start_inv snt w : pc w = Suspended -> inv snt w -> inv snt (poll_start w).
Proof.
  intros Hpc (consumed & ran & p & blocks & Hl)%inv_live; [|by rewrite Hpc].
  set (e := engine w) in *.
  assert (Hl' : live snt (if rx_shutdown e then set_shutdown e true else e) consumed ran p blocks)
    by (destruct (rx_shutdown e); [by eapply live_ext|done]).
  exists consumed, ran, p, blocks. unfold poll_start. cbn [pc engine]. fold e.
  destruct (rx_shutdown _ && is_idle _) eqn:E; [|done]. apply andb_true_iff in E as [E1 E2].
  assert (Hsh : rx_shutdown e = true) by (destruct (rx_shutdown e) eqn:Esh; [done|by rewrite Esh in E1]).
  rewrite Hsh in *. destruct Hl' as [Hs Ho Ha Hq Hx Ht].
  split; [by eapply prefix_app_l|done|done|]. eexists _, _. split; [exact Ha|].
  split; [by eexists|]. by constructor.
Qed.

Lemma admissions_snoc last l o a last1 b :
  admissions last l = Ret (a, last1) -> admission last1 o = Ret b ->
  admissions last (l ++ [o]) =
    Ret (if b then (a ++ [o], Some (admitted_as o)) else (a, last1)).
Proof.
  intros Ha Ho. rewrite (admissions_app _ _ [o] _ _ Ha). simpl. rewrite Ho.
  destruct b; cbn; [done|]. by rewrite app_nil_r.
Qed.

Lemma poll_stream_inv snt w : pc w = AtLoop -> inv snt w -> inv snt (poll_stream w).
Proof.
  intros Hpc (consumed & ran & p & blocks & Hl)%inv_live; [|by rewrite Hpc].
  unfold poll_stream. set (e := engine w) in *.
  destruct (Nat.leb_spec MAX_QUEUED_OUTPUTS (length (queued e))) as [_|Hlen]; [by exists consumed, ran, p, blocks|].
  destruct Hl as [Hs Ho Ha Hq Hx Ht]. destruct (messages _) as [|o rest] eqn:Em.
  { assert (Hl : live snt e consumed ran p blocks) by (split; rewrite ?Em; done).
    destruct (closed (consensus_output_stream e)) eqn:Ec; [|by exists consumed, ran, p, blocks].
    destruct (is_idle e) eqn:Ei; [|by exists consumed, ran, p, blocks].
    exists consumed, ran, p, blocks. rewrite app_nil_r in Hs. split; [done..|].
    eexists _, _. split; [exact Ha|]. split; [by eexists|].
    unfold is_idle in Ei. unfold job_of.
    destruct (pending_task e) eqn:Ep; [done|]. destruct (queued e) eqn:Eq; [|done].
    destruct (shutdown_requested e) eqn:Esh; constructor; try done. by rewrite !app_nil_r. }
  set (e1 := set_stream e _). change (last_admitted e1) with (last_admitted e).
  assert (Hs' : (consumed ++ [o]) ++ rest `prefix_of` snt) by (by rewrite <-app_assoc).
  assert (Hstop : forall r, admission (last_admitted e) o = r -> (forall b, r <> Ret b) ->
            stopped snt e1 (_ ← r; Ret tt) consumed ran p blocks).
  { intros r Hr Hnot. split; [by eapply prefix_app_l|by destruct Hx; split|done|].
    eexists _, _. split; [exact Ha|]. split; [by eexists|].
    eapply (stop_admission _ _ _ _ _ _ o); [by eapply prefix_app_l|exact Ha|exact Hr|done]. }
  destruct (admission (last_admitted e) o) as [[]|er| |] eqn:Eadm.
  - exists (consumed ++ [o]), ran, p, blocks. cbn [pc goto engine]. split; try done.
    + intros Hcl. rewrite (Ho Hcl). by rewrite <-app_assoc.
    + rewrite (admissions_snoc _ _ _ _ _ _ Ha Eadm). cbn. by rewrite <-!app_assoc.
    + cbn. rewrite length_app. simpl. unfold MAX_QUEUED_OUTPUTS in *. lia.
    + by destruct Hx; split.
  - exists (consumed ++ [o]), ran, p, blocks. cbn [pc goto engine]. split; try done.
    + intros Hcl. rewrite (Ho Hcl). by rewrite <-app_assoc.
    + by rewrite (admissions_snoc _ _ _ _ _ _ Ha Eadm).
    + by destruct Hx; split.
  - exists consumed, ran, p, blocks. cbn [pc goto engine]. by apply (Hstop (Err er)).
  - exists consumed, ran, p, blocks. cbn [pc goto engine]. by apply (Hstop Panic).
  - exists consumed, ran, p, blocks. cbn [pc goto engine]. by apply (Hstop Diverge).
Qed.

Lemma poll_pending_inv snt w : (forall r, pc w <> Finished r) -> inv snt w -> inv snt (poll_pending w).
Proof.
  intros Hpc (consumed & ran & p & blocks & Hl)%inv_live; [|done].
  exists consumed, ran, p, blocks. cbn. destruct (engine_idle_tx _); [by eapply live_ext|done].
Qed.

Lemma poll_spawn_inv snt w : pc w = AtTask -> inv snt w -> inv snt (poll_spawn w).
Proof.
  intros Hpc Hinv. unfold poll_spawn.
  destruct (pending_task (engine w)) as [t|] eqn:Ep.
  { apply inv_live in Hinv; [|by rewrite Hpc]. by apply inv_live. }
  destruct (queued (engine w)) as [|o rest] eqn:Eq; [by apply poll_pending_inv; rewrite ?Hpc|].
  apply inv_live in Hinv as (consumed & ran & p & blocks & [Hs Ho Ha Hq Hx Ht]); [|by rewrite Hpc].
  exists consumed, ran, p, blocks. cbn. unfold spawn_execution_task. rewrite Eq in *. rewrite Ep in Ht.
  split; [done|done| |cbn in *; lia|by destruct Hx; split|].
  - unfold job_of in *. rewrite Ep in Ha. cbn. exact Ha.
  - by exists o.
Qed.

Lemma poll_receiver_inv snt w : pc w = AtReceiver -> inv snt w -> inv snt (poll_receiver w).
Proof.
  intros Hpc Hinv. unfold poll_receiver.
  destruct (pending_task (engine w)) as [t|] eqn:Ep.
  2: { apply inv_live in Hinv; [|by rewrite Hpc]. by apply inv_live. }
  destruct (pt_state t) as [|r|] eqn:Est.
  { apply poll_pending_inv; [done|]. apply inv_live in Hinv; [|by rewrite Hpc]. by apply inv_live. }
  all: apply inv_live in Hinv as (consumed & ran & p & blocks & [Hs Ho Ha Hq Hx Ht]); [|by rewrite Hpc].
  all: rewrite Ep in Ht; destruct Ht as (o & Hjob & Han & Hst); rewrite Est in Hst.
  all: unfold job_of in Ha; rewrite Ep, Hjob in Ha; cbn in Ha.
  all: assert (Hpre : ran ++ [o] `prefix_of` ran ++ o :: queued (engine w))
    by (apply prefix_app, prefix_cons, prefix_nil).
  all: assert (Hstop : forall r, shutdown_requested (engine w) = true /\ r = Ret tt \/
           (exists p' r' er, execute_output o (en_parent_header (engine w)) p = (p', r') /\
              r' <> Diverge /\ task_result r' = Err er /\ r = Err er) \/
           shutdown_requested (engine w) = false /\ r = Err ChannelClosed ->
         stopped snt (set_pending (engine w) None) r consumed ran p blocks).
  1,3: intros r0 Hr0; split; [by eapply prefix_app_l|by destruct Hx; split|done|];
    eexists _, _; split; [exact Ha|]; split; [by eexists|];
    destruct Hr0 as [[? ->]|[(p' & r' & er & ? & ? & ? & ->)|[? ->]]];
    [by apply stop_shutdown|by eapply stop_execution|by eapply stop_torn].
  2: { exists consumed, ran, p, blocks. cbn. apply Hstop. destruct (shutdown_requested _); auto. }
  destruct Hst as (r' & Hex & Hnd & ->). destruct r' as [[h b]|er| |]; cbn [task_result fst]; [| | |done].
  - exists consumed, (ran ++ [o]), (processor (engine w)), (blocks ++ b).
    destruct Hx as [Hrun Hanchor]. pose proof (run_outputs_snoc _ _ _ _ _ _ _ _ _ _ Hrun Hex) as Hrun'.
    unfold goto. cbn [pc engine]. rewrite Han. cbn. rewrite Hanchor.
    destruct anchor0 as [a|] eqn:Ea0; cbn; (split; [done|done| |done|split; cbn|done]);
      rewrite ?Hanchor, ?Ea0, ?last_snoc, <-?app_assoc; done.
  - exists consumed, ran, p, blocks.
    assert (Hst : stopped snt (set_pending (engine w) None) (Err er) consumed ran p blocks).
    { apply Hstop. right. left. by exists (processor (engine w)), (Err er), er. }
    destruct er; cbn; try exact Hst. destruct (shutdown_requested (engine w)) eqn:Esh; [|exact Hst].
    apply Hstop. auto.
  - exists consumed, ran, p, blocks. cbn. apply Hstop. right. left.
    by exists (processor (engine w)), Panic, ExecutionPanic.
Qed.

Lemma stopped_ext snt snt' e e' r consumed ran p blocks :
  stopped snt e r consumed ran p blocks -> snt `prefix_of` snt' ->
  queued e' = queued e -> en_parent_header e' = en_parent_header e ->
  executed_anchor_tx e' = executed_anchor_tx e -> shutdown_requested e' = shutdown_requested e ->
  (closed (consensus_output_stream e) = true -> closed (consensus_output_stream e') = true) ->
  stopped snt' e' r consumed ran p blocks.
Proof.
  intros [Hs [Hr Hx] Hq (adm & last & Ha & Hp & Hreason)] Hsnt Eq Eh Ean Esh Hc.
  split; [by etrans|by split; rewrite ?Eh, ?Ean|by rewrite Eq|].
  exists adm, last. split_and!; [done|done|].
  destruct Hreason as [Hsh|Hcl Hsh Hrun|o last' r' Hpre Hadm Hr' Hn|o p' r' er Hpre He Hd Ht|o Hpre Hsh].
  - apply stop_shutdown. by rewrite Esh.
  - apply stop_closed; [auto|by rewrite Esh|done].
  - eapply stop_admission; [by etrans|done..].
  - eapply stop_execution; [done|by rewrite Eh|done..].
  - eapply stop_torn; [done|by rewrite Esh].
Qed.

Lemma send_inv snt w o : inv snt w -> inv (snt ++ [o]) (engine_step w (Send o)).
Proof.
  intros (consumed & ran & p & blocks & Hi). exists consumed, ran, p, blocks. cbn.
  assert (Hsnt : snt `prefix_of` snt ++ [o]) by by eexists.
  destruct (pc w) eqn:Epc; cycle 4.
  { rewrite Epc. by eapply stopped_ext. }
  all: destruct Hi as [Hs Ho Ha Hq Hx Ht]; destruct (closed _) eqn:Ec;
    [rewrite Epc; split; try done; [by etrans|by rewrite Ec]|].
  all: cbn; rewrite Epc; specialize (Ho eq_refl); subst snt.
  all: split; try done; [cbn; by rewrite app_assoc|intros _; cbn; by rewrite app_assoc|by destruct Hx; split].
Qed.

Lemma run_job_inv snt w : inv snt w -> inv snt (run_job w).
Proof.
  intros Hi. unfold run_job. destruct (pending_task (engine w)) as [t|] eqn:Ep; [|done].
  destruct (pt_job t) as [[o parent]|] eqn:Ejob; [|done]. destruct (pt_state t) eqn:Est; [|done..].
  destruct (execute_consensus_output _ _ _ o parent (processor (engine w))) as [p' r] eqn:Erun.
  apply execute_consensus_output_run in Erun as (r' & Hex & Hr & Hd).
  assert (Hn : r = Diverge \/ r <> Diverge) by (destruct r; auto).
  destruct Hn as [->|Hn]; [done|]. destruct Hi as (consumed & ran & p & blocks & Hi).
  replace (match r with Diverge => w | _ => _ end) with
    {| engine := set_processor
         (set_pending (engine w)
            (Some {| pt_job := pt_job t; pt_state := Sent (task_result r');
                     pt_number := pt_number t; pt_anchor := pt_anchor t |})) p';
       pc := pc w; stream_waker := stream_waker w; task_waker := false;
       woken := woken w || task_waker w |} by (rewrite <-Hr, Ejob; by destruct r).
  exists consumed, ran, p, blocks. cbn. destruct (pc w); cycle 4; [by eapply stopped_ext|..].
  all: destruct Hi as [Hs Ho Ha Hq Hx Ht]; rewrite Ep in Ht; destruct Ht as (o' & Hjob & Han & Hp).
  all: rewrite Est in Hp; rewrite Ejob in Hjob; injection Hjob as -> ->; subst p.
  all: split; try done; [unfold job_of in *; by rewrite Ep in Ha|by destruct Hx; split|].
  all: exists o'; split_and!; try done; exists r'; split_and!; [done|by intros ?%Hd|done].
Qed.

Lemma drop_job_inv snt w : inv snt w -> inv snt (drop_job w).
Proof.
  intros Hi. unfold drop_job. destruct (pending_task (engine w)) as [t|] eqn:Ep; [|done].
  destruct (pt_state t) eqn:Est; [|done..]. destruct Hi as (consumed & ran & p & blocks & Hi).
  exists consumed, ran, p, blocks. cbn. destruct (pc w); cycle 4; [by eapply stopped_ext|..].
  all: destruct Hi as [Hs Ho Ha Hq Hx Ht]; rewrite Ep in Ht; destruct Ht as (o' & Hjob & Han & Hp).
  all: rewrite Est in Hp; split; try done;
    [unfold job_of in *; by rewrite Ep in Ha|by destruct Hx; split|by exists o'].
Qed.

Lemma turn_inv snt w : inv snt w -> inv snt (turn w).
Proof.
  intros Hi. unfold turn. destruct (pc w) eqn:Epc; [by apply poll_start_inv|by apply poll_stream_inv|
    by apply poll_spawn_inv|by apply poll_receiver_inv|done].
Qed.

Lemma engine_step_inv snt w ev :
  inv snt w -> inv (snt ++ sent [ev]) (engine_step w ev).
Proof.
  intros Hi. destruct ev as [o| | | | |]; [by apply send_inv|..]; cbn [sent omap list_omap]; rewrite ?app_nil_r;
    [| |by apply run_job_inv|by apply drop_job_inv|by apply turn_inv].
  - destruct Hi as (consumed & ran & p & blocks & Hi). exists consumed, ran, p, blocks. cbn.
    destruct (pc w); cycle 4; [by eapply stopped_ext|..].
    all: destruct Hi as [Hs Ho Ha Hq Hx Ht]; split; try done; by destruct Hx; split.
  - destruct Hi as (consumed & ran & p & blocks & Hi). exists consumed, ran, p, blocks. cbn.
    destruct (pc w); cycle 4; [by eapply stopped_ext|..]. all: by eapply live_ext.
Qed.

Lemma engine_run_inv e es :
  queued e = [] -> pending_task e = None -> consensus_output_stream e = {| messages := []; closed := false |} ->
  en_parent_header e = h0 -> last_admitted e = last0 -> processor e = p0 ->
  executed_anchor_tx e = anchor0 -> inv (sent es) (engine_run e es).
Proof.
  intros Hq Hp Hs Hh Hl Hpr Ha. unfold engine_run. induction es as [|ev es IH] using rev_ind.
  - exists [], [], p0, []. cbn. split; rewrite ?Hs; try done.
    + cbn. unfold job_of. by rewrite Hp, Hq, Hl.
    + rewrite Hq. cbn. lia.
    + split; [by rewrite Hh|]. rewrite Ha. by destruct anchor0.
    + by rewrite Hp.
  - rewrite foldl_app. unfold sent in *. rewrite omap_app. by apply engine_step_inv.
Qed.

End run.

End engine.
