(* ===== verification/EngineLoopProps.v ===== *)
(** * The engine on a chain of outputs

    What the loop of [EngineLoop.v] guarantees to the rest of the node: it
    follows the chain of consensus outputs whatever the order of deliveries that
    do not skip, a call of [poll] returns, the engine does not sleep on work, and
    left alone it executes everything it was sent. *)
From S2P Require Import Prelude Lists State Types Committee LeaderSchedule ConsensusState.
From S2P Require Import Hardforks BatchOrdering BatchOrderingProps InFlight Engine EngineBlocks EngineLoop.
#[local] Open Scope Z_scope.

Section engine_props.
Context `{!Crypto, !OutputHashes, !ForkConditionApi}.
Context {S Er : Type} `{!BlockExecutor S Er}.
Context (spec : ChainSpec) (block_gas_limit : Z) (clock : SealedHeader -> Instant).

Abbreviation Engine := (ExecutorEngine S Er).
Abbreviation Task := (EngineTask S Er).
Implicit Types (e : Engine) (w : Task) (o : ConsensusOutput).

Abbreviation run_outputs := (run_outputs spec block_gas_limit clock).
Abbreviation execute_output := (execute_output spec block_gas_limit clock).
Abbreviation engine_run := (engine_run spec block_gas_limit clock).

(** ** Errors of an execution *)

(** An execution fails with an error of the EVM environment or because the
    leader of an output is unknown. *)
Definition execution_error (er : RLEngineError Er) : Prop :=
  match er with Reth _ | UnknownAuthority _ => True | _ => False end.

(** The EVM environment answers every call. *)
Definition executor_returns : Prop :=
  (forall s payload txs blocks, (execute_block s payload txs blocks).2 <> Diverge) /\
  (forall s h, (finalize_block s h).2 <> Diverge).

Definition fails_only {A} (m : ST (Processor S) (RLEngineError Er) A) : Prop :=
  forall p,
    match (m p).2 with
    | Err er => execution_error er | Diverge => ~ executor_returns | _ => True
    end.

Lemma fails_only_bind {A B} (m : ST (Processor S) (RLEngineError Er) A) (k : A -> _) :
  fails_only m -> (forall a, fails_only (k a)) -> fails_only (A := B) (m ≫= k).
Proof.
  intros Hm Hk p. unfold mbind, st_bind. specialize (Hm p).
  destruct (m p) as [p1 [a|e'| |]]; [apply Hk|done..].
Qed.

(** Computations that return or panic. *)
Definition plain {E A} (m : Exec E A) : Prop := (forall er, m <> Err er) /\ m <> Diverge.

Lemma fails_only_lift {A} (m : Exec (RLEngineError Er) A) : plain m -> fails_only (lift m).
Proof. intros [He Hd] p. unfold lift. cbn. destruct m as [a|er| |]; try done. by destruct (He er). Qed.

Lemma fails_only_execute payload txs blocks :
  fails_only (call_reth (fun s => execute_block s payload txs blocks)).
Proof.
  intros p. unfold call_reth. destruct (execute_block _ _ _ _) as [s [a|e'| |]] eqn:E; try done.
  intros [He _]. apply (He (reth_env p) payload txs blocks). by rewrite E.
Qed.

Lemma fails_only_finalize h : fails_only (call_reth (fun s => finalize_block s h)).
Proof.
  intros p. unfold call_reth. destruct (finalize_block _ _) as [s [a|e'| |]] eqn:E; try done.
  intros [_ Hf]. apply (Hf (reth_env p) h). by rewrite E.
Qed.

Lemma plain_bind {E A B} (m : Exec E A) (k : A -> Exec E B) :
  plain m -> (forall a, plain (k a)) -> plain (m ≫= k).
Proof. intros [He Hd] Hk. destruct m as [a|e'| |]; cbn; [apply Hk|by destruct (He e')|done..]. Qed.

Lemma plain_uadd {E} m a b : plain (E := E) (uadd m a b).
Proof. unfold uadd. by case_match. Qed.

Lemma plain_expect {E A} (x : option A) : plain (E := E) (expect x).
Proof. by destruct x. Qed.

Lemma plain_rassert {E} b : plain (E := E) (rassert b).
Proof. by destruct b. Qed.

Ltac plain_with tac :=
  repeat first
    [ tac | done
    | apply plain_uadd | apply plain_expect | apply plain_rassert
    | apply plain_bind; [|intros ?]
    | match goal with
      | H : context [plain _] |- _ => apply H
      | |- plain (match ?x with _ => _ end) => destruct x
      | |- plain (if ?x then _ else _) => destruct x
      | |- plain (let '(_, _) := ?x in _) => destruct x
      end ].

Ltac plain := plain_with fail.

Lemma plain_inc_leader_count {E} g l : plain (E := E) (inc_leader_count g l).
Proof. unfold inc_leader_count. plain. Qed.

Lemma plain_inc_block {E} g wk u : plain (E := E) (inc_block g wk u).
Proof. unfold inc_block. plain. Qed.

Lemma plain_resolve_base_fee {E} h f : plain (E := E) (resolve_base_fee spec h f).
Proof. unfold resolve_base_fee. plain. Qed.

Lemma plain_update_base_fee {E} g h : plain (E := E) (update_base_fee_after_block spec g h).
Proof. unfold update_base_fee_after_block. plain. Qed.

Lemma plain_exec_map {E A B} (f : A -> Exec E B) l : (forall a, plain (f a)) -> plain (exec_map f l).
Proof. intros Hf. induction l as [|a l IH]; cbn; plain. Qed.

Lemma plain_group_positions {E} arc n l g : plain (E := E) (group_positions arc n l g).
Proof. revert n g. induction l as [|[i j] l IH]; intros n g; cbn; unfold cert_batches; plain. Qed.

Lemma plain_normalize_all {E} arc gs fd : plain (E := E) (normalize_all arc gs fd).
Proof.
  revert fd. induction gs as [|g gs IH]; intros fd; cbn; [done|]. apply plain_bind; [|intros; apply IH].
  unfold normalize_positions. destruct fd as [f d]. case_match; [done|].
  apply plain_bind; [|done]. apply plain_exec_map. intros a. unfold batch_at, cert_batches. plain.
Qed.

Lemma accept_seq_parked or a n ps : parked_of (accept_seq or a n ps) a = ps.
Proof.
  unfold parked_of. by rewrite authorities_accept_seq, lookup_insert_eq.
Qed.

Lemma plain_drain_loop {E} fuel or a coll reg c :
  (size (parked_of or a) < fuel)%nat ->
  plain (E := E) (drain_consecutive_loop fuel or a coll reg c).
Proof.
  revert or coll reg. induction fuel as [|fuel IH]; intros or coll reg Hf; [lia|].
  cbn [drain_consecutive_loop]. unfold parked_of in Hf.
  destruct (bos_authorities _ !! a) as [auth|]; [|done]. cbn in Hf.
  destruct (last_executed_seq auth) as [l|]; [|done]. apply plain_bind; [apply plain_uadd|]. intros next.
  destruct (parked auth !! next) as [pb|] eqn:Hp; [|done].
  assert (Hd : (size (parked_of (accept_seq or a next (delete next (parked auth))) a) < fuel)%nat).
  { rewrite accept_seq_parked. pose proof (map_size_delete_Some next (parked auth) ltac:(by eexists)).
    assert (0 < size (parked auth))%nat; [|lia].
    destruct (size (parked auth)) eqn:Es; [|lia]. apply map_size_empty_inv in Es. by rewrite Es in Hp. }
  destruct c; [destruct (try_register _ _) as [reg' []]|]; by apply IH.
Qed.

Lemma plain_drain {E} or a coll reg c : plain (E := E) (drain_consecutive or a coll reg c).
Proof. apply plain_drain_loop. lia. Qed.

Lemma plain_try_accept {E} or a s p n : plain (E := E) (try_accept or a s p n).
Proof. unfold try_accept. plain. Qed.

Lemma plain_collect {E} bc ctx v2 sn gl i l st : plain (E := E) (collect_loop bc ctx v2 sn gl i l st).
Proof.
  revert i st. induction l as [|x l IH]; intros i st; cbn [collect_loop]; [done|].
  apply plain_bind; [|intros; apply IH].
  unfold collect_batch, cert_batches. destruct st as [[or reg] ex].
  plain_with ltac:(first [apply plain_try_accept|apply plain_drain]).
Qed.

Ltac fails_with tac :=
  repeat first
    [ tac | done
    | apply fails_only_bind; [|intros ?]
    | apply fails_only_execute | apply fails_only_finalize
    | apply fails_only_lift; first
        [ apply plain_uadd | apply plain_expect | apply plain_rassert
        | apply plain_inc_leader_count | apply plain_inc_block | apply plain_resolve_base_fee
        | apply plain_update_base_fee ]
    | match goal with
      | H : context [fails_only _] |- _ => apply H
      | |- fails_only (match ?x with _ => _ end) => destruct x
      | |- fails_only (if ?x then _ else _) => destruct x
      | |- fails_only (let '(_, _) := ?x in _) => destruct x
      end ].

Ltac fails_only := fails_with fail.

Lemma fails_only_active f h : fails_only (active_after spec f h).
Proof. unfold active_after. fails_only. Qed.

Lemma fails_only_prepared pb h close blocks :
  fails_only (execute_prepared_batch spec clock pb h close blocks).
Proof. unfold execute_prepared_batch, execute_payload, settle. fails_only. Qed.

Lemma fails_only_empty h o d blocks close :
  fails_only (execute_empty_block spec clock h o d blocks close).
Proof.
  unfold execute_empty_block, execute_payload, settle, st_ok_or, throw. fails_only.
Qed.

Lemma fails_only_parked v2 l h blocks : fails_only (execute_parked spec clock v2 l h blocks).
Proof.
  revert h blocks. induction l as [|pb l IH]; intros h blocks; cbn [execute_parked]; [done|].
  fails_with ltac:(apply fails_only_prepared).
Qed.

Lemma fails_only_collected v2 at_ close i l h blocks :
  fails_only (execute_collected spec clock v2 at_ close i l h blocks).
Proof.
  revert i h blocks. induction l as [|pb l IH]; intros i h blocks; cbn [execute_collected]; [done|].
  fails_with ltac:(apply fails_only_prepared).
Qed.

Lemma fails_only_collect_output o h : fails_only (collect_output spec block_gas_limit clock o h).
Proof.
  unfold collect_output, drain_and_execute_epoch_parked.
  fails_with ltac:(first [apply fails_only_active|apply fails_only_parked
    |apply fails_only_lift; apply plain_collect
    |apply fails_only_lift; apply plain_bind;
       [apply plain_group_positions|intros; apply plain_normalize_all]]).
Qed.

Lemma fails_only_output o h : fails_only (execute_output o h).
Proof.
  unfold Engine.execute_output, build_output, finish_executing_output.
  fails_with ltac:(first [apply fails_only_collect_output|apply fails_only_active
    |apply fails_only_collected|apply fails_only_empty]).
Qed.

Lemma execute_output_errors o h p p' er : execute_output o h p = (p', Err er) -> execution_error er.
Proof. intros He. pose proof (fails_only_output o h p) as Hf. by rewrite He in Hf. Qed.

Lemma execute_output_returns o h p p' : executor_returns -> execute_output o h p <> (p', Diverge).
Proof. intros Hr He. pose proof (fails_only_output o h p) as Hf. by rewrite He in Hf. Qed.

(** ** In order, once, on the block before *)

(** Between two calls of [poll] an engine published as idle is idle. *)
Definition idle_ok w : Prop :=
  pc w = Suspended -> engine_idle_tx (engine w) = Some true -> is_idle (engine w) = true.

Lemma poll_pending_idle w : idle_ok (poll_pending w).
Proof.
  intros _. cbn. destruct (engine_idle_tx (engine w)) eqn:E; [|by rewrite E]. cbn.
  unfold is_idle. cbn. by intros [= ->].
Qed.

Lemma turn_idle w : idle_ok w -> idle_ok (turn w).
Proof.
  intros Hi. unfold turn. destruct (pc w) eqn:Epc; [| | | |done].
  - intros Hp. cbn in Hp. by destruct (_ && _).
  - intros Hp. unfold poll_stream in Hp. repeat case_match; done.
  - unfold poll_spawn. repeat case_match; [done|apply poll_pending_idle|done].
  - unfold poll_receiver. repeat case_match; try done; apply poll_pending_idle.
Qed.

Lemma engine_step_idle w ev : idle_ok w -> idle_ok (engine_step spec block_gas_limit clock w ev).
Proof.
  intros Hi. destruct ev as [o| | | | |]; cbn; [| | | | |by apply turn_idle].
  - repeat case_match; exact Hi.
  - exact Hi.
  - exact Hi.
  - unfold run_job. repeat case_match; try done; intros Hp Hx; specialize (Hi Hp Hx);
      unfold is_idle in *; cbn in *; by case_match.
  - unfold drop_job. repeat case_match; try done; intros Hp Hx; specialize (Hi Hp Hx);
      unfold is_idle in *; cbn in *; by case_match.
Qed.

Lemma engine_run_idle e es : is_idle e = true -> idle_ok (engine_run e es).
Proof.
  intros Hi. unfold engine_run. induction es as [|ev es IH] using rev_ind; [by intros _ _|].
  rewrite foldl_app. by apply engine_step_idle.
Qed.

(** An engine as the node creates it, on an empty channel. *)
Definition fresh_engine (parent : SealedHeader) (p : Processor S) (anchor : option ConsensusHeader)
    (idle : option bool) (last_header : ConsensusHeader) : Engine :=
  ExecutorEngine_new {| messages := []; closed := false |} parent p anchor idle last_header.

Section run_of_engine.
Context (parent : SealedHeader) (p0 : Processor S) (anchor : option ConsensusHeader)
  (idle : option bool) (last_header : ConsensusHeader) (es : list EngineEvent).
Abbreviation e0 := (fresh_engine parent p0 anchor idle last_header).
Abbreviation w := (engine_run e0 es).

Lemma fresh_inv :
  inv spec block_gas_limit clock (last_admitted e0) parent p0 anchor (sent es) w.
Proof. by apply engine_run_inv. Qed.

Lemma inv_executed :
  exists consumed ran p blocks,
    executed spec block_gas_limit clock parent p0 anchor (engine w) ran p blocks /\
    (length (queued (engine w)) <= MAX_QUEUED_OUTPUTS)%nat /\
    consumed `prefix_of` sent es /\
    exists adm last, admissions (Er := Er) (last_admitted e0) consumed = Ret (adm, last) /\
      ran `prefix_of` adm /\
      (forall r, pc w = Finished r ->
         stop_reason spec block_gas_limit clock (last_admitted e0) (sent es) (engine w) consumed adm ran p r) /\
      ((forall r, pc w <> Finished r) ->
         adm = ran ++ job_of (engine w) ++ queued (engine w) /\
         (pending_task (engine w) = None -> processor (engine w) = p) /\
         (closed (consensus_output_stream (engine w)) = false ->
          sent es = consumed ++ messages (consensus_output_stream (engine w)))).
Proof.
  destruct fresh_inv as (consumed & ran & p & blocks & Hi). exists consumed, ran, p, blocks.
  destruct (pc w) as [| | | |r] eqn:Epc; cycle 4.
  { destruct Hi as [Hs Hx Hq (adm & last & Ha & Hp & Hr)]. split_and!; try done.
    exists adm, last. split_and!; try done; [by intros ? [= <-]|]. intros Hn. by destruct (Hn r). }
  all: destruct Hi as [Hs Ho Ha Hq Hx Ht]; split_and!; [done|done|by eapply prefix_app_l|].
  all: eexists _, _; split; [exact Ha|]; split_and!; [by eexists|done|intros _; split_and!; [done| |done]].
  all: intros Hp; by rewrite Hp in Ht.
Qed.

(** Whatever arrives on its channel and whenever its thread, the shutdown
    notice and the runtime act, the engine executes the outputs it admits one
    at a time, in the order of admission, each on the last block of the one
    before: its parent header and its published anchor are those of the
    sequential run of a prefix of the admitted outputs. What it admits is taken
    from the deliveries in strictly increasing position (epoch and leader round),
    so never twice, above the anchor it started from; the queue holds at most
    100 outputs; and when it is published idle between two calls everything
    admitted has been executed. *)
Theorem engine_executes_in_order :
  let start := fresh_engine parent p0 anchor idle last_header in
  let t := engine_run start es in
  exists adm ran p blocks,
    adm `sublist_of` sent es /\ StronglySorted output_lt adm /\
    Forall (after (last_admitted start)) adm /\ ran `prefix_of` adm /\
    run_outputs ran parent p0 = (p, Ret (en_parent_header (engine t), blocks)) /\
    executed_anchor_tx (engine t) = (fun a => default a (consensus_header <$> last ran)) <$> anchor /\
    (length (queued (engine t)) <= MAX_QUEUED_OUTPUTS)%nat /\
    (pc t = Suspended -> engine_idle_tx (engine t) = Some true ->
     ran = adm /\ processor (engine t) = p).
Proof.
  cbv zeta.
  destruct inv_executed as (consumed & ran & p & blocks & [Hrun Hanchor] & Hq & Hpre & adm & last & Ha & Hr & _ & Hl).
  destruct (admissions_sorted _ _ _ _ Ha) as (Hsub & Hsort & Haft).
  exists adm, ran, p, blocks. split_and!; try done.
  - etrans; [exact Hsub|]. destruct Hpre as [k ->]. by apply sublist_inserts_r.
  - intros Hpc Hidle. destruct Hl as (-> & Hp & _); [by rewrite Hpc|].
    assert (Hi : is_idle (engine w) = true) by by apply (engine_run_idle e0).
    unfold is_idle in Hi. unfold job_of.
    destruct (pending_task (engine w)) eqn:Ep; [done|]. destruct (queued (engine w)); [|done].
    rewrite !app_nil_r. auto.
Qed.

End run_of_engine.

(** ** Following the chain of outputs *)

Section chain.
(** The outputs of consensus, in order; the node has executed the first
    [start] of them before. *)
Context (canonical : list ConsensusOutput) (start : nat).
Hypothesis canonical_sorted : StronglySorted output_lt canonical.
Hypothesis canonical_epochs : Forall (fun c => (position c).1 < u32_max) canonical.

(** The anchor of a node that has admitted the first [n] outputs. *)
Definition anchored (n : nat) (last : option LastAdmitted) : Prop :=
  match n with
  | O => last = None
  | Datatypes.S k => exists c l, canonical !! k = Some c /\ last = Some l /\
      la_position l = position c /\ la_subdag_digest l = sub_dag_digest (co_sub_dag c)
  end.

(** Deliveries that do not skip: every delivered output is one of the chain, up
    to the signatures of its certificates, and the output before it was
    executed before the start or has been delivered earlier. Any number of
    feeds may deliver the chain again from any point they have reached. *)
Definition gap_free (l : list ConsensusOutput) : Prop :=
  forall l1 o l2, l = l1 ++ o :: l2 ->
    exists k c, canonical !! k = Some c /\ variants o c /\
      ((k <= start)%nat \/
       exists j c' o', k = Datatypes.S j /\ canonical !! j = Some c' /\ o' ∈ l1 /\ variants o' c').

Lemma variants_position o c : variants o c -> position o = position c.
Proof.
  intros Hv. unfold position, sub_dag_position, cert_epoch, cert_round.
  pose proof (va_leader _ _ Hv) as Hl. unfold co_leader in Hl. by rewrite Hl.
Qed.

Lemma variants_sub_dag_digest o c :
  variants o c -> sub_dag_digest (co_sub_dag o) = sub_dag_digest (co_sub_dag c).
Proof.
  intros [Hc Hl Ht _ _ _ _ _]. unfold sub_dag_digest. unfold co_leader in Hl. rewrite Ht.
  f_equal; [|unfold digest; by rewrite Hl].
  assert (Hd : forall l, digest <$> l = header_digest <$> (header <$> l))
    by (intros l; by rewrite <-list_fmap_compose).
  by rewrite !Hd, Hc.
Qed.

Lemma canonical_lt i j c d :
  canonical !! i = Some c -> canonical !! j = Some d -> (i < j)%nat -> output_lt c d.
Proof.
  clear canonical_epochs. intros Hi Hj Hij. revert i j Hi Hj Hij.
  induction canonical_sorted as [|x l Hs IH Hf]; [done|]. intros [|i] [|j] Hi Hj Hij; try lia.
  - injection Hi as <-. rewrite Forall_forall in Hf. apply Hf. by eapply list_elem_of_lookup_2.
  - eapply (IH Hs i j); [done..|lia].
Qed.

Lemma canonical_index i j c d :
  canonical !! i = Some c -> canonical !! j = Some d -> position c = position d -> i = j.
Proof.
  intros Hi Hj Hp. destruct (lt_eq_lt_dec i j) as [[Hlt|?]|Hlt]; [|done|].
  - destruct (irreflexivity position_lt (position c)). rewrite Hp at 2. by eapply (canonical_lt i j).
  - destruct (irreflexivity position_lt (position c)). rewrite Hp at 1. by eapply (canonical_lt j i).
Qed.

(** The decision on a variant of the output at index [k] of the chain. *)
Lemma admission_canonical n last o k c :
  anchored n last -> canonical !! k = Some c -> variants o c -> (k <= n)%nat ->
  admission (Er := Er) last o = Ret (bool_decide (k = n)).
Proof.
  intros Han Hk Hv Hkn. destruct n as [|n]; simpl in Han.
  { subst last. simpl. by rewrite bool_decide_eq_true_2 by lia. }
  destruct Han as (d & l & Hd & -> & Hp & Hdig). simpl.
  rewrite Hp, (variants_position _ _ Hv), (variants_sub_dag_digest _ _ Hv), Hdig.
  pose proof (position_cmp_spec (position c) (position d)) as Hcmp.
  destruct (decide (k = Datatypes.S n)) as [->|Hne].
  - rewrite bool_decide_eq_true_2 by done.
    assert (Hlt : output_lt d c) by (eapply (canonical_lt n); [done..|lia]).
    destruct (position_cmp _ _).
    + unfold output_lt in Hlt. rewrite Hcmp in Hlt. by destruct (irreflexivity position_lt (position d)).
    + destruct (irreflexivity position_lt (position c)). by etrans.
    + rewrite Forall_forall in canonical_epochs. specialize (canonical_epochs d).
      rewrite uadd_ok; [done|]. assert (d ∈ canonical) by by eapply list_elem_of_lookup_2.
      specialize (canonical_epochs ltac:(done)). lia.
  - rewrite bool_decide_eq_false_2 by done. destruct (decide (k = n)) as [->|Hne'].
    + rewrite Hd in Hk. injection Hk as ->.
      destruct (position_cmp _ _); [|done|]; [by rewrite Z.eqb_refl|].
      by destruct (irreflexivity position_lt (position c)).
    + assert (Hlt : output_lt c d) by (eapply (canonical_lt k n); [done..|lia]).
      destruct (position_cmp _ _); [|done|].
      * unfold output_lt in Hlt. rewrite Hcmp in Hlt. by destruct (irreflexivity position_lt (position d)).
      * destruct (irreflexivity position_lt (position c)). by etrans.
Qed.

(** What gap-free deliveries enqueue: the next outputs of the chain, without a
    gap and without a fork. *)
Lemma admissions_canonical last l :
  anchored start last -> (start <= length canonical)%nat -> gap_free l ->
  exists m adm last', admissions (Er := Er) last l = Ret (adm, last') /\
    anchored (start + m) last' /\ (start + m <= length canonical)%nat /\
    Forall2 variants adm (take m (drop start canonical)) /\
    (forall o, o ∈ l -> exists k c, canonical !! k = Some c /\ variants o c /\ (k < start + m)%nat).
Proof.
  intros Han Hlen. induction l as [|o l IH] using rev_ind; intros Hgap.
  { exists 0%nat, [], last. rewrite Nat.add_0_r, take_0. split_and!; try done. intros o Ho. set_solver. }
  destruct IH as (m & adm & last' & Hadm & Han' & Hm & Hf & Hseen).
  { intros l1 x l2 ->. destruct (Hgap l1 x (l2 ++ [o])) as (k & c & ?); [by rewrite <-app_assoc|eauto]. }
  destruct (Hgap l o []) as (k & c & Hk & Hv & Hnext); [done|].
  assert (Hkm : (k <= start + m)%nat).
  { destruct Hnext as [?|(j & c' & o' & -> & Hj & Ho' & Hv')]; [lia|].
    destruct (Hseen o' Ho') as (j' & c'' & Hj' & Hv'' & Hlt).
    assert (j = j') as ->; [|lia]. eapply canonical_index; [done|done|].
    by rewrite <-(variants_position _ _ Hv'), <-(variants_position _ _ Hv''). }
  pose proof (admission_canonical _ _ _ _ _ Han' Hk Hv Hkm) as Hdec.
  pose proof (admissions_snoc _ _ _ _ _ _ Hadm Hdec) as Hsnoc.
  case_bool_decide as Hnew.
  - subst k. exists (Datatypes.S m), (adm ++ [o]), (Some (admitted_as o)).
    assert (Hlt : (start + m < length canonical)%nat) by by eapply lookup_lt_Some.
    assert (Htake : take (Datatypes.S m) (drop start canonical) = take m (drop start canonical) ++ [c])
      by (apply take_S_r; by rewrite lookup_drop).
    rewrite Nat.add_succ_r, Htake. split_and!; [done| |lia|apply Forall2_app; [done|by constructor]|].
    + exists c, (admitted_as o). split_and!; [done|done|by apply variants_position|by apply variants_sub_dag_digest].
    + intros x [Hx|Hx%list_elem_of_singleton]%elem_of_app; [|subst x]; [|by exists (start + m)%nat, c; auto].
      destruct (Hseen x Hx) as (j & d & ? & ? & ?). exists j, d. auto.
  - exists m, adm, last'. split_and!; [done..|].
    intros x [Hx|Hx%list_elem_of_singleton]%elem_of_app; [|subst x]; [by apply Hseen|].
    exists k, c. split_and!; [done|done|lia].
Qed.

Lemma gap_free_prefix l1 l2 : l1 `prefix_of` l2 -> gap_free l2 -> gap_free l1.
Proof.
  intros [k ->] Hg a o b ->. apply (Hg a o (b ++ k)). by rewrite <-app_assoc.
Qed.

Lemma fails_without_fork snt e consumed adm ran p last0 r :
  stop_reason spec block_gas_limit clock last0 snt e consumed adm ran p r ->
  anchored start last0 -> (start <= length canonical)%nat -> gap_free snt ->
  r <> Panic /\ forall ep rd, r <> Err (ConsensusFork ep rd).
Proof.
  intros Hr Han Hlen Hgap.
  destruct Hr as [Hsh|Hcl Hsh Hrun|o last' r' Hpre Hadm Hr' Hn|o p' r' er Hpre He Hd Ht|o Hpre Hsh]; try done.
  - apply gap_free_prefix in Hpre; [|done].
    destruct (admissions_canonical _ _ Han Hlen Hpre) as (m & adm' & last2 & Ha & _).
    rewrite (admissions_app _ _ _ _ _ Hadm) in Ha. cbn in Ha. rewrite Hr' in Ha.
    destruct r' as [b| | |]; try done; by destruct (Hn b).
  - split; [done|]. intros ep rd [= ->]. destruct r' as [[??]|er'| |]; try done. injection Ht as ->.
    by apply execute_output_errors in He.
Qed.

(** C14: An engine whose deliveries do not skip follows the chain of consensus
    outputs: however often outputs are delivered again, by whichever feeds, and
    whichever certificates stand for the committed headers, its blocks are those
    of the sequential execution of the next outputs of the chain. It never
    halts on a fork, and no poll panics (a panic of the thread that executes is
    caught and ends the engine with an error; a release build aborts there). At
    rest with nothing left on its channel it has executed every output delivered
    to it, and its state is that of the sequential run. *)
Theorem engine_follows_chain parent p0 anchor idle last_header es :
  (start <= length canonical)%nat ->
  anchored start (last_admitted (fresh_engine parent p0 anchor idle last_header)) ->
  current_rules spec (h_number parent) -> gap_free (sent es) ->
  let w := engine_run (fresh_engine parent p0 anchor idle last_header) es in
  exists m p blocks,
    run_outputs (take m (drop start canonical)) parent p0 =
      (p, Ret (en_parent_header (engine w), blocks)) /\
    (forall r, pc w = Finished r -> r <> Panic /\ forall ep rd, r <> Err (ConsensusFork ep rd)) /\
    (pc w = Suspended -> engine_idle_tx (engine w) = Some true ->
     consensus_output_stream (engine w) = {| messages := []; closed := false |} ->
     processor (engine w) = p /\
     forall o, o ∈ sent es -> exists k c,
       canonical !! k = Some c /\ variants o c /\ (k < start + m)%nat).
Proof.
  intros Hlen Han Hrules Hgap w.
  destruct (inv_executed parent p0 anchor idle last_header es)
    as (consumed & ran & p & blocks & [Hrun _] & _ & Hpre & adm & last & Ha & Hr & Hstop & Hl).
  destruct (admissions_canonical _ _ Han Hlen (gap_free_prefix _ _ Hpre Hgap))
    as (m & adm' & last2 & Ha' & _ & Hm & Hf & Hseen).
  rewrite Ha in Ha'. injection Ha' as <- <-. fold w in Hrun, Hstop, Hl.
  pose proof (prefix_length _ _ Hr) as Hrl. pose proof (Forall2_length _ _ _ Hf) as Hfl.
  rewrite length_take, length_drop in Hfl.
  assert (Hran : Forall2 variants ran (take (length ran) (drop start canonical))).
  { destruct Hr as [k ->]. apply Forall2_app_inv_l in Hf as (c1 & c2 & Hc1 & _ & Hc).
    rewrite (Forall2_length _ _ _ Hc1). rewrite length_app in Hrl, Hfl.
    pose proof (Forall2_length _ _ _ Hc1).
    replace (take (length c1) (drop start canonical)) with
      (take (length c1) (take m (drop start canonical))) by (rewrite take_take; f_equal; lia).
    by rewrite Hc, take_app_length. }
  exists (length ran), p, blocks. split_and!.
  - by rewrite <-(variants_run_outputs _ _ _ ran) by done.
  - intros r Hpc. by eapply fails_without_fork; [apply Hstop| |..].
  - intros Hpc Hidle Hstream. destruct Hl as (Hadm & Hp & Hopen); [by rewrite Hpc|].
    assert (Hi : is_idle (engine w) = true)
      by by apply (engine_run_idle (fresh_engine parent p0 anchor idle last_header)).
    unfold is_idle in Hi. unfold job_of in Hadm.
    destruct (pending_task (engine w)) eqn:Ep; [done|]. destruct (queued (engine w)); [|done].
    rewrite !app_nil_r in Hadm. subst adm. split; [auto|].
    rewrite Hstream in Hopen. cbn in Hopen. rewrite app_nil_r in Hopen. rewrite Hopen by done.
    intros o Ho. destruct (Hseen o Ho) as (k & c & ? & ? & ?). exists k, c. split_and!; [done|done|lia].
Qed.

End chain.

(** ** A call of [poll] returns *)

Definition finished w : Prop := exists r, pc w = Finished r.

(** The outputs still to be executed. *)
Definition outstanding w : nat :=
  length (messages (consensus_output_stream (engine w))) + length (queued (engine w)) +
  match pending_task (engine w) with Some _ => 1 | None => 0 end.

(** The pending task has sent its result. *)
Definition result_sent w : Prop :=
  exists t r, pending_task (engine w) = Some t /\ pt_state t = Sent r.

Definition task_running w : Prop :=
  exists t o h, pending_task (engine w) = Some t /\ pt_state t = Running /\ pt_job t = Some (o, h).

(** Nothing to do until a new output arrives, and so published. *)
Definition at_rest w : Prop :=
  is_idle (engine w) = true /\
  consensus_output_stream (engine w) = {| messages := []; closed := false |} /\
  (engine_idle_tx (engine w) = None \/ engine_idle_tx (engine w) = Some true).

(** How long the loop can still run. *)
Definition loop_measure w : nat :=
  3 * (length (messages (consensus_output_stream (engine w))) +
       match pending_task (engine w) with
       | None => match pc w with AtReceiver => 1 | _ => 0 end
       | Some t => match pt_state t with Sent (Ret _) => 1 | _ => 0 end
       end) +
  match pc w with AtLoop => 3 | AtTask => 2 | AtReceiver => 1 | _ => 0 end.

(** What the loop relies on: a running task has a job, and the loop reaches the
    tasks without any when the channel is empty and open only. *)
Definition loop_ok w : Prop :=
  (forall t, pending_task (engine w) = Some t -> pt_state t = Running -> pt_job t <> None) /\
  (pc w = AtTask -> is_idle (engine w) = true ->
   consensus_output_stream (engine w) = {| messages := []; closed := false |}).

Record loop_step w w' : Prop := {
  ls_measure : returned w' = true \/ (loop_measure w' < loop_measure w)%nat;
  ls_outstanding : (outstanding w' <= outstanding w)%nat;
  ls_result : result_sent w -> finished w' \/ result_sent w' \/ (outstanding w' < outstanding w)%nat;
  ls_ok : loop_ok w';
  ls_rest : pc w' = Suspended -> (task_running w' \/ at_rest w') /\ ~ result_sent w
}.

Lemma finished_step w w' r :
  pc w' = Finished r -> (outstanding w' <= outstanding w)%nat -> loop_ok w' -> loop_step w w'.
Proof.
  intros Hr Ho Hok. split; [|done| |done|].
  - left. unfold returned. by rewrite Hr.
  - intros _. left. by exists r.
  - by rewrite Hr.
Qed.

(** A step to [AtLoop] or [AtTask] that leaves the pending task. *)
Lemma loop_step_goto w w' :
  pending_task (engine w') = pending_task (engine w) -> pc w = AtLoop ->
  pc w' = AtLoop /\ (length (messages (consensus_output_stream (engine w'))) <
                     length (messages (consensus_output_stream (engine w))))%nat \/
  pc w' = AtTask /\ (length (messages (consensus_output_stream (engine w'))) <=
                     length (messages (consensus_output_stream (engine w))))%nat ->
  (outstanding w' <= outstanding w)%nat -> loop_ok w' -> loop_step w w'.
Proof.
  intros Hp Hpc Hgo Ho Hok. split; [|done| |done|].
  - right. unfold loop_measure. rewrite Hp, Hpc. destruct Hgo as [[-> ?]|[-> ?]]; destruct (pending_task _); lia.
  - unfold result_sent. rewrite Hp. auto.
  - destruct Hgo as [[-> _]|[-> _]]; done.
Qed.

Lemma poll_stream_step w : pc w = AtLoop -> loop_ok w -> loop_step w (poll_stream w).
Proof.
  intros Hpc [Hj _]. unfold poll_stream. set (e := engine w) in *.
  destruct (Nat.leb_spec MAX_QUEUED_OUTPUTS (length (queued e))) as [Hfull|_].
  { apply loop_step_goto; try done; [by right|]. split; [done|]. intros _ Hi. cbn in Hi. fold e in Hi.
    unfold is_idle in Hi. destruct (pending_task e); [done|]. destruct (queued e); [|done]. cbn in Hfull.
    unfold MAX_QUEUED_OUTPUTS in Hfull. lia. }
  destruct (messages (consensus_output_stream e)) as [|o rest] eqn:Em.
  - destruct (closed (consensus_output_stream e)) eqn:Ec.
    + destruct (is_idle e) eqn:Ei; [by eapply finished_step|].
      apply loop_step_goto; try done; [by right|]. split; [done|]. cbn. fold e. by rewrite Ei.
    + apply loop_step_goto; try done; [by right|]. split; [done|]. intros _ _. cbn. fold e.
      destruct (consensus_output_stream e). cbn in *. by subst.
  - destruct (admission _ o) as [[]|er| |] eqn:Ea.
    + apply loop_step_goto; try done; cbn; fold e; rewrite ?Em.
      * right. cbn. split; [done|lia].
      * unfold outstanding. cbn. fold e. rewrite Em, length_app. cbn. lia.
      * split; [done|]. intros _. cbn. fold e. unfold is_idle. cbn.
        destruct (pending_task e); [done|]. by destruct (queued e).
    + apply loop_step_goto; try done; cbn; fold e; rewrite ?Em.
      * left. cbn. split; [done|lia].
      * unfold outstanding. cbn. fold e. rewrite Em. cbn. lia.
    + eapply finished_step; [done| |done]. unfold outstanding. cbn. fold e. rewrite Em. cbn. lia.
    + eapply finished_step; [done| |done]. unfold outstanding. cbn. fold e. rewrite Em. cbn. lia.
    + eapply finished_step; [done| |done]. unfold outstanding. cbn. fold e. rewrite Em. cbn. lia.
Qed.

Lemma poll_pending_at_rest w :
  is_idle (engine w) = true ->
  consensus_output_stream (engine w) = {| messages := []; closed := false |} ->
  at_rest (poll_pending w).
Proof.
  intros Hi Hs. unfold at_rest. cbn. destruct (engine_idle_tx (engine w)) eqn:E; cbn.
  - split_and!; [exact Hi|done|right; by rewrite Hi].
  - auto.
Qed.

Lemma poll_pending_fields w :
  pending_task (engine (poll_pending w)) = pending_task (engine w) /\
  outstanding (poll_pending w) = outstanding w.
Proof. unfold outstanding. cbn. by destruct (engine_idle_tx (engine w)). Qed.

Lemma poll_spawn_step w : pc w = AtTask -> loop_ok w -> loop_step w (poll_spawn w).
Proof.
  intros Hpc [Hj Hrest]. unfold poll_spawn. destruct (pending_task (engine w)) as [t|] eqn:Ep.
  { split; try done; [|intros Hs; right; left; exact Hs|split; [|done]; cbn; by rewrite Ep].
    right. unfold loop_measure. cbn. rewrite Ep, Hpc. lia. }
  destruct (poll_pending_fields w) as [Hp Ho].
  assert (Hno : ~ result_sent w) by (intros (t & r & Ht & _); by rewrite Ep in Ht).
  destruct (queued (engine w)) as [|o rest] eqn:Eq.
  - assert (Hidle : is_idle (engine w) = true) by (unfold is_idle; by rewrite Ep, Eq).
    split; [by left|lia|done| |].
    + split; [rewrite Hp, Ep; done|done].
    + intros _. split; [right; by apply poll_pending_at_rest; auto|done].
  - unfold spawn_execution_task. rewrite Eq. split; [|..|done]; cbn; [| |done|].
    + right. unfold loop_measure. cbn. rewrite Ep, Hpc. lia.
    + unfold outstanding. cbn. rewrite Ep, Eq. cbn. lia.
    + split; [|done]. cbn. by intros t [= <-].
Qed.

Lemma poll_receiver_step w : pc w = AtReceiver -> loop_ok w -> loop_step w (poll_receiver w).
Proof.
  intros Hpc [Hj Hrest]. unfold poll_receiver. destruct (pending_task (engine w)) as [t|] eqn:Ep.
  2: { split; try done.
       - right. unfold loop_measure. cbn. rewrite Ep, Hpc. lia.
       - intros (t & r & Ht & _). by rewrite Ep in Ht.
       - split; [|done]. cbn. by rewrite Ep. }
  assert (Hfin : forall r, loop_step w (goto w (set_pending (engine w) None) (Finished r))).
  { intros r. eapply finished_step; [done| |done]. unfold outstanding. cbn. rewrite Ep. lia. }
  destruct (pt_state t) as [|[h|er| |]|] eqn:Est; try by apply Hfin.
  - set (w1 := {| engine := engine w; pc := AtReceiver; stream_waker := _; task_waker := _; woken := _ |}).
    destruct (poll_pending_fields w1) as [Hp Ho].
    assert (Hno : ~ result_sent w).
    { intros (t' & r & Ht & Hr). rewrite Ep in Ht. injection Ht as <-. by rewrite Est in Hr. }
    split; [by left|rewrite Ho; unfold outstanding; cbn; lia|done| |].
    + split; [|done]. rewrite Hp. cbn. by rewrite Ep.
    + intros _. split; [|done]. left. destruct (pt_job t) as [[o h]|] eqn:Ejob; [|by destruct (Hj t)].
      exists t, o, h. rewrite Hp. by split_and!.
  - destruct (executed_anchor_tx _), (pt_anchor t); (split; try done; cbn;
      [right; unfold loop_measure; cbn; rewrite Ep, Est, Hpc; lia
      |unfold outstanding; cbn; rewrite Ep; lia
      |intros _; right; right; unfold outstanding; cbn; rewrite Ep; lia]).
  - destruct er; apply Hfin.
Qed.

Lemma loop_turn_step w : returned w = false -> loop_ok w -> loop_step w (turn w).
Proof.
  unfold returned, turn. destruct (pc w) eqn:Epc; intros Hr Hok; try done;
    [by apply poll_stream_step|by apply poll_spawn_step|by apply poll_receiver_step].
Qed.

(** What a call of [poll] that nothing interrupts leaves behind. *)
Record poll_result w w' : Prop := {
  pr_returned : finished w' \/ pc w' = Suspended /\ (task_running w' \/ at_rest w');
  pr_outstanding : (outstanding w' <= outstanding w)%nat;
  pr_result : result_sent w -> finished w' \/ (outstanding w' < outstanding w)%nat
}.

Lemma poll_loop_returned fuel w : returned w = true -> poll_loop fuel w = w.
Proof. by destruct fuel; simpl; [|intros ->]. Qed.

Lemma poll_loop_result fuel w :
  (loop_measure w <= fuel)%nat -> returned w = false -> loop_ok w ->
  poll_result w (poll_loop fuel w).
Proof.
  revert w. induction fuel as [|fuel IH]; intros w Hm Hr Hok.
  { unfold loop_measure in Hm. unfold returned in Hr. destruct (pc w); try done; lia. }
  simpl. rewrite Hr. destruct (loop_turn_step w Hr Hok) as [Hmeas Ho Hres Hok' Hrest].
  destruct (returned (turn w)) eqn:Eret.
  - rewrite poll_loop_returned by done. split; [|done|].
    + unfold returned in Eret. destruct (pc (turn w)) eqn:Epc; try done; [|left; by eexists].
      right. split; [done|]. by apply Hrest.
    + intros Hs. destruct (Hres Hs) as [?|[Hs'|?]]; [by left| |by right].
      unfold returned in Eret. destruct (pc (turn w)) eqn:Epc; try done; [|left; by eexists].
      by destruct (Hrest eq_refl) as [_ []].
  - destruct Hmeas as [?|Hmeas]; [congruence|].
    destruct (IH (turn w)) as [Hret Ho' Hres']; [lia|done|done|]. split; [done|lia|].
    intros Hs. destruct (Hres Hs) as [[r Hfin]|[Hs'|?]].
    + unfold returned in Eret. by rewrite Hfin in Eret.
    + destruct (Hres' Hs') as [?|?]; [by left|right; lia].
    + right. lia.
Qed.

Lemma poll_start_fields w :
  outstanding (poll_start w) = outstanding w /\
  pending_task (engine (poll_start w)) = pending_task (engine w) /\
  consensus_output_stream (engine (poll_start w)) = consensus_output_stream (engine w).
Proof. unfold outstanding. cbn. by destruct (rx_shutdown (engine w)). Qed.

Lemma poll_result_of w : pc w = Suspended -> loop_ok w -> poll_result w (poll w).
Proof.
  intros Hpc [Hj _]. unfold poll, turn. rewrite Hpc.
  destruct (poll_start_fields w) as (Ho & Hp & Hs).
  assert (Hok : loop_ok (poll_start w)).
  { split; [by rewrite Hp|]. intros Hpc'. cbn in Hpc'. by case_match. }
  destruct (returned (poll_start w)) eqn:Eret.
  - rewrite poll_loop_returned by done. assert (Hfin : finished (poll_start w)).
    { unfold returned in Eret. cbn in *. destruct (_ && _) eqn:E; [|done]. eexists. cbn. by rewrite E. }
    split; [by left|lia|by left].
  - destruct (poll_loop_result (poll_fuel w) (poll_start w)) as [Hret Ho' Hres]; [|done|done|].
    { unfold loop_measure, poll_fuel. rewrite Hs, Hp. cbn [pc poll_start].
      unfold returned in Eret. cbn in Eret. destruct (_ && _); [done|].
      destruct (pending_task (engine w)) as [t|]; [destruct (pt_state t) as [|[]|]|]; lia. }
    split; [done|lia|]. intros (t & r & Ht & Hst). rewrite <-Ho. apply Hres.
    exists t, r. by rewrite Hp.
Qed.

Lemma reachable_loop_ok parent p0 anchor idle last_header es :
  let w := engine_run (fresh_engine parent p0 anchor idle last_header) es in
  pc w = Suspended -> loop_ok w.
Proof.
  intros w Hpc. split; [|by rewrite Hpc]. intros t Ht _.
  destruct (fresh_inv parent p0 anchor idle last_header es) as (c & ran & p & b & Hi). fold w in Hi.
  rewrite Hpc in Hi. destruct Hi as [_ _ _ _ _ Htask]. rewrite Ht in Htask.
  destruct Htask as (o & Hjob & _). by rewrite Hjob.
Qed.

(** C31: Every call of [poll] returns, within a number of steps linear in the
    messages on the channel; the engine then has stopped, or waits for the
    output it is executing, or has executed everything it was sent and says
    so. *)
Theorem poll_returns parent p0 anchor idle last_header es :
  let w := engine_run (fresh_engine parent p0 anchor idle last_header) es in
  pc w = Suspended ->
  finished (poll w) \/ pc (poll w) = Suspended /\ (task_running (poll w) \/ at_rest (poll w)).
Proof.
  intros w Hpc. apply (poll_result_of w); [done|]. by apply reachable_loop_ok.
Qed.

(** ** The engine drains *)

Section drain.
Hypothesis returns : executor_returns.
Abbreviation run_job := (run_job spec block_gas_limit clock).
Abbreviation engine_step := (engine_step spec block_gas_limit clock).

(** One call of [poll], then the thread runs its job to the end. *)
Definition round w : Task := run_job (poll w).

Lemma run_job_running w :
  task_running w ->
  pc (run_job w) = pc w /\ outstanding (run_job w) = outstanding w /\ result_sent (run_job w).
Proof.
  intros (t & o & h & Ht & Hst & Hjob). unfold EngineLoop.run_job, result_sent, outstanding.
  rewrite Ht, Hst, Hjob.
  destruct (execute_consensus_output _ _ _ o h (processor (engine w))) as [p' r] eqn:Erun.
  apply execute_consensus_output_run in Erun as (r' & Hex & Hr & Hd).
  destruct r; cbn; rewrite ?Ht; try (split_and!; [done|done|by eexists _, _]).
  rewrite (proj2 Hd eq_refl) in Hex. by apply execute_output_returns in Hex.
Qed.

Lemma run_job_idle w : pending_task (engine w) = None -> run_job w = w.
Proof. unfold EngineLoop.run_job. by intros ->. Qed.

Lemma run_job_pc w : pc (run_job w) = pc w.
Proof.
  unfold EngineLoop.run_job. destruct (pending_task _) as [t|]; [|done].
  destruct (pt_job t) as [[o h]|], (pt_state t); try done.
  by destruct (execute_consensus_output _ _ _ o h _) as [p' []].
Qed.

Lemma at_rest_idle w : at_rest w -> pending_task (engine w) = None.
Proof. intros [Hi _]. unfold is_idle in Hi. by destruct (pending_task _). Qed.

Lemma result_sent_ok w : pc w = Suspended -> result_sent w \/ at_rest w -> loop_ok w.
Proof.
  intros Hpc Hw. split; [|by rewrite Hpc]. intros t Ht Hst.
  destruct Hw as [(t' & r & Ht' & Hst')|Hw%at_rest_idle]; congruence.
Qed.

Lemma round_progress w :
  pc w = Suspended -> loop_ok w ->
  finished (round w) \/
  pc (round w) = Suspended /\ (result_sent (round w) \/ at_rest (round w)) /\
  (outstanding (round w) <= outstanding w)%nat /\
  (result_sent w -> (outstanding (round w) < outstanding w)%nat).
Proof.
  intros Hpc Hok. unfold round. destruct (poll_result_of w Hpc Hok) as [Hret Ho Hres].
  destruct Hret as [[r Hfin]|[Hs Hw]]; [left; exists r; by rewrite run_job_pc|].
  assert (Hnf : ~ finished (poll w)) by (intros [r Hr]; congruence).
  assert (Hdec : result_sent w -> (outstanding (poll w) < outstanding w)%nat)
    by (intros H'; by destruct (Hres H')).
  right. destruct Hw as [Hrun|Hrest].
  - destruct (run_job_running _ Hrun) as (Hp & Hout & Hsent). rewrite Hp, Hout. auto.
  - rewrite run_job_idle by by apply at_rest_idle. auto.
Qed.

Lemma rounds_drain k w :
  (outstanding w <= k)%nat -> pc w = Suspended -> result_sent w \/ at_rest w ->
  exists n, (n <= outstanding w)%nat /\ (finished (Nat.iter n round w) \/ at_rest (Nat.iter n round w)).
Proof.
  revert w. induction k as [|k IH]; intros w Hk Hpc Hw.
  all: destruct Hw as [Hs|Hr]; [|exists 0%nat; split; [lia|by right]].
  { destruct Hs as (t & r & Ht & _). unfold outstanding in Hk. rewrite Ht in Hk. lia. }
  destruct (round_progress w Hpc) as [Hfin|(Hpc' & Hw' & Ho & Hdec)]; [by apply result_sent_ok; auto| |].
  - exists 1%nat. split; [|by left]. destruct Hs as (t & r & Ht & _). unfold outstanding. rewrite Ht. lia.
  - specialize (Hdec Hs). destruct (IH (round w)) as (n & Hn & Hend); [lia|done|done|].
    exists (Datatypes.S n). split; [lia|]. by rewrite Nat.iter_succ_r.
Qed.

(** Rounds are steps of the engine and its thread. *)
Lemma poll_loop_events fuel w : exists es', sent es' = [] /\ poll_loop fuel w = foldl engine_step w es'.
Proof.
  revert w. induction fuel as [|fuel IH]; intros w; simpl; [by exists []|].
  case_match; [by exists []|]. destruct (IH (turn w)) as (es' & Hs & ->). by exists (Turn :: es').
Qed.

Lemma rounds_events n w : exists es', sent es' = [] /\ Nat.iter n round w = foldl engine_step w es'.
Proof.
  induction n as [|n (es' & Hs & IH)]; [by exists []|]. rewrite Nat.iter_succ, IH.
  set (w1 := foldl engine_step w es').
  destruct (poll_loop_events (poll_fuel w1) (turn w1)) as (es2 & Hs2 & Heq).
  exists (es' ++ Turn :: es2 ++ [RunJob]). split.
  - unfold sent in *. rewrite omap_app, Hs. cbn. by rewrite omap_app, Hs2.
  - rewrite foldl_app. fold w1. cbn. rewrite foldl_app. unfold round, poll. by rewrite Heq.
Qed.

(** Left alone, with an EVM that answers, the engine executes
    everything it was sent: after at most one round of a call of [poll] and a run
    of its thread per outstanding output, and one more, it has stopped, or is
    published idle with an empty queue and an empty channel, and all it
    admitted has been executed. *)
Theorem engine_drains parent p0 anchor idle last_header es :
  let e0 := fresh_engine parent p0 anchor idle last_header in
  let w := engine_run e0 es in
  pc w = Suspended ->
  exists n es', (n <= outstanding w + 1)%nat /\ sent es' = [] /\
    Nat.iter n round w = engine_run e0 (es ++ es') /\
    (finished (Nat.iter n round w) \/ at_rest (Nat.iter n round w)).
Proof.
  intros e0 w Hpc.
  assert (Hok : loop_ok w) by by apply reachable_loop_ok.
  assert (exists n, (n <= outstanding w + 1)%nat /\
            (finished (Nat.iter n round w) \/ at_rest (Nat.iter n round w))) as (n & Hn & Hend).
  { destruct (round_progress w Hpc Hok) as [Hfin|(Hpc' & Hw' & Ho & _)]; [by exists 1%nat; split; [lia|left]|].
    destruct (rounds_drain (outstanding (round w)) (round w)) as (n & Hn & Hend); [done..|].
    exists (Datatypes.S n). split; [lia|]. by rewrite Nat.iter_succ_r. }
  destruct (rounds_events n w) as (es' & Hs & Heq). exists n, es'. split_and!; try done.
  rewrite Heq. unfold w, EngineLoop.engine_run. by rewrite foldl_app.
Qed.

End drain.

(** ** No lost wake-up *)

(** Nothing to do and a waker on the channel. *)
Definition waits_for_stream w : Prop :=
  is_idle (engine w) = true /\ stream_waker w = true /\
  consensus_output_stream (engine w) = {| messages := []; closed := false |}.

Definition waits_for_task w : Prop :=
  task_waker w = true /\ exists t, pending_task (engine w) = Some t /\ pt_state t = Running.

Definition wakes w : Prop :=
  match pc w with
  | Suspended => woken w = true \/ waits_for_task w \/ waits_for_stream w
  | AtTask => is_idle (engine w) = true -> woken w = true \/ waits_for_stream w
  | _ => True
  end.

Lemma poll_pending_wakes w :
  woken w = true \/ waits_for_task w \/ waits_for_stream w -> wakes (poll_pending w).
Proof.
  unfold wakes, waits_for_task, waits_for_stream. cbn. by destruct (engine_idle_tx (engine w)).
Qed.

Lemma turn_wakes w : wakes w -> wakes (turn w).
Proof.
  unfold turn. destruct (pc w) eqn:Epc; intros Hw; [| | | |done].
  - unfold wakes. cbn. by destruct (_ && _).
  - unfold poll_stream. set (e := engine w) in *.
    destruct (Nat.leb_spec MAX_QUEUED_OUTPUTS (length (queued e))) as [Hfull|_].
    { unfold wakes. cbn. unfold is_idle. fold e. intros Hi. destruct (pending_task e); [done|].
      destruct (queued e); [|done]. cbn in Hfull. unfold MAX_QUEUED_OUTPUTS in Hfull. lia. }
    destruct (messages _) as [|o rest] eqn:Em.
    + destruct (closed _) eqn:Ec.
      * destruct (is_idle e) eqn:Ei; [done|]. unfold wakes. cbn. fold e. by rewrite Ei.
      * unfold wakes, waits_for_stream. cbn. fold e. intros Hi. right. split_and!; [done|done|].
        destruct (consensus_output_stream e). cbn in *. by subst.
    + destruct (admission _ o) as [[]|er| |] eqn:Ea; unfold wakes; cbn; try done.
      unfold is_idle. cbn. destruct (pending_task _); [done|]. by destruct (queued _).
  - unfold wakes in Hw. rewrite Epc in Hw. unfold poll_spawn.
    destruct (pending_task (engine w)) as [t|] eqn:Ep; [done|].
    destruct (queued (engine w)) as [|o rest] eqn:Eq; [|done]. apply poll_pending_wakes.
    destruct Hw as [?|?]; [unfold is_idle; by rewrite Ep, Eq|auto|auto].
  - unfold poll_receiver. destruct (pending_task (engine w)) as [t|] eqn:Ep; [|done].
    destruct (pt_state t) as [|[h|er| |]|] eqn:Est; try done; [|by destruct er].
    apply poll_pending_wakes. right. left. split; [done|]. by exists t.
Qed.

(** A job that leaves its task keeps whether the engine is idle. *)
Lemma task_sent_wakes w (e' : Engine) t t' :
  wakes w -> pending_task (engine w) = Some t -> pt_state t = Running ->
  pending_task e' = Some t' -> queued e' = queued (engine w) ->
  wakes {| engine := e'; pc := pc w; stream_waker := stream_waker w; task_waker := false;
           woken := woken w || task_waker w |}.
Proof.
  intros Hw Ht Hst Ht' Hq. unfold wakes, waits_for_task, waits_for_stream, is_idle in *. cbn.
  rewrite Ht in Hw. rewrite Ht'. destruct (pc w); try done.
  destruct Hw as [->|[[-> _]|[? _]]]; [by left|left; by rewrite orb_true_r|done].
Qed.

Lemma with_stream_wakes w c : wakes w -> wakes (with_stream w c).
Proof.
  unfold wakes, waits_for_task, waits_for_stream, is_idle. cbn. destruct (pc w); try done.
  - intros [->|[Ht|(_ & -> & _)]]; [by left|by right; left|left; by rewrite orb_true_r].
  - intros Hw Hi. destruct (Hw Hi) as [->|(_ & -> & _)]; left; [done|by rewrite orb_true_r].
Qed.

Lemma engine_step_wakes w ev : wakes w -> wakes (EngineLoop.engine_step spec block_gas_limit clock w ev).
Proof.
  intros Hw. destruct ev as [o| | | | |]; cbn; [| | | | |by apply turn_wakes].
  - repeat case_match; try done; by apply with_stream_wakes.
  - by apply with_stream_wakes.
  - unfold wakes, waits_for_task, waits_for_stream in *. cbn. destruct (pc w); auto.
  - unfold run_job. destruct (pending_task (engine w)) as [t|] eqn:Ep; [|done].
    destruct (pt_job t) as [[o h]|], (pt_state t) eqn:Est; try done.
    destruct (execute_consensus_output _ _ _ o h _) as [p' []]; try done; by eapply task_sent_wakes.
  - unfold drop_job. destruct (pending_task (engine w)) as [t|] eqn:Ep; [|done].
    destruct (pt_state t) eqn:Est; try done. by eapply task_sent_wakes.
Qed.

(** The engine never sleeps on work: whenever it is suspended and no waker
    has fired since, the output it executes is still running, or there is
    nothing queued and nothing on its open channel. *)
Theorem engine_never_sleeps_on_work parent p0 anchor idle last_header es :
  let w := engine_run (fresh_engine parent p0 anchor idle last_header) es in
  pc w = Suspended -> woken w = false ->
  (exists t, pending_task (engine w) = Some t /\ pt_state t = Running) \/
  (is_idle (engine w) = true /\
   consensus_output_stream (engine w) = {| messages := []; closed := false |}).
Proof.
  intros w Hpc Hwoken. assert (Hw : wakes w).
  { unfold w, engine_run. clear. induction es as [|ev es IH] using rev_ind; [by left|].
    rewrite foldl_app. by apply engine_step_wakes. }
  unfold wakes in Hw. rewrite Hpc in Hw. destruct Hw as [?|[[_ ?]|(? & _ & ?)]]; [congruence|by left|by right].
Qed.

End engine_props.

(** ** Witnesses *)

#[local] Existing Instance example_executor.
#[local] Existing Instance example_hashes.
#[local] Existing Instance example_crypto.

Definition example_last_header : ConsensusHeader :=
  {| ch_parent_hash := 0; ch_sub_dag := co_sub_dag (example_output Genesis); ch_number := 0;
     ch_extra := 0 |}.

Abbreviation example_fresh :=
  (fresh_engine (Er := unit) example_parent example_processor None (Some false) example_last_header).

(** An output is delivered and executed; then it is delivered again with
    another certificate and dropped. *)
Definition example_events : list EngineEvent :=
  [Send (example_output Genesis); Turn; Turn; Turn; Turn; RunJob;
   Send (example_output (VerifiedDirectly 8)); Turn; Turn; Turn; Turn; Turn; Turn; Turn].

Abbreviation example_task :=
  (engine_run example_spec 30000000 (fun _ => 0) example_fresh example_events).

Lemma example_gap_free : gap_free [example_output Genesis] 0 (sent example_events).
Proof.
  intros l1 o l2 Heq. assert (Ho : o ∈ sent example_events) by (rewrite Heq; set_solver).
  exists 0%nat, (example_output Genesis). split; [done|]. split; [|by left].
  change (o ∈ [example_output Genesis; example_output (VerifiedDirectly 8)]) in Ho.
  rewrite !elem_of_cons in Ho. destruct Ho as [->|[->|Ho]]; [by split|by split|by apply elem_of_nil in Ho].
Qed.

Lemma engine_follows_chain_witness :
  exists m p blocks,
    run_outputs example_spec 30000000 (fun _ => 0) (take m [example_output Genesis]) example_parent
      example_processor = (p, Ret (en_parent_header (engine example_task), blocks)) /\
    (forall r, pc example_task = Finished r ->
       r <> Panic /\ forall ep rd, r <> Err (ConsensusFork ep rd)) /\
    (pc example_task = Suspended -> engine_idle_tx (engine example_task) = Some true ->
     consensus_output_stream (engine example_task) = {| messages := []; closed := false |} ->
     processor (engine example_task) = p /\
     forall o, o ∈ sent example_events -> exists k c,
       [example_output Genesis] !! k = Some c /\ variants o c /\ (k < 0 + m)%nat).
Proof.
  apply (engine_follows_chain example_spec 30000000 (fun _ => 0) [example_output Genesis] 0) with
    (p0 := example_processor) (parent := example_parent) (anchor := None) (idle := Some false)
    (last_header := example_last_header) (es := example_events).
  - repeat constructor.
  - apply Forall_singleton. reflexivity.
  - simpl. lia.
  - reflexivity.
  - apply example_rules. simpl. lia.
  - exact example_gap_free.
Defined.

Lemma poll_returns_witness :
  pc example_task = Suspended /\
  (finished (poll example_task) \/
   pc (poll example_task) = Suspended /\
   (task_running (poll example_task) \/ at_rest (poll example_task))).
Proof.
  assert (Hpc : pc example_task = Suspended) by (vm_compute; reflexivity).
  split; [exact Hpc|].
  exact (poll_returns example_spec 30000000 (fun _ => 0) example_parent example_processor None
           (Some false) example_last_header example_events Hpc).
Defined.

Lemma example_returns : executor_returns (S := unit) (Er := unit).
Proof. by split. Qed.

Abbreviation example_waiting :=
  (engine_run example_spec 30000000 (fun _ => 0) example_fresh [Send (example_output Genesis)]).

Lemma engine_drains_witness :
  exists n es', (n <= outstanding example_waiting + 1)%nat /\ sent es' = [] /\
    Nat.iter n (round example_spec 30000000 (fun _ => 0)) example_waiting =
      engine_run example_spec 30000000 (fun _ => 0) example_fresh ([Send (example_output Genesis)] ++ es') /\
    (finished (Nat.iter n (round example_spec 30000000 (fun _ => 0)) example_waiting) \/
     at_rest (Nat.iter n (round example_spec 30000000 (fun _ => 0)) example_waiting)).
Proof.
  exact (engine_drains example_spec 30000000 (fun _ => 0) example_returns example_parent
           example_processor None (Some false) example_last_header [Send (example_output Genesis)]
           eq_refl).
Defined.

Lemma engine_never_sleeps_on_work_witness :
  pc example_task = Suspended /\ woken example_task = false /\
  ((exists t, pending_task (engine example_task) = Some t /\ pt_state t = Running) \/
   (is_idle (engine example_task) = true /\
    consensus_output_stream (engine example_task) = {| messages := []; closed := false |})).
Proof.
  assert (Hpc : pc example_task = Suspended) by (vm_compute; reflexivity).
  assert (Hw : woken example_task = false) by (vm_compute; reflexivity).
  split; [exact Hpc|]. split; [exact Hw|].
  exact (engine_never_sleeps_on_work example_spec 30000000 (fun _ => 0) example_parent
           example_processor None (Some false) example_last_header example_events Hpc Hw).
Defined.
