(* ===== verification/ConsensusChain.v ===== *)
(** * The consensus chain on disk

    The chain of consensus headers that every node keeps: the tables of
    [ConsensusStore] ([infrastructure/storage/src/stores/consensus_store.rs]),
    and the functions of [consensus/state-sync/src/lib.rs] and [consensus.rs]
    that save an output, cache a header, pick the tip for numbering, collect what
    must be replayed after a restart and recover the covered run of cached
    headers. Reads and writes of the database succeed. *)
From S2P Require Import Prelude Lists State Types Committee LeaderSchedule ConsensusState.
From S2P Require Import EpochRecords BatchOrdering Engine.
#[local] Open Scope Z_scope.

(** [last_record]: the entry with the highest key. *)
Definition last_record {A} (m : gmap Z A) : option (Z * A) := last (btree_list m).

Record ChainDb := {
  consensus_blocks : gmap Z ConsensusHeader;
  consensus_blocks_cache : gmap Z ConsensusHeader;
  consensus_block_numbers_by_digest : gmap B256 Z;
  chain_batches : gmap B256 Batch;
  epoch_tables : EpochDb
}.

Definition header_epoch (h : ConsensusHeader) : Epoch := leader_epoch (ch_sub_dag h).

Section chain.
Context `{!Crypto, !OutputHashes, !EpochCrypto}.
(** [Batch::digest] *)
Context (batch_hash : Batch -> B256).

Definition with_chain (db : ChainDb) (blocks cache : gmap Z ConsensusHeader)
    (numbers : gmap B256 Z) (batches : gmap B256 Batch) : ChainDb :=
  {| consensus_blocks := blocks; consensus_blocks_cache := cache;
     consensus_block_numbers_by_digest := numbers; chain_batches := batches;
     epoch_tables := epoch_tables db |}.

(** ** Reads *)

(** [get_canonical_consensus_by_hash] *)
Definition get_canonical_consensus_by_hash (db : ChainDb) (hash : B256) : option ConsensusHeader :=
  number ← consensus_block_numbers_by_digest db !! hash;
  block ← consensus_blocks db !! number;
  if ch_digest block =? hash then Some block else None.

(** [get_consensus_by_hash] *)
Definition get_consensus_by_hash (db : ChainDb) (hash : B256) : option ConsensusHeader :=
  number ← consensus_block_numbers_by_digest db !! hash;
  let guarded (o : option ConsensusHeader) :=
    b ← o; if ch_digest b =? hash then Some b else None in
  match guarded (consensus_blocks db !! number) with
  | Some b => Some b
  | None => guarded (consensus_blocks_cache db !! number)
  end.

(** [get_consensus_by_number] *)
Definition get_consensus_by_number (db : ChainDb) (number : Z) : option ConsensusHeader :=
  match consensus_blocks db !! number with
  | Some b => Some b
  | None => consensus_blocks_cache db !! number
  end.

(** [get_latest_sub_dag] *)
Definition get_latest_sub_dag (db : ChainDb) : option CommittedSubDag :=
  (fun r => ch_sub_dag r.2) <$> last_record (consensus_blocks db).

(** The scan of [read_latest_commit_with_final_reputation_scores], newest
    first. *)
Fixpoint find_final_scores (epoch : Epoch) (blocks : list ConsensusHeader) : option CommittedSubDag :=
  match blocks with
  | [] => None
  | block :: blocks =>
      if header_epoch block <? epoch then None
      else if final_of_schedule (reputation_score (ch_sub_dag block)) then Some (ch_sub_dag block)
      else find_final_scores epoch blocks
  end.
Definition read_latest_commit_with_final_reputation_scores (db : ChainDb) (epoch : Epoch) :
    option CommittedSubDag :=
  find_final_scores epoch (reverse (btree_values (consensus_blocks db))).

(** [read_last_committed]: the last rounds in the newest 50 blocks. *)
Definition raise_round (res : gmap AuthorityIdentifier Round) (c : Certificate) :
    gmap AuthorityIdentifier Round :=
  <[origin c := match res !! origin c with Some r => Z.max r (cert_round c) | None => cert_round c end]> res.
Definition read_last_committed (db : ChainDb) (epoch : Epoch) : gmap AuthorityIdentifier Round :=
  foldl (fun res block =>
           if negb (header_epoch block =? epoch) then res
           else foldl raise_round (raise_round res (sd_leader (ch_sub_dag block)))
                  (sd_certificates (ch_sub_dag block)))
    ∅ (take 50 (reverse (btree_values (consensus_blocks db)))).

(** ** Writes *)

(** [store_consensus_header_in_cache] *)
Definition store_consensus_header_in_cache (db : ChainDb) (header : ConsensusHeader) : ChainDb :=
  with_chain db (consensus_blocks db) (<[ch_number header := header]> (consensus_blocks_cache db))
    (<[ch_digest header := ch_number header]> (consensus_block_numbers_by_digest db))
    (chain_batches db).

(** The digests that saving [header] supersedes at its number. *)
Definition superseded (db : ChainDb) (header : ConsensusHeader) : list B256 :=
  filter (fun d => d <> ch_digest header)
    (ch_digest <$> option_list (consensus_blocks db !! ch_number header) ++
                   option_list (consensus_blocks_cache db !! ch_number header)).

(** [save_consensus] *)
Definition save_consensus (db : ChainDb) (o : ConsensusOutput) : ChainDb * ConsensusHeader :=
  let batches_to_insert := (fun b => (batch_hash b, b)) <$> concat (cb_batches <$> co_batches o) in
  let header := consensus_header o in
  (with_chain db (<[ch_number header := header]> (consensus_blocks db))
     (delete (ch_number header) (consensus_blocks_cache db))
     (foldl (fun m d => delete d m)
        (<[ch_digest header := ch_number header]> (consensus_block_numbers_by_digest db))
        (superseded db header))
     (foldl (fun m x => <[x.1 := x.2]> m) (chain_batches db) batches_to_insert),
   header).

(** The removal of [catch_up_consensus_from_to]: the header of [digest] was
    streamed at [number] and its successor does not link to it; it goes unless
    it is canonical. *)
Definition drop_poisoned (db : ChainDb) (number : Z) (digest : B256) : ChainDb :=
  if bool_decide (ch_digest <$> consensus_blocks db !! number = Some digest) then db
  else with_chain db (consensus_blocks db) (delete number (consensus_blocks_cache db))
         (delete digest (consensus_block_numbers_by_digest db)) (chain_batches db).

(** The writes of the tables. *)
Inductive ChainOp :=
  | SaveOutput (o : ConsensusOutput)
  | CacheHeader (h : ConsensusHeader)
  | DropPoisoned (h : ConsensusHeader).
Definition chain_op (db : ChainDb) (op : ChainOp) : ChainDb :=
  match op with
  | SaveOutput o => (save_consensus db o).1
  | CacheHeader h => store_consensus_header_in_cache db h
  | DropPoisoned h => drop_poisoned db (ch_number h) (ch_digest h)
  end.
Definition chain_run (ops : list ChainOp) (db : ChainDb) : ChainDb := foldl chain_op db ops.

(** ** The tip and the replay *)

(** [certified_consensus_checkpoint] *)
Definition certified_consensus_checkpoint (db : ChainDb) (epoch : Epoch) : option Z :=
  prev ← checked_sub epoch 1;
  '(record, cert) ← get_epoch_by_number (epoch_tables db) prev;
  _ ← cert;
  ch_number <$> get_canonical_consensus_by_hash db (er_parent_consensus record).

(** [consensus_chain_tip] *)
Definition consensus_chain_tip (db : ChainDb) (epoch : Epoch) : option ConsensusHeader :=
  '(_, tip) ← last_record (consensus_blocks db);
  if epoch <=? header_epoch tip then Some tip
  else
    match certified_consensus_checkpoint db epoch with
    | Some checkpoint =>
        if checkpoint <? ch_number tip then get_consensus_by_number db checkpoint else Some tip
    | None => Some tip
    end.

(** The loop of [collect_replayable_headers]. *)
Fixpoint collect_replayable (db : ChainDb) (epoch : Epoch) (numbers : list Z) : list ConsensusHeader :=
  match numbers with
  | [] => []
  | number :: numbers =>
      match get_consensus_by_number db number with
      | None => collect_replayable db epoch numbers
      | Some h => if header_epoch h <? epoch then [] else h :: collect_replayable db epoch numbers
      end
  end.

(** [collect_replayable_headers]: [anchor_number + 1 ..= to_number] *)
Definition collect_replayable_headers (db : ChainDb) (epoch : Epoch) (anchor_number to_number : Z) :
    list ConsensusHeader :=
  collect_replayable db epoch (seqZ (anchor_number + 1) (to_number - anchor_number)).

(** [get_missing_consensus] *)
Definition get_missing_consensus (db : ChainDb) (epoch : Epoch) (executed_anchor : ConsensusHeader) :
    list ConsensusHeader :=
  let last_db_number := match last_record (consensus_blocks db) with
                        | Some (_, b) => ch_number b | None => ch_number executed_anchor
                        end in
  if ch_number executed_anchor <? last_db_number
  then collect_replayable_headers db epoch (ch_number executed_anchor) last_db_number
  else [].

(** [stream_missing_consensus]: the headers sent and the last number sent. *)
Definition stream_missing_consensus (db : ChainDb) (epoch : Epoch) (executed_anchor : ConsensusHeader) :
    list ConsensusHeader * Z :=
  let last_db_number := match last_record (consensus_blocks db) with
                        | Some (_, b) => ch_number b | None => ch_number executed_anchor
                        end in
  let headers := if 0 <? sat_sub last_db_number (ch_number executed_anchor)
                 then collect_replayable_headers db epoch (ch_number executed_anchor) last_db_number
                 else [] in
  (headers, match last headers with Some h => ch_number h | None => ch_number executed_anchor end).

(** [highest_executed_anchor]: [max_by_key] keeps the last of equal keys. *)
Definition highest_executed_anchor (headers : list SealedHeader) : option B256 :=
  foldl (fun best h => match best with
                       | Some b => if h_nonce b <=? h_nonce h then Some h else best
                       | None => Some h
                       end) None headers ≫= h_parent_beacon_block_root.

(** [last_executed_consensus_from_anchor] *)
Definition last_executed_consensus_from_anchor (db : ChainDb) (root : option B256) :
    option ConsensusHeader :=
  hash ← root; if hash =? 0 then None else get_canonical_consensus_by_hash db hash.

(** ** The covered run of the cache *)

(** [ConsensusHeader::default], whose digest is [GENESIS_DIGEST]: an empty
    sub-DAG of the default certificate. *)
Definition default_certificate : Certificate :=
  {| header := {| fields := {| author := 0; round := 0; epoch := 0; created_at := 0; payload := [];
                               parents := ∅;
                               latest_execution_block := {| bnh_number := 0; bnh_hash := 0 |} |};
                  digest_cell := None |};
     signature_verification_state := Unsigned default_signature; signed_authorities := ∅;
     cert_created_at := 0 |}.
Definition default_header : ConsensusHeader :=
  {| ch_parent_hash := 0;
     ch_sub_dag := CommittedSubDag_new [] default_certificate
       {| scores_per_authority := ∅; final_of_schedule := false |} None;
     ch_number := 0; ch_extra := 0 |}.

(** The loop of [derive_covered_anchor]. *)
Fixpoint covered_run (expected_parent : B256) (expected_number : Z) (frontier : option B256)
    (rows : list ConsensusHeader) : option B256 :=
  match rows with
  | [] => frontier
  | h :: rows =>
      if ch_number h <? expected_number
      then covered_run expected_parent expected_number frontier rows
      else if negb (ch_number h =? expected_number) || negb (ch_parent_hash h =? expected_parent)
      then frontier
      else covered_run (ch_digest h) (expected_number + 1) (Some (ch_digest h)) rows
  end.

(** [derive_covered_anchor], on readable rows. *)
Definition derive_covered_anchor (db : ChainDb) : option B256 :=
  let '(expected_parent, expected_number) :=
    match last_record (consensus_blocks db) with
    | Some (_, tip) => (ch_digest tip, ch_number tip + 1)
    | None => (ch_digest default_header, 1)
    end in
  covered_run expected_parent expected_number None (btree_values (consensus_blocks_cache db)).

(** [get_last_executed_consensus]: the parent and number that the next committed
    header is built on. *)
Definition get_last_executed_consensus (db : ChainDb) (epoch : Epoch) : B256 * Z :=
  let tip := default default_header (consensus_chain_tip db epoch) in (ch_digest tip, ch_number tip).

End chain.
