(* ===== verification/ConsensusChainProps.v ===== *)
(** * Properties of the consensus chain

    What the tables of the consensus chain answer after any operations, the run
    of cached headers a restarted walk may stop at, the header that numbers the
    next epoch, and the commit rounds recovered from the chain. *)
From S2P Require Import Prelude Lists State Types Committee LeaderSchedule ConsensusState.
From S2P Require Import EpochRecords BatchOrdering Engine ConsensusChain.
#[local] Open Scope Z_scope.

(** The digest of a consensus header has no collisions. *)
Class HashesOk `{!OutputHashes} : Prop :=
  header_hash_inj : forall p s n p' s' n',
    hash_consensus_header p s n = hash_consensus_header p' s' n' -> p = p' /\ s = s' /\ n = n'.

Section props.
Context `{!Crypto, !OutputHashes, !EpochCrypto} {hashes_ok : HashesOk}.
Context (batch_hash : Batch -> B256).
Implicit Types (db : ChainDb) (h : ConsensusHeader).
Abbreviation chain_op := (chain_op batch_hash).
Abbreviation chain_run := (chain_run batch_hash).

Lemma digest_number h h' : ch_digest h = ch_digest h' -> ch_number h = ch_number h'.
Proof using hashes_ok. by intros (_ & _ & ?)%header_hash_inj. Qed.

(** ** The tables *)

(** Rows are stored under their own number and the index leads to each. *)
Definition indexed (rows : gmap Z ConsensusHeader) (numbers : gmap B256 Z) : Prop :=
  forall n h, rows !! n = Some h -> ch_number h = n /\ numbers !! ch_digest h = Some n.
Record chain_ok db : Prop := {
  ok_blocks : indexed (consensus_blocks db) (consensus_block_numbers_by_digest db);
  ok_cache : indexed (consensus_blocks_cache db) (consensus_block_numbers_by_digest db)
}.

Lemma indexed_insert_digest rows numbers h :
  indexed rows numbers -> indexed rows (<[ch_digest h := ch_number h]> numbers).
Proof using hashes_ok.
  intros Hr n h' Hh. destruct (Hr _ _ Hh) as [Hn Hi]. split; [done|].
  rewrite lookup_insert. case_decide as Hd; [|done]. by rewrite (digest_number _ _ Hd), Hn.
Qed.

Lemma indexed_insert rows numbers h :
  indexed rows numbers -> numbers !! ch_digest h = Some (ch_number h) ->
  indexed (<[ch_number h := h]> rows) numbers.
Proof. intros Hr Hh n h'. rewrite lookup_insert. case_decide as En; [|apply Hr]. intros [= <-]. by rewrite <-En. Qed.

Lemma indexed_delete rows numbers n : indexed rows numbers -> indexed (delete n rows) numbers.
Proof. intros Hr n' h' [_ Hh]%lookup_delete_Some. by apply Hr. Qed.

(** Removing from the index digests of headers with a number that is not among
    the rows, or that differ from the row there. *)
Lemma indexed_prune rows numbers d :
  indexed rows numbers -> (forall n h, rows !! n = Some h -> ch_digest h <> d) ->
  indexed rows (delete d numbers).
Proof.
  intros Hr Hd n h Hh. destruct (Hr _ _ Hh). split; [done|]. rewrite lookup_delete_ne; [done|].
  intros ->. by eapply Hd.
Qed.

Lemma indexed_prune_all rows numbers ds :
  indexed rows numbers -> (forall n h, rows !! n = Some h -> ch_digest h ∉ ds) ->
  indexed rows (foldl (fun m d => delete d m) numbers ds).
Proof.
  revert numbers. induction ds as [|d ds IH]; intros numbers Hr Hd; [done|]. cbn. apply IH.
  - apply indexed_prune; [done|]. set_solver.
  - set_solver.
Qed.

Lemma elem_of_option {A} (o : option A) x : x ∈ option_list o -> o = Some x.
Proof. destruct o; cbn; [by intros ->%list_elem_of_singleton|by intros ?%elem_of_nil]. Qed.

Lemma superseded_number db h d :
  chain_ok db -> d ∈ superseded db h ->
  d <> ch_digest h /\ exists h', ch_digest h' = d /\ ch_number h' = ch_number h.
Proof.
  intros [Hb Hc] [Hd Hin]%list_elem_of_filter. split; [done|].
  apply list_elem_of_fmap in Hin as (h' & -> & [Hin|Hin]%elem_of_app);
    apply elem_of_option in Hin; exists h'; (split; [done|]); [by apply Hb|by apply Hc].
Qed.

Lemma chain_op_ok db op : chain_ok db -> chain_ok (chain_op db op).
Proof using hashes_ok.
  intros Hok. pose proof Hok as [Hb Hc]. destruct op as [o|h|h]; cbn.
  - set (h := consensus_header o).
    assert (forall n h', n <> ch_number h -> ch_number h' = n -> ch_digest h' ∉ superseded db h) as Hne.
    { intros n h' Hn Hn' (_ & h2 & Hd & Hn2)%(superseded_number _ _ _ Hok).
      apply digest_number in Hd. congruence. }
    split; cbn.
    + apply indexed_prune_all.
      { apply indexed_insert; [by apply indexed_insert_digest|]. by rewrite lookup_insert_eq. }
      intros n h'. rewrite lookup_insert. case_decide as En.
      * intros [= <-] Hin. by apply superseded_number in Hin as [? _].
      * intros Hh. eapply Hne; [by apply not_eq_sym|by apply Hb].
    + apply indexed_prune_all; [by apply indexed_delete, indexed_insert_digest|].
      intros n h' [Hn Hh]%lookup_delete_Some. eapply Hne; [by apply not_eq_sym|by apply Hc].
  - split; cbn; [by apply indexed_insert_digest|].
    apply indexed_insert; [by apply indexed_insert_digest|]. by rewrite lookup_insert_eq.
  - unfold drop_poisoned. case_bool_decide as Hcan; [done|]. split; cbn.
    + apply indexed_prune; [done|]. intros n h' Hh Hd. apply Hcan.
      pose proof (digest_number _ _ Hd) as Hn. destruct (Hb _ _ Hh) as [Hn' _].
      rewrite <-Hn, Hn', Hh. cbn. by rewrite Hd.
    + apply indexed_prune; [by apply indexed_delete|]. intros n h' [Hn Hh]%lookup_delete_Some Hd.
      apply digest_number in Hd. destruct (Hc _ _ Hh). congruence.
Qed.

Lemma chain_run_ok ops db : chain_ok db -> chain_ok (chain_run ops db).
Proof using hashes_ok. revert db. induction ops as [|op ops IH]; intros db; [done|]. cbn. intros. by apply IH, chain_op_ok. Qed.

Lemma by_number_by_hash db n h :
  chain_ok db -> get_consensus_by_number db n = Some h ->
  ch_number h = n /\ get_consensus_by_hash db (ch_digest h) = Some h.
Proof.
  intros [Hb Hc]. unfold get_consensus_by_number, get_consensus_by_hash.
  destruct (consensus_blocks db !! n) as [b|] eqn:Eb.
  - intros [= ->]. destruct (Hb _ _ Eb) as [? ->]. split; [done|]. cbn. rewrite Eb. cbn. by rewrite Z.eqb_refl.
  - intros Hh. destruct (Hc _ _ Hh) as [? ->]. split; [done|]. cbn. rewrite Eb, Hh. cbn. by rewrite Z.eqb_refl.
Qed.

Definition saves_at (n : Z) (op : ChainOp) : Prop :=
  match op with SaveOutput o => number o = n | _ => False end.

Lemma chain_op_keeps db op n : ~ saves_at n op -> consensus_blocks (chain_op db op) !! n = consensus_blocks db !! n.
Proof.
  destruct op as [o|h|h]; cbn; intros Hn; [by rewrite lookup_insert_ne by done|done|].
  unfold drop_poisoned. by case_bool_decide.
Qed.

Lemma chain_run_keeps ops db n :
  Forall (fun op => ~ saves_at n op) ops ->
  consensus_blocks (chain_run ops db) !! n = consensus_blocks db !! n.
Proof.
  intros Hops. revert db. induction Hops as [|op ops Hop _ IH]; intros db; [done|]. cbn.
  unfold chain_run in IH. by rewrite IH, chain_op_keeps.
Qed.

(** The operations that may change what is stored at a number. *)
Definition acts_at (n : Z) (op : ChainOp) : Prop :=
  match op with SaveOutput o => number o = n | CacheHeader h | DropPoisoned h => ch_number h = n end.

Lemma acts_at_saves n op : ~ acts_at n op -> ~ saves_at n op.
Proof. destruct op; cbn; tauto. Qed.

Lemma index_prune_other (numbers : gmap B256 Z) d ds :
  d ∉ ds -> foldl (fun m x => delete x m) numbers ds !! d = numbers !! d.
Proof.
  revert numbers. induction ds as [|x ds IH]; intros numbers Hd; [done|]. cbn.
  rewrite IH by set_solver. apply lookup_delete_ne. set_solver.
Qed.

(** The cached row of a number and the index entry of a header of that number. *)
Lemma chain_op_cache_keeps db op h :
  chain_ok db -> ~ acts_at (ch_number h) op ->
  consensus_blocks_cache (chain_op db op) !! ch_number h = consensus_blocks_cache db !! ch_number h /\
  consensus_block_numbers_by_digest (chain_op db op) !! ch_digest h =
    consensus_block_numbers_by_digest db !! ch_digest h.
Proof using hashes_ok.
  intros Hok Hn. destruct op as [o|g|g]; cbn in *.
  - rewrite lookup_delete_ne by done. split; [done|]. rewrite index_prune_other, lookup_insert_ne; [done| |].
    + intros Hd%digest_number. by apply Hn.
    + intros (_ & g & Hg & Hng)%(superseded_number _ _ _ Hok). apply digest_number in Hg. by rewrite <-Hg, Hng in Hn.
  - rewrite !lookup_insert_ne; [done| |done]. by intros ?%digest_number.
  - unfold drop_poisoned. case_bool_decide; [done|]. cbn. rewrite !lookup_delete_ne; [done| |done].
    by intros ?%digest_number.
Qed.

Lemma chain_run_cache_keeps ops db h :
  chain_ok db -> Forall (fun op => ~ acts_at (ch_number h) op) ops ->
  consensus_blocks_cache (chain_run ops db) !! ch_number h = consensus_blocks_cache db !! ch_number h /\
  consensus_block_numbers_by_digest (chain_run ops db) !! ch_digest h =
    consensus_block_numbers_by_digest db !! ch_digest h.
Proof using hashes_ok.
  intros Hok Hops. revert db Hok. induction Hops as [|op ops Hop _ IH]; intros db Hok; [done|]. cbn.
  destruct (chain_op_cache_keeps _ _ _ Hok Hop) as [<- <-]. by apply IH, chain_op_ok.
Qed.

Lemma chain_run_app ops ops' db : chain_run (ops ++ ops') db = chain_run ops' (chain_run ops db).
Proof. apply foldl_app. Qed.

(** What the reads answer for the last thing done at a number: an output saved,
    a header cached, a poisoned header dropped. *)
Lemma saved_reads db ops1 ops2 o :
  chain_ok db -> Forall (fun op => ~ saves_at (number o) op) ops2 ->
  let db' := chain_run (ops1 ++ SaveOutput o :: ops2) db in
  get_consensus_by_number db' (number o) = Some (consensus_header o) /\
  get_canonical_consensus_by_hash db' (consensus_header_hash o) = Some (consensus_header o).
Proof using hashes_ok.
  intros Hok Hops db'. assert (chain_ok db') as Hok' by by apply chain_run_ok.
  assert (consensus_blocks db' !! number o = Some (consensus_header o)) as Hb.
  { unfold db'. rewrite chain_run_app. change (SaveOutput o :: ops2) with ([SaveOutput o] ++ ops2).
    rewrite chain_run_app, chain_run_keeps by done. cbn. by rewrite lookup_insert_eq. }
  split; [by unfold get_consensus_by_number; rewrite Hb|].
  destruct (ok_blocks _ Hok' _ _ Hb) as [_ Hi]. unfold get_canonical_consensus_by_hash.
  change (consensus_header_hash o) with (ch_digest (consensus_header o)). rewrite Hi. cbn. rewrite Hb. cbn.
  by rewrite Z.eqb_refl.
Qed.

Lemma cached_reads db ops1 ops2 h :
  chain_ok db -> Forall (fun op => ~ acts_at (ch_number h) op) ops2 ->
  let db' := chain_run (ops1 ++ CacheHeader h :: ops2) db in
  match consensus_blocks (chain_run ops1 db) !! ch_number h with
  | None => get_consensus_by_number db' (ch_number h) = Some h /\ get_consensus_by_hash db' (ch_digest h) = Some h
  | Some b =>
      get_consensus_by_number db' (ch_number h) = Some b /\
      get_consensus_by_hash db' (ch_digest h) = Some (if ch_digest b =? ch_digest h then b else h)
  end.
Proof using hashes_ok.
  intros Hok Hops db'. unfold db'. rewrite chain_run_app. set (d := chain_run ops1 db).
  change (CacheHeader h :: ops2) with ([CacheHeader h] ++ ops2). rewrite chain_run_app.
  assert (chain_ok d) as Hd by by apply chain_run_ok.
  destruct (chain_run_cache_keeps ops2 (chain_run [CacheHeader h] d) h) as [Hc Hi]; [by apply chain_run_ok|done|].
  assert (Forall (fun op => ~ saves_at (ch_number h) op) ops2) as Hs
    by by eapply Forall_impl; [|apply acts_at_saves].
  pose proof (chain_run_keeps ops2 (chain_run [CacheHeader h] d) _ Hs) as Hb.
  revert Hc Hi Hb. cbn. rewrite !lookup_insert_eq. intros Hc Hi Hb.
  unfold get_consensus_by_number, get_consensus_by_hash. rewrite Hi. cbn. rewrite Hb.
  destruct (consensus_blocks d !! ch_number h) as [b|] eqn:Eb; cbn.
  - split; [done|]. destruct (ch_digest b =? ch_digest h); [done|]. rewrite Hc. cbn. by rewrite Z.eqb_refl.
  - rewrite Hc. cbn. by rewrite Z.eqb_refl.
Qed.

Lemma dropped_reads db ops1 ops2 h :
  chain_ok db -> Forall (fun op => ~ acts_at (ch_number h) op) ops2 ->
  let db' := chain_run (ops1 ++ DropPoisoned h :: ops2) db in
  ch_digest <$> consensus_blocks (chain_run ops1 db) !! ch_number h <> Some (ch_digest h) ->
  get_consensus_by_hash db' (ch_digest h) = None /\
  get_consensus_by_number db' (ch_number h) = consensus_blocks (chain_run ops1 db) !! ch_number h.
Proof using hashes_ok.
  intros Hok Hops db'. unfold db'. rewrite chain_run_app. set (d := chain_run ops1 db). intros Hcan.
  change (DropPoisoned h :: ops2) with ([DropPoisoned h] ++ ops2). rewrite chain_run_app.
  assert (chain_ok d) as Hd by by apply chain_run_ok.
  destruct (chain_run_cache_keeps ops2 (chain_run [DropPoisoned h] d) h) as [Hc Hi]; [by apply chain_run_ok|done|].
  assert (Forall (fun op => ~ saves_at (ch_number h) op) ops2) as Hs
    by by eapply Forall_impl; [|apply acts_at_saves].
  pose proof (chain_run_keeps ops2 (chain_run [DropPoisoned h] d) _ Hs) as Hb.
  revert Hc Hi Hb. cbn. unfold drop_poisoned. rewrite bool_decide_eq_false_2 by done. cbn.
  rewrite !lookup_delete_eq. intros Hc Hi Hb.
  unfold get_consensus_by_number, get_consensus_by_hash. rewrite Hi, Hb, Hc. cbn. split; [done|].
  by destruct (consensus_blocks d !! ch_number h).
Qed.

(** C27: The consensus chain reads back. After any saves, caches and removals
    of poisoned headers: a header read by number carries that number and is what
    its digest reads; an output that was saved is read by its number and, as a
    canonical header, by its digest, until another is saved at its number; a
    header that was cached is read by its digest and, where no output is saved
    at its number, by its number (a saved output is read there instead), until
    something else is done at its number; and a poisoned header that was dropped
    is read by neither, unless it is the saved one. *)
Theorem chain_reads db ops1 op ops2 :
  chain_ok db ->
  let db' := chain_run (ops1 ++ op :: ops2) db in
  (forall n h, get_consensus_by_number db' n = Some h ->
     ch_number h = n /\ get_consensus_by_hash db' (ch_digest h) = Some h) /\
  match op with
  | SaveOutput o =>
      Forall (fun op' => ~ saves_at (number o) op') ops2 ->
      get_consensus_by_number db' (number o) = Some (consensus_header o) /\
      get_canonical_consensus_by_hash db' (consensus_header_hash o) = Some (consensus_header o)
  | CacheHeader h =>
      Forall (fun op' => ~ acts_at (ch_number h) op') ops2 ->
      match consensus_blocks (chain_run ops1 db) !! ch_number h with
      | None => get_consensus_by_number db' (ch_number h) = Some h /\ get_consensus_by_hash db' (ch_digest h) = Some h
      | Some b =>
          get_consensus_by_number db' (ch_number h) = Some b /\
          get_consensus_by_hash db' (ch_digest h) = Some (if ch_digest b =? ch_digest h then b else h)
      end
  | DropPoisoned h =>
      Forall (fun op' => ~ acts_at (ch_number h) op') ops2 ->
      ch_digest <$> consensus_blocks (chain_run ops1 db) !! ch_number h <> Some (ch_digest h) ->
      get_consensus_by_hash db' (ch_digest h) = None /\
      get_consensus_by_number db' (ch_number h) = consensus_blocks (chain_run ops1 db) !! ch_number h
  end.
Proof using hashes_ok.
  intros Hok db'. split; [by intros n h; apply by_number_by_hash, chain_run_ok|].
  destruct op as [o|h|h]; intros Hops; [by apply saved_reads|by apply cached_reads|by apply dropped_reads].
Qed.

(** ** The last record *)

Lemma sorted_le_last {A} (R : A -> A -> Prop) `{!Reflexive R} l x y :
  StronglySorted R l -> last l = Some x -> y ∈ l -> R y x.
Proof.
  induction 1 as [|z l Hs IH Hall]; [done|]. rewrite last_cons. intros Hl Hy.
  destruct (last l) as [w|] eqn:E.
  - injection Hl as ->. apply elem_of_cons in Hy as [->|Hy]; [|by apply IH].
    rewrite Forall_forall in Hall. apply Hall. by apply last_Some_elem_of.
  - injection Hl as ->. apply last_None in E as ->. by apply list_elem_of_singleton in Hy as ->.
Qed.

Lemma chain_record_Some {A} (m : gmap Z A) k x :
  last_record m = Some (k, x) -> m !! k = Some x /\ forall k' x', m !! k' = Some x' -> k' <= k.
Proof.
  intros Hl. split.
  - by apply elem_of_btree_list, last_Some_elem_of.
  - intros k' x' Hx%elem_of_btree_list.
    assert (Reflexive (key_le (A := A))) by (intros ?; unfold key_le; lia).
    by apply (sorted_le_last key_le _ (k, x) (k', x') (StronglySorted_btree_list m)) in Hx.
Qed.

Lemma last_record_None {A} (m : gmap Z A) k x : last_record m = None -> m !! k = Some x -> False.
Proof. intros Hl%last_None Hx%elem_of_btree_list. rewrite Hl in Hx. by apply elem_of_nil in Hx. Qed.

(** ** Numbering the next epoch *)

Lemma canonical_by_hash_Some db d h :
  get_canonical_consensus_by_hash db d = Some h ->
  ch_digest h = d /\ exists n, consensus_blocks db !! n = Some h.
Proof.
  unfold get_canonical_consensus_by_hash. intros Hg.
  destruct (consensus_block_numbers_by_digest db !! d) as [n|]; [|done]. cbn in Hg.
  destruct (consensus_blocks db !! n) as [b|] eqn:Eb; [|done]. cbn in Hg.
  destruct (Z.eqb_spec (ch_digest b) d); [|done]. injection Hg as <-. eauto.
Qed.

(** Before any output of the epoch is saved, the tip is the header that the
    certified record of the previous epoch names. *)
Lemma consensus_chain_tip_certified db e r cert h n tip :
  chain_ok db -> 1 <= e ->
  get_epoch_by_number (epoch_tables db) (e - 1) = Some (r, Some cert) ->
  get_canonical_consensus_by_hash db (er_parent_consensus r) = Some h ->
  last_record (consensus_blocks db) = Some (n, tip) -> header_epoch tip < e ->
  consensus_chain_tip db e = Some h.
Proof.
  intros [Hb _] He Hr Hh Hl Ht. unfold consensus_chain_tip. rewrite Hl. cbn.
  destruct (Z.leb_spec e (header_epoch tip)); [lia|].
  unfold certified_consensus_checkpoint, checked_sub. rewrite (proj2 (Z.leb_le _ _)) by lia. cbn.
  rewrite Hr. cbn. rewrite Hh. cbn.
  destruct (canonical_by_hash_Some _ _ _ Hh) as (_ & k & Hk). destruct (Hb _ _ Hk) as [Hkn _].
  destruct (chain_record_Some _ _ _ Hl) as [Hn Hmax]. destruct (Hb _ _ Hn) as [Htn _].
  destruct (Z.ltb_spec (ch_number h) (ch_number tip)) as [Hlt|Hge].
  - unfold get_consensus_by_number. by rewrite Hkn, Hk.
  - assert (n = k) as -> by (specialize (Hmax _ _ Hk); lia). congruence.
Qed.

(** C26: Nodes number the next epoch alike. Two nodes that hold the certified record
    of the epoch before, and the header that it names, build the first header of
    the epoch on that header, whatever outputs each of them saved past the
    boundary. *)
Theorem numbering_agreement db1 db2 e r1 c1 r2 c2 h1 h2 n1 t1 n2 t2 :
  chain_ok db1 -> chain_ok db2 -> 1 <= e ->
  get_epoch_by_number (epoch_tables db1) (e - 1) = Some (r1, Some c1) ->
  get_epoch_by_number (epoch_tables db2) (e - 1) = Some (r2, Some c2) ->
  er_parent_consensus r1 = er_parent_consensus r2 ->
  get_canonical_consensus_by_hash db1 (er_parent_consensus r1) = Some h1 ->
  get_canonical_consensus_by_hash db2 (er_parent_consensus r2) = Some h2 ->
  last_record (consensus_blocks db1) = Some (n1, t1) -> header_epoch t1 < e ->
  last_record (consensus_blocks db2) = Some (n2, t2) -> header_epoch t2 < e ->
  get_last_executed_consensus db1 e = get_last_executed_consensus db2 e /\
  (get_last_executed_consensus db1 e).1 = er_parent_consensus r1.
Proof using hashes_ok.
  intros Hok1 Hok2 He Hr1 Hr2 Hd Hh1 Hh2 Hl1 Ht1 Hl2 Ht2. unfold get_last_executed_consensus.
  rewrite (consensus_chain_tip_certified db1 e r1 c1 h1 n1 t1) by done.
  rewrite (consensus_chain_tip_certified db2 e r2 c2 h2 n2 t2) by done. cbn.
  apply canonical_by_hash_Some in Hh1 as [Hd1 _], Hh2 as [Hd2 _].
  assert (ch_digest h1 = ch_digest h2) as Heq by congruence.
  split; [|done]. f_equal; [done|by apply digest_number].
Qed.

(** ** The covered run *)

(** The headers of the cache that follow [parent] at [number], each on the one
    before. *)
Fixpoint linked_run (fuel : nat) (parent : B256) (number : Z) (cache : gmap Z ConsensusHeader) :
    list ConsensusHeader :=
  match fuel with
  | O => []
  | S fuel =>
      match cache !! number with
      | Some h => if ch_parent_hash h =? parent
                  then h :: linked_run fuel (ch_digest h) (number + 1) cache else []
      | None => []
      end
  end.

Lemma covered_run_spec cache rows parent number frontier fuel :
  (forall n h, cache !! n = Some h -> ch_number h = n) ->
  StronglySorted Z.lt rows.*1 -> (forall n h, (n, h) ∈ rows -> cache !! n = Some h) ->
  (forall n h, number <= n -> cache !! n = Some h -> (n, h) ∈ rows) ->
  (length rows <= fuel)%nat ->
  covered_run parent number frontier rows.*2 =
  match last (linked_run fuel parent number cache) with
  | Some h => Some (ch_digest h) | None => frontier
  end.
Proof.
  intros Hnum. revert parent number frontier fuel.
  induction rows as [|[k h] rows IH]; intros parent number frontier fuel Hs Hin Hall Hf; cbn in *.
  { destruct fuel as [|fuel]; [done|]. cbn. destruct (cache !! number) as [h|] eqn:E; [|done].
    apply Hall in E; [|lia]. by apply elem_of_nil in E. }
  apply StronglySorted_inv in Hs as [Hs Hk]. rewrite Forall_forall in Hk.
  assert (cache !! k = Some h) as Hh by (apply Hin; left). rewrite (Hnum _ _ Hh).
  assert (forall n, k < n -> forall h', cache !! n = Some h' -> number <= n -> (n, h') ∈ rows) as Hrest.
  { intros n Hn h' Hc Hle. apply Hall in Hc; [|done]. apply elem_of_cons in Hc as [[= -> _]|?]; [lia|done]. }
  destruct (Z.ltb_spec k number) as [Hlt|Hge].
  { apply IH; [done| |intros n h' Hle Hc; apply Hrest; [lia|done|done]|lia].
    intros n h' Hr. apply Hin. by right. }
  destruct fuel as [|fuel]; [lia|]. cbn.
  destruct (Z.eqb_spec k number) as [->|Hne]; cbn.
  - rewrite Hh. destruct (Z.eqb_spec (ch_parent_hash h) parent); cbn; [|done].
    rewrite (IH _ _ _ fuel); [|done|intros n h' Hr; apply Hin; by right|intros n h' Hle Hc; apply Hrest; [lia|done|lia]|lia].
    rewrite last_cons. by destruct (last _).
  - destruct (cache !! number) as [h'|] eqn:E; [|done]. exfalso.
    apply Hall in E; [|lia]. apply elem_of_cons in E as [[= ? _]|E]; [lia|].
    assert (number ∈ rows.*1) as Hn by (apply list_elem_of_fmap; by exists (number, h')).
    specialize (Hk _ Hn). lia.
Qed.

(** The anchor that a restarted walk may stop at is the last header of the
    longest run of cached headers that follow the canonical tip (or genesis)
    number by number and link by link; rows of other forks, below the tip or
    past a gap are never part of it. *)
Theorem derive_covered_anchor_correct db :
  chain_ok db ->
  derive_covered_anchor db =
  let tip := default default_header (snd <$> last_record (consensus_blocks db)) in
  ch_digest <$> last (linked_run (size (consensus_blocks_cache db)) (ch_digest tip) (ch_number tip + 1)
                        (consensus_blocks_cache db)).
Proof.
  intros [_ Hc]. unfold derive_covered_anchor.
  assert (forall p n, covered_run p n None (btree_values (consensus_blocks_cache db)) =
    ch_digest <$> last (linked_run (size (consensus_blocks_cache db)) p n (consensus_blocks_cache db))) as Hrun.
  { intros p n. unfold btree_values. rewrite (covered_run_spec (consensus_blocks_cache db) _ _ _ _ (size (consensus_blocks_cache db))).
    - by destruct (last _).
    - intros k h Hh. by apply Hc.
    - apply btree_keys_sorted.
    - intros k h. by rewrite elem_of_btree_list.
    - intros k h _. by rewrite elem_of_btree_list.
    - rewrite <-length_btree_values. unfold btree_values. by rewrite length_fmap. }
  destruct (last_record (consensus_blocks db)) as [[k tip]|]; cbn; apply Hrun.
Qed.

(** ** Recovered commit rounds *)

Definition committed_in (e : Epoch) (blocks : list ConsensusHeader) : list Certificate :=
  blocks ≫= fun b => if header_epoch b =? e
                     then sd_leader (ch_sub_dag b) :: sd_certificates (ch_sub_dag b) else [].

Lemma read_last_committed_fold db e :
  read_last_committed db e =
  foldl raise_round ∅ (committed_in e (take 50 (reverse (btree_values (consensus_blocks db))))).
Proof.
  unfold read_last_committed. generalize (take 50 (reverse (btree_values (consensus_blocks db)))) as bs.
  generalize (∅ : gmap AuthorityIdentifier Round). intros m bs. revert m.
  induction bs as [|b bs IH]; intros m; [done|]. cbn. fold (committed_in e bs).
  destruct (header_epoch b =? e); cbn; [by rewrite foldl_app, IH|by rewrite IH].
Qed.

Lemma raise_rounds_above cs m a r :
  m !! a = Some r -> exists r', foldl raise_round m cs !! a = Some r' /\ r <= r'.
Proof.
  revert m r. induction cs as [|c cs IH]; intros m r Hm; [by exists r|]. cbn.
  destruct (decide (origin c = a)) as [<-|Hne].
  - destruct (IH (raise_round m c) (Z.max r (cert_round c))) as (r' & Hr & Hle); [|exists r'; split; [done|lia]].
    unfold raise_round. by rewrite lookup_insert_eq, Hm.
  - apply IH. unfold raise_round. by rewrite lookup_insert_ne.
Qed.

Lemma raise_rounds_cover cs m c :
  c ∈ cs -> exists r, foldl raise_round m cs !! origin c = Some r /\ cert_round c <= r.
Proof.
  intros (l & k & ->)%list_elem_of_split. rewrite foldl_app. cbn.
  set (m' := foldl raise_round m l).
  destruct (raise_rounds_above k (raise_round m' c) (origin c)
    (match m' !! origin c with Some r => Z.max r (cert_round c) | None => cert_round c end)) as (r & Hr & Hle).
  { unfold raise_round. by rewrite lookup_insert_eq. }
  exists r. split; [done|]. destruct (m' !! origin c); lia.
Qed.

Lemma raise_rounds_attained cs m a r :
  foldl raise_round m cs !! a = Some r ->
  m !! a = Some r \/ exists c, c ∈ cs /\ origin c = a /\ cert_round c = r.
Proof.
  revert m. induction cs as [|c cs IH]; intros m; [by left|]. cbn.
  intros [Hm|(c' & Hc & Ho & Hr)]%IH; [|right; exists c'; split_and!; [by right|done|done]].
  unfold raise_round in Hm. rewrite lookup_insert in Hm. case_decide as Ha; [|by left].
  destruct (m !! origin c) as [r0|] eqn:E; injection Hm as <-.
  - subst a. destruct (Z.max_spec r0 (cert_round c)) as [[_ ->]|[_ ->]]; [|by left].
    right. exists c. split_and!; [left|done|done].
  - right. exists c. split_and!; [left|done|done].
Qed.

(** The canonical chain as commits leave it: epochs do not decrease, the leaders
    of an epoch are at least two rounds apart, and the certificates of a
    sub-DAG are not above its leader. *)
Record committed_chain (blocks : list ConsensusHeader) : Prop := {
  ch_step : forall i b b', blocks !! i = Some b -> blocks !! S i = Some b' ->
    header_epoch b <= header_epoch b' /\
    (header_epoch b = header_epoch b' -> leader_round (ch_sub_dag b) + 2 <= leader_round (ch_sub_dag b'));
  ch_below : forall b c, b ∈ blocks -> c ∈ sd_certificates (ch_sub_dag b) ->
    cert_round c <= leader_round (ch_sub_dag b)
}.

Lemma committed_chain_apart blocks i k b b' :
  committed_chain blocks -> blocks !! i = Some b -> blocks !! (i + k)%nat = Some b' ->
  header_epoch b <= header_epoch b' /\
  (header_epoch b = header_epoch b' ->
   leader_round (ch_sub_dag b) + 2 * Z.of_nat k <= leader_round (ch_sub_dag b')).
Proof.
  intros Hc Hb. revert b'. induction k as [|k IH]; intros b' Hb'.
  - rewrite Nat.add_0_r in Hb'. simplify_eq. split; lia.
  - rewrite Nat.add_succ_r in Hb'.
    destruct (lookup_lt_is_Some_2 blocks (i + k)) as [b1 Hb1].
    { apply lookup_lt_Some in Hb'. lia. }
    destruct (IH b1 Hb1) as [He1 Hr1], (ch_step _ Hc _ _ _ Hb1 Hb') as [He2 Hr2].
    split; [lia|]. intros Heq. specialize (Hr1 ltac:(lia)). specialize (Hr2 ltac:(lia)). lia.
Qed.

Lemma elem_of_newest {A} (l : list A) n i x :
  l !! i = Some x -> (length l <= i + n)%nat -> x ∈ take n (reverse l).
Proof.
  intros Hi Hn. pose proof (lookup_lt_Some _ _ _ Hi).
  apply (list_elem_of_lookup_2 _ (length l - S i)). rewrite lookup_take_lt by lia.
  rewrite reverse_lookup by lia. rewrite <-Hi. f_equal. lia.
Qed.

(** A restart recovers what was committed. On a canonical chain whose tip is of
    the current epoch, with a garbage-collection depth of at most 100 rounds, the
    rounds recovered from the newest fifty blocks mark as committed every
    certificate of the epoch that was committed and is not garbage collected,
    however many blocks the epoch has; and each recovered round is that of a
    committed certificate of its author. *)
Theorem recovered_rounds_exact db e depth n tip :
  let blocks := btree_values (consensus_blocks db) in
  committed_chain blocks -> depth <= 100 ->
  last_record (consensus_blocks db) = Some (n, tip) -> header_epoch tip = e ->
  (forall c, c ∈ committed_in e blocks -> gc_round_of (leader_round (ch_sub_dag tip)) depth < cert_round c ->
     already_committed (read_last_committed db e) c = true) /\
  (forall a r, read_last_committed db e !! a = Some r ->
     exists c, c ∈ committed_in e blocks /\ origin c = a /\ cert_round c = r).
Proof.
  intros blocks Hc Hdepth Htip He. rewrite read_last_committed_fold. fold blocks. split.
  - intros c Hin Hgc. assert (c ∈ committed_in e (take 50 (reverse blocks))) as Hin'.
    { apply list_elem_of_bind in Hin as (b & Hcb & Hb). apply list_elem_of_bind. exists b. split; [done|].
      apply list_elem_of_lookup in Hb as [i Hi]. eapply elem_of_newest; [done|].
      destruct (Z.eqb_spec (header_epoch b) e) as [Heb|]; [|by apply elem_of_nil in Hcb].
      assert (cert_round c <= leader_round (ch_sub_dag b)) as Hle.
      { apply elem_of_cons in Hcb as [->|Hcb]; [done|]. eapply (ch_below _ Hc); [|done].
        by eapply list_elem_of_lookup_2. }
      assert (blocks !! (length blocks - 1)%nat = Some tip) as Hl.
      { unfold blocks, btree_values. rewrite length_fmap, Nat.sub_1_r, list_lookup_fmap.
        unfold last_record in Htip. rewrite last_lookup in Htip. by rewrite Htip. }
      pose proof (lookup_lt_Some _ _ _ Hi) as Hlen.
      replace (length blocks - 1)%nat with (i + (length blocks - 1 - i))%nat in Hl by lia.
      destruct (committed_chain_apart _ _ _ _ _ Hc Hi Hl) as [_ Hr].
      specialize (Hr ltac:(congruence)). unfold gc_round_of, sat_sub in Hgc. lia. }
    destruct (raise_rounds_cover _ ∅ c Hin') as (r & Hr & Hle). unfold already_committed. rewrite Hr. lia.
  - intros a r [Hr|(c & Hin & Ho & Hr)]%raise_rounds_attained; [by rewrite lookup_empty in Hr|]. exists c. split_and!; [|done|done].
    apply list_elem_of_bind in Hin as (b & Hcb & Hb). apply list_elem_of_bind. exists b. split; [done|].
    apply elem_of_take in Hb as (i & Hi & _). apply list_elem_of_lookup_2 in Hi. by rewrite elem_of_reverse in Hi.
Qed.

End props.

(** ** Examples *)

Module ChainExamples.

#[export] Instance crypto : Crypto :=
  {| header_hash := fun h => 1000 * author h + round h; key_hash := fun k => k;
     verify_secure := fun _ _ _ => true; aggregate := head; verify_aggregate := fun _ _ _ => true;
     default_signature := 0 |}.

#[export] Instance hashes : OutputHashes :=
  {| hash_sub_dag := fun cs l t => Z.pos (encode (cs, l, t));
     hash_consensus_header := fun p s n => Z.pos (encode (p, s, n));
     keccak256_signature := fun s => s |}.

#[export] Instance hashes_ok : HashesOk.
Proof. intros p s n p' s' n' [= He%(inj _)]. by simplify_eq. Qed.

#[export] Instance epoch_crypto : EpochCrypto :=
  {| record_hash := er_epoch; verify_epoch_vote := fun _ _ _ => true;
     aggregate_epoch_votes := head; verify_epoch_aggregate := fun _ _ _ => true |}.

Definition certificate (a : AuthorityIdentifier) (e : Epoch) (r : Round) : Certificate :=
  {| header := {| fields := {| author := a; round := r; epoch := e; created_at := r; payload := [];
                               parents := ∅;
                               latest_execution_block := {| bnh_number := 0; bnh_hash := 0 |} |};
                  digest_cell := None |};
     signature_verification_state := Unverified 0; signed_authorities := ∅; cert_created_at := 0 |}.

Definition sub_dag (e : Epoch) (r : Round) (cs : list Certificate) : CommittedSubDag :=
  {| sd_certificates := cs ++ [certificate 1 e r]; sd_leader := certificate 1 e r;
     reputation_score := {| scores_per_authority := ∅; final_of_schedule := false |};
     sd_commit_timestamp := r |}.

Definition output (parent : B256) (n : Z) (s : CommittedSubDag) : ConsensusOutput :=
  {| co_sub_dag := s; co_batches := []; batch_digests := []; parent_hash := parent; number := n;
     extra := 0; close_epoch := false |}.

Definition no_epochs : EpochDb :=
  {| epoch_records := ∅; epoch_records_index := ∅; epoch_certs := ∅; pending_records := ∅ |}.
Definition empty_db : ChainDb :=
  {| consensus_blocks := ∅; consensus_blocks_cache := ∅; consensus_block_numbers_by_digest := ∅;
     chain_batches := ∅; epoch_tables := no_epochs |}.

Lemma empty_ok : chain_ok empty_db.
Proof. split; intros n h; cbn; by rewrite lookup_empty. Qed.

(** Header [n] of epoch 0 at round [2 * n], on parent [p]. *)
Definition block (p : B256) (n : Z) : ConsensusHeader := consensus_header (output p n (sub_dag 0 (2 * n) [])).

(** Block 3 is saved over a cached one and read back; a header cached past it
    is read too, and is gone once it is dropped. *)
Lemma chain_reads_witness :
  let o := output 7 3 (sub_dag 0 6 []) in
  let ops := [CacheHeader (block 8 3); SaveOutput o] in
  let saved := chain_run (fun _ => 0) [CacheHeader (block 8 3); SaveOutput o; CacheHeader (block 9 4)] empty_db in
  let dropped := chain_run (fun _ => 0) (ops ++ [CacheHeader (block 9 4); DropPoisoned (block 9 4)]) empty_db in
  get_consensus_by_number saved 3 = Some (consensus_header o) /\
  get_canonical_consensus_by_hash saved (consensus_header_hash o) = Some (consensus_header o) /\
  get_consensus_by_number saved 4 = Some (block 9 4) /\
  get_consensus_by_hash saved (ch_digest (block 9 4)) = Some (block 9 4) /\
  get_consensus_by_hash dropped (ch_digest (block 9 4)) = None.
Proof.
  intros o ops saved dropped.
  destruct (chain_reads (fun _ => 0) empty_db [CacheHeader (block 8 3)] (SaveOutput o) [CacheHeader (block 9 4)]
    empty_ok) as [_ H1].
  destruct (H1 ltac:(repeat constructor; cbn; tauto)) as [H2 H3].
  destruct (chain_reads (fun _ => 0) empty_db ops (CacheHeader (block 9 4)) [] empty_ok) as [_ H4].
  destruct (H4 ltac:(constructor)) as [H5 H6].
  destruct (chain_reads (fun _ => 0) empty_db (ops ++ [CacheHeader (block 9 4)]) (DropPoisoned (block 9 4)) []
    empty_ok) as [_ H7].
  destruct (H7 ltac:(constructor) ltac:(done)) as [H8 _]. by split_and!.
Defined.

(** Two nodes at the end of epoch 0, whose record names block 1; the second
    one also saved an output past it. *)
Definition record0 : EpochRecord :=
  {| er_epoch := 0; er_committee := []; er_next_committee := []; er_parent_hash := 0;
     er_parent_state := {| bnh_number := 0; bnh_hash := 0 |}; er_parent_consensus := ch_digest (block 7 1) |}.
Definition cert0 : EpochCertificate :=
  {| ec_epoch_hash := 0; ec_signature := 0; ec_signed_authorities := ∅ |}.
Definition closed_db : ChainDb :=
  {| consensus_blocks := ∅; consensus_blocks_cache := ∅; consensus_block_numbers_by_digest := ∅;
     chain_batches := ∅; epoch_tables := save_epoch_record_with_cert no_epochs record0 cert0 |}.
Definition save (n : Z) (db : ChainDb) : ChainDb :=
  (save_consensus (fun _ => 0) db (output 7 n (sub_dag 0 (2 * n) []))).1.

Lemma saved_ok ns : chain_ok (foldr save closed_db ns).
Proof.
  induction ns as [|n ns IH]; [split; intros ??; cbn; by rewrite lookup_empty|].
  exact (chain_op_ok (fun _ => 0) _ (SaveOutput _) IH).
Qed.

Lemma numbering_agreement_witness :
  get_last_executed_consensus (save 1 closed_db) 1 =
  get_last_executed_consensus (save 2 (save 1 closed_db)) 1 /\
  (get_last_executed_consensus (save 1 closed_db) 1).1 = er_parent_consensus record0.
Proof.
  refine (numbering_agreement (save 1 closed_db) (save 2 (save 1 closed_db)) 1 record0 cert0 record0 cert0
    (block 7 1) (block 7 1) 1 (block 7 1) 2 (block 7 2) (saved_ok [1]) (saved_ok [2; 1])
    _ _ _ eq_refl _ _ _ _ _ _); try (vm_compute; reflexivity).
  lia.
Defined.

(** A tip at 1 with a cached run of two headers and a row of another fork. *)
Definition cached_db : ChainDb :=
  let h1 := block 7 1 in let h2 := block (ch_digest h1) 2 in let h3 := block (ch_digest h2) 3 in
  foldl store_consensus_header_in_cache (save 1 empty_db) [h2; h3; block 9 4].

Lemma cached_ok : chain_ok cached_db.
Proof.
  apply (chain_run_ok (fun _ => 0) [SaveOutput (output 7 1 (sub_dag 0 2 [])); CacheHeader _; CacheHeader _;
    CacheHeader _]). apply empty_ok.
Qed.

Lemma derive_covered_anchor_correct_witness :
  derive_covered_anchor cached_db = Some (ch_digest (block (ch_digest (block (ch_digest (block 7 1)) 2)) 3)).
Proof. rewrite (derive_covered_anchor_correct cached_db cached_ok). vm_compute. reflexivity. Defined.

(** A chain of [n] blocks whose first holds a certificate of authority 9. *)
Definition long_chain (n : nat) : gmap Z ConsensusHeader :=
  list_to_map ((fun i => (Z.of_nat i, consensus_header (output 0 (Z.of_nat i)
    (sub_dag 0 (2 * Z.of_nat i) (if (i =? 1)%nat then [certificate 9 0 1] else []))))) <$> List.seq 1 n).
Definition long_db (n : nat) : ChainDb :=
  {| consensus_blocks := long_chain n; consensus_blocks_cache := ∅;
     consensus_block_numbers_by_digest := ∅; chain_batches := ∅; epoch_tables := no_epochs |}.

Lemma recovered_rounds_exact_witness :
  already_committed (read_last_committed (long_db 3) 0) (certificate 9 0 1) = true.
Proof.
  refine (proj1 (recovered_rounds_exact (long_db 3) 0 100 3 (block 0 3) _ _ _ _) (certificate 9 0 1) _ _);
    try (vm_compute; reflexivity).
  - change (btree_values (consensus_blocks (long_db 3))) with
      [consensus_header (output 0 1 (sub_dag 0 2 [certificate 9 0 1])); block 0 2; block 0 3].
    split.
    + intros [|[|[|i]]] b b'; cbn; intros [= <-] [= <-]; cbn; split; unfold leader_round, cert_round; cbn; lia.
    + intros b c Hb Hc. repeat (apply elem_of_cons in Hb as [->|Hb]); [..|by apply elem_of_nil in Hb];
        cbn in Hc; repeat (apply elem_of_cons in Hc as [->|Hc]);
        try (by apply elem_of_nil in Hc); unfold leader_round, cert_round; cbn; lia.
  - lia.
  - vm_compute. right. left.
Defined.

(** With the default garbage-collection depth of 500 rounds the recovery is not
    exact. After 51 commits, a certificate of round 1 is committed and not
    collected; a node that keeps running knows it as committed, a node that
    restarts does not. *)
Theorem default_depth_forgets_commits :
  let blocks := btree_values (consensus_blocks (long_db 51)) in
  let c := certificate 9 0 1 in
  last blocks = Some (block 0 51) /\ c ∈ committed_in 0 blocks /\
  gc_round_of (leader_round (ch_sub_dag (block 0 51))) 500 < cert_round c /\
  already_committed (last_committed (foldl update (ConsensusState_new 500) (committed_in 0 blocks))) c = true /\
  already_committed (read_last_committed (long_db 51) 0) c = false.
Proof.
  split_and!; try (vm_compute; reflexivity).
  apply (list_elem_of_lookup_2 _ 1). vm_compute. reflexivity.
Qed.

End ChainExamples.
