(* ===== verification/StateSync.v ===== *)
(** * State synchronization

    How a node that does not take part in consensus follows the chain of
    consensus headers: requests to peers ([request_consensus] of
    [consensus/primary/src/network/mod.rs]), verification of a header against a
    committee ([infrastructure/types/src/primary/block.rs] and [output.rs]), the
    backwards walk from gossiped tips
    ([consensus/state-sync/src/consensus.rs]) and the forward streamer with its
    catch-up ([consensus/state-sync/src/lib.rs]).

    What peers answer, whether execution confirms a block, when committee keys
    arrive, when shutdown is noticed, and what other tasks write to the tables
    while one awaits are inputs, consumed in the order they are asked for. *)
From S2P Require Import Prelude Lists State Types Committee LeaderSchedule Certificates ConsensusState.
From S2P Require Import EpochRecords BatchOrdering Engine ConsensusChain.
#[local] Open Scope Z_scope.

(** One request to some peer: it cannot be sent or loses its answer, an answer
    without a header, or a header. *)
Inductive HeaderReply :=
  | HeaderNoSend
  | HeaderOther
  | HeaderIs (h : ConsensusHeader).

(** The keys of a committee: known, arriving within the wait, or not. *)
Inductive KeyWait := KeysHeld | KeysArrive | KeysTimeout.

Record SyncState := {
  sy_db : ChainDb;
  (** what was sent on the channel [consensus_header] *)
  sy_sent : list ConsensusHeader;
  (** the watch [last_consensus_header] *)
  last_consensus_header : ConsensusHeader;
  (** the watch [requested_missing_epoch] *)
  requested_missing_epoch : Epoch;
  sy_replies : list HeaderReply;
  sy_executed : list bool;
  sy_keys : list KeyWait;
  sy_shutdown : list bool;
  sy_writes : list (list ChainOp)
}.

Inductive SyncError :=
  | DigestMismatch (number : Z)
  | ExecutionNotConfirmed (number : Z).

Definition set_sync_db (s : SyncState) (db : ChainDb) : SyncState :=
  {| sy_db := db; sy_sent := sy_sent s; last_consensus_header := last_consensus_header s;
     requested_missing_epoch := requested_missing_epoch s; sy_replies := sy_replies s;
     sy_executed := sy_executed s; sy_keys := sy_keys s; sy_shutdown := sy_shutdown s;
     sy_writes := sy_writes s |}.
Definition set_replies (s : SyncState) (x : list HeaderReply) : SyncState :=
  {| sy_db := sy_db s; sy_sent := sy_sent s; last_consensus_header := last_consensus_header s;
     requested_missing_epoch := requested_missing_epoch s; sy_replies := x;
     sy_executed := sy_executed s; sy_keys := sy_keys s; sy_shutdown := sy_shutdown s;
     sy_writes := sy_writes s |}.
Definition set_tip (s : SyncState) (h : ConsensusHeader) : SyncState :=
  {| sy_db := sy_db s; sy_sent := sy_sent s; last_consensus_header := h;
     requested_missing_epoch := requested_missing_epoch s; sy_replies := sy_replies s;
     sy_executed := sy_executed s; sy_keys := sy_keys s; sy_shutdown := sy_shutdown s;
     sy_writes := sy_writes s |}.

Section sync.
Context `{!Crypto, !OutputHashes, !EpochCrypto}.
Context (batch_hash : Batch -> B256).
(** [get_committee_keys_for_epoch], once it has the keys *)
Context (committee_keys : Epoch -> list BlsPublicKey).
(** [config.epoch()] *)
Context (current_epoch : Epoch).
Abbreviation Sync := (ST SyncState SyncError).

(** ** The environment *)

(** What other tasks wrote since the last await. *)
Definition interfere : Sync unit := fun s =>
  ({| sy_db := chain_run batch_hash (default [] (head (sy_writes s))) (sy_db s); sy_sent := sy_sent s;
      last_consensus_header := last_consensus_header s;
      requested_missing_epoch := requested_missing_epoch s; sy_replies := sy_replies s;
      sy_executed := sy_executed s; sy_keys := sy_keys s; sy_shutdown := sy_shutdown s;
      sy_writes := tail (sy_writes s) |}, Ret tt).

(** [wait_for_execution_bounded] *)
Definition wait_for_execution : Sync bool := fun s =>
  ({| sy_db := sy_db s; sy_sent := sy_sent s; last_consensus_header := last_consensus_header s;
      requested_missing_epoch := requested_missing_epoch s; sy_replies := sy_replies s;
      sy_executed := tail (sy_executed s); sy_keys := sy_keys s; sy_shutdown := sy_shutdown s;
      sy_writes := sy_writes s |}, Ret (default false (head (sy_executed s)))).

(** [shutdown.noticed()] *)
Definition noticed : Sync bool := fun s =>
  ({| sy_db := sy_db s; sy_sent := sy_sent s; last_consensus_header := last_consensus_header s;
      requested_missing_epoch := requested_missing_epoch s; sy_replies := sy_replies s;
      sy_executed := sy_executed s; sy_keys := sy_keys s; sy_shutdown := tail (sy_shutdown s);
      sy_writes := sy_writes s |}, Ret (default false (head (sy_shutdown s)))).

(** [consensus_header().send] *)
Definition send_header (h : ConsensusHeader) : Sync unit := fun s =>
  ({| sy_db := sy_db s; sy_sent := sy_sent s ++ [h]; last_consensus_header := last_consensus_header s;
      requested_missing_epoch := requested_missing_epoch s; sy_replies := sy_replies s;
      sy_executed := sy_executed s; sy_keys := sy_keys s; sy_shutdown := sy_shutdown s;
      sy_writes := sy_writes s |}, Ret tt).

(** The attempts of [request_consensus]. *)
Fixpoint request_attempts (n : nat) (number : option Z) (hash : option B256) (replies : list HeaderReply) :
    list HeaderReply * option ConsensusHeader :=
  match n, replies with
  | O, _ => (replies, None)
  | S n, [] | S n, HeaderNoSend :: _ => (tail replies, None)
  | S n, HeaderOther :: replies => request_attempts n number hash replies
  | S n, HeaderIs h :: replies =>
      match hash, number with
      | Some hash, _ =>
          if ch_digest h =? hash then (replies, Some h) else request_attempts n number (Some hash) replies
      | None, Some number =>
          if ch_number h =? number then (replies, Some h) else request_attempts n (Some number) None replies
      | None, None => (replies, None)
      end
  end.

(** [request_consensus] *)
Definition request_consensus (number : option Z) (hash : option B256) : Sync (option ConsensusHeader) := fun s =>
  let '(replies, r) := request_attempts 3 number hash (sy_replies s) in (set_replies s replies, Ret r).

(** ** Verification *)

(** The loop of [verify_certificates_with_keys]. *)
Fixpoint verify_certificates (keys : list BlsPublicKey) (verified : gset CertificateDigest)
    (certs : list Certificate) : Exec CertificateError (list Certificate) :=
  match certs with
  | [] => mret []
  | cert :: certs =>
      if bool_decide (digest cert ∈ verified)
      then rest ← verify_certificates keys verified certs; mret (cert :: rest)
      else
        cert ← verify_cert cert keys;
        rest ← verify_certificates keys ({[digest cert]} ∪ verified) certs;
        mret (cert :: rest)
  end.

(** [CommittedSubDag::verify_certificates_with_keys] *)
Definition verify_certificates_with_keys (s : CommittedSubDag) (keys : list BlsPublicKey) :
    Exec CertificateError CommittedSubDag :=
  leader ← verify_cert (sd_leader s) keys;
  certs ← verify_certificates keys (parents (header leader)) (sd_certificates s);
  mret {| sd_certificates := certs; sd_leader := leader; reputation_score := reputation_score s;
          sd_commit_timestamp := sd_commit_timestamp s |}.

(** [ConsensusHeader::verify_header_with_keys] *)
Definition verify_header_with_keys (h : ConsensusHeader) (keys : list BlsPublicKey) :
    Exec CertificateError ConsensusHeader :=
  sub_dag ← verify_certificates_with_keys (ch_sub_dag h) keys;
  mret {| ch_parent_hash := ch_parent_hash h; ch_sub_dag := sub_dag; ch_number := ch_number h;
          ch_extra := ch_extra h |}.

(** [wait_for_committee_keys]; while they are missing the epoch is requested. *)
Definition wait_for_committee_keys (epoch : Epoch) : Sync (option (list BlsPublicKey)) := fun s =>
  let w := default KeysTimeout (head (sy_keys s)) in
  ({| sy_db := sy_db s; sy_sent := sy_sent s; last_consensus_header := last_consensus_header s;
      requested_missing_epoch := match w with KeysHeld => requested_missing_epoch s
                                 | _ => Z.max epoch (requested_missing_epoch s) end;
      sy_replies := sy_replies s; sy_executed := sy_executed s; sy_keys := tail (sy_keys s);
      sy_shutdown := sy_shutdown s; sy_writes := sy_writes s |},
   Ret (match w with KeysTimeout => None | _ => Some (committee_keys epoch) end)).

(** ** The backwards walk *)

(** [republish_if_higher] *)
Definition republish_if_higher (h : ConsensusHeader) : Sync unit :=
  modify (fun s => if ch_number (last_consensus_header s) <? ch_number h then set_tip s h else s).

(** The fetch of [get_consensus_header], with [n] attempts left. *)
Fixpoint fetch_header (n : nat) (hash : B256) : Sync (option B256) :=
  match n with
  | O => mret None
  | S n =>
      stop ← noticed;
      if stop : bool then mret None
      else
        reply ← request_consensus None (Some hash);
        match reply : option ConsensusHeader with
        | None => fetch_header n hash
        | Some h =>
            keys ← wait_for_committee_keys (header_epoch h);
            match keys with
            | None => mret None
            | Some keys =>
                match verify_header_with_keys h keys with
                | Ret verified =>
                    _ ← modify (fun s => set_sync_db s (store_consensus_header_in_cache (sy_db s) verified));
                    _ ← republish_if_higher verified;
                    mret (Some (ch_parent_hash verified))
                | Err _ => mret None
                | Panic => fun s => (s, Panic)
                | Diverge => fun s => (s, Diverge)
                end
            end
        end
  end.

(** [get_consensus_header] *)
Definition get_consensus_header (hash : B256) : Sync (option B256) :=
  db ← gets sy_db;
  match get_canonical_consensus_by_hash db hash with
  | Some block => _ ← republish_if_higher block; mret None
  | None =>
      match get_consensus_by_hash db hash with
      | Some cached => _ ← republish_if_higher cached; mret (Some (ch_parent_hash cached))
      | None => fetch_header 3 hash
      end
  end.

Inductive WalkOutcome := Covered | Incomplete | WalkShutdown.

(** [WalkSession::walk] *)
Fixpoint walk (fuel : nat) (covered : option B256) (current : B256) : Sync WalkOutcome :=
  match fuel with
  | O => fun s => (s, Diverge)
  | S fuel =>
      stop ← noticed;
      if stop : bool then mret WalkShutdown
      else if bool_decide (covered = Some current) || (current =? ch_digest default_header) then mret Covered
      else
        r ← get_consensus_header current;
        match r with
        | Some parent => _ ← interfere; walk fuel covered parent
        | None =>
            db ← gets sy_db;
            mret (if bool_decide (is_Some (get_canonical_consensus_by_hash db current))
                  then Covered else Incomplete)
        end
  end.

(** [WalkSession::sync_to]: the new anchor of the session, and whether the
    tracker goes on. *)
Definition sync_to (fuel : nat) (covered : option B256) (start_hash : B256) : Sync (option B256 * bool) :=
  db ← gets sy_db;
  let covered := match covered with Some c => Some c | None => derive_covered_anchor db end in
  outcome ← walk fuel covered start_hash;
  mret (match outcome with
        | Covered => (Some start_hash, true)
        | Incomplete => (None, true)
        | WalkShutdown => (covered, false)
        end).

(** ** The forward streamer *)

(** The header to stream at [number]; the flag marks one fetched by number. *)
Definition next_header (max_consensus : ConsensusHeader) (number : Z) :
    Sync (option (ConsensusHeader * bool)) :=
  if number =? ch_number max_consensus then mret (Some (max_consensus, false))
  else
    db ← gets sy_db;
    match get_consensus_by_number db number with
    | Some block => mret (Some (block, false))
    | None =>
        reply ← request_consensus (Some number) None;
        mret ((fun h => (h, true)) <$> reply)
    end.

(** The loop of [catch_up_consensus_from_to]. *)
Fixpoint catch_up_loop (last_consensus_height : Z) (max_consensus : ConsensusHeader) (numbers : list Z)
    (last_parent : B256) (result_header : ConsensusHeader) : Sync ConsensusHeader :=
  match numbers with
  | [] => mret result_header
  | number :: numbers =>
      _ ← interfere;
      next ← next_header max_consensus number;
      match next : option (ConsensusHeader * bool) with
      | None => mret result_header
      | Some (consensus_header, from_gap_fetch) =>
          if header_epoch consensus_header <? current_epoch then mret result_header
          else
            let parent_hash := last_parent in
            let last_parent := digest_from_parts parent_hash (ch_sub_dag consensus_header) number in
            if negb (last_parent =? ch_digest consensus_header) then
              _ ← modify (fun s =>
                    if last_consensus_height <? number - 1
                    then set_sync_db s (drop_poisoned (sy_db s) (number - 1) parent_hash) else s);
              throw (DigestMismatch number)
            else
              _ ← modify (fun s =>
                    if from_gap_fetch
                    then set_sync_db s (store_consensus_header_in_cache (sy_db s) consensus_header) else s);
              confirmed ← wait_for_execution;
              if negb confirmed then throw (ExecutionNotConfirmed number)
              else
                _ ← send_header consensus_header;
                catch_up_loop last_consensus_height max_consensus numbers last_parent consensus_header
      end
  end.

(** [catch_up_consensus_from_to] *)
Definition catch_up_consensus_from_to (from max_consensus : ConsensusHeader) : Sync ConsensusHeader :=
  if ch_number max_consensus <=? ch_number from then mret from
  else catch_up_loop (ch_number from) max_consensus
         (seqZ (ch_number from + 1) (ch_number max_consensus - ch_number from)) (ch_digest from) from.

(** The variables of [spawn_stream_consensus_headers]. *)
Record Streamer := {
  st_sync : SyncState;
  last_header : ConsensusHeader;
  last_height : Z;
  pending_catch_up_target : option ConsensusHeader
}.

(** [attempt_catch_up] *)
Definition attempt_catch_up (t : Streamer) (target : ConsensusHeader) : Streamer :=
  match catch_up_consensus_from_to (last_header t) target (st_sync t) with
  | (s, Ret result) =>
      {| st_sync := s; last_header := result; last_height := ch_number result;
         pending_catch_up_target := if ch_number result <? ch_number target then Some target else None |}
  | (s, _) =>
      {| st_sync := s; last_header := last_header t; last_height := last_height t;
         pending_catch_up_target := Some target |}
  end.

(** What wakes the streamer: a new header on the watch, or the retry timer.
    [WriteTables] is a write by another task in between. *)
Inductive StreamEvent :=
  | HeaderChanged (h : ConsensusHeader)
  | RetryTick
  | WriteTables (op : ChainOp).

Definition stream_step (t : Streamer) (ev : StreamEvent) : Streamer :=
  match ev with
  | HeaderChanged header =>
      if last_height t <? ch_number header then attempt_catch_up t header else t
  | RetryTick =>
      match pending_catch_up_target t with
      | None => t
      | Some target =>
          if last_height t <? ch_number target then attempt_catch_up t target
          else {| st_sync := st_sync t; last_header := last_header t; last_height := last_height t;
                  pending_catch_up_target := None |}
      end
  | WriteTables op =>
      {| st_sync := set_sync_db (st_sync t) (chain_op batch_hash (sy_db (st_sync t)) op);
         last_header := last_header t; last_height := last_height t;
         pending_catch_up_target := pending_catch_up_target t |}
  end.

(** [spawn_stream_consensus_headers], from the executed anchor. *)
Definition Streamer_new (s : SyncState) (executed_anchor : ConsensusHeader) : Streamer :=
  {| st_sync := s; last_header := executed_anchor; last_height := ch_number executed_anchor;
     pending_catch_up_target := None |}.
Definition stream_run (t : Streamer) (evs : list StreamEvent) : Streamer := foldl stream_step t evs.

End sync.
