(* ===== verification/StateSyncProps.v ===== *)
(** * Properties of state synchronization

    What the forward streamer sends and what the backwards walk makes available,
    whatever peers answer; and how one answer can stop the streamer. *)
From S2P Require Import Prelude Lists State Types Committee LeaderSchedule Certificates ConsensusState.
From S2P Require Import EpochRecords BatchOrdering Engine ConsensusChain ConsensusChainProps StateSync.
#[local] Open Scope Z_scope.

Section props.
Context `{!Crypto, !OutputHashes, !EpochCrypto} {hashes_ok : HashesOk}.
Context (batch_hash : Batch -> B256) (current_epoch : Epoch).
Implicit Types (h p : ConsensusHeader) (s : SyncState).
Abbreviation catch_up_loop := (catch_up_loop batch_hash current_epoch).
Abbreviation stream_run := (stream_run batch_hash current_epoch).
Abbreviation stream_step := (stream_step batch_hash current_epoch).
Abbreviation attempt_catch_up := (attempt_catch_up batch_hash current_epoch).
Abbreviation catch_up_consensus_from_to := (catch_up_consensus_from_to batch_hash current_epoch).

(** ** Where headers come from *)

Section offered.
(** A property of all headers that the environment offers. *)
Context (P : ConsensusHeader -> Prop).

Definition rows_P (m : gmap Z ConsensusHeader) : Prop := forall n h, m !! n = Some h -> P h.
Definition op_P (op : ChainOp) : Prop :=
  match op with
  | SaveOutput o => P (consensus_header o)
  | CacheHeader h => P h
  | DropPoisoned _ => True
  end.
Definition reply_P (r : HeaderReply) : Prop := match r with HeaderIs h => P h | _ => True end.
Record offered (s : SyncState) : Prop := {
  of_blocks : rows_P (consensus_blocks (sy_db s));
  of_cache : rows_P (consensus_blocks_cache (sy_db s));
  of_replies : Forall reply_P (sy_replies s);
  of_writes : Forall (Forall op_P) (sy_writes s)
}.
Definition db_P (db : ChainDb) : Prop :=
  rows_P (consensus_blocks db) /\ rows_P (consensus_blocks_cache db).

Lemma rows_P_insert m n h : rows_P m -> P h -> rows_P (<[n := h]> m).
Proof. intros Hm Hh n' h'. rewrite lookup_insert. case_decide; [by intros [= <-]|apply Hm]. Qed.

Lemma rows_P_delete m n : rows_P m -> rows_P (delete n m).
Proof. intros Hm n' h' [_ Hh]%lookup_delete_Some. by eapply Hm. Qed.

Lemma drop_poisoned_P db n d : db_P db -> db_P (drop_poisoned db n d).
Proof.
  intros [Hb Hc]. unfold drop_poisoned. case_bool_decide; [done|]. split; [done|by apply rows_P_delete].
Qed.

Lemma chain_op_P db op : db_P db -> op_P op -> db_P (chain_op batch_hash db op).
Proof.
  intros Hdb. pose proof Hdb as [Hb Hc]. destruct op as [o|h|h]; cbn; intros Hop.
  - split; [by apply rows_P_insert|by apply rows_P_delete].
  - split; [done|by apply rows_P_insert].
  - by apply drop_poisoned_P.
Qed.

Lemma chain_run_P ops db : db_P db -> Forall op_P ops -> db_P (chain_run batch_hash ops db).
Proof.
  intros Hdb Hops. revert db Hdb. induction Hops as [|op ops Hop _ IH]; intros db Hdb; [done|].
  cbn. by apply IH, chain_op_P.
Qed.

Lemma offered_db s : offered s -> db_P (sy_db s).
Proof. by intros []. Qed.

Lemma offered_set_db s db : offered s -> db_P db -> offered (set_sync_db s db).
Proof. intros [] []. by split. Qed.

Lemma by_number_P db n h : db_P db -> get_consensus_by_number db n = Some h -> P h.
Proof.
  intros [Hb Hc]. unfold get_consensus_by_number. destruct (consensus_blocks db !! n) eqn:E;
    [intros [= <-]; by eapply Hb|intros Hh; by eapply Hc].
Qed.

Lemma request_attempts_P n number hash replies replies' r :
  Forall reply_P replies -> request_attempts n number hash replies = (replies', r) ->
  Forall reply_P replies' /\ forall h, r = Some h -> P h.
Proof.
  revert number hash replies. induction n as [|n IH]; intros number hash replies Hr; cbn.
  { by intros [= <- <-]. }
  destruct Hr as [|[| |h] replies Hx Hr]; cbn; [by intros [= <- <-]..|by apply IH|].
  repeat case_match; try (by intros [= <- <-]); try (by apply IH); intros [= <- <-]; split; [done| |done|];
    by intros ? [= <-].
Qed.

Lemma swp_interfere s (Q : unit -> SyncState -> Prop) R :
  offered s ->
  (forall s', offered s' -> sy_sent s' = sy_sent s -> Q tt s') -> swp (interfere batch_hash) s Q R.
Proof.
  intros Ho HQ. unfold swp, interfere. apply HQ; [|done]. destruct Ho as [Hb Hc Hr Hw].
  destruct (chain_run_P (default [] (head (sy_writes s))) (sy_db s)) as [Hb' Hc'].
  { by split. }
  { by destruct Hw. }
  split; cbn; try done. by destruct Hw.
Qed.

Lemma swp_request number hash s (Q : option ConsensusHeader -> SyncState -> Prop) R :
  offered s ->
  (forall r s', offered s' -> sy_sent s' = sy_sent s -> sy_db s' = sy_db s ->
     (forall h, r = Some h -> P h) -> Q r s') ->
  swp (request_consensus number hash) s Q R.
Proof.
  intros [Hb Hc Hr Hw] HQ. unfold swp, request_consensus.
  destruct (request_attempts 3 number hash (sy_replies s)) as [replies r] eqn:E.
  destruct (request_attempts_P _ _ _ _ _ _ Hr E) as [Hr' Hh]. by apply HQ.
Qed.

Lemma swp_next_header max number s (Q : option (ConsensusHeader * bool) -> SyncState -> Prop) R :
  offered s -> P max ->
  (forall r s', offered s' -> sy_sent s' = sy_sent s ->
     (forall h b, r = Some (h, b) -> P h) -> Q r s') ->
  swp (next_header max number) s Q R.
Proof.
  intros Ho Hm HQ. unfold next_header. case_match.
  { apply HQ; [done..|]. by intros h b [= <- _]. }
  apply swp_bind, swp_gets. destruct (get_consensus_by_number (sy_db s) number) as [b|] eqn:E.
  { apply HQ; [done..|]. intros h x [= <- _]. eapply by_number_P; [by apply offered_db|done]. }
  apply swp_bind, swp_request; [done|]. intros r s' Ho' Hs' _ Hr. apply HQ; [done..|].
  intros h x. destruct r as [h'|]; [|done]. intros [= <- _]. by apply Hr.
Qed.

(** ** The catch-up *)

(** [h] is a child of [p] of the current epoch or a later one. *)
Definition extends p h : Prop :=
  ch_parent_hash h = ch_digest p /\ ch_number h = ch_number p + 1 /\ current_epoch <= header_epoch h.
Fixpoint follows p (l : list ConsensusHeader) : Prop :=
  match l with
  | [] => True
  | h :: l => extends p h /\ follows h l
  end.
Fixpoint consecutive (n : Z) (numbers : list Z) : Prop :=
  match numbers with
  | [] => True
  | m :: numbers => m = n + 1 /\ consecutive m numbers
  end.

(** What a catch-up from [p] sends follows [p], header by header. *)
Definition streams p s (s' : SyncState) (l : list ConsensusHeader) : Prop :=
  offered s' /\ sy_sent s' = sy_sent s ++ l /\ follows p l /\ Forall P l.

Lemma catch_up_loop_links height max numbers p s :
  offered s -> P max -> consecutive (ch_number p) numbers ->
  swp (catch_up_loop height max numbers (ch_digest p) p) s
    (fun r s' => exists l, streams p s s' l /\ r = default p (last l))
    (fun _ s' => exists l, streams p s s' l).
Proof using hashes_ok.
  revert p s. induction numbers as [|n numbers IH]; intros p s Ho Hm Hn; cbn [StateSync.catch_up_loop].
  { exists []. unfold streams. by rewrite app_nil_r. }
  destruct Hn as [-> Hn]. apply swp_bind, swp_interfere; [done|]. intros s1 Ho1 Hs1.
  apply swp_bind, swp_next_header; [done..|]. intros r s2 Ho2 Hs2 Hr. rewrite Hs1 in Hs2.
  assert (streams p s s2 []) as Hnil by (unfold streams; rewrite app_nil_r; done).
  destruct r as [[h gap]|]; [|by exists []].
  destruct (Z.ltb_spec (header_epoch h) current_epoch) as [|He]; [by exists []|].
  destruct (Z.eqb_spec (digest_from_parts (ch_digest p) (ch_sub_dag h) (ch_number p + 1)) (ch_digest h)) as [Hd|Hd]; cbn [negb].
  2: { apply swp_bind, swp_modify. exists []. destruct Hnil as (_ & Hs & _). case_match; [|done].
       split_and!; [|done|done|done]. apply offered_set_db; [done|]. by apply drop_poisoned_P, offered_db. }
  pose proof Hd as (Hparent & _ & Hnum)%header_hash_inj.
  apply swp_bind, swp_modify.
  set (s3 := if gap then _ else _).
  assert (offered s3 /\ sy_sent s3 = sy_sent s) as [Ho3 Hs3].
  { unfold s3. destruct gap; [|done]. split; [|done]. apply offered_set_db; [done|].
    apply (chain_op_P _ (CacheHeader h)); [by apply offered_db|by eapply Hr]. }
  apply swp_bind. unfold swp at 1. cbn. destruct (default false (head (sy_executed s3))); cbn.
  2: { exists []. unfold streams. rewrite app_nil_r. split; [|done]. by destruct Ho3. }
  rewrite Hd. assert (Hn' : consecutive (ch_number h) numbers) by by rewrite <-Hnum.
  eapply swp_mono; [apply IH; [by destruct Ho3|done|done]| |].
  - intros r' s' (l & (Ho' & Hs' & Hf & Hl) & ->). cbn in Hs'. rewrite Hs3, <-app_assoc in Hs'. exists (h :: l). split; [|by rewrite last_cons; destruct (last l)].
    split_and!; [done|done|by split_and!|]. constructor; [by eapply Hr|done].
  - intros _ s' (l & Ho' & Hs' & Hf & Hl). cbn in Hs'. rewrite Hs3, <-app_assoc in Hs'. exists (h :: l).
    split_and!; [done|done|by split_and!|]. constructor; [by eapply Hr|done].
Qed.

End offered.

Lemma consecutive_seqZ n k : consecutive n (seqZ (n + 1) (Z.of_nat k)).
Proof.
  revert n. induction k as [|k IH]; intros n; [done|].
  rewrite seqZ_cons by lia. replace (Z.pred (Z.of_nat (S k))) with (Z.of_nat k) by lia. split; [done|].
  replace (Z.succ (n + 1)) with (n + 1 + 1) by lia. apply IH.
Qed.

Lemma catch_up_links P p max s :
  offered P s -> P max ->
  swp (catch_up_consensus_from_to p max) s
    (fun r s' => exists l, streams P p s s' l /\ r = default p (last l))
    (fun _ s' => exists l, streams P p s s' l).
Proof using hashes_ok.
  intros Ho Hm. unfold StateSync.catch_up_consensus_from_to. case_match.
  { exists []. unfold streams. by rewrite app_nil_r. }
  apply catch_up_loop_links; [done|done|].
  rewrite <-(Z2Nat.id (ch_number max - ch_number p)) by lia. apply consecutive_seqZ.
Qed.

(** Every header of the list is a child of the root or of an earlier one. *)
Inductive hash_linked (root : ConsensusHeader) : list ConsensusHeader -> Prop :=
  | hash_linked_nil : hash_linked root []
  | hash_linked_snoc l p h : hash_linked root l -> p = root \/ p ∈ l -> extends p h -> hash_linked root (l ++ [h]).

Lemma linked_app root l p k :
  hash_linked root l -> p = root \/ p ∈ l -> follows p k -> hash_linked root (l ++ k).
Proof.
  revert l p. induction k as [|h k IH]; intros l p Hl Hp Hf; [by rewrite app_nil_r|].
  destruct Hf as [He Hf]. change (h :: k) with ([h] ++ k). rewrite app_assoc.
  apply (IH _ h); [by eapply hash_linked_snoc|set_solver|done].
Qed.

(** What the streamer is offered between events. *)
Definition fed P (t : Streamer) : Prop :=
  offered P (st_sync t) /\ forall h, pending_catch_up_target t = Some h -> P h.
Definition event_P P (ev : StreamEvent) : Prop :=
  match ev with HeaderChanged h => P h | RetryTick => True | WriteTables op => op_P P op end.

(** One step continues from the last header of the catch-up, or sends headers
    that a failed catch-up had reached. *)
Definition advances P (t t' : Streamer) : Prop :=
  exists l, sy_sent (st_sync t') = sy_sent (st_sync t) ++ l /\ follows (last_header t) l /\ Forall P l /\
    (last_header t' = last_header t \/ last_header t' ∈ l).

Lemma attempt_advances P t target :
  fed P t -> P target -> fed P (attempt_catch_up t target) /\ advances P t (attempt_catch_up t target).
Proof using hashes_ok.
  intros [Ho Hp] Ht. pose proof (catch_up_links P (last_header t) target _ Ho Ht) as Hc.
  unfold StateSync.attempt_catch_up. unfold swp in Hc.
  destruct (catch_up_consensus_from_to _ _ _) as [s' [r|e| |]]; [| |done..].
  - destruct Hc as (l & (Ho' & Hs' & Hf & Hl') & ->). split.
    + split; [done|]. cbn. intros h. case_match; [by intros [= <-]|done].
    + exists l. split_and!; [done..|]. cbn. destruct (last l) as [h|] eqn:E; cbn; [|by left].
      right. by apply last_Some_elem_of.
  - destruct Hc as (l & Ho' & Hs' & Hf & Hl'). split; [split; [done|by intros h [= <-]]|].
    exists l. split_and!; [done..|by left].
Qed.

Lemma stream_step_advances P t ev :
  fed P t -> event_P P ev -> fed P (stream_step t ev) /\ advances P t (stream_step t ev).
Proof using hashes_ok.
  intros Ht Hev. assert (advances P t t) as Hid.
  { exists []. rewrite app_nil_r. split_and!; try done. by left. }
  pose proof Ht as [Ho Hp]. destruct ev as [h| |op]; cbn.
  - case_match; [by apply attempt_advances|done].
  - destruct (pending_catch_up_target t) as [target|] eqn:E; [|done].
    case_match; [apply attempt_advances; [done|by apply Hp]|]. by split.
  - split; [|done]. split; [|done]. apply offered_set_db; [done|].
    apply chain_op_P; [by apply offered_db|done].
Qed.

(** The sent headers hang on the root, and so does the last one. *)
Definition rooted (root : ConsensusHeader) (t : Streamer) : Prop :=
  hash_linked root (sy_sent (st_sync t)) /\ (last_header t = root \/ last_header t ∈ sy_sent (st_sync t)).

Lemma rooted_advances P root t t' : rooted root t -> advances P t t' -> rooted root t'.
Proof.
  intros [Hl Hlast] (l & Hs & Hf & _ & Hl'). split.
  - rewrite Hs. by eapply linked_app.
  - rewrite Hs. destruct Hl' as [->|Hin]; [|right; apply elem_of_app; by right].
    destruct Hlast as [?|?]; [by left|right; apply elem_of_app; by left].
Qed.

(** C25: Whatever peers answer and other tasks write, everything the forward
    streamer sends hangs by digests on the executed anchor: each header is the
    child of the anchor or of a header sent before, with the next number, and of
    the current epoch or a later one. *)
Theorem streamed_headers_link s anchor evs :
  sy_sent s = [] -> hash_linked anchor (sy_sent (st_sync (stream_run (Streamer_new s anchor) evs))).
Proof using hashes_ok.
  intros Hs. set (P := fun _ : ConsensusHeader => True).
  assert (fed P (Streamer_new s anchor)) as Hfed.
  { split; [|done]. split; [by intros ??..| |].
    - apply Forall_true. by intros [].
    - apply Forall_true. intros ops. apply Forall_true. by intros []. }
  assert (rooted anchor (Streamer_new s anchor)) as Hroot.
  { split; cbn; [rewrite Hs; constructor|by left]. }
  revert Hfed Hroot. generalize (Streamer_new s anchor). clear s Hs.
  induction evs as [|ev evs IH]; intros t Hfed Hroot; [by destruct Hroot|]. cbn.
  destruct (stream_step_advances P t ev Hfed) as [Hfed' Hadv]; [by destruct ev as [| |[]]|].
  apply IH; [done|by eapply rooted_advances].
Qed.

(** ** A planted header *)

(** The streamer cannot leave a header that no other header extends. *)
Lemma childless_anchor_stuck p t evs :
  let P h := ch_parent_hash h <> ch_digest p in
  fed P t -> last_header t = p -> Forall (event_P P) evs ->
  sy_sent (st_sync (stream_run t evs)) = sy_sent (st_sync t) /\ last_header (stream_run t evs) = p.
Proof using hashes_ok.
  intros P Ht Hp Hevs. revert t Ht Hp. induction Hevs as [|ev evs Hev _ IH]; intros t Ht Hp; [done|]. cbn.
  destruct (stream_step_advances P t ev Ht Hev) as [Ht' (l & Hs & Hf & Hl & Hlast)].
  destruct l as [|h l].
  - rewrite app_nil_r in Hs. rewrite <-Hs. apply IH; [done|].
    destruct Hlast as [->|Hin]; [done|by apply elem_of_nil in Hin].
  - destruct Hf as [[Hd _] _]. apply Forall_cons in Hl as [Hh _]. rewrite Hp in Hd. by destruct (Hh Hd).
Qed.

Lemma st_bind_eval {St E A B} (m : ST St E A) (f : A -> ST St E B) (x y : St) (a : A) :
  m x = (y, Ret a) -> (m ≫= f) x = f a y.
Proof. intros Hm. unfold mbind, st_bind. by rewrite Hm. Qed.

(** The table state after the planted header was fetched and streamed, and the
    next fetch failed. *)
Definition planted_state s (planted : ConsensusHeader) (replies : list HeaderReply) : SyncState :=
  {| sy_db := store_consensus_header_in_cache (sy_db s) planted; sy_sent := sy_sent s ++ [planted];
     last_consensus_header := last_consensus_header s;
     requested_missing_epoch := requested_missing_epoch s; sy_replies := replies;
     sy_executed := tail (sy_executed s); sy_keys := sy_keys s; sy_shutdown := sy_shutdown s;
     sy_writes := [] |}.

Lemma next_header_gap max number s r replies :
  number <> ch_number max -> get_consensus_by_number (sy_db s) number = None ->
  request_attempts 3 (Some number) None (sy_replies s) = (replies, r) ->
  next_header max number s = (set_replies s replies, Ret ((fun h => (h, true)) <$> r)).
Proof.
  intros Hn Hg Hr. unfold next_header. rewrite (proj2 (Z.eqb_neq _ _) Hn).
  erewrite st_bind_eval by reflexivity. rewrite Hg.
  erewrite st_bind_eval by (unfold request_consensus; rewrite Hr; reflexivity). done.
Qed.

Lemma interfere_none s :
  sy_writes s = [] -> interfere batch_hash s = (s, Ret tt).
Proof. intros Hw. unfold interfere. rewrite Hw. destruct s. cbn in *. by rewrite Hw. Qed.

Lemma planted_catch_up s anchor planted target replies :
  sy_replies s = HeaderIs planted :: HeaderNoSend :: replies -> sy_writes s = [] ->
  head (sy_executed s) = Some true -> extends anchor planted -> ch_number planted + 1 < ch_number target ->
  get_consensus_by_number (sy_db s) (ch_number planted) = None ->
  get_consensus_by_number (sy_db s) (ch_number planted + 1) = None ->
  catch_up_consensus_from_to anchor target s = (planted_state s planted replies, Ret planted).
Proof.
  intros Hrep Hw Hex (Hpar & Hnum & Hep) Htar Hg1 Hg2.
  unfold StateSync.catch_up_consensus_from_to. destruct (Z.leb_spec (ch_number target) (ch_number anchor)); [lia|].
  rewrite seqZ_cons, seqZ_cons by lia. rewrite <-Hnum, <-Z.add_1_r.
  generalize (seqZ (Z.succ (ch_number planted + 1)) (Z.pred (Z.pred (ch_number target - ch_number anchor)))) as ns.
  intros ns. change (?x :: ?y :: ns) with (x :: (y :: ns)). set (rest := _ :: ns).
  cbn [StateSync.catch_up_loop]. erewrite st_bind_eval by by apply interfere_none.
  erewrite st_bind_eval.
  2: { apply (next_header_gap _ _ _ (Some planted)); [lia|done|]. rewrite Hrep. cbn. by rewrite Z.eqb_refl. }
  cbn [fmap option_fmap option_map].
  destruct (Z.ltb_spec (header_epoch planted) current_epoch); [lia|].
  assert (digest_from_parts (ch_digest anchor) (ch_sub_dag planted) (ch_number planted) = ch_digest planted) as ->.
  { unfold ch_digest at 2. by rewrite Hpar. }
  rewrite Z.eqb_refl. cbn [negb]. erewrite st_bind_eval by reflexivity.
  erewrite st_bind_eval by (unfold wait_for_execution; cbn [sy_executed set_sync_db set_replies]; rewrite Hex; reflexivity).
  change (default false (Some true)) with true. cbn [negb].
  erewrite st_bind_eval by reflexivity. unfold rest. cbn [StateSync.catch_up_loop].
  erewrite st_bind_eval by (apply interfere_none; cbn; done).
  erewrite st_bind_eval.
  2: { apply (next_header_gap _ _ _ None replies); [lia| |done].
       revert Hg2. unfold get_consensus_by_number. cbn. by rewrite lookup_insert_ne by lia. }
  cbn. unfold planted_state. by rewrite Hw.
Qed.

(** One answer can stop a follower for good. A header fetched by number is
    checked for its number and its parent only. When a peer serves one with
    another sub-DAG and the fetch of the next number then fails, the streamer
    takes it as the point to continue from; whatever it is offered afterwards,
    as long as nobody else extends the planted header, it sends nothing more
    and keeps retrying. *)
Theorem planted_header_wedges s anchor planted target replies evs :
  let P h := ch_parent_hash h <> ch_digest planted in
  sy_replies s = HeaderIs planted :: HeaderNoSend :: replies -> sy_writes s = [] ->
  head (sy_executed s) = Some true -> sy_sent s = [] ->
  extends anchor planted -> ch_number planted + 1 < ch_number target ->
  get_consensus_by_number (sy_db s) (ch_number planted) = None ->
  get_consensus_by_number (sy_db s) (ch_number planted + 1) = None ->
  db_P P (sy_db s) -> Forall (reply_P P) replies -> P target -> P planted -> Forall (event_P P) evs ->
  let t := stream_run (Streamer_new s anchor) (HeaderChanged target :: evs) in
  sy_sent (st_sync t) = [planted] /\ last_header t = planted.
Proof using hashes_ok.
  intros P Hrep Hw Hex Hsent Hext Htar Hg1 Hg2 [Hb Hc] Hreps HPt HPp Hevs.
  pose proof (planted_catch_up _ _ _ _ _ Hrep Hw Hex Hext Htar Hg1 Hg2) as Hcatch. destruct Hext as (_ & Hnum & _).
  set (t0 := {| st_sync := planted_state s planted replies; last_header := planted;
                last_height := ch_number planted; pending_catch_up_target := Some target |}).
  assert (stream_step (Streamer_new s anchor) (HeaderChanged target) = t0) as Hstep.
  { cbn. destruct (Z.ltb_spec (ch_number anchor) (ch_number target)); [|lia].
    unfold StateSync.attempt_catch_up. cbn. rewrite Hcatch.
    by destruct (Z.ltb_spec (ch_number planted) (ch_number target)); [|lia]. }
  assert (fed P t0) as Ht0.
  { split; [|by intros h [= <-]]. split; cbn; [done|by apply rows_P_insert|done|done]. }
  intros t. destruct (childless_anchor_stuck planted t0 evs Ht0 eq_refl Hevs) as [Hs Hl].
  unfold t. cbn [StateSync.stream_run foldl]. unfold StateSync.stream_run in *. cbn [foldl]. rewrite Hstep.
  split; [|done]. rewrite Hs. cbn. by rewrite Hsent.
Qed.

(** ** Verification *)

Section walk.
Context (committee_keys : Epoch -> list BlsPublicKey).
Hypothesis keys_small : forall e, Z.of_nat (length (committee_keys e)) <= u32_max.
Abbreviation fetch_header := (fetch_header committee_keys).
Abbreviation get_consensus_header := (get_consensus_header committee_keys).
Abbreviation walk := (walk batch_hash committee_keys).

Lemma wp_verify_cert x keys :
  Z.of_nat (length keys) <= u32_max ->
  wp (verify_cert x keys) (fun y => header y = header x) (fun _ => True).
Proof.
  intros Hk. unfold verify_cert, validate_received. destruct (aggregated_signature x) as [sig|]; [|done]. cbn.
  destruct (signed_by _ keys) as [w pks]. unfold quorum_threshold_of, umul, uadd, ensure, verify_signature. cbn.
  unfold u32_max, u64_max in *.
  rewrite (proj2 (Z.leb_le _ _)) by lia. cbn.
  rewrite (proj2 (Z.leb_le _ _)) by (Z.to_euclidean_division_equations; lia). cbn.
  destruct (_ <=? w); cbn; [|done]. by case_match.
Qed.

Lemma wp_verify_certificates keys verified certs :
  Z.of_nat (length keys) <= u32_max ->
  wp (verify_certificates keys verified certs) (fun certs' => digest <$> certs' = digest <$> certs) (fun _ => True).
Proof.
  intros Hk. revert verified. induction certs as [|c certs IH]; intros verified; [done|]. cbn [verify_certificates].
  case_bool_decide.
  - apply wp_bind. eapply wp_mono; [apply IH| |done]. intros l Hl. cbn. by rewrite Hl.
  - apply wp_bind. eapply wp_mono; [by apply wp_verify_cert| |done]. intros c' Hc'.
    apply wp_bind. eapply wp_mono; [apply IH| |done]. intros l Hl. cbn. rewrite Hl. unfold digest. by rewrite Hc'.
Qed.

Lemma wp_verify_header h keys :
  Z.of_nat (length keys) <= u32_max ->
  wp (verify_header_with_keys h keys)
    (fun v => ch_digest v = ch_digest h /\ ch_number v = ch_number h /\ ch_parent_hash v = ch_parent_hash h)
    (fun _ => True).
Proof.
  intros Hk. unfold verify_header_with_keys, verify_certificates_with_keys.
  do 2 apply wp_bind. eapply wp_mono; [by apply wp_verify_cert| |done]. intros leader Hl.
  apply wp_bind. eapply wp_mono; [by apply wp_verify_certificates| |done]. intros certs Hc. cbn.
  split_and!; try done. unfold ch_digest, digest_from_parts, sub_dag_digest. cbn. rewrite Hc.
  unfold digest. by rewrite Hl.
Qed.

(** ** The backwards walk *)

(** A chain of headers from genesis. *)
Context (chain : Z -> ConsensusHeader).
Record header_chain : Prop := {
  hch_genesis : ch_digest (chain 0) = ch_digest default_header;
  hch_number : forall n, 0 <= n -> ch_number (chain n) = n;
  hch_parent : forall n, 0 <= n -> ch_parent_hash (chain (n + 1)) = ch_digest (chain n)
}.
Hypothesis honest : header_chain.

Definition available (db : ChainDb) (m : Z) : Prop := is_Some (get_consensus_by_hash db (ch_digest (chain m))).

(** A step keeps the tables in order and every header that was available. *)
Definition keeps (db : ChainDb) (s' : SyncState) : Prop :=
  chain_ok (sy_db s') /\ sy_writes s' = [] /\
  forall m, 0 <= m -> available db m -> available (sy_db s') m.

Lemma by_hash_Some db d h :
  get_consensus_by_hash db d = Some h -> exists k, consensus_block_numbers_by_digest db !! d = Some k /\
    ch_digest h = d /\ (consensus_blocks db !! k = Some h \/ consensus_blocks_cache db !! k = Some h).
Proof.
  unfold get_consensus_by_hash. destruct (consensus_block_numbers_by_digest db !! d) as [k|]; [|done]. cbn.
  intros Hh. exists k. split; [done|].
  destruct (consensus_blocks db !! k) as [b|]; cbn in Hh.
  - destruct (Z.eqb_spec (ch_digest b) d); [injection Hh as ->; auto|].
    destruct (consensus_blocks_cache db !! k) as [c|]; cbn in Hh; [|done].
    destruct (Z.eqb_spec (ch_digest c) d); [injection Hh as ->; auto|done].
  - destruct (consensus_blocks_cache db !! k) as [c|]; cbn in Hh; [|done].
    destruct (Z.eqb_spec (ch_digest c) d); [injection Hh as ->; auto|done].
Qed.

Lemma by_hash_intro db d k h :
  consensus_block_numbers_by_digest db !! d = Some k -> ch_digest h = d ->
  consensus_blocks db !! k = Some h \/ consensus_blocks_cache db !! k = Some h ->
  is_Some (get_consensus_by_hash db d).
Proof.
  intros Hk Hd Hr. unfold get_consensus_by_hash. rewrite Hk. cbn.
  destruct (consensus_blocks db !! k) as [b|] eqn:Eb; cbn.
  - destruct (Z.eqb_spec (ch_digest b) d); [by eexists|].
    destruct Hr as [Hr|Hr]; [congruence|]. rewrite Hr. cbn. by rewrite Hd, Z.eqb_refl.
  - destruct Hr as [Hr|Hr]; [congruence|]. rewrite Hr. cbn. by rewrite Hd, Z.eqb_refl.
Qed.

Lemma store_keeps s n v :
  chain_ok (sy_db s) -> sy_writes s = [] -> 0 <= n -> ch_digest v = ch_digest (chain n) ->
  let s' := set_sync_db s (store_consensus_header_in_cache (sy_db s) v) in
  keeps (sy_db s) s' /\ available (sy_db s') n.
Proof using hashes_ok honest batch_hash.
  intros Hok Hw Hn Hv s'. pose proof (digest_number _ _ Hv) as Hnum. rewrite (hch_number honest n Hn) in Hnum.
  assert (available (sy_db s') n) as Hav.
  { eapply (by_hash_intro _ _ (ch_number v) v); cbn; [by rewrite Hv, lookup_insert_eq|done|].
    right. by rewrite lookup_insert_eq. }
  split; [|done]. split_and!; [exact (chain_op_ok batch_hash _ (CacheHeader v) Hok)|done|].
  intros m Hm [h Hh]. destruct (decide (m = n)) as [->|Hne]; [done|].
  destruct (by_hash_Some _ _ _ Hh) as (k & Hk & Hd & Hr).
  assert (ch_digest (chain m) <> ch_digest v) as Hdv.
  { intros Heq. apply digest_number in Heq. rewrite (hch_number honest m Hm) in Heq. lia. }
  assert (k = m) as ->.
  { apply digest_number in Hd. rewrite (hch_number honest m Hm) in Hd. destruct Hok as [Hb Hc].
    destruct Hr as [Hr|Hr]; [destruct (Hb _ _ Hr)|destruct (Hc _ _ Hr)]; congruence. }
  apply (by_hash_intro _ _ m h); cbn; [by rewrite lookup_insert_ne by done|done|].
  destruct Hr as [Hr|Hr]; [by left|right]. rewrite lookup_insert_ne; [done|]. lia.
Qed.

Definition step_result n (db : ChainDb) (r : option B256) (s' : SyncState) : Prop :=
  keeps db s' /\ forall parent, r = Some parent -> parent = ch_digest (chain (n - 1)) /\ available (sy_db s') n.

Lemma request_attempts_hash k hash replies replies' h :
  request_attempts k None (Some hash) replies = (replies', Some h) -> ch_digest h = hash.
Proof.
  revert replies. induction k as [|k IH]; intros replies; cbn; [done|].
  destruct replies as [|[| |h'] replies]; try done; [by apply IH|].
  destruct (Z.eqb_spec (ch_digest h') hash); [by intros [= _ <-]|by apply IH].
Qed.

Lemma parent_of_chain n h :
  1 <= n -> ch_digest h = ch_digest (chain n) -> ch_parent_hash h = ch_digest (chain (n - 1)).
Proof using hashes_ok honest batch_hash.
  intros Hn (Hp & _ & _)%header_hash_inj. rewrite Hp. rewrite <-(hch_parent honest (n - 1)) by lia.
  by replace (n - 1 + 1) with n by lia.
Qed.

Lemma fetch_header_ok k n s :
  chain_ok (sy_db s) -> sy_writes s = [] -> 1 <= n ->
  swp (fetch_header k (ch_digest (chain n))) s (step_result n (sy_db s)) (fun _ _ => False).
Proof using hashes_ok honest keys_small batch_hash.
  revert s. induction k as [|k IH]; intros s Hok Hw Hn; cbn [StateSync.fetch_header].
  { by split; [split_and!|]. }
  apply swp_bind. unfold swp at 1. cbn. destruct (default false (head (sy_shutdown s))).
  { by split; [split_and!|]. }
  apply swp_bind. unfold swp at 1, request_consensus. cbn [sy_replies].
  destruct (request_attempts 3 None _ (sy_replies s)) as [replies [h|]] eqn:E;
    [|match goal with |- swp _ ?s1 _ _ => by apply (IH s1) end].
  apply request_attempts_hash in E as Hd. apply swp_bind. unfold swp at 1, wait_for_committee_keys. cbn [sy_keys set_replies].
  destruct (default KeysTimeout (head (sy_keys s))); [| |by split; [split_and!|]].
  all: pose proof (wp_verify_header h _ (keys_small (header_epoch h))) as Hv; unfold wp in Hv;
    destruct (verify_header_with_keys h _) as [v| | |]; [| |done..];
    [|by split; [split_and!|]]; destruct Hv as (Hvd & Hvn & Hvp).
  all: apply swp_bind, swp_modify; apply swp_bind, swp_modify; cbn [set_sync_db sy_db].
  all: match goal with |- context [set_tip (set_sync_db ?s1 _) _] =>
    destruct (store_keeps s1 n v) as [(Hk1 & Hk2 & Hk3) Hav]; [done|done|lia|congruence|] end.
  all: split; [case_match; by split_and!|].
  all: intros parent [= <-]; split; [rewrite Hvp; by apply parent_of_chain|by case_match].
Qed.

Lemma get_consensus_header_ok n s :
  chain_ok (sy_db s) -> sy_writes s = [] -> 1 <= n ->
  swp (get_consensus_header (ch_digest (chain n))) s (step_result n (sy_db s)) (fun _ _ => False).
Proof using hashes_ok honest keys_small batch_hash.
  intros Hok Hw Hn. unfold StateSync.get_consensus_header. apply swp_bind, swp_gets.
  destruct (get_canonical_consensus_by_hash _ _) as [b|] eqn:Ec.
  { apply swp_bind, swp_modify. split; [by case_match|done]. }
  destruct (get_consensus_by_hash _ _) as [c|] eqn:Eh; [|by apply fetch_header_ok].
  apply swp_bind, swp_modify. split; [by case_match|]. intros parent [= <-].
  destruct (by_hash_Some _ _ _ Eh) as (_ & _ & Hd & _).
  split; [by apply parent_of_chain|]. assert (available (sy_db s) n) by (by eexists). by case_match.
Qed.

(** Where a walk from header [n] stopped, and what it leaves available. *)
Definition walked (covered : option B256) n (db : ChainDb) (o : WalkOutcome) (s' : SyncState) : Prop :=
  keeps db s' /\ (o = Covered -> exists k, 0 <= k <= n /\
    (covered = Some (ch_digest (chain k)) \/ k = 0 \/
     is_Some (get_canonical_consensus_by_hash (sy_db s') (ch_digest (chain k)))) /\
    forall m, k < m <= n -> available (sy_db s') m).

Lemma walk_ok covered fuel n s :
  chain_ok (sy_db s) -> sy_writes s = [] -> 0 <= n < Z.of_nat fuel ->
  swp (walk fuel covered (ch_digest (chain n))) s (walked covered n (sy_db s)) (fun _ _ => False).
Proof using hashes_ok honest keys_small batch_hash.
  revert n s. induction fuel as [|fuel IH]; intros n s Hok Hw Hn; [lia|]. cbn [StateSync.walk].
  apply swp_bind. unfold swp at 1. cbn [noticed].
  destruct (default false (head (sy_shutdown s))); [by split; [split_and!|]|].
  destruct (bool_decide (covered = Some (ch_digest (chain n)))) eqn:Ecov.
  { apply bool_decide_eq_true in Ecov. split; [by split_and!|]. intros _. exists n.
    split_and!; [lia|lia|by left|lia]. }
  destruct (Z.eqb_spec (ch_digest (chain n)) (ch_digest default_header)) as [Hg|Hg]; cbn [orb].
  { split; [by split_and!|]. intros _. exists n. split_and!; [lia|lia| |lia]. right. left.
    apply digest_number in Hg. by rewrite (hch_number honest n) in Hg by lia. }
  assert (1 <= n) as Hn1.
  { destruct (decide (n = 0)) as [->|]; [|lia]. by destruct Hg; apply (hch_genesis honest). }
  apply swp_bind. eapply swp_mono; [by apply get_consensus_header_ok| |done].
  intros r s1 [Hk Hr]. destruct r as [parent|].
  - destruct (Hr _ eq_refl) as [-> Hav]. destruct Hk as (Hok1 & Hw1 & Hmon). apply swp_bind.
    unfold swp at 1. rewrite (interfere_none _ Hw1).
    eapply swp_mono; [apply IH; [done|done|lia]| |done]. intros o s2 [(Hok2 & Hw2 & Hmon2) Ho].
    split; [split_and!; auto|]. intros Hcov. destruct (Ho Hcov) as (k & Hkn & Hstop & Hall).
    exists k. split_and!; [lia|lia|done|]. intros m Hm. destruct (decide (m = n)) as [->|]; [|apply Hall; lia].
    apply Hmon2; [lia|done].
  - apply swp_bind, swp_gets, swp_ret. split; [done|].
    destruct (decide (is_Some (get_canonical_consensus_by_hash (sy_db s1) (ch_digest (chain n))))) as [Hc|Hc];
      [|by rewrite bool_decide_eq_false_2]. intros _. exists n.
    split_and!; [lia|lia|by right; right|lia].
Qed.

(** The backwards walk fetches what is missing. From the digest of a header of
    the chain, the walk ends within as many steps as the header's number, whatever
    peers answer; when it reports coverage, every header of the chain above the
    point where it stopped, which is the session's anchor, genesis or canonical, is
    held locally. *)
Theorem walk_fetches_chain covered fuel n s :
  chain_ok (sy_db s) -> sy_writes s = [] -> 0 <= n < Z.of_nat fuel ->
  exists s' o, walk fuel covered (ch_digest (chain n)) s = (s', Ret o) /\
  (o = Covered -> exists k, 0 <= k <= n /\
    (covered = Some (ch_digest (chain k)) \/ k = 0 \/
     is_Some (get_canonical_consensus_by_hash (sy_db s') (ch_digest (chain k)))) /\
    forall m, k < m <= n -> is_Some (get_consensus_by_hash (sy_db s') (ch_digest (chain m)))).
Proof using hashes_ok honest keys_small batch_hash.
  intros Hok Hw Hn. pose proof (walk_ok covered fuel n s Hok Hw Hn) as Hwalk. unfold swp in Hwalk.
  destruct (walk fuel covered _ s) as [s' [o|e| |]]; [|done..]. exists s', o. split; [done|]. by destruct Hwalk.
Qed.

End walk.
End props.

(** ** Examples *)

Module SyncExamples.
Import ChainExamples.

Definition state (db : ChainDb) (replies : list HeaderReply) (executed : list bool) : SyncState :=
  {| sy_db := db; sy_sent := []; last_consensus_header := default_header; requested_missing_epoch := 0;
     sy_replies := replies; sy_executed := executed; sy_keys := [KeysHeld]; sy_shutdown := [];
     sy_writes := [] |}.

Definition h1 : ConsensusHeader := block 7 1.
Definition h2 : ConsensusHeader := block (ch_digest h1) 2.
Definition h3 : ConsensusHeader := block (ch_digest h2) 3.
Definition h4 : ConsensusHeader := block (ch_digest h3) 4.

Lemma streamed_headers_link_witness :
  let t := stream_run (fun _ => 0) 0 (Streamer_new (state empty_db [HeaderOther; HeaderIs h2; HeaderIs h3] [true; true; true; true]) h1)
             [HeaderChanged h4] in
  hash_linked 0 h1 (sy_sent (st_sync t)) /\ sy_sent (st_sync t) = [h2; h3; h4].
Proof.
  split.
  - exact (streamed_headers_link (fun _ => 0) 0 (state empty_db [HeaderOther; HeaderIs h2; HeaderIs h3] [true; true; true; true]) h1
      [HeaderChanged h4] eq_refl).
  - vm_compute. reflexivity.
Defined.

(** A child of the anchor with another sub-DAG than [h2]. *)
Definition planted : ConsensusHeader := consensus_header (output (ch_digest h1) 2 (sub_dag 0 40 [])).

Lemma planted_header_wedges_witness :
  let t := stream_run (fun _ => 0) 0
    (Streamer_new (state empty_db [HeaderIs planted; HeaderNoSend; HeaderIs h3] [true; true; true]) h1)
    [HeaderChanged h4; RetryTick; WriteTables (CacheHeader h2); WriteTables (CacheHeader h3); RetryTick] in
  sy_sent (st_sync t) = [planted] /\ last_header t = planted.
Proof.
  refine (planted_header_wedges (fun _ => 0) 0
    (state empty_db [HeaderIs planted; HeaderNoSend; HeaderIs h3] [true; true; true]) h1 planted h4 [HeaderIs h3]
    [RetryTick; WriteTables (CacheHeader h2); WriteTables (CacheHeader h3); RetryTick]
    eq_refl eq_refl eq_refl eq_refl _ _ eq_refl eq_refl _ _ _ _ _).
  - split_and!; [vm_compute; reflexivity|vm_compute; reflexivity|vm_compute; discriminate].
  - vm_compute. reflexivity.
  - split; intros n h; cbn; by rewrite lookup_empty.
  - constructor; [vm_compute; discriminate|constructor].
  - vm_compute; discriminate.
  - vm_compute; discriminate.
  - repeat constructor; vm_compute; discriminate.
Defined.

Fixpoint chain_nat (k : nat) : ConsensusHeader :=
  match k with O => default_header | S k => block (ch_digest (chain_nat k)) (Z.of_nat (S k)) end.
Definition chain (n : Z) : ConsensusHeader := chain_nat (Z.to_nat n).

Lemma chain_honest : header_chain chain.
Proof.
  split; [done| |].
  - intros n Hn. unfold chain. destruct (Z.to_nat n) as [|k] eqn:E; cbn; lia.
  - intros n Hn. unfold chain. replace (Z.to_nat (n + 1)) with (S (Z.to_nat n)) by lia. done.
Qed.

(** Header 1 canonical and header 2 cached. *)
Definition walk_db : ChainDb :=
  store_consensus_header_in_cache (save_consensus (fun _ => 0) empty_db
    (output (ch_digest default_header) 1 (sub_dag 0 2 []))).1 (chain 2).

Lemma walk_db_ok : chain_ok walk_db.
Proof.
  exact (chain_run_ok (fun _ => 0) [SaveOutput (output (ch_digest default_header) 1 (sub_dag 0 2 []));
    CacheHeader (chain 2)] _ empty_ok).
Qed.

Lemma walk_fetches_chain_witness :
  (exists s' o, walk (fun _ => 0) (fun _ => []) 3 None (ch_digest (chain 2)) (state walk_db [] []) = (s', Ret o) /\
  (o = Covered -> exists k, 0 <= k <= 2 /\
    (None = Some (ch_digest (chain k)) \/ k = 0 \/
     is_Some (get_canonical_consensus_by_hash (sy_db s') (ch_digest (chain k)))) /\
    forall m, k < m <= 2 -> is_Some (get_consensus_by_hash (sy_db s') (ch_digest (chain m))))) /\
  (walk (fun _ => 0) (fun _ => []) 3 None (ch_digest (chain 2)) (state walk_db [] [])).2 = Ret Covered.
Proof.
  split.
  - exact (walk_fetches_chain (fun _ => 0) (fun _ => []) ltac:(done) chain chain_honest None 3 2 (state walk_db [] [])
      walk_db_ok eq_refl ltac:(lia)).
  - vm_compute. reflexivity.
Defined.

End SyncExamples.
