(* ===== verification/NativeErc20.v ===== *)
(** * The native ERC-20 precompile

    [crates/execution/evm/src/native_erc20]: the storage layout
    ([storage.rs]), the ABI helpers and signature checks ([abi.rs]) and the
    handlers of the token methods ([precompile.rs]); [evm/factory.rs]: the
    dispatch of a call to the precompile.

    The journal of the EVM is the interface [StateAccessAdapter], as in the
    code; what the handlers rely on is [StateAccessOk]. Keccak, the ABI
    decoder, the EIP-712 hash and public key recovery are library code
    ([EvmLib]). *)
From Stdlib Require Import Ascii String.
From S2P Require Import Prelude State Hardforks.
#[local] Open Scope Z_scope.
#[local] Open Scope list_scope.

(** ** Types *)

Abbreviation Address := Z (only parsing).
Abbreviation U256 := Z (only parsing).
Abbreviation B256 := Z (only parsing).

Definition address_max : Z := 2 ^ 160 - 1.
Definition ERC20_PRECOMPILE_ADDRESS : Address := 0x400.
Definition MINTING_MODULE_ADDRESS : Address := 0x07e17e17e17e17e17e17e17e17e17e17e17e17e6.
Definition BASE_ERROR_GAS : Z := 2100.

(** [AccountInfo] of the EVM. *)
Record AccountInfo := { balance : U256; nonce : Z; code_hash : B256 }.

(** The events of the token. *)
Inductive Event :=
  | Transfer_ (from to : Address) (value : U256)
  | Approval_ (owner spender : Address) (value : U256)
  | Mint_ (to : Address) (value : U256)
  | Burn_ (from : Address) (value : U256)
  | AuthorizationUsed_ (authorizer : Address) (nonce : B256)
  | AuthorizationCanceled_ (authorizer : Address) (nonce : B256).

Record Log := { log_address : Address; log_event : Event }.

(** ** Errors *)

Inductive ERC20Resource :=
  | RAllowance | RAccount (a : Address) | RTotalSupply | RSender | RReceiver | RBalance | RNonce.

Inductive ERC20Method := MApprove | MTransfer | MTransferFrom | MMint | MBurn | MBurnFrom.

(** The messages of [ERC20Other], before formatting; [LibError] is the text of
    a library's error. *)
Inductive Message (DbError : Type) :=
  | ReadError (r : ERC20Resource) (e : DbError)
  | WriteError (r : ERC20Resource) (e : DbError)
  | OverflowError (r : ERC20Resource) (m : ERC20Method)
  | ZeroAmountError (m : ERC20Method)
  | Other (s : string)
  | LibError.
Arguments ReadError {DbError} r e.
Arguments WriteError {DbError} r e.
Arguments OverflowError {DbError} r m.
Arguments ZeroAmountError {DbError} m.
Arguments Other {DbError} s.
Arguments LibError {DbError}.

Inductive ERC20Error (DbError : Type) :=
  | ERC20InvalidSender (a : Address)
  | ERC20InvalidReceiver (a : Address)
  | ERC20InsufficientBalance (a : Address) (have need : U256)
  | ERC20InvalidApprover (a : Address)
  | ERC20InvalidSpender (a : Address)
  | ERC20InsufficientAllowance (a : Address) (have need : U256)
  | NotWhitelisted (a : Address)
  | ERC20Other (m : Message DbError)
  | TransferWouldEmptyAccount (a : Address)
  | AuthorizationNotYetValid (valid_after now : U256)
  | AuthorizationExpired (valid_before now : U256)
  | AuthorizationAlreadyUsed (n : B256)
  | InvalidAuthorizer (sender signer : Address)
  | InvalidSignature
  | CallerNotReceiver (caller receiver : Address)
  | SignatureMalleability.
Arguments ERC20InvalidSender {DbError} a.
Arguments ERC20InvalidReceiver {DbError} a.
Arguments ERC20InsufficientBalance {DbError} a have need.
Arguments ERC20InvalidApprover {DbError} a.
Arguments ERC20InvalidSpender {DbError} a.
Arguments ERC20InsufficientAllowance {DbError} a have need.
Arguments NotWhitelisted {DbError} a.
Arguments ERC20Other {DbError} m.
Arguments TransferWouldEmptyAccount {DbError} a.
Arguments AuthorizationNotYetValid {DbError} valid_after now.
Arguments AuthorizationExpired {DbError} valid_before now.
Arguments AuthorizationAlreadyUsed {DbError} n.
Arguments InvalidAuthorizer {DbError} sender signer.
Arguments InvalidSignature {DbError}.
Arguments CallerNotReceiver {DbError} caller receiver.
Arguments SignatureMalleability {DbError}.

(** ** Selectors *)

Inductive Erc20Selector :=
  | Name | Symbol | Decimals | TotalSupply | BalanceOf | Allowance
  | Transfer | Approve | TransferFrom | Mint | Burn | BurnFrom
  | TransferWithAuthorization | ReceiveWithAuthorization | CancelAuthorization.

(** The authorization of [transferWithAuthorization] and
    [receiveWithAuthorization] with its signature. *)
Record Authorization := {
  auth_from : Address; auth_to : Address; auth_value : U256;
  auth_valid_after : U256; auth_valid_before : U256; auth_nonce : B256;
  auth_v : Z; auth_r : U256; auth_s : U256
}.

(** The decoded arguments of a method. *)
Definition params (sel : Erc20Selector) : Type :=
  match sel with
  | Name | Symbol | Decimals | TotalSupply => unit
  | BalanceOf => Address
  | Allowance => Address * Address
  | Transfer | Approve | Mint | BurnFrom => Address * U256
  | TransferFrom => Address * Address * U256
  | Burn => U256
  | TransferWithAuthorization | ReceiveWithAuthorization => Authorization
  | CancelAuthorization => Address * B256 * Z * U256 * U256
  end.

(** [SELECTOR_TABLE]'s variants, in order. *)
Definition SELECTOR_VARIANTS : list Erc20Selector :=
  [Name; Symbol; Decimals; TotalSupply; BalanceOf; Allowance; Transfer; Approve; TransferFrom;
   Mint; Burn; BurnFrom; TransferWithAuthorization; ReceiveWithAuthorization; CancelAuthorization].

(** [Erc20Selector::is_state_mutating] *)
Definition is_state_mutating (sel : Erc20Selector) : bool :=
  match sel with
  | Transfer | Approve | TransferFrom | Mint | Burn | BurnFrom
  | TransferWithAuthorization | ReceiveWithAuthorization | CancelAuthorization => true
  | Name | Symbol | Decimals | TotalSupply | BalanceOf | Allowance => false
  end.

(** ** Configuration *)

Record Erc20TokenConfig := {
  cfg_name : Bytes; cfg_symbol : Bytes; cfg_decimals : Z; cfg_version : Bytes
}.

(** The EIP-712 domain. *)
Record Eip712Domain := {
  domain_name : Bytes; domain_version : Bytes; domain_chain_id : U256;
  verifying_contract : Address
}.

Record Erc20Precompile := {
  name : Bytes; symbol : Bytes; decimals : Z; contract_address : Address;
  version : Bytes; chain_id : Z; domain : Eip712Domain
}.

(** [Erc20Precompile::new] *)
Definition Erc20Precompile_new (config : Erc20TokenConfig) (addr : Address) (chain : Z) :
    Erc20Precompile :=
  {| name := cfg_name config; symbol := cfg_symbol config; decimals := cfg_decimals config;
     contract_address := addr; version := cfg_version config; chain_id := chain;
     domain := {| domain_name := cfg_name config; domain_version := cfg_version config;
                  domain_chain_id := chain; verifying_contract := addr |} |}.

(** The structs that are signed. *)
Inductive SignedStruct :=
  | TransferWithAuthorizationStruct (from to : Address) (value valid_after valid_before : U256)
      (nonce : B256)
  | ReceiveWithAuthorizationStruct (from to : Address) (value valid_after valid_before : U256)
      (nonce : B256)
  | CancelAuthorizationStruct (authorizer : Address) (nonce : B256).

(** Library code: Keccak-256, the selectors and decoders that [sol!] derives,
    the EIP-712 signing hash, the recovery of a signer, the hash of the empty
    code, and the text of an error. *)
Class EvmLib := {
  keccak256 : Bytes -> B256;
  SELECTOR : Erc20Selector -> Bytes;
  abi_decode : forall sel, Bytes -> option (params sel);
  eip712_signing_hash : SignedStruct -> Eip712Domain -> B256;
  recover_address_from_prehash : U256 -> U256 -> bool -> B256 -> option Address;
  KECCAK_EMPTY : B256;
  error_text : forall {DbError}, ERC20Error DbError -> Bytes
}.

(** ** Storage layout ([storage.rs]) *)

Section storage.
Context `{!EvmLib}.

(** [mapping_slot_address]: the key is left-padded to 32 bytes. *)
Definition mapping_slot_address (key : Address) (base_slot : U256) : U256 :=
  keccak256 (repeat 0 12 ++ to_be_bytes 20 key ++ to_be_bytes 32 base_slot).

(** [mapping_slot_bytes32] *)
Definition mapping_slot_bytes32 (key : B256) (base_slot : U256) : U256 :=
  keccak256 (to_be_bytes 32 key ++ to_be_bytes 32 base_slot).

(** [nested_mapping_slot] *)
Definition nested_mapping_slot (outer_key : Address) (inner_key : B256) (base_slot : U256) : U256 :=
  mapping_slot_bytes32 inner_key (mapping_slot_address outer_key base_slot).

(** [allowance_mapping_slot] *)
Definition allowance_mapping_slot (owner spender : Address) (base_slot : U256) : U256 :=
  mapping_slot_address spender (mapping_slot_address owner base_slot).

(** [TOTAL_SUPPLY_PREFIX] *)
Definition TOTAL_SUPPLY_PREFIX : Bytes :=
  (fun a => Z.of_nat (nat_of_ascii a)) <$> list_ascii_of_string "TOTAL_SUPPLY_V1__________STORAGE".

(** [total_supply_slot] *)
Definition total_supply_slot : U256 := keccak256 TOTAL_SUPPLY_PREFIX.

Definition ALLOWANCES_BASE_SLOT : U256 := 1.
Definition AUTHORIZATION_NONCES_BASE_SLOT : U256 := 5.

(** [allowance_slot] *)
Definition allowance_slot (owner spender : Address) : U256 :=
  allowance_mapping_slot owner spender ALLOWANCES_BASE_SLOT.

(** [authorization_nonce_slot] *)
Definition authorization_nonce_slot (authorizer : Address) (n : B256) : U256 :=
  nested_mapping_slot authorizer n AUTHORIZATION_NONCES_BASE_SLOT.

End storage.

(** ** ABI helpers ([abi.rs]) *)

(** [encode_uint256] *)
Definition encode_uint256 (v : U256) : Bytes := to_be_bytes 32 v.

(** [encode_bool] *)
Definition encode_bool (b : bool) : Bytes := repeat 0 31 ++ [if b then 1 else 0].

(** [encode_uint8] *)
Definition encode_uint8 (v : Z) : Bytes := repeat 0 31 ++ [v].

(** [encode_string] *)
Definition encode_string (s : Bytes) : Bytes :=
  let len := length s in
  let padding := ((32 - len mod 32) mod 32)%nat in
  repeat 0 31 ++ [0x20] ++ to_be_bytes 32 (Z.of_nat len) ++ s ++ repeat 0 padding.

(** [encode_revert_reason] *)
Definition encode_revert_reason (reason : Bytes) : Bytes :=
  [0x08; 0xc3; 0x79; 0xa0] ++ encode_string reason.

(** [SECP256K1N_HALF]: its limbs, least significant first. *)
Definition SECP256K1N_HALF : U256 :=
  0xBFD25E8CD0364140 + 0xBAAEDCE6AF48A03B * 2 ^ 64 + 0xFFFFFFFFFFFFFFFE * 2 ^ 128
  + 0x7FFFFFFFFFFFFFFF * 2 ^ 192.

Section abi.
Context `{!EvmLib} {DbError : Type}.

(** [y_parity] of a recovery id. *)
Definition y_parity (v : Z) : option bool :=
  if (v =? 27) || (v =? 0) then Some false
  else if (v =? 28) || (v =? 1) then Some true
  else None.

(** The shared tail of [verify_transfer_authorization] and
    [verify_cancel_authorization], after the hash. *)
Definition recover_signer (hash : B256) (v : Z) (r s : U256) : Exec (ERC20Error DbError) Address :=
  match y_parity v with
  | None => Err (ERC20Other (Other "Invalid signature"))
  | Some parity =>
      if SECP256K1N_HALF <? s then Err SignatureMalleability
      else match recover_address_from_prehash r s parity hash with
           | Some a => Ret a
           | None => Err (ERC20Other LibError)
           end
  end.

(** [verify_transfer_authorization] *)
Definition verify_transfer_authorization (d : Eip712Domain) (a : Authorization) :
    Exec (ERC20Error DbError) Address :=
  let hash_struct := TransferWithAuthorizationStruct (auth_from a) (auth_to a) (auth_value a)
                       (auth_valid_after a) (auth_valid_before a) (auth_nonce a) in
  recover_signer (eip712_signing_hash hash_struct d) (auth_v a) (auth_r a) (auth_s a).

(** [verify_cancel_authorization] *)
Definition verify_cancel_authorization (d : Eip712Domain) (authorizer : Address) (n : B256)
    (v : Z) (r s : U256) : Exec (ERC20Error DbError) Address :=
  recover_signer (eip712_signing_hash (CancelAuthorizationStruct authorizer n) d) v r s.

(** [Erc20Selector::from_calldata] *)
Definition from_calldata (data : Bytes) : option Erc20Selector :=
  if (length data <? 4)%nat then None
  else List.find (fun sel => bool_decide (SELECTOR sel = take 4 data)) SELECTOR_VARIANTS.

(** [AccountInfo::is_empty] of the EVM library, as the documentation of
    [check_not_left_empty] gives it. *)
Definition is_empty (i : AccountInfo) : bool :=
  (balance i =? 0) && (nonce i =? 0)
  && ((code_hash i =? KECCAK_EMPTY) || (code_hash i =? 0)).

End abi.

(** ** State access *)

(** The trait [StateAccessAdapter] on a journal state [S]. *)
Class StateAccessAdapter (S : Type) := {
  DbError : Type;
  perform_load_account : Address -> ST S DbError AccountInfo;
  perform_set_balance : Address -> U256 -> ST S DbError unit;
  perform_sload : Address -> U256 -> ST S DbError U256;
  perform_sstore : Address -> U256 -> U256 -> ST S DbError unit;
  perform_touch_account : Address -> S -> S;
  perform_log : Log -> S -> S;
  get_block_timestamp : S -> U256
}.
Arguments DbError S {_}.

(** Output of a handler. *)
Record PrecompileOutput := { gas_used : Z; bytes : Bytes }.

Definition GAS_NAME : Z := 100.
Definition GAS_SYMBOL : Z := 100.
Definition GAS_DECIMALS : Z := 100.
Definition GAS_TOTAL_SUPPLY : Z := 2100.
Definition GAS_BALANCE_QUERY : Z := 400.
Definition GAS_ALLOWANCE_QUERY : Z := 2100.
Definition GAS_TRANSFER : Z := 9000.
Definition GAS_APPROVE : Z := 5000.
Definition GAS_TRANSFER_FROM : Z := 12000.
Definition GAS_MINT : Z := 10000.
Definition GAS_BURN : Z := 10000.
Definition GAS_TRANSFER_WITH_AUTHORIZATION : Z := 35000.
Definition GAS_RECEIVE_WITH_AUTHORIZATION : Z := 35000.
Definition GAS_CANCEL_AUTHORIZATION : Z := 25000.

(** ** Handlers ([precompile.rs]) *)

Section handlers.
Context `{!EvmLib} {S : Type} `{!StateAccessAdapter S} (p : Erc20Precompile).

Abbreviation M := (ST S (ERC20Error (DbError S))).

Definition read_error (r : ERC20Resource) (e : DbError S) : ERC20Error (DbError S) :=
  ERC20Other (ReadError r e).
Definition write_error (r : ERC20Resource) (e : DbError S) : ERC20Error (DbError S) :=
  ERC20Other (WriteError r e).
Definition overflow_error (r : ERC20Resource) (m : ERC20Method) : ERC20Error (DbError S) :=
  ERC20Other (OverflowError r m).
Definition zero_amount_error (m : ERC20Method) : ERC20Error (DbError S) :=
  ERC20Other (ZeroAmountError m).

Definition touch (a : Address) : M unit := modify (perform_touch_account a).
Definition log (e : Event) : M unit :=
  modify (perform_log {| log_address := contract_address p; log_event := e |}).
Definition output (gas : Z) (b : Bytes) : M PrecompileOutput := mret {| gas_used := gas; bytes := b |}.

(** A pure result in the monad. *)
Definition lift {A} (r : Exec (ERC20Error (DbError S)) A) : M A := fun s => (s, r).

(** [get_allowance] *)
Definition get_allowance (owner spender : Address) : M U256 :=
  st_map_err (read_error RAllowance)
    (perform_sload (contract_address p) (allowance_slot owner spender)).

(** [get_balance], with [perform_get_balance] *)
Definition get_balance (a : Address) : M U256 :=
  st_map_err (read_error (RAccount a))
    (i ← perform_load_account a; mret (balance i)).

(** [set_balance] *)
Definition set_balance (a : Address) (b : U256) : M unit :=
  st_map_err (write_error (RAccount a)) (perform_set_balance a b).

(** [get_total_supply] *)
Definition get_total_supply : M U256 :=
  st_map_err (read_error RTotalSupply) (perform_sload (contract_address p) total_supply_slot).

(** [set_allowance] *)
Definition set_allowance (owner spender : Address) (amount : U256) : M unit :=
  st_map_err (write_error RAllowance)
    (perform_sstore (contract_address p) (allowance_slot owner spender) amount).

(** [set_total_supply] *)
Definition set_total_supply (amount : U256) : M unit :=
  st_map_err (write_error RTotalSupply)
    (perform_sstore (contract_address p) total_supply_slot amount).

(** [check_approver] *)
Definition check_approver (a : Address) : M unit :=
  st_ensure (negb (a =? 0)) (ERC20InvalidApprover 0).

(** [check_spender] *)
Definition check_spender (a : Address) : M unit :=
  st_ensure (negb (a =? 0)) (ERC20InvalidSpender 0).

(** [check_balance] *)
Definition check_balance (sender : Address) (have needed : U256) : M unit :=
  st_ensure (negb (have <? needed)) (ERC20InsufficientBalance sender have needed).

(** [check_not_left_empty] *)
Definition check_not_left_empty (account : Address) (new_balance : U256) : M unit :=
  if negb (new_balance =? 0) then mret tt
  else
    info ← st_map_err (read_error (RAccount account)) (perform_load_account account);
    st_ensure (negb (is_empty {| balance := new_balance; nonce := nonce info;
                                 code_hash := code_hash info |}))
      (TransferWouldEmptyAccount account).

(** [check_allowance] *)
Definition check_allowance (spender : Address) (allowance needed : U256) (is_unlimited : bool) :
    M unit :=
  st_ensure (negb (negb is_unlimited && (allowance <? needed)))
    (ERC20InsufficientAllowance spender allowance needed).

(** [check_whitelist] *)
Definition check_whitelist (caller : Address) : M unit :=
  st_ensure (caller =? MINTING_MODULE_ADDRESS) (NotWhitelisted caller).

(** [check_sender] *)
Definition check_sender (a : Address) : M unit :=
  st_ensure (negb (a =? 0)) (ERC20InvalidSender 0).

(** [check_receiver] *)
Definition check_receiver (a : Address) : M unit :=
  st_ensure (negb (a =? 0)) (ERC20InvalidReceiver 0).

(** [transfer_balance] *)
Definition transfer_balance (sender receiver : Address) (amount : U256)
    (reject_empty_debits : bool) : M unit :=
  bal ← get_balance sender;
  _ ← check_balance sender bal amount;
  new_balance ← st_ok_or (checked_sub bal amount) (overflow_error RBalance MTransfer);
  _ ← (if reject_empty_debits then check_not_left_empty sender new_balance else mret tt);
  _ ← set_balance sender new_balance;
  _ ← touch sender;
  bal2 ← get_balance receiver;
  new_balance2 ← st_ok_or (checked_add u256_max bal2 amount) (overflow_error RBalance MTransfer);
  _ ← set_balance receiver new_balance2;
  touch receiver.

(** [handle_name], [handle_symbol], [handle_decimals] *)
Definition handle_name : M PrecompileOutput := output GAS_NAME (encode_string (name p)).
Definition handle_symbol : M PrecompileOutput := output GAS_SYMBOL (encode_string (symbol p)).
Definition handle_decimals : M PrecompileOutput := output GAS_DECIMALS (encode_uint8 (decimals p)).

(** [handle_total_supply] *)
Definition handle_total_supply : M PrecompileOutput :=
  total_supply ← st_map_err (read_error RTotalSupply)
    (perform_sload (contract_address p) total_supply_slot);
  output GAS_TOTAL_SUPPLY (encode_uint256 total_supply).

(** [handle_balance_of] *)
Definition handle_balance_of (a : Address) : M PrecompileOutput :=
  bal ← get_balance a;
  output GAS_BALANCE_QUERY (encode_uint256 bal).

(** [handle_allowance] *)
Definition handle_allowance (owner spender : Address) : M PrecompileOutput :=
  allowance ← get_allowance owner spender;
  output GAS_ALLOWANCE_QUERY (encode_uint256 allowance).

(** [handle_transfer] *)
Definition handle_transfer (sender receiver : Address) (amount : U256)
    (reject_empty_debits : bool) : M PrecompileOutput :=
  _ ← check_sender sender;
  _ ← check_receiver receiver;
  if amount =? 0 then output GAS_TRANSFER (encode_bool true)
  else if sender =? receiver then output GAS_TRANSFER (encode_bool true)
  else
    _ ← transfer_balance sender receiver amount reject_empty_debits;
    _ ← log (Transfer_ sender receiver amount);
    output GAS_TRANSFER (encode_bool true).

(** [handle_approve] *)
Definition handle_approve (owner spender : Address) (amount : U256) : M PrecompileOutput :=
  _ ← check_approver owner;
  _ ← check_spender spender;
  _ ← set_allowance owner spender amount;
  _ ← touch (contract_address p);
  _ ← log (Approval_ owner spender amount);
  output GAS_APPROVE (encode_bool true).

(** The decrease of the allowance in [handle_transfer_from] and
    [handle_burn_from]. *)
Definition decrease_allowance (m : ERC20Method) (owner spender : Address)
    (allowance amount : U256) (is_unlimited : bool) : M unit :=
  if negb is_unlimited then
    new_allowance ← st_ok_or (checked_sub allowance amount) (overflow_error RAllowance m);
    _ ← set_allowance owner spender new_allowance;
    touch (contract_address p)
  else mret tt.

(** [handle_transfer_from] *)
Definition handle_transfer_from (spender sender receiver : Address) (amount : U256)
    (reject_empty_debits : bool) : M PrecompileOutput :=
  _ ← check_sender sender;
  _ ← check_receiver receiver;
  if amount =? 0 then output GAS_TRANSFER_FROM (encode_bool true)
  else
    allowance ← get_allowance sender spender;
    let is_unlimited := allowance =? u256_max in
    _ ← check_allowance spender allowance amount is_unlimited;
    if sender =? receiver then
      _ ← decrease_allowance MTransfer sender spender allowance amount is_unlimited;
      _ ← log (Transfer_ sender receiver amount);
      output GAS_TRANSFER_FROM (encode_bool true)
    else
      _ ← transfer_balance sender receiver amount reject_empty_debits;
      _ ← decrease_allowance MTransfer sender spender allowance amount is_unlimited;
      _ ← log (Transfer_ sender receiver amount);
      output GAS_TRANSFER_FROM (encode_bool true).

(** [handle_mint] *)
Definition handle_mint (caller receiver : Address) (amount : U256) : M PrecompileOutput :=
  _ ← check_whitelist caller;
  _ ← check_receiver receiver;
  _ ← st_ensure (negb (amount =? 0)) (zero_amount_error MMint);
  supply ← get_total_supply;
  new_supply ← st_ok_or (checked_add u256_max supply amount) (overflow_error RTotalSupply MMint);
  _ ← set_total_supply new_supply;
  _ ← touch (contract_address p);
  bal ← get_balance receiver;
  new_bal ← st_ok_or (checked_add u256_max bal amount) (overflow_error RBalance MMint);
  _ ← set_balance receiver new_bal;
  _ ← touch receiver;
  _ ← log (Mint_ receiver amount);
  _ ← log (Transfer_ 0 receiver amount);
  output GAS_MINT (encode_bool true).

(** [handle_burn] *)
Definition handle_burn (caller : Address) (amount : U256) (reject_empty_debits : bool) :
    M PrecompileOutput :=
  _ ← check_whitelist caller;
  let sender := caller in
  _ ← st_ensure (negb (sender =? 0)) (ERC20InvalidSender 0);
  _ ← st_ensure (negb (amount =? 0)) (zero_amount_error MBurn);
  bal ← get_balance sender;
  _ ← check_balance sender bal amount;
  new_bal ← st_ok_or (checked_sub bal amount) (overflow_error RBalance MBurn);
  _ ← (if reject_empty_debits then check_not_left_empty sender new_bal else mret tt);
  supply ← get_total_supply;
  new_supply ← st_ok_or (checked_sub supply amount) (overflow_error RTotalSupply MBurn);
  _ ← set_total_supply new_supply;
  _ ← touch (contract_address p);
  _ ← set_balance sender new_bal;
  _ ← touch sender;
  _ ← log (Burn_ sender amount);
  _ ← log (Transfer_ sender 0 amount);
  output GAS_BURN (encode_bool true).

(** [handle_burn_from] *)
Definition handle_burn_from (caller sender : Address) (amount : U256)
    (reject_empty_debits : bool) : M PrecompileOutput :=
  _ ← check_whitelist caller;
  _ ← st_ensure (negb (sender =? 0)) (ERC20InvalidSender 0);
  _ ← st_ensure (negb (amount =? 0)) (zero_amount_error MBurn);
  allowance ← get_allowance sender caller;
  let is_unlimited := allowance =? u256_max in
  _ ← check_allowance caller allowance amount is_unlimited;
  bal ← get_balance sender;
  _ ← check_balance sender bal amount;
  new_bal ← st_ok_or (checked_sub bal amount) (overflow_error RBalance MBurn);
  _ ← (if reject_empty_debits then check_not_left_empty sender new_bal else mret tt);
  supply ← get_total_supply;
  new_supply ← st_ok_or (checked_sub supply amount) (overflow_error RTotalSupply MBurn);
  _ ← set_total_supply new_supply;
  _ ← touch (contract_address p);
  _ ← set_balance sender new_bal;
  _ ← touch sender;
  _ ← decrease_allowance MBurn sender caller allowance amount is_unlimited;
  _ ← log (Burn_ sender amount);
  _ ← log (Transfer_ sender 0 amount);
  output GAS_BURN (encode_bool true).

(** [is_authorization_nonce_used] *)
Definition is_authorization_nonce_used (authorizer : Address) (n : B256) : M bool :=
  v ← st_map_err (read_error RNonce)
    (perform_sload (contract_address p) (authorization_nonce_slot authorizer n));
  mret (negb (v =? 0)).

(** [mark_nonce_used] *)
Definition mark_nonce_used (authorizer : Address) (n : B256) : M unit :=
  _ ← st_map_err (write_error RNonce)
    (perform_sstore (contract_address p) (authorization_nonce_slot authorizer n) 1);
  touch (contract_address p).

(** [handle_transfer_with_authorization] *)
Definition handle_transfer_with_authorization (a : Authorization) (reject_empty_debits : bool) :
    M PrecompileOutput :=
  now ← gets get_block_timestamp;
  _ ← st_ensure (negb (now <? auth_valid_after a)) (AuthorizationNotYetValid (auth_valid_after a) now);
  _ ← st_ensure (negb (auth_valid_before a <=? now)) (AuthorizationExpired (auth_valid_before a) now);
  used ← is_authorization_nonce_used (auth_from a) (auth_nonce a);
  _ ← st_ensure (negb used) (AuthorizationAlreadyUsed (auth_nonce a));
  signer ← lift (verify_transfer_authorization (domain p) a);
  _ ← st_ensure (signer =? auth_from a) (InvalidAuthorizer (auth_from a) signer);
  _ ← mark_nonce_used (auth_from a) (auth_nonce a);
  res ← handle_transfer (auth_from a) (auth_to a) (auth_value a) reject_empty_debits;
  _ ← log (AuthorizationUsed_ (auth_from a) (auth_nonce a));
  output GAS_TRANSFER_WITH_AUTHORIZATION (bytes res).

(** [handle_receive_with_authorization] *)
Definition handle_receive_with_authorization (caller : Address) (a : Authorization)
    (reject_empty_debits : bool) : M PrecompileOutput :=
  _ ← st_ensure (caller =? auth_to a) (CallerNotReceiver caller (auth_to a));
  now ← gets get_block_timestamp;
  _ ← st_ensure (negb (now <? auth_valid_after a)) (AuthorizationNotYetValid (auth_valid_after a) now);
  _ ← st_ensure (negb (auth_valid_before a <=? now)) (AuthorizationExpired (auth_valid_before a) now);
  used ← is_authorization_nonce_used (auth_from a) (auth_nonce a);
  _ ← st_ensure (negb used) (AuthorizationAlreadyUsed (auth_nonce a));
  signer ← lift (verify_transfer_authorization (domain p) a);
  _ ← st_ensure (signer =? auth_from a) (InvalidAuthorizer (auth_from a) signer);
  _ ← mark_nonce_used (auth_from a) (auth_nonce a);
  res ← handle_transfer (auth_from a) (auth_to a) (auth_value a) reject_empty_debits;
  _ ← log (AuthorizationUsed_ (auth_from a) (auth_nonce a));
  output GAS_RECEIVE_WITH_AUTHORIZATION (bytes res).

(** [handle_cancel_authorization] *)
Definition handle_cancel_authorization (authorizer : Address) (n : B256) (v : Z) (r s : U256) :
    M PrecompileOutput :=
  used ← is_authorization_nonce_used authorizer n;
  _ ← st_ensure (negb used) (AuthorizationAlreadyUsed n);
  signer ← lift (verify_cancel_authorization (domain p) authorizer n v r s);
  _ ← st_ensure (signer =? authorizer) (InvalidAuthorizer authorizer signer);
  _ ← mark_nonce_used authorizer n;
  _ ← log (AuthorizationCanceled_ authorizer n);
  output GAS_CANCEL_AUTHORIZATION (encode_bool true).

End handlers.

(** ** Dispatch ([evm/factory.rs]) *)

Record PrecompileInput := {
  in_data : Bytes; in_gas : Z; in_caller : Address; in_value : U256;
  in_is_static : bool; in_is_direct_call : bool; in_block_number : U256
}.

Inductive PrecompileError := PrecompileOther (s : string) | OutOfGas.

(** The library's [PrecompileOutput]: [new] or [new_reverted]. *)
Record PrecompileReturn := { pr_gas_used : Z; pr_bytes : Bytes; pr_reverted : bool }.

Section dispatch.
Context `{!EvmLib} {S : Type} `{!StateAccessAdapter S} `{!ForkConditionApi}.

(** The handler of a selector, applied to its decoded arguments. *)
Definition run_method (p : Erc20Precompile) (caller : Address) (reject_empty_debits : bool)
    (sel : Erc20Selector) : params sel -> ST S (ERC20Error (DbError S)) PrecompileOutput :=
  match sel with
  | Name => fun _ => handle_name p
  | Symbol => fun _ => handle_symbol p
  | Decimals => fun _ => handle_decimals p
  | TotalSupply => fun _ => handle_total_supply p
  | BalanceOf => fun account => handle_balance_of account
  | Allowance => fun '(owner, spender) => handle_allowance p owner spender
  | Transfer => fun '(to, amount) => handle_transfer p caller to amount reject_empty_debits
  | Approve => fun '(spender, amount) => handle_approve p caller spender amount
  | TransferFrom => fun '(from, to, amount) =>
      handle_transfer_from p caller from to amount reject_empty_debits
  | Mint => fun '(to, amount) => handle_mint p caller to amount
  | Burn => fun amount => handle_burn p caller amount reject_empty_debits
  | BurnFrom => fun '(account, amount) =>
      handle_burn_from p caller account amount reject_empty_debits
  | TransferWithAuthorization => fun a => handle_transfer_with_authorization p a reject_empty_debits
  | ReceiveWithAuthorization => fun a =>
      handle_receive_with_authorization p caller a reject_empty_debits
  | CancelAuthorization => fun '(authorizer, n, v, r, s) =>
      handle_cancel_authorization p authorizer n v r s
  end.

(** The methods without parameters are run without decoding. *)
Definition decode_call (sel : Erc20Selector) (data : Bytes) : option (params sel) :=
  match sel return option (params sel) with
  | Name => Some tt
  | Symbol => Some tt
  | Decimals => Some tt
  | TotalSupply => Some tt
  | sel => abi_decode sel data
  end.

(** [erc20_dyn_precompile]; [activation] is the chain spec's schedule and
    [instance] the global [ERC20_PRECOMPILE_INSTANCE]. *)
Definition erc20_dyn_precompile (activation : RaylsHardFork -> ForkCondition)
    (instance : option Erc20Precompile) (i : PrecompileInput) : ST S PrecompileError PrecompileReturn :=
  fun s =>
  let block := Z.min u64_max (in_block_number i) in
  if negb (in_is_direct_call i)
     && is_rayls_fork_active_at_block activation Erc20PrecompileDirectCall block
  then (s, Err (PrecompileOther
    "ERC-20 precompile must be called directly, not via DELEGATECALL or CALLCODE"))
  else if negb (in_value i =? 0)
  then (s, Err (PrecompileOther "ERC-20 precompile rejects native value transfer"))
  else match instance with
  | None => (s, Err (PrecompileOther "ERC-20 precompile not initialized"))
  | Some p =>
      if (length (in_data i) <? 4)%nat then (s, Err (PrecompileOther "Invalid input: too short"))
      else match from_calldata (in_data i) with
      | None => (s, Err (PrecompileOther "Unknown function selector"))
      | Some sel =>
          if in_is_static i && is_state_mutating sel
          then (s, Err (PrecompileOther "ERC-20 state mutation forbidden under static call"))
          else
            let reject_empty_debits :=
              is_rayls_fork_active_at_block activation Eip161EmptyAccountGuard block in
            match decode_call sel (in_data i) with
            | None => (s, Err (PrecompileOther "ABI decode failed"))
            | Some x =>
                match run_method p (in_caller i) reject_empty_debits sel x s with
                | (s', Ret out) =>
                    if in_gas i <? gas_used out then (s', Err OutOfGas)
                    else (s', Ret {| pr_gas_used := gas_used out; pr_bytes := bytes out;
                                     pr_reverted := false |})
                | (s', Err e) =>
                    (s', Ret {| pr_gas_used := Z.min BASE_ERROR_GAS (in_gas i);
                                pr_bytes := encode_revert_reason (error_text e);
                                pr_reverted := true |})
                | (s', Panic) => (s', Panic)
                | (s', Diverge) => (s', Diverge)
                end
            end
      end
  end.

End dispatch.

(** ** What the journal promises *)

(** The accounts, the storage, the touched accounts, the logs and the block
    time, as the journal shows them. *)
Record World := {
  w_accounts : gmap Address AccountInfo;
  w_storage : gmap (Address * U256) U256;
  w_touched : gset Address;
  w_logs : list Log;
  w_timestamp : U256
}.

(** An account that was never written is loaded with its default. *)
Definition account `{!EvmLib} (w : World) (a : Address) : AccountInfo :=
  default {| balance := 0; nonce := 0; code_hash := KECCAK_EMPTY |} (w_accounts w !! a).

Definition slot (w : World) (c : Address) (k : U256) : U256 := default 0 (w_storage w !! (c, k)).

Definition put_balance `{!EvmLib} (w : World) (a : Address) (b : U256) : World :=
  {| w_accounts := <[a := {| balance := b; nonce := nonce (account w a);
                             code_hash := code_hash (account w a) |}]> (w_accounts w);
     w_storage := w_storage w; w_touched := w_touched w; w_logs := w_logs w;
     w_timestamp := w_timestamp w |}.

Definition put_slot (w : World) (c : Address) (k v : U256) : World :=
  {| w_accounts := w_accounts w; w_storage := <[(c, k) := v]> (w_storage w);
     w_touched := w_touched w; w_logs := w_logs w; w_timestamp := w_timestamp w |}.

Definition put_touched (w : World) (a : Address) : World :=
  {| w_accounts := w_accounts w; w_storage := w_storage w; w_touched := {[a]} ∪ w_touched w;
     w_logs := w_logs w; w_timestamp := w_timestamp w |}.

Definition put_log (w : World) (l : Log) : World :=
  {| w_accounts := w_accounts w; w_storage := w_storage w; w_touched := w_touched w;
     w_logs := w_logs w ++ [l]; w_timestamp := w_timestamp w |}.

(** The behaviour of a journal: reads return what the world holds and change
    nothing, writes change what they name, and a database error changes
    nothing. *)
Class StateAccessOk `{!EvmLib} (S : Type) `{!StateAccessAdapter S} := {
  world : S -> World;
  load_account_ok : forall a s, swp (perform_load_account a) s
    (fun i s' => i = account (world s) a /\ world s' = world s) (fun _ s' => world s' = world s);
  set_balance_ok : forall a b s, swp (perform_set_balance a b) s
    (fun _ s' => world s' = put_balance (world s) a b) (fun _ s' => world s' = world s);
  sload_ok : forall c k s, swp (perform_sload c k) s
    (fun v s' => v = slot (world s) c k /\ world s' = world s) (fun _ s' => world s' = world s);
  sstore_ok : forall c k v s, swp (perform_sstore c k v) s
    (fun _ s' => world s' = put_slot (world s) c k v) (fun _ s' => world s' = world s);
  touch_ok : forall a s, world (perform_touch_account a s) = put_touched (world s) a;
  log_ok : forall l s, world (perform_log l s) = put_log (world s) l;
  timestamp_ok : forall s, get_block_timestamp s = w_timestamp (world s)
}.
