(* ===== verification/NativeErc20Props.v ===== *)
(** * Correctness of the native ERC-20 precompile

    The token as an abstract ledger (balances, allowances, used
    authorizations, supply, events), the ledger that ERC-20 and EIP-3009 ask
    for and the calls on which the two agree, the refinement of the handlers of
    [NativeErc20] over any journal, and what follows for the token:
    conservation, who may move funds, replay protection and the guards of the
    dispatch. *)
From Stdlib Require Import Ascii String.
From S2P Require Import Prelude State Hardforks NativeErc20.
#[local] Open Scope Z_scope.
#[local] Open Scope list_scope.

(** ** The abstract token *)

Record Ledger := {
  l_balance : Address -> U256;
  l_allowance : Address -> Address -> U256;
  l_used : Address -> B256 -> bool;
  l_supply : U256;
  l_bare : Address -> bool;  (** no transaction sent and no code *)
  l_events : list Event
}.

Definition upd {A} (f : Z -> A) (k : Z) (v : A) : Z -> A := fun k' => if k' =? k then v else f k'.

Definition set_l_balance (l : Ledger) (a : Address) (b : U256) : Ledger :=
  {| l_balance := upd (l_balance l) a b; l_allowance := l_allowance l; l_used := l_used l;
     l_supply := l_supply l; l_bare := l_bare l; l_events := l_events l |}.

Definition set_l_allowance (l : Ledger) (o s : Address) (v : U256) : Ledger :=
  {| l_balance := l_balance l; l_allowance := upd (l_allowance l) o (upd (l_allowance l o) s v);
     l_used := l_used l; l_supply := l_supply l; l_bare := l_bare l; l_events := l_events l |}.

Definition set_l_used (l : Ledger) (a : Address) (n : B256) : Ledger :=
  {| l_balance := l_balance l; l_allowance := l_allowance l;
     l_used := upd (l_used l) a (upd (l_used l a) n true);
     l_supply := l_supply l; l_bare := l_bare l; l_events := l_events l |}.

Definition set_l_supply (l : Ledger) (v : U256) : Ledger :=
  {| l_balance := l_balance l; l_allowance := l_allowance l; l_used := l_used l;
     l_supply := v; l_bare := l_bare l; l_events := l_events l |}.

Definition emit (l : Ledger) (es : list Event) : Ledger :=
  {| l_balance := l_balance l; l_allowance := l_allowance l; l_used := l_used l;
     l_supply := l_supply l; l_bare := l_bare l; l_events := l_events l ++ es |}.

(** Moving [amt] from [a] to another account [b]. *)
Definition move (l : Ledger) (a b : Address) (amt : U256) : Ledger :=
  set_l_balance (set_l_balance l a (l_balance l a - amt)) b (l_balance l b + amt).

(** Using [amt] of an allowance; the maximal one is unlimited. *)
Definition spend (l : Ledger) (o s : Address) (amt : U256) : Ledger :=
  if l_allowance l o s =? u256_max then l else set_l_allowance l o s (l_allowance l o s - amt).

Definition can_debit (l : Ledger) (reject : bool) (a : Address) (amt : U256) : bool :=
  (amt <=? l_balance l a) && negb (reject && l_bare l a && (l_balance l a =? amt)).

Definition can_credit (l : Ledger) (b : Address) (amt : U256) : bool :=
  l_balance l b + amt <=? u256_max.

Definition allowed (l : Ledger) (o s : Address) (amt : U256) : bool :=
  (l_allowance l o s =? u256_max) || (amt <=? l_allowance l o s).

(** [transfer] *)
Definition transfer_enabled (l : Ledger) (reject : bool) (a b : Address) (amt : U256) : bool :=
  negb (a =? 0) && negb (b =? 0)
  && ((amt =? 0) || (a =? b) || (can_debit l reject a amt && can_credit l b amt)).

Definition transfer_effect (l : Ledger) (a b : Address) (amt : U256) : Ledger :=
  if (amt =? 0) || (a =? b) then l else emit (move l a b amt) [Transfer_ a b amt].

(** A call of a method. *)
Record Call := { c_caller : Address; c_sel : Erc20Selector; c_params : params c_sel }.

Section spec.
Context `{!EvmLib} (d : Eip712Domain) (reject : bool) (now : U256).

(** The authorization is signed by its account. *)
Definition signed_transfer (a : Authorization) : bool :=
  match verify_transfer_authorization (DbError := Empty_set) d a with
  | Ret signer => signer =? auth_from a
  | _ => false
  end.

Definition signed_cancel (authorizer : Address) (n : B256) (v : Z) (r s : U256) : bool :=
  match verify_cancel_authorization (DbError := Empty_set) d authorizer n v r s with
  | Ret signer => signer =? authorizer
  | _ => false
  end.

Definition authorization_enabled (l : Ledger) (a : Authorization) : bool :=
  (auth_valid_after a <=? now) && (now <? auth_valid_before a)
  && negb (l_used l (auth_from a) (auth_nonce a)) && signed_transfer a
  && transfer_enabled l reject (auth_from a) (auth_to a) (auth_value a).

(** When the precompile makes a call succeed. *)
Definition enabled (l : Ledger) (c : Call) : bool :=
  match c_sel c as sel return params sel -> bool with
  | Transfer => fun '(to, amt) => transfer_enabled l reject (c_caller c) to amt
  | Approve => fun '(s, _) => negb (c_caller c =? 0) && negb (s =? 0)
  | TransferFrom => fun '(from, to, amt) =>
      negb (from =? 0) && negb (to =? 0)
      && ((amt =? 0)
          || (allowed l from (c_caller c) amt
              && ((from =? to) || (can_debit l reject from amt && can_credit l to amt))))
  | Mint => fun '(to, amt) =>
      (c_caller c =? MINTING_MODULE_ADDRESS) && negb (to =? 0) && negb (amt =? 0)
      && (l_supply l + amt <=? u256_max) && can_credit l to amt
  | Burn => fun amt =>
      (c_caller c =? MINTING_MODULE_ADDRESS) && negb (amt =? 0)
      && can_debit l reject (c_caller c) amt && (amt <=? l_supply l)
  | BurnFrom => fun '(from, amt) =>
      (c_caller c =? MINTING_MODULE_ADDRESS) && negb (from =? 0) && negb (amt =? 0)
      && allowed l from (c_caller c) amt && can_debit l reject from amt && (amt <=? l_supply l)
  | TransferWithAuthorization => fun a => authorization_enabled l a
  | ReceiveWithAuthorization => fun a =>
      (c_caller c =? auth_to a) && authorization_enabled l a
  | CancelAuthorization => fun '(a, n, v, r, s) =>
      negb (l_used l a n) && signed_cancel a n v r s
  | _ => fun _ => true
  end (c_params c).

(** The ledger that the precompile leaves after a successful call. *)
Definition effect (l : Ledger) (c : Call) : Ledger :=
  match c_sel c as sel return params sel -> Ledger with
  | Transfer => fun '(to, amt) => transfer_effect l (c_caller c) to amt
  | Approve => fun '(s, amt) =>
      emit (set_l_allowance l (c_caller c) s amt) [Approval_ (c_caller c) s amt]
  | TransferFrom => fun '(from, to, amt) =>
      if amt =? 0 then l
      else if from =? to then emit (spend l from (c_caller c) amt) [Transfer_ from to amt]
      else emit (spend (move l from to amt) from (c_caller c) amt) [Transfer_ from to amt]
  | Mint => fun '(to, amt) =>
      emit (set_l_balance (set_l_supply l (l_supply l + amt)) to (l_balance l to + amt))
        [Mint_ to amt; Transfer_ 0 to amt]
  | Burn => fun amt =>
      emit (set_l_balance (set_l_supply l (l_supply l - amt)) (c_caller c)
              (l_balance l (c_caller c) - amt))
        [Burn_ (c_caller c) amt; Transfer_ (c_caller c) 0 amt]
  | BurnFrom => fun '(from, amt) =>
      emit (spend (set_l_balance (set_l_supply l (l_supply l - amt)) from (l_balance l from - amt))
              from (c_caller c) amt)
        [Burn_ from amt; Transfer_ from 0 amt]
  | TransferWithAuthorization | ReceiveWithAuthorization => fun a =>
      emit (transfer_effect (set_l_used l (auth_from a) (auth_nonce a))
              (auth_from a) (auth_to a) (auth_value a))
        [AuthorizationUsed_ (auth_from a) (auth_nonce a)]
  | CancelAuthorization => fun '(a, n, _, _, _) =>
      emit (set_l_used l a n) [AuthorizationCanceled_ a n]
  | _ => fun _ => l
  end (c_params c).

(** ** The token of the standards

    ERC-20 and EIP-3009 make no exception for a transfer of nothing or to
    oneself: it needs the balance and the allowance, and emits its event; and an
    authorization is good strictly after its first time. *)
Definition std_transfer_enabled (l : Ledger) (a b : Address) (amt : U256) : bool :=
  negb (a =? 0) && negb (b =? 0) && (amt <=? l_balance l a)
  && negb (reject && l_bare l a && (l_balance l a =? amt) && negb (amt =? 0) && negb (a =? b))
  && (l_balance (set_l_balance l a (l_balance l a - amt)) b + amt <=? u256_max).

Definition std_move (l : Ledger) (a b : Address) (amt : U256) : Ledger :=
  let l1 := set_l_balance l a (l_balance l a - amt) in set_l_balance l1 b (l_balance l1 b + amt).

Definition std_enabled (l : Ledger) (c : Call) : bool :=
  match c_sel c as sel return params sel -> bool with
  | Transfer => fun '(to, amt) => std_transfer_enabled l (c_caller c) to amt
  | TransferFrom => fun '(from, to, amt) =>
      allowed l from (c_caller c) amt && std_transfer_enabled l from to amt
  | TransferWithAuthorization => fun a =>
      (auth_valid_after a <? now) && (now <? auth_valid_before a)
      && negb (l_used l (auth_from a) (auth_nonce a)) && signed_transfer a
      && std_transfer_enabled l (auth_from a) (auth_to a) (auth_value a)
  | _ => fun _ => enabled l c
  end (c_params c).

Definition std_effect (l : Ledger) (c : Call) : Ledger :=
  match c_sel c as sel return params sel -> Ledger with
  | Transfer => fun '(to, amt) => emit (std_move l (c_caller c) to amt) [Transfer_ (c_caller c) to amt]
  | TransferFrom => fun '(from, to, amt) =>
      emit (spend (std_move l from to amt) from (c_caller c) amt) [Transfer_ from to amt]
  | TransferWithAuthorization => fun a =>
      emit (std_move (set_l_used l (auth_from a) (auth_nonce a)) (auth_from a) (auth_to a) (auth_value a))
        [Transfer_ (auth_from a) (auth_to a) (auth_value a); AuthorizationUsed_ (auth_from a) (auth_nonce a)]
  | _ => fun _ => effect l c
  end (c_params c).

(** The calls on which the precompile is a token of the standards. Not among
    them are transfers of nothing and to oneself, authorizations at their first
    time, and [receiveWithAuthorization], which accepts the signature of a
    transfer authorization. *)
Definition standard (c : Call) : bool :=
  match c_sel c as sel return params sel -> bool with
  | Transfer => fun '(to, amt) => negb (amt =? 0) && negb (c_caller c =? to)
  | TransferFrom => fun '(from, to, amt) => negb (amt =? 0) && negb (from =? to)
  | TransferWithAuthorization => fun a =>
      negb (auth_value a =? 0) && negb (auth_from a =? auth_to a) && negb (auth_valid_after a =? now)
  | ReceiveWithAuthorization => fun _ => false
  | _ => fun _ => true
  end (c_params c).

(** What a call returns. *)
Definition answer (p : Erc20Precompile) (l : Ledger) (c : Call) : Bytes :=
  match c_sel c as sel return params sel -> Bytes with
  | Name => fun _ => encode_string (name p)
  | Symbol => fun _ => encode_string (symbol p)
  | Decimals => fun _ => encode_uint8 (decimals p)
  | TotalSupply => fun _ => encode_uint256 (l_supply l)
  | BalanceOf => fun a => encode_uint256 (l_balance l a)
  | Allowance => fun '(o, s) => encode_uint256 (l_allowance l o s)
  | _ => fun _ => encode_bool true
  end (c_params c).

Lemma std_transfer_same l a b amt :
  amt <> 0 -> a <> b ->
  transfer_enabled l reject a b amt = std_transfer_enabled l a b amt /\
  transfer_effect l a b amt = emit (std_move l a b amt) [Transfer_ a b amt] /\ move l a b amt = std_move l a b amt.
Proof.
  intros Hz Hab. unfold transfer_enabled, std_transfer_enabled, transfer_effect, can_debit, can_credit.
  assert (Hm : move l a b amt = std_move l a b amt).
  { unfold std_move, move. cbn [l_balance set_l_balance]. unfold upd. by rewrite (proj2 (Z.eqb_neq b a)) by congruence. }
  rewrite (proj2 (Z.eqb_neq amt 0)), (proj2 (Z.eqb_neq a b)), Hm by done. split_and!; [|done..].
  cbn. unfold upd. rewrite (proj2 (Z.eqb_neq b a)) by congruence. by rewrite !andb_true_r, !andb_assoc.
Qed.

(** On a standard call the precompile does what the standards say. *)
Lemma std_same l c : standard c = true -> enabled l c = std_enabled l c /\ effect l c = std_effect l c.
Proof.
  destruct c as [caller [] x]; unfold standard, enabled, std_enabled, effect, std_effect; cbn; try done.
  - destruct x as [to amt]. intros [Hz%negb_true_iff%Z.eqb_neq Ht%negb_true_iff%Z.eqb_neq]%andb_prop.
    by destruct (std_transfer_same l caller to amt Hz Ht) as (-> & -> & _).
  - destruct x as [[from to] amt]. intros [Hz%negb_true_iff%Z.eqb_neq Ht%negb_true_iff%Z.eqb_neq]%andb_prop.
    destruct (std_transfer_same l from to amt Hz Ht) as (He & _ & <-). rewrite <- He. unfold transfer_enabled.
    rewrite (proj2 (Z.eqb_neq amt 0)), (proj2 (Z.eqb_neq from to)) by done. cbn. split; [|done].
    destruct (negb (from =? 0)), (negb (to =? 0)), (allowed l from caller amt); done.
  - intros [[Hz%negb_true_iff%Z.eqb_neq Ht%negb_true_iff%Z.eqb_neq]%andb_prop Hn%negb_true_iff%Z.eqb_neq]%andb_prop.
    unfold authorization_enabled.
    destruct (std_transfer_same l (auth_from x) (auth_to x) (auth_value x) Hz Ht) as (-> & _).
    destruct (std_transfer_same (set_l_used l (auth_from x) (auth_nonce x)) (auth_from x) (auth_to x) (auth_value x)
      Hz Ht) as (_ & -> & _).
    assert ((auth_valid_after x <=? now) = (auth_valid_after x <? now)) as -> by lia. split; [done|].
    unfold emit. cbn. by rewrite <- app_assoc.
Qed.

End spec.

(** The fixed gas of a method. *)
Definition method_gas (sel : Erc20Selector) : Z :=
  match sel with
  | Name | Symbol | Decimals => 100
  | TotalSupply | Allowance => 2100
  | BalanceOf => 400
  | Transfer => 9000
  | Approve => 5000
  | TransferFrom => 12000
  | Mint | Burn | BurnFrom => 10000
  | TransferWithAuthorization | ReceiveWithAuthorization => 35000
  | CancelAuthorization => 25000
  end.

(** ** The storage layout *)

(** The strings that are hashed for the accounts [P] and nonces [Q]. *)
Inductive preimage `{!EvmLib} (P : Address -> Prop) (Q : B256 -> Prop) : Bytes -> Prop :=
  | pre_supply : preimage P Q TOTAL_SUPPLY_PREFIX
  | pre_owner a : P a ->
      preimage P Q (repeat 0 12 ++ to_be_bytes 20 a ++ to_be_bytes 32 ALLOWANCES_BASE_SLOT)
  | pre_authorizer a : P a ->
      preimage P Q (repeat 0 12 ++ to_be_bytes 20 a ++ to_be_bytes 32 AUTHORIZATION_NONCES_BASE_SLOT)
  | pre_spender o s : P o -> P s ->
      preimage P Q (repeat 0 12 ++ to_be_bytes 20 s
                    ++ to_be_bytes 32 (mapping_slot_address o ALLOWANCES_BASE_SLOT))
  | pre_nonce a n : P a -> Q n ->
      preimage P Q (to_be_bytes 32 n
                    ++ to_be_bytes 32 (mapping_slot_address a AUTHORIZATION_NONCES_BASE_SLOT)).

(** Keccak does not collide on the strings in use. *)
Record keccak_ok `{!EvmLib} (P : Address -> Prop) (Q : B256 -> Prop) : Prop := {
  ko_range : forall x, 0 <= keccak256 x <= u256_max;
  ko_injective : forall x y, preimage P Q x -> preimage P Q y -> keccak256 x = keccak256 y -> x = y;
  ko_addresses : forall a, P a -> 0 <= a <= address_max;
  ko_nonces : forall n, Q n -> 0 <= n <= u256_max
}.

Lemma be32_inj v w :
  0 <= v <= u256_max -> 0 <= w <= u256_max -> to_be_bytes 32 v = to_be_bytes 32 w -> v = w.
Proof. intros Hv Hw. apply to_be_bytes_inj; change (256 ^ Z.of_nat 32) with (u256_max + 1); lia. Qed.

Lemma be20_inj v w :
  0 <= v <= address_max -> 0 <= w <= address_max -> to_be_bytes 20 v = to_be_bytes 20 w -> v = w.
Proof. intros Hv Hw. apply to_be_bytes_inj; change (256 ^ Z.of_nat 20) with (address_max + 1); lia. Qed.

#[local] Strategy opaque [to_be_bytes].

Section layout.
Context `{!EvmLib} (P : Address -> Prop) (Q : B256 -> Prop) (Hk : keccak_ok P Q).

Lemma padded_inj a b u v :
  repeat 0 12 ++ to_be_bytes 20 a ++ to_be_bytes 32 u = repeat 0 12 ++ to_be_bytes 20 b ++ to_be_bytes 32 v ->
  to_be_bytes 20 a = to_be_bytes 20 b /\ to_be_bytes 32 u = to_be_bytes 32 v.
Proof.
  intros Heq. apply app_inj_1 in Heq as [_ Heq]; [|done].
  apply app_inj_1 in Heq; [done|by rewrite !length_to_be_bytes].
Qed.

Lemma mapping_slot_inj a b base :
  base = ALLOWANCES_BASE_SLOT \/ base = AUTHORIZATION_NONCES_BASE_SLOT ->
  P a -> P b -> mapping_slot_address a base = mapping_slot_address b base -> a = b.
Proof using Hk.
  intros Hbase Ha Hb Heq. apply (ko_injective _ _ Hk) in Heq;
    [|destruct Hbase as [->| ->]; [by apply pre_owner|by apply pre_authorizer]..].
  apply padded_inj in Heq as [Heq _]. apply be20_inj in Heq; [done|by apply Hk..].
Qed.

Lemma mapping_slot_disjoint a b :
  P a -> P b ->
  mapping_slot_address a ALLOWANCES_BASE_SLOT <> mapping_slot_address b AUTHORIZATION_NONCES_BASE_SLOT.
Proof using Hk.
  intros Ha Hb Heq.
  apply (ko_injective _ _ Hk) in Heq; [|by apply pre_owner|by apply pre_authorizer].
  by apply padded_inj in Heq as [_ Heq].
Qed.

Lemma allowance_slot_inj o s o' s' :
  P o -> P s -> P o' -> P s' -> allowance_slot o s = allowance_slot o' s' -> o = o' /\ s = s'.
Proof using Hk.
  intros Ho Hs Ho' Hs' Heq. apply (ko_injective _ _ Hk) in Heq; [|by apply pre_spender..].
  apply padded_inj in Heq as [Hs1 Ho1]. apply be20_inj in Hs1; [|by apply Hk..].
  apply be32_inj in Ho1; [|apply (ko_range _ _ Hk)..]. apply mapping_slot_inj in Ho1; auto.
Qed.

Lemma nonce_slot_inj a n a' n' :
  P a -> Q n -> P a' -> Q n' ->
  authorization_nonce_slot a n = authorization_nonce_slot a' n' -> a = a' /\ n = n'.
Proof using Hk.
  intros Ha Hn Ha' Hn' Heq. apply (ko_injective _ _ Hk) in Heq; [|by apply pre_nonce..].
  apply app_inj_1 in Heq as [H1 H2]; [|by rewrite !length_to_be_bytes].
  apply be32_inj in H1; [|by apply Hk..]. apply be32_inj in H2; [|apply (ko_range _ _ Hk)..].
  apply mapping_slot_inj in H2; auto.
Qed.

Lemma allowance_nonce_disjoint o s a n :
  P o -> P s -> P a -> Q n -> allowance_slot o s <> authorization_nonce_slot a n.
Proof using Hk.
  intros Ho Hs Ha Hn Heq.
  apply (ko_injective _ _ Hk) in Heq; [|by apply pre_spender|by apply pre_nonce].
  rewrite app_assoc in Heq.
  apply app_inj_2 in Heq as [_ Heq]; [|by rewrite !length_to_be_bytes].
  apply be32_inj in Heq; [|apply (ko_range _ _ Hk)..]. by apply mapping_slot_disjoint in Heq.
Qed.

Lemma supply_slot_disjoint :
  (forall o s, P o -> P s -> total_supply_slot <> allowance_slot o s) /\
  (forall a n, P a -> Q n -> total_supply_slot <> authorization_nonce_slot a n).
Proof using Hk.
  split; intros x y Hx Hy Heq;
    apply (ko_injective _ _ Hk) in Heq; [|apply pre_supply|by apply pre_spender
                                        | |apply pre_supply|by apply pre_nonce];
    apply (f_equal length) in Heq; rewrite ?length_app, ?length_to_be_bytes in Heq;
    vm_compute in Heq; discriminate.
Qed.

End layout.

(** ** The handlers on the world *)

(** A failure of the database. *)
Definition db_error {DbError} (e : ERC20Error DbError) : Prop :=
  exists r x, e = ERC20Other (ReadError r x) \/ e = ERC20Other (WriteError r x).

(** The ledger of a world. *)
Definition ledger `{!EvmLib} (p : Erc20Precompile) (w : World) : Ledger :=
  {| l_balance := fun a => balance (account w a);
     l_allowance := fun o s => slot w (contract_address p) (allowance_slot o s);
     l_used := fun a n => negb (slot w (contract_address p) (authorization_nonce_slot a n) =? 0);
     l_supply := slot w (contract_address p) total_supply_slot;
     l_bare := fun a => (nonce (account w a) =? 0)
       && ((code_hash (account w a) =? KECCAK_EMPTY) || (code_hash (account w a) =? 0));
     l_events := log_event <$> w_logs w |}.

(** Ledgers that agree on the accounts [P] and nonces [Q]. *)
Record ledger_equiv (P : Address -> Prop) (Q : B256 -> Prop) (l l' : Ledger) : Prop := {
  le_balance : forall a, l_balance l a = l_balance l' a;
  le_allowance : forall o s, P o -> P s -> l_allowance l o s = l_allowance l' o s;
  le_used : forall a n, P a -> Q n -> l_used l a n = l_used l' a n;
  le_supply : l_supply l = l_supply l';
  le_bare : forall a, l_bare l a = l_bare l' a;
  le_events : l_events l = l_events l'
}.

(** Balances, allowances and the supply are 256-bit numbers. *)
Record world_wf `{!EvmLib} (w : World) : Prop := {
  wf_balance : forall a, 0 <= balance (account w a) <= u256_max;
  wf_slot : forall c k, 0 <= slot w c k <= u256_max
}.

Section wwp.
Context `{!EvmLib} {S : Type} `{!StateAccessAdapter S} {sok : StateAccessOk S}.
Context (p : Erc20Precompile).
Abbreviation M := (ST S (ERC20Error (DbError S))).

(** A handler run in any journal that shows the world [w]. *)
Definition wwp {A} (m : M A) (w : World) (Q : A -> World -> Prop)
    (R : ERC20Error (DbError S) -> Prop) : Prop :=
  forall s, world s = w -> swp m s (fun a s' => Q a (world s')) (fun e _ => R e).

Implicit Types R : ERC20Error (DbError S) -> Prop.

Lemma wwp_bind {A B} (m : M A) (f : A -> M B) w Q R :
  wwp m w (fun a w' => wwp (f a) w' Q R) R -> wwp (m ≫= f) w Q R.
Proof.
  intros Hm s Hs. apply swp_bind. eapply swp_mono; [by apply Hm| |done].
  intros a s' Hf. by apply Hf.
Qed.

Lemma wwp_mono {A} (m : M A) w (Q Q' : A -> World -> Prop) R R' :
  wwp m w Q R -> (forall a w', Q a w' -> Q' a w') -> (forall e, R e -> R' e) -> wwp m w Q' R'.
Proof. intros Hm HQ HR s Hs. eapply swp_mono; [by apply Hm|auto|auto]. Qed.

Lemma wwp_ret {A} (a : A) w (Q : A -> World -> Prop) R : Q a w -> wwp (mret a) w Q R.
Proof. intros HQ s <-. done. Qed.

Lemma wwp_output gas b w (Q : PrecompileOutput -> World -> Prop) R :
  Q {| gas_used := gas; bytes := b |} w -> wwp (output gas b) w Q R.
Proof. apply wwp_ret. Qed.

Lemma wwp_ensure (b : bool) e w (Q : unit -> World -> Prop) R :
  (b = true -> Q tt w) -> (b = false -> R e) -> wwp (st_ensure b e) w Q R.
Proof. intros HQ HR s <-. by apply swp_ensure. Qed.

Lemma wwp_ok_or {A} (o : option A) e w (Q : A -> World -> Prop) R :
  (forall a, o = Some a -> Q a w) -> (o = None -> R e) -> wwp (st_ok_or o e) w Q R.
Proof. intros HQ HR s <-. by apply swp_ok_or. Qed.

Lemma wwp_lift {A} (r : Exec (ERC20Error (DbError S)) A) w (Q : A -> World -> Prop) R :
  wp r (fun a => Q a w) R -> wwp (lift r) w Q R.
Proof. intros Hr s <-. unfold swp, lift. by destruct r. Qed.

Lemma wwp_timestamp w (Q : U256 -> World -> Prop) R :
  Q (w_timestamp w) w -> wwp (gets get_block_timestamp) w Q R.
Proof. intros HQ s <-. apply swp_gets. by rewrite timestamp_ok. Qed.

Lemma wwp_touch a w (Q : unit -> World -> Prop) R : Q tt (put_touched w a) -> wwp (touch a) w Q R.
Proof. intros HQ s <-. apply swp_modify. by rewrite touch_ok. Qed.

Lemma wwp_log e w (Q : unit -> World -> Prop) R :
  Q tt (put_log w {| log_address := contract_address p; log_event := e |}) -> wwp (log p e) w Q R.
Proof. intros HQ s <-. apply swp_modify. by rewrite log_ok. Qed.

Lemma wwp_load r a w (Q : AccountInfo -> World -> Prop) R :
  (forall e, db_error e -> R e) -> Q (account w a) w ->
  wwp (st_map_err (read_error r) (perform_load_account a)) w Q R.
Proof.
  intros HR HQ s <-. apply swp_map_err. eapply swp_mono; [apply load_account_ok| |].
  - by intros i s' [-> ->].
  - intros e s' _. apply HR. unfold db_error, read_error. eauto.
Qed.

Lemma wwp_get_balance a w (Q : U256 -> World -> Prop) R :
  (forall e, db_error e -> R e) -> Q (balance (account w a)) w -> wwp (get_balance a) w Q R.
Proof.
  intros HR HQ s <-. apply swp_map_err, swp_bind. eapply swp_mono; [apply load_account_ok| |].
  - intros i s' [-> Hw]. apply swp_ret. by rewrite Hw.
  - intros e s' _. apply HR. unfold db_error, read_error. eauto.
Qed.

Lemma wwp_set_balance a b w (Q : unit -> World -> Prop) R :
  (forall e, db_error e -> R e) -> Q tt (put_balance w a b) -> wwp (set_balance a b) w Q R.
Proof.
  intros HR HQ s <-. apply swp_map_err. eapply swp_mono; [apply set_balance_ok| |].
  - by intros [] s' ->.
  - intros e s' _. apply HR. unfold db_error, write_error. eauto.
Qed.

Lemma wwp_sload r k w (Q : U256 -> World -> Prop) R :
  (forall e, db_error e -> R e) -> Q (slot w (contract_address p) k) w ->
  wwp (st_map_err (read_error r) (perform_sload (contract_address p) k)) w Q R.
Proof.
  intros HR HQ s <-. apply swp_map_err. eapply swp_mono; [apply sload_ok| |].
  - by intros v s' [-> ->].
  - intros e s' _. apply HR. unfold db_error, read_error. eauto.
Qed.

Lemma wwp_sstore r k v w (Q : unit -> World -> Prop) R :
  (forall e, db_error e -> R e) -> Q tt (put_slot w (contract_address p) k v) ->
  wwp (st_map_err (write_error r) (perform_sstore (contract_address p) k v)) w Q R.
Proof.
  intros HR HQ s <-. apply swp_map_err. eapply swp_mono; [apply sstore_ok| |].
  - by intros [] s' ->.
  - intros e s' _. apply HR. unfold db_error, write_error. eauto.
Qed.

End wwp.

(** ** Reading an updated world *)

Section reads.
Context `{!EvmLib}.

Lemma account_put_balance w a b k :
  account (put_balance w a b) k =
  if k =? a then {| balance := b; nonce := nonce (account w a); code_hash := code_hash (account w a) |}
  else account w k.
Proof.
  unfold account at 1. simpl. destruct (Z.eqb_spec k a) as [->|Hn]; [by rewrite lookup_insert_eq|].
  by rewrite lookup_insert_ne.
Qed.

Lemma slot_put_slot w c k v k' : slot (put_slot w c k v) c k' = if k' =? k then v else slot w c k'.
Proof.
  unfold slot. simpl. destruct (Z.eqb_spec k' k) as [->|Hn]; [by rewrite lookup_insert_eq|].
  rewrite lookup_insert_ne; [done|congruence].
Qed.

End reads.

(** ** From worlds to ledgers *)

#[export] Instance ledger_equiv_equivalence P Q : Equivalence (ledger_equiv P Q).
Proof.
  split.
  - by intros l; split.
  - intros l l' []; split; intros; symmetry; auto.
  - intros l1 l2 l3 [Hb Ha Hu Hs Hr He] [Hb' Ha' Hu' Hs' Hr' He']. split; intros.
    + by rewrite Hb.
    + by rewrite Ha, Ha'.
    + by rewrite Hu, Hu'.
    + by rewrite Hs.
    + by rewrite Hr.
    + by rewrite He.
Qed.

#[export] Instance emit_proper P Q : Proper (ledger_equiv P Q ==> eq ==> ledger_equiv P Q) emit.
Proof. intros l l' [] es ? <-. split; simpl; try done. by f_equal. Qed.

#[export] Instance set_l_balance_proper P Q :
  Proper (ledger_equiv P Q ==> eq ==> eq ==> ledger_equiv P Q) set_l_balance.
Proof.
  intros l l' [] a ? <- b ? <-. split; simpl; try done. intros a'. unfold upd. by destruct (_ =? _).
Qed.

#[export] Instance set_l_supply_proper P Q :
  Proper (ledger_equiv P Q ==> eq ==> ledger_equiv P Q) set_l_supply.
Proof. intros l l' [] v ? <-. by split. Qed.

Lemma upd2_equiv {A} (P Q : Z -> Prop) (f g : Z -> Z -> A) o s v :
  (forall x y, P x -> Q y -> f x y = g x y) ->
  forall x y, P x -> Q y -> upd f o (upd (f o) s v) x y = upd g o (upd (g o) s v) x y.
Proof.
  intros Hfg x y Hx Hy. unfold upd. destruct (Z.eqb_spec x o) as [->|]; [|by apply Hfg].
  destruct (y =? s); [done|by apply Hfg].
Qed.

#[export] Instance set_l_allowance_proper P Q :
  Proper (ledger_equiv P Q ==> eq ==> eq ==> eq ==> ledger_equiv P Q) set_l_allowance.
Proof.
  intros l l' [] o ? <- s ? <- v ? <-. split; simpl; try done. by apply upd2_equiv.
Qed.

#[export] Instance set_l_used_proper P Q :
  Proper (ledger_equiv P Q ==> eq ==> eq ==> ledger_equiv P Q) set_l_used.
Proof.
  intros l l' [] o ? <- s ? <-. split; simpl; try done. by apply upd2_equiv.
Qed.

#[export] Instance l_balance_proper P Q : Proper (ledger_equiv P Q ==> eq ==> eq) l_balance.
Proof. intros l l' Hl a ? <-. apply Hl. Qed.

#[export] Instance transfer_effect_proper P Q :
  Proper (ledger_equiv P Q ==> eq ==> eq ==> eq ==> ledger_equiv P Q) transfer_effect.
Proof.
  intros l l' Hl a ? <- b ? <- v ? <-. unfold transfer_effect, move. destruct (_ || _); [done|].
  by rewrite Hl.
Qed.

(** The world after moving a balance. *)
Definition put_move `{!EvmLib} (w : World) (a b : Address) (amt : U256) : World :=
  put_touched (put_balance (put_touched (put_balance w a (balance (account w a) - amt)) a) b
    (balance (account w b) + amt)) b.

Section ledger.
Context `{!EvmLib} (p : Erc20Precompile).
Context (P : Address -> Prop) (Q : B256 -> Prop) (Hk : keccak_ok P Q).
Implicit Types w : World.

Lemma ledger_put_touched w a : ledger p (put_touched w a) = ledger p w.
Proof. done. Qed.

Lemma ledger_put_log w c e :
  ledger_equiv P Q (ledger p (put_log w {| log_address := c; log_event := e |}))
    (emit (ledger p w) [e]).
Proof. split; simpl; try done. by rewrite fmap_app. Qed.

Lemma ledger_put_balance w a b :
  ledger_equiv P Q (ledger p (put_balance w a b)) (set_l_balance (ledger p w) a b).
Proof.
  split; simpl; try done; intros k.
  - rewrite account_put_balance. unfold upd. by destruct (k =? a).
  - rewrite account_put_balance. by destruct (Z.eqb_spec k a) as [->|].
Qed.

Lemma ledger_put_move w a b amt :
  ledger_equiv P Q (ledger p (put_move w a b amt)) (move (ledger p w) a b amt).
Proof.
  unfold put_move, move.
  rewrite ledger_put_touched, ledger_put_balance, ledger_put_touched, ledger_put_balance. done.
Qed.

Lemma ledger_put_allowance w o s v :
  P o -> P s ->
  ledger_equiv P Q (ledger p (put_slot w (contract_address p) (allowance_slot o s) v))
    (set_l_allowance (ledger p w) o s v).
Proof using Hk.
  intros Ho Hs. split; simpl; try done; intros; rewrite slot_put_slot; unfold upd.
  - destruct (Z.eqb_spec (allowance_slot o0 s0) (allowance_slot o s)) as [Heq|Hne].
    + apply (allowance_slot_inj P Q Hk) in Heq as [-> ->]; [|done..]. by rewrite !Z.eqb_refl.
    + destruct (Z.eqb_spec o0 o) as [->|]; [|done]. destruct (Z.eqb_spec s0 s) as [->|]; [|done].
      by destruct Hne.
  - destruct (Z.eqb_spec (authorization_nonce_slot a n) (allowance_slot o s)) as [Heq|]; [|done].
    symmetry in Heq. by apply (allowance_nonce_disjoint P Q Hk) in Heq.
  - destruct (Z.eqb_spec total_supply_slot (allowance_slot o s)) as [Heq|]; [|done].
    by apply (proj1 (supply_slot_disjoint P Q Hk)) in Heq.
Qed.

Lemma ledger_put_used w a n :
  P a -> Q n ->
  ledger_equiv P Q (ledger p (put_slot w (contract_address p) (authorization_nonce_slot a n) 1))
    (set_l_used (ledger p w) a n).
Proof using Hk.
  intros Ha Hn. split; simpl; try done; intros; rewrite slot_put_slot; unfold upd.
  - destruct (Z.eqb_spec (allowance_slot o s) (authorization_nonce_slot a n)) as [Heq|]; [|done].
    by apply (allowance_nonce_disjoint P Q Hk) in Heq.
  - destruct (Z.eqb_spec (authorization_nonce_slot a0 n0) (authorization_nonce_slot a n)) as [Heq|Hne].
    + apply (nonce_slot_inj P Q Hk) in Heq as [-> ->]; [|done..]. by rewrite !Z.eqb_refl.
    + destruct (Z.eqb_spec a0 a) as [->|]; [|done]. destruct (Z.eqb_spec n0 n) as [->|]; [|done].
      by destruct Hne.
  - destruct (Z.eqb_spec total_supply_slot (authorization_nonce_slot a n)) as [Heq|]; [|done].
    by apply (proj2 (supply_slot_disjoint P Q Hk)) in Heq.
Qed.

Lemma ledger_put_supply w v :
  ledger_equiv P Q (ledger p (put_slot w (contract_address p) total_supply_slot v))
    (set_l_supply (ledger p w) v).
Proof using Hk.
  destruct (supply_slot_disjoint P Q Hk) as [Hd1 Hd2].
  split; simpl; try done; intros; rewrite slot_put_slot.
  - destruct (Z.eqb_spec (allowance_slot o s) total_supply_slot) as [Heq|]; [|done].
    by apply eq_sym, Hd1 in Heq.
  - destruct (Z.eqb_spec (authorization_nonce_slot a n) total_supply_slot) as [Heq|]; [|done].
    by apply eq_sym, Hd2 in Heq.
  - by rewrite Z.eqb_refl.
Qed.

End ledger.

(** ** The handlers refine the token *)

(** The accounts and the nonce of a call are among [P] and [Q], and amounts are
    256-bit numbers. *)
Definition call_ok (P : Address -> Prop) (Q : B256 -> Prop) (c : Call) : Prop :=
  P (c_caller c) /\
  match c_sel c as sel return params sel -> Prop with
  | BalanceOf => fun a => P a
  | Allowance => fun '(o, s) => P o /\ P s
  | Transfer | Approve | Mint | BurnFrom => fun '(a, amt) => P a /\ 0 <= amt <= u256_max
  | TransferFrom => fun '(a, b, amt) => P a /\ P b /\ 0 <= amt <= u256_max
  | Burn => fun amt => 0 <= amt <= u256_max
  | TransferWithAuthorization | ReceiveWithAuthorization => fun a =>
      P (auth_from a) /\ P (auth_to a) /\ Q (auth_nonce a) /\ 0 <= auth_value a <= u256_max
  | CancelAuthorization => fun '(a, n, _, _, _) => P a /\ Q n
  | _ => fun _ => True
  end (c_params c).

Section refine.
Context `{!EvmLib} {S : Type} `{!StateAccessAdapter S} {sok : StateAccessOk S}.
Context (p : Erc20Precompile) (P : Address -> Prop) (Q : B256 -> Prop) (Hk : keccak_ok P Q).

Implicit Types (w : World) (K : unit -> World -> Prop) (R : ERC20Error (DbError S) -> Prop).

Lemma wwp_check_not_left_empty a nb w K R :
  (forall e, db_error e -> R e) ->
  (nb = 0 -> l_bare (ledger p w) a = true -> R (TransferWouldEmptyAccount a)) ->
  ((nb =? 0) && l_bare (ledger p w) a = false -> K tt w) ->
  wwp (check_not_left_empty (S := S) a nb) w K R.
Proof.
  intros HR HE HK. unfold check_not_left_empty. destruct (Z.eqb_spec nb 0) as [->|Hn]; simpl.
  - apply wwp_bind, wwp_load; [done|]. apply wwp_ensure.
    + intros Hb. apply HK. apply negb_true_iff in Hb. unfold is_empty in Hb. by rewrite Z.eqb_refl in Hb.
    + intros Hb. apply HE; [done|]. apply negb_false_iff in Hb. unfold is_empty in Hb.
      by rewrite Z.eqb_refl in Hb.
  - apply wwp_ret, HK. by destruct (Z.eqb_spec nb 0).
Qed.

(** The debit of [amt] with the optional guard. *)
Lemma wwp_debit {A} reject a amt w (k : U256 -> ST S (ERC20Error (DbError S)) A) m (K' : A -> World -> Prop) R :
  (forall e, db_error e -> R e) ->
  (can_debit (ledger p w) reject a amt = false -> forall e, R e) ->
  (can_debit (ledger p w) reject a amt = true -> wwp (k (balance (account w a) - amt)) w K' R) ->
  wwp (bal ← get_balance a; _ ← check_balance a bal amt;
       new_balance ← st_ok_or (checked_sub bal amt) (overflow_error RBalance m);
       _ ← (if reject then check_not_left_empty a new_balance else mret tt); k new_balance) w K' R.
Proof.
  intros HR HE HK. unfold can_debit in *. simpl in HE, HK.
  apply wwp_bind, wwp_get_balance; [done|]. apply wwp_bind, wwp_ensure.
  2: { intros Hb. apply HE. apply negb_false_iff, Z.ltb_lt in Hb.
       by rewrite (proj2 (Z.leb_gt _ _) Hb). }
  intros Hb. apply negb_true_iff, Z.ltb_ge in Hb.
  apply wwp_bind, wwp_ok_or; unfold checked_sub; rewrite (proj2 (Z.leb_le _ _) Hb) in *; [|done].
  intros nb [= <-]. simpl in HE, HK. apply wwp_bind. destruct reject; simpl in HE, HK.
  - assert ((balance (account w a) - amt =? 0) = (balance (account w a) =? amt)) as Heq.
    { destruct (Z.eqb_spec (balance (account w a)) amt); [apply Z.eqb_eq|apply Z.eqb_neq]; lia. }
    apply wwp_check_not_left_empty; [done| |].
    + intros H0 Hbare. apply HE. simpl in Hbare. rewrite Hbare, <- Heq, H0. done.
    + rewrite Heq, andb_comm. simpl. intros Hf. apply HK. by rewrite Hf.
  - apply wwp_ret. by apply HK.
Qed.

Lemma wwp_transfer_balance reject a b amt w K R :
  a <> b -> (forall e, db_error e -> R e) ->
  (can_debit (ledger p w) reject a amt && can_credit (ledger p w) b amt = false -> forall e, R e) ->
  (can_debit (ledger p w) reject a amt && can_credit (ledger p w) b amt = true ->
     K tt (put_move w a b amt)) ->
  wwp (transfer_balance (S := S) a b amt reject) w K R.
Proof.
  intros Hab HR HE HK. unfold transfer_balance.
  apply (wwp_debit reject a amt w (fun new_balance =>
    _ ← set_balance a new_balance; _ ← touch a; bal2 ← get_balance b;
    new_balance2 ← st_ok_or (checked_add u256_max bal2 amt) (overflow_error RBalance MTransfer);
    _ ← set_balance b new_balance2; touch b)); [done| |].
  { intros Hf. apply HE. by rewrite Hf. }
  intros Hd. rewrite Hd in HE, HK. simpl in HE, HK.
  apply wwp_bind, wwp_set_balance; [done|]. apply wwp_bind, wwp_touch.
  apply wwp_bind, wwp_get_balance; [done|].
  assert (account (put_touched (put_balance w a (balance (account w a) - amt)) a) b = account w b) as Hb.
  { change (account (put_balance w a (balance (account w a) - amt)) b = account w b).
    rewrite account_put_balance. by rewrite (proj2 (Z.eqb_neq b a)) by done. }
  rewrite Hb. unfold can_credit in *. simpl in HE, HK.
  apply wwp_bind, wwp_ok_or; unfold checked_add.
  - destruct (_ <=? u256_max); [|done]. intros v [= <-].
    apply wwp_bind, wwp_set_balance; [done|]. apply wwp_touch. by apply HK.
  - destruct (_ <=? u256_max); [done|]. intros _. by apply HE.
Qed.

Lemma wwp_decrease_allowance m o s amt w K R :
  (forall e, db_error e -> R e) ->
  allowed (ledger p w) o s amt = true ->
  (forall w', (P o -> P s -> ledger_equiv P Q (ledger p w') (spend (ledger p w) o s amt)) -> K tt w') ->
  wwp (decrease_allowance p m o s (slot w (contract_address p) (allowance_slot o s)) amt
         (slot w (contract_address p) (allowance_slot o s) =? u256_max)) w K R.
Proof using Hk.
  intros HR Hal HK. unfold decrease_allowance, allowed, spend in *. simpl in Hal, HK.
  destruct (_ =? u256_max); simpl in *; [by apply wwp_ret, HK|].
  apply wwp_bind, wwp_ok_or; unfold checked_sub; rewrite Hal; [|done]. intros v [= <-].
  apply wwp_bind. unfold set_allowance. apply wwp_sstore; [done|]. apply wwp_touch, HK.
  intros Ho Hs. rewrite ledger_put_touched. by apply ledger_put_allowance.
Qed.

(** [handle_transfer] *)
Lemma wwp_handle_transfer reject a b amt w (K' : PrecompileOutput -> World -> Prop) R :
  (forall e, db_error e -> R e) ->
  (transfer_enabled (ledger p w) reject a b amt = false -> forall e, R e) ->
  (transfer_enabled (ledger p w) reject a b amt = true ->
   forall w', ledger_equiv P Q (ledger p w') (transfer_effect (ledger p w) a b amt) ->
   K' {| gas_used := GAS_TRANSFER; bytes := encode_bool true |} w') ->
  wwp (handle_transfer (S := S) p a b amt reject) w K' R.
Proof.
  intros HR HE HK. unfold transfer_enabled in *.
  assert (forall w', ledger_equiv P Q (ledger p w') (transfer_effect (ledger p w) a b amt) ->
    _ -> K' {| gas_used := GAS_TRANSFER; bytes := encode_bool true |} w') as HK'
    by (intros w' Hw' Hen; exact (HK Hen w' Hw')). clear HK. rename HK' into HK.
  unfold handle_transfer, transfer_effect in *.
  apply wwp_bind, wwp_ensure; intros Ha; rewrite Ha in *; [|by apply HE].
  apply wwp_bind, wwp_ensure; intros Hb; rewrite Hb in *; [|by apply HE]. simpl in HE, HK.
  destruct (amt =? 0); simpl in HE, HK; [by apply wwp_output, HK|].
  destruct (Z.eqb_spec a b) as [->|Hab]; simpl in HE, HK; [by apply wwp_output, HK|].
  apply wwp_bind, wwp_transfer_balance; [done|done|done|]. intros Hok.
  apply wwp_bind, wwp_log, wwp_output, HK; [|done].
  by rewrite ledger_put_log, ledger_put_move.
Qed.

(** What the result of a call must be. *)
Abbreviation post w reject c :=
  (fun out w' =>
     enabled (domain p) reject (w_timestamp w) (ledger p w) c = true /\
     ledger_equiv P Q (ledger p w') (effect (ledger p w) c) /\
     out = {| gas_used := method_gas (c_sel c); bytes := answer p (ledger p w) c |})
  (only parsing).

Abbreviation fault w reject c :=
  (fun e => db_error e \/ enabled (domain p) reject (w_timestamp w) (ledger p w) c = false)
  (only parsing).

Abbreviation call a sel x := {| c_caller := a; c_sel := sel; c_params := x |} (only parsing).

Lemma approve_refines reject a s amt w :
  P a -> P s ->
  wwp (handle_approve (S := S) p a s amt) w (post w reject (call a Approve (s, amt)))
    (fault w reject (call a Approve (s, amt))).
Proof using Hk.
  intros Ha Hs. unfold handle_approve, enabled, effect, answer. simpl.
  apply wwp_bind, wwp_ensure; intros Hb; rewrite Hb; [|by right].
  apply wwp_bind, wwp_ensure; intros Hc; rewrite Hc; [|by right].
  apply wwp_bind. unfold set_allowance. apply wwp_sstore; [by left|].
  apply wwp_bind, wwp_touch, wwp_bind, wwp_log, wwp_output. split_and!; [done| |done].
  rewrite ledger_put_log, ledger_put_touched, ledger_put_allowance by done. done.
Qed.

Lemma wwp_check_allowance o s amt w K R :
  (allowed (ledger p w) o s amt = false -> forall e, R e) ->
  (allowed (ledger p w) o s amt = true -> K tt w) ->
  wwp (check_allowance (S := S) s (slot w (contract_address p) (allowance_slot o s)) amt
         (slot w (contract_address p) (allowance_slot o s) =? u256_max)) w K R.
Proof.
  intros HE HK. unfold allowed in *. simpl in HE, HK. rewrite Z.leb_antisym in HE, HK.
  apply wwp_ensure; rewrite negb_andb, negb_involutive; [done|]. intros Hf. by apply HE.
Qed.

Lemma transfer_from_refines reject c a b amt w :
  P c -> P a ->
  wwp (handle_transfer_from (S := S) p c a b amt reject) w
    (post w reject (call c TransferFrom (a, b, amt))) (fault w reject (call c TransferFrom (a, b, amt))).
Proof using Hk.
  intros Hc Ha. unfold handle_transfer_from, enabled, effect, answer. simpl.
  apply wwp_bind, wwp_ensure; intros Hb1; rewrite Hb1; [|by right].
  apply wwp_bind, wwp_ensure; intros Hb2; rewrite Hb2; [|by right]. simpl.
  destruct (amt =? 0); simpl; [by apply wwp_output|].
  apply wwp_bind. unfold get_allowance. apply wwp_sload; [by left|].
  apply wwp_bind, (wwp_check_allowance a); [by intros ->; right|]. intros Hal. rewrite Hal. simpl.
  destruct (Z.eqb_spec a b) as [->|Hab]; simpl.
  - apply wwp_bind, wwp_decrease_allowance; [by left|done|]. intros w' Hw'.
    apply wwp_bind, wwp_log, wwp_output. split_and!; [done| |done].
    by rewrite ledger_put_log, Hw'.
  - apply wwp_bind, wwp_transfer_balance; [done|by left|by right|]. intros Hok. rewrite Hok.
    assert (forall k, slot w (contract_address p) k = slot (put_move w a b amt) (contract_address p) k)
      as Hslot by done.
    rewrite Hslot. apply wwp_bind, wwp_decrease_allowance; [by left|done|]. intros w' Hw'.
    apply wwp_bind, wwp_log, wwp_output. split_and!; [done| |done].
    rewrite ledger_put_log, Hw' by done. apply emit_proper; [|done].
    unfold spend. simpl. destruct (_ =? u256_max); [by apply ledger_put_move|].
    by rewrite ledger_put_move.
Qed.

Lemma mint_refines reject c a amt w :
  wwp (handle_mint (S := S) p c a amt) w
    (post w reject (call c Mint (a, amt))) (fault w reject (call c Mint (a, amt))).
Proof using Hk.
  unfold handle_mint, enabled, effect, answer. simpl.
  apply wwp_bind, wwp_ensure; intros Hb1; rewrite Hb1; [|by right].
  apply wwp_bind, wwp_ensure; intros Hb2; rewrite Hb2; [|by right].
  apply wwp_bind, wwp_ensure; intros Hb3; rewrite Hb3; [|by right]. simpl.
  apply wwp_bind. unfold get_total_supply. apply wwp_sload; [by left|].
  apply wwp_bind, wwp_ok_or; unfold checked_add; (destruct (_ <=? u256_max) eqn:Hs; [|try done]); try done.
  2: { intros _. by right. }
  intros v [= <-]. apply wwp_bind. unfold set_total_supply. apply wwp_sstore; [by left|].
  apply wwp_bind, wwp_touch, wwp_bind, wwp_get_balance; [by left|].
  apply wwp_bind, wwp_ok_or; unfold checked_add;
    (destruct (balance (account _ a) + amt <=? u256_max) eqn:Hc; [|try done]); try done.
  2: { intros _. right. change (can_credit (ledger p w) a amt = false) in Hc. by rewrite Hc. }
  intros v [= <-]. apply wwp_bind, wwp_set_balance; [by left|].
  apply wwp_bind, wwp_touch, wwp_bind, wwp_log, wwp_bind, wwp_log, wwp_output.
  change (can_credit (ledger p w) a amt = true) in Hc. split_and!; [by rewrite Hc| |done].
  rewrite !ledger_put_log, !ledger_put_touched, ledger_put_balance, ledger_put_touched,
    ledger_put_supply by done.
  split; simpl; try done. by rewrite <- app_assoc.
Qed.

(** The tail of a burn: the supply and the balance. *)
Lemma burn_tail_ledger a amt w :
  ledger_equiv P Q
    (ledger p (put_touched (put_balance (put_touched
       (put_slot w (contract_address p) total_supply_slot
          (slot w (contract_address p) total_supply_slot - amt)) (contract_address p)) a
       (balance (account w a) - amt)) a))
    (set_l_balance (set_l_supply (ledger p w) (l_supply (ledger p w) - amt)) a
       (l_balance (ledger p w) a - amt)).
Proof using Hk.
  by rewrite ledger_put_touched, ledger_put_balance, ledger_put_touched, ledger_put_supply.
Qed.

Lemma burn_refines reject c amt w :
  wwp (handle_burn (S := S) p c amt reject) w
    (post w reject (call c Burn amt)) (fault w reject (call c Burn amt)).
Proof using Hk.
  unfold handle_burn, enabled, effect, answer. simpl.
  apply wwp_bind, wwp_ensure; intros Hb1; rewrite Hb1; [|by right].
  apply wwp_bind, wwp_ensure; intros Hb2.
  2: { apply negb_false_iff, Z.eqb_eq in Hb2. by rewrite Hb2 in Hb1. }
  apply wwp_bind, wwp_ensure; intros Hb3; rewrite Hb3; [|by right]. simpl.
  eapply (wwp_debit reject c amt w); [by left| |].
  { intros Hf e. right. by rewrite Hf. }
  intros Hd. rewrite Hd. simpl. apply wwp_bind. unfold get_total_supply. apply wwp_sload; [by left|].
  apply wwp_bind, wwp_ok_or; unfold checked_sub; (destruct (amt <=? _) eqn:Hs; [|try done]); try done.
  2: { intros _. by right. }
  intros v [= <-]. apply wwp_bind. unfold set_total_supply. apply wwp_sstore; [by left|].
  apply wwp_bind, wwp_touch, wwp_bind, wwp_set_balance; [by left|].
  apply wwp_bind, wwp_touch, wwp_bind, wwp_log, wwp_bind, wwp_log, wwp_output.
  split_and!; [done| |done]. rewrite !ledger_put_log, burn_tail_ledger.
  split; simpl; try done. by rewrite <- app_assoc.
Qed.

Lemma burn_from_refines reject c a amt w :
  P c -> P a ->
  wwp (handle_burn_from (S := S) p c a amt reject) w
    (post w reject (call c BurnFrom (a, amt))) (fault w reject (call c BurnFrom (a, amt))).
Proof using Hk.
  intros Hc Ha. unfold handle_burn_from, enabled, effect, answer. simpl.
  apply wwp_bind, wwp_ensure; intros Hb1; rewrite Hb1; [|by right].
  apply wwp_bind, wwp_ensure; intros Hb2; rewrite Hb2; [|by right].
  apply wwp_bind, wwp_ensure; intros Hb3; rewrite Hb3; [|by right]. simpl.
  apply wwp_bind. unfold get_allowance. apply wwp_sload; [by left|].
  apply wwp_bind, (wwp_check_allowance a); [by intros ->; right|]. intros Hal. rewrite Hal. simpl.
  eapply (wwp_debit reject a amt w); [by left| |].
  { intros Hf e. right. by rewrite Hf. }
  intros Hd. rewrite Hd. simpl. apply wwp_bind. unfold get_total_supply. apply wwp_sload; [by left|].
  apply wwp_bind, wwp_ok_or; unfold checked_sub; (destruct (amt <=? _) eqn:Hs; [|try done]); try done.
  2: { intros _. by right. }
  intros v [= <-]. apply wwp_bind. unfold set_total_supply. apply wwp_sstore; [by left|].
  apply wwp_bind, wwp_touch, wwp_bind, wwp_set_balance; [by left|]. apply wwp_bind, wwp_touch.
  pose proof (burn_tail_ledger a amt w) as Htail.
  set (w1 := put_touched _ a) in *. pose proof (le_allowance _ _ _ _ Htail a c Ha Hc) as Hsl.
  simpl in Hsl. rewrite <- Hsl. apply wwp_bind, wwp_decrease_allowance; [by left| |].
  { unfold allowed in *. simpl in *. by rewrite Hsl. }
  intros w' Hw'. apply wwp_bind, wwp_log, wwp_bind, wwp_log, wwp_output. split_and!; [done| |done].
  rewrite !ledger_put_log, Hw' by done.
  assert (ledger_equiv P Q (spend (ledger p w1) a c amt) (spend (set_l_balance (set_l_supply (ledger p w)
    (l_supply (ledger p w) - amt)) a (l_balance (ledger p w) a - amt)) a c amt)) as Hsp.
  { unfold spend. simpl. rewrite Hsl. destruct (_ =? u256_max); by rewrite Htail. }
  rewrite Hsp. split; simpl; try done. by rewrite <- app_assoc.
Qed.

Lemma wwp_nonce_used {A} a n w (k : bool -> ST S (ERC20Error (DbError S)) A)
    (K' : A -> World -> Prop) R :
  (forall e, db_error e -> R e) -> wwp (k (l_used (ledger p w) a n)) w K' R ->
  wwp (is_authorization_nonce_used p a n ≫= k) w K' R.
Proof.
  intros HR Hk'. apply wwp_bind. unfold is_authorization_nonce_used.
  apply wwp_bind, wwp_sload; [done|]. by apply wwp_ret.
Qed.

Lemma wwp_mark_nonce_used {A} a n w (k : unit -> ST S (ERC20Error (DbError S)) A)
    (K' : A -> World -> Prop) R :
  P a -> Q n -> (forall e, db_error e -> R e) ->
  (forall w', ledger_equiv P Q (ledger p w') (set_l_used (ledger p w) a n) ->
     wwp (k tt) w' K' R) ->
  wwp (mark_nonce_used p a n ≫= k) w K' R.
Proof using Hk.
  intros Ha Hn HR Hw. apply wwp_bind. unfold mark_nonce_used.
  apply wwp_bind, wwp_sstore; [done|]. apply wwp_touch, Hw.
  rewrite ledger_put_touched. by apply ledger_put_used.
Qed.

(** The signer does not depend on the type of database errors. *)
Lemma recover_signer_agree {E} h v r s :
  match recover_signer (DbError := E) h v r s with
  | Ret a => recover_signer (DbError := Empty_set) h v r s = Ret a
  | Err _ => exists e, recover_signer (DbError := Empty_set) h v r s = Err e
  | _ => False
  end.
Proof.
  unfold recover_signer. destruct (y_parity v) as [parity|]; [|by eauto].
  destruct (_ <? s); [by eauto|]. destruct (recover_address_from_prehash _ _ _ _); by eauto.
Qed.

Lemma transfer_enabled_equiv l l' reject a b amt :
  (forall k, l_balance l k = l_balance l' k) -> (forall k, l_bare l k = l_bare l' k) ->
  transfer_enabled l reject a b amt = transfer_enabled l' reject a b amt.
Proof. intros Hb Hr. unfold transfer_enabled, can_debit, can_credit. by rewrite !Hb, Hr. Qed.

(** The common part of the two transfers with authorization, from the time
    window on. *)
Lemma wwp_authorization reject gas a w R (K' : PrecompileOutput -> World -> Prop) :
  P (auth_from a) -> Q (auth_nonce a) ->
  (forall e, db_error e -> R e) ->
  (authorization_enabled (domain p) reject (w_timestamp w) (ledger p w) a = false -> forall e, R e) ->
  (authorization_enabled (domain p) reject (w_timestamp w) (ledger p w) a = true ->
   forall w', ledger_equiv P Q (ledger p w')
     (emit (transfer_effect (set_l_used (ledger p w) (auth_from a) (auth_nonce a))
              (auth_from a) (auth_to a) (auth_value a))
        [AuthorizationUsed_ (auth_from a) (auth_nonce a)]) ->
   K' {| gas_used := gas; bytes := encode_bool true |} w') ->
  wwp (now ← gets get_block_timestamp;
       _ ← st_ensure (negb (now <? auth_valid_after a)) (AuthorizationNotYetValid (auth_valid_after a) now);
       _ ← st_ensure (negb (auth_valid_before a <=? now)) (AuthorizationExpired (auth_valid_before a) now);
       used ← is_authorization_nonce_used p (auth_from a) (auth_nonce a);
       _ ← st_ensure (negb used) (AuthorizationAlreadyUsed (auth_nonce a));
       signer ← lift (S := S) (verify_transfer_authorization (domain p) a);
       _ ← st_ensure (signer =? auth_from a) (InvalidAuthorizer (auth_from a) signer);
       _ ← mark_nonce_used p (auth_from a) (auth_nonce a);
       res ← handle_transfer p (auth_from a) (auth_to a) (auth_value a) reject;
       _ ← log p (AuthorizationUsed_ (auth_from a) (auth_nonce a));
       output gas (bytes res)) w K' R.
Proof using Hk.
  intros Hf Hn HR HE HK. unfold authorization_enabled in *.
  apply wwp_bind, wwp_timestamp. rewrite !Z.leb_antisym in *.
  apply wwp_bind, wwp_ensure; intros Hb; rewrite Hb in *; [|by apply HE].
  apply wwp_bind, wwp_ensure; intros Hc.
  2: { apply HE. apply negb_false_iff, negb_true_iff in Hc. by rewrite Hc. }
  apply negb_true_iff, negb_false_iff in Hc. rewrite Hc in *. simpl in HE, HK.
  apply wwp_nonce_used; [done|].
  apply wwp_bind, wwp_ensure; intros Hu; simpl in Hu; rewrite Hu in *; [|by apply HE]. simpl in HE, HK.
  apply wwp_bind, wwp_lift. unfold signed_transfer, verify_transfer_authorization in *.
  pose proof (recover_signer_agree (E := DbError S) (eip712_signing_hash
    (TransferWithAuthorizationStruct (auth_from a) (auth_to a) (auth_value a) (auth_valid_after a)
       (auth_valid_before a) (auth_nonce a)) (domain p)) (auth_v a) (auth_r a) (auth_s a)) as Hr.
  destruct (recover_signer (DbError := DbError S) _ _ _ _) as [signer|e| |]; try done; simpl.
  2: { destruct Hr as [e' Hr]. apply HE. by rewrite Hr. }
  rewrite Hr in *. apply wwp_bind, wwp_ensure; intros Hsg; rewrite Hsg in *; [|by apply HE].
  simpl in HE, HK. apply wwp_mark_nonce_used; [done..|]. intros w1 Hw1.
  assert (transfer_enabled (ledger p w1) reject (auth_from a) (auth_to a) (auth_value a) =
    transfer_enabled (ledger p w) reject (auth_from a) (auth_to a) (auth_value a)) as Hen.
  { apply transfer_enabled_equiv; intros k; [apply (le_balance _ _ _ _ Hw1)|apply (le_bare _ _ _ _ Hw1)]. }
  apply wwp_bind, wwp_handle_transfer; [done|by rewrite Hen|]. rewrite Hen. intros Hen' w2 Hw2.
  apply wwp_bind, wwp_log, wwp_output, HK; [done|].
  by rewrite ledger_put_log, Hw2, Hw1.
Qed.

Lemma cancel_refines reject c a n v r s w :
  P a -> Q n ->
  wwp (handle_cancel_authorization (S := S) p a n v r s) w
    (post w reject (call c CancelAuthorization (a, n, v, r, s)))
    (fault w reject (call c CancelAuthorization (a, n, v, r, s))).
Proof using Hk.
  intros Ha Hn. unfold handle_cancel_authorization, enabled, effect, answer. simpl.
  apply wwp_nonce_used; [by left|].
  apply wwp_bind, wwp_ensure; intros Hu; simpl in Hu; rewrite Hu; [|by right]. simpl.
  apply wwp_bind, wwp_lift. unfold signed_cancel, verify_cancel_authorization.
  pose proof (recover_signer_agree (E := DbError S)
    (eip712_signing_hash (CancelAuthorizationStruct a n) (domain p)) v r s) as Hr.
  destruct (recover_signer (DbError := DbError S) _ _ _ _) as [signer|e| |]; try done; simpl.
  2: { destruct Hr as [e' Hr]. right. by rewrite Hr. }
  rewrite Hr. apply wwp_bind, wwp_ensure; intros Hsg; rewrite Hsg; [|by right].
  apply wwp_mark_nonce_used; [done|done|by left|]. intros w1 Hw1.
  apply wwp_bind, wwp_log, wwp_output. split_and!; [done| |done]. by rewrite ledger_put_log, Hw1.
Qed.

(** Every method does what the token specifies, or fails with the database. *)
Lemma run_method_refines reject c w :
  call_ok P Q c ->
  wwp (run_method (S := S) p (c_caller c) reject (c_sel c) (c_params c)) w
    (post w reject c) (fault w reject c).
Proof using Hk.
  destruct c as [a [] x]; unfold call_ok; simpl; intros [Ha Hx]; simpl in x.
  1-3: by apply wwp_output.
  - apply wwp_bind, wwp_sload; [by left|]. by apply wwp_output.
  - apply wwp_bind, wwp_get_balance; [by left|]. by apply wwp_output.
  - destruct x as [o s]. apply wwp_bind. unfold get_allowance. apply wwp_sload; [by left|].
    by apply wwp_output.
  - destruct x as [b amt]. apply wwp_handle_transfer; [by left|by right|].
    intros He w' Hw'. done.
  - destruct x as [s amt], Hx. by apply approve_refines.
  - destruct x as [[b d] amt], Hx as (? & ? & ?). by apply transfer_from_refines.
  - destruct x as [b amt]. by apply mint_refines.
  - by apply burn_refines.
  - destruct x as [b amt], Hx. by apply burn_from_refines.
  - destruct Hx as (Hf & Ht & Hn & _). apply wwp_authorization; [done|done|by left|by right|].
    intros He w' Hw'. done.
  - destruct Hx as (Hf & Ht & Hn & _). unfold handle_receive_with_authorization.
    apply wwp_bind, wwp_ensure; intros Hc.
    2: { right. unfold enabled. simpl. by rewrite Hc. }
    apply wwp_authorization; [done|done|by left| |].
    { intros Hf' e. right. unfold enabled. simpl. by rewrite Hc. }
    intros He w' Hw'. split_and!; [|done|done]. unfold enabled. simpl. by rewrite Hc.
  - destruct x as [[[[b n] v] r] s]. destruct Hx as [Hb Hn]. by apply cancel_refines.
Qed.

End refine.

(** ** Facts about the token *)

Definition ledger_total (l : Ledger) (X : list Address) : Z := zsum (l_balance l <$> X).

(** Balances, allowances and the supply are 256-bit numbers. *)
Record ledger_wf (l : Ledger) : Prop := {
  lw_balance : forall a, 0 <= l_balance l a <= u256_max;
  lw_allowance : forall o s, 0 <= l_allowance l o s <= u256_max;
  lw_supply : 0 <= l_supply l <= u256_max
}.

(** The authorization a call uses up. *)
Definition uses_nonce (c : Call) : option (Address * B256) :=
  match c_sel c as sel return params sel -> option (Address * B256) with
  | TransferWithAuthorization | ReceiveWithAuthorization => fun a =>
      Some (auth_from a, auth_nonce a)
  | CancelAuthorization => fun '(a, n, _, _, _) => Some (a, n)
  | _ => fun _ => None
  end (c_params c).

(** The call is made or authorized by [a]. *)
Definition consented `{!EvmLib} (d : Eip712Domain) (l : Ledger) (c : Call) (a : Address) : Prop :=
  match c_sel c as sel return params sel -> Prop with
  | Transfer | Burn => fun _ => c_caller c = a
  | TransferFrom => fun '(from, _, amt) =>
      from = a /\ allowed l a (c_caller c) amt = true
  | BurnFrom => fun '(from, amt) =>
      from = a /\ c_caller c = MINTING_MODULE_ADDRESS /\ allowed l a (c_caller c) amt = true
  | TransferWithAuthorization => fun x => auth_from x = a /\ signed_transfer d x = true
  | ReceiveWithAuthorization => fun x =>
      auth_from x = a /\ signed_transfer d x = true /\ c_caller c = auth_to x
  | _ => fun _ => False
  end (c_params c).

Lemma zsum_upd f a v (X : list Z) :
  NoDup X -> a ∈ X -> zsum (upd f a v <$> X) = zsum (f <$> X) - f a + v.
Proof.
  induction 1 as [|x X Hx Hnd IH]; intros Ha; [inversion Ha|]. rewrite !fmap_cons. simpl. fold_fmap.
  unfold upd at 1. destruct (Z.eqb_spec x a) as [->|Hne].
  - assert (upd f a v <$> X = f <$> X) as ->; [|lia].
    apply list_fmap_ext. intros i y Hy. unfold upd. destruct (Z.eqb_spec y a) as [->|]; [|done].
    destruct Hx. by eapply list_elem_of_lookup_2.
  - rewrite IH; [lia|]. apply elem_of_cons in Ha as [->|Ha]; done.
Qed.

Section token.
Context `{!EvmLib} (d : Eip712Domain) (reject : bool) (now : U256).

Lemma total_move l X a b amt :
  NoDup X -> a ∈ X -> b ∈ X -> a <> b -> ledger_total (move l a b amt) X = ledger_total l X.
Proof.
  intros Hnd Ha Hb Hab. unfold ledger_total, move. simpl. rewrite !zsum_upd by done.
  unfold upd. rewrite (proj2 (Z.eqb_neq b a)) by done. lia.
Qed.

Lemma spend_balance l o s amt : l_balance (spend l o s amt) = l_balance l.
Proof. unfold spend. by destruct (_ =? _). Qed.

Lemma spend_supply l o s amt : l_supply (spend l o s amt) = l_supply l.
Proof. unfold spend. by destruct (_ =? _). Qed.

Lemma total_transfer l X a b amt :
  NoDup X -> a ∈ X -> b ∈ X -> ledger_total (transfer_effect l a b amt) X = ledger_total l X.
Proof.
  intros Hnd Ha Hb. unfold transfer_effect. destruct (amt =? 0); simpl; [done|].
  destruct (Z.eqb_spec a b); [done|]. by apply total_move.
Qed.

(** The balances change by what the supply changes by. *)
Lemma effect_conserves Q l c X :
  NoDup X -> call_ok (fun a => a ∈ X) Q c -> enabled d reject now l c = true ->
  ledger_total (effect l c) X - l_supply (effect l c) = ledger_total l X - l_supply l.
Proof.
  intros Hnd. destruct c as [a [] x]; unfold call_ok, enabled, effect; simpl; intros [Ha Hx] He;
    simpl in x; try done.
  - destruct x as [b amt], Hx. rewrite total_transfer by done. unfold transfer_effect.
    by destruct (_ || _).
  - by destruct x as [s amt].
  - destruct x as [[b e] amt], Hx as (Hb & Hc & _). destruct (amt =? 0); [done|].
    unfold ledger_total. destruct (Z.eqb_spec b e); simpl; rewrite ?spend_balance, ?spend_supply; [done|].
    fold (ledger_total (move l b e amt) X). by rewrite total_move.
  - destruct x as [b amt], Hx. unfold ledger_total. simpl. rewrite zsum_upd by done. lia.
  - unfold ledger_total. simpl. rewrite zsum_upd by done. lia.
  - destruct x as [b amt], Hx. unfold ledger_total. simpl. rewrite spend_balance, spend_supply. simpl.
    rewrite zsum_upd by done. lia.
  - destruct Hx as (Hf & Ht & _). unfold ledger_total. simpl.
    fold (ledger_total (transfer_effect (set_l_used l (auth_from x) (auth_nonce x)) (auth_from x)
      (auth_to x) (auth_value x)) X). rewrite total_transfer by done.
    unfold transfer_effect. by destruct (_ || _).
  - destruct Hx as (Hf & Ht & _). unfold ledger_total. simpl.
    fold (ledger_total (transfer_effect (set_l_used l (auth_from x) (auth_nonce x)) (auth_from x)
      (auth_to x) (auth_value x)) X). rewrite total_transfer by done.
    unfold transfer_effect. by destruct (_ || _).
  - by destruct x as [[[[b n] v] r] s].
Qed.

Lemma transfer_effect_balance l a b amt k :
  0 <= amt -> l_balance (transfer_effect l a b amt) k < l_balance l k -> k = a.
Proof.
  intros Hamt. unfold transfer_effect. destruct (_ || _); [lia|]. simpl. unfold upd.
  destruct (Z.eqb_spec k b) as [->|]; [lia|]. destruct (Z.eqb_spec k a) as [->|]; [done|lia].
Qed.

(** A balance decreases only with the holder's consent. *)
Lemma effect_consented P Q l c k :
  call_ok P Q c -> enabled d reject now l c = true ->
  l_balance (effect l c) k < l_balance l k -> consented d l c k.
Proof.
  destruct c as [a [] x]; unfold call_ok, enabled, effect, consented; simpl; intros [Ha Hx] He Hlt;
    simpl in x; try lia.
  - destruct x as [b amt], Hx. by apply transfer_effect_balance in Hlt; [|lia].
  - destruct x as [s amt]. simpl in Hlt. lia.
  - destruct x as [[b e] amt], Hx as (_ & _ & Hamt). destruct (Z.eqb_spec amt 0); [lia|].
    simpl in He. rewrite !andb_true_iff in He. destruct He as [_ [Hal _]].
    destruct (Z.eqb_spec b e); simpl in Hlt; rewrite spend_balance in Hlt; [lia|].
    simpl in Hlt. unfold upd in Hlt. destruct (Z.eqb_spec k e) as [->|]; [lia|].
    destruct (Z.eqb_spec k b) as [->|]; [done|lia].
  - destruct x as [b amt], Hx as [_ Hamt]. simpl in Hlt. unfold upd in Hlt.
    destruct (Z.eqb_spec k b) as [->|]; lia.
  - simpl in Hlt. unfold upd in Hlt. destruct (Z.eqb_spec k a) as [->|]; [done|lia].
  - destruct x as [b amt], Hx as [_ Hamt]. simpl in Hlt. rewrite spend_balance in Hlt. simpl in Hlt.
    unfold upd in Hlt. destruct (Z.eqb_spec k b) as [->|]; [|lia].
    rewrite !andb_true_iff, Z.eqb_eq in He. tauto.
  - destruct Hx as (_ & _ & _ & Hamt).
    apply (transfer_effect_balance (set_l_used l (auth_from x) (auth_nonce x))) in Hlt; [|lia].
    unfold authorization_enabled in He. rewrite !andb_true_iff in He. split; [done|tauto].
  - destruct Hx as (_ & _ & _ & Hamt).
    apply (transfer_effect_balance (set_l_used l (auth_from x) (auth_nonce x))) in Hlt; [|lia].
    unfold authorization_enabled in He. rewrite !andb_true_iff, Z.eqb_eq in He. split; [done|tauto].
  - destruct x as [[[[b n] v] r] s]. simpl in Hlt. lia.
Qed.

(** A used authorization stays used. *)
Lemma effect_used_mono l c a n : l_used l a n = true -> l_used (effect l c) a n = true.
Proof.
  intros Hu. assert (forall x y, l_used (set_l_used l x y) a n = true) as Hset.
  { intros x y. simpl. unfold upd. destruct (Z.eqb_spec a x) as [->|]; [|done]. by destruct (n =? y). }
  assert (forall l x y v, l_used (transfer_effect l x y v) = l_used l) as Htr.
  { intros l' x y v. unfold transfer_effect. by destruct (_ || _). }
  assert (forall l o s v, l_used (spend l o s v) = l_used l) as Hsp.
  { intros l' o s v. unfold spend. by destruct (_ =? _). }
  destruct c as [b [] x]; unfold effect; simpl; simpl in x; try done.
  - destruct x. by rewrite Htr.
  - by destruct x.
  - destruct x as [[o e] amt]. destruct (amt =? 0); [done|].
    destruct (o =? e); simpl; rewrite Hsp; done.
  - by destruct x.
  - destruct x. simpl. by rewrite Hsp.
  - rewrite Htr. apply Hset.
  - rewrite Htr. apply Hset.
  - destruct x as [[[[x y] v] r] s]. apply Hset.
Qed.

(** A call uses a fresh authorization and marks it. *)
Lemma effect_uses_nonce l c a n :
  uses_nonce c = Some (a, n) -> enabled d reject now l c = true ->
  l_used l a n = false /\ l_used (effect l c) a n = true.
Proof.
  assert (forall l x y v, l_used (transfer_effect l x y v) = l_used l) as Htr.
  { intros l' x y v. unfold transfer_effect. by destruct (_ || _). }
  assert (forall x y, l_used (set_l_used l x y) x y = true) as Hset.
  { intros x y. simpl. unfold upd. by rewrite !Z.eqb_refl. }
  destruct c as [b [] x]; unfold uses_nonce, enabled, effect; simpl; simpl in x; try done.
  - intros [= <- <-]. unfold authorization_enabled. rewrite !andb_true_iff, negb_true_iff, Htr.
    intros He. split; [tauto|apply Hset].
  - intros [= <- <-]. unfold authorization_enabled. rewrite !andb_true_iff, negb_true_iff, Htr.
    intros He. split; [tauto|apply Hset].
  - destruct x as [[[[x y] v] r] s]. intros [= <- <-]. rewrite andb_true_iff, negb_true_iff.
    intros [Hu _]. split; [done|apply Hset].
Qed.

(** The guard never lets a debit empty a bare account. *)
Lemma effect_not_emptied P Q l c k :
  reject = true -> call_ok P Q c -> enabled d reject now l c = true ->
  l_balance (effect l c) k < l_balance l k -> l_balance (effect l c) k = 0 -> l_bare l k = false.
Proof.
  intros Hr. rewrite Hr.
  assert (forall a amt, can_debit l true a amt = true -> l_balance l a - amt = 0 -> l_bare l a = false)
    as Hcd.
  { intros a amt Hc Hz. unfold can_debit in Hc. apply andb_true_iff in Hc as [_ Hc].
    destruct (l_bare l a); [|done]. rewrite (proj2 (Z.eqb_eq (l_balance l a) amt)) in Hc by lia. done. }
  assert (forall l' a b amt, 0 <= amt -> l_balance l' = l_balance l ->
    transfer_enabled l true a b amt = true ->
    l_balance (transfer_effect l' a b amt) k < l_balance l k ->
    l_balance (transfer_effect l' a b amt) k = 0 -> l_bare l k = false) as Htr.
  { intros l' a b amt Hamt Hl' He. unfold transfer_enabled, transfer_effect in *.
    destruct (amt =? 0); simpl; [rewrite Hl'; lia|].
    destruct (Z.eqb_spec a b); simpl in *; [rewrite Hl'; lia|].
    rewrite Hl'. unfold upd. destruct (Z.eqb_spec k b) as [->|]; [lia|].
    destruct (Z.eqb_spec k a) as [->|]; [|lia]. intros _ Hz. eapply Hcd; [|exact Hz].
    rewrite !andb_true_iff in He. tauto. }
  destruct c as [a [] x]; unfold call_ok, enabled, effect; simpl; intros [Ha Hx] He Hlt Hz;
    simpl in x; try lia.
  - destruct x as [b amt], Hx as [_ Hamt]. exact (Htr l a b amt ltac:(lia) eq_refl He Hlt Hz).
  - destruct x as [s amt]. simpl in Hlt. lia.
  - destruct x as [[b e] amt], Hx as (_ & _ & Hamt). destruct (Z.eqb_spec amt 0); [lia|].
    simpl in He. rewrite !andb_true_iff in He. destruct He as [_ [_ He]].
    destruct (Z.eqb_spec b e); simpl in *; rewrite spend_balance in *; [lia|]. simpl in *.
    unfold upd in *. destruct (Z.eqb_spec k e) as [->|]; [lia|].
    destruct (Z.eqb_spec k b) as [->|]; [|lia]. apply andb_true_iff in He as [He _]. by eapply Hcd.
  - destruct x as [b amt], Hx as [_ Hamt]. simpl in *. unfold upd in *.
    destruct (Z.eqb_spec k b) as [->|]; lia.
  - simpl in *. unfold upd in *. destruct (Z.eqb_spec k a) as [->|]; [|lia].
    rewrite !andb_true_iff in He. eapply Hcd; [|exact Hz]. tauto.
  - destruct x as [b amt], Hx as [_ Hamt]. simpl in *. rewrite spend_balance in *. simpl in *.
    unfold upd in *. destruct (Z.eqb_spec k b) as [->|]; [|lia].
    rewrite !andb_true_iff in He. eapply Hcd; [|exact Hz]. tauto.
  - unfold authorization_enabled in He. apply andb_true_iff in He as [_ He].
    destruct Hx as (_ & _ & _ & [Hamt _]). exact (Htr (set_l_used l _ _) _ _ _ Hamt eq_refl He Hlt Hz).
  - unfold authorization_enabled in He. rewrite !andb_assoc in He. apply andb_true_iff in He as [_ He].
    destruct Hx as (_ & _ & _ & [Hamt _]). exact (Htr (set_l_used l _ _) _ _ _ Hamt eq_refl He Hlt Hz).
  - destruct x as [[[[b n] v] r] s]. simpl in Hlt. lia.
Qed.

End token.

(** ** Calls in the EVM *)

(** The call that an input encodes. *)
Definition decodes `{!EvmLib} (i : PrecompileInput) (c : Call) : Prop :=
  c_caller c = in_caller i /\ from_calldata (in_data i) = Some (c_sel c) /\
  decode_call (c_sel c) (in_data i) = Some (c_params c).

Definition input_ok `{!EvmLib} (P : Address -> Prop) (Q : B256 -> Prop) (i : PrecompileInput) : Prop :=
  forall c, decodes i c -> call_ok P Q c.

Lemma decodes_unique `{!EvmLib} i c1 c2 : decodes i c1 -> decodes i c2 -> c1 = c2.
Proof.
  destruct c1 as [a1 s1 x1], c2 as [a2 s2 x2]. intros (H1 & H2 & H3) (H4 & H5 & H6). simpl in *.
  rewrite H2 in H5. injection H5 as <-. rewrite H3 in H6. injection H6 as <-. by subst.
Qed.

Lemma input_ok_decodes `{!EvmLib} P Q i c : decodes i c -> call_ok P Q c -> input_ok P Q i.
Proof. intros Hc Hok c' Hc'. by rewrite (decodes_unique i c' c). Qed.

Definition succeeded (r : Exec PrecompileError PrecompileReturn) : bool :=
  match r with Ret out => negb (pr_reverted out) | _ => false end.

Section frames.
Context `{!EvmLib} {S : Type} `{!StateAccessAdapter S} `{!ForkConditionApi} {sok : StateAccessOk S}.
Context (activation : RaylsHardFork -> ForkCondition) (p : Erc20Precompile).
Implicit Types (s : S) (i : PrecompileInput).

(** A call frame: the EVM restores its checkpoint unless the precompile
    succeeds. *)
Definition run_frame (i : PrecompileInput) (s : S) : S * Exec PrecompileError PrecompileReturn :=
  match erc20_dyn_precompile activation (Some p) i s with
  | (s', r) => (if succeeded r then s' else s, r)
  end.

Definition run_frames (s : S) (ins : list PrecompileInput) : S :=
  foldl (fun s i => fst (run_frame i s)) s ins.

(** Whether the guard against emptied accounts applies to an input. *)
Definition rejects_empty (i : PrecompileInput) : bool :=
  is_rayls_fork_active_at_block activation Eip161EmptyAccountGuard
    (Z.min u64_max (in_block_number i)).

(** The result of a frame whose input encodes the call [c], for what a token
    permits and does. *)
Definition token_post (permits : Eip712Domain -> bool -> U256 -> Ledger -> Call -> bool)
    (does : Ledger -> Call -> Ledger) (P : Address -> Prop) (Q : B256 -> Prop) (s : S) (i : PrecompileInput)
    (c : Call) (s' : S) (r : PrecompileReturn) : Prop :=
  let l := ledger p (world s) in
  let ok := permits (domain p) (rejects_empty i) (w_timestamp (world s)) l c in
  if pr_reverted r then
    pr_gas_used r = Z.min BASE_ERROR_GAS (in_gas i) /\
    exists e : ERC20Error (DbError S), pr_bytes r = encode_revert_reason (error_text e) /\
      (db_error e \/ ok = false)
  else
    ok = true /\ ledger_equiv P Q (ledger p (world s')) (does l c) /\
    pr_bytes r = answer p l c /\ pr_gas_used r = method_gas (c_sel c) /\ pr_gas_used r <= in_gas i.
Definition frame_post := token_post enabled effect.
Definition std_frame_post := token_post std_enabled std_effect.

Lemma frame_post_std P Q s i c s' r :
  standard (w_timestamp (world s)) c = true -> frame_post P Q s i c s' r -> std_frame_post P Q s i c s' r.
Proof.
  intros Hc. unfold std_frame_post, frame_post, token_post.
  by destruct (std_same (domain p) (rejects_empty i) _ (ledger p (world s)) c Hc) as [<- <-].
Qed.

Section checked.
Context (P : Address -> Prop) (Q : B256 -> Prop) (Hk : keccak_ok P Q).

Lemma dyn_precompile_cases i s :
  input_ok P Q i ->
  match erc20_dyn_precompile activation (Some p) i s with
  | (s', Ret r) => exists c, decodes i c /\ in_value i = 0 /\
      (in_is_static i = true -> is_state_mutating (c_sel c) = false) /\
      (in_is_direct_call i = true \/ is_rayls_fork_active_at_block activation
         Erc20PrecompileDirectCall (Z.min u64_max (in_block_number i)) = false) /\
      frame_post P Q s i c s' r
  | (s', Err _) => True
  | (_, Panic) | (_, Diverge) => False
  end.
Proof using Hk.
  intros Hin. unfold erc20_dyn_precompile, frame_post, token_post.
  destruct (in_is_direct_call i) eqn:Hdir; simpl;
    [|destruct (is_rayls_fork_active_at_block activation Erc20PrecompileDirectCall
        (Z.min u64_max (in_block_number i))) eqn:Hfork; simpl; [done|]].
  all: destruct (Z.eqb_spec (in_value i) 0) as [Hv|]; simpl; [|done];
    destruct (length (in_data i) <? 4)%nat; [done|];
    destruct (from_calldata (in_data i)) as [sel|] eqn:Hsel; [|done];
    destruct (in_is_static i && is_state_mutating sel) eqn:Hst; [done|];
    destruct (decode_call sel (in_data i)) as [x|] eqn:Hx; [|done];
    pose (c := {| c_caller := in_caller i; c_sel := sel; c_params := x |});
    assert (decodes i c) as Hc by done;
    pose proof (run_method_refines p P Q Hk (rejects_empty i) c (world s) (Hin c Hc) s eq_refl) as Hr;
    unfold swp in Hr; simpl in Hr; fold (rejects_empty i);
    destruct (run_method p (in_caller i) (rejects_empty i) sel x s) as [s' [out|e| |]]; try done.
  1, 3: destruct Hr as (Hen & Heq & ->); simpl; destruct (Z.ltb_spec (in_gas i) (method_gas sel));
    [done|].
  all: exists c; split; [done|]; split; [done|];
    split; [intros Hs; by rewrite Hs in Hst|]; split; [by auto|]; simpl.
  1, 2: by split_and!.
  all: split; [done|]; by exists e.
Qed.

Lemma run_frame_cases i s :
  input_ok P Q i ->
  match run_frame i s with
  | (s', Ret r) => exists c, decodes i c /\ in_value i = 0 /\
      (in_is_static i = true -> is_state_mutating (c_sel c) = false) /\
      (in_is_direct_call i = true \/ is_rayls_fork_active_at_block activation
         Erc20PrecompileDirectCall (Z.min u64_max (in_block_number i)) = false) /\
      frame_post P Q s i c s' r /\ (pr_reverted r = true -> s' = s)
  | (s', Err _) => s' = s
  | (_, Panic) | (_, Diverge) => False
  end.
Proof using Hk.
  intros Hin. pose proof (dyn_precompile_cases i s Hin) as Hd. unfold run_frame.
  destruct (erc20_dyn_precompile activation (Some p) i s) as [s' [r|e| |]]; simpl; try done.
  destruct Hd as (c & Hc & Hv & Hst & Hdir & Hp). exists c. unfold frame_post, token_post in *.
  destruct (pr_reverted r); simpl; done.
Qed.

(** A frame changes the ledger as a token call, or not at all. *)
Lemma run_frame_ledger i s :
  input_ok P Q i ->
  fst (run_frame i s) = s \/
  exists c, decodes i c /\
    enabled (domain p) (rejects_empty i) (w_timestamp (world s)) (ledger p (world s)) c = true /\
    ledger_equiv P Q (ledger p (world (fst (run_frame i s)))) (effect (ledger p (world s)) c).
Proof using Hk.
  intros Hin. pose proof (run_frame_cases i s Hin) as Hc.
  destruct (run_frame i s) as [s' [r|e| |]]; simpl; try done; [|by left].
  destruct Hc as (c & Hc & _ & _ & _ & Hp & Hrev). unfold frame_post, token_post in Hp.
  destruct (pr_reverted r); [left; auto|right]. exists c. naive_solver.
Qed.

Lemma run_frames_used s ins a n :
  P a -> Q n -> Forall (input_ok P Q) ins -> l_used (ledger p (world s)) a n = true ->
  l_used (ledger p (world (run_frames s ins))) a n = true.
Proof using Hk.
  intros Ha Hn Hall. revert s. induction Hall as [|i ins Hi _ IH]; intros s Hu; [done|]. simpl.
  apply IH. destruct (run_frame_ledger i s Hi) as [->|(c & _ & _ & Heq)]; [done|].
  rewrite (le_used _ _ _ _ Heq) by done. by apply effect_used_mono.
Qed.

End checked.
End frames.

(** A journal for closed runs: the world itself, whose database fails for the
    accounts of a set. *)
Record Journal := { j_world : World; j_faulty : gset Address }.

Definition set_j_world (j : Journal) (w : World) : Journal := {| j_world := w; j_faulty := j_faulty j |}.

#[export] Instance journal_access `{!EvmLib} : StateAccessAdapter Journal := {|
  DbError := unit;
  perform_load_account := fun a j =>
    (j, if bool_decide (a ∈ j_faulty j) then Err tt else Ret (account (j_world j) a));
  perform_set_balance := fun a b j =>
    if bool_decide (a ∈ j_faulty j) then (j, Err tt)
    else (set_j_world j (put_balance (j_world j) a b), Ret tt);
  perform_sload := fun c k j =>
    (j, if bool_decide (c ∈ j_faulty j) then Err tt else Ret (slot (j_world j) c k));
  perform_sstore := fun c k v j =>
    if bool_decide (c ∈ j_faulty j) then (j, Err tt)
    else (set_j_world j (put_slot (j_world j) c k v), Ret tt);
  perform_touch_account := fun a j => set_j_world j (put_touched (j_world j) a);
  perform_log := fun l j => set_j_world j (put_log (j_world j) l);
  get_block_timestamp := fun j => w_timestamp (j_world j)
|}.

#[export] Instance journal_access_ok `{!EvmLib} : StateAccessOk Journal.
Proof.
  refine {| world := j_world |}; unfold swp; simpl; intros; try case_bool_decide; done.
Defined.

(** ** Properties *)


(** C12: no sequence of calls creates or destroys tokens: the sum of the
    balances of the accounts in use minus the total supply never changes, so
    a supply that equals the balances keeps equalling them. *)
Theorem supply_matches_balances `{!EvmLib} {S} `{!StateAccessAdapter S} `{!ForkConditionApi}
    {sok : StateAccessOk S} activation p X Q ins (s : S) :
  NoDup X -> keccak_ok (fun a => a ∈ X) Q -> Forall (input_ok (fun a => a ∈ X) Q) ins ->
  let l := ledger p (world s) in
  let l' := ledger p (world (run_frames activation p s ins)) in
  ledger_total l' X - l_supply l' = ledger_total l X - l_supply l.
Proof.
  intros Hnd Hk Hall. revert s. induction Hall as [|i ins Hi _ IH]; intros s; [done|].
  intros l l'. unfold l'. simpl run_frames. rewrite IH. unfold l.
  destruct (run_frame_ledger activation p _ Q Hk i s Hi) as [->|(c & Hc & He & Heq)]; [done|].
  rewrite <- (effect_conserves _ _ _ Q _ c X Hnd (Hi c Hc) He).
  rewrite (le_supply _ _ _ _ Heq). f_equal. unfold ledger_total. f_equal.
  apply list_fmap_ext. intros k a _. apply (le_balance _ _ _ _ Heq).
Qed.

(** a frame lowers an account's balance only with the account's consent:
    it called itself, it granted the caller an allowance that covers the
    amount, or it signed the authorization; and where the guard against
    emptied accounts is active, the debit leaves no account without balance,
    transactions and code. *)
Theorem debits_need_consent `{!EvmLib} {S} `{!StateAccessAdapter S} `{!ForkConditionApi}
    {sok : StateAccessOk S} activation p P Q i (s : S) a :
  keccak_ok P Q -> input_ok P Q i ->
  let l := ledger p (world s) in
  let l' := ledger p (world (fst (run_frame activation p i s))) in
  l_balance l' a < l_balance l a ->
  exists c, decodes i c /\ consented (domain p) l c a /\
    (rejects_empty activation i = true -> l_balance l' a = 0 -> l_bare l a = false).
Proof.
  intros Hk Hin l l' Hlt.
  destruct (run_frame_ledger activation p P Q Hk i s Hin) as [Heq|(c & Hc & He & Heq)].
  { unfold l', l in Hlt. rewrite Heq in Hlt. lia. }
  exists c. pose proof (le_balance _ _ _ _ Heq a) as Hb. fold l' in Hb. rewrite Hb in *.
  split; [done|]. split; [eapply effect_consented; [by apply Hin|exact He|exact Hlt]|].
  intros Hr Hz. eapply effect_not_emptied; [exact Hr|by apply Hin|exact He|exact Hlt|exact Hz].
Qed.

(** an authorization works once. After a frame that used or cancelled the
    authorization [(a, n)], and any further calls, no frame that uses or
    cancels it again succeeds. *)
Theorem authorization_used_once `{!EvmLib} {S} `{!StateAccessAdapter S} `{!ForkConditionApi}
    {sok : StateAccessOk S} activation p P Q i c a n ins i' c' (s : S) :
  keccak_ok P Q -> input_ok P Q i -> Forall (input_ok P Q) ins -> input_ok P Q i' ->
  P a -> Q n -> decodes i c -> uses_nonce c = Some (a, n) -> decodes i' c' ->
  uses_nonce c' = Some (a, n) ->
  succeeded (snd (run_frame activation p i s)) = true ->
  let s' := run_frames activation p (fst (run_frame activation p i s)) ins in
  succeeded (snd (run_frame activation p i' s')) = false.
Proof.
  intros Hk Hi His Hi' Ha Hn Hc Hu Hc' Hu' Hok s'.
  assert (forall i c s, input_ok P Q i -> decodes i c -> uses_nonce c = Some (a, n) ->
    succeeded (snd (run_frame activation p i s)) = true ->
    l_used (ledger p (world s)) a n = false /\
    l_used (ledger p (world (fst (run_frame activation p i s)))) a n = true) as Hkey.
  { clear -Hk Ha Hn. intros i c s Hi Hc Hu Hok. pose proof (run_frame_cases activation p P Q Hk i s Hi) as Hf.
    destruct (run_frame activation p i s) as [s' [r|e| |]]; try done. simpl in *.
    destruct Hf as (c2 & Hc2 & _ & _ & _ & Hp & _). unfold frame_post, token_post in Hp.
    destruct (pr_reverted r); [done|]. destruct Hp as (He & Heq & _).
    assert (c2 = c) as -> by exact (decodes_unique _ _ _ Hc2 Hc).
    destruct (effect_uses_nonce _ _ _ _ c a n Hu He) as [H1 H2]. split; [done|].
    etransitivity; [exact (le_used _ _ _ _ Heq a n Ha Hn)|exact H2]. }
  destruct (Hkey i c s Hi Hc Hu Hok) as [_ Hused].
  apply (run_frames_used activation p P Q Hk _ ins a n Ha Hn His) in Hused. fold s' in Hused.
  destruct (succeeded (snd (run_frame activation p i' s'))) eqn:Hs; [|done].
  destruct (Hkey i' c' s' Hi' Hc' Hu' Hs) as [Hf _]. congruence.
Qed.

(** the signature of a receive authorization is over the same struct as
    that of a transfer authorization: what the receiver can submit as
    [receiveWithAuthorization], anyone can submit first as
    [transferWithAuthorization], with the same result and state. The check
    that the caller is the receiver protects nothing. *)
Theorem receive_authorization_front_run `{!EvmLib} {S} `{!StateAccessAdapter S} p a reject (s : S) :
  handle_receive_with_authorization p (auth_to a) a reject s =
  handle_transfer_with_authorization p a reject s.
Proof. unfold handle_receive_with_authorization. by rewrite Z.eqb_refl. Qed.

(** A transfer to oneself succeeds whatever the amount, and without an
    event: the balance is not checked. *)
Theorem self_transfer_unchecked `{!EvmLib} {S} `{!StateAccessAdapter S} p a amt reject (s : S) :
  a <> 0 ->
  handle_transfer p a a amt reject s =
  (s, Ret {| gas_used := GAS_TRANSFER; bytes := encode_bool true |}).
Proof.
  intros Ha. unfold handle_transfer, check_sender, check_receiver.
  rewrite (proj2 (Z.eqb_neq a 0)), Z.eqb_refl by done. simpl. by destruct (amt =? 0).
Qed.

(** ** Witnesses *)

(** The library functions for closed runs: a call is encoded as its selector
    followed by its arguments, and the signature's first component is the
    signer. *)
Definition example_decode (sel : Erc20Selector) (data : Bytes) : option (params sel) :=
  match sel return option (params sel) with
  | Name | Symbol | Decimals | TotalSupply => Some tt
  | BalanceOf => match data with [_; _; _; _; a] => Some a | _ => None end
  | Allowance => match data with [_; _; _; _; a; b] => Some (a, b) | _ => None end
  | Transfer | Approve | Mint | BurnFrom =>
      match data with [_; _; _; _; a; v] => Some (a, v) | _ => None end
  | TransferFrom => match data with [_; _; _; _; a; b; v] => Some (a, b, v) | _ => None end
  | Burn => match data with [_; _; _; _; v] => Some v | _ => None end
  | TransferWithAuthorization | ReceiveWithAuthorization =>
      match data with
      | [_; _; _; _; a; b; v; va; vb; n; yv; r; s] =>
          Some {| auth_from := a; auth_to := b; auth_value := v; auth_valid_after := va;
                  auth_valid_before := vb; auth_nonce := n; auth_v := yv; auth_r := r; auth_s := s |}
      | _ => None
      end
  | CancelAuthorization =>
      match data with [_; _; _; _; a; n; v; r; s] => Some (a, n, v, r, s) | _ => None end
  end.

Definition example_selector (sel : Erc20Selector) : Bytes :=
  [0; 0; 0; match sel with
            | Name => 0 | Symbol => 1 | Decimals => 2 | TotalSupply => 3 | BalanceOf => 4
            | Allowance => 5 | Transfer => 6 | Approve => 7 | TransferFrom => 8 | Mint => 9
            | Burn => 10 | BurnFrom => 11 | TransferWithAuthorization => 12
            | ReceiveWithAuthorization => 13 | CancelAuthorization => 14
            end].

Definition example_keccak (x : Bytes) : B256 :=
  if (length x =? 32)%nat then 0
  else (nth 31 x 0 * 2 ^ 16 + nth 61 x 0 * 2 ^ 8 + nth 63 x 0 + 1) mod 2 ^ 256.

#[local] Instance example_lib : EvmLib := {|
  keccak256 := example_keccak; SELECTOR := example_selector; abi_decode := example_decode;
  eip712_signing_hash := fun _ _ => 0;
  recover_address_from_prehash := fun r _ _ _ => Some r;
  KECCAK_EMPTY := 1; error_text := fun _ _ => []
|}.

(** The strings hashed for finitely many accounts and nonces. *)
Definition preimages (X N : list Z) : list Bytes :=
  TOTAL_SUPPLY_PREFIX ::
  ((fun a => repeat 0 12 ++ to_be_bytes 20 a ++ to_be_bytes 32 ALLOWANCES_BASE_SLOT) <$> X) ++
  ((fun a => repeat 0 12 ++ to_be_bytes 20 a ++ to_be_bytes 32 AUTHORIZATION_NONCES_BASE_SLOT) <$> X) ++
  (X ≫= fun o => (fun s => repeat 0 12 ++ to_be_bytes 20 s
     ++ to_be_bytes 32 (mapping_slot_address o ALLOWANCES_BASE_SLOT)) <$> X) ++
  (X ≫= fun a => (fun n => to_be_bytes 32 n
     ++ to_be_bytes 32 (mapping_slot_address a AUTHORIZATION_NONCES_BASE_SLOT)) <$> N).

Lemma preimage_elem X N x : preimage (fun a => a ∈ X) (fun n => n ∈ N) x -> x ∈ preimages X N.
Proof.
  unfold preimages. intros [|a Ha|a Ha|o s Ho Hs|a n Ha Hn]; [left|right..];
    rewrite !elem_of_app, !list_elem_of_fmap, !list_elem_of_bind.
  - left. by exists a.
  - right. left. by exists a.
  - right. right. left. exists o. split; [|done]. apply list_elem_of_fmap. by exists s.
  - right. right. right. exists a. split; [|done]. apply list_elem_of_fmap. by exists n.
Qed.

Definition example_accounts : list Address := [1; 2; 3; MINTING_MODULE_ADDRESS].
Definition example_nonces : list B256 := [7; 8].

Lemma example_no_collision : NoDup (example_keccak <$> preimages example_accounts example_nonces).
Proof. apply (bool_decide_unpack _). vm_compute. exact I. Qed.

Lemma example_keccak_ok : keccak_ok (fun a => a ∈ example_accounts) (fun n => n ∈ example_nonces).
Proof.
  split.
  - intros x. enough (0 <= example_keccak x < 2 ^ 256) as Hx.
    { change (keccak256 x) with (example_keccak x). unfold u256_max. lia. }
    unfold example_keccak. destruct (_ =? _)%nat; [by vm_compute|]. apply Z.mod_pos_bound. lia.
  - intros x y [i Hi]%preimage_elem%list_elem_of_lookup [j Hj]%preimage_elem%list_elem_of_lookup Heq.
    assert (i = j) as ->; [|congruence]. eapply NoDup_lookup; [exact example_no_collision| |];
      rewrite list_lookup_fmap; [by rewrite Hi|]. rewrite Hj. simpl. f_equal. symmetry. exact Heq.
  - apply Forall_forall, (bool_decide_unpack _). vm_compute. exact I.
  - apply Forall_forall, (bool_decide_unpack _). vm_compute. exact I.
Qed.

Definition example_token : Erc20Precompile :=
  Erc20Precompile_new {| cfg_name := []; cfg_symbol := []; cfg_decimals := 18; cfg_version := [] |}
    ERC20_PRECOMPILE_ADDRESS 1.

(** Accounts 1 and 2 hold 100 and 50 of a supply of 150. *)
Definition example_journal : Journal :=
  {| j_world := {| w_accounts := {[1 := {| balance := 100; nonce := 1; code_hash := 1 |};
                                   2 := {| balance := 50; nonce := 0; code_hash := 1 |}]};
                   w_storage := {[(ERC20_PRECOMPILE_ADDRESS, total_supply_slot) := 150]};
                   w_touched := ∅; w_logs := []; w_timestamp := 10 |};
     j_faulty := ∅ |}.

(** A direct call of [caller] with the given calldata. *)
Definition example_input (caller : Address) (sel : Erc20Selector) (args : list Z) : PrecompileInput :=
  {| in_data := example_selector sel ++ args; in_gas := 100000; in_caller := caller; in_value := 0;
     in_is_static := false; in_is_direct_call := true; in_block_number := 14000000 |}.

Definition example_activation : RaylsHardFork -> ForkCondition :=
  rayls_fork_activation (RaylsChainHardforks_new mainnet).

Abbreviation example_ok c i :=
  (input_ok_decodes (fun a => a ∈ example_accounts) (fun n => n ∈ example_nonces) i c
     ltac:(vm_compute; split_and!; reflexivity)
     ltac:(unfold call_ok; simpl; split_and?;
           (apply (bool_decide_unpack _); vm_compute; exact I) || (vm_compute; discriminate)))
  (only parsing).

(** A transfer of 30 from account 1 to account 3. *)
Definition example_transfer : PrecompileInput := example_input 1 Transfer [3; 30].

Lemma example_transfer_ok :
  input_ok (fun a => a ∈ example_accounts) (fun n => n ∈ example_nonces) example_transfer.
Proof.
  exact (example_ok {| c_caller := 1; c_sel := Transfer; c_params := (3, 30) |} example_transfer).
Qed.

(** An authorization of account 2, with nonce 7, for account 3. *)
Definition example_auth : PrecompileInput :=
  example_input 1 TransferWithAuthorization [2; 3; 20; 5; 15; 7; 27; 2; 1].
Definition example_auth_call : Call :=
  {| c_caller := 1; c_sel := TransferWithAuthorization;
     c_params := {| auth_from := 2; auth_to := 3; auth_value := 20; auth_valid_after := 5;
                    auth_valid_before := 15; auth_nonce := 7; auth_v := 27; auth_r := 2; auth_s := 1 |} |}.

Lemma example_auth_decodes : decodes example_auth example_auth_call.
Proof. vm_compute. split_and!; reflexivity. Qed.

Lemma example_auth_ok :
  input_ok (fun a => a ∈ example_accounts) (fun n => n ∈ example_nonces) example_auth.
Proof. exact (example_ok example_auth_call example_auth). Qed.


Lemma supply_matches_balances_witness :
  let l' := ledger example_token (world (run_frames example_activation example_token
              example_journal [example_transfer; example_auth])) in
  ledger_total l' example_accounts - l_supply l' = 0.
Proof.
  intros l'. unfold l'.
  rewrite (supply_matches_balances example_activation example_token example_accounts
    (fun n => n ∈ example_nonces) [example_transfer; example_auth] example_journal).
  - vm_compute. reflexivity.
  - apply (bool_decide_unpack _). vm_compute. exact I.
  - apply example_keccak_ok.
  - constructor; [apply example_transfer_ok|]. constructor; [apply example_auth_ok|constructor].
Defined.

Lemma debits_need_consent_witness :
  exists c, decodes example_auth c /\
    consented (domain example_token) (ledger example_token (world example_journal)) c 2.
Proof.
  destruct (debits_need_consent example_activation example_token (fun a => a ∈ example_accounts)
    (fun n => n ∈ example_nonces) example_auth example_journal 2) as (c & Hc & Hco & _).
  - apply example_keccak_ok.
  - apply example_auth_ok.
  - vm_compute. reflexivity.
  - exists c. split; assumption.
Defined.

Lemma authorization_used_once_witness :
  let s1 := fst (run_frame example_activation example_token example_auth example_journal) in
  succeeded (snd (run_frame example_activation example_token example_auth
    (run_frames example_activation example_token s1 [example_transfer]))) = false.
Proof.
  apply (authorization_used_once example_activation example_token (fun a => a ∈ example_accounts)
    (fun n => n ∈ example_nonces) example_auth example_auth_call 2 7 [example_transfer] example_auth
    example_auth_call example_journal).
  - apply example_keccak_ok.
  - apply example_auth_ok.
  - constructor; [apply example_transfer_ok|constructor].
  - apply example_auth_ok.
  - apply (bool_decide_unpack _). vm_compute. exact I.
  - apply (bool_decide_unpack _). vm_compute. exact I.
  - apply example_auth_decodes.
  - vm_compute. reflexivity.
  - apply example_auth_decodes.
  - vm_compute. reflexivity.
  - vm_compute. reflexivity.
Defined.

Lemma self_transfer_unchecked_witness :
  handle_transfer example_token 3 3 1000 false example_journal =
  (example_journal, Ret {| gas_used := GAS_TRANSFER; bytes := encode_bool true |}).
Proof. apply self_transfer_unchecked. discriminate. Defined.
