(* ===== verification/MemDb.v ===== *)
(** * The in-memory tier of the consensus database

    [MemDatabase] (storage/src/mem_db.rs): cached rows with a packed word that
    holds a tombstone bit and the number of writer operations in flight, the
    reads and writes of the cache, and the eviction of settled rows in recency
    order. Clocks ([now_nanos]) are arguments; metrics and their thread are not
    modelled. *)
From S2P Require Import Prelude State.
From stdpp Require Import strings.

#[local] Open Scope Z_scope.

(** ** Keys and values as bytes *)

(** [Ord] of byte slices: lexicographic. *)
Fixpoint bytes_cmp (a b : Bytes) : comparison :=
  match a, b with
  | [], [] => Eq
  | [], _ :: _ => Lt
  | _ :: _, [] => Gt
  | x :: a', y :: b' =>
      match x ?= y with
      | Eq => bytes_cmp a' b'
      | c => c
      end
  end.

Definition bytes_leb (a b : Bytes) : bool :=
  match bytes_cmp a b with Gt => false | _ => true end.

Definition row_le {A} (x y : Bytes * A) : Prop := bytes_leb x.1 y.1 = true.
#[export] Instance row_le_dec {A} : RelDecision (@row_le A).
Proof. intros x y. unfold row_le. apply _. Defined.

(** Iterating a [BTreeMap<Vec<u8>, A>]: ascending keys. *)
Definition rows_list {A} (m : gmap Bytes A) : list (Bytes * A) :=
  merge_sort row_le (map_to_list m).

(** The encodings of codec.rs: bincode for keys, BCS for values. The tables of
    the code have each their own key and value type; [Key] and [Value] stand
    for the sums of these types. *)
Class Codec := {
  Key : Type;
  Value : Type;
  key_cmp : Key -> Key -> comparison;
  encode_key : Key -> Bytes;
  decode_key : Bytes -> option Key;
  encode : Value -> Bytes;
  decode : Bytes -> option Value
}.

(** What the storage relies on: decoding inverts encoding, and encoded keys
    sort like the keys. *)
Class CodecOk `{!Codec} := {
  decode_encode_key : forall k, decode_key (encode_key k) = Some k;
  decode_encode : forall v, decode (encode v) = Some v;
  encode_key_cmp : forall a b, bytes_cmp (encode_key a) (encode_key b) = key_cmp a b
}.

(** [eyre::Report]: its text. *)
Abbreviation Report := string.

(** ** Rows *)

Definition TOMBSTONE_BIT : Z := 1.
Definition IN_FLIGHT_UNIT : Z := Z.shiftl 1 TOMBSTONE_BIT.
(** 100 ms in nanoseconds. *)
Definition RECENCY_BUMP_THRESHOLD : Z := 100 * 1000000.

Record StoreEntry := { value : Bytes; packed : Z; last_used : Z }.

Definition set_value (v : Bytes) (e : StoreEntry) : StoreEntry :=
  {| value := v; packed := packed e; last_used := last_used e |}.
Definition set_packed (p : Z) (e : StoreEntry) : StoreEntry :=
  {| value := value e; packed := p; last_used := last_used e |}.
Definition set_last_used (t : Z) (e : StoreEntry) : StoreEntry :=
  {| value := value e; packed := packed e; last_used := t |}.

Definition StoreEntry_new (now : Z) (v : Bytes) : StoreEntry :=
  {| value := v; packed := 0; last_used := now |}.

Definition tombstoned (e : StoreEntry) : bool := negb (Z.land (packed e) TOMBSTONE_BIT =? 0).

Definition in_flight (e : StoreEntry) : Z := Z.shiftr (packed e) TOMBSTONE_BIT.

Definition mark_tombstone (e : StoreEntry) : StoreEntry :=
  set_packed (Z.lor (packed e) TOMBSTONE_BIT) e.

Definition clear_tombstone (e : StoreEntry) : StoreEntry :=
  set_packed (Z.land (packed e) (Z.lxor u32_max TOMBSTONE_BIT)) e.

Definition add_in_flight {E} (e : StoreEntry) : Exec E StoreEntry :=
  p ← uadd u32_max (packed e) IN_FLIGHT_UNIT; mret (set_packed p e).

Definition dec_in_flight {E} (e : StoreEntry) : Exec E StoreEntry :=
  p ← usub (packed e) IN_FLIGHT_UNIT; mret (set_packed p e).

Definition touch_approximately (now : Z) (e : StoreEntry) : StoreEntry :=
  if RECENCY_BUMP_THRESHOLD <=? sat_sub now (last_used e) then set_last_used now e else e.

Definition entry_touch (now : Z) (e : StoreEntry) : StoreEntry := set_last_used now e.

(** ** Tables *)

Record StoreTable := { rows : gmap Bytes StoreEntry; clearing : bool }.

Definition StoreTable_new : StoreTable := {| rows := ∅; clearing := false |}.

Definition set_rows (m : gmap Bytes StoreEntry) (t : StoreTable) : StoreTable :=
  {| rows := m; clearing := clearing t |}.
Definition set_clearing (b : bool) (t : StoreTable) : StoreTable :=
  {| rows := rows t; clearing := b |}.

Abbreviation StoreType := (gmap string StoreTable).

Definition open_table (name : string) (store : StoreType) : StoreType :=
  <[name := StoreTable_new]> store.

(** The row of a key, if its table is open and holds one. *)
Definition row_of (store : StoreType) (name : string) (kb : Bytes) : option StoreEntry :=
  store !! name ≫= fun t => rows t !! kb.

Definition put_row (name : string) (kb : Bytes) (e : StoreEntry) (store : StoreType) : StoreType :=
  match store !! name with
  | Some t => <[name := set_rows (<[kb := e]> (rows t)) t]> store
  | None => store
  end.

Definition drop_row (name : string) (kb : Bytes) (store : StoreType) : StoreType :=
  match store !! name with
  | Some t => <[name := set_rows (base.delete kb (rows t)) t]> store
  | None => store
  end.

(** [EvictionHeap]: a [BinaryHeap] of [Reverse] entries pops the smallest one;
    the order of the list is irrelevant. *)
Abbreviation HeapEntry := (Z * string * Bytes)%type.
Abbreviation EvictionHeap := (list HeapEntry).

(** ** Writes *)

Section writes.
Context `{!Codec}.
Implicit Types store : StoreType.

Abbreviation R := (Exec Report).

(** [insert_impl]: value replaced, tombstone cleared, one operation in flight. *)
Definition insert_impl (now : Z) (name : string) (k : Key) (v : Value) (store : StoreType) :
    R StoreType :=
  match store !! name with
  | None => Err ("Invalid table " +:+ name)
  | Some t =>
      let kb := encode_key k in
      match rows t !! kb with
      | Some e =>
          e' ← add_in_flight (clear_tombstone (set_value (encode v) e));
          mret (put_row name kb (entry_touch now e') store)
      | None =>
          e ← add_in_flight (StoreEntry_new now (encode v));
          mret (put_row name kb e store)
      end
  end.

(** [remove_impl]: a tombstone, also for a key that only the lower tier has. *)
Definition remove_impl (now : Z) (name : string) (k : Key) (store : StoreType) : R StoreType :=
  match store !! name with
  | None => Err ("Invalid table " +:+ name)
  | Some t =>
      let kb := encode_key k in
      match rows t !! kb with
      | Some e =>
          e' ← add_in_flight (mark_tombstone e);
          mret (put_row name kb (entry_touch now e') store)
      | None =>
          e ← add_in_flight (mark_tombstone (StoreEntry_new now []));
          mret (put_row name kb e store)
      end
  end.

(** The loop of [clear_table_impl] over the rows. *)
Fixpoint clear_rows (l : list (Bytes * StoreEntry)) (m : gmap Bytes StoreEntry) :
    R (gmap Bytes StoreEntry) :=
  match l with
  | [] => mret m
  | (kb, e) :: l' =>
      e' ← add_in_flight (mark_tombstone e);
      clear_rows l' (<[kb := e']> m)
  end.

(** [clear_table_impl]: every row becomes a tombstone in flight and the table is
    marked; the keys go to the writer. *)
Definition clear_table_impl (name : string) (store : StoreType) : R (list Bytes * StoreType) :=
  match store !! name with
  | None => Err ("Invalid table " +:+ name)
  | Some t =>
      let keys := (rows_list (rows t)).*1 in
      m ← clear_rows (rows_list (rows t)) (rows t);
      mret (keys, <[name := {| rows := m; clearing := true |}]> store)
  end.

(** [MemDbTxMut::hard_delete] *)
Definition hard_delete (name : string) (k : Key) (store : StoreType) : StoreType :=
  drop_row name (encode_key k) store.

(** [MemDbTxMut::raw_keys] *)
Definition raw_keys (name : string) (store : StoreType) : list Bytes :=
  match store !! name with
  | Some t => (rows_list (rows t)).*1
  | None => []
  end.

(** ** Eviction *)

Definition heap_leb (x y : HeapEntry) : bool :=
  match x.1.1 ?= y.1.1 with
  | Lt => true
  | Gt => false
  | Eq => match String.compare x.1.2 y.1.2 with
          | Lt => true
          | Gt => false
          | Eq => bytes_leb x.2 y.2
          end
  end.

Fixpoint heap_pop (h : EvictionHeap) : option (HeapEntry * EvictionHeap) :=
  match h with
  | [] => None
  | x :: h' =>
      match heap_pop h' with
      | None => Some (x, [])
      | Some (y, r) => if heap_leb x y then Some (x, h') else Some (y, x :: r)
      end
  end.

(** [MemDatabase::on_op_applied]: one operation less in flight; a settled row
    becomes a candidate for eviction. *)
Definition on_op_applied (name : string) (kb : Bytes) (sh : StoreType * EvictionHeap) :
    R (StoreType * EvictionHeap) :=
  let (store, heap) := sh in
  match row_of store name kb with
  | None => mret (store, heap)
  | Some e =>
      e' ← dec_in_flight e;
      mret (put_row name kb e' store,
            if in_flight e' =? 0 then (last_used e', name, kb) :: heap else heap)
  end.

Fixpoint release_keys (name : string) (keys : list Bytes) (sh : StoreType * EvictionHeap) :
    R (StoreType * EvictionHeap) :=
  match keys with
  | [] => mret sh
  | kb :: keys' => sh' ← on_op_applied name kb sh; release_keys name keys' sh'
  end.

(** [MemDatabase::on_clear_applied]: the flag goes down and every key that the
    clear covered is released. *)
Definition on_clear_applied (name : string) (keys : list Bytes) (sh : StoreType * EvictionHeap) :
    R (StoreType * EvictionHeap) :=
  let (store, heap) := sh in
  match store !! name with
  | None => mret (store, heap)
  | Some t => release_keys name keys (<[name := set_clearing false t]> store, heap)
  end.

(** [MemDatabase::mem_size] *)
Definition mem_size (store : StoreType) : Z :=
  zsum ((fun nt => Z.of_nat (size (rows nt.2))) <$> map_to_list store).

Record EvictionStats := { before : Z; after : Z; evicted : Z }.

(** The loop of [evict_if_needed]. A popped entry whose row was read since is
    pushed back with the fresh clock. *)
Fixpoint evict_loop (fuel : nat) (store : StoreType) (heap : EvictionHeap)
    (total evict_until evicted : Z) : R (StoreType * EvictionHeap * (Z * Z)) :=
  if total <=? evict_until then mret (store, heap, (total, evicted))
  else match fuel with
  | O => Diverge
  | S fuel' =>
      match heap_pop heap with
      | None => mret (store, heap, (total, evicted))
      | Some (heap_last_used, name, kb, heap') =>
          match row_of store name kb with
          | None => evict_loop fuel' store heap' total evict_until evicted
          | Some e =>
              if negb (in_flight e =? 0)
              then evict_loop fuel' store heap' total evict_until evicted
              else if negb (last_used e =? heap_last_used)
              then evict_loop fuel' store ((last_used e, name, kb) :: heap') total evict_until evicted
              else evict_loop fuel' (drop_row name kb store) heap' (total - 1) evict_until
                     (evicted + 1)
          end
      end
  end.

(** [MemDatabase::evict_if_needed]. Every pop removes an entry and pushes it
    back at most once, so twice the heap bounds the iterations. *)
Definition evict_if_needed (max_size : Z) (store : StoreType) (heap : EvictionHeap) :
    R (StoreType * EvictionHeap * EvictionStats) :=
  if Z.of_nat (length heap) <? Z.shiftr max_size 1
  then mret (store, heap, {| before := 0; after := 0; evicted := 0 |})
  else
    let total := mem_size store in
    if total <=? max_size
    then mret (store, heap, {| before := total; after := total; evicted := 0 |})
    else
      '(store', heap', (total', ev)) ←
        evict_loop (S (2 * length heap)) store heap total (Z.shiftr max_size 3) 0;
      mret (store', heap', {| before := total' + ev; after := total'; evicted := ev |}).

End writes.

(** ** Reads *)

Section reads.
Context `{!Codec}.
Implicit Types store : StoreType.

Abbreviation R := (Exec Report).

(** A read refreshes the recency clock of the row. *)
Definition touch_row (now : Z) (name : string) (kb : Bytes) (store : StoreType) : StoreType :=
  match row_of store name kb with
  | Some e => put_row name kb (touch_approximately now e) store
  | None => store
  end.

(** [MemDbTx::get_no_marked_check]: the mark and the decoded value, also of a
    tombstone. *)
Definition get_no_marked_check (now : Z) (name : string) (k : Key) (store : StoreType) :
    R (option (bool * Value) * StoreType) :=
  match row_of store name (encode_key k) with
  | None => mret (None, store)
  | Some e =>
      v ← expect (decode (value e));
      mret (Some (tombstoned e, v),
            if tombstoned e then store else touch_row now name (encode_key k) store)
  end.

(** [MemDbTx::is_tombstoned] *)
Definition is_tombstoned (name : string) (k : Key) (store : StoreType) : bool :=
  match row_of store name (encode_key k) with
  | Some e => tombstoned e
  | None => false
  end.

(** [MemDbTx::is_clearing] *)
Definition is_clearing (name : string) (store : StoreType) : bool :=
  match store !! name with
  | Some t => clearing t
  | None => false
  end.

(** [get_with_marked_check] *)
Definition get_with_marked_check (now : Z) (name : string) (k : Key) (store : StoreType) :
    R (option Value * StoreType) :=
  match row_of store name (encode_key k) with
  | Some e =>
      if tombstoned e then mret (None, store)
      else v ← expect (decode (value e));
           mret (Some v, touch_row now name (encode_key k) store)
  | None => mret (None, store)
  end.

(** [contains_key_impl] *)
Definition contains_key_impl (now : Z) (name : string) (k : Key) (store : StoreType) :
    bool * StoreType :=
  match row_of store name (encode_key k) with
  | Some e => if tombstoned e then (false, store)
              else (true, touch_row now name (encode_key k) store)
  | None => (false, store)
  end.

(** [collect_typed]: the live rows, decoded. *)
Fixpoint collect_typed (l : list (Bytes * StoreEntry)) : R (list (Key * Value)) :=
  match l with
  | [] => mret []
  | (kb, e) :: l' =>
      if tombstoned e then collect_typed l'
      else k ← expect (decode_key kb); v ← expect (decode (value e));
           rest ← collect_typed l'; mret ((k, v) :: rest)
  end.

(** [collect_raw_owned] and [collect_raw_borrowed] *)
Definition collect_raw (l : list (Bytes * StoreEntry)) : list (Bytes * Bytes) :=
  (fun r => (r.1, value r.2)) <$> filter (fun r => tombstoned r.2 = false) l.

(** [table.rows.range(key..)] and [table.rows.range(..key)] *)
Definition range_from (kb : Bytes) (l : list (Bytes * StoreEntry)) : list (Bytes * StoreEntry) :=
  filter (fun r => bytes_leb kb r.1 = true) l.
Definition range_to (kb : Bytes) (l : list (Bytes * StoreEntry)) : list (Bytes * StoreEntry) :=
  filter (fun r => bytes_leb kb r.1 = false) l.

Definition table_rows (name : string) (store : StoreType) : option (list (Bytes * StoreEntry)) :=
  (fun t => rows_list (rows t)) <$> store !! name.

(** [iter_impl], [reverse_iter_impl] and [skip_to_impl]; [None] for a table that
    is not open. *)
Definition iter_impl (name : string) (store : StoreType) : R (option (list (Key * Value))) :=
  match table_rows name store with
  | Some l => r ← collect_typed l; mret (Some r)
  | None => mret None
  end.

Definition reverse_iter_impl (name : string) (store : StoreType) :
    R (option (list (Key * Value))) :=
  match table_rows name store with
  | Some l => r ← collect_typed (reverse l); mret (Some r)
  | None => mret None
  end.

Definition skip_to_impl (name : string) (k : Key) (store : StoreType) :
    R (option (list (Key * Value))) :=
  match table_rows name store with
  | Some l => r ← collect_typed (range_from (encode_key k) l); mret (Some r)
  | None => mret None
  end.

(** [raw_iter_owned_impl], [reverse_raw_iter_owned_impl] *)
Definition raw_iter_impl (name : string) (store : StoreType) : option (list (Bytes * Bytes)) :=
  collect_raw <$> table_rows name store.

Definition reverse_raw_iter_impl (name : string) (store : StoreType) :
    option (list (Bytes * Bytes)) :=
  (fun l => collect_raw (reverse l)) <$> table_rows name store.

(** The first live row of a list, decoded. *)
Fixpoint first_live (l : list (Bytes * StoreEntry)) : R (option (Key * Value)) :=
  match l with
  | [] => mret None
  | (kb, e) :: l' =>
      if tombstoned e then first_live l'
      else k ← expect (decode_key kb); v ← expect (decode (value e)); mret (Some (k, v))
  end.

(** [last_record_impl] and [record_prior_to_impl] *)
Definition last_record_impl (name : string) (store : StoreType) : R (option (Key * Value)) :=
  match table_rows name store with
  | Some l => first_live (reverse l)
  | None => mret None
  end.

Definition record_prior_to_impl (name : string) (k : Key) (store : StoreType) :
    R (option (Key * Value)) :=
  match table_rows name store with
  | Some l => first_live (reverse (range_to (encode_key k) l))
  | None => mret None
  end.

(** [MemDatabase::is_empty] *)
Definition mem_is_empty (name : string) (store : StoreType) : bool :=
  match store !! name with
  | Some t => forallb (fun r => tombstoned r.2) (rows_list (rows t))
  | None => true
  end.

End reads.

(** ** Lemmas on rows *)

Lemma packed_split e :
  packed e = 2 * in_flight e + (if tombstoned e then 1 else 0).
Proof.
  unfold in_flight, tombstoned, TOMBSTONE_BIT.
  rewrite Z.shiftr_div_pow2, (Z.land_ones _ 1) by lia. change (2 ^ 1) with 2.
  pose proof (Z.div_mod (packed e) 2). pose proof (Z.mod_pos_bound (packed e) 2).
  destruct (Z.eqb_spec (packed e mod 2) 0); simpl; lia.
Qed.

Lemma packed_join e n (b : bool) :
  packed e = 2 * n + (if b then 1 else 0) -> in_flight e = n /\ tombstoned e = b.
Proof. intros Hp. pose proof (packed_split e). destruct b, (tombstoned e); lia. Qed.

Lemma lor_1 p : Z.lor p 1 = 2 * (p / 2) + 1.
Proof.
  apply Z.bits_inj'. intros n Hn. rewrite Z.lor_spec.
  destruct (Z.eq_dec n 0) as [->|Hn0].
  - rewrite Z.testbit_odd_0. by rewrite orb_true_r.
  - replace n with (Z.succ (n - 1)) by lia. rewrite Z.testbit_odd_succ by lia.
    rewrite (Z.testbit_odd_succ 0) by lia. rewrite Z.bits_0, orb_false_r.
    rewrite <- (Z.div2_div p), Z.div2_spec, Z.shiftr_spec by lia. f_equal.
Qed.

Lemma land_not_1 p : 0 <= p <= u32_max -> Z.land p (Z.lxor u32_max 1) = 2 * (p / 2).
Proof.
  intros Hp. change (Z.lxor u32_max 1) with (2 * Z.ones 31).
  apply Z.bits_inj'. intros n Hn. rewrite Z.land_spec.
  destruct (Z.eq_dec n 0) as [->|Hn0].
  - rewrite !Z.testbit_even_0. by rewrite andb_false_r.
  - replace n with (Z.succ (n - 1)) by lia. rewrite !Z.testbit_even_succ by lia.
    rewrite <- (Z.div2_div p), Z.div2_spec, Z.shiftr_spec by lia.
    replace (n - 1 + 1) with (Z.succ (n - 1)) by lia.
    rewrite (Z.testbit_ones 31) by lia.
    destruct (Z.ltb_spec (n - 1) 31); [rewrite (proj2 (Z.leb_le 0 (n - 1))) by lia; apply andb_true_r|].
    rewrite andb_false_r. symmetry. rewrite andb_false_r.
    destruct (Z.eq_dec p 0) as [->|]; [by rewrite Z.bits_0|].
    apply Z.bits_above_log2; [lia|].
    apply Z.log2_lt_pow2; [lia|]. pose proof (Z.pow_le_mono_r 2 32 (Z.succ (n - 1))). unfold u32_max in *. lia.
Qed.

(** The packed word of every row is a [u32]. *)
Definition entry_wf (e : StoreEntry) : Prop := 0 <= packed e <= u32_max.

Definition store_wf (store : StoreType) : Prop :=
  forall name kb e, row_of store name kb = Some e -> entry_wf e.

Lemma in_flight_nonneg e : entry_wf e -> 0 <= in_flight e.
Proof. unfold entry_wf. pose proof (packed_split e). destruct (tombstoned e); lia. Qed.

Lemma in_flight_set_value v e : in_flight (set_value v e) = in_flight e.
Proof. done. Qed.

Lemma mark_tombstone_spec e : entry_wf e ->
  entry_wf (mark_tombstone e) /\ in_flight (mark_tombstone e) = in_flight e /\
  tombstoned (mark_tombstone e) = true.
Proof.
  unfold entry_wf. intros He. pose proof (packed_split e) as Hs.
  assert (packed (mark_tombstone e) = 2 * in_flight e + 1) as Hp.
  { simpl. unfold TOMBSTONE_BIT. rewrite lor_1. f_equal. f_equal.
    unfold in_flight. by rewrite Z.shiftr_div_pow2. }
  pose proof (packed_join (mark_tombstone e) (in_flight e) true Hp). split; [|tauto].
  rewrite Hp. destruct (tombstoned e); unfold u32_max in *; lia.
Qed.

Lemma clear_tombstone_spec e : entry_wf e ->
  entry_wf (clear_tombstone e) /\ in_flight (clear_tombstone e) = in_flight e /\
  tombstoned (clear_tombstone e) = false.
Proof.
  unfold entry_wf. intros He. pose proof (packed_split e) as Hs.
  assert (packed (clear_tombstone e) = 2 * in_flight e + 0) as Hp.
  { simpl. unfold TOMBSTONE_BIT. rewrite land_not_1 by done.
    unfold in_flight. rewrite Z.shiftr_div_pow2 by done. change (2 ^ TOMBSTONE_BIT) with 2. lia. }
  pose proof (packed_join (clear_tombstone e) (in_flight e) false Hp). split; [|tauto].
  rewrite Hp. destruct (tombstoned e); lia.
Qed.

Lemma add_in_flight_Ret {E} e e' : entry_wf e -> add_in_flight (E := E) e = Ret e' ->
  entry_wf e' /\ in_flight e' = in_flight e + 1 /\ tombstoned e' = tombstoned e /\
  value e' = value e /\ last_used e' = last_used e.
Proof.
  unfold add_in_flight, entry_wf. intros He Hr. exec_simpl. change IN_FLIGHT_UNIT with 2 in *.
  pose proof (packed_split e) as Hs.
  assert (packed e + 2 = 2 * (in_flight e + 1) + (if tombstoned e then 1 else 0)) as Hp by lia.
  destruct (packed_join (set_packed (packed e + 2) e) _ _ Hp). simpl. repeat split; try done; lia.
Qed.

(** The count overflows only with [2^31 - 1] operations in flight. *)
Lemma add_in_flight_total {E} e : entry_wf e -> in_flight e < 2 ^ 31 - 1 ->
  exists e', add_in_flight (E := E) e = Ret e'.
Proof.
  unfold add_in_flight, uadd, entry_wf, u32_max. change IN_FLIGHT_UNIT with 2. intros He Hi.
  pose proof (packed_split e). rewrite (proj2 (Z.leb_le _ _)); [by eexists|].
  destruct (tombstoned e); lia.
Qed.

Lemma dec_in_flight_spec {E} e : entry_wf e -> 0 < in_flight e ->
  exists e', dec_in_flight (E := E) e = Ret e' /\ entry_wf e' /\ in_flight e' = in_flight e - 1 /\
    tombstoned e' = tombstoned e /\ value e' = value e /\ last_used e' = last_used e.
Proof.
  unfold dec_in_flight, usub, entry_wf. change IN_FLIGHT_UNIT with 2. intros He Hi.
  pose proof (packed_split e) as Hs.
  rewrite (proj2 (Z.leb_le _ _)) by (destruct (tombstoned e); lia). simpl. eexists. split; [done|].
  assert (packed e - 2 = 2 * (in_flight e - 1) + (if tombstoned e then 1 else 0)) as Hp by lia.
  destruct (packed_join (set_packed (packed e - 2) e) _ _ Hp). simpl.
  repeat split; try done; destruct (tombstoned e); lia.
Qed.

(** ** Lemmas on tables *)

Lemma row_of_put_row store name kb e name' kb' : is_Some (store !! name) ->
  row_of (put_row name kb e store) name' kb' =
    if decide (name' = name /\ kb' = kb) then Some e else row_of store name' kb'.
Proof.
  intros [t Ht]. unfold row_of, put_row. rewrite Ht.
  destruct (decide (name' = name)) as [->|Hn].
  - rewrite lookup_insert_eq, Ht. simpl. destruct (decide (kb' = kb)) as [->|Hk].
    + rewrite lookup_insert_eq. by rewrite decide_True.
    + rewrite lookup_insert_ne by done. by rewrite decide_False by tauto.
  - rewrite lookup_insert_ne by done. by rewrite decide_False by tauto.
Qed.

Lemma row_of_drop_row store name kb name' kb' :
  row_of (drop_row name kb store) name' kb' =
    if decide (name' = name /\ kb' = kb) then None else row_of store name' kb'.
Proof.
  unfold row_of, drop_row. destruct (store !! name) as [t|] eqn:Ht.
  - destruct (decide (name' = name)) as [->|Hn].
    + rewrite lookup_insert_eq, Ht. simpl. destruct (decide (kb' = kb)) as [->|Hk].
      * rewrite lookup_delete_eq. by rewrite decide_True.
      * rewrite lookup_delete_ne by done. by rewrite decide_False by tauto.
    + rewrite lookup_insert_ne by done. by rewrite decide_False by tauto.
  - case_decide as Hd; [|done]. destruct Hd as [-> ->]. by rewrite Ht.
Qed.

Lemma is_clearing_put_row store name kb e name' :
  is_clearing name' (put_row name kb e store) = is_clearing name' store.
Proof.
  unfold is_clearing, put_row. destruct (store !! name) as [t|] eqn:Ht; [|done].
  destruct (decide (name' = name)) as [->|Hn];
    [by rewrite lookup_insert_eq, Ht|by rewrite lookup_insert_ne].
Qed.

Lemma is_clearing_drop_row store name kb name' :
  is_clearing name' (drop_row name kb store) = is_clearing name' store.
Proof.
  unfold is_clearing, drop_row. destruct (store !! name) as [t|] eqn:Ht; [|done].
  destruct (decide (name' = name)) as [->|Hn];
    [by rewrite lookup_insert_eq, Ht|by rewrite lookup_insert_ne].
Qed.

Lemma row_of_open store name kb e : row_of store name kb = Some e -> is_Some (store !! name).
Proof. unfold row_of. by destruct (store !! name). Qed.

Lemma open_put_row store name kb e name' :
  is_Some (put_row name kb e store !! name') <-> is_Some (store !! name').
Proof.
  unfold put_row. destruct (store !! name) as [t|] eqn:Ht; [|done].
  destruct (decide (name' = name)) as [->|Hn];
    [rewrite lookup_insert_eq, Ht; by split|by rewrite lookup_insert_ne].
Qed.

Lemma open_drop_row store name kb name' :
  is_Some (drop_row name kb store !! name') <-> is_Some (store !! name').
Proof.
  unfold drop_row. destruct (store !! name) as [t|] eqn:Ht; [|done].
  destruct (decide (name' = name)) as [->|Hn];
    [rewrite lookup_insert_eq, Ht; by split|by rewrite lookup_insert_ne].
Qed.

(** ** The size of the cache and the eviction loop *)

Lemma mem_size_insert store name t t' : store !! name = Some t ->
  mem_size (<[name := t']> store) =
    mem_size store - Z.of_nat (size (rows t)) + Z.of_nat (size (rows t')).
Proof.
  intros Ht. unfold mem_size.
  rewrite <- (insert_delete_eq store name t'), (map_to_list_insert _ name t')
    by apply lookup_delete_eq.
  rewrite <- (map_to_list_delete store name t Ht). simpl. lia.
Qed.

Lemma mem_size_drop_row store name kb e : row_of store name kb = Some e ->
  mem_size (drop_row name kb store) = mem_size store - 1.
Proof.
  unfold row_of, drop_row. destruct (store !! name) as [t|] eqn:Ht; [simpl|done]. intros He.
  rewrite (mem_size_insert _ _ t) by done. simpl.
  rewrite (map_size_delete_Some kb (rows t)) by by eexists.
  assert (size (rows t) <> 0%nat) as Hsz
    by (intros Hz%map_size_empty_inv; by rewrite Hz, lookup_empty in He). lia.
Qed.

Lemma mem_size_nonneg store : 0 <= mem_size store.
Proof. apply zsum_nonneg, Forall_fmap, Forall_true. intros x. simpl. lia. Qed.

Lemma heap_pop_perm h x r : heap_pop h = Some (x, r) -> h ≡ₚ x :: r.
Proof.
  revert x r. induction h as [|y h IH]; intros x r; simpl; [done|].
  destruct (heap_pop h) as [[z r']|] eqn:Hp.
  - specialize (IH _ _ eq_refl). destruct (heap_leb y z); intros [= <- <-]; [done|].
    rewrite IH. constructor.
  - intros [= <- <-]. destruct h as [|z h]; [done|]. simpl in Hp. repeat case_match; done.
Qed.

Lemma heap_pop_None h : heap_pop h = None -> h = [].
Proof. destruct h; simpl; [done|]. intros. repeat case_match; done. Qed.

(** What holds of every iteration holds of the result. *)
Lemma evict_loop_ind (P : StoreType -> EvictionHeap -> Z -> Z -> Prop) evict_until :
  (forall s h t v lu n kb h', P s h t v -> heap_pop h = Some (lu, n, kb, h') ->
    (forall e, row_of s n kb = Some e -> in_flight e <> 0) -> P s h' t v) ->
  (forall s h t v lu n kb h' e, P s h t v -> heap_pop h = Some (lu, n, kb, h') ->
    row_of s n kb = Some e -> in_flight e = 0 -> P s ((last_used e, n, kb) :: h') t v) ->
  (forall s h t v lu n kb h' e, P s h t v -> heap_pop h = Some (lu, n, kb, h') ->
    row_of s n kb = Some e -> in_flight e = 0 -> P (drop_row n kb s) h' (t - 1) (v + 1)) ->
  forall fuel s h t v s' h' t' v', P s h t v ->
    evict_loop fuel s h t evict_until v = Ret (s', h', (t', v')) ->
    P s' h' t' v' /\ (t' <= evict_until \/ h' = []).
Proof.
  intros Hskip Hpush Hdrop. induction fuel as [|fuel IH]; intros s h t v s' h' t' v' HP; simpl;
    destruct (Z.leb_spec t evict_until); [intros [= <- <- <- <-]; auto|done|
      intros [= <- <- <- <-]; auto|].
  destruct (heap_pop h) as [[[[lu n] kb] h0]|] eqn:Hpop.
  2: { intros [= <- <- <- <-]. apply heap_pop_None in Hpop. auto. }
  destruct (row_of s n kb) as [e|] eqn:He; [|intros Hr; eapply IH; [|done]; eapply Hskip; eauto; congruence].
  destruct (Z.eqb_spec (in_flight e) 0) as [Hz|Hz]; simpl;
    [|intros Hr; eapply IH; [|done]; eapply Hskip; eauto; congruence].
  destruct (Z.eqb_spec (last_used e) lu) as [Hl|Hl]; simpl; intros Hr; (eapply IH; [|exact Hr]); eauto.
Qed.

(** Iterations an entry of the heap can still cost: two when its row was read
    since the entry was pushed. *)
Definition entry_cost (store : StoreType) (x : HeapEntry) : Z :=
  match row_of store x.1.2 x.2 with
  | Some e => if last_used e =? x.1.1 then 1 else 2
  | None => 1
  end.

Lemma entry_cost_bound store x : 1 <= entry_cost store x <= 2.
Proof. unfold entry_cost. repeat case_match; lia. Qed.

Lemma entry_cost_drop store n kb h :
  zsum (entry_cost (drop_row n kb store) <$> h) <= zsum (entry_cost store <$> h).
Proof.
  induction h as [|x h IH]; [done|]. rewrite !fmap_cons. simpl.
  enough (entry_cost (drop_row n kb store) x <= entry_cost store x) by (unfold zsum in *; lia).
  unfold entry_cost at 1. rewrite row_of_drop_row. case_decide; [apply entry_cost_bound|].
  unfold entry_cost. done.
Qed.

(** The loop stops: no fuel beyond twice the heap is used. *)
Lemma evict_loop_terminates evict_until fuel s h t v :
  zsum (entry_cost s <$> h) < Z.of_nat fuel ->
  exists r, evict_loop fuel s h t evict_until v = Ret r.
Proof.
  revert s h t v. induction fuel as [|fuel IH]; intros s h t v Hf.
  { assert (0 <= zsum (entry_cost s <$> h)); [|lia]. apply zsum_nonneg, Forall_fmap, Forall_true.
    intros x. simpl. pose proof (entry_cost_bound s x). lia. }
  simpl. destruct (Z.leb_spec t evict_until); [by eexists|].
  destruct (heap_pop h) as [[[[lu n] kb] h0]|] eqn:Hpop; [|by eexists].
  rewrite (heap_pop_perm _ _ _ Hpop) in Hf. simpl in Hf. fold_fmap.
  pose proof (entry_cost_bound s (lu, n, kb)) as Hb. unfold entry_cost at 1 in Hf. simpl in Hf.
  destruct (row_of s n kb) as [e|] eqn:He; [|apply IH; lia].
  destruct (Z.eqb_spec (in_flight e) 0) as [Hz|Hz]; simpl; [|apply IH; case_match; lia].
  destruct (Z.eqb_spec (last_used e) lu) as [Hl|Hl]; simpl; apply IH.
  - pose proof (entry_cost_drop s n kb h0). lia.
  - simpl. unfold entry_cost at 1. simpl. rewrite He, Z.eqb_refl. fold_fmap. lia.
Qed.

(** ** Settled rows *)

(** The rows with no operation in flight: those that eviction may drop. *)
Definition settled_keys (store : StoreType) : list (string * Bytes) :=
  map_to_list store ≫= fun nt =>
    (fun ke => (nt.1, ke.1)) <$> map_to_list (filter (fun ke => in_flight ke.2 = 0) (rows nt.2)).

Lemma elem_of_settled_keys store name kb :
  (name, kb) ∈ settled_keys store <-> exists e, row_of store name kb = Some e /\ in_flight e = 0.
Proof.
  unfold settled_keys, row_of. rewrite list_elem_of_bind. split.
  - intros ([n t] & Hin & Ht%elem_of_map_to_list).
    apply list_elem_of_fmap in Hin as ([kb' e] & [= -> ->] & He%elem_of_map_to_list).
    simpl in *. apply map_lookup_filter_Some in He as [He Hz].
    exists e. by rewrite Ht.
  - intros (e & He & Hz). destruct (store !! name) as [t|] eqn:Ht; [simpl in He|done].
    exists (name, t). split; [|by apply elem_of_map_to_list].
    apply list_elem_of_fmap. exists (kb, e). split; [done|].
    by apply elem_of_map_to_list, map_lookup_filter_Some.
Qed.

Lemma NoDup_settled_keys store : NoDup (settled_keys store).
Proof.
  unfold settled_keys. apply NoDup_bind.
  - intros [n t] [n' t'] [n'' kb] Ht Ht' Hin Hin'. simpl in *.
    apply list_elem_of_fmap in Hin as (? & [= -> ->] & _), Hin' as (? & [= <- _] & _).
    apply elem_of_map_to_list in Ht, Ht'. congruence.
  - intros [n t] _. simpl.
    pose proof (NoDup_fmap_2 (pair n) _ (NoDup_fst_map_to_list
      (filter (fun ke : Bytes * StoreEntry => in_flight ke.2 = 0) (rows t)))) as Hnd.
    by rewrite <- list_fmap_compose in Hnd.
  - apply NoDup_map_to_list.
Qed.

(** Every settled row has an entry in the heap, so that it can be found. *)
Definition heap_complete (store : StoreType) (heap : EvictionHeap) : Prop :=
  forall name kb e, row_of store name kb = Some e -> in_flight e = 0 ->
    exists lu, (lu, name, kb) ∈ heap.

Lemma settled_le_heap store heap : heap_complete store heap ->
  (length (settled_keys store) <= length heap)%nat.
Proof.
  intros Hc. rewrite <- (length_fmap (fun x : HeapEntry => (x.1.2, x.2)) heap).
  apply submseteq_length, NoDup_submseteq; [apply NoDup_settled_keys|].
  intros [name kb] (e & He & Hz)%elem_of_settled_keys. destruct (Hc _ _ _ He Hz) as [lu Hlu].
  apply list_elem_of_fmap. by exists (lu, name, kb).
Qed.

(** Eviction keeps every row that is not settled. *)
Definition evicts (store store' : StoreType) : Prop :=
  forall name kb, row_of store' name kb = row_of store name kb \/
    row_of store' name kb = None /\
    exists e, row_of store name kb = Some e /\ in_flight e = 0.

Lemma evicts_refl store : evicts store store.
Proof. intros name kb. by left. Qed.

Lemma evicts_drop store store' n kb e : evicts store store' -> row_of store' n kb = Some e ->
  in_flight e = 0 -> evicts store (drop_row n kb store').
Proof.
  intros Hev He Hz name kb'. rewrite row_of_drop_row. case_decide as Hd; [|apply Hev].
  destruct Hd as [-> ->]. right. split; [done|].
  destruct (Hev n kb) as [Heq|(Heq & _)]; [|congruence]. rewrite <- Heq. eauto.
Qed.

Lemma heap_complete_pop store heap lu n kb heap' : heap_complete store heap ->
  heap_pop heap = Some (lu, n, kb, heap') ->
  (forall e, row_of store n kb = Some e -> in_flight e <> 0) -> heap_complete store heap'.
Proof.
  intros Hc Hp Hn name kb' e He Hz. destruct (Hc _ _ _ He Hz) as [lu' Hin].
  rewrite (heap_pop_perm _ _ _ Hp) in Hin. exists lu'.
  apply elem_of_cons in Hin as [[= -> -> ->]|?]; [|done]. by destruct (Hn _ He).
Qed.

Lemma heap_complete_push store heap lu lu' n kb heap' : heap_complete store heap ->
  heap_pop heap = Some (lu, n, kb, heap') -> heap_complete store ((lu', n, kb) :: heap').
Proof.
  intros Hc Hp name kb' e He Hz. destruct (Hc _ _ _ He Hz) as [lu'' Hin].
  rewrite (heap_pop_perm _ _ _ Hp) in Hin.
  apply elem_of_cons in Hin as [[= -> -> ->]|?]; [exists lu'; by left|exists lu''; by right].
Qed.

Lemma heap_complete_drop store heap lu n kb heap' : heap_complete store heap ->
  heap_pop heap = Some (lu, n, kb, heap') -> heap_complete (drop_row n kb store) heap'.
Proof.
  intros Hc Hp name kb' e. rewrite row_of_drop_row. case_decide as Hd; [done|]. intros He Hz.
  destruct (Hc _ _ _ He Hz) as [lu'' Hin]. rewrite (heap_pop_perm _ _ _ Hp) in Hin.
  exists lu''. apply elem_of_cons in Hin as [[= -> -> ->]|?]; [tauto|done].
Qed.

(** What the loop keeps: the rows it must not touch, the flags, the accounting
    of the total and the completeness of the heap. *)
Lemma evict_loop_post evict_until fuel s h v s' h' t' v' :
  heap_complete s h -> evict_loop fuel s h (mem_size s) evict_until v = Ret (s', h', (t', v')) ->
  evicts s s' /\ (forall n, is_clearing n s' = is_clearing n s) /\
  (forall n, is_Some (s' !! n) <-> is_Some (s !! n)) /\
  heap_complete s' h' /\ t' = mem_size s' /\ v' - v = mem_size s - t' /\
  (t' <= evict_until \/ settled_keys s' = []).
Proof.
  intros Hc Hr.
  destruct (evict_loop_ind (fun s1 h1 t1 v1 =>
    evicts s s1 /\ (forall n, is_clearing n s1 = is_clearing n s) /\
    (forall n, is_Some (s1 !! n) <-> is_Some (s !! n)) /\
    heap_complete s1 h1 /\ t1 = mem_size s1 /\ v1 - v = mem_size s - t1)
    evict_until) with fuel s h (mem_size s) v s' h' t' v' as [HP Hend]; try done.
  - intros s1 h1 t1 v1 lu n kb h2 (? & ? & ? & Hc1 & ? & ?) Hp Hn. split_and!; try done.
    by eapply heap_complete_pop.
  - intros s1 h1 t1 v1 lu n kb h2 e (? & ? & ? & Hc1 & ? & ?) Hp He Hz. split_and!; try done.
    by eapply heap_complete_push.
  - intros s1 h1 t1 v1 lu n kb h2 e (Hev & Hcl & Hop & Hc1 & -> & Hv) Hp He Hz. split_and!.
    + by eapply evicts_drop.
    + intros n'. by rewrite is_clearing_drop_row.
    + intros n'. by rewrite open_drop_row.
    + by eapply heap_complete_drop.
    + by rewrite (mem_size_drop_row _ _ _ _ He).
    + lia.
  - split_and!; try done; [apply evicts_refl|lia].
  - destruct HP as (? & ? & ? & Hc' & ? & ?). split_and!; try done.
    destruct Hend as [?| ->]; [by left|right]. apply nil_length_inv.
    pose proof (settled_le_heap _ _ Hc') as Hl. simpl in Hl. lia.
Qed.

Lemma entry_cost_sum store h :
  0 <= zsum (entry_cost store <$> h) <= 2 * Z.of_nat (length h).
Proof.
  induction h as [|x h IH]; [done|]. rewrite fmap_cons. simpl. pose proof (entry_cost_bound store x).
  unfold zsum in *. lia.
Qed.

(** A pass of the evictor: it returns, drops settled rows only, and leaves the
    cache within its maximum or with few settled rows. *)
Lemma evict_if_needed_spec max_size store heap :
  0 <= max_size -> heap_complete store heap ->
  exists store' heap' stats, evict_if_needed max_size store heap = Ret (store', heap', stats) /\
    evicts store store' /\ (forall n, is_clearing n store' = is_clearing n store) /\
    (forall n, is_Some (store' !! n) <-> is_Some (store !! n)) /\
    heap_complete store' heap' /\ evicted stats = mem_size store - mem_size store' /\
    (mem_size store' <= max_size \/
     Z.of_nat (length (settled_keys store')) <= max_size / 2).
Proof.
  intros Hm Hc. pose proof (settled_le_heap _ _ Hc) as Hl. unfold evict_if_needed.
  rewrite !Z.shiftr_div_pow2 by lia. change (2 ^ 1) with 2. change (2 ^ 3) with 8.
  destruct (Z.ltb_spec (Z.of_nat (length heap)) (max_size / 2)).
  { eexists _, _, _. split; [done|]. split_and!; try done; [apply evicts_refl|simpl; lia|right; lia]. }
  destruct (Z.leb_spec (mem_size store) max_size).
  { eexists _, _, _. split; [done|]. split_and!; try done; [apply evicts_refl|simpl; lia|by left]. }
  destruct (evict_loop_terminates (max_size / 8) (S (2 * length heap)) store heap (mem_size store) 0)
    as [[[s' h'] [t' v']] Hr]; [pose proof (entry_cost_sum store heap); lia|].
  rewrite Hr. simpl. eexists _, _, _. split; [done|].
  destruct (evict_loop_post _ _ _ _ _ _ _ _ _ Hc Hr) as (? & ? & ? & ? & -> & ? & Hend).
  split_and!; try done; [simpl; lia|].
  pose proof (Z.div_le_upper_bound max_size 8 max_size). pose proof (Z.div_pos max_size 2).
  destruct Hend as [?| ->]; [left; lia|right; simpl; lia].
Qed.

(** ** Writes, row by row *)

Lemma entry_touch_same now e :
  in_flight (entry_touch now e) = in_flight e /\ tombstoned (entry_touch now e) = tombstoned e /\
  value (entry_touch now e) = value e.
Proof. done. Qed.

Section write_lemmas.
Context `{!Codec}.
Implicit Types store : StoreType.

(** A write of one key succeeds on an open table, unless the count of the row
    is at its maximum, and changes that row only. *)
Definition row_write (name : string) (kb : Bytes) (store store' : StoreType) (e' : StoreEntry) : Prop :=
  is_Some (store !! name) /\ store' = put_row name kb e' store /\ entry_wf e' /\
  in_flight e' = match row_of store name kb with Some e => in_flight e + 1 | None => 1 end.

Lemma insert_impl_Ret now name k v store store' : store_wf store ->
  insert_impl now name k v store = Ret store' ->
  exists e', row_write name (encode_key k) store store' e' /\ tombstoned e' = false /\
    value e' = encode v.
Proof.
  unfold insert_impl, row_write. intros Hwf. destruct (store !! name) as [t|] eqn:Ht; [|done].
  assert (row_of store name (encode_key k) = rows t !! encode_key k) as Hrow
    by (unfold row_of; by rewrite Ht). rewrite Hrow. intros Hr.
  destruct (rows t !! encode_key k) as [e|] eqn:He; exec_simpl.
  - destruct (clear_tombstone_spec (set_value (encode v) e)) as (Hw & Hi & Hb);
      [apply (Hwf name (encode_key k) e); by rewrite Hrow|].
    apply add_in_flight_Ret in Hrun as (? & ? & ? & ? & ?); [|done].
    destruct (entry_touch_same now v0) as (? & ? & ?). pose proof (in_flight_set_value (encode v) e).
    eexists. split_and!; [by eexists|done|..]; try done; simpl in *; congruence.
  - apply add_in_flight_Ret in Hrun as (? & ? & ? & ? & ?); [|done].
    eexists. split_and!; [by eexists|done|..]; try done; simpl in *; congruence.
Qed.

Lemma remove_impl_Ret now name k store store' : store_wf store ->
  remove_impl now name k store = Ret store' ->
  exists e', row_write name (encode_key k) store store' e' /\ tombstoned e' = true /\
    value e' = match row_of store name (encode_key k) with Some e => value e | None => [] end.
Proof.
  unfold remove_impl, row_write. intros Hwf. destruct (store !! name) as [t|] eqn:Ht; [|done].
  assert (row_of store name (encode_key k) = rows t !! encode_key k) as Hrow
    by (unfold row_of; by rewrite Ht). rewrite Hrow. intros Hr.
  destruct (rows t !! encode_key k) as [e|] eqn:He; exec_simpl.
  - destruct (mark_tombstone_spec e) as (Hw & Hi & Hb);
      [apply (Hwf name (encode_key k) e); by rewrite Hrow|].
    apply add_in_flight_Ret in Hrun as (? & ? & ? & ? & ?); [|done].
    destruct (entry_touch_same now v) as (? & ? & ?).
    eexists. split_and!; [by eexists|done|..]; try done; simpl in *; congruence.
  - destruct (mark_tombstone_spec (StoreEntry_new now [])) as (Hw & Hi & Hb); [done|].
    apply add_in_flight_Ret in Hrun as (? & ? & ? & ? & ?); [|done].
    eexists. split_and!; [by eexists|done|..]; try done; simpl in *; congruence.
Qed.

End write_lemmas.

Lemma rows_list_perm {A} (m : gmap Bytes A) : rows_list m ≡ₚ map_to_list m.
Proof. apply merge_sort_Permutation. Qed.

Lemma elem_of_rows_list {A} (m : gmap Bytes A) kb x : (kb, x) ∈ rows_list m <-> m !! kb = Some x.
Proof. by rewrite rows_list_perm, elem_of_map_to_list. Qed.

Lemma NoDup_rows_keys {A} (m : gmap Bytes A) : NoDup (rows_list m).*1.
Proof. rewrite rows_list_perm. apply NoDup_fst_map_to_list. Qed.

Lemma elem_of_rows_keys {A} (m : gmap Bytes A) kb : kb ∈ (rows_list m).*1 <-> is_Some (m !! kb).
Proof.
  rewrite list_elem_of_fmap. split.
  - intros ([kb' x] & -> & Hin%elem_of_rows_list). by eexists.
  - intros [x Hx]. exists (kb, x). by rewrite elem_of_rows_list.
Qed.

(** A row after a clear: a tombstone with one more operation in flight. *)
Definition cleared_row (e e' : StoreEntry) : Prop :=
  entry_wf e' /\ in_flight e' = in_flight e + 1 /\ tombstoned e' = true /\ value e' = value e.

Lemma clear_rows_Ret l m m' :
  NoDup l.*1 -> (forall kb e, (kb, e) ∈ l -> entry_wf e) -> clear_rows l m = Ret m' ->
  (forall kb e, (kb, e) ∈ l -> exists e', m' !! kb = Some e' /\ cleared_row e e') /\
  (forall kb, kb ∉ l.*1 -> m' !! kb = m !! kb).
Proof.
  revert m. induction l as [|[kb e] l IH]; intros m Hnd Hwf Hr.
  { simpl in Hr. exec_simpl. split; [|done]. by intros kb e ?%elem_of_nil. }
  simpl in Hr, Hnd. exec_inv Hr. apply NoDup_cons in Hnd as [Hn Hnd].
  destruct (mark_tombstone_spec e) as (Hw & Hi & Hb); [apply (Hwf kb); by left|].
  apply add_in_flight_Ret in Hrun as (? & ? & ? & ? & ?); [|done].
  destruct (IH (<[kb := v]> m)) as [Hin Hout]; try done; [intros; eapply Hwf; by right|].
  split.
  - intros kb' e' [[= -> ->]|Hl]%elem_of_cons; [|by apply Hin]. exists v.
    rewrite Hout, lookup_insert_eq by done. split; [done|]. repeat split; try done; try congruence; apply H.
  - intros kb' Hk. simpl in Hk. apply not_elem_of_cons in Hk as [Hne Hk]. rewrite Hout by done.
    by rewrite lookup_insert_ne.
Qed.

Lemma clear_table_impl_Ret name store keys store' : store_wf store ->
  clear_table_impl name store = Ret (keys, store') ->
  is_Some (store !! name) /\ NoDup keys /\
  (forall kb, kb ∈ keys <-> is_Some (row_of store name kb)) /\
  (forall kb, match row_of store name kb with
              | Some e => exists e', row_of store' name kb = Some e' /\ cleared_row e e'
              | None => row_of store' name kb = None
              end) /\
  (forall name' kb, name' <> name -> row_of store' name' kb = row_of store name' kb) /\
  (forall name', is_clearing name' store' = if decide (name' = name) then true
                                            else is_clearing name' store) /\
  (forall name', is_Some (store' !! name') <-> is_Some (store !! name')).
Proof.
  unfold clear_table_impl, row_of, is_clearing. intros Hwf.
  destruct (store !! name) as [t|] eqn:Ht; [|done]. intros Hr. exec_simpl. simpl.
  apply clear_rows_Ret in Hrun as [Hin Hout]; [|apply NoDup_rows_keys|].
  2: { intros kb e He%elem_of_rows_list. apply (Hwf name kb). unfold row_of. by rewrite Ht. }
  rewrite lookup_insert_eq. split_and!; try done.
  - apply NoDup_rows_keys.
  - intros kb. apply elem_of_rows_keys.
  - intros kb. simpl. destruct (rows t !! kb) as [e|] eqn:He.
    + apply Hin. by apply elem_of_rows_list.
    + rewrite Hout, He; [done|]. rewrite elem_of_rows_keys, He. by intros [? ?].
  - intros name' kb Hne. by rewrite lookup_insert_ne.
  - intros name'. case_decide as Hd; [subst; by rewrite lookup_insert_eq|by rewrite lookup_insert_ne].
  - intros name'. destruct (decide (name' = name)) as [->|Hne];
      [rewrite lookup_insert_eq, Ht; by split|by rewrite lookup_insert_ne].
Qed.

(** ** Releases, row by row *)

(** A released row: one operation less in flight; a missing row stays so. *)
Definition released_row (r r' : option StoreEntry) : Prop :=
  match r with
  | None => r' = None
  | Some e => exists e', r' = Some e' /\ dec_in_flight (E := Report) e = Ret e'
  end.

Lemma on_op_applied_Ret name kb store heap store' heap' :
  on_op_applied name kb (store, heap) = Ret (store', heap') ->
  released_row (row_of store name kb) (row_of store' name kb) /\
  (forall name' kb', ~ (name' = name /\ kb' = kb) -> row_of store' name' kb' = row_of store name' kb') /\
  (forall name', is_clearing name' store' = is_clearing name' store) /\
  (forall name', is_Some (store' !! name') <-> is_Some (store !! name')).
Proof.
  simpl. destruct (row_of store name kb) as [e|] eqn:He; intros Hr; exec_simpl.
  - pose proof (row_of_open _ _ _ _ He) as Ho. split_and!.
    + simpl. eexists. rewrite row_of_put_row, decide_True by done. done.
    + intros name' kb' Hne. by rewrite row_of_put_row, decide_False.
    + intros name'. apply is_clearing_put_row.
    + intros name'. apply open_put_row.
  - split_and!; done.
Qed.

Lemma on_op_applied_heap name kb store heap store' heap' :
  on_op_applied name kb (store, heap) = Ret (store', heap') ->
  heap_complete store heap -> heap_complete store' heap'.
Proof.
  simpl. destruct (row_of store name kb) as [e|] eqn:He; intros Hr Hc; exec_simpl; [|done].
  intros name' kb' e'. rewrite row_of_put_row by by eapply row_of_open.
  case_decide as Hd; [destruct Hd as [-> ->]; intros [= <-] Hz|intros He' Hz].
  - rewrite (proj2 (Z.eqb_eq _ _) Hz). eexists. by left.
  - destruct (Hc _ _ _ He' Hz) as [lu ?]. exists lu. case_match; [by right|done].
Qed.

Lemma release_keys_Ret name keys store heap store' heap' : NoDup keys ->
  release_keys name keys (store, heap) = Ret (store', heap') ->
  (forall kb, if decide (kb ∈ keys) then released_row (row_of store name kb) (row_of store' name kb)
              else row_of store' name kb = row_of store name kb) /\
  (forall name' kb, name' <> name -> row_of store' name' kb = row_of store name' kb) /\
  (forall name', is_clearing name' store' = is_clearing name' store) /\
  (forall name', is_Some (store' !! name') <-> is_Some (store !! name')) /\
  (heap_complete store heap -> heap_complete store' heap').
Proof.
  revert store heap. induction keys as [|kb keys IH]; intros store heap Hnd Hr.
  { simpl in Hr. exec_simpl. split_and!; try done. }
  apply NoDup_cons in Hnd as [Hn Hnd]. simpl in Hr. exec_inv Hr. destruct v as [s1 h1].
  pose proof (on_op_applied_heap _ _ _ _ _ _ Hrun).
  apply on_op_applied_Ret in Hrun as (Hrel & Hsame & Hcl & Hop).
  destruct (IH s1 h1) as (Hk & Hs & Hc & Ho & Hh); try done. split_and!.
  - intros kb'. specialize (Hk kb'). destruct (decide (kb' = kb)) as [->|Hne].
    + rewrite decide_True by by left. rewrite decide_False in Hk by done. by rewrite Hk.
    + rewrite <- (Hsame name kb') by naive_solver. repeat case_decide; set_solver.
  - intros name' kb' Hne. rewrite Hs by done. apply Hsame. naive_solver.
  - intros name'. by rewrite Hc.
  - intros name'. by rewrite Ho.
  - auto.
Qed.
