(* ===== verification/LayeredDb.v ===== *)
(** * The layered consensus database

    [LayeredDatabase] (storage/src/layered_db.rs): a write-behind cache. Writes
    change the in-memory tier of [MemDb] and queue a message under one lock; a
    writer thread applies the messages to the persistent tier, releases the
    rows they covered and evicts settled ones. The producers, the writer and
    the readers are steps of one shared state, cut where the code takes and
    releases the lock of the cache, so that every interleaving is a sequence of
    steps. The persistent tier ([Database]) and the cold tier are interfaces.
    Logs, metrics, compaction and the pacing of producers are not modelled. *)
From S2P Require Import Prelude State MemDb.
From stdpp Require Import strings.

#[local] Open Scope Z_scope.

(** ** The persistent tier *)

(** The part of the [Database] and [DbTxMut] traits the layered database calls
    on its inner database. *)
Class Database `{!Codec} (DB TXMut : Type) := {
  db_get : string -> Key -> DB -> Exec Report (option Value);
  db_contains_key : string -> Key -> DB -> Exec Report bool;
  db_insert : string -> Key -> Value -> ST DB Report unit;
  db_remove : string -> Key -> ST DB Report unit;
  db_clear_table : string -> ST DB Report unit;
  db_write_txn : DB -> Exec Report TXMut;
  tx_insert : string -> Key -> Value -> ST TXMut Report unit;
  tx_remove : string -> Key -> ST TXMut Report unit;
  tx_clear_table : string -> ST TXMut Report unit;
  tx_commit : TXMut -> ST DB Report unit
}.

(** The committed content of a table, and the effect of each write on it. *)
Abbreviation View := (gmap (string * Bytes) Bytes).

Definition view_clear (name : string) (m : View) : View :=
  filter (fun x => x.1.1 <> name) m.

(** An operation either applies its effect or fails and changes nothing. *)
Definition writes {S : Type} (view : S -> View) (m : ST S Report unit) (f : View -> View) : Prop :=
  forall s, match m s with
  | (s', Ret _) => view s' = f (view s)
  | (s', Err _) => view s' = view s
  | _ => False
  end.

(** What the layered database relies on: reads see the committed rows, writes
    are atomic, and a transaction is isolated until its commit replaces the
    content it started from. *)
Class DatabaseOk `{!Codec} (DB TXMut : Type) `{!Database DB TXMut} := {
  db_view : DB -> View;
  tx_view : TXMut -> View;
  tx_base : TXMut -> View;
  db_view_encoded : forall d key b, db_view d !! key = Some b -> exists v, b = encode v;
  db_get_ok : forall n k d,
    match db_get n k d with
    | Ret r => db_view d !! (n, encode_key k) = encode <$> r
    | Err _ => True
    | _ => False
    end;
  db_contains_key_ok : forall n k d,
    match db_contains_key n k d with
    | Ret b => b = bool_decide (is_Some (db_view d !! (n, encode_key k)))
    | Err _ => True
    | _ => False
    end;
  db_insert_ok : forall n k v, writes db_view (db_insert n k v) (insert (n, encode_key k) (encode v));
  db_remove_ok : forall n k, writes db_view (db_remove n k) (base.delete (n, encode_key k));
  db_clear_ok : forall n, writes db_view (db_clear_table n) (view_clear n);
  db_write_txn_ok : forall d,
    match db_write_txn d with
    | Ret t => tx_base t = db_view d /\ tx_view t = db_view d
    | Err _ => True
    | _ => False
    end;
  tx_insert_ok : forall n k v, writes tx_view (tx_insert n k v) (insert (n, encode_key k) (encode v));
  tx_remove_ok : forall n k, writes tx_view (tx_remove n k) (base.delete (n, encode_key k));
  tx_clear_ok : forall n, writes tx_view (tx_clear_table n) (view_clear n);
  tx_insert_base : forall n k v t, tx_base (tx_insert n k v t).1 = tx_base t;
  tx_remove_base : forall n k t, tx_base (tx_remove n k t).1 = tx_base t;
  tx_clear_base : forall n t, tx_base (tx_clear_table n t).1 = tx_base t;
  tx_commit_ok : forall t d, tx_base t = db_view d ->
    match tx_commit t d with
    | (d', Ret _) => db_view d' = tx_view t
    | (d', Err _) => db_view d' = db_view d
    | _ => False
    end
}.

(** ** Messages *)

Section layered.
Context `{!Codec} {DB TXMut : Type} `{!Database DB TXMut}.

Record KeyValueInsert := { ins_table : string; ins_key : Key; ins_value : Value }.

(** [KeyRemove] and [KeyRemoveBatch] *)
Inductive RemoveOp :=
  | KeyRemove (name : string) (k : Key)
  | KeyRemoveBatch (name : string) (keys : list Key).

(** [ClearTable]: the raw keys that the producer's clear covered. *)
Record ClearTable := { clr_table : string; clr_keys : list Bytes }.

Inductive DeferredOp :=
  | DInsert (op : KeyValueInsert)
  | DRemove (op : RemoveOp)
  | DClear (op : ClearTable).

(** The reply of a [CaughtUp] goes to the channel with the given number. *)
Inductive DBMessage :=
  | StartTxn
  | CommitTxn
  | MsgInsert (ins : KeyValueInsert)
  | MsgRemove (rm : RemoveOp)
  | MsgClear (clr : ClearTable)
  | CaughtUp (reply : Z)
  | Shutdown.

Definition remove_table (r : RemoveOp) : string :=
  match r with KeyRemove name _ | KeyRemoveBatch name _ => name end.

Definition remove_op_keys (r : RemoveOp) : list Key :=
  match r with
  | KeyRemove _ k => [k]
  | KeyRemoveBatch _ keys => keys
  end.

(** One release of [on_applied]: the critical sections of [on_op_applied] and
    [on_clear_applied]. *)
Inductive Release :=
  | RelKey (name : string) (kb : Bytes)
  | RelClear (name : string) (keys : list Bytes).

(** [DeferredOp::on_applied], as the critical sections it enters. *)
Definition on_applied (op : DeferredOp) : list Release :=
  match op with
  | DInsert i => [RelKey (ins_table i) (encode_key (ins_key i))]
  | DRemove r => (fun k => RelKey (remove_table r) (encode_key k)) <$> remove_op_keys r
  | DClear c => [RelClear (clr_table c) (clr_keys c)]
  end.

Definition release (r : Release) (sh : StoreType * EvictionHeap) :
    Exec Report (StoreType * EvictionHeap) :=
  match r with
  | RelKey name kb => on_op_applied name kb sh
  | RelClear name keys => on_clear_applied name keys sh
  end.

(** ** State *)

(** Where the writer thread is: between messages; removing keys outside a
    transaction (about to look at the cache, or about to remove the key); about
    to release rows; about to evict and, for a barrier, to reply; or stopped. *)
Inductive WriterPc :=
  | Idle
  | Removing (r : RemoveOp) (keys : list Key)
  | RemovingKey (r : RemoveOp) (k : Key) (keys : list Key)
  | Releasing (l : list Release)
  | Evicting (reply : option Z)
  | Stopped.

(** The shared state ([LayeredDatabase], [QueueSender]) and the local state of
    [db_run]. [lock] says that a [LayeredDbTxMut] holds the lock of the cache;
    [replies] are the answers to the barriers, latest first. *)
Record LayeredDatabase := {
  mem_db : StoreType;
  db : DB;
  queue : list DBMessage;
  depth : Z;
  fatal : option string;
  fatal_signal : option (option string);
  replies : list (Z * option string);
  lock : bool;
  txn : option TXMut;
  committed_ops : list DeferredOp;
  eviction_heap : EvictionHeap;
  pc : WriterPc
}.

Implicit Types s : LayeredDatabase.

Definition with_mem_db (x : StoreType) s : LayeredDatabase :=
  {| mem_db := x; db := db s; queue := queue s; depth := depth s; fatal := fatal s;
     fatal_signal := fatal_signal s; replies := replies s; lock := lock s; txn := txn s;
     committed_ops := committed_ops s; eviction_heap := eviction_heap s; pc := pc s |}.
Definition with_db (x : DB) s : LayeredDatabase :=
  {| mem_db := mem_db s; db := x; queue := queue s; depth := depth s; fatal := fatal s;
     fatal_signal := fatal_signal s; replies := replies s; lock := lock s; txn := txn s;
     committed_ops := committed_ops s; eviction_heap := eviction_heap s; pc := pc s |}.
Definition with_queue (x : list DBMessage) s : LayeredDatabase :=
  {| mem_db := mem_db s; db := db s; queue := x; depth := depth s; fatal := fatal s;
     fatal_signal := fatal_signal s; replies := replies s; lock := lock s; txn := txn s;
     committed_ops := committed_ops s; eviction_heap := eviction_heap s; pc := pc s |}.
Definition with_depth (x : Z) s : LayeredDatabase :=
  {| mem_db := mem_db s; db := db s; queue := queue s; depth := x; fatal := fatal s;
     fatal_signal := fatal_signal s; replies := replies s; lock := lock s; txn := txn s;
     committed_ops := committed_ops s; eviction_heap := eviction_heap s; pc := pc s |}.
Definition with_fatal (x : option string) s : LayeredDatabase :=
  {| mem_db := mem_db s; db := db s; queue := queue s; depth := depth s; fatal := x;
     fatal_signal := fatal_signal s; replies := replies s; lock := lock s; txn := txn s;
     committed_ops := committed_ops s; eviction_heap := eviction_heap s; pc := pc s |}.
Definition with_fatal_signal (x : option (option string)) s : LayeredDatabase :=
  {| mem_db := mem_db s; db := db s; queue := queue s; depth := depth s; fatal := fatal s;
     fatal_signal := x; replies := replies s; lock := lock s; txn := txn s; committed_ops :=
     committed_ops s; eviction_heap := eviction_heap s; pc := pc s |}.
Definition with_replies (x : list (Z * option string)) s : LayeredDatabase :=
  {| mem_db := mem_db s; db := db s; queue := queue s; depth := depth s; fatal := fatal s;
     fatal_signal := fatal_signal s; replies := x; lock := lock s; txn := txn s; committed_ops :=
     committed_ops s; eviction_heap := eviction_heap s; pc := pc s |}.
Definition with_lock (x : bool) s : LayeredDatabase :=
  {| mem_db := mem_db s; db := db s; queue := queue s; depth := depth s; fatal := fatal s;
     fatal_signal := fatal_signal s; replies := replies s; lock := x; txn := txn s; committed_ops
     := committed_ops s; eviction_heap := eviction_heap s; pc := pc s |}.
Definition with_txn (x : option TXMut) s : LayeredDatabase :=
  {| mem_db := mem_db s; db := db s; queue := queue s; depth := depth s; fatal := fatal s;
     fatal_signal := fatal_signal s; replies := replies s; lock := lock s; txn := x;
     committed_ops := committed_ops s; eviction_heap := eviction_heap s; pc := pc s |}.
Definition with_committed_ops (x : list DeferredOp) s : LayeredDatabase :=
  {| mem_db := mem_db s; db := db s; queue := queue s; depth := depth s; fatal := fatal s;
     fatal_signal := fatal_signal s; replies := replies s; lock := lock s; txn := txn s;
     committed_ops := x; eviction_heap := eviction_heap s; pc := pc s |}.
Definition with_eviction_heap (x : EvictionHeap) s : LayeredDatabase :=
  {| mem_db := mem_db s; db := db s; queue := queue s; depth := depth s; fatal := fatal s;
     fatal_signal := fatal_signal s; replies := replies s; lock := lock s; txn := txn s;
     committed_ops := committed_ops s; eviction_heap := x; pc := pc s |}.
Definition with_pc (x : WriterPc) s : LayeredDatabase :=
  {| mem_db := mem_db s; db := db s; queue := queue s; depth := depth s; fatal := fatal s;
     fatal_signal := fatal_signal s; replies := replies s; lock := lock s; txn := txn s;
     committed_ops := committed_ops s; eviction_heap := eviction_heap s; pc := x |}.

(** ** Producers *)

Abbreviation M := (ST LayeredDatabase Report).

(** [poisoned_error]: every write fails fast once the writer failed. *)
Definition poisoned_error (f : option string) : option Report :=
  (fun e => "consensus DB poisoned: no further writes will be attempted: " +:+ e) <$> f.

Definition check_poisoned : M unit := fun s =>
  match poisoned_error (fatal s) with
  | Some e => (s, Err e)
  | None => (s, Ret tt)
  end.

(** [QueueSender::send]: the depth is bumped before the send, which fails only
    once the writer thread is gone. *)
Definition send (msg : DBMessage) : M unit := fun s =>
  match pc s with
  | Stopped => (with_depth (depth s + 1) s, Err "DB thread gone, FATAL!")
  | _ => (with_queue (queue s ++ [msg]) (with_depth (depth s + 1) s), Ret tt)
  end.

(** A mutation of the cache under its write lock. *)
Definition on_mem (f : StoreType -> Exec Report StoreType) : M unit := fun s =>
  match f (mem_db s) with
  | Ret m => (with_mem_db m s, Ret tt)
  | Err e => (s, Err e)
  | Panic => (s, Panic)
  | Diverge => (s, Diverge)
  end.

(** [clear_table_impl], which also returns the keys for the writer. *)
Definition on_mem_clear (name : string) : M (list Bytes) := fun s =>
  match clear_table_impl name (mem_db s) with
  | Ret (keys, m) => (with_mem_db m s, Ret keys)
  | Err e => (s, Err e)
  | Panic => (s, Panic)
  | Diverge => (s, Diverge)
  end.

(** The part of the writes of [Database] for [LayeredDatabase] that runs under
    the lock ([insert_queued], [remove_queued], [clear_table_queued]): the
    mutation of the cache and the enqueue are one critical section. *)
Definition insert_queued (now : Z) (name : string) (k : Key) (v : Value) : M unit :=
  _ ← on_mem (insert_impl now name k v);
  send (MsgInsert {| ins_table := name; ins_key := k; ins_value := v |}).

Definition remove_queued (now : Z) (name : string) (k : Key) : M unit :=
  _ ← on_mem (remove_impl now name k);
  send (MsgRemove (KeyRemove name k)).

Definition clear_table_queued (name : string) : M unit :=
  keys ← on_mem_clear name;
  send (MsgClear {| clr_table := name; clr_keys := keys |}).

(** [insert], [remove] and [clear_table] of [Database] for [LayeredDatabase] *)
Definition layered_insert (now : Z) (name : string) (k : Key) (v : Value) : M unit :=
  _ ← check_poisoned; insert_queued now name k v.

Definition layered_remove (now : Z) (name : string) (k : Key) : M unit :=
  _ ← check_poisoned; remove_queued now name k.

Definition layered_clear_table (name : string) : M unit :=
  _ ← check_poisoned; clear_table_queued name.

(** [write_txn]: takes the lock of the cache, and keeps it with the returned
    transaction. *)
Definition begin_txn : M unit := fun s =>
  match send StartTxn s with
  | (s', Ret _) => (with_lock true s', Ret tt)
  | (s', r) => (s', r)
  end.

Definition write_txn : M unit := _ ← check_poisoned; begin_txn.

(** The methods of [LayeredDbTxMut], which holds the lock. *)
Definition txmut_insert (now : Z) (name : string) (k : Key) (v : Value) : M unit :=
  _ ← check_poisoned;
  _ ← on_mem (insert_impl now name k v);
  send (MsgInsert {| ins_table := name; ins_key := k; ins_value := v |}).

Definition txmut_remove (now : Z) (name : string) (k : Key) : M unit :=
  _ ← check_poisoned;
  _ ← on_mem (remove_impl now name k);
  send (MsgRemove (KeyRemove name k)).

Definition evict_persistent_batch (name : string) (keys : list Key) : M unit :=
  _ ← check_poisoned;
  match keys with
  | [] => mret tt
  | _ =>
      _ ← on_mem (fun m => mret (foldl (fun m k => hard_delete name k m) m keys));
      send (MsgRemove (KeyRemoveBatch name keys))
  end.

Definition txmut_clear_table (name : string) : M unit :=
  _ ← check_poisoned;
  keys ← gets (fun s => raw_keys name (mem_db s));
  _ ← on_mem_clear name;
  send (MsgClear {| clr_table := name; clr_keys := keys |}).

(** [LayeredDbTxMut::commit]: the commit is queued before the lock drops. *)
Definition txmut_commit : M unit := fun s =>
  let (s', r) := (_ ← check_poisoned; send CommitTxn) s in (with_lock false s', r).

(** Dropping a [LayeredDbTxMut] without a commit releases the lock. *)
Definition txmut_drop : M unit := modify (with_lock false).

(** [persist] and [sync_persist], up to waiting for the reply. *)
Definition persist (reply : Z) : M unit :=
  _ ← check_poisoned; send (CaughtUp reply).

(** What [sync_persist] returns for a reply. *)
Definition sync_persist_result (r : option string) : Exec Report unit :=
  match r with
  | None => Ret tt
  | Some e => Err ("consensus DB sync_persist: " +:+ e)
  end.

(** ** The writer thread *)

(** [trip]: the first failure is latched and signalled. *)
Definition trip (msg : string) s : LayeredDatabase :=
  with_fatal (Some (default msg (fatal s)))
    (with_fatal_signal
       match fatal_signal s with Some None => Some (Some msg) | x => x end s).

(** [remove_txn] of [KeyRemove] and [KeyRemoveBatch]: in channel order, without
    a look at the cache. *)
Fixpoint remove_txn (name : string) (keys : list Key) : ST TXMut Report unit :=
  match keys with
  | [] => mret tt
  | k :: keys' => _ ← tx_remove name k; remove_txn name keys'
  end.

(** Applying an operation inside the open transaction ([insert_txn],
    [remove_txn], [clear_table_txn]); its release waits for the commit. *)
Definition apply_txn (op : DeferredOp) (what : string) (t : TXMut) s : Exec Report LayeredDatabase :=
  match (match op with
         | DInsert i => tx_insert (ins_table i) (ins_key i) (ins_value i)
         | DRemove r => remove_txn (remove_table r) (remove_op_keys r)
         | DClear c => tx_clear_table (clr_table c)
         end) t with
  | (t', Ret _) => Ret (with_txn (Some t') (with_committed_ops (committed_ops s ++ [op]) s))
  | (t', Err e) => Ret (trip (what +:+ e) (with_txn (Some t') s))
  | (_, Panic) => Panic
  | (_, Diverge) => Diverge
  end.

(** An operation outside a transaction: durable, then released and evicted. *)
Definition apply_direct (op : DeferredOp) (what : string) (m : ST DB Report unit) s :
    Exec Report LayeredDatabase :=
  match m (db s) with
  | (d, Ret _) => Ret (with_pc (Releasing (on_applied op)) (with_db d s))
  | (d, Err e) => Ret (trip (what +:+ e) (with_db d s))
  | (_, Panic) => Panic
  | (_, Diverge) => Diverge
  end.

Definition add_reply (reply : Z) (r : option string) s : LayeredDatabase :=
  with_replies ((reply, r) :: replies s) s.

(** The body of the loop of [db_run] for a message, up to the releases and the
    eviction pass that follow it. *)
Definition db_run_message (msg : DBMessage) s : Exec Report LayeredDatabase :=
  match fatal s with
  | Some err =>
      match msg with
      | CaughtUp reply => Ret (add_reply reply (Some err) s)
      | Shutdown => Ret (with_pc Stopped s)
      | _ => Ret s
      end
  | None =>
      match msg with
      | StartTxn =>
          match txn s with
          | Some _ => Ret (trip "StartTxn while a write txn is already open"
                             (with_committed_ops [] (with_txn None s)))
          | None =>
              match db_write_txn (db s) with
              | Ret t => Ret (with_txn (Some t) s)
              | Err e => Ret (trip ("write_txn: " +:+ e) s)
              | Panic => Panic
              | Diverge => Diverge
              end
          end
      | CommitTxn =>
          match txn s with
          | Some t =>
              match tx_commit t (db s) with
              | (d, Ret _) => Ret (with_pc (Releasing (committed_ops s ≫= on_applied))
                                    (with_committed_ops [] (with_txn None (with_db d s))))
              | (d, Err e) => Ret (trip ("commit: " +:+ e)
                                    (with_committed_ops [] (with_txn None (with_db d s))))
              | (_, Panic) => Panic
              | (_, Diverge) => Diverge
              end
          | None => Ret (trip "CommitTxn with no open write txn" s)
          end
      | MsgInsert ins =>
          match txn s with
          | Some t => apply_txn (DInsert ins) "insert: " t s
          | None => apply_direct (DInsert ins) "insert: "
                      (db_insert (ins_table ins) (ins_key ins) (ins_value ins)) s
          end
      | MsgRemove rm =>
          match txn s with
          | Some t => apply_txn (DRemove rm) "remove: " t s
          | None => Ret (with_pc (Removing rm (remove_op_keys rm)) s)
          end
      | MsgClear clr =>
          match txn s with
          | Some t => apply_txn (DClear clr) "clear: " t s
          | None => apply_direct (DClear clr) "clear: " (db_clear_table (clr_table clr)) s
          end
      | CaughtUp reply =>
          match txn s with
          | Some _ => Ret (add_reply reply None s)
          | None => Ret (with_pc (Evicting (Some reply)) s)
          end
      | Shutdown => Ret (with_pc Stopped s)
      end
  end.

(** One step of the writer thread: taking a message, or one critical section of
    what follows it. [KeyRemove::remove] and [KeyRemoveBatch::remove] skip a
    key that is live in the cache. *)
Definition writer_step (now max_size : Z) s : Exec Report LayeredDatabase :=
  match pc s with
  | Idle =>
      match queue s with
      | [] => Ret s
      | msg :: q => db_run_message msg (with_queue q (with_depth (depth s - 1) s))
      end
  | Removing r [] => Ret (with_pc (Releasing (on_applied (DRemove r))) s)
  | Removing r (k :: keys) =>
      let (live, m) := contains_key_impl now (remove_table r) k (mem_db s) in
      Ret (with_pc (if live then Removing r keys else RemovingKey r k keys) (with_mem_db m s))
  | RemovingKey r k keys =>
      match db_remove (remove_table r) k (db s) with
      | (d, Ret _) => Ret (with_pc (Removing r keys) (with_db d s))
      | (d, Err e) => Ret (with_pc Idle (trip ("remove: " +:+ e) (with_db d s)))
      | (_, Panic) => Panic
      | (_, Diverge) => Diverge
      end
  | Releasing [] => Ret (with_pc (Evicting None) s)
  | Releasing (x :: l) =>
      '(m, h) ← release x (mem_db s, eviction_heap s);
      mret (with_pc (Releasing l) (with_mem_db m (with_eviction_heap h s)))
  | Evicting reply =>
      '(m, h, stats) ← evict_if_needed max_size (mem_db s) (eviction_heap s);
      let s' := with_pc Idle (with_mem_db m (with_eviction_heap h s)) in
      mret match reply with Some r => add_reply r None s' | None => s' end
  | Stopped => Ret s
  end.

(** [db_run], without other threads: at most [fuel] steps of the writer, until
    it waits for a message. *)
Fixpoint db_run (fuel : nat) (now max_size : Z) s : Exec Report LayeredDatabase :=
  match pc s, queue s with
  | Idle, [] | Stopped, _ => Ret s
  | _, _ =>
      match fuel with
      | O => Diverge
      | S fuel' => s' ← writer_step now max_size s; db_run fuel' now max_size s'
      end
  end.

(** ** Reads *)

(** The hot part of [get] of [Database] for [LayeredDatabase]: three reads of
    the cache, each under its own read lock, and one of the persistent tier;
    other threads may run in between, so each read sees a state of its own. *)
Definition layered_get_hot (now : Z) (name : string) (k : Key) (m1 m2 m3 : StoreType) (d : DB) :
    Exec Report (option Value) :=
  if is_tombstoned name k m1 then Ret None
  else
    r ← get_no_marked_check now name k m2;
    match r.1 with
    | Some (_, v) => Ret (Some v)
    | None => if is_clearing name m3 then Ret None else db_get name k d
    end.

(** The cold tier: what its read transaction answers for a key. *)
Record ColdTx := {
  cold_tx_get : string -> Key -> Exec Report (option Value);
  cold_tx_contains_key : string -> Key -> Exec Report bool
}.

(** [cold_get] and [cold_has] *)
Definition cold_get (cold : option ColdTx) (name : string) (k : Key) :
    Exec Report (option Value) :=
  match cold with
  | Some tx => cold_tx_get tx name k
  | None => Ret None
  end.

Definition cold_has (cold : option ColdTx) (name : string) (k : Key) : Exec Report bool :=
  match cold with
  | Some tx => cold_tx_contains_key tx name k
  | None => Ret false
  end.

Definition layered_get (cold : option ColdTx) (now : Z) (name : string) (k : Key)
    (m1 m2 m3 : StoreType) (d : DB) : Exec Report (option Value) :=
  hot ← layered_get_hot now name k m1 m2 m3 d;
  match hot with
  | Some v => Ret (Some v)
  | None => cold_get cold name k
  end.

(** [LayeredDbTx::get]: the cache is read under one lock. *)
Definition layered_tx_get (cold : option ColdTx) (now : Z) (name : string) (k : Key)
    (m : StoreType) (d : DB) : Exec Report (option Value) :=
  layered_get cold now name k m m m d.

(** [contains_key] of [Database] for [LayeredDatabase] *)
Definition layered_contains_key (cold : option ColdTx) (now : Z) (name : string) (k : Key)
    (m1 m2 m3 : StoreType) (d : DB) : Exec Report bool :=
  if is_tombstoned name k m1 then Ret false
  else if (contains_key_impl now name k m2).1 then Ret true
  else if is_clearing name m3 then cold_has cold name k
  else
    b ← db_contains_key name k d;
    if b : bool then Ret true else cold_has cold name k.

(** [contains_key_in_memory] *)
Definition contains_key_in_memory (now : Z) (name : string) (k : Key) (m : StoreType) : bool :=
  (contains_key_impl now name k m).1.

(** ** Interleavings *)

(** A step of some thread. A write whose check of the poison latch came before
    another thread's steps is a [late] one. *)
Inductive Event :=
  | EvInsert (late : bool) (now : Z) (name : string) (k : Key) (v : Value)
  | EvRemove (late : bool) (now : Z) (name : string) (k : Key)
  | EvClear (late : bool) (name : string)
  | EvBegin (late : bool)
  | EvTxInsert (now : Z) (name : string) (k : Key) (v : Value)
  | EvTxRemove (now : Z) (name : string) (k : Key)
  | EvTxEvict (name : string) (keys : list Key)
  | EvTxClear (name : string)
  | EvCommit
  | EvDrop
  | EvPersist (late : bool) (reply : Z)
  | EvShutdown
  | EvRead (now : Z) (name : string) (k : Key)
  | EvWriter (now : Z).

Definition checked (late : bool) (m : M unit) : M unit :=
  if late then m else _ ← check_poisoned; m.

(** The writer needs the lock of the cache for its next step. *)
Definition writer_locks (max_size : Z) s : bool :=
  match pc s with
  | Removing _ (_ :: _) | Releasing (_ :: _) => true
  | Evicting _ => negb (Z.of_nat (length (eviction_heap s)) <? Z.shiftr max_size 1)
  | _ => false
  end.

(** A thread's step: [None] when it waits for the lock. Direct writes and reads
    need the lock; the methods of a transaction run while it is held. *)
Definition sys_step (max_size : Z) (ev : Event) s : option (LayeredDatabase * Exec Report unit) :=
  let direct (m : M unit) := if lock s then None else Some (m s) in
  let in_txn (m : M unit) := if lock s then Some (m s) else None in
  match ev with
  | EvInsert late now name k v => direct (checked late (insert_queued now name k v))
  | EvRemove late now name k => direct (checked late (remove_queued now name k))
  | EvClear late name => direct (checked late (clear_table_queued name))
  | EvBegin late => direct (checked late begin_txn)
  | EvTxInsert now name k v => in_txn (txmut_insert now name k v)
  | EvTxRemove now name k => in_txn (txmut_remove now name k)
  | EvTxEvict name keys => in_txn (evict_persistent_batch name keys)
  | EvTxClear name => in_txn (txmut_clear_table name)
  | EvCommit => in_txn txmut_commit
  | EvDrop => in_txn txmut_drop
  | EvPersist late reply => Some (checked late (send (CaughtUp reply)) s)
  | EvShutdown => Some (send Shutdown s)
  | EvRead now name k => direct (modify (fun s => with_mem_db
      (contains_key_impl now name k (mem_db s)).2 s))
  | EvWriter now =>
      if lock s && writer_locks max_size s then None
      else match writer_step now max_size s with
      | Ret s' => Some (s', Ret tt)
      | Err e => Some (s, Err e)
      | Panic => Some (s, Panic)
      | Diverge => Some (s, Diverge)
      end
  end.

(** [LayeredDatabase::open_with_config] with its tables opened: an empty cache
    over the given persistent tier. *)
Definition layered_open (tables : list string) (d : DB) (signal : option (option string)) :
    LayeredDatabase := {|
  mem_db := foldr open_table ∅ tables; db := d; queue := []; depth := 0; fatal := None;
  fatal_signal := signal; replies := []; lock := false; txn := None; committed_ops := [];
  eviction_heap := []; pc := Idle |}.

End layered.

#[global] Arguments LayeredDatabase {H} (DB TXMut)%_type_scope.
