(* ===== verification/LayeredKey.v ===== *)
(** * One key of the layered database

    The layered database seen from a single key: its cached row, the flag of
    its table, its persistent value, and the queued operations that concern it.
    The invariant says why the cache may answer for the persistent tier and the
    other way round, and the history says which values a read spread over
    several steps may return. *)
From S2P Require Import Prelude State.

(** ** The machine *)

(** An operation on the key: an insertion, a removal, a clear of the table that
    covered the row of the key, or a clear that found no row for it. *)
Inductive KOp :=
  | KIns (v : Bytes)
  | KDel
  | KClr
  | KWipe.

#[export] Instance KOp_eq_dec : EqDecision KOp.
Proof. solve_decision. Defined.

Definition kapply (d : option Bytes) (o : KOp) : option Bytes :=
  match o with KIns v => Some v | _ => None end.

Definition kreplay (d : option Bytes) (l : list KOp) : option Bytes := foldl kapply d l.

Definition counted (o : KOp) : bool := match o with KWipe => false | _ => true end.
Definition is_clear (o : KOp) : bool := match o with KClr | KWipe => true | _ => false end.
Definition no_ins (l : list KOp) : Prop := forall v, KIns v ∉ l.

Definition kcount (l : list KOp) : Z := Z.of_nat (length (filter (fun o => counted o = true) l)).

Record KRow := { kr_tomb : bool; kr_count : Z; kr_value : Bytes }.

(** [k_rel]: durable operations whose row is not released yet; [k_pend]:
    operations that are not durable; [k_abs]: what the key holds for clients. *)
Record KState := {
  k_row : option KRow; k_clearing : bool; k_db : option Bytes;
  k_rel : list KOp; k_pend : list KOp; k_abs : option Bytes
}.

Definition row_count (r : option KRow) : Z := from_option kr_count 0 r.
Definition row_value (r : option KRow) : Bytes := from_option kr_value [] r.

Definition bump (b : bool) (v : Bytes) (r : option KRow) : option KRow :=
  Some {| kr_tomb := b; kr_count := row_count r + 1; kr_value := v |}.

Definition kdec (r : KRow) : KRow :=
  {| kr_tomb := kr_tomb r; kr_count := kr_count r - 1; kr_value := kr_value r |}.

Inductive kstep : KState -> KState -> Prop :=
  | ks_insert v row c d rel pend a :
      kstep (Build_KState row c d rel pend a)
            (Build_KState (bump false v row) c d rel (pend ++ [KIns v]) (Some v))
  | ks_remove row c d rel pend a :
      kstep (Build_KState row c d rel pend a)
            (Build_KState (bump true (row_value row) row) c d rel (pend ++ [KDel]) None)
  | ks_clear r c d rel pend a :
      kstep (Build_KState (Some r) c d rel pend a)
            (Build_KState (bump true (kr_value r) (Some r)) true d rel (pend ++ [KClr]) None)
  | ks_wipe c d rel pend a :
      kstep (Build_KState None c d rel pend a)
            (Build_KState None true d rel (pend ++ [KWipe]) None)
  | ks_durable o row c d rel pend a :
      kstep (Build_KState row c d rel (o :: pend) a)
            (Build_KState row c (kapply d o) (rel ++ [o]) pend a)
  | ks_skip r c d rel pend a : kr_tomb r = false ->
      kstep (Build_KState (Some r) c d rel (KDel :: pend) a)
            (Build_KState (Some r) c d (rel ++ [KDel]) pend a)
  | ks_release o row c d rel pend a :
      kstep (Build_KState row c d (o :: rel) pend a)
            (Build_KState (if counted o then kdec <$> row else row)
               (if is_clear o then false else c) d rel pend a)
  | ks_evict r c d rel pend a : kr_count r = 0 ->
      kstep (Build_KState (Some r) c d rel pend a)
            (Build_KState None c d rel pend a).

(** ** The invariant *)

Record kinv (ks : KState) : Prop := {
  ki_count : row_count (k_row ks) = kcount (k_rel ks ++ k_pend ks);
  ki_row : forall r, k_row ks = Some r ->
    k_abs ks = if kr_tomb r then None else Some (kr_value r);
  ki_replay : kreplay (k_db ks) (k_pend ks) = k_abs ks;
  ki_wipe : k_clearing ks = false -> KWipe ∈ k_pend ks -> k_db ks = None;
  ki_order : forall p1 p2, k_rel ks ++ k_pend ks = p1 ++ KWipe :: p2 -> no_ins p1;
  ki_clearing : k_clearing ks = true -> exists p1 o p2,
    k_rel ks ++ k_pend ks = p1 ++ o :: p2 /\ is_clear o = true /\ (no_ins p2 -> k_abs ks = None);
  ki_rel : forall p1 o p2, k_rel ks = p1 ++ o :: p2 -> is_clear o = true -> no_ins p2 ->
    k_db ks = None
}.

(** ** Lemmas *)

Lemma snoc_split {A} (l p1 p2 : list A) x y : l ++ [x] = p1 ++ y :: p2 ->
  (p2 = [] /\ x = y /\ p1 = l) \/ exists p2', p2 = p2' ++ [x] /\ l = p1 ++ y :: p2'.
Proof.
  destruct p2 as [|z p2 _] using rev_ind; intros Heq.
  - left. apply app_inj_tail in Heq as [-> ->]. done.
  - right. exists p2. rewrite app_comm_cons, app_assoc in Heq. apply app_inj_tail in Heq as [-> ->].
    done.
Qed.

Lemma kcount_app l k : kcount (l ++ k) = kcount l + kcount k.
Proof. unfold kcount. rewrite filter_app, length_app. lia. Qed.

Lemma kcount_cons o l : kcount (o :: l) = (if counted o then 1 else 0) + kcount l.
Proof. unfold kcount. rewrite filter_cons. destruct o; simpl; lia. Qed.

Lemma kcount_nonneg l : 0 <= kcount l.
Proof. unfold kcount. lia. Qed.

Lemma kcount_zero l o : kcount l = 0 -> o ∈ l -> o = KWipe.
Proof.
  intros Hz Hin. destruct (counted o) eqn:Ho; [|by destruct o].
  exfalso. unfold kcount in Hz. assert (length (filter (fun o => counted o = true) l) = 0%nat) as Hz' by lia.
  apply nil_length_inv in Hz'.
  assert (o ∈ filter (fun o => counted o = true) l) as Hf by (by apply list_elem_of_filter).
  rewrite Hz' in Hf. by apply elem_of_nil in Hf.
Qed.

Lemma kreplay_cons d o l : kreplay d (o :: l) = kreplay (kapply d o) l.
Proof. done. Qed.

Lemma kreplay_snoc d l o : kreplay d (l ++ [o]) = kapply (kreplay d l) o.
Proof. unfold kreplay. by rewrite foldl_app. Qed.

Lemma kreplay_app d l k : kreplay d (l ++ k) = kreplay (kreplay d l) k.
Proof. unfold kreplay. by rewrite foldl_app. Qed.

(** The last operation decides. *)
Lemma kreplay_ne d d' l : l <> [] -> kreplay d l = kreplay d' l.
Proof. destruct l as [|o l _] using rev_ind; [done|]. intros _. by rewrite !kreplay_snoc. Qed.

Lemma kreplay_no_ins d l : no_ins l -> l <> [] -> kreplay d l = None.
Proof.
  destruct l as [|o l _] using rev_ind; [done|]. intros Hn _. rewrite kreplay_snoc.
  destruct o; try done. exfalso. apply (Hn v). set_solver.
Qed.

Lemma no_ins_wipes l : kcount l = 0 -> no_ins l.
Proof. intros Hz v Hin. by apply (kcount_zero _ _ Hz) in Hin. Qed.

Lemma no_ins_app l k : no_ins (l ++ k) <-> no_ins l /\ no_ins k.
Proof.
  unfold no_ins. setoid_rewrite elem_of_app. firstorder.
Qed.

Lemma no_ins_snoc l o : (forall v, o <> KIns v) -> no_ins (l ++ [o]) <-> no_ins l.
Proof.
  intros Ho. rewrite no_ins_app. split; [tauto|]. intros; split; [done|].
  intros v Hv%list_elem_of_singleton. by apply (Ho v).
Qed.

(** Without a row the persistent tier answers, unless a clear is on its way. *)
Lemma kinv_no_row ks : kinv ks -> k_row ks = None ->
  k_abs ks = if k_clearing ks then None else k_db ks.
Proof.
  intros [Hc _ Hrep Hw _ Hcl _] Hrow. rewrite Hrow in Hc. simpl in Hc. symmetry in Hc.
  pose proof (no_ins_wipes _ Hc) as Hn. destruct (k_clearing ks) eqn:Hclr.
  - destruct Hcl as (p1 & o & p2 & Heq & _ & Habs); [done|]. apply Habs.
    rewrite Heq in Hn. apply no_ins_app in Hn as [_ Hn]. intros v Hv. apply (Hn v). by right.
  - apply no_ins_app in Hn as [_ Hn]. rewrite <- Hrep. destruct (k_pend ks) as [|o p] eqn:Hp; [done|].
    rewrite kreplay_no_ins by done. symmetry. apply Hw; [done|].
    rewrite (kcount_zero _ o Hc) by set_solver. by left.
Qed.

(** A settled row agrees with what the lower tier answers: it may be dropped. *)
Lemma kinv_evict r c d rel pend a : kr_count r = 0 ->
  kinv (Build_KState (Some r) c d rel pend a) -> kinv (Build_KState None c d rel pend a).
Proof.
  intros Hz [Hc Hr Hrep Hw Ho Hcl Hrel]. split; try done. simpl in *. lia.
Qed.

(** Appending an operation at the end of the queue. *)
Lemma kinv_append row row' c c' d rel pend a o :
  kinv (Build_KState row c d rel pend a) ->
  row_count row' = row_count row + (if counted o then 1 else 0) ->
  (forall r, row' = Some r -> kapply a o = if kr_tomb r then None else Some (kr_value r)) ->
  (o = KWipe -> row = None) -> c' = (if is_clear o then true else c) ->
  kinv (Build_KState row' c' d rel (pend ++ [o]) (kapply a o)).
Proof.
  intros [Hc Hr Hrep Hw Ho Hcl Hrel] Hcnt Hrow Hnone ->. split; simpl in *.
  - rewrite app_assoc, kcount_app, Hcnt, Hc, kcount_cons. unfold kcount at 3. simpl. lia.
  - done.
  - by rewrite kreplay_snoc, Hrep.
  - intros Hf [Hin|Hin%list_elem_of_singleton]%elem_of_app.
    + apply Hw; [|done]. by destruct o.
    + subst o. done.
  - intros p1 p2. rewrite app_assoc. intros [(-> & -> & ->)|(p2' & -> & Heq)]%snoc_split.
    + apply no_ins_wipes. rewrite <- Hc, (Hnone eq_refl). done.
    + by eapply Ho.
  - destruct (is_clear o) eqn:Hio.
    + intros _. exists (rel ++ pend), o, []. rewrite app_assoc. split_and!; try done. by destruct o.
    + intros Hct. destruct (Hcl Hct) as (p1 & o' & p2 & Heq & Ho' & Habs).
      exists p1, o', (p2 ++ [o]). rewrite app_assoc, Heq, <- app_assoc. split_and!; try done.
      intros [_ Hn]%no_ins_app. destruct o; try done. exfalso. apply (Hn v). by left.
  - done.
Qed.

Lemma kinv_durable o row c d rel pend a :
  kinv (Build_KState row c d rel (o :: pend) a) ->
  kinv (Build_KState row c (kapply d o) (rel ++ [o]) pend a).
Proof.
  intros [Hc Hr Hrep Hw Ho Hcl Hrel]; simpl in *. split; simpl; rewrite <- ?app_assoc; simpl; try done.
  - intros Hf Hin. destruct o as [v| | |]; try done. exfalso.
    apply list_elem_of_split in Hin as (p1 & p2 & ->).
    apply (Ho (rel ++ KIns v :: p1) p2) with v; [by rewrite <- app_assoc|set_solver].
  - intros p1 o' p2 [(-> & <- & ->)|(p2' & -> & ->)]%snoc_split Ho' Hn.
    + by destruct o.
    + apply no_ins_app in Hn as [Hn Hn']. destruct o; try done. exfalso. apply (Hn' v). by left.
Qed.

Lemma kinv_skip r c d rel pend a : kr_tomb r = false ->
  kinv (Build_KState (Some r) c d rel (KDel :: pend) a) ->
  kinv (Build_KState (Some r) c d (rel ++ [KDel]) pend a).
Proof.
  intros Ht [Hc Hr Hrep Hw Ho Hcl Hrel]; simpl in *. split; simpl; rewrite <- ?app_assoc; simpl; try done.
  - rewrite <- Hrep. destruct pend as [|o pend]; [|by apply kreplay_ne].
    specialize (Hr _ eq_refl). rewrite Ht in Hr. rewrite Hr in Hrep. done.
  - intros Hf Hin. apply Hw; [done|by right].
  - intros p1 o' p2 [(-> & <- & ->)|(p2' & -> & ->)]%snoc_split Ho' Hn; [done|].
    eapply Hrel; [done..|]. by apply no_ins_app in Hn as [Hn _].
Qed.

Lemma kinv_release o row c d rel pend a :
  kinv (Build_KState row c d (o :: rel) pend a) ->
  kinv (Build_KState (if counted o then kdec <$> row else row)
    (if is_clear o then false else c) d rel pend a).
Proof.
  intros [Hc Hr Hrep Hw Ho Hcl Hrel]; simpl in *. split; simpl; try done.
  - rewrite kcount_cons in Hc. pose proof (kcount_nonneg (rel ++ pend)).
    destruct row, (counted o); simpl in *; lia.
  - intros r Hrow. destruct (counted o), row as [r0|]; simplify_eq/=; by apply (Hr _ eq_refl).
  - destruct (is_clear o) eqn:Hio; [|done]. intros _ Hin.
    apply (Hrel [] o rel); [done..|]. apply list_elem_of_split in Hin as (p1 & p2 & ->).
    assert (no_ins (o :: rel ++ p1)) as Hn by (apply (Ho _ p2); simpl; by rewrite <- app_assoc).
    intros v Hv. apply (Hn v). right. set_solver.
  - intros p1 p2 Heq v Hv. apply (Ho (o :: p1) p2) with v; [simpl; by rewrite Heq|by right].
  - destruct (is_clear o) eqn:Hio; [done|]. intros Hct.
    destruct (Hcl Hct) as ([|o' p1] & o2 & p2 & Heq & Ho2 & Habs); simplify_eq/=; [congruence|].
    by exists p1, o2, p2.
  - intros p1 o' p2 -> Ho' Hn. by apply (Hrel (o :: p1) o' p2).
Qed.

(** The invariant is inductive. *)
Lemma kinv_step ks ks' : kstep ks ks' -> kinv ks -> kinv ks'.
Proof.
  destruct 1; intros Hi.
  - apply (kinv_append row _ c _ d rel pend a (KIns v)); try done. by intros r [= <-].
  - apply (kinv_append row _ c _ d rel pend a KDel); try done. by intros r [= <-].
  - apply (kinv_append (Some r) _ c _ d rel pend a KClr); try done. by intros r' [= <-].
  - apply (kinv_append None _ c _ d rel pend a KWipe); try done.
  - by apply kinv_durable.
  - by apply kinv_skip.
  - by apply kinv_release.
  - by eapply kinv_evict.
Qed.

(** A release always finds its row in flight. *)
Lemma kinv_release_row o row c d rel pend a :
  kinv (Build_KState row c d (o :: rel) pend a) -> counted o = true -> 0 < row_count row.
Proof.
  intros [Hc _ _ _ _ _ _] Ho. simpl in *. rewrite kcount_cons, Ho in Hc.
  pose proof (kcount_nonneg (rel ++ pend)). lia.
Qed.

(** ** Histories *)

(** [H] holds of what the key held at some moment since a read found no row for
    it. Whatever the persistent tier can answer from now on is such a value:
    its content follows the queue, prefix by prefix. While a clear is on its
    way the content before the clear is excluded. *)
Record khist (H : option Bytes -> Prop) (ks : KState) : Prop := {
  kh_direct : k_clearing ks = false -> forall p q, k_pend ks = p ++ q -> H (kreplay (k_db ks) p);
  kh_clearing : k_clearing ks = true -> H None /\ forall p q o, k_pend ks = p ++ q ->
    o ∈ k_rel ks ++ p -> is_clear o = true -> H (kreplay (k_db ks) p)
}.

Lemma khist_start (H : option Bytes -> Prop) ks : kinv ks -> k_row ks = None -> H (k_abs ks) ->
  khist H ks.
Proof.
  intros Hi Hrow HH. pose proof (kinv_no_row _ Hi Hrow) as Habs.
  destruct Hi as [Hc _ Hrep Hw _ _ Hrel]. rewrite Hrow in Hc. symmetry in Hc. simpl in Hc.
  pose proof (no_ins_wipes _ Hc) as [Hnr Hn]%no_ins_app.
  split; intros Hcl; rewrite Hcl in Habs; rewrite Habs in HH.
  - intros p q Hp. destruct p as [|o p]; [done|].
    rewrite kreplay_no_ins; [|rewrite Hp in Hn; by apply no_ins_app in Hn as [? _]|done].
    rewrite Hw in HH; [done..|].
    rewrite <- (kcount_zero _ o Hc) at 1 by (rewrite Hp; set_solver). rewrite Hp. by left.
  - split; [done|]. intros p q o Hp Hin Ho. destruct p as [|o' p].
    + simpl. destruct (k_db ks) as [v|] eqn:Hd; [|done]. exfalso.
      rewrite app_nil_r in Hin. apply list_elem_of_split in Hin as (p1 & p2 & Hrl).
      enough (Some v = None) by done. apply (Hrel p1 o p2); [done..|].
      rewrite Hrl in Hnr. apply no_ins_app in Hnr as [_ Hnr]. intros w ?. apply (Hnr w). by right.
    + rewrite kreplay_no_ins; [done| |done]. rewrite Hp in Hn. by apply no_ins_app in Hn as [? _].
Qed.

Lemma khist_append (H H' : option Bytes -> Prop) row row' c c' d rel pend a o :
  kinv (Build_KState row c d rel pend a) -> khist H (Build_KState row c d rel pend a) ->
  (forall x, H x -> H' x) -> H' (kapply a o) -> c' = (if is_clear o then true else c) ->
  khist H' (Build_KState row' c' d rel (pend ++ [o]) (kapply a o)).
Proof.
  intros Hi [Hd Hc] Hsub Habs ->. pose proof (ki_replay _ Hi) as Hrep. simpl in *.
  assert (forall p q, pend ++ [o] = p ++ q -> (exists q', pend = p ++ q') \/
    kreplay d p = kapply a o) as Hpre.
  { intros p q. destruct q as [|x q _] using rev_ind; intros Heq.
    - right. rewrite app_nil_r in Heq. subst p. by rewrite kreplay_snoc, Hrep.
    - left. rewrite app_assoc in Heq. apply app_inj_tail in Heq as [-> _]. by eexists. }
  split; simpl.
  - intros Hf p q Heq. assert (c = false) as -> by (by destruct (is_clear o)).
    destruct (Hpre _ _ Heq) as [[q' ->]| ->]; [|done]. eapply Hsub, Hd; done.
  - intros Hct. split.
    + destruct (is_clear o) eqn:Ho; [by destruct o|]. apply Hsub, Hc. done.
    + intros p q o' Heq Hin Ho'. destruct (Hpre _ _ Heq) as [[q' ->]| ->]; [|done].
      apply Hsub. destruct c; [by eapply Hc|by eapply Hd].
Qed.

(** Every step keeps the history, extended with what the key holds after it. *)
Lemma khist_step (H H' : option Bytes -> Prop) ks ks' : kstep ks ks' -> kinv ks -> khist H ks ->
  (forall x, H x -> H' x) -> H' (k_abs ks') -> khist H' ks'.
Proof.
  destruct 1; intros Hi Hh Hsub Habs.
  - by eapply (khist_append H H' row _ c _ d rel pend a (KIns v)).
  - by eapply (khist_append H H' row _ c _ d rel pend a KDel).
  - by eapply (khist_append H H' (Some r) _ c _ d rel pend a KClr).
  - by eapply (khist_append H H' None _ c _ d rel pend a KWipe).
  - destruct Hh as [Hd Hc]. simpl in *. split; simpl.
    + intros Hf p q ->. apply Hsub, (Hd Hf (o :: p) q). done.
    + intros Ht. destruct (Hc Ht) as [HN Hp]. split; [auto|]. intros p q o' -> Hin Ho'.
      apply Hsub, (Hp (o :: p) q o'); [done| |done]. set_solver.
  - destruct Hh as [Hd Hc]. simpl in *. split; simpl.
    + intros Hf p q Hpq. apply Hsub. destruct p as [|o p]; [by apply (Hd Hf [] (KDel :: pend))|].
      rewrite (kreplay_ne d None) by done. apply (Hd Hf (KDel :: o :: p) q). by rewrite Hpq.
    + intros Ht. destruct (Hc Ht) as [HN Hp]. split; [auto|]. intros p q o' Hpq Hin Ho'. apply Hsub.
      destruct p as [|o p].
      * apply (Hp [] (KDel :: pend) o'); [done| |done].
        rewrite app_nil_r in *. apply elem_of_app in Hin as [?|Hin%list_elem_of_singleton]; [done|].
        by subst o'.
      * rewrite (kreplay_ne d None) by done. apply (Hp (KDel :: o :: p) q o'); [by rewrite Hpq| |done].
        set_solver.
  - destruct Hh as [Hd Hc]. simpl in *. split; simpl.
    + intros Hf p q Hpq. apply Hsub. destruct c; [|by eapply Hd].
      destruct (is_clear o) eqn:Ho; [|done]. eapply Hc; [done..| |done]. by left.
    + destruct (is_clear o) eqn:Ho; [done|]. intros Ht. destruct (Hc Ht) as [HN Hp]. split; [auto|].
      intros p q o' Hpq Hin Ho'. apply Hsub. eapply Hp; [done| |done]. by right.
  - destruct Hh as [Hd Hc]. simpl in *. split; simpl; intros Hx; [eauto|].
    destruct (Hc Hx). split; eauto.
Qed.

(** [H] holds of what the key held since a read found its row not deleted: a
    row holds such a value, or is a tombstone made since for a missing row. *)
Definition kvals (H : option Bytes -> Prop) (ks : KState) : Prop :=
  forall r, k_row ks = Some r -> H (Some (kr_value r)) \/ kr_tomb r = true /\ kr_value r = [].

Lemma kvals_step (H H' : option Bytes -> Prop) ks ks' : kstep ks ks' -> kvals H ks ->
  (forall x, H x -> H' x) -> H' (k_abs ks') -> kvals H' ks'.
Proof.
  destruct 1; intros Hv Hsub Habs r' Hr; unfold kvals, bump in *; simplify_eq/=.
  - by left.
  - destruct row as [r|]; simpl; [|by right]. destruct (Hv _ eq_refl) as [?|[? ?]]; [left; auto|by right].
  - destruct (Hv _ eq_refl) as [?|[? ?]]; [left; auto|by right].
  - destruct (Hv _ eq_refl) as [?|?]; [left; auto|by right].
  - destruct (Hv _ eq_refl) as [?|?]; [left; auto|by right].
  - destruct (counted o), row as [r|]; simplify_eq/=;
      (destruct (Hv _ eq_refl) as [?|?]; [left; auto|by right]).
Qed.

(** The same once a read has seen no clear on its way: nothing is excluded. *)
Definition kpre (H : option Bytes -> Prop) (ks : KState) : Prop :=
  forall p q, k_pend ks = p ++ q -> H (kreplay (k_db ks) p).

Lemma kpre_start H ks : khist H ks -> k_clearing ks = false -> kpre H ks.
Proof. intros [Hd _] Hc p q Hp. by eapply Hd. Qed.

Lemma kpre_append (H H' : option Bytes -> Prop) row row' c c' d rel pend a a' o :
  kreplay d pend = a -> kpre H (Build_KState row c d rel pend a) -> (forall x, H x -> H' x) ->
  H' (kapply a o) -> kpre H' (Build_KState row' c' d rel (pend ++ [o]) a').
Proof.
  intros Hrep Hp Hsub Habs p q. simpl. destruct q as [|x q _] using rev_ind; intros Heq.
  - rewrite app_nil_r in Heq. subst p. by rewrite kreplay_snoc, Hrep.
  - rewrite app_assoc in Heq. apply app_inj_tail in Heq as [Heq _]. by eapply Hsub, Hp.
Qed.

Lemma kpre_step (H H' : option Bytes -> Prop) ks ks' : kstep ks ks' -> kinv ks -> kpre H ks ->
  (forall x, H x -> H' x) -> H' (k_abs ks') -> kpre H' ks'.
Proof.
  destruct 1; intros Hi Hp Hsub Habs; try (by eapply kpre_append; [apply (ki_replay _ Hi)|..]).
  - intros p q Hpq. simpl in Hpq. subst pend. by eapply Hsub, (Hp (o :: p) q).
  - intros p q Hpq. simpl in *. apply Hsub. destruct p as [|o p]; [by apply (Hp [] (KDel :: pend))|].
    rewrite (kreplay_ne d None) by done. apply (Hp (KDel :: o :: p) q). simpl. by rewrite Hpq.
  - intros p q Hpq. by eapply Hsub, (Hp p q).
  - intros p q Hpq. by eapply Hsub, (Hp p q).
Qed.

Lemma khist_mono (H H' : option Bytes -> Prop) ks : khist H ks -> (forall x, H x -> H' x) -> khist H' ks.
Proof. intros [Hd Hc] Hs. split; intros Hx; [eauto|]. destruct (Hc Hx). split; eauto. Qed.

Lemma kpre_mono (H H' : option Bytes -> Prop) ks : kpre H ks -> (forall x, H x -> H' x) -> kpre H' ks.
Proof. intros Hp Hs p q ?. eauto. Qed.

Lemma kvals_mono (H H' : option Bytes -> Prop) ks : kvals H ks -> (forall x, H x -> H' x) -> kvals H' ks.
Proof. intros Hp Hs r Hr. destruct (Hp r Hr); auto. Qed.
