(* ===== verification/LayeredSim.v ===== *)
(** * The layered database simulates its keys

    Every step of a thread on the shared state of [LayeredDb] is followed, key
    by key, by the machine of [LayeredKey], as long as the key is not archived
    away. *)
From S2P Require Import Prelude State MemDb LayeredDb LayeredKey.
From stdpp Require Import strings.

#[local] Open Scope Z_scope.

(** What a key holds for clients: its row, or else the persistent tier unless a
    clear of the table is on its way. *)
Definition contents `{!Codec} {DB TXMut} `{!Database DB TXMut} `{!DatabaseOk DB TXMut}
    (s : LayeredDatabase DB TXMut) (n : string) (kb : Bytes) : option Bytes :=
  match row_of (mem_db s) n kb with
  | Some e => if tombstoned e then None else Some (value e)
  | None => if is_clearing n (mem_db s) then None else db_view (db s) !! (n, kb)
  end.

Section simulation.
Context `{!Codec} {DB TXMut : Type} `{!Database DB TXMut} `{!DatabaseOk DB TXMut} `{!CodecOk}.
Context (n : string) (kb : Bytes).
Implicit Types s : LayeredDatabase DB TXMut.

(** ** Projections to the key *)

Definition del_ops (name : string) (keys : list Key) : list KOp :=
  keys ≫= fun k => if decide (name = n /\ encode_key k = kb) then [KDel] else [].
#[local] Arguments del_ops : simpl never.

Definition op_key (op : DeferredOp) : list KOp :=
  match op with
  | DInsert i => if decide (ins_table i = n /\ encode_key (ins_key i) = kb)
                 then [KIns (encode (ins_value i))] else []
  | DRemove r => del_ops (remove_table r) (remove_op_keys r)
  | DClear c => if decide (clr_table c = n)
                then [if decide (kb ∈ clr_keys c) then KClr else KWipe] else []
  end.

Definition msg_op (msg : DBMessage) : list DeferredOp :=
  match msg with
  | MsgInsert i => [DInsert i]
  | MsgRemove r => [DRemove r]
  | MsgClear c => [DClear c]
  | _ => []
  end.

Abbreviation queue_ops q := (q ≫= msg_op).

Definition krow (e : StoreEntry) : KRow :=
  {| kr_tomb := tombstoned e; kr_count := in_flight e; kr_value := value e |}.

(** The removals the writer is in the middle of. *)
Definition cur_ops (p : WriterPc) : list KOp :=
  match p with
  | Removing r keys => del_ops (remove_table r) keys
  | RemovingKey r k keys => del_ops (remove_table r) (k :: keys)
  | _ => []
  end.

(** The releases to come that concern the key, with the operations they stand
    for. *)
Inductive rel_match : list Release -> list KOp -> Prop :=
  | rm_nil : rel_match [] []
  | rm_key l r o : counted o = true -> is_clear o = false -> rel_match l r ->
      rel_match (RelKey n kb :: l) (o :: r)
  | rm_clear l r keys : rel_match l r ->
      rel_match (RelClear n keys :: l) ((if decide (kb ∈ keys) then KClr else KWipe) :: r)
  | rm_other_key l r name kb' : ~ (name = n /\ kb' = kb) -> rel_match l r ->
      rel_match (RelKey name kb' :: l) r
  | rm_other_clear l r name keys : name <> n -> rel_match l r ->
      rel_match (RelClear name keys :: l) r.

Definition rel_of (p : WriterPc) (f : option string) (rel : list KOp) : Prop :=
  match p with
  | Removing r keys => exists processed, remove_op_keys r = processed ++ keys /\
      rel = del_ops (remove_table r) processed
  | RemovingKey r k keys => exists processed, remove_op_keys r = processed ++ k :: keys /\
      rel = del_ops (remove_table r) processed
  | Releasing l => rel_match l rel
  | _ => rel = [] \/ is_Some f
  end.

(** The relation between the shared state and the machine of the key. [lost]
    are the operations dropped since the database was poisoned, [tail] those
    that were sent after the writer stopped. *)
Record sim (lost tail : list DeferredOp) s (ks : KState) : Prop := {
  sim_row : k_row ks = krow <$> row_of (mem_db s) n kb;
  sim_clearing : k_clearing ks = is_clearing n (mem_db s);
  sim_db : k_db ks = db_view (db s) !! (n, kb);
  sim_pend : k_pend ks = cur_ops (pc s) ++
    ((committed_ops s ++ lost ++ queue_ops (queue s) ++ tail) ≫= op_key);
  sim_rel : rel_of (pc s) (fatal s) (k_rel ks)
}.

(** ** The invariant of the whole state *)

Definition view_op (m : View) (op : DeferredOp) : View :=
  match op with
  | DInsert i => <[(ins_table i, encode_key (ins_key i)) := encode (ins_value i)]> m
  | DRemove r => foldl (fun m k => base.delete (remove_table r, encode_key k) m) m (remove_op_keys r)
  | DClear c => view_clear (clr_table c) m
  end.

Definition clear_ok (op : DeferredOp) : Prop :=
  match op with DClear c => NoDup (clr_keys c) | _ => True end.

Definition release_ok (r : Release) : Prop :=
  match r with RelClear _ keys => NoDup keys | _ => True end.

Record sys_wf (lost tail : list DeferredOp) s : Prop := {
  wf_store : store_wf (mem_db s);
  wf_heap : heap_complete (mem_db s) (eviction_heap s);
  wf_clears : Forall clear_ok (committed_ops s ++ queue_ops (queue s));
  wf_releases : match pc s with Releasing l => Forall release_ok l | _ => True end;
  wf_lost : lost = [] \/ is_Some (fatal s);
  wf_tail : tail = [] \/ pc s = Stopped;
  wf_busy : match pc s with
            | Idle | Stopped => True
            | _ => fatal s = None /\ txn s = None /\ committed_ops s = []
            end;
  wf_txn : fatal s = None ->
    match txn s with
    | None => committed_ops s = []
    | Some t => tx_base t = db_view (db s) /\ tx_view t = foldl view_op (db_view (db s)) (committed_ops s)
    end
}.

(** ** Lemmas on projections *)

Lemma del_ops_app name k1 k2 : del_ops name (k1 ++ k2) = del_ops name k1 ++ del_ops name k2.
Proof. apply bind_app. Qed.

Lemma del_ops_hit name k keys : name = n /\ encode_key k = kb ->
  del_ops name (k :: keys) = KDel :: del_ops name keys.
Proof. intros Hd. unfold del_ops. simpl. by rewrite decide_True. Qed.

Lemma del_ops_miss name k keys : ~ (name = n /\ encode_key k = kb) ->
  del_ops name (k :: keys) = del_ops name keys.
Proof. intros Hd. unfold del_ops. simpl. by rewrite decide_False. Qed.

Lemma view_clear_lookup (name : string) (m : View) (key : string * Bytes) :
  view_clear name m !! key = if decide (key.1 = name) then None else m !! key.
Proof.
  unfold view_clear. case_decide as Hd.
  - apply map_lookup_filter_None. right. intros x _ Hne. by apply Hne.
  - destruct (m !! key) as [v|] eqn:Hv.
    + by apply map_lookup_filter_Some.
    + apply map_lookup_filter_None. by left.
Qed.

Lemma delete_keys_lookup (name : string) (keys : list Key) (m : View) :
  foldl (fun m k => base.delete (name, encode_key k) m) m keys !! (n, kb) =
    kreplay (m !! (n, kb)) (del_ops name keys).
Proof.
  revert m. induction keys as [|k keys IH]; intros m; [done|]. simpl. rewrite IH.
  unfold del_ops at 2. simpl. rewrite kreplay_app. f_equal. case_decide as Hd.
  - destruct Hd as [-> ->]. by rewrite lookup_delete_eq.
  - rewrite lookup_delete_ne; [done|]. intros [= ??]. tauto.
Qed.

Lemma view_op_lookup (op : DeferredOp) (m : View) : view_op m op !! (n, kb) = kreplay (m !! (n, kb)) (op_key op).
Proof.
  destruct op as [i|r|c]; simpl.
  - case_decide as Hd; [destruct Hd as [-> ->]; by rewrite lookup_insert_eq|].
    rewrite lookup_insert_ne; [done|]. intros [= ??]. tauto.
  - apply delete_keys_lookup.
  - rewrite view_clear_lookup. simpl. repeat case_decide; naive_solver.
Qed.

Lemma view_ops_lookup (ops : list DeferredOp) (m : View) :
  foldl view_op m ops !! (n, kb) = kreplay (m !! (n, kb)) (ops ≫= op_key).
Proof.
  revert m. induction ops as [|op ops IH]; intros m; [done|]. simpl.
  by rewrite IH, kreplay_app, view_op_lookup.
Qed.

Lemma rel_match_app l1 l2 r1 r2 : rel_match l1 r1 -> rel_match l2 r2 ->
  rel_match (l1 ++ l2) (r1 ++ r2).
Proof. induction 1; intros; simpl; try constructor; auto. Qed.

Lemma rel_match_dels name keys :
  rel_match ((fun k => RelKey name (encode_key k)) <$> keys) (del_ops name keys).
Proof.
  induction keys as [|k keys IH]; simpl; [constructor|]. unfold del_ops. simpl.
  case_decide as Hd; [destruct Hd as [-> ->]; by constructor|by apply rm_other_key].
Qed.

Lemma rel_match_op op : rel_match (on_applied op) (op_key op).
Proof.
  destruct op as [i|r|c]; simpl; [|apply rel_match_dels|].
  - case_decide as Hd; [destruct Hd as [-> ->]; by repeat constructor|].
    apply rm_other_key; [done|constructor].
  - case_decide as Hd; [rewrite Hd; by repeat constructor|]. apply rm_other_clear; [done|constructor].
Qed.

Lemma rel_match_ops ops : rel_match (ops ≫= on_applied) (ops ≫= op_key).
Proof.
  induction ops as [|op ops IH]; simpl; [constructor|].
  apply rel_match_app; [apply rel_match_op|done].
Qed.

Lemma release_ok_op op : clear_ok op -> Forall release_ok (on_applied op).
Proof.
  destruct op; simpl; intros Hc; [by repeat constructor| |by repeat constructor].
  apply Forall_fmap, Forall_true. done.
Qed.

Lemma release_ok_ops ops : Forall clear_ok ops -> Forall release_ok (ops ≫= on_applied).
Proof.
  induction 1; simpl; [done|]. apply Forall_app. split; [by apply release_ok_op|done].
Qed.

(** ** Lemmas on the tiers *)

Lemma remove_txn_ok name keys t :
  match remove_txn name keys t with
  | (t', Ret _) =>
      tx_view t' = foldl (fun m k => base.delete (name, encode_key k) m) (tx_view t) keys /\
      tx_base t' = tx_base t
  | (_, Err _) => True
  | _ => False
  end.
Proof.
  revert t. induction keys as [|k keys IH]; intros t; simpl; [done|]. unfold mbind, st_bind.
  pose proof (tx_remove_ok name k t) as Hr. pose proof (tx_remove_base name k t) as Hb.
  destruct (tx_remove name k t) as [t' [u|e| |]]; try done. simpl in *.
  specialize (IH t'). destruct (remove_txn name keys t') as [t'' [u'|e| |]]; try done.
  rewrite Hr in IH. by rewrite <- Hb.
Qed.

(** Applying an operation inside the transaction. *)
Lemma apply_txn_Ret op what t s s' : apply_txn op what t s = Ret s' ->
  (exists t', s' = with_txn (Some t') (with_committed_ops (committed_ops s ++ [op]) s) /\
     tx_view t' = view_op (tx_view t) op /\ tx_base t' = tx_base t) \/
  exists t' msg, s' = trip msg (with_txn (Some t') s).
Proof.
  unfold apply_txn. destruct op as [i|r|c].
  - pose proof (tx_insert_ok (ins_table i) (ins_key i) (ins_value i) t) as Hw.
    pose proof (tx_insert_base (ins_table i) (ins_key i) (ins_value i) t) as Hb.
    destruct (tx_insert _ _ _ t) as [t' [u|e| |]]; intros [= <-]; [left|right]; eauto.
  - pose proof (remove_txn_ok (remove_table r) (remove_op_keys r) t) as Hw.
    destruct (remove_txn _ _ t) as [t' [u|e| |]]; intros [= <-]; [left|right]; eauto.
  - pose proof (tx_clear_ok (clr_table c) t) as Hw. pose proof (tx_clear_base (clr_table c) t) as Hb.
    destruct (tx_clear_table _ t) as [t' [u|e| |]]; intros [= <-]; [left|right]; eauto.
Qed.

(** Applying an operation outside a transaction. *)
Lemma apply_direct_Ret op what m f s s' : writes db_view m f -> apply_direct op what m s = Ret s' ->
  exists d, (db_view d = f (db_view (db s)) /\ s' = with_pc (Releasing (on_applied op)) (with_db d s)) \/
    (db_view d = db_view (db s) /\ exists msg, s' = trip msg (with_db d s)).
Proof.
  intros Hw. specialize (Hw (db s)). unfold apply_direct.
  destruct (m (db s)) as [d [u|e| |]]; intros [= <-]; exists d; [left|right]; eauto.
Qed.

(** The writer's steps keep what the key holds. *)
Definition kw (ks ks' : KState) : Prop := kstep ks ks' /\ k_abs ks' = k_abs ks.

Lemma durable_many row c d rel l pend a :
  rtc kw (Build_KState row c d rel (l ++ pend) a)
         (Build_KState row c (kreplay d l) (rel ++ l) pend a).
Proof.
  revert d rel. induction l as [|o l IH]; intros d rel; simpl; [rewrite app_nil_r; apply rtc_refl|].
  eapply rtc_l; [split; [apply ks_durable|done]|].
  replace (rel ++ o :: l) with ((rel ++ [o]) ++ l) by (by rewrite <- app_assoc). apply IH.
Qed.

(** ** The writer *)

Definition same_rows (m m' : StoreType) : Prop :=
  (forall n' kb', krow <$> row_of m' n' kb' = krow <$> row_of m n' kb') /\
  (forall n', is_clearing n' m' = is_clearing n' m).

Lemma krow_packed e e' : krow e = krow e' -> packed e = packed e'.
Proof.
  unfold krow. intros [= Ht Hi _]. rewrite (packed_split e), (packed_split e'). by rewrite Ht, Hi.
Qed.

Lemma same_rows_lookup m m' n' kb' e' : same_rows m m' -> row_of m' n' kb' = Some e' ->
  exists e, row_of m n' kb' = Some e /\ krow e' = krow e.
Proof.
  intros [Hs _] He. specialize (Hs n' kb'). rewrite He in Hs. simpl in Hs.
  symmetry in Hs. apply fmap_Some in Hs as (e & -> & ?). eauto.
Qed.

Lemma same_rows_wf m m' : same_rows m m' -> store_wf m -> store_wf m'.
Proof.
  intros Hs Hwf n' kb' e' (e & He & Hk)%(same_rows_lookup _ _ _ _ _ Hs).
  unfold entry_wf. rewrite (krow_packed _ _ Hk). by apply (Hwf n' kb').
Qed.

Lemma same_rows_heap m m' h : same_rows m m' -> heap_complete m h -> heap_complete m' h.
Proof.
  intros Hs Hc n' kb' e' (e & He & Hk)%(same_rows_lookup _ _ _ _ _ Hs) Hz.
  apply (Hc n' kb' e He). by injection Hk as _ Hi _; congruence.
Qed.

Lemma contains_key_touch now name k m :
  same_rows m (contains_key_impl now name k m).2 /\
  (contains_key_impl now name k m).1 =
    match row_of m name (encode_key k) with Some e => negb (tombstoned e) | None => false end.
Proof.
  unfold contains_key_impl. destruct (row_of m name (encode_key k)) as [e|] eqn:He; [|done].
  destruct (tombstoned e) eqn:Ht; [done|]. split; [|done]. simpl. unfold touch_row. rewrite He.
  split; [|intros n'; apply is_clearing_put_row]. intros n' kb'.
  rewrite row_of_put_row by by eapply row_of_open. case_decide as Hd; [|done].
  destruct Hd as [-> ->]. rewrite He. simpl. unfold touch_approximately. by case_match.
Qed.

Lemma released_krow r r' : released_row r r' ->
  (forall e, r = Some e -> entry_wf e /\ 0 < in_flight e) -> krow <$> r' = kdec <$> (krow <$> r).
Proof.
  destruct r as [e|]; simpl; [|by intros ->]. intros (e' & -> & Hd) Hp.
  destruct (Hp e eq_refl) as [Hw Hpos].
  destruct (dec_in_flight_spec (E := Report) e Hw Hpos) as (e2 & He2 & _ & Hi2 & Ht2 & Hv2 & _).
  rewrite He2 in Hd. simplify_eq/=. unfold krow, kdec. simpl. by rewrite Hi2, Ht2, Hv2.
Qed.

Lemma released_wf r r' e' : released_row r r' -> (forall e, r = Some e -> entry_wf e) ->
  r' = Some e' -> entry_wf e'.
Proof.
  destruct r as [e|]; simpl; [|by intros ->]. intros (e2 & -> & Hd) Hw [= <-].
  specialize (Hw e eq_refl). unfold dec_in_flight in Hd. exec_simpl. unfold entry_wf in *.
  change IN_FLIGHT_UNIT with 2 in *. simpl. lia.
Qed.

Lemma release_wf x m h m' h' : release x (m, h) = Ret (m', h') -> release_ok x -> store_wf m ->
  heap_complete m h -> store_wf m' /\ heap_complete m' h'.
Proof.
  intros Hr Hok Hwf Hc. destruct x as [name kb'|name keys]; simpl in Hr.
  - pose proof (on_op_applied_heap _ _ _ _ _ _ Hr Hc). split; [|done].
    apply on_op_applied_Ret in Hr as (Hrel & Hsame & _). intros n2 kb2 e He.
    destruct (decide (n2 = name /\ kb2 = kb')) as [[-> ->]|Hne];
      [by eapply released_wf; [done|apply Hwf|]|].
    rewrite Hsame in He by done. by eapply Hwf.
  - unfold on_clear_applied in Hr. destruct (m !! name) as [t|] eqn:Ht; [|by injection Hr as <- <-].
    assert (forall n2 kb2, row_of (<[name := set_clearing false t]> m) n2 kb2 = row_of m n2 kb2) as Hrow.
    { intros n2 kb2. unfold row_of. destruct (decide (n2 = name)) as [->|];
        [by rewrite lookup_insert_eq, Ht|by rewrite lookup_insert_ne]. }
    apply release_keys_Ret in Hr as (Hk & Hsame & _ & _ & Hh); [|done]. split.
    + intros n2 kb2 e He. destruct (decide (n2 = name)) as [->|Hne].
      * specialize (Hk kb2). rewrite Hrow in Hk. case_decide; [|rewrite Hk in He; by eapply Hwf].
        by eapply released_wf; [done|apply Hwf|].
      * rewrite Hsame, Hrow in He by done. by eapply Hwf.
    + apply Hh. intros n2 kb2 e. rewrite Hrow. apply Hc.
Qed.

Lemma release_sim x m h m' h' l row c d rel pend a :
  release x (m, h) = Ret (m', h') -> store_wf m -> release_ok x -> rel_match (x :: l) rel ->
  row = krow <$> row_of m n kb -> c = is_clearing n m ->
  kinv (Build_KState row c d rel pend a) ->
  exists rel', rel_match l rel' /\
    rtc kw (Build_KState row c d rel pend a)
           (Build_KState (krow <$> row_of m' n kb) (is_clearing n m') d rel' pend a).
Proof.
  intros Hr Hwf Hok Hm -> -> Hi.
  inversion Hm as [|? r o Ho1 Ho2 Hm'|? r keys Hm'|? ? name kb' Hne Hm'|? ? name keys Hne Hm'];
    subst; simpl in Hr.
  - apply on_op_applied_Ret in Hr as (Hrel & _ & Hcl & _). exists r. split; [done|].
    eapply rtc_l; [split; [apply ks_release|done]|]. rewrite Ho1, Ho2, Hcl.
    rewrite (released_krow _ _ Hrel); [apply rtc_refl|]. intros e He. split; [by eapply Hwf|].
    pose proof (kinv_release_row _ _ _ _ _ _ _ Hi Ho1) as Hp. by rewrite He in Hp.
  - unfold on_clear_applied in Hr. exists r. split; [done|]. 
    destruct (m !! n) as [t|] eqn:Ht.
    + assert (forall kb', row_of (<[n := set_clearing false t]> m) n kb' = row_of m n kb') as Hrow.
      { intros kb'. unfold row_of. by rewrite lookup_insert_eq, Ht. }
      apply release_keys_Ret in Hr as (Hk & _ & Hcl & _); [|done]. specialize (Hk kb).
      rewrite Hrow in Hk. rewrite Hcl.
      assert (is_clearing n (<[n := set_clearing false t]> m) = false) as ->
        by (unfold is_clearing; by rewrite lookup_insert_eq).
      eapply rtc_l; [split; [apply ks_release|done]|]. case_decide as Hin; simpl.
      * rewrite (released_krow _ _ Hk); [apply rtc_refl|]. intros e He. split; [by eapply Hwf|].
        pose proof (kinv_release_row _ _ _ _ _ _ _ Hi eq_refl) as Hp. by rewrite He in Hp.
      * rewrite Hk. apply rtc_refl.
    + injection Hr as <- <-. eapply rtc_l; [split; [apply ks_release|done]|].
      assert (row_of m n kb = None) as -> by (unfold row_of; by rewrite Ht).
      assert (is_clearing n m = false) as -> by (unfold is_clearing; by rewrite Ht).
      case_decide; apply rtc_refl.
  - apply on_op_applied_Ret in Hr as (_ & Hsame & Hcl & _). exists rel. split; [done|].
    rewrite Hsame, Hcl by naive_solver. apply rtc_refl.
  - unfold on_clear_applied in Hr. exists rel. split; [done|].
    destruct (m !! name) as [t|] eqn:Ht; [|injection Hr as <- <-; apply rtc_refl].
    apply release_keys_Ret in Hr as (_ & Hsame & Hcl & _); [|done].
    rewrite Hsame, Hcl by done. unfold row_of, is_clearing. rewrite lookup_insert_ne by done.
    apply rtc_refl.
Qed.

(** The key's machine can follow to a state that simulates [s]. *)
Definition reaches s (ks : KState) : Prop :=
  exists lost tail ks', rtc kw ks ks' /\ sys_wf lost tail s /\ sim lost tail s ks'.

(** Poisoning, and everything the writer does afterwards: the operations it
    drops stay accounted for. *)
Lemma poison_sim lost lost' tail s s' ks :
  sys_wf lost tail s -> sim lost tail s ks ->
  mem_db s' = mem_db s -> eviction_heap s' = eviction_heap s -> db_view (db s') = db_view (db s) ->
  is_Some (fatal s') -> pc s' = Idle \/ pc s' = Stopped -> tail = [] \/ pc s' = Stopped ->
  Forall clear_ok (committed_ops s' ++ queue_ops (queue s')) ->
  cur_ops (pc s) ++ ((committed_ops s ++ lost ++ queue_ops (queue s) ++ tail) ≫= op_key) =
    (committed_ops s' ++ lost' ++ queue_ops (queue s') ++ tail) ≫= op_key ->
  reaches s' ks.
Proof.
  intros Hwf Hs Hm Hh Hd Hf Hpc Htl Hcl Heq. exists lost', tail, ks. split; [apply rtc_refl|]. split.
  - split; rewrite ?Hm, ?Hh; try apply Hwf; try done.
    + by destruct Hpc as [->| ->].
    + by right.
    + by destruct Hpc as [->| ->].
    + intros Hf'. rewrite Hf' in Hf. by destruct Hf.
  - destruct Hs as [Hr Hc Hdb Hp Hrel]. split; rewrite ?Hm, ?Hd; try done.
    + rewrite Hp, Heq. by destruct Hpc as [->| ->].
    + destruct Hpc as [->| ->]; by right.
Qed.

Lemma fatal_trip msg s : is_Some (fatal (trip msg s)).
Proof. by eexists. Qed.

(** After a failure the writer drops what it receives. *)
Lemma poisoned_message_sim lost tail s ks msg q err s' :
  sys_wf lost tail s -> sim lost tail s ks -> pc s = Idle -> queue s = msg :: q ->
  fatal s = Some err ->
  db_run_message msg (with_queue q (with_depth (depth s - 1) s)) = Ret s' -> reaches s' ks.
Proof.
  intros Hwf Hs Hpc Hq Hf. unfold db_run_message. simpl. rewrite Hf. intros Hr.
  assert (tail = []) as -> by (destruct (wf_tail _ _ _ Hwf); [done|congruence]).
  pose proof (wf_clears _ _ _ Hwf) as Hcl. rewrite Hq in Hcl. simpl in Hcl.
  assert (mem_db s' = mem_db s /\ eviction_heap s' = eviction_heap s /\ db s' = db s /\
    fatal s' = Some err /\ (pc s' = Idle \/ pc s' = Stopped) /\ queue s' = q /\
    committed_ops s' = committed_ops s) as (Hm & Hh & Hd & Hf' & Hpc' & Hq' & Hc')
    by (destruct msg; simplify_eq/=; split_and!; auto).
  apply (poison_sim lost (lost ++ msg_op msg) [] s); try done; rewrite ?Hd, ?Hf', ?Hq', ?Hc'; auto.
  - apply Forall_app in Hcl as [H1 [_ H2]%Forall_app]. by apply Forall_app.
  - rewrite Hpc, Hq. simpl. by rewrite <- ?app_assoc, ?app_nil_r.
Qed.

(** An operation that the writer applied inside the open transaction. *)
Lemma txn_op_sim op what t s s' ks q msg :
  sys_wf [] [] s -> sim [] [] s ks -> pc s = Idle -> queue s = msg :: q -> msg_op msg = [op] ->
  fatal s = None -> txn s = Some t ->
  apply_txn op what t (with_queue q (with_depth (depth s - 1) s)) = Ret s' -> reaches s' ks.
Proof.
  intros Hwf Hs Hpc Hq Hmsg Hf Ht Hr.
  pose proof (wf_clears _ _ _ Hwf) as Hcl. rewrite Hq in Hcl. simpl in Hcl. rewrite Hmsg in Hcl.
  apply apply_txn_Ret in Hr as [(t' & -> & Hv & Hb)|(t' & e & ->)].
  - exists [], [], ks. split; [apply rtc_refl|]. split.
    + destruct Hwf as [H1 H2 _ _ _ _ _ H8]. specialize (H8 Hf). rewrite Ht in H8.
      split; simpl; try done; rewrite ?Hpc; auto.
      * by rewrite <- app_assoc.
      * intros _. rewrite Hb, Hv, foldl_app. destruct H8 as [-> ->]. done.
    + destruct Hs as [Hr Hc Hdb Hp Hrel]. split; simpl; try done.
      rewrite Hp, Hpc, Hq. simpl. rewrite Hmsg. by rewrite <- !app_assoc.
  - apply (poison_sim [] [op] [] s); try done; simpl; rewrite ?Hpc; auto.
    + apply Forall_app in Hcl as [HA [_ HB]%Forall_app]. by apply Forall_app.
    + rewrite Hq. simpl. by rewrite Hmsg.
Qed.

(** An operation that the writer applied outside a transaction. *)
Lemma direct_op_sim op what m f s s' ks q msg :
  sys_wf [] [] s -> sim [] [] s ks -> pc s = Idle -> queue s = msg :: q -> msg_op msg = [op] ->
  fatal s = None -> txn s = None -> writes db_view m f -> f (db_view (db s)) = view_op (db_view (db s)) op ->
  apply_direct op what m (with_queue q (with_depth (depth s - 1) s)) = Ret s' -> reaches s' ks.
Proof.
  intros Hwf Hs Hpc Hq Hmsg Hf Ht Hw Hop Hr.
  pose proof (wf_clears _ _ _ Hwf) as Hcl. rewrite Hq in Hcl. simpl in Hcl. rewrite Hmsg in Hcl.
  pose proof (wf_txn _ _ _ Hwf Hf) as Hcom. rewrite Ht in Hcom. rewrite Hcom in Hcl.
  apply Forall_app in Hcl as [_ [Hok Hcl]%Forall_app]. apply Forall_cons in Hok as [Hok _].
  eapply apply_direct_Ret in Hr as (d & [(Hv & ->)|(Hv & e & ->)]); [| |done].
  - destruct ks as [row c d0 rel pend a]. destruct Hs as [Hr Hc Hdb Hp Hrel]. simpl in *.
    rewrite Hpc in Hrel. destruct Hrel as [->|[? Hrel]]; [|congruence].
    rewrite Hpc, Hcom, Hq in Hp. simpl in Hp. rewrite Hmsg in Hp. simpl in Hp. subst pend.
    eexists [], [], _. split; [apply durable_many|]. split.
    + destruct Hwf as [H1 H2 _ _ _ _ _ H8].
      split; simpl; rewrite ?Hcom, ?Ht; auto. by apply release_ok_op.
    + split; simpl; try done.
      * rewrite Hv. simpl. rewrite Hop, view_op_lookup. by rewrite Hdb.
      * by rewrite Hcom.
      * apply rel_match_op.
  - apply (poison_sim [] [op] [] s); try done; simpl; rewrite ?Hpc, ?Hcom; auto.
    rewrite Hq. simpl. by rewrite Hmsg.
Qed.

(** A step that only moves the writer: the key is not concerned. *)
Lemma idle_sim s s' ks :
  sys_wf [] [] s -> sim [] [] s ks -> pc s = Idle -> fatal s = None -> fatal s' = None ->
  mem_db s' = mem_db s -> eviction_heap s' = eviction_heap s -> db s' = db s ->
  queue_ops (queue s') = queue_ops (queue s) -> committed_ops s' = committed_ops s ->
  match pc s' with Idle | Stopped => True | Evicting _ => txn s' = None /\ committed_ops s = []
  | _ => False end ->
  match txn s' with
  | None => committed_ops s = []
  | Some t => tx_base t = db_view (db s) /\ tx_view t = foldl view_op (db_view (db s)) (committed_ops s)
  end -> reaches s' ks.
Proof.
  intros Hwf Hs Hpc Hf Hf' Hm Hh Hd Hq Hc Hpc' Htx. exists [], [], ks. split; [apply rtc_refl|]. split.
  - pose proof Hwf as [H1 H2 H3 _ _ _ _ _]. split; rewrite ?Hm, ?Hh, ?Hd, ?Hc; try done; auto.
    + by rewrite Hq.
    + by destruct (pc s').
    + by destruct (pc s').
  - destruct Hs as [Hr Hcl Hdb Hp Hrel]. rewrite Hpc in Hp, Hrel.
    split; rewrite ?Hm, ?Hd, ?Hc, ?Hq; try done.
    + rewrite Hp. by destruct (pc s').
    + destruct Hrel as [->|[? ?]]; [|congruence]. destruct (pc s'); try done; by left.
Qed.

Lemma start_txn_sim s s' ks q :
  sys_wf [] [] s -> sim [] [] s ks -> pc s = Idle -> queue s = StartTxn :: q -> fatal s = None ->
  db_run_message StartTxn (with_queue q (with_depth (depth s - 1) s)) = Ret s' -> reaches s' ks.
Proof.
  intros Hwf Hs Hpc Hq Hf. unfold db_run_message. simpl. rewrite Hf.
  pose proof (wf_clears _ _ _ Hwf) as Hcl. rewrite Hq in Hcl. simpl in Hcl.
  pose proof (wf_txn _ _ _ Hwf Hf) as Htx. destruct (txn s) as [t|] eqn:Ht.
  - intros [= <-]. apply (poison_sim [] (committed_ops s) [] s); simpl; rewrite ?Hpc, ?Hq; auto.
    by apply Forall_app in Hcl as [_ ?].
  - pose proof (db_write_txn_ok (db s)) as Hw. destruct (db_write_txn (db s)) as [t|e| |]; intros [= <-].
    + apply (idle_sim s); simpl; rewrite ?Hpc, ?Hq, ?Htx; auto.
    + apply (poison_sim [] [] [] s); simpl; rewrite ?Hpc, ?Hq; auto.
Qed.

Lemma commit_txn_sim s s' ks q :
  sys_wf [] [] s -> sim [] [] s ks -> pc s = Idle -> queue s = CommitTxn :: q -> fatal s = None ->
  db_run_message CommitTxn (with_queue q (with_depth (depth s - 1) s)) = Ret s' -> reaches s' ks.
Proof.
  intros Hwf Hs Hpc Hq Hf. unfold db_run_message. simpl. rewrite Hf.
  pose proof (wf_clears _ _ _ Hwf) as Hcl. rewrite Hq in Hcl. simpl in Hcl.
  apply Forall_app in Hcl as [Hc1 Hc2].
  pose proof (wf_txn _ _ _ Hwf Hf) as Htx. destruct (txn s) as [t|] eqn:Ht.
  2: { intros [= <-]. apply (poison_sim [] [] [] s); simpl; rewrite ?Hpc, ?Hq, ?Htx; auto. }
  destruct Htx as [Hb Hv]. pose proof (tx_commit_ok t (db s) Hb) as Hw.
  destruct (tx_commit t (db s)) as [d [u|e| |]]; intros [= <-].
  - destruct ks as [row c d0 rel pend a]. destruct Hs as [Hr Hc Hdb Hp Hrel]. simpl in *.
    rewrite Hpc in Hrel, Hp. destruct Hrel as [->|[? Hrel]]; [|congruence].
    rewrite Hq in Hp. simpl in Hp. rewrite bind_app in Hp. subst pend.
    eexists [], [], _. split; [apply durable_many|]. split.
    + destruct Hwf as [H1 H2 _ _ _ _ _ _]. split; simpl; auto. by apply release_ok_ops.
    + split; simpl; try done; [|apply rel_match_ops].
      rewrite Hw, Hv, view_ops_lookup. by rewrite Hdb.
  - apply (poison_sim [] (committed_ops s) [] s); simpl; rewrite ?Hpc, ?Hq; auto.
Qed.

Lemma remove_direct_sim s ks q rm s' :
  sys_wf [] [] s -> sim [] [] s ks -> pc s = Idle -> queue s = MsgRemove rm :: q -> fatal s = None ->
  txn s = None ->
  s' = with_pc (Removing rm (remove_op_keys rm)) (with_queue q (with_depth (depth s - 1) s)) ->
  reaches s' ks.
Proof.
  intros Hwf Hs Hpc Hq Hf Ht ->. exists [], [], ks. split; [apply rtc_refl|].
  pose proof (wf_txn _ _ _ Hwf Hf) as Htx. rewrite Ht in Htx. split.
  - destruct Hwf as [H1 H2 H3 _ _ _ _ H8]. rewrite Hq in H3.
    split; simpl; rewrite ?Htx, ?Hf, ?Ht; auto. apply Forall_app in H3 as [_ H3].
    by apply Forall_cons in H3 as [_ ?].
  - destruct Hs as [Hr Hcl Hdb Hp Hrel]. rewrite Hpc in Hp, Hrel.
    destruct Hrel as [Hrel|[? ?]]; [|congruence]. split; simpl; try done.
    + rewrite Hp, Hq. simpl. rewrite Htx. done.
    + by exists [].
Qed.

(** Taking a message. *)
Lemma message_sim lost tail s ks msg q s' :
  sys_wf lost tail s -> sim lost tail s ks -> pc s = Idle -> queue s = msg :: q ->
  db_run_message msg (with_queue q (with_depth (depth s - 1) s)) = Ret s' -> reaches s' ks.
Proof.
  intros Hwf Hs Hpc Hq Hr. destruct (fatal s) as [err|] eqn:Hf; [by eapply poisoned_message_sim|].
  assert (tail = []) as -> by (destruct (wf_tail _ _ _ Hwf); [done|congruence]).
  assert (lost = []) as -> by (destruct (wf_lost _ _ _ Hwf) as [|[? ?]]; [done|congruence]).
  pose proof (wf_txn _ _ _ Hwf Hf) as Htx.
  destruct msg; [by eapply start_txn_sim|by eapply commit_txn_sim|..];
    unfold db_run_message in Hr; simpl in Hr; rewrite Hf in Hr; destruct (txn s) as [t|] eqn:Ht.
  - by eapply (txn_op_sim (DInsert ins)).
  - eapply (direct_op_sim (DInsert ins)); [..|exact Hr]; try done. apply db_insert_ok.
  - by eapply (txn_op_sim (DRemove rm)).
  - injection Hr as <-. by eapply remove_direct_sim.
  - by eapply (txn_op_sim (DClear clr)).
  - eapply (direct_op_sim (DClear clr)); [..|exact Hr]; try done. apply db_clear_ok.
  - injection Hr as <-. apply (idle_sim s); simpl; rewrite ?Hpc, ?Hq, ?Ht; auto.
  - injection Hr as <-. apply (idle_sim s); simpl; rewrite ?Hpc, ?Hq, ?Ht; auto.
  - injection Hr as <-. apply (idle_sim s); simpl; rewrite ?Hpc, ?Hq, ?Ht; auto.
  - injection Hr as <-. apply (idle_sim s); simpl; rewrite ?Hpc, ?Hq, ?Ht; auto.
Qed.

(** While the writer works on a message nothing was lost and no transaction is
    open. *)
Lemma busy_wf lost tail s : sys_wf lost tail s ->
  match pc s with Idle | Stopped => False | _ => True end ->
  lost = [] /\ tail = [] /\ fatal s = None /\ txn s = None /\ committed_ops s = [].
Proof.
  intros [_ _ _ _ Hl Ht Hb _] Hp.
  assert (fatal s = None /\ txn s = None /\ committed_ops s = [] /\ pc s <> Stopped) as (Hf & ? & ? & Hs)
    by (destruct (pc s); naive_solver).
  destruct Hl as [->|[? ?]]; [|congruence]. destruct Ht as [->|?]; [|done]. done.
Qed.

(** A look at the cache before a removal: a key that was inserted again keeps
    its persistent value. *)
Lemma removing_sim now lost tail s ks r k keys live m :
  sys_wf lost tail s -> sim lost tail s ks -> pc s = Removing r (k :: keys) ->
  contains_key_impl now (remove_table r) k (mem_db s) = (live, m) ->
  reaches (with_pc (if live then Removing r keys else RemovingKey r k keys) (with_mem_db m s)) ks.
Proof.
  intros Hwf Hs Hpc Hck. destruct (busy_wf _ _ _ Hwf) as (-> & -> & Hf & Ht & Hc); [by rewrite Hpc|].
  pose proof (contains_key_touch now (remove_table r) k (mem_db s)) as [Hsame Hlive].
  rewrite Hck in Hsame, Hlive. simpl in Hsame, Hlive.
  assert (sys_wf [] [] (with_pc (if live then Removing r keys else RemovingKey r k keys)
    (with_mem_db m s))) as Hwf'.
  { pose proof Hwf as [H1 H2 H3 _ _ _ _ H8]. split; simpl; auto.
    - by eapply same_rows_wf.
    - by eapply same_rows_heap.
    - by destruct live.
    - by destruct live. }
  destruct ks as [row c d rel pend a]. destruct Hs as [Hr Hcl Hdb Hp Hrel]. simpl in *.
  rewrite Hpc in Hp, Hrel. simpl in Hp, Hrel. destruct Hrel as (processed & Hkeys & ->).
  destruct live.
  - destruct (decide (remove_table r = n /\ encode_key k = kb)) as [[Hn Hk]|Hne].
    + rewrite Hn, Hk in Hlive. destruct (row_of (mem_db s) n kb) as [e|] eqn:He; [|done].
      simpl in Hr. rewrite del_ops_hit in Hp by done. subst row pend.
      eexists [], [], _. split; [apply rtc_once; split; [apply ks_skip|done]|split; [done|]].
      { simpl. by destruct (tombstoned e). }
      split; simpl; try done.
      * rewrite (proj1 Hsame). by rewrite He.
      * by rewrite (proj2 Hsame).
      * exists (processed ++ [k]). rewrite <- app_assoc. split; [done|].
        by rewrite del_ops_app, del_ops_hit.
    + eexists [], [], _. split; [apply rtc_refl|split; [done|]]. split; simpl; try done.
      * by rewrite (proj1 Hsame).
      * by rewrite (proj2 Hsame).
      * by rewrite Hp, del_ops_miss.
      * exists (processed ++ [k]). rewrite <- app_assoc. split; [done|].
        by rewrite del_ops_app, del_ops_miss, app_nil_r.
  - eexists [], [], _. split; [apply rtc_refl|split; [done|]]. split; simpl; try done.
    + by rewrite (proj1 Hsame).
    + by rewrite (proj2 Hsame).
    + by exists processed.
Qed.

Lemma removing_key_sim lost tail s ks r k keys s' now max_size :
  sys_wf lost tail s -> sim lost tail s ks -> pc s = RemovingKey r k keys ->
  writer_step now max_size s = Ret s' -> reaches s' ks.
Proof.
  intros Hwf Hs Hpc. destruct (busy_wf _ _ _ Hwf) as (-> & -> & Hf & Ht & Hc); [by rewrite Hpc|].
  unfold writer_step. rewrite Hpc. pose proof (db_remove_ok (remove_table r) k (db s)) as Hw.
  destruct (db_remove (remove_table r) k (db s)) as [d [u|e| |]]; intros [= <-].
  - destruct ks as [row c d0 rel pend a]. destruct Hs as [Hr Hcl Hdb Hp Hrel]. simpl in *.
    rewrite Hpc in Hp, Hrel. simpl in Hp, Hrel. destruct Hrel as (processed & Hkeys & ->).
    unfold del_ops at 1 in Hp. simpl in Hp. rewrite <- app_assoc in Hp. subst pend.
    eexists [], [], _. split; [apply durable_many|split].
    + pose proof Hwf as [H1 H2 H3 _ _ _ _ H8]. split; simpl; auto. by rewrite Hf, Ht, Hc.
    + split; simpl; try done.
      * rewrite Hw, Hdb. case_decide as Hd; [destruct Hd as [-> ->]; by rewrite lookup_delete_eq|].
        rewrite lookup_delete_ne; [done|]. intros [= ??]. tauto.
      * exists (processed ++ [k]). rewrite <- app_assoc. split; [done|].
        rewrite del_ops_app. f_equal. unfold del_ops. simpl. by rewrite app_nil_r.
  - apply (poison_sim [] [DRemove (KeyRemoveBatch (remove_table r) (k :: keys))] [] s); simpl;
      rewrite ?Hpc, ?Hc; auto. pose proof (wf_clears _ _ _ Hwf). by rewrite Hc in *.
Qed.

Lemma evicting_sim now max_size lost tail s ks s' reply :
  0 <= max_size -> sys_wf lost tail s -> sim lost tail s ks -> pc s = Evicting reply ->
  writer_step now max_size s = Ret s' -> reaches s' ks.
Proof.
  intros Hmax Hwf Hs Hpc. destruct (busy_wf _ _ _ Hwf) as (-> & -> & Hf & Ht & Hc); [by rewrite Hpc|].
  unfold writer_step. rewrite Hpc.
  destruct (evict_if_needed_spec max_size (mem_db s) (eviction_heap s) Hmax (wf_heap _ _ _ Hwf))
    as (m & h & st & -> & Hev & Hcl & Hop & Hcomp & _). simpl. intros Hs'.
  assert (mem_db s' = m /\ eviction_heap s' = h /\ db s' = db s /\ queue s' = queue s /\
    committed_ops s' = committed_ops s /\ pc s' = Idle /\ fatal s' = fatal s /\ txn s' = txn s)
    as (Hm' & Hh' & Hd' & Hq' & Hc' & Hp' & Hf' & Ht')
    by (destruct reply; injection Hs' as <-; done).
  assert (sys_wf [] [] s') as Hwf'.
  { pose proof Hwf as [H1 H2 H3 _ _ _ _ H8].
    split; rewrite ?Hm', ?Hh', ?Hd', ?Hq', ?Hc', ?Hp', ?Hf', ?Ht'; auto.
    intros n' kb' e He. destruct (Hev n' kb') as [Heq|[Heq _]]; rewrite Heq in He; [by eapply H1|done]. }
  destruct ks as [row c d rel pend a]. destruct Hs as [Hr Hcl' Hdb Hp Hrel]. simpl in *.
  rewrite Hpc in Hp, Hrel. simpl in Hp.
  assert (forall row', row' = krow <$> row_of (mem_db s') n kb ->
    sim [] [] s' (Build_KState row' c d rel pend a)) as Hsim.
  { intros row' Hrow'. split; simpl; rewrite ?Hm', ?Hd', ?Hq', ?Hc', ?Hp', ?Hf'; try done.
    - by rewrite Hrow', Hm'.
    - by rewrite Hcl. }
  destruct (Hev n kb) as [Heq|(Heq & e & He & Hz)].
  - exists [], [], (Build_KState row c d rel pend a). split; [apply rtc_refl|]. split; [done|].
    apply Hsim. by rewrite Hm', Heq.
  - exists [], [], (Build_KState None c d rel pend a). rewrite He in Hr. simpl in Hr. subst row.
    split; [apply rtc_once; split; [by apply ks_evict|done]|]. split; [done|].
    apply Hsim. by rewrite Hm', Heq.
Qed.

(** Every step of the writer. *)
Lemma writer_sim now max_size lost tail s ks s' :
  0 <= max_size -> sys_wf lost tail s -> sim lost tail s ks -> kinv ks ->
  writer_step now max_size s = Ret s' -> reaches s' ks.
Proof.
  intros Hmax Hwf Hs Hi Hr.
  destruct (pc s) as [|r [|k keys]|r k keys|[|x l]|reply|] eqn:Hpc.
  - unfold writer_step in Hr. rewrite Hpc in Hr. destruct (queue s) as [|msg q] eqn:Hq.
    + injection Hr as <-. exists lost, tail, ks. split; [apply rtc_refl|done].
    + by eapply message_sim.
  - unfold writer_step in Hr. rewrite Hpc in Hr. injection Hr as <-.
    exists lost, tail, ks. split; [apply rtc_refl|].
    destruct (busy_wf _ _ _ Hwf) as (-> & -> & Hf & Ht & Hc); [by rewrite Hpc|]. split.
    + pose proof Hwf as [H1 H2 H3 _ _ _ _ H8]. split; simpl; auto.
      apply Forall_fmap, Forall_true. done.
    + destruct Hs as [? ? ? Hp Hrel]. rewrite Hpc in Hp, Hrel. destruct Hrel as (pr & Hk & Hrel).
      split; simpl; try done. rewrite app_nil_r in Hk. rewrite Hrel, <- Hk. apply rel_match_dels.
  - unfold writer_step in Hr. rewrite Hpc in Hr.
    destruct (contains_key_impl now (remove_table r) k (mem_db s)) as [live m] eqn:Hck.
    injection Hr as <-. by eapply removing_sim.
  - by eapply removing_key_sim.
  - unfold writer_step in Hr. rewrite Hpc in Hr. injection Hr as <-.
    exists lost, tail, ks. split; [apply rtc_refl|].
    destruct (busy_wf _ _ _ Hwf) as (-> & -> & Hf & Ht & Hc); [by rewrite Hpc|]. split.
    + pose proof Hwf as [H1 H2 H3 _ _ _ _ H8]. split; simpl; auto.
    + destruct Hs as [? ? ? Hp Hrel]. rewrite Hpc in Hp, Hrel. inversion Hrel as [Hl Hn| | | |].
      split; simpl; try done; try congruence. by left.
  - unfold writer_step in Hr. rewrite Hpc in Hr. exec_inv Hr. destruct v as [m h]. injection Hr as <-.
    destruct (busy_wf _ _ _ Hwf) as (-> & -> & Hf & Ht & Hc); [by rewrite Hpc|].
    pose proof Hwf as [H1 H2 H3 H4 _ _ _ H8]. rewrite Hpc in H4. apply Forall_cons in H4 as [Hok Hoks].
    destruct (release_wf _ _ _ _ _ Hrun Hok H1 H2).
    destruct ks as [row c d rel pend a]. destruct Hs as [Hrw Hcl Hdb Hp Hrel].
    rewrite Hpc in Hp, Hrel. simpl in *.
    eapply (release_sim _ _ _ _ _ l _ _ d) in Hrun as (rel' & Hm & Hst); try done.
    eexists [], [], _. split; [done|]. split; split; simpl; auto.
  - by eapply evicting_sim.
  - unfold writer_step in Hr. rewrite Hpc in Hr. injection Hr as <-.
    exists lost, tail, ks. split; [apply rtc_refl|done].
Qed.

(** ** Producers *)

(** What an event does to what the key holds. *)
Definition ev_effect (ev : Event) (a : option Bytes) : option Bytes :=
  match ev with
  | EvInsert _ _ name k v | EvTxInsert _ name k v =>
      if decide (name = n /\ encode_key k = kb) then Some (encode v) else a
  | EvRemove _ _ name k | EvTxRemove _ name k =>
      if decide (name = n /\ encode_key k = kb) then None else a
  | EvClear _ name | EvTxClear name => if decide (name = n) then None else a
  | _ => a
  end.

(** The event archives the key away. *)
Definition evicts_key (ev : Event) : Prop :=
  match ev with
  | EvTxEvict name keys => name = n /\ kb ∈ encode_key <$> keys
  | _ => False
  end.

(** What a message adds behind the queue. *)
Lemma send_sim lost tail s ks msg m s' r ks' :
  sys_wf lost tail s -> sim lost tail s ks ->
  store_wf m -> heap_complete m (eviction_heap s) -> Forall clear_ok (msg_op msg) ->
  send msg (with_mem_db m s) = (s', r) ->
  k_row ks' = krow <$> row_of m n kb -> k_clearing ks' = is_clearing n m ->
  k_db ks' = k_db ks -> k_rel ks' = k_rel ks -> k_pend ks' = k_pend ks ++ (msg_op msg ≫= op_key) ->
  exists tail', sys_wf lost tail' s' /\ sim lost tail' s' ks'.
Proof.
  intros Hwf Hs Hm Hh Hok Hsend Hr Hc Hd Hrel Hp.
  pose proof Hwf as [_ _ H3 H4 H5 H6 H7 H8]. pose proof Hs as [_ _ Sd Sp Sr].
  unfold send in Hsend. simpl in Hsend.
  assert (pc s = Stopped \/ pc s <> Stopped) as [Hst|Hst]
    by (destruct (pc s); first [by left|by right]).
  - rewrite Hst in Hsend. injection Hsend as <- <-. exists (tail ++ msg_op msg).
    split; split; simpl; auto.
    + by rewrite Hd.
    + rewrite Hp, Sp, Hst. simpl. by rewrite !app_assoc, <- bind_app.
    + by rewrite Hrel.
  - assert (tail = []) as -> by tauto. exists [].
    assert (s' = with_queue (queue s ++ [msg]) (with_depth (depth s + 1) (with_mem_db m s))) as ->
      by (destruct (pc s); by injection Hsend as <- <-).
    split; split; simpl; auto.
    + rewrite bind_app, app_assoc. apply Forall_app. split; [done|]. simpl. by rewrite app_nil_r.
    + by rewrite Hd.
    + rewrite Hp, Sp, (bind_app msg_op). simpl. by rewrite !app_nil_r, !bind_app, !app_assoc.
    + by rewrite Hrel.
Qed.

(** Where the key's machine goes when a thread does [ev]. *)
Definition follows (ev : Event) (r : Exec Report unit) s' (ks : KState) : Prop :=
  exists lost tail ks', (rtc kw ks ks' \/ kstep ks ks') /\ sys_wf lost tail s' /\
    sim lost tail s' ks' /\
    (k_abs ks' = ev_effect ev (k_abs ks) \/ r <> Ret tt /\ k_abs ks' = k_abs ks).

Lemma follows_same ev r lost tail s ks :
  sys_wf lost tail s -> sim lost tail s ks ->
  ev_effect ev (k_abs ks) = k_abs ks \/ r <> Ret tt -> follows ev r s ks.
Proof.
  intros Hwf Hs Hev. exists lost, tail, ks. split; [left; apply rtc_refl|]. split; [done|].
  split; [done|]. destruct Hev as [->|?]; [by left|by right].
Qed.

Lemma heap_complete_put m h name kb' e : is_Some (m !! name) -> heap_complete m h ->
  in_flight e <> 0 -> heap_complete (put_row name kb' e m) h.
Proof.
  intros Ho Hc He n' kb'' e'. rewrite row_of_put_row by done. case_decide; [by intros [= <-]|apply Hc].
Qed.

Lemma store_wf_put m name kb' e : is_Some (m !! name) -> store_wf m -> entry_wf e ->
  store_wf (put_row name kb' e m).
Proof.
  intros Ho Hc He n' kb'' e'. rewrite row_of_put_row by done. case_decide; [by intros [= <-]|apply Hc].
Qed.

Lemma row_write_count lost tail s name kb' m' e' : sys_wf lost tail s ->
  row_write name kb' (mem_db s) m' e' -> 0 < in_flight e' /\ store_wf m' /\
    heap_complete m' (eviction_heap s).
Proof.
  intros [H1 H2 _ _ _ _ _ _] (Ho & -> & Hw & Hi).
  assert (0 < in_flight e').
  { rewrite Hi. destruct (row_of _ _ _) as [e|] eqn:He; [|lia].
    pose proof (in_flight_nonneg e (H1 _ _ _ He)). lia. }
  split; [done|]. split; [by apply store_wf_put|apply heap_complete_put; [done..|lia]].
Qed.

(** A write of one row: the machine takes the step [mk] when the row is the
    key's. *)
Lemma row_write_follows ev lost tail s ks name kb' m' e' msg op s' r o a' :
  sys_wf lost tail s -> sim lost tail s ks -> row_write name kb' (mem_db s) m' e' ->
  send msg (with_mem_db m' s) = (s', r) -> msg_op msg = [op] -> clear_ok op ->
  op_key op = (if decide (name = n /\ kb' = kb) then [o] else []) ->
  kstep ks (Build_KState (Some (krow e')) (k_clearing ks) (k_db ks) (k_rel ks)
              (k_pend ks ++ [o]) a') \/ ~ (name = n /\ kb' = kb) ->
  ev_effect ev (k_abs ks) = (if decide (name = n /\ kb' = kb) then a' else k_abs ks) ->
  follows ev r s' ks.
Proof.
  intros Hwf Hs Hrw Hsend Hmsg Hok Hop Hk Hev.
  destruct (row_write_count _ _ _ _ _ _ _ Hwf Hrw) as (Hpos & Hm & Hh).
  destruct Hrw as (Ho & -> & Hw & Hi). destruct (decide (name = n /\ kb' = kb)) as [Hd|Hd].
  - destruct Hk as [Hk|?]; [|done].
    eapply (send_sim _ _ _ _ _ _ _ _ (Build_KState (Some (krow e')) (k_clearing ks) (k_db ks)
      (k_rel ks) (k_pend ks ++ [o]) a')) in Hsend as (tail' & Hwf' & Hs'); try done; simpl.
    + eexists lost, tail', _. split; [by right|]. split; [done|]. split; [done|]. by left.
    + rewrite Hmsg. by repeat constructor.
    + destruct Hd as [-> ->]. rewrite row_of_put_row by done. by rewrite decide_True.
    + rewrite is_clearing_put_row. apply Hs.
    + rewrite Hmsg. simpl. by rewrite Hop.
  - eapply (send_sim _ _ _ _ _ _ _ _ ks) in Hsend as (tail' & Hwf' & Hs'); try done; simpl.
    + eapply follows_same; [done..|]. by left.
    + rewrite Hmsg. by repeat constructor.
    + rewrite row_of_put_row by done. rewrite decide_False by naive_solver. apply Hs.
    + rewrite is_clearing_put_row. apply Hs.
    + rewrite Hmsg. simpl. rewrite Hop. by rewrite app_nil_r.
Qed.

(** A run of a thread that neither panics nor hangs. *)
Definition completes {A} (r : Exec Report A) : Prop :=
  match r with Ret _ | Err _ => True | _ => False end.

Lemma checked_inv late (m : ST (LayeredDatabase DB TXMut) Report unit) s s' r :
  checked late m s = (s', r) -> m s = (s', r) \/ s' = s /\ exists e, r = Err e.
Proof.
  unfold checked, check_poisoned, mbind, st_bind. destruct late; [by left|].
  destruct (poisoned_error (fatal s)); [|by left]. intros [= <- <-]. eauto.
Qed.

Lemma on_mem_inv f (g : ST (LayeredDatabase DB TXMut) Report unit) s s' r :
  (_ ← on_mem f; g) s = (s', r) -> completes r ->
  (exists m, f (mem_db s) = Ret m /\ g (with_mem_db m s) = (s', r)) \/
  s' = s /\ exists e, r = Err e.
Proof.
  unfold on_mem, mbind, st_bind. destruct (f (mem_db s)) as [m|e| |]; intros Hr Hc.
  - left. eauto.
  - right. injection Hr as <- <-. eauto.
  - by injection Hr as <- <-.
  - by injection Hr as <- <-.
Qed.

Lemma follows_err ev lost tail s ks e :
  sys_wf lost tail s -> sim lost tail s ks -> follows ev (Err e) s ks.
Proof. intros. eapply follows_same; [done..|]. by right. Qed.

Lemma insert_follows late now name k v lost tail s ks s' r ev :
  sys_wf lost tail s -> sim lost tail s ks ->
  checked late (insert_queued now name k v) s = (s', r) -> completes r ->
  ev_effect ev (k_abs ks) =
    (if decide (name = n /\ encode_key k = kb) then Some (encode v) else k_abs ks) ->
  follows ev r s' ks.
Proof.
  intros Hwf Hs [Hr|(-> & e & ->)]%checked_inv Hc Hev; [|by eapply follows_err].
  apply on_mem_inv in Hr as [(m & Hm & Hsend)|(-> & e & ->)]; [|by eapply follows_err|done].
  apply insert_impl_Ret in Hm as (e' & Hrw & Ht & Hv); [|apply Hwf].
  eapply (row_write_follows _ _ _ _ _ _ _ _ _ _ (DInsert _) _ _ (KIns (encode v)) (Some (encode v)));
    try done. destruct (decide (name = n /\ encode_key k = kb)) as [Hd|Hd]; [left|by right].
  destruct Hd as [-> Hk], Hrw as (_ & _ & _ & Hi), ks as [row c d rel pend a]. simpl.
  assert (Some (krow e') = bump false (encode v) row) as ->; [|apply ks_insert].
  pose proof (sim_row _ _ _ _ Hs) as Hrow. simpl in Hrow. rewrite Hrow.
  unfold bump, krow. rewrite Ht, Hv, Hi, Hk. by destruct (row_of (mem_db s) n kb).
Qed.

Lemma remove_follows late now name k lost tail s ks s' r ev :
  sys_wf lost tail s -> sim lost tail s ks ->
  checked late (remove_queued now name k) s = (s', r) -> completes r ->
  ev_effect ev (k_abs ks) = (if decide (name = n /\ encode_key k = kb) then None else k_abs ks) ->
  follows ev r s' ks.
Proof.
  intros Hwf Hs [Hr|(-> & e & ->)]%checked_inv Hc Hev; [|by eapply follows_err].
  apply on_mem_inv in Hr as [(m & Hm & Hsend)|(-> & e & ->)]; [|by eapply follows_err|done].
  apply remove_impl_Ret in Hm as (e' & Hrw & Ht & Hv); [|apply Hwf].
  eapply (row_write_follows _ _ _ _ _ _ _ _ _ _ (DRemove (KeyRemove name k)) _ _ KDel None);
    try done; [by simpl; unfold del_ops; simpl; rewrite app_nil_r|].
  destruct (decide (name = n /\ encode_key k = kb)) as [Hd|Hd]; [left|by right].
  destruct Hd as [-> Hk], Hrw as (_ & _ & _ & Hi), ks as [row c d rel pend a]. simpl.
  assert (Some (krow e') = bump true (row_value row) row) as ->; [|apply ks_remove].
  pose proof (sim_row _ _ _ _ Hs) as Hrow. simpl in Hrow. rewrite Hrow.
  unfold bump, krow. rewrite Ht, Hv, Hi, Hk. by destruct (row_of (mem_db s) n kb).
Qed.

Lemma cleared_wf name m keys m' h : store_wf m -> heap_complete m h ->
  clear_table_impl name m = Ret (keys, m') -> store_wf m' /\ heap_complete m' h.
Proof.
  intros Hwf Hh Hc. apply clear_table_impl_Ret in Hc as (_ & _ & _ & Hrows & Hoth & _); [|done].
  split.
  - intros n' kb' e. destruct (decide (n' = name)) as [->|Hne]; [|rewrite Hoth by done; apply Hwf].
    specialize (Hrows kb'). destruct (row_of m name kb') as [e0|]; [|by rewrite Hrows].
    destruct Hrows as (e' & -> & Hcl & _). by intros [= <-].
  - intros n' kb' e. destruct (decide (n' = name)) as [->|Hne]; [|rewrite Hoth by done; apply Hh].
    specialize (Hrows kb'). destruct (row_of m name kb') as [e0|] eqn:He; [|by rewrite Hrows].
    destruct Hrows as (e' & -> & _ & Hi & _). intros [= <-].
    pose proof (in_flight_nonneg e0 (Hwf _ _ _ He)). lia.
Qed.

Lemma clear_follows late name lost tail s ks s' r ev :
  sys_wf lost tail s -> sim lost tail s ks ->
  checked late (clear_table_queued name) s = (s', r) -> completes r ->
  ev_effect ev (k_abs ks) = (if decide (name = n) then None else k_abs ks) ->
  follows ev r s' ks.
Proof.
  intros Hwf Hs [Hr|(-> & e & ->)]%checked_inv Hc Hev; [|by eapply follows_err].
  unfold clear_table_queued, on_mem_clear, mbind, st_bind in Hr.
  destruct (clear_table_impl name (mem_db s)) as [[keys m]|e| |] eqn:Hcl; [..|by injection Hr as <- <-|by injection Hr as <- <-].
  2: { injection Hr as <- <-. by eapply follows_err. }
  destruct (cleared_wf _ _ _ _ _ (wf_store _ _ _ Hwf) (wf_heap _ _ _ Hwf) Hcl) as [Hw Hh].
  apply clear_table_impl_Ret in Hcl as (_ & Hnd & Hkeys & Hrows & Hoth & Hclr & _); [|apply Hwf].
  destruct ks as [row c d rel pend a]. pose proof (sim_row _ _ _ _ Hs) as Hrow. simpl in Hrow, Hev.
  destruct (decide (name = n)) as [->|Hne].
  - set (o := if decide (kb ∈ keys) then KClr else KWipe).
    eapply (send_sim _ _ _ _ _ _ _ _ (Build_KState (krow <$> row_of m n kb) true d rel (pend ++ [o]) None))
      in Hr as (tail' & Hwf' & Hs'); try done; simpl.
    + eexists lost, tail', _. split; [right|split; [done|split; [done|by left]]].
      specialize (Hrows kb). specialize (Hkeys kb). unfold o. rewrite Hrow.
      destruct (row_of (mem_db s) n kb) as [e|].
      * rewrite decide_True by (by apply Hkeys). destruct Hrows as (e' & -> & _ & Hi & Ht & Hv). simpl.
        assert (Some (krow e') = bump true (kr_value (krow e)) (Some (krow e))) as ->
          by (unfold bump, krow; simpl; by rewrite Ht, Hv, Hi).
        apply ks_clear.
      * rewrite decide_False by (rewrite Hkeys; by intros [? ?]). rewrite Hrows. apply ks_wipe.
    + by repeat constructor.
    + by rewrite Hclr, decide_True.
    + by rewrite decide_True.
  - eapply (send_sim _ _ _ _ _ _ _ _ (Build_KState row c d rel pend a)) in Hr as (tail' & Hwf' & Hs');
      try done; simpl.
    + eapply follows_same; [done..|]. by left.
    + by repeat constructor.
    + by rewrite Hoth.
    + rewrite Hclr, decide_False by done. apply Hs.
    + rewrite decide_False by done. simpl. by rewrite app_nil_r.
Qed.

(** A step that changes neither the cache, nor the tiers, nor the queued
    operations. *)
Lemma control_follows msg lost tail s ks s' r ev :
  sys_wf lost tail s -> sim lost tail s ks -> msg_op msg = [] -> send msg s = (s', r) ->
  (forall a, ev_effect ev a = a) -> follows ev r s' ks.
Proof.
  intros Hwf Hs Hmsg Hsend Hev.
  assert (with_mem_db (mem_db s) s = s) as Heq by (by destruct s). rewrite <- Heq in Hsend.
  eapply (send_sim _ _ _ ks _ _ _ _ ks) in Hsend as (tail' & Hwf' & Hs'); try done.
  - eapply follows_same; [done..|]. by left.
  - apply Hwf.
  - apply Hwf.
  - by rewrite Hmsg.
  - apply Hs.
  - apply Hs.
  - rewrite Hmsg. simpl. by rewrite app_nil_r.
Qed.

(** The lock is not part of the relation. *)
Lemma follows_lock ev r s b ks : follows ev r s ks -> follows ev r (with_lock b s) ks.
Proof.
  intros (lost & tail & ks' & Hk & [H1 H2 H3 H4 H5 H6 H7 H8] & [S1 S2 S3 S4 S5] & Ha).
  exists lost, tail, ks'. split; [done|]. split; [by split|]. split; [by split|done].
Qed.

Lemma txmut_clear_table_eq name s :
  txmut_clear_table name s = checked false (clear_table_queued name) s.
Proof.
  unfold txmut_clear_table, checked, clear_table_queued, gets, on_mem_clear, mbind, st_bind.
  destruct (check_poisoned s) as [s0 [u|e| |]]; try done.
  unfold clear_table_impl, raw_keys. destruct (mem_db s0 !! name) as [t|]; [|done].
  by destruct (clear_rows _ _).
Qed.

Lemma row_of_hard_deletes name keys m n' kb' :
  row_of (foldl (fun m k => hard_delete name k m) m keys) n' kb' =
    if decide (name = n' /\ kb' ∈ encode_key <$> keys) then None else row_of m n' kb'.
Proof.
  revert m. induction keys as [|k keys IH]; intros m; simpl.
  - rewrite decide_False; [done|]. intros [_ ?%elem_of_nil]. done.
  - rewrite IH. unfold hard_delete. rewrite row_of_drop_row.
    repeat case_decide; try done; exfalso; set_solver.
Qed.

Lemma evict_follows name keys lost tail s ks s' r :
  sys_wf lost tail s -> sim lost tail s ks -> evict_persistent_batch name keys s = (s', r) ->
  ~ (name = n /\ kb ∈ encode_key <$> keys) -> follows (EvTxEvict name keys) r s' ks.
Proof.
  intros Hwf Hs Hr Hne. apply (checked_inv false) in Hr as [Hr|(-> & e & ->)]; [|by eapply follows_err].
  destruct keys as [|k keys]; [injection Hr as <- <-; eapply follows_same; [done..|by left]|].
  set (ks0 := k :: keys) in *. unfold on_mem, mbind, st_bind in Hr. simpl in Hr.
  change (foldl _ _ keys) with (foldl (fun m k => hard_delete name k m) (mem_db s) ks0) in Hr.
  eapply (send_sim _ _ _ ks _ _ _ _ ks) in Hr as (tail' & Hwf' & Hs'); try done.
  - eapply follows_same; [done..|]. by left.
  - intros n' kb' e. rewrite row_of_hard_deletes. case_decide; [done|apply Hwf].
  - intros n' kb' e. rewrite row_of_hard_deletes. case_decide; [done|apply Hwf].
  - by repeat constructor.
  - rewrite row_of_hard_deletes, decide_False by done. apply Hs.
  - destruct Hs as [_ Hc _ _ _]. rewrite Hc. generalize (mem_db s). clear -Hne.
    induction ks0 as [|k' ks0 IH]; intros m; simpl; [done|].
    rewrite <- IH by set_solver. unfold hard_delete. by rewrite is_clearing_drop_row.
  - simpl. rewrite app_nil_r. clear -Hne.
    induction ks0 as [|k' ks0 IH]; simpl; [by rewrite app_nil_r|].
    rewrite del_ops_miss by set_solver. apply IH. set_solver.
Qed.

(** Every event is followed by the machine of a key that it does not archive. *)
Lemma event_follows max_size ev lost tail s ks s' r :
  0 <= max_size -> sys_wf lost tail s -> sim lost tail s ks -> kinv ks -> ~ evicts_key ev ->
  sys_step max_size ev s = Some (s', r) -> completes r -> follows ev r s' ks.
Proof.
  intros Hmax Hwf Hs Hi Hne Hst Hc. destruct ev; simpl in Hst, Hne; try (destruct (lock s); [|done]);
    try (destruct (lock s); [done|]); try apply (inj Some) in Hst.
  - by eapply insert_follows.
  - by eapply remove_follows.
  - by eapply clear_follows.
  - apply checked_inv in Hst as [Hb|(-> & e & ->)]; [|by eapply follows_err].
    unfold begin_txn in Hb. destruct (send StartTxn s) as [s1 r1] eqn:Hsend.
    assert (follows (EvBegin late) r1 s1 ks) as Hf by (by eapply (control_follows StartTxn)).
    destruct r1; injection Hb as <- <-; try done. destruct a. by apply follows_lock.
  - by eapply (insert_follows false).
  - by eapply (remove_follows false).
  - by eapply evict_follows.
  - rewrite txmut_clear_table_eq in Hst. by eapply clear_follows.
  - unfold txmut_commit in Hst. 
    destruct ((_ ← check_poisoned; send CommitTxn) s) as [s1 r1] eqn:Hb. injection Hst as <- <-.
    apply follows_lock. apply (checked_inv false) in Hb as [Hb|(-> & e & ->)]; [|by eapply follows_err].
    by eapply (control_follows CommitTxn).
  - unfold txmut_drop, modify in Hst. injection Hst as <- <-. apply follows_lock. eapply follows_same; [done..|by left].
  - apply checked_inv in Hst as [Hb|(-> & e & ->)]; [|by eapply follows_err].
    by eapply (control_follows (CaughtUp reply)).
  - by eapply (control_follows Shutdown).
  - unfold modify in Hst. injection Hst as <- <-. destruct (contains_key_touch now name k (mem_db s)) as [Hsame _].
    eapply follows_same; [| |by left].
    + destruct Hwf as [H1 H2 H3 H4 H5 H6 H7 H8]. split; simpl; try done.
      * by eapply same_rows_wf.
      * by eapply same_rows_heap.
    + destruct Hs as [S1 S2 S3 S4 S5]. split; simpl; try done.
      * by rewrite (proj1 Hsame).
      * by rewrite (proj2 Hsame).
  - destruct (lock s && writer_locks max_size s); [done|].
    destruct (writer_step now max_size s) as [s1|e| |] eqn:Hw; injection Hst as <- <-; try done.
    + destruct (writer_sim _ _ _ _ _ _ _ Hmax Hwf Hs Hi Hw) as (lost' & tail' & ks' & Hk & Hwf' & Hs').
      exists lost', tail', ks'. split; [by left|]. split; [done|]. split; [done|]. left. simpl.
      clear -Hk. induction Hk as [|? ? ? [_ Ha] _ IH]; [done|]. by rewrite IH.
    + by eapply follows_err.
Qed.

(** ** Runs *)

(** The key's machine is in step with the shared state. *)
Definition tracks s (ks : KState) : Prop :=
  kinv ks /\ exists lost tail, sys_wf lost tail s /\ sim lost tail s ks.

Lemma tracks_contents s ks : tracks s ks -> contents s n kb = k_abs ks.
Proof.
  intros (Hi & lost & tail & _ & [Hr Hc Hd _ _]). unfold contents.
  destruct (row_of (mem_db s) n kb) as [e|].
  - simpl in Hr. by rewrite (ki_row _ Hi _ Hr).
  - by rewrite (kinv_no_row _ Hi Hr), Hc, Hd.
Qed.

Lemma kinv_rtc ks ks' : rtc kw ks ks' -> kinv ks -> kinv ks'.
Proof. induction 1 as [|? ? ? [Hk _] _ IH]; intros; [done|]. by eapply IH, kinv_step. Qed.

Lemma tracks_step max_size ev s s' r ks :
  0 <= max_size -> tracks s ks -> ~ evicts_key ev -> sys_step max_size ev s = Some (s', r) ->
  completes r ->
  exists ks', tracks s' ks' /\ (rtc kw ks ks' \/ kstep ks ks') /\
    (contents s' n kb = ev_effect ev (contents s n kb) \/
     r <> Ret tt /\ contents s' n kb = contents s n kb).
Proof.
  intros Hm Ht Hne Hst Hc. pose proof (tracks_contents _ _ Ht) as Hcon.
  destruct Ht as (Hi & lost & tail & Hwf & Hs).
  destruct (event_follows _ _ _ _ _ _ _ _ Hm Hwf Hs Hi Hne Hst Hc)
    as (lost' & tail' & ks' & Hk & Hwf' & Hs' & Ha).
  assert (tracks s' ks') as Ht'.
  { split; [|by exists lost', tail']. destruct Hk; [by eapply kinv_rtc|by eapply kinv_step]. }
  exists ks'. split; [done|]. split; [done|]. by rewrite (tracks_contents _ _ Ht'), Hcon.
Qed.

Lemma row_of_open_tables tables n' kb' : row_of (foldr open_table ∅ tables) n' kb' = None.
Proof.
  induction tables as [|t tables IH]; simpl; [done|]. unfold open_table, row_of in *.
  destruct (decide (n' = t)) as [->|Hne]; [by rewrite lookup_insert_eq|by rewrite lookup_insert_ne].
Qed.

Lemma is_clearing_open_tables tables n' : is_clearing n' (foldr open_table ∅ tables) = false.
Proof.
  induction tables as [|t tables IH]; simpl; [done|]. unfold open_table, is_clearing in *.
  destruct (decide (n' = t)) as [->|Hne]; [by rewrite lookup_insert_eq|by rewrite lookup_insert_ne].
Qed.

(** A freshly opened database holds what the persistent tier holds. *)
Lemma tracks_open tables d signal :
  tracks (layered_open tables d signal)
    (Build_KState None false (db_view d !! (n, kb)) [] [] (db_view d !! (n, kb))).
Proof.
  split; [|exists [], []; split].
  - split; simpl; try done.
    + by intros _ ?%elem_of_nil.
    + intros p1 p2 Heq. by destruct p1.
    + intros p1 o p2 Heq. by destruct p1.
  - split; simpl; auto.
    + intros n' kb' e. by rewrite row_of_open_tables.
    + intros n' kb' e. by rewrite row_of_open_tables.
  - split; simpl; auto.
    + by rewrite row_of_open_tables.
    + by rewrite is_clearing_open_tables.
Qed.

(** The values a key holds, starting from [a], along the events of a run: each
    event has its effect, except that one that failed may have had none. *)
Inductive spec_trace : option Bytes -> list (Event * Exec Report unit) -> option Bytes -> Prop :=
  | spec_nil a : spec_trace a [] a
  | spec_apply ev r tr a a' : spec_trace (ev_effect ev a) tr a' -> spec_trace a ((ev, r) :: tr) a'
  | spec_refuse ev r tr a a' : r <> Ret tt -> spec_trace a tr a' -> spec_trace a ((ev, r) :: tr) a'.

Lemma spec_trace_encoded a tr a' : spec_trace a tr a' ->
  (forall b, a = Some b -> exists v, b = encode v) -> forall b, a' = Some b -> exists v, b = encode v.
Proof.
  induction 1; intros Ha; try by auto. apply IHspec_trace.
  intros b Hb. destruct ev; simpl in Hb; repeat case_decide; simplify_eq; eauto.
Qed.

End simulation.
