(* ===== verification/LayeredDbProps.v ===== *)
(** * Properties of the layered database

    Runs of the threads that share a [LayeredDatabase]: whatever the
    interleaving, the hot tiers behave like a map and reads are linearizable, up
    to the panic of a read that a removal overtakes; the writer drains its queue,
    and the cache stays bounded. *)
From S2P Require Import Prelude State MemDb LayeredDb LayeredKey LayeredSim.
From stdpp Require Import strings.

#[local] Open Scope Z_scope.

(** A run: the events of all threads with their results, none of which aborts
    the process. *)
Inductive exec `{!Codec} {DB TXMut} `{!Database DB TXMut} (max_size : Z) :
    LayeredDatabase DB TXMut -> list (Event * Exec Report unit) -> LayeredDatabase DB TXMut -> Prop :=
  | exec_nil s : exec max_size s [] s
  | exec_cons s ev r s' tr s'' :
      sys_step max_size ev s = Some (s', r) -> completes r -> exec max_size s' tr s'' ->
      exec max_size s ((ev, r) :: tr) s''.

(** The events of a run that never archive the key. *)
Definition keeps_key `{!Codec} (n : string) (kb : Bytes) (tr : list (Event * Exec Report unit)) : Prop :=
  Forall (fun e => ~ evicts_key n kb e.1) tr.

Section runs.
Context `{!Codec} {DB TXMut : Type} `{!Database DB TXMut} `{!DatabaseOk DB TXMut} `{!CodecOk}.
Implicit Types s : LayeredDatabase DB TXMut.

Lemma exec_app max_size s tr s' tr' s'' :
  exec max_size s tr s' -> exec max_size s' tr' s'' -> exec max_size s (tr ++ tr') s''.
Proof. induction 1; intros; simpl; [done|]. econstructor; eauto. Qed.

Lemma tracks_exec n kb max_size s tr s' ks :
  0 <= max_size -> exec max_size s tr s' -> keeps_key n kb tr -> tracks n kb s ks ->
  exists ks', tracks n kb s' ks' /\ spec_trace n kb (contents s n kb) tr (contents s' n kb).
Proof.
  intros Hm Hex. revert ks. induction Hex as [s|s ev r s1 tr s2 Hst Hc Hex IH]; intros ks Hk Ht.
  { exists ks. split; [done|constructor]. }
  apply Forall_cons in Hk as [Hne Hk].
  destruct (tracks_step _ _ _ _ _ _ _ _ Hm Ht Hne Hst Hc) as (ks1 & Ht1 & _ & Hcon).
  destruct (IH _ Hk Ht1) as (ks2 & Ht2 & Hsp). exists ks2. split; [done|].
  destruct Hcon as [Hcon|[Hr Hcon]]; rewrite Hcon in Hsp; by constructor.
Qed.

(** [contains_key] on one state answers whether the key holds something. *)
Lemma contains_contents now n k s :
  match layered_contains_key None now n k (mem_db s) (mem_db s) (mem_db s) (db s) with
  | Ret b => b = bool_decide (is_Some (contents s n (encode_key k)))
  | Err _ => True
  | _ => False
  end.
Proof.
  unfold contents, layered_contains_key, is_tombstoned, contains_key_impl.
  destruct (row_of (mem_db s) n (encode_key k)) as [e|] eqn:He.
  - destruct (tombstoned e) eqn:Ht; [done|]. done.
  - simpl. destruct (is_clearing n (mem_db s)); [done|].
    pose proof (db_contains_key_ok n k (db s)) as Hg.
    destruct (db_contains_key n k (db s)) as [[]|e| |]; simpl; done.
Qed.

(** ** What a key held during a run *)

Definition held (n : string) (kb : Bytes) (max_size : Z) s
    (tr : list (Event * Exec Report unit)) s' (x : option Bytes) : Prop :=
  exists tra sm trb, exec max_size s tra sm /\ exec max_size sm trb s' /\ tr = tra ++ trb /\
    contents sm n kb = x.

Lemma held_last n kb max_size s tr s' : exec max_size s tr s' -> held n kb max_size s tr s' (contents s' n kb).
Proof. intros Hex. exists tr, s', []. rewrite app_nil_r. split_and!; try done. constructor. Qed.

Lemma held_app n kb max_size s tr s' tr' s'' x : exec max_size s' tr' s'' ->
  held n kb max_size s tr s' x -> held n kb max_size s (tr ++ tr') s'' x.
Proof.
  intros Hex (tra & sm & trb & Ha & Hb & -> & Hx). exists tra, sm, (trb ++ tr').
  rewrite app_assoc. split_and!; try done. by eapply exec_app.
Qed.

(** A property of the key's machine that its steps keep, relative to what the
    key held, is kept by runs. *)
Lemma tracks_exec_hist n kb max_size (J : (option Bytes -> Prop) -> KState -> Prop) s tr s1 tr' s2 ks :
  (forall (H H' : option Bytes -> Prop) ks ks', kstep ks ks' -> kinv ks -> J H ks ->
     (forall x, H x -> H' x) -> H' (k_abs ks') -> J H' ks') ->
  (forall (H H' : option Bytes -> Prop) ks, J H ks -> (forall x, H x -> H' x) -> J H' ks) ->
  0 <= max_size -> exec max_size s tr s1 -> exec max_size s1 tr' s2 -> keeps_key n kb tr' ->
  tracks n kb s1 ks -> J (held n kb max_size s tr s1) ks ->
  exists ks', tracks n kb s2 ks' /\ J (held n kb max_size s (tr ++ tr') s2) ks'.
Proof.
  intros HJ Hmono Hm Hex1 Hex. revert tr Hex1 ks.
  induction Hex as [s1|s1 ev r s2 tr' s3 Hst Hc Hex IH]; intros tr Hex1 ks Hk Ht Hj.
  { exists ks. by rewrite app_nil_r. }
  apply Forall_cons in Hk as [Hne Hk].
  destruct (tracks_step _ _ _ _ _ _ _ _ Hm Ht Hne Hst Hc) as (ks1 & Ht1 & Hks & _).
  assert (exec max_size s1 [(ev, r)] s2) as H1 by (econstructor; [done..|constructor]).
  destruct (IH (tr ++ [(ev, r)]) (exec_app _ _ _ _ _ _ Hex1 H1) ks1) as (ks2 & ? & ?); try done.
  2: { exists ks2. split; [done|]. by rewrite <- app_assoc in *. }
  assert (forall x, held n kb max_size s tr s1 x -> held n kb max_size s (tr ++ [(ev, r)]) s2 x)
    as Hsub by (intros; by eapply held_app).
  pose proof (tracks_contents _ _ _ _ Ht) as Hc0. pose proof (tracks_contents _ _ _ _ Ht1) as Hc1.
  destruct Hks as [Hks|Hks].
  - apply (Hmono _ _ _ Hj) in Hsub as Hj'.
    assert (held n kb max_size s (tr ++ [(ev, r)]) s2 (k_abs ks)) as Hh
      by (rewrite <- Hc0; by apply Hsub, held_last).
    destruct Ht as [Hi _]. clear -HJ Hj' Hks Hh Hi.
    induction Hks as [ks|ks ks1 ks2 [Hs Ha] Hr IHr]; [done|].
    apply IHr; [by eapply kinv_step| |by rewrite Ha]. eapply HJ; [done..|by auto|by rewrite Ha].
  - eapply HJ; [done|apply Ht|done|done|]. rewrite <- Hc1. apply held_last. by eapply exec_app.
Qed.

(** ** Progress of the writer *)

Definition all_tracked s : Prop := forall n kb, exists ks, tracks n kb s ks.

Lemma on_op_applied_total name kb m h :
  (forall e, row_of m name kb = Some e -> entry_wf e /\ 0 < in_flight e) ->
  exists m' h', on_op_applied name kb (m, h) = Ret (m', h').
Proof.
  intros Hp. simpl. destruct (row_of m name kb) as [e|] eqn:He; [|by eexists _, _].
  destruct (Hp e eq_refl) as [Hw Hi].
  destruct (dec_in_flight_spec (E := Report) e Hw Hi) as (e' & -> & _). by eexists _, _.
Qed.

Lemma release_keys_total name keys m h : NoDup keys ->
  (forall kb e, kb ∈ keys -> row_of m name kb = Some e -> entry_wf e /\ 0 < in_flight e) ->
  exists m' h', release_keys name keys (m, h) = Ret (m', h').
Proof.
  revert m h. induction keys as [|kb keys IH]; intros m h Hnd Hp; [by eexists _, _|].
  apply NoDup_cons in Hnd as [Hn Hnd].
  destruct (on_op_applied_total name kb m h) as (m1 & h1 & Hr); [intros e He; apply (Hp kb); [by left|done]|].
  unfold release_keys. fold release_keys. rewrite Hr. simpl. apply IH; [done|].
  apply on_op_applied_Ret in Hr as (_ & Hsame & _). intros kb' e Hin He.
  rewrite Hsame in He by naive_solver. apply (Hp kb'); [by right|done].
Qed.

(** A row that the writer is about to release is in flight. *)
Lemma tracked_row name kb s ks o rel' e : tracks name kb s ks -> k_rel ks = o :: rel' ->
  counted o = true -> row_of (mem_db s) name kb = Some e -> entry_wf e /\ 0 < in_flight e.
Proof.
  intros (Hi & lost & tail & Hwf & Hs) Hrel Ho He. split; [by eapply (wf_store _ _ _ Hwf)|].
  destruct ks as [row c d rel pend a]. simpl in Hrel. subst rel.
  pose proof (kinv_release_row _ _ _ _ _ _ _ Hi Ho) as Hp.
  pose proof (sim_row _ _ _ _ _ _ Hs) as Hr. simpl in Hr. rewrite He in Hr. by rewrite Hr in Hp.
Qed.

Lemma tracks_releasing n kb s ks l : tracks n kb s ks -> pc s = Releasing l ->
  rel_match n kb l (k_rel ks).
Proof.
  intros (_ & lost & tail & _ & Hs) Hpc. pose proof (sim_rel _ _ _ _ _ _ Hs) as Hr.
  by rewrite Hpc in Hr.
Qed.

Lemma release_total s x l : all_tracked s -> pc s = Releasing (x :: l) ->
  exists m h, release x (mem_db s, eviction_heap s) = Ret (m, h).
Proof.
  intros Hall Hpc. destruct x as [name kb|name keys]; simpl.
  - apply on_op_applied_total. intros e He. destruct (Hall name kb) as [ks Ht].
    pose proof (tracks_releasing _ _ _ _ _ Ht Hpc) as Hr.
    inversion Hr as [|? r o Ho1 Ho2 Hm'| |? ? ? ? Hne|]; [|tauto]. by eapply tracked_row.
  - destruct (mem_db s !! name) as [t|] eqn:Ht; [|by eexists _, _].
    destruct (Hall name []) as [ks0 (_ & lost & tail & Hwf & _)].
    pose proof (wf_releases _ _ _ Hwf) as Hok. rewrite Hpc in Hok. apply Forall_cons in Hok as [Hok _].
    apply release_keys_total; [done|]. intros kb e Hin He. destruct (Hall name kb) as [ks Htr].
    pose proof (tracks_releasing _ _ _ _ _ Htr Hpc) as Hr.
    inversion Hr as [| |? r ? Hm'| |? ? ? ? Hne]; [|done]. rewrite decide_True in * by done.
    eapply tracked_row; [done..|]. unfold row_of in *. by rewrite lookup_insert_eq in He; rewrite Ht.
Qed.

(** The writer never panics and never hangs. *)
Lemma writer_total now max_size s : 0 <= max_size -> all_tracked s ->
  exists s', writer_step now max_size s = Ret s'.
Proof.
  intros Hmax Hall. destruct (Hall "" []) as [ks0 (_ & lost & tail & Hwf & _)].
  unfold writer_step. destruct (pc s) as [|r [|k keys]|r k keys|[|x l]|reply|] eqn:Hpc; try by eexists.
  - destruct (queue s) as [|msg q] eqn:Hq; [by eexists|]. unfold db_run_message. simpl.
    pose proof (wf_txn _ _ _ Hwf) as Htx. destruct (fatal s) as [err|]; [by destruct msg; eexists|].
    specialize (Htx eq_refl).
    destruct msg; destruct (txn s) as [t|]; try (by eexists); unfold apply_txn, apply_direct; simpl.
    + pose proof (db_write_txn_ok (db s)). destruct (db_write_txn (db s)); first [done|by eexists].
    + destruct Htx as [Hb _]. pose proof (tx_commit_ok t (db s) Hb).
      destruct (tx_commit t (db s)) as [? []]; first [done|by eexists].
    + pose proof (tx_insert_ok (ins_table ins) (ins_key ins) (ins_value ins) t).
      destruct (tx_insert _ _ _ t) as [? []]; first [done|by eexists].
    + pose proof (db_insert_ok (ins_table ins) (ins_key ins) (ins_value ins) (db s)).
      destruct (db_insert _ _ _ (db s)) as [? []]; first [done|by eexists].
    + pose proof (remove_txn_ok (remove_table rm) (remove_op_keys rm) t).
      destruct (remove_txn _ _ t) as [? []]; first [done|by eexists].
    + pose proof (tx_clear_ok (clr_table clr) t). destruct (tx_clear_table _ t) as [? []]; first [done|by eexists].
    + pose proof (db_clear_ok (clr_table clr) (db s)).
      destruct (db_clear_table _ (db s)) as [? []]; first [done|by eexists].
  - destruct (contains_key_impl _ _ _ _). by eexists.
  - pose proof (db_remove_ok (remove_table r) k (db s)).
    destruct (db_remove _ _ (db s)) as [? []]; first [done|by eexists].
  - destruct (release_total s x l Hall Hpc) as (m & h & ->). by eexists.
  - destruct (evict_if_needed_spec max_size (mem_db s) (eviction_heap s) Hmax (wf_heap _ _ _ Hwf))
      as (m & h & st & -> & _). by eexists.
Qed.

(** ** Draining the queue *)

Definition sum_list_with {A} (f : A -> nat) (l : list A) : nat := foldr (fun x k => (f x + k)%nat) O l.

(** Steps of the writer that remain: for a message, for what it is in the
    middle of, and for the releases of the open transaction. *)
Definition msg_work (msg : DBMessage) : nat :=
  match msg with
  | StartTxn | Shutdown => 1
  | CommitTxn | CaughtUp _ => 3
  | MsgInsert _ | MsgClear _ => 4
  | MsgRemove r => 3 * length (remove_op_keys r) + 4
  end.

Definition pc_work (p : WriterPc) : nat :=
  match p with
  | Idle | Stopped => 0
  | Removing r keys => 2 * length keys + length (remove_op_keys r) + 3
  | RemovingKey r k keys => 2 * length keys + 1 + length (remove_op_keys r) + 3
  | Releasing l => length l + 2
  | Evicting _ => 1
  end.

Definition work s : nat :=
  pc_work (pc s) + sum_list_with (fun op => length (on_applied op)) (committed_ops s) +
  sum_list_with msg_work (queue s).

Lemma sum_list_with_snoc {A} (f : A -> nat) l x :
  sum_list_with f (l ++ [x]) = (sum_list_with f l + f x)%nat.
Proof. induction l as [|y l IH]; simpl; [lia|]. rewrite IH. lia. Qed.

Lemma length_releases (ops : list DeferredOp) :
  length (ops ≫= on_applied) = sum_list_with (fun op => length (on_applied op)) ops.
Proof. induction ops as [|op ops IH]; simpl; [done|]. rewrite length_app. f_equal. exact IH. Qed.

Lemma message_work msg q s s' : pc s = Idle -> queue s = msg :: q ->
  db_run_message msg (with_queue q (with_depth (depth s - 1) s)) = Ret s' -> (work s' < work s)%nat.
Proof.
  intros Hpc Hq. unfold work. rewrite Hpc, Hq. unfold db_run_message. simpl.
  destruct (fatal s) as [err|]; [destruct msg; intros [= <-]; simpl; rewrite ?Hpc; simpl; lia|].
  destruct msg; destruct (txn s) as [t|]; unfold apply_txn, apply_direct; simpl; intros Hr;
    repeat case_match; simplify_eq; simpl; rewrite ?Hpc, ?sum_list_with_snoc; simpl;
    rewrite ?length_fmap, ?length_releases; try lia.
Qed.

Lemma writer_work now max_size s s' : writer_step now max_size s = Ret s' ->
  (pc s = Idle /\ queue s = [] \/ pc s = Stopped) \/ (work s' < work s)%nat.
Proof.
  unfold writer_step. destruct (pc s) as [|r [|k keys]|r k keys|[|x l]|reply|] eqn:Hpc; [..|by left; right].
  - destruct (queue s) as [|msg q] eqn:Hq; [by left; left|]. intros Hr. right. by eapply message_work.
  - intros [= <-]. right. unfold work. rewrite Hpc. simpl. rewrite length_fmap. lia.
  - destruct (contains_key_impl _ _ _ _) as [live m]. intros [= <-]. right. unfold work. rewrite Hpc.
    destruct live; simpl; lia.
  - intros Hr. right. unfold work. rewrite Hpc. destruct (db_remove _ _ (db s)) as [d []];
      simplify_eq; simpl; lia.
  - intros [= <-]. right. unfold work. rewrite Hpc. simpl. lia.
  - intros Hr. right. exec_inv Hr. destruct v as [m h]. injection Hr as <-. unfold work. rewrite Hpc.
    simpl. lia.
  - intros Hr. right. exec_inv Hr. destruct v as [[m h] st]. unfold work. rewrite Hpc.
    destruct reply; injection Hr as <-; simpl; lia.
Qed.

Lemma writer_lock now max_size s s' : writer_step now max_size s = Ret s' -> lock s' = lock s.
Proof.
  unfold writer_step, db_run_message, apply_txn, apply_direct, mbind, exec_bind, mret, exec_ret, trip,
    add_reply.
  intros Hr. repeat case_match; simplify_eq; done.
Qed.

Lemma all_tracked_exec max_size s tr s' :
  0 <= max_size -> exec max_size s tr s' -> all_tracked s ->
  Forall (fun e => forall name keys, e.1 <> EvTxEvict name keys) tr -> all_tracked s'.
Proof.
  intros Hm Hex Hall Hne n kb. destruct (Hall n kb) as [ks Ht].
  destruct (tracks_exec n kb max_size s tr s' ks) as (ks' & ? & _); try done; [|by exists ks'].
  eapply Forall_impl; [exact Hne|]. intros [ev r] Hev. simpl in *. destruct ev; simpl; try tauto.
  by destruct (Hev name keys).
Qed.

Lemma writer_exec now max_size s s' : lock s = false -> writer_step now max_size s = Ret s' ->
  exec max_size s [(EvWriter now, Ret tt)] s'.
Proof.
  intros Hl Hr. econstructor; [|done|constructor]. simpl. by rewrite Hl, Hr.
Qed.

(** The writer alone: it stops, with nothing left to do unless it was shut
    down. *)
Lemma db_run_drains now max_size fuel s : 0 <= max_size -> all_tracked s -> lock s = false ->
  (work s <= fuel)%nat ->
  exists s' tr, db_run fuel now max_size s = Ret s' /\ exec max_size s tr s' /\
    Forall (fun e => e = (EvWriter now, Ret tt)) tr /\
    (pc s' = Stopped \/ pc s' = Idle /\ queue s' = []).
Proof.
  intros Hm. revert s. induction fuel as [|fuel IH]; intros s Hall Hl Hf;
    (destruct (writer_total now max_size s Hm Hall) as [s1 Hs1]).
  - destruct (writer_work _ _ _ _ Hs1) as [[[Hpc Hq]|Hpc]|Hw]; [| |lia]; exists s, [];
      (split; [simpl; rewrite Hpc, ?Hq; done|]); (split; [constructor|]); auto.
  - destruct (writer_work _ _ _ _ Hs1) as [[[Hpc Hq]|Hpc]|Hw].
    + exists s, []. split; [simpl; rewrite Hpc, Hq; done|]. split; [constructor|]. auto.
    + exists s, []. split; [simpl; rewrite Hpc; done|]. split; [constructor|]. auto.
    + pose proof (writer_exec now max_size s s1 Hl Hs1) as Hex.
      destruct (IH s1) as (s2 & tr & Hrun & Htr & Hall2 & Hend).
      * eapply all_tracked_exec; [done..|]. by repeat constructor.
      * by rewrite (writer_lock _ _ _ _ Hs1).
      * lia.
      * exists s2, ([(EvWriter now, Ret tt)] ++ tr). split.
        { simpl. rewrite Hs1. simpl. rewrite Hrun. unfold writer_step in Hs1.
          destruct (pc s); try done; [destruct (queue s); [|done]|];
            injection Hs1 as <-; lia. }
        split; [by eapply exec_app|]. split; [by apply Forall_app; repeat constructor|done].
Qed.

End runs.

(** ** Reads that overlap other events *)

Section reads.
Context `{!Codec} {DB TXMut : Type} `{!Database DB TXMut} `{!DatabaseOk DB TXMut} `{!CodecOk}.
Implicit Types s : LayeredDatabase DB TXMut.

Lemma contents_encoded max_size tables d signal tr s n kb b :
  0 <= max_size -> exec max_size (layered_open tables d signal) tr s -> keeps_key n kb tr ->
  contents s n kb = Some b -> exists v, b = encode v.
Proof.
  intros Hm Hex Hk Hb.
  destruct (tracks_exec n kb max_size _ tr s _ Hm Hex Hk (tracks_open _ _ tables d signal))
    as (ks & Ht & Hsp).
  rewrite (tracks_contents _ _ _ _ (tracks_open n kb tables d signal)) in Hsp. simpl in Hsp.
  eapply (spec_trace_encoded n kb); [exact Hsp| |done]. intros b'. apply db_view_encoded.
Qed.

(** A row found while reading holds a value of the key, or is the empty
    tombstone of a removal that came in between. *)
Lemma row_held n kb max_size s1 tr s2 ks e :
  0 <= max_size -> tracks n kb s1 ks -> exec max_size s1 tr s2 -> keeps_key n kb tr ->
  match row_of (mem_db s1) n kb with Some e => tombstoned e = false | None => True end ->
  row_of (mem_db s2) n kb = Some e ->
  held n kb max_size s1 tr s2 (Some (value e)) \/ tombstoned e = true /\ value e = [].
Proof.
  intros Hm Ht Hex Hk Hlive He.
  destruct (tracks_exec_hist n kb max_size kvals s1 [] s1 tr s2 ks) as (ks2 & Ht2 & Hv); try done.
  - intros H1 H2 ks1 ks2 Hs _. by apply kvals_step.
  - apply kvals_mono.
  - constructor.
  - intros r Hr. left. pose proof (tracks_contents _ _ _ _ Ht) as Hc.
    destruct Ht as (Hi & lost & tail & _ & Hs). pose proof (sim_row _ _ _ _ _ _ Hs) as Hrow.
    rewrite Hr in Hrow. destruct (row_of (mem_db s1) n kb) as [e1|] eqn:He1; [|done].
    assert (contents s1 n kb = Some (kr_value r)) as <-; [|apply held_last; constructor].
    unfold contents. rewrite He1, Hlive. injection Hrow as ->. done.
  - destruct Ht2 as (Hi & lost & tail & _ & Hs). pose proof (sim_row _ _ _ _ _ _ Hs) as Hrow.
    rewrite He in Hrow. destruct (Hv _ Hrow) as [?|?]; auto.
Qed.

(** What the lower tier holds once the key had no row and its table was later
    not being cleared is a value of the key. *)
Lemma missing_row_held n kb max_size s2 tr2 s3 ks s1 tr1 :
  0 <= max_size -> exec max_size s1 tr1 s2 -> tracks n kb s2 ks -> exec max_size s2 tr2 s3 ->
  keeps_key n kb tr2 -> row_of (mem_db s2) n kb = None ->
  if is_clearing n (mem_db s3) then held n kb max_size s1 (tr1 ++ tr2) s3 None
  else forall tr3 s4, exec max_size s3 tr3 s4 -> keeps_key n kb tr3 ->
    held n kb max_size s1 (tr1 ++ tr2 ++ tr3) s4 (db_view (db s4) !! (n, kb)).
Proof.
  intros Hm He1 Ht2 He2 Hk2 Hrow.
  destruct (tracks_exec_hist n kb max_size khist s1 tr1 s2 tr2 s3 ks khist_step khist_mono)
    as (ks3 & Ht3 & Hh); try done.
  { apply khist_start; [apply Ht2| |rewrite <- (tracks_contents _ _ _ _ Ht2); by apply held_last].
    destruct Ht2 as (_ & lost & tail & _ & Hs). rewrite (sim_row _ _ _ _ _ _ Hs), Hrow. done. }
  assert (k_clearing ks3 = is_clearing n (mem_db s3)) as Hc
    by (destruct Ht3 as (_ & lost & tail & _ & Hs); by rewrite (sim_clearing _ _ _ _ _ _ Hs)).
  destruct (is_clearing n (mem_db s3)); [by apply Hh in Hc as [? _]|]. intros tr3 s4 He3 Hk3.
  destruct (tracks_exec_hist n kb max_size kpre s1 (tr1 ++ tr2) s3 tr3 s4 ks3 kpre_step kpre_mono)
    as (ks4 & Ht4 & Hp); try done; [by eapply exec_app|by apply kpre_start|].
  rewrite <- app_assoc in Hp. destruct Ht4 as (_ & lost & tail & _ & Hs).
  rewrite <- (sim_db _ _ _ _ _ _ Hs). by apply (Hp [] (k_pend ks4)).
Qed.
End reads.

Section rest.
Context `{!Codec} {DB TXMut : Type} `{!Database DB TXMut} `{!DatabaseOk DB TXMut} `{!CodecOk}.
Implicit Types s : LayeredDatabase DB TXMut.

Lemma spec_trace_writer n kb now a (tr : list (Event * Exec Report unit)) b :
  Forall (fun e => e = (EvWriter now, Ret tt)) tr -> spec_trace n kb a tr b -> b = a.
Proof. intros Htr Hsp. induction Hsp; decompose_Forall; simplify_eq/=; auto. Qed.

(** At rest, the lower tier holds the key. *)
Lemma tracks_settled n kb s ks : tracks n kb s ks -> queue s = [] -> pc s = Idle -> txn s = None ->
  fatal s = None -> db_view (db s) !! (n, kb) = contents s n kb.
Proof.
  intros Ht Hq Hpc Htx Hf. rewrite (tracks_contents _ _ _ _ Ht).
  destruct Ht as (Hi & lost & tail & Hwf & [_ _ Hd Hp _]). rewrite <- Hd, <- (ki_replay _ Hi), Hp, Hpc, Hq.
  pose proof (wf_txn _ _ _ Hwf Hf) as Hc. rewrite Htx in Hc. rewrite Hc.
  destruct (wf_lost _ _ _ Hwf) as [->|[? ?]]; [|congruence].
  destruct (wf_tail _ _ _ Hwf) as [->|?]; [done|congruence].
Qed.

(** The tables that a run archives from. *)
Definition archived (tr : list (Event * Exec Report unit)) : list string :=
  tr ≫= fun e => match e.1 with EvTxEvict name _ => [name] | _ => [] end.

(** The invariant of the whole state holds after every run. *)
Lemma run_wf max_size tables d signal tr s :
  0 <= max_size -> exec max_size (layered_open tables d signal) tr s ->
  exists lost tail, sys_wf lost tail s.
Proof.
  intros Hm Hex. set (n := fresh (archived tr)).
  assert (keeps_key n [] tr) as Hk.
  { apply Forall_forall. intros [ev r] Hin He. destruct ev; simpl in He; try done.
    destruct He as [Heq _]. apply (infinite_is_fresh (archived tr)). fold n. rewrite <- Heq.
    unfold archived. apply list_elem_of_bind. eexists. split; [|exact Hin]. simpl. by left. }
  destruct (tracks_exec n [] max_size _ tr s _ Hm Hex Hk (tracks_open _ _ tables d signal))
    as (ks & (_ & lost & tail & Hwf & _) & _). by exists lost, tail.
Qed.
End rest.

(** ** Running events *)

(** The run of a list of events, when none of them waits or aborts. *)
Fixpoint run_events `{!Codec} {DB TXMut} `{!Database DB TXMut} (max_size : Z) (evs : list Event)
    (s : LayeredDatabase DB TXMut) :
    option (list (Event * Exec Report unit) * LayeredDatabase DB TXMut) :=
  match evs with
  | [] => Some ([], s)
  | ev :: evs' =>
      match sys_step max_size ev s with
      | Some (s', Ret u) => '(tr, s'') ← run_events max_size evs' s'; Some ((ev, Ret u) :: tr, s'')
      | Some (s', Err e) => '(tr, s'') ← run_events max_size evs' s'; Some ((ev, Err e) :: tr, s'')
      | _ => None
      end
  end.

Lemma run_events_exec `{!Codec} {DB TXMut} `{!Database DB TXMut} max_size evs
    (s s' : LayeredDatabase DB TXMut) tr :
  run_events max_size evs s = Some (tr, s') -> exec max_size s tr s'.
Proof.
  revert s tr. induction evs as [|ev evs IH]; intros s tr; simpl; [intros [= <- <-]; constructor|].
  destruct (sys_step max_size ev s) as [[s1 [u|e| |]]|] eqn:Hst; try done;
    intros ([tr' s2] & Hr & [= <- <-])%bind_Some; (econstructor; [exact Hst|done|by apply IH]).
Qed.

Lemma run_events_fst `{!Codec} {DB TXMut} `{!Database DB TXMut} max_size evs
    (s s' : LayeredDatabase DB TXMut) tr :
  run_events max_size evs s = Some (tr, s') -> tr.*1 = evs.
Proof.
  revert s tr. induction evs as [|ev evs IH]; intros s tr; simpl; [by intros [= <- <-]|].
  destruct (sys_step max_size ev s) as [[s1 [u|e| |]]|]; try done;
    intros ([tr' s2] & Hr & [= <- <-])%bind_Some; simpl; f_equal; by eapply IH.
Qed.

Lemma keeps_key_events `{!Codec} n kb (tr : list (Event * Exec Report unit)) evs :
  tr.*1 = evs -> Forall (fun ev => ~ evicts_key n kb ev) evs -> keeps_key n kb tr.
Proof. intros <-. unfold keeps_key. by rewrite Forall_fmap. Qed.

(** ** An instance: numbers in a finite map *)

Definition example_decode (b : Bytes) : option Z := match b with [v] => Some v | _ => None end.

#[local] Instance example_codec : Codec := {
  Key := Z; Value := Z; key_cmp := Z.compare; encode_key := fun k => [k];
  decode_key := example_decode; encode := fun v => [v]; decode := example_decode }.

#[local] Instance example_codec_ok : CodecOk (H := example_codec).
Proof. split; try done. intros a b. simpl. by destruct (a ?= b). Qed.

Abbreviation Rows := (gmap (string * Bytes) Z).

Definition rows_clear (n : string) (m : Rows) : Rows := filter (fun x => x.1.1 <> n) m.

#[local] Instance example_db : Database (H := example_codec) Rows (Rows * Rows) := {
  db_get n k d := Ret (d !! (n, [k]));
  db_contains_key n k d := Ret (bool_decide (is_Some (d !! (n, [k]))));
  db_insert n k v d := (<[(n, [k]) := v]> d, Ret tt);
  db_remove n k d := (base.delete (n, [k]) d, Ret tt);
  db_clear_table n d := (rows_clear n d, Ret tt);
  db_write_txn d := Ret (d, d);
  tx_insert n k v t := ((t.1, <[(n, [k]) := v]> t.2), Ret tt);
  tx_remove n k t := ((t.1, base.delete (n, [k]) t.2), Ret tt);
  tx_clear_table n t := ((t.1, rows_clear n t.2), Ret tt);
  tx_commit t d := (t.2, Ret tt)
}.

Definition rows_view (d : Rows) : View := (fun v : Z => [v]) <$> d.

Lemma rows_view_clear n d : rows_view (rows_clear n d) = view_clear n (rows_view d).
Proof.
  apply map_eq. intros key. rewrite view_clear_lookup. unfold rows_view, rows_clear.
  rewrite !lookup_fmap. case_decide as Hd.
  - assert (filter (fun x : string * Bytes * Z => x.1.1 <> n) d !! key = None) as ->; [|done].
    apply map_lookup_filter_None. right. intros v _ Hne. by apply Hne.
  - f_equal. destruct (d !! key) as [v|] eqn:Hv.
    + by apply map_lookup_filter_Some.
    + apply map_lookup_filter_None. by left.
Qed.

#[local] Instance example_db_ok : DatabaseOk (H := example_codec) Rows (Rows * Rows).
Proof.
  apply (Build_DatabaseOk _ _ _ _ rows_view (fun t => rows_view t.2) (fun t => rows_view t.1)).
  - intros d key b. unfold rows_view. rewrite lookup_fmap, fmap_Some. intros (v & _ & ->). by exists v.
  - intros n k d. simpl. unfold rows_view. by rewrite lookup_fmap.
  - intros n k d. simpl. unfold rows_view. apply bool_decide_ext. by rewrite lookup_fmap, fmap_is_Some.
  - intros n k v d. apply fmap_insert.
  - intros n k d. apply fmap_delete.
  - intros n d. apply rows_view_clear.
  - done.
  - intros n k v t. apply fmap_insert.
  - intros n k t. apply fmap_delete.
  - intros n t. apply rows_view_clear.
  - done.
  - done.
  - done.
  - done.
Defined.

(** ** Properties *)

Definition example_rows : Rows := {[("blocks"%string, [7]) := 70]}.
Definition example_open : LayeredDatabase (H := example_codec) Rows (Rows * Rows) :=
  layered_open ["blocks"%string] example_rows None.

(** A direct insertion, half applied; a removal of a key that only the lower
    tier holds; and a transaction. *)
Definition example_events : list (Event (H := example_codec)) := [
  EvInsert false 0 "blocks" 1 10; EvWriter 1; EvRemove false 2 "blocks" 7; EvWriter 3;
  EvBegin false; EvTxInsert 4 "blocks" 2 20; EvTxClear "blocks"; EvTxInsert 5 "blocks" 3 30; EvCommit;
  EvWriter 6; EvWriter 7; EvWriter 8; EvRead 9 "blocks" 3; EvPersist false 1 ].

(** The hot part of a [get] whose four reads come at four moments of a run. *)
Lemma get_hot_linearizable `{!Codec} {DB TXMut} `{!Database DB TXMut} `{!DatabaseOk DB TXMut}
    `{!CodecOk} max_size tables d signal tr0 tr1 tr2 tr3 (s1 s2 s3 s4 : LayeredDatabase DB TXMut)
    now n k :
  0 <= max_size -> decode [] = None ->
  exec max_size (layered_open tables d signal) tr0 s1 -> exec max_size s1 tr1 s2 ->
  exec max_size s2 tr2 s3 -> exec max_size s3 tr3 s4 ->
  keeps_key n (encode_key k) (tr0 ++ tr1 ++ tr2 ++ tr3) ->
  match layered_get_hot now n k (mem_db s1) (mem_db s2) (mem_db s3) (db s4) with
  | Ret r => held n (encode_key k) max_size s1 (tr1 ++ tr2 ++ tr3) s4 (encode <$> r)
  | Err _ => True
  | Panic => is_tombstoned n k (mem_db s1) = false /\ is_tombstoned n k (mem_db s2) = true
  | Diverge => False
  end.
Proof.
  intros Hm Hd He0 He1 He2 He3 Hk.
  apply Forall_app in Hk as [Hk0 [Hk1 [Hk2 Hk3]%Forall_app]%Forall_app].
  pose proof (exec_app _ _ _ _ _ _ He2 He3) as He23.
  destruct (tracks_exec n (encode_key k) max_size _ tr0 s1 _ Hm He0 Hk0 (tracks_open _ _ tables d signal))
    as (ks1 & Ht1 & _).
  destruct (tracks_exec n (encode_key k) max_size s1 tr1 s2 _ Hm He1 Hk1 Ht1) as (ks2 & Ht2 & _).
  unfold layered_get_hot. destruct (is_tombstoned n k (mem_db s1)) eqn:Htomb.
  { exists [], s1, (tr1 ++ tr2 ++ tr3). split_and!; [constructor|by eapply exec_app|done|].
    unfold contents, is_tombstoned in *. by destruct (row_of _ _ _) as [e|]; [rewrite Htomb|]. }
  unfold get_no_marked_check. destruct (row_of (mem_db s2) n (encode_key k)) as [e|] eqn:He.
  - destruct (row_held n (encode_key k) max_size s1 tr1 s2 ks1 e) as [Hh|[He2t Hh]]; try done.
    { unfold is_tombstoned in Htomb. by destruct (row_of (mem_db s1) n (encode_key k)). }
    2: { rewrite Hh, Hd. simpl. unfold is_tombstoned. by rewrite He. }
    pose proof Hh as (tra & sm & trb & Ha & _ & -> & Hsm).
    destruct (contents_encoded max_size tables d signal (tr0 ++ tra) sm n (encode_key k) (value e))
      as [v' Hv']; [done|by eapply exec_app| |done|].
    { apply Forall_app in Hk1 as [? _]. by apply Forall_app. }
    rewrite Hv', decode_encode. simpl. rewrite <- Hv'. by eapply held_app.
  - simpl. pose proof (missing_row_held n (encode_key k) max_size s2 tr2 s3 ks2 s1 tr1 Hm He1 Ht2 He2 Hk2 He)
      as Hh.
    destruct (is_clearing n (mem_db s3)); [rewrite app_assoc; by eapply held_app|].
    pose proof (db_get_ok n k (db s4)) as Hg. destruct (db_get n k (db s4)); try done. rewrite <- Hg. by apply Hh.
Qed.

(** What the key holds at a moment is what the events made of its first value. *)
Lemma held_spec `{!Codec} {DB TXMut} `{!Database DB TXMut} `{!DatabaseOk DB TXMut}
    `{!CodecOk} max_size tables d signal tr0 (s1 s4 : LayeredDatabase DB TXMut) tr n kb x :
  0 <= max_size -> exec max_size (layered_open tables d signal) tr0 s1 -> keeps_key n kb (tr0 ++ tr) ->
  held n kb max_size s1 tr s4 x ->
  exists tra trb, tr = tra ++ trb /\ spec_trace n kb (db_view d !! (n, kb)) (tr0 ++ tra) x.
Proof.
  intros Hm He0 Hk (tra & sm & trb & Ha & _ & -> & <-). exists tra, trb. split; [done|].
  rewrite app_assoc in Hk. apply Forall_app in Hk as [Hk _].
  destruct (tracks_exec n kb max_size _ (tr0 ++ tra) sm _ Hm (exec_app _ _ _ _ _ _ He0 Ha) Hk
    (tracks_open _ _ tables d signal)) as (ks & Ht & Hsp).
  by rewrite (tracks_contents _ _ _ _ (tracks_open n kb tables d signal)) in Hsp.
Qed.

(** C33: The layered database refines a map. Take any run of producers,
    transactions, readers and the writer, whatever their interleaving and
    whatever failures of the persistent tier poison it, and a key that no event
    of it archives; there is no cold tier. The map holds what the events made of
    the initial persistent value of the key, each insertion, removal and clear
    taking effect when it returned. A [get] looks at the cache three times and
    then at the persistent tier, in four states of the run; what it returns is
    what the map held at some moment from the first of them to the last. It
    panics only when the key had no tombstone at its first look and has one at
    its second: a removal came in between. A [get] of a read transaction, which
    keeps the cache locked, does not panic; its value is also one the map held
    from then to its read of the persistent tier. [contains_key], when no other
    step comes in between its looks, answers whether the map holds the key. *)
Theorem layered_refines_map `{!Codec} {DB TXMut} `{!Database DB TXMut} `{!DatabaseOk DB TXMut}
    `{!CodecOk} max_size tables d signal tr0 tr1 tr2 tr3 (s1 s2 s3 s4 : LayeredDatabase DB TXMut)
    now n k :
  0 <= max_size -> decode [] = None ->
  exec max_size (layered_open tables d signal) tr0 s1 -> exec max_size s1 tr1 s2 ->
  exec max_size s2 tr2 s3 -> exec max_size s3 tr3 s4 ->
  keeps_key n (encode_key k) (tr0 ++ tr1 ++ tr2 ++ tr3) ->
  let map_at tr x := spec_trace n (encode_key k) (db_view d !! (n, encode_key k)) tr x in
  let map_during x := exists tra trb, tr1 ++ tr2 ++ tr3 = tra ++ trb /\ map_at (tr0 ++ tra) x in
  match layered_get None now n k (mem_db s1) (mem_db s2) (mem_db s3) (db s4) with
  | Ret r => map_during (encode <$> r)
  | Err _ => True
  | Panic => is_tombstoned n k (mem_db s1) = false /\ is_tombstoned n k (mem_db s2) = true
  | Diverge => False
  end /\
  match layered_tx_get None now n k (mem_db s1) (db s4) with
  | Ret r => map_during (encode <$> r)
  | Err _ => True
  | Panic | Diverge => False
  end /\
  match layered_contains_key None now n k (mem_db s1) (mem_db s1) (mem_db s1) (db s1) with
  | Ret b => exists x, map_at tr0 x /\ b = bool_decide (is_Some x)
  | Err _ => True
  | Panic | Diverge => False
  end.
Proof.
  intros Hm Hd He0 He1 He2 He3 Hk map_at map_during.
  assert (Hh : forall x, held n (encode_key k) max_size s1 (tr1 ++ tr2 ++ tr3) s4 x -> map_during x)
    by (intros x; by eapply held_spec).
  unfold layered_tx_get, layered_get. split_and!.
  - pose proof (get_hot_linearizable max_size tables d signal tr0 tr1 tr2 tr3 s1 s2 s3 s4 now n k) as Hg.
    destruct (layered_get_hot _ _ _ _ _ _ _) as [[v|]|e| |]; cbn; try apply Hh; by apply Hg.
  - assert (He : exec max_size s1 (tr1 ++ tr2 ++ tr3) s4) by (eapply exec_app; [done|by eapply exec_app]).
    pose proof (get_hot_linearizable max_size tables d signal tr0 [] [] (tr1 ++ tr2 ++ tr3) s1 s1 s1 s4 now n k
      Hm Hd He0 ltac:(constructor) ltac:(constructor) He Hk) as Hg.
    destruct (layered_get_hot _ _ _ _ _ _ _) as [[v|]|e| |]; cbn; [by apply Hh|by apply Hh|done| |done].
    destruct Hg; congruence.
  - pose proof (contains_contents now n k s1) as Hc. destruct (layered_contains_key _ _ _ _ _ _ _ _); try done.
    exists (contents s1 n (encode_key k)). split; [|done].
    destruct (held_spec max_size tables d signal tr0 s1 s1 [] n (encode_key k) (contents s1 n (encode_key k)))
      as (tra & trb & Hnil & Hsp); [done|done|rewrite app_nil_r; by apply Forall_app in Hk as [? _]
      |apply held_last; constructor|].
    symmetry in Hnil. apply app_eq_nil in Hnil as [-> _]. by rewrite app_nil_r in Hsp.
Qed.

(** Key 7 is removed between the first and the second look of a [get]; the row
    is still in the cache, and its value is the one the map held before. *)
Lemma layered_refines_map_witness :
  exists tr0 s1 tr1 s2 tr2 s3 tr3 s4,
    run_events 2 [EvInsert false 0 "blocks" 7 10] example_open = Some (tr0, s1) /\
    run_events 2 [EvRemove false 2 "blocks" 7; EvWriter 1] s1 = Some (tr1, s2) /\
    run_events 2 [EvWriter 3] s2 = Some (tr2, s3) /\ run_events 2 [EvWriter 4] s3 = Some (tr3, s4) /\
    exists tra trb, tr1 ++ tr2 ++ tr3 = tra ++ trb /\
      spec_trace (H := example_codec) "blocks" [7] (Some [70]) (tr0 ++ tra) (Some [10]).
Proof.
  assert (match (s1 ← run_events 2 [EvInsert false 0 "blocks" 7 10] example_open;
                 s2 ← run_events 2 [EvRemove false 2 "blocks" 7; EvWriter 1] s1.2;
                 s3 ← run_events 2 [EvWriter 3] s2.2; s4 ← run_events 2 [EvWriter 4] s3.2;
                 Some (layered_get (H := example_codec) None 9 "blocks" 7 (mem_db s1.2) (mem_db s2.2)
                   (mem_db s3.2) (db s4.2))) with
          | Some r => r = Ret (Some 10)
          | None => False
          end) as Hv by (vm_compute; reflexivity).
  destruct (run_events 2 _ example_open) as [[tr0 s1]|] eqn:H1; [|exfalso; exact Hv].
  cbn [mbind option_bind fst snd] in Hv.
  destruct (run_events 2 _ s1) as [[tr1 s2]|] eqn:H2; [|exfalso; exact Hv].
  cbn [mbind option_bind fst snd] in Hv.
  destruct (run_events 2 _ s2) as [[tr2 s3]|] eqn:H3; [|exfalso; exact Hv].
  cbn [mbind option_bind fst snd] in Hv.
  destruct (run_events 2 _ s3) as [[tr3 s4]|] eqn:H4; [|exfalso; exact Hv].
  cbn [mbind option_bind fst snd] in Hv.
  exists tr0, s1, tr1, s2, tr2, s3, tr3, s4. split_and!; try reflexivity; try assumption.
  destruct (layered_refines_map (H := example_codec) 2 ["blocks"%string] example_rows None tr0 tr1 tr2 tr3
    s1 s2 s3 s4 9 "blocks" 7) as [Hg _]; try (by eapply run_events_exec); try done.
  - eapply keeps_key_events; [|].
    + rewrite !fmap_app, (run_events_fst _ _ _ _ _ H1), (run_events_fst _ _ _ _ _ H2),
        (run_events_fst _ _ _ _ _ H3), (run_events_fst _ _ _ _ _ H4). reflexivity.
    + repeat (constructor; [intros []|]). constructor.
  - rewrite Hv in Hg. exact Hg.
Defined.

(** progress. Left alone, the writer empties its queue in a number of steps
    bounded by the work queued, whatever state a run left it in: it never
    panics or hangs, what the database holds does not change, and when it comes
    to rest with no transaction open and no failure recorded, every row is in
    the persistent tier. *)
Theorem writer_drains `{!Codec} {DB TXMut} `{!Database DB TXMut} `{!DatabaseOk DB TXMut}
    `{!CodecOk} max_size tables d signal tr (s : LayeredDatabase DB TXMut) now :
  0 <= max_size -> exec max_size (layered_open tables d signal) tr s -> lock s = false ->
  Forall (fun e => forall name keys, e.1 <> EvTxEvict name keys) tr ->
  exists s', db_run (work s) now max_size s = Ret s' /\
    (pc s' = Stopped \/ pc s' = Idle /\ queue s' = []) /\
    (forall n kb, contents s' n kb = contents s n kb) /\
    (pc s' = Idle -> txn s' = None -> fatal s' = None ->
     forall n kb, db_view (db s') !! (n, kb) = contents s n kb).
Proof.
  intros Hm Hex Hl Hne.
  assert (all_tracked s) as Hall.
  { eapply all_tracked_exec; [done..| |done]. intros n kb. eexists. apply tracks_open. }
  destruct (db_run_drains now max_size (work s) s Hm Hall Hl) as (s' & tr' & Hrun & Hex' & Htr & Hend);
    [lia|]. exists s'. split; [done|]. split; [done|].
  assert (forall n kb, exists ks, tracks n kb s' ks /\ contents s' n kb = contents s n kb) as Hs'.
  { intros n kb. destruct (Hall n kb) as [ks Ht].
    destruct (tracks_exec n kb max_size s tr' s' ks) as (ks' & Ht' & Hsp); try done.
    - eapply Forall_impl; [exact Htr|]. by intros ? -> [].
    - exists ks'. split; [done|]. by eapply spec_trace_writer. }
  split; [intros n kb; by destruct (Hs' n kb) as (? & _ & ?)|].
  intros Hpc Htx Hf n kb. destruct (Hs' n kb) as (ks & Ht & <-).
  destruct Hend as [?|[_ Hq]]; [congruence|]. by eapply tracks_settled.
Qed.

Lemma writer_drains_witness :
  exists tr s, run_events 2 (take 9%nat example_events) example_open = Some (tr, s) /\
  exists s', db_run (work s) 9 2 s = Ret s' /\
    (forall n kb, contents (H := example_codec) s' n kb = contents s n kb).
Proof.
  assert (match run_events 2 (take 9%nat example_events) example_open with
          | Some s => lock s.2 = false
          | None => False
          end) as Hv by (vm_compute; reflexivity).
  destruct (run_events 2 (take 9%nat example_events) example_open) as [[tr s]|] eqn:Hrun;
    [|exfalso; exact Hv].
  exists tr, s. split; [reflexivity|].
  destruct (writer_drains (H := example_codec) 2 ["blocks"%string] example_rows None tr s 9)
    as (s' & Hr & _ & Hc & _).
  - lia.
  - by eapply run_events_exec.
  - exact Hv.
  - assert (Forall (fun ev => forall name keys, ev <> EvTxEvict name keys) tr.*1) as Hf
      by (rewrite (run_events_fst _ _ _ _ _ Hrun); simpl; by repeat constructor).
    by rewrite Forall_fmap in Hf.
  - exists s'. split; [exact Hr|exact Hc].
Defined.

(** the cache is bounded. Each pass of the evictor, which follows every commit,
    direct write and barrier, returns; it drops only rows with no operation in
    flight, and it leaves at most [max_size] rows in the cache unless most of
    them are in flight: then at most half of [max_size] rows are not. *)
Theorem cache_bounded `{!Codec} {DB TXMut} `{!Database DB TXMut} `{!DatabaseOk DB TXMut}
    `{!CodecOk} max_size tables d signal tr (s : LayeredDatabase DB TXMut) now reply :
  0 <= max_size -> exec max_size (layered_open tables d signal) tr s -> pc s = Evicting reply ->
  exists s', writer_step now max_size s = Ret s' /\ pc s' = Idle /\ db s' = db s /\
    evicts (mem_db s) (mem_db s') /\
    (mem_size (mem_db s') <= max_size \/
     Z.of_nat (length (settled_keys (mem_db s'))) <= max_size / 2).
Proof.
  intros Hm Hex Hpc. destruct (run_wf _ _ _ _ _ _ Hm Hex) as (lost & tail & Hwf).
  destruct (evict_if_needed_spec max_size (mem_db s) (eviction_heap s) Hm (wf_heap _ _ _ Hwf))
    as (m & h & st & He & Hev & _ & _ & _ & _ & Hb).
  unfold writer_step. rewrite Hpc, He. simpl. destruct reply; eexists; split; done.
Qed.

Lemma cache_bounded_witness :
  exists tr s, run_events 2 [EvInsert false 0 "blocks" 1 10; EvWriter 1; EvWriter 1; EvWriter 1]
    example_open = Some (tr, s) /\ exists s', writer_step 9 2 s = Ret s' /\
    (mem_size (mem_db s') <= 2 \/ Z.of_nat (length (settled_keys (mem_db s'))) <= 2 / 2).
Proof.
  assert (match run_events 2 [EvInsert false 0 "blocks" 1 10; EvWriter 1; EvWriter 1; EvWriter 1]
    example_open with Some s => pc s.2 = Evicting None | None => False end) as Hv
    by (vm_compute; reflexivity).
  destruct (run_events 2 _ example_open) as [[tr s]|] eqn:Hrun; [|exfalso; exact Hv].
  exists tr, s. split; [reflexivity|].
  destruct (cache_bounded (H := example_codec) 2 ["blocks"%string] example_rows None tr s 9 None)
    as (s' & Hr & _ & _ & _ & Hb).
  - lia.
  - by eapply run_events_exec.
  - exact Hv.
  - exists s'. split; [exact Hr|exact Hb].
Defined.

(** A lock is released too early in [get]. Reading a key that is only in the
    persistent tier while another thread removes it can abort the process: the
    removal inserts a tombstone with an empty value after [get] has found no
    tombstone, and [get] decodes that value. *)
Theorem get_race_panics `{!Codec} {DB TXMut} `{!Database DB TXMut} max_size now now' n k m3 d4
    (s : LayeredDatabase DB TXMut) :
  decode [] = None -> is_Some (mem_db s !! n) -> row_of (mem_db s) n (encode_key k) = None ->
  fatal s = None -> lock s = false -> pc s <> Stopped ->
  exists s', sys_step max_size (EvRemove false now n k) s = Some (s', Ret tt) /\
    layered_get_hot now' n k (mem_db s) (mem_db s') m3 d4 = Panic.
Proof.
  intros Hd [t Ht] Hrow Hf Hl Hpc.
  assert (exists m e, remove_impl now n k (mem_db s) = Ret m /\ value e = [] /\
    row_of m n (encode_key k) = Some e) as (m & e & Hm & Hv & He).
  { unfold remove_impl. pose proof Hrow as Hrow'. unfold row_of in Hrow'. rewrite Ht in *. simpl in Hrow'.
    rewrite Hrow'. eexists _, _. split; [reflexivity|].
    split; [|rewrite row_of_put_row, decide_True by eauto; reflexivity]. reflexivity. }
  exists (with_queue (queue s ++ [MsgRemove (KeyRemove n k)]) (with_depth (depth s + 1) (with_mem_db m s))).
  split.
  - simpl. rewrite Hl. unfold checked, remove_queued, check_poisoned, on_mem, send.
    unfold mbind, st_bind. rewrite Hf. simpl. rewrite Hm. simpl.
    by destruct (pc s).
  - unfold layered_get_hot, is_tombstoned, get_no_marked_check. simpl. by rewrite Hrow, He, Hv, Hd.
Qed.

Lemma get_race_panics_witness :
  exists s', sys_step 2 (EvRemove false 5 "blocks" 7) example_open = Some (s', Ret tt) /\
    layered_get_hot (H := example_codec) 6 "blocks" 7 (mem_db example_open) (mem_db s')
      (mem_db example_open) (db example_open) = Panic.
Proof.
  apply (get_race_panics (H := example_codec)); try reflexivity; [|discriminate].
  exists StoreTable_new. reflexivity.
Defined.
