(* ===== verification/PairMap.v ===== *)
(** * Maps keyed by pairs

    A [BTreeMap<(A, B), V>], or a database table with such keys, is a [gmap] on
    pairs of numbers; iterating it visits the entries in lexicographic order. *)
From S2P Require Import Prelude.

Definition pair_le (x y : Z * Z) : Prop := x.1 < y.1 \/ x.1 = y.1 /\ x.2 <= y.2.
Definition pair_lt (x y : Z * Z) : Prop := x.1 < y.1 \/ x.1 = y.1 /\ x.2 < y.2.

#[export] Instance pair_le_dec : RelDecision pair_le.
Proof. intros x y. unfold pair_le. apply _. Defined.
#[export] Instance pair_lt_dec : RelDecision pair_lt.
Proof. intros x y. unfold pair_lt. apply _. Defined.

Lemma filter_none {A} (P : A -> Prop) `{!forall x, Decision (P x)} (l : list A) :
  (forall x, x ∈ l -> ~ P x) -> filter P l = [].
Proof.
  induction l as [|x l IH]; intros Hn; [done|]. rewrite filter_cons, decide_False by (apply Hn; left).
  apply IH. intros y Hy. apply Hn. by right.
Qed.

Lemma NoDup_fst_filter {A B} (P : A * B -> Prop) `{!forall x, Decision (P x)} (l : list (A * B)) :
  NoDup l.*1 -> NoDup (filter P l).*1.
Proof.
  induction l as [|x l IH]; [done|]. rewrite fmap_cons, filter_cons. intros [Hx Hnd]%NoDup_cons.
  case_decide; [|by apply IH]. rewrite fmap_cons. apply NoDup_cons. split; [|by apply IH].
  intros (y & Heq & [_ Hy]%list_elem_of_filter)%list_elem_of_fmap. apply Hx. rewrite Heq.
  apply list_elem_of_fmap. by exists y.
Qed.

Section pair_map.
Context {A : Type}.
Implicit Types m : gmap (Z * Z) A.

Definition pair_key_le (x y : (Z * Z) * A) : Prop := pair_le x.1 y.1.
#[export] Instance pair_key_le_dec : RelDecision pair_key_le.
Proof. intros x y. unfold pair_key_le. apply _. Defined.

Definition pair_list m : list ((Z * Z) * A) := merge_sort pair_key_le (map_to_list m).

(** [first_key_value] *)
Definition pair_first m : option ((Z * Z) * A) := head (pair_list m).

(** [skip_to]: the entries from a key on. *)
Definition skip_to (k : Z * Z) m : list ((Z * Z) * A) :=
  filter (fun x => pair_le k x.1) (pair_list m).

(** [record_prior_to]: the last entry below a key. *)
Definition record_prior_to (k : Z * Z) m : option ((Z * Z) * A) :=
  last (filter (fun x => pair_lt x.1 k) (pair_list m)).

(** [last_record] *)
Definition last_record m : option ((Z * Z) * A) := last (pair_list m).

(** ** Lemmas *)

Lemma pair_list_perm m : pair_list m ≡ₚ map_to_list m.
Proof. apply merge_sort_Permutation. Qed.

Lemma elem_of_pair_list m k x : (k, x) ∈ pair_list m <-> m !! k = Some x.
Proof. rewrite pair_list_perm. apply elem_of_map_to_list. Qed.

Lemma NoDup_pair_keys m : NoDup (pair_list m).*1.
Proof. rewrite pair_list_perm. apply NoDup_fst_map_to_list. Qed.

Lemma pair_list_sorted m : StronglySorted (fun x y => pair_lt x.1 y.1) (pair_list m).
Proof.
  assert (StronglySorted pair_key_le (pair_list m)) as Hs.
  { apply StronglySorted_merge_sort; unfold pair_key_le, pair_le.
    - intros x y z. lia.
    - intros x y. lia. }
  pose proof (NoDup_pair_keys m) as Hnd.
  induction Hs as [|x l Hs IH Hall]; simpl in *; [constructor|].
  apply NoDup_cons in Hnd as [Hx Hnd]. constructor; [by apply IH|].
  apply Forall_forall. intros y Hy. rewrite Forall_forall in Hall.
  pose proof (Hall _ Hy) as Hle. assert (x.1 <> y.1) as Hne.
  { intros Heq. apply Hx. rewrite Heq. apply list_elem_of_fmap. by exists y. }
  destruct x as [[a b] ?], y as [[c d] ?]. unfold pair_key_le, pair_le, pair_lt in *. simpl in *.
  destruct (decide (a = c)) as [->|]; [|lia]. right. split; [done|]. enough (b <> d) by lia. congruence.
Qed.

Lemma sorted_filter (P : (Z * Z) * A -> Prop) `{!forall x, Decision (P x)} l :
  StronglySorted (fun x y => pair_lt x.1 y.1) l ->
  StronglySorted (fun x y => pair_lt x.1 y.1) (filter P l).
Proof.
  induction 1 as [|x l Hs IH Hall]; [constructor|]. rewrite filter_cons. case_decide; [|done].
  constructor; [done|]. apply Forall_forall. intros y [_ Hy]%list_elem_of_filter.
  rewrite Forall_forall in Hall. by apply Hall.
Qed.

Lemma sorted_head_min (l : list ((Z * Z) * A)) x y :
  StronglySorted (fun x y => pair_lt x.1 y.1) l -> head l = Some x -> y ∈ l -> pair_le x.1 y.1.
Proof.
  intros Hs Hx Hy. destruct l as [|z l]; [done|]. injection Hx as ->.
  apply StronglySorted_inv in Hs as [_ Hall]. rewrite Forall_forall in Hall.
  apply elem_of_cons in Hy as [->|Hy]; [unfold pair_le; lia|].
  pose proof (Hall _ Hy) as Hl. unfold pair_lt, pair_le in *. lia.
Qed.

Lemma sorted_last_max (l : list ((Z * Z) * A)) x y :
  StronglySorted (fun x y => pair_lt x.1 y.1) l -> last l = Some x -> y ∈ l -> pair_le y.1 x.1.
Proof.
  intros Hs. induction Hs as [|z l Hs IH Hall]; simpl; [done|]. intros Hx Hy.
  destruct l as [|z' l]; [apply elem_of_cons in Hy as [->|Hy%elem_of_nil]; [|done];
    injection Hx as ->; unfold pair_le; lia|].
  change (last (z :: z' :: l)) with (last (z' :: l)) in Hx.
  apply elem_of_cons in Hy as [->|Hy]; [|by apply IH]. rewrite Forall_forall in Hall.
  pose proof (Hall x (last_Some_elem_of _ _ Hx)) as Hl. unfold pair_lt, pair_le in *. lia.
Qed.

Lemma pair_first_Some m k x : pair_first m = Some (k, x) <->
  m !! k = Some x /\ forall k', is_Some (m !! k') -> pair_le k k'.
Proof.
  unfold pair_first. split.
  - intros Hh. split.
    + apply elem_of_pair_list. destruct (pair_list m); [done|]. injection Hh as ->. left.
    + intros k' [x' Hx']. by apply (sorted_head_min (pair_list m) (k, x) (k', x') (pair_list_sorted m)),
        elem_of_pair_list.
  - intros [Hk Hmin]. apply elem_of_pair_list in Hk as Hin.
    destruct (pair_list m) as [|[k' x'] l] eqn:Hl; [by apply elem_of_nil in Hin|]. simpl.
    assert (m !! k' = Some x') as Hk' by (apply elem_of_pair_list; rewrite Hl; left).
    pose proof (pair_list_sorted m) as Hs. rewrite Hl in Hs.
    pose proof (sorted_head_min _ _ (k, x) Hs eq_refl Hin) as H1. pose proof (Hmin k' (mk_is_Some _ _ Hk')) as H2.
    assert (k = k') as -> by (destruct k, k'; unfold pair_le in *; simpl in *; f_equal; lia). congruence.
Qed.

Lemma pair_first_None m : pair_first m = None <-> m = ∅.
Proof.
  unfold pair_first. split; [|by intros ->]. intros Hh. apply map_empty. intros k.
  destruct (m !! k) as [x|] eqn:Hk; [|done]. apply elem_of_pair_list in Hk.
  destruct (pair_list m); [by apply elem_of_nil in Hk|done].
Qed.

(** The first entry from a key on is the least one. *)
Lemma skip_to_head k m k' x : head (skip_to k m) = Some (k', x) <->
  m !! k' = Some x /\ pair_le k k' /\ forall k2, is_Some (m !! k2) -> pair_le k k2 -> pair_le k' k2.
Proof.
  assert (StronglySorted (fun x y => pair_lt x.1 y.1) (skip_to k m)) as Hs
    by (apply sorted_filter, pair_list_sorted).
  assert (forall y, y ∈ skip_to k m <-> pair_le k y.1 /\ m !! y.1 = Some y.2) as Hin.
  { intros [ky y]. unfold skip_to. by rewrite list_elem_of_filter, elem_of_pair_list. }
  split.
  - intros Hh. assert ((k', x) ∈ skip_to k m) as [H1 H2]%Hin.
    { destruct (skip_to k m); [done|]. injection Hh as ->. left. }
    split_and!; [done..|]. intros k2 [x2 Hx2] Hk2.
    by apply (sorted_head_min _ (k', x) (k2, x2) Hs Hh), Hin.
  - intros (Hk' & Hle & Hmin). assert ((k', x) ∈ skip_to k m) as Hi by by apply Hin.
    destruct (skip_to k m) as [|[k0 x0] l] eqn:Hl; [by apply elem_of_nil in Hi|]. simpl.
    assert ((k0, x0) ∈ (k0, x0) :: l) as [H1 H2]%Hin by left. simpl in *.
    pose proof (sorted_head_min _ _ (k', x) Hs eq_refl Hi) as H3.
    pose proof (Hmin k0 (mk_is_Some _ _ H2) H1) as H4.
    assert (k0 = k') as -> by (destruct k0, k'; unfold pair_le in *; simpl in *; f_equal; lia). congruence.
Qed.

(** The last entry below a key is the greatest one. *)
Lemma record_prior_to_Some k m k' x : record_prior_to k m = Some (k', x) ->
  m !! k' = Some x /\ pair_lt k' k /\ forall k2, is_Some (m !! k2) -> pair_lt k2 k -> pair_le k2 k'.
Proof.
  unfold record_prior_to. set (l := filter _ _). intros Hh.
  assert (StronglySorted (fun x y => pair_lt x.1 y.1) l) as Hs
    by (apply sorted_filter, pair_list_sorted).
  assert (forall y, y ∈ l <-> pair_lt y.1 k /\ m !! y.1 = Some y.2) as Hin.
  { intros [ky y]. unfold l. by rewrite list_elem_of_filter, elem_of_pair_list. }
  assert ((k', x) ∈ l) as [H1 H2]%Hin by by apply last_Some_elem_of.
  split_and!; [done..|]. intros k2 [x2 Hx2] Hk2. by apply (sorted_last_max l (k', x) (k2, x2) Hs Hh), Hin.
Qed.

Lemma record_prior_to_None k m : record_prior_to k m = None ->
  forall k2, is_Some (m !! k2) -> ~ pair_lt k2 k.
Proof.
  unfold record_prior_to. rewrite last_None. intros Hn k2 [x Hx] Hk.
  assert ((k2, x) ∈ filter (fun y => pair_lt y.1 k) (pair_list m)) as Hin
    by (by rewrite list_elem_of_filter, elem_of_pair_list).
  rewrite Hn in Hin. by apply elem_of_nil in Hin.
Qed.

Lemma last_record_Some m k x : last_record m = Some (k, x) ->
  m !! k = Some x /\ forall k2, is_Some (m !! k2) -> pair_le k2 k.
Proof.
  unfold last_record. intros Hl. split; [by apply elem_of_pair_list, last_Some_elem_of|].
  intros k2 [x2 Hx2]. by apply (sorted_last_max _ (k, x) (k2, x2) (pair_list_sorted m) Hl), elem_of_pair_list.
Qed.

End pair_map.
