(* ===== verification/CertStore.v ===== *)
(** * The certificate store

    [crates/infrastructure/storage/src/stores/certificate_store.rs]: the
    certificates of the epoch by digest, their two indexes by round and by
    origin, and the tail of the previous epoch. The tables are the maps that
    the database promises to be; a failed database refuses every write. *)
From S2P Require Import Prelude State Types PairMap.
From stdpp Require Import strings.

#[local] Open Scope Z_scope.

Abbreviation StoreError := string (only parsing).

Record CertTables := {
  certificates : gmap Z Certificate;
  digest_by_round : gmap (Z * Z) Z;
  digest_by_origin : gmap (Z * Z) Z;
  prev_certificates : gmap Z Certificate;
  prev_digest_by_origin : gmap (Z * Z) Z;
  store_fatal : option StoreError
}.

Inductive CertScope := Current | PrevEpoch.

Definition PREV_EPOCH_TAIL_ROUNDS : Round := 50.

(** [PrevEpochTailEntry] *)
Record TailEntry := {
  te_round : Round;
  te_origin : AuthorityIdentifier;
  te_digest : CertificateDigest;
  te_cert : Certificate
}.

Section store.
Context `{!Crypto}.
Implicit Types t : CertTables.

Abbreviation W := (ST CertTables StoreError).

(** ** Writes *)

(** A transaction: refused once the database failed, all of it otherwise. *)
Definition with_write_txn (f : CertTables -> CertTables) : W unit := fun t =>
  match store_fatal t with
  | Some e => (t, Err e)
  | None => (f t, Ret tt)
  end.

Definition save_cert (d : CertificateDigest) (x : Certificate) t : CertTables := {|
  certificates := <[d := x]> (certificates t);
  digest_by_round := <[(cert_round x, origin x) := d]> (digest_by_round t);
  digest_by_origin := <[(origin x, cert_round x) := d]> (digest_by_origin t);
  prev_certificates := prev_certificates t; prev_digest_by_origin := prev_digest_by_origin t;
  store_fatal := store_fatal t |}.

Definition write_certificate (x : Certificate) : W unit := with_write_txn (save_cert (digest x) x).

Definition save_all (xs : list Certificate) t : CertTables :=
  foldl (fun t x => save_cert (digest x) x t) t xs.

Definition write_all (xs : list Certificate) : W unit := with_write_txn (save_all xs).

Definition drop_cert (d : CertificateDigest) (x : Certificate) t : CertTables := {|
  certificates := base.delete d (certificates t);
  digest_by_round := base.delete (cert_round x, origin x) (digest_by_round t);
  digest_by_origin := base.delete (origin x, cert_round x) (digest_by_origin t);
  prev_certificates := prev_certificates t; prev_digest_by_origin := prev_digest_by_origin t;
  store_fatal := store_fatal t |}.

Definition delete_certificate (d : CertificateDigest) : W unit := fun t =>
  match certificates t !! d with
  | None => (t, Ret tt)
  | Some x => with_write_txn (drop_cert d x) t
  end.

Definition clear_tables t : CertTables := {|
  certificates := ∅; digest_by_round := ∅; digest_by_origin := ∅;
  prev_certificates := prev_certificates t; prev_digest_by_origin := prev_digest_by_origin t;
  store_fatal := store_fatal t |}.

Definition clear_certificates : W unit := with_write_txn clear_tables.

(** ** Reads *)

Definition read_certificate (d : CertificateDigest) t : option Certificate := certificates t !! d.

Definition contains_certificate (d : CertificateDigest) t : bool := bool_decide (is_Some (certificates t !! d)).

Definition multi_contains (ds : list CertificateDigest) t : list bool := (fun d => contains_certificate d t) <$> ds.

Definition read_all (ds : list CertificateDigest) t : list (option Certificate) :=
  (fun d => read_certificate d t) <$> ds.

Definition read_by_index (o : AuthorityIdentifier) (r : Round) t : option Certificate :=
  digest_by_origin t !! (o, r) ≫= fun d => read_certificate d t.

Definition read_by_index_in (scope : CertScope) (o : AuthorityIdentifier) (r : Round) t :
    option Certificate :=
  match scope with
  | Current => read_by_index o r t
  | PrevEpoch => prev_digest_by_origin t !! (o, r) ≫= fun d => prev_certificates t !! d
  end.

(** The bodies of the digests of an index: an index entry without a body is an
    error. *)
Fixpoint bodies (ds : list CertificateDigest) t : Exec StoreError (list Certificate) :=
  match ds with
  | [] => Ret []
  | d :: ds' =>
      match read_certificate d t with
      | Some x => xs ← bodies ds' t; Ret (x :: xs)
      | None => Err "CertificateStore invariant violation"
      end
  end.

(** The entries of the round index from a row at or before the round on. *)
Definition from_round (r : Round) t : list ((Z * Z) * Z) :=
  if 0 <? r then skip_to (r - 1, 0) (digest_by_round t) else pair_list (digest_by_round t).

Definition after_round (r : Round) t : Exec StoreError (list Certificate) :=
  bodies (filter (fun e => r <= e.1.1) (from_round r t)).*2 t.

Definition origins_after_round (r : Round) t : gmap Z (list AuthorityIdentifier) :=
  foldl (fun m e =>
    if e.1.1 <? r then m
    else <[e.1.1 := default [] (m !! e.1.1) ++ [e.1.2]]> m) ∅ (from_round r t).

Fixpoint last_two_loop (round : Round) (l : list ((Z * Z) * Z)) : list CertificateDigest :=
  match l with
  | [] => []
  | ((r, _), d) :: l' =>
      if round =? 0 then d :: last_two_loop r l'
      else if r <? round - 1 then []
      else d :: last_two_loop round l'
  end.

Definition last_two_rounds_certs t : Exec StoreError (list Certificate) :=
  bodies (last_two_loop 0 (reverse (pair_list (digest_by_round t)))) t.

Definition last_round (o : AuthorityIdentifier) t : option Certificate :=
  match record_prior_to (o, u32_max) (digest_by_origin t) with
  | Some ((name, _), d) => if name =? o then read_certificate d t else None
  | None => None
  end.

Definition highest_round_number t : Round :=
  match last_record (digest_by_round t) with
  | Some ((r, _), _) => r
  | None => 0
  end.

Definition last_round_number (o : AuthorityIdentifier) t : option Round :=
  match record_prior_to (o, u32_max) (digest_by_origin t) with
  | Some ((name, r), _) => if name =? o then Some r else None
  | None => None
  end.

(** The next round of an origin in an index by origin. *)
Definition next_in_index (o : AuthorityIdentifier) (r : Round) (index : gmap (Z * Z) Z) :
    option Round :=
  match checked_add u32_max r 1 with
  | None => None
  | Some next =>
      match head (skip_to (o, next) index) with
      | Some ((name, r'), _) => if name =? o then Some r' else None
      | None => None
      end
  end.

Definition next_round_number (o : AuthorityIdentifier) (r : Round) t : option Round :=
  next_in_index o r (digest_by_origin t).

Definition next_round_number_in (scope : CertScope) (o : AuthorityIdentifier) (r : Round) t :
    option Round :=
  match scope with
  | Current => next_round_number o r t
  | PrevEpoch => next_in_index o r (prev_digest_by_origin t)
  end.

Definition is_empty_certs t : bool := bool_decide (certificates t = ∅).

(** ** The previous epoch's tail *)


Fixpoint take_while_round (from : Round) (l : list ((Z * Z) * Z)) : list ((Z * Z) * Z) :=
  match l with
  | [] => []
  | e :: l' => if from <=? e.1.1 then e :: take_while_round from l' else []
  end.

Definition live_tail (keep_rounds : Round) t : list TailEntry :=
  if keep_rounds =? 0 then []
  else match last_record (digest_by_round t) with
  | None => []
  | Some ((highest, _), _) =>
      omap (fun e => Build_TailEntry e.1.1 e.1.2 e.2 <$> certificates t !! e.2)
        (take_while_round (sat_sub highest (keep_rounds - 1))
          (reverse (pair_list (digest_by_round t))))
  end.

Definition write_prev_epoch_tail (tail : list TailEntry) t : CertTables := {|
  certificates := certificates t; digest_by_round := digest_by_round t;
  digest_by_origin := digest_by_origin t;
  prev_certificates := foldl (fun m e => <[te_digest e := te_cert e]> m) ∅ tail;
  prev_digest_by_origin := foldl (fun m e => <[(te_origin e, te_round e) := te_digest e]> m) ∅ tail;
  store_fatal := store_fatal t |}.

End store.

(** ** The invariant of the tables *)

Definition slot (x : Certificate) : Z * Z := (cert_round x, origin x).

Section store_lemmas.
Context `{!Crypto}.
Implicit Types t : CertTables.

(** The indexes point to the certificates, at their slots. *)
Record store_ok t : Prop := {
  so_round : forall k d, digest_by_round t !! k = Some d ->
    exists x, certificates t !! d = Some x /\ slot x = k;
  so_origin : forall o r, digest_by_origin t !! (o, r) = digest_by_round t !! (r, o);
  so_cert : forall d x, certificates t !! d = Some x ->
    digest x = d /\ digest_by_round t !! slot x = Some d
}.

(** Certificates with one digest are for one slot, and those for one slot have
    one digest: digests are collision-free and certificates do not equivocate. *)
Definition consistent (U : Certificate -> Prop) : Prop :=
  forall x y, U x -> U y -> (digest x = digest y <-> slot x = slot y).

Definition within (U : Certificate -> Prop) t : Prop :=
  forall d x, certificates t !! d = Some x -> U x.

Lemma save_cert_ok U x t : consistent U -> U x -> within U t -> store_ok t ->
  store_ok (save_cert (digest x) x t) /\ within U (save_cert (digest x) x t).
Proof.
  intros HU Hx Hw [Hr Ho Hc]. split; [split|].
  - intros k d. simpl. rewrite lookup_insert_Some. intros [[<- <-]|[Hne Hk]].
    + exists x. by rewrite lookup_insert_eq.
    + destruct (Hr _ _ Hk) as (y & Hy & <-). exists y. rewrite lookup_insert_ne; [done|].
      intros Hd. destruct (Hc _ _ Hy) as [Hyd _]. apply Hne. change ((cert_round x, origin x)) with (slot x).
      apply (HU x y); [done|by eapply Hw|congruence].
  - intros o r. simpl. rewrite !lookup_insert. rewrite Ho. repeat case_decide; naive_solver.
  - intros d y. simpl. rewrite lookup_insert_Some. change (cert_round x, origin x) with (slot x).
    intros [[<- <-]|[Hne Hy]]; [split; [done|apply lookup_insert_eq]|].
    destruct (Hc _ _ Hy) as [Hyd Hk]. split; [done|]. rewrite lookup_insert_ne; [done|].
    intros Hs. apply Hne. rewrite <- Hyd. apply (HU x y); [done|by eapply Hw|done].
  - intros d y. simpl. rewrite lookup_insert_Some. intros [[_ <-]|[_ Hy]]; [done|by eapply Hw].
Qed.

Lemma save_all_ok U xs t : consistent U -> Forall U xs -> within U t -> store_ok t ->
  store_ok (save_all xs t) /\ within U (save_all xs t).
Proof.
  intros HU Hall. revert t. induction Hall as [|x xs Hx Hall IH]; intros t Hw Hok; [done|].
  destruct (save_cert_ok U x t HU Hx Hw Hok). simpl. by apply IH.
Qed.

Lemma drop_cert_ok U d x t : consistent U -> within U t -> store_ok t -> certificates t !! d = Some x ->
  store_ok (drop_cert d x t) /\ within U (drop_cert d x t).
Proof.
  intros HU Hw [Hr Ho Hc] Hx. destruct (Hc _ _ Hx) as [Hd Hkx].
  split; [split|]; simpl; change (cert_round x, origin x) with (slot x).
  - intros k d'. rewrite lookup_delete_Some. intros [Hne Hk]. destruct (Hr _ _ Hk) as (y & Hy & <-).
    exists y. rewrite lookup_delete_ne; [done|]. intros ->. apply Hne. congruence.
  - intros o r. rewrite !lookup_delete. rewrite Ho. unfold slot. repeat case_decide; naive_solver.
  - intros d' y. rewrite lookup_delete_Some. intros [Hne Hy]. destruct (Hc _ _ Hy) as [Hyd Hk].
    split; [done|]. rewrite lookup_delete_ne; [done|]. intros Hs. rewrite <- Hs, Hkx in Hk. congruence.
  - intros d' y. simpl. rewrite lookup_delete_Some. intros [_ Hy]. by eapply Hw.
Qed.

Lemma clear_tables_ok U t : store_ok (clear_tables t) /\ within U (clear_tables t).
Proof.
  split; [split|].
  - intros k d. simpl. by rewrite lookup_empty.
  - intros o r. simpl. by rewrite !lookup_empty.
  - intros d x. simpl. by rewrite lookup_empty.
  - intros d x. simpl. by rewrite lookup_empty.
Qed.

(** ** Reads *)

(** The bodies of a part of the round index. *)
Lemma bodies_index t (es : list ((Z * Z) * Z)) : store_ok t ->
  (forall e, e ∈ es -> digest_by_round t !! e.1 = Some e.2) ->
  exists l, bodies es.*2 t = Ret l /\ slot <$> l = es.*1 /\
    forall x, x ∈ l <-> (slot x, digest x) ∈ es /\ read_certificate (digest x) t = Some x.
Proof.
  intros Hok Hin. induction es as [|[k d] es IH].
  { exists []. split_and!; [done..|]. intros x. set_solver. }
  destruct IH as (l & Hl & Hs & Hm); [intros e He; apply Hin; by right|].
  destruct (so_round _ Hok k d (Hin (k, d) ltac:(left))) as (x & Hx & Hk).
  destruct (so_cert _ Hok _ _ Hx) as [Hd _].
  exists (x :: l). split_and!.
  - simpl. unfold read_certificate at 1. rewrite Hx. fold_fmap. by rewrite Hl.
  - by rewrite !fmap_cons, Hk, Hs.
  - intros y. rewrite !elem_of_cons, Hm. split.
    + intros [->|[? ?]]; [|tauto]. split; [left; congruence|]. unfold read_certificate. by rewrite Hd.
    + intros [[Heq|?] Hy]; [left|by right]. injection Heq as _ Hyd. unfold read_certificate in Hy. congruence.
Qed.

Lemma from_round_filter r t :
  filter (fun e => r <= e.1.1) (from_round r t) = filter (fun e => r <= e.1.1) (pair_list (digest_by_round t)).
Proof.
  unfold from_round. destruct (Z.ltb_spec 0 r); [|done]. unfold skip_to.
  induction (pair_list (digest_by_round t)) as [|e l IH]; [done|].
  rewrite !filter_cons. case_decide as H1; rewrite ?filter_cons; repeat case_decide; rewrite ?IH; try done.
  destruct H1. unfold pair_le. simpl. lia.
Qed.

Lemma index_sorted (P : (Z * Z) * Z -> Prop) `{!forall e, Decision (P e)} t l :
  slot <$> l = (filter P (pair_list (digest_by_round t))).*1 -> StronglySorted pair_lt (slot <$> l).
Proof.
  intros ->. pose proof (sorted_filter P _ (pair_list_sorted (digest_by_round t))) as Hs.
  induction Hs as [|e es Hs IH Hall]; simpl; [constructor|]. constructor; [done|].
  by apply Forall_fmap.
Qed.

Lemma after_round_ok r t : store_ok t -> exists l, after_round r t = Ret l /\
  StronglySorted pair_lt (slot <$> l) /\
  forall x, x ∈ l <-> read_certificate (digest x) t = Some x /\ r <= cert_round x.
Proof.
  intros Hok. unfold after_round. rewrite from_round_filter.
  destruct (bodies_index t (filter (fun e => r <= e.1.1) (pair_list (digest_by_round t))) Hok)
    as (l & Hl & Hs & Hm).
  { intros [k d] [_ He]%list_elem_of_filter. by apply elem_of_pair_list. }
  exists l. split; [done|]. split; [by eapply index_sorted|]. intros x. rewrite Hm, list_elem_of_filter.
  rewrite elem_of_pair_list. simpl. split; [tauto|]. intros [Hx Hr]. split_and!; try done.
  by destruct (so_cert _ Hok _ _ Hx).
Qed.

(** ** The last two rounds *)

Lemma last_two_loop_filter round l : round <> 0 ->
  StronglySorted (fun x y : (Z * Z) * Z => pair_lt y.1 x.1) l ->
  last_two_loop round l = (filter (fun e => round - 1 <= e.1.1) l).*2.
Proof.
  intros Hr Hs. induction Hs as [|[[r o] d] l Hs IH Hall]; [done|].
  simpl. rewrite (proj2 (Z.eqb_neq _ _) Hr). rewrite filter_cons. simpl.
  destruct (Z.ltb_spec r (round - 1)) as [Hlt|Hge].
  - rewrite decide_False by lia. rewrite filter_none; [done|].
    intros e He. rewrite Forall_forall in Hall. specialize (Hall _ He).
    unfold pair_lt in Hall. simpl in *. lia.
  - rewrite decide_True by lia. simpl. by rewrite IH.
Qed.

Lemma reverse_sorted (l : list ((Z * Z) * Z)) : StronglySorted (fun x y => pair_lt x.1 y.1) l ->
  StronglySorted (fun x y => pair_lt y.1 x.1) (reverse l).
Proof.
  induction 1 as [|x l Hs IH Hall]; [constructor|]. rewrite reverse_cons.
  apply StronglySorted_app_2; [|done|by repeat constructor].
  intros y z Hy Hz%list_elem_of_singleton. subst z. rewrite elem_of_reverse in Hy. rewrite Forall_forall in Hall.
  by apply Hall.
Qed.

Lemma highest_round_max t x d : store_ok t -> certificates t !! d = Some x ->
  cert_round x <= highest_round_number t.
Proof.
  intros Hok Hx. destruct (so_cert _ Hok _ _ Hx) as [_ Hk]. unfold highest_round_number.
  destruct (last_record (digest_by_round t)) as [[[r o] d']|] eqn:Hl.
  - apply last_record_Some in Hl as [_ Hmax]. pose proof (Hmax _ (mk_is_Some _ _ Hk)) as Hle.
    unfold pair_le in Hle. simpl in Hle. lia.
  - unfold last_record in Hl. apply last_None in Hl. apply elem_of_pair_list in Hk. rewrite Hl in Hk.
    by apply elem_of_nil in Hk.
Qed.

Lemma last_two_index t : (forall d x, certificates t !! d = Some x -> 0 < cert_round x) -> store_ok t ->
  last_two_loop 0 (reverse (pair_list (digest_by_round t))) =
  (filter (fun e => highest_round_number t - 1 <= e.1.1) (reverse (pair_list (digest_by_round t)))).*2.
Proof.
  intros Hpos Hok. pose proof (reverse_sorted _ (pair_list_sorted (digest_by_round t))) as Hs.
  unfold highest_round_number, last_record. destruct (reverse (pair_list (digest_by_round t)))
    as [|[[r o] d] l] eqn:Hl; [done|].
  assert (pair_list (digest_by_round t) = reverse l ++ [((r, o), d)]) as Heq.
  { rewrite <- (reverse_involutive (pair_list _)), Hl. apply reverse_cons. }
  rewrite Heq, last_snoc. simpl. rewrite filter_cons, decide_True by (simpl; lia). simpl. f_equal.
  apply StronglySorted_inv in Hs as [Hs _]. apply last_two_loop_filter; [|done].
  assert (digest_by_round t !! (r, o) = Some d) as Hk
    by (apply elem_of_pair_list; rewrite Heq; set_solver).
  destruct (so_round _ Hok _ _ Hk) as (x & Hx & [= <- <-]). pose proof (Hpos _ _ Hx). lia.
Qed.

Lemma last_two_rounds_ok t : (forall d x, certificates t !! d = Some x -> 0 < cert_round x) -> store_ok t ->
  exists l, last_two_rounds_certs t = Ret l /\ NoDup (slot <$> l) /\
  forall x, x ∈ l <-> read_certificate (digest x) t = Some x /\ highest_round_number t - 1 <= cert_round x.
Proof.
  intros Hpos Hok. unfold last_two_rounds_certs. rewrite last_two_index by done.
  set (es := filter _ _). destruct (bodies_index t es Hok) as (l & Hl & Hs & Hm).
  { intros [k d] [_ He]%list_elem_of_filter. rewrite elem_of_reverse in He. by apply elem_of_pair_list. }
  exists l. split; [done|]. split.
  - rewrite Hs. unfold es. apply NoDup_fst_filter. rewrite fmap_reverse, reverse_Permutation.
    apply NoDup_pair_keys.
  - intros x. rewrite Hm. unfold es. rewrite list_elem_of_filter, elem_of_reverse, elem_of_pair_list.
    simpl. split; [tauto|]. intros [Hx Hr]. split_and!; try done. by destruct (so_cert _ Hok _ _ Hx).
Qed.

(** ** Look-ups by origin *)

Lemma read_by_index_ok o r t x : store_ok t ->
  read_by_index o r t = Some x <-> read_certificate (digest x) t = Some x /\ slot x = (r, o).
Proof.
  intros Hok. unfold read_by_index. rewrite (so_origin _ Hok), bind_Some. split.
  - intros (d & Hk & Hx). destruct (so_round _ Hok _ _ Hk) as (y & Hy & Hs).
    unfold read_certificate in *. assert (x = y) as -> by congruence.
    destruct (so_cert _ Hok _ _ Hy) as [-> _]. done.
  - intros [Hx Hs]. exists (digest x). split; [|done]. rewrite <- Hs. by apply (so_cert _ Hok).
Qed.

Lemma index_by_origin o r t : store_ok t ->
  is_Some (digest_by_origin t !! (o, r)) <-> is_Some (read_by_index o r t).
Proof.
  intros Hok. unfold read_by_index. rewrite (so_origin _ Hok). split.
  - intros [d Hk]. rewrite Hk. simpl. destruct (so_round _ Hok _ _ Hk) as (y & Hy & _). by exists y.
  - intros [x (d & Hk & _)%bind_Some]. by exists d.
Qed.

Lemma next_in_index_Some o r index r' : next_in_index o r index = Some r' <->
  r < u32_max /\ is_Some (index !! (o, r')) /\ r < r' /\
  forall r2, is_Some (index !! (o, r2)) -> r < r2 -> r' <= r2.
Proof.
  unfold next_in_index, checked_add. destruct (Z.leb_spec (r + 1) u32_max); [|split; [done|lia]].
  destruct (head (skip_to (o, r + 1) index)) as [[[name r1] d]|] eqn:Hh.
  - apply skip_to_head in Hh as (Hk & Hle & Hmin). unfold pair_le in Hle. simpl in Hle.
    destruct (Z.eqb_spec name o) as [->|Hne]; split.
    + intros [= ->]. split_and!; [lia|by eexists|lia|]. intros r2 Hr2 Hlt.
      assert (pair_le (o, r') (o, r2)) as Hp by (apply Hmin; [done|unfold pair_le; simpl; lia]).
      unfold pair_le in Hp. simpl in Hp. lia.
    + intros (_ & Hr' & Hlt & Hleast). f_equal. assert (r' <= r1) by (apply Hleast; [by eexists|lia]).
      assert (pair_le (o, r1) (o, r')) as Hp by (apply Hmin; [done|unfold pair_le; simpl; lia]).
      unfold pair_le in Hp. simpl in Hp. lia.
    + done.
    + intros (_ & Hr' & Hlt & _).
      assert (pair_le (name, r1) (o, r')) as Hp by (apply Hmin; [done|unfold pair_le; simpl; lia]).
      unfold pair_le in Hp. simpl in Hp. lia.
  - split; [done|]. intros (_ & [d Hd] & Hlt & _). exfalso.
    assert (((o, r'), d) ∈ skip_to (o, r + 1) index) as Hin.
    { unfold skip_to. rewrite list_elem_of_filter, elem_of_pair_list. split; [unfold pair_le; simpl; lia|done]. }
    destruct (skip_to (o, r + 1) index); [by apply elem_of_nil in Hin|done].
Qed.

Lemma last_round_number_ok o r t : store_ok t -> last_round_number o t = Some r ->
  is_Some (read_by_index o r t) /\ forall r2, r2 < u32_max -> is_Some (read_by_index o r2 t) -> r2 <= r.
Proof.
  intros Hok. unfold last_round_number.
  destruct (record_prior_to (o, u32_max) (digest_by_origin t)) as [[[name r'] d]|] eqn:Hr; [|done].
  apply record_prior_to_Some in Hr as (Hk & _ & Hmax). destruct (Z.eqb_spec name o) as [->|]; [|done].
  intros [= ->]. split; [apply index_by_origin; [done|by eexists]|]. intros r2 Hlt Hr2.
  assert (pair_le (o, r2) (o, r)) as Hp.
  { apply Hmax; [by apply index_by_origin|unfold pair_lt; simpl; lia]. }
  unfold pair_le in Hp. simpl in Hp. lia.
Qed.

End store_lemmas.

(** ** The tail of the previous epoch *)

(** Insertions of a list in which a key determines the value. *)
Lemma lookup_foldl_insert `{Countable K} {V B} (f : B -> K) (g : B -> V) (l : list B) (m : gmap K V) k v :
  (forall a b, a ∈ l -> b ∈ l -> f a = f b -> g a = g b) ->
  foldl (fun m a => <[f a := g a]> m) m l !! k = Some v <->
  (exists a, a ∈ l /\ f a = k /\ g a = v) \/ (forall a, a ∈ l -> f a <> k) /\ m !! k = Some v.
Proof.
  revert m. induction l as [|b l IH]; intros m Hf; simpl; [set_solver|].
  rewrite IH by (intros; apply Hf; set_solver). rewrite lookup_insert_Some. split.
  - intros [(a & Ha & <- & <-)|[Hn [[Hk Hv]|[Hk Hv]]]].
    + left. exists a. set_solver.
    + left. exists b. set_solver.
    + right. split; [|done]. intros a [->|Ha]%elem_of_cons; [done|by apply Hn].
  - intros [(a & [->|Ha]%elem_of_cons & <- & <-)|[Hn Hv]].
    + destruct (decide (Exists (fun a => f a = f b) l)) as [(a & Ha & He)%Exists_exists|Hne].
      * left. exists a. split_and!; [done|done|]. apply Hf; [by right|left|done].
      * right. split; [|by left]. intros a Ha Heq. apply Hne, Exists_exists. eauto.
    + left. eauto.
    + right. split; [intros a Ha; apply Hn; by right|]. right. split; [|done]. apply Hn. left.
Qed.

Section tail.
Context `{!Crypto}.
Implicit Types t : CertTables.

Lemma take_while_filter from (l : list ((Z * Z) * Z)) :
  StronglySorted (fun x y => pair_lt y.1 x.1) l ->
  take_while_round from l = filter (fun e => from <= e.1.1) l.
Proof.
  induction 1 as [|e l Hs IH Hall]; [done|]. simpl. rewrite filter_cons.
  destruct (Z.leb_spec from e.1.1); [by rewrite decide_True, IH|].
  rewrite decide_False by lia. symmetry. apply filter_none. intros e' He'.
  rewrite Forall_forall in Hall. specialize (Hall _ He'). unfold pair_lt in Hall. lia.
Qed.

Lemma live_tail_elem k t e : store_ok t -> 0 < k ->
  e ∈ live_tail k t <->
  certificates t !! te_digest e = Some (te_cert e) /\ slot (te_cert e) = (te_round e, te_origin e) /\
  sat_sub (highest_round_number t) (k - 1) <= te_round e.
Proof.
  intros Hok Hk. unfold live_tail, highest_round_number. rewrite (proj2 (Z.eqb_neq k 0)) by lia.
  destruct (last_record (digest_by_round t)) as [[[h o] d]|] eqn:Hl.
  - rewrite list_elem_of_omap. rewrite take_while_filter by apply reverse_sorted, pair_list_sorted.
    split.
    + intros ([[r o'] d'] & Hin & (x & Hx & ->)%fmap_Some). simpl in *.
      rewrite list_elem_of_filter, elem_of_reverse, elem_of_pair_list in Hin. destruct Hin as [Hr Hd].
      split; [done|]. split; [|done]. destruct (so_round _ Hok _ _ Hd) as (y & Hy & Hs). congruence.
    + intros (Hc & Hs & Hr). exists ((te_round e, te_origin e), te_digest e). split.
      * rewrite list_elem_of_filter, elem_of_reverse, elem_of_pair_list. split; [done|].
        rewrite <- Hs. by apply (so_cert _ Hok).
      * simpl. rewrite Hc. by destruct e.
  - split; [by intros ?%elem_of_nil|]. intros (Hc & _). destruct (so_cert _ Hok _ _ Hc) as [_ Hd].
    unfold last_record in Hl. apply last_None in Hl. apply elem_of_pair_list in Hd. rewrite Hl in Hd.
    by apply elem_of_nil in Hd.
Qed.

(** The tail answers for the kept rounds as the live tables did. *)
Lemma tail_reads k t o r : store_ok t -> 0 < k ->
  read_by_index_in PrevEpoch o r (write_prev_epoch_tail (live_tail k t) t) =
  if sat_sub (highest_round_number t) (k - 1) <=? r then read_by_index o r t else None.
Proof.
  intros Hok Hk. apply option_eq. intros x. simpl. rewrite bind_Some.
  setoid_rewrite lookup_foldl_insert.
  2: { intros a b Ha Hb Heq. injection Heq as Ho Hr.
       apply live_tail_elem in Ha as (Ha & Hsa & _), Hb as (Hb & Hsb & _); try done.
       apply (so_cert _ Hok) in Ha as [_ Ha], Hb as [_ Hb].
       rewrite Hsa in Ha. rewrite Hsb in Hb. congruence. }
  2: { intros a b Ha Hb Heq. apply live_tail_elem in Ha as (Ha & _), Hb as (Hb & _); try done. congruence. }
  rewrite !lookup_empty. split.
  - intros (d & [(e & He & [= <- <-] & <-)|[_ ?]] & [(e' & He' & Hd & <-)|[_ ?]]); try done.
    apply live_tail_elem in He as (He & Hs & Hr), He' as (He' & Hs' & Hr'); try done.
    rewrite (proj2 (Z.leb_le _ _)) by done. apply read_by_index_ok; [done|]. unfold read_certificate.
    rewrite Hd, He in He'. injection He' as Hee. rewrite <- Hee in *. destruct (so_cert _ Hok _ _ He) as [-> _].
    done.
  - destruct (Z.leb_spec (sat_sub (highest_round_number t) (k - 1)) r); [|done].
    intros [Hx Hs]%read_by_index_ok; [|done]. exists (digest x).
    assert ({| te_round := r; te_origin := o; te_digest := digest x; te_cert := x |} ∈ live_tail k t) as Hin
      by (by apply live_tail_elem).
    split; left; eexists; (split; [exact Hin|done]).
Qed.
End tail.

(** ** Runs *)

Inductive StoreOp :=
  | OpWriteAll (xs : list Certificate)
  | OpDelete (d : CertificateDigest)
  | OpClear
  | OpTail (keep_rounds : Round).

Definition run_op `{!Crypto} (op : StoreOp) (t : CertTables) : CertTables :=
  match op with
  | OpWriteAll xs => (write_all xs t).1
  | OpDelete d => (delete_certificate d t).1
  | OpClear => (clear_certificates t).1
  | OpTail keep => (with_write_txn (fun t => write_prev_epoch_tail (live_tail keep t) t) t).1
  end.

Definition empty_tables : CertTables := {|
  certificates := ∅; digest_by_round := ∅; digest_by_origin := ∅; prev_certificates := ∅;
  prev_digest_by_origin := ∅; store_fatal := None |}.

Definition run_ops `{!Crypto} (ops : list StoreOp) : CertTables :=
  foldl (fun t op => run_op op t) empty_tables ops.

Definition op_within (U : Certificate -> Prop) (op : StoreOp) : Prop :=
  match op with OpWriteAll xs => Forall U xs | _ => True end.

Lemma run_op_ok `{!Crypto} U op t : consistent U -> op_within U op -> within U t -> store_ok t ->
  store_ok (run_op op t) /\ within U (run_op op t).
Proof.
  intros HU Hop Hw Hok. destruct op as [xs|d| |k]; simpl;
    unfold write_all, delete_certificate, clear_certificates, with_write_txn.
  - destruct (store_fatal t); [done|]. by apply save_all_ok.
  - destruct (certificates t !! d) as [x|] eqn:Hx; [|done]. destruct (store_fatal t); [done|].
    by apply drop_cert_ok.
  - destruct (store_fatal t); [done|]. apply clear_tables_ok.
  - destruct (store_fatal t); [done|]. destruct Hok. split; [by split|done].
Qed.

Lemma run_ops_ok `{!Crypto} U ops : consistent U -> Forall (op_within U) ops ->
  store_ok (run_ops ops) /\ within U (run_ops ops).
Proof.
  intros HU Hops. unfold run_ops.
  assert (store_ok empty_tables /\ within U empty_tables) as [H1 H2] by apply (clear_tables_ok U empty_tables).
  revert H1 H2. generalize empty_tables. induction Hops as [|op ops Hop Hops IH]; intros t Hok Hw; [done|].
  destruct (run_op_ok U op t HU Hop Hw Hok). simpl. by apply IH.
Qed.

(** after any sequence of writes, deletions, clears and epoch changes, the
    two indexes answer for the certificates themselves: a look-up by author and
    round, the scan of the rounds from one on (in order, without a repetition
    and without the invariant error), the last two rounds that recovery starts
    from, the next round of an author, and the tail of the previous epoch. *)
Theorem cert_store_reads `{!Crypto} U ops t : consistent U -> (forall x, U x -> 0 < cert_round x) ->
  Forall (op_within U) ops -> t = run_ops ops ->
  (forall o r x, read_by_index o r t = Some x <-> read_certificate (digest x) t = Some x /\ slot x = (r, o)) /\
  (forall r, exists l, after_round r t = Ret l /\ StronglySorted pair_lt (slot <$> l) /\
     forall x, x ∈ l <-> read_certificate (digest x) t = Some x /\ r <= cert_round x) /\
  (exists l, last_two_rounds_certs t = Ret l /\ NoDup (slot <$> l) /\
     forall x, x ∈ l <-> read_certificate (digest x) t = Some x /\ highest_round_number t - 1 <= cert_round x) /\
  (forall o r r', next_round_number o r t = Some r' <->
     r < u32_max /\ is_Some (read_by_index o r' t) /\ r < r' /\
     forall r2, is_Some (read_by_index o r2 t) -> r < r2 -> r' <= r2) /\
  (forall k o r, 0 < k -> read_by_index_in PrevEpoch o r (write_prev_epoch_tail (live_tail k t) t) =
     if sat_sub (highest_round_number t) (k - 1) <=? r then read_by_index o r t else None).
Proof.
  intros HU Hpos Hops ->. destruct (run_ops_ok U ops HU Hops) as [Hok Hw]. split_and!.
  - intros. by apply read_by_index_ok.
  - intros r. by apply after_round_ok.
  - apply last_two_rounds_ok; [|done]. intros d x Hx. by eapply Hpos, Hw.
  - intros o r r'. unfold next_round_number. rewrite next_in_index_Some.
    by setoid_rewrite (index_by_origin o _ _ Hok).
  - intros. by apply tail_reads.
Qed.

Lemma cert_store_reads_witness :
  let ops := [OpWriteAll [example_cert 1 1 []; example_cert 2 1 []; example_cert 1 2 []];
              OpDelete 1002; OpTail 1] in
  let t := run_ops (H := example_crypto) ops in
  exists l, after_round 1 t = Ret l /\ StronglySorted pair_lt (slot <$> l) /\
    (forall k o r, 0 < k ->
      read_by_index_in (PrevEpoch) o r (write_prev_epoch_tail (live_tail k t) t) =
      if sat_sub (highest_round_number t) (k - 1) <=? r then read_by_index o r t else None).
Proof.
  intros ops t.
  destruct (cert_store_reads (H := example_crypto)
    (fun x => x ∈ [example_cert 1 1 []; example_cert 2 1 []; example_cert 1 2 []]) ops t)
    as (_ & Ha & _ & _ & Ht).
  - intros x y Hx Hy. assert (forall z, z ∈ [example_cert 1 1 []; example_cert 2 1 []; example_cert 1 2 []] ->
      z = example_cert 1 1 [] \/ z = example_cert 2 1 [] \/ z = example_cert 1 2 []) as Hz by set_solver.
    apply Hz in Hx, Hy. destruct Hx as [->|[->| ->]], Hy as [->|[->| ->]]; by vm_compute.
  - intros x Hx. assert (x = example_cert 1 1 [] \/ x = example_cert 2 1 [] \/ x = example_cert 1 2 [])
      as Hz by set_solver. by destruct Hz as [->|[->| ->]].
  - repeat constructor; set_solver.
  - reflexivity.
  - destruct (Ha 1) as (l & Hl & Hs & _). by exists l.
Defined.
