(* ===== verification/PendingCerts.v ===== *)
(** * Pending certificates

    [crates/consensus/primary/src/state_sync/pending_cert_manager.rs]:
    certificates that wait for parents, the index of the parents they wait for,
    the cascade that releases them, and their release by garbage collection. *)
From S2P Require Import Prelude State Types Committee Certificates PairMap.
From stdpp Require Import strings.

#[local] Open Scope Z_scope.

Inductive GarbageCollectorError := GcSend | ConsensusRoundWatchChannel | Timeout.

(** The variants of [CertManagerError] that the modelled functions return. *)
Inductive CertManagerError :=
  | CmCertificate (e : CertificateError)
  | CmGC (e : GarbageCollectorError)
  | UnverifiedSignature (d : CertificateDigest)
  | PendingCertificateNotFound (d : CertificateDigest)
  | FatalAppendParent
  | FatalForwardAcceptedCertificate
  | Pending (d : CertificateDigest)
  | CmStorage (e : string)
  | PendingParentsMismatch (d : CertificateDigest)
  | RAYLSSend.

(** The order in which a [HashSet] is iterated is not specified. *)
Class HashIter := hash_iter : gset Z -> list Z.
Class HashIterOk {it : HashIter} := hash_iter_perm : forall s, hash_iter s ≡ₚ elements s.

Record PendingCertificate := {
  certificate : Certificate;
  missing_parent_digests : gset CertificateDigest
}.

Record PendingCertificateManager := {
  pending : gmap Z PendingCertificate;
  missing_for_pending : gmap (Z * Z) (gset Z)
}.

Definition PendingCertificateManager_new : PendingCertificateManager :=
  {| pending := ∅; missing_for_pending := ∅ |}.

Definition set_pending (p : gmap Z PendingCertificate) (m : PendingCertificateManager) :
    PendingCertificateManager :=
  {| pending := p; missing_for_pending := missing_for_pending m |}.

Definition set_missing (x : gmap (Z * Z) (gset Z)) (m : PendingCertificateManager) :
    PendingCertificateManager :=
  {| pending := pending m; missing_for_pending := x |}.

Section pending.
Context `{!Crypto} {it : HashIter}.
Implicit Types m : PendingCertificateManager.

Abbreviation M := (ST PendingCertificateManager CertManagerError).

(** [self.missing_for_pending.entry(key).or_default().insert(digest)] *)
Definition wait_for (d : CertificateDigest) (r : Round) (x : gmap (Z * Z) (gset Z)) (p : CertificateDigest) :
    gmap (Z * Z) (gset Z) :=
  <[(r, p) := {[d]} ∪ default ∅ (x !! (r, p))]> x.

Definition insert_pending (x : Certificate) (missing_parents : gset CertificateDigest) : M unit := fun m =>
  let d := digest x in
  let parent_round := sat_sub (cert_round x) 1 in
  let existing := pending m !! d in
  let m1 := set_pending (<[d := {| certificate := x; missing_parent_digests := missing_parents |}]>
    (pending m)) m in
  match existing with
  | Some e =>
      if bool_decide (missing_parent_digests e = missing_parents)
      then (set_missing (foldl (wait_for d parent_round) (missing_for_pending m1)
              (hash_iter missing_parents)) m1, Ret tt)
      else (m1, Err (PendingParentsMismatch d))
  | None =>
      (set_missing (foldl (wait_for d parent_round) (missing_for_pending m1)
         (hash_iter missing_parents)) m1, Ret tt)
  end.

(** The children of an accepted certificate: one that waits for nothing else is
    ready, and its own children come next. *)
Fixpoint unlock_children (next_digest : CertificateDigest) (ds : list CertificateDigest)
    (queue : list (Round * CertificateDigest)) (ready : list Certificate) :
    M (list (Round * CertificateDigest) * list Certificate) := fun m =>
  match ds with
  | [] => (m, Ret (queue, ready))
  | d :: ds' =>
      match pending m !! d with
      | None => (m, Err (PendingCertificateNotFound d))
      | Some p =>
          let missing := missing_parent_digests p ∖ {[next_digest]} in
          if bool_decide (missing = ∅)
          then unlock_children next_digest ds' (queue ++ [(cert_round (certificate p), d)])
                 (ready ++ [certificate p]) (set_pending (delete d (pending m)) m)
          else unlock_children next_digest ds' queue ready
                 (set_pending (<[d := {| certificate := certificate p;
                                         missing_parent_digests := missing |}]> (pending m)) m)
      end
  end.

Fixpoint update_loop (fuel : nat) (queue : list (Round * CertificateDigest)) (ready : list Certificate) :
    M (list Certificate) := fun m =>
  match queue with
  | [] => (m, Ret ready)
  | (r, d) :: queue' =>
      match fuel with
      | O => (m, Diverge)
      | S fuel' =>
          match missing_for_pending m !! (r, d) with
          | None => update_loop fuel' queue' ready m
          | Some ds =>
              (x ← unlock_children d (hash_iter ds) queue' ready; update_loop fuel' x.1 x.2)
                (set_missing (delete (r, d) (missing_for_pending m)) m)
          end
      end
  end.

(** [update_pending]: each certificate that becomes ready leaves [pending], so
    the queue is processed in at most one step more than there are pending
    certificates. *)
Definition update_pending (r : Round) (d : CertificateDigest) : M (list Certificate) := fun m =>
  update_loop (S (size (pending m))) [(r, d)] [] m.

Definition next_for_gc_round (gc_round : Round) m :
    PendingCertificateManager * option (Round * CertificateDigest) :=
  match pair_first (missing_for_pending m) with
  | None => (m, None)
  | Some ((r, d), _) =>
      if gc_round <? r then (m, None)
      else (match pending m !! d with
            | Some p => set_pending (<[d := {| certificate := certificate p;
                                               missing_parent_digests := ∅ |}]> (pending m)) m
            | None => m
            end, Some (r, d))
  end.

Definition is_pending (d : CertificateDigest) m : bool := bool_decide (is_Some (pending m !! d)).

Definition num_pending m : Z := Z.of_nat (size (pending m)).

Definition filter_unknown_digests (unknown : list CertificateDigest) m : list CertificateDigest :=
  filter (fun d => pending m !! d = None) unknown.

End pending.

(** ** Sets *)

Lemma difference_singleton_empty (s : gset Z) q q' : s ∖ {[q]} = ∅ -> q' ∈ s -> q' = q.
Proof.
  intros He Hin. destruct (decide (q' = q)) as [|Hne]; [done|]. exfalso.
  apply (not_elem_of_empty (C := gset Z) q'). rewrite <- He. apply elem_of_difference.
  split; [done|]. by rewrite elem_of_singleton.
Qed.

Lemma parents_but (a p s : gset Z) q : p ⊆ a ∪ s -> q ∈ a -> p ⊆ a ∪ s ∖ {[q]}.
Proof. intros Hp Hq y Hy. specialize (Hp y Hy). destruct (decide (y = q)); set_solver. Qed.

Lemma parents_all (a p s : gset Z) q : p ⊆ a ∪ s -> s ∖ {[q]} = ∅ -> q ∈ a -> p ⊆ a.
Proof. intros Hp He Hq. pose proof (parents_but _ _ _ _ Hp Hq) as Hb. rewrite He in Hb. set_solver. Qed.

(** ** Causal order *)

Section causal.
Context `{!Crypto}.

Definition digests (xs : list Certificate) : gset Z := list_to_set (digest <$> xs).

(** Each certificate is exempt, or comes after its parents. *)
Fixpoint causal (ex : Certificate -> Prop) (avail : gset Z) (xs : list Certificate) : Prop :=
  match xs with
  | [] => True
  | x :: xs' => (ex x \/ cert_parents x ⊆ avail) /\ causal ex ({[digest x]} ∪ avail) xs'
  end.

Lemma digests_app xs ys : digests (xs ++ ys) = digests xs ∪ digests ys.
Proof. unfold digests. by rewrite fmap_app, list_to_set_app_L. Qed.

Lemma elem_of_digests d xs : d ∈ digests xs <-> exists x, x ∈ xs /\ digest x = d.
Proof. unfold digests. rewrite elem_of_list_to_set, list_elem_of_fmap. naive_solver. Qed.

Lemma causal_mono (ex ex' : Certificate -> Prop) a a' xs :
  (forall x, ex x -> ex' x) -> a ⊆ a' -> causal ex a xs -> causal ex' a' xs.
Proof.
  intros He. revert a a'. induction xs as [|x xs IH]; intros a a' Ha; simpl; [done|].
  intros [Hx Hxs]. split; [destruct Hx; [left; auto|right; set_solver]|]. eapply IH; [|exact Hxs]. set_solver.
Qed.

Lemma causal_app ex a xs ys : causal ex a xs -> causal ex (digests xs ∪ a) ys -> causal ex a (xs ++ ys).
Proof.
  revert a. induction xs as [|x xs IH]; intros a; simpl.
  - intros _. by apply causal_mono; [|set_solver].
  - intros [Hx Hxs] Hys. split; [done|]. apply IH; [done|].
    eapply causal_mono; [done| |exact Hys]. unfold digests. simpl. set_solver.
Qed.

Lemma causal_Forall (ex : Certificate -> Prop) (a : gset Z) xs :
  Forall (fun x => ex x \/ cert_parents x ⊆ a) xs -> causal ex a xs.
Proof.
  intros Hall. assert (forall a', a ⊆ a' -> causal ex a' xs) as Hg; [|by apply Hg].
  induction Hall as [|x xs Hx Hall IH]; intros a' Ha; simpl; [done|].
  split; [destruct Hx; [by left|right; set_solver]|]. apply IH. set_solver.
Qed.

Lemma causal_elem ex a xs x : causal ex a xs -> x ∈ xs -> ex x \/ cert_parents x ⊆ digests xs ∪ a.
Proof.
  revert a. induction xs as [|y xs IH]; intros a; simpl; [by intros _ ?%elem_of_nil|].
  intros [Hy Hxs] [->|Hx]%elem_of_cons.
  - destruct Hy; [by left|right; set_solver].
  - destruct (IH _ Hxs Hx) as [?|?]; [by left|right]. unfold digests in *. simpl. set_solver.
Qed.
End causal.

(** ** The invariant *)

Section invariant.
Context `{!Crypto}.
Implicit Types m : PendingCertificateManager.

(** The index and the pending certificates agree, but for the children [rest]
    of the certificate [(r, q)] that is being processed. The parents of a
    pending certificate that is not exempt are available or missing. *)
Record pending_inv (ex : Certificate -> Prop) (avail : gset Z) m (r q : Z) (rest : list Z) : Prop := {
  pi_pending : forall d p, pending m !! d = Some p ->
    digest (certificate p) = d /\ missing_parent_digests p <> ∅ /\
    (ex (certificate p) \/ cert_parents (certificate p) ⊆ avail ∪ missing_parent_digests p) /\
    forall q', q' ∈ missing_parent_digests p ->
      q' = q /\ cert_round (certificate p) = r + 1 /\ d ∈ rest \/
      exists ds, missing_for_pending m !! (cert_round (certificate p) - 1, q') = Some ds /\ d ∈ ds;
  pi_missing : forall r' q' ds, missing_for_pending m !! (r', q') = Some ds -> ds <> ∅ /\
    forall d, d ∈ ds -> exists p, pending m !! d = Some p /\ q' ∈ missing_parent_digests p /\
      cert_round (certificate p) = r' + 1;
  pi_rest : forall d, d ∈ rest -> exists p, pending m !! d = Some p /\
    q ∈ missing_parent_digests p /\ cert_round (certificate p) = r + 1;
  pi_gone : rest <> [] -> missing_for_pending m !! (r, q) = None;
  pi_parents : forall d p, pending m !! d = Some p ->
    missing_parent_digests p ⊆ cert_parents (certificate p)
}.

Definition pending_ok (ex : Certificate -> Prop) (avail : gset Z) m : Prop :=
  pending_inv ex avail m 0 0 [].

Lemma pending_inv_nil ex avail m r q r' q' : pending_inv ex avail m r q [] -> pending_inv ex avail m r' q' [].
Proof.
  intros [Hp Hm Hr Hg Hs]. split; [|done|by intros d ?%elem_of_nil|done|done].
  intros d p Hd. destruct (Hp _ _ Hd) as (? & ? & ? & Hq). split_and!; try done.
  intros q2 Hq2. destruct (Hq _ Hq2) as [(_ & _ & ?%elem_of_nil)|?]; [done|by right].
Qed.

Lemma pending_ok_mono (ex ex' : Certificate -> Prop) a a' m :
  (forall x, ex x -> ex' x) -> a ⊆ a' -> pending_ok ex a m -> pending_ok ex' a' m.
Proof.
  intros He Ha [Hp Hm Hr Hg Hs]. split; try done. intros d p Hd. destruct (Hp _ _ Hd) as (? & ? & Hk & ?).
  split_and!; try done. destruct Hk as [?|Hk]; [left; auto|right]. etrans; [exact Hk|].
  by apply union_mono_r.
Qed.

Definition certs m : list Certificate := (fun p => certificate p.2) <$> map_to_list (pending m).

Lemma certs_delete m d p : pending m !! d = Some p ->
  certs m ≡ₚ certificate p :: certs (set_pending (delete d (pending m)) m).
Proof. intros Hd. unfold certs. simpl. by rewrite <- (map_to_list_delete _ _ _ Hd). Qed.

Lemma certs_insert m d p p' : pending m !! d = Some p -> certificate p' = certificate p ->
  certs (set_pending (<[d := p']> (pending m)) m) ≡ₚ certs m.
Proof.
  intros Hd Hc. rewrite (certs_delete _ _ _ Hd). unfold certs. simpl.
  rewrite <- insert_delete_eq, map_to_list_insert by apply lookup_delete_eq. rewrite fmap_cons. cbn [snd]. by rewrite Hc.
Qed.

Lemma elem_of_certs m x : x ∈ certs m <-> exists d p, pending m !! d = Some p /\ certificate p = x.
Proof.
  unfold certs. rewrite list_elem_of_fmap. split.
  - intros ([d p] & -> & Hin%elem_of_map_to_list). eauto.
  - intros (d & p & Hd & <-). exists (d, p). by rewrite elem_of_map_to_list.
Qed.

(** One child of the certificate being processed. *)
Lemma unlock_ready ex avail m r q d p rest : pending_inv ex avail m r q (d :: rest) -> d ∉ rest ->
  pending m !! d = Some p -> missing_parent_digests p ∖ {[q]} = ∅ ->
  pending_inv ex avail (set_pending (delete d (pending m)) m) r q rest.
Proof.
  intros [Hp Hm Hr Hg Hs] Hn Hd He. split; simpl.
  - intros d' p' [Hne Hd']%lookup_delete_Some. destruct (Hp _ _ Hd') as (? & ? & ? & Hq).
    split_and!; try done. intros q' Hq'. destruct (Hq _ Hq') as [(? & ? & Hin)|?]; [left|by right].
    apply elem_of_cons in Hin as [->|?]; done.
  - intros r' q' ds Hk. destruct (Hm _ _ _ Hk) as [Hne Hds]. split; [done|]. intros d' Hd'.
    destruct (Hds _ Hd') as (p' & Hp' & Hq' & Hr'). exists p'. split; [|done].
    apply lookup_delete_Some. split; [|done]. intros <-. rewrite Hd in Hp'. injection Hp' as <-.
    destruct (Hr d ltac:(left)) as (p2 & Hp2 & _ & Hr2). rewrite Hd in Hp2. injection Hp2 as <-.
    assert (q' = q) as -> by (by eapply difference_singleton_empty). assert (r' = r) as -> by lia. rewrite Hg in Hk; done.
  - intros d' Hd'. destruct (Hr d' ltac:(by right)) as (p' & Hp' & Hq' & Hr'). exists p'. split; [|done].
    apply lookup_delete_Some. split; [|done]. by intros ->.
  - intros _. by apply Hg.
  - intros d' p' [_ Hd']%lookup_delete_Some. by eapply Hs.
Qed.

Lemma unlock_waiting ex avail m r q d p rest : pending_inv ex avail m r q (d :: rest) -> d ∉ rest ->
  pending m !! d = Some p -> missing_parent_digests p ∖ {[q]} <> ∅ ->
  q ∈ avail \/ ex (certificate p) ->
  pending_inv ex avail (set_pending (<[d := {| certificate := certificate p;
    missing_parent_digests := missing_parent_digests p ∖ {[q]} |}]> (pending m)) m) r q rest.
Proof.
  intros [Hp Hm Hr Hg Hs] Hn Hd He Hk. split; simpl.
  - intros d' p' [[<- <-]|[Hne Hd']]%lookup_insert_Some; simpl.
    + destruct (Hp _ _ Hd) as (? & ? & Hpar & Hq). split_and!; try done.
      * destruct Hk; [|by left]. destruct Hpar as [?|Hpar]; [by left|right]. by apply parents_but.
      * intros q' [Hq' Hne]%elem_of_difference. destruct (Hq _ Hq') as [(-> & _)|?]; [by destruct Hne; apply elem_of_singleton|by right].
    + destruct (Hp _ _ Hd') as (? & ? & ? & Hq). split_and!; try done. intros q' Hq'.
      destruct (Hq _ Hq') as [(? & ? & Hin)|?]; [left|by right]. apply elem_of_cons in Hin as [->|?]; done.
  - intros r' q' ds Hk'. destruct (Hm _ _ _ Hk') as [Hne Hds]. split; [done|]. intros d' Hd'.
    destruct (Hds _ Hd') as (p' & Hp' & Hq' & Hr'). destruct (decide (d' = d)) as [->|Hne'].
    + rewrite Hd in Hp'. injection Hp' as <-. eexists. rewrite lookup_insert_eq. split; [done|]. simpl.
      split; [|done]. apply elem_of_difference. split; [done|]. intros ->%elem_of_singleton.
      destruct (Hr d ltac:(left)) as (p2 & Hp2 & _ & Hr2). rewrite Hd in Hp2. injection Hp2 as <-.
      assert (r' = r) as -> by lia. rewrite Hg in Hk'; done.
    + exists p'. by rewrite lookup_insert_ne.
  - intros d' Hd'. destruct (Hr d' ltac:(by right)) as (p' & Hp' & ?). exists p'.
    rewrite lookup_insert_ne; [done|]. by intros ->.
  - intros _. by apply Hg.
  - intros d' p' [[<- <-]|[Hne Hd']]%lookup_insert_Some; simpl; [|by eapply Hs].
    apply Hs in Hd. intros y [Hy _]%elem_of_difference. by apply Hd.
Qed.

(** All of them: the children that are ready leave, in the queue and in the
    result. *)
Lemma unlock_children_ok ex avail r q ds m queue ready :
  pending_inv ex avail m r q ds -> NoDup ds ->
  q ∈ avail \/ (forall x, cert_round x = r + 1 -> ex x) ->
  exists m' xs, unlock_children q ds queue ready m =
      (m', Ret (queue ++ ((fun x => (cert_round x, digest x)) <$> xs), ready ++ xs)) /\
    pending_ok ex avail m' /\ missing_for_pending m' = missing_for_pending m /\
    Forall (fun x => ex x \/ cert_parents x ⊆ avail) xs /\ certs m ≡ₚ xs ++ certs m'.
Proof.
  intros Hi Hnd Hq. revert m queue ready Hi. induction ds as [|d ds IH]; intros m queue ready Hi.
  { exists m, []. simpl. rewrite !app_nil_r. split_and!; try done. by eapply pending_inv_nil. }
  apply NoDup_cons in Hnd as [Hn Hnd]. destruct (pi_rest _ _ _ _ _ _ Hi d ltac:(left)) as (p & Hd & Hqp & Hr).
  destruct (pi_pending _ _ _ _ _ _ Hi _ _ Hd) as (Hdig & _ & Hk & _).
  assert (q ∈ avail \/ ex (certificate p)) as Hq' by (destruct Hq; [by left|right; auto]).
  simpl. rewrite Hd. case_bool_decide as He.
  - destruct (IH Hnd (set_pending (delete d (pending m)) m) (queue ++ [(cert_round (certificate p), d)])
      (ready ++ [certificate p])) as (m' & xs & Hrun & Hok & Hmf & Hall & Hperm);
      [by eapply unlock_ready|].
    exists m', (certificate p :: xs). rewrite Hrun, <- !app_assoc, fmap_cons, Hdig.
    split_and!; try done.
    + constructor; [|done]. destruct Hk as [?|Hk]; [by left|]. destruct Hq'; [right|by left].
      by eapply parents_all.
    + rewrite (certs_delete _ _ _ Hd). simpl. by rewrite Hperm.
  - destruct (IH Hnd (set_pending (<[d := {| certificate := certificate p;
      missing_parent_digests := missing_parent_digests p ∖ {[q]} |}]> (pending m)) m) queue ready)
      as (m' & xs & Hrun & Hok & Hmf & Hall & Hperm); [by eapply unlock_waiting|].
    exists m', xs. split_and!; try done. rewrite <- Hperm. symmetry. by apply (certs_insert m d p).
Qed.

End invariant.

Section operations.
Context `{!Crypto} {it : HashIter} {it_ok : HashIterOk}.
Implicit Types m : PendingCertificateManager.

Lemma elem_of_hash_iter s d : d ∈ hash_iter s <-> d ∈ s.
Proof. rewrite (hash_iter_perm s). apply elem_of_elements. Qed.

Lemma NoDup_hash_iter s : NoDup (hash_iter s).
Proof. rewrite (hash_iter_perm s). apply NoDup_elements. Qed.

Lemma length_certs m : length (certs m) = size (pending m).
Proof. unfold certs. rewrite length_fmap. apply length_map_to_list. Qed.

Lemma unlock_start ex avail m r q ds : pending_ok ex avail m -> missing_for_pending m !! (r, q) = Some ds ->
  pending_inv ex avail (set_missing (delete (r, q) (missing_for_pending m)) m) r q (hash_iter ds).
Proof.
  intros [Hp Hm _ _ Hs] Hk. destruct (Hm _ _ _ Hk) as [_ Hds]. split; simpl.
  - intros d p Hd. destruct (Hp _ _ Hd) as (? & ? & ? & Hq). split_and!; try done.
    intros q' Hq'. destruct (Hq _ Hq') as [(_ & _ & ?%elem_of_nil)|(ds' & Hk' & Hin)]; [done|].
    destruct (decide ((r, q) = (cert_round (certificate p) - 1, q'))) as [Heq|Hne].
    + injection Heq as Hr Hq2. subst q'. left. split; [done|]. split; [lia|]. apply elem_of_hash_iter.
      rewrite <- Hr, Hk in Hk'. by injection Hk' as ->.
    + right. exists ds'. by rewrite lookup_delete_ne.
  - intros r' q' ds' [_ Hk']%lookup_delete_Some. by apply Hm.
  - intros d Hd%elem_of_hash_iter. by apply Hds.
  - intros _. apply lookup_delete_eq.
  - done.
Qed.

(** What a run of the cascade does. *)
Record released (ex : Certificate -> Prop) (avail : gset Z) m m' (xs : list Certificate) : Prop := {
  rel_causal : causal ex avail xs;
  rel_ok : pending_ok ex (digests xs ∪ avail) m';
  rel_perm : certs m ≡ₚ xs ++ certs m';
  rel_index : forall k ds, missing_for_pending m' !! k = Some ds -> missing_for_pending m !! k = Some ds
}.

Lemma released_refl ex avail m : pending_ok ex avail m -> released ex avail m m [].
Proof. intros Hok. split; try done. eapply pending_ok_mono; [done| |exact Hok].
  apply union_subseteq_r. Qed.

Lemma update_loop_ok ex fuel queue avail ready m :
  pending_ok ex avail m -> (length queue + size (pending m) <= fuel)%nat ->
  (forall k, k ∈ queue -> k.2 ∈ avail \/ (forall x, cert_round x = k.1 + 1 -> ex x)) ->
  exists m' xs, update_loop fuel queue ready m = (m', Ret (ready ++ xs)) /\
    released ex avail m m' xs /\ forall k, k ∈ queue -> missing_for_pending m' !! k = None.
Proof.
  revert queue avail ready m. induction fuel as [|fuel IH]; intros [|[r q] queue] avail ready m Hok Hf Hq;
    simpl; try (exists m, []; rewrite app_nil_r; split_and!; [done|by apply released_refl|
      by intros ? ?%elem_of_nil]); [simpl in Hf; lia|]. simpl in Hf.
  destruct (missing_for_pending m !! (r, q)) as [ds|] eqn:Hk.
  - destruct (unlock_children_ok ex avail r q (hash_iter ds) _ queue ready (unlock_start _ _ _ _ _ _ Hok Hk)
      (NoDup_hash_iter ds) (Hq (r, q) ltac:(left))) as (m1 & xs & Hrun & Hok1 & Hmf & Hall & Hperm).
    change (certs (set_missing _ m)) with (certs m) in Hperm.
    destruct (IH (queue ++ ((fun x => (cert_round x, digest x)) <$> xs)) (digests xs ∪ avail) (ready ++ xs) m1)
      as (m2 & ys & Hrun2 & [Hc2 Hok2 Hp2 Hi2] & Hgone).
    + eapply pending_ok_mono; [done| |exact Hok1]. apply union_subseteq_r.
    + pose proof (Permutation_length Hperm) as Hlen.
      rewrite length_app, !length_certs in Hlen. rewrite length_app, length_fmap. lia.
    + intros k [Hk1|Hk1]%elem_of_app.
      * destruct (Hq k ltac:(by right)); [left; by apply elem_of_union_r|by right].
      * apply list_elem_of_fmap in Hk1 as (x & -> & Hx). left. simpl. apply elem_of_union_l, elem_of_digests.
        by exists x.
    + exists m2, (xs ++ ys). unfold mbind, st_bind. rewrite Hrun. simpl. rewrite Hrun2, app_assoc.
      split; [done|]. split.
      * split.
        -- apply causal_app; [by apply causal_Forall|done].
        -- rewrite digests_app. eapply pending_ok_mono; [done| |exact Hok2].
           by rewrite (union_comm_L (digests xs) (digests ys)), <- union_assoc_L.
        -- by rewrite Hperm, Hp2, app_assoc.
        -- intros k ds' Hk'. apply Hi2 in Hk'. rewrite Hmf in Hk'. simpl in Hk'.
           by apply lookup_delete_Some in Hk' as [_ ?].
      * intros k [->|Hk1]%elem_of_cons; [|apply Hgone; by apply elem_of_app; left].
        destruct (missing_for_pending m2 !! (r, q)) as [ds'|] eqn:Hk'; [|done].
        apply Hi2 in Hk'. rewrite Hmf in Hk'. simpl in Hk'. by rewrite lookup_delete_eq in Hk'.
  - destruct (IH queue avail ready m Hok ltac:(lia)) as (m' & xs & Hrun & Hrel & Hgone);
      [intros k ?; apply Hq; by right|]. exists m', xs. split_and!; try done.
    intros k [->|?]%elem_of_cons; [|by apply Hgone].
    destruct (missing_for_pending m' !! (r, q)) as [ds|] eqn:Hk'; [|done].
    apply (rel_index _ _ _ _ _ Hrel) in Hk'. congruence.
Qed.

(** [update_pending] returns the certificates that became ready, each once and
    after its parents. *)
Lemma update_pending_ok ex avail r q m : pending_ok ex avail m ->
  q ∈ avail \/ (forall x, cert_round x = r + 1 -> ex x) ->
  exists m' xs, update_pending r q m = (m', Ret xs) /\ released ex avail m m' xs /\
    missing_for_pending m' !! (r, q) = None.
Proof.
  intros Hok Hq. destruct (update_loop_ok ex (S (size (pending m))) [(r, q)] avail [] m Hok)
    as (m' & xs & Hrun & Hrel & Hgone); [simpl; lia| |].
  - intros k ->%list_elem_of_singleton. done.
  - exists m', xs. split_and!; try done. apply Hgone. by left.
Qed.

(** ** Insertion *)

Lemma wait_for_all d r ps x k : foldl (wait_for d r) x ps !! k =
  if decide (k.1 = r /\ k.2 ∈ ps) then Some ({[d]} ∪ default ∅ (x !! k)) else x !! k.
Proof.
  revert x. induction ps as [|p ps IH]; intros x; simpl.
  { rewrite decide_False; [done|]. set_solver. }
  rewrite IH. unfold wait_for. destruct k as [kr kp]. simpl.
  destruct (decide (kr = r /\ kp ∈ ps)) as [[-> Hin]|Hn].
  - rewrite decide_True by set_solver. destruct (decide (kp = p)) as [->|Hne].
    + rewrite lookup_insert_eq. simpl. f_equal. set_solver.
    + by rewrite lookup_insert_ne by congruence.
  - destruct (decide (kr = r /\ kp ∈ p :: ps)) as [[-> [->|?]%elem_of_cons]|Hn'].
    + by rewrite lookup_insert_eq.
    + tauto.
    + rewrite lookup_insert_ne; [done|]. intros [= -> ->]. apply Hn'. set_solver.
Qed.

Lemma insert_pending_ok ex avail m x missing : pending_ok ex avail m -> pending m !! digest x = None ->
  missing <> ∅ -> missing ⊆ cert_parents x -> 1 <= cert_round x ->
  ex x \/ cert_parents x ⊆ avail ∪ missing ->
  exists m', insert_pending x missing m = (m', Ret tt) /\ pending_ok ex avail m' /\
    certs m' ≡ₚ x :: certs m.
Proof.
  intros [Hp Hm _ _ Hs] Hn Hne Hsub Hr Hpar. unfold insert_pending. rewrite Hn. eexists. split; [done|].
  assert (sat_sub (cert_round x) 1 = cert_round x - 1) as -> by (unfold sat_sub; lia).
  split; [|unfold certs; simpl; by rewrite map_to_list_insert by done].
  split; [|  |by intros d ?%elem_of_nil|done|]; cbn [pending missing_for_pending set_missing set_pending].
  - intros d p [[<- <-]|[Hd Hk]]%lookup_insert_Some; simpl.
    + split_and!; try done. intros q Hq. right. rewrite wait_for_all, decide_True by
        (split; [done|by apply elem_of_hash_iter]). eexists. split; [done|]. set_solver.
    + destruct (Hp _ _ Hk) as (? & ? & ? & Hq). split_and!; try done. intros q Hq'. right.
      destruct (Hq _ Hq') as [(_ & _ & ?%elem_of_nil)|(ds & Hk' & Hin)]; [done|].
      rewrite wait_for_all, Hk'. case_decide; eexists; (split; [done|]); set_solver.
  - intros r q ds. rewrite wait_for_all. case_decide as Hd; simpl in Hd.
    + destruct Hd as [-> Hq%elem_of_hash_iter]. intros [= <-]. split; [set_solver|].
      intros d [->%elem_of_singleton|Hd]%elem_of_union.
      * eexists. rewrite lookup_insert_eq. split; [done|]. simpl. split; [done|lia].
      * destruct (missing_for_pending m !! (cert_round x - 1, q)) as [ds|] eqn:Hk; [|set_solver].
        destruct (Hm _ _ _ Hk) as [_ Hds]. destruct (Hds d Hd) as (p & Hpd & ?). exists p.
        rewrite lookup_insert_ne; [done|]. intros <-. congruence.
    + intros Hk. destruct (Hm _ _ _ Hk) as [? Hds]. split; [done|]. intros d Hin.
      destruct (Hds d Hin) as (p & Hpd & ?). exists p. rewrite lookup_insert_ne; [done|]. intros <-. congruence.
  - intros d p [[<- <-]|[_ Hd]]%lookup_insert_Some; [done|by eapply Hs].
Qed.

(** ** Garbage collection *)

(** Parents are of the previous round. *)
Definition parent_rounds (U : Certificate -> Prop) : Prop :=
  forall x y, U x -> U y -> digest y ∈ cert_parents x -> cert_round x = cert_round y + 1.

(** The first missing parent is never itself pending, since it would wait for
    an earlier one: collecting a round does not touch the certificates. *)
Lemma next_for_gc_round_ok ex avail gc m : pending_ok ex avail m -> parent_rounds (fun x => x ∈ certs m) ->
  match next_for_gc_round gc m with
  | (m', None) => m' = m /\ forall r q, is_Some (missing_for_pending m !! (r, q)) -> gc < r
  | (m', Some (r, q)) => m' = m /\ r <= gc /\ is_Some (missing_for_pending m !! (r, q))
  end.
Proof.
  intros Hok HU. unfold next_for_gc_round.
  destruct (pair_first (missing_for_pending m)) as [[[r q] ds]|] eqn:Hf.
  2: { apply pair_first_None in Hf. split; [done|]. intros r q. rewrite Hf, lookup_empty. by intros [? ?]. }
  apply pair_first_Some in Hf as [Hk Hmin]. destruct (Z.ltb_spec gc r) as [Hlt|Hle].
  { split; [done|]. intros r' q' Hs. apply Hmin in Hs. unfold pair_le in Hs. simpl in Hs. lia. }
  split_and!; [|done|by eexists]. destruct (pending m !! q) as [p|] eqn:Hq; [|done]. exfalso.
  destruct (pi_missing _ _ _ _ _ _ Hok _ _ _ Hk) as [Hne Hds].
  apply set_choose_L in Hne as [d Hd]. destruct (Hds d Hd) as (pc & Hpc & Hqc & Hrc).
  destruct (pi_pending _ _ _ _ _ _ Hok _ _ Hq) as (Hdig & Hmiss & _ & Hwait).
  apply set_choose_L in Hmiss as [q' Hq']. destruct (Hwait _ Hq') as [(_ & _ & ?%elem_of_nil)|(ds' & Hk' & _)]; [done|].
  assert (cert_round (certificate pc) = cert_round (certificate p) + 1) as Hrounds.
  { apply HU; [apply elem_of_certs; eauto|apply elem_of_certs; eauto|].
    rewrite Hdig. by apply (pi_parents _ _ _ _ _ _ Hok _ _ Hpc). }
  pose proof (Hmin _ (mk_is_Some _ _ Hk')) as Hle'. unfold pair_le in Hle'. simpl in Hle'. lia.
Qed.

End operations.
