(* ===== verification/CertManager.v ===== *)
(** * The certificate manager

    [crates/consensus/primary/src/state_sync]: the task that accepts verified
    certificates after their parents ([cert_manager.rs]), with garbage
    collection ([gc.rs]), and the validation of certificates on their way to it
    ([cert_validator.rs]). The manager owns its state and handles one command
    at a time; the consensus bus is what it has sent. *)
From S2P Require Import Prelude State Types Committee Certificates PairMap CertStore PendingCerts.
From stdpp Require Import strings.

#[local] Open Scope Z_scope.

(** The configuration of the epoch. *)
Record ManagerConfig := {
  mc_committee : Committee;
  mc_genesis : gmap Z Certificate;
  mc_gc_depth : Round;
  max_diff : Round
}.

Inductive CertificateFetcherCommand := Ancestors (x : Certificate) | Kick.

(** The manager with what it shares: the atomic rounds, the store, and the
    channels of the bus, as what was sent on them. [receivers] says whether the
    channels have receivers, [notices] when the shutdown is noticed. *)
Record CertificateManager := {
  cm_pending : PendingCertificateManager;
  cm_parents : CertificatesAggregatorManager;
  cm_gc_round : Round;
  highest_processed_round : Round;
  highest_received_round : Round;
  primary_round : Round;
  certs_accepted : Z;
  node_storage : CertTables;
  cert_store_round : Round;
  fetch_commands : list CertificateFetcherCommand;
  sent_parents : list (list Certificate * Round);
  new_certificates : list Certificate;
  receivers : bool;
  notices : option nat
}.

Definition with_pending (x : PendingCertificateManager) (s : CertificateManager) : CertificateManager :=
  {| cm_pending := x; cm_parents := cm_parents s; cm_gc_round := cm_gc_round s;
     highest_processed_round := highest_processed_round s;
     highest_received_round := highest_received_round s; primary_round := primary_round s;
     certs_accepted := certs_accepted s; node_storage := node_storage s;
     cert_store_round := cert_store_round s; fetch_commands := fetch_commands s;
     sent_parents := sent_parents s; new_certificates := new_certificates s;
     receivers := receivers s; notices := notices s |}.
Definition with_parents (x : CertificatesAggregatorManager) (s : CertificateManager) : CertificateManager :=
  {| cm_pending := cm_pending s; cm_parents := x; cm_gc_round := cm_gc_round s;
     highest_processed_round := highest_processed_round s;
     highest_received_round := highest_received_round s; primary_round := primary_round s;
     certs_accepted := certs_accepted s; node_storage := node_storage s;
     cert_store_round := cert_store_round s; fetch_commands := fetch_commands s;
     sent_parents := sent_parents s; new_certificates := new_certificates s;
     receivers := receivers s; notices := notices s |}.
Definition with_gc_round (x : Round) (s : CertificateManager) : CertificateManager :=
  {| cm_pending := cm_pending s; cm_parents := cm_parents s; cm_gc_round := x;
     highest_processed_round := highest_processed_round s;
     highest_received_round := highest_received_round s; primary_round := primary_round s;
     certs_accepted := certs_accepted s; node_storage := node_storage s;
     cert_store_round := cert_store_round s; fetch_commands := fetch_commands s;
     sent_parents := sent_parents s; new_certificates := new_certificates s;
     receivers := receivers s; notices := notices s |}.
Definition with_processed (x : Round) (s : CertificateManager) : CertificateManager :=
  {| cm_pending := cm_pending s; cm_parents := cm_parents s; cm_gc_round := cm_gc_round s;
     highest_processed_round := x; highest_received_round := highest_received_round s;
     primary_round := primary_round s; certs_accepted := certs_accepted s;
     node_storage := node_storage s; cert_store_round := cert_store_round s;
     fetch_commands := fetch_commands s; sent_parents := sent_parents s;
     new_certificates := new_certificates s; receivers := receivers s; notices := notices s |}.
Definition with_received (x : Round) (p : Round) (s : CertificateManager) : CertificateManager :=
  {| cm_pending := cm_pending s; cm_parents := cm_parents s; cm_gc_round := cm_gc_round s;
     highest_processed_round := highest_processed_round s; highest_received_round := x;
     primary_round := p; certs_accepted := certs_accepted s; node_storage := node_storage s;
     cert_store_round := cert_store_round s; fetch_commands := fetch_commands s;
     sent_parents := sent_parents s; new_certificates := new_certificates s;
     receivers := receivers s; notices := notices s |}.
Definition with_storage (t : CertTables) (accepted : Z) (store_round : Round) (s : CertificateManager) :
    CertificateManager :=
  {| cm_pending := cm_pending s; cm_parents := cm_parents s; cm_gc_round := cm_gc_round s;
     highest_processed_round := highest_processed_round s;
     highest_received_round := highest_received_round s; primary_round := primary_round s;
     certs_accepted := accepted; node_storage := t; cert_store_round := store_round;
     fetch_commands := fetch_commands s; sent_parents := sent_parents s;
     new_certificates := new_certificates s; receivers := receivers s; notices := notices s |}.
Definition with_sent (fetch : list CertificateFetcherCommand) (ps : list (list Certificate * Round))
    (xs : list Certificate) (s : CertificateManager) : CertificateManager :=
  {| cm_pending := cm_pending s; cm_parents := cm_parents s; cm_gc_round := cm_gc_round s;
     highest_processed_round := highest_processed_round s;
     highest_received_round := highest_received_round s; primary_round := primary_round s;
     certs_accepted := certs_accepted s; node_storage := node_storage s;
     cert_store_round := cert_store_round s; fetch_commands := fetch; sent_parents := ps;
     new_certificates := xs; receivers := receivers s; notices := notices s |}.
Definition with_notices (x : option nat) (s : CertificateManager) : CertificateManager :=
  {| cm_pending := cm_pending s; cm_parents := cm_parents s; cm_gc_round := cm_gc_round s;
     highest_processed_round := highest_processed_round s;
     highest_received_round := highest_received_round s; primary_round := primary_round s;
     certs_accepted := certs_accepted s; node_storage := node_storage s;
     cert_store_round := cert_store_round s; fetch_commands := fetch_commands s;
     sent_parents := sent_parents s; new_certificates := new_certificates s;
     receivers := receivers s; notices := x |}.

(** [CertificateManager::new] and [StateSynchronizer::new], on the store and the
    channels they find. *)
Definition CertificateManager_new (gc_depth gc_round highest_process_round current_round : Round)
    (t : CertTables) (store_round : Round) (open : bool) (shutdown : option nat) : CertificateManager :=
  {| cm_pending := PendingCertificateManager_new;
     cm_parents := {| aggregators := ∅; am_gc_depth := gc_depth |}; cm_gc_round := gc_round;
     highest_processed_round := highest_process_round; highest_received_round := current_round;
     primary_round := current_round; certs_accepted := 0; node_storage := t;
     cert_store_round := store_round; fetch_commands := []; sent_parents := []; new_certificates := [];
     receivers := open; notices := shutdown |}.

Section manager.
Context `{!Crypto} {it : HashIter} (config : ManagerConfig).
Implicit Types s : CertificateManager.

Abbreviation M := (ST CertificateManager CertManagerError).

(** A call into the pending certificates. *)
Definition on_pending {A} (f : ST PendingCertificateManager CertManagerError A) : M A := fun s =>
  let '(p, r) := f (cm_pending s) in (with_pending p s, r).

(** A computation that does not touch the state. *)
Definition lift {A} (r : Exec CertManagerError A) : M A := fun s => (s, r).

(** [shutdown_rx.noticed()]: once shutdown was notified it stays so; [notices]
    counts the readings before. *)
Definition noticed : M bool := fun s =>
  match notices s with
  | None => (s, Ret false)
  | Some O => (s, Ret true)
  | Some (S n) => (with_notices (Some n) s, Ret false)
  end.

(** A send on a channel, which fails when its receivers are gone. *)
Definition send_or (e : CertManagerError) (f : CertificateManager -> CertificateManager) : M unit := fun s =>
  if receivers s then (f s, Ret tt) else (s, Err e).

Definition genesis_error (d : CertificateDigest) : CertManagerError :=
  CmCertificate (CertificateHeader (InvalidGenesisParent d)).

Definition get_missing_parents (x : Certificate) : M (gset CertificateDigest) :=
  if cert_round x =? 1 then
    match List.find (fun d => negb (bool_decide (is_Some (mc_genesis config !! d))))
            (btree_set_list (cert_parents x)) with
    | Some d => throw (genesis_error d)
    | None => mret ∅
    end
  else
    t ← gets node_storage;
    let missing := filter (fun d => contains_certificate d t = false) (cert_parents x) in
    if bool_decide (missing = ∅) then mret ∅
    else
      _ ← send_or RAYLSSend (fun s =>
            with_sent (fetch_commands s ++ [Ancestors x]) (sent_parents s) (new_certificates s) s);
      mret missing.

(** [iter.map(|c| c.round()).max()] *)
Definition max_round (xs : list Certificate) : option Round :=
  match xs with
  | [] => None
  | x :: xs' => Some (foldl (fun r y => Z.max r (cert_round y)) (cert_round x) xs')
  end.

Definition persist_and_advance_high_water_mark (xs : list Certificate) : M unit := fun s =>
  match write_all xs (node_storage s) with
  | (t, Ret _) =>
      let accepted := sat_add u32_max (certs_accepted s) (Z.of_nat (length xs)) in
      let store_round :=
        if mc_gc_depth config <=? accepted
        then match max_round xs with
             | Some r => Z.max r (cert_store_round s)
             | None => cert_store_round s
             end
        else cert_store_round s in
      (with_storage t accepted store_round s, Ret tt)
  | (t, Err e) => (s, Err (CmStorage e))
  | (t, Panic) => (s, Panic)
  | (t, Diverge) => (s, Diverge)
  end.

Definition record_accepted_metrics (x : Certificate) : M unit :=
  modify (fun s => with_processed (Z.max (highest_processed_round s) (cert_round x)) s).

(** [CertificatesAggregatorManager::append_certificate], with its send. *)
Definition append_parents (e : CertManagerError) (x : Certificate) : M unit := fun s =>
  match append_certificate (E := Empty_set) (cm_parents s) x (mc_committee config) with
  | Ret (p, Some ps) =>
      send_or e (fun s =>
        with_sent (fetch_commands s) (sent_parents s ++ [ps]) (new_certificates s) s) (with_parents p s)
  | Ret (p, None) => (with_parents p s, Ret tt)
  | Err e => match e with end
  | Panic => (s, Panic)
  | Diverge => (s, Diverge)
  end.

(** The parents for the proposer first, then consensus. *)
Definition forward_to_dag (x : Certificate) : M unit :=
  _ ← append_parents FatalAppendParent x;
  send_or FatalForwardAcceptedCertificate (fun s =>
    with_sent (fetch_commands s) (sent_parents s) (new_certificates s ++ [x]) s).

Fixpoint forward_all (xs : list Certificate) : M unit :=
  match xs with
  | [] => mret tt
  | x :: xs' =>
      _ ← record_accepted_metrics x;
      b ← noticed;
      if b : bool then forward_all xs'
      else fun s =>
        match forward_to_dag x s with
        | (s1, Ret _) => forward_all xs' s1
        | (s1, Err e) =>
            match noticed s1 with
            | (s2, Ret true) => (s2, Ret tt)
            | (s2, _) => (s2, Err e)
            end
        | (s1, Panic) => (s1, Panic)
        | (s1, Diverge) => (s1, Diverge)
        end
  end.

Definition accept_verified_certificates (xs : list Certificate) : M unit :=
  _ ← persist_and_advance_high_water_mark xs; forward_all xs.

(** The loop of [process_verified_certificates]; [result] is the error for the
    caller so far. *)
Fixpoint process_verified_loop (xs : list Certificate) (result : option CertManagerError) : M unit :=
  match xs with
  | [] => match result with None => mret tt | Some e => throw e end
  | x :: xs' =>
      let d := digest x in
      if negb (is_verified x) then throw (UnverifiedSignature d)
      else
        pend ← gets (fun s => is_pending d (cm_pending s));
        if pend : bool then process_verified_loop xs' (Some (Pending d))
        else
          gc ← gets cm_gc_round;
          missing ← (next ← lift (uadd u32_max gc 1);
                     if next <? cert_round x then get_missing_parents x else mret ∅);
          if bool_decide (missing = ∅) then
            unlocked ← on_pending (update_pending (cert_round x) d);
            _ ← accept_verified_certificates (x :: unlocked);
            process_verified_loop xs' result
          else
            _ ← on_pending (insert_pending x missing);
            process_verified_loop xs' (Some (Pending d))
  end.

Definition round_le (x y : Certificate) : Prop := cert_round x <= cert_round y.
#[export] Instance round_le_dec : RelDecision round_le.
Proof. intros x y. unfold round_le. apply _. Defined.

Definition process_verified_certificates (xs : list Certificate) : M unit :=
  process_verified_loop (merge_sort round_le xs) None.

(** ** Garbage collection *)

(** The loop over the missing parents up to a round. *)
Fixpoint gc_loop (fuel : nat) (effective_gc : Round) (accept : list Certificate -> M unit) : M unit :=
  fun s =>
    match next_for_gc_round effective_gc (cm_pending s) with
    | (p, None) => (with_pending p s, Ret tt)
    | (p, Some (r, d)) =>
        match fuel with
        | O => (s, Diverge)
        | S fuel' =>
            (unlocked ← on_pending (update_pending r d);
             _ ← accept unlocked;
             gc_loop fuel' effective_gc accept) (with_pending p s)
        end
    end.

Definition gc_fuel s : nat := S (size (missing_for_pending (cm_pending s))).

(** [process_gc_round]; [committed] and [active_cvv] are read from the bus. *)
Definition process_gc_round (committed : Round) (active_cvv : bool) : M unit := fun s =>
  let gc_round := cm_gc_round s in
  let gc_stale := mc_gc_depth config <? sat_sub committed gc_round in
  let is_catching_up := negb active_cvv || gc_stale in
  let effective_gc := if is_catching_up then Z.max gc_round committed else gc_round in
  gc_loop (gc_fuel s) effective_gc accept_verified_certificates
    (with_parents (garbage_collect (cm_parents s) gc_round) s).

(** [GarbageCollector::process_next_round], with the round of the watch
    channel. *)
Definition process_next_round (new_round : Round) : M unit := modify (with_gc_round new_round).

Definition process_max_round_timeout : M unit :=
  send_or (CmGC GcSend) (fun s =>
    with_sent (fetch_commands s ++ [Kick]) (sent_parents s) (new_certificates s) s).

(** What ends the wait of the garbage collector. *)
Inductive GcEvent := MaxRoundTimeout | RoundUpdate (new_round : Round) | RoundsClosed.

Definition ready (e : GcEvent) : M unit :=
  match e with
  | MaxRoundTimeout => _ ← process_max_round_timeout; throw (CmGC Timeout)
  | RoundUpdate new_round => process_next_round new_round
  | RoundsClosed => throw (CmGC ConsensusRoundWatchChannel)
  end.

(** Forwarding without the shutdown checks, as [drain_pending] does. *)
Fixpoint drain_forward (xs : list Certificate) : M unit :=
  match xs with
  | [] => mret tt
  | x :: xs' => _ ← record_accepted_metrics x; _ ← forward_to_dag x; drain_forward xs'
  end.

Definition drain_accept (xs : list Certificate) : M unit :=
  match xs with
  | [] => mret tt
  | _ => _ ← persist_and_advance_high_water_mark xs; drain_forward xs
  end.

Definition drain_pending (committed : Round) : M unit := fun s =>
  gc_loop (gc_fuel s) (Z.max (cm_gc_round s) committed) drain_accept s.

(** ** Recovery *)

Fixpoint append_all (xs : list Certificate) : M unit :=
  match xs with
  | [] => mret tt
  | x :: xs' => _ ← append_parents RAYLSSend x; append_all xs'
  end.

Definition recover_state : M unit := fun s =>
  match last_two_rounds_certs (node_storage s) with
  | Ret stored =>
      append_all (match stored with [] => genesis (mc_committee config) | _ => stored end) s
  | Err _ => (s, Panic)
  | Panic => (s, Panic)
  | Diverge => (s, Diverge)
  end.

(** ** The task *)

(** What the [select!] of [run] reacts to; [committed] and [active_cvv] are the
    readings of the bus. *)
Inductive ManagerEvent :=
  | ProcessVerifiedCertificates (certificates : list Certificate)
  | FilterUnknownDigests (unknown : list CertificateDigest)
  | GcReady (e : GcEvent) (committed : Round) (active_cvv : bool).

(** One turn of the loop; an error ends the task. *)
Definition handle_event (ev : ManagerEvent) : M unit := fun s =>
  match ev with
  | ProcessVerifiedCertificates xs =>
      match process_verified_certificates xs s with
      | (s', Err FatalAppendParent) => (s', Err FatalAppendParent)
      | (s', Err FatalForwardAcceptedCertificate) => (s', Err FatalForwardAcceptedCertificate)
      | (s', Err _) => (s', Ret tt)
      | r => r
      end
  | FilterUnknownDigests _ => (s, Ret tt)
  | GcReady e committed active_cvv =>
      match ready e s with
      | (s', Ret _) => process_gc_round committed active_cvv s'
      | (s', Err (CmGC Timeout)) => (s', Ret tt)
      | r => r
      end
  end.

Fixpoint handle_events (evs : list ManagerEvent) : M unit :=
  match evs with
  | [] => mret tt
  | ev :: evs' => _ ← handle_event ev; handle_events evs'
  end.

(** The queue after the shutdown. *)
Fixpoint drain_commands (xss : list (list Certificate)) : M unit :=
  match xss with
  | [] => mret tt
  | xs :: xss' => fun s =>
      match process_verified_certificates xs s with
      | (s', Ret _) | (s', Err _) => drain_commands xss' s'
      | r => r
      end
  end.

Definition on_shutdown (committed : Round) (xss : list (list Certificate)) : M unit := fun s =>
  match drain_pending committed s with
  | (s', Ret _) | (s', Err _) => drain_commands xss s'
  | r => r
  end.

(** [run]: the events, then the shutdown with what is left in the queue; the
    replies are dropped, and a draining cut short by its timeout is not
    modelled. *)
Definition run (evs : list ManagerEvent) (committed : Round) (xss : list (list Certificate)) : M unit :=
  _ ← recover_state; _ ← handle_events evs;
  _ ← modify (with_notices (Some O)); on_shutdown committed xss.

(** ** Validation *)

(** [CertificateValidator::validate_and_verify] *)
Definition validate_for_gc (x : Certificate) : M Certificate := fun s =>
  if cert_round x <? cm_gc_round s
  then (s, Err (CmCertificate (CertificateTooOld (digest x) (cert_round x) (cm_gc_round s))))
  else (s, map_err CmCertificate (validate_and_verify x (mc_committee config))).

(** The acceptance window slides forward to the certificates. *)
Fixpoint slide_window (xs : list Certificate) : M unit :=
  match xs with
  | [] => mret tt
  | x :: xs' =>
      h ← gets highest_processed_round;
      limit ← lift (uadd u32_max h (max_diff config));
      _ ← modify (fun s =>
            if limit <? cert_round x
            then with_processed (Z.max h (sat_sub (cert_round x) (max_diff config))) s else s);
      slide_window xs'
  end.

(** [forward_verified_certs]; [committed_round] and [active_cvv] are read from
    the bus. A node that is not an active validator moves its round along. *)
Definition forward_verified_certs (committed_round : Round) (active_cvv : bool) (highest : Round)
    (xs : list Certificate) : M unit :=
  _ ← modify (fun s => with_received (Z.max (highest_received_round s) highest) (primary_round s) s);
  _ ← (if active_cvv then mret tt
       else
         h ← gets highest_received_round;
         _ ← modify (fun s => with_received h (Z.max (primary_round s) h) s);
         send_or RAYLSSend (fun s =>
           with_sent (fetch_commands s) (sent_parents s ++ [([], sat_sub h 1)]) (new_certificates s) s));
  _ ← modify (fun s => with_processed (Z.max (highest_processed_round s) committed_round) s);
  _ ← slide_window xs;
  process_verified_certificates xs.

(** [process_certificate] of the validator; [external] for a peer's. *)
Definition process_certificate (committed_round : Round) (active_cvv external : bool) (x : Certificate) :
    M unit :=
  _ ← st_ensure (cert_epoch x =? committee_epoch (mc_committee config))
        (CmCertificate (CertificateHeader (InvalidEpoch (cert_epoch x) (committee_epoch (mc_committee config)))));
  t ← gets node_storage;
  if contains_certificate (digest x) t then mret tt
  else
    y ← (if external then validate_for_gc x else mret x);
    forward_verified_certs committed_round active_cvv (cert_round y) [y].

Definition process_own_certificate (committed_round : Round) (active_cvv : bool) : Certificate -> M unit :=
  process_certificate committed_round active_cvv false.
Definition process_peer_certificate (committed_round : Round) (active_cvv : bool) : Certificate -> M unit :=
  process_certificate committed_round active_cvv true.

(** [verify_collection]: certificates below the collected round are dropped,
    another error fails the batch. *)
Fixpoint verify_collection (xs : list Certificate) : M (list Certificate) :=
  match xs with
  | [] => mret []
  | x :: xs' => fun s =>
      match validate_for_gc x s with
      | (s1, Ret y) => (ys ← verify_collection xs'; mret (y :: ys)) s1
      | (s1, Err (CmCertificate (CertificateTooOld _ _ _))) => verify_collection xs' s1
      | (s1, Err e) => (s1, Err e)
      | (s1, Panic) => (s1, Panic)
      | (s1, Diverge) => (s1, Diverge)
      end
  end.

Definition process_fetched_certificates_in_parallel (committed_round : Round) (active_cvv : bool)
    (xs : list Certificate) : M unit :=
  ys ← verify_collection xs;
  forward_verified_certs committed_round active_cvv (default 0 (max_round ys)) ys.

End manager.
