(* ===== verification/CertManagerProps.v ===== *)
(** * The certificate manager keeps the store causal

    Proofs about [CertManager]: a stored certificate has its parents in the
    store, unless they were collected; consensus receives certificates after
    their parents; the internal errors do not occur and every loop ends. *)
From S2P Require Import Prelude State Types Committee Certificates PairMap CertStore PendingCerts CertManager.
From stdpp Require Import strings.

#[local] Open Scope Z_scope.

(** ** Writes *)

Section writes.
Context `{!Crypto}.

Lemma save_all_dom xs t : dom (certificates (save_all xs t)) = digests xs ∪ dom (certificates t).
Proof.
  revert t. induction xs as [|x xs IH]; intros t; simpl; [unfold digests; set_solver|].
  rewrite IH. simpl. rewrite dom_insert_L. unfold digests. rewrite fmap_cons, list_to_set_cons. set_solver.
Qed.

Lemma save_all_lookup xs t d x : certificates (save_all xs t) !! d = Some x ->
  x ∈ xs \/ certificates t !! d = Some x.
Proof.
  revert t. induction xs as [|y xs IH]; intros t; simpl; [by right|].
  intros [Hx|Hx]%IH; [by left; right|]. simpl in Hx. apply lookup_insert_Some in Hx as [[_ <-]|[_ ?]];
    [left; left|by right].
Qed.

Lemma save_all_fatal xs t : store_fatal (save_all xs t) = store_fatal t.
Proof. revert t. induction xs as [|y xs IH]; intros t; simpl; [done|]. by rewrite IH. Qed.

Lemma digests_cons x xs : digests (x :: xs) = {[digest x]} ∪ digests xs.
Proof. unfold digests. by rewrite fmap_cons, list_to_set_cons. Qed.
End writes.

Definition stored (s : CertificateManager) : gset Z := dom (certificates (node_storage s)).
Definition store_up (s : CertificateManager) : Prop := store_fatal (node_storage s) = None.

(** Consensus runs: the channels are open and no shutdown is on its way. *)
Definition live (s : CertificateManager) : Prop := notices s = None /\ receivers s = true.

(** A digest the manager knows. *)
Definition held (d : CertificateDigest) (s : CertificateManager) : Prop :=
  d ∈ stored s \/ is_Some (pending (cm_pending s) !! d).

(** The errors of broken internal bookkeeping. *)
Definition internal_error (e : CertManagerError) : Prop :=
  match e with PendingCertificateNotFound _ | PendingParentsMismatch _ => True | _ => False end.

Definition orderly {A} (r : Exec CertManagerError A) : Prop :=
  match r with Diverge => False | Err e => ~ internal_error e | _ => True end.

(** The outcomes of acceptance. *)
Definition accept_outcome (r : Exec CertManagerError unit) : Prop :=
  match r with
  | Ret _ | Panic | Err FatalAppendParent | Err FatalForwardAcceptedCertificate | Err (CmStorage _) => True
  | _ => False
  end.

Lemma accept_outcome_orderly r : accept_outcome r -> orderly r.
Proof. by destruct r as [|[]| |]; simpl; auto. Qed.

Section props.
Context `{!Crypto} {it : HashIter} {it_ok : HashIterOk} (config : ManagerConfig).
(** The certificates in play, the highest collected round, and what consensus
    had recovered from the store. *)
Context (U : Certificate -> Prop) (top : Round) (base : gset Z).
Hypothesis U_rounds : parent_rounds U.
Hypothesis top_bound : top < u32_max.
Implicit Types s : CertificateManager.

Definition exempt (x : Certificate) : Prop := cert_round x <= top + 1.

Record inv s : Prop := {
  i_pending : exists avail, stored s ⊆ avail /\ (store_up s -> avail = stored s) /\
    pending_ok exempt avail (cm_pending s);
  i_U : Forall U (certs (cm_pending s));
  i_gc : 0 <= cm_gc_round s <= top;
  i_closed : forall d x, certificates (node_storage s) !! d = Some x ->
    exempt x \/ cert_parents x ⊆ stored s;
  i_sent : digests (new_certificates s) ⊆ stored s;
  i_causal : live s -> causal exempt base (new_certificates s)
}.

(** Consensus has what is stored. *)
Definition cov s : Prop := live s -> stored s ⊆ digests (new_certificates s) ∪ base.

Record grows s s' : Prop := {
  g_fatal : store_fatal (node_storage s') = store_fatal (node_storage s);
  g_receivers : receivers s' = receivers s;
  g_notices : notices s' = None -> notices s = None;
  g_stored : stored s ⊆ stored s';
  g_held : store_up s -> forall d, held d s -> held d s'
}.

#[export] Instance grows_preorder : PreOrder grows.
Proof.
  split.
  - intros s. by split.
  - intros s1 s2 s3 [Hf Hr Hn Hs Hh] [Hf' Hr' Hn' Hs' Hh']. split; [congruence|congruence|auto|set_solver|].
    intros Hu d Hd. apply Hh'; [unfold store_up in *; congruence|auto].
Qed.

(** A run keeps the invariant whatever its outcome. *)
Definition runs {A} (m : ST CertificateManager CertManagerError A) s
    (Q : Exec CertManagerError A -> CertificateManager -> Prop) : Prop :=
  let '(s', r) := m s in
  inv s' /\ grows s s' /\ orderly r /\ (r = Panic \/ cov s') /\ Q r s'.

Lemma runs_bind {A B} (m : ST CertificateManager CertManagerError A) (f : A -> _ B) s P Q :
  runs m s P ->
  (forall s' r, P r s' -> r <> Diverge -> match r with
     | Ret a => inv s' -> cov s' -> grows s s' -> runs (f a) s' Q
     | Err e => Q (Err e) s' | Panic => Q Panic s' | Diverge => True end) ->
  runs (m ≫= f) s Q.
Proof.
  unfold runs, mbind, st_bind. destruct (m s) as [s1 r]. intros (Hi & Hg & Ho & Hc & HP) Hk.
  specialize (Hk s1 r HP). destruct r as [a|e| |]; simpl.
  - destruct Hc as [?|Hc]; [done|]. specialize (Hk ltac:(done) Hi Hc Hg).
    destruct (f a s1) as [s2 r2]. destruct Hk as (? & ? & ? & ? & ?). split_and!; try done. by etrans.
  - split_and!; try done; [by destruct Hc; [|right]|by apply Hk].
  - split_and!; try done; [by left|by apply Hk].
  - done.
Qed.

Lemma runs_ret {A} (a : A) s (Q : _ -> _ -> Prop) : inv s -> cov s -> Q (Ret a) s -> runs (mret a) s Q.
Proof. intros. unfold runs. simpl. split_and!; try done. by right. Qed.

Lemma runs_throw {A} e s (Q : Exec _ A -> _ -> Prop) : inv s -> cov s -> ~ internal_error e ->
  Q (Err e) s -> runs (throw e) s Q.
Proof. intros. unfold runs. simpl. split_and!; try done. by right. Qed.

Lemma runs_mono {A} (m : ST CertificateManager CertManagerError A) s (P Q : _ -> _ -> Prop) :
  runs m s P -> (forall r s', P r s' -> Q r s') -> runs m s Q.
Proof. unfold runs. destruct (m s). naive_solver. Qed.

(** ** Acceptance *)

(** While certificates are forwarded, consensus lacks those that are left. *)
Definition forwarding (xs : list Certificate) s : Prop :=
  digests xs ⊆ stored s /\
  (live s -> causal exempt (digests (new_certificates s) ∪ base) xs /\
     stored s ⊆ digests xs ∪ (digests (new_certificates s) ∪ base)).

Lemma append_certificate_outcome (p : CertificatesAggregatorManager) x :
  append_certificate (E := Empty_set) p x (mc_committee config) <> Diverge.
Proof.
  unfold append_certificate, ca_append, uadd. case_bool_decide; [done|].
  simpl. destruct (_ <=? u64_max); [|done]. simpl. by destruct (_ <=? _).
Qed.

Lemma append_parents_same e x s : let '(s', r) := append_parents config e x s in
  cm_pending s' = cm_pending s /\ cm_gc_round s' = cm_gc_round s /\ node_storage s' = node_storage s /\
  new_certificates s' = new_certificates s /\ receivers s' = receivers s /\ notices s' = notices s /\
  match r with Err e' => e' = e /\ receivers s = false | Diverge => False | _ => True end.
Proof.
  unfold append_parents. pose proof (append_certificate_outcome (cm_parents s) x) as Hd.
  destruct (append_certificate (E := Empty_set) (cm_parents s) x (mc_committee config)) as [[p [ps|]]|[]| |];
    try done.
  unfold send_or. simpl. destruct (receivers s) eqn:Hr; simpl; by rewrite ?Hr.
Qed.

(** Nothing but the forwarded certificates depends on the other fields. *)
Definition same s s' : Prop :=
  cm_pending s' = cm_pending s /\ cm_gc_round s' = cm_gc_round s /\ node_storage s' = node_storage s /\
  receivers s' = receivers s /\ (notices s' = None -> notices s = None).

Lemma same_grows s s' : same s s' -> grows s s'.
Proof.
  intros (Hp & Hg & Hs & Hr & Hn). split; try done; unfold stored, held, store_up, stored; rewrite ?Hs, ?Hp; done.
Qed.

Lemma same_inv s s' : same s s' -> new_certificates s' = new_certificates s -> inv s -> inv s'.
Proof.
  intros (Hp & Hg & Hs & Hr & Hn) Hnew [H1 H2 H3 H4 H5 H6].
  split; unfold stored, store_up, live in *; rewrite ?Hp, ?Hg, ?Hs, ?Hr, ?Hnew; try done.
  intros [? ?]. apply H6. auto.
Qed.

Lemma same_forwarding xs s s' : same s s' -> new_certificates s' = new_certificates s ->
  forwarding xs s -> forwarding xs s'.
Proof.
  intros (Hp & Hg & Hs & Hr & Hn) Hnew [H1 H2]. unfold forwarding, stored, live in *.
  rewrite ?Hs, ?Hr, ?Hnew. split; [done|]. intros [? ?]. apply H2. auto.
Qed.

Lemma union_move (a b c d : gset Z) x :
  a ⊆ ({[x]} ∪ b) ∪ (c ∪ d) -> a ⊆ b ∪ ((c ∪ {[x]}) ∪ d).
Proof. set_solver. Qed.

(** One certificate is sent. *)
Lemma sent_inv x xs s s' : same s s' -> new_certificates s' = new_certificates s ++ [x] ->
  inv s -> forwarding (x :: xs) s -> inv s' /\ forwarding xs s'.
Proof.
  intros (Hp & Hg & Hs & Hr & Hn) Hnew [H1 H2 H3 H4 H5 H6] [F1 F2].
  rewrite digests_cons in F1.
  assert (digests (new_certificates s') = digests (new_certificates s) ∪ {[digest x]}) as Hd.
  { rewrite Hnew, digests_app. f_equal. unfold digests. simpl. set_solver. }
  split; [split|split]; unfold stored, store_up, live in *; rewrite ?Hp, ?Hg, ?Hs, ?Hr, ?Hd; try done.
  - set_solver.
  - intros [Hl1 Hl2]. rewrite Hnew. destruct F2 as [[F2 _] _]; [auto|]. apply causal_app; [apply H6; auto|].
    by split.
  - set_solver.
  - intros [Hl1 Hl2]. destruct F2 as [[_ F2] F3]; [auto|]. rewrite digests_cons in F3. split.
    + eapply causal_mono; [done| |exact F2]. set_solver.
    + by apply union_move.
Qed.

Lemma forwarding_cov s : forwarding [] s -> cov s.
Proof. intros [_ HF] Hl. destruct (HF Hl) as [_ Hs]. unfold digests in *. simpl in Hs. set_solver. Qed.

Lemma not_live_cov s : ~ live s -> cov s.
Proof. intros Hn Hl. done. Qed.

#[export] Instance same_preorder : PreOrder same.
Proof.
  split.
  - intros s. unfold same. auto.
  - intros s1 s2 s3 (?&?&?&?&?) (?&?&?&?&?). unfold same. split_and!; try congruence. auto.
Qed.

Lemma forward_to_dag_ok x xs s : inv s -> forwarding (x :: xs) s ->
  let '(s', r) := forward_to_dag config x s in inv s' /\ same s s' /\
  match r with
  | Ret _ => forwarding xs s'
  | Err e => accept_outcome (Err e) /\ receivers s' = false
  | Panic => True
  | Diverge => False
  end.
Proof.
  intros Hi Hf. unfold forward_to_dag, mbind, st_bind.
  pose proof (append_parents_same FatalAppendParent x s) as Ha.
  destruct (append_parents config FatalAppendParent x s) as [s1 r1].
  destruct Ha as (Hp & Hg & Hs & Hn & Hr & Hno & Hout).
  assert (same s s1) as Hsame by (unfold same; rewrite Hno; auto).
  assert (inv s1) as Hi1 by (by eapply same_inv).
  destruct r1 as [[]|e| |]; [| |done|done].
  2: { destruct Hout as [-> Hrf]. split; [done|]. split; [done|]. split; [done|congruence]. }
  unfold send_or. destruct (receivers s1) eqn:Hr1.
  2: { split; [done|]. split; [done|]. split; [done|done]. }
  assert (forwarding (x :: xs) s1) as Hf1 by (by eapply same_forwarding).
  set (s2 := with_sent _ _ _ s1). assert (same s1 s2) as Hs2 by (unfold same; auto).
  destruct (sent_inv x xs s1 s2) as [Hi2 Hf2]; [done|done|done|done|].
  split_and!; [done|by etrans|done].
Qed.

Lemma noticed_same s : let '(s', r) := noticed s in same s s' /\ new_certificates s' = new_certificates s /\
  exists b, r = Ret b /\ (b = true -> ~ live s').
Proof.
  unfold noticed. destruct (notices s) as [[|n]|] eqn:Hn.
  - split; [reflexivity|]. split; [done|]. exists true. split; [done|]. intros _ [? _]. congruence.
  - split; [unfold same; simpl; split_and!; done|]. split; [done|]. by exists false.
  - split; [reflexivity|]. split; [done|]. by exists false.
Qed.

Lemma metrics_same x s : let s' := with_processed (Z.max (highest_processed_round s) (cert_round x)) s in
  same s s' /\ new_certificates s' = new_certificates s.
Proof. unfold same. simpl. by split_and!. Qed.

(** What forwarding leaves: the invariant, and nothing stored that consensus
    lacks while it runs. *)
Definition forwarded s s' (r : Exec CertManagerError unit) : Prop :=
  inv s' /\ same s s' /\ accept_outcome r /\ (r = Panic \/ cov s').

Lemma skipped_forwarding x xs s : ~ live s -> forwarding (x :: xs) s -> forwarding xs s.
Proof. intros Hn [Hd _]. split; [rewrite digests_cons in Hd; set_solver|done]. Qed.

Lemma forward_all_ok xs s : inv s -> forwarding xs s ->
  let '(s', r) := forward_all config xs s in forwarded s s' r.
Proof.
  revert s. induction xs as [|x xs IH]; intros s Hi Hf; cbn [forward_all].
  { simpl. unfold forwarded. split_and!; [done|reflexivity|done|right; by apply forwarding_cov]. }
  unfold record_accepted_metrics, modify, mbind, st_bind.
  set (s1 := with_processed _ s). destruct (metrics_same x s) as [Hsame Hnew]. fold s1 in Hsame, Hnew.
  assert (inv s1) as Hi1 by (by eapply same_inv).
  assert (forwarding (x :: xs) s1) as Hf1 by (by eapply same_forwarding).
  pose proof (noticed_same s1) as Hn. destruct (noticed s1) as [s2 rb]. destruct Hn as (Hs2 & Hn2 & b & -> & Hb).
  assert (inv s2) as Hi2 by (by eapply same_inv).
  assert (forwarding (x :: xs) s2) as Hf2 by (by eapply same_forwarding).
  assert (same s s2) as Hs02 by (by etrans).
  destruct b.
  { specialize (IH s2 Hi2 (skipped_forwarding _ _ _ (Hb eq_refl) Hf2)).
    destruct (forward_all config xs s2) as [s' r]. destruct IH as (? & ? & ? & ?).
    unfold forwarded. split_and!; try done. by etrans. }
  pose proof (forward_to_dag_ok x xs s2 Hi2 Hf2) as Hw.
  destruct (forward_to_dag config x s2) as [s3 r3]. destruct Hw as (Hi3 & Hs3 & Hr3).
  assert (same s s3) as Hs03 by (by etrans).
  destruct r3 as [[]|e| |]; [|..|done].
  - specialize (IH s3 Hi3 Hr3). destruct (forward_all config xs s3) as [s' r]. destruct IH as (? & ? & ? & ?).
    unfold forwarded. split_and!; try done. by etrans.
  - destruct Hr3 as [He Hrec]. pose proof (noticed_same s3) as Hn. destruct (noticed s3) as [s4 rb].
    destruct Hn as (Hs4 & Hn4 & b & -> & Hb4).
    assert (forwarded s s4 (Err e : Exec _ unit)) as (H1 & H2 & H3 & H4).
    { unfold forwarded. split_and!; [by eapply same_inv|by etrans|done|right].
      apply not_live_cov. intros [_ Hl]. destruct Hs4 as (_ & _ & _ & Hr4 & _). congruence. }
    destruct b; unfold forwarded; split_and!; try done. by destruct H4; [|right].
  - unfold forwarded. split_and!; try done. by left.
Qed.

Lemma drain_forward_ok xs s : inv s -> forwarding xs s ->
  let '(s', r) := drain_forward config xs s in forwarded s s' r.
Proof.
  revert s. induction xs as [|x xs IH]; intros s Hi Hf; cbn [drain_forward].
  { simpl. unfold forwarded. split_and!; [done|reflexivity|done|right; by apply forwarding_cov]. }
  unfold record_accepted_metrics, modify, mbind, st_bind.
  set (s1 := with_processed _ s). destruct (metrics_same x s) as [Hsame Hnew]. fold s1 in Hsame, Hnew.
  pose proof (forward_to_dag_ok x xs s1 (same_inv _ _ Hsame Hnew Hi) (same_forwarding _ _ _ Hsame Hnew Hf)) as Hw.
  destruct (forward_to_dag config x s1) as [s2 r2]. destruct Hw as (Hi2 & Hs2 & Hr2).
  assert (same s s2) as Hs02 by (by etrans).
  destruct r2 as [[]|e| |]; [|..|done].
  - specialize (IH s2 Hi2 Hr2). destruct (drain_forward config xs s2) as [s' r]. destruct IH as (? & ? & ? & ?).
    unfold forwarded. split_and!; try done. by etrans.
  - destruct Hr2 as [? Hrec]. unfold forwarded. split_and!; try done. right.
    apply not_live_cov. intros [_ ?]. congruence.
  - unfold forwarded. split_and!; try done. by left.
Qed.

(** Certificates that left the pending ones, about to be accepted. *)
Record releasing s (p : PendingCertificateManager) (ys : list Certificate) : Prop := {
  re_inv : inv s;
  re_cov : cov s;
  re_avail : exists avail, stored s ⊆ avail /\ (store_up s -> avail = stored s) /\
    causal exempt avail ys /\ pending_ok exempt (digests ys ∪ avail) p;
  re_U : Forall U (certs p);
  re_held : forall d, is_Some (pending (cm_pending s) !! d) -> is_Some (pending p !! d) \/ d ∈ digests ys
}.

(** There are none, or the store refused them. *)
Lemma refused_inv s p ys : releasing s p ys -> ys = [] \/ ~ store_up s ->
  inv (with_pending p s) /\ grows s (with_pending p s) /\ cov (with_pending p s).
Proof.
  intros [[H1 H2 H3 H4 H5 H6] Hc (avail & Hsub & Hav & Hca & Hok) HU Hh] Hys.
  assert (forall d, d ∈ digests ys -> ~ store_up s) as Hno.
  { destruct Hys as [->|]; [|done]. intros d Hd. unfold digests in Hd. simpl in Hd. set_solver. }
  split_and!; [|split; try done|done].
  - split; try done. destruct Hys as [->|Hdown].
    + exists avail. split_and!; [done|done|]. eapply pending_ok_mono; [done| |exact Hok].
      unfold digests. simpl. set_solver.
    + exists (digests ys ∪ avail). split_and!; [|done|done]. etrans; [exact Hsub|apply union_subseteq_r].
  - intros Hup d [Hd|Hd]; [by left|]. destruct (Hh d Hd) as [|Hin]; [by right|]. by destruct (Hno d Hin).
Qed.

Lemma persist_ok s p ys : releasing s p ys ->
  let '(s', r) := persist_and_advance_high_water_mark config ys (with_pending p s) in
  inv s' /\ grows s s' /\ cm_pending s' = p /\
  match r with
  | Ret _ => forwarding ys s'
  | Err e => accept_outcome (Err e) /\ cov s'
  | _ => False
  end.
Proof.
  intros Hre. unfold persist_and_advance_high_water_mark, write_all, with_write_txn. simpl.
  destruct (store_fatal (node_storage s)) as [e|] eqn:Hf.
  { destruct (refused_inv s p ys Hre) as (? & ? & ?); [right; unfold store_up; congruence|].
    by split_and!. }
  destruct Hre as [[H1 H2 H3 H4 H5 H6] Hc (avail & Hsub & Hav & Hca & Hok) HU Hh].
  specialize (Hav Hf). subst avail. set (s1 := with_storage _ _ _ _).
  assert (stored s1 = digests ys ∪ stored s) as Hst by apply save_all_dom.
  split_and!; [| |done|].
  - split; rewrite ?Hst; try done.
    + by exists (digests ys ∪ stored s).
    + intros d x [Hx|Hx]%save_all_lookup; [by apply (causal_elem _ _ _ x Hca)|].
      destruct (H4 _ _ Hx); [by left|right; set_solver].
    + simpl. set_solver.
  - split; [|done|done|rewrite Hst; apply union_subseteq_r|]; simpl; [by rewrite save_all_fatal|].
    intros _ d [Hd|Hd]; [left; rewrite Hst; by apply elem_of_union_r|].
    destruct (Hh d Hd) as [|Hin]; [by right|left]. rewrite Hst. by apply elem_of_union_l.
  - split; [rewrite Hst; apply union_subseteq_l|]. intros Hl. rewrite Hst. simpl.
    split; [eapply causal_mono; [done| |exact Hca]; by apply Hc|]. by apply union_mono_l, Hc.
Qed.

(** What acceptance does, for both ways to forward. *)
Definition accepts (accept : list Certificate -> ST CertificateManager CertManagerError unit) : Prop :=
  forall s p ys, releasing s p ys ->
  let '(s', r) := accept ys (with_pending p s) in
  inv s' /\ grows s s' /\ accept_outcome r /\ (r = Panic \/ cov s') /\ cm_pending s' = p /\
  (r = Ret tt -> digests ys ⊆ stored s').

Lemma accepts_with (fwd : list Certificate -> ST CertificateManager CertManagerError unit) :
  (forall xs s, inv s -> forwarding xs s -> let '(s', r) := fwd xs s in forwarded s s' r) ->
  accepts (fun ys => _ ← persist_and_advance_high_water_mark config ys; fwd ys).
Proof.
  intros Hfwd s p ys Hre. unfold mbind, st_bind. pose proof (persist_ok s p ys Hre) as Hp.
  destruct (persist_and_advance_high_water_mark config ys (with_pending p s)) as [s1 [[]|e| |]];
    destruct Hp as (Hi & Hg & Hpe & Hr); try done.
  - specialize (Hfwd ys s1 Hi Hr). destruct (fwd ys s1) as [s2 r2]. destruct Hfwd as (Hi2 & Hs2 & Ho & Hc).
    split_and!; try done; [etrans; [exact Hg|by apply same_grows]|destruct Hs2 as [-> _]; done|].
    intros _. destruct Hr as [Hd _]. etrans; [exact Hd|]. apply (g_stored _ _ (same_grows _ _ Hs2)).
  - destruct Hr as [? ?]. split_and!; try done. by right.
Qed.

Lemma accept_accepts : accepts (accept_verified_certificates config).
Proof. apply accepts_with, forward_all_ok. Qed.

Lemma drain_accepts : accepts (drain_accept config).
Proof.
  intros s p [|y ys] Hre; [|by apply (accepts_with (drain_forward config) drain_forward_ok)].
  destruct (refused_inv s p [] Hre ltac:(by left)) as (? & ? & ?). simpl. split_and!; try done. by right.
Qed.

(** ** Release *)

Lemma released_held ex a m m' xs d : pending_ok ex a m -> released ex a m m' xs ->
  is_Some (pending m !! d) -> is_Some (pending m' !! d) \/ d ∈ digests xs.
Proof.
  intros Hok [Hc Hok' Hp Hi] [p Hd]. destruct (pi_pending _ _ _ _ _ _ Hok _ _ Hd) as (Hdig & _).
  assert (certificate p ∈ certs m) as Hin by (apply elem_of_certs; eauto).
  rewrite Hp in Hin. apply elem_of_app in Hin as [Hx|(d' & p' & Hd' & Hc')%elem_of_certs].
  - right. apply elem_of_digests. eauto.
  - left. destruct (pi_pending _ _ _ _ _ _ Hok' _ _ Hd') as (Hdig' & _). exists p'. congruence.
Qed.

Lemma released_U ex a m m' xs : Forall U (certs m) -> released ex a m m' xs -> Forall U (certs m').
Proof. intros HU [_ _ Hp _]. rewrite Hp in HU. by apply Forall_app in HU as [_ ?]. Qed.

Lemma with_pending_same s : with_pending (cm_pending s) s = s.
Proof. by destruct s. Qed.

Lemma runs_accept {B} accept s p ys (f : unit -> ST CertificateManager CertManagerError B) Q :
  accepts accept -> releasing s p ys ->
  (forall s', inv s' -> cov s' -> grows s s' -> cm_pending s' = p -> digests ys ⊆ stored s' -> runs (f tt) s' Q) ->
  (forall s' r, accept_outcome r -> r <> Ret tt -> Q (match r with Ret _ => Panic | Err e => Err e | Panic => Panic | Diverge => Diverge end) s') ->
  let '(s', r) := (accept ys ≫= f) (with_pending p s) in
  inv s' /\ grows s s' /\ orderly r /\ (r = Panic \/ cov s') /\ Q r s'.
Proof.
  intros Hacc Hre Hk He. specialize (Hacc s p ys Hre). unfold mbind, st_bind.
  destruct (accept ys (with_pending p s)) as [s1 r1]. destruct Hacc as (Hi & Hg & Ho & Hc & Hp & Hd).
  destruct r1 as [[]|e| |]; [| | |done].
  - destruct Hc as [?|Hc]; [done|]. specialize (Hk s1 Hi Hc Hg Hp (Hd eq_refl)). unfold runs in Hk.
    destruct (f tt s1) as [s2 r2]. destruct Hk as (? & ? & ? & ? & ?). split_and!; try done. by etrans.
  - split_and!; try done; [by apply (accept_outcome_orderly (Err e))|by destruct Hc; [|right]|].
    by apply (He s1 (Err e)).
  - split_and!; try done; [by left|]. by apply (He s1 Panic).
Qed.

Lemma next_round_ok effective s : inv s ->
  match next_for_gc_round effective (cm_pending s) with
  | (p, None) => p = cm_pending s
  | (p, Some (r, q)) => p = cm_pending s /\ r <= effective /\ is_Some (missing_for_pending (cm_pending s) !! (r, q))
  end.
Proof.
  intros Hi. destruct (i_pending _ Hi) as (avail & _ & _ & Hok).
  assert (parent_rounds (fun x => x ∈ certs (cm_pending s))) as HU.
  { pose proof (i_U _ Hi) as Hall. rewrite Forall_forall in Hall. intros x y Hx Hy. apply U_rounds; auto. }
  pose proof (next_for_gc_round_ok _ _ effective _ Hok HU) as Hn.
  destruct (next_for_gc_round effective (cm_pending s)) as [p [[r q]|]]; [done|by destruct Hn].
Qed.

Lemma gc_loop_ok fuel effective accept s : accepts accept -> inv s -> cov s -> effective <= top ->
  (size (missing_for_pending (cm_pending s)) <= fuel)%nat ->
  runs (gc_loop fuel effective accept) s (fun _ _ => True).
Proof.
  intros Hacc. revert s. induction fuel as [|fuel IH]; intros s Hi Hc He Hsz; unfold runs; cbn [gc_loop];
    pose proof (next_round_ok effective s Hi) as Hnext;
    (destruct (next_for_gc_round effective (cm_pending s)) as [p [[r q]|]];
     [destruct Hnext as (-> & Hr & [ds Hds])|
      rewrite Hnext, with_pending_same; split_and!; [done|reflexivity|done|by right|done]]).
  - exfalso. assert (missing_for_pending (cm_pending s) = ∅) as Hemp by (apply map_size_empty_iff; lia).
    by rewrite Hemp, lookup_empty in Hds.
  - destruct (i_pending _ Hi) as (avail & Hsub & Hav & Hok).
    destruct (update_pending_ok _ _ r q _ Hok) as (p & xs & Hrun & Hrel & Hgone);
      [right; intros x Hx; unfold exempt; lia|].
    assert (releasing s p xs) as Hre.
    { split; [done|done| | |].
      - exists avail. by destruct Hrel.
      - eapply released_U; [by apply i_U|done].
      - intros d. by eapply released_held. }
    rewrite with_pending_same. unfold mbind at 1, st_bind at 1. unfold on_pending at 1. rewrite Hrun.
    apply (runs_accept accept s p xs (fun _ => gc_loop fuel effective accept)); try done.
    intros s' Hi' Hc' Hg' Hp' _. apply IH; try done. rewrite Hp'.
    assert (missing_for_pending p ⊆ delete (r, q) (missing_for_pending (cm_pending s))) as Hsubm.
    { apply map_subseteq_spec. intros k ds' Hk. apply lookup_delete_Some.
      split; [intros <-; congruence|by apply (rel_index _ _ _ _ _ Hrel)]. }
    apply map_subseteq_size in Hsubm. rewrite map_size_delete, Hds in Hsubm. lia.
Qed.

Lemma get_missing_parents_ok x s : inv s -> cov s -> 1 <= cert_round x ->
  runs (get_missing_parents config x) s (fun r s' => cm_pending s' = cm_pending s /\
    match r with
    | Ret missing => missing ⊆ cert_parents x /\ (exempt x \/ cert_parents x ⊆ stored s' ∪ missing)
    | Err (Pending _) => False
    | _ => True
    end).
Proof.
  intros Hi Hc Hx. unfold get_missing_parents. pose proof (i_gc _ Hi) as Hgc.
  destruct (Z.eqb_spec (cert_round x) 1) as [H1|H1].
  { destruct (List.find _ _); [apply runs_throw; [done|done|by intros []|done]|]. apply runs_ret; [done|done|].
    split; [done|]. split; [set_solver|]. left. unfold exempt. lia. }
  unfold runs, mbind, st_bind, gets, send_or. set (missing := filter _ _).
  assert (missing ⊆ cert_parents x) as Hm by (intros d [_ Hd]%elem_of_filter; done).
  assert (cert_parents x ⊆ stored s ∪ missing) as Hp.
  { intros d Hd. destruct (contains_certificate d (node_storage s)) eqn:Hcd.
    - apply elem_of_union_l, elem_of_dom. by apply bool_decide_eq_true_1 in Hcd.
    - apply elem_of_union_r, elem_of_filter. done. }
  case_bool_decide as Hemp.
  { simpl. split_and!; try done; [by right|]. right. by rewrite Hemp in Hp. }
  assert (forall s', same s s' -> new_certificates s' = new_certificates s -> inv s' /\ cov s' /\ grows s s') as Hs.
  { intros s' Hs Hn. split_and!; [by eapply same_inv| |by apply same_grows].
    destruct Hs as (_ & _ & Hst & Hr & Hno). intros [Hl1 Hl2]. unfold stored. rewrite Hst, Hn.
    apply Hc. split; [auto|congruence]. }
  destruct (receivers s) eqn:Hr; simpl.
  - set (s1 := with_sent _ _ _ s). destruct (Hs s1) as (? & ? & ?); [by unfold same; split_and!|done|].
    split_and!; try done; by right.
  - split_and!; try done; [by intros []|by right].
Qed.

(** ** A batch of verified certificates *)

(** The reply for a batch: every certificate is stored, or some of them wait. *)
Definition batch_post (result : option CertManagerError) (xs : list Certificate)
    (r : Exec CertManagerError unit) s : Prop :=
  match r with
  | Ret _ => result = None /\ digests xs ⊆ stored s
  | Err (Pending _) => store_up s -> forall x, x ∈ xs -> held (digest x) s
  | _ => True
  end.

Definition batch_result (result : option CertManagerError) : Prop :=
  match result with None | Some (Pending _) => True | _ => False end.

(** The rest of a batch, after one of its certificates is held. *)
Lemma batch_post_cons result x xs s r s' : grows s s' -> batch_post result xs r s' ->
  held (digest x) s -> (result = None -> digest x ∈ stored s) -> batch_post result (x :: xs) r s'.
Proof.
  intros Hg Hp Hh Hs. destruct r as [[]|[]| |]; simpl in *; try done.
  - destruct Hp as [-> Hp]. split; [done|]. rewrite digests_cons. apply union_subseteq. split; [|done].
    apply singleton_subseteq_l, (g_stored _ _ Hg). auto.
  - intros Hup y [->|Hy]%elem_of_cons; [|auto]. apply (g_held _ _ Hg); [|done].
    unfold store_up in *. rewrite <- (g_fatal _ _ Hg). done.
Qed.

Lemma batch_post_pending result d xs r s : batch_post (Some (Pending d)) xs r s -> batch_post result xs r s.
Proof. destruct r as [[]|[]| |]; simpl; try done. by intros [? ?]. Qed.

(** The certificate has its parents: it goes with those it releases. *)
Lemma release_with x s : inv s -> cov s -> U x -> exempt x \/ cert_parents x ⊆ stored s ->
  exists p xs, update_pending (cert_round x) (digest x) (cm_pending s) = (p, Ret xs) /\ releasing s p (x :: xs).
Proof.
  intros Hi Hc HUx Hx. destruct (i_pending _ Hi) as (avail & Hsub & Hav & Hok).
  destruct (update_pending_ok exempt ({[digest x]} ∪ avail) (cert_round x) (digest x) (cm_pending s))
    as (p & xs & Hrun & Hrel & _).
  - eapply pending_ok_mono; [done| |exact Hok]. apply union_subseteq_r.
  - left. set_solver.
  - exists p, xs. split; [done|]. split; [done|done| | |].
    + exists avail. split_and!; try done.
      * split; [|by apply rel_causal in Hrel]. destruct Hx; [by left|right]. by etrans.
      * rewrite digests_cons. eapply pending_ok_mono; [done| |by apply rel_ok in Hrel].
        by rewrite (union_comm_L {[digest x]} (digests xs)), union_assoc_L.
    + eapply released_U; [by apply i_U|done].
    + intros d Hd. rewrite digests_cons. destruct (released_held _ _ _ _ _ d
        (pending_ok_mono _ _ _ _ _ (fun x Hx => Hx) (union_subseteq_r {[digest x]} avail) Hok) Hrel Hd); [by left|].
      right. by apply elem_of_union_r.
Qed.

(** A certificate that waits. *)
Lemma suspend x missing s : inv s -> cov s -> U x -> pending (cm_pending s) !! digest x = None ->
  missing <> ∅ -> missing ⊆ cert_parents x -> 1 <= cert_round x ->
  exempt x \/ cert_parents x ⊆ stored s ∪ missing ->
  runs (on_pending (insert_pending x missing)) s (fun r s' =>
    r = Ret tt /\ is_Some (pending (cm_pending s') !! digest x)).
Proof.
  intros Hi Hc HUx Hn Hne Hm H1 Hx. destruct (i_pending _ Hi) as (avail & Hsub & Hav & Hok).
  destruct (insert_pending_ok exempt avail (cm_pending s) x missing) as (p & Hrun & Hok' & Hcerts); try done.
  { destruct Hx as [|Hx]; [by left|right]. etrans; [exact Hx|]. by apply union_mono_r. }
  unfold runs, on_pending. rewrite Hrun.
  assert (forall d, is_Some (pending (cm_pending s) !! d) \/ d = digest x -> is_Some (pending p !! d)) as Hin.
  { intros d Hd. assert (exists y, y ∈ certs p /\ digest y = d) as (y & Hy & <-).
    { setoid_rewrite Hcerts. destruct Hd as [[q Hd]| ->]; [|exists x; split; [left|done]].
      exists (certificate q). split; [right; apply elem_of_certs; eauto|].
      by destruct (pi_pending _ _ _ _ _ _ Hok _ _ Hd). }
    apply elem_of_certs in Hy as (d & q & Hd' & <-).
    destruct (pi_pending _ _ _ _ _ _ Hok' _ _ Hd') as (-> & _). by exists q. }
  destruct Hi as [H1' H2 H3 H4 H5 H6]. split_and!; [|split; try done|done|by right|done|apply Hin; by right].
  - split; try done; [by exists avail|]. simpl. rewrite Hcerts. by constructor.
  - intros _ d [Hd|Hd]; [by left|right]. apply Hin. by left.
Qed.

Lemma runs_gets {A B} (g : CertificateManager -> A) (f : A -> ST CertificateManager CertManagerError B) s Q :
  runs (f (g s)) s Q -> runs (gets g ≫= f) s Q.
Proof. done. Qed.

(** A continuation that starts from a grown state. *)
Lemma runs_grows {A} (m : ST CertificateManager CertManagerError A) s P (Q : _ -> _ -> Prop) :
  runs m s P -> (forall r s', grows s s' -> P r s' -> Q r s') -> runs m s Q.
Proof. unfold runs. destruct (m s). naive_solver. Qed.

(** The parents to wait for. *)
Definition missing_post x s (r : Exec CertManagerError (gset Z)) s' : Prop :=
  cm_pending s' = cm_pending s /\
  match r with
  | Ret missing => missing ⊆ cert_parents x /\ (exempt x \/ cert_parents x ⊆ stored s' ∪ missing) /\
      (missing <> ∅ -> 1 <= cert_round x)
  | Err (Pending _) => False
  | _ => True
  end.

Lemma missing_ok x s : inv s -> cov s ->
  runs (next ← lift (uadd u32_max (cm_gc_round s) 1);
        if next <? cert_round x then get_missing_parents config x else mret ∅) s (missing_post x s).
Proof.
  intros Hi Hc. pose proof (i_gc _ Hi) as Hgc. unfold uadd.
  rewrite (proj2 (Z.leb_le _ _)) by lia. change (runs (if cm_gc_round s + 1 <? cert_round x
    then get_missing_parents config x else mret ∅) s (missing_post x s)).
  destruct (Z.ltb_spec (cm_gc_round s + 1) (cert_round x)) as [Hlt|Hge].
  - eapply runs_mono; [apply get_missing_parents_ok; [done|done|lia]|]. intros r s' [Hp Hr]. split; [done|].
    destruct r as [m|[]| |]; try done. destruct Hr. split_and!; try done. lia.
  - apply runs_ret; [done|done|]. split; [done|]. split_and!; [set_solver|left; unfold exempt; lia|done].
Qed.

Lemma process_verified_loop_ok xs result s : inv s -> cov s -> Forall U xs -> batch_result result ->
  runs (process_verified_loop config xs result) s (batch_post result xs).
Proof.
  revert result s. induction xs as [|x xs IH]; intros result s Hi Hc HU Hres; cbn [process_verified_loop].
  { destruct result as [[]|]; simpl in Hres; try done.
    - apply runs_throw; [done|done|by intros []|]. by intros _ x ?%elem_of_nil.
    - by apply runs_ret. }
  apply Forall_cons in HU as [HUx HU]. destruct (is_verified x); cbn [negb].
  2: { apply runs_throw; [done|done|by intros []|done]. }
  apply runs_gets. unfold is_pending. case_bool_decide as Hpend.
  { eapply runs_grows; [by apply (IH (Some (Pending (digest x))))|]. intros r s' Hg Hp.
    eapply batch_post_pending, batch_post_cons; [exact Hg|done|by right|done]. }
  apply runs_gets. eapply runs_bind; [by apply missing_ok|].
  intros s1 [missing|e| |] [Hp1 Hm] Hnd; [|by destruct e|done|done]. intros Hi1 Hc1 Hg1.
  destruct Hm as (Hmp & Hx & Hm1). case_bool_decide as Hemp.
  - rewrite Hemp, (right_id_L ∅ (∪)) in Hx. destruct (release_with x s1 Hi1 Hc1 HUx Hx) as (p & ys & Hrun & Hre).
    unfold runs, mbind at 1, st_bind at 1, on_pending. rewrite Hrun.
    apply (runs_accept (accept_verified_certificates config) s1 p (x :: ys)); [apply accept_accepts|done| |].
    + intros s2 Hi2 Hc2 Hg2 Hp2 Hd2. assert (digest x ∈ stored s2) as Hin.
      { apply Hd2. rewrite digests_cons. set_solver. }
      eapply runs_grows; [by apply IH|]. intros r s' Hg Hp.
      eapply batch_post_cons; [exact Hg|done|by left|done].
    + by intros s' [|[]| |].
  - eapply runs_bind; [apply suspend; try done; [by rewrite Hp1; apply eq_None_not_Some|auto]|].
    intros s2 r2 [-> Hin] _ Hi2 Hc2 Hg2. eapply runs_grows; [by apply (IH (Some (Pending (digest x))))|].
    intros r s' Hg Hp. eapply batch_post_pending, batch_post_cons; [exact Hg|done|by right|done].
Qed.

Lemma process_verified_certificates_ok xs s : inv s -> cov s -> Forall U xs ->
  runs (process_verified_certificates config xs) s (batch_post None xs).
Proof.
  intros Hi Hc HU. pose proof (merge_sort_Permutation round_le xs) as Hperm.
  eapply runs_mono; [apply process_verified_loop_ok; try done; by rewrite Hperm|].
  intros [[]|[]| |] s'; simpl; try done.
  - intros [_ Hd]. split; [done|]. intros d (x & Hx & <-)%elem_of_digests. apply Hd, elem_of_digests.
    exists x. by rewrite Hperm.
  - intros Hh Hup x Hx. apply Hh; [done|]. by rewrite Hperm.
Qed.

(** ** The task *)

Lemma same_runs {A} (m : ST CertificateManager CertManagerError A) s : inv s -> cov s ->
  (let '(s', r) := m s in same s s' /\ new_certificates s' = new_certificates s /\ orderly r) ->
  runs m s (fun _ s' => cm_pending s' = cm_pending s).
Proof.
  intros Hi Hc. unfold runs. destruct (m s) as [s' r]. intros (Hs & Hn & Ho).
  split_and!; [by eapply same_inv|by apply same_grows|done| |by destruct Hs as [? _]].
  right. destruct Hs as (_ & _ & Hst & Hr & Hno). intros [Hl1 Hl2]. unfold stored. rewrite Hst, Hn.
  apply Hc. split; [auto|congruence].
Qed.

Lemma process_gc_round_ok committed active s : inv s -> cov s -> committed <= top ->
  runs (process_gc_round config committed active) s (fun _ _ => True).
Proof.
  intros Hi Hc Hco. set (s1 := with_parents (garbage_collect (cm_parents s) (cm_gc_round s)) s).
  assert (same s s1) as Hs by (by unfold same; split_and!).
  assert (cov s1) as Hc1 by exact Hc. pose proof (i_gc _ Hi) as Hgc.
  unfold runs, process_gc_round. fold s1. set (eff := if _ || _ then _ else _).
  assert (eff <= top) as Heff by (unfold eff; destruct (_ || _); lia).
  pose proof (gc_loop_ok (gc_fuel s) eff _ s1 accept_accepts (same_inv _ _ Hs eq_refl Hi) Hc1 Heff
    ltac:(unfold gc_fuel; simpl; lia)) as Hr. unfold runs in Hr.
  destruct (gc_loop _ _ _ s1) as [s2 r2]. destruct Hr as (? & ? & ? & ? & _). split_and!; try done.
  etrans; [by apply same_grows|done].
Qed.

Definition gc_event_ok (e : GcEvent) : Prop :=
  match e with RoundUpdate r => 0 <= r <= top | _ => True end.

Lemma ready_ok e s : inv s -> cov s -> gc_event_ok e -> runs (ready e) s (fun _ _ => True).
Proof.
  intros Hi Hc He. destruct e as [|r|]; simpl.
  - eapply runs_bind.
    + apply same_runs; [done|done|]. unfold process_max_round_timeout, send_or.
      destruct (receivers s); simpl; (split; [by unfold same; split_and!|]); [done|]. split; [done|by intros []].
    + intros s1 [[]|e| |] _ _; try done. intros. apply runs_throw; [done|done|by intros []|done].
  - unfold runs. simpl. destruct Hi as [H1 H2 H3 H4 H5 H6]. split; [by split|].
    split; [by split|]. split; [done|]. split; [by right|done].
  - apply runs_throw; [done|done|by intros []|done].
Qed.

Definition event_ok (ev : ManagerEvent) : Prop :=
  match ev with
  | ProcessVerifiedCertificates xs => Forall U xs
  | FilterUnknownDigests _ => True
  | GcReady e committed _ => gc_event_ok e /\ committed <= top
  end.

Lemma runs_outcome {A} (m m' : ST CertificateManager CertManagerError A) s P :
  runs m s P -> (m' s).1 = (m s).1 -> (orderly (m s).2 -> orderly (m' s).2) ->
  ((m' s).2 <> Panic -> (m s).2 <> Panic) -> runs m' s (fun _ _ => True).
Proof.
  unfold runs. destruct (m s) as [s1 r1], (m' s) as [s2 r2]. simpl. intros (? & ? & ? & Hc & _) -> Ho Hp.
  split_and!; auto. destruct r2; [right|right|by left|right]; (destruct Hc as [->|]; [|done]); by destruct Hp.
Qed.

Lemma handle_event_ok ev s : inv s -> cov s -> event_ok ev -> runs (handle_event config ev) s (fun _ _ => True).
Proof.
  intros Hi Hc He. destruct ev as [xs|ds|e committed active]; simpl in He.
  - apply (runs_outcome (process_verified_certificates config xs) _ _ _
      (process_verified_certificates_ok xs s Hi Hc He)); simpl;
      destruct (process_verified_certificates config xs s) as [s1 [[]|[]| |]]; simpl; auto.
  - unfold runs. simpl. split_and!; try done. by right.
  - destruct He as [He Hco]. pose proof (ready_ok e s Hi Hc He) as Hr. unfold runs in Hr |- *. simpl.
    destruct (ready e s) as [s1 r1]. destruct Hr as (Hi1 & Hg1 & Ho1 & Hc1 & _).
    destruct r1 as [[]|e1| |]; [| |by split_and!|done].
    + destruct Hc1 as [?|Hc1]; [done|]. pose proof (process_gc_round_ok committed active s1 Hi1 Hc1 Hco) as Hr.
      unfold runs in Hr. destruct (process_gc_round config committed active s1) as [s2 r2].
      destruct Hr as (? & ? & ? & ? & _). split_and!; try done. by etrans.
    + destruct Hc1 as [?|Hc1]; [done|]. destruct e1 as [|[]| | | | | | | |]; split_and!; try done; by right.
Qed.

Lemma handle_events_ok evs s : inv s -> cov s -> Forall event_ok evs ->
  runs (handle_events config evs) s (fun _ _ => True).
Proof.
  intros Hi Hc Hev. revert s Hi Hc. induction Hev as [|ev evs He Hev IH]; intros s Hi Hc; cbn [handle_events].
  { by apply runs_ret. }
  eapply runs_bind; [by apply handle_event_ok|]. intros s1 [[]|e| |] _ _; try done. intros. by apply IH.
Qed.

Lemma drain_pending_ok committed s : inv s -> cov s -> committed <= top ->
  runs (drain_pending config committed) s (fun _ _ => True).
Proof.
  intros Hi Hc Hco. pose proof (i_gc _ Hi). unfold drain_pending.
  apply (gc_loop_ok (gc_fuel s) (Z.max (cm_gc_round s) committed) _ s drain_accepts); try done; [lia|].
  unfold gc_fuel. lia.
Qed.

(** A step whose errors are dropped. *)
Lemma runs_ignore {A B} (m : ST CertificateManager CertManagerError A)
    (f : ST CertificateManager CertManagerError B) s P Q :
  runs m s P -> (forall s', inv s' -> cov s' -> runs f s' Q) -> (forall s', Q Panic s') ->
  runs (fun s => match m s with
        | (s', Ret _) | (s', Err _) => f s'
        | (s', Panic) => (s', Panic)
        | (s', Diverge) => (s', Diverge)
        end) s Q.
Proof.
  intros Hm Hf HQ. unfold runs in *. destruct (m s) as [s1 r1]. destruct Hm as (Hi & Hg & Ho & Hc & _).
  destruct r1 as [a|e| |]; [| |by split_and!; auto|done];
    (destruct Hc as [?|Hc]; [done|]; specialize (Hf s1 Hi Hc); destruct (f s1) as [s2 r2];
     destruct Hf as (? & ? & ? & ? & ?); split_and!; try done; by etrans).
Qed.

Lemma drain_commands_ok xss s : inv s -> cov s -> Forall (Forall U) xss ->
  runs (drain_commands config xss) s (fun _ _ => True).
Proof.
  intros Hi Hc HU. revert s Hi Hc. induction HU as [|xs xss Hxs HU IH]; intros s Hi Hc; [by apply runs_ret|].
  eapply (runs_ignore (process_verified_certificates config xs) (drain_commands config xss));
    [by apply process_verified_certificates_ok|done|done].
Qed.

Lemma on_shutdown_ok committed xss s : inv s -> cov s -> committed <= top -> Forall (Forall U) xss ->
  runs (on_shutdown config committed xss) s (fun _ _ => True).
Proof.
  intros Hi Hc Hco HU. eapply (runs_ignore (drain_pending config committed) (drain_commands config xss));
    [by apply drain_pending_ok| |done]. intros. by apply drain_commands_ok.
Qed.

Lemma append_all_same xs s : let '(s', r) := append_all config xs s in
  same s s' /\ new_certificates s' = new_certificates s /\ orderly r.
Proof.
  revert s. induction xs as [|x xs IH]; intros s; cbn [append_all]; [simpl; split; [reflexivity|done]|].
  unfold mbind, st_bind. pose proof (append_parents_same RAYLSSend x s) as Ha.
  destruct (append_parents config RAYLSSend x s) as [s1 r1]. destruct Ha as (Hp & Hg & Hs & Hn & Hr & Hno & Hout).
  assert (same s s1) as Hsame by (unfold same; rewrite Hno; auto).
  destruct r1 as [[]|e| |]; [| |done|done].
  - specialize (IH s1). destruct (append_all config xs s1) as [s2 r2]. destruct IH as (? & ? & ?).
    split_and!; [by etrans|congruence|done].
  - destruct Hout as [-> _]. split; [done|]. split; [done|by intros []].
Qed.

Lemma bodies_outcome ds t : bodies ds t <> Diverge.
Proof.
  induction ds as [|d ds IH]; simpl; [done|]. destruct (read_certificate d t); [|done].
  by destruct (bodies ds t).
Qed.

Lemma recover_state_ok s : inv s -> cov s -> runs (recover_state config) s (fun _ _ => True).
Proof.
  intros Hi Hc. eapply runs_mono; [apply same_runs; [done|done|]|done]. unfold recover_state, last_two_rounds_certs.
  destruct (bodies _ (node_storage s)) as [stored|e| |] eqn:Hb; [apply append_all_same| | |by apply bodies_outcome in Hb];
    (split; [reflexivity|done]).
Qed.

Lemma manager_run_ok evs committed xss s : inv s -> cov s -> Forall event_ok evs -> committed <= top ->
  Forall (Forall U) xss -> runs (run config evs committed xss) s (fun _ _ => True).
Proof.
  intros Hi Hc Hev Hco HU. eapply runs_bind; [by apply recover_state_ok|].
  intros s1 [[]|e| |] _ _; try done. intros Hi1 Hc1 _. eapply runs_bind; [by apply handle_events_ok|].
  intros s2 [[]|e| |] _ _; try done. intros Hi2 Hc2 _. eapply (runs_bind _ _ _ (fun _ _ => True)).
  - unfold runs. simpl. destruct Hi2 as [H1 H2 H3 H4 H5 H6]. split; [split; try done; by intros [? _]|].
    split; [by split|]. split; [done|]. split; [right; by intros [? _]|done].
  - intros s3 [[]|e| |] _ _; try done. intros. by apply on_shutdown_ok.
Qed.

End props.

(** A stored certificate has its parents in the store, or they were collected. *)
Definition parents_stored (top : Round) (t : CertTables) : Prop :=
  forall d x, certificates t !! d = Some x ->
    cert_round x <= top + 1 \/ cert_parents x ⊆ dom (certificates t).

Lemma start_inv `{!Crypto} U top depth gc processed current t sr open shutdown :
  0 <= gc <= top -> parents_stored top t ->
  let s := CertificateManager_new depth gc processed current t sr open shutdown in
  inv U top (stored s) s /\ cov (stored s) s.
Proof.
  intros Hgc Hcl s. split.
  - split; try done. exists (stored s). split_and!; [done|done|].
    split; simpl; try by (intros *; rewrite lookup_empty). by intros ? ?%elem_of_nil.
  - intros _. simpl. set_solver.
Qed.

(** C6: whatever certificates, collected rounds and shutdown the manager is
    given, and however it ends, the store stays causally closed above the
    highest collected round: the parents of a stored certificate are stored.
    Certificates are persisted before consensus sees them, consensus sees them
    after their parents while the node runs, and neither the loops run forever
    nor the bookkeeping of pending certificates breaks. *)
Theorem manager_store_causal `{!Crypto} {it : HashIter} {it_ok : HashIterOk} config U top
    depth gc processed current t sr open shutdown evs committed xss :
  parent_rounds U -> top < u32_max -> 0 <= gc <= top -> parents_stored top t ->
  Forall (event_ok U top) evs -> committed <= top -> Forall (Forall U) xss ->
  let s := CertificateManager_new depth gc processed current t sr open shutdown in
  let '(s1, r1) := handle_events config evs s in
  let '(s2, r2) := run config evs committed xss s in
  orderly r1 /\ orderly r2 /\
  parents_stored top (node_storage s1) /\ parents_stored top (node_storage s2) /\
  digests (new_certificates s2) ⊆ stored s2 /\ stored s ⊆ stored s2 /\
  (live s1 -> causal (exempt top) (stored s) (new_certificates s1)) /\
  (live s1 -> r1 <> Panic -> stored s1 ⊆ digests (new_certificates s1) ∪ stored s).
Proof.
  intros HU Htop Hgc Ht Hev Hco Hxss s.
  destruct (start_inv U top depth gc processed current t sr open shutdown Hgc Ht) as [Hi Hc].
  pose proof (handle_events_ok config U top (stored s) HU Htop evs s Hi Hc Hev) as H1.
  pose proof (manager_run_ok config U top (stored s) HU Htop evs committed xss s Hi Hc Hev Hco Hxss) as H2.
  unfold runs in H1, H2. destruct (handle_events config evs s) as [s1 r1], (run config evs committed xss s) as [s2 r2].
  destruct H1 as (Hi1 & Hg1 & Ho1 & Hc1 & _), H2 as (Hi2 & Hg2 & Ho2 & _).
  split_and!; try done; [exact (i_closed _ _ _ _ Hi1)|exact (i_closed _ _ _ _ Hi2)|
    exact (i_sent _ _ _ _ Hi2)|exact (g_stored _ _ Hg2)|exact (i_causal _ _ _ _ Hi1)|].
  intros Hl Hr. destruct Hc1 as [?|Hc1]; [done|]. by apply Hc1.
Qed.

(** the reply to a batch of verified certificates is truthful, after any
    run: success says that all of them are stored, and [Pending] that each of
    them is stored or waits for parents. What was stored stays stored, and
    unless the database failed no waiting certificate is lost. *)
Theorem verified_batch_reply `{!Crypto} {it : HashIter} {it_ok : HashIterOk} config U top
    depth gc processed current t sr open shutdown evs s1 xs s2 r :
  parent_rounds U -> top < u32_max -> 0 <= gc <= top -> parents_stored top t ->
  Forall (event_ok U top) evs -> Forall U xs ->
  handle_events config evs (CertificateManager_new depth gc processed current t sr open shutdown) =
    (s1, Ret tt) ->
  process_verified_certificates config xs s1 = (s2, r) ->
  orderly r /\
  (r = Ret tt -> digests xs ⊆ stored s2) /\
  (forall d, r = Err (Pending d) -> store_up s2 -> forall x, x ∈ xs -> held (digest x) s2) /\
  stored s1 ⊆ stored s2 /\ (store_up s1 -> forall d, held d s1 -> held d s2).
Proof.
  intros HU Htop Hgc Ht Hev Hxs H1 H2.
  destruct (start_inv U top depth gc processed current t sr open shutdown Hgc Ht) as [Hi Hc].
  pose proof (handle_events_ok config U top _ HU Htop evs _ Hi Hc Hev) as Hr. unfold runs in Hr. rewrite H1 in Hr.
  destruct Hr as (Hi1 & _ & _ & [?|Hc1] & _); [done|].
  pose proof (process_verified_certificates_ok config U top _ HU Htop xs s1 Hi1 Hc1 Hxs) as Hr.
  unfold runs in Hr. rewrite H2 in Hr. destruct Hr as (_ & Hg & Ho & _ & Hp).
  split_and!; [done| | |by destruct Hg|by destruct Hg].
  - intros ->. by destruct Hp.
  - intros d -> Hup. by apply Hp.
Qed.

(** ** Examples *)

Definition example_iter : HashIter := fun s => elements s.
Lemma example_iter_ok : HashIterOk (it := example_iter).
Proof. intros s. reflexivity. Qed.

Definition example_config : ManagerConfig :=
  {| mc_committee := example_committee; mc_genesis := ∅; mc_gc_depth := 50; max_diff := 100 |}.

(** A certificate of round 4 is stored; its child of round 5 arrives after the
    grandchild of round 6. *)
Definition old_cert : Certificate := example_cert 1 4 [].
Definition child_cert : Certificate := example_cert 1 5 [4001].
Definition grandchild_cert : Certificate := example_cert 2 6 [5001].
Definition example_store : CertTables := save_all (H := example_crypto) [old_cert] empty_tables.

Lemma example_rounds : parent_rounds (H := example_crypto) (fun x => x ∈ [child_cert; grandchild_cert]).
Proof.
  intros x y Hx Hy. assert (forall z, z ∈ [child_cert; grandchild_cert] -> z = child_cert \/ z = grandchild_cert)
    as Hz by set_solver. apply Hz in Hx, Hy.
  destruct Hx as [->| ->], Hy as [->| ->]; intros Hd; try done;
    match type of Hd with ?P => assert (bool_decide P = true) as Hb by (by apply bool_decide_eq_true_2) end;
    by vm_compute in Hb.
Qed.

Lemma example_store_closed : parents_stored 3 example_store.
Proof.
  intros d x. unfold example_store, save_all. simpl. intros [[_ <-]|[_ ?]]%lookup_insert_Some; [by left|].
  by rewrite lookup_empty in *.
Qed.

Lemma manager_store_causal_witness :
  let s1 := (handle_events (H := example_crypto) (it := example_iter) example_config
    [ProcessVerifiedCertificates [grandchild_cert]; ProcessVerifiedCertificates [child_cert]]
    (CertificateManager_new 50 2 0 0 example_store 0 true None)).1 in
  new_certificates s1 = [child_cert; grandchild_cert] /\
  causal (H := example_crypto) (exempt 3) (dom (certificates example_store)) (new_certificates s1).
Proof.
  pose proof (manager_store_causal (H := example_crypto) (it := example_iter) (it_ok := example_iter_ok)
    example_config (fun x => x ∈ [child_cert; grandchild_cert]) 3 50 2 0 0 example_store 0 true None
    [ProcessVerifiedCertificates [grandchild_cert]; ProcessVerifiedCertificates [child_cert]] 0 []
    example_rounds ltac:(done) ltac:(lia) example_store_closed
    ltac:(repeat constructor; set_solver) ltac:(lia) ltac:(constructor)) as Ht.
  cbv zeta in Ht |- *.
  destruct (handle_events _ _ _) as [s1 r1] eqn:He, (run _ _ _ _ _) as [s2 r2].
  destruct Ht as (_ & _ & _ & _ & _ & _ & Hc & _).
  assert (new_certificates (s1, r1).1 = [child_cert; grandchild_cert] /\ live (s1, r1).1) as [Hn Hl].
  { rewrite <- He. vm_compute. split; [reflexivity|split; reflexivity]. }
  split; [exact Hn|exact (Hc Hl)].
Defined.

Lemma pair_snd {A B} (p : A * B) b : p.2 = b -> p = (p.1, b).
Proof. by destruct p; intros <-. Qed.

Lemma verified_batch_reply_witness :
  let s1 := (handle_events (H := example_crypto) (it := example_iter) example_config
    [ProcessVerifiedCertificates [grandchild_cert]]
    (CertificateManager_new 50 2 0 0 example_store 0 true None)).1 in
  let batch := process_verified_certificates (H := example_crypto) (it := example_iter) example_config in
  digests (H := example_crypto) [grandchild_cert; child_cert] ⊆ stored (batch [grandchild_cert; child_cert] s1).1 /\
  held 6002 (batch [grandchild_cert] s1).1.
Proof.
  intros s1 batch.
  assert (handle_events (H := example_crypto) (it := example_iter) example_config
    [ProcessVerifiedCertificates [grandchild_cert]]
    (CertificateManager_new 50 2 0 0 example_store 0 true None) = (s1, Ret tt)) as H1.
  { apply pair_snd. vm_compute. reflexivity. }
  pose proof (fun xs (HU : Forall (fun x => x ∈ [child_cert; grandchild_cert]) xs) =>
    verified_batch_reply (H := example_crypto) (it := example_iter) (it_ok := example_iter_ok) example_config (fun x => x ∈ [child_cert; grandchild_cert]) 3 50 2 0 0 example_store 0 true None
    [ProcessVerifiedCertificates [grandchild_cert]] s1 xs (batch xs s1).1 (batch xs s1).2
    example_rounds ltac:(done) ltac:(lia) example_store_closed
    ltac:(repeat constructor; set_solver) HU H1 (surjective_pairing (batch xs s1))) as Ht.
  split.
  - destruct (Ht [grandchild_cert; child_cert]) as (_ & Hd & _); [repeat constructor; set_solver|].
    apply Hd. vm_compute. reflexivity.
  - destruct (Ht [grandchild_cert]) as (_ & _ & Hp & _); [repeat constructor; set_solver|].
    apply (Hp 6002) with (x := grandchild_cert); [vm_compute; reflexivity|vm_compute; reflexivity|left].
Defined.
