(* ===== verification/VoteHandler.v ===== *)
(** * Votes

    [crates/consensus/primary/src/network/{handler,state,message}.rs] and
    [state_sync/header_validator.rs], with the tables of
    [vote_digest_store.rs], [proposer_store.rs] and [payload_store.rs]: how a
    node answers a peer that asks for a vote on its header. *)
From S2P Require Import Prelude State Types Committee Certificates PairMap CertStore PendingCerts CertManager.
From stdpp Require Import strings.

#[local] Open Scope Z_scope.

Inductive PrimaryNetworkError :=
  | InvalidHeader (e : HeaderError)
  | NetCertificate (e : CertManagerError)
  | NetStorage (e : string)
  | NetInternal (e : string).

(** The responses to a vote request; the texts of errors are dropped. *)
Inductive PrimaryResponse :=
  | VoteResponse (v : Vote)
  | MissingParents (missing : list CertificateDigest)
  | ErrorResponse (e : PrimaryNetworkError)
  | RecoverableError
  | TooOld (header_round limit_round : Round)
  | EpochMismatch (expected received : Epoch).

(** [PrimaryResponse::into_error_ref]; [ours + 1] on [u32]. *)
Definition into_error_ref (e : PrimaryNetworkError) : Exec Empty_set PrimaryResponse :=
  match e with
  | InvalidHeader (HeaderTooOld _ r m) => Ret (TooOld r m)
  | InvalidHeader (InvalidEpoch theirs ours) =>
      next ← uadd u32_max ours 1;
      Ret (if theirs =? next then RecoverableError else EpochMismatch ours theirs)
  | e => Ret (ErrorResponse e)
  end.

(** ** Penalties *)

Inductive Penalty := Mild | Medium | Severe | FatalPenalty.

Definition penalty_from_header_error (e : HeaderError) : option Penalty :=
  match e with
  | SyncBatches | HeaderTooNew _ _ _ | HeaderStorage | UnknownExecutionResult _ => Some Mild
  | InvalidParents | WrongNumberOfParents _ _ | HeaderTooOld _ _ _ => Some Medium
  | InvalidTimestamp _ _ | InvalidParentRound => Some Severe
  | AlreadyVotedForLaterRound _ _ | AlreadyVoted _ _ | DuplicateParents | TooManyParents _ _
  | PeerNotAuthor | InvalidGenesisParent _ | ParentMissingSignature | InvalidParentTimestamp _ _
  | UnknownWorkerId | InvalidHeaderDigest | InvalidRound _ _ | HeaderUnknownAuthority _ => Some FatalPenalty
  | PendingCertificateOneshot | InvalidEpoch _ _ => None
  end.

(** [impl From<&PrimaryNetworkError> for Option<Penalty>] *)
Definition penalty_of (e : PrimaryNetworkError) : option Penalty :=
  match e with
  | InvalidHeader e => penalty_from_header_error e
  | NetCertificate (CmCertificate (CertificateHeader e)) => penalty_from_header_error e
  | NetCertificate (CmCertificate (CertificateTooOld _ _ _)) => None
  | NetCertificate (CmCertificate _) => Some FatalPenalty
  | NetCertificate (UnverifiedSignature _) => Some FatalPenalty
  | NetCertificate _ | NetStorage _ | NetInternal _ => None
  end.

(** ** The cache of votes *)

(** Instants in milliseconds. *)
Definition IN_FLIGHT_TTL : Z := 15000.
Definition MAX_AUTH_LAST_VOTE_ENTRIES : nat := 1000.

Inductive AuthVoteState :=
  | InFlight (e : Epoch) (r : Round) (d : HeaderDigest) (created : Z)
  | Completed (e : Epoch) (r : Round) (d : HeaderDigest) (response : option PrimaryResponse).

Definition vote_state_round (x : AuthVoteState) : Round :=
  match x with InFlight _ r _ _ | Completed _ r _ _ => r end.

Abbreviation AuthEquivocationMap := (gmap Z AuthVoteState) (only parsing).

(** [created_at.elapsed() > IN_FLIGHT_TTL] *)
Definition expired (now : Z) (x : AuthVoteState) : bool :=
  match x with InFlight _ _ _ created => IN_FLIGHT_TTL <? now - created | _ => false end.

Definition evict_expired_inflight (now : Z) (cache : AuthEquivocationMap) : AuthEquivocationMap :=
  filter (fun kx => expired now kx.2 = false) cache.

Definition is_completed (x : AuthVoteState) : bool :=
  match x with Completed _ _ _ _ => true | _ => false end.

(** [cache.values().map(|s| s.round()).min().unwrap_or(0)] *)
Definition min_vote_round (cache : AuthEquivocationMap) : Round :=
  match vote_state_round <$> btree_values cache with
  | [] => 0
  | r :: rs => foldl Z.min r rs
  end.

Definition evict_oldest_completed {E} (cache : AuthEquivocationMap) (max_entries : nat) :
    Exec E AuthEquivocationMap :=
  if bool_decide (size cache <= max_entries)%nat then Ret cache
  else
    limit ← uadd u32_max (min_vote_round cache) 10;
    let keys := take (size cache - max_entries)
      (filter (fun kx => is_completed kx.2 && (vote_state_round kx.2 <=? limit) = true) (btree_list cache)).*1 in
    Ret (foldl (fun m k => base.delete k m) cache keys).

(** [InFlightGuard] *)
Record InFlightGuard := {
  g_author : AuthorityIdentifier;
  g_epoch : Epoch;
  g_round : Round;
  g_digest : HeaderDigest
}.

Definition guard_complete (g : InFlightGuard) (resp : PrimaryResponse) (cache : AuthEquivocationMap) :
    AuthEquivocationMap :=
  if match cache !! g_author g with Some x => g_round g <? vote_state_round x | None => false end
  then cache
  else <[g_author g := Completed (g_epoch g) (g_round g) (g_digest g) (Some resp)]> cache.

(** [Drop]: the guard was not completed. *)
Definition guard_drop (g : InFlightGuard) (cache : AuthEquivocationMap) : AuthEquivocationMap :=
  match cache !! g_author g with
  | Some (InFlight _ r _ _) => if r =? g_round g then base.delete (g_author g) cache else cache
  | _ => cache
  end.

(** ** The handler *)

Record VoteInfo := { vi_epoch : Epoch; vi_round : Round; vi_digest : HeaderDigest }.

(** [impl From<&Vote> for VoteInfo]: the digest of a vote is its header's. *)
Definition vote_info (v : Vote) : VoteInfo :=
  {| vi_epoch := vote_epoch v; vi_round := vote_round v; vi_digest := header_digest_of v |}.

(** The configuration of the epoch; [request_signature_direct] is the node's
    key. *)
Record VoteConfig := {
  vc_manager : ManagerConfig;
  max_proposed_header_age_limit : Round;
  max_header_time_drift_tolerance : Z;
  authority_id : option AuthorityIdentifier;
  request_signature_direct : HeaderDigest -> BlsSignature
}.

(** The handler with the tables and the synchronizer it shares. *)
Record RequestHandler := {
  requested_parents : gmap (Z * Z) AuthorityIdentifier;
  auth_last_vote : gmap Z AuthVoteState;
  votes_table : gmap Z VoteInfo;
  last_proposed_by_authority : gmap Z Header;
  payload_table : gset (Z * Z);
  state_sync : CertificateManager
}.

Definition with_requested (x : gmap (Z * Z) AuthorityIdentifier) (s : RequestHandler) : RequestHandler :=
  {| requested_parents := x; auth_last_vote := auth_last_vote s; votes_table := votes_table s;
     last_proposed_by_authority := last_proposed_by_authority s; payload_table := payload_table s;
     state_sync := state_sync s |}.
Definition with_cache (x : gmap Z AuthVoteState) (s : RequestHandler) : RequestHandler :=
  {| requested_parents := requested_parents s; auth_last_vote := x; votes_table := votes_table s;
     last_proposed_by_authority := last_proposed_by_authority s; payload_table := payload_table s;
     state_sync := state_sync s |}.
Definition with_votes (x : gmap Z VoteInfo) (y : gmap Z Header) (s : RequestHandler) : RequestHandler :=
  {| requested_parents := requested_parents s; auth_last_vote := auth_last_vote s; votes_table := x;
     last_proposed_by_authority := y; payload_table := payload_table s; state_sync := state_sync s |}.
Definition with_payload (x : gset (Z * Z)) (s : RequestHandler) : RequestHandler :=
  {| requested_parents := requested_parents s; auth_last_vote := auth_last_vote s;
     votes_table := votes_table s; last_proposed_by_authority := last_proposed_by_authority s;
     payload_table := x; state_sync := state_sync s |}.
Definition with_sync (x : CertificateManager) (s : RequestHandler) : RequestHandler :=
  {| requested_parents := requested_parents s; auth_last_vote := auth_last_vote s;
     votes_table := votes_table s; last_proposed_by_authority := last_proposed_by_authority s;
     payload_table := payload_table s; state_sync := x |}.

(** What a vote request reads on its way: watch channels, the blocks executed
    of late (the hash at a number), the store once it has the parents, the
    batches the workers could fetch and the error they ended with otherwise,
    whether the database answers the read of the previous vote, and the clock. *)
Record VoteEnv := {
  ve_committed_round : Round;
  ve_recent_block : Z -> option Z;
  ve_primary_round : Round;
  ve_leader_round : Round;
  ve_active_cvv : bool;
  ve_store : CertTables;
  ve_fetched : gset (Z * Z);
  ve_fetch_error : HeaderError;
  ve_vote_read : bool;
  ve_now : TimestampSec
}.

Section handler.
Context `{!Crypto} {it : HashIter} (config : VoteConfig).

Abbreviation M := (ST RequestHandler PrimaryNetworkError).
Abbreviation committee := (mc_committee (vc_manager config)).
Abbreviation genesis_map := (mc_genesis (vc_manager config)).

(** A computation that does not touch the state. *)
Definition pure {A} (r : Exec PrimaryNetworkError A) : M A := fun s => (s, r).

(** [Vote::new] with the key of the node. *)
Definition sign_vote (h : Header) (a : AuthorityIdentifier) : Vote :=
  Vote_new h a (request_signature_direct config (header_digest h)).

(** Whether the given parents are those that were asked for. *)
Definition check_given_parents (missing : list CertificateDigest) (ps : list Certificate) :
    option (PrimaryResponse + PrimaryNetworkError) :=
  if bool_decide (ps = []) then Some (inl (MissingParents missing))
  else if negb (Nat.eqb (length ps) (length missing))
  then Some (inr (InvalidHeader (WrongNumberOfParents (Z.of_nat (length missing)) (Z.of_nat (length ps)))))
  else if forallb (fun p => bool_decide (digest p ∈ missing)) ps then None
  else Some (inr (InvalidHeader InvalidParents)).

(** [check_equivocation]: what the cache answers, and the in-flight mark when it
    does not. *)
Definition cached_answer (now : Z) (h : Header) (ps : list Certificate) (x : option AuthVoteState) :
    option (PrimaryResponse + PrimaryNetworkError) :=
  match x with
  | None => None
  | Some (InFlight _ r _ created) =>
      if r <? round h then None
      else if IN_FLIGHT_TTL <? now - created then None
      else Some (inl RecoverableError)
  | Some (Completed e r d response) =>
      if d =? header_digest h then
        match response with
        | None | Some RecoverableError => None
        | Some (MissingParents missing) => check_given_parents missing ps
        | Some res => Some (inl res)
        end
      else if (epoch h <? e) || ((e =? epoch h) && (round h <=? r))
      then Some (inr (InvalidHeader (AlreadyVotedForLaterRound (round h) r)))
      else None
  end.

Definition check_equivocation (now : Z) (h : Header) (ps : list Certificate) (s : RequestHandler) :
    RequestHandler * option (PrimaryResponse + PrimaryNetworkError) :=
  match cached_answer now h ps (auth_last_vote s !! author h) with
  | Some a => (s, Some a)
  | None => (with_cache (<[author h := InFlight (epoch h) (round h) (header_digest h) now]>
                           (auth_last_vote s)) s, None)
  end.

(** ** Parents *)

(** [StateSynchronizer::identify_unknown_parents] *)
Definition identify_unknown_parents (h : Header) (cm : CertificateManager) :
    Exec HeaderError (list CertificateDigest) :=
  if round h =? 1 then
    match List.find (fun d => negb (bool_decide (is_Some (genesis_map !! d)))) (btree_set_list (parents h)) with
    | Some d => Err (InvalidGenesisParent d)
    | None => Ret []
    end
  else
    Ret (filter_unknown_digests
      (filter (fun d => contains_certificate d (node_storage cm) = false) (btree_set_list (parents h)))
      (cm_pending cm)).

(** Requests for parents: one author is asked for each. *)
Fixpoint request_parents (h : Header) (ds : list CertificateDigest)
    (requests : gmap (Z * Z) AuthorityIdentifier) :
    gmap (Z * Z) AuthorityIdentifier * list CertificateDigest :=
  match ds with
  | [] => (requests, [])
  | d :: ds' =>
      let key := (sat_sub (round h) 1, d) in
      match requests !! key with
      | Some _ => request_parents h ds' requests
      | None =>
          let '(r, l) := request_parents h ds' (<[key := author h]> requests) in (r, d :: l)
      end
  end.

Definition check_for_missing_parents (primary_round : Round) (h : Header) : M (list CertificateDigest) :=
  fun s =>
  match identify_unknown_parents h (state_sync s) with
  | Ret unknown =>
      let limit := sat_sub primary_round (max_proposed_header_age_limit config) in
      if negb (bool_decide (unknown = [])) && (round h <? limit)
      then (s, Err (InvalidHeader (HeaderTooOld (header_digest h) (round h) limit)))
      else
        let current := filter (fun kx => sat_sub limit 1 <= kx.1.1) (requested_parents s) in
        let '(requests, missing) := request_parents h unknown current in
        (with_requested requests s, Ret missing)
  | Err e => (s, Err (InvalidHeader e))
  | Panic => (s, Panic)
  | Diverge => (s, Diverge)
  end.

(** Parents sent with the request count as unverified. *)
Fixpoint unverify (ps : list Certificate) : Exec PrimaryNetworkError (list Certificate) :=
  match ps with
  | [] => Ret []
  | p :: ps' =>
      match aggregated_signature p with
      | None => Err (InvalidHeader ParentMissingSignature)
      | Some sig =>
          qs ← unverify ps';
          Ret (set_signature_verification_state p (Unverified sig) :: qs)
      end
  end.

(** Each certificate that was requested from the author goes through the
    synchronizer. *)
Fixpoint accept_parents (env : VoteEnv) (ps : list Certificate) : M unit := fun s =>
  match ps with
  | [] => (s, Ret tt)
  | p :: ps' =>
      let '(cm, r) := process_peer_certificate (vc_manager config) (ve_leader_round env)
                        (ve_active_cvv env) p (state_sync s) in
      let s1 := with_sync cm s in
      match r with
      | Ret _ => accept_parents env ps'
                   (with_requested (base.delete (cert_round p, digest p) (requested_parents s1)) s1)
      | Err (Pending _) => accept_parents env ps' s1
      | Err e => (s1, Err (NetCertificate e))
      | Panic => (s1, Panic)
      | Diverge => (s1, Diverge)
      end
  end.

Definition try_accept_unknown_certs (env : VoteEnv) (h : Header) (ps : list Certificate) : M unit := fun s =>
  accept_parents env
    (filter (fun p => requested_parents s !! (cert_round p, digest p) = Some (author h)) ps) s.

(** The certificates of digests; the read of one that is not there waits, which
    is [Diverge] here. *)
Fixpoint read_parents {E} (get : CertificateDigest -> option Certificate)
    (absent : CertificateDigest -> Exec E (list Certificate)) (ds : list CertificateDigest) :
    Exec E (list Certificate) :=
  match ds with
  | [] => Ret []
  | d :: ds' =>
      match get d with
      | Some p => ps ← read_parents get absent ds'; Ret (p :: ps)
      | None => absent d
      end
  end.

Definition notify_read_parent_certificates (h : Header) (t : CertTables) : Exec HeaderError (list Certificate) :=
  if round h =? 1
  then read_parents (fun d => genesis_map !! d) (fun d => Err (InvalidGenesisParent d))
         (btree_set_list (parents h))
  else read_parents (fun d => read_certificate d t) (fun _ => Diverge) (btree_set_list (parents h)).

(** The checks of the parents; [seen] and [stake] are of those before. *)
Fixpoint check_header_parents (h : Header) (ps : list Certificate) (seen : gset AuthorityIdentifier)
    (stake : VotingPower) : Exec PrimaryNetworkError VotingPower :=
  match ps with
  | [] => Ret stake
  | p :: ps' =>
      if negb (cert_epoch p =? epoch h) then Err (InvalidHeader (InvalidEpoch (cert_epoch p) (epoch h)))
      else
        next ← uadd u32_max (cert_round p) 1;
        if negb (next =? round h) then Err (InvalidHeader InvalidParentRound)
        else if created_at h <? created_at (header p)
        then Err (InvalidHeader (InvalidParentTimestamp (created_at h) (created_at (header p))))
        else if bool_decide (origin p ∈ seen) then Err (InvalidHeader DuplicateParents)
        else
          stake' ← uadd u64_max stake (voting_power_by_id committee (origin p));
          check_header_parents h ps' ({[origin p]} ∪ seen) stake'
  end.

(** ** Batches *)

(** [StateSynchronizer::sync_header_batches]: the batches that are not here are
    fetched by the workers. *)
Definition sync_header_batches (env : VoteEnv) (h : Header) (max_age : Round) : M unit := fun s =>
  if bool_decide (authority_id config = Some (author h)) then (s, Ret tt)
  else
    let max_round := sat_sub (ve_committed_round env) max_age in
    if round h <? max_round
    then (s, Err (InvalidHeader (HeaderTooOld (header_digest h) (round h) max_round)))
    else
      let missing : gset (Z * Z) := list_to_set (payload h) ∖ payload_table s in
      let s1 := with_payload (payload_table s ∪ (missing ∩ ve_fetched env)) s in
      if bool_decide (missing ⊆ ve_fetched env) then (s1, Ret tt)
      else (s1, Err (InvalidHeader (ve_fetch_error env))).

(** ** The vote *)

(** [anchor_diverges_from_executed] *)
Definition anchor_diverges_from_executed (recent : Z -> option Z) (target : BlockNumHash) : bool :=
  match recent (bnh_number target) with
  | Some hash => negb (hash =? bnh_hash target)
  | None => false
  end.

(** [vote_inner] up to the parents: the header, with its digest computed. *)
Definition validate_request (env : VoteEnv) (h : Header) (ps : list Certificate) :
    Exec PrimaryNetworkError Header :=
  h1 ← map_err InvalidHeader (header_validate committee h);
  if round h <? 1 then Err (InvalidHeader (InvalidRound (header_digest h1) (round h)))
  else
    max_round ← uadd u32_max (ve_committed_round env) (mc_gc_depth (vc_manager config));
    if max_round <? round h then Err (InvalidHeader (HeaderTooNew (header_digest h1) (round h) max_round))
    else if committee_size committee <? Z.of_nat (length ps)
    then Err (InvalidHeader (TooManyParents (Z.of_nat (length ps)) (committee_size committee)))
    else if anchor_diverges_from_executed (ve_recent_block env) (latest_execution_block h)
    then Err (InvalidHeader (UnknownExecutionResult (latest_execution_block h)))
    else Ret h1.

(** The time of the header, after the wait for it. *)
Definition check_header_time (env : VoteEnv) (h : Header) : Exec PrimaryNetworkError unit :=
  if ve_now env <? created_at h then
    if created_at h - ve_now env <=? max_header_time_drift_tolerance config then Ret tt
    else Err (InvalidHeader (InvalidTimestamp (created_at h) (ve_now env)))
  else Ret tt.

(** [vote_inner] up to the read of the previous vote: the parents to ask for, or
    the validated header. *)
Definition vote_prepare (env : VoteEnv) (h : Header) (ps : list Certificate) :
    M (list CertificateDigest + Header) :=
  h1 ← pure (validate_request env h ps);
  missing ← (if bool_decide (ps = []) then check_for_missing_parents (ve_primary_round env) h1
             else
               qs ← pure (unverify ps);
               _ ← try_accept_unknown_certs env h1 qs; mret []);
  if negb (bool_decide (missing = [])) then mret (inl missing)
  else
    parents ← pure (map_err InvalidHeader (notify_read_parent_certificates h1 (ve_store env)));
    stake ← pure (check_header_parents h1 parents ∅ 0);
    if stake <? quorum_threshold committee
    then throw (NetCertificate (CmCertificate (Inquorate stake (quorum_threshold committee))))
    else
      _ ← sync_header_batches env h1 0;
      _ ← pure (check_header_time env h1);
      mret (inr h1).

(** The read of the previous vote: a vote to repeat, or nothing. [read_ok] says
    whether the database answers; when it does not, the request fails. *)
Definition vote_read (read_ok : bool) (h : Header) : M (option Vote) := fun s =>
  match authority_id config with
  | None => (s, Err (NetInternal "node is not a validator; cannot vote"))
  | Some me =>
      if negb read_ok then (s, Err (InvalidHeader HeaderStorage)) else
      match votes_table s !! author h with
      | None => (s, Ret None)
      | Some info =>
          if negb (epoch h =? vi_epoch info)
          then (s, Err (InvalidHeader (InvalidEpoch (epoch h) (vi_epoch info))))
          else if round h <? vi_round info
          then (s, Err (InvalidHeader (AlreadyVotedForLaterRound (round h) (vi_round info))))
          else if round h =? vi_round info then
            let v := sign_vote h me in
            if header_digest_of v =? vi_digest info then (s, Ret (Some v))
            else (s, Err (InvalidHeader (AlreadyVoted (header_digest h) (round h))))
          else (s, Ret None)
      end
  end.

(** [write_vote] and [write_last_proposed_by_authority]; a failed database
    refuses them. *)
Definition vote_write (h : Header) : M Vote := fun s =>
  match authority_id config with
  | None => (s, Err (NetInternal "node is not a validator; cannot vote"))
  | Some me =>
      match store_fatal (node_storage (state_sync s)) with
      | Some e => (s, Err (NetStorage e))
      | None =>
          let v := sign_vote h me in
          (with_votes (<[vote_origin v := vote_info v]> (votes_table s))
             (<[author h := h]> (last_proposed_by_authority s)) s, Ret v)
      end
  end.

Definition vote_inner (env : VoteEnv) (h : Header) (ps : list Certificate) : M PrimaryResponse :=
  prepared ← vote_prepare env h ps;
  match prepared with
  | inl missing => mret (MissingParents missing)
  | inr h1 =>
      previous ← vote_read (ve_vote_read env) h1;
      match previous with
      | Some v => mret (VoteResponse v)
      | None => v ← vote_write h1; mret (VoteResponse v)
      end
  end.

Definition header_guard (h : Header) : InFlightGuard :=
  {| g_author := author h; g_epoch := epoch h; g_round := round h; g_digest := header_digest h |}.

Definition cleanup_auth_last_vote (now : Z) : M unit := fun s =>
  match evict_oldest_completed (E := Empty_set) (evict_expired_inflight now (auth_last_vote s))
          MAX_AUTH_LAST_VOTE_ENTRIES with
  | Ret cache => (with_cache cache s, Ret tt)
  | Err e => match e with end
  | Panic => (s, Panic)
  | Diverge => (s, Diverge)
  end.

(** The end of [vote]: the result is cached, old entries are evicted. *)
Definition vote_finish (now : Z) (h : Header) (res : PrimaryResponse + PrimaryNetworkError) : M unit :=
  cached ← (fun s => match res with
            | inl r => (s, Ret r)
            | inr e => match into_error_ref e with
                       | Ret r => (s, Ret r)
                       | Err x => match x with end
                       | Panic => (s, Panic)
                       | Diverge => (s, Diverge)
                       end
            end);
  _ ← modify (fun s => with_cache (guard_complete (header_guard h) cached (auth_last_vote s)) s);
  cleanup_auth_last_vote now.

(** The start of [vote]: the peer is the author, a committee member. *)
Definition vote_start (now : Z) (peer : BlsPublicKey) (h : Header) (ps : list Certificate)
    (s : RequestHandler) : RequestHandler * option (PrimaryResponse + PrimaryNetworkError) :=
  match committee_authority committee (author h) with
  | None => (s, Some (inr (InvalidHeader (HeaderUnknownAuthority (author h)))))
  | Some auth =>
      if key_hash peer =? id auth then check_equivocation now h ps s
      else (s, Some (inr (InvalidHeader PeerNotAuthor)))
  end.

Definition vote (env : VoteEnv) (now now' : Z) (peer : BlsPublicKey) (h : Header) (ps : list Certificate) :
    M PrimaryResponse := fun s =>
  match vote_start now peer h ps s with
  | (s1, Some (inl r)) => (s1, Ret r)
  | (s1, Some (inr e)) => (s1, Err e)
  | (s1, None) =>
      match vote_inner env h ps s1 with
      | (s2, Ret r) => (_ ← vote_finish now' h (inl r); mret r) s2
      | (s2, Err e) => (_ ← vote_finish now' h (inr e); throw e) s2
      | (s2, Panic) => (s2, Panic)
      | (s2, Diverge) => (s2, Diverge)
      end
  end.

End handler.
