(* ===== verification/VoteSafety.v ===== *)
(** * Vote safety

    A node that answers vote requests, as a machine whose steps are the
    interleavings of its request tasks, and what its votes give to consensus:
    one vote per author and round, on headers whose parents are a quorum of the
    round before. *)
From S2P Require Import Prelude State Types Committee Certificates ConsensusState Bullshark BullsharkSafety.
From S2P Require Import PairMap CertStore PendingCerts CertManager CertManagerProps VoteHandler.

(** ** The machine *)

(** Where a request task is. The preparation ends in a validated header or a
    result; the read and the write of the vote table are steps of their own. *)
Inductive Phase :=
  | Validating
  | Ready (h : Header)
  | Writing (h : Header)
  | Finishing (res : PrimaryResponse + PrimaryNetworkError).

Record Task := { t_header : Header; t_given : list Certificate; t_phase : Phase }.

(** The node, its tasks, the headers it voted for and the votes it sent. *)
Record Voter := {
  v_node : RequestHandler;
  v_tasks : gmap Z Task;
  v_issued : list Header;
  v_sent : list Vote
}.

Inductive VoteEvent :=
  | Request (tid now : Z) (peer : BlsPublicKey) (h : Header) (ps : list Certificate)
  | Prepare (tid : Z) (env : VoteEnv)
  | ReadVote (tid : Z) (read_ok : bool)
  | WriteVote (tid : Z)
  | Finish (tid now : Z)
  | Cancel (tid : Z)
  | SyncStep (cm : CertificateManager)
  | Restart.

Definition set_phase (t : Task) (p : Phase) : Task :=
  {| t_header := t_header t; t_given := t_given t; t_phase := p |}.

(** The vote of a response. *)
Definition response_votes (res : PrimaryResponse + PrimaryNetworkError) : list Vote :=
  match res with inl (VoteResponse v) => [v] | _ => [] end.

Section machine.
Context `{!Crypto} {it : HashIter} (config : VoteConfig).
Implicit Types m : Voter.

Definition with_task (n : RequestHandler) (tid : Z) (t : Task) (issued : list Header) m : Voter :=
  {| v_node := n; v_tasks := <[tid := t]> (v_tasks m); v_issued := issued; v_sent := v_sent m |}.

(** One step; [None] when the event is not possible. A task can be cancelled
    only where it waits, which is in the preparation. After a restart the cache
    is empty and the tables are as they were: every write has become durable,
    which the code itself does not wait for before it sends a vote. *)
Definition vote_step (ev : VoteEvent) m : option Voter :=
  match ev with
  | Request tid now peer h ps =>
      match v_tasks m !! tid with
      | Some _ => None
      | None =>
          match vote_start config now peer h ps (v_node m) with
          | (n, Some res) =>
              Some {| v_node := n; v_tasks := v_tasks m; v_issued := v_issued m;
                      v_sent := v_sent m ++ response_votes res |}
          | (n, None) =>
              Some (with_task n tid {| t_header := h; t_given := ps; t_phase := Validating |} (v_issued m) m)
          end
      end
  | Prepare tid env =>
      match v_tasks m !! tid with
      | Some ({| t_phase := Validating |} as t) =>
          match vote_prepare config env (t_header t) (t_given t) (v_node m) with
          | (n, Ret (inl missing)) =>
              Some (with_task n tid (set_phase t (Finishing (inl (MissingParents missing)))) (v_issued m) m)
          | (n, Ret (inr h)) => Some (with_task n tid (set_phase t (Ready h)) (v_issued m) m)
          | (n, Err e) => Some (with_task n tid (set_phase t (Finishing (inr e))) (v_issued m) m)
          | (_, Panic) | (_, Diverge) => None
          end
      | _ => None
      end
  | ReadVote tid read_ok =>
      match v_tasks m !! tid with
      | Some ({| t_phase := Ready h |} as t) =>
          match vote_read config read_ok h (v_node m) with
          | (n, Ret (Some v)) =>
              Some (with_task n tid (set_phase t (Finishing (inl (VoteResponse v)))) (v_issued m ++ [h]) m)
          | (n, Ret None) => Some (with_task n tid (set_phase t (Writing h)) (v_issued m) m)
          | (n, Err e) => Some (with_task n tid (set_phase t (Finishing (inr e))) (v_issued m) m)
          | (_, Panic) | (_, Diverge) => None
          end
      | _ => None
      end
  | WriteVote tid =>
      match v_tasks m !! tid with
      | Some ({| t_phase := Writing h |} as t) =>
          match vote_write config h (v_node m) with
          | (n, Ret v) =>
              Some (with_task n tid (set_phase t (Finishing (inl (VoteResponse v)))) (v_issued m ++ [h]) m)
          | (n, Err e) => Some (with_task n tid (set_phase t (Finishing (inr e))) (v_issued m) m)
          | (_, Panic) | (_, Diverge) => None
          end
      | _ => None
      end
  | Finish tid now =>
      match v_tasks m !! tid with
      | Some ({| t_phase := Finishing res |} as t) =>
          match vote_finish now (t_header t) res (v_node m) with
          | (n, Ret _) =>
              Some {| v_node := n; v_tasks := base.delete tid (v_tasks m); v_issued := v_issued m;
                      v_sent := v_sent m ++ response_votes res |}
          | _ => None
          end
      | _ => None
      end
  | Cancel tid =>
      match v_tasks m !! tid with
      | Some ({| t_phase := Validating |} as t) =>
          Some {| v_node := with_cache (guard_drop (header_guard (t_header t)) (auth_last_vote (v_node m))) (v_node m);
                  v_tasks := base.delete tid (v_tasks m); v_issued := v_issued m; v_sent := v_sent m |}
      | _ => None
      end
  | SyncStep cm => 
      Some {| v_node := with_sync cm (v_node m); v_tasks := v_tasks m; v_issued := v_issued m; v_sent := v_sent m |}
  | Restart =>
      Some {| v_node := with_cache ∅ (with_requested ∅ (v_node m)); v_tasks := ∅; v_issued := v_issued m;
              v_sent := v_sent m |}
  end.

Fixpoint vote_run (evs : list VoteEvent) m : option Voter :=
  match evs with
  | [] => Some m
  | ev :: evs' => vote_step ev m ≫= vote_run evs'
  end.

(** Whether no task is between the read and the write of the author for which a
    task is about to read. *)
Definition writing_author (t : Task) : option AuthorityIdentifier :=
  match t_phase t with Writing h => Some (author h) | _ => None end.

Definition reads_alone (tid : Z) m : bool :=
  match v_tasks m !! tid with
  | Some {| t_phase := Ready h |} =>
      forallb (fun kt => negb (bool_decide (writing_author kt.2 = Some (author h)))) (map_to_list (v_tasks m))
  | _ => true
  end.

(** The reads and writes of one author do not overlap. *)
Fixpoint serial (evs : list VoteEvent) m : bool :=
  match evs with
  | [] => true
  | ev :: evs' =>
      match ev with ReadVote tid _ => reads_alone tid m | _ => true end &&
      match vote_step ev m with Some m' => serial evs' m' | None => true end
  end.

End machine.

(** ** Valid headers *)

Section valid.
Context `{!Crypto} {it : HashIter} (config : VoteConfig) (U : Certificate -> Prop).
Abbreviation c := (mc_committee (vc_manager config)).

(** A header whose parents, known by their digests, are certificates of a
    quorum of authors in the round before. *)
Record header_ok (h : Header) : Prop := {
  ho_digest : header_digest h = header_hash h;
  ho_epoch : epoch h = committee_epoch c;
  ho_round : 1 <= round h;
  ho_parents : exists ps, list_to_set (digest <$> ps) = parents h /\ NoDup (origin <$> ps) /\
    Forall (fun p => cert_epoch p = epoch h /\ cert_round p + 1 = round h /\
      created_at (header p) <= created_at h /\ U p) ps /\
    quorum_threshold c <= stake_of c (list_to_set (origin <$> ps))
}.

(** The certificates are found under their digests. *)
Definition env_ok (env : VoteEnv) : Prop :=
  forall d p, certificates (ve_store env) !! d = Some p -> digest p = d /\ U p.
Definition genesis_ok : Prop :=
  forall d p, mc_genesis (vc_manager config) !! d = Some p -> digest p = d /\ U p.

Lemma validate_request_ok env h ps h1 : validate_request config env h ps = Ret h1 ->
  fields h1 = fields h /\ header_digest h1 = header_hash h1 /\ epoch h1 = committee_epoch c /\ 1 <= round h1.
Proof.
  unfold validate_request. intros (h2 & (Hf & Hd & He & _)%map_err_Ret%header_validate_Ret & Hk)%bind_Ret_inv.
  destruct (Z.ltb_spec (round h) 1); [done|]. apply bind_Ret_inv in Hk as (mr & _ & Hk).
  repeat (destruct (_ <? _); [done|]). destruct (anchor_diverges_from_executed _ _); [done|].
  injection Hk as <-. unfold epoch, round in *. rewrite Hf. split_and!; [done|done|done|lia].
Qed.

Lemma read_parents_ok {E} get (absent : _ -> Exec E _) ds ps : (forall d l, absent d <> Ret l) ->
  read_parents get absent ds = Ret ps -> Forall2 (fun d p => get d = Some p) ds ps.
Proof.
  intros Ha. revert ps. induction ds as [|d ds IH]; intros ps; simpl; [by intros [= <-]|].
  destruct (get d) as [p|] eqn:Hd; [|by intros ?%Ha]. intros (qs & Hq & [= <-])%bind_Ret_inv.
  constructor; [done|by apply IH].
Qed.

Lemma check_header_parents_ok h ps seen stake stake' : check_header_parents config h ps seen stake = Ret stake' ->
  Forall (fun p => cert_epoch p = epoch h /\ cert_round p + 1 = round h /\ created_at (header p) <= created_at h) ps /\
  NoDup (origin <$> ps) /\ (forall a, a ∈ origin <$> ps -> a ∉ seen) /\
  stake' = stake + zsum (voting_power_by_id c <$> (origin <$> ps)).
Proof.
  revert seen stake. induction ps as [|p ps IH]; intros seen stake; cbn [check_header_parents].
  { intros [= <-]. split_and!; [constructor|constructor|by intros ? ?%elem_of_nil|simpl; lia]. }
  destruct (Z.eqb_spec (cert_epoch p) (epoch h)) as [He|]; [|done]. cbn [negb].
  intros (next & Hn & Hk)%bind_Ret_inv. unfold uadd in Hn. destruct (_ <=? _); [|done].
  injection Hn as <-. destruct (Z.eqb_spec (cert_round p + 1) (round h)) as [Hr|]; [|done]. cbn [negb] in Hk.
  destruct (Z.ltb_spec (created_at h) (created_at (header p))) as [|Ht]; [done|].
  case_bool_decide as Hin; [done|]. apply bind_Ret_inv in Hk as (st & Hs & Hk). unfold uadd in Hs.
  destruct (_ <=? _); [|done]. injection Hs as <-. destruct (IH _ _ Hk) as (Hall & Hnd & Hns & ->).
  rewrite !fmap_cons. split_and!.
  - constructor; [split_and!; [done|done|lia]|done].
  - constructor; [|done]. intros Hi. apply (Hns _ Hi). set_solver.
  - intros a [->|Ha]%elem_of_cons; [done|]. specialize (Hns _ Ha). set_solver.
  - simpl. lia.
Qed.

Lemma parents_digests (ds : gset Z) ps get :
  Forall2 (fun d p => get d = Some p) (btree_set_list ds) ps ->
  (forall d p, get d = Some p -> digest p = d) -> list_to_set (digest <$> ps) = ds.
Proof.
  intros HF Hg. assert (digest <$> ps = btree_set_list ds) as ->.
  { revert HF. generalize (btree_set_list ds). intros l HF. induction HF as [|d p l ps Hd HF IH]; [done|].
    rewrite fmap_cons, IH. f_equal. by apply Hg. }
  apply set_eq. intros d. by rewrite elem_of_list_to_set, elem_of_btree_set_list.
Qed.

Lemma notify_read_ok h env ps : genesis_ok -> env_ok env ->
  notify_read_parent_certificates config h (ve_store env) = Ret ps ->
  list_to_set (digest <$> ps) = parents h /\ Forall U ps.
Proof.
  intros Hg He Hp. assert (exists get, Forall2 (fun d p => get d = Some p) (btree_set_list (parents h)) ps /\
    forall d p, get d = Some p -> digest p = d /\ U p) as (get & Hf & Hget).
  { unfold notify_read_parent_certificates in Hp. destruct (round h =? 1);
      apply read_parents_ok in Hp; try done; eexists; (split; [exact Hp|]); [exact Hg|exact He]. }
  split; [eapply parents_digests; [exact Hf|]; intros d p Hd; by apply Hget in Hd as [? _]|].
  apply Forall_forall. intros p Hin. apply list_elem_of_lookup in Hin as [k Hk].
  destruct (Forall2_lookup_r _ _ _ _ _ Hf Hk) as (d & _ & Hd). by apply Hget in Hd as [_ ?].
Qed.

Lemma vote_prepare_ok env h ps s s' h1 : genesis_ok -> env_ok env ->
  vote_prepare config env h ps s = (s', Ret (inr h1)) -> header_ok h1 /\ author h1 = author h.
Proof.
  intros Hg He. unfold vote_prepare.
  intros (h2 & s1 & [= <- Hv] & Hk)%st_bind_Ret. apply validate_request_ok in Hv as (Hf & Hd & Hep & Hr).
  apply st_bind_Ret in Hk as (missing & s2 & _ & Hk). destruct (negb _); [done|].
  apply st_bind_Ret in Hk as (qs & s3 & [= <- Hn%map_err_Ret] & Hk).
  apply st_bind_Ret in Hk as (stake & s4 & [= <- Hc] & Hk).
  destruct (Z.ltb_spec stake (quorum_threshold c)) as [|Hq]; [done|].
  apply st_bind_Ret in Hk as (? & s5 & _ & Hk). apply st_bind_Ret in Hk as (? & s6 & _ & [= _ <-]).
  destruct (notify_read_ok _ _ _ Hg He Hn) as [Hps HU].
  destruct (check_header_parents_ok _ _ _ _ _ Hc) as (Hall & Hnd & _ & ->).
  split; [|unfold author in *; by rewrite Hf]. split; [done|done|done|]. exists qs. split_and!; [done|done| |].
  - rewrite Forall_forall in *. naive_solver.
  - unfold stake_of. rewrite wsum_list by done. lia.
Qed.

(** ** The table of votes *)

(** A computation that leaves the votes and their cache alone. *)
Definition keeps_votes {A} (m : ST RequestHandler PrimaryNetworkError A) : Prop :=
  forall s, votes_table (m s).1 = votes_table s /\ auth_last_vote (m s).1 = auth_last_vote s.

Lemma keeps_bind {A B} (m : ST RequestHandler PrimaryNetworkError A) (f : A -> _ B) :
  keeps_votes m -> (forall a, keeps_votes (f a)) -> keeps_votes (m ≫= f).
Proof.
  intros Hm Hf s. specialize (Hm s). unfold mbind, st_bind. destruct (m s) as [s1 [a|e| |]]; simpl in *; try done.
  destruct (Hf a s1) as [-> ->]. done.
Qed.

Lemma accept_parents_keeps env ps : keeps_votes (accept_parents config env ps).
Proof.
  induction ps as [|p ps IH]; intros s; simpl; [done|]. destruct (process_peer_certificate _ _ _ _ _) as [cm r].
  destruct r as [a|[]| |]; simpl; try done; (edestruct IH as [-> ->]; done).
Qed.

Lemma vote_prepare_keeps env h ps : keeps_votes (vote_prepare config env h ps).
Proof.
  unfold vote_prepare. apply keeps_bind; [done|]. intros h1. apply keeps_bind.
  - destruct (bool_decide _).
    + intros s. unfold check_for_missing_parents. destruct (identify_unknown_parents config h1 (state_sync s)); try done.
      destruct (_ && _); [done|]. by destruct (request_parents _ _ _).
    + apply keeps_bind; [done|]. intros qs. apply keeps_bind; [|done]. intros s. apply accept_parents_keeps.
  - intros missing. destruct (negb _); [done|]. apply keeps_bind; [done|]. intros parents.
    apply keeps_bind; [done|]. intros stake. destruct (_ <? _); [done|].
    apply keeps_bind; [|intros _; by apply keeps_bind].
    intros s. unfold sync_header_batches. destruct (bool_decide _); [done|]. destruct (_ <? _); [done|].
    by destruct (bool_decide _).
Qed.

(** The cached votes. *)
Definition cache_ok (P : Vote -> Prop) (cache : gmap Z AuthVoteState) : Prop :=
  forall a e r d v, cache !! a = Some (Completed e r d (Some (VoteResponse v))) -> P v.

Lemma cache_ok_sub P (m1 m2 : gmap Z AuthVoteState) : m1 ⊆ m2 -> cache_ok P m2 -> cache_ok P m1.
Proof. intros Hs Hok a e r d v Ha. eapply Hok, lookup_weaken; [exact Ha|done]. Qed.

Lemma deletes_subseteq (ks : list Z) (m : gmap Z AuthVoteState) : foldl (fun m k => base.delete k m) m ks ⊆ m.
Proof.
  revert m. induction ks as [|k ks IH]; intros m; simpl; [done|]. etrans; [apply IH|apply delete_subseteq].
Qed.

Lemma evicted_subseteq {E} now (m : gmap Z AuthVoteState) k m' :
  evict_oldest_completed (E := E) (evict_expired_inflight now m) k = Ret m' -> m' ⊆ m.
Proof.
  unfold evict_oldest_completed. assert (evict_expired_inflight now m ⊆ m) as Hsub by apply map_filter_subseteq.
  case_bool_decide; [by intros [= <-]|]. intros (limit & _ & [= <-])%bind_Ret_inv.
  etrans; [apply deletes_subseteq|done].
Qed.

Lemma guard_drop_subseteq g (m : gmap Z AuthVoteState) : guard_drop g m ⊆ m.
Proof.
  unfold guard_drop. destruct (m !! g_author g) as [[]|]; try done. destruct (_ =? _); [apply delete_subseteq|done].
Qed.

Lemma guard_complete_ok P g resp cache : (forall v, resp = VoteResponse v -> P v) -> cache_ok P cache ->
  cache_ok P (guard_complete g resp cache).
Proof.
  intros Hv Hc. unfold guard_complete. match goal with |- context [if ?b then _ else _] => destruct b end; [done|].
  intros a e r d v [[_ Heq]|[_ Ha]]%lookup_insert_Some; [|by eapply Hc]. injection Heq as _ _ _ ->. by apply Hv.
Qed.

Lemma into_error_no_vote e v : into_error_ref e <> Ret (VoteResponse v).
Proof.
  destruct e as [e|e|e|e]; [|done..]. destruct e; try done. simpl. unfold uadd.
  destruct (_ <=? _); [|done]. simpl. by destruct (_ =? _).
Qed.

Lemma vote_finish_ok P now h res s n : (forall v, v ∈ response_votes res -> P v) -> cache_ok P (auth_last_vote s) ->
  vote_finish now h res s = (n, Ret tt) -> votes_table n = votes_table s /\ cache_ok P (auth_last_vote n).
Proof.
  intros Hres Hc. unfold vote_finish. intros (resp & s1 & H1 & Hk)%st_bind_Ret.
  assert (s1 = s /\ forall v, resp = VoteResponse v -> P v) as [-> Hv].
  { destruct res as [r|e].
    - injection H1 as <- <-. split; [done|]. intros v ->. apply Hres. simpl. left.
    - destruct (into_error_ref e) as [r|[]| |] eqn:He; try done. injection H1 as <- <-. split; [done|].
      intros v ->. by apply into_error_no_vote in He. }
  apply st_bind_Ret in Hk as ([] & s2 & [= <-] & Hk). unfold cleanup_auth_last_vote in Hk. simpl in Hk.
  destruct (evict_oldest_completed _ _) as [cache|[]| |] eqn:Hev; try done. injection Hk as <-. simpl. split; [done|].
  eapply cache_ok_sub; [by eapply evicted_subseteq|]. by apply guard_complete_ok.
Qed.

Lemma vote_start_ok P now peer h ps s n r : cache_ok P (auth_last_vote s) ->
  vote_start config now peer h ps s = (n, r) ->
  votes_table n = votes_table s /\ cache_ok P (auth_last_vote n) /\
  forall res v, r = Some res -> v ∈ response_votes res -> P v.
Proof.
  intros Hc. unfold vote_start, check_equivocation.
  destruct (committee_authority c (author h)); [|intros [= <- <-]; split_and!; try done; by intros ? v [= <-] ?%elem_of_nil].
  destruct (_ =? _); [|intros [= <- <-]; split_and!; try done; by intros ? v [= <-] ?%elem_of_nil].
  destruct (cached_answer now h ps (auth_last_vote s !! author h)) as [res|] eqn:Hr; intros [= <- <-].
  - split_and!; try done. intros ? v [= <-] Hv. destruct (auth_last_vote s !! author h) as [[|e r d resp]|] eqn:Ha; simpl in Hr.
    + destruct (_ <? _); [done|]. destruct (_ <? _); [done|]. injection Hr as <-. by apply elem_of_nil in Hv.
    + destruct (_ =? _).
      * destruct resp as [[w|missing|e'| | |]|]; try done; try (injection Hr as <-; by apply elem_of_nil in Hv).
        -- injection Hr as <-. simpl in Hv. apply list_elem_of_singleton in Hv as ->. by eapply Hc.
        -- unfold check_given_parents in Hr. repeat case_match; try done; injection Hr as <-; by apply elem_of_nil in Hv.
      * destruct (_ || _); [|done]. injection Hr as <-. by apply elem_of_nil in Hv.
    + done.
  - split_and!; try done. simpl. intros b e r d v [[_ ?]|[_ Ha]]%lookup_insert_Some; [done|by eapply Hc].
Qed.

End valid.

(** ** One vote per author and round *)

Section voter.
Context `{!Crypto} {it : HashIter} (config : VoteConfig) (U : Certificate -> Prop) (me : AuthorityIdentifier).
Hypothesis committee_ok : committee_wf (mc_committee (vc_manager config)).
Hypothesis genesis_found : genesis_ok config U.
Implicit Types m : Voter.
Abbreviation ep := (committee_epoch (mc_committee (vc_manager config))).

(** The table has no vote for the round of the header or a later one. *)
Definition below (h : Header) (o : option VoteInfo) : Prop :=
  match o with None => True | Some info => vi_epoch info = ep /\ vi_round info < round h end.

(** The table has the vote for the header, or one for a later round. *)
Definition recorded (h : Header) (o : option VoteInfo) : Prop :=
  exists info, o = Some info /\ vi_epoch info = ep /\
    (round h < vi_round info \/ round h = vi_round info /\ header_digest h = vi_digest info).

(** A vote of this node for a header it voted for. *)
Definition voted (issued : list Header) (v : Vote) : Prop :=
  exists h a, h ∈ issued /\ authority_id config = Some a /\ v = sign_vote config h a.

(** A valid header of another authority. *)
Definition votable (h : Header) : Prop := header_ok config U h /\ author h <> me.

Definition unique_votes (issued : list Header) : Prop :=
  forall h1 h2 : Header, h1 ∈ issued -> h2 ∈ issued -> author h1 = author h2 -> round h1 = round h2 ->
    header_digest h1 = header_digest h2.

(** A header that the table does not put below another vote can be added. *)
Lemma unique_add issued (h : Header) o : unique_votes issued ->
  (forall h' : Header, h' ∈ issued -> author h' = author h -> recorded h' o) ->
  below h o \/ (exists info, o = Some info /\ round h = vi_round info /\ header_digest h = vi_digest info) ->
  unique_votes (issued ++ [h]).
Proof.
  intros Hu Hrec Ho. assert (forall h' : Header, h' ∈ issued -> author h' = author h -> round h' = round h ->
    header_digest h' = header_digest h) as Hh.
  { intros h' Hin Ha Hr. destruct (Hrec h' Hin Ha) as (info & -> & _ & Hi).
    destruct Ho as [[_ ?]|(info' & [= <-] & ? & ?)]; destruct Hi as [?|[? ?]]; [lia..|congruence]. }
  intros h1 h2 [H1|H1]%elem_of_app [H2|H2]%elem_of_app Ha Hr.
  - by apply Hu.
  - apply list_elem_of_singleton in H2 as ->. by apply Hh.
  - apply list_elem_of_singleton in H1 as ->. symmetry. by apply Hh.
  - apply list_elem_of_singleton in H1 as ->, H2 as ->. done.
Qed.

Record voter_ok m : Prop := {
  vo_peer : forall tid t, v_tasks m !! tid = Some t -> author (t_header t) <> me;
  vo_phase : forall tid t h, v_tasks m !! tid = Some t -> t_phase t = Ready h \/ t_phase t = Writing h ->
    votable h;
  vo_writing : forall tid t h, v_tasks m !! tid = Some t -> t_phase t = Writing h ->
    below h (votes_table (v_node m) !! author h);
  vo_alone : forall tid1 t1 h1 tid2 t2 h2, v_tasks m !! tid1 = Some t1 -> v_tasks m !! tid2 = Some t2 ->
    t_phase t1 = Writing h1 -> t_phase t2 = Writing h2 -> author h1 = author h2 -> tid1 = tid2;
  vo_issued : forall h, h ∈ v_issued m ->
    votable h /\ recorded h (votes_table (v_node m) !! author h);
  vo_unique : unique_votes (v_issued m);
  vo_results : forall tid t res v, v_tasks m !! tid = Some t -> t_phase t = Finishing res ->
    v ∈ response_votes res -> voted (v_issued m) v;
  vo_cache : cache_ok (voted (v_issued m)) (auth_last_vote (v_node m));
  vo_sent : forall v, v ∈ v_sent m -> voted (v_issued m) v
}.

Lemma voted_app l l' v : voted l v -> voted (l ++ l') v.
Proof. intros (h & a & Hh & Ha). exists h, a. split; [by apply elem_of_app; left|done]. Qed.

(** What a new phase must satisfy. *)
Definition phase_ok (issued : list Header) (p : Phase) : Prop :=
  match p with
  | Validating => True
  | Ready h => votable h
  | Writing _ => False
  | Finishing res => forall v, v ∈ response_votes res -> voted issued v
  end.

(** A step that does not start to write: the table keeps what it says of the
    other tasks and of the votes. *)
Lemma quiet_step m n tid t l : voter_ok m -> author (t_header t) <> me ->
  phase_ok (v_issued m ++ l) (t_phase t) ->
  cache_ok (voted (v_issued m)) (auth_last_vote n) ->
  (forall tid' t' h, tid' <> tid -> v_tasks m !! tid' = Some t' -> t_phase t' = Writing h ->
     votes_table n !! author h = votes_table (v_node m) !! author h) ->
  (forall h, h ∈ v_issued m ++ l -> votable h /\ recorded h (votes_table n !! author h)) ->
  unique_votes (v_issued m ++ l) ->
  voter_ok (with_task n tid t (v_issued m ++ l) m).
Proof.
  intros [H0 H1 H2 H3 H4 H4' H5 H6 H7] Hme Hp Hcache Hw Hiss Hu. split; simpl.
  - intros tid' t' [[<- <-]|[_ Ht]]%lookup_insert_Some; [done|by eapply H0].
  - intros tid' t' h [[<- <-]|[_ Ht]]%lookup_insert_Some; [|by eapply H1].
    intros [Hph|Hph]; by rewrite Hph in Hp.
  - intros tid' t' h [[<- <-]|[Hne Ht]]%lookup_insert_Some Hph; [by rewrite Hph in Hp|].
    rewrite (Hw tid' t'); [|by intros ->|done|done]. by eapply H2.
  - intros tid1 t1 h1 tid2 t2 h2 [[<- <-]|[_ Ht1]]%lookup_insert_Some [[<- <-]|[_ Ht2]]%lookup_insert_Some Hp1 Hp2;
      [done|by rewrite Hp1 in Hp|by rewrite Hp2 in Hp|by eapply H3].
  - done.
  - done.
  - intros tid' t' res v [[<- <-]|[_ Ht]]%lookup_insert_Some Hph Hv; [rewrite Hph in Hp; by apply Hp|].
    apply voted_app. by eapply H5.
  - intros a e r d v Hv. apply voted_app. by eapply Hcache.
  - intros v Hv. apply voted_app. by apply H7.
Qed.

(** The common case: nothing changes in the tables. *)
Lemma still_step m n tid t : voter_ok m -> author (t_header t) <> me -> phase_ok (v_issued m) (t_phase t) ->
  cache_ok (voted (v_issued m)) (auth_last_vote n) -> votes_table n = votes_table (v_node m) ->
  voter_ok (with_task n tid t (v_issued m) m).
Proof.
  intros Hok Hme Hp Hc Hv. pose proof (quiet_step m n tid t [] Hok Hme) as Hq. rewrite app_nil_r in Hq.
  apply Hq; [done|done|by rewrite Hv|rewrite Hv; apply vo_issued, Hok|apply vo_unique, Hok].
Qed.

(** A task ends, or all of them, or none. *)
Lemma remove_step m n tasks l : voter_ok m -> votes_table n = votes_table (v_node m) -> tasks ⊆ v_tasks m ->
  cache_ok (voted (v_issued m)) (auth_last_vote n) -> (forall v, v ∈ l -> voted (v_issued m) v) ->
  voter_ok {| v_node := n; v_tasks := tasks; v_issued := v_issued m; v_sent := v_sent m ++ l |}.
Proof.
  intros [H0 H1 H2 H3 H4 H4' H5 H6 H7] Hn Hs Hc Hl. split; simpl; rewrite ?Hn; intros; eauto using lookup_weaken.
  match goal with Hin : _ ∈ _ ++ _ |- _ => apply elem_of_app in Hin as [?|?]; auto end.
Qed.

(** The write of a vote. *)
Lemma write_step m n tid t h a : voter_ok m -> v_tasks m !! tid = Some t -> t_phase t = Writing h ->
  authority_id config = Some a ->
  votes_table n = <[author h := vote_info (sign_vote config h a)]> (votes_table (v_node m)) ->
  auth_last_vote n = auth_last_vote (v_node m) ->
  voter_ok (with_task n tid (set_phase t (Finishing (inl (VoteResponse (sign_vote config h a))))) (v_issued m ++ [h]) m).
Proof.
  intros Hok Ht Hp Hid Hn Hc. pose proof (vo_phase _ Hok _ _ _ Ht (or_intror Hp)) as Hh.
  pose proof (vo_writing _ Hok _ _ _ Ht Hp) as Hbelow. pose proof (ho_epoch _ _ _ (proj1 Hh)) as He.
  apply quiet_step; [done|exact (vo_peer _ Hok _ _ Ht)| |rewrite Hc; apply Hok| | |]; rewrite ?Hn.
  - simpl. intros v ->%list_elem_of_singleton. exists h, a. split; [set_solver|done].
  - intros tid' t' h' Hne Ht' Hp'. rewrite lookup_insert_ne; [done|]. intros Ha. apply Hne.
    by eapply (vo_alone _ Hok).
  - intros h' [Hin|Hin]%elem_of_app.
    + destruct (vo_issued _ Hok h' Hin) as [Hh' (info & Hi & Hie & Hir)]. split; [done|].
      destruct (decide (author h = author h')) as [Ha|Ha]; [|rewrite lookup_insert_ne by done; by exists info].
      rewrite Ha, lookup_insert_eq. rewrite Ha, Hi in Hbelow. destruct Hbelow as [_ Hlt].
      eexists. split; [done|]. simpl. split; [done|]. left. lia.
    + apply list_elem_of_singleton in Hin as ->. split; [done|]. rewrite lookup_insert_eq.
      eexists. split; [done|]. simpl. split; [done|]. by right.
  - eapply unique_add; [apply Hok| |left; exact Hbelow]. intros h' Hin <-. by apply (vo_issued _ Hok).
Qed.

(** The read lets the write begin. *)
Lemma begin_write m tid t h : voter_ok m -> v_tasks m !! tid = Some t -> t_phase t = Ready h ->
  below h (votes_table (v_node m) !! author h) ->
  (forall tid' t' h', v_tasks m !! tid' = Some t' -> t_phase t' = Writing h' -> author h' <> author h) ->
  voter_ok (with_task (v_node m) tid (set_phase t (Writing h)) (v_issued m) m).
Proof.
  intros [H0 H1 H2 H3 H4 H4' H5 H6 H7] Ht Hp Hb Hser. split; simpl; try done.
  - intros tid' t' [[<- <-]|[_ Ht']]%lookup_insert_Some; [exact (H0 _ _ Ht)|by eapply H0].
  - intros tid' t' h' [[<- <-]|[_ Ht']]%lookup_insert_Some; [|by eapply H1].
    intros [?|[= <-]]; [done|]. eapply H1; [exact Ht|by left].
  - intros tid' t' h' [[<- <-]|[_ Ht']]%lookup_insert_Some Hp'; [by injection Hp' as <-|by eapply H2].
  - intros tid1 t1 h1 tid2 t2 h2 [[<- <-]|[_ Ht1]]%lookup_insert_Some [[<- <-]|[_ Ht2]]%lookup_insert_Some Hp1 Hp2 Ha.
    + done.
    + injection Hp1 as <-. by destruct (Hser _ _ _ Ht2 Hp2).
    + injection Hp2 as <-. by destruct (Hser _ _ _ Ht1 Hp1).
    + by eapply H3.
  - intros tid' t' res v [[<- <-]|[_ Ht']]%lookup_insert_Some Hp' Hv; [done|by eapply H5].
Qed.

Definition vote_event_ok (ev : VoteEvent) : Prop :=
  match ev with
  | Request _ _ peer _ _ => key_hash peer <> me
  | Prepare _ env => env_ok U env
  | _ => True
  end.

Lemma vote_read_ok read_ok h s n r : votable h -> vote_read config read_ok h s = (n, r) -> n = s /\
  match r with
  | Ret None => below h (votes_table s !! author h)
  | Ret (Some v) => recorded h (votes_table s !! author h) /\
      (exists info, votes_table s !! author h = Some info /\ round h = vi_round info /\
         header_digest h = vi_digest info) /\
      exists a, authority_id config = Some a /\ v = sign_vote config h a
  | Err _ => True
  | _ => False
  end.
Proof.
  intros Hh. pose proof (ho_epoch _ _ _ (proj1 Hh)) as He. unfold vote_read.
  destruct (authority_id config) as [a|]; [|by intros [= <- <-]].
  destruct read_ok; cbn [negb]; [|by intros [= <- <-]].
  destruct (votes_table s !! author h) as [info|]; [|by intros [= <- <-]].
  destruct (Z.eqb_spec (epoch h) (vi_epoch info)) as [Hie|]; [|by intros [= <- <-]]. cbn [negb].
  destruct (Z.ltb_spec (round h) (vi_round info)); [by intros [= <- <-]|].
  destruct (Z.eqb_spec (round h) (vi_round info)) as [Hr|Hr].
  - simpl. destruct (Z.eqb_spec (header_digest h) (vi_digest info)) as [Hd|]; [|by intros [= <- <-]].
    intros [= <- <-]. split; [done|]. split_and!; [|by exists info|by exists a].
    exists info. split_and!; [done|congruence|by right].
  - intros [= <- <-]. split; [done|]. split; [congruence|lia].
Qed.

Lemma no_votes issued (res : PrimaryResponse + PrimaryNetworkError) : response_votes res = [] ->
  phase_ok issued (Finishing res).
Proof. intros Hn v. rewrite Hn. by intros ?%elem_of_nil. Qed.

Lemma read_step m m' tid read_ok : voter_ok m -> reads_alone tid m = true ->
  vote_step config (ReadVote tid read_ok) m = Some m' -> voter_ok m'.
Proof.
  intros Hok Hser. cbn [vote_step]. unfold reads_alone in Hser.
  destruct (v_tasks m !! tid) as [t|] eqn:Ht; [|done]. destruct t as [h0 ps [|h| |]] eqn:Hte; try done. subst t.
  assert (votable h) as Hh by (eapply (vo_phase _ Hok); [exact Ht|by left]).
  destruct (vote_read config read_ok h (v_node m)) as [n r] eqn:Hr. apply vote_read_ok in Hr as [-> Hr]; [|done].
  destruct r as [[v|]|e| |]; try done; intros [= <-].
  - destruct Hr as (Hrec & Hlatest & a & Hid & ->).
    apply quiet_step; [done|exact (vo_peer _ Hok _ _ Ht)| |apply Hok|done| |].
    + simpl. intros w ->%list_elem_of_singleton. exists h, a. split; [set_solver|done].
    + intros h' [Hin|Hin]%elem_of_app; [by apply (vo_issued _ Hok)|]. apply list_elem_of_singleton in Hin as ->. done.
    + eapply unique_add; [apply Hok| |right; exact Hlatest]. intros h' Hin <-. by apply (vo_issued _ Hok).
  - eapply begin_write; [done|exact Ht|done|done|]. intros tid' t' h' Ht' Hp' Ha.
    rewrite forallb_forall in Hser. specialize (Hser (tid', t')). apply elem_of_map_to_list, list_elem_of_In in Ht'.
    apply Hser in Ht'. unfold writing_author in Ht'. simpl in Ht'. rewrite Hp', Ha in Ht'.
    by rewrite bool_decide_eq_true_2 in Ht'.
  - apply still_step; [done|exact (vo_peer _ Hok _ _ Ht)|by apply no_votes|apply Hok|done].
Qed.

Lemma vote_start_author now peer h ps s n : vote_start config now peer h ps s = (n, None) ->
  key_hash peer = author h.
Proof using committee_ok.
  unfold vote_start. destruct (committee_authority _ (author h)) as [a|] eqn:Ha; [|done].
  destruct (Z.eqb_spec (key_hash peer) (id a)) as [->|]; [|done]. intros _.
  by apply (authority_member _ committee_ok) in Ha as [<- _].
Qed.

Lemma vote_step_ok ev m m' : voter_ok m -> vote_event_ok ev ->
  match ev with ReadVote tid _ => reads_alone tid m = true | _ => True end ->
  vote_step config ev m = Some m' -> voter_ok m'.
Proof using committee_ok genesis_found.
  intros Hok Hev Hser. destruct ev as [tid now peer h ps|tid env|tid read_ok|tid|tid now|tid|cm|];
    [| |by apply read_step| | | | |]; cbn [vote_step].
  - destruct (v_tasks m !! tid); [done|].
    destruct (vote_start config now peer h ps (v_node m)) as [n a] eqn:Hs. pose proof Hs as Hauth.
    apply (vote_start_ok config (voted (v_issued m))) in Hs as (Hv & Hc & Ha); [|apply Hok].
    destruct a as [res|]; intros [= <-]; [apply remove_step; try done; by intros v; apply Ha|].
    apply vote_start_author in Hauth. simpl in Hev. apply still_step; try done. simpl. congruence.
  - destruct (v_tasks m !! tid) as [[h ps [| | |]]|] eqn:Ht; try done. simpl.
    destruct (vote_prepare_keeps config env h ps (v_node m)) as [Hk Hc]. pose proof (vo_peer _ Hok _ _ Ht) as Hme.
    destruct (vote_prepare config env h ps (v_node m)) as [n [[missing|h1]|e| |]] eqn:Hp; try done; simpl in Hk, Hc;
      intros [= <-]; apply still_step; try done; try (by apply no_votes); try (rewrite Hc; apply Hok).
    eapply (vote_prepare_ok config U env h ps) in Hp as [? Ha]; [|done|done]. split; [done|]. by rewrite Ha.
  - destruct (v_tasks m !! tid) as [t|] eqn:Ht; [|done]. destruct t as [h0 ps [| |h|]] eqn:Hte; try done. subst t.
    pose proof (vo_peer _ Hok _ _ Ht) as Hme.
    unfold vote_write. destruct (authority_id config) as [a|] eqn:Hid;
      [|intros [= <-]; apply still_step; [done|done|by apply no_votes|apply Hok|done]].
    destruct (store_fatal _); intros [= <-]; [apply still_step; [done|done|by apply no_votes|apply Hok|done]|].
    by eapply write_step.
  - destruct (v_tasks m !! tid) as [[h ps [| | |res]]|] eqn:Ht; try done. simpl.
    destruct (vote_finish now h res (v_node m)) as [n [[]|e| |]] eqn:Hf; try done. intros [= <-].
    assert (forall v, v ∈ response_votes res -> voted (v_issued m) v) as Hres
      by (intros v Hv; by eapply (vo_results _ Hok)).
    apply (vote_finish_ok (voted (v_issued m))) in Hf as [Hv Hc]; [|done|apply Hok].
    apply remove_step; [done|done|apply delete_subseteq|done|done].
  - destruct (v_tasks m !! tid) as [[h ps [| | |]]|]; try done. intros [= <-].
    rewrite <- (app_nil_r (v_sent m)). apply remove_step; [done|done|apply delete_subseteq| |by intros v ?%elem_of_nil].
    eapply cache_ok_sub; [apply guard_drop_subseteq|apply Hok].
  - intros [= <-]. rewrite <- (app_nil_r (v_sent m)).
    apply remove_step; [done|done|done|apply Hok|by intros v ?%elem_of_nil].
  - intros [= <-]. rewrite <- (app_nil_r (v_sent m)).
    apply remove_step; [done|done|apply map_empty_subseteq| |by intros v ?%elem_of_nil].
    intros a e r d v. simpl. by rewrite lookup_empty.
Qed.

Lemma vote_run_ok evs m m' : voter_ok m -> Forall vote_event_ok evs -> serial config evs m = true ->
  vote_run config evs m = Some m' -> voter_ok m'.
Proof using committee_ok genesis_found.
  revert m. induction evs as [|ev evs IH]; intros m Hok Hev Hser; simpl; [by intros [= <-]|].
  apply Forall_cons in Hev as [He Hev]. simpl in Hser. apply andb_true_iff in Hser as [Hs Hser].
  destruct (vote_step config ev m) as [m1|] eqn:H1; [|done]. simpl. apply IH; [|done|done].
  eapply vote_step_ok; [done|done| |exact H1]. by destruct ev.
Qed.

End voter.

(** A node that starts in an epoch with whatever votes it has in its tables. *)
Definition voter_start (n : RequestHandler) : Voter := {| v_node := n; v_tasks := ∅; v_issued := []; v_sent := [] |}.

Lemma voter_start_ok `{!Crypto} config U me n : auth_last_vote n = ∅ -> voter_ok config U me (voter_start n).
Proof.
  intros Hn. split; simpl; try (intros *; rewrite ?lookup_empty; done); 
    [by intros h ?%elem_of_nil|by intros h1 h2 ?%elem_of_nil| |by intros h ?%elem_of_nil].
  intros a e r d v. by rewrite Hn, lookup_empty.
Qed.

(** C3: whatever the interleaving of vote requests, repetitions, cancellations
    and restarts, a node votes for at most one header of an author in a round,
    and for headers of others that it has validated only: those of its epoch, of
    round 1 on, whose parents are certificates of the round before, not younger,
    by distinct authors who are a quorum. Every vote it sends, from the cache
    too, is one of these. The reads and writes of the table of votes for one
    author must not overlap. *)
Theorem one_vote_per_round `{!Crypto} {it : HashIter} config U me n evs m :
  committee_wf (mc_committee (vc_manager config)) -> genesis_ok config U -> auth_last_vote n = ∅ ->
  Forall (vote_event_ok U me) evs -> serial config evs (voter_start n) = true ->
  vote_run config evs (voter_start n) = Some m ->
  (forall v, v ∈ v_sent m -> voted config (v_issued m) v) /\
  (forall h, h ∈ v_issued m -> votable config U me h) /\
  unique_votes (v_issued m).
Proof.
  intros Hc Hg Hn Hev Hser Hrun.
  pose proof (vote_run_ok config U me Hc Hg evs _ _ (voter_start_ok config U me n Hn) Hev Hser Hrun) as Hok.
  split; [apply Hok|]. split; [intros h Hh; by apply (vo_issued _ _ _ _ Hok)|apply Hok].
Qed.

(** ** What the votes give to consensus *)

(** What a member of the committee signs: the headers of others it voted for,
    and its own, which are validated by its proposer and one per round. *)
Record member_run `{!Crypto} {it : HashIter} (c : Committee) (U : Certificate -> Prop) (i : AuthorityIdentifier)
    (own : list Header) (m : Voter) : Prop := {
  mr_run : exists config n evs, mc_committee (vc_manager config) = c /\ genesis_ok config U /\
    auth_last_vote n = ∅ /\ Forall (vote_event_ok U i) evs /\ serial config evs (voter_start n) = true /\
    vote_run config evs (voter_start n) = Some m /\ Forall (header_ok config U) own;
  mr_author : Forall (fun h : Header => author h = i) own;
  mr_own : unique_votes own
}.

Definition signed (c : Committee) (own : AuthorityIdentifier -> list Header) (final : AuthorityIdentifier -> Voter)
    (i : AuthorityIdentifier) (h : HeaderFields) : Prop :=
  is_Some (committee_authority c i) /\
  exists h' : Header, (h' ∈ v_issued (final i) \/ h' ∈ own i) /\ fields h' = h.

Section network.
Context `{!Crypto} {it : HashIter} (c : Committee) (U : Certificate -> Prop).
Context (Hwf : committee_wf c) (Hpos : 0 < total_power c) (Hunit : unit_powers c).
Context (F : gset AuthorityIdentifier) (HF : stake_of c F <= max_faulty c).
Context (own : AuthorityIdentifier -> list Header) (final : AuthorityIdentifier -> Voter).
Hypothesis members : forall i, i ∉ F -> is_Some (committee_authority c i) ->
  member_run c U i (own i) (final i).
Hypothesis sound : unforgeable c (fun i => i ∉ F) (signed c own final).

(** Each signed header is valid, and determined by its author and round. *)
Lemma signed_ok i : i ∉ F -> is_Some (committee_authority c i) ->
  exists config, mc_committee (vc_manager config) = c /\
  (forall h, h ∈ v_issued (final i) \/ h ∈ own i -> header_ok config U h) /\
  unique_votes (v_issued (final i) ++ own i).
Proof using Hwf members.
  intros Hi Hm. destruct (members i Hi Hm) as [(config & n & evs & Hc & Hg & Hn & Hev & Hser & Hrun & Hown) Ha Hu].
  pose proof Hwf as Hwf'. rewrite <- Hc in Hwf'.
  pose proof (vote_run_ok config U i Hwf' Hg evs _ _ (voter_start_ok config U i n Hn) Hev Hser Hrun) as Hok.
  rewrite Forall_forall in Hown, Ha. exists config. split; [done|]. split.
  - intros h [Hh|Hh]; [by apply (vo_issued _ _ _ _ Hok) in Hh as [[? _] _]|auto].
  - intros h1 h2 [H1|H1]%elem_of_app [H2|H2]%elem_of_app Hauth Hr.
    + by apply (vo_unique _ _ _ _ Hok).
    + apply (vo_issued _ _ _ _ Hok) in H1 as [[_ Hne] _]. apply Ha in H2. congruence.
    + apply (vo_issued _ _ _ _ Hok) in H2 as [[_ Hne] _]. apply Ha in H1. congruence.
    + by apply Hu.
Qed.

Lemma honest_votes_once : votes_once (fun i => i ∉ F) (signed c own final).
Proof using Hwf members.
  intros i h1 h2 Hi [Hm (x1 & H1 & <-)] [_ (x2 & H2 & <-)] Ha Hr _.
  destruct (signed_ok i Hi Hm) as (config & _ & Hok & Hu).
  rewrite <- (ho_digest _ _ _ (Hok x1 H1)), <- (ho_digest _ _ _ (Hok x2 H2)).
  by apply Hu; [apply elem_of_app| apply elem_of_app| |].
Qed.

(** A certified header was validated by an honest node. *)
Lemma certified_header x ks : quorum_signed c x ks ->
  exists ps, list_to_set (digest <$> ps) = cert_parents x /\ NoDup (origin <$> ps) /\
    Forall (fun p => cert_epoch p = cert_epoch x /\ cert_round p + 1 = cert_round x /\ U p) ps /\
    quorum_threshold c <= stake_of c (list_to_set (origin <$> ps)).
Proof using Hwf Hpos Hunit HF members sound.
  intros Hq. destruct (signers_spec c Hwf ks Hunit) as (_ & Hs & Hm); [apply Hq|apply Hq|].
  destruct (quorums_share_honest c (list_to_set (signers c ks)) (list_to_set (signers c ks)) Hwf Hpos)
    as [_ Hshare]; [rewrite Hs; apply Hq|rewrite Hs; apply Hq|].
  destruct (Hshare F HF) as (i & Hi & _ & HiF). rewrite elem_of_list_to_set in Hi.
  apply Hm in Hi as (a & Ha & Hk). destruct (qs_signature _ _ _ Hq) as (sig & _ & Hv).
  rewrite (qs_digest _ _ _ Hq) in Hv. destruct (sound _ _ _ _ _ Hv Ha Hk HiF) as [Hmem (h & Hh & Hf)].
  destruct (signed_ok i HiF Hmem) as (config & Hc & Hok & _).
  destruct (Hok h Hh) as [_ _ _ (ps & Hps & Hnd & Hall & Hst)].
  rewrite Hc in Hst. rewrite Hf in Hps, Hall. exists ps. split_and!; [done|done| |done].
  eapply Forall_impl; [exact Hall|]. simpl. intros p (? & ? & _ & ?). done.
Qed.

(** A certificate in play that was accepted. *)
Definition certified (x : Certificate) : Prop := U x /\ exists ks, quorum_signed c x ks.

Hypothesis collision_free : forall x y, U x -> U y -> digest x = digest y -> cert_equiv x y.

Lemma certified_unique x y : certified x -> certified y -> cert_round x = cert_round y -> origin x = origin y ->
  cert_equiv x y.
Proof using Hwf Hpos Hunit HF members collision_free sound.
  intros [HUx (ks1 & Hq1)] [HUy (ks2 & Hq2)] Hr Ho. apply collision_free; [done|done|].
  eapply (quorum_signed_unique c Hwf F (signed c own final));
    [done|done|done|done|apply honest_votes_once|exact Hq1|exact Hq2|done|done].
Qed.

(** The certificate that a parent digest stands for. *)
Lemma certified_parent x y : certified x -> U y -> digest y ∈ cert_parents x -> cert_round x = cert_round y + 1.
Proof using Hwf Hpos Hunit HF members collision_free sound.
  intros [_ (ks & Hq)] HUy Hy. destruct (certified_header x ks Hq) as (ps & Hps & _ & Hall & _).
  rewrite <- Hps, elem_of_list_to_set, list_elem_of_fmap in Hy. destruct Hy as (p & Hd & Hp).
  rewrite Forall_forall in Hall. destruct (Hall p Hp) as (_ & Hr & HUp).
  destruct (collision_free y p HUy HUp Hd) as [_ Hf]. unfold cert_round, round in *. rewrite Hf. lia.
Qed.

Lemma certified_quorum_parents gc d : (forall x, in_dag d x -> certified x) -> dag_closed gc d ->
  quorum_parents c gc d.
Proof using Hwf Hpos Hunit HF members collision_free sound.
  intros Hd Hcl x Hx Hr. destruct (Hd x Hx) as [_ (ks & Hq)].
  destruct (certified_header x ks Hq) as (ps & Hps & Hnd & Hall & Hst).
  exists (list_to_set (origin <$> ps)). split; [done|].
  intros a (p & -> & Hp)%elem_of_list_to_set%list_elem_of_fmap.
  rewrite Forall_forall in Hall. destruct (Hall p Hp) as (_ & Hpr & HUp).
  assert (digest p ∈ cert_parents x) as Hin by (rewrite <- Hps; set_solver).
  destruct (Hcl x _ Hx Hr Hin) as (y & Hy & Hyr & Hdy). exists y.
  destruct (Hd y Hy) as [HUy _]. destruct (collision_free y p HUy HUp Hdy) as [_ Hf].
  split; [split_and!; [done|done|by rewrite Hdy]|]. unfold origin, author. by rewrite Hf.
Qed.

End network.


(** ** Examples *)

(** Four members vote on the headers of round 1, and on one of round 2 whose
    parents are three of them. Their digests do not collide with others. *)
Definition round1_header (a : Z) : Header := example_header a 1 [1; 2; 3; 4].
Definition round2_header : Header := example_header 1 2 [1001; 1002; 1003].
Definition voted_headers : list Header := [round1_header 1; round1_header 2; round1_header 3; round1_header 4; round2_header].

Definition vote_crypto : Crypto := {|
  header_hash := fun h =>
    if bool_decide (h ∈ fields <$> voted_headers) || bool_decide (h ∈ (fun a => fields (example_header a 0 [])) <$> [1; 2; 3; 4])
    then round h * 1000 + author h
    else 5000000;
  key_hash := fun k => k;
  verify_secure := fun sig d k => sig =? d * 100 + k;
  aggregate := fun sigs => Some (zsum sigs);
  verify_aggregate := fun sig d ks => bool_decide (d ∈ [1001; 1002; 1003; 1004; 2001]);
  default_signature := 0
|}.

Definition genesis_certs : list Certificate := (fun a => example_cert a 0 []) <$> [1; 2; 3; 4].
Definition round1_certs : list Certificate := (fun a => example_cert a 1 [1; 2; 3; 4]) <$> [1; 2; 3; 4].
Definition round2_cert : Certificate := example_cert 1 2 [1001; 1002; 1003].
Definition certs_in_play (x : Certificate) : Prop := x ∈ genesis_certs ++ round1_certs ++ [round2_cert].

Definition vote_config (i : AuthorityIdentifier) : VoteConfig := {|
  vc_manager := {| mc_committee := example_committee;
                   mc_genesis := list_to_map ((fun x => (digest (H := vote_crypto) x, x)) <$> genesis_certs);
                   mc_gc_depth := 50; max_diff := 100 |};
  max_proposed_header_age_limit := 50; max_header_time_drift_tolerance := 1; authority_id := Some i;
  request_signature_direct := fun d => d * 100 + i |}.

Definition vote_store : CertTables := save_all (H := vote_crypto) round1_certs empty_tables.

Definition vote_node : RequestHandler := {|
  requested_parents := ∅; auth_last_vote := ∅; votes_table := ∅; last_proposed_by_authority := ∅;
  payload_table := ∅; state_sync := CertificateManager_new 50 0 0 0 vote_store 0 true None |}.

Definition vote_env : VoteEnv := {|
  ve_committed_round := 0; ve_recent_block := fun _ => None; ve_primary_round := 1; ve_leader_round := 0;
  ve_active_cvv := true; ve_store := vote_store; ve_fetched := ∅; ve_fetch_error := SyncBatches;
  ve_vote_read := true; ve_now := 10 |}.

(** One request from start to end. *)
Definition request_events (tid : Z) (h : Header) : list VoteEvent :=
  [Request tid (tid * 1000) (author h) h []; Prepare tid vote_env; ReadVote tid true; WriteVote tid; Finish tid (tid * 1000)].

Definition vote_events (i : Z) : list VoteEvent :=
  concat (imap (fun k h => request_events (Z.of_nat k) h) (List.filter (fun h : Header => negb (author h =? i)) voted_headers)).

Definition example_voter (i : Z) : Voter :=
  default (voter_start vote_node) (vote_run (H := vote_crypto) (it := example_iter) (vote_config i) (vote_events i) (voter_start vote_node)).

(** A header with its digest computed. *)
Definition sealed (h : Header) : Header :=
  {| fields := fields h; digest_cell := Some (header_hash (Crypto := vote_crypto) h) |}.

Definition own_headers (i : Z) : list Header := sealed <$> List.filter (fun h : Header => author h =? i) voted_headers.

#[export] Instance certs_in_play_dec x : Decision (certs_in_play x).
Proof. unfold certs_in_play. apply _. Defined.

Lemma example_genesis_ok i : genesis_ok (H := vote_crypto) (vote_config i) certs_in_play.
Proof.
  apply (bool_decide_unpack (map_Forall (fun d p => digest (H := vote_crypto) p = d /\ certs_in_play p)
    (mc_genesis (vc_manager (vote_config 0))))). vm_compute. exact I.
Qed.

Lemma example_env_ok : env_ok (H := vote_crypto) certs_in_play vote_env.
Proof.
  apply (bool_decide_unpack (map_Forall (fun d p => digest (H := vote_crypto) p = d /\ certs_in_play p)
    (certificates vote_store))). vm_compute. exact I.
Qed.

Lemma request_events_ok i k (h : Header) : author h <> i ->
  Forall (vote_event_ok (H := vote_crypto) certs_in_play i) (request_events k h).
Proof.
  intros Ha. apply Forall_cons. split; [exact Ha|]. apply Forall_cons. split; [apply example_env_ok|].
  by repeat constructor.
Qed.

Lemma vote_events_ok i : Forall (vote_event_ok (H := vote_crypto) certs_in_play i) (vote_events i).
Proof.
  unfold vote_events. apply Forall_concat, Forall_forall. intros evs (k & h & -> & Hh)%elem_of_lookup_imap.
  apply request_events_ok. apply list_elem_of_lookup_2, list_elem_of_In, filter_In in Hh as [_ Hh].
  apply negb_true_iff, Z.eqb_neq in Hh. exact Hh.
Qed.

Lemma one_vote_per_round_witness :
  length (v_issued (example_voter 2)) = 4%nat /\ length (v_sent (example_voter 2)) = 4%nat /\
  unique_votes (H := vote_crypto) (v_issued (example_voter 2)).
Proof.
  split; [vm_compute; reflexivity|]. split; [vm_compute; reflexivity|].
  apply (one_vote_per_round (H := vote_crypto) (it := example_iter) (vote_config 2) certs_in_play 2 vote_node
    (vote_events 2) (example_voter 2)).
  - apply example_committee_wf.
  - apply example_genesis_ok.
  - reflexivity.
  - apply vote_events_ok.
  - vm_compute. reflexivity.
  - vm_compute. reflexivity.
Defined.

(** An honest member validates its own headers as it does those of others. *)
Lemma own_header_ok i h : match vote_prepare (H := vote_crypto) (it := example_iter) (vote_config i) vote_env h [] vote_node with
    | (_, Ret (inr h')) => h' = sealed h
    | _ => False
    end ->
  header_ok (H := vote_crypto) (vote_config i) certs_in_play (sealed h).
Proof.
  destruct (vote_prepare _ _ _ _ _) as [s [[l|h']|e| |]] eqn:Hp; try done. intros ->.
  by destruct (vote_prepare_ok (H := vote_crypto) (it := example_iter) (vote_config i) certs_in_play vote_env h [] vote_node
    s (sealed h) (example_genesis_ok i) example_env_ok Hp).
Qed.

Lemma example_member i : i = 1 \/ i = 2 \/ i = 3 ->
  member_run (H := vote_crypto) (it := example_iter) example_committee certs_in_play i (own_headers i) (example_voter i).
Proof.
  intros Hi. split.
  - exists (vote_config i), vote_node, (vote_events i). split_and!.
    + reflexivity.
    + apply example_genesis_ok.
    + reflexivity.
    + apply vote_events_ok.
    + destruct Hi as [->|[->| ->]]; vm_compute; reflexivity.
    + destruct Hi as [->|[->| ->]]; vm_compute; reflexivity.
    + destruct Hi as [->|[->| ->]]; repeat (apply Forall_cons; split; [apply own_header_ok; vm_compute; reflexivity|]);
        apply Forall_nil_2.
  - destruct Hi as [->|[->| ->]]; repeat constructor.
  - assert (Forall (fun h1 : Header => Forall (fun h2 : Header => author h1 = author h2 -> round h1 = round h2 ->
      header_digest (H := vote_crypto) h1 = header_digest (H := vote_crypto) h2) (own_headers i)) (own_headers i)) as Hall.
    { destruct Hi as [->|[->| ->]]; apply (bool_decide_unpack _); vm_compute; exact I. }
    intros h1 h2 H1 H2. rewrite Forall_forall in Hall. specialize (Hall h1 H1). rewrite Forall_forall in Hall. by apply Hall.
Qed.

Definition example_votes_dag : Dag :=
  {[1 := list_to_map ((fun a => (a, (1000 + a, example_cert a 1 [1; 2; 3; 4]))) <$> [1; 2; 3]);
    2 := {[1 := (2001, round2_cert)]}]}.

Lemma example_members_cases i : is_Some (committee_authority example_committee i) -> i = 1 \/ i = 2 \/ i = 3 \/ i = 4.
Proof.
  intros [a Ha]. assert (i ∈ dom (authorities_by_id example_committee)) as Hd by (apply elem_of_dom; by exists a).
  assert (dom (authorities_by_id example_committee) = {[1; 2; 3; 4]}) as Heq
    by (apply (bool_decide_unpack _); vm_compute; exact I).
  rewrite Heq in Hd. set_solver.
Qed.

Lemma vote_hash_voted h : bool_decide (header_hash (Crypto := vote_crypto) h ∈ [1001; 1002; 1003; 1004; 2001]) = true ->
  h ∈ fields <$> voted_headers.
Proof.
  intros Hv. destruct (decide (h ∈ fields <$> voted_headers)) as [|Hn]; [done|exfalso].
  destruct (decide (h ∈ (fun a => fields (example_header a 0 [])) <$> [1; 2; 3; 4])) as [Hg|Hg].
  - rewrite !fmap_cons in Hg. repeat (apply elem_of_cons in Hg as [->|Hg]; [by vm_compute in Hv|]). by apply elem_of_nil in Hg.
  - simpl in Hv. rewrite (bool_decide_eq_false_2 _ Hn), (bool_decide_eq_false_2 _ Hg) in Hv. by vm_compute in Hv.
Qed.

Lemma example_unforgeable : unforgeable (H := vote_crypto) example_committee (fun i => i ∉ ({[4]} : gset Z))
  (signed example_committee own_headers example_voter).
Proof.
  intros sig h ks i a Hv Ha _ Hi. split; [by exists a|].
  assert (i = 1 \/ i = 2 \/ i = 3) as Hi' by (destruct (example_members_cases i) as [?|[?|[?|?]]]; [by exists a|set_solver..]).
  assert (h ∈ fields <$> voted_headers) as Hh by (by apply vote_hash_voted).
  assert (Forall (fun h0 => Exists (fun h' : Header => fields h' = h0) (v_issued (example_voter i) ++ own_headers i))
    (fields <$> voted_headers)) as Hall.
  { destruct Hi' as [->|[->| ->]]; apply (bool_decide_unpack _); vm_compute; exact I. }
  rewrite Forall_forall in Hall. specialize (Hall h Hh). apply Exists_exists in Hall as (h' & Hin & Hf).
  exists h'. split; [by apply elem_of_app|done].
Qed.

Lemma example_collision_free x y : certs_in_play x -> certs_in_play y ->
  digest (H := vote_crypto) x = digest (H := vote_crypto) y -> cert_equiv (H := vote_crypto) x y.
Proof.
  intros Hx Hy Hd. split; [done|]. assert (Forall (fun x => Forall (fun y =>
    digest (H := vote_crypto) x = digest (H := vote_crypto) y -> fields (header x) = fields (header y))
    (genesis_certs ++ round1_certs ++ [round2_cert])) (genesis_certs ++ round1_certs ++ [round2_cert])) as Hall.
  { apply (bool_decide_unpack _). vm_compute. exact I. }
  rewrite Forall_forall in Hall. specialize (Hall x Hx). rewrite Forall_forall in Hall. by apply Hall.
Qed.

Lemma example_certified x : x ∈ round1_certs ++ [round2_cert] ->
  certified (H := vote_crypto) example_committee certs_in_play x.
Proof.
  intros Hx. split; [by apply elem_of_app; right|]. exists [1; 2; 3].
  assert (forall (P : Certificate -> Prop) (HP : forall x, Decision (P x)),
    bool_decide (Forall P (round1_certs ++ [round2_cert])) = true -> P x) as Hdec.
  { intros P HP Hall%bool_decide_eq_true_1. rewrite Forall_forall in Hall. by apply Hall. }
  split.
  - apply (Hdec (fun x => cert_epoch x = committee_epoch example_committee) _). vm_compute. reflexivity.
  - apply (Hdec (fun x => digest (H := vote_crypto) x = header_hash (Crypto := vote_crypto) (header x)) _). vm_compute. reflexivity.
  - apply (Hdec (fun x => Z.of_nat (size (parents (header x))) <= committee_size example_committee) _). vm_compute. reflexivity.
  - apply (Hdec (fun x => is_Some (committee_authority example_committee (origin x))) _). vm_compute. reflexivity.
  - apply (bool_decide_unpack (_ /\ _)). vm_compute. exact I.
  - vm_compute. discriminate.
  - exists 0. apply (Hdec (fun x => signature_verification_state x = VerifiedDirectly 0 /\
      verify_aggregate (Crypto := vote_crypto) 0 (digest (H := vote_crypto) x) [1; 2; 3] = true) _). vm_compute. reflexivity.
Qed.

Lemma example_votes_in_dag x : in_dag (H := vote_crypto) example_votes_dag x -> x ∈ round1_certs ++ [round2_cert].
Proof.
  intros Hx. unfold in_dag in Hx.
  assert (Forall (fun e : Z * Certificate => e.2 ∈ round1_certs ++ [round2_cert]) (dag_entries example_votes_dag)) as Hall.
  { apply (bool_decide_unpack _). vm_compute. exact I. }
  rewrite Forall_forall in Hall. apply (Hall (digest (H := vote_crypto) x, x)). apply elem_of_dag_entries. eauto.
Qed.


(** Two headers of one author and round. *)
Definition conflicting_crypto : Crypto := {|
  header_hash := fun h => created_at h * 1000000 + round h * 1000 + author h;
  key_hash := fun k => k;
  verify_secure := fun sig d k => sig =? d * 100 + k;
  aggregate := fun sigs => Some (zsum sigs);
  verify_aggregate := fun sig d ks => sig =? zsum ((fun k => d * 100 + k) <$> ks);
  default_signature := 0
|}.

Definition conflicting_header (t : TimestampSec) : Header :=
  {| fields := {| author := 1; round := 1; epoch := 0; created_at := t; payload := [];
                  parents := {[1; 2; 3; 4]}; latest_execution_block := {| bnh_number := 0; bnh_hash := 0 |} |};
     digest_cell := None |}.

(** A second request after the time to live of the first, which is not over. *)
Definition overlapping_events : list VoteEvent :=
  [Request 0 0 1 (conflicting_header 1) []; Request 1 16000 1 (conflicting_header 2) [];
   Prepare 0 vote_env; Prepare 1 vote_env; ReadVote 0 true; ReadVote 1 true; WriteVote 0; WriteVote 1].

(** the table of votes is read and written without a lock. When the
    in-flight entry of a slow request has expired, a second request for another
    header of the same author and round is processed beside it, and if both
    read the table before one of them writes, the node votes for both. *)
Theorem overlapping_votes_equivocate :
  exists (m : Voter) (h1 h2 : Header), vote_run (H := conflicting_crypto) (it := example_iter) (vote_config 2) overlapping_events
    (voter_start vote_node) = Some m /\
    h1 ∈ v_issued m /\ h2 ∈ v_issued m /\ author h1 = author h2 /\ round h1 = round h2 /\
    header_digest (H := conflicting_crypto) h1 <> header_digest (H := conflicting_crypto) h2.
Proof.
  pose (h t := {| fields := fields (conflicting_header t); digest_cell := Some (t * 1000000 + 1001) |}).
  assert (v_issued <$> vote_run (H := conflicting_crypto) (it := example_iter) (vote_config 2) overlapping_events
    (voter_start vote_node) = Some [h 1; h 2]) as (m & Hrun & Hm)%fmap_Some by (vm_compute; reflexivity).
  exists m, (h 1), (h 2). rewrite <- Hm. split_and!; [done|left|right; left|done|done|by vm_compute].
Qed.
