(* ===== verification/Proposer.v ===== *)
(** * The proposer

    [crates/consensus/primary/src/proposer/*.rs] with [proposer_store.rs]: when
    a primary proposes its next header, with which parents and batches, and what
    becomes of the batches of headers that are not committed. *)
From S2P Require Import Prelude State Types Committee Certificates LeaderSchedule.
From stdpp Require Import strings.

#[local] Open Scope Z_scope.

Definition PENDING_BACKPRESSURE_THRESHOLD : Z := 5000.
Definition EXECUTION_LAG_THRESHOLD : Z := 100.
Definition FALLBACK_REQUEUE_GRACE_ROUNDS : Round := 4.

(** Delays in milliseconds. *)
Definition BACKPRESSURE_DELAY : Z := 1000.
Definition EXECUTION_BACKPRESSURE_DELAY : Z := 500.

Inductive ProposerError :=
  | OneshotChannelClosed
  | CertifierSender
  | StoreError (e : string)
  | OldTimestamp (now last : Z).

(** [ProposerDigest]: the digest of a batch and its worker. *)
Abbreviation ProposerDigest := (Z * Z)%type (only parsing).

Record ProposerConfig := {
  pc_authority_id : AuthorityIdentifier;
  pc_committee : Committee;
  header_num_of_batches_threshold : nat;
  max_header_num_of_batches : nat;
  min_header_delay : Z;
  max_header_delay : Z;
  pc_gc_depth : Round
}.

(** The task that makes a header, and its result in the one-shot channel. *)
Inductive PendingTask :=
  | ProposeHeader (current_round : Round) (current_epoch : Epoch) (parents : list Certificate)
      (digests : list ProposerDigest)
  | ReproposeHeader (h : Header)
  | HeaderResult (res : Header + ProposerError).

(** The proposer with the variables of its loop, the next ticks of its
    intervals, the row [LastProposed] of the store, what it sent to the
    certifier, and whether the certifier receives. *)
Record Proposer := {
  p_round : Round;
  last_round_timestamp : option Z;
  last_parents : list Certificate;
  last_leader : option Certificate;
  digests_queue : list ProposerDigest;
  proposed_headers : gmap Z Header;
  advance_round : bool;
  opt_latest_header : option Header;
  p_schedule : LeaderSchedule;
  primary_round_updates : Round;
  min_deadline : Z;
  max_deadline : Z;
  pending_header : option PendingTask;
  max_delay_timed_out : bool;
  min_delay_timed_out : bool;
  throttle_until : option Z;
  last_proposed : option Header;
  headers_sent : list Header;
  certifier_open : bool
}.

Definition with_round (x0 : Round) (x1 : Round) (s : Proposer) : Proposer :=
  {| p_round := x0; last_round_timestamp := last_round_timestamp s; last_parents := last_parents s;
     last_leader := last_leader s; digests_queue := digests_queue s;
     proposed_headers := proposed_headers s; advance_round := advance_round s;
     opt_latest_header := opt_latest_header s; p_schedule := p_schedule s;
     primary_round_updates := x1; min_deadline := min_deadline s; max_deadline := max_deadline s;
     pending_header := pending_header s; max_delay_timed_out := max_delay_timed_out s;
     min_delay_timed_out := min_delay_timed_out s; throttle_until := throttle_until s;
     last_proposed := last_proposed s; headers_sent := headers_sent s;
     certifier_open := certifier_open s |}.
Definition with_timestamp (x0 : option Z) (s : Proposer) : Proposer :=
  {| p_round := p_round s; last_round_timestamp := x0; last_parents := last_parents s;
     last_leader := last_leader s; digests_queue := digests_queue s;
     proposed_headers := proposed_headers s; advance_round := advance_round s;
     opt_latest_header := opt_latest_header s; p_schedule := p_schedule s;
     primary_round_updates := primary_round_updates s; min_deadline := min_deadline s;
     max_deadline := max_deadline s; pending_header := pending_header s;
     max_delay_timed_out := max_delay_timed_out s; min_delay_timed_out := min_delay_timed_out s;
     throttle_until := throttle_until s; last_proposed := last_proposed s;
     headers_sent := headers_sent s; certifier_open := certifier_open s |}.
Definition with_last_parents (x0 : list Certificate) (s : Proposer) : Proposer :=
  {| p_round := p_round s; last_round_timestamp := last_round_timestamp s; last_parents := x0;
     last_leader := last_leader s; digests_queue := digests_queue s;
     proposed_headers := proposed_headers s; advance_round := advance_round s;
     opt_latest_header := opt_latest_header s; p_schedule := p_schedule s;
     primary_round_updates := primary_round_updates s; min_deadline := min_deadline s;
     max_deadline := max_deadline s; pending_header := pending_header s;
     max_delay_timed_out := max_delay_timed_out s; min_delay_timed_out := min_delay_timed_out s;
     throttle_until := throttle_until s; last_proposed := last_proposed s;
     headers_sent := headers_sent s; certifier_open := certifier_open s |}.
Definition with_leader (x0 : option Certificate) (s : Proposer) : Proposer :=
  {| p_round := p_round s; last_round_timestamp := last_round_timestamp s;
     last_parents := last_parents s; last_leader := x0; digests_queue := digests_queue s;
     proposed_headers := proposed_headers s; advance_round := advance_round s;
     opt_latest_header := opt_latest_header s; p_schedule := p_schedule s;
     primary_round_updates := primary_round_updates s; min_deadline := min_deadline s;
     max_deadline := max_deadline s; pending_header := pending_header s;
     max_delay_timed_out := max_delay_timed_out s; min_delay_timed_out := min_delay_timed_out s;
     throttle_until := throttle_until s; last_proposed := last_proposed s;
     headers_sent := headers_sent s; certifier_open := certifier_open s |}.
Definition with_digests (x0 : list ProposerDigest) (s : Proposer) : Proposer :=
  {| p_round := p_round s; last_round_timestamp := last_round_timestamp s;
     last_parents := last_parents s; last_leader := last_leader s; digests_queue := x0;
     proposed_headers := proposed_headers s; advance_round := advance_round s;
     opt_latest_header := opt_latest_header s; p_schedule := p_schedule s;
     primary_round_updates := primary_round_updates s; min_deadline := min_deadline s;
     max_deadline := max_deadline s; pending_header := pending_header s;
     max_delay_timed_out := max_delay_timed_out s; min_delay_timed_out := min_delay_timed_out s;
     throttle_until := throttle_until s; last_proposed := last_proposed s;
     headers_sent := headers_sent s; certifier_open := certifier_open s |}.
Definition with_proposed (x0 : gmap Z Header) (x1 : list ProposerDigest) (s : Proposer) : Proposer :=
  {| p_round := p_round s; last_round_timestamp := last_round_timestamp s;
     last_parents := last_parents s; last_leader := last_leader s; digests_queue := x1;
     proposed_headers := x0; advance_round := advance_round s;
     opt_latest_header := opt_latest_header s; p_schedule := p_schedule s;
     primary_round_updates := primary_round_updates s; min_deadline := min_deadline s;
     max_deadline := max_deadline s; pending_header := pending_header s;
     max_delay_timed_out := max_delay_timed_out s; min_delay_timed_out := min_delay_timed_out s;
     throttle_until := throttle_until s; last_proposed := last_proposed s;
     headers_sent := headers_sent s; certifier_open := certifier_open s |}.
Definition with_advance (x0 : bool) (s : Proposer) : Proposer :=
  {| p_round := p_round s; last_round_timestamp := last_round_timestamp s;
     last_parents := last_parents s; last_leader := last_leader s; digests_queue := digests_queue s;
     proposed_headers := proposed_headers s; advance_round := x0;
     opt_latest_header := opt_latest_header s; p_schedule := p_schedule s;
     primary_round_updates := primary_round_updates s; min_deadline := min_deadline s;
     max_deadline := max_deadline s; pending_header := pending_header s;
     max_delay_timed_out := max_delay_timed_out s; min_delay_timed_out := min_delay_timed_out s;
     throttle_until := throttle_until s; last_proposed := last_proposed s;
     headers_sent := headers_sent s; certifier_open := certifier_open s |}.
Definition with_latest (x0 : option Header) (s : Proposer) : Proposer :=
  {| p_round := p_round s; last_round_timestamp := last_round_timestamp s;
     last_parents := last_parents s; last_leader := last_leader s; digests_queue := digests_queue s;
     proposed_headers := proposed_headers s; advance_round := advance_round s;
     opt_latest_header := x0; p_schedule := p_schedule s;
     primary_round_updates := primary_round_updates s; min_deadline := min_deadline s;
     max_deadline := max_deadline s; pending_header := pending_header s;
     max_delay_timed_out := max_delay_timed_out s; min_delay_timed_out := min_delay_timed_out s;
     throttle_until := throttle_until s; last_proposed := last_proposed s;
     headers_sent := headers_sent s; certifier_open := certifier_open s |}.
Definition with_schedule (x0 : LeaderSchedule) (s : Proposer) : Proposer :=
  {| p_round := p_round s; last_round_timestamp := last_round_timestamp s;
     last_parents := last_parents s; last_leader := last_leader s; digests_queue := digests_queue s;
     proposed_headers := proposed_headers s; advance_round := advance_round s;
     opt_latest_header := opt_latest_header s; p_schedule := x0;
     primary_round_updates := primary_round_updates s; min_deadline := min_deadline s;
     max_deadline := max_deadline s; pending_header := pending_header s;
     max_delay_timed_out := max_delay_timed_out s; min_delay_timed_out := min_delay_timed_out s;
     throttle_until := throttle_until s; last_proposed := last_proposed s;
     headers_sent := headers_sent s; certifier_open := certifier_open s |}.
Definition with_deadlines (x0 : Z) (x1 : Z) (s : Proposer) : Proposer :=
  {| p_round := p_round s; last_round_timestamp := last_round_timestamp s;
     last_parents := last_parents s; last_leader := last_leader s; digests_queue := digests_queue s;
     proposed_headers := proposed_headers s; advance_round := advance_round s;
     opt_latest_header := opt_latest_header s; p_schedule := p_schedule s;
     primary_round_updates := primary_round_updates s; min_deadline := x0; max_deadline := x1;
     pending_header := pending_header s; max_delay_timed_out := max_delay_timed_out s;
     min_delay_timed_out := min_delay_timed_out s; throttle_until := throttle_until s;
     last_proposed := last_proposed s; headers_sent := headers_sent s;
     certifier_open := certifier_open s |}.
Definition with_task (x0 : option PendingTask) (s : Proposer) : Proposer :=
  {| p_round := p_round s; last_round_timestamp := last_round_timestamp s;
     last_parents := last_parents s; last_leader := last_leader s; digests_queue := digests_queue s;
     proposed_headers := proposed_headers s; advance_round := advance_round s;
     opt_latest_header := opt_latest_header s; p_schedule := p_schedule s;
     primary_round_updates := primary_round_updates s; min_deadline := min_deadline s;
     max_deadline := max_deadline s; pending_header := x0; max_delay_timed_out := max_delay_timed_out s;
     min_delay_timed_out := min_delay_timed_out s; throttle_until := throttle_until s;
     last_proposed := last_proposed s; headers_sent := headers_sent s;
     certifier_open := certifier_open s |}.
Definition with_timeouts (x0 : bool) (x1 : bool) (s : Proposer) : Proposer :=
  {| p_round := p_round s; last_round_timestamp := last_round_timestamp s;
     last_parents := last_parents s; last_leader := last_leader s; digests_queue := digests_queue s;
     proposed_headers := proposed_headers s; advance_round := advance_round s;
     opt_latest_header := opt_latest_header s; p_schedule := p_schedule s;
     primary_round_updates := primary_round_updates s; min_deadline := min_deadline s;
     max_deadline := max_deadline s; pending_header := pending_header s; max_delay_timed_out := x0;
     min_delay_timed_out := x1; throttle_until := throttle_until s;
     last_proposed := last_proposed s; headers_sent := headers_sent s;
     certifier_open := certifier_open s |}.
Definition with_throttle (x0 : option Z) (s : Proposer) : Proposer :=
  {| p_round := p_round s; last_round_timestamp := last_round_timestamp s;
     last_parents := last_parents s; last_leader := last_leader s; digests_queue := digests_queue s;
     proposed_headers := proposed_headers s; advance_round := advance_round s;
     opt_latest_header := opt_latest_header s; p_schedule := p_schedule s;
     primary_round_updates := primary_round_updates s; min_deadline := min_deadline s;
     max_deadline := max_deadline s; pending_header := pending_header s;
     max_delay_timed_out := max_delay_timed_out s; min_delay_timed_out := min_delay_timed_out s;
     throttle_until := x0; last_proposed := last_proposed s; headers_sent := headers_sent s;
     certifier_open := certifier_open s |}.
Definition with_store (x0 : option Header) (x1 : list Header) (s : Proposer) : Proposer :=
  {| p_round := p_round s; last_round_timestamp := last_round_timestamp s;
     last_parents := last_parents s; last_leader := last_leader s; digests_queue := digests_queue s;
     proposed_headers := proposed_headers s; advance_round := advance_round s;
     opt_latest_header := opt_latest_header s; p_schedule := p_schedule s;
     primary_round_updates := primary_round_updates s; min_deadline := min_deadline s;
     max_deadline := max_deadline s; pending_header := pending_header s;
     max_delay_timed_out := max_delay_timed_out s; min_delay_timed_out := min_delay_timed_out s;
     throttle_until := throttle_until s; last_proposed := x0; headers_sent := x1;
     certifier_open := certifier_open s |}.
Definition with_certifier (x0 : bool) (s : Proposer) : Proposer :=
  {| p_round := p_round s; last_round_timestamp := last_round_timestamp s;
     last_parents := last_parents s; last_leader := last_leader s; digests_queue := digests_queue s;
     proposed_headers := proposed_headers s; advance_round := advance_round s;
     opt_latest_header := opt_latest_header s; p_schedule := p_schedule s;
     primary_round_updates := primary_round_updates s; min_deadline := min_deadline s;
     max_deadline := max_deadline s; pending_header := pending_header s;
     max_delay_timed_out := max_delay_timed_out s; min_delay_timed_out := min_delay_timed_out s;
     throttle_until := throttle_until s; last_proposed := last_proposed s; headers_sent := headers_sent s;
     certifier_open := x0 |}.

(** What a turn of the loop reads: the clocks (in milliseconds), the suspended
    certificates, the leader round of the last executed output, the committed
    round, the error of a failed database and the shutdown signal. *)
Record ProposerEnv := {
  pe_instant : Z;
  pe_now_millis : Z;
  pe_suspended : Z;
  pe_executed_round : Round;
  pe_committed_round : Round;
  pe_store_fatal : option string;
  pe_noticed : bool
}.

(** What the task of a header reads: the clock at its start and after a sleep of
    so many seconds, the latest executed block, and the error of a failed
    database. *)
Record TaskEnv := {
  te_now : TimestampSec;
  te_after : Z -> TimestampSec;
  te_latest_block : BlockNumHash;
  te_store_fatal : option string
}.

Section proposer.
Context `{!Crypto} {rng : Rng} (config : ProposerConfig).

Abbreviation M := (ST Proposer ProposerError).

Definition pure {A} (r : Exec ProposerError A) : M A := fun s => (s, r).

(** ** Rounds *)

Definition calc_max_delay (s : Proposer) : Exec ProposerError Z :=
  next ← uadd u32_max (p_round s) 1;
  if next mod 2 =? 0 then
    l ← leader (p_schedule s) next;
    Ret (if id l =? pc_authority_id config then max_header_delay config / 2 else max_header_delay config)
  else Ret (max_header_delay config).

Definition calc_min_delay (s : Proposer) : Exec ProposerError Z :=
  next ← uadd u32_max (p_round s) 1;
  if next mod 2 =? 0 then
    l ← leader (p_schedule s) next;
    Ret (if id l =? pc_authority_id config then 0 else min_header_delay config)
  else Ret 0.

Definition update_leader : M bool :=
  l ← (fun s => (s, leader (p_schedule s) (p_round s)));
  _ ← modify (fun s => with_leader (List.find (fun x => origin x =? id l) (last_parents s)) s);
  gets (fun s => bool_decide (is_Some (last_leader s))).

(** The stake for and against the leader among the parents. *)
Fixpoint count_votes (l : CertificateDigest) (ps : list Certificate) (votes no_votes : VotingPower) :
    Exec ProposerError (VotingPower * VotingPower) :=
  match ps with
  | [] => Ret (votes, no_votes)
  | p :: ps' =>
      let stake := voting_power_by_id (pc_committee config) (origin p) in
      if bool_decide (l ∈ cert_parents p)
      then v ← uadd u64_max votes stake; count_votes l ps' v no_votes
      else n ← uadd u64_max no_votes stake; count_votes l ps' votes n
  end.

Definition enough_votes (s : Proposer) : Exec ProposerError bool :=
  next ← uadd u32_max (p_round s) 1;
  l ← leader (p_schedule s) next;
  if id l =? pc_authority_id config then Ret true
  else match last_leader s with
  | None => Ret true
  | Some x =>
      r ← count_votes (digest x) (last_parents s) 0 0;
      Ret ((validity_threshold (pc_committee config) <=? r.1) || (quorum_threshold (pc_committee config) <=? r.2))
  end.

Definition ready : M bool := fun s =>
  if p_round s mod 2 =? 0 then update_leader s else (s, enough_votes s).

(** The stake of parents, with repetitions. *)
Definition total_stake (ps : list Certificate) : Exec ProposerError VotingPower :=
  usum u64_max 0 ((fun p => voting_power_by_id (pc_committee config) (origin p)) <$> ps).

(** [max_delay_interval.reset_after(..)], [min_delay_interval.reset_after(..)]
    and [min_delay_interval.reset_immediately()]. *)
Definition reset_max (env : ProposerEnv) : M unit :=
  d ← (fun s => (s, calc_max_delay s)); modify (fun s => with_deadlines (min_deadline s) (pe_instant env + d) s).
Definition reset_min (env : ProposerEnv) : M unit :=
  d ← (fun s => (s, calc_min_delay s)); modify (fun s => with_deadlines (pe_instant env + d) (max_deadline s) s).
Definition min_immediately (env : ProposerEnv) : M unit :=
  modify (fun s => with_deadlines (pe_instant env) (max_deadline s) s).

(** The match of [process_parents] on the order of the rounds. *)
Definition take_parents (env : ProposerEnv) (ps : list Certificate) (r : Round) : M unit :=
  current ← gets p_round;
  if current <? r then
    stake ← pure (total_stake ps);
    if quorum_threshold (pc_committee config) <=? stake then
      _ ← modify (with_round r r);
      _ ← modify (with_last_parents ps);
      _ ← modify (with_advance false);
      _ ← reset_max env; min_immediately env
    else mret tt
  else if r <? current then mret tt
  else
    _ ← modify (fun s => with_last_parents (last_parents s ++ ps) s);
    d ← (fun s => (s, calc_min_delay s));
    if d =? 0 then min_immediately env else mret tt.

Definition process_parents (env : ProposerEnv) (ps : list Certificate) (r : Round) : M unit :=
  _ ← take_parents env ps r;
  b ← ready;
  modify (with_advance b).

(** ** Batches *)

Definition push_digest (d : ProposerDigest) : M unit := modify (fun s => with_digests (digests_queue s ++ [d]) s).

(** The payloads of headers ahead of the queue. *)
Definition requeue_front (hs : list Header) (queue : list ProposerDigest) : list ProposerDigest :=
  concat ((fun h : Header => payload h) <$> hs) ++ queue.

(** Headers of rounds up to [gc_round] leave, and their digests return. *)
Definition evict_old_proposed_headers (committed : Round) : M unit := modify (fun s =>
  match checked_sub committed (pc_gc_depth config) with
  | None => s
  | Some gc_round =>
      if gc_round =? 0 then s
      else
        let next := sat_add u32_max gc_round 1 in
        let evicted := btree_values (retain_keys (fun r => r <? next) (proposed_headers s)) in
        with_proposed (retain_keys (fun r => next <=? r) (proposed_headers s))
          (requeue_front evicted (digests_queue s)) s
  end).

(** The rounds above which headers can still be committed. *)
Definition commit_horizon (commit_round : Round) (rounds : list Round) : Round :=
  match rounds with
  | [] => sat_sub commit_round FALLBACK_REQUEUE_GRACE_ROUNDS
  | r :: rs => foldl Z.max r rs
  end.

Definition process_committed_headers (commit_round : Round) (rounds : list Round) : M unit := modify (fun s =>
  let remaining := foldl (fun m r => base.delete r m) (proposed_headers s) rounds in
  let horizon := commit_horizon commit_round rounds in
  let retransmitted := btree_values (retain_keys (fun r => r <? horizon) remaining) in
  with_proposed (retain_keys (fun r => horizon <=? r) remaining)
    (requeue_front retransmitted (digests_queue s)) s).

(** ** Headers *)

(** [IndexMap::insert] and [collect]: a repeated key keeps its first position
    and takes the last value. *)
Fixpoint index_insert (d : ProposerDigest) (l : list ProposerDigest) : list ProposerDigest :=
  match l with
  | [] => [d]
  | e :: l' => if e.1 =? d.1 then (e.1, d.2) :: l' else e :: index_insert d l'
  end.
Definition index_collect (ds : list ProposerDigest) : list ProposerDigest :=
  foldl (fun l d => index_insert d l) [] ds.

(** [Header::new] *)
Definition Header_new (a : AuthorityIdentifier) (r : Round) (e : Epoch) (now : TimestampSec)
    (p : list ProposerDigest) (ps : gset CertificateDigest) (block : BlockNumHash) : Header :=
  let f := {| author := a; round := r; epoch := e; created_at := now; payload := p; parents := ps;
              latest_execution_block := block |} in
  {| fields := f; digest_cell := Some (header_hash f) |}.

(** The header is stored, then sent to the certifier. *)
Definition store_and_send_header (env : TaskEnv) (h : Header) (s : Proposer) : Proposer * (Header + ProposerError) :=
  match te_store_fatal env with
  | Some e => (s, inr (StoreError e))
  | None =>
      if certifier_open s then (with_store (Some h) (headers_sent s ++ [h]) s, inl h)
      else (with_store (Some h) (headers_sent s) s, inr CertifierSender)
  end.

(** The greatest [created_at] of the parents. *)
Definition latest_parent (ps : list Certificate) : TimestampSec :=
  match ps with
  | [] => 0
  | p :: ps' => foldl (fun m q => Z.max m (created_at (header q))) (created_at (header p)) ps'
  end.

Definition propose_header (env : TaskEnv) (r : Round) (e : Epoch) (ps : list Certificate)
    (ds : list ProposerDigest) : Proposer -> Proposer * (Header + ProposerError) :=
  let wait := if te_now env <? latest_parent ps then latest_parent ps - te_now env else 0 in
  store_and_send_header env
    (Header_new (pc_authority_id config) r e (te_after env wait) (index_collect ds)
      (list_to_set (digest <$> ps)) (te_latest_block env)).

Definition repropose_header (env : TaskEnv) (h : Header) : Proposer -> Proposer * (Header + ProposerError) :=
  store_and_send_header env h.

(** The spawned task runs and answers. *)
Definition run_task (env : TaskEnv) (s : Proposer) : option Proposer :=
  let answer '(s1, res) := with_task (Some (HeaderResult res)) s1 in
  match pending_header s with
  | Some (ProposeHeader r e ps ds) => Some (answer (propose_header env r e ps ds s))
  | Some (ReproposeHeader h) => Some (answer (repropose_header env h s))
  | _ => None
  end.

(** [proposer_store.get_last_proposed()] *)
Definition get_last_proposed (env : ProposerEnv) (s : Proposer) : Exec ProposerError (option Header) :=
  match pe_store_fatal env with Some e => Err (StoreError e) | None => Ret (last_proposed s) end.

(** The branch of [propose_next_header] that builds a header; the schedule is
    only read for the label of a metric. *)
Definition propose_new (next : Round) : M unit :=
  ds ← gets digests_queue;
  let n := Nat.min (length ds) (max_header_num_of_batches config) in
  _ ← modify (with_digests (drop n ds));
  ps ← gets last_parents;
  _ ← modify (with_last_parents []);
  _ ← (fun s => (s, leader (p_schedule s) (if next mod 2 =? 0 then next else next - 1)));
  modify (with_task (Some (ProposeHeader next (committee_epoch (pc_committee config)) ps (take n ds)))).

Definition propose_next_header (env : ProposerEnv) : M unit :=
  r ← gets p_round;
  next ← pure (uadd u32_max r 1);
  _ ← modify (with_round next next);
  t ← gets last_round_timestamp;
  _ ← (match t with
       | Some last => if pe_now_millis env <? last then throw (OldTimestamp (pe_now_millis env) last) else mret tt
       | None => mret tt
       end);
  _ ← modify (with_timestamp (Some (pe_now_millis env)));
  stored ← (fun s => (s, get_last_proposed env s));
  match stored : option Header with
  | Some h =>
      if (round h =? next) && (epoch h =? committee_epoch (pc_committee config)) then
        _ ← modify (with_last_parents []);
        modify (with_task (Some (ReproposeHeader h)))
      else propose_new next
  | None => propose_new next
  end.

Definition handle_proposal_result (env : ProposerEnv) (res : Header + ProposerError) : M unit :=
  match res with
  | inr e => throw e
  | inl h =>
      _ ← modify (with_latest (Some h));
      _ ← modify (with_advance false);
      _ ← reset_min env;
      _ ← reset_max env;
      _ ← modify (fun s => with_proposed (<[round h := h]> (proposed_headers s)) (digests_queue s) s);
      evict_old_proposed_headers (pe_committed_round env)
  end.

(** ** The loop *)

Definition last_proposed_is_stale (self_round : Round) (self_epoch : Epoch) (header_round : Round)
    (header_epoch : Epoch) : bool :=
  negb (header_epoch =? self_epoch) || (header_round <? self_round).

Definition execution_lag (env : ProposerEnv) (s : Proposer) : option Round :=
  if pe_executed_round env + EXECUTION_LAG_THRESHOLD <? p_round s then Some (pe_executed_round env) else None.

(** What the [select!] of [run] takes, the closed one-shot channel of an aborted
    task included. *)
Inductive Selected :=
  | Shutdown
  | OurDigest (d : ProposerDigest)
  | Parents (ps : list Certificate) (r : Round)
  | CommittedOwnHeaders (commit_round : Round) (rounds : list Round)
  | PendingHeader
  | TaskAborted
  | MaxDelayTick
  | MinDelayTick.

(** Whether a branch of the [select!] can be taken. *)
Definition selectable (env : ProposerEnv) (sel : Selected) (s : Proposer) : bool :=
  match sel with
  | PendingHeader => match pending_header s with Some (HeaderResult _) => true | _ => false end
  | TaskAborted => match pending_header s with Some (HeaderResult _) | None => false | _ => true end
  | MaxDelayTick => max_deadline s <=? pe_instant env
  | MinDelayTick => min_deadline s <=? pe_instant env
  | _ => true
  end.

(** The result of the task; the loop goes on or, at shutdown, ends. *)
Definition on_result (env : ProposerEnv) (res : Header + ProposerError) : M bool := fun s =>
  match handle_proposal_result env res (with_task None s) with
  | (s1, Err e) => (s1, if pe_noticed env then Ret false else Err e)
  | (s1, Ret _) => (s1, Ret true)
  | (s1, Panic) => (s1, Panic)
  | (s1, Diverge) => (s1, Diverge)
  end.

(** The branch of the [select!]. *)
Definition on_selected (env : ProposerEnv) (sel : Selected) : M bool :=
  match sel with
  | Shutdown => mret false
  | OurDigest d => _ ← push_digest d; mret true
  | Parents ps r => _ ← process_parents env ps r; mret true
  | CommittedOwnHeaders r rounds => _ ← process_committed_headers r rounds; mret true
  | PendingHeader => fun s =>
      match pending_header s with
      | Some (HeaderResult res) => on_result env res s
      | _ => (s, Ret true)
      end
  | TaskAborted => on_result env (inr OneshotChannelClosed)
  | MaxDelayTick => _ ← modify (fun s => with_timeouts true (min_delay_timed_out s)
      (with_deadlines (min_deadline s) (max_deadline s + max_header_delay config) s)); mret true
  | MinDelayTick => _ ← modify (fun s => with_timeouts (max_delay_timed_out s) true
      (with_deadlines (min_deadline s + min_header_delay config) (max_deadline s) s)); mret true
  end.

(** An active throttle, or a new one. *)
Definition throttled (env : ProposerEnv) : M bool := fun s =>
  if match throttle_until s with Some deadline => pe_instant env <? deadline | None => false end
  then (s, Ret true)
  else
    let s := with_throttle None s in
    if PENDING_BACKPRESSURE_THRESHOLD <? pe_suspended env
    then (with_throttle (Some (pe_instant env + BACKPRESSURE_DELAY)) s, Ret true)
    else match execution_lag env s with
    | Some _ => (with_throttle (Some (pe_instant env + EXECUTION_BACKPRESSURE_DELAY)) s, Ret true)
    | None => (s, Ret false)
    end.

Definition should_create_header (s : Proposer) : bool :=
  negb (bool_decide (last_parents s = [])) &&
  (max_delay_timed_out s ||
   (advance_round s &&
    ((header_num_of_batches_threshold config <=? length (digests_queue s))%nat || min_delay_timed_out s))).

(** The resend of the last header after the maximum delay. *)
Definition repropose_after_delay (env : ProposerEnv) (s : Proposer) : Proposer :=
  match get_last_proposed env s with
  | Ret (Some h) =>
      let s := with_timeouts false false s in
      if last_proposed_is_stale (p_round s) (committee_epoch (pc_committee config)) (round h) (epoch h)
      then s else with_task (Some (ReproposeHeader h)) s
  | _ => s
  end.

(** The part of a turn after the [select!]. *)
Definition try_propose (env : ProposerEnv) : M unit :=
  b ← throttled env;
  if b : bool then mret tt
  else fun s =>
    match pending_header s with
    | Some _ => (s, Ret tt)
    | None =>
        if should_create_header s then
          (_ ← propose_next_header env; modify (with_timeouts false false)) s
        else if max_delay_timed_out s then (repropose_after_delay env s, Ret tt)
        else (s, Ret tt)
    end.

(** One turn of the loop of [run]: [true] to go on. *)
Definition turn (env : ProposerEnv) (sel : Selected) : M bool :=
  b ← on_selected env sel;
  if b : bool then _ ← try_propose env; mret true else mret false.

(** ** Runs *)

(** The turns, the spawned task, the changes of the shared schedule by consensus
    and the end of the certifier interleave. *)
Inductive ProposerEvent :=
  | Turn (env : ProposerEnv) (sel : Selected)
  | RunTask (env : TaskEnv)
  | NewSchedule (t : LeaderSwapTable)
  | CertifierStopped.

(** [None] when the event cannot happen; a task may outlive the loop. *)
Definition proposer_step (e : ProposerEvent) (st : Proposer * Exec ProposerError bool) :
    option (Proposer * Exec ProposerError bool) :=
  let '(s, out) := st in
  match e with
  | Turn env sel =>
      match out with
      | Ret true => if selectable env sel s then Some (turn env sel s) else None
      | _ => None
      end
  | RunTask env => s1 ← run_task env s; Some (s1, out)
  | NewSchedule t => Some (with_schedule (update_leader_swap_table (p_schedule s) t) s, out)
  | CertifierStopped => Some (with_certifier false s, out)
  end.

Fixpoint proposer_run (evs : list ProposerEvent) (st : Proposer * Exec ProposerError bool) :
    option (Proposer * Exec ProposerError bool) :=
  match evs with
  | [] => Some st
  | e :: evs' => st1 ← proposer_step e st; proposer_run evs' st1
  end.

(** [Proposer::new] with the variables of [run]: [committed] is the committed
    round, [now] the clock at which the intervals first tick, [stored] the row of
    the store; [sent] is what the node sent before. *)
Definition Proposer_new (ls : LeaderSchedule) (committed : Round) (now : Z) (stored : option Header)
    (sent : list Header) : Proposer :=
  {| p_round := if 0 <? committed then committed else 0; last_round_timestamp := None;
     last_parents := if 0 <? committed then [] else genesis (pc_committee config);
     last_leader := None; digests_queue := []; proposed_headers := ∅; advance_round := true;
     opt_latest_header := None; p_schedule := ls; primary_round_updates := 0;
     min_deadline := now; max_deadline := now; pending_header := None;
     max_delay_timed_out := false; min_delay_timed_out := false; throttle_until := None;
     last_proposed := stored; headers_sent := sent; certifier_open := true |}.

End proposer.
