(* ===== verification/ProposerProps.v ===== *)
(** * The proposer: properties

    Over every interleaving of the proposer's turns, its header task and its
    environment: one header per round, on a quorum of parents, and no batch
    digest lost. *)
From S2P Require Import Prelude State Types Committee Certificates LeaderSchedule ConsensusState.
From S2P Require Import CertManager VoteHandler VoteSafety Proposer.

#[local] Open Scope Z_scope.

(** ** Steps of a computation *)

Lemma rel_bind (R : Proposer -> Proposer -> Prop) `{!PreOrder R} {A B} (m : ST Proposer ProposerError A)
    (f : A -> ST Proposer ProposerError B) s :
  R s (m s).1 -> (forall a s', m s = (s', Ret a) -> R s' (f a s').1) -> R s ((m ≫= f) s).1.
Proof.
  unfold mbind, st_bind. intros Hm Hf. destruct (m s) as [s1 [a|e| |]]; simpl in *; try done.
  etrans; [done|by apply Hf].
Qed.

(** [steps] goes through a computation step by step. *)
Ltac one_step :=
  match goal with
  | |- _ _ ((_ ≫= _) _).1 => apply rel_bind; [apply _| |first [intros ?? [= <- ?]|intros ?? _]]
  | |- _ _ (if ?b then _ else _).1 => destruct b eqn:?
  | |- _ _ ((if ?b then _ else _) _).1 => destruct b eqn:?
  | |- _ _ (match ?b with _ => _ end _).1 => destruct b eqn:?
  | |- _ _ (match ?b with _ => _ end).1 => destruct b eqn:?
  end.
Ltac record_step := repeat split; simpl; lia || done.
Ltac steps := repeat one_step; try record_step.

Section proposer.
Context `{!Crypto} {rng : Rng} (config : ProposerConfig).

Abbreviation c := (pc_committee config).
Abbreviation me := (pc_authority_id config).
Abbreviation this_epoch := (committee_epoch c).

(** ** Headers sent *)

(** What a node kept from before: the stored header is of this node, at most one
    round ahead, and no header sent in this epoch is above it or another one of
    its round. *)
Record kept (r : Round) (stored : option Header) (sent : list Header) : Prop := {
  kp_author : Forall (fun h : Header => author h = me /\ epoch h = this_epoch) sent;
  kp_unique : forall h1 h2 : Header, h1 ∈ sent -> h2 ∈ sent -> round h1 = round h2 -> h1 = h2;
  kp_stored : forall h : Header, h ∈ sent ->
    exists l : Header, stored = Some l /\ epoch l = this_epoch /\ (round h < round l \/ h = l);
  kp_last : forall l : Header, stored = Some l -> epoch l = this_epoch ->
    author l = me /\ round l <= r + 1
}.

(** The task builds a header above the stored one, or resends that. *)
Definition task_ok (s : Proposer) : Prop :=
  match pending_header s with
  | Some (ProposeHeader r e _ _) => e = this_epoch /\ r <= p_round s /\
      forall l : Header, last_proposed s = Some l -> epoch l = this_epoch -> round l < r
  | Some (ReproposeHeader h) => last_proposed s = Some h /\ epoch h = this_epoch
  | _ => True
  end.

Record sent_ok (s : Proposer) : Prop := {
  so_kept : kept (p_round s) (last_proposed s) (headers_sent s);
  so_task : task_ok s
}.

(** What most operations leave. *)
Record frame (s s' : Proposer) : Prop := {
  fr_sent : headers_sent s' = headers_sent s;
  fr_last : last_proposed s' = last_proposed s;
  fr_task : pending_header s' = pending_header s;
  fr_round : p_round s <= p_round s'
}.

#[export] Instance frame_preorder : PreOrder frame.
Proof. split; [intros s; by split|intros s t u [] []; split; [congruence..|lia]]. Qed.

Lemma kept_mono r r' stored sent : r <= r' -> kept r stored sent -> kept r' stored sent.
Proof. intros Hr [H1 H2 H3 H4]. split; [done..|]. intros l Hl He. destruct (H4 l Hl He). split; [done|lia]. Qed.

Lemma frame_ok s s' : frame s s' -> sent_ok s -> sent_ok s'.
Proof.
  intros [Hs Hl Ht Hr] [Hk Hok]. split; [rewrite Hs, Hl; by eapply kept_mono|].
  unfold task_ok in *. rewrite Ht, Hl. repeat case_match; naive_solver lia.
Qed.

(** What the operations leave that touch neither headers nor digests. *)
Record quiet (s s' : Proposer) : Prop := {
  qu_frame :> frame s s';
  qu_queue : digests_queue s' = digests_queue s;
  qu_proposed : proposed_headers s' = proposed_headers s
}.

#[export] Instance quiet_preorder : PreOrder quiet.
Proof. split; [intros s; by split|intros s t u [] []; split; [by etrans|congruence..]]. Qed.

(** ** Operations that send nothing *)

Lemma take_parents_quiet env ps r s : quiet s (take_parents config env ps r s).1.
Proof. unfold take_parents, reset_max, min_immediately. steps. Qed.

Lemma ready_quiet s : quiet s (ready config s).1.
Proof. unfold ready, update_leader. steps. Qed.

Lemma process_parents_quiet env ps r s : quiet s (process_parents config env ps r s).1.
Proof.
  unfold process_parents. apply rel_bind; [apply _|apply take_parents_quiet|]. intros ? s1 _.
  apply rel_bind; [apply _|apply ready_quiet|]. intros ? s2 _. record_step.
Qed.

Lemma throttled_quiet env s : quiet s (throttled env s).1.
Proof. unfold throttled. steps. Qed.

Lemma evict_frame r s : frame s (evict_old_proposed_headers config r s).1.
Proof. unfold evict_old_proposed_headers, modify. simpl. repeat case_match; record_step. Qed.

(** [handle_proposal_result] up to the insertion. *)
Lemma resets_quiet env (h : Header) s :
  quiet s ((_ ← modify (with_latest (Some h)); _ ← modify (with_advance false);
            _ ← reset_min config env; reset_max config env) s).1.
Proof. unfold reset_min, reset_max. steps. Qed.

Lemma handle_result_frame env res s : frame s (handle_proposal_result config env res s).1.
Proof.
  unfold handle_proposal_result, reset_min, reset_max. destruct res as [h|e]; [|done].
  steps. apply evict_frame.
Qed.

(** ** One header per round *)

(** A header above the stored one, or that again, can be stored and sent. *)
Lemma kept_store r stored sent (h : Header) : kept r stored sent ->
  author h = me -> epoch h = this_epoch -> round h <= r + 1 ->
  (forall l : Header, stored = Some l -> epoch l = this_epoch -> round l < round h \/ l = h) ->
  kept r (Some h) sent /\ kept r (Some h) (sent ++ [h]).
Proof.
  intros [Ha Hu Hs Hl] Hme He Hr Hh.
  assert (forall h' : Header, h' ∈ sent -> round h' < round h \/ h' = h) as Hb.
  { intros h' (l & Hl' & He' & Hc)%Hs. destruct (Hh l Hl' He') as [Hlt|<-]; [|done].
    left. destruct Hc as [Hc| ->]; lia. }
  split; split; try done.
  - intros h' Hin. exists h. auto.
  - intros l [= <-] _. auto.
  - apply Forall_app. auto.
  - intros h1 h2 [H1| ->%list_elem_of_singleton]%elem_of_app [H2| ->%list_elem_of_singleton]%elem_of_app Heq;
      [by apply Hu|..|done].
    + destruct (Hb _ H1); [lia|done].
    + destruct (Hb _ H2); [lia|done].
  - intros h' [Hin| ->%list_elem_of_singleton]%elem_of_app; exists h; auto.
  - intros l [= <-] _. auto.
Qed.

Lemma store_and_send_ok env (h : Header) s :
  kept (p_round s) (last_proposed s) (headers_sent s) ->
  author h = me -> epoch h = this_epoch -> round h <= p_round s + 1 ->
  (forall l : Header, last_proposed s = Some l -> epoch l = this_epoch -> round l < round h \/ l = h) ->
  sent_ok (with_task (Some (HeaderResult (store_and_send_header env h s).2)) (store_and_send_header env h s).1).
Proof.
  intros Hk Ha He Hr Hl. destruct (kept_store _ _ _ _ Hk Ha He Hr Hl).
  unfold store_and_send_header. repeat case_match; by split.
Qed.

Lemma run_task_sent env s s' : sent_ok s -> run_task config env s = Some s' -> sent_ok s'.
Proof.
  intros [Hk Ht] Hrun. unfold run_task, task_ok in *.
  destruct (pending_header s) as [[r e ps ds|h|res]|]; [| |done..].
  - destruct Ht as (-> & Hr & Hl). injection Hrun as <-. unfold propose_header.
    match goal with |- context [store_and_send_header env ?h s] =>
      pose proof (store_and_send_ok env h s) as Hs; destruct (store_and_send_header env h s) end.
    apply Hs; simpl; auto; lia.
  - destruct Ht as [Hl He]. injection Hrun as <-. unfold repropose_header.
    destruct (kp_last _ _ _ Hk h Hl He) as [Ha Hr].
    pose proof (store_and_send_ok env h s Hk Ha He Hr) as Hs. destruct (store_and_send_header env h s).
    apply Hs. intros l Hl'. right. congruence.
Qed.

Lemma drop_task_ok s : sent_ok s -> sent_ok (with_task None s).
Proof. intros [Hk _]. by split. Qed.

(** [propose_new] takes the parents and the first digests of the queue. *)
Definition taken (s : Proposer) : nat := Nat.min (length (digests_queue s)) (max_header_num_of_batches config).
Definition emptied (s : Proposer) : Proposer :=
  with_last_parents [] (with_digests (drop (taken s) (digests_queue s)) s).

Lemma propose_new_cases next s :
  (exists r, propose_new config next s = (emptied s, r) /\ r <> Ret tt) \/
  propose_new config next s = (with_task (Some (ProposeHeader next this_epoch (last_parents s)
    (take (taken s) (digests_queue s)))) (emptied s), Ret tt).
Proof.
  unfold propose_new, mbind, st_bind, gets, modify. simpl.
  match goal with |- context [leader (E := ProposerError) ?ls ?r] => destruct (leader (E := ProposerError) ls r) end;
    [by right|left; eexists; split; [reflexivity|done]..].
Qed.

(** [propose_next_header] fails after moving to the next round, resends the
    stored header of that round, or builds a new one. *)
Definition next_round (env : ProposerEnv) (s : Proposer) : Proposer :=
  with_timestamp (Some (pe_now_millis env)) (with_round (p_round s + 1) (p_round s + 1) s).

Lemma propose_next_cases env s :
  (exists s' r, propose_next_header config env s = (s', r) /\ r <> Ret tt /\ frame s s') \/
  (exists h : Header, last_proposed s = Some h /\ round h = p_round s + 1 /\ epoch h = this_epoch /\
    propose_next_header config env s =
      (with_task (Some (ReproposeHeader h)) (with_last_parents [] (next_round env s)), Ret tt)) \/
  (forall l : Header, last_proposed s = Some l -> epoch l = this_epoch -> round l <> p_round s + 1) /\
    propose_next_header config env s = propose_new config (p_round s + 1) (next_round env s).
Proof.
  remember (propose_next_header config env s) as res eqn:Hres.
  unfold propose_next_header, get_last_proposed, uadd, mbind, st_bind, gets, modify, pure, throw in Hres.
  destruct (Z.leb_spec (p_round s + 1) u32_max); simpl in Hres; [|left; by eexists s, _].
  assert (forall t, frame s (with_timestamp t (with_round (p_round s + 1) (p_round s + 1) s))
    /\ frame s (with_round (p_round s + 1) (p_round s + 1) s)) as Hf by (intros t; split; split; simpl; done || lia).
  destruct (match last_round_timestamp s with Some last => pe_now_millis env <? last | None => false end) eqn:Ht.
  { destruct (last_round_timestamp s); [|done]. rewrite Ht in Hres. left. eexists _, _. split; [done|].
    split; [done|]. apply (Hf None). }
  assert (res = match pe_store_fatal env with
    | Some e => (next_round env s, Err (StoreError e))
    | None => match last_proposed s with
        | Some h => if (round h =? p_round s + 1) && (epoch h =? this_epoch)
            then (with_task (Some (ReproposeHeader h)) (with_last_parents [] (next_round env s)), Ret tt)
            else propose_new config (p_round s + 1) (next_round env s)
        | None => propose_new config (p_round s + 1) (next_round env s)
        end
    end) as ->.
  { subst res. destruct (last_round_timestamp s); [rewrite Ht|]; simpl; (destruct (pe_store_fatal env); [done|]);
    simpl; (destruct (last_proposed s); [|done]); by destruct (_ && _). }
  destruct (pe_store_fatal env); [left; eexists _, _; split; [done|]; split; [done|apply Hf]|right].
  destruct (last_proposed s) as [h|]; [|by right].
  destruct (Z.eqb_spec (round h) (p_round s + 1)), (Z.eqb_spec (epoch h) this_epoch); simpl;
    [left; by exists h|right; split; [|done]; intros l [= <-]; done..].
Qed.

Lemma propose_next_sent env s : sent_ok s -> sent_ok (propose_next_header config env s).1.
Proof.
  intros Hs. assert (frame s (next_round env s)) as Hf by (split; simpl; done || lia).
  pose proof (frame_ok _ _ Hf Hs) as Hs1.
  destruct (propose_next_cases env s) as [(s' & r & -> & _ & Hf')|[(h & Hl & Hr & He & ->)|[Hl ->]]]; simpl.
  - by eapply frame_ok.
  - split; [apply Hs1|done].
  - destruct (propose_new_cases (p_round s + 1) (next_round env s)) as [(r & -> & _)| ->]; simpl.
    + eapply frame_ok; [|exact Hs1]. by split.
    + split; [apply Hs1|]. split; [done|]. split; [done|]. intros l Hl' He. simpl in Hl'.
      pose proof (kp_last _ _ _ (so_kept _ Hs) l Hl' He). specialize (Hl l Hl' He). lia.
Qed.

Lemma repropose_sent env s : sent_ok s -> sent_ok (repropose_after_delay config env s).
Proof.
  intros Hs. unfold repropose_after_delay, get_last_proposed, last_proposed_is_stale.
  destruct (pe_store_fatal env); [done|]. destruct (last_proposed s) as [h|] eqn:Hl; [|done].
  destruct (Z.eqb_spec (epoch h) this_epoch); simpl; [case_match|]; (split; [apply Hs|]); try apply Hs.
  split; done.
Qed.

Lemma try_propose_sent env s : sent_ok s -> sent_ok (try_propose config env s).1.
Proof.
  intros Hs. unfold try_propose, mbind at 1, st_bind at 1.
  pose proof (qu_frame _ _ (throttled_quiet env s)) as Hf. destruct (throttled env s) as [s1 [b|e| |]]; simpl in Hf;
    pose proof (frame_ok _ _ Hf Hs) as Hs1; try done.
  destruct b; [done|]. destruct (pending_header s1); [done|]. case_match; [|case_match; [by apply repropose_sent|done]].
  unfold mbind, st_bind. pose proof (propose_next_sent env s1 Hs1) as Hp.
  destruct (propose_next_header config env s1) as [s2 [a|e| |]]; [|done..].
  eapply frame_ok; [|exact Hp]. by split.
Qed.

Lemma on_result_sent env res s : sent_ok s -> sent_ok (on_result config env res s).1.
Proof.
  intros Hs. unfold on_result. pose proof (handle_result_frame env res (with_task None s)) as Hf.
  destruct (handle_proposal_result config env res (with_task None s)) as [s1 [a|e| |]]; simpl in *;
    (eapply frame_ok; [exact Hf|by apply drop_task_ok]).
Qed.

Lemma on_selected_sent env sel s : sent_ok s -> sent_ok (on_selected config env sel s).1.
Proof.
  intros Hs. destruct sel as [|d|ps r|r rounds| | | |]; simpl; try done.
  - eapply frame_ok; [|exact Hs]. by split.
  - unfold mbind, st_bind. pose proof (qu_frame _ _ (process_parents_quiet env ps r s)) as Hf.
    destruct (process_parents config env ps r s) as [s1 [a|e| |]]; by eapply frame_ok.
  - eapply frame_ok; [|exact Hs]. by split.
  - destruct (pending_header s) as [[]|]; [done|done|by apply on_result_sent|done].
  - by apply drop_task_ok.
  - eapply frame_ok; [|exact Hs]. by split.
  - eapply frame_ok; [|exact Hs]. by split.
Qed.

Lemma turn_sent env sel s : sent_ok s -> sent_ok (turn config env sel s).1.
Proof.
  intros Hs. unfold turn, mbind at 1, st_bind at 1. pose proof (on_selected_sent env sel s Hs) as Hs1.
  destruct (on_selected config env sel s) as [s1 [[]|e| |]]; simpl in *; try done.
  unfold mbind, st_bind. pose proof (try_propose_sent env s1 Hs1) as Hs2.
  by destruct (try_propose config env s1) as [s2 [a|e| |]].
Qed.

Lemma step_sent e st st' : sent_ok st.1 -> proposer_step config e st = Some st' -> sent_ok st'.1.
Proof.
  destruct st as [s out]. simpl. intros Hs Hstep. destruct e as [env sel|env|t|]; simplify_option_eq.
  - destruct out as [[]|e| |]; [|done..]. case_match; [|done]. injection Hstep as <-. by apply turn_sent.
  - by eapply run_task_sent.
  - eapply frame_ok; [|exact Hs]. by split.
  - eapply frame_ok; [|exact Hs]. by split.
Qed.

Lemma run_sent evs st st' : sent_ok st.1 -> proposer_run config evs st = Some st' -> sent_ok st'.1.
Proof.
  revert st. induction evs as [|e evs IH]; intros st Hs Hrun; [by simplify_eq/=|].
  simpl in Hrun. apply bind_Some in Hrun as (st1 & Hstep & Hrun). eapply IH, Hrun. by eapply step_sent.
Qed.

Lemma new_sent ls committed now stored sent :
  kept (Z.max 0 committed) stored sent -> sent_ok (Proposer_new config ls committed now stored sent).
Proof.
  intros Hk. split; [|done]. simpl. replace (if 0 <? committed then committed else 0) with (Z.max 0 committed); [done|].
  destruct (Z.ltb_spec 0 committed); lia.
Qed.

(** ** Batch digests *)

Definition listed (d : BlockHash) (h : Header) : Prop := d ∈ (payload h).*1.

Definition in_task (d : BlockHash) (s : Proposer) : Prop :=
  match pending_header s with
  | Some (ProposeHeader _ _ _ ds) => d ∈ ds.*1
  | Some (HeaderResult (inl h)) => listed d h
  | _ => False
  end.

(** The header could not be stored or sent: the loop ends when it sees this. *)
Definition failed (s : Proposer) : Prop := exists e, pending_header s = Some (HeaderResult (inr e)).

(** A digest is queued, in the header being made, in a header that is waiting for
    its commit, or in a sent header of a round in [comm]. *)
Definition tracked (comm : list Round) (s : Proposer) (d : BlockHash) : Prop :=
  d ∈ (digests_queue s).*1 \/ in_task d s \/
  (exists r h, proposed_headers s !! r = Some h /\ listed d h) \/
  (exists h : Header, h ∈ headers_sent s /\ round h ∈ comm /\ listed d h).

Record digests_ok (comm : list Round) (acks : list BlockHash) (s : Proposer) : Prop := {
  do_tracked : ~ failed s -> Forall (tracked comm s) acks;
  do_proposed : forall r (h : Header), proposed_headers s !! r = Some h -> round h = r /\ h ∈ headers_sent s;
  do_result : forall h, pending_header s = Some (HeaderResult (inl h)) -> h ∈ headers_sent s
}.

(** The digests acknowledged and the rounds reported committed in a run. *)
Definition acked (evs : list ProposerEvent) : list BlockHash :=
  omap (fun e => match e with Turn _ (OurDigest d) => Some d.1 | _ => None end) evs.
Definition committed_in (evs : list ProposerEvent) : list Round :=
  concat (omap (fun e => match e with Turn _ (CommittedOwnHeaders _ rs) => Some rs | _ => None end) evs).

Lemma quiet_digests comm acks s s' : quiet s s' -> digests_ok comm acks s -> digests_ok comm acks s'.
Proof.
  intros [[Hs _ Ht _] Hq Hp] [H1 H2 H3].
  split; unfold failed, tracked, in_task; rewrite ?Hs, ?Ht, ?Hq, ?Hp; done.
Qed.

Lemma tracked_comm comm comm' s d : comm ⊆ comm' -> tracked comm s d -> tracked comm' s d.
Proof. intros Hc [|[|[|(h & ? & ? & ?)]]]; [by left|by right; left|by right; right; left|]. right; right; right. eauto. Qed.

Lemma digests_comm comm comm' acks s : comm ⊆ comm' -> digests_ok comm acks s -> digests_ok comm' acks s.
Proof.
  intros Hc [H1 H2 H3]. split; [|done..]. intros Hf. eapply Forall_impl; [by apply H1|].
  intros d. by apply tracked_comm.
Qed.

Lemma listed_requeue d (hs : list Header) queue :
  d ∈ (requeue_front hs queue).*1 <-> (exists h, h ∈ hs /\ listed d h) \/ d ∈ queue.*1.
Proof.
  unfold requeue_front, listed. rewrite fmap_app, elem_of_app. f_equiv.
  induction hs as [|h hs IH]; simpl; [split; [by intros ?%elem_of_nil|by intros (? & ?%elem_of_nil & _)]|].
  fold_fmap. rewrite fmap_app, elem_of_app, IH. set_solver.
Qed.

(** Headers leave the map for the queue. *)
Lemma requeue_digests comm acks (f : Round -> bool) s : digests_ok comm acks s ->
  digests_ok comm acks
    (with_proposed (retain_keys f (proposed_headers s))
      (requeue_front (btree_values (retain_keys (fun r => negb (f r)) (proposed_headers s))) (digests_queue s)) s).
Proof.
  intros [H1 H2 H3]. split; [|simpl; intros r h [Hr _]%map_lookup_filter_Some; auto|done].
  intros Hf. eapply Forall_impl; [by apply H1|]. intros d Hd. unfold tracked in *. simpl. rewrite listed_requeue.
  destruct Hd as [|[|[(r & h & Hr & Hd)|]]]; [by left; right|by right; left| |by right; right; right].
  destruct (f r) eqn:Hfr.
  - right; right; left. exists r, h. split; [|done]. by apply map_lookup_filter_Some.
  - left; left. exists h. split; [|done]. apply elem_of_btree_values. exists r.
    apply map_lookup_filter_Some. simpl. by rewrite Hfr.
Qed.

Lemma retain_ext {A} (f g : Z -> bool) (m : gmap Z A) : (forall k, f k = g k) -> retain_keys f m = retain_keys g m.
Proof. intros Hfg. apply map_filter_ext. intros k x _. by rewrite Hfg. Qed.

Lemma evict_digests comm acks r s : digests_ok comm acks s ->
  digests_ok comm acks (evict_old_proposed_headers config r s).1.
Proof.
  intros Hs. unfold evict_old_proposed_headers, modify. simpl. repeat case_match; [done| |done].
  rewrite (retain_ext (fun k => k <? _) (fun k => negb (sat_add u32_max z 1 <=? k))); [by apply requeue_digests|].
  intros k. by rewrite Z.leb_antisym, negb_involutive.
Qed.

Lemma lookup_deletes (rs : list Round) (m : gmap Z Header) r :
  foldl (fun m r => base.delete r m) m rs !! r = if bool_decide (r ∈ rs) then None else m !! r.
Proof.
  revert m. induction rs as [|x rs IH]; intros m; simpl; [done|]. rewrite IH.
  repeat case_bool_decide; try set_solver.
  - destruct (decide (r = x)) as [->|]; [by rewrite lookup_delete_eq|set_solver].
  - rewrite lookup_delete_ne; [done|set_solver].
Qed.

Lemma committed_digests comm acks r rs s : digests_ok comm acks s ->
  digests_ok (comm ++ rs) acks (process_committed_headers r rs s).1.
Proof.
  intros Hs. unfold process_committed_headers, modify. simpl.
  set (m := foldl _ _ rs). set (s1 := with_proposed m (digests_queue s) s).
  assert (digests_ok (comm ++ rs) acks s1) as Hs1.
  { destruct Hs as [H1 H2 H3]. split; [|simpl; intros k h; unfold m; rewrite lookup_deletes; case_bool_decide; [done|auto]|done].
    intros Hf. eapply Forall_impl; [by apply H1|]. intros d Hd. unfold tracked in *. simpl.
    destruct Hd as [|[|[(k & h & Hk & Hd)|(h & ? & ? & ?)]]]; [by left|by right; left| |set_solver].
    right; right. destruct (decide (k ∈ rs)) as [Hin|Hin].
    - right. destruct (H2 k h Hk) as [<- ?]. exists h. set_solver.
    - left. exists k, h. unfold m. rewrite lookup_deletes. by case_bool_decide. }
  pose proof (requeue_digests _ _ (fun k => commit_horizon r rs <=? k) s1 Hs1) as Hr. simpl in Hr.
  rewrite (retain_ext (fun k => k <? _) (fun k => negb (commit_horizon r rs <=? k))); [done|].
  intros k. by rewrite Z.leb_antisym, negb_involutive.
Qed.

(** The new header takes its place in the map; one that is there for its round
    is the same. *)
Lemma insert_digests comm acks s s1 h : sent_ok s -> digests_ok comm acks s ->
  pending_header s = Some (HeaderResult (inl h)) -> quiet (with_task None s) s1 ->
  digests_ok comm acks (with_proposed (<[round h := h]> (proposed_headers s1)) (digests_queue s1) s1).
Proof.
  intros [Hk _] [H1 H2 H3] Hp [[Hs _ Ht _] Hq Hpr]. simpl in *.
  split; simpl; rewrite ?Hs, ?Ht, ?Hpr; [|by intros r h' [[<- <-]|[_ ?]]%lookup_insert_Some; auto|done].
  intros _. assert (~ failed s) as Hf by (intros [e He]; congruence).
  eapply Forall_impl; [by apply H1|]. intros d Hd. unfold tracked, in_task in *. simpl.
  rewrite ?Hs, ?Ht, ?Hq, ?Hpr. rewrite Hp in Hd.
  destruct Hd as [|[Hd|[(r & h' & Hr & Hd)|]]]; [by left| | |by right; right; right]; right; right; left.
  - exists (round h), h. by rewrite lookup_insert_eq.
  - destruct (H2 r h' Hr) as [Hr' Hin]. destruct (decide (r = round h)) as [->|].
    + exists (round h), h. rewrite lookup_insert_eq. by rewrite <- (kp_unique _ _ _ Hk h' h Hin (H3 h Hp) Hr').
    + exists r, h'. by rewrite lookup_insert_ne.
Qed.

Lemma handle_result_Ret env h s s' a : handle_proposal_result config env (inl h) s = (s', Ret a) ->
  exists s1, quiet s s1 /\
    s' = (evict_old_proposed_headers config (pe_committed_round env)
           (with_proposed (<[round h := h]> (proposed_headers s1)) (digests_queue s1) s1)).1.
Proof.
  unfold handle_proposal_result, reset_min, reset_max. unfold mbind, st_bind. unfold modify at 1 2. simpl.
  destruct (calc_min_delay _ _) as [d1|e| |]; [|done..]. simpl.
  destruct (calc_max_delay _ _) as [d2|e| |]; [|done..]. simpl. intros [= <- _].
  exists (with_deadlines (pe_instant env + d1) (pe_instant env + d2)
    (with_deadlines (pe_instant env + d1) (max_deadline s) (with_advance false (with_latest (Some h) s)))).
  split; [record_step|done].
Qed.

Lemma on_result_digests env comm acks res s s' : sent_ok s -> digests_ok comm acks s ->
  pending_header s = Some (HeaderResult res) -> on_result config env res s = (s', Ret true) ->
  digests_ok comm acks s'.
Proof.
  intros Hs Hd Hp Hrun. unfold on_result in Hrun. destruct res as [h|e]; [|simpl in Hrun; by case_match].
  destruct (handle_proposal_result config env (inl h) (with_task None s)) as [s1 [a|e| |]] eqn:Hh; [|by case_match|done..].
  injection Hrun as <-. apply handle_result_Ret in Hh as (s2 & Hq & ->).
  apply evict_digests. by eapply insert_digests.
Qed.

Lemma on_selected_digests env sel comm acks s s' : sent_ok s -> digests_ok comm acks s ->
  selectable env sel s = true -> on_selected config env sel s = (s', Ret true) ->
  digests_ok (comm ++ committed_in [Turn env sel]) (acks ++ acked [Turn env sel]) s'.
Proof.
  intros Hs Hd Hsel Hrun. destruct sel as [|d|ps r|r rounds| | | |];
    unfold committed_in, acked; simpl in *; rewrite ?app_nil_r.
  - done.
  - injection Hrun as <-. destruct Hd as [H1 H2 H3]. split; [|done..]. intros Hf. apply Forall_app. split.
    + eapply Forall_impl; [by apply H1|]. intros x [Hx|Hx]; [|by right]. left. simpl. rewrite fmap_app. set_solver.
    + constructor; [|done]. left. simpl. rewrite fmap_app. set_solver.
  - apply st_bind_Ret in Hrun as (a & s1 & Hp & [= <-]). eapply quiet_digests; [|done].
    pose proof (process_parents_quiet env ps r s) as Hq. by rewrite Hp in Hq.
  - injection Hrun as <-. by apply committed_digests.
  - destruct (pending_header s) as [[| |res]|] eqn:Hp; try done. by eapply on_result_digests.
  - unfold on_result in Hrun. simpl in Hrun. by destruct (pe_noticed env).
  - injection Hrun as <-. eapply quiet_digests; [|done]. record_step.
  - injection Hrun as <-. eapply quiet_digests; [|done]. record_step.
Qed.

(** A task that takes [ds] from the front of the queue. *)
Lemma start_task_digests comm acks s s1 ds t : digests_ok comm acks s -> pending_header s = None ->
  quiet s s1 -> digests_queue s = ds ++ drop (length ds) (digests_queue s) ->
  match t with ProposeHeader _ _ _ ds' => ds' = ds | ReproposeHeader _ => ds = [] | _ => False end ->
  digests_ok comm acks
    (with_task (Some t) (with_last_parents [] (with_digests (drop (length ds) (digests_queue s)) s1))).
Proof.
  intros [H1 H2 H3] Hn [[Hs _ Ht _] Hq Hp] Hds Htask.
  split; simpl; [|intros r h; rewrite Hp, Hs; auto|intros h [= ->]; done].
  intros _. assert (~ failed s) as Hf by (intros [e He]; congruence).
  eapply Forall_impl; [by apply H1|]. intros d Hd. unfold tracked, in_task in *. simpl. rewrite ?Hs, ?Hp.
  rewrite Hn in Hd.
  destruct Hd as [Hd|[[]|Hd]]; [|by right; right].
  rewrite Hds, fmap_app, elem_of_app in Hd. destruct Hd as [Hd|Hd]; [|by left].
  destruct t; [subst; by right; left|subst; by apply elem_of_nil in Hd|done].
Qed.

Lemma propose_next_digests env comm acks s s' a : digests_ok comm acks s -> pending_header s = None ->
  propose_next_header config env s = (s', Ret a) -> digests_ok comm acks s'.
Proof.
  intros Hd Hp Hrun. destruct a. assert (quiet s (next_round env s)) as Hq by record_step.
  destruct (propose_next_cases env s) as [(s1 & r & Hr & Hne & _)|[(h & _ & _ & _ & Hr)|[_ Hr]]];
    rewrite Hr in Hrun.
  - congruence.
  - injection Hrun as <-.
    pose proof (start_task_digests _ _ _ _ [] (ReproposeHeader h) Hd Hp Hq eq_refl eq_refl) as Ht.
    eapply quiet_digests; [|exact Ht]. record_step.
  - destruct (propose_new_cases (p_round s + 1) (next_round env s)) as [(r & Hn & Hne)|Hn]; rewrite Hn in Hrun; [congruence|].
    injection Hrun as <-. set (ds := take (taken s) (digests_queue s)).
    assert (length ds = taken s) as Hlen by (unfold ds, taken; rewrite length_take; lia).
    pose proof (start_task_digests comm acks s _ ds
      (ProposeHeader (p_round s + 1) this_epoch (last_parents s) ds) Hd Hp Hq) as Ht.
    rewrite Hlen in Ht. apply Ht; [|done]. unfold ds. by rewrite take_drop.
Qed.

Lemma try_propose_digests env comm acks s s' a : digests_ok comm acks s ->
  try_propose config env s = (s', Ret a) -> digests_ok comm acks s'.
Proof.
  intros Hd Hrun. unfold try_propose in Hrun. apply st_bind_Ret in Hrun as (b & s1 & Hth & Hrun).
  pose proof (throttled_quiet env s) as Hq. rewrite Hth in Hq. pose proof (quiet_digests _ _ _ _ Hq Hd) as Hd1.
  destruct b; [by injection Hrun as <-|]. destruct (pending_header s1) eqn:Hp; [by injection Hrun as <-|].
  destruct (should_create_header config s1).
  - apply st_bind_Ret in Hrun as (? & s2 & Hn & [= <-]). eapply quiet_digests; [|by eapply propose_next_digests]. record_step.
  - destruct (max_delay_timed_out s1); [|by injection Hrun as <-]. injection Hrun as <-.
    unfold repropose_after_delay, get_last_proposed. destruct (pe_store_fatal env); [done|].
    destruct (last_proposed s1) as [h|]; [|done].
    case_match; [eapply quiet_digests; [|exact Hd1]; record_step|].
    destruct (start_task_digests comm acks s1 s1 [] (ReproposeHeader h) Hd1 Hp) as [Ha Hb Hc]; done.
Qed.

Lemma index_insert_keys d x l : x ∈ (index_insert d l).*1 <-> x = d.1 \/ x ∈ l.*1.
Proof.
  induction l as [|e l IH]; simpl; [set_solver|]. destruct (Z.eqb_spec e.1 d.1) as [He|]; simpl; [set_solver|].
  fold_fmap. set_solver.
Qed.

Lemma index_collect_keys x ds : x ∈ (index_collect ds).*1 <-> x ∈ ds.*1.
Proof.
  unfold index_collect. enough (forall l, x ∈ (foldl (fun l d => index_insert d l) l ds).*1 <-> x ∈ l.*1 \/ x ∈ ds.*1) as He.
  { rewrite He. set_solver. }
  induction ds as [|d ds IH]; intros l; simpl; [set_solver|]. fold_fmap. rewrite IH, index_insert_keys. set_solver.
Qed.

(** The answer of a task that was to make or resend [h]. *)
Lemma answer_digests env comm acks (h : Header) s : digests_ok comm acks s ->
  (forall d, in_task d s -> listed d h) -> ~ failed s ->
  digests_ok comm acks
    (with_task (Some (HeaderResult (store_and_send_header env h s).2)) (store_and_send_header env h s).1).
Proof.
  intros [H1 H2 H3] Ht Hf. unfold store_and_send_header.
  destruct (te_store_fatal env); [|destruct (certifier_open s)].
  2: { split; simpl.
    - intros _. eapply Forall_impl; [by apply H1|]. intros d Hd. unfold tracked in *. simpl.
      destruct Hd as [|[|[|(h' & ? & ? & ?)]]]; [by left|by right; left; apply Ht|by right; right; left|].
      right; right; right. exists h'. rewrite elem_of_app. auto.
    - intros r h' [? ?]%H2. rewrite elem_of_app. auto.
    - intros h' [= <-]. set_solver. }
  all: split; [intros Hn; exfalso; apply Hn; by eexists|done|by intros h' [=]].
Qed.

Lemma run_task_digests env comm acks s s' : digests_ok comm acks s -> run_task config env s = Some s' ->
  digests_ok comm acks s'.
Proof.
  intros Hd Hrun. unfold run_task in Hrun.
  destruct (pending_header s) as [[r e ps ds|h|res]|] eqn:Hp; [| |done..]; injection Hrun as <-.
  all: assert (~ failed s) as Hf by (intros [e' He]; congruence).
  - unfold propose_header. match goal with |- context [store_and_send_header env ?h s] =>
      pose proof (answer_digests env comm acks h s Hd) as Ha; destruct (store_and_send_header env h s) end.
    apply Ha; [|done]. intros d. unfold in_task, listed. rewrite Hp. simpl. by rewrite index_collect_keys.
  - unfold repropose_header. pose proof (answer_digests env comm acks h s Hd) as Ha.
    destruct (store_and_send_header env h s). apply Ha; [|done]. intros d. unfold in_task. by rewrite Hp.
Qed.

Lemma step_digests e comm acks s out s' out' : sent_ok s -> (out = Ret true -> digests_ok comm acks s) ->
  proposer_step config e (s, out) = Some (s', out') -> out' = Ret true ->
  digests_ok (comm ++ committed_in [e]) (acks ++ acked [e]) s'.
Proof.
  intros Hs Hd Hstep ->. destruct e as [env sel|env|t|]; simpl in Hstep;
    [|unfold committed_in, acked; simpl; rewrite !app_nil_r..].
  - destruct out as [[]|e| |]; [|done..]. destruct (selectable env sel s) eqn:Hsel; [|done].
    injection Hstep as Hrun. apply st_bind_Ret in Hrun as (b & s1 & Hon & Hrun). destruct b; [|done].
    apply st_bind_Ret in Hrun as (? & s2 & Htry & [= <-]).
    eapply try_propose_digests; [|done]. eapply on_selected_digests; [exact Hs|by apply Hd|exact Hsel|exact Hon].
  - destruct (run_task config env s) eqn:Hrun; [|done]. injection Hstep as -> ->.
    eapply run_task_digests; [|done]. auto.
  - injection Hstep as <- ->. eapply quiet_digests; [|by apply Hd]. record_step.
  - injection Hstep as <- ->. eapply quiet_digests; [|by apply Hd]. record_step.
Qed.

Lemma run_digests evs comm acks s out s' : sent_ok s -> (out = Ret true -> digests_ok comm acks s) ->
  proposer_run config evs (s, out) = Some (s', Ret true) ->
  digests_ok (comm ++ committed_in evs) (acks ++ acked evs) s'.
Proof.
  revert comm acks s out. induction evs as [|e evs IH]; intros comm acks s out Hs Hd Hrun.
  { injection Hrun as -> ->. unfold committed_in, acked. simpl. rewrite !app_nil_r. auto. }
  apply bind_Some in Hrun as ([s1 out1] & Hstep & Hrun).
  pose proof (step_sent e (s, out) (s1, out1) Hs Hstep) as Hs1.
  replace (committed_in (e :: evs)) with (committed_in [e] ++ committed_in evs).
  2: { unfold committed_in. simpl. by destruct e as [? []| | |]; simpl; rewrite ?app_nil_r. }
  replace (acked (e :: evs)) with (acked [e] ++ acked evs).
  2: { unfold acked. simpl. by destruct e as [? []| | |]. }
  rewrite !app_assoc. eapply (IH _ _ s1 out1); [done| |done]. intros Ho.
  eapply step_digests; [exact Hs|exact Hd|exact Hstep|exact Ho].
Qed.

End proposer.

(** ** Valid headers *)

(** The clock moves at least as far as a sleep lasts. *)
Definition clock_ok (evs : list ProposerEvent) : Prop :=
  Forall (fun e => match e with
    | RunTask env => forall n, 0 <= n -> te_now env + n <= te_after env n
    | _ => True
    end) evs.

Section validity.
Context `{!Crypto} {rng : Rng} (config : ProposerConfig) (vconfig : VoteConfig).

Abbreviation c := (pc_committee config).
Abbreviation me := (pc_authority_id config).
Abbreviation this_epoch := (committee_epoch c).

(** [U] are the certificates in play, [K] those that reach the proposer. *)
Context (U K : Certificate -> Prop).
Hypothesis same_committee : mc_committee (vc_manager vconfig) = c.
Hypothesis committee_ok : committee_wf c.
Hypothesis known : forall p, K p -> U p /\ cert_epoch p = this_epoch.
Hypothesis one_per_author : forall p q, K p -> K q -> cert_round p = cert_round q -> origin p = origin q -> p = q.

Abbreviation stake ps := (stake_of c (list_to_set (origin <$> (ps : list Certificate)))) (only parsing).

(** What the certificate aggregator delivers: certificates of distinct authors in
    the round, which are a quorum when they are the first of the round. [seen]
    are the rounds that certificates came for. *)
Fixpoint parents_ok (seen : list Round) (evs : list ProposerEvent) : Prop :=
  match evs with
  | [] => True
  | Turn _ (Parents ps r) :: evs' =>
      Forall (fun p => K p /\ cert_round p = r) ps /\ NoDup (origin <$> ps) /\
      (ps = [] \/ r ∈ seen \/ quorum_threshold c <= stake ps) /\
      parents_ok (match ps with [] => seen | _ => r :: seen end) evs'
  | _ :: evs' => parents_ok seen evs'
  end.

(** A header that peers vote for, within the limit on batches. *)
Definition good (h : Header) : Prop :=
  header_ok vconfig U h /\ (length (payload h) <= max_header_num_of_batches config)%nat.

Definition quorum_of (r : Round) (ps : list Certificate) : Prop :=
  Forall (fun p => K p /\ cert_round p = r) ps /\ quorum_threshold c <= stake ps.

Record valid_ok (s : Proposer) : Prop := {
  va_sent : Forall good (headers_sent s);
  va_last : forall l : Header, last_proposed s = Some l -> epoch l = this_epoch -> good l;
  va_task : match pending_header s with
    | Some (ProposeHeader r _ ps ds) =>
        1 <= r /\ quorum_of (r - 1) ps /\ (length ds <= max_header_num_of_batches config)%nat
    | _ => True
    end
}.

(** The parents are a quorum of the current round, once there are any. *)
Record parents_inv (seen : list Round) (s : Proposer) : Prop := {
  pi_round : 0 <= p_round s;
  pi_seen : forall r, r ∈ seen -> r <= p_round s;
  pi_parents : last_parents s <> [] -> quorum_of (p_round s) (last_parents s);
  pi_current : p_round s ∈ seen -> last_parents s <> []
}.

Lemma length_index_collect ds : (length (index_collect ds) <= length ds)%nat.
Proof.
  unfold index_collect. change (length ds) with (length (@nil (Z * Z)) + length ds)%nat.
  generalize (@nil (Z * Z)). induction ds as [|d ds IH]; intros l; simpl; [lia|].
  specialize (IH (index_insert d l)). enough (length (index_insert d l) <= S (length l))%nat by lia.
  clear. induction l as [|e l IH]; simpl; [lia|]. case_match; simpl; lia.
Qed.

Lemma latest_parent_le ps p : p ∈ ps -> created_at (header p) <= latest_parent ps.
Proof.
  destruct ps as [|q ps]; [by intros ?%elem_of_nil|]. simpl.
  assert (forall m, m <= foldl (fun m q => Z.max m (created_at (header q))) m ps /\
    forall x, x ∈ ps -> created_at (header x) <= foldl (fun m q => Z.max m (created_at (header q))) m ps) as Hf.
  { induction ps as [|x ps IH]; intros m; simpl; [split; [lia|by intros ? ?%elem_of_nil]|].
    destruct (IH (Z.max m (created_at (header x)))) as [H1 H2]. split; [lia|].
    intros y [->|Hy]%elem_of_cons; [lia|auto]. }
  destruct (Hf (created_at (header q))) as [H1 H2]. intros [->|Hp]%elem_of_cons; [done|auto].
Qed.

(** A header on a quorum of the round before is valid. *)
Lemma built_good r ps ds now block : 1 <= r -> quorum_of (r - 1) ps ->
  (length ds <= max_header_num_of_batches config)%nat -> latest_parent ps <= now ->
  good (Header_new me r this_epoch now (index_collect ds) (list_to_set (digest <$> ps)) block).
Proof using same_committee committee_ok known one_per_author.
  intros Hr [Hps Hq] Hlen Hnow. split; [|simpl; pose proof (length_index_collect ds); lia].
  rewrite Forall_forall in Hps. split; simpl; [done|by rewrite same_committee|done|].
  exists (remove_dups ps). rewrite same_committee. split_and!.
  - apply set_eq. intros d. rewrite !elem_of_list_to_set, !list_elem_of_fmap. by setoid_rewrite elem_of_remove_dups.
  - apply NoDup_fmap_2_strong; [|apply NoDup_remove_dups]. intros p q.
    rewrite !elem_of_remove_dups. intros Hp Hq' Ho.
    destruct (Hps p Hp), (Hps q Hq'). apply one_per_author; [done|done|congruence|done].
  - apply Forall_forall. intros p. rewrite elem_of_remove_dups. intros Hp. destruct (Hps p Hp) as [HK Hpr]. destruct (known p HK).
    split_and!; [done|lia| |done]. pose proof (latest_parent_le ps p Hp). lia.
  - replace (list_to_set (origin <$> remove_dups ps) : gset Z) with (list_to_set (origin <$> ps) : gset Z); [done|].
    apply set_eq. intros a. rewrite !elem_of_list_to_set, !list_elem_of_fmap. by setoid_rewrite elem_of_remove_dups.
Qed.

Lemma frame_valid s s' : frame s s' -> valid_ok s -> valid_ok s'.
Proof. intros [Hs Hl Ht _] [H1 H2 H3]. split; [by rewrite Hs|by rewrite Hl|by rewrite Ht]. Qed.

Lemma drop_task_valid s : valid_ok s -> valid_ok (with_task None s).
Proof. intros [H1 H2 _]. by split. Qed.

Lemma answer_valid env (h : Header) s : valid_ok s -> good h ->
  valid_ok (with_task (Some (HeaderResult (store_and_send_header env h s).2)) (store_and_send_header env h s).1).
Proof.
  intros [H1 H2 _] Hh. unfold store_and_send_header. repeat case_match; split; simpl; try done.
  - apply Forall_app. split; [done|by constructor].
  - by intros l [= <-].
  - by intros l [= <-].
Qed.

Lemma run_task_valid env s s' : sent_ok config s -> valid_ok s ->
  (forall n, 0 <= n -> te_now env + n <= te_after env n) ->
  run_task config env s = Some s' -> valid_ok s'.
Proof using same_committee committee_ok known one_per_author.
  intros Hs Hv Hclock Hrun. pose proof (va_task _ Hv) as Ht. pose proof (so_task _ _ Hs) as Hk.
  unfold run_task, task_ok in *.
  destruct (pending_header s) as [[r e ps ds|h|res]|] eqn:Hp; [| |done..]; injection Hrun as <-.
  - destruct Ht as (Hr & Hq & Hlen), Hk as (-> & _). unfold propose_header.
    match goal with |- context [store_and_send_header env ?h s] => pose proof (answer_valid env h s Hv) as Ha;
      destruct (store_and_send_header env h s) end.
    apply Ha, built_good; [done..|]. pose proof (Hclock (latest_parent ps - te_now env)).
    pose proof (Hclock 0). destruct (Z.ltb_spec (te_now env) (latest_parent ps)); lia.
  - destruct Hk as [Hl He]. unfold repropose_header. pose proof (answer_valid env h s Hv (va_last _ Hv h Hl He)) as Ha.
    by destruct (store_and_send_header env h s).
Qed.

(** ** Parents *)

Lemma total_stake_Ret ps v : NoDup (origin <$> ps) -> total_stake config ps = Ret v -> v = stake ps.
Proof.
  intros Hnd ->%usum_Ret. unfold stake_of. rewrite wsum_list by done. by rewrite <- list_fmap_compose.
Qed.

(** What [process_parents] does to the round and the parents. *)
Lemma take_parents_cases env ps r s s' a : take_parents config env ps r s = (s', Ret a) ->
  (p_round s < r /\ (exists v, total_stake config ps = Ret v /\ quorum_threshold c <= v) /\
    p_round s' = r /\ last_parents s' = ps) \/
  (p_round s' = p_round s /\ last_parents s' = last_parents s /\
    (r < p_round s \/ p_round s < r /\ exists v, total_stake config ps = Ret v /\ v < quorum_threshold c)) \/
  (r = p_round s /\ p_round s' = p_round s /\ last_parents s' = last_parents s ++ ps).
Proof.
  unfold take_parents, reset_max, min_immediately. intros Hrun.
  apply st_bind_Ret in Hrun as (? & ? & [= <- <-] & Hrun). destruct (Z.ltb_spec (p_round s) r).
  - apply st_bind_Ret in Hrun as (v & ? & [= <- Hv] & Hrun). destruct (Z.leb_spec (quorum_threshold c) v).
    + left. unfold mbind, st_bind, modify in Hrun. simpl in Hrun.
      destruct (calc_max_delay _ _); [|done..]. injection Hrun as <-. split_and!; eauto.
    + right; left. injection Hrun as <-. split_and!; eauto.
  - destruct (Z.ltb_spec r (p_round s)); [right; left; injection Hrun as <-; split_and!; auto|].
    right; right. split; [lia|]. unfold mbind, st_bind, modify in Hrun. simpl in Hrun.
    destruct (calc_min_delay _ _); [|done..]. destruct (_ =? 0); by injection Hrun as <-.
Qed.

(** The steps that leave the round and the parents. *)
Record stays (s s' : Proposer) : Prop := {
  st_round : p_round s' = p_round s;
  st_parents : last_parents s' = last_parents s
}.

#[local] Instance stays_preorder : PreOrder stays.
Proof. split; [intros s; by split|intros s t u [] []; split; congruence]. Qed.

Lemma stays_parents seen s s' : stays s s' -> parents_inv seen s -> parents_inv seen s'.
Proof. intros [Hr Hp] [H1 H2 H3 H4]. split; rewrite ?Hr, ?Hp; done. Qed.

Lemma ready_stays s : stays s (ready config s).1.
Proof. unfold ready, update_leader. steps. Qed.

Lemma throttled_stays env s : stays s (throttled env s).1.
Proof. unfold throttled. steps. Qed.

Lemma evict_stays r s : stays s (evict_old_proposed_headers config r s).1.
Proof. unfold evict_old_proposed_headers, modify. simpl. repeat case_match; record_step. Qed.

Lemma on_result_stays env res s : stays s (on_result config env res s).1.
Proof.
  unfold on_result. assert (stays (with_task None s) (handle_proposal_result config env res (with_task None s)).1) as Hs.
  { unfold handle_proposal_result, reset_min, reset_max. destruct res as [h|e]; [|done]. steps. apply evict_stays. }
  destruct (handle_proposal_result config env res (with_task None s)) as [s1 [a|e| |]]; by destruct Hs; split.
Qed.

Lemma quorum_extend r ps qs : quorum_of r ps -> Forall (fun p => K p /\ cert_round p = r) qs -> quorum_of r (ps ++ qs).
Proof using same_committee committee_ok known one_per_author.
  intros [Hps Hq] Hqs. split; [by apply Forall_app|].
  enough (stake ps <= stake (ps ++ qs)) by lia. apply stake_of_mono; [done|]. rewrite fmap_app, list_to_set_app. set_solver.
Qed.

Lemma take_parents_inv env ps r seen s s' a : parents_inv seen s ->
  Forall (fun p => K p /\ cert_round p = r) ps -> NoDup (origin <$> ps) ->
  ps = [] \/ r ∈ seen \/ quorum_threshold c <= stake ps ->
  take_parents config env ps r s = (s', Ret a) ->
  parents_inv (match ps with [] => seen | _ => r :: seen end) s'.
Proof using same_committee committee_ok known one_per_author.
  intros [H1 H2 H3 H4] Hps Hnd Hq Hrun. pose proof (quorum_gt_faulty c committee_ok) as [Hpos _].
  destruct (take_parents_cases _ _ _ _ _ _ Hrun) as [(Hlt & (v & Hv & Hge) & Hr & Hl)|
    [(Hr & Hl & Hwhy)|(-> & Hr & Hl)]].
  - apply total_stake_Ret in Hv as ->; [|done].
    destruct ps as [|p ps]; [unfold stake_of in Hge; rewrite wsum_empty in Hge; lia|].
    split; rewrite ?Hr, ?Hl; [lia| |by split|done]. intros r' [->|Hr']%elem_of_cons; [done|]. apply H2 in Hr'. lia.
  - destruct ps as [|p ps]; [split; rewrite ?Hr, ?Hl; done|].
    assert (r < p_round s) as Hlt.
    { destruct Hwhy as [|[Hlt (v & Hv & Hlv)]]; [done|]. apply total_stake_Ret in Hv as ->; [|done].
      destruct Hq as [Hq|[Hq%H2|Hq]]; [done|lia|lia]. }
    split; rewrite ?Hr, ?Hl; [done| |done|].
    + intros r' [->|Hr']%elem_of_cons; [lia|auto].
    + intros [Heq|Hr']%elem_of_cons; [lia|auto].
  - assert (last_parents s ++ ps <> [] -> quorum_of (p_round s) (last_parents s ++ ps)) as Hq'.
    { intros Hne. destruct (last_parents s) as [|q qs] eqn:Hqs; [|apply quorum_extend; [by apply H3|done]].
      destruct Hq as [->|[Hq%H4|Hq]]; [done|done|by split]. }
    destruct ps as [|p ps]; split; rewrite ?Hr, ?Hl; try done; rewrite ?app_nil_r; try done.
    + intros r' [->|Hr']%elem_of_cons; [done|auto].
    + intros _ Hn. by apply app_nil in Hn as [_ ?].
Qed.

Lemma on_selected_parents env sel evs seen s s' : parents_inv seen s -> parents_ok seen (Turn env sel :: evs) ->
  on_selected config env sel s = (s', Ret true) ->
  exists seen', parents_inv seen' s' /\ parents_ok seen' evs.
Proof using same_committee committee_ok known one_per_author.
  intros Hi Hok Hrun. destruct sel as [|d|ps r|r rounds| | | |]; simpl in Hok.
  - done.
  - exists seen. split; [|done]. injection Hrun as <-. eapply stays_parents; [|done]. record_step.
  - destruct Hok as (Hps & Hnd & Hq & Hok). exists (match ps with [] => seen | _ => r :: seen end). split; [|done].
    apply st_bind_Ret in Hrun as (? & s1 & Hp & [= <-]). apply st_bind_Ret in Hp as (? & s2 & Ht & Hp).
    apply st_bind_Ret in Hp as (b & s3 & Hr & [= <-]). pose proof (ready_stays s2) as Hst. rewrite Hr in Hst.
    eapply stays_parents; [|by eapply take_parents_inv]. etrans; [exact Hst|]. record_step.
  - exists seen. split; [|done]. injection Hrun as <-. eapply stays_parents; [|done]. record_step.
  - exists seen. split; [|done]. simpl in Hrun. destruct (pending_header s) as [[| |res]|]; try (by injection Hrun as <-).
    eapply stays_parents; [|done]. pose proof (on_result_stays env res s) as Hs. by rewrite Hrun in Hs.
  - exists seen. split; [|done]. eapply stays_parents; [|done].
    pose proof (on_result_stays env (inr OneshotChannelClosed) s) as Hs.
    change (on_result config env (inr OneshotChannelClosed) s = (s', Ret true)) in Hrun. by rewrite Hrun in Hs.
  - exists seen. split; [|done]. injection Hrun as <-. eapply stays_parents; [|done]. record_step.
  - exists seen. split; [|done]. injection Hrun as <-. eapply stays_parents; [|done]. record_step.
Qed.

(** ** Turns *)

Lemma propose_next_valid env seen s : valid_ok s -> parents_inv seen s -> last_parents s <> [] ->
  valid_ok (propose_next_header config env s).1.
Proof.
  intros Hv [H1 _ H3 _] Hne. assert (frame s (next_round env s)) as Hf by record_step.
  pose proof (frame_valid _ _ Hf Hv) as Hv1.
  destruct (propose_next_cases config env s) as [(s' & r & -> & _ & Hf')|[(h & Hl & Hr & He & ->)|[_ ->]]]; simpl.
  - by eapply frame_valid.
  - destruct Hv1 as [? ? _]. by split.
  - destruct (propose_new_cases config (p_round s + 1) (next_round env s)) as [(r & -> & _)| ->]; simpl.
    + eapply frame_valid; [|exact Hv1]. record_step.
    + destruct Hv1 as [Ha Hb _]. split; [done|done|]. simpl. split_and!; [lia| |].
      * replace (p_round s + 1 - 1) with (p_round s) by lia. by apply H3.
      * rewrite length_take. unfold taken. simpl. lia.
Qed.

Lemma propose_next_parents env seen s s' a : parents_inv seen s ->
  propose_next_header config env s = (s', Ret a) -> parents_inv seen s'.
Proof.
  intros [H1 H2 _ _] Hrun. destruct a.
  assert (p_round s' = p_round s + 1 /\ last_parents s' = []) as [Hr Hl].
  { destruct (propose_next_cases config env s) as [(s1 & r & Hr & Hne & _)|[(h & _ & _ & _ & Hr)|[_ Hr]]];
      rewrite Hr in Hrun; [congruence|by injection Hrun as <-|].
    destruct (propose_new_cases config (p_round s + 1) (next_round env s)) as [(r & Hn & Hne)|Hn]; rewrite Hn in Hrun;
      [congruence|by injection Hrun as <-]. }
  split; rewrite ?Hr, ?Hl; [lia| |done|]; [intros r ?%H2; lia|intros ?%H2; lia].
Qed.

Lemma try_propose_valid env seen s : valid_ok s -> parents_inv seen s -> valid_ok (try_propose config env s).1.
Proof.
  intros Hv Hi. unfold try_propose, mbind at 1, st_bind at 1.
  pose proof (qu_frame _ _ (throttled_quiet env s)) as Hf. pose proof (throttled_stays env s) as Hst.
  destruct (throttled env s) as [s1 [b|e| |]]; simpl in Hf, Hst;
    pose proof (frame_valid _ _ Hf Hv) as Hv1; pose proof (stays_parents _ _ _ Hst Hi) as Hi1; try done.
  destruct b; [done|]. destruct (pending_header s1); [done|]. destruct (should_create_header config s1) eqn:Hc.
  - unfold mbind, st_bind. assert (last_parents s1 <> []) as Hne.
    { unfold should_create_header in Hc. intros Hn. by rewrite (bool_decide_eq_true_2 _ Hn) in Hc. }
    pose proof (propose_next_valid env seen s1 Hv1 Hi1 Hne) as Hp.
    destruct (propose_next_header config env s1) as [s2 [a|e| |]]; [|done..]. eapply frame_valid; [|exact Hp]. record_step.
  - case_match; [|done]. unfold repropose_after_delay.
    repeat case_match; first [exact Hv1|eapply frame_valid; [|exact Hv1]; record_step|destruct Hv1; by split].
Qed.

Lemma try_propose_parents env seen s s' a : parents_inv seen s -> try_propose config env s = (s', Ret a) ->
  parents_inv seen s'.
Proof.
  intros Hi Hrun. unfold try_propose in Hrun. apply st_bind_Ret in Hrun as (b & s1 & Hth & Hrun).
  pose proof (throttled_stays env s) as Hst. rewrite Hth in Hst. pose proof (stays_parents _ _ _ Hst Hi) as Hi1.
  destruct b; [by injection Hrun as <-|]. destruct (pending_header s1); [by injection Hrun as <-|].
  destruct (should_create_header config s1).
  - apply st_bind_Ret in Hrun as (? & s2 & Hn & [= <-]). eapply stays_parents; [|by eapply propose_next_parents]. record_step.
  - destruct (max_delay_timed_out s1); injection Hrun as <-; [|done]. eapply stays_parents; [|exact Hi1].
    unfold repropose_after_delay. repeat case_match; record_step.
Qed.

Lemma on_selected_valid env sel s : valid_ok s -> valid_ok (on_selected config env sel s).1.
Proof.
  intros Hv. assert (forall res, valid_ok (on_result config env res s).1) as Hres.
  { intros res. unfold on_result. pose proof (handle_result_frame config env res (with_task None s)) as Hf.
    destruct (handle_proposal_result config env res (with_task None s)) as [s1 [a|e| |]];
      (eapply frame_valid; [exact Hf|by apply drop_task_valid]). }
  destruct sel as [|d|ps r|r rounds| | | |]; simpl; try done.
  - eapply frame_valid; [|exact Hv]. record_step.
  - unfold mbind, st_bind. pose proof (qu_frame _ _ (process_parents_quiet config env ps r s)) as Hf.
    destruct (process_parents config env ps r s) as [s1 [a|e| |]]; by eapply frame_valid.
  - eapply frame_valid; [|exact Hv]. record_step.
  - destruct (pending_header s) as [[]|]; done.
  - by apply drop_task_valid.
  - eapply frame_valid; [|exact Hv]. record_step.
  - eapply frame_valid; [|exact Hv]. record_step.
Qed.

(** ** Runs *)

(** While the loop runs, the parents are in order for the events to come. *)
Definition live_parents (evs : list ProposerEvent) (st : Proposer * Exec ProposerError bool) : Prop :=
  st.2 = Ret true -> exists seen, parents_inv seen st.1 /\ parents_ok seen evs.

Lemma turn_valid env sel evs s : valid_ok s -> live_parents (Turn env sel :: evs) (s, Ret true) ->
  valid_ok (turn config env sel s).1 /\ live_parents evs (turn config env sel s).
Proof using same_committee committee_ok known one_per_author.
  intros Hv Hp. destruct (Hp eq_refl) as (seen & Hi & Hok). simpl in Hi.
  unfold turn, mbind at 1 3, st_bind at 1 3. pose proof (on_selected_valid env sel s Hv) as Hv1.
  destruct (on_selected config env sel s) as [s1 [[]|e| |]] eqn:Hon; simpl in *; try done.
  destruct (on_selected_parents env sel evs seen s s1 Hi Hok Hon) as (seen' & Hi' & Hok').
  pose proof (try_propose_valid env seen' s1 Hv1 Hi') as Hv2. unfold mbind, st_bind.
  destruct (try_propose config env s1) as [s2 [a|e| |]] eqn:Htry; simpl in *; try done.
  split; [done|]. intros _. exists seen'. split; [by eapply try_propose_parents|done].
Qed.

Lemma run_valid evs st st' : sent_ok config st.1 -> valid_ok st.1 -> live_parents evs st -> clock_ok evs ->
  proposer_run config evs st = Some st' -> valid_ok st'.1.
Proof using same_committee committee_ok known one_per_author.
  revert st. induction evs as [|e evs IH]; intros [s out] Hs Hv Hp Hc Hrun; [by simplify_eq/=|].
  apply bind_Some in Hrun as ([s1 out1] & Hstep & Hrun). apply Forall_cons in Hc as [Hce Hc].
  pose proof (step_sent config e (s, out) (s1, out1) Hs Hstep) as Hs1.
  enough (valid_ok s1 /\ live_parents evs (s1, out1)) as [Hv1 Hp1] by exact (IH (s1, out1) Hs1 Hv1 Hp1 Hc Hrun).
  destruct e as [env sel|env|t|]; cbn in Hstep.
  - destruct out as [[]|e| |]; [|done..]. case_match; [|done]. pose proof (turn_valid env sel evs s Hv Hp) as Ht.
    injection Hstep as Ht'. by rewrite Ht' in Ht.
  - apply bind_Some in Hstep as (s2 & Hrun' & [= -> ->]). split; [exact (run_task_valid env s s1 Hs Hv Hce Hrun')|].
    intros Ho. destruct (Hp Ho) as (seen & Hi & Hok). exists seen. split; [|done]. eapply stays_parents; [|exact Hi].
    unfold run_task, propose_header, repropose_header, store_and_send_header in Hrun'.
    repeat case_match; simplify_eq; record_step.
  - injection Hstep as <- ->. split; [eapply frame_valid; [|exact Hv]; record_step|].
    intros Ho. destruct (Hp Ho) as (seen & Hi & Hok). exists seen. split; [|done]. eapply stays_parents; [|exact Hi]. record_step.
  - injection Hstep as <- ->. split; [eapply frame_valid; [|exact Hv]; record_step|].
    intros Ho. destruct (Hp Ho) as (seen & Hi & Hok). exists seen. split; [|done]. eapply stays_parents; [|exact Hi]. record_step.
Qed.

Lemma genesis_quorum : 0 < total_power c -> Forall K (genesis c) -> quorum_of 0 (genesis c).
Proof using same_committee committee_ok known one_per_author.
  intros Hpos HK. split.
  - rewrite Forall_forall in *. intros p Hp. split; [auto|].
    unfold genesis in Hp. by apply list_elem_of_fmap in Hp as (a & -> & _).
  - replace (list_to_set (origin <$> genesis c) : gset Z) with (list_to_set (btree_keys (authorities_by_id c)) : gset Z).
    + rewrite (stake_of_committee c committee_ok), (wf_quorum _ committee_ok).
      assert (2 * total_power c / 3 < total_power c) by (apply Z.div_lt_upper_bound; lia). lia.
    + f_equal. unfold genesis, authorities, btree_keys, btree_values. rewrite <- !list_fmap_compose.
      apply list_fmap_ext. intros n [k a] Hka%list_elem_of_lookup_2%elem_of_btree_list. simpl.
      by apply (wf_by_id _ committee_ok) in Hka as [<- _].
Qed.

Lemma new_live ls committed now stored sent evs : 0 < total_power c ->
  0 < committed \/ Forall K (genesis c) -> parents_ok [] evs ->
  live_parents evs (Proposer_new config ls committed now stored sent, Ret true).
Proof using same_committee committee_ok known one_per_author.
  intros Hpos Hg Hok _. exists []. split; [|done]. simpl.
  split; simpl; destruct (Z.ltb_spec 0 committed); try lia; try done; try (by intros ? ?%elem_of_nil); try (by intros ?%elem_of_nil).
  intros _. apply genesis_quorum; [done|]. by destruct Hg; [lia|].
Qed.

End validity.

(** C4: A primary that restarts at most one round behind its stored header does
    not equivocate, and proposes only headers that its peers vote for. Over every
    interleaving of its turns and of the task that makes headers, the headers
    sent to the certifier are the node's own, there is one per round, each is on a
    quorum of parents of the round before, and it holds at most the configured
    number of batches. What the node [kept] is a stored header at most one round
    ahead of where the proposer starts, which is sent again, and not below any
    header it sent in this epoch. A restart further behind is not covered. *)
Theorem proposer_headers_valid `{!Crypto} {rng : Rng} config vconfig U K ls committed now stored sent evs s out :
  mc_committee (vc_manager vconfig) = pc_committee config ->
  committee_wf (pc_committee config) -> 0 < total_power (pc_committee config) ->
  (forall p, K p -> U p /\ cert_epoch p = committee_epoch (pc_committee config)) ->
  (forall p q, K p -> K q -> cert_round p = cert_round q -> origin p = origin q -> p = q) ->
  0 < committed \/ Forall K (genesis (pc_committee config)) ->
  kept config (Z.max 0 committed) stored sent -> Forall (good config vconfig U) sent ->
  (forall l : Header, stored = Some l -> epoch l = committee_epoch (pc_committee config) -> good config vconfig U l) ->
  parents_ok config K [] evs -> clock_ok evs ->
  proposer_run config evs (Proposer_new config ls committed now stored sent, Ret true) = Some (s, out) ->
  Forall (fun h : Header => author h = pc_authority_id config) (headers_sent s) /\
  Forall (good config vconfig U) (headers_sent s) /\ unique_votes (headers_sent s).
Proof.
  intros Hc Hwf Hpos HK Hone Hg Hkept Hsent Hstored Hok Hclock Hrun.
  pose proof (new_sent config ls committed now stored sent Hkept) as Hs.
  pose (st := (Proposer_new config ls committed now stored sent, Ret true) : Proposer * Exec ProposerError bool).
  destruct (run_sent config evs st (s, out) Hs Hrun) as [[Ha Hu _ _] _]. simpl in Ha, Hu. split_and!.
  - eapply Forall_impl; [exact Ha|]. by intros h [? _].
  - eapply (va_sent config vconfig U K s), (run_valid config vconfig U K Hc Hwf HK Hone evs st (s, out) Hs);
      [by split| |done|done].
    by apply (new_live config vconfig U K Hc Hwf HK Hone).
  - intros h1 h2 H1 H2 _ Hr. by rewrite (Hu h1 h2 H1 H2 Hr).
Qed.

(** The first turn of a proposer that starts before the first commit of the
    epoch, with a stored header that is not of round 1. *)
Lemma restart_turn `{!Crypto} {rng : Rng} config ls now (l : Header) sent env lead :
  genesis (pc_committee config) <> [] -> leader (E := ProposerError) ls 0 = Ret lead -> round l <> 1 ->
  now <= pe_instant env -> pe_suspended env <= PENDING_BACKPRESSURE_THRESHOLD -> 0 <= pe_executed_round env ->
  pe_store_fatal env = None ->
  exists s, proposer_step config (Turn env MaxDelayTick) (Proposer_new config ls 0 now (Some l) sent, Ret true)
      = Some (s, Ret true) /\
    pending_header s = Some (ProposeHeader 1 (committee_epoch (pc_committee config)) (genesis (pc_committee config)) []) /\
    headers_sent s = sent /\ certifier_open s = true.
Proof.
  intros Hg Hl Hr Hn Hs He Hf. cbn [proposer_step selectable max_deadline Proposer_new].
  rewrite (proj2 (Z.leb_le _ _)) by done. eexists. split.
  - f_equal. unfold turn, on_selected, try_propose, throttled, mbind, st_bind, modify. cbn -[propose_next_header should_create_header].
    rewrite (proj2 (Z.ltb_ge _ _)) by done. cbn -[propose_next_header should_create_header].
    unfold execution_lag. cbn -[propose_next_header should_create_header]. unfold EXECUTION_LAG_THRESHOLD.
    rewrite (proj2 (Z.ltb_ge _ _)) by lia. cbn -[propose_next_header should_create_header].
    unfold should_create_header. cbn -[propose_next_header]. rewrite bool_decide_eq_false_2 by done. cbn -[propose_next_header].
    unfold propose_next_header, get_last_proposed, propose_new. unfold mbind, st_bind, gets, modify, pure. cbn. rewrite (uadd_ok u32_max 0 1) by (unfold u32_max; lia). cbn.
    rewrite Hf. cbn. change (0 + 1) with 1. rewrite (proj2 (Z.eqb_neq (round l) 1) Hr). cbn. change (1 mod 2 =? 0) with false.
    cbn. change (1 - 1) with 0. rewrite Hl. cbn. reflexivity.
  - by split_and!.
Qed.

(** C40: The guard of the proposer covers only the round after the one it starts
    in. A primary that restarts before the first commit of its epoch starts in
    round 0; if the header it stored last is not of round 1 then, on the first
    tick of its maximal delay and unless it is throttled or its database fails,
    it builds and sends a header of round 1, whatever header of round 1 it sent
    before; made at a later time, it is another header of the same author, epoch
    and round. *)
Theorem restart_equivocates `{!Crypto} {rng : Rng} config ls now (l : Header) sent env tenv (h1 : Header) lead :
  genesis (pc_committee config) <> [] -> leader (E := ProposerError) ls 0 = Ret lead -> round l <> 1 ->
  h1 ∈ sent -> author h1 = pc_authority_id config -> epoch h1 = committee_epoch (pc_committee config) ->
  round h1 = 1 ->
  now <= pe_instant env -> pe_suspended env <= PENDING_BACKPRESSURE_THRESHOLD -> 0 <= pe_executed_round env ->
  pe_store_fatal env = None -> te_store_fatal tenv = None ->
  (forall n, 0 <= n -> created_at h1 < te_after tenv n) ->
  exists s (h2 : Header),
    proposer_run config [Turn env MaxDelayTick; RunTask tenv]
      (Proposer_new config ls 0 now (Some l) sent, Ret true) = Some (s, Ret true) /\
    h1 ∈ headers_sent s /\ h2 ∈ headers_sent s /\
    author h2 = author h1 /\ epoch h2 = epoch h1 /\ round h2 = round h1 /\
    created_at h1 < created_at h2 /\ fields h1 <> fields h2.
Proof.
  intros Hg Hl Hr Hin Ha He Hr1 Hn Hs Hx Hf Ht Hlater.
  destruct (restart_turn config ls now l sent env lead Hg Hl Hr Hn Hs Hx Hf) as (s & Hstep & Hp & Hsent & Hopen).
  cbn [proposer_run]. rewrite Hstep. cbn [mbind option_bind proposer_step]. unfold run_task. rewrite Hp.
  unfold propose_header, store_and_send_header. rewrite Ht, Hopen. cbn [mbind option_bind proposer_run].
  set (wait := if _ <? _ then _ else _). assert (0 <= wait) by (unfold wait; case_match; lia).
  eexists _, _. split; [reflexivity|]. cbn [headers_sent with_task with_store]. rewrite Hsent.
  split; [set_solver|]. split; [apply elem_of_app; right; left|]. cbn. specialize (Hlater wait ltac:(done)).
  split_and!; try done. intros Heq. rewrite Heq in Hlater. cbn in Hlater. lia.
Qed.

(** C37: no batch digest is lost. While the loop runs, every digest that the
    proposer acknowledged to a worker is in its queue, in the header being made,
    in a proposed header that waits for its commit, or in a header it sent for a
    round that was reported committed. *)
Theorem acknowledged_digests_tracked `{!Crypto} {rng : Rng} config ls committed now stored sent evs s :
  kept config (Z.max 0 committed) stored sent ->
  proposer_run config evs (Proposer_new config ls committed now stored sent, Ret true) = Some (s, Ret true) ->
  ~ failed s -> Forall (tracked (committed_in evs) s) (acked evs).
Proof.
  intros Hkept Hrun Hf. pose proof (new_sent config ls committed now stored sent Hkept) as Hs.
  eapply (do_tracked _ _ _ (run_digests config evs [] [] _ _ s Hs _ Hrun)), Hf.
  Unshelve. intros _. split; simpl; [by constructor|by intros r h Hr; rewrite lookup_empty in Hr|done].
Qed.

(** ** Examples *)

(** A hash that tells headers of different times apart. *)
Definition stamp_crypto : Crypto := {|
  header_hash := fun h => round h * 1000 + author h + 1000000 * (created_at h - round h);
  key_hash := fun k => k; verify_secure := fun _ _ _ => true; aggregate := fun _ => None;
  verify_aggregate := fun _ _ _ => true; default_signature := 0 |}.

Definition example_proposer_config : ProposerConfig := {|
  pc_authority_id := 1; pc_committee := example_committee; header_num_of_batches_threshold := 1;
  max_header_num_of_batches := 10; min_header_delay := 500; max_header_delay := 1000; pc_gc_depth := 50 |}.

Definition example_schedule : LeaderSchedule :=
  {| ls_committee := example_committee; leader_swap_table := LeaderSwapTable_default |}.

Definition turn_env (t : Z) : ProposerEnv := {|
  pe_instant := t; pe_now_millis := t; pe_suspended := 0; pe_executed_round := 0; pe_committed_round := 0;
  pe_store_fatal := None; pe_noticed := false |}.
Definition task_env (t : Z) : TaskEnv := {|
  te_now := t; te_after := fun n => t + n; te_latest_block := {| bnh_number := 0; bnh_hash := 0 |};
  te_store_fatal := None |}.

(** Two rounds: the first on the genesis certificates, the second on round 1. *)
Definition two_rounds : list ProposerEvent := [
  Turn (turn_env 0) MaxDelayTick; RunTask (task_env 1); Turn (turn_env 10) PendingHeader;
  Turn (turn_env 20) (OurDigest (77, 0)); Turn (turn_env 30) (Parents round1_certs 1);
  RunTask (task_env 2); Turn (turn_env 40) PendingHeader; Turn (turn_env 50) (OurDigest (78, 0))].

Definition start_proposer (stored : option Header) (sent : list Header) : Proposer * Exec ProposerError bool :=
  (Proposer_new (H := stamp_crypto) example_proposer_config example_schedule 0 0 stored sent, Ret true).

Definition after_two_rounds : Proposer :=
  match proposer_run (H := stamp_crypto) (rng := example_rng) example_proposer_config two_rounds (start_proposer None []) with
  | Some (s, _) => s
  | None => (start_proposer None []).1
  end.

(** The primary starts again at round 0 with the header of round 2 stored. *)
Lemma restart_equivocates_witness :
  exists s (h1 h2 : Header),
    proposer_run (H := stamp_crypto) (rng := example_rng) example_proposer_config
      [Turn (turn_env 100) MaxDelayTick; RunTask (task_env 5)]
      (start_proposer (last_proposed after_two_rounds) (headers_sent after_two_rounds)) = Some (s, Ret true) /\
    h1 ∈ headers_sent s /\ h2 ∈ headers_sent s /\ author h1 = author h2 /\ epoch h1 = epoch h2 /\ round h1 = round h2 /\
    created_at h1 < created_at h2.
Proof.
  pose (h1 := nth 0 (headers_sent after_two_rounds) (example_header 0 0 [])).
  pose (l := nth 1 (headers_sent after_two_rounds) (example_header 0 0 [])).
  destruct (restart_equivocates (H := stamp_crypto) (rng := example_rng) example_proposer_config example_schedule 0 l
    (headers_sent after_two_rounds) (turn_env 100) (task_env 5) h1
    {| protocol_key := 1; authority_voting_power := 1; execution_address := 1; id := 1 |})
    as (s & h2 & Hr & H1 & H2 & Ha & He & Hro & Ht & _).
  - vm_compute. discriminate.
  - vm_compute. reflexivity.
  - vm_compute. discriminate.
  - vm_compute. left.
  - vm_compute. reflexivity.
  - vm_compute. reflexivity.
  - vm_compute. reflexivity.
  - vm_compute. discriminate.
  - vm_compute. discriminate.
  - vm_compute. discriminate.
  - reflexivity.
  - reflexivity.
  - intros n Hn. assert (Hc : created_at h1 = 1) by (vm_compute; reflexivity). rewrite Hc. simpl. lia.
  - exists s, h1, h2.
    assert (Hl : last_proposed after_two_rounds = Some l) by (vm_compute; reflexivity).
    unfold start_proposer. rewrite Hl. split; [exact Hr|]. split; [exact H1|]. split; [exact H2|].
    split; [symmetry; exact Ha|]. split; [symmetry; exact He|]. split; [symmetry; exact Hro|exact Ht].
Defined.

(** The certificates that the example delivers. *)
Definition delivered : list Certificate := genesis (H := stamp_crypto) example_committee ++ round1_certs.

Lemma delivered_epoch p : p ∈ delivered -> cert_epoch p = committee_epoch example_committee.
Proof.
  intros Hp. assert (Forall (fun p => cert_epoch p = committee_epoch example_committee) delivered) as Hall
    by (apply (bool_decide_unpack _); vm_compute; exact I).
  rewrite Forall_forall in Hall. by apply Hall.
Qed.

Lemma delivered_once p q : p ∈ delivered -> q ∈ delivered -> cert_round p = cert_round q -> origin p = origin q -> p = q.
Proof.
  intros Hp Hq. assert (Forall (fun p => Forall (fun q => cert_round p = cert_round q -> origin p = origin q -> p = q)
    delivered) delivered) as Hall by (apply (bool_decide_unpack _); vm_compute; exact I).
  rewrite Forall_forall in Hall. specialize (Hall p Hp). rewrite Forall_forall in Hall. by apply Hall.
Qed.

Lemma fresh_kept : kept example_proposer_config (Z.max 0 0) None [].
Proof.
  split; [by constructor|intros h1 h2 Hh; by apply elem_of_nil in Hh|intros h Hh; by apply elem_of_nil in Hh|done].
Qed.

Lemma proposer_headers_valid_witness :
  length (headers_sent after_two_rounds) = 2%nat /\
  Forall (fun h : Header => author h = 1) (headers_sent after_two_rounds) /\
  unique_votes (H := stamp_crypto) (headers_sent after_two_rounds).
Proof.
  split; [vm_compute; reflexivity|].
  destruct (proposer_headers_valid (H := stamp_crypto) (rng := example_rng) example_proposer_config (vote_config 1)
    (fun p => p ∈ delivered) (fun p => p ∈ delivered) example_schedule 0 0 None [] two_rounds after_two_rounds (Ret true))
    as (Ha & _ & Hu).
  - reflexivity.
  - apply example_committee_wf.
  - vm_compute. reflexivity.
  - intros p Hp. split; [exact Hp|by apply delivered_epoch].
  - apply delivered_once.
  - right. apply (bool_decide_unpack _). vm_compute. exact I.
  - apply fresh_kept.
  - constructor.
  - discriminate.
  - split; [apply (bool_decide_unpack _); vm_compute; exact I|].
    split; [apply (bool_decide_unpack _); vm_compute; exact I|].
    split; [right; right; vm_compute; discriminate|exact I].
  - repeat constructor; simpl; intros n Hn; lia.
  - vm_compute. reflexivity.
  - split; [exact Ha|exact Hu].
Defined.

Lemma acknowledged_digests_tracked_witness :
  acked two_rounds = [77; 78] /\ Forall (tracked (committed_in two_rounds) after_two_rounds) (acked two_rounds).
Proof.
  split; [reflexivity|].
  apply (acknowledged_digests_tracked (H := stamp_crypto) (rng := example_rng) example_proposer_config example_schedule 0 0
    None [] two_rounds after_two_rounds).
  - apply fresh_kept.
  - vm_compute. reflexivity.
  - intros [e He]. vm_compute in He. discriminate.
Defined.
