(* ===== verification/Certifier.v ===== *)
(** * The certifier

    [crates/consensus/primary/src/certifier.rs] with [vote_failure_tracker.rs]
    and [request_vote] of [network/mod.rs]: how a primary collects votes for its
    header, makes the certificate, hands it to the certificate manager and
    publishes it.

    The certifier, its proposal tasks and the certificate manager are one
    machine: its events are the branches of the loop, the results of the vote
    requests of a task, and the steps of a task towards the manager and the
    network. A task that was replaced may still take steps until it notices, so
    the machine has every run of the code. What peers answer is an input. *)
From S2P Require Import Prelude State Types Committee Certificates PairMap CertStore PendingCerts CertManager.
From stdpp Require Import strings.
#[local] Open Scope Z_scope.

(** ** Rejections *)

(** Instants in seconds. *)
Abbreviation Instant := Z (only parsing).

Inductive RejectionOutcome := BelowThreshold | TransitionToInactive.

(** [VoteFailureTracker] with its [Inner] *)
Record VoteFailureTracker := {
  too_old : gset AuthorityIdentifier;
  epoch_mismatch : gset AuthorityIdentifier;
  rejected_since : option Instant;
  vf_threshold : Z
}.

(** [VoteFailureTracker::new] *)
Definition VoteFailureTracker_new (committee_size : Z) : VoteFailureTracker :=
  {| too_old := ∅; epoch_mismatch := ∅; rejected_since := None; vf_threshold := committee_size / 2 |}.

(** [skip_with_rejection_grace] *)
Definition skip_with_rejection_grace (grace : Z) (now : Instant) (t : VoteFailureTracker) :
    VoteFailureTracker * bool :=
  let since := default now (rejected_since t) in
  ({| too_old := too_old t; epoch_mismatch := epoch_mismatch t; rejected_since := Some since;
      vf_threshold := vf_threshold t |}, now - since <? grace).

(** [clear_counters] *)
Definition clear_counters (t : VoteFailureTracker) : VoteFailureTracker :=
  {| too_old := ∅; epoch_mismatch := ∅; rejected_since := None; vf_threshold := vf_threshold t |}.

(** [evaluate] *)
Definition vf_evaluate (t : VoteFailureTracker) (count : nat) : RejectionOutcome :=
  if Z.of_nat count <? vf_threshold t then BelowThreshold else TransitionToInactive.

(** [record_too_old] and [record_epoch_mismatch] *)
Definition record_too_old (peer : AuthorityIdentifier) (t : VoteFailureTracker) :
    VoteFailureTracker * RejectionOutcome :=
  let peers := {[peer]} ∪ too_old t in
  ({| too_old := peers; epoch_mismatch := epoch_mismatch t; rejected_since := rejected_since t;
      vf_threshold := vf_threshold t |}, vf_evaluate t (size peers)).
Definition record_epoch_mismatch (peer : AuthorityIdentifier) (t : VoteFailureTracker) :
    VoteFailureTracker * RejectionOutcome :=
  let peers := {[peer]} ∪ epoch_mismatch t in
  ({| too_old := too_old t; epoch_mismatch := peers; rejected_since := rejected_since t;
      vf_threshold := vf_threshold t |}, vf_evaluate t (size peers)).

(** [should_count_epoch_rejection] and [is_one_epoch_behind] *)
Definition should_count_epoch_rejection (peer_epoch our_epoch : Epoch) : bool := our_epoch <=? peer_epoch.
Definition is_one_epoch_behind (peer_epoch our_epoch : Epoch) : bool :=
  bool_decide (checked_sub peer_epoch our_epoch = Some 1).

(** ** Requests for votes *)

(** What the code looks for in the text of an error. *)
Inductive RpcText := SaysInvalidEpoch | SaysTooOld | SaysOther.

(** A response on the wire; those of other requests are one constructor. *)
Inductive WireResponse :=
  | WireVote (v : Vote)
  | WireTooOld (header_round limit_round : Round)
  | WireEpochMismatch (expected received : Epoch)
  | WireRecoverableError (s : RpcText)
  | WireError (s : RpcText)
  | WireMissingParents (missing : list CertificateDigest)
  | WireOther.

Inductive NetworkError := RPCError (s : RpcText) | OtherNetworkError.

Inductive RequestVoteResult :=
  | ResVote (v : Vote)
  | ResMissingParents (missing : list CertificateDigest)
  | ResTooOld (header_round limit_round : Round)
  | ResEpochMismatch (expected received : Epoch).

(** The answers to the requests of one call, in order. *)
Abbreviation Answers := (list (Exec NetworkError WireResponse)) (only parsing).

(** [PrimaryNetworkHandle::request_vote]: a recoverable error is asked again at
    most six times. No result while answers are outstanding. *)
Fixpoint network_request_vote (tries : nat) (answers : Answers) :
    option (Exec NetworkError RequestVoteResult) :=
  match answers with
  | [] => None
  | res :: answers =>
      match res with
      | Ret (WireRecoverableError s) =>
          match tries with
          | O => Some (Err (RPCError s))
          | S tries => network_request_vote tries answers
          end
      | Ret (WireVote v) => Some (Ret (ResVote v))
      | Ret (WireTooOld header_round limit_round) => Some (Ret (ResTooOld header_round limit_round))
      | Ret (WireEpochMismatch expected received) => Some (Ret (ResEpochMismatch expected received))
      | Ret (WireError s) => Some (Err (RPCError s))
      | Ret (WireMissingParents missing) => Some (Ret (ResMissingParents missing))
      | Ret WireOther => Some (Err (RPCError SaysOther))
      | Err e => Some (Err e)
      | Panic => Some Panic
      | Diverge => Some Diverge
      end
  end.
Definition RECOVERABLE_TRIES : nat := 6.

(** The errors of [DagError] that a proposal meets. *)
Inductive ProposalError :=
  | TooOldRejectedByPeers (peer_id : AuthorityIdentifier) (header_round limit_round : Round)
  | EpochRejectedByPeer (peer_id : AuthorityIdentifier) (peer_epoch our_epoch : Epoch)
  | VoteNetworkError
  | Canceled
  | ProposedHeaderMissingCertificates
  | ReadFailed
  | UnexpectedVote (d : HeaderDigest)
  | VoteInvalidEpoch (expected received : Epoch)
  | VoteInvalidRound (expected received : Round)
  | VoteUnknownAuthority (a : AuthorityIdentifier)
  | CouldNotFormCertificate (d : HeaderDigest)
  | VoteRefused (e : DagError).

(** What an attempt meets: the store, unless it cannot be read; the answers to
    its request, which carries parents, or [None] when the proposal is cancelled
    first; and whether the delay after it ends before the proposal is
    cancelled. *)
Record Attempt := {
  at_store : option CertTables;
  at_answers : list Certificate -> option Answers;
  at_slept : bool
}.

Definition MAX_VOTE_REQUEST_ATTEMPTS : Z := 30.
Definition REJECTION_GRACE : Z := 30.

Section certifier.
Context `{!Crypto} {it : HashIter} (config : ManagerConfig) (authority_id : AuthorityIdentifier).
Abbreviation committee := (mc_committee config).

(** The parents that a peer misses. *)
Definition collect_parents (h : Header) (store : option CertTables)
    (missing_parents : option (list CertificateDigest)) : Exec ProposalError (list Certificate) :=
  match missing_parents with
  | None => Ret []
  | Some missing =>
      let filtered := List.filter (fun d => bool_decide (d ∈ parents h)) missing in
      match store with
      | Some t =>
          let found := omap (fun x => x) (read_all filtered t) in
          if bool_decide (length found = length filtered) then Ret found
          else Err ProposedHeaderMissingCertificates
      | None => Err ReadFailed
      end
  end.

(** The checks of a vote that a peer sent. *)
Definition check_vote (authority : AuthorityIdentifier) (h : Header) (v : Vote) : Exec ProposalError Vote :=
  _ ← ensure ((header_digest_of v =? header_digest h) && (vote_origin v =? author h)
              && (vote_author v =? authority)) (UnexpectedVote (header_digest_of v));
  _ ← ensure (epoch h =? vote_epoch v) (VoteInvalidEpoch (epoch h) (vote_epoch v));
  _ ← ensure (round h =? vote_round v) (VoteInvalidRound (round h) (vote_round v));
  _ ← ensure (vote_epoch v =? committee_epoch committee)
        (VoteInvalidEpoch (committee_epoch committee) (vote_epoch v));
  _ ← ensure (0 <? voting_power_by_id committee (vote_author v)) (VoteUnknownAuthority (vote_author v));
  Ret v.

(** The loop of [request_vote]; no result while the peer does not answer. *)
Fixpoint request_vote_loop (authority : AuthorityIdentifier) (h : Header) (attempt : Z)
    (missing_parents : option (list CertificateDigest)) (attempts : list Attempt) :
    option (Exec ProposalError Vote) :=
  match attempts with
  | [] => None
  | a :: attempts =>
      let attempt := attempt + 1 in
      match collect_parents h (at_store a) missing_parents with
      | Ret ps =>
          let again (missing_parents : option (list CertificateDigest)) :=
            if MAX_VOTE_REQUEST_ATTEMPTS <=? attempt then Some (Err VoteNetworkError)
            else if at_slept a then request_vote_loop authority h attempt missing_parents attempts
            else Some (Err Canceled) in
          match at_answers a ps with
          | None => Some (Err Canceled)
          | Some answers =>
              match network_request_vote RECOVERABLE_TRIES answers with
              | None => None
              | Some (Ret (ResVote v)) => Some (check_vote authority h v)
              | Some (Ret (ResMissingParents missing)) => again (Some missing)
              | Some (Ret (ResTooOld header_round limit_round)) =>
                  Some (Err (TooOldRejectedByPeers authority header_round limit_round))
              | Some (Ret (ResEpochMismatch expected received)) =>
                  Some (Err (EpochRejectedByPeer authority expected received))
              | Some (Err (RPCError SaysTooOld)) =>
                  Some (Err (TooOldRejectedByPeers authority (round h) 0))
              | Some (Err (RPCError _)) => Some (Err VoteNetworkError)
              | Some (Err OtherNetworkError) => again None
              | Some Panic => Some Panic
              | Some Diverge => Some Diverge
              end
          end
      | Err e => Some (Err e)
      | Panic => Some Panic
      | Diverge => Some Diverge
      end
  end.

(** [Certifier::request_vote] *)
Definition request_vote (authority : AuthorityIdentifier) (h : Header)
    (attempts : list Attempt) : option (Exec ProposalError Vote) :=
  request_vote_loop authority h 0 None attempts.

(** ** Errors of votes *)

Inductive VoteErrorAction := Abort (e : ProposalError) | Continue.

(** [handle_vote_error]: the tracker, whether [request_cvv_inactive] was called,
    and what to do. *)
Definition handle_vote_error (e : ProposalError) (now : Instant) (t : VoteFailureTracker) :
    VoteFailureTracker * bool * VoteErrorAction :=
  match e with
  | TooOldRejectedByPeers peer_id _ _ =>
      let '(t, skip) := skip_with_rejection_grace REJECTION_GRACE now t in
      if skip then (t, false, Continue)
      else
        match record_too_old peer_id t with
        | (t, BelowThreshold) => (t, false, Continue)
        | (t, TransitionToInactive) => (t, true, Abort e)
        end
  | EpochRejectedByPeer peer_id peer_epoch our_epoch =>
      if negb (should_count_epoch_rejection peer_epoch our_epoch) then (t, false, Continue)
      else
        let '(t, skip) :=
          if is_one_epoch_behind peer_epoch our_epoch
          then skip_with_rejection_grace REJECTION_GRACE now t else (t, false) in
        if skip then (t, false, Abort e)
        else
          match record_epoch_mismatch peer_id t with
          | (t, BelowThreshold) => (t, false, Abort e)
          | (t, TransitionToInactive) => (t, true, Abort e)
          end
  | _ => (t, false, Continue)
  end.

(** ** Proposals *)

(** Where the task of a header is: collecting votes of the peers whose requests
    have not ended, waiting for the certificate manager, publishing, or
    finished. *)
Inductive Stage :=
  | Collecting (votes : HeaderVotesAggregator) (waiting : list AuthorityIdentifier)
  | Storing (x : Certificate)
  | Publishing (x : Certificate)
  | Finished.

Record Proposal := { pr_header : Header; pr_stage : Stage }.

Definition with_stage (p : Proposal) (st : Stage) : Proposal := {| pr_header := pr_header p; pr_stage := st |}.

(** After a vote: the certificate, or the next votes. *)
Definition after_vote (g : HeaderVotesAggregator) (waiting : list AuthorityIdentifier)
    (certificate : option Certificate) : Stage :=
  match certificate with Some x => Storing x | None => Collecting g waiting end.

(** The start of [propose_header]: the epoch, the own vote, the requests. *)
Definition propose_start (h : Header) (signature : BlsSignature) (now : TimestampSec) : Stage :=
  if negb (epoch h =? committee_epoch committee) then Finished
  else
    match append_vote (HeaderVotesAggregator_new committee) (Vote_new h authority_id signature) committee h now with
    | (g, Ret certificate) =>
        after_vote g (fst <$> others_primaries_by_id committee (Some authority_id)) certificate
    | _ => Finished
    end.

(** ** The machine *)

(** The certifier with what it shares: the tasks it spawned, the last of which is
    [in_flight] of the loop, the tracker, whether a demotion was requested, the
    certificate manager with its store, and what was published. *)
Record Certifier := {
  cf_tasks : list Proposal;
  vote_failures : VoteFailureTracker;
  cvv_inactive : bool;
  cf_manager : CertificateManager;
  cf_published : list Certificate;
  cf_stopped : bool
}.

Definition set_task (i : nat) (st : Stage) (s : Certifier) : Certifier :=
  {| cf_tasks := alter (fun p => with_stage p st) i (cf_tasks s); vote_failures := vote_failures s;
     cvv_inactive := cvv_inactive s; cf_manager := cf_manager s; cf_published := cf_published s;
     cf_stopped := cf_stopped s |}.
Definition set_vote_failures (t : VoteFailureTracker) (inactive : bool) (s : Certifier) : Certifier :=
  {| cf_tasks := cf_tasks s; vote_failures := t; cvv_inactive := cvv_inactive s || inactive;
     cf_manager := cf_manager s; cf_published := cf_published s; cf_stopped := cf_stopped s |}.
Definition set_manager (m : CertificateManager) (s : Certifier) : Certifier :=
  {| cf_tasks := cf_tasks s; vote_failures := vote_failures s; cvv_inactive := cvv_inactive s;
     cf_manager := m; cf_published := cf_published s; cf_stopped := cf_stopped s |}.
Definition publish_certificate (x : Certificate) (s : Certifier) : Certifier :=
  {| cf_tasks := cf_tasks s; vote_failures := vote_failures s; cvv_inactive := cvv_inactive s;
     cf_manager := cf_manager s; cf_published := cf_published s ++ [x]; cf_stopped := cf_stopped s |}.

(** A certificate proves that peers accept the headers of this node. *)
Definition after_certificate (certificate : option Certificate) (s : Certifier) : Certifier :=
  match certificate with Some _ => set_vote_failures (clear_counters (vote_failures s)) false s | None => s end.

(** The other work of the certificate manager: its commands, certificates of
    peers and fetched ones. *)
Inductive ManagerWork :=
  | ManagerTurn (ev : ManagerEvent)
  | PeerCertificate (committed : Round) (active_cvv : bool) (x : Certificate)
  | FetchedCertificates (committed : Round) (active_cvv : bool) (xs : list Certificate).
Definition manager_work (w : ManagerWork) (m : CertificateManager) : CertificateManager :=
  (match w with
   | ManagerTurn ev => handle_event config ev m
   | PeerCertificate committed active_cvv x => process_peer_certificate config committed active_cvv x m
   | FetchedCertificates committed active_cvv xs =>
       process_fetched_certificates_in_parallel config committed active_cvv xs m
   end).1.

(** The events. [HeaderRecv] has whether the store can be read, and the signature
    and time of the own vote; [VoteTask] the peer whose request ends and what its
    attempts met; [Cancelled] a task that notices that it was replaced, or is
    aborted; [StoreOwn] the reply of the manager, [PublishOwn] whether gossip took
    the certificate. *)
Inductive CertifierEvent :=
  | HeaderRecv (h : Header) (readable : bool) (signature : BlsSignature) (now : TimestampSec)
  | VoteTask (i : nat) (peer : AuthorityIdentifier) (attempts : list Attempt) (now : TimestampSec)
  | VotesClosed (i : nat)
  | CancelTask (i : nat)
  | StoreOwn (i : nat) (committed : Round) (active_cvv : bool)
  | PublishOwn (i : nat) (published : bool)
  | ManagerWorks (w : ManagerWork)
  | Shutdown.

Definition is_finished (p : Proposal) : bool := match pr_stage p with Finished => true | _ => false end.

(** The branch of [run] for a header. *)
Definition header_received (h : Header) (readable : bool) (signature : BlsSignature) (now : TimestampSec)
    (s : Certifier) : Certifier :=
  if match last (cf_tasks s) with
     | Some p => (header_digest (pr_header p) =? header_digest h) && negb (is_finished p)
     | None => false
     end then s
  else if negb readable then s
  else if contains_certificate (header_digest h) (node_storage (cf_manager s)) then s
  else
    let st := propose_start h signature now in
    let s := match st with Storing x => after_certificate (Some x) s | _ => s end in
    {| cf_tasks := cf_tasks s ++ [{| pr_header := h; pr_stage := st |}];
       vote_failures := vote_failures s; cvv_inactive := cvv_inactive s; cf_manager := cf_manager s;
       cf_published := cf_published s; cf_stopped := cf_stopped s |}.

(** The loop of [propose_header] on the result of a request. *)
Definition vote_received (i : nat) (h : Header) (g : HeaderVotesAggregator) (waiting : list AuthorityIdentifier)
    (res : Exec ProposalError Vote) (now : TimestampSec) (s : Certifier) : Certifier :=
  match res with
  | Ret v =>
      match append_vote g v committee h now with
      | (g, Ret certificate) => set_task i (after_vote g waiting certificate) (after_certificate certificate s)
      | (g, _) => set_task i (Collecting g waiting) s
      end
  | Err e =>
      let '(t, inactive, action) := handle_vote_error e now (vote_failures s) in
      let s := set_vote_failures t inactive s in
      match action with
      | Abort _ => set_task i Finished s
      | Continue => set_task i (Collecting g waiting) s
      end
  | _ => set_task i (Collecting g waiting) s
  end.

Definition certifier_step (s : Certifier) (ev : CertifierEvent) : Certifier :=
  match ev with
  | HeaderRecv h readable signature now =>
      if cf_stopped s then s else header_received h readable signature now s
  | VoteTask i peer attempts now =>
      match cf_tasks s !! i with
      | Some {| pr_header := h; pr_stage := Collecting g waiting |} =>
          if bool_decide (peer ∈ waiting) then
            match request_vote peer h attempts with
            | Some res => vote_received i h g (List.filter (fun a => negb (a =? peer)) waiting) res now s
            | None => s
            end
          else s
      | _ => s
      end
  | VotesClosed i =>
      match cf_tasks s !! i with
      | Some {| pr_stage := Collecting _ [] |} => set_task i Finished s
      | _ => s
      end
  | CancelTask i =>
      if bool_decide (S i = length (cf_tasks s)) && negb (cf_stopped s) then s else set_task i Finished s
  | StoreOwn i committed active_cvv =>
      match cf_tasks s !! i with
      | Some {| pr_stage := Storing x |} =>
          let '(m, r) := process_own_certificate config committed active_cvv x (cf_manager s) in
          let s := set_manager m s in
          match r with Ret _ => set_task i (Publishing x) s | _ => set_task i Finished s end
      | _ => s
      end
  | PublishOwn i published =>
      match cf_tasks s !! i with
      | Some {| pr_stage := Publishing x |} =>
          set_task i Finished (if published then publish_certificate x s else s)
      | _ => s
      end
  | ManagerWorks w => set_manager (manager_work w (cf_manager s)) s
  | Shutdown =>
      {| cf_tasks := cf_tasks s; vote_failures := vote_failures s; cvv_inactive := cvv_inactive s;
         cf_manager := cf_manager s; cf_published := cf_published s; cf_stopped := true |}
  end.

(** [Certifier::spawn]: the highest certificate of this authority is published
    again. *)
Definition Certifier_new (m : CertificateManager) (published : bool) : Certifier :=
  {| cf_tasks := []; vote_failures := VoteFailureTracker_new (committee_size committee);
     cvv_inactive := false; cf_manager := m;
     cf_published := if published then option_list (last_round authority_id (node_storage m)) else [];
     cf_stopped := false |}.

Definition certifier_run (s : Certifier) (evs : list CertifierEvent) : Certifier := foldl certifier_step s evs.
End certifier.
