(* ===== verification/CertifierProps.v ===== *)
(** * Certification

    Proofs about [Certifier]: no header is published with two certificates, what
    is published is stored first and accepted by every peer, the votes of a
    quorum make a certificate, faulty peers cannot demote the node, and one of
    them can keep it from certifying. *)
From S2P Require Import Prelude State Types Committee Certificates PairMap CertStore PendingCerts CertManager CertManagerProps Certifier.
From stdpp Require Import strings.
#[local] Open Scope Z_scope.

(** ** The manager only adds to the store *)
Section grows.
Context `{!Crypto} {it : HashIter} (config : ManagerConfig).
Implicit Types s : CertificateManager.
Abbreviation M := (ST CertificateManager CertManagerError).

Definition stored_digests s : gset Z := dom (certificates (node_storage s)).
Definition adds {A} (m : M A) : Prop := forall s, stored_digests s ⊆ stored_digests (m s).1.

Lemma adds_ret {A} (a : A) : adds (mret a).
Proof. by intros s. Qed.
Lemma adds_throw {A} e : adds (throw (A := A) e).
Proof. by intros s. Qed.
Lemma adds_gets {A} (f : CertificateManager -> A) : adds (gets f).
Proof. by intros s. Qed.
Lemma adds_lift {A} (r : Exec CertManagerError A) : adds (lift r).
Proof. by intros s. Qed.
Lemma adds_modify f : (forall s, node_storage (f s) = node_storage s) -> adds (modify f).
Proof. intros Hf s. unfold stored_digests. simpl. by rewrite Hf. Qed.
Lemma adds_send e f : (forall s, node_storage (f s) = node_storage s) -> adds (send_or e f).
Proof. intros Hf s. unfold send_or, stored_digests. destruct (receivers s); simpl; [by rewrite Hf|done]. Qed.
Lemma adds_noticed : adds noticed.
Proof. intros s. unfold noticed. by destruct (notices s) as [[]|]. Qed.
Lemma adds_pending {A} (f : ST PendingCertificateManager CertManagerError A) : adds (on_pending f).
Proof. intros s. unfold on_pending. by destruct (f (cm_pending s)). Qed.
Lemma adds_bind {A B} (m : M A) (f : A -> M B) : adds m -> (forall a, adds (f a)) -> adds (m ≫= f).
Proof.
  intros Hm Hf s. unfold mbind, st_bind. specialize (Hm s). destruct (m s) as [s' [a|e| |]]; simpl in *; try done.
  etrans; [exact Hm|apply Hf].
Qed.
Lemma adds_if {A} (b : bool) (m m' : M A) : adds m -> adds m' -> adds (if b then m else m').
Proof. by destruct b. Qed.

Ltac adds := repeat first
  [ apply adds_ret | apply adds_throw | apply adds_gets | apply adds_lift | apply adds_noticed | apply adds_pending
  | apply adds_modify; intros ?; done | apply adds_send; intros ?; done
  | apply adds_bind; [|intros ?] | apply adds_if | done ].

Lemma save_all_adds (xs : list Certificate) (t : CertTables) :
  dom (certificates t) ⊆ dom (certificates (save_all xs t)) /\
  forall x, x ∈ xs -> digest x ∈ dom (certificates (save_all xs t)).
Proof.
  revert t. induction xs as [|y xs IH]; intros t; simpl; [split; [done|by intros ? ?%not_elem_of_nil]|].
  destruct (IH (save_cert (digest y) y t)) as [Hd Hin]. split.
  - etrans; [|exact Hd]. simpl. rewrite dom_insert. set_solver.
  - intros x [->|Hx]%elem_of_cons; [|by apply Hin]. apply Hd. simpl. rewrite dom_insert. set_solver.
Qed.

Lemma persist_adds xs s :
  let '(s', r) := persist_and_advance_high_water_mark config xs s in
  stored_digests s ⊆ stored_digests s' /\ (forall u, r = Ret u -> forall x, x ∈ xs -> digest x ∈ stored_digests s').
Proof.
  unfold persist_and_advance_high_water_mark, write_all, with_write_txn.
  destruct (store_fatal _); [by split; [|intros ? [=]]|]. destruct (save_all_adds xs (node_storage s)) as [Hd Hin].
  split; [exact Hd|]. intros u _. exact Hin.
Qed.
Lemma adds_persist xs : adds (persist_and_advance_high_water_mark config xs).
Proof. intros s. pose proof (persist_adds xs s) as Hp. destruct (persist_and_advance_high_water_mark _ _ _). apply Hp. Qed.

Lemma adds_append e x : adds (append_parents config e x).
Proof.
  intros s. unfold append_parents. destruct (append_certificate _ _ _) as [[p [ps|]]|[]| |]; try done.
  unfold send_or. by destruct (receivers _).
Qed.
Lemma adds_forward x : adds (forward_to_dag config x).
Proof. unfold forward_to_dag. apply adds_bind; [apply adds_append|intros _]. adds. Qed.

Lemma adds_forward_all xs : adds (forward_all config xs).
Proof.
  induction xs as [|x xs IH]; [apply adds_ret|]. simpl. apply adds_bind; [unfold record_accepted_metrics; adds|intros _].
  apply adds_bind; [apply adds_noticed|intros []]; [done|]. intros s. pose proof (adds_forward x s) as Hf.
  destruct (forward_to_dag config x s) as [s1 [u|e| |]]; simpl in *; try done; [etrans; [exact Hf|apply IH]|].
  pose proof (adds_noticed s1) as Hn. destruct (noticed s1) as [s2 [[]| | |]]; simpl in *; by etrans.
Qed.
Lemma adds_accept xs : adds (accept_verified_certificates config xs).
Proof. unfold accept_verified_certificates. apply adds_bind; [apply adds_persist|intros _; apply adds_forward_all]. Qed.

Lemma adds_missing x : adds (get_missing_parents config x).
Proof.
  unfold get_missing_parents. apply adds_if; [destruct (List.find _ _); adds|]. apply adds_bind; [adds|intros t].
  case_bool_decide; adds.
Qed.

Lemma adds_process xs result : adds (process_verified_loop config xs result).
Proof.
  revert result. induction xs as [|x xs IH]; intros result; [destruct result; adds|]. simpl. apply adds_if; [adds|].
  apply adds_bind; [adds|intros []]; [done|]. apply adds_bind; [adds|intros gc].
  apply adds_bind; [apply adds_bind; [adds|intros next]; apply adds_if; [apply adds_missing|adds]|intros missing].
  case_bool_decide; (apply adds_bind; [adds|intros ?]); [|done].
  apply adds_bind; [apply adds_accept|intros _; apply IH].
Qed.

Lemma adds_gc fuel effective accept : (forall xs, adds (accept xs)) -> adds (gc_loop fuel effective accept).
Proof.
  intros Ha. induction fuel as [|fuel IH]; intros s; simpl; destruct (next_for_gc_round _ _) as [p [[r d]|]]; try done.
  assert (Hm : adds (unlocked ← on_pending (update_pending r d); _ ← accept unlocked; gc_loop fuel effective accept)).
  { apply adds_bind; [adds|intros u]. apply adds_bind; [apply Ha|intros _; apply IH]. }
  exact (Hm (with_pending p s)).
Qed.

Lemma adds_handle ev : adds (handle_event config ev).
Proof.
  intros s. destruct ev as [xs|ds|e committed active]; simpl; [| done|].
  - pose proof (adds_process (merge_sort round_le xs) None s) as Hp. unfold process_verified_certificates.
    destruct (process_verified_loop _ _ _ s) as [s' [u|[]| |]]; done.
  - assert (Hr : adds (ready e)) by (destruct e; unfold ready, process_max_round_timeout, process_next_round; adds).
    specialize (Hr s). destruct (ready e s) as [s' [u|err| |]]; simpl in *; try done.
    + etrans; [exact Hr|]. unfold process_gc_round.
      match goal with |- context [gc_loop ?f ?e ?a ?s0] => exact (adds_gc f e a adds_accept s0) end.
    + by destruct err as [|[]| | | | | | | |].
Qed.

Lemma adds_window xs : adds (slide_window config xs).
Proof.
  induction xs as [|x xs IH]; [apply adds_ret|]. simpl. apply adds_bind; [adds|intros h].
  apply adds_bind; [adds|intros limit]. apply adds_bind; [|by intros _]. apply adds_modify. intros s. by destruct (_ <? _).
Qed.
Lemma adds_forward_verified committed active highest xs :
  adds (forward_verified_certs config committed active highest xs).
Proof.
  unfold forward_verified_certs. apply adds_bind; [adds|intros _]. apply adds_bind.
  { apply adds_if; [adds|]. apply adds_bind; [adds|intros h]. adds. }
  intros _. apply adds_bind; [adds|intros _]. apply adds_bind; [apply adds_window|intros _]. apply adds_process.
Qed.
Lemma adds_validate x : adds (validate_for_gc config x).
Proof. intros s. unfold validate_for_gc. by destruct (_ <? _). Qed.
Lemma adds_certificate committed active external x : adds (process_certificate config committed active external x).
Proof.
  unfold process_certificate. apply adds_bind; [intros s; unfold st_ensure; by destruct (_ =? _)|intros _].
  apply adds_bind; [adds|intros t]. apply adds_if; [adds|]. apply adds_bind.
  { apply adds_if; [apply adds_validate|adds]. }
  intros y. apply adds_forward_verified.
Qed.
Lemma adds_collection xs : adds (verify_collection config xs).
Proof.
  induction xs as [|x xs IH]; [apply adds_ret|]. intros s. simpl. pose proof (adds_validate x s) as Hv.
  destruct (validate_for_gc config x s) as [s1 [y|e| |]]; simpl in *; try done.
  - etrans; [exact Hv|]. apply (adds_bind (verify_collection config xs) (fun ys => mret (y :: ys))); [done|]. intros ys. adds.
  - destruct e as [[]| | | | | | | | |]; simpl; try done. etrans; [exact Hv|apply IH].
Qed.
Lemma adds_work w s : stored_digests s ⊆ stored_digests (manager_work config w s).
Proof.
  destruct w as [ev|committed active x|committed active xs]; simpl; [apply adds_handle|apply adds_certificate|].
  apply (adds_bind (verify_collection config xs)); [apply adds_collection|intros ys; apply adds_forward_verified].
Qed.

(** The reply for an own certificate comes after it is in the store. *)
Lemma own_stored committed active x s s' u :
  process_own_certificate config committed active x s = (s', Ret u) -> digest x ∈ stored_digests s'.
Proof.
  unfold process_own_certificate, process_certificate. intros Hr.
  apply st_bind_Ret in Hr as (u1 & s1 & _ & Hr). apply st_bind_Ret in Hr as (t & s2 & Ht & Hr).
  injection Ht as <- <-. unfold contains_certificate in Hr. case_bool_decide as Hc.
  { injection Hr as <- _. by apply elem_of_dom. }
  apply st_bind_Ret in Hr as (y & s3 & Hy & Hr). injection Hy as <- <-.
  unfold forward_verified_certs in Hr.
  apply st_bind_Ret in Hr as (u2 & s4 & _ & Hr). apply st_bind_Ret in Hr as (u3 & s5 & _ & Hr).
  apply st_bind_Ret in Hr as (u4 & s6 & _ & Hr). apply st_bind_Ret in Hr as (u5 & s7 & _ & Hr).
  unfold process_verified_certificates in Hr. simpl in Hr.
  destruct (negb (is_verified x)); [done|]. apply st_bind_Ret in Hr as (pend & s8 & Hp & Hr).
  destruct pend; [done|]. apply st_bind_Ret in Hr as (gc & s9 & _ & Hr). apply st_bind_Ret in Hr as (missing & s10 & _ & Hr).
  case_bool_decide; [|by apply st_bind_Ret in Hr as (? & ? & _ & ?)].
  apply st_bind_Ret in Hr as (unlocked & s11 & _ & Hr). apply st_bind_Ret in Hr as (u6 & s12 & Ha & Hr).
  injection Hr as <- _. unfold accept_verified_certificates in Ha. apply st_bind_Ret in Ha as (u7 & s13 & Hw & Hf).
  pose proof (persist_adds (x :: unlocked) s11) as Hd. rewrite Hw in Hd. destruct Hd as [_ Hd].
  pose proof (adds_forward_all (x :: unlocked) s13) as Hfa. rewrite Hf in Hfa. apply Hfa, (Hd u7 eq_refl). left.
Qed.
End grows.

(** ** Headers in order *)

(** A header is proposed again only before another one. *)
Definition contiguous (ds : list HeaderDigest) : Prop := forall d x, [d; x; d] `sublist_of` ds -> x = d.

Lemma contiguous_sublist ds ds' : ds' `sublist_of` ds -> contiguous ds -> contiguous ds'.
Proof. intros Hs Hc d x Hx. apply Hc. by etrans. Qed.

Lemma contiguous_last ds d x : contiguous (ds ++ [d]) -> last ds = Some x -> d ∈ ds -> x = d.
Proof.
  intros Hc Hl Hd. apply last_Some in Hl as [l ->]. apply elem_of_app in Hd as [Hd|Hd]; [|set_solver].
  apply Hc. apply list_elem_of_split in Hd as (l1 & l2 & ->). rewrite <- !app_assoc. simpl.
  apply sublist_inserts_l. constructor. apply sublist_inserts_l. constructor. constructor. constructor.
Qed.

Lemma sublist_three {A} (l : list A) x y z : [x; y; z] `sublist_of` l ->
  exists i j k, (i < j)%nat /\ (j < k)%nat /\ l !! i = Some x /\ l !! j = Some y /\ l !! k = Some z.
Proof.
  intros (l1 & l' & -> & (l2 & l'' & -> & (l3 & l4 & -> & _)%sublist_cons_l)%sublist_cons_l)%sublist_cons_l.
  exists (length l1), (length l1 + S (length l2))%nat, (length l1 + S (length l2 + S (length l3)))%nat.
  split_and!; [lia..|by rewrite list_lookup_middle| |].
  - rewrite lookup_app_r by lia. replace (_ - _)%nat with (S (length l2)) by lia. simpl. by rewrite list_lookup_middle.
  - rewrite lookup_app_r by lia. replace (_ - _)%nat with (S (length l2 + S (length l3))) by lia. simpl.
    rewrite lookup_app_r by lia. replace (_ - _)%nat with (S (length l3)) by lia. simpl. by rewrite list_lookup_middle.
Qed.

Section once.
Context `{!Crypto} {it : HashIter} (config : ManagerConfig) (me : AuthorityIdentifier).
Implicit Types (s : Certifier) (p : Proposal) (x : Certificate).
Abbreviation step := (certifier_step config me).
Abbreviation stored s := (stored_digests (cf_manager s)).
Abbreviation pdigest p := (header_digest (pr_header p)).

(** The digests of the headers received. *)
Definition received (evs : list CertifierEvent) : list HeaderDigest :=
  omap (fun ev => match ev with HeaderRecv h _ _ _ => Some (header_digest h) | _ => None end) evs.

(** A certificate on its way is of the header of its task, and stored before it
    is published. *)
Definition stage_ok s p : Prop :=
  match pr_stage p with
  | Storing x => digest x = pdigest p
  | Publishing x => digest x = pdigest p /\ digest x ∈ stored s
  | _ => True
  end.

Record once_ok (hs : list HeaderDigest) s : Prop := {
  oc_received : (fun p => pdigest p) <$> cf_tasks s `sublist_of` hs;
  oc_stages : Forall (stage_ok s) (cf_tasks s);
  oc_stored : Forall (fun x => digest x ∈ stored s) (cf_published s);
  oc_nodup : NoDup (digest <$> cf_published s);
  oc_fresh : forall i p, cf_tasks s !! i = Some p -> pr_stage p <> Finished ->
    pdigest p ∉ digest <$> cf_published s;
  oc_done : forall i j p q, cf_tasks s !! i = Some p -> cf_tasks s !! j = Some q -> (i < j)%nat ->
    pdigest p = pdigest q -> pr_stage p = Finished
}.

Lemma append_vote_header g v h now g' x :
  append_vote g v (mc_committee config) h now = (g', Ret (Some x)) -> header x = h.
Proof.
  unfold append_vote. destruct (negb _); [done|]. destruct (committee_authority _ _); [|done].
  destruct (negb _); [done|]. destruct (append _ _ _) as [[inner' []]| | |]; try done.
  intros [= _ Hr]. apply bind_Ret_inv in Hr as (y & Hy & Hr).
  assert (header y = h).
  { unfold new_unverified, new_internal in Hy. apply bind_Ret_inv in Hy as ([[[vs sigs] w] signed] & _ & Hy).
    apply bind_Ret_inv in Hy as (u1 & _ & Hy). apply bind_Ret_inv in Hy as (u2 & _ & Hy).
    apply bind_Ret_inv in Hy as (u3 & _ & Hy). by injection Hy as <-. }
  destruct (aggregated_signature y); [|done]. injection Hr as <-. done.
Qed.

Lemma stage_ok_mono s s' p : stored s ⊆ stored s' -> stage_ok s p -> stage_ok s' p.
Proof. intros Hs. unfold stage_ok. destruct (pr_stage p); naive_solver. Qed.

(** Only the store grew. *)
Lemma once_frame hs s s' :
  once_ok hs s -> cf_tasks s' = cf_tasks s -> cf_published s' = cf_published s -> stored s ⊆ stored s' -> once_ok hs s'.
Proof.
  intros [] Ht Hp Hs. split; rewrite ?Ht, ?Hp; try done.
  - eapply Forall_impl; [exact oc_stages0|]. intros p. by apply stage_ok_mono.
  - eapply Forall_impl; [exact oc_stored0|]. intros x Hx. by apply Hs.
Qed.

Lemma set_task_lookup i st s j q :
  cf_tasks (set_task i st s) !! j = Some q ->
  exists p, cf_tasks s !! j = Some p /\ pdigest q = pdigest p /\
    q = (if decide (i = j) then with_stage p st else p).
Proof.
  simpl. rewrite list_lookup_alter. case_decide as Hij; [|by exists q].
  subst j. intros (p & Hp & ->)%fmap_Some. by exists p.
Qed.

Lemma task_digests i st s : (fun p => pdigest p) <$> cf_tasks (set_task i st s) = (fun p => pdigest p) <$> cf_tasks s.
Proof.
  apply list_eq. intros j. simpl. rewrite !list_lookup_fmap, list_lookup_alter.
  case_decide as Hij; [subst j|done]. by destruct (cf_tasks s !! i).
Qed.

(** A task moves on. *)
Lemma once_set_task hs s i p st :
  once_ok hs s -> cf_tasks s !! i = Some p -> pr_stage p <> Finished \/ st = Finished ->
  stage_ok s (with_stage p st) -> once_ok hs (set_task i st s).
Proof.
  intros [] Hi Hst Hok. split.
  - by rewrite task_digests.
  - apply Forall_lookup. intros j q (p' & Hp' & _ & ->)%set_task_lookup. rewrite Forall_lookup in oc_stages0.
    case_decide as Hij; [subst j; by simplify_eq|]. by apply (oc_stages0 j).
  - done.
  - done.
  - intros j q (p' & Hp' & -> & Hq)%set_task_lookup Hn. apply (oc_fresh0 j p' Hp').
    subst q. case_decide as Hij; [|done]. subst j. simplify_eq. by destruct Hst as [Hst| ->].
  - intros j k q q' (p1 & H1 & D1 & Hq)%set_task_lookup (p2 & H2 & D2 & _)%set_task_lookup Hjk Hd.
    rewrite D1, D2 in Hd. pose proof (oc_done0 j k p1 p2 H1 H2 Hjk Hd) as Hf. subst q.
    case_decide as Hij; [|done]. subst j. simplify_eq. by destruct Hst as [Hst| ->].
Qed.

Lemma once_finish hs s i : once_ok hs s -> once_ok hs (set_task i Finished s).
Proof.
  intros Hok. destruct (cf_tasks s !! i) as [p|] eqn:Hi; [eapply once_set_task; [done|exact Hi|by right|done]|].
  eapply once_frame; [exact Hok| |done|done]. simpl. apply list_eq. intros j. rewrite list_lookup_alter.
  case_decide; [subst j; by rewrite Hi|done].
Qed.

(** A certificate is published by the only task of its header. *)
Lemma once_publish hs s i p x :
  once_ok hs s -> cf_tasks s !! i = Some p -> pr_stage p = Publishing x ->
  once_ok hs (set_task i Finished (publish_certificate x s)).
Proof.
  intros Hok Hi Hst. pose proof Hok as []. rewrite Forall_lookup in oc_stages0.
  pose proof (oc_stages0 i p Hi) as Hs. unfold stage_ok in Hs. rewrite Hst in Hs. destruct Hs as [Hd Hin].
  assert (Hnf : pr_stage p <> Finished) by (by rewrite Hst).
  destruct (once_finish hs s i Hok) as [Hr1 Hs1 _ _ _ Hd1]. split.
  - exact Hr1.
  - exact Hs1.
  - simpl. apply Forall_app. split; [done|]. by constructor.
  - simpl. rewrite fmap_app. apply NoDup_app. split_and!; [done| |apply NoDup_singleton].
    intros d Hd' ->%list_elem_of_singleton. apply (oc_fresh0 i p Hi Hnf). by rewrite <- Hd.
  - intros j q Hq Hn. assert (Hq' := Hq). apply set_task_lookup in Hq' as (p' & Hp' & Hdq & Hqe). rewrite Hdq.
    simpl. rewrite fmap_app, not_elem_of_app. split.
    + apply (oc_fresh0 j p' Hp'). subst q. case_decide; [done|done].
    + intros Heq%list_elem_of_singleton. subst q. case_decide as Hij; [done|]. rewrite Hd in Heq.
      destruct (decide (i < j)%nat) as [Hlt|Hge].
      * by rewrite (oc_done0 i j p p' Hi Hp' Hlt (eq_sym Heq)) in Hnf.
      * by rewrite (oc_done0 j i p' p Hp' Hi ltac:(lia) Heq) in Hn.
  - exact Hd1.
Qed.

Lemma propose_start_ok s h signature now :
  stage_ok s {| pr_header := h; pr_stage := propose_start config me h signature now |}.
Proof.
  unfold stage_ok, propose_start. simpl. destruct (negb _); [done|].
  destruct (append_vote _ _ _ _ _) as [g [[x|]| | |]] eqn:Ha; simpl; try done.
  apply append_vote_header in Ha. unfold digest. by rewrite Ha.
Qed.

(** A header is received. *)
Lemma once_header hs s h readable signature now :
  contiguous (hs ++ [header_digest h]) -> once_ok hs s ->
  once_ok (hs ++ [header_digest h]) (header_received config me h readable signature now s).
Proof.
  intros Hc Hok. assert (Hok' : once_ok (hs ++ [header_digest h]) s).
  { destruct Hok. split; try done. by apply sublist_inserts_r. }
  unfold header_received. destruct (match last (cf_tasks s) with Some _ => _ | None => _ end) eqn:Hl; [done|].
  destruct (negb readable); [done|]. unfold contains_certificate. case_bool_decide as Hst; [done|].
  assert (Hst' : header_digest h ∉ stored s) by (unfold stored_digests; by rewrite elem_of_dom).
  set (st := propose_start _ _ _ _ _). set (s1 := match st with Storing x => _ | _ => _ end).
  assert (Hs1 : cf_tasks s1 = cf_tasks s /\ cf_published s1 = cf_published s /\ cf_manager s1 = cf_manager s)
    by (unfold s1; by destruct st).
  destruct Hs1 as (Ht1 & Hp1 & Hm1).
  pose proof Hok as []. rewrite Forall_forall in oc_stored0.
  assert (Hprev : forall i p, cf_tasks s !! i = Some p -> pdigest p = header_digest h -> pr_stage p = Finished).
  { intros i p Hi Hd. destruct (last (cf_tasks s)) as [q|] eqn:Hq; [|by apply last_None in Hq; rewrite Hq in Hi].
    assert (Hdq : pdigest q = header_digest h).
    { apply (contiguous_last ((fun p => pdigest p) <$> cf_tasks s)).
      - eapply contiguous_sublist; [|exact Hc]. by apply sublist_app.
      - by rewrite fmap_last, Hq.
      - apply list_elem_of_fmap. exists p. split; [done|]. by eapply list_elem_of_lookup_2. }
    rewrite Hdq, Z.eqb_refl in Hl. simpl in Hl. apply negb_false_iff in Hl. rewrite last_lookup in Hq.
    destruct (decide (i = pred (length (cf_tasks s)))) as [->|Hne].
    - simplify_eq. unfold is_finished in Hl. by destruct (pr_stage q).
    - apply (oc_done0 _ _ _ _ Hi Hq); [apply lookup_lt_Some in Hi; lia|congruence]. }
  split; simpl; rewrite ?Ht1, ?Hp1, ?Hm1.
  - rewrite fmap_app. by apply sublist_app.
  - apply Forall_app. split; [|constructor; [|constructor]].
    + eapply Forall_impl; [exact oc_stages0|]. intros p. by apply stage_ok_mono.
    + apply propose_start_ok.
  - by rewrite Forall_forall.
  - done.
  - intros i p Hi Hn. apply lookup_snoc_Some in Hi as [[_ Hi]|[_ <-]]; [by apply (oc_fresh0 i)|]. simpl.
    intros (x & Hx & Hin)%list_elem_of_fmap. apply Hst'. rewrite Hx. by apply oc_stored0.
  - intros i j p q Hi Hj Hij Hd. apply lookup_snoc_Some in Hi as [[Hli Hi]|[-> _]].
    + apply lookup_snoc_Some in Hj as [[_ Hj]|[_ <-]]; [by apply (oc_done0 i j p q)|]. by apply (Hprev i).
    + apply lookup_lt_Some in Hj. rewrite length_app in Hj. simpl in Hj. lia.
Qed.

Lemma once_vote hs s i p g waiting waiting' res now :
  once_ok hs s -> cf_tasks s !! i = Some p -> pr_stage p = Collecting g waiting ->
  once_ok hs (vote_received config i (pr_header p) g waiting' res now s).
Proof.
  intros Hok Hi Hst. assert (Hnf : pr_stage p <> Finished \/ False) by (left; by rewrite Hst).
  assert (Hset : forall s1 st, cf_tasks s1 = cf_tasks s -> cf_published s1 = cf_published s ->
    cf_manager s1 = cf_manager s -> stage_ok s1 (with_stage p st) -> once_ok hs (set_task i st s1)).
  { intros s1 st Ht Hp Hm Hs. eapply once_set_task; [|by rewrite Ht|by left; rewrite Hst|done].
    eapply once_frame; [exact Hok|done|done|by rewrite Hm]. }
  unfold vote_received. destruct res as [v|e| |]; try by apply Hset.
  - destruct (append_vote g v _ _ now) as [g' [[x|]|err| |]] eqn:Ha; simpl; try by apply Hset.
    apply Hset; try done. unfold stage_ok. simpl. unfold digest. by rewrite (append_vote_header _ _ _ _ _ _ Ha).
  - destruct (handle_vote_error e now (vote_failures s)) as [[t inactive] [e'|]]; by apply Hset.
Qed.

Lemma once_step hs s ev :
  contiguous (hs ++ received [ev]) -> once_ok hs s -> once_ok (hs ++ received [ev]) (step s ev).
Proof.
  intros Hc Hok. destruct ev as [h readable signature now|i peer attempts now|i|i|i committed active|i published|w|];
    simpl in *; rewrite ?app_nil_r.
  - destruct (cf_stopped s); [|by apply once_header]. destruct Hok. split; try done. by apply sublist_inserts_r.
  - destruct (cf_tasks s !! i) as [[h [g waiting| | |]]|] eqn:Hi; try done. case_bool_decide; [|done].
    destruct (request_vote _ _ _ _) as [res|]; [|done]. by eapply once_vote with (p := {| pr_header := h; pr_stage := _ |}).
  - destruct (cf_tasks s !! i) as [[h [g [|]| | |]]|]; try done. by apply once_finish.
  - destruct (_ && _); [done|by apply once_finish].
  - destruct (cf_tasks s !! i) as [[h [|x| |]]|] eqn:Hi; try done.
    destruct (process_own_certificate config committed active x (cf_manager s)) as [m r] eqn:Hr.
    pose proof (adds_certificate config committed active false x (cf_manager s)) as Ha.
    unfold process_own_certificate in Hr. rewrite Hr in Ha. simpl in Ha.
    assert (Hok' : once_ok hs (set_manager m s)) by (by eapply once_frame).
    destruct r as [u|e| |]; try by apply once_finish.
    eapply once_set_task; [done|exact Hi|by left|].
    pose proof (oc_stages _ _ Hok) as Hs. rewrite Forall_lookup in Hs. specialize (Hs i _ Hi). unfold stage_ok in *. simpl in *.
    split; [done|]. by eapply own_stored.
  - destruct (cf_tasks s !! i) as [[h [| |x|]]|] eqn:Hi; try done.
    destruct published; [by eapply once_publish|by apply once_finish].
  - eapply once_frame; [exact Hok|done|done|]. apply adds_work.
  - by eapply once_frame.
Qed.

Lemma certifier_once_run evs hs s :
  contiguous (hs ++ received evs) -> once_ok hs s ->
  once_ok (hs ++ received evs) (certifier_run config me s evs).
Proof.
  revert hs s. induction evs as [|ev evs IH]; intros hs s Hc Hok; simpl; [by rewrite app_nil_r|].
  assert (Hsplit : received (ev :: evs) = received [ev] ++ received evs).
  { unfold received. change (ev :: evs) with ([ev] ++ evs). apply omap_app. }
  unfold certifier_run in *. simpl in *. rewrite Hsplit, app_assoc in *.
  apply IH; [done|]. apply once_step; [|done]. eapply contiguous_sublist; [|exact Hc]. by apply sublist_inserts_r.
Qed.

Lemma once_new m published : store_ok (node_storage m) -> once_ok [] (Certifier_new config me m published).
Proof.
  intros Hs. split; simpl; try done.
  - destruct published; [|constructor]. destruct (last_round me (node_storage m)) as [x|] eqn:Hx; [|constructor].
    constructor; [|constructor]. simpl. unfold last_round in Hx.
    destruct (record_prior_to _ _) as [[[name r] d]|]; [|done]. destruct (name =? me); [|done].
    unfold stored_digests, read_certificate in *. apply elem_of_dom. exists x.
    by destruct (so_cert _ Hs _ _ Hx) as [-> _].
  - destruct published; [|constructor]. destruct (last_round _ _); [apply NoDup_singleton|constructor].
Qed.

(** At most one certificate is published for each of a sequence of headers. *)
Lemma certifier_once m published evs :
  store_ok (node_storage m) -> contiguous (received evs) ->
  let s := certifier_run config me (Certifier_new config me m published) evs in
  NoDup (digest <$> cf_published s) /\
  Forall (fun x => contains_certificate (digest x) (node_storage (cf_manager s)) = true) (cf_published s).
Proof.
  intros Hm Hc s. destruct (certifier_once_run evs [] (Certifier_new config me m published) Hc (once_new m published Hm)).
  fold s in oc_nodup0, oc_stored0. split; [done|]. eapply Forall_impl; [exact oc_stored0|]. intros x Hx.
  apply bool_decide_eq_true. by apply elem_of_dom.
Qed.
End once.

(** ** What is published *)
Section valid.
Context `{!Crypto} {ok : CryptoOk} {it : HashIter} (config : ManagerConfig) (me : AuthorityIdentifier).
Abbreviation c := (mc_committee config).
Context (Hwf : committee_wf c).
Implicit Types (s : Certifier) (p : Proposal) (x : Certificate).
Abbreviation step := (certifier_step config me).

(** A certificate of a quorum for a header. *)
Definition certifies (h : Header) x : Prop := exists X, built_certificate c h X x.

Definition task_valid p : Prop :=
  match pr_stage p with
  | Collecting g _ => aggregator_ok c (pr_header p) g
  | Storing x | Publishing x => certifies (pr_header p) x
  | Finished => True
  end.

Definition headers_of (evs : list CertifierEvent) : list Header :=
  omap (fun ev => match ev with HeaderRecv h _ _ _ => Some h | _ => None end) evs.

Record valid_ok (hs : list Header) (new : list Certificate) s : Prop := {
  va_tasks : Forall (fun p => pr_header p ∈ hs /\ task_valid p) (cf_tasks s);
  va_new : Forall (fun x => exists h, h ∈ hs /\ certifies h x) new
}.

Lemma appended_valid g v h now :
  aggregator_ok c h g ->
  match append_vote g v c h now with
  | (g', Ret certificate) => forall waiting,
      task_valid {| pr_header := h; pr_stage := after_vote g' waiting certificate |}
  | (g', Err _) => g' = g
  | _ => False
  end.
Proof.
  intros Hg. pose proof (append_vote_cases c Hwf g v h now Hg) as Hc.
  destruct (append_vote g v c h now) as [g' [[x|]|[]| |]]; try done; try (by destruct Hc).
  - destruct Hc as (_ & _ & _ & Hx). intros waiting. by eexists.
  - destruct Hc as (_ & Hg' & _). by intros waiting.
Qed.

Lemma valid_set_task hs new s i p st :
  valid_ok hs new s -> cf_tasks s !! i = Some p -> task_valid (with_stage p st) -> valid_ok hs new (set_task i st s).
Proof.
  intros [Ht Hn] Hi Hst. split; [|done]. simpl. rewrite Forall_lookup in Ht.
  apply Forall_lookup. intros j q. rewrite list_lookup_alter. case_decide as Hij; [|apply Ht]. subst j.
  rewrite Hi. intros [= <-]. split; [by apply (Ht i p)|done].
Qed.
Lemma valid_finish hs new s i : valid_ok hs new s -> valid_ok hs new (set_task i Finished s).
Proof.
  intros [Ht Hn]. split; [|done]. simpl. rewrite Forall_lookup in *. intros j q. rewrite list_lookup_alter.
  case_decide as Hij; [|apply Ht]. subst j. intros (p & Hp & ->)%fmap_Some. split; [by apply (Ht i p)|done].
Qed.
Lemma valid_frame hs new s s' : valid_ok hs new s -> cf_tasks s' = cf_tasks s -> valid_ok hs new s'.
Proof. intros [Ht Hn] He. split; [by rewrite He|done]. Qed.

Lemma propose_start_valid h signature now :
  task_valid {| pr_header := h; pr_stage := propose_start config me h signature now |}.
Proof.
  unfold propose_start. destruct (negb _); [done|].
  pose proof (appended_valid _ (Vote_new h me signature) h now (aggregator_new_ok c h)) as Ha.
  destruct (append_vote _ _ _ _ _) as [g [x| | |]]; done.
Qed.

Lemma valid_vote hs new s i p g waiting waiting' res now :
  valid_ok hs new s -> cf_tasks s !! i = Some p -> pr_stage p = Collecting g waiting ->
  valid_ok hs new (vote_received config i (pr_header p) g waiting' res now s).
Proof.
  intros Hok Hi Hst. pose proof (va_tasks _ _ _ Hok) as Ht. rewrite Forall_lookup in Ht.
  destruct (Ht i p Hi) as [_ Hg]. unfold task_valid in Hg. rewrite Hst in Hg.
  assert (Hset : forall s1 st, cf_tasks s1 = cf_tasks s -> task_valid (with_stage p st) -> valid_ok hs new (set_task i st s1)).
  { intros s1 st Hs1 Hst1. eapply valid_set_task; [by eapply valid_frame|by rewrite Hs1|done]. }
  unfold vote_received. destruct res as [v|e| |]; try by apply Hset.
  - pose proof (appended_valid g v (pr_header p) now Hg) as Ha. destruct (append_vote _ _ _ _ _) as [g' [o|err| |]]; try done.
    + apply Hset; [by destruct o|apply Ha].
    + subst g'. by apply Hset.
  - destruct (handle_vote_error e now (vote_failures s)) as [[t inactive] [e'|]]; by apply Hset.
Qed.

(** A step publishes a valid certificate, or none. *)
Lemma valid_step hs new s ev :
  valid_ok hs new s ->
  exists new', cf_published (step s ev) = cf_published s ++ new' /\
    valid_ok (hs ++ headers_of [ev]) (new ++ new') (step s ev).
Proof.
  intros Hok. assert (Hmono : forall h, valid_ok hs new s -> valid_ok (hs ++ h) new s).
  { intros h [Ht Hn]. split; [eapply Forall_impl; [exact Ht|]|eapply Forall_impl; [exact Hn|]];
      [intros p [? ?]; set_solver|intros x (h' & ? & ?); exists h'; set_solver]. }
  destruct ev as [h readable signature now|i peer attempts now|i|i|i committed active|i published|w|].
  6:{ simpl. rewrite app_nil_r. destruct (cf_tasks s !! i) as [[h [| |x|]]|] eqn:Hi;
        try (exists []; rewrite !app_nil_r; by split).
      destruct published; [|exists []; rewrite !app_nil_r; split; [done|by apply valid_finish]].
      exists [x]. split; [done|]. pose proof (va_tasks _ _ _ Hok) as Ht. rewrite Forall_lookup in Ht.
      destruct (Ht i _ Hi) as [Hh Hx]. destruct (valid_finish _ _ _ i Hok) as [Ht' Hn'].
      split; [done|]. apply Forall_app. split; [done|]. constructor; [|constructor]. by exists h. }
  all: exists []; rewrite !app_nil_r.
  - simpl. destruct (cf_stopped s); [split; [done|by apply Hmono]|]. unfold header_received.
    destruct (match last (cf_tasks s) with Some _ => _ | None => _ end); [split; [done|by apply Hmono]|].
    destruct (negb readable); [split; [done|by apply Hmono]|].
    destruct (contains_certificate _ _); [split; [done|by apply Hmono]|].
    set (st := propose_start _ _ _ _ _). destruct (Hmono [h] Hok) as [Ht Hn].
    assert (Hst : task_valid {| pr_header := h; pr_stage := st |}) by apply propose_start_valid.
    split; [by destruct st|]. split; [|done]. simpl. apply Forall_app. split; [by destruct st|].
    constructor; [|constructor]. split; [set_solver|done].
  - simpl. destruct (cf_tasks s !! i) as [[h [g waiting| | |]]|] eqn:Hi; try done.
    case_bool_decide; [|done]. destruct (request_vote _ _ _ _) as [res|]; [|done]. split.
    + unfold vote_received. destruct res as [v|e| |]; try done.
      * by destruct (append_vote _ _ _ _ _) as [g' [[|]| | |]].
      * by destruct (handle_vote_error _ _ _) as [[? ?] []].
    + by eapply valid_vote with (p := {| pr_header := h; pr_stage := _ |}).
  - simpl. destruct (cf_tasks s !! i) as [[h [g [|]| | |]]|]; try done. split; [done|by apply valid_finish].
  - simpl. destruct (_ && _); [done|]. split; [done|by apply valid_finish].
  - simpl. destruct (cf_tasks s !! i) as [[h [|x| |]]|] eqn:Hi; try done.
    destruct (process_own_certificate _ _ _ _ _) as [m r].
    assert (Hok' : valid_ok hs new (set_manager m s)) by (by eapply valid_frame).
    destruct r; (split; [done|]); try by apply valid_finish.
    eapply valid_set_task; [done|exact Hi|]. pose proof (va_tasks _ _ _ Hok) as Ht. rewrite Forall_lookup in Ht.
    by destruct (Ht i _ Hi) as [_ ?].
  - simpl. split; [done|by eapply valid_frame].
  - simpl. split; [done|by eapply valid_frame].
Qed.

Lemma valid_run evs hs new s :
  valid_ok hs new s ->
  exists new', cf_published (certifier_run config me s evs) = cf_published s ++ new' /\
    valid_ok (hs ++ headers_of evs) (new ++ new') (certifier_run config me s evs).
Proof.
  revert hs new s. induction evs as [|ev evs IH]; intros hs new s Hok; [exists []; by rewrite !app_nil_r|].
  assert (Hsplit : headers_of (ev :: evs) = headers_of [ev] ++ headers_of evs).
  { unfold headers_of. change (ev :: evs) with ([ev] ++ evs). apply omap_app. }
  destruct (valid_step hs new s ev Hok) as (n1 & Hp1 & Hok1). destruct (IH _ _ _ Hok1) as (n2 & Hp2 & Hok2).
  exists (n1 ++ n2). rewrite Hsplit. unfold certifier_run in *. cbn [foldl]. rewrite Hp2, Hp1, !app_assoc. done.
Qed.

(** C35: What is published is accepted. Every certificate that the certifier
    publishes, after the one of its start, is for a header it was offered, marked
    as verified, and carries an aggregate signature over the digest of the header
    that verifies under the keys of the members its bitmap names, which make a
    quorum. If the header is valid and not of round 0, every peer that receives
    the certificate accepts it. Every member has voting power 1. *)
Theorem published_certificates_accepted m published evs :
  unit_powers c ->
  let s0 := Certifier_new config me m published in
  exists new, cf_published (certifier_run config me s0 evs) = cf_published s0 ++ new /\
    Forall (fun x => exists h sig power keys, h ∈ headers_of evs /\ header x = h /\
      signature_verification_state x = VerifiedDirectly sig /\
      signed_by x (bls_keys c) = (power, keys) /\ quorum_threshold c <= power /\
      verify_aggregate sig (header_digest h) keys = true /\
      forall h', header_validate c h = Ret h' -> round h <> 0 ->
        exists y, receive x c = Ret y /\ digest y = digest x) new.
Proof.
  intros Hunit s0. destruct (valid_run evs [] [] s0) as (new & Hp & [_ Hn]); [split; constructor|].
  exists new. split; [done|]. eapply Forall_impl; [exact Hn|]. intros x (h & Hh & X & Hx). exists h.
  destruct (bc_signature _ _ _ _ Hx) as (sig & Hsig & keys & Hby & _ & Hver).
  exists sig, (Z.of_nat (size X)), keys. split_and!; try done; [apply Hx| |].
  - etransitivity; [apply Hx|]. by apply stake_of_le_size.
  - intros h' Hv Hr. destruct (built_certificate_received c Hwf Hunit h h' X x Hx Hv Hr) as (y & ? & _ & ? & _). eauto.
Qed.
End valid.

(** ** A quorum of votes *)
Section quorum.
Context `{!Crypto} {ok : CryptoOk} {it : HashIter} (config : ManagerConfig) (me : AuthorityIdentifier).
Abbreviation c := (mc_committee config).
Context (Hwf : committee_wf c).
Implicit Types (s : Certifier) (h : Header) (a : AuthorityIdentifier) (v : Vote).

(** The node can serve the parents of its header. *)
Definition has_parents h (at_ : Attempt) : Prop :=
  exists t, at_store at_ = Some t /\ parents h ⊆ dom (certificates t).
(** What a call of the network gives, whatever parents the request carries. *)
Definition network_gives (at_ : Attempt) (P : Exec NetworkError RequestVoteResult -> Prop) : Prop :=
  forall ps, exists l r, at_answers at_ ps = Some l /\ network_request_vote RECOVERABLE_TRIES l = Some r /\ P r.

(** A peer that votes within a number of attempts: before, the network fails or
    the peer asks for parents. *)
Inductive votes_within h v : nat -> list Attempt -> Prop :=
  | votes_now n at_ rest :
      has_parents h at_ -> network_gives at_ (fun r => r = Ret (ResVote v)) -> votes_within h v (S n) (at_ :: rest)
  | votes_later n at_ rest :
      has_parents h at_ -> at_slept at_ = true ->
      network_gives at_ (fun r => r = Err OtherNetworkError \/ exists ds, r = Ret (ResMissingParents ds)) ->
      votes_within h v n rest -> votes_within h v (S n) (at_ :: rest).

Lemma collect_parents_Ret h at_ missing : has_parents h at_ -> exists ps, collect_parents h (at_store at_) missing = Ret ps.
Proof.
  intros (t & Ht & Hp). unfold collect_parents. destruct missing as [ds|]; [|eauto]. rewrite Ht.
  rewrite bool_decide_eq_true_2; [eauto|]. unfold read_all, read_certificate.
  induction ds as [|d ds IH]; [done|]. simpl. case_bool_decide as Hd; [|done]. simpl.
  apply Hp, elem_of_dom in Hd as [x Hx]. rewrite Hx. simpl. by f_equal.
Qed.

Lemma request_vote_within a h v n attempts k missing :
  votes_within h v n attempts -> 0 <= k -> k + Z.of_nat n <= MAX_VOTE_REQUEST_ATTEMPTS ->
  request_vote_loop config a h k missing attempts = Some (check_vote config a h v).
Proof.
  intros Hv. revert k missing. induction Hv as [n at_ rest Hp Hn|n at_ rest Hp Hs Hn Hv IH]; intros k missing Hk Hle; cbn [request_vote_loop].
  - destruct (collect_parents_Ret h at_ missing Hp) as [ps ->]. destruct (Hn ps) as (l & r & -> & -> & ->). done.
  - destruct (collect_parents_Ret h at_ missing Hp) as [ps ->]. destruct (Hn ps) as (l & r & -> & -> & Hr).
    assert (Hagain : forall m', (if MAX_VOTE_REQUEST_ATTEMPTS <=? k + 1 then Some (Err VoteNetworkError)
      else if at_slept at_ then request_vote_loop config a h (k + 1) m' rest else Some (Err Canceled)) =
      Some (check_vote config a h v)).
    { intros m'. assert (0 < Z.of_nat n) by (destruct Hv; lia). rewrite (proj2 (Z.leb_gt _ _)) by lia. rewrite Hs.
      apply IH; lia. }
    destruct Hr as [->|(ds & ->)]; apply Hagain.
Qed.

(** The vote of a member. *)
Definition vote_of h a v : Prop :=
  exists sig auth, v = Vote_new h a sig /\ committee_authority c a = Some auth /\ 0 < voting_power_by_id c a /\
    verify_secure sig (header_digest h) (protocol_key auth) = true.
Definition member_votes h a (attempts : list Attempt) : Prop :=
  exists v, vote_of h a v /\ votes_within h v (Z.to_nat MAX_VOTE_REQUEST_ATTEMPTS) attempts.

Lemma member_votes_Ret h a attempts :
  epoch h = committee_epoch c -> member_votes h a attempts ->
  exists v, vote_of h a v /\ request_vote config a h attempts = Some (Ret v).
Proof.
  intros He (v & Hv & Hw). exists v. split; [done|]. unfold request_vote.
  rewrite (request_vote_within a h v _ attempts 0 None Hw); [|lia|by vm_compute].
  destruct Hv as (sig & auth & -> & Ha & Hp & Hs). unfold check_vote, ensure. cbn -[Z.eqb Z.ltb voting_power_by_id].
  rewrite He, !Z.eqb_refl. cbn -[Z.ltb voting_power_by_id]. by rewrite (proj2 (Z.ltb_lt _ _)).
Qed.

(** Results that do not abort a proposal. *)
Definition harmless (r : option (Exec ProposalError Vote)) : Prop :=
  match r with
  | Some (Err (TooOldRejectedByPeers _ _ _)) => False
  | Some (Err (EpochRejectedByPeer _ pe oe)) => pe < oe
  | _ => True
  end.
Lemma harmless_continues e now t : harmless (Some (Err e)) -> (handle_vote_error e now t).2 = Continue.
Proof.
  destruct e; try done; simpl. intros Hlt. unfold should_count_epoch_rejection.
  by rewrite (proj2 (Z.leb_gt _ _)).
Qed.

(** Where a task is that has the votes of [Y] and waits for those of [X]. *)
Definition vote_event (i : nat) (ev : CertifierEvent) : Prop := match ev with VoteTask j _ _ _ => j = i | _ => False end.
Definition gathering (Y X : gset AuthorityIdentifier) h (evs : list CertifierEvent) (i : nat) s : Prop :=
  (exists x, cf_tasks s !! i = Some {| pr_header := h; pr_stage := Storing x |} /\ certifies config h x) \/
  exists g w, cf_tasks s !! i = Some {| pr_header := h; pr_stage := Collecting g w |} /\
    aggregator_ok c h g /\ stake_of c (seen (inner g)) < quorum_threshold c /\ Y ⊆ seen (inner g) /\
    forall a, a ∈ X -> a ∈ seen (inner g) \/ (a ∈ w /\ exists attempts now, VoteTask i a attempts now ∈ evs).

(** The votes of a peer that is not waited for any more leave the rest. *)
Lemma gathering_vote Y X h evs i s g w a res now :
  cf_tasks s !! i = Some {| pr_header := h; pr_stage := Collecting g w |} ->
  aggregator_ok c h g -> stake_of c (seen (inner g)) < quorum_threshold c -> Y ⊆ seen (inner g) ->
  (forall b, b ∈ X -> b ∈ seen (inner g) \/ (b ∈ w /\ exists attempts now, VoteTask i b attempts now ∈ evs) \/ b = a) ->
  harmless (Some res) -> (a ∈ X -> exists v, vote_of h a v /\ res = Ret v) ->
  gathering Y X h evs i (vote_received config i h g (List.filter (fun b => negb (b =? a)) w) res now s).
Proof.
  intros Hi Hg Hst HY HX Hh Ha. set (w' := List.filter _ w).
  assert (Hw : forall b, b ∈ w -> b <> a -> b ∈ w').
  { intros b Hb Hne. apply list_elem_of_In, filter_In. rewrite <- list_elem_of_In. split; [done|].
    by apply negb_true_iff, Z.eqb_neq. }
  assert (Hstay : forall s1 g1, cf_tasks s1 = cf_tasks s -> aggregator_ok c h g1 ->
    stake_of c (seen (inner g1)) < quorum_threshold c -> seen (inner g) ⊆ seen (inner g1) ->
    (a ∈ X -> a ∈ seen (inner g1)) -> gathering Y X h evs i (set_task i (Collecting g1 w') s1)).
  { intros s1 g1 Ht Hg1 Hs1 Hsub Hin. right. exists g1, w'. split_and!; [|done|done|by etrans|].
    - simpl. by rewrite list_lookup_alter_eq, Ht, Hi.
    - intros b Hb. destruct (decide (b = a)) as [->|Hne]; [left; by apply Hin|].
      destruct (HX b Hb) as [?|[[? ?]|?]]; [left; by apply Hsub|right; by auto|done]. }
  unfold vote_received. destruct res as [v|e| |].
  - pose proof (append_vote_cases c Hwf g v h now Hg) as Hc.
    assert (Hav : a ∈ X -> vote_of h a v) by (intros HaX; destruct (Ha HaX) as (v' & ? & [= ->]); done).
    destruct (append_vote g v c h now) as [g' [[x|]|[]| |]]; try done.
    + destruct Hc as (_ & _ & _ & Hx). left. exists x. split; [|by eexists]. simpl.
      by rewrite list_lookup_alter_eq, Hi.
    + destruct Hc as (-> & Hg' & _ & Hlt). apply Hstay; try done; [simpl; set_solver|].
      intros HaX. destruct (Hav HaX) as (sig & auth & -> & _). simpl. set_solver.
    + destruct Hc as (-> & sig' & Ha' & Hbad). apply Hstay; try done. intros HaX.
      destruct (Hav HaX) as (sig & auth & -> & Hau & _ & Hver). simpl in *. congruence.
    + destruct Hc as (-> & Hbad). apply Hstay; try done. intros HaX.
      destruct (Hav HaX) as (sig & auth & -> & Hau & _ & Hver). done.
    + destruct Hc as (-> & Hbad). apply Hstay; try done. intros HaX.
      destruct (Hav HaX) as (sig & auth & -> & Hau & _ & Hver). simpl in *. congruence.
    + destruct Hc as (-> & -> & Hin). apply Hstay; try done. intros HaX.
      by destruct (Hav HaX) as (sig & auth & -> & Hau & _ & Hver).
  - pose proof (harmless_continues e now (vote_failures s) Hh) as Hc.
    destruct (handle_vote_error e now (vote_failures s)) as [[t inactive] action]. simpl in Hc. subst action.
    apply Hstay; try done. intros HaX. destruct (Ha HaX) as (v & _ & [=]).
  - apply Hstay; try done. intros HaX. destruct (Ha HaX) as (v & _ & [=]).
  - apply Hstay; try done. intros HaX. destruct (Ha HaX) as (v & _ & [=]).
Qed.

Lemma gathering_run Y X h evs i s :
  Forall (vote_event i) evs ->
  Forall (fun ev => forall a attempts now, ev = VoteTask i a attempts now ->
    harmless (request_vote config a h attempts) /\
    (a ∈ X -> exists v, vote_of h a v /\ request_vote config a h attempts = Some (Ret v))) evs ->
  gathering Y X h evs i s -> gathering Y X h [] i (certifier_run config me s evs).
Proof.
  intros Hev. revert s. induction Hev as [|ev evs He Hev IH]; intros s Hall Hg; [done|].
  inversion_clear Hall as [|? ? Hone Hall']. unfold certifier_run in *. simpl. apply IH; [done|].
  destruct ev as [|j a attempts now| | | | | |]; try done. simpl in He. subst j.
  destruct (Hone a attempts now eq_refl) as [Hharm HX]. simpl.
  destruct Hg as [(x & Hi & Hx)|(g & w & Hi & Hg & Hst & HY & HXw)]; rewrite Hi; [left; eauto|].
  case_bool_decide as Haw.
  - destruct (request_vote config a h attempts) as [res|] eqn:Hr.
    + eapply gathering_vote; try done.
      * intros b Hb. destruct (HXw b Hb) as [?|[Hbw (at' & now' & Hin)]]; [by left|right].
        apply elem_of_cons in Hin as [[= -> _ _]|Hin]; [by right|left; eauto].
      * intros HaX. destruct (HX HaX) as (v & Hv & [= ->]). eauto.
    + right. exists g, w. split_and!; try done. intros b Hb. destruct (HXw b Hb) as [?|[Hbw (at' & now' & Hin)]]; [by left|right].
      apply elem_of_cons in Hin as [[= -> <- <-]|Hin]; [|eauto]. destruct (HX Hb) as (v & _ & Hno). congruence.
  - right. exists g, w. split_and!; try done. intros b Hb. destruct (HXw b Hb) as [?|[Hbw (at' & now' & Hin)]]; [by left|right].
    apply elem_of_cons in Hin as [[= -> <- <-]|Hin]; [done|eauto].
Qed.

(** C7: The votes of a quorum certify. When the members of a set that makes a
    quorum together with this node vote within the attempts of their requests,
    after network failures and requests for parents that the node holds, the
    task has a certificate, whatever else arrives in whatever order, as long as
    no peer claims to be in a later epoch or refuses the header as too old. *)
Theorem quorum_certifies s i h signature now0 evs (X : gset AuthorityIdentifier) auth :
  cf_tasks s !! i = Some {| pr_header := h; pr_stage := propose_start config me h signature now0 |} ->
  epoch h = committee_epoch c ->
  committee_authority c me = Some auth -> verify_secure signature (header_digest h) (protocol_key auth) = true ->
  X ⊆ list_to_set (others_primaries_by_id c (Some me)).*1 ->
  quorum_threshold c <= stake_of c ({[me]} ∪ X) ->
  Forall (vote_event i) evs ->
  (forall a, a ∈ X -> exists attempts now, VoteTask i a attempts now ∈ evs) ->
  (forall a attempts now, VoteTask i a attempts now ∈ evs ->
     (a ∈ X -> member_votes h a attempts) /\ (a ∉ X -> harmless (request_vote config a h attempts))) ->
  exists x, cf_tasks (certifier_run config me s evs) !! i = Some {| pr_header := h; pr_stage := Storing x |} /\
    certifies config h x.
Proof.
  intros Hi He Hme Hsig HX Hq Hev Hin Hres.
  assert (Hg : gathering {[me]} X h evs i s).
  { unfold gathering. unfold propose_start in Hi. rewrite He, Z.eqb_refl in Hi. simpl in Hi.
    pose proof (append_vote_cases c Hwf _ (Vote_new h me signature) h now0 (aggregator_new_ok c h)) as Hc.
    destruct (append_vote _ _ _ _ _) as [g [[x|]|[]| |]]; try done; simpl in Hi.
    - left. exists x. split; [done|]. destruct Hc as (_ & _ & _ & Hx). by eexists.
    - destruct Hc as (-> & Hok & _ & Hlt). right. eexists _, _. split_and!; [exact Hi|done|done|simpl; set_solver|].
      intros a Ha. right. split; [|by apply Hin]. apply HX in Ha. by apply elem_of_list_to_set in Ha.
    - destruct Hc as (_ & auth' & Ha' & Hbad). simpl in *. congruence.
    - by destruct Hc as (_ & Hbad).
    - destruct Hc as (_ & Hbad). simpl in *. congruence.
    - destruct Hc as (_ & _ & Hbad). simpl in Hbad. set_solver. }
  assert (Hall : Forall (fun ev => forall a attempts now, ev = VoteTask i a attempts now ->
    harmless (request_vote config a h attempts) /\
    (a ∈ X -> exists v, vote_of h a v /\ request_vote config a h attempts = Some (Ret v))) evs).
  { apply Forall_forall. intros ev Hin' a attempts now ->. destruct (Hres a attempts now Hin') as [H1 H2].
    destruct (decide (a ∈ X)) as [HaX|HaX]; [|by split; [apply H2|]].
    destruct (member_votes_Ret h a attempts He (H1 HaX)) as (v & Hv & ->). split; [done|eauto]. }
  destruct (gathering_run {[me]} X h evs i s Hev Hall Hg) as [(x & Hx & X' & Hb)|(g & w & Hx & Hok & Hlt & Hme' & Hcov)].
  { exists x. split; [done|by exists X']. }
  exfalso. assert (Hle : stake_of c ({[me]} ∪ X) <= stake_of c (seen (inner g))).
  { apply (stake_of_mono c Hwf). intros a [?|Ha]%elem_of_union; [by apply Hme'|].
    by destruct (Hcov a Ha) as [?|[_ (? & ? & []%not_elem_of_nil)]]. }
  lia.
Qed.
End quorum.

(** ** Rejections of peers *)
Section rejections.
Context `{!Crypto} {it : HashIter} (config : ManagerConfig) (me : AuthorityIdentifier).
Abbreviation c := (mc_committee config).
Implicit Types (s : Certifier) (h : Header) (a : AuthorityIdentifier) (t : VoteFailureTracker).

(** A request that ends with a rejection which the node counts. *)
Definition rejects (r : option (Exec ProposalError Vote)) : bool :=
  match r with
  | Some (Err (TooOldRejectedByPeers _ _ _)) => true
  | Some (Err (EpochRejectedByPeer _ peer_epoch our_epoch)) => should_count_epoch_rejection peer_epoch our_epoch
  | _ => false
  end.
(** [a] was asked for its vote on one of the headers and rejected it. *)
Definition rejected_by a (hs : list Header) (evs : list CertifierEvent) : Prop :=
  exists i attempts now h, VoteTask i a attempts now ∈ evs /\ h ∈ hs /\
    rejects (request_vote config a h attempts) = true.

(** A rejection carries the name of the peer that was asked. *)
Definition names (r : option (Exec ProposalError Vote)) a : Prop :=
  match r with
  | Some (Err (TooOldRejectedByPeers p _ _)) | Some (Err (EpochRejectedByPeer p _ _)) => p = a
  | _ => True
  end.
Lemma request_vote_names a h attempts : names (request_vote config a h attempts) a.
Proof.
  unfold request_vote. generalize 0, (@None (list CertificateDigest)).
  induction attempts as [|at_ attempts IH]; intros k missing; cbn [request_vote_loop]; [done|].
  unfold collect_parents. destruct missing as [ds|]; [destruct (at_store at_); [case_bool_decide|]; try done|];
    (destruct (at_answers at_ _) as [l|]; [|done]);
    destruct (network_request_vote RECOVERABLE_TRIES l) as [[[]|[[]|]| |]|]; try done;
    try (unfold check_vote, ensure; repeat case_match; done);
    (destruct (_ <=? k + 1); [done|]); destruct (at_slept at_); try done; apply IH.
Qed.

(** The peers that count against the node are among [F], too few to demote it. *)
Definition counted (F : gset AuthorityIdentifier) t : Prop :=
  too_old t ⊆ F /\ epoch_mismatch t ⊆ F /\ Z.of_nat (size F) < vf_threshold t.

Lemma counted_grace F now t : counted F t -> counted F (skip_with_rejection_grace REJECTION_GRACE now t).1.
Proof. done. Qed.
Lemma evaluate_below F t (X : gset AuthorityIdentifier) : counted F t -> X ⊆ F -> vf_evaluate t (size X) = BelowThreshold.
Proof.
  intros (_ & _ & Hlt) HX. apply subseteq_size in HX. unfold vf_evaluate. by rewrite (proj2 (Z.ltb_lt _ _)) by lia.
Qed.
Lemma counted_record F a t :
  counted F t -> a ∈ F ->
  (counted F (record_too_old a t).1 /\ (record_too_old a t).2 = BelowThreshold) /\
  (counted F (record_epoch_mismatch a t).1 /\ (record_epoch_mismatch a t).2 = BelowThreshold).
Proof.
  intros Hc Ha. destruct Hc as (H1 & H2 & H3).
  split; (split; [split_and!; [set_solver..|done]|apply (evaluate_below F); [done|set_solver]]).
Qed.

Lemma counted_error F e now t a :
  counted F t -> names (Some (Err e)) a -> (rejects (Some (Err e)) = true -> a ∈ F) ->
  counted F (handle_vote_error e now t).1.1 /\ (handle_vote_error e now t).1.2 = false.
Proof.
  intros Hc Hn Hr. destruct e as [p hr lr|p pe oe| | | | | | | | | |]; try done; simpl in Hn, Hr; subst p; simpl.
  - destruct (now - _ <? _); [done|].
    destruct (counted_record F a _ (counted_grace F now t Hc) (Hr eq_refl)) as [[Hc' Ho] _].
    simpl in Ho. rewrite Ho. done.
  - destruct (should_count_epoch_rejection pe oe); [|done]. simpl. specialize (Hr eq_refl).
    destruct (is_one_epoch_behind pe oe).
    + simpl. destruct (now - _ <? _); [done|].
      destruct (counted_record F a _ (counted_grace F now t Hc) Hr) as [_ [Hc' Ho]]. simpl in Ho. rewrite Ho. done.
    + destruct (counted_record F a t Hc Hr) as [_ [Hc' Ho]]. simpl in Ho. rewrite Ho. done.
Qed.

Lemma counted_cleared F t : counted F t -> counted F (clear_counters t).
Proof. intros (_ & _ & ?). split_and!; [set_solver..|done]. Qed.
Lemma counted_certified F o s : counted F (vote_failures s) -> counted F (vote_failures (after_certificate o s)).
Proof. destruct o; [apply counted_cleared|done]. Qed.
Lemma inactive_certified o s : cvv_inactive (after_certificate o s) = cvv_inactive s.
Proof. destruct o; [apply orb_false_r|done]. Qed.

Definition tolerated F s : Prop := cvv_inactive s = false /\ counted F (vote_failures s).

(** The headers of the proposals are the ones received. *)
Lemma set_task_headers i st s : pr_header <$> cf_tasks (set_task i st s) = pr_header <$> cf_tasks s.
Proof.
  simpl. apply list_eq. intros j. rewrite !list_lookup_fmap, list_lookup_alter.
  case_decide; [subst j|done]. by destruct (cf_tasks s !! i).
Qed.
Lemma vote_received_headers i h g waiting res now s :
  pr_header <$> cf_tasks (vote_received config i h g waiting res now s) = pr_header <$> cf_tasks s.
Proof.
  unfold vote_received. destruct res as [v|e| |]; try apply set_task_headers.
  - destruct (append_vote _ _ _ _ _) as [g' [o|err| |]]; rewrite set_task_headers; [by destruct o|done..].
  - destruct (handle_vote_error e now (vote_failures s)) as [[t inactive] [e'|]]; by rewrite set_task_headers.
Qed.
Lemma step_headers s ev h :
  h ∈ pr_header <$> cf_tasks (certifier_step config me s ev) -> h ∈ (pr_header <$> cf_tasks s) ++ headers_of [ev].
Proof.
  rewrite elem_of_app. destruct ev as [g rd sig now|i a attempts now|i|i|i r ac|i pb|w|]; cbn [certifier_step].
  - destruct (cf_stopped s); [by left|]. unfold header_received.
    destruct (match last (cf_tasks s) with Some _ => _ | None => _ end); [by left|].
    destruct (negb rd); [by left|]. destruct (contains_certificate _ _); [by left|].
    set (st := propose_start _ _ _ _ _). intros Hh.
    assert (h ∈ pr_header <$> (cf_tasks s ++ [{| pr_header := g; pr_stage := st |}])) as Hh' by by destruct st.
    revert Hh'. rewrite fmap_app, elem_of_app. by intros [?|?]; [left|right].
  - destruct (cf_tasks s !! i) as [[k [q w|?|?|]]|]; try (by left). case_bool_decide; [|by left].
    destruct (request_vote _ _ _ _); [|by left]. rewrite vote_received_headers. by left.
  - destruct (cf_tasks s !! i) as [[k [q [|]|?|?|]]|]; try (by left). rewrite set_task_headers. by left.
  - destruct (_ && _); [by left|]. rewrite set_task_headers. by left.
  - destruct (cf_tasks s !! i) as [[k [|x|?|]]|]; try (by left).
    destruct (process_own_certificate _ _ _ _ _) as [m []]; rewrite set_task_headers; by left.
  - destruct (cf_tasks s !! i) as [[k [|?|x|]]|]; try (by left). destruct pb; rewrite ?set_task_headers; by left.
  - by left.
  - by left.
Qed.

Lemma tolerated_step F s ev :
  tolerated F s ->
  (exists a, (a ∉ F) /\ rejected_by a (pr_header <$> cf_tasks s) [ev]) \/ tolerated F (certifier_step config me s ev).
Proof.
  intros [Hi Hc]. destruct ev as [h rd sig now|i a attempts now|i|i|i r ac|i pb|w|]; simpl.
  - right. unfold header_received. split; repeat case_match; simpl; rewrite ?orb_false_r; try done;
      by apply counted_cleared.
  - destruct (cf_tasks s !! i) as [[h [g w|?|?|]]|] eqn:Ht; try (by right). case_bool_decide; [|by right].
    apply list_elem_of_lookup_2, (list_elem_of_fmap_2 pr_header) in Ht. simpl in Ht.
    pose proof (request_vote_names a h attempts) as Hn.
    destruct (rejects (request_vote config a h attempts)) eqn:Hr.
    { destruct (decide (a ∈ F)) as [Ha|Ha]; [right|left].
      - destruct (request_vote config a h attempts) as [[v|e| |]|]; try done. simpl.
        destruct (counted_error F e now _ a Hc Hn (fun _ => Ha)) as [Hc' Hi'].
        destruct (handle_vote_error e now _) as [[t b] []]; simpl in *; subst b; split; simpl; try done; by rewrite Hi.
      - exists a. split; [done|]. exists i, attempts, now, h. split_and!; [set_solver|done|done]. }
    right. destruct (request_vote config a h attempts) as [[v|e| |]|]; try done; simpl.
    + destruct (append_vote g v c h now) as [g' [o|?| |]]; try done.
      split; simpl; [by rewrite inactive_certified|by apply counted_certified].
    + assert (Hf : rejects (Some (Err e)) = true -> a ∈ F) by congruence.
      destruct (counted_error F e now _ a Hc Hn Hf) as [Hc' Hi'].
      destruct (handle_vote_error e now _) as [[t b] []]; simpl in *; subst b; split; simpl; try done; by rewrite Hi.
  - right. by repeat case_match.
  - right. by repeat case_match.
  - right. destruct (cf_tasks s !! i) as [[h [|x|?|]]|]; try done.
    destruct (process_own_certificate config r ac x (cf_manager s)) as [m []]; done.
  - right. destruct (cf_tasks s !! i) as [[h [|?|x|]]|]; try done. by destruct pb.
  - by right.
  - by right.
Qed.

(** C8: Fewer peers than half of the committee, rounded down, cannot demote a
    node. If the certifier asked to become inactive, then for any such set of
    peers one outside of it rejected a header that the certifier had received, as
    too old or from an epoch not earlier than the header's. *)
Theorem faulty_cannot_demote (F : gset AuthorityIdentifier) m published evs :
  Z.of_nat (size F) < committee_size c / 2 ->
  cvv_inactive (certifier_run config me (Certifier_new config me m published) evs) = true ->
  exists a, (a ∉ F) /\ rejected_by a (headers_of evs) evs.
Proof.
  intros HF. assert (H0 : tolerated F (Certifier_new config me m published)) by (split; [done|by split_and!]).
  assert (Hh : pr_header <$> cf_tasks (Certifier_new config me m published) ⊆ []) by done.
  change (headers_of evs) with ([] ++ headers_of evs). revert H0 Hh. generalize (@nil Header).
  generalize (Certifier_new config me m published). unfold certifier_run.
  induction evs as [|ev evs IH]; intros s hs H0 Hh Hi; simpl in Hi; [destruct H0; congruence|].
  change (ev :: evs) with ([ev] ++ evs). unfold headers_of. rewrite omap_app, app_assoc.
  destruct (tolerated_step F s ev H0) as [(a & Ha & i & at_ & now & h & Hin & Hs & Hr)|H1].
  - exists a. split; [done|]. exists i, at_, now, h. split_and!; [set_solver..|done].
  - destruct (IH _ (hs ++ headers_of [ev]) H1) as (a & Ha & i & at_ & now & h & Hin & Hs & Hr); [|done|].
    { intros h Hs%step_headers. set_solver. }
    exists a. split; [done|]. exists i, at_, now, h. split_and!; [set_solver|exact Hs|done].
Qed.
End rejections.

(** ** A single peer that claims a later epoch *)
Section slander.
Context `{!Crypto} {ok : CryptoOk} {it : HashIter} (config : ManagerConfig) (me : AuthorityIdentifier).
Abbreviation c := (mc_committee config).
Context (Hwf : committee_wf c) (Hme : voting_power_by_id c me < quorum_threshold c).
Implicit Types (s : Certifier) (h : Header) (a : AuthorityIdentifier).

(** The answer of the peer, for two epochs of its own choice. *)
Definition claims_epoch (expected received : Epoch) : list Attempt :=
  [{| at_store := None; at_answers := fun _ => Some [Ret (WireEpochMismatch expected received)]; at_slept := true |}].

(** A header with what happens until the next one. *)
Record Interval := {
  iv_header : Header; iv_signature : BlsSignature; iv_now : TimestampSec;
  iv_expected : Epoch; iv_received : Epoch; iv_rest : list CertifierEvent
}.
Definition no_header (ev : CertifierEvent) : Prop := match ev with HeaderRecv _ _ _ _ => False | _ => True end.

(** The peer answers the request of the task of the header before the others do. *)
Definition slandered a s (v : Interval) : Certifier :=
  let s := certifier_step config me s (HeaderRecv (iv_header v) true (iv_signature v) (iv_now v)) in
  certifier_run config me s
    (VoteTask (pred (length (cf_tasks s))) a (claims_epoch (iv_expected v) (iv_received v)) (iv_now v) :: iv_rest v).

Definition all_finished s : Prop := Forall (fun p => pr_stage p = Finished) (cf_tasks s).
(** The same published certificates, and no task that can publish one. *)
Definition barren (l : list Certificate) s : Prop := all_finished s /\ cf_published s = l.

Lemma finished_lookup s i h st : all_finished s -> cf_tasks s !! i = Some {| pr_header := h; pr_stage := st |} -> st = Finished.
Proof. intros Hf Hi. by apply (Forall_lookup_1 _ _ _ _ Hf) in Hi. Qed.

Lemma finish_all s i : Forall (fun p => pr_stage p = Finished) (alter (fun p => with_stage p Finished) i (cf_tasks s)) <->
  forall j p, cf_tasks s !! j = Some p -> j = i \/ pr_stage p = Finished.
Proof.
  rewrite Forall_lookup. split.
  - intros Hf j p Hj. destruct (decide (j = i)) as [|Hne]; [by left|right]. apply (Hf j).
    by rewrite list_lookup_alter_ne.
  - intros Hf j p Hj. destruct (decide (j = i)) as [->|Hne].
    + rewrite list_lookup_alter_eq in Hj. apply fmap_Some in Hj as (p' & _ & ->). done.
    + rewrite list_lookup_alter_ne in Hj by done. by destruct (Hf j p Hj).
Qed.

Lemma barren_step l s ev : no_header ev -> barren l s -> barren l (certifier_step config me s ev).
Proof.
  intros Hn [Hf Hp]. destruct ev as [|i a attempts now|i|i|i r ac|i pb|w|]; simpl; try done;
    try (destruct (cf_tasks s !! i) as [[h st]|] eqn:Hi; [|done]; pose proof (finished_lookup s i h st Hf Hi); by subst st).
  case_match; [done|]. split; [|done]. apply finish_all. intros j p Hj. right. by apply (Forall_lookup_1 _ _ _ _ Hf) in Hj.
Qed.
Lemma barren_run l s evs : Forall no_header evs -> barren l s -> barren l (certifier_run config me s evs).
Proof. intros Hn. revert s. unfold certifier_run. induction Hn; intros s Hs; simpl; [done|]. by apply IHHn, barren_step. Qed.

(** The own vote is not a quorum. *)
Lemma propose_start_waits h signature now a :
  a ∈ (others_primaries_by_id c (Some me)).*1 ->
  propose_start config me h signature now = Finished \/
  exists g w, propose_start config me h signature now = Collecting g w /\ a ∈ w.
Proof using Hwf Hme ok.
  intros Ha. unfold propose_start. destruct (negb _); [by left|].
  pose proof (append_vote_cases c Hwf _ (Vote_new h me signature) h now (aggregator_new_ok c h)) as Hc.
  destruct (append_vote _ _ _ _ _) as [g [[x|]|[]| |]]; try done; try (by left); [|right; simpl; eauto].
  exfalso. destruct Hc as (-> & _ & _ & Hx). pose proof (bc_quorum _ _ _ _ Hx) as Hq.
  simpl in Hq. rewrite union_empty_r_L in Hq. unfold stake_of in Hq. rewrite wsum_singleton in Hq. lia.
Qed.

Lemma claims_epoch_aborts a h expected received now s i g w :
  received <= expected -> all_finished (set_task i Finished s) ->
  all_finished (vote_received config i h g w (Err (EpochRejectedByPeer a expected received)) now s) /\
  cf_published (vote_received config i h g w (Err (EpochRejectedByPeer a expected received)) now s) = cf_published s.
Proof.
  intros Hle Hf. simpl. unfold should_count_epoch_rejection. rewrite (proj2 (Z.leb_le _ _)) by done. simpl.
  by repeat case_match.
Qed.

(** A header changes nothing, ends at once, or is a new task that waits for the peer. *)
Lemma header_waits l s h signature now a :
  a ∈ (others_primaries_by_id c (Some me)).*1 -> barren l s ->
  let s' := certifier_step config me s (HeaderRecv h true signature now) in
  barren l s' \/
  cf_published s' = l /\ exists g w, a ∈ w /\
    cf_tasks s' = cf_tasks s ++ [{| pr_header := h; pr_stage := Collecting g w |}].
Proof using Hwf Hme ok.
  intros Ha [Hf Hp]. simpl. destruct (cf_stopped s); [by left|].
  unfold header_received. destruct (match last (cf_tasks s) with Some _ => _ | None => _ end); [by left|].
  simpl. destruct (contains_certificate _ _); [by left|].
  destruct (propose_start_waits h signature now a Ha) as [->|(g & w & -> & Haw)]; [left|right; eauto].
  split; [|done]. apply Forall_app; split; [done|by constructor].
Qed.

Lemma slandered_barren a l s v :
  a ∈ (others_primaries_by_id c (Some me)).*1 -> iv_received v <= iv_expected v -> Forall no_header (iv_rest v) ->
  barren l s -> barren l (slandered a s v).
Proof using Hwf Hme ok.
  intros Ha Hle Hrest Hs. unfold slandered.
  destruct (header_waits l s (iv_header v) (iv_signature v) (iv_now v) a Ha Hs) as [Hb|(Hp & g & w & Haw & Ht)];
    [by apply barren_run; [constructor|]|].
  set (s' := certifier_step config me s _) in *.
  unfold certifier_run. cbn [foldl]. fold (certifier_run config me). apply barren_run; [done|].
  assert (Hn : pred (length (cf_tasks s')) = length (cf_tasks s)) by (rewrite Ht, length_app; simpl; lia).
  rewrite Hn. simpl. rewrite Ht, lookup_app_r, Nat.sub_diag by done. simpl. rewrite bool_decide_eq_true_2 by done.
  destruct (claims_epoch_aborts a (iv_header v) (iv_expected v) (iv_received v) (iv_now v) s' (length (cf_tasks s)) g
    (List.filter (fun b => negb (b =? a)) w)) as [H1 H2]; [done| |split; [exact H1|by rewrite <- Hp]].
  apply finish_all. rewrite Ht. intros j p Hj. apply lookup_app_Some in Hj as [Hj|[Hge Hj]].
  - right. by apply (Forall_lookup_1 _ _ _ _ (proj1 Hs)) in Hj.
  - left. apply list_lookup_singleton_Some in Hj as [Hj _]. lia.
Qed.

(** C38: One faulty peer stops the certification of a node. If it answers the
    request of each proposal first, with an epoch that is not earlier than the one
    it says it received, then no header is certified or published, in whatever
    number of proposals and whatever the other peers answer; the numbers are the
    peer's own, and the threshold of the tracker has no part in it. *)
Theorem one_peer_stops_certification a m published vs :
  a ∈ (others_primaries_by_id c (Some me)).*1 ->
  Forall (fun v => iv_received v <= iv_expected v /\ Forall no_header (iv_rest v)) vs ->
  let s := foldl (slandered a) (Certifier_new config me m published) vs in
  all_finished s /\ cf_published s = cf_published (Certifier_new config me m published).
Proof using Hwf Hme ok.
  intros Ha Hvs. cbn zeta. change (barren (cf_published (Certifier_new config me m published))
    (foldl (slandered a) (Certifier_new config me m published) vs)).
  assert (H0 : barren (cf_published (Certifier_new config me m published)) (Certifier_new config me m published)) by (split; [constructor|done]).
  revert H0. generalize (Certifier_new config me m published) at 2 4.
  induction Hvs as [|v vs [Hle Hr] Hvs IH]; intros s H0; simpl; [done|]. by apply IH, slandered_barren.
Qed.
End slander.

(** ** Examples *)
Module CertifierExamples.
#[local] Existing Instance example_crypto.
#[local] Existing Instance example_iter.

Definition example_node : CertificateManager := CertificateManager_new 50 0 0 0 empty_tables 0 true None.
Definition example_proposal : Header := example_header 1 1 [].
Definition example_signature (h : Header) (a : Z) : BlsSignature := header_digest h * 100 + a.

(** A peer that votes at once, after a failure of the network, or after it asked
    for a parent that the header does not have. *)
Definition answering (r : Exec NetworkError WireResponse) : Attempt :=
  {| at_store := Some empty_tables; at_answers := fun _ => Some [r]; at_slept := true |}.
Definition voting (h : Header) (a : Z) : Attempt := answering (Ret (WireVote (example_vote h a))).

Definition example_votes (h : Header) : list CertifierEvent :=
  [VoteTask 0 3 [answering (Err OtherNetworkError); voting h 3] 5;
   VoteTask 0 4 [answering (Ret (WireError SaysOther))] 6;
   VoteTask 0 2 [answering (Ret (WireMissingParents [7])); voting h 2] 7].
Definition example_events : list CertifierEvent :=
  [HeaderRecv example_proposal true (example_signature example_proposal 1) 4] ++ example_votes example_proposal ++
  [StoreOwn 0 0 true; HeaderRecv example_proposal true (example_signature example_proposal 1) 8; PublishOwn 0 true;
   HeaderRecv example_proposal true (example_signature example_proposal 1) 9].
Abbreviation example_run :=
  (certifier_run example_config 1 (Certifier_new example_config 1 example_node true) example_events).

Lemma empty_store_ok : store_ok empty_tables.
Proof. exact (proj1 (clear_tables_ok (fun _ => True) empty_tables)). Qed.

Lemma published_certificates_accepted_witness :
  exists new, length new = 1%nat /\ cf_published example_run = new /\
    Forall (fun x => exists y, receive x example_committee = Ret y /\ digest y = digest x) new.
Proof.
  destruct (published_certificates_accepted (ok := example_crypto_ok) example_config 1 example_committee_wf
    example_node true example_events example_unit_powers) as (new & Hp & Hf).
  assert (H0 : cf_published (Certifier_new example_config 1 example_node true) = []) by reflexivity.
  rewrite H0, app_nil_l in Hp. exists new.
  split; [rewrite <- Hp; vm_compute; reflexivity|]. split; [exact Hp|].
  eapply Forall_impl; [exact Hf|]. intros x (h & sig & power & keys & Hh & Hx & _ & _ & _ & _ & Hv).
  assert (Hall : Forall (eq example_proposal) (headers_of example_events)) by (repeat constructor).
  rewrite Forall_forall in Hall. rewrite <- (Hall h Hh) in Hv.
  apply (Hv {| fields := fields example_proposal; digest_cell := Some 1001 |});
    [vm_compute; reflexivity|vm_compute; discriminate].
Defined.

Lemma example_has_parents r : has_parents example_proposal (answering r).
Proof. exists empty_tables. split; [done|]. vm_compute. intros x Hx. exfalso. set_solver. Qed.
Lemma example_gives r q (P : Exec NetworkError RequestVoteResult -> Prop) :
  network_request_vote RECOVERABLE_TRIES [r] = Some q -> P q -> network_gives (answering r) P.
Proof. intros Hq HP ps. exists [r], q. split_and!; done. Qed.
Lemma example_vote_of a : a ∈ [2; 3] -> vote_of example_config example_proposal a (example_vote example_proposal a).
Proof.
  intros [->|[->|[]%not_elem_of_nil]%elem_of_cons]%elem_of_cons;
    (eexists _, _; split_and!; [done|vm_compute; reflexivity..]).
Qed.
Lemma example_later a r q :
  network_request_vote RECOVERABLE_TRIES [r] = Some q ->
  (q = Err OtherNetworkError \/ exists ds, q = Ret (ResMissingParents ds)) -> a ∈ [2; 3] ->
  member_votes example_config example_proposal a [answering r; voting example_proposal a].
Proof.
  intros Hq HP Ha. exists (example_vote example_proposal a). split; [by apply example_vote_of|].
  apply (votes_later _ _ 29); [apply example_has_parents|done|by eapply example_gives|].
  apply (votes_now _ _ 28); [apply example_has_parents|by eapply example_gives].
Qed.

Lemma quorum_certifies_witness :
  exists x, cf_tasks (certifier_run example_config 1 (Certifier_new example_config 1 example_node true)
      (HeaderRecv example_proposal true (example_signature example_proposal 1) 4 :: example_votes example_proposal)) !! 0%nat
    = Some {| pr_header := example_proposal; pr_stage := Storing x |}.
Proof.
  destruct (quorum_certifies (ok := example_crypto_ok) example_config 1 example_committee_wf
    (certifier_step example_config 1 (Certifier_new example_config 1 example_node true)
      (HeaderRecv example_proposal true (example_signature example_proposal 1) 4))
    0 example_proposal (example_signature example_proposal 1) 4 (example_votes example_proposal) {[2; 3]}
    {| protocol_key := 1; authority_voting_power := 1; execution_address := 1; id := 1 |}) as (x & Hx & _).
  - vm_compute. reflexivity.
  - reflexivity.
  - vm_compute. reflexivity.
  - vm_compute. reflexivity.
  - apply (bool_decide_unpack _). vm_compute. exact I.
  - vm_compute. discriminate.
  - repeat constructor.
  - intros a [->%elem_of_singleton| ->%elem_of_singleton]%elem_of_union; eexists _, _; unfold example_votes;
      [do 2 right; left|left].
  - intros a attempts now Hin. unfold example_votes in Hin.
    apply elem_of_cons in Hin as [[= -> -> ->]|Hin];
      [split; [intros _; eapply example_later; [reflexivity|left; reflexivity|set_solver]|set_solver]|].
    apply elem_of_cons in Hin as [[= -> -> ->]|Hin]; [split; [set_solver|intros _; exact I]|].
    apply elem_of_cons in Hin as [[= -> -> ->]|Hin]; [|by apply not_elem_of_nil in Hin].
    split; [intros _; eapply example_later; [reflexivity|right; eexists; reflexivity|set_solver]|set_solver].
  - exists x. exact Hx.
Defined.

(** Two peers that refuse after the grace demote the node; one of them is not the
    faulty one. *)
Definition example_refusals : list CertifierEvent :=
  let refusal i a now := VoteTask i a [answering (Ret (WireTooOld 1 9))] now in
  [HeaderRecv example_proposal true (example_signature example_proposal 1) 4; refusal 0%nat 2 10; refusal 0%nat 3 11;
   refusal 0%nat 4 41; HeaderRecv (example_header 1 2 []) true (example_signature (example_header 1 2 []) 1) 42;
   refusal 1%nat 2 43].
Lemma faulty_cannot_demote_witness :
  exists a, a <> 4 /\ rejected_by example_config a (headers_of example_refusals) example_refusals.
Proof.
  destruct (faulty_cannot_demote example_config 1 {[4]} example_node true example_refusals) as (a & Ha & Hr).
  - vm_compute. reflexivity.
  - vm_compute. reflexivity.
  - exists a. split; [|exact Hr]. intros ->. apply Ha. apply elem_of_singleton. reflexivity.
Defined.

(** The faulty peer 4 answers first, the others vote in vain; the header is
    proposed three times. *)
Definition example_interval (i : nat) : Interval :=
  {| iv_header := example_proposal; iv_signature := example_signature example_proposal 1; iv_now := Z.of_nat i;
     iv_expected := 1; iv_received := 0;
     iv_rest := [VoteTask i 2 [voting example_proposal 2] 5; VoteTask i 3 [voting example_proposal 3] 6; StoreOwn i 0 true] |}.
Lemma one_peer_stops_certification_witness :
  let s := foldl (slandered example_config 1 4) (Certifier_new example_config 1 example_node true)
    (example_interval <$> [0; 1; 2]%nat) in
  length (cf_tasks s) = 3%nat /\ cf_published s = [] /\ all_finished s.
Proof.
  destruct (one_peer_stops_certification (ok := example_crypto_ok) example_config 1 example_committee_wf
    ltac:(vm_compute; reflexivity) 4 example_node true (example_interval <$> [0; 1; 2]%nat)) as [Hf Hp].
  - apply (bool_decide_unpack _). vm_compute. exact I.
  - repeat constructor; simpl; lia.
  - split; [vm_compute; reflexivity|]. split; [exact Hp|exact Hf].
Defined.
End CertifierExamples.
