(* ===== verification/Certification.v ===== *)
(** * From headers to certificates

    The composition of [Proposer] and [Certifier]: the proposer sends headers in
    the order of their rounds, and for each of them the certifier publishes at
    most one certificate. *)
From S2P Require Import Prelude State Types Committee Certificates PairMap CertStore PendingCerts CertManager CertManagerProps.
From S2P Require Import VoteHandler VoteSafety LeaderSchedule Certifier CertifierProps Proposer ProposerProps.
From stdpp Require Import strings.
#[local] Open Scope Z_scope.

(** ** The headers of the proposer *)
Section proposer.
Context `{!Crypto} {rng : Rng} {it : HashIter} (pconfig : ProposerConfig).
Implicit Types (s : Proposer) (hs : list Header).

(** A header comes after those of earlier rounds and itself. *)
Definition ascending hs : Prop :=
  forall i j (h1 h2 : Header), (i < j)%nat -> hs !! i = Some h1 -> hs !! j = Some h2 -> round h1 < round h2 \/ h1 = h2.

Lemma ascending_snoc hs (h : Header) :
  ascending hs -> (forall h' : Header, h' ∈ hs -> round h' < round h \/ h' = h) -> ascending (hs ++ [h]).
Proof.
  intros Ha Hh i j h1 h2 Hij Hi Hj. apply lookup_snoc_Some in Hj as [[Hlt Hj]|[-> <-]].
  - rewrite lookup_app_l in Hi by lia. by apply (Ha i j).
  - rewrite lookup_app_l in Hi by lia. apply Hh. by eapply list_elem_of_lookup_2.
Qed.

(** A step sends nothing, or the header that it stores. *)
Definition sends s s' : Prop :=
  headers_sent s' = headers_sent s \/ exists h, last_proposed s' = Some h /\ headers_sent s' = headers_sent s ++ [h].

Lemma propose_next_silent env s : headers_sent (propose_next_header pconfig env s).1 = headers_sent s.
Proof.
  destruct (propose_next_cases pconfig env s) as [(s' & r & -> & _ & Hf')|[(h & _ & _ & _ & ->)|[_ ->]]]; [apply Hf'|done|].
  by destruct (propose_new_cases pconfig (p_round s + 1) (next_round env s)) as [(r & -> & _)| ->].
Qed.
Lemma try_propose_silent env s : headers_sent (try_propose pconfig env s).1 = headers_sent s.
Proof.
  unfold try_propose, mbind at 1, st_bind at 1.
  pose proof (fr_sent _ _ (qu_frame _ _ (throttled_quiet env s))) as Hf.
  destruct (throttled env s) as [s1 [b|e| |]]; simpl in Hf; try done.
  destruct b; [done|]. destruct (pending_header s1); [done|]. rewrite <- Hf. case_match; [|case_match; [|done]].
  - unfold mbind, st_bind. pose proof (propose_next_silent env s1) as Hp.
    by destruct (propose_next_header pconfig env s1) as [s2 [a|e| |]].
  - unfold repropose_after_delay, get_last_proposed, last_proposed_is_stale. by repeat case_match.
Qed.
Lemma on_selected_silent env sel s : headers_sent (on_selected pconfig env sel s).1 = headers_sent s.
Proof.
  destruct sel as [|d|ps r|r rounds| | | |]; simpl; try done.
  - unfold mbind, st_bind. pose proof (fr_sent _ _ (qu_frame _ _ (process_parents_quiet pconfig env ps r s))) as Hf.
    by destruct (process_parents pconfig env ps r s) as [s1 [a|e| |]].
  - destruct (pending_header s) as [[| |res]|]; try done. unfold on_result.
    pose proof (fr_sent _ _ (handle_result_frame pconfig env res (with_task None s))) as Hf.
    by destruct (handle_proposal_result pconfig env res (with_task None s)) as [s1 [a|e| |]].
Qed.
Lemma turn_silent env sel s : headers_sent (turn pconfig env sel s).1 = headers_sent s.
Proof.
  unfold turn, mbind at 1, st_bind at 1. pose proof (on_selected_silent env sel s) as Hs1.
  destruct (on_selected pconfig env sel s) as [s1 [[]|e| |]]; simpl in *; try done.
  unfold mbind, st_bind. pose proof (try_propose_silent env s1) as Hs2.
  destruct (try_propose pconfig env s1) as [s2 [a|e| |]]; simpl in *; congruence.
Qed.

Lemma step_sends e st st' : proposer_step pconfig e st = Some st' -> sends st.1 st'.1.
Proof.
  destruct st as [s out]. simpl. intros Hstep. destruct e as [env sel|env|t|]; simplify_option_eq.
  - destruct out as [[]|e| |]; try done. case_match; [|done]. injection Hstep as <-. left. apply turn_silent.
  - match goal with H : run_task _ _ _ = Some _ |- _ => rename H into Hrun end. unfold run_task in Hrun.
    destruct (pending_header s) as [[r e ps ds|h|res]|]; [| |done..]; injection Hrun as <-;
      unfold propose_header, repropose_header, store_and_send_header;
      (destruct (te_store_fatal env); [by left|]); destruct (certifier_open s); [right; by eexists|by left|right; by eexists|by left].
  - by left.
  - by left.
Qed.

(** The headers of a run are in order. *)
Lemma run_ascending evs st st' sent hs :
  sent_ok pconfig st.1 -> headers_sent st.1 = sent ++ hs -> ascending hs -> proposer_run pconfig evs st = Some st' ->
  exists hs', headers_sent st'.1 = sent ++ hs' /\ ascending hs'.
Proof.
  revert st hs. induction evs as [|e evs IH]; intros st hs Hs Hh Ha Hrun; [simplify_eq/=; eauto|].
  simpl in Hrun. apply bind_Some in Hrun as (st1 & Hstep & Hrun).
  pose proof (step_sent pconfig e st st1 Hs Hstep) as Hs1.
  destruct (step_sends e st st1 Hstep) as [Heq|(h & Hl & Heq)]; rewrite Hh in Heq; [by eapply IH|].
  rewrite <- app_assoc in Heq. eapply IH; [exact Hs1|exact Heq| |exact Hrun]. apply ascending_snoc; [done|].
  intros h' Hin. destruct (kp_stored _ _ _ _ (so_kept _ _ Hs1) h') as (l & Hl' & _ & Hc); [rewrite Heq; set_solver|].
  by simplify_eq.
Qed.

Lemma ascending_contiguous hs :
  ascending hs ->
  (forall h1 h2 : Header, h1 ∈ hs -> h2 ∈ hs -> header_digest h1 = header_digest h2 -> round h1 = round h2) ->
  contiguous ((fun h => header_digest h) <$> hs).
Proof.
  intros Ha Hinj d x (k1 & k2 & k3 & H12 & H23 & H1 & H2 & H3)%sublist_three.
  apply list_lookup_fmap_Some in H1 as (h1 & -> & H1), H2 as (h2 & -> & H2), H3 as (h3 & Hd & H3).
  assert (Hr : round h1 = round h3) by (apply Hinj; [by eapply list_elem_of_lookup_2..|done]).
  destruct (Ha _ _ _ _ H12 H1 H2) as [Hlt| ->]; [|done].
  destruct (Ha _ _ _ _ H23 H2 H3) as [Hlt'| ->]; [lia|done].
Qed.

(** C5: No header gets two certificates. The headers that the proposer sends, in
    any interleaving of its turns and its task, reach the certifier in their
    order; whatever peers answer and whenever they do, however often a header is
    proposed again and however tasks that were replaced go on, the node publishes
    at most one certificate for each, and only after the certificate manager has
    stored one for it. Headers of different rounds have different digests. *)
Theorem one_certificate_per_header (config : ManagerConfig) ls committed now stored sent pevs s out m published evs :
  kept pconfig (Z.max 0 committed) stored sent ->
  proposer_run pconfig pevs (Proposer_new pconfig ls committed now stored sent, Ret true) = Some (s, out) ->
  received evs `prefix_of` ((fun h => header_digest h) <$> drop (length sent) (headers_sent s)) ->
  (forall h1 h2 : Header, h1 ∈ headers_sent s -> h2 ∈ headers_sent s ->
    header_digest h1 = header_digest h2 -> round h1 = round h2) ->
  store_ok (node_storage m) ->
  let me := pc_authority_id pconfig in
  let s' := certifier_run config me (Certifier_new config me m published) evs in
  NoDup (digest <$> cf_published s') /\
  Forall (fun x => contains_certificate (digest x) (node_storage (cf_manager s')) = true) (cf_published s').
Proof.
  intros Hk Hrun Hp Hinj Hm. apply certifier_once; [done|].
  pose proof (new_sent pconfig ls committed now stored sent Hk) as Hs.
  assert (H0 : ascending []) by (intros i j h1 h2 _ Hi; by rewrite lookup_nil in Hi).
  destruct (run_ascending pevs (Proposer_new pconfig ls committed now stored sent, Ret true) (s, out) sent [] Hs
    (eq_sym (app_nil_r sent)) H0 Hrun) as (hs & Heq & Ha).
  simpl in Heq. rewrite Heq, drop_app_length in Hp. destruct Hp as [l Hp]. eapply contiguous_sublist; [by apply sublist_inserts_r|].
  rewrite <- Hp.
  apply ascending_contiguous; [done|]. intros h1 h2 H1 H2. apply Hinj; rewrite Heq; set_solver.
Qed.
End proposer.

(** ** Example *)
Module CertificationExamples.
Import CertifierExamples.
#[local] Existing Instance example_crypto.
#[local] Existing Instance example_rng.
#[local] Existing Instance example_iter.

(** The proposer sends a header, sends it again and moves to the next round. *)
Definition proposer_events : list ProposerEvent := [
  Turn (turn_env 0) MaxDelayTick; RunTask (task_env 1); Turn (turn_env 10) PendingHeader;
  Turn (turn_env 2000) MaxDelayTick; RunTask (task_env 2); Turn (turn_env 2010) PendingHeader;
  Turn (turn_env 2020) (OurDigest (77, 0)); Turn (turn_env 2030) (Parents round1_certs 1); RunTask (task_env 3)].
Definition proposer_start : Proposer * Exec ProposerError bool :=
  (Proposer_new example_proposer_config example_schedule 0 0 None [], Ret true).
Definition after_proposals : Proposer :=
  match proposer_run example_proposer_config proposer_events proposer_start with
  | Some (s, _) => s
  | None => proposer_start.1
  end.
Definition proposals : list Header := headers_sent after_proposals.

(** A node that knows the genesis certificates. *)
Definition genesis_config : ManagerConfig :=
  {| mc_committee := example_committee;
     mc_genesis := list_to_map ((fun x => (digest x, x)) <$> genesis example_committee); mc_gc_depth := 50; max_diff := 100 |}.

(** The first header is certified, stored and published around its second copy. *)
Definition certifier_events : list CertifierEvent :=
  match proposals with
  | h1 :: h1' :: h2 :: _ =>
      [HeaderRecv h1 true (example_signature h1 1) 4] ++ example_votes h1 ++
      [StoreOwn 0 0 true; HeaderRecv h1' true (example_signature h1' 1) 8; PublishOwn 0 true;
       HeaderRecv h2 true (example_signature h2 1) 9]
  | _ => []
  end.
Abbreviation certified_run := (certifier_run genesis_config 1 (Certifier_new genesis_config 1 example_node true) certifier_events).

Lemma one_certificate_per_header_witness :
  digest <$> cf_published certified_run = [1001] /\ NoDup (digest <$> cf_published certified_run).
Proof.
  destruct (one_certificate_per_header example_proposer_config genesis_config example_schedule 0 0 None [] proposer_events
    after_proposals (Ret true) example_node true certifier_events) as [Hn _].
  - apply fresh_kept.
  - vm_compute. reflexivity.
  - exists []. vm_compute. reflexivity.
  - assert (Hall : Forall (fun h1 : Header => Forall (fun h2 : Header => header_digest h1 = header_digest h2 -> round h1 = round h2)
      (headers_sent after_proposals)) (headers_sent after_proposals)) by (apply (bool_decide_unpack _); vm_compute; exact I).
    intros h1 h2 H1 H2. rewrite Forall_forall in Hall. specialize (Hall h1 H1). rewrite Forall_forall in Hall.
    exact (Hall h2 H2).
  - apply empty_store_ok.
  - split; [vm_compute; reflexivity|exact Hn].
Defined.
End CertificationExamples.
