(* ===== verification/Subscriber.v ===== *)
(** * The subscriber

    [middleware/bridge/src/subscriber.rs]: how committed sub-DAGs become outputs
    for execution. An active validator numbers the sub-DAGs of its own consensus
    ([run]), a node that catches up or observes follows the headers that state
    synchronization streams ([stream_and_follow]); both fetch the batches, cut
    the epoch at the same output, persist and hand over.

    A task is a machine: its events are the branches of its [select!], with what
    the awaited future gave, and the writes of other tasks. A branch whose
    precondition does not hold does nothing. The priority of branches and the
    capacity of channels are dropped, so that the machine has every run of the
    code. *)
From S2P Require Import Prelude Lists State Types Committee CertStore.
From S2P Require Import LeaderSchedule Certificates ConsensusState Bullshark ConsensusTask EpochRecords.
From S2P Require Import BatchOrdering Engine EngineLoop ConsensusChain StateSync.
#[local] Open Scope Z_scope.

(** ** Errors *)

(** The errors of [SubscriberError] that the subscriber returns. *)
Inductive SubscriberError :=
  | ClosedChannel
  | UnexpectedAuthority (i : AuthorityIdentifier)
  | ClientRequestsFailed
  | MissingFetchedBatch (d : BlockHash).

(** [SubscriberError::is_batch_fetch_error] *)
Definition is_batch_fetch_error (e : SubscriberError) : bool :=
  match e with MissingFetchedBatch _ | ClientRequestsFailed => true | _ => false end.

(** ** Decisions *)

(** [should_process_consensus_header]; after the first comparison
    [last_processed + 1] does not overflow. *)
Definition should_process_consensus_header (number last_processed : Z) : bool :=
  if number <=? last_processed then false else number =? last_processed + 1.

(** [AcceptedPosition] *)
Record AcceptedPosition := { ap_epoch : Epoch; ap_round : Round }.

(** [AcceptedPosition::from_sub_dag] *)
Definition from_sub_dag (s : CommittedSubDag) : AcceptedPosition :=
  {| ap_epoch := leader_epoch s; ap_round := leader_round s |}.

(** The derived order. *)
Definition ap_gtb (a b : AcceptedPosition) : bool :=
  (ap_epoch b <? ap_epoch a) || ((ap_epoch b =? ap_epoch a) && (ap_round b <? ap_round a)).

(** [AcceptedPosition::advance] *)
Definition advance (p : AcceptedPosition) (s : CommittedSubDag) : AcceptedPosition * bool :=
  let next := from_sub_dag s in
  let advanced := ap_gtb next p in (if advanced then next else p, advanced).

Inductive CutAction := Keep | Close | Drop.

(** [EpochCut::classify], on the flag [crossed]. *)
Definition classify (crossed : bool) (s : CommittedSubDag) (epoch_boundary : TimestampSec) :
    bool * CutAction :=
  if crossed then (true, Drop)
  else if reaches_epoch_boundary s epoch_boundary then (true, Close)
  else (false, Keep).

(** [PromotionBarrier::is_cleared] *)
Definition is_cleared (b : PromotionBarrier) (current_epoch : Epoch) (committed : Round)
    (contains : CertificateDigest -> bool) : bool :=
  if negb (ConsensusTask.pb_epoch b =? current_epoch) then true
  else match pb_digest b with Some d => contains d | None => pb_round b <=? committed end.

(** ** State *)

(** What the subscriber reads and writes: the chain and certificate tables, the
    mode, barrier and rounds of the bus, its watches, and what was sent on the
    channel [consensus_output], to the engine and as gossip. *)
Record SubState := {
  sub_db : ChainDb;
  sub_certs : CertTables;
  sub_bus : ConsensusBus;
  local_consensus_tip : ConsensusHeader;
  primary_round_updates : Round;
  cert_store_round : Round;
  (** [last_published_consensus_num_hash], the number *)
  gossip_number : Z;
  (** [last_consensus_header], the number *)
  probed_number : Z;
  sub_requested_epoch : Epoch;
  consensus_output : list ConsensusOutput;
  to_engine : list ConsensusOutput;
  published : list (Epoch * Round * Z * B256);
  execution_replay_complete : bool
}.

Definition set_sub_db (s : SubState) (x : ChainDb) : SubState :=
  {| sub_db := x; sub_certs := sub_certs s; sub_bus := sub_bus s;
     local_consensus_tip := local_consensus_tip s; primary_round_updates := primary_round_updates s;
     cert_store_round := cert_store_round s; gossip_number := gossip_number s;
     probed_number := probed_number s; sub_requested_epoch := sub_requested_epoch s;
     consensus_output := consensus_output s; to_engine := to_engine s; published := published s;
     execution_replay_complete := execution_replay_complete s |}.
Definition set_certs (s : SubState) (x : CertTables) : SubState :=
  {| sub_db := sub_db s; sub_certs := x; sub_bus := sub_bus s;
     local_consensus_tip := local_consensus_tip s; primary_round_updates := primary_round_updates s;
     cert_store_round := cert_store_round s; gossip_number := gossip_number s;
     probed_number := probed_number s; sub_requested_epoch := sub_requested_epoch s;
     consensus_output := consensus_output s; to_engine := to_engine s; published := published s;
     execution_replay_complete := execution_replay_complete s |}.
Definition set_sub_bus (s : SubState) (x : ConsensusBus) : SubState :=
  {| sub_db := sub_db s; sub_certs := sub_certs s; sub_bus := x;
     local_consensus_tip := local_consensus_tip s; primary_round_updates := primary_round_updates s;
     cert_store_round := cert_store_round s; gossip_number := gossip_number s;
     probed_number := probed_number s; sub_requested_epoch := sub_requested_epoch s;
     consensus_output := consensus_output s; to_engine := to_engine s; published := published s;
     execution_replay_complete := execution_replay_complete s |}.
Definition set_local_tip (s : SubState) (x : ConsensusHeader) : SubState :=
  {| sub_db := sub_db s; sub_certs := sub_certs s; sub_bus := sub_bus s;
     local_consensus_tip := x; primary_round_updates := primary_round_updates s;
     cert_store_round := cert_store_round s; gossip_number := gossip_number s;
     probed_number := probed_number s; sub_requested_epoch := sub_requested_epoch s;
     consensus_output := consensus_output s; to_engine := to_engine s; published := published s;
     execution_replay_complete := execution_replay_complete s |}.
Definition set_rounds (s : SubState) (primary store : Round) : SubState :=
  {| sub_db := sub_db s; sub_certs := sub_certs s; sub_bus := sub_bus s;
     local_consensus_tip := local_consensus_tip s; primary_round_updates := primary;
     cert_store_round := store; gossip_number := gossip_number s;
     probed_number := probed_number s; sub_requested_epoch := sub_requested_epoch s;
     consensus_output := consensus_output s; to_engine := to_engine s; published := published s;
     execution_replay_complete := execution_replay_complete s |}.
Definition set_heads (s : SubState) (gossip probed : Z) (requested : Epoch) : SubState :=
  {| sub_db := sub_db s; sub_certs := sub_certs s; sub_bus := sub_bus s;
     local_consensus_tip := local_consensus_tip s; primary_round_updates := primary_round_updates s;
     cert_store_round := cert_store_round s; gossip_number := gossip; probed_number := probed;
     sub_requested_epoch := requested; consensus_output := consensus_output s;
     to_engine := to_engine s; published := published s;
     execution_replay_complete := execution_replay_complete s |}.
Definition send_outputs (s : SubState) (outputs engine : list ConsensusOutput)
    (gossip : list (Epoch * Round * Z * B256)) (replayed : bool) : SubState :=
  {| sub_db := sub_db s; sub_certs := sub_certs s; sub_bus := sub_bus s;
     local_consensus_tip := local_consensus_tip s; primary_round_updates := primary_round_updates s;
     cert_store_round := cert_store_round s; gossip_number := gossip_number s;
     probed_number := probed_number s; sub_requested_epoch := sub_requested_epoch s;
     consensus_output := consensus_output s ++ outputs; to_engine := to_engine s ++ engine;
     published := published s ++ gossip;
     execution_replay_complete := execution_replay_complete s || replayed |}.

(** What other tasks write while the subscriber waits: the heads that gossip and
    probes give, certificates and the round watch of the certificate manager,
    cached headers and epoch records. Canonical headers are written by the
    subscriber only. *)
Inductive OutsideWrite :=
  | PeerHeads (gossip probed : Z)
  | CertWritten (c : Certificate)
  | CertStoreRound (r : Round)
  | HeaderCached (h : ConsensusHeader)
  | EpochsCollected (e : EpochDb).

(** What the local worker answers to a request of batches. *)
Abbreviation BatchReply := (option (gmap B256 Batch)).

Section subscriber.
Context `{!Crypto, !OutputHashes, !EpochCrypto}.
(** [Batch::digest] *)
Context (batch_hash : Batch -> B256).
(** [get_committee_keys_for_epoch], once it has the keys *)
Context (committee_keys : Epoch -> list BlsPublicKey).
(** [inner.committee], [config.epoch_boundary()] and [parameters().gc_depth],
    which do not change while the subscriber runs *)
Context (committee : Committee) (epoch_boundary : TimestampSec) (depth : Round).
Abbreviation current_epoch := (committee_epoch committee).

Definition outside (s : SubState) (w : OutsideWrite) : SubState :=
  match w with
  | PeerHeads g p => set_heads s g p (sub_requested_epoch s)
  | CertWritten c => set_certs s (write_certificate c (sub_certs s)).1
  | CertStoreRound r => set_rounds s (primary_round_updates s) r
  | HeaderCached h => set_sub_db s (store_consensus_header_in_cache (sub_db s) h)
  | EpochsCollected e =>
      set_sub_db s {| consensus_blocks := consensus_blocks (sub_db s);
                      consensus_blocks_cache := consensus_blocks_cache (sub_db s);
                      consensus_block_numbers_by_digest := consensus_block_numbers_by_digest (sub_db s);
                      chain_batches := chain_batches (sub_db s); epoch_tables := e |}
  end.

(** ** Batches of an output *)

(** [authority_execution_address] *)
Definition authority_execution_address (i : AuthorityIdentifier) : Exec SubscriberError Address :=
  match committee_authority committee i with
  | Some a => Ret (execution_address a)
  | None => Err (UnexpectedAuthority i)
  end.

(** [fetch_batches_from_peers] *)
Definition fetch_batches_from_peers (reply : BatchReply) : Exec SubscriberError (gmap B256 Batch) :=
  match reply with Some m => Ret m | None => Err ClientRequestsFailed end.

(** The loops that map the fetched batches to a certificate and to all of
    them. *)
Fixpoint certificate_batches (fetched : gmap B256 Batch) (digests : list BlockHash) :
    Exec SubscriberError (list Batch) :=
  match digests with
  | [] => mret []
  | d :: digests =>
      match fetched !! d with
      | None => Err (MissingFetchedBatch d)
      | Some b => rest ← certificate_batches fetched digests; mret (b :: rest)
      end
  end.
Fixpoint certified_batches (fetched : gmap B256 Batch) (certs : list Certificate) :
    Exec SubscriberError (list CertifiedBatch) :=
  match certs with
  | [] => mret []
  | c :: certs =>
      bs ← certificate_batches fetched (payload (header c)).*1;
      address ← authority_execution_address (origin c);
      rest ← certified_batches fetched certs;
      mret ({| cb_address := address; cb_batches := bs |} :: rest)
  end.

(** [fetch_batches] *)
Definition fetch_batches (deliver : CommittedSubDag) (parent_hash : B256) (number : Z)
    (reply : BatchReply) : Exec SubscriberError ConsensusOutput :=
  if (num_primary_blocks deliver =? 0)%nat then
    Ret {| co_sub_dag := deliver; co_batches := []; batch_digests := []; parent_hash := parent_hash;
           number := number; extra := 0; close_epoch := false |}
  else
    fetched ← fetch_batches_from_peers reply;
    batches ← certified_batches fetched (sd_certificates deliver);
    mret {| co_sub_dag := deliver; co_batches := batches;
            batch_digests := sd_certificates deliver ≫= (fun c => (payload (header c)).*1);
            parent_hash := parent_hash; number := number; extra := 0; close_epoch := false |}.

(** [fetch_batches_retrying]: the answers of the worker, one per attempt; when
    they end, shutdown fires in the wait after the last. *)
Fixpoint fetch_batches_retrying (deliver : CommittedSubDag) (parent_hash : B256) (number : Z)
    (replies : list BatchReply) : Exec SubscriberError ConsensusOutput :=
  match replies with
  | [] => Err ClosedChannel
  | reply :: replies =>
      match fetch_batches deliver parent_hash number reply with
      | Err e => if is_batch_fetch_error e
                 then fetch_batches_retrying deliver parent_hash number replies else Err e
      | r => r
      end
  end.

(** ** Persisting and handing over *)

(** [save_and_publish] *)
Definition save_and_publish (s : SubState) (o : ConsensusOutput) : SubState :=
  let '(db, header) := save_consensus batch_hash (sub_db s) o in
  let s := set_sub_db s db in
  if ch_number (local_consensus_tip s) <=? ch_number header then set_local_tip s header else s.

(** [commit_catchup_output] up to the hand-over; failed writes of certificates
    are logged only. *)
Definition highest_cert_round (s : CommittedSubDag) : Round :=
  match sd_certificates s with
  | [] => leader_round s
  | c :: certs => foldl (fun r c => Z.max r (cert_round c)) (cert_round c) certs
  end.
Definition persist_catchup_output (s : SubState) (o : ConsensusOutput) : SubState :=
  let s := set_certs s (write_certificate (sd_leader (co_sub_dag o)) (sub_certs s)).1 in
  let s := set_certs s (write_all (sd_certificates (co_sub_dag o)) (sub_certs s)).1 in
  let s := save_and_publish s o in
  let last_round := leader_round (co_sub_dag o) in
  let s := set_sub_bus s (update_consensus_rounds (sub_bus s) (new_with_gc_depth last_round depth)) in
  set_rounds s last_round (Z.max (cert_store_round s) (highest_cert_round (co_sub_dag o))).

(** [try_rejoin_consensus] *)
Definition clear_barrier (b : ConsensusBus) : ConsensusBus :=
  {| node_mode := node_mode b; mode_transition := mode_transition b; promotion_barrier := None;
     certificate_fetcher := certificate_fetcher b; sequence := sequence b;
     committed_reports := committed_reports b; consensus_rounds := consensus_rounds b;
     shutdown_notified := shutdown_notified b |}.
Definition network_head (s : SubState) : Z := Z.max (gossip_number s) (probed_number s).
Definition durable_tip (s : SubState) : Z :=
  match consensus_chain_tip (sub_db s) current_epoch with Some h => ch_number h | None => 0 end.
Definition try_rejoin_consensus (s : SubState) (consensus_header_number : Z) : SubState * bool :=
  if bool_decide (node_mode (sub_bus s) = Observer) then (s, false)
  else if network_head s =? 0 then (s, false)
  else if consensus_header_number <? network_head s then (s, false)
  else if durable_tip s <? network_head s then (s, false)
  else
    let committed := committed_round (consensus_rounds (sub_bus s)) in
    if cert_store_round s <? committed then (s, false)
    else
      match promotion_barrier (sub_bus s) with
      | Some barrier =>
          if is_cleared barrier current_epoch committed (fun d => contains_certificate d (sub_certs s))
          then (set_sub_bus s (request_mode_transition (clear_barrier (sub_bus s)) CvvActive), true)
          else (s, false)
      | None => (set_sub_bus s (request_mode_transition (sub_bus s) CvvActive), true)
      end.

(** ** The relay to the engine *)

(** [EpochManager::detect_epoch_boundary] of
    [middleware/orchestrator/src/epoch_manager/core.rs], on what it has received
    so far: the outputs relayed to the engine, and the output that closes the
    epoch once it came. *)
Fixpoint detect_epoch_boundary (epoch_boundary : TimestampSec) (outputs : list ConsensusOutput) :
    list ConsensusOutput * option (B256 * ConsensusOutput) :=
  match outputs with
  | [] => ([], None)
  | o :: outputs =>
      if reaches_epoch_boundary (co_sub_dag o) epoch_boundary then
        let closing := {| co_sub_dag := co_sub_dag o; co_batches := co_batches o;
                          batch_digests := batch_digests o; parent_hash := parent_hash o;
                          number := number o; extra := extra o; close_epoch := true |} in
        ([], Some (ch_digest (consensus_header closing), closing))
      else let '(relayed, closing) := detect_epoch_boundary epoch_boundary outputs in
           (o :: relayed, closing)
  end.

(** ** Replay before the live loop *)

(** What one header of the replay meets: the answers to its fetch, whether the
    channels are open, and whether a block lands before shutdown. *)
Record ReplayInput := {
  ri_replies : list BatchReply;
  ri_open : bool;
  ri_executed : bool
}.

(** How the replay ends: all of it handed over, stopped by shutdown, or still
    waiting when the inputs end. *)
Inductive ReplayEnd := Replayed | ReplayStopped | ReplayWaiting.

(** The replay of [run]: an output at or past the boundary goes to the relay
    and ends the replay, an earlier one to the engine. *)
Fixpoint replay (missing : list ConsensusHeader) (inputs : list ReplayInput) (s : SubState) :
    SubState * Exec SubscriberError ReplayEnd :=
  match missing with
  | [] => (s, Ret Replayed)
  | h :: missing =>
      match inputs with
      | [] => (s, Ret ReplayWaiting)
      | i :: inputs =>
          match fetch_batches_retrying (ch_sub_dag h) (ch_parent_hash h) (ch_number h) (ri_replies i) with
          | Ret o =>
              if negb (ri_open i) then (s, Err ClosedChannel)
              else if reaches_epoch_boundary (co_sub_dag o) epoch_boundary then
                (send_outputs s [o] [] [] false, Ret Replayed)
              else
                let s := send_outputs s [] [o] [] false in
                if ri_executed i then replay missing inputs s else (s, Ret ReplayStopped)
          | Err e => (s, Err e)
          | Panic => (s, Panic)
          | Diverge => (s, Diverge)
          end
      end
  end.

(** ** The live loop *)

(** The variables of the loop of [run]: the channel [sequence] with what was
    sent and not received, the sub-DAGs whose batches are fetched, in order. *)
Record Live := {
  li_state : SubState;
  li_sequence : list CommittedSubDag;
  li_closed : bool;
  li_waiting : list (CommittedSubDag * B256 * Z);
  last_parent : B256;
  last_number : Z;
  draining : bool;
  sequence_closed : bool;
  li_crossed : bool;
  drain_acked : bool;
  li_result : option (Exec SubscriberError unit)
}.

Definition MAX_PENDING_PAYLOADS : nat := 1000.

(** The branches of the [select!], the sending side of the channel, and the
    writes of other tasks. *)
Inductive LiveEvent :=
  | DrainChanged (signalled : bool)
  | LiveFetched (reply : BatchReply) (open : bool)
  | SequenceRecv
  | LiveShutdown (drain_signalled : bool)
  | SequenceSent (s : CommittedSubDag)
  | SequenceClosed
  | LiveOutside (w : OutsideWrite).

Definition li_set (l : Live) (s : SubState) (waiting : list (CommittedSubDag * B256 * Z))
    (crossed : bool) : Live :=
  {| li_state := s; li_sequence := li_sequence l; li_closed := li_closed l; li_waiting := waiting;
     last_parent := last_parent l; last_number := last_number l; draining := draining l;
     sequence_closed := sequence_closed l; li_crossed := crossed; drain_acked := drain_acked l;
     li_result := li_result l |}.
Definition li_flags (l : Live) (draining closed acked : bool)
    (result : option (Exec SubscriberError unit)) : Live :=
  {| li_state := li_state l; li_sequence := li_sequence l; li_closed := li_closed l;
     li_waiting := li_waiting l; last_parent := last_parent l; last_number := last_number l;
     draining := draining; sequence_closed := closed; li_crossed := li_crossed l;
     drain_acked := acked; li_result := result |}.
Definition li_channel (l : Live) (sequence : list CommittedSubDag) (closed : bool) : Live :=
  {| li_state := li_state l; li_sequence := sequence; li_closed := closed;
     li_waiting := li_waiting l; last_parent := last_parent l; last_number := last_number l;
     draining := draining l; sequence_closed := sequence_closed l; li_crossed := li_crossed l;
     drain_acked := drain_acked l; li_result := li_result l |}.
Definition li_stop (l : Live) (r : Exec SubscriberError unit) : Live :=
  li_flags l (draining l) (sequence_closed l) (drain_acked l) (Some r).
(** The acknowledgement of the drain and the return. *)
Definition li_ack (l : Live) : Live :=
  li_flags l (draining l) (sequence_closed l) true (Some (Ret tt)).

(** The second branch: the oldest fetch is complete. *)
Definition live_fetched (l : Live) (reply : BatchReply) (open : bool) : Live :=
  match li_waiting l with
  | [] => l
  | (sub_dag, parent_hash, number) :: waiting =>
      match fetch_batches sub_dag parent_hash number reply with
      | Ret o =>
          let '(crossed, action) := classify (li_crossed l) (co_sub_dag o) epoch_boundary in
          let finish (l : Live) := if draining l && bool_decide (waiting = []) then li_ack l else l in
          match action with
          | Drop => finish (li_set l (li_state l) waiting crossed)
          | Keep | Close =>
              let s := save_and_publish (li_state l) o in
              if open then finish (li_set l (send_outputs s [o] [] [] false) waiting crossed)
              else li_stop (li_set l s waiting crossed) (Err ClosedChannel)
          end
      | Err e => li_stop (li_set l (li_state l) waiting (li_crossed l)) (Err e)
      | Panic => li_stop l Panic
      | Diverge => li_stop l Diverge
      end
  end.

(** The third branch: a sub-DAG of consensus gets its number and its parent, is
    cached and announced, and its batches are fetched. *)
Definition live_sequenced (l : Live) : Live :=
  match li_sequence l with
  | sub_dag :: rest =>
      let l := li_channel l rest (li_closed l) in
      match uadd (E := SubscriberError) u64_max (last_number l) 1 with
      | Ret number =>
          let parent_hash := last_parent l in
          let digest := digest_from_parts parent_hash sub_dag number in
          let header := {| ch_parent_hash := parent_hash; ch_sub_dag := sub_dag;
                           ch_number := number; ch_extra := 0 |} in
          let s := set_sub_db (li_state l) (store_consensus_header_in_cache (sub_db (li_state l)) header) in
          let s := send_outputs s [] []
                     [(leader_epoch sub_dag, leader_round sub_dag, number, digest)] false in
          {| li_state := s; li_sequence := li_sequence l; li_closed := li_closed l;
             li_waiting := li_waiting l ++ [(sub_dag, parent_hash, number)];
             last_parent := digest; last_number := number; draining := draining l;
             sequence_closed := sequence_closed l; li_crossed := li_crossed l;
             drain_acked := drain_acked l; li_result := li_result l |}
      | _ => li_stop l Panic
      end
  | [] =>
      if li_closed l then
        let l := li_flags l (draining l) true (drain_acked l) (li_result l) in
        if bool_decide (li_waiting l = []) then li_ack l else l
      else l
  end.

(** One turn of the live loop. *)
Definition live_step (l : Live) (ev : LiveEvent) : Live :=
  match li_result l with
  | Some _ => l
  | None =>
      match ev with
      | DrainChanged signalled =>
          if draining l || negb signalled then l
          else
            let l := li_flags l true (sequence_closed l) (drain_acked l) None in
            if bool_decide (li_waiting l = []) then li_ack l else l
      | LiveFetched reply open => live_fetched l reply open
      | SequenceRecv =>
          if sequence_closed l || draining l || (MAX_PENDING_PAYLOADS <=? length (li_waiting l))%nat
          then l else live_sequenced l
      | LiveShutdown drain_signalled =>
          if draining l then if bool_decide (li_waiting l = []) then li_ack l else l
          else if drain_signalled then
            let l := li_flags l true (sequence_closed l) (drain_acked l) None in
            if bool_decide (li_waiting l = []) then li_ack l else l
          else li_stop l (Ret tt)
      | SequenceSent s => if li_closed l then l else li_channel l (li_sequence l ++ [s]) false
      | SequenceClosed => li_channel l (li_sequence l) true
      | LiveOutside w => li_set l (outside (li_state l) w) (li_waiting l) (li_crossed l)
      end
  end.

(** The state that [run] enters its loop with, on the sub-DAGs [queued] that
    consensus sent in the meantime. *)
Definition Live_new (s : SubState) (queued : list CommittedSubDag) : Live :=
  let '(parent, number) := get_last_executed_consensus (sub_db s) current_epoch in
  {| li_state := send_outputs s [] [] [] true; li_sequence := queued; li_closed := false;
     li_waiting := []; last_parent := parent; last_number := number; draining := false;
     sequence_closed := false; li_crossed := false; drain_acked := false; li_result := None |}.

Definition live_run (l : Live) (evs : list LiveEvent) : Live := foldl live_step l evs.

(** [run] *)
Definition subscriber_run (anchor : ConsensusHeader) (inputs : list ReplayInput)
    (queued : list CommittedSubDag) (evs : list LiveEvent) (s : SubState) :
    SubState * option (Exec SubscriberError unit) :=
  match replay (get_missing_consensus (sub_db s) current_epoch anchor) inputs s with
  | (s, Ret Replayed) => let l := live_run (Live_new s queued) evs in (li_state l, li_result l)
  | (s, Ret ReplayStopped) => (s, Some (Ret tt))
  | (s, Ret ReplayWaiting) => (s, None)
  | (s, Err e) => (s, Some (Err e))
  | (s, Panic) => (s, Some Panic)
  | (s, Diverge) => (s, Some Diverge)
  end.

(** ** The follower *)

(** The variables of [stream_and_follow]: the channel of streamed headers, the
    headers whose batches are fetched, in order, and the watermarks. *)
Record Follower := {
  fo_state : SubState;
  rx_headers : list ConsensusHeader;
  rx_closed : bool;
  fo_waiting : list ConsensusHeader;
  last_processed_number : Z;
  accepted_position : AcceptedPosition;
  channel_closed : bool;
  fo_crossed : bool;
  last_committed_number : Z;
  waiting_for_cert_store : bool;
  fo_result : option (Exec SubscriberError unit)
}.

Definition MAX_CATCHUP_PIPELINE : nat := 16.

Inductive FollowEvent :=
  | FollowShutdown
  | RejoinTick
  | FollowFetched (replies : list BatchReply) (open : bool)
  | CertStoreChanged
  | CertStoreTimeout
  | HeaderRecv (keys : KeyWait)
  | HeaderSent (h : ConsensusHeader)
  | HeadersClosed
  | FollowOutside (w : OutsideWrite).

Definition fo_set (f : Follower) (s : SubState) (waiting : list ConsensusHeader) (crossed : bool)
    (committed : Z) : Follower :=
  {| fo_state := s; rx_headers := rx_headers f; rx_closed := rx_closed f; fo_waiting := waiting;
     last_processed_number := last_processed_number f; accepted_position := accepted_position f;
     channel_closed := channel_closed f; fo_crossed := crossed; last_committed_number := committed;
     waiting_for_cert_store := waiting_for_cert_store f; fo_result := fo_result f |}.
Definition fo_flags (f : Follower) (closed waits : bool)
    (result : option (Exec SubscriberError unit)) : Follower :=
  {| fo_state := fo_state f; rx_headers := rx_headers f; rx_closed := rx_closed f;
     fo_waiting := fo_waiting f; last_processed_number := last_processed_number f;
     accepted_position := accepted_position f; channel_closed := closed; fo_crossed := fo_crossed f;
     last_committed_number := last_committed_number f; waiting_for_cert_store := waits;
     fo_result := result |}.
Definition fo_channel (f : Follower) (headers : list ConsensusHeader) (closed : bool) : Follower :=
  {| fo_state := fo_state f; rx_headers := headers; rx_closed := closed;
     fo_waiting := fo_waiting f; last_processed_number := last_processed_number f;
     accepted_position := accepted_position f; channel_closed := channel_closed f;
     fo_crossed := fo_crossed f; last_committed_number := last_committed_number f;
     waiting_for_cert_store := waiting_for_cert_store f; fo_result := fo_result f |}.
Definition fo_stop (f : Follower) (r : Exec SubscriberError unit) : Follower :=
  fo_flags f (channel_closed f) (waiting_for_cert_store f) (Some r).

(** A call of [try_rejoin_consensus] that ends the task when it succeeds. *)
Definition rejoin_check (f : Follower) (number : Z) : Follower :=
  let '(s, rejoins) := try_rejoin_consensus (fo_state f) number in
  let f := fo_set f s (fo_waiting f) (fo_crossed f) (last_committed_number f) in
  if rejoins then fo_stop f (Ret tt) else f.

(** The end of a branch that may leave a closed channel and nothing to wait
    for. *)
Definition fo_idle (rejoin : bool) (f : Follower) : Follower :=
  if channel_closed f && bool_decide (fo_waiting f = []) then
    if rejoin then fo_flags f (channel_closed f) true (fo_result f) else fo_stop f (Ret tt)
  else f.

(** [verify_consensus_certificates] *)
Definition verify_consensus_certificates (s : SubState) (h : ConsensusHeader) (keys : KeyWait) :
    SubState * option ConsensusHeader :=
  let s := match keys with
           | KeysHeld => s
           | _ => set_heads s (gossip_number s) (probed_number s)
                    (Z.max (header_epoch h) (sub_requested_epoch s))
           end in
  (s, match keys with
      | KeysTimeout => None
      | _ => match verify_header_with_keys h (committee_keys (header_epoch h)) with
             | Ret verified => Some verified
             | _ => None
             end
      end).

(** The branch of an arrived header. *)
Definition follow_header (rejoin : bool) (f : Follower) (keys : KeyWait) : Follower :=
  match rx_headers f with
  | h :: rest =>
      let f := fo_channel f rest (rx_closed f) in
      if negb (header_epoch h =? current_epoch) then f
      else if negb (should_process_consensus_header (ch_number h) (last_processed_number f)) then f
      else
        let '(s, verified) := verify_consensus_certificates (fo_state f) h keys in
        let f := fo_set f s (fo_waiting f) (fo_crossed f) (last_committed_number f) in
        match verified with
        | None => f
        | Some v =>
            let '(position, advanced) := advance (accepted_position f) (ch_sub_dag v) in
            if negb advanced then f
            else
              {| fo_state := fo_state f; rx_headers := rx_headers f; rx_closed := rx_closed f;
                 fo_waiting := fo_waiting f ++ [v]; last_processed_number := ch_number h;
                 accepted_position := position; channel_closed := channel_closed f;
                 fo_crossed := fo_crossed f; last_committed_number := last_committed_number f;
                 waiting_for_cert_store := waiting_for_cert_store f; fo_result := fo_result f |}
        end
  | [] =>
      if rx_closed f
      then fo_idle rejoin (fo_flags f true (waiting_for_cert_store f) (fo_result f)) else f
  end.

(** The branch of a complete fetch. *)
Definition follow_fetched (rejoin : bool) (f : Follower) (replies : list BatchReply) (open : bool) :
    Follower :=
  match fo_waiting f with
  | [] => f
  | h :: waiting =>
      match fetch_batches_retrying (ch_sub_dag h) (ch_parent_hash h) (ch_number h) replies with
      | Ret o =>
          let '(crossed, action) := classify (fo_crossed f) (co_sub_dag o) epoch_boundary in
          match action with
          | Drop => fo_idle rejoin (fo_set f (fo_state f) waiting crossed (last_committed_number f))
          | Keep | Close =>
              let s := persist_catchup_output (fo_state f) o in
              if negb open
              then fo_stop (fo_set f s waiting crossed (last_committed_number f)) (Err ClosedChannel)
              else
                let f := fo_set f (send_outputs s [o] [] [] false) waiting crossed (ch_number h) in
                let f := if rejoin then rejoin_check f (ch_number h) else f in
                match fo_result f with Some _ => f | None => fo_idle rejoin f end
          end
      | Err e => fo_stop (fo_set f (fo_state f) waiting (fo_crossed f) (last_committed_number f)) (Err e)
      | Panic => fo_stop f Panic
      | Diverge => fo_stop f Diverge
      end
  end.

(** One turn of the loop of [stream_and_follow]. *)
Definition follow_step (rejoin : bool) (f : Follower) (ev : FollowEvent) : Follower :=
  match fo_result f with
  | Some _ => f
  | None =>
      match ev with
      | FollowShutdown => fo_stop f (Ret tt)
      | RejoinTick => if rejoin then rejoin_check f (last_committed_number f) else f
      | FollowFetched replies open => follow_fetched rejoin f replies open
      | CertStoreChanged | CertStoreTimeout =>
          if waiting_for_cert_store f then rejoin_check f (last_committed_number f) else f
      | HeaderRecv keys =>
          if channel_closed f || (MAX_CATCHUP_PIPELINE <=? length (fo_waiting f))%nat
          then f else follow_header rejoin f keys
      | HeaderSent h => if rx_closed f then f else fo_channel f (rx_headers f ++ [h]) false
      | HeadersClosed => fo_channel f (rx_headers f) true
      | FollowOutside w =>
          fo_set f (outside (fo_state f) w) (fo_waiting f) (fo_crossed f) (last_committed_number f)
      end
  end.

(** [stream_and_follow] up to its loop: the headers that are on disk and not
    executed are streamed first, and a node that has nothing to catch up on
    checks at once whether it can rejoin. *)
Definition Follower_new (rejoin : bool) (s : SubState) (anchor : ConsensusHeader) : Follower :=
  let '(missing, last_streamed_number) := stream_missing_consensus (sub_db s) current_epoch anchor in
  let last := if ch_number anchor =? 0 then last_streamed_number else ch_number anchor in
  let waits := rejoin && (last =? last_streamed_number) in
  let f := {| fo_state := s; rx_headers := missing; rx_closed := false; fo_waiting := [];
              last_processed_number := last; accepted_position := from_sub_dag (ch_sub_dag anchor);
              channel_closed := false; fo_crossed := false; last_committed_number := last;
              waiting_for_cert_store := waits; fo_result := None |} in
  if waits then rejoin_check f last else f.

Definition follow_run (rejoin : bool) (f : Follower) (evs : list FollowEvent) : Follower :=
  foldl (follow_step rejoin) f evs.

(** ** The task *)

(** [spawn_subscriber] for what its task does when the subscriber returns: a
    node that catches up falls back to observing when batches cannot be fetched,
    an observer stops following, and any other error panics. *)
Definition subscriber_exit (mode : NodeMode) (s : SubState) (r : Exec SubscriberError unit) :
    SubState * Exec SubscriberError unit :=
  match r with
  | Err e =>
      match mode with
      | CvvActive => (s, Panic)
      | CvvInactive =>
          if is_batch_fetch_error e
          then (set_sub_bus s (request_mode_transition (sub_bus s) Observer), Ret tt) else (s, Panic)
      | Observer => if is_batch_fetch_error e then (s, Ret tt) else (s, Panic)
      end
  | _ => (s, r)
  end.

(** [spawn_subscriber] up to the task: the watch of the node's own tip. *)
Definition seed_tip (s : SubState) : SubState :=
  set_local_tip s (default default_header (consensus_chain_tip (sub_db s) current_epoch)).

End subscriber.
