(* ===== verification/SubscriberProps.v ===== *)
(** * What the subscriber hands over

    Outputs of the live loop and of the follower of [Subscriber.v]: they are
    well-formed, they are the numbered sub-DAGs of consensus cut at the epoch
    boundary, validators and followers agree on them, and a follower returns to
    consensus only when its own chain has reached the head of the network. *)
From S2P Require Import Prelude Lists State Types Committee CertStore.
From S2P Require Import LeaderSchedule Certificates ConsensusState Bullshark ConsensusTask EpochRecords.
From S2P Require Import BatchOrdering Engine EngineLoop ConsensusChain ConsensusChainProps StateSync Subscriber.
#[local] Open Scope Z_scope.

Section batches.
Context (batch_hash : Batch -> B256) (committee : Committee).
Implicit Types (o : ConsensusOutput) (c : Certificate) (m : gmap B256 Batch).
Abbreviation fetch_batches := (fetch_batches committee).
Abbreviation fetch_batches_retrying := (fetch_batches_retrying committee).

(** The batches that a sub-DAG names, in commit order. *)
Definition payload_digests (s : CommittedSubDag) : list BlockHash :=
  sd_certificates s ≫= (fun c => (payload (header c)).*1).

(** The worker answers with batches of the digests it was asked for. *)
Definition honest_reply (r : BatchReply) : Prop :=
  forall m d b, r = Some m -> m !! d = Some b -> batch_hash b = d.

(** A well-formed output of a sub-DAG: it names the batches of the sub-DAG in
    commit order, holds for each of them the batch of that digest, under the
    address of the certificate's author, and is not marked as closing. *)
Record output_of (s : CommittedSubDag) (parent : B256) (n : Z) (o : ConsensusOutput) : Prop := {
  oo_header : consensus_header o =
    {| ch_parent_hash := parent; ch_sub_dag := s; ch_number := n; ch_extra := 0 |};
  oo_digests : batch_digests o = payload_digests s;
  oo_batches : Forall2 (fun b d => batch_hash b = d) (concat (cb_batches <$> co_batches o)) (batch_digests o);
  oo_addresses :
    co_batches o = [] \/
    Forall2 (fun c cb => (execution_address <$> committee_authority committee (origin c)) = Some (cb_address cb) /\
                         length (cb_batches cb) = length (payload (header c)))
      (sd_certificates s) (co_batches o);
  oo_close : close_epoch o = false
}.

Lemma num_primary_blocks_0 s : num_primary_blocks s = 0%nat <-> payload_digests s = [].
Proof.
  unfold num_primary_blocks, payload_digests. induction (sd_certificates s) as [|c l IH]; [done|].
  cbn. rewrite app_nil, <-IH. destruct (payload (header c)); simpl; [naive_solver|]. split; [lia|naive_solver].
Qed.

Lemma certificate_batches_Ret m ds bs :
  certificate_batches m ds = Ret bs <-> Forall2 (fun d b => m !! d = Some b) ds bs.
Proof.
  revert bs. induction ds as [|d ds IH]; intros bs; simpl.
  { split; [intros [= <-]; constructor|by intros ->%Forall2_nil_inv_l]. }
  destruct (m !! d) as [b|] eqn:Hd.
  - split.
    + intros (rest & Hr & [= <-])%bind_Ret_inv. constructor; [done|by apply IH].
    + intros (b' & rest & Hb & Hrest & ->)%Forall2_cons_inv_l. apply IH in Hrest. simplify_eq. by rewrite Hrest.
  - split; [done|]. intros (b' & rest & Hb & _)%Forall2_cons_inv_l. congruence.
Qed.

Lemma certified_batches_Ret m cs l :
  certified_batches committee m cs = Ret l <->
  Forall2 (fun c cb => Forall2 (fun d b => m !! d = Some b) (payload (header c)).*1 (cb_batches cb) /\
             (execution_address <$> committee_authority committee (origin c)) = Some (cb_address cb)) cs l.
Proof.
  revert l. induction cs as [|c cs IH]; intros l; simpl.
  { split; [intros [= <-]; constructor|by intros ->%Forall2_nil_inv_l]. }
  split.
  - intros (bs & Hbs & (a & Ha & (rest & Hr & [= <-])%bind_Ret_inv)%bind_Ret_inv)%bind_Ret_inv.
    constructor; [|by apply IH]. apply certificate_batches_Ret in Hbs. split; [done|].
    unfold authority_execution_address in Ha. destruct (committee_authority _ _); naive_solver.
  - intros (cb & rest & [Hbs Ha] & Hrest & ->)%Forall2_cons_inv_l.
    apply certificate_batches_Ret in Hbs. apply IH in Hrest. rewrite Hbs. cbn.
    unfold authority_execution_address. destruct (committee_authority _ _); [|done]. cbn. rewrite Hrest.
    destruct cb. cbn in *. by simplify_eq.
Qed.

(** The pairing of batches and digests, over the certificates. *)
Lemma certified_concat m cs l :
  honest_reply (Some m) -> certified_batches committee m cs = Ret l ->
  Forall2 (fun b d => batch_hash b = d) (concat (cb_batches <$> l))
    (cs ≫= (fun c => (payload (header c)).*1)).
Proof.
  intros Hm Hl%certified_batches_Ret. induction Hl as [|c cb cs l [Hb _] _ IH]; [constructor|].
  cbn. apply Forall2_app; [|done]. apply Forall2_flip. eapply Forall2_impl; [exact Hb|].
  intros d b Hd. by eapply Hm.
Qed.

Lemma fetch_batches_ok s parent n r o :
  honest_reply r -> fetch_batches s parent n r = Ret o -> output_of s parent n o.
Proof.
  intros Hr. unfold Subscriber.fetch_batches. destruct (Nat.eqb_spec (num_primary_blocks s) 0) as [H0|H0].
  { apply num_primary_blocks_0 in H0. intros [= <-]. split; cbn; auto. }
  intros (m & Hm & (l & Hl & [= <-])%bind_Ret_inv)%bind_Ret_inv.
  destruct r as [m'|]; [|done]. injection Hm as ->. split; cbn; try done.
  - by eapply certified_concat.
  - right. apply certified_batches_Ret in Hl. eapply Forall2_impl; [exact Hl|]. intros c cb [Hb Ha].
    split; [done|]. apply Forall2_length in Hb. by rewrite <-Hb, length_fmap.
Qed.

(** When the answer has every batch and the committee every author, the output
    is built; otherwise the error is one of the three, and never a panic. *)
Lemma certificate_batches_total m ds :
  (forall d, d ∈ ds -> is_Some (m !! d)) -> exists bs, certificate_batches m ds = Ret bs.
Proof.
  induction ds as [|d ds IH]; intros Hd; [by eexists|]. simpl.
  destruct (Hd d) as [b Hb]; [left|]. rewrite Hb.
  destruct IH as [bs Hbs]; [intros; apply Hd; by right|]. rewrite Hbs. by eexists.
Qed.

Lemma certified_batches_total m cs :
  (forall c, c ∈ cs -> is_authority committee (origin c) = true) ->
  (forall c d, c ∈ cs -> d ∈ (payload (header c)).*1 -> is_Some (m !! d)) ->
  exists l, certified_batches committee m cs = Ret l.
Proof.
  induction cs as [|c cs IH]; intros Ha Hd; [by eexists|]. simpl.
  destruct (certificate_batches_total m (payload (header c)).*1) as [bs Hbs]; [intros; eapply Hd; [left|done]|].
  rewrite Hbs. cbn. specialize (Ha c ltac:(left)) as Hc. unfold is_authority in Hc. apply bool_decide_eq_true in Hc as [a Hc].
  unfold authority_execution_address, committee_authority. rewrite Hc. cbn.
  destruct IH as [l Hl]; [intros; apply Ha; by right|intros; eapply Hd; [by right|done]|]. rewrite Hl. by eexists.
Qed.

Lemma fetch_batches_total s parent n m :
  (forall c, c ∈ sd_certificates s -> is_authority committee (origin c) = true) ->
  (forall d, d ∈ payload_digests s -> is_Some (m !! d)) ->
  exists o, fetch_batches s parent n (Some m) = Ret o.
Proof.
  intros Ha Hd. unfold Subscriber.fetch_batches. case_match; [by eexists|]. cbn.
  destruct (certified_batches_total m (sd_certificates s)) as [l Hl]; [done| |rewrite Hl; by eexists].
  intros c d Hc Hx. apply Hd. unfold payload_digests. apply list_elem_of_bind. eauto.
Qed.

(** Fetching never panics. *)
Lemma certificate_batches_plain m ds : certificate_batches m ds <> Panic /\ certificate_batches m ds <> Diverge.
Proof.
  induction ds as [|d ds [IH1 IH2]]; [done|]. simpl. destruct (m !! d); [|done].
  by destruct (certificate_batches m ds).
Qed.
Lemma certified_batches_plain m cs :
  certified_batches committee m cs <> Panic /\ certified_batches committee m cs <> Diverge.
Proof.
  induction cs as [|c cs [IH1 IH2]]; [done|]. simpl.
  destruct (certificate_batches_plain m (payload (header c)).*1) as [H1 H2].
  destruct (certificate_batches _ _); try done. cbn. unfold authority_execution_address.
  destruct (committee_authority _ _); [|done]. cbn. by destruct (certified_batches _ _ _).
Qed.
Lemma fetch_batches_plain s parent n r :
  fetch_batches s parent n r <> Panic /\ fetch_batches s parent n r <> Diverge.
Proof.
  unfold Subscriber.fetch_batches. case_match; [done|]. destruct r as [m|]; [|done]. cbn.
  destruct (certified_batches_plain m (sd_certificates s)). by destruct (certified_batches _ _ _).
Qed.

(** The retries end with an output, with an author outside the committee, or
    with shutdown: never with an error of fetching. *)
Lemma retrying_cases s parent n rs :
  (exists o r, fetch_batches_retrying s parent n rs = Ret o /\ r ∈ rs /\ fetch_batches s parent n r = Ret o) \/
  (exists i, fetch_batches_retrying s parent n rs = Err (UnexpectedAuthority i)) \/
  fetch_batches_retrying s parent n rs = Err ClosedChannel.
Proof.
  induction rs as [|r rs IH]; simpl; [by auto|].
  destruct (fetch_batches_plain s parent n r) as [Hp Hd].
  destruct (fetch_batches s parent n r) as [o|e| |] eqn:Hr; try done.
  - left. exists o, r. split_and!; [done|left|done].
  - destruct e as [|i| |d]; simpl; [by auto|by eauto| |].
    all: destruct IH as [(o & r' & ? & ? & ?)|[?|?]]; [|by auto..].
    all: left; exists o, r'; split_and!; [done|by right|done].
Qed.

Lemma length_concat_imap {A B C} (f : nat -> A -> list B) (g : A -> list C) l :
  (forall i x, length (f i x) = length (g x)) -> length (concat (imap f l)) = length (concat (g <$> l)).
Proof.
  revert f. induction l as [|x l IH]; intros f Hf; [done|]. simpl. rewrite !length_app, Hf.
  f_equal. apply IH. intros. apply Hf.
Qed.
Lemma length_flatten_batches o : length (flatten_batches o) = length (concat (cb_batches <$> co_batches o)).
Proof.
  unfold flatten_batches. apply length_concat_imap. intros. by rewrite length_fmap, length_seq.
Qed.

Lemma certificate_batches_Err m ds e :
  certificate_batches m ds = Err e -> exists d, e = MissingFetchedBatch d /\ d ∈ ds /\ m !! d = None.
Proof.
  induction ds as [|d ds IH]; [done|]. simpl. destruct (m !! d) eqn:Hd.
  - destruct (certificate_batches m ds) as [|e'| |]; try done. cbn. intros [= ->].
    destruct IH as (d' & -> & ? & ?); [done|]. eexists. split_and!; [done|by right|done].
  - intros [= <-]. eexists. split_and!; [done|left|done].
Qed.
Lemma certified_batches_Err m cs e : certified_batches committee m cs = Err e ->
  (exists d, e = MissingFetchedBatch d /\ d ∈ cs ≫= (fun c => (payload (header c)).*1) /\ m !! d = None) \/
  (exists c, c ∈ cs /\ e = UnexpectedAuthority (origin c) /\ is_authority committee (origin c) = false).
Proof.
  induction cs as [|c cs IH]; [done|]. simpl.
  destruct (certificate_batches m (payload (header c)).*1) as [bs|e'| |] eqn:Hb; try done; cbn.
  - unfold authority_execution_address, committee_authority. destruct (authorities_by_id committee !! origin c) as [a|] eqn:Ha; cbn.
    + destruct (certified_batches committee m cs) as [|e'| |]; try done. cbn. intros [= ->].
      destruct IH as [(d & ? & ? & ?)|(c' & ? & ?)]; [done|left|right]; [exists d|exists c'; by split; [right|]].
      split_and!; [done| |done]. apply elem_of_app. by right.
    + intros [= <-]. right. exists c. split_and!; [left|done|]. unfold is_authority. rewrite Ha.
      apply bool_decide_eq_false. by intros [].
  - intros [= ->]. left. apply certificate_batches_Err in Hb as (d & ? & ? & ?). exists d.
    split_and!; [done| |done]. apply elem_of_app. by left.
Qed.

(** C28: Every output that the subscriber builds is well-formed: over a worker
    that answers with batches of the digests it was asked for, it names the
    batches of its sub-DAG in commit order and holds exactly the batch of each
    of these digests under the address of the certificate's author, as many
    batches as digests. Building fails exactly when the worker did not answer,
    when a batch is missing from its answer, or when an author is not in the
    committee, with the error that says so, and it never panics. *)
Theorem outputs_well_formed s parent n r : honest_reply r ->
  match fetch_batches s parent n r with
  | Ret o => output_of s parent n o /\ length (flatten_batches o) = length (batch_digests o)
  | Err (MissingFetchedBatch d) => exists m, r = Some m /\ d ∈ payload_digests s /\ m !! d = None
  | Err ClientRequestsFailed => r = None /\ payload_digests s <> []
  | Err (UnexpectedAuthority i) =>
      exists c, c ∈ sd_certificates s /\ origin c = i /\ is_authority committee i = false
  | Err ClosedChannel | Panic | Diverge => False
  end.
Proof.
  intros Hr. destruct (fetch_batches_plain s parent n r) as [Hp Hd].
  destruct (fetch_batches s parent n r) as [o|e| |] eqn:Ho; try done.
  - pose proof (fetch_batches_ok s parent n r o Hr Ho) as Hok. split; [done|].
    rewrite length_flatten_batches. by apply (Forall2_length _ _ _ (oo_batches _ _ _ _ Hok)).
  - unfold Subscriber.fetch_batches in Ho.
    destruct (Nat.eqb_spec (num_primary_blocks s) 0) as [H0|H0]; [done|]. rewrite num_primary_blocks_0 in H0.
    destruct r as [m|]; cbn in Ho; [|by injection Ho as <-].
    destruct (certified_batches committee m (sd_certificates s)) as [|e'| |] eqn:Hc; try done.
    injection Ho as ->. apply certified_batches_Err in Hc as [(d & -> & ? & ?)|(c & ? & -> & ?)]; eauto.
Qed.

End batches.

(** ** The chain of headers over a sequence of sub-DAGs *)

Section chain.
Context `{!Crypto, !OutputHashes, !EpochCrypto}.
Implicit Types (h : ConsensusHeader) (subs : list CommittedSubDag).

(** The headers that [subs] get after a header of digest [parent] and number
    [n]. *)
Fixpoint number_from (parent : B256) (n : Z) subs : list ConsensusHeader :=
  match subs with
  | [] => []
  | s :: subs =>
      let h := {| ch_parent_hash := parent; ch_sub_dag := s; ch_number := n + 1; ch_extra := 0 |} in
      h :: number_from (ch_digest h) (n + 1) subs
  end.
Definition end_hash (parent : B256) (n : Z) subs : B256 :=
  default parent (ch_digest <$> last (number_from parent n subs)).

(** The epoch: up to the first header that reaches the boundary, with it. *)
Definition reaches (boundary : TimestampSec) h : bool := reaches_epoch_boundary (ch_sub_dag h) boundary.
Fixpoint until_boundary (boundary : TimestampSec) (l : list ConsensusHeader) : list ConsensusHeader :=
  match l with
  | [] => []
  | h :: l => h :: if reaches boundary h then [] else until_boundary boundary l
  end.

Lemma end_hash_cons parent n s subs :
  end_hash parent n (s :: subs) =
  end_hash (digest_from_parts parent s (n + 1)) (n + 1) subs.
Proof.
  unfold end_hash. simpl. unfold ch_digest at 1. simpl.
  destruct (number_from _ _ subs) as [|h l]; [done|]. rewrite last_cons. simpl. by destruct (last (h :: l)) eqn:E; [|apply last_None in E].
Qed.

Lemma number_from_snoc parent n subs s :
  number_from parent n (subs ++ [s]) =
  number_from parent n subs ++
    [{| ch_parent_hash := end_hash parent n subs; ch_sub_dag := s;
        ch_number := n + Z.of_nat (length subs) + 1; ch_extra := 0 |}].
Proof.
  revert parent n. induction subs as [|x subs IH]; intros parent n.
  { simpl. unfold end_hash. simpl. by rewrite Z.add_0_r. }
  rewrite end_hash_cons. cbn [app number_from length]. rewrite IH. unfold ch_digest. simpl.
  by replace (n + 1 + Z.of_nat (length subs) + 1) with (n + Z.of_nat (S (length subs)) + 1) by lia.
Qed.

Lemma end_hash_snoc parent n subs s :
  end_hash parent n (subs ++ [s]) =
  digest_from_parts (end_hash parent n subs) s (n + Z.of_nat (length subs) + 1).
Proof. unfold end_hash at 1. by rewrite number_from_snoc, last_snoc. Qed.

Lemma number_from_lookup parent n subs i h :
  number_from parent n subs !! i = Some h -> ch_number h = n + 1 + Z.of_nat i.
Proof.
  revert parent n i. induction subs as [|s subs IH]; intros parent n [|i]; simpl; try done.
  - intros [= <-]. simpl. lia.
  - intros Hh%IH. lia.
Qed.

Lemma number_from_prefix parent n subs subs' :
  subs `prefix_of` subs' -> number_from parent n subs `prefix_of` number_from parent n subs'.
Proof.
  intros [k ->]. revert parent n. induction subs as [|s subs IH]; intros; simpl; [apply prefix_nil|].
  by apply prefix_cons.
Qed.

Lemma until_boundary_prefix b l l' :
  l `prefix_of` l' -> until_boundary b l `prefix_of` until_boundary b l'.
Proof.
  intros [k ->]. induction l as [|h l IH]; simpl; [apply prefix_nil|]. apply prefix_cons.
  case_match; [done|]. apply IH.
Qed.
Lemma until_boundary_sub b l : until_boundary b l `prefix_of` l.
Proof. induction l as [|h l IH]; simpl; [done|]. apply prefix_cons. case_match; [apply prefix_nil|done]. Qed.

Lemma until_boundary_snoc b l h :
  until_boundary b (l ++ [h]) =
  until_boundary b l ++ (if existsb (reaches b) l then [] else [h]).
Proof.
  induction l as [|x l IH]; simpl; [by case_match|]. destruct (reaches b x); simpl; [done|]. by rewrite IH.
Qed.

End chain.

(** ** The live loop *)

Section live.
Context `{!Crypto, !OutputHashes, !EpochCrypto} (batch_hash : Batch -> B256).
Context (committee : Committee) (boundary : TimestampSec) (s0 : SubState).
Implicit Types (l : Live) (h : ConsensusHeader) (sent taken : list CommittedSubDag).
Abbreviation live_step := (live_step batch_hash committee boundary).
Abbreviation live_run := (live_run batch_hash committee boundary).
Abbreviation live_fetched := (live_fetched batch_hash committee boundary).
Abbreviation Live_new := (Live_new committee).
(** The header that the loop numbers from. *)
Context (p0 : B256) (n0 : Z).

(** A well-formed output with the header [h]. *)
Definition output_for h (o : ConsensusOutput) : Prop :=
  output_of batch_hash committee (ch_sub_dag h) (ch_parent_hash h) (ch_number h) o.
Definition announcement h : Epoch * Round * Z * B256 :=
  (leader_epoch (ch_sub_dag h), leader_round (ch_sub_dag h), ch_number h, ch_digest h).
Definition fetching (w : CommittedSubDag * B256 * Z) : ConsensusHeader :=
  {| ch_parent_hash := w.1.2; ch_sub_dag := w.1.1; ch_number := w.2; ch_extra := 0 |}.

(** The sub-DAGs that events send, and events with an honest worker. *)
Definition sent_by (evs : list LiveEvent) : list CommittedSubDag :=
  omap (fun ev => match ev with SequenceSent s => Some s | _ => None end) evs.
Definition honest_event (ev : LiveEvent) : Prop :=
  match ev with LiveFetched r _ => honest_reply batch_hash r | _ => True end.

(** After the sub-DAGs [taken] were received, the headers [fin] of them were
    dealt with and the headers [rest] wait. *)
Record live_ok sent l taken (fin rest : list ConsensusHeader) (outs : list ConsensusOutput) : Prop := {
  lo_sent : taken `prefix_of` sent;
  lo_queue : li_result l = None -> taken ++ li_sequence l `prefix_of` sent;
  lo_open : li_result l = None -> li_closed l = false -> sent = taken ++ li_sequence l;
  lo_chain : number_from p0 n0 taken = fin ++ rest;
  lo_waiting : li_result l = None -> rest = fetching <$> li_waiting l;
  lo_crossed : li_result l = None -> li_crossed l = existsb (reaches boundary) fin;
  lo_acked : drain_acked l = true -> li_result l = Some (Ret tt) /\ rest = [];
  lo_parent : last_parent l = end_hash p0 n0 taken;
  lo_number : last_number l = n0 + Z.of_nat (length taken);
  lo_outputs : consensus_output (li_state l) = consensus_output s0 ++ outs;
  lo_handed : Forall2 output_for (until_boundary boundary fin) outs;
  lo_saved : forall h, h ∈ until_boundary boundary fin ->
    consensus_blocks (sub_db (li_state l)) !! ch_number h = Some h;
  lo_published : published (li_state l) = published s0 ++ (announcement <$> number_from p0 n0 taken);
  lo_panic : li_result l = Some Panic -> u64_max <= last_number l;
  lo_diverge : li_result l <> Some Diverge
}.

Lemma live_new_ok queued :
  get_last_executed_consensus (sub_db s0) (committee_epoch committee) = (p0, n0) ->
  live_ok queued (Live_new s0 queued) [] [] [] [].
Proof.
  intros Hseed. unfold Subscriber.Live_new. rewrite Hseed.
  split; cbn; rewrite ?app_nil_r; try done; [apply prefix_nil|lia|].
  intros h Hh. by apply elem_of_nil in Hh.
Qed.

Lemma save_and_publish_blocks s o :
  consensus_blocks (sub_db (save_and_publish batch_hash s o)) =
  <[number o := consensus_header o]> (consensus_blocks (sub_db s)).
Proof. unfold save_and_publish. cbn. by case_match. Qed.
Lemma save_and_publish_sent s o :
  consensus_output (save_and_publish batch_hash s o) = consensus_output s /\
  published (save_and_publish batch_hash s o) = published s.
Proof. unfold save_and_publish. cbn. by case_match. Qed.
Lemma outside_keeps s w :
  consensus_blocks (sub_db (outside s w)) = consensus_blocks (sub_db s) /\
  consensus_output (outside s w) = consensus_output s /\ published (outside s w) = published s.
Proof. by destruct w. Qed.

(** The headers before another one in the chain have other numbers. *)
Lemma number_from_before taken fin h rest h' :
  number_from p0 n0 taken = fin ++ h :: rest -> h' ∈ until_boundary boundary fin ->
  ch_number h' <> ch_number h.
Proof.
  intros Hc Hh'. assert (Hin : h' ∈ fin).
  { destruct (until_boundary_sub boundary fin) as [k Hk]. rewrite Hk. set_solver. }
  apply list_elem_of_lookup in Hin as [i Hi]. assert (Hlt := lookup_lt_Some _ _ _ Hi).
  assert (Ha : number_from p0 n0 taken !! i = Some h') by (rewrite Hc; by apply lookup_app_l_Some).
  assert (Hb : number_from p0 n0 taken !! length fin = Some h) by (rewrite Hc; by apply list_lookup_middle).
  apply number_from_lookup in Ha, Hb. lia.
Qed.

(** Stopping, draining and the channel change nothing that was handed over. *)
Lemma live_flags_ok sent l taken fin rest outs d c a r :
  live_ok sent l taken fin rest outs -> li_result l = None ->
  (a = true -> r = Some (Ret tt) /\ li_waiting l = []) ->
  r <> Some Panic -> r <> Some Diverge ->
  live_ok sent (li_flags l d c a r) taken fin rest outs.
Proof.
  intros [] Hn Ha Hp Hd. split; cbn; try done.
  - intros _. by apply lo_queue0.
  - intros _. by apply lo_open0.
  - intros _. by apply lo_waiting0.
  - intros _. by apply lo_crossed0.
  - intros Ht. destruct (Ha Ht) as [-> Hw]. split; [done|]. rewrite lo_waiting0, Hw by done. done.
Qed.

Lemma live_unacked sent l taken fin rest outs :
  live_ok sent l taken fin rest outs -> li_result l = None -> drain_acked l = false.
Proof. intros [] Hn. destruct (drain_acked l); [|done]. destruct lo_acked0; congruence. Qed.

Ltac by_flags l := apply (live_flags_ok _ l); [done|done| |congruence|congruence]; cbn;
  first [intros _; by split|intros ?; congruence].

Lemma live_finish_ok sent l taken fin rest outs :
  live_ok sent l taken fin rest outs -> li_result l = None ->
  live_ok sent (if draining l && bool_decide (li_waiting l = []) then li_ack l else l) taken fin rest outs.
Proof.
  intros Hok Hn. destruct (draining l); [|done]. simpl. case_bool_decide; [|done]. by_flags l.
Qed.

Lemma live_outside_ok sent l taken fin rest outs w :
  live_ok sent l taken fin rest outs ->
  live_ok sent (li_set l (outside (li_state l) w) (li_waiting l) (li_crossed l)) taken fin rest outs.
Proof.
  intros []. destruct (outside_keeps (li_state l) w) as (Hb & Ho & Hp).
  split; cbn; rewrite ?Hb, ?Ho, ?Hp; done.
Qed.

Lemma live_sent_ok sent l taken fin rest outs s :
  live_ok sent l taken fin rest outs -> li_result l = None ->
  live_ok (sent ++ [s]) (if li_closed l then l else li_channel l (li_sequence l ++ [s]) false)
    taken fin rest outs.
Proof.
  intros [] Hn. destruct (li_closed l) eqn:Hc; split; cbn; try done.
  - by apply prefix_app_r.
  - intros _. by apply prefix_app_r, lo_queue0.
  - congruence.
  - by apply prefix_app_r.
  - intros _. by rewrite (lo_open0 Hn eq_refl), app_assoc.
  - intros _ _. by rewrite (lo_open0 Hn eq_refl), app_assoc.
Qed.

Lemma live_sequenced_ok sent l taken fin rest outs :
  live_ok sent l taken fin rest outs -> li_result l = None ->
  exists taken' rest', live_ok sent (live_sequenced l) taken' fin rest' outs.
Proof.
  intros Hok Hn. unfold live_sequenced. destruct (li_sequence l) as [|s q] eqn:Hq.
  { exists taken, rest. destruct (li_closed l); [|done]. pose proof (live_unacked _ _ _ _ _ _ Hok Hn) as Hacked.
    case_bool_decide as Hw; by_flags l. }
  destruct Hok. rewrite Hq in *. unfold uadd. cbn [last_number li_channel].
  destruct (last_number l + 1 <=? u64_max) eqn:Hle; cycle 1.
  { exists taken, rest. apply Z.leb_gt in Hle. split; cbn; try done; [|lia].
    intros Ha. destruct (lo_acked0 Ha). congruence. }
  apply Z.leb_le in Hle. specialize (lo_queue0 Hn). specialize (lo_waiting0 Hn).
  set (h := {| ch_parent_hash := last_parent l; ch_sub_dag := s; ch_number := last_number l + 1; ch_extra := 0 |}).
  assert (Hnew : number_from p0 n0 (taken ++ [s]) = number_from p0 n0 taken ++ [h]).
  { rewrite number_from_snoc. unfold h. by rewrite lo_parent0, lo_number0. }
  exists (taken ++ [s]), (rest ++ [h]). split; cbn; try done.
  - etrans; [|exact lo_queue0]. exists q. by rewrite <-app_assoc.
  - intros _. by rewrite <-app_assoc.
  - intros _ Hc. rewrite <-app_assoc. by apply lo_open0.
  - by rewrite Hnew, lo_chain0, app_assoc.
  - intros _. by rewrite fmap_app, lo_waiting0.
  - intros Ha. by destruct (lo_acked0 Ha) as [? _]; congruence.
  - by rewrite end_hash_snoc, lo_parent0, lo_number0.
  - rewrite length_app, Nat2Z.inj_add, lo_number0. simpl. lia.
  - by rewrite app_nil_r.
  - by rewrite lo_published0, Hnew, fmap_app, app_assoc.
  - by rewrite Hn.
Qed.

(** Dealing with the next header: dropped past the boundary, kept otherwise, and
    a kept one that cannot be handed over stops the task. *)
Lemma live_drop_ok sent l taken fin h w rest outs :
  live_ok sent l taken fin (h :: rest) outs -> li_result l = None -> li_crossed l = true ->
  rest = fetching <$> w ->
  live_ok sent (li_set l (li_state l) w true) taken (fin ++ [h]) rest outs.
Proof.
  intros Hok Hn Hc Hr. pose proof (live_unacked _ _ _ _ _ _ Hok Hn). destruct Hok.
  pose proof (lo_crossed0 Hn) as Hcr. rewrite Hc in Hcr.
  assert (Hcut : until_boundary boundary (fin ++ [h]) = until_boundary boundary fin)
    by (by rewrite until_boundary_snoc, <-Hcr, app_nil_r).
  split; cbn; rewrite ?Hcut; rewrite <-?app_assoc; try done; [|congruence].
  intros _. by rewrite existsb_app, <-Hcr.
Qed.

Lemma live_keep_ok sent l taken fin h w rest outs o s :
  live_ok sent l taken fin (h :: rest) outs -> li_result l = None -> li_crossed l = false ->
  rest = fetching <$> w -> ch_extra h = 0 -> output_for h o ->
  consensus_blocks (sub_db s) = <[number o := consensus_header o]> (consensus_blocks (sub_db (li_state l))) ->
  consensus_output s = consensus_output (li_state l) -> published s = published (li_state l) ->
  live_ok sent (li_set l (send_outputs s [o] [] [] false) w (reaches boundary h)) taken
    (fin ++ [h]) rest (outs ++ [o]) /\
  live_ok sent (li_stop (li_set l s w (reaches boundary h)) (Err ClosedChannel)) taken fin (h :: rest) outs.
Proof.
  intros Hok Hn Hc Hr Hx Ho Hb Hs1 Hs2. pose proof (live_unacked _ _ _ _ _ _ Hok Hn).
  pose proof (fun h' => number_from_before taken fin h rest h' (lo_chain _ _ _ _ _ _ Hok)) as Hbefore. destruct Hok.
  pose proof (lo_crossed0 Hn) as Hcr. rewrite Hc in Hcr.
  assert (Hcut : until_boundary boundary (fin ++ [h]) = until_boundary boundary fin ++ [h])
    by (by rewrite until_boundary_snoc, <-Hcr).
  pose proof (oo_header _ _ _ _ _ _ Ho) as Hh.
  assert (Hno : number o = ch_number h) by (unfold consensus_header in Hh; by injection Hh).
  assert (Hold : forall h', h' ∈ until_boundary boundary fin -> consensus_blocks (sub_db s) !! ch_number h' = Some h').
  { intros h' Hh'. rewrite Hb, Hno, lookup_insert_ne by (intros ?; by eapply Hbefore). by apply lo_saved0. }
  split; split; cbn; rewrite ?Hcut, ?Hs1, ?Hs2, ?app_nil_r; rewrite <-?app_assoc; try done; try congruence.
  - intros _. rewrite existsb_app, <-Hcr. simpl. by rewrite orb_false_r.
  - by rewrite lo_outputs0, app_assoc.
  - apply Forall2_app; [done|]. by constructor.
  - intros h' [Hh'|Hh'%list_elem_of_singleton]%elem_of_app; [by apply Hold|]. subst h'.
    rewrite Hb, Hno, lookup_insert_eq, Hh, <-Hx. by destruct h.
Qed.

Lemma live_fetched_ok sent l taken fin rest outs r open :
  live_ok sent l taken fin rest outs -> li_result l = None -> honest_reply batch_hash r ->
  exists fin' rest' outs', live_ok sent (live_fetched l r open) taken fin' rest' outs'.
Proof.
  intros Hok Hn Hr. unfold live_fetched, Subscriber.live_fetched.
  pose proof (live_unacked _ _ _ _ _ _ Hok Hn) as Hacked. pose proof (lo_waiting _ _ _ _ _ _ Hok Hn) as Hw.
  destruct (li_waiting l) as [|[[s parent] n] waiting] eqn:Hwl; [by eauto|].
  destruct (fetch_batches_plain committee s parent n r) as [Hp Hd].
  destruct (fetch_batches committee s parent n r) as [o|e| |] eqn:Ho; try done; cycle 1.
  { exists fin, rest, outs. destruct Hok. split; cbn; try done. congruence. }
  apply (fetch_batches_ok batch_hash) in Ho; [|done]. cbn in Hw. subst rest.
  set (h := fetching (s, parent, n)) in *.
  assert (Hsub : co_sub_dag o = ch_sub_dag h) by (pose proof (oo_header _ _ _ _ _ _ Ho) as Hh; by injection Hh).
  unfold classify. rewrite Hsub. fold (reaches boundary h). destruct (li_crossed l) eqn:Hcr.
  { exists (fin ++ [h]), (fetching <$> waiting), outs.
    apply (live_finish_ok sent (li_set l (li_state l) waiting true)); [|done]. by apply live_drop_ok. }
  destruct (save_and_publish_sent (li_state l) o) as [Hs1 Hs2].
  destruct (live_keep_ok sent l taken fin h waiting _ outs o _ Hok Hn Hcr eq_refl eq_refl Ho
    (save_and_publish_blocks (li_state l) o) Hs1 Hs2) as [Hk Hstop].
  destruct open; [|exists fin, (h :: (fetching <$> waiting)), outs; destruct (reaches boundary h); exact Hstop].
  exists (fin ++ [h]), (fetching <$> waiting), (outs ++ [o]). apply live_finish_ok in Hk; [|done].
  destruct (reaches boundary h); exact Hk.
Qed.

Lemma live_step_ok sent l taken fin rest outs ev :
  live_ok sent l taken fin rest outs -> honest_event ev ->
  exists taken' fin' rest' outs', live_ok (sent ++ sent_by [ev]) (live_step l ev) taken' fin' rest' outs'.
Proof.
  intros Hok Hev. unfold Subscriber.live_step. destruct (li_result l) as [r|] eqn:Hn.
  { exists taken, fin, rest, outs. destruct Hok. split; try done; [by apply prefix_app_r|congruence..]. }
  pose proof (live_unacked _ _ _ _ _ _ Hok Hn) as Hacked.
  destruct ev as [d|r open| |d|s| |w]; cbn; rewrite ?app_nil_r.
  - exists taken, fin, rest, outs. destruct (draining l || negb d); [done|]. case_bool_decide; by_flags l.
  - destruct (live_fetched_ok sent l taken fin rest outs r open) as (f & q & o & ?); [done..|]. by exists taken, f, q, o.
  - destruct (_ || _); [by exists taken, fin, rest, outs|].
    destruct (live_sequenced_ok sent l taken fin rest outs) as (t & q & ?); [done..|]. by exists t, fin, q, outs.
  - exists taken, fin, rest, outs. destruct (draining l).
    { case_bool_decide; [|done]. by_flags l. }
    destruct d; [|by_flags l]. case_bool_decide; by_flags l.
  - exists taken, fin, rest, outs. by apply live_sent_ok.
  - exists taken, fin, rest, outs. destruct Hok. by split.
  - exists taken, fin, rest, outs. by apply live_outside_ok.
Qed.

Lemma live_run_ok sent l taken fin rest outs evs :
  live_ok sent l taken fin rest outs -> Forall honest_event evs ->
  exists taken' fin' rest' outs', live_ok (sent ++ sent_by evs) (live_run l evs) taken' fin' rest' outs'.
Proof.
  intros Hok Hev. revert sent l taken fin rest outs Hok.
  induction Hev as [|ev evs He _ IH]; intros sent l taken fin rest outs Hok; simpl.
  { rewrite app_nil_r. by exists taken, fin, rest, outs. }
  destruct (live_step_ok _ _ _ _ _ _ _ Hok He) as (t & f & r & o & Hok').
  destruct (IH _ _ _ _ _ _ Hok') as (t' & f' & r' & o' & Hfin). exists t', f', r', o'.
  rewrite <-app_assoc in Hfin. unfold sent_by in Hfin |- *. by rewrite <-omap_app in Hfin.
Qed.

(** C15: What an active validator hands over is the sequence of consensus, cut at
    the epoch boundary. Whatever the interleaving of new sub-DAGs, finished
    fetches, drain and shutdown signals and writes of other tasks, the outputs it
    broadcasts are, in order, well-formed outputs of the first headers of the
    chain that numbers and links the committed sub-DAGs from the tip it started
    at, up to the first one that reaches the boundary and with it; each of them is
    on disk as the canonical header of its number. It announces exactly the
    headers it has numbered; when it acknowledges a drain, all of these were dealt
    with; and it panics only when the numbers run out. *)
Theorem live_outputs_follow_sequence queued evs :
  get_last_executed_consensus (sub_db s0) (committee_epoch committee) = (p0, n0) ->
  Forall honest_event evs ->
  let chain subs := until_boundary boundary (number_from p0 n0 subs) in
  let l := live_run (Live_new s0 queued) evs in
  exists taken k outs,
    taken `prefix_of` queued ++ sent_by evs /\
    consensus_output (li_state l) = consensus_output s0 ++ outs /\
    Forall2 output_for (take k (chain taken)) outs /\
    Forall (fun h => consensus_blocks (sub_db (li_state l)) !! ch_number h = Some h) (take k (chain taken)) /\
    published (li_state l) = published s0 ++ (announcement <$> number_from p0 n0 taken) /\
    (drain_acked l = true -> take k (chain taken) = chain taken) /\
    (li_result l = Some Panic -> u64_max <= n0 + Z.of_nat (length taken)).
Proof.
  intros Hseed Hev chain l.
  destruct (live_run_ok _ _ _ _ _ _ _ (live_new_ok queued Hseed) Hev) as (taken & fin & rest & outs & []).
  assert (Hpre : until_boundary boundary fin `prefix_of` chain taken)
    by (apply until_boundary_prefix; rewrite lo_chain0; by exists rest).
  exists taken, (length (until_boundary boundary fin)), outs. destruct Hpre as [x Hx]. rewrite Hx, take_app_length.
  split_and!; try done; [by apply Forall_forall| |by rewrite <-lo_number0].
  intros [_ ->]%lo_acked0. rewrite <-Hx. unfold chain. by rewrite lo_chain0, app_nil_r.
Qed.

End live.

(** ** Verification keeps what a header commits to *)

Section verified.
Context `{!Crypto, !OutputHashes}.

(** Headers that differ in the signatures of their certificates, and in what
    the digest does not cover, only. *)
Record same_header (h c : ConsensusHeader) : Prop := {
  sh_parent : ch_parent_hash h = ch_parent_hash c;
  sh_number : ch_number h = ch_number c;
  sh_certificates :
    header <$> sd_certificates (ch_sub_dag h) = header <$> sd_certificates (ch_sub_dag c);
  sh_leader : header (sd_leader (ch_sub_dag h)) = header (sd_leader (ch_sub_dag c));
  sh_timestamp : sd_commit_timestamp (ch_sub_dag h) = sd_commit_timestamp (ch_sub_dag c)
}.

#[export] Instance same_header_equivalence : Equivalence same_header.
Proof.
  split; [by split|intros h c []; by split|]. intros h c d [] []; split; congruence.
Qed.

Lemma same_header_digest h c : same_header h c -> ch_digest h = ch_digest c.
Proof.
  intros [Hp Hn Hc Hl Ht]. unfold ch_digest, digest_from_parts, sub_dag_digest. rewrite Hp, Hn, Ht.
  assert (Hd : forall l, digest <$> l = header_digest <$> (header <$> l))
    by (intros l; by rewrite <-list_fmap_compose).
  rewrite !Hd, Hc. unfold digest. by rewrite Hl.
Qed.

Lemma same_header_reaches b h c : same_header h c -> reaches b h = reaches b c.
Proof.
  intros [_ _ _ Hl Ht]. unfold reaches, reaches_epoch_boundary, commit_timestamp. by rewrite Hl, Ht.
Qed.

Lemma verify_cert_header x keys y : verify_cert x keys = Ret y -> header y = header x.
Proof.
  unfold verify_cert, validate_received. destruct (aggregated_signature x) as [sig|]; [|done]. cbn.
  destruct (signed_by _ keys) as [w pks]. intros (q & _ & (u & _ & Hv)%bind_Ret_inv)%bind_Ret_inv.
  unfold verify_signature in Hv. case_match; naive_solver.
Qed.

Lemma verify_certificates_header keys verified certs l :
  verify_certificates keys verified certs = Ret l -> header <$> l = header <$> certs.
Proof.
  revert verified l. induction certs as [|c certs IH]; intros verified l; [by intros [= <-]|]. cbn [verify_certificates].
  case_bool_decide.
  - intros (r & Hr%IH & [= <-])%bind_Ret_inv. cbn. by rewrite Hr.
  - intros (c' & Hc%verify_cert_header & (r & Hr%IH & [= <-])%bind_Ret_inv)%bind_Ret_inv. cbn. by rewrite Hr, Hc.
Qed.

Lemma verify_header_same h keys v : verify_header_with_keys h keys = Ret v -> same_header v h.
Proof.
  unfold verify_header_with_keys, verify_certificates_with_keys.
  intros (s & (ld & Hl%verify_cert_header & (cs & Hc%verify_certificates_header & [= <-])%bind_Ret_inv)%bind_Ret_inv
    & [= <-])%bind_Ret_inv.
  by split.
Qed.

End verified.

(** ** The follower *)

Section follower.
Context `{!Crypto, !OutputHashes, !EpochCrypto} (batch_hash : Batch -> B256).
Context (committee_keys : Epoch -> list BlsPublicKey).
Context (committee : Committee) (boundary : TimestampSec) (depth : Round) (rejoin : bool).
Implicit Types (f : Follower) (h v : ConsensusHeader) (D : list ConsensusHeader).
Abbreviation follow_step := (follow_step batch_hash committee_keys committee boundary depth rejoin).
Abbreviation follow_run := (follow_run batch_hash committee_keys committee boundary depth rejoin).
Abbreviation follow_fetched := (follow_fetched batch_hash committee boundary depth rejoin).
Abbreviation follow_header := (follow_header committee_keys committee rejoin).
Abbreviation rejoin_check := (rejoin_check committee).
Abbreviation output_for := (output_for batch_hash committee).

(** The node before it follows: its outputs, and the number and position of the
    header it starts after. *)
Context (out0 : list ConsensusOutput) (n0 : Z) (pos0 : AcceptedPosition).

Definition ap_lt (a b : AcceptedPosition) : Prop :=
  ap_epoch a < ap_epoch b \/ (ap_epoch a = ap_epoch b /\ ap_round a < ap_round b).
Definition header_position v : AcceptedPosition := from_sub_dag (ch_sub_dag v).
Definition saved_as v : ConsensusHeader :=
  {| ch_parent_hash := ch_parent_hash v; ch_sub_dag := ch_sub_dag v; ch_number := ch_number v; ch_extra := 0 |}.

(** The headers that events deliver, and events with an honest worker. *)
Definition delivered (evs : list FollowEvent) : list ConsensusHeader :=
  omap (fun ev => match ev with HeaderSent h => Some h | _ => None end) evs.
Definition honest_fetch (ev : FollowEvent) : Prop :=
  match ev with FollowFetched rs _ => Forall (honest_reply batch_hash) rs | _ => True end.

(** A header of the epoch that was delivered and verified. *)
Definition verified_of D v : Prop :=
  exists h, h ∈ D /\ header_epoch h = committee_epoch committee /\
    verify_header_with_keys h (committee_keys (header_epoch h)) = Ret v.

(** The headers [fin ++ rest] were accepted, those of [fin] dealt with. *)
Record follow_ok D f (fin rest : list ConsensusHeader) (outs : list ConsensusOutput) : Prop := {
  fk_queue : forall h, h ∈ rx_headers f -> h ∈ D;
  fk_waiting : fo_result f = None -> rest = fo_waiting f;
  fk_crossed : fo_result f = None -> fo_crossed f = existsb (reaches boundary) fin;
  fk_verified : Forall (verified_of D) (fin ++ rest);
  fk_numbers : forall i v, (fin ++ rest) !! i = Some v -> ch_number v = n0 + 1 + Z.of_nat i;
  fk_last : last_processed_number f = n0 + Z.of_nat (length (fin ++ rest));
  fk_sorted : StronglySorted ap_lt (pos0 :: (header_position <$> fin ++ rest));
  fk_position : last (pos0 :: (header_position <$> fin ++ rest)) = Some (accepted_position f);
  fk_outputs : consensus_output (fo_state f) = out0 ++ outs;
  fk_handed : Forall2 output_for (until_boundary boundary fin) outs;
  fk_saved : forall v, v ∈ until_boundary boundary fin ->
    consensus_blocks (sub_db (fo_state f)) !! ch_number v = Some (saved_as v)
}.

Lemma ap_gtb_lt a b : ap_gtb b a = true <-> ap_lt a b.
Proof.
  unfold ap_gtb, ap_lt. rewrite orb_true_iff, andb_true_iff, !Z.ltb_lt, Z.eqb_eq. done.
Qed.
#[local] Instance ap_lt_trans : Transitive ap_lt.
Proof. unfold ap_lt. intros a b c. lia. Qed.

Lemma StronglySorted_snoc_last {A} (R : A -> A -> Prop) `{!Transitive R} l x y :
  StronglySorted R l -> last l = Some x -> R x y -> StronglySorted R (l ++ [y]).
Proof.
  intros Hs Hl Hxy. induction Hs as [|a l Hs IH Ha]; [done|]. simpl. constructor.
  - destruct l as [|b l]; [repeat constructor|]. by apply IH.
  - apply Forall_app. split; [done|]. constructor; [|done].
    destruct l as [|b l]; [by injection Hl as ->|]. rewrite last_cons_cons in Hl.
    apply last_Some_elem_of in Hl. rewrite Forall_forall in Ha. etrans; [|exact Hxy]. by apply Ha.
Qed.

(** What the loop changes besides the headers it accepted and dealt with. *)
Lemma follow_frame D D' f f' fin rest outs :
  follow_ok D f fin rest outs ->
  (forall h, h ∈ D -> h ∈ D') -> (forall h, h ∈ rx_headers f' -> h ∈ D') ->
  (fo_result f' = None -> fo_result f = None /\ fo_waiting f' = fo_waiting f /\ fo_crossed f' = fo_crossed f) ->
  last_processed_number f' = last_processed_number f -> accepted_position f' = accepted_position f ->
  consensus_output (fo_state f') = consensus_output (fo_state f) ->
  consensus_blocks (sub_db (fo_state f')) = consensus_blocks (sub_db (fo_state f)) ->
  follow_ok D' f' fin rest outs.
Proof.
  intros [] HD Hq Hr Hl Hp Ho Hb. split; rewrite ?Hl, ?Hp, ?Ho, ?Hb; try done.
  - intros Hn. destruct (Hr Hn) as (Hn' & -> & _). auto.
  - intros Hn. destruct (Hr Hn) as (Hn' & _ & ->). auto.
  - eapply Forall_impl; [done|]. intros v (h & ? & ?). exists h. auto.
Qed.

Lemma try_rejoin_frame s n :
  consensus_output (try_rejoin_consensus committee s n).1 = consensus_output s /\
  sub_db (try_rejoin_consensus committee s n).1 = sub_db s.
Proof. unfold try_rejoin_consensus. by repeat case_match. Qed.

Lemma rejoin_check_ok D f fin rest outs n :
  follow_ok D f fin rest outs -> follow_ok D (rejoin_check f n) fin rest outs.
Proof.
  intros Hok. unfold Subscriber.rejoin_check. destruct (try_rejoin_frame (fo_state f) n) as [Ho Hd].
  destruct (try_rejoin_consensus committee (fo_state f) n) as [s b]. cbn in Ho, Hd.
  pose proof (fk_queue _ _ _ _ _ Hok).
  eapply follow_frame; [exact Hok|done|..]; destruct b; cbn; rewrite ?Hd; done.
Qed.

Lemma fo_idle_ok D f fin rest outs :
  follow_ok D f fin rest outs -> follow_ok D (fo_idle rejoin f) fin rest outs.
Proof.
  intros Hok. unfold fo_idle. pose proof (fk_queue _ _ _ _ _ Hok).
  destruct (_ && _); [|done]. destruct rejoin; (eapply follow_frame; [exact Hok|done..]).
Qed.

Lemma accept_ok D f fin rest outs h v s :
  follow_ok D f fin rest outs -> fo_result f = None -> h ∈ D -> header_epoch h = committee_epoch committee ->
  verify_header_with_keys h (committee_keys (header_epoch h)) = Ret v ->
  ch_number h = last_processed_number f + 1 -> ap_lt (accepted_position f) (header_position v) ->
  consensus_output s = consensus_output (fo_state f) -> sub_db s = sub_db (fo_state f) ->
  follow_ok D
    {| fo_state := s; rx_headers := rx_headers f; rx_closed := rx_closed f;
       fo_waiting := fo_waiting f ++ [v]; last_processed_number := ch_number h;
       accepted_position := header_position v; channel_closed := channel_closed f;
       fo_crossed := fo_crossed f; last_committed_number := last_committed_number f;
       waiting_for_cert_store := waiting_for_cert_store f; fo_result := fo_result f |}
    fin (rest ++ [v]) outs.
Proof.
  intros [] Hn Hh He Hv Hnum Hpos Ho Hd.
  assert (Hvn : ch_number v = ch_number h) by (by apply sh_number, verify_header_same with (1 := Hv)).
  split; cbn; rewrite ?Ho, ?Hd; rewrite ?app_assoc; try done.
  - intros _. by rewrite fk_waiting0.
  - apply Forall_app. split; [done|]. constructor; [|done]. by exists h.
  - intros i x Hx. apply lookup_app_Some in Hx as [Hx|[Hle Hx]]; [by apply fk_numbers0|].
    assert (i = length (fin ++ rest)) as -> by (apply lookup_lt_Some in Hx; simpl in Hx; lia).
    rewrite Nat.sub_diag in Hx. injection Hx as <-. lia.
  - rewrite length_app. simpl. lia.
  - rewrite fmap_app. apply (StronglySorted_snoc_last _ (pos0 :: _) (accepted_position f)); done.
  - rewrite fmap_app, app_comm_cons. apply last_snoc.
Qed.

Lemma follow_header_ok D f fin rest outs keys :
  follow_ok D f fin rest outs -> fo_result f = None ->
  exists rest', follow_ok D (follow_header f keys) fin rest' outs.
Proof.
  intros Hok Hn. unfold Subscriber.follow_header. pose proof (fk_queue _ _ _ _ _ Hok) as Hq.
  destruct (rx_headers f) as [|h q] eqn:Hrx.
  { exists rest. destruct (rx_closed f); [|done]. apply fo_idle_ok.
    eapply follow_frame; [exact Hok|done|cbn; by rewrite Hrx|done..]. }
  assert (Hpop : follow_ok D (fo_channel f q (rx_closed f)) fin rest outs).
  { eapply follow_frame; [exact Hok|done|cbn|done..]. intros x Hx. apply Hq. by right. }
  destruct (Z.eqb_spec (header_epoch h) (committee_epoch committee)) as [He|He]; cbn [negb]; [|by exists rest].
  destruct (should_process_consensus_header _ _) eqn:Hs; cbn [negb]; [|by exists rest].
  unfold should_process_consensus_header in Hs. cbn in Hs.
  destruct (Z.leb_spec (ch_number h) (last_processed_number f)); [done|]. apply Z.eqb_eq in Hs.
  change (fo_state (fo_channel f q (rx_closed f))) with (fo_state f).
  destruct (verify_consensus_certificates committee_keys (fo_state f) h keys) as [s o] eqn:Hver.
  assert (Hs' : consensus_output s = consensus_output (fo_state f) /\ sub_db s = sub_db (fo_state f) /\
    forall v, o = Some v -> verify_header_with_keys h (committee_keys (header_epoch h)) = Ret v).
  { unfold verify_consensus_certificates in Hver. injection Hver as <- <-.
    split_and!; [by destruct keys..|]. intros v Hv. destruct keys; [..|done].
    all: destruct (verify_header_with_keys _ _); congruence. }
  destruct Hs' as (Ho & Hd & Hv).
  assert (Hset : follow_ok D (fo_set (fo_channel f q (rx_closed f)) s (fo_waiting f) (fo_crossed f) (last_committed_number f)) fin rest outs).
  { eapply follow_frame; [exact Hpop|done|apply (fk_queue _ _ _ _ _ Hpop)|done|done|done|done|cbn; by rewrite Hd]. }
  destruct o as [v|]; [|exists rest; exact Hset].
  unfold advance. destruct (ap_gtb _ _) eqn:Hgt; cbn [negb]; [|exists rest; exact Hset].
  apply ap_gtb_lt in Hgt. exists (rest ++ [v]).
  eapply (accept_ok D _ fin rest outs h v s Hset); cbn; try done; [apply Hq; left|by apply Hv].
Qed.

Lemma persist_blocks s o :
  consensus_blocks (sub_db (persist_catchup_output batch_hash depth s o)) =
  <[number o := consensus_header o]> (consensus_blocks (sub_db s)) /\
  consensus_output (persist_catchup_output batch_hash depth s o) = consensus_output s.
Proof.
  unfold persist_catchup_output. cbn [sub_db set_rounds set_sub_bus consensus_output].
  rewrite save_and_publish_blocks. split; [done|]. by rewrite (proj1 (save_and_publish_sent _ _ _)).
Qed.

(** The accepted headers before another one have other numbers. *)
Lemma follow_before D f fin v rest outs v' :
  follow_ok D f fin (v :: rest) outs -> v' ∈ until_boundary boundary fin -> ch_number v' <> ch_number v.
Proof.
  intros [] Hv'. assert (Hin : v' ∈ fin).
  { destruct (until_boundary_sub boundary fin) as [k Hk]. rewrite Hk. set_solver. }
  apply list_elem_of_lookup in Hin as [i Hi]. assert (Hlt := lookup_lt_Some _ _ _ Hi).
  pose proof (fk_numbers0 i v' ltac:(by apply lookup_app_l_Some)).
  pose proof (fk_numbers0 (length fin) v ltac:(by apply list_lookup_middle)). lia.
Qed.

(** Dealing with the next accepted header: dropped past the boundary, kept
    otherwise, and a kept one that cannot be handed over stops the task. *)
Lemma follow_drop_ok D f fin v rest outs :
  follow_ok D f fin (v :: rest) outs -> fo_result f = None -> fo_crossed f = true ->
  follow_ok D (fo_set f (fo_state f) rest true (last_committed_number f)) (fin ++ [v]) rest outs.
Proof.
  intros [] Hn Hc. pose proof (fk_crossed0 Hn) as Hcr. rewrite Hc in Hcr.
  assert (Hcut : until_boundary boundary (fin ++ [v]) = until_boundary boundary fin)
    by (by rewrite until_boundary_snoc, <-Hcr, app_nil_r).
  split; cbn; rewrite ?Hcut; rewrite <-?app_assoc; try done.
  intros _. by rewrite existsb_app, <-Hcr.
Qed.

Lemma follow_keep_ok D f fin v rest outs o s n c :
  follow_ok D f fin (v :: rest) outs -> fo_result f = None -> fo_crossed f = false -> output_for v o ->
  c = reaches boundary v ->
  consensus_blocks (sub_db s) = <[number o := consensus_header o]> (consensus_blocks (sub_db (fo_state f))) ->
  consensus_output s = consensus_output (fo_state f) ->
  follow_ok D (fo_set f (send_outputs s [o] [] [] false) rest c n) (fin ++ [v]) rest (outs ++ [o]) /\
  follow_ok D (fo_stop (fo_set f s rest c n) (Err ClosedChannel)) fin (v :: rest) outs.
Proof.
  intros Hok Hn Hc Ho -> Hb Hout. pose proof (fun v' => follow_before D f fin v rest outs v' Hok) as Hbefore. destruct Hok.
  pose proof (fk_crossed0 Hn) as Hcr. rewrite Hc in Hcr.
  assert (Hcut : until_boundary boundary (fin ++ [v]) = until_boundary boundary fin ++ [v])
    by (by rewrite until_boundary_snoc, <-Hcr).
  pose proof (oo_header _ _ _ _ _ _ Ho) as Hh.
  assert (Hno : number o = ch_number v) by (unfold consensus_header in Hh; by injection Hh).
  assert (Hold : forall v', v' ∈ until_boundary boundary fin ->
    consensus_blocks (sub_db s) !! ch_number v' = Some (saved_as v')).
  { intros v' Hv'. rewrite Hb, Hno, lookup_insert_ne by (intros ?; by eapply Hbefore). by apply fk_saved0. }
  split; split; cbn; rewrite ?Hcut, ?Hout; rewrite <-?app_assoc; try done.
  - intros _. rewrite existsb_app, <-Hcr. simpl. by rewrite orb_false_r.
  - by rewrite fk_outputs0, app_assoc.
  - apply Forall2_app; [done|]. by constructor.
  - intros v' [Hv'|Hv'%list_elem_of_singleton]%elem_of_app; [by apply Hold|]. subst v'.
    by rewrite Hb, Hno, lookup_insert_eq, Hh.
Qed.

Lemma follow_fetched_ok D f fin rest outs rs open :
  follow_ok D f fin rest outs -> fo_result f = None -> Forall (honest_reply batch_hash) rs ->
  exists fin' rest' outs', follow_ok D (follow_fetched f rs open) fin' rest' outs'.
Proof.
  intros Hok Hn Hrs. unfold Subscriber.follow_fetched. pose proof (fk_waiting _ _ _ _ _ Hok Hn) as Hw.
  destruct (fo_waiting f) as [|v waiting] eqn:Hwf; [by eauto|]. subst rest.
  destruct (retrying_cases committee (ch_sub_dag v) (ch_parent_hash v) (ch_number v) rs)
    as [(o & r & -> & Hr & Ho)|Herr]; cycle 1.
  { exists fin, (v :: waiting), outs. pose proof (fk_queue _ _ _ _ _ Hok).
    destruct Herr as [[i ->]| ->]; (eapply follow_frame; [exact Hok|done..]). }
  rewrite Forall_forall in Hrs. apply (fetch_batches_ok batch_hash) in Ho; [|by apply Hrs].
  pose proof (oo_header _ _ _ _ _ _ Ho) as Hh.
  assert (Hsub : co_sub_dag o = ch_sub_dag v) by by injection Hh.
  unfold classify. rewrite Hsub. fold (reaches boundary v). destruct (fo_crossed f) eqn:Hc.
  { exists (fin ++ [v]), waiting, outs. by apply fo_idle_ok, follow_drop_ok. }
  destruct (persist_blocks (fo_state f) o) as [Hb Hout].
  assert (Hgo : forall c, c = reaches boundary v -> exists fin' rest' outs', follow_ok D
    (if negb open then fo_stop (fo_set f (persist_catchup_output batch_hash depth (fo_state f) o) waiting c
                                  (last_committed_number f)) (Err ClosedChannel)
     else
       let f1 := fo_set f (send_outputs (persist_catchup_output batch_hash depth (fo_state f) o) [o] [] [] false)
                   waiting c (ch_number v) in
       let f2 := if rejoin then rejoin_check f1 (ch_number v) else f1 in
       match fo_result f2 with Some _ => f2 | None => fo_idle rejoin f2 end) fin' rest' outs').
  { intros c Hcv. destruct open; cbn zeta; cbn [negb].
    - exists (fin ++ [v]), waiting, (outs ++ [o]).
      destruct (follow_keep_ok D f fin v waiting outs o _ (ch_number v) c Hok Hn Hc Ho Hcv Hb Hout) as [Hk _].
      match goal with |- follow_ok _ (match fo_result ?f2 with _ => _ end) _ _ _ =>
        assert (Hk' : follow_ok D f2 (fin ++ [v]) waiting (outs ++ [o])) end.
      { destruct rejoin; [by apply rejoin_check_ok|done]. }
      match goal with |- follow_ok _ (match fo_result ?f2 with _ => _ end) _ _ _ =>
        destruct (fo_result f2); [exact Hk'|by apply fo_idle_ok] end.
    - exists fin, (v :: waiting), outs.
      apply (follow_keep_ok D f fin v waiting outs o _ (last_committed_number f) c Hok Hn Hc Ho Hcv Hb Hout). }
  destruct (reaches boundary v) eqn:Hre; cbn [fst snd]; by apply Hgo.
Qed.

Lemma follow_step_ok D f fin rest outs ev :
  follow_ok D f fin rest outs -> honest_fetch ev ->
  exists fin' rest' outs', follow_ok (D ++ delivered [ev]) (follow_step f ev) fin' rest' outs'.
Proof.
  intros Hok Hev. pose proof (fk_queue _ _ _ _ _ Hok) as Hq.
  assert (Hmore : follow_ok (D ++ delivered [ev]) f fin rest outs).
  { eapply follow_frame; [exact Hok|set_solver|set_solver|done..]. }
  unfold Subscriber.follow_step. destruct (fo_result f) eqn:Hn; [by eauto|].
  destruct ev as [| |rs open| | |keys|h| |w].
  - exists fin, rest, outs. eapply follow_frame; [exact Hmore|done|set_solver|done..].
  - exists fin, rest, outs. destruct rejoin; [by apply rejoin_check_ok|done].
  - by apply (follow_fetched_ok _ _ fin rest outs).
  - exists fin, rest, outs. destruct (waiting_for_cert_store f); [by apply rejoin_check_ok|done].
  - exists fin, rest, outs. destruct (waiting_for_cert_store f); [by apply rejoin_check_ok|done].
  - destruct (_ || _); [by eauto|].
    destruct (follow_header_ok _ f fin rest outs keys Hmore Hn) as [rest' ?]. by exists fin, rest', outs.
  - exists fin, rest, outs. destruct (rx_closed f); [done|].
    eapply follow_frame; [exact Hmore|done|cbn; set_solver|done..].
  - exists fin, rest, outs. eapply follow_frame; [exact Hmore|done|set_solver|done..].
  - exists fin, rest, outs. destruct (outside_keeps (fo_state f) w) as (Hb & Ho & _).
    eapply follow_frame; [exact Hmore|done|set_solver|done..].
Qed.

Lemma follow_run_ok D f fin rest outs evs :
  follow_ok D f fin rest outs -> Forall honest_fetch evs ->
  exists fin' rest' outs', follow_ok (D ++ delivered evs) (follow_run f evs) fin' rest' outs'.
Proof.
  intros Hok Hev. revert D f fin rest outs Hok.
  induction Hev as [|ev evs He _ IH]; intros D f fin rest outs Hok; simpl.
  { rewrite app_nil_r. by exists fin, rest, outs. }
  destruct (follow_step_ok _ _ _ _ _ _ Hok He) as (f1 & r1 & o1 & Hok').
  destruct (IH _ _ _ _ _ Hok') as (f2 & r2 & o2 & Hfin). exists f2, r2, o2.
  rewrite <-app_assoc in Hfin. unfold delivered in Hfin |- *. by rewrite <-omap_app in Hfin.
Qed.

End follower.

Section following.
Context `{!Crypto, !OutputHashes, !EpochCrypto} (batch_hash : Batch -> B256).
Context (committee_keys : Epoch -> list BlsPublicKey).
Context (committee : Committee) (boundary : TimestampSec) (depth : Round) (rejoin : bool).
Context (s0 : SubState) (anchor : ConsensusHeader).
Implicit Types (h v c : ConsensusHeader).
Abbreviation follow_run := (follow_run batch_hash committee_keys committee boundary depth rejoin).
Abbreviation follow_ok := (follow_ok batch_hash committee_keys committee boundary).

(** The headers on disk that the follower streams to itself first, and the
    number it starts after. *)
Definition restreamed : list ConsensusHeader :=
  (stream_missing_consensus (sub_db s0) (committee_epoch committee) anchor).1.
Definition start_number : Z :=
  if ch_number anchor =? 0
  then (stream_missing_consensus (sub_db s0) (committee_epoch committee) anchor).2 else ch_number anchor.

Lemma follower_new_ok :
  follow_ok (consensus_output s0) start_number (from_sub_dag (ch_sub_dag anchor))
    restreamed (Follower_new committee rejoin s0 anchor) [] [] [].
Proof.
  unfold Follower_new, start_number, restreamed.
  destruct (stream_missing_consensus _ _ _) as [missing last] eqn:Hm. cbn [fst snd].
  destruct (rejoin && _); [apply rejoin_check_ok|].
  all: split; cbn; rewrite ?app_nil_r; try done; [lia|repeat constructor|].
  all: intros v Hv; by apply elem_of_nil in Hv.
Qed.

(** C16: Whatever peers stream and in whatever order, a node that catches up or
    observes hands over well-formed outputs of headers of its epoch whose
    certificates it verified, with consecutive numbers from where it starts and
    strictly increasing positions (epoch and leader round), none after the first
    that reaches the epoch boundary, each on disk as the canonical header of its
    number. *)
Theorem follower_outputs_ordered evs :
  Forall (honest_fetch batch_hash) evs ->
  let f := follow_run (Follower_new committee rejoin s0 anchor) evs in
  exists accepted k outs,
    Forall (verified_of committee_keys committee (restreamed ++ delivered evs)) accepted /\
    (forall i v, accepted !! i = Some v -> ch_number v = start_number + 1 + Z.of_nat i) /\
    StronglySorted ap_lt (from_sub_dag (ch_sub_dag anchor) :: (header_position <$> accepted)) /\
    consensus_output (fo_state f) = consensus_output s0 ++ outs /\
    Forall2 (output_for batch_hash committee) (take k (until_boundary boundary accepted)) outs /\
    Forall (fun v => consensus_blocks (sub_db (fo_state f)) !! ch_number v = Some (saved_as v))
      (take k (until_boundary boundary accepted)).
Proof.
  intros Hev f. destruct (follow_run_ok batch_hash committee_keys committee boundary depth rejoin _ _ _ _ _ _ _ _ _ follower_new_ok Hev) as (fin & rest & outs & []).
  exists (fin ++ rest), (length (until_boundary boundary fin)), outs.
  destruct (until_boundary_prefix boundary fin (fin ++ rest)) as [x Hx]; [by exists rest|].
  rewrite Hx, take_app_length. split_and!; try done. by apply Forall_forall.
Qed.

(** ** The follower and the chain of the validators *)

Lemma until_boundary_same l l' :
  Forall2 same_header l l' -> Forall2 same_header (until_boundary boundary l) (until_boundary boundary l').
Proof.
  induction 1 as [|h c l l' Hh _ IH]; simpl; [done|]. constructor; [done|].
  rewrite (same_header_reaches _ _ _ Hh). by case_match.
Qed.

Lemma Forall2_compose {A B C} (P : A -> B -> Prop) (Q : B -> C -> Prop) (R : A -> C -> Prop) l k m :
  (forall x y z, P x y -> Q y z -> R x z) -> Forall2 P l k -> Forall2 Q k m -> Forall2 R l m.
Proof.
  intros HR Hlk. revert m. induction Hlk as [|a b l k Hab _ IH]; intros m Hkm; inversion_clear Hkm; constructor; eauto.
Qed.

(** An output of a header is an output of every variant of it. *)
Lemma output_same v c o : same_header v c -> output_for batch_hash committee v o ->
  same_header (consensus_header o) c /\ ch_digest (consensus_header o) = ch_digest c /\
  batch_digests o = payload_digests (ch_sub_dag c) /\
  batch_hash <$> concat (cb_batches <$> co_batches o) = batch_digests o.
Proof.
  intros Hs [Hh Hd Hb _ _].
  assert (Hsame : same_header (consensus_header o) c) by (etrans; [|exact Hs]; rewrite Hh; by split).
  split_and!; [done|by apply same_header_digest| |].
  - rewrite Hd. unfold payload_digests.
    assert (Hp : forall l, l ≫= (fun x => (payload (header x)).*1) = (header <$> l) ≫= (fun x : Header => (payload x).*1)).
    { induction l as [|x l IH]; [done|]. cbn. by rewrite IH. }
    by rewrite !Hp, (sh_certificates _ _ Hs).
  - apply list_eq_Forall2, Forall2_fmap_l. done.
Qed.

Context (p0 : B256) (subs : list CommittedSubDag).
Abbreviation chain := (number_from p0 start_number subs).

Lemma accepted_on_chain D accepted :
  Forall (verified_of committee_keys committee D) accepted ->
  (forall i v, accepted !! i = Some v -> ch_number v = start_number + 1 + Z.of_nat i) ->
  (forall h, h ∈ D -> header_epoch h = committee_epoch committee -> start_number < ch_number h ->
     exists c, c ∈ chain /\ same_header h c) ->
  Forall2 same_header accepted (take (length accepted) chain).
Proof.
  intros Hver Hnum Hhon. rewrite Forall_forall in Hver.
  assert (Hat : forall i v, accepted !! i = Some v -> exists c, chain !! i = Some c /\ same_header v c).
  { intros i v Hv. destruct (Hver v) as (h & Hh & He & Hok%verify_header_same); [by eapply list_elem_of_lookup_2|].
    pose proof (Hnum _ _ Hv) as Hn. pose proof (sh_number _ _ Hok) as Hn'.
    destruct (Hhon h Hh He) as (c & Hc & Hs); [lia|].
    apply list_elem_of_lookup in Hc as [j Hj]. pose proof (number_from_lookup _ _ _ _ _ Hj) as Hcn.
    pose proof (sh_number _ _ Hs). assert (j = i) as -> by lia. exists c. split; [done|by etrans]. }
  apply Forall2_same_length_lookup_2.
  - rewrite length_take. destruct accepted as [|v l] using rev_ind; [done|].
    destruct (Hat (length l) v) as (c & Hc & _); [by apply list_lookup_middle|].
    apply lookup_lt_Some in Hc. rewrite length_app. simpl. lia.
  - intros i v c Hv Hc. apply lookup_take_Some in Hc as [Hc _].
    destruct (Hat _ _ Hv) as (c' & Hc' & Hs). congruence.
Qed.

(** C17: Followers and validators agree. When every header of the epoch that is
    streamed to a follower, or that it finds on disk, is up to signatures a header
    of the chain over the sub-DAGs that consensus commits, the outputs it hands
    over are, in order, well-formed outputs of the first headers of that chain up
    to the epoch boundary: the same digests, batches and cut as the validators'
    outputs, whatever is streamed twice, out of order or of other epochs. *)
Theorem followers_agree_with_validators evs :
  Forall (honest_fetch batch_hash) evs ->
  (forall h, h ∈ restreamed ++ delivered evs -> header_epoch h = committee_epoch committee ->
     start_number < ch_number h -> exists c, c ∈ chain /\ same_header h c) ->
  let f := follow_run (Follower_new committee rejoin s0 anchor) evs in
  exists k outs,
    consensus_output (fo_state f) = consensus_output s0 ++ outs /\
    Forall2 (fun c o => same_header (consensus_header o) c /\ ch_digest (consensus_header o) = ch_digest c /\
                        batch_digests o = payload_digests (ch_sub_dag c) /\
                        batch_hash <$> concat (cb_batches <$> co_batches o) = batch_digests o)
      (take k (until_boundary boundary chain)) outs.
Proof.
  intros Hev Hhon f.
  destruct (follow_run_ok batch_hash committee_keys committee boundary depth rejoin _ _ _ _ _ _ _ _ _ follower_new_ok Hev) as (fin & rest & outs & []).
  pose proof (accepted_on_chain _ _ fk_verified0 fk_numbers0 Hhon) as Hacc.
  apply Forall2_app_inv_l in Hacc as (l1 & l2 & Hl1 & _ & Htake).
  apply until_boundary_same in Hl1.
  assert (Hpre : until_boundary boundary l1 `prefix_of` until_boundary boundary chain).
  { apply until_boundary_prefix. trans (l1 ++ l2); [by exists l2|]. rewrite <-Htake. apply prefix_take. }
  exists (length (until_boundary boundary l1)), outs. split; [done|].
  destruct Hpre as [x Hx]. rewrite Hx, take_app_length.
  eapply Forall2_compose; [|by apply Forall2_flip|exact fk_handed0]. intros c v o Hs Ho. by eapply output_same.
Qed.

End following.

(** ** The relay to the engine *)

Section relay.
Context `{!Crypto, !OutputHashes, !EpochCrypto} (batch_hash : Batch -> B256).
Context (committee : Committee) (boundary : TimestampSec).

Definition closing (o : ConsensusOutput) : ConsensusOutput :=
  {| co_sub_dag := co_sub_dag o; co_batches := co_batches o; batch_digests := batch_digests o;
     parent_hash := parent_hash o; number := number o; extra := extra o; close_epoch := true |}.
Definition crosses (o : ConsensusOutput) : bool := reaches_epoch_boundary (co_sub_dag o) boundary.

(** The relay loses nothing: on the outputs of a committer it passes all of them
    on in order, and keeps back, marked as closing the epoch, exactly the last
    one when it reaches the boundary. *)
Theorem relay_passes_everything hs k outs :
  Forall2 (output_for batch_hash committee) (take k (until_boundary boundary hs)) outs ->
  match detect_epoch_boundary boundary outs with
  | (relayed, None) => relayed = outs /\ Forall (fun o => crosses o = false) outs
  | (relayed, Some (d, c)) =>
      exists o, outs = relayed ++ [o] /\ c = closing o /\ d = ch_digest (consensus_header o) /\
        crosses o = true /\ Forall (fun o => crosses o = false) relayed
  end.
Proof.
  revert k outs. induction hs as [|h hs IH]; intros k outs; simpl.
  { rewrite take_nil. by intros ->%Forall2_nil_inv_l. }
  destruct k as [|k]; simpl; [by intros ->%Forall2_nil_inv_l|].
  intros (o & outs' & Ho & Hrest & ->)%Forall2_cons_inv_l.
  assert (Hx : crosses o = reaches boundary h).
  { unfold crosses, reaches. pose proof (oo_header _ _ _ _ _ _ Ho) as Hh. injection Hh as _ Hs _ _. by rewrite Hs. }
  cbn [detect_epoch_boundary]. fold (crosses o). rewrite Hx. destruct (reaches boundary h).
  - rewrite take_nil in Hrest. apply Forall2_nil_inv_l in Hrest as ->. exists o. done.
  - specialize (IH k outs' Hrest). destruct (detect_epoch_boundary boundary outs') as [rel [[d c]|]].
    + destruct IH as (o' & -> & ? & ? & ? & ?). exists o'. split_and!; try done. by constructor.
    + destruct IH as [-> ?]. split; [done|]. by constructor.
Qed.

End relay.

(** ** Returning to consensus *)

Section rejoin.
Context `{!Crypto, !OutputHashes, !EpochCrypto} (committee : Committee).

(** C29: A node returns to consensus only when it has caught up: it is no
    observer, it knows a head of the network, the header it has committed and the
    canonical chain on its disk have reached that head, its certificates cover the
    committed round, and a barrier of this epoch was cleared, by the missing
    certificate or by the round. The barrier is lifted, and every header that the
    live loop then numbers is above the head of the network, so that no number
    the network used is used again. *)
Theorem rejoin_above_network_head s n s' queued subs :
  try_rejoin_consensus committee s n = (s', true) ->
  node_mode (sub_bus s) <> Observer /\ network_head s <> 0 /\ network_head s <= n /\
  committed_round (consensus_rounds (sub_bus s)) <= cert_store_round s /\
  match promotion_barrier (sub_bus s) with
  | Some b => ConsensusTask.pb_epoch b = committee_epoch committee ->
      match pb_digest b with
      | Some d => is_Some (certificates (sub_certs s) !! d)
      | None => pb_round b <= committed_round (consensus_rounds (sub_bus s))
      end
  | None => True
  end /\
  promotion_barrier (sub_bus s') = None /\
  (node_mode (sub_bus s) = CvvInactive -> mode_transition (sub_bus s') = Some CvvActive) /\
  let l := Live_new committee s' queued in
  Forall (fun h => network_head s < ch_number h) (number_from (last_parent l) (last_number l) subs).
Proof.
  unfold try_rejoin_consensus. case_bool_decide as Hm; [done|].
  destruct (Z.eqb_spec (network_head s) 0) as [|Hhead]; [done|].
  destruct (Z.ltb_spec n (network_head s)) as [|Hn]; [done|].
  destruct (Z.ltb_spec (durable_tip committee s) (network_head s)) as [|Htip]; [done|].
  destruct (Z.ltb_spec (cert_store_round s) (committed_round (consensus_rounds (sub_bus s)))) as [|Hstore]; [done|].
  intros Hs'. split_and!; try done.
  - destruct (promotion_barrier (sub_bus s)) as [b|]; [|done]. intros Hb.
    destruct (is_cleared _ _ _ _) eqn:Hcl; [|done]. unfold is_cleared in Hcl.
    rewrite (proj2 (Z.eqb_eq _ _) Hb) in Hcl. simpl in Hcl. destruct (pb_digest b); [|by apply Z.leb_le].
    by apply bool_decide_eq_true in Hcl.
  - destruct (promotion_barrier (sub_bus s)) as [b|] eqn:Hb; [destruct (is_cleared _ _ _ _); [|done]|].
    all: injection Hs' as <-; cbn; unfold request_mode_transition; by case_decide.
  - intros Hi. destruct (promotion_barrier (sub_bus s)) as [b|] eqn:Hb; [destruct (is_cleared _ _ _ _); [|done]|].
    all: injection Hs' as <-; cbn; unfold request_mode_transition; case_decide as Hx; cbn in *; naive_solver congruence.
  - assert (Hdb : sub_db s' = sub_db s).
    { destruct (promotion_barrier (sub_bus s)); [destruct (is_cleared _ _ _ _); [|done]|]; by injection Hs' as <-. }
    assert (Hl : last_number (Live_new committee s' queued) = durable_tip committee s).
    { unfold durable_tip. cbn. rewrite Hdb. by destruct (consensus_chain_tip _ _). }
    apply Forall_lookup. intros i h Hh%number_from_lookup. lia.
Qed.

End rejoin.

(** ** Where the code falls short *)

Section shortcomings.
Context `{!Crypto, !OutputHashes, !EpochCrypto} (batch_hash : Batch -> B256).
Context (committee_keys : Epoch -> list BlsPublicKey).
Context (committee : Committee) (boundary : TimestampSec) (depth : Round) (rejoin : bool).
Abbreviation follow_run := (follow_run batch_hash committee_keys committee boundary depth rejoin).

(** [h] with the same leader and place, no certificates, and any timestamp and
    scores. *)
Definition stripped (h : ConsensusHeader) (scores : ReputationScores) (ts : TimestampSec) : ConsensusHeader :=
  {| ch_parent_hash := ch_parent_hash h;
     ch_sub_dag := {| sd_certificates := []; sd_leader := sd_leader (ch_sub_dag h);
                      reputation_score := scores; sd_commit_timestamp := ts |};
     ch_number := ch_number h; ch_extra := ch_extra h |}.

Lemma stripped_verifies h scores ts keys v : verify_header_with_keys h keys = Ret v ->
  exists v', verify_header_with_keys (stripped h scores ts) keys = Ret v' /\
    ch_parent_hash v' = ch_parent_hash h /\ ch_number v' = ch_number h /\
    sd_certificates (ch_sub_dag v') = [] /\ header (sd_leader (ch_sub_dag v')) = header (sd_leader (ch_sub_dag h)) /\
    sd_commit_timestamp (ch_sub_dag v') = ts.
Proof.
  unfold verify_header_with_keys, verify_certificates_with_keys.
  intros (s & (ld & Hl & _)%bind_Ret_inv & _)%bind_Ret_inv. cbn. rewrite Hl. cbn. eexists. split; [done|].
  cbn. split_and!; try done. by apply verify_cert_header in Hl.
Qed.

Lemma stripped_accepted (f : Follower) (h v' : ConsensusHeader) scores ts :
  fo_result f = None -> channel_closed f = false -> rx_headers f = [stripped h scores ts] -> fo_waiting f = [] ->
  header_epoch h = committee_epoch committee -> ch_number h = last_processed_number f + 1 ->
  verify_header_with_keys (stripped h scores ts) (committee_keys (committee_epoch committee)) = Ret v' ->
  ap_lt (accepted_position f) (header_position v') ->
  let f' := follow_step batch_hash committee_keys committee boundary depth rejoin f (HeaderRecv KeysHeld) in
  fo_result f' = None /\ fo_waiting f' = [v'] /\ fo_crossed f' = fo_crossed f /\ fo_state f' = fo_state f.
Proof.
  intros Hn Hcc Hrx Hw He Hnum Hv Hpos. unfold follow_step. rewrite Hn, Hcc, Hw. unfold follow_header. rewrite Hrx. cbn.
  replace (header_epoch (stripped h scores ts)) with (committee_epoch committee) by done.
  rewrite Z.eqb_refl. cbn. unfold should_process_consensus_header.
  destruct (Z.leb_spec (ch_number h) (last_processed_number f)); [lia|]. rewrite (proj2 (Z.eqb_eq _ _) Hnum). cbn.
  rewrite Hv. cbn. apply ap_gtb_lt in Hpos. unfold header_position in Hpos. rewrite Hpos. cbn. by rewrite Hw.
Qed.

(** A header without certificates is handed over and persisted without
    asking the worker. *)
Lemma empty_handed_over (f : Follower) (v : ConsensusHeader) r :
  fo_result f = None -> fo_waiting f = [v] -> fo_crossed f = false -> sd_certificates (ch_sub_dag v) = [] ->
  let o := {| co_sub_dag := ch_sub_dag v; co_batches := []; batch_digests := []; parent_hash := ch_parent_hash v;
              number := ch_number v; extra := 0; close_epoch := false |} in
  let f' := follow_step batch_hash committee_keys committee boundary depth rejoin f (FollowFetched [r] true) in
  consensus_output (fo_state f') = consensus_output (fo_state f) ++ [o] /\
  consensus_blocks (sub_db (fo_state f')) !! ch_number v = Some (consensus_header o).
Proof.
  intros Hn Hw Hc Hcs o. unfold follow_step. rewrite Hn. unfold follow_fetched. rewrite Hw.
  assert (Ho : fetch_batches_retrying committee (ch_sub_dag v) (ch_parent_hash v) (ch_number v) [r] = Ret o).
  { cbn. unfold fetch_batches, num_primary_blocks. by rewrite Hcs. }
  rewrite Ho, Hc. unfold classify. destruct (persist_blocks batch_hash depth (fo_state f) o) as [Hb Hout].
  assert (Hsent : forall c, let f1 := fo_set f (send_outputs (persist_catchup_output batch_hash depth (fo_state f) o) [o] [] [] false)
                              [] c (ch_number v) in
    consensus_output (fo_state f1) = consensus_output (fo_state f) ++ [o] /\
    consensus_blocks (sub_db (fo_state f1)) !! ch_number v = Some (consensus_header o)).
  { intros c f1. unfold f1. cbn [fo_state fo_set consensus_output send_outputs sub_db].
    by rewrite Hout, Hb, lookup_insert_eq. }
  assert (Hend : forall f1, consensus_output (fo_state f1) = consensus_output (fo_state f) ++ [o] /\
    consensus_blocks (sub_db (fo_state f1)) !! ch_number v = Some (consensus_header o) ->
    let f2 := if rejoin then rejoin_check committee f1 (ch_number v) else f1 in
    let f3 := match fo_result f2 with Some _ => f2 | None => fo_idle rejoin f2 end in
    consensus_output (fo_state f3) = consensus_output (fo_state f) ++ [o] /\
    consensus_blocks (sub_db (fo_state f3)) !! ch_number v = Some (consensus_header o)).
  { intros f1 Hf1 f2 f3. assert (Hs2 : consensus_output (fo_state f2) = consensus_output (fo_state f1) /\
      sub_db (fo_state f2) = sub_db (fo_state f1)).
    { unfold f2, rejoin_check. destruct rejoin; [|done]. destruct (try_rejoin_frame committee (fo_state f1) (ch_number v)).
      destruct (try_rejoin_consensus committee (fo_state f1) (ch_number v)) as [s []]; by cbn in *. }
    assert (Hs3 : fo_state f3 = fo_state f2).
    { unfold f3. destruct (fo_result f2); [done|]. unfold fo_idle. by repeat case_match. }
    rewrite Hs3, (proj1 Hs2), (proj2 Hs2). done. }
  destruct (reaches_epoch_boundary _ _); exact (Hend _ (Hsent _)).
Qed.

(** The checks of a follower do not cover what a sub-DAG contains. Where it
    would accept a header [h], it accepts as well the header with the leader and
    the place of [h], no certificates and any commit timestamp; it hands over an
    output without any batch of [h] and persists the forged header as the
    canonical one of that number. *)
Theorem forged_header_followed (f : Follower) (h v : ConsensusHeader) scores ts r :
  fo_result f = None -> channel_closed f = false -> rx_closed f = false -> rx_headers f = [] ->
  fo_waiting f = [] -> fo_crossed f = false ->
  header_epoch h = committee_epoch committee -> ch_number h = last_processed_number f + 1 ->
  verify_header_with_keys h (committee_keys (committee_epoch committee)) = Ret v ->
  ap_lt (accepted_position f) (header_position h) ->
  let f' := follow_run f [HeaderSent (stripped h scores ts); HeaderRecv KeysHeld; FollowFetched [r] true] in
  exists o, consensus_output (fo_state f') = consensus_output (fo_state f) ++ [o] /\
    co_batches o = [] /\ sd_commit_timestamp (co_sub_dag o) = ts /\
    ch_digest (consensus_header o) = ch_digest (stripped h scores ts) /\
    consensus_blocks (sub_db (fo_state f')) !! ch_number h = Some (consensus_header o).
Proof.
  intros Hn Hcc Hrc Hrx Hw Hc He Hnum Hv Hpos.
  destruct (stripped_verifies h scores ts _ v Hv) as (v' & Hv' & Hp & Hn' & Hcs & Hl & Ht).
  assert (Hsent : follow_step batch_hash committee_keys committee boundary depth rejoin f
    (HeaderSent (stripped h scores ts)) = fo_channel f [stripped h scores ts] false)
    by (unfold follow_step; by rewrite Hn, Hrc, Hrx).
  unfold Subscriber.follow_run. cbn [foldl]. rewrite Hsent.
  destruct (stripped_accepted (fo_channel f [stripped h scores ts] false) h v' scores ts) as (Hn2 & Hw2 & Hc2 & Hs2); try done.
  { unfold header_position, from_sub_dag, leader_epoch, leader_round, cert_epoch, cert_round in *. by rewrite Hl. }
  destruct (empty_handed_over _ v' r Hn2 Hw2) as [Ho Hb]; [by rewrite Hc2|done|].
  eexists. rewrite Ho, Hs2. split_and!; [done|done|done| |by rewrite <-Hn'].
  apply same_header_digest. trans v'; [by split|]. by apply verify_header_same in Hv'.
Qed.

(** The headers on disk that are streamed again are in order. *)
Lemma collect_replayable_le db e (numbers : list Z) l h :
  (forall n x, get_consensus_by_number db n = Some x -> ch_number x = n) ->
  StronglySorted Z.le numbers -> collect_replayable db e numbers = l -> h ∈ l ->
  exists x, last l = Some x /\ ch_number h <= ch_number x.
Proof.
  intros Hrows Hs <- Hh. revert h Hh. induction Hs as [|n ns Hs IH Hle]; intros h; [set_solver|]. cbn.
  destruct (get_consensus_by_number db n) as [x|] eqn:Hx; [|apply IH]. destruct (_ <? _); [set_solver|].
  intros [->|Hh]%elem_of_cons.
  - rewrite last_cons. destruct (last (collect_replayable db e ns)) as [y|] eqn:Hy; [|by exists x].
    exists y. split; [done|]. apply Hrows in Hx as ->. apply last_Some_elem_of in Hy.
    assert (Hy' : exists k, k ∈ ns /\ ch_number y = k).
    { clear -Hy Hrows. induction ns as [|k ns IH]; cbn in Hy; [set_solver|].
      destruct (get_consensus_by_number db k) as [z|] eqn:Hz; [|destruct IH as (j & ? & ?); [done|]; set_solver].
      destruct (_ <? _); [set_solver|]. apply elem_of_cons in Hy as [->|Hy]; [exists k; split; [set_solver|auto]|].
      destruct IH as (j & ? & ?); [done|]. set_solver. }
    destruct Hy' as (k & Hk & ->). rewrite Forall_forall in Hle. by apply Hle.
  - destruct (IH h Hh) as (y & Hy & ?). exists y. by rewrite last_cons, Hy.
Qed.

Lemma seqZ_sorted m k : StronglySorted Z.le (seqZ m k).
Proof.
  destruct (Z.le_gt_cases k 0) as [Hk|Hk]; [rewrite seqZ_nil by lia; constructor|].
  revert m. apply Z.lt_le_incl in Hk. revert k Hk. refine (natlike_ind _ _ _); [intros; constructor|].
  intros k Hk IH m. rewrite seqZ_cons, Z.pred_succ by lia. constructor; [apply IH|].
  apply Forall_forall. intros x Hx%elem_of_seqZ. lia.
Qed.

(** A node that has executed nothing yet skips what it has on disk. Its
    execution anchor has number 0, so the follower starts after the last header it
    streams to itself from disk: it drops every one of these as a duplicate, and
    every output it hands over is of a later number, although none of them was
    executed. *)
Theorem unexecuted_headers_skipped s anchor evs :
  ch_number anchor = 0 ->
  (forall n h, get_consensus_by_number (sub_db s) n = Some h -> ch_number h = n) ->
  Forall (honest_fetch batch_hash) evs ->
  let f := follow_run (Follower_new committee rejoin s anchor) evs in
  exists outs, consensus_output (fo_state f) = consensus_output s ++ outs /\
    forall o h, o ∈ outs -> h ∈ restreamed committee s anchor -> ch_number h < number o.
Proof.
  intros H0' Hrows Hev f.
  destruct (follow_run_ok batch_hash committee_keys committee boundary depth rejoin _ _ _ _ _ _ _ _ _
    (follower_new_ok batch_hash committee_keys committee boundary rejoin s anchor) Hev) as (fin & rest & outs & []).
  exists outs. split; [done|]. intros o h Ho Hh.
  assert (Hlast : ch_number h <= start_number committee s anchor).
  { unfold start_number, restreamed, stream_missing_consensus in *. rewrite H0' in *. cbn [fst snd] in *.
    destruct (0 <? _) eqn:Hgap; [|set_solver].
    destruct (collect_replayable_le (sub_db s) (committee_epoch committee) _ _ h Hrows
      (seqZ_sorted _ _) eq_refl Hh) as (x & Hx & Hle). unfold collect_replayable_headers in *. rewrite Z.eqb_refl.
    by rewrite Hx. }
  apply list_elem_of_lookup in Ho as [i Hi].
  destruct (Forall2_lookup_r _ _ _ _ _ fk_handed0 Hi) as (v & Hv & Hout).
  assert (Hn : number o = ch_number v)
    by (pose proof (oo_header _ _ _ _ _ _ Hout) as Hh'; unfold consensus_header in Hh'; by injection Hh').
  destruct (until_boundary_sub boundary fin) as [k Hk].
  specialize (fk_numbers0 i v). rewrite Hk in fk_numbers0. rewrite Hn, fk_numbers0; [lia|].
  rewrite <-app_assoc. by apply lookup_app_l_Some.
Qed.

(** A validator that shuts down while its replay waits for a batch panics.
    As long as the worker does not serve the batches of the first header to be
    replayed, the fetch is tried again; shutdown ends the wait with the error of a
    closed channel, the subscriber returns it, and its task panics on it, in every
    mode. *)
Theorem shutdown_during_replay_panics s anchor h missing i inputs queued evs mode :
  get_missing_consensus (sub_db s) (committee_epoch committee) anchor = h :: missing ->
  Forall (fun r => exists e, fetch_batches committee (ch_sub_dag h) (ch_parent_hash h) (ch_number h) r = Err e /\
                     is_batch_fetch_error e = true) (ri_replies i) ->
  let '(s', r) := subscriber_run batch_hash committee boundary anchor (i :: inputs) queued evs s in
  r = Some (Err ClosedChannel) /\ (subscriber_exit mode s' (Err ClosedChannel)).2 = Panic.
Proof.
  intros Hm Hf. unfold subscriber_run. rewrite Hm. cbn.
  assert (Hr : fetch_batches_retrying committee (ch_sub_dag h) (ch_parent_hash h) (ch_number h) (ri_replies i) = Err ClosedChannel).
  { induction Hf as [|r rs (e & He & Hb) _ IH]; [done|]. cbn. by rewrite He, Hb. }
  rewrite Hr. split; [done|]. by destruct mode.
Qed.

End shortcomings.

(** ** Examples *)

Module SubExamples.
Import ChainExamples.

Definition member : Authority :=
  Authority_new 1 1 11.
Definition members : Committee :=
  {| authorities_map := {[1 := member]}; authorities_by_id := {[1 := member]}; committee_epoch := 0;
     quorum_threshold := 1; validity_threshold := 1; bootstrap_servers := ∅ |}.
Definition keys (e : Epoch) : list BlsPublicKey := [1].

(** A certificate of the only member, signed by it. *)
Definition signed (r : Round) (pl : list (BlockHash * WorkerId)) : Certificate :=
  {| header := {| fields := {| author := 1; round := r; epoch := 0; created_at := r; payload := pl;
                               parents := ∅;
                               latest_execution_block := {| bnh_number := 0; bnh_hash := 0 |} |};
                  digest_cell := None |};
     signature_verification_state := Unverified 0; signed_authorities := {[0]}; cert_created_at := 0 |}.
Definition commit (r : Round) (pl : list (BlockHash * WorkerId)) : CommittedSubDag :=
  {| sd_certificates := [signed r pl]; sd_leader := signed r pl;
     reputation_score := {| scores_per_authority := ∅; final_of_schedule := false |};
     sd_commit_timestamp := r |}.

(** Batches whose digest is their sequence number. *)
Definition batch (d : B256) : Batch :=
  {| transactions := []; b_epoch := 0; b_beneficiary := 11; base_fee_per_gas := 7; b_worker_id := 0;
     seq := d; received_at := None |}.
Definition store (d : B256) : BatchReply := Some {[d := batch d]}.

Lemma store_honest d : honest_reply BatchOrdering.seq (store d).
Proof. intros m x b [= <-] Hb. apply lookup_singleton_Some in Hb as [<- <-]. done. Qed.

Lemma outputs_well_formed_witness :
  honest_reply BatchOrdering.seq (store 9) /\
  match fetch_batches members (commit 2 [(9, 0)]) 7 1 (store 9) with
  | Ret o => output_of BatchOrdering.seq members (commit 2 [(9, 0)]) 7 1 o /\
             length (flatten_batches o) = length (batch_digests o)
  | _ => False
  end.
Proof.
  split; [apply store_honest|].
  exact (outputs_well_formed BatchOrdering.seq members (commit 2 [(9, 0)]) 7 1 (store 9) (store_honest 9)).
Defined.

Definition bus (mode : NodeMode) (barrier : option PromotionBarrier) : ConsensusBus :=
  {| node_mode := mode; mode_transition := None; promotion_barrier := barrier; certificate_fetcher := [];
     sequence := []; committed_reports := []; consensus_rounds := {| committed_round := 4; gc_round := 0 |};
     shutdown_notified := false |}.
Definition node (db : ChainDb) (mode : NodeMode) (barrier : option PromotionBarrier) : SubState :=
  {| sub_db := db; sub_certs := empty_tables; sub_bus := bus mode barrier;
     local_consensus_tip := default_header; primary_round_updates := 0; cert_store_round := 4;
     gossip_number := 1; probed_number := 0; sub_requested_epoch := 0; consensus_output := [];
     to_engine := []; published := []; execution_replay_complete := false |}.

(** Three commits, the second of which reaches the boundary 4, then a drain. *)
Definition live_events : list LiveEvent :=
  [SequenceRecv; SequenceRecv; LiveFetched (store 9) true; SequenceSent (commit 6 []); SequenceRecv;
   LiveFetched None true; DrainChanged true; LiveFetched None true].
Lemma live_events_honest : Forall (honest_event BatchOrdering.seq) live_events.
Proof. repeat constructor; try apply store_honest; intros m d b [=]. Qed.

Lemma live_outputs_follow_sequence_witness :
  let s := node empty_db CvvActive None in
  let p0 := ch_digest default_header in
  let l := live_run BatchOrdering.seq members 4 (Live_new members s [commit 2 [(9, 0)]; commit 4 []]) live_events in
  (exists taken k outs,
    taken `prefix_of` [commit 2 [(9, 0)]; commit 4 []] ++ sent_by live_events /\
    consensus_output (li_state l) = [] ++ outs /\
    Forall2 (output_for BatchOrdering.seq members) (take k (until_boundary 4 (number_from p0 0 taken))) outs /\
    Forall (fun h => consensus_blocks (sub_db (li_state l)) !! ch_number h = Some h)
      (take k (until_boundary 4 (number_from p0 0 taken))) /\
    published (li_state l) = [] ++ (announcement <$> number_from p0 0 taken) /\
    (drain_acked l = true -> take k (until_boundary 4 (number_from p0 0 taken)) = until_boundary 4 (number_from p0 0 taken)) /\
    (li_result l = Some Panic -> u64_max <= 0 + Z.of_nat (length taken))) /\
  (number <$> consensus_output (li_state l), drain_acked l) = ([1; 2], true).
Proof.
  split.
  - exact (live_outputs_follow_sequence BatchOrdering.seq members 4 (node empty_db CvvActive None)
      (ch_digest default_header) 0 [commit 2 [(9, 0)]; commit 4 []] live_events eq_refl live_events_honest).
  - vm_compute. reflexivity.
Defined.

(** An observer after header 1: headers 2 to 4 arrive, header 2 twice, and header
    3 reaches the boundary 6. *)
Definition first : ConsensusHeader :=
  {| ch_parent_hash := ch_digest default_header; ch_sub_dag := commit 2 []; ch_number := 1; ch_extra := 0 |}.
Definition later : list CommittedSubDag := [commit 4 [(9, 0)]; commit 6 []; commit 8 []].
Definition streamed : list ConsensusHeader := number_from (ch_digest first) 1 later.
Definition follow_events : list FollowEvent :=
  (HeaderSent <$> take 1 streamed ++ streamed) ++
  [HeaderRecv KeysHeld; HeaderRecv KeysHeld; FollowFetched [None; store 9] true; HeaderRecv KeysArrive;
   HeaderRecv KeysHeld; FollowFetched [None] true; FollowFetched [None] true].
Lemma follow_events_honest : Forall (honest_fetch BatchOrdering.seq) follow_events.
Proof.
  repeat (constructor; [try done; repeat (constructor; [by first [apply store_honest|intros ???]|]); constructor|]).
  constructor.
Qed.

Lemma follower_outputs_ordered_witness :
  let s := node empty_db Observer None in
  let f := follow_run BatchOrdering.seq keys members 6 50 false (Follower_new members false s first) follow_events in
  (exists accepted k outs,
    Forall (verified_of keys members (restreamed members s first ++ delivered follow_events)) accepted /\
    (forall i v, accepted !! i = Some v -> ch_number v = start_number members s first + 1 + Z.of_nat i) /\
    StronglySorted ap_lt (from_sub_dag (ch_sub_dag first) :: (header_position <$> accepted)) /\
    consensus_output (fo_state f) = consensus_output s ++ outs /\
    Forall2 (output_for BatchOrdering.seq members) (take k (until_boundary 6 accepted)) outs /\
    Forall (fun v => consensus_blocks (sub_db (fo_state f)) !! ch_number v = Some (saved_as v))
      (take k (until_boundary 6 accepted))) /\
  number <$> consensus_output (fo_state f) = [2; 3].
Proof.
  split; [|vm_compute; reflexivity].
  exact (follower_outputs_ordered BatchOrdering.seq keys members 6 50 false (node empty_db Observer None) first
    follow_events follow_events_honest).
Defined.

Lemma followers_agree_with_validators_witness :
  let s := node empty_db Observer None in
  let f := follow_run BatchOrdering.seq keys members 6 50 false (Follower_new members false s first) follow_events in
  (exists k outs,
    consensus_output (fo_state f) = consensus_output s ++ outs /\
    Forall2 (fun c o => same_header (consensus_header o) c /\ ch_digest (consensus_header o) = ch_digest c /\
                        batch_digests o = payload_digests (ch_sub_dag c) /\
                        BatchOrdering.seq <$> concat (cb_batches <$> co_batches o) = batch_digests o)
      (take k (until_boundary 6 (number_from (ch_digest first) 1 later))) outs) /\
  number <$> consensus_output (fo_state f) = [2; 3].
Proof.
  split; [|vm_compute; reflexivity].
  apply (followers_agree_with_validators BatchOrdering.seq keys members 6 50 false (node empty_db Observer None) first
    (ch_digest first) later follow_events follow_events_honest).
  intros h Hh _ _. exists h. split; [|by split]. revert h Hh. apply Forall_forall. vm_compute. repeat constructor.
Defined.

(** A node below a cleared barrier, with header 1 on disk and head 1. *)
Definition caught_up : SubState :=
  node (save_consensus BatchOrdering.seq empty_db (output (ch_digest default_header) 1 (commit 2 []))).1 CvvInactive
    (Some {| ConsensusTask.pb_epoch := 0; pb_round := 4; pb_digest := None |}).
Lemma rejoin_above_network_head_witness :
  let s' := (try_rejoin_consensus members caught_up 1).1 in
  let l := Live_new members s' [] in
  promotion_barrier (sub_bus s') = None /\ mode_transition (sub_bus s') = Some CvvActive /\
  Forall (fun h => network_head caught_up < ch_number h) (number_from (last_parent l) (last_number l) [commit 4 []]).
Proof.
  destruct (rejoin_above_network_head members caught_up 1 (try_rejoin_consensus members caught_up 1).1 [] [commit 4 []])
    as (_ & _ & _ & _ & _ & Hb & Hm & Hf); [vm_compute; reflexivity|].
  split; [exact Hb|]. split; [apply Hm; reflexivity|exact Hf].
Defined.

(** The follower of the example offered header 2 with its batch, and the forged
    header instead. *)
Lemma forged_header_followed_witness :
  let f := Follower_new members false (node empty_db Observer None) first in
  let h := {| ch_parent_hash := ch_digest first; ch_sub_dag := commit 4 [(9, 0)]; ch_number := 2; ch_extra := 0 |} in
  let scores := {| scores_per_authority := ∅; final_of_schedule := false |} in
  let f' := follow_run BatchOrdering.seq keys members 6 50 false f
    [HeaderSent (stripped h scores 6); HeaderRecv KeysHeld; FollowFetched [None] true] in
  ch_digest (stripped h scores 6) <> ch_digest h /\
  exists o, consensus_output (fo_state f') = consensus_output (fo_state f) ++ [o] /\
    co_batches o = [] /\ sd_commit_timestamp (co_sub_dag o) = 6 /\
    ch_digest (consensus_header o) = ch_digest (stripped h scores 6) /\
    consensus_blocks (sub_db (fo_state f')) !! ch_number h = Some (consensus_header o).
Proof.
  split; [vm_compute; discriminate|].
  refine (forged_header_followed BatchOrdering.seq keys members 6 50 false
    (Follower_new members false (node empty_db Observer None) first)
    {| ch_parent_hash := ch_digest first; ch_sub_dag := commit 4 [(9, 0)]; ch_number := 2; ch_extra := 0 |}
    _ {| scores_per_authority := ∅; final_of_schedule := false |} 6 None
    eq_refl eq_refl eq_refl eq_refl eq_refl eq_refl eq_refl eq_refl _ _).
  - vm_compute. reflexivity.
  - right. vm_compute. done.
Defined.

(** A node with header 1 on disk that has executed nothing; header 2 arrives. *)
Definition fresh : SubState :=
  node (save_consensus BatchOrdering.seq empty_db (output (ch_digest default_header) 1 (commit 2 []))).1 Observer None.
Definition second : ConsensusHeader :=
  {| ch_parent_hash := ch_digest first; ch_sub_dag := commit 4 []; ch_number := 2; ch_extra := 0 |}.
Definition fresh_events : list FollowEvent :=
  [HeaderSent second; HeaderRecv KeysHeld; HeaderRecv KeysHeld; FollowFetched [None] true].
Lemma unexecuted_headers_skipped_witness :
  let f := follow_run BatchOrdering.seq keys members 6 50 false (Follower_new members false fresh default_header) fresh_events in
  (exists outs, consensus_output (fo_state f) = consensus_output fresh ++ outs /\
    forall o h, o ∈ outs -> h ∈ restreamed members fresh default_header -> ch_number h < number o) /\
  (ch_number <$> restreamed members fresh default_header, number <$> consensus_output (fo_state f)) = ([1], [2]).
Proof.
  split; [|vm_compute; reflexivity].
  refine (unexecuted_headers_skipped BatchOrdering.seq keys members 6 50 false fresh default_header fresh_events eq_refl _ _).
  - intros n h. unfold get_consensus_by_number. cbn. rewrite delete_empty, lookup_empty.
    destruct (decide (n = 1)) as [->|Hn]; [rewrite lookup_insert_eq; by intros [= <-]|].
    by rewrite lookup_insert_ne, lookup_empty by done.
  - repeat constructor. by intros ???.
Defined.

Lemma shutdown_during_replay_panics_witness :
  let s := node (save_consensus BatchOrdering.seq empty_db
    (output (ch_digest default_header) 1 (commit 2 [(9, 0)]))).1 CvvActive None in
  let '(s', r) := subscriber_run BatchOrdering.seq members 6 default_header
    [{| ri_replies := [None; None]; ri_open := true; ri_executed := true |}] [] [] s in
  r = Some (Err ClosedChannel) /\ (subscriber_exit CvvActive s' (Err ClosedChannel)).2 = Panic.
Proof.
  refine (shutdown_during_replay_panics BatchOrdering.seq members 6
    (node (save_consensus BatchOrdering.seq empty_db
      (output (ch_digest default_header) 1 (commit 2 [(9, 0)]))).1 CvvActive None) default_header
    (consensus_header (output (ch_digest default_header) 1 (commit 2 [(9, 0)]))) []
    {| ri_replies := [None; None]; ri_open := true; ri_executed := true |} [] [] [] CvvActive _ _).
  - vm_compute. reflexivity.
  - repeat constructor; exists ClientRequestsFailed; split; vm_compute; reflexivity.
Defined.

End SubExamples.
