(* ===== verification/BatchValidator.v ===== *)
(** * Batch validation and transaction dispatch

    [consensus/worker/src/batch-validator/src/validator.rs] with its data types
    ([infrastructure/types/src/worker/sealed_batch.rs]): what a worker checks of
    a batch before it stores and acknowledges it, and which validator takes a
    gossiped transaction.

    The transaction codec of reth, the hashers and the pool are parameters. *)
From S2P Require Import Prelude Lists State Types Committee Hardforks BatchOrdering InFlight Engine.
#[local] Open Scope Z_scope.

#[export] Instance Batch_eq_dec : EqDecision Batch.
Proof. solve_decision. Defined.

(** ** Sealed batches *)

Record SealedBatch := { sb_batch : Batch; sb_digest : BlockHash }.

(** [Batch::set_received_at] *)
Definition set_received_at (b : Batch) (t : TimestampSec) : Batch :=
  {| transactions := transactions b; b_epoch := b_epoch b; b_beneficiary := b_beneficiary b;
     base_fee_per_gas := base_fee_per_gas b; b_worker_id := b_worker_id b; seq := seq b;
     received_at := Some t |}.

(** The bytes of the transactions of a batch; lengths of buffers in memory do
    not add up to more than a [usize] holds. *)
Definition txs_bytes (txs : list Bytes) : Z := zsum ((fun tx => Z.of_nat (length tx)) <$> txs).

(** [max_batch_size] *)
Definition max_batch_size (e : Epoch) : Z := 2000000.

(** What the code reads of a decoded transaction. *)
Record TransactionSigned := {
  ts_gas_limit : Z;
  ts_is_eip4844 : bool;
  ts_hash : B256
}.

(** Library code: the hash of an encoded batch (BLAKE3 of its BCS), decoding and
    signature recovery of a transaction, of its sender, the decoding into a
    transaction of the pool, and [FxHasher] on bytes. *)
Class BatchCodec := {
  encoded_hash : Batch -> B256;
  recover_signed_transaction : Bytes -> option TransactionSigned;
  recover_sender : Bytes -> option Bytes;
  bytes_to_txn : Bytes -> option TxHash;
  fxhash : Bytes -> Z
}.

(** [Batch::digest] and [Batch::seal_slow]; [received_at] is not encoded. *)
Definition batch_hash `{!BatchCodec} (b : Batch) : BlockHash := encoded_hash (wire_batch b).
Definition seal_slow `{!BatchCodec} (b : Batch) : SealedBatch :=
  {| sb_batch := b; sb_digest := batch_hash b |}.

(** ** Validation *)

Inductive BatchValidationError :=
  | InvalidDigest
  | CanonicalChain (block_hash : BlockHash)
  | EmptyBatch
  | HeaderMaxGasExceedsGasLimit (total_possible_gas gas_limit : Z)
  | CalculateMaxPossibleGas
  | HeaderTransactionBytesExceedsMax (total_bytes : Z)
  | RecoverTransaction (d : BlockHash)
  | InvalidBaseFee (expected_base_fee base_fee : Z)
  | InvalidWorkerId (expected_worker_id worker_id : WorkerId)
  | InvalidTx4844 (hash : B256)
  | GasOverflow
  | InvalidEpoch (expected found : Epoch).

Record BatchValidator := {
  bv_worker_id : WorkerId;
  bv_base_fee : Z;
  bv_epoch : Epoch;
  validated_batches : gmap B256 TimestampSec;
  bv_gas_limit : Z
}.

Definition set_validated (v : BatchValidator) (m : gmap B256 TimestampSec) : BatchValidator :=
  {| bv_worker_id := bv_worker_id v; bv_base_fee := bv_base_fee v; bv_epoch := bv_epoch v;
     validated_batches := m; bv_gas_limit := bv_gas_limit v |}.

Section validator.
Context `{!BatchCodec, !ForkConditionApi} (spec : ChainSpec).
Implicit Types (v : BatchValidator) (txs : list Bytes).

(** [validate_batch_size_bytes] *)
Definition validate_batch_size_bytes txs (e : Epoch) : Exec BatchValidationError unit :=
  match txs with
  | [] => Err EmptyBatch
  | _ =>
      let total_bytes := txs_bytes txs in
      if max_batch_size e <? total_bytes
      then Err (HeaderTransactionBytesExceedsMax total_bytes) else Ret tt
  end.

(** [recover_and_validate] *)
Definition recover_and_validate (tx : Bytes) (d : BlockHash) :
    Exec BatchValidationError TransactionSigned :=
  match recover_signed_transaction tx with Some t => Ret t | None => Err (RecoverTransaction d) end.

(** [decode_transactions]; the message of the error is dropped, so it does not
    matter which of several threads fails first. *)
Definition decode_transactions txs (d : BlockHash) :
    Exec BatchValidationError (list TransactionSigned) :=
  exec_map (fun tx => recover_and_validate tx d) txs.

(** [validate_no_blob_txs] *)
Definition validate_no_blob_txs (l : list TransactionSigned) : Exec BatchValidationError unit :=
  match List.find ts_is_eip4844 l with
  | Some t => Err (InvalidTx4844 (ts_hash t))
  | None => Ret tt
  end.

(** [validate_batch_gas] *)
Fixpoint total_possible_gas (total : Z) (l : list TransactionSigned) : Exec BatchValidationError Z :=
  match l with
  | [] => Ret total
  | t :: l =>
      match checked_add u64_max total (ts_gas_limit t) with
      | Some total => total_possible_gas total l
      | None => Err GasOverflow
      end
  end.
Definition validate_batch_gas v (l : list TransactionSigned) : Exec BatchValidationError unit :=
  total ← total_possible_gas 0 l;
  if bv_gas_limit v <? total then Err (HeaderMaxGasExceedsGasLimit total (bv_gas_limit v)) else Ret tt.

(** [validate_basefee], at the canonical tip *)
Definition validate_basefee v (tip : Z) (base_fee : Z) : Exec BatchValidationError unit :=
  next_block ← uadd u64_max tip 1;
  if is_rayls_fork_active_at_block (activation spec) Eip1559 next_block then Ret tt
  else if negb (base_fee =? bv_base_fee v) then Err (InvalidBaseFee (bv_base_fee v) base_fee)
  else Ret tt.

(** [validate_batch], at the canonical tip and time at which it looks *)
Definition validate_batch (tip : Z) (now : TimestampSec) (s : SealedBatch) v :
    BatchValidator * Exec BatchValidationError unit :=
  let batch := sb_batch s in
  let d := sb_digest s in
  if negb (d =? batch_hash batch) then (v, Err InvalidDigest)
  else if bool_decide (is_Some (validated_batches v !! d)) then (v, Ret tt)
  else if negb (b_worker_id batch =? bv_worker_id v)
  then (v, Err (InvalidWorkerId (bv_worker_id v) (b_worker_id batch)))
  else if negb (b_epoch batch =? bv_epoch v)
  then (v, Err (InvalidEpoch (bv_epoch v) (b_epoch batch)))
  else
    match
      _ ← validate_batch_size_bytes (transactions batch) (b_epoch batch);
      decoded ← decode_transactions (transactions batch) d;
      _ ← validate_no_blob_txs decoded;
      _ ← validate_batch_gas v decoded;
      validate_basefee v tip (base_fee_per_gas batch)
    with
    | Ret _ =>
        let recent := filter (fun e => sat_sub now 60 < e.2) (validated_batches v) in
        (set_validated v (<[d := now]> recent), Ret tt)
    | r => (v, r)
    end.

(** ** Slots of the committee *)

Record CommitteeSlots := { own_slot : Z; live : list bool }.

(** [ring_walk], for an owner below the size *)
Definition ring_walk (owner size : Z) : list Z := (fun step => (owner + step) mod size) <$> seqZ 0 size.

(** [CommitteeSlots::from_connectivity] *)
Definition from_connectivity (own : Z) (keys connected : list BlsPublicKey) : CommitteeSlots :=
  {| own_slot := own;
     live := imap (fun slot key => (Z.of_nat slot =? own) || bool_decide (key ∈ connected)) keys |}.

(** [CommitteeSlots::size] *)
Definition slots_size (s : CommitteeSlots) : Z := Z.of_nat (length (live s)).

(** [self.live[slot as usize]] on a slot in range *)
Definition slot_live (s : CommitteeSlots) (slot : Z) : bool := default false (live s !! Z.to_nat slot).

(** [CommitteeSlots::covers] *)
Definition covers (s : CommitteeSlots) (owner : Z) : bool :=
  let size := slots_size s in
  if size =? 0 then false
  else match List.find (slot_live s) (ring_walk (owner mod size) size) with
       | Some covering => covering =? own_slot s
       | None => false
       end.

(** [legacy_slot_digest], on at least 8 bytes *)
Definition legacy_slot_digest (input : Bytes) : Z := from_be_bytes (reverse (take 8 input)).

(** [slot_digest], at the canonical tip *)
Definition slot_digest (tip : Z) (tx : Bytes) : Exec NoErr Z :=
  next_block ← uadd u64_max tip 1;
  Ret (if is_rayls_fork_active_at_block (activation spec) SenderAffinityLoadBalancing next_block then
         match recover_sender tx with Some sender => fxhash sender | None => fxhash tx end
       else if is_rayls_fork_active_at_block (activation spec) TransactionLoadBalancing next_block
       then fxhash tx
       else legacy_slot_digest tx).

(** [sender_affinity_active] *)
Definition sender_affinity_active (tip : Z) : Exec NoErr bool :=
  next_block ← uadd u64_max tip 1;
  Ret (is_rayls_fork_active_at_block (activation spec) SenderAffinityLoadBalancing next_block).

Inductive SubmitBatchError := InvalidTransactionBytes.

(** [recover_forwarded_txns], and the parsing of [submit_batch_if_mine]: both
    branches keep what decodes, in order. *)
Definition parse_txns txs : list TxHash := omap bytes_to_txn txs.

(** [submit_batch_if_mine] of a node with a pool: the transactions it spawns the
    admission of, if it does. The two reads of the tip may differ. *)
Definition submit_batch_if_mine (tip tip' : Z) txs (slots : CommitteeSlots) :
    Exec SubmitBatchError (option (list TxHash)) :=
  let admitted := Some (parse_txns txs) in
  match txs with
  | [] => Ret admitted
  | tx :: _ =>
      if (length tx <? 8)%nat then Err InvalidTransactionBytes
      else if slots_size slots =? 0 then Ret None
      else
        digest ← map_err (fun e : NoErr => match e with end) (slot_digest tip tx);
        let owner := digest mod slots_size slots in
        affinity ← map_err (fun e : NoErr => match e with end) (sender_affinity_active tip');
        let mine := if affinity : bool then covers slots owner else owner =? own_slot slots in
        Ret (if mine : bool then admitted else None)
  end.
End validator.
