(* ===== verification/Worker.v ===== *)
(** * The worker

    [consensus/worker/src]: serving and requesting batches ([network/handler.rs],
    [network/mod.rs], [network/error.rs]) and the fetcher of missing batches
    ([batch_fetcher.rs]).

    Peers are parameters: what a peer answers to a request and in which order
    answers arrive are arguments of the operations that wait for them, and so
    are the outcomes of writes to the database and the clock. The permits of
    outbound requests, metrics and the batch tracker are dropped. *)
From S2P Require Import Prelude Lists State Types Committee Certificates LeaderSchedule ConsensusState Bullshark.
From S2P Require Import Hardforks BatchOrdering InFlight Engine ConsensusChain BatchValidator.
#[local] Open Scope Z_scope.

(** ** Errors and penalties *)

(** The errors of [NetworkError] that the worker tells apart. *)
Inductive NetworkError := RPCError | ProtocolError | RequestTimeout | OtherNetworkError.

Inductive WorkerNetworkError :=
  | Decode
  | BatchValidation (e : BatchValidationError)
  | NonCommitteeBatch
  | Internal
  | Timeout
  | Network (e : NetworkError)
  | InvalidRequest
  | InvalidTopic.

Inductive Penalty := Mild | Medium | Severe | Fatal.

(** [From<WorkerNetworkError> for Option<Penalty>] *)
Definition penalty_of (e : WorkerNetworkError) : option Penalty :=
  match e with
  | BatchValidation e =>
      match e with
      | CanonicalChain _ => Some Mild
      | InvalidEpoch _ _ | InvalidTx4844 _ => Some Medium
      | RecoverTransaction _ => Some Severe
      | EmptyBatch | InvalidBaseFee _ _ | InvalidWorkerId _ _ | InvalidDigest | GasOverflow
      | CalculateMaxPossibleGas | HeaderMaxGasExceedsGasLimit _ _
      | HeaderTransactionBytesExceedsMax _ => Some Fatal
      end
  | InvalidRequest => Some Mild
  | NonCommitteeBatch => Some Medium
  | InvalidTopic | Decode => Some Fatal
  | Timeout | Network _ | Internal => None
  end.

Inductive WorkerResponse :=
  | ReportBatchResponse
  | RequestBatchesResponse (batches : list Batch)
  | PeerExchangeResponse
  | SubmitTxnsResponse (stale : list TxHash)
  | ErrorResponse.

(** ** State *)

(** What the worker reads and writes: the tables of batches and of the sequence
    counter, the batches it told the primary about, the digests it published and
    the transactions it gossiped or admitted to the pool. *)
Record WorkerState := {
  wk_batches : gmap B256 Batch;
  wk_counter : option Z;
  wk_validator : BatchValidator;
  wk_others : list BlockHash;
  wk_own : list BlockHash;
  wk_published : list BlockHash;
  wk_disbursed : list (list Bytes);
  wk_admitted : list TxHash
}.

Definition set_wk_batches (m : gmap B256 Batch) (w : WorkerState) : WorkerState :=
  {| wk_batches := m; wk_counter := wk_counter w; wk_validator := wk_validator w;
     wk_others := wk_others w; wk_own := wk_own w; wk_published := wk_published w;
     wk_disbursed := wk_disbursed w; wk_admitted := wk_admitted w |}.
Definition set_wk_counter (n : Z) (w : WorkerState) : WorkerState :=
  {| wk_batches := wk_batches w; wk_counter := Some n; wk_validator := wk_validator w;
     wk_others := wk_others w; wk_own := wk_own w; wk_published := wk_published w;
     wk_disbursed := wk_disbursed w; wk_admitted := wk_admitted w |}.
Definition set_wk_validator (v : BatchValidator) (w : WorkerState) : WorkerState :=
  {| wk_batches := wk_batches w; wk_counter := wk_counter w; wk_validator := v;
     wk_others := wk_others w; wk_own := wk_own w; wk_published := wk_published w;
     wk_disbursed := wk_disbursed w; wk_admitted := wk_admitted w |}.
(** What the worker sent out, appended. *)
Definition wk_send (others own published : list BlockHash) (disbursed : list (list Bytes))
    (admitted : list TxHash) (w : WorkerState) : WorkerState :=
  {| wk_batches := wk_batches w; wk_counter := wk_counter w; wk_validator := wk_validator w;
     wk_others := wk_others w ++ others; wk_own := wk_own w ++ own;
     wk_published := wk_published w ++ published; wk_disbursed := wk_disbursed w ++ disbursed;
     wk_admitted := wk_admitted w ++ admitted |}.

(** [store.insert::<Batches>(digest, batch)], which may fail *)
Definition insert_batch {E} (written : bool) (e : E) (d : BlockHash) (b : Batch) :
    ST WorkerState E unit := fun w =>
  if written then (set_wk_batches (<[d := b]> (wk_batches w)) w, Ret tt) else (w, Err e).

(** The moment at which an operation looks: the canonical tip at its first and
    at a second look, the clock, whether the database writes and whether the primary acknowledges. *)
Record Moment := { mo_tip : Z; mo_next_tip : Z; mo_now : TimestampSec; mo_written : bool; mo_acknowledged : bool }.

(** Constants of the encodings and of the configuration. *)
Record WorkerLimits := {
  LOCAL_MIN_REQUEST_SIZE : Z;
  MESSAGE_OVERHEAD : Z;
  size_of_batch : Z;
  max_rpc_message_size : Z
}.

Definition MAX_SERVED_DIGESTS : nat := Z.to_nat 40000.

Section worker.
Context `{!BatchCodec, !ForkConditionApi} (spec : ChainSpec) (limits : WorkerLimits).
Context (committee : Committee).
Abbreviation M := (ST WorkerState).
Implicit Types (d : BlockHash) (b : Batch) (w : WorkerState).

(** ** Requests of peers *)

(** [self.validator.validate_batch] *)
Definition validate {E} (f : BatchValidationError -> E) (m : Moment) (s : SealedBatch) : M E unit := fun w =>
  let '(v, r) := validate_batch spec (mo_tip m) (mo_now m) s (wk_validator w) in
  (set_wk_validator v w, map_err f r).

(** [RequestHandler::process_report_batch] *)
Definition process_report_batch (peer : BlsPublicKey) (s : SealedBatch) (m : Moment) :
    M WorkerNetworkError unit :=
  _ ← st_ensure (bool_decide (is_Some (authority_by_key committee peer))) NonCommitteeBatch;
  _ ← validate BatchValidation m s;
  let b := set_received_at (sb_batch s) (mo_now m) in
  _ ← insert_batch (mo_written m) Internal (sb_digest s) b;
  _ ← st_ensure (mo_acknowledged m) Internal;
  modify (wk_send [sb_digest s] [] [] [] []).

(** [WorkerNetwork::process_report_batch]: the response and the penalty. *)
Definition report_response (r : Exec WorkerNetworkError unit) : option (WorkerResponse * option Penalty) :=
  match r with
  | Ret _ => Some (ReportBatchResponse, None)
  | Err e => Some (ErrorResponse, penalty_of e)
  | _ => None
  end.

(** [Batch::size] *)
Definition Batch_size b : Z := size_of_batch limits + txs_bytes (transactions b).

(** The loop of [collect_requested_batches_blocking]; a row that cannot be read
    is skipped. *)
Fixpoint collect_requested (read : BlockHash -> option (option Batch)) (max_message_size total_size : Z)
    (digests : list BlockHash) : list Batch :=
  match digests with
  | [] => []
  | d :: digests =>
      match read d with
      | Some (Some b) =>
          if max_message_size <? total_size + Batch_size b then []
          else b :: collect_requested read max_message_size (total_size + Batch_size b) digests
      | _ => collect_requested read max_message_size total_size digests
      end
  end.

(** [collect_requested_batches_blocking] and [process_request_batches] *)
Definition process_request_batches (read : BlockHash -> option (option Batch))
    (batch_digests : list BlockHash) (max_response_size : Z) : Exec WorkerNetworkError (list Batch) :=
  if max_response_size <? LOCAL_MIN_REQUEST_SIZE limits then Err InvalidRequest
  else if bool_decide (batch_digests = []) then Err InvalidRequest
  else
    local_max ← usub (max_rpc_message_size limits) (MESSAGE_OVERHEAD limits);
    Ret (collect_requested read (Z.min max_response_size local_max) 0
           (take MAX_SERVED_DIGESTS batch_digests)).

(** [WorkerNetwork::process_request_batches]: the response and the penalty. *)
Definition request_response (r : Exec WorkerNetworkError (list Batch)) :
    option (WorkerResponse * option Penalty) :=
  match r with
  | Ret l => Some (RequestBatchesResponse l, None)
  | Err e => Some (ErrorResponse, penalty_of e)
  | _ => None
  end.

(** ** Requests to peers *)

(** What the network does with the requests of one call of [request_batches]:
    the connected peers, the answer to the request of a round to a peer, and the
    order in which the answers of a round arrive. *)
Record NetEnv := {
  connected_peers : Exec NetworkError (list BlsPublicKey);
  answer : nat -> BlsPublicKey -> list BlockHash -> Exec NetworkError WorkerResponse;
  arrivals : nat -> list (BlsPublicKey * list BlockHash) -> list (BlsPublicKey * list BlockHash)
}.

(** [request_batches_from_peer], on the answer; batches come decoded. *)
Definition request_batches_from_peer (batch_digests : list BlockHash)
    (res : Exec NetworkError WorkerResponse) : Exec NetworkError (list Batch) :=
  response ← res;
  match response with
  | RequestBatchesResponse l =>
      let batches := wire_batch <$> l in
      if forallb (fun b => bool_decide (batch_hash b ∈ batch_digests)) batches
      then Ret batches else Err ProtocolError
  | ReportBatchResponse | PeerExchangeResponse | SubmitTxnsResponse _ | ErrorResponse => Err RPCError
  end.

(** [report_batch], on the answer *)
Definition report_batch (res : Exec NetworkError WorkerResponse) : Exec NetworkError unit :=
  response ← res;
  match response with
  | ReportBatchResponse => Ret tt
  | RequestBatchesResponse _ | PeerExchangeResponse | SubmitTxnsResponse _ | ErrorResponse => Err RPCError
  end.

(** The digests of a round, spread over the peers. *)
Definition shard (num_peers k : nat) (digests : list BlockHash) : list BlockHash :=
  (filter (fun p : nat * BlockHash => (p.1 mod num_peers)%nat = k) (imap pair digests)).*2.
Definition shards (num_peers : nat) (digests : list BlockHash) : list (list BlockHash) :=
  (fun k => shard num_peers k digests) <$> List.seq 0 num_peers.

(** [peers.rotate_left(1)] *)
Definition rotate_left (peers : list BlsPublicKey) : list BlsPublicKey :=
  match peers with [] => [] | p :: peers => peers ++ [p] end.

(** The batches of one answer: [remaining_digests] and [all_batches]. *)
Definition absorb_batch (requested : list BlockHash) (st : list BlockHash * list Batch) b :
    list BlockHash * list Batch :=
  let '(remaining, all_batches) := st in
  if bool_decide (batch_hash b ∈ requested) then
    if bool_decide (b ∈ all_batches) then st
    else (List.filter (fun d => negb (d =? batch_hash b)) remaining, all_batches ++ [b])
  else st.

(** The answers of a round in the order of arrival; [inr] returns early. *)
Fixpoint absorb_answers (requested : list BlockHash)
    (answers : list (list BlockHash * Exec NetworkError WorkerResponse))
    (st : list BlockHash * list Batch) : (list BlockHash * list Batch) + list Batch :=
  match answers with
  | [] => inl st
  | (ds, res) :: answers =>
      match request_batches_from_peer ds res with
      | Ret batches =>
          let st := foldl (absorb_batch requested) st batches in
          if bool_decide (st.1 = []) then inr st.2 else absorb_answers requested answers st
      | _ => absorb_answers requested answers st
      end
  end.

(** The requests of a round, and the rounds that are left. *)
Definition round_requests (peers : list BlsPublicKey) (remaining : list BlockHash) :
    list (BlsPublicKey * list BlockHash) :=
  filter (fun r => r.2 <> []) (zip peers (shards (length peers) remaining)).

Fixpoint request_rounds (env : NetEnv) (requested : list BlockHash) (attempts : nat) (round : nat)
    (peers : list BlsPublicKey) (st : list BlockHash * list Batch) :
    (list BlockHash * list Batch) + list Batch :=
  match attempts with
  | O => inl st
  | S attempts =>
      let peers := rotate_left peers in
      let arrived := arrivals env round (round_requests peers st.1) in
      match absorb_answers requested ((fun r => (r.2, answer env round r.1 r.2)) <$> arrived) st with
      | inl st => request_rounds env requested attempts (S round) peers st
      | inr all_batches => inr all_batches
      end
  end.

(** [request_batches] *)
Definition request_batches (env : NetEnv) (requested : list BlockHash) : Exec NetworkError (list Batch) :=
  peers ← connected_peers env;
  if bool_decide (requested = []) || bool_decide (peers = []) then Ret []
  else
    match request_rounds env requested (length peers) 0 peers (requested, []) with
    | inr all_batches => Ret all_batches
    | inl (_, all_batches) => if bool_decide (all_batches = []) then Err RPCError else Ret all_batches
    end.

(** ** Gossip *)

Inductive WorkerGossip := GossipBatch (d : BlockHash) | GossipTxn (txs : list Bytes).

(** [RequestHandler::process_gossip] of a decoded message: whether it came on
    the topic of its kind, and for transactions the key of this authority, the
    peers connected and whether the node has a pool. A submission that fails is
    logged. *)
Definition process_gossip (g : WorkerGossip) (topic_ok : bool) (env : NetEnv) (m : Moment)
    (authority : option Authority) (pool : bool) : M WorkerNetworkError unit :=
  _ ← st_ensure topic_ok InvalidTopic;
  match g with
  | GossipBatch d =>
      batches ← gets wk_batches;
      if bool_decide (is_Some (batches !! d)) then mret tt
      else
        match request_batches env [d] with
        | Ret (b :: _) => insert_batch (mo_written m) Internal (batch_hash b) b
        | Panic => fun w => (w, Panic)
        | Diverge => fun w => (w, Diverge)
        | _ => mret tt
        end
  | GossipTxn txs =>
      match authority with
      | None => mret tt
      | Some a =>
          let connected := match connected_peers env with Ret l => l | _ => [] end in
          match list_find (a =.) (authorities committee) with
          | None => mret tt
          | Some (own, _) =>
              let keys := protocol_key <$> authorities committee in
              if pool then
                match submit_batch_if_mine spec (mo_tip m) (mo_next_tip m) txs
                        (from_connectivity (Z.of_nat own) keys connected) with
                | Ret (Some l) => modify (wk_send [] [] [] [] l)
                | Panic => fun w => (w, Panic)
                | _ => mret tt
                end
              else mret tt
          end
      end
  end.

(** ** Requests of the primary *)

(** The digests of a message that are not in the store. *)
Definition missing_digests (m : gmap B256 Batch) (digests : list BlockHash) : gset B256 :=
  list_to_set (List.filter (fun d => negb (bool_decide (is_Some (m !! d)))) digests).

(** The batches that answer a synchronization. *)
Fixpoint synchronize_loop (is_certified : bool) (m : Moment) (missing : gset B256)
    (sealed : list SealedBatch) : M unit (gset B256) :=
  match sealed with
  | [] => mret missing
  | s :: sealed =>
      _ ← (if is_certified then mret tt else validate (fun _ => tt) m s);
      if bool_decide (sb_digest s ∈ missing) then
        _ ← insert_batch (mo_written m) tt (sb_digest s) (set_received_at (sb_batch s) (mo_now m));
        synchronize_loop is_certified m (missing ∖ {[sb_digest s]}) sealed
      else throw tt
  end.

(** [PrimaryReceiverHandler::synchronize]: whether the store can be read and
    the request does not time out, and the order in which the missing digests
    are iterated. *)
Definition synchronize (digests : list BlockHash) (is_certified : bool) (readable in_time : bool)
    (order : gset B256 -> list BlockHash) (env : NetEnv) (m : Moment) : M unit unit :=
  _ ← st_ensure readable tt;
  batches ← gets wk_batches;
  let missing := missing_digests batches digests in
  if bool_decide (missing = ∅) then mret tt
  else
    match (if in_time then request_batches env (order missing) else Err RequestTimeout) with
    | Ret response =>
        unanswered ← synchronize_loop is_certified m missing (seal_slow <$> response);
        st_ensure (bool_decide (unanswered = ∅)) tt
    | Err _ => throw tt
    | Panic => fun w => (w, Panic)
    | Diverge => fun w => (w, Diverge)
    end.

(** ** Fetching batches *)

Definition MAX_FETCH_RETRIES : nat := 5.

(** What each attempt meets: the network, whether the store answers the local
    read and takes the write, and the clock. *)
Record FetchEnv := {
  fe_net : nat -> NetEnv;
  fe_readable : nat -> bool;
  fe_written : nat -> bool;
  fe_now : nat -> TimestampSec;
  fe_order : gset B256 -> list BlockHash
}.

(** [fetch_local] *)
Definition fetch_local (readable : bool) (store : gmap B256 Batch) (digests : gset B256) : gmap B256 Batch :=
  if readable then filter (fun e => e.1 ∈ digests) store else ∅.

(** [safe_request_batches] *)
Definition safe_request_batches (env : NetEnv) (order : gset B256 -> list BlockHash)
    (digests_to_fetch : gset B256) : Exec NetworkError (gmap B256 Batch) :=
  if bool_decide (digests_to_fetch = ∅) then Ret ∅
  else
    batches ← request_batches env (order digests_to_fetch);
    Ret (foldl (fun m b => <[batch_hash b := b]> m) ∅ batches).

(** An attempt: the local store, then the peers, whose batches are persisted.
    [remaining] and [fetched_batches] are those of the code. *)
Definition fetch_remote (env : FetchEnv) (retries : nat) (remaining : gset B256)
    (fetched_batches : gmap B256 Batch) : M NoErr (gset B256 * gmap B256 Batch) := fun w =>
  match safe_request_batches (fe_net env retries) (fe_order env) remaining with
  | Ret new_batches =>
      let updated := (fun b => set_received_at b (fe_now env retries)) <$>
                     filter (fun e => e.1 ∈ remaining) new_batches in
      if fe_written env retries
      then (set_wk_batches (updated ∪ wk_batches w) w,
            Ret (remaining ∖ dom new_batches, updated ∪ fetched_batches))
      else (w, Panic)
  | Err _ => (w, Ret (remaining, fetched_batches))
  | Panic => (w, Panic)
  | Diverge => (w, Diverge)
  end.
Definition fetch_attempt (env : FetchEnv) (retries : nat) (remaining : gset B256)
    (fetched_batches : gmap B256 Batch) : M NoErr (gset B256 * gmap B256 Batch) := fun w =>
  let fetched_batches :=
    fetch_local (fe_readable env retries) (wk_batches w) remaining ∪ fetched_batches in
  let remaining := filter (fun d => fetched_batches !! d = None) remaining in
  if bool_decide (remaining = ∅) then (w, Ret (remaining, fetched_batches))
  else fetch_remote env retries remaining fetched_batches w.

(** The loop of [fetch]; it returns as soon as nothing remains, and after the
    last of the [attempts]. *)
Fixpoint fetch_loop (env : FetchEnv) (attempts : nat) (retries : nat) (remaining : gset B256)
    (fetched_batches : gmap B256 Batch) : M NoErr (gmap B256 Batch) :=
  match attempts with
  | O => mret fetched_batches
  | S attempts =>
      if bool_decide (remaining = ∅) then mret fetched_batches
      else
        '(remaining, fetched_batches) ← fetch_attempt env retries remaining fetched_batches;
        fetch_loop env attempts (S retries) remaining fetched_batches
  end.

(** [BatchFetcher::fetch] *)
Definition fetch (env : FetchEnv) (digests : gset B256) : M NoErr (gmap B256 Batch) :=
  fetch_loop env MAX_FETCH_RETRIES 0 digests ∅.
End worker.
