(* ===== verification/Sealing.v ===== *)
(** * Quorum and sealing of own batches

    [consensus/worker/src/quorum_waiter.rs] and [consensus/worker/src/worker.rs]:
    a batch of this worker is reported to the committee, stored and handed to the
    primary once a quorum acknowledged it, and its sequence number is consumed
    only then.

    The acknowledgements are a list in the order in which they arrive before the
    timeout. The feature [dev-single-node-setup] is off. *)
From S2P Require Import Prelude Lists State Types Committee Certificates LeaderSchedule ConsensusState Bullshark.
From S2P Require Import Hardforks BatchOrdering InFlight Engine ConsensusChain BatchValidator Worker.
#[local] Open Scope Z_scope.

(** ** The quorum waiter *)

(** What a peer's report gives: the result of [report_batch], or a dropped
    channel. *)
Abbreviation Ack := (option (Exec NetworkError unit)).

Inductive WaiterError := WaiterRejected (stake : VotingPower) | WaiterNetwork (stake : VotingPower).

Inductive QuorumWaiterError := QuorumRejected | AntiQuorum | QuorumTimeout | QuorumNetwork | QuorumRpc | DroppedReceiver.

(** [QuorumWaiter::waiter] *)
Definition waiter (wait_for : Ack) (deliver : VotingPower) : Exec WaiterError VotingPower :=
  match wait_for with
  | Some (Ret _) => Ret deliver
  | Some (Err RPCError) => Err (WaiterRejected deliver)
  | _ => Err (WaiterNetwork deliver)
  end.

Record Tally := { total_stake : Z; available_stake : Z; rejected_stake : Z }.

(** One result in the tally: [total_stake], [available_stake] and
    [rejected_stake] saturate. *)
Definition tally (t : Tally) (res : Exec WaiterError VotingPower) : Tally :=
  match res with
  | Ret stake => {| total_stake := sat_add u64_max (total_stake t) stake;
                    available_stake := sat_sub (available_stake t) stake;
                    rejected_stake := rejected_stake t |}
  | Err (WaiterRejected stake) => {| total_stake := total_stake t;
                               available_stake := sat_sub (available_stake t) stake;
                               rejected_stake := sat_add u64_max (rejected_stake t) stake |}
  | Err (WaiterNetwork stake) => {| total_stake := total_stake t;
                                    available_stake := sat_sub (available_stake t) stake;
                                    rejected_stake := rejected_stake t |}
  | _ => t
  end.

(** The loop over the results that arrive; when they end, either every peer has
    answered or the timeout fires. *)
Fixpoint quorum_loop (threshold max_rejected_stake : Z) (all_answered : bool) (t : Tally)
    (results : list (Exec WaiterError VotingPower)) : Exec QuorumWaiterError unit :=
  match results with
  | [] => Err (if all_answered then AntiQuorum else QuorumTimeout)
  | res :: results =>
      let t := tally t res in
      if match res with Ret _ => threshold <=? total_stake t | _ => false end then Ret tt
      else if max_rejected_stake <? rejected_stake t then Err QuorumRejected
      else if sat_add u64_max (total_stake t) (available_stake t) <? threshold then Err AntiQuorum
      else quorum_loop threshold max_rejected_stake all_answered t results
  end.

(** [QuorumWaiter::verify_batch], with the acknowledgements that arrive in time *)
Definition verify_batch (c : Committee) (authority : Authority) (acks : list (BlsPublicKey * Ack)) :
    Exec QuorumWaiterError unit :=
  let peers := others_keys_except c (protocol_key authority) in
  let available := foldl (fun s name => sat_add u64_max s (voting_power c name)) 0 peers in
  let threshold := quorum_threshold c in
  let total := authority_voting_power authority in
  let max_rejected := sat_sub (sat_add u64_max available total) threshold in
  quorum_loop threshold max_rejected (bool_decide (length peers = length acks))
    {| total_stake := total; available_stake := available; rejected_stake := 0 |}
    ((fun p => waiter p.2 (voting_power c p.1)) <$> acks).

(** ** Sealing *)

(** The errors of [BlockSealError] that sealing returns. *)
Inductive BlockSealError := SealQuorumRejected | SealAntiQuorum | SealTimeout | FailedQuorum | FatalDBFailure.

(** The error of [seal] for an error of the waiter. *)
Definition seal_error (e : QuorumWaiterError) : BlockSealError :=
  match e with
  | QuorumRejected => SealQuorumRejected
  | AntiQuorum => SealAntiQuorum
  | QuorumTimeout => SealTimeout
  | QuorumNetwork | DroppedReceiver | QuorumRpc => FailedQuorum
  end.

(** What sealing meets: the acknowledgements in time, whether the task of the
    waiter gives its result, and whether the batch is written and the primary
    acknowledges the report. *)
Record SealEnv := {
  se_acks : list (BlsPublicKey * Ack);
  se_joined : bool;
  se_published : bool;
  se_moment : Moment
}.

Section sealing.
Context `{!BatchCodec, !ForkConditionApi}.
Context (committee : Committee).
Abbreviation M := (ST WorkerState).

(** [Worker::disburse_txns]: a failed publication is logged. *)
Definition disburse_txns (s : SealedBatch) (published : bool) : M BlockSealError unit :=
  if published then modify (wk_send [] [] [] [transactions (sb_batch s)] []) else mret tt.

(** [Worker::seal]; [authority] is set on a node with a quorum waiter. *)
Definition seal (authority : option Authority) (s : SealedBatch) (env : SealEnv) : M BlockSealError unit :=
  match authority with
  | None => disburse_txns s (se_published env)
  | Some a =>
      if se_joined env then
        match verify_batch committee a (se_acks env) with
        | Ret _ =>
            _ ← insert_batch (mo_written (se_moment env)) FatalDBFailure (sb_digest s) (sb_batch s);
            _ ← (if se_published env then modify (wk_send [] [] [sb_digest s] [] []) else mret tt);
            _ ← st_ensure (mo_acknowledged (se_moment env)) FailedQuorum;
            modify (wk_send [] [sb_digest s] [] [] [])
        | Err e => throw (seal_error e)
        | Panic => fun w => (w, Panic)
        | Diverge => fun w => (w, Diverge)
        end
      else throw FailedQuorum
  end.

(** One batch of [spawn_batch_builder]: the answer to the builder. A counter that
    cannot be written is logged. *)
Definition seal_and_count (authority : option Authority) (s : SealedBatch) (env : SealEnv)
    (counted : bool) : M NoErr (Exec BlockSealError unit) := fun w =>
  match uadd (E := NoErr) u64_max (seq (sb_batch s)) 1 with
  | Ret next_seq =>
      let '(w, res) := seal authority s env w in
      match res with
      | Ret _ => (if counted then set_wk_counter next_seq w else w, Ret res)
      | Err _ => (w, Ret res)
      | Panic => (w, Panic)
      | Diverge => (w, Diverge)
      end
  | _ => (w, Panic)
  end.

(** ** The sequence number after a restart *)

(** The certificates of an author in a committed sub-DAG: the highest sequence
    number among its batches of this worker that are stored. *)
Definition block_max_seq (batches : gmap B256 Batch) (worker : WorkerId) (authority : AuthorityIdentifier)
    (h : ConsensusHeader) : option Z :=
  foldl (fun m c =>
    if negb (origin c =? authority) then m
    else foldl (fun m p =>
      if negb (p.2 =? worker) then m
      else match batches !! p.1 with
           | Some b => Some (match m with Some x => Z.max x (seq b) | None => seq b end)
           | None => m
           end) m (payload (header c)))
    None (sd_certificates (ch_sub_dag h)).

(** [walk_consensus_blocks_for_max_seq], from the last block backwards *)
Fixpoint walk_consensus_blocks (batches : gmap B256 Batch) (worker : WorkerId)
    (authority : AuthorityIdentifier) (current_epoch : Epoch) (blocks : list ConsensusHeader) : option Z :=
  match blocks with
  | [] => None
  | h :: blocks =>
      if leader_epoch (ch_sub_dag h) <? current_epoch then None
      else match block_max_seq batches worker authority h with
           | Some m => Some m
           | None => walk_consensus_blocks batches worker authority current_epoch blocks
           end
  end.

(** [Worker::recover_batch_seq_from_history] *)
Definition recover_batch_seq_from_history (db : ChainDb) (worker : WorkerId)
    (authority : option AuthorityIdentifier) (current_epoch : Epoch) : Z :=
  match authority with
  | None => 0
  | Some a =>
      match walk_consensus_blocks (chain_batches db) worker a current_epoch
              (reverse (btree_values (consensus_blocks db))) with
      | Some s => sat_add u64_max s 1
      | None => 0
      end
  end.
End sealing.
