(* ===== verification/BatchBuilder.v ===== *)
(** * The batch builder

    [consensus/worker/src/batch-builder/src]: the selection of transactions into
    a batch ([batch.rs]), the phases of the pipeline and the budget of batches
    sealed ahead of their execution ([pipeline.rs]), the watermark
    ([watermark.rs]) and the loop that drives them ([lib.rs]).

    The builder and the task that it spawns are one machine: its events are the
    branches of [select!], the steps of the task, which hands its batch to the
    sealing loop of the worker, and what other tasks write: the watermark and
    released marks. A branch whose precondition does not hold does nothing; the
    priority of branches is dropped, so that the machine has every run of the
    code. The iterator over the best transactions of the pool is an interface
    with the laws reth documents. *)
From S2P Require Import Prelude Lists State Types Committee Hardforks BatchOrdering InFlight Engine.
From S2P Require Import BatchValidator Worker Sealing.
#[local] Open Scope Z_scope.

(** ** Selection *)

(** What the builder reads of a pooled transaction: [tx_size] is the in-memory
    size it budgets with, [tx_encoded] what goes into the batch. *)
Record PoolTxn := {
  pt_hash : TxHash;
  pt_sender : Address;
  pt_nonce : Z;
  pt_gas_limit : Z;
  pt_size : Z;
  pt_is_eip4844 : bool;
  pt_encoded : Bytes
}.

(** The iterator [BestTransactions] of reth after [no_updates]: a snapshot that
    is yielded once; marking a transaction invalid removes what depends on it,
    the later transactions of its sender. *)
Class BestTransactions (It : Type) := {
  best_next : It -> option (PoolTxn * It);
  mark_invalid : It -> PoolTxn -> It;
  pending : It -> list PoolTxn
}.

Class BestTransactionsOk (It : Type) `{!BestTransactions It} : Prop := {
  next_none : forall it, best_next it = None -> pending it = [];
  next_some : forall it t it', best_next it = Some (t, it') -> pending it = t :: pending it';
  invalid_pending : forall it t,
    pending (mark_invalid it t) = filter (fun u => pt_sender u <> pt_sender t) (pending it)
}.

Record NonceRange := { nr_min : Z; nr_max : Z }.

(** The locals of [build_batch] *)
Record Selection := {
  total_bytes_size : Z;
  selected_gas : Z;
  at_capacity : bool;
  selected_txs : list Bytes;
  mined_transactions : list TxHash;
  blob_transactions : list TxHash;
  sender_nonce_ranges : gmap Address NonceRange
}.

Definition Selection_new : Selection :=
  {| total_bytes_size := 0; selected_gas := 0; at_capacity := false; selected_txs := [];
     mined_transactions := []; blob_transactions := []; sender_nonce_ranges := ∅ |}.

Definition set_capacity (s : Selection) (full : bool) : Selection :=
  {| total_bytes_size := total_bytes_size s; selected_gas := selected_gas s;
     at_capacity := at_capacity s || full; selected_txs := selected_txs s;
     mined_transactions := mined_transactions s; blob_transactions := blob_transactions s;
     sender_nonce_ranges := sender_nonce_ranges s |}.
Definition add_blob (s : Selection) (h : TxHash) : Selection :=
  {| total_bytes_size := total_bytes_size s; selected_gas := selected_gas s;
     at_capacity := at_capacity s; selected_txs := selected_txs s;
     mined_transactions := mined_transactions s; blob_transactions := blob_transactions s ++ [h];
     sender_nonce_ranges := sender_nonce_ranges s |}.

(** A transaction that fits is appended. *)
Definition select_tx (s : Selection) (t : PoolTxn) (gas bytes : Z) : Selection :=
  {| total_bytes_size := bytes; selected_gas := gas; at_capacity := at_capacity s;
     selected_txs := selected_txs s ++ [pt_encoded t];
     mined_transactions := mined_transactions s ++ [pt_hash t];
     blob_transactions := blob_transactions s;
     sender_nonce_ranges :=
       <[pt_sender t := match sender_nonce_ranges s !! pt_sender t with
                        | Some r => {| nr_min := Z.min (nr_min r) (pt_nonce t);
                                       nr_max := Z.max (nr_max r) (pt_nonce t) |}
                        | None => {| nr_min := pt_nonce t; nr_max := pt_nonce t |}
                        end]> (sender_nonce_ranges s) |}.

Section build.
Context {It : Type} `{!BestTransactions It}.
Context (is_in_flight : TxHash -> bool) (max_size gas_limit : Z).

(** One transaction that the iterator yields. *)
Definition build_step {E} (t : PoolTxn) (it : It) (s : Selection) : Exec E (It * Selection) :=
  if is_in_flight (pt_hash t) then Ret (it, s)
  else
    gas ← uadd u64_max (selected_gas s) (pt_gas_limit t);
    if gas_limit <? gas then Ret (mark_invalid it t, set_capacity s (0 <? selected_gas s))
    else if pt_is_eip4844 t then Ret (mark_invalid it t, add_blob s (pt_hash t))
    else
      bytes ← uadd u64_max (total_bytes_size s) (pt_size t);
      if max_size <? bytes then Ret (mark_invalid it t, set_capacity s (0 <? total_bytes_size s))
      else Ret (it, select_tx s t gas bytes).

Fixpoint build_loop {E} (fuel : nat) (it : It) (s : Selection) : Exec E Selection :=
  match best_next it with
  | None => Ret s
  | Some (t, it) =>
      match fuel with
      | O => Diverge
      | S fuel => '(it, s) ← build_step t it s; build_loop fuel it s
      end
  end.
End build.

(** [BatchBuilderConfig] with the base fee that the builder reads, which is fixed
    within an epoch; the delay is the period of [WindowTick], and the first
    number an argument of [Builder_new]. *)
Record BatchBuilderConfig := {
  bc_address : Address;
  bc_worker_id : WorkerId;
  bc_epoch : Epoch;
  bc_epoch_boundary : TimestampSec;
  bc_base_fee : Z;
  bc_gas_limit : Z
}.

(** [build_batch]: the batch, the selected transactions, and whether more
    remain. The fuel is one step per transaction of the snapshot. *)
Definition build_batch {It E} `{!BestTransactions It} (cfg : BatchBuilderConfig) (seq : Z)
    (is_in_flight : TxHash -> bool) (it : It) : Exec E (Batch * Selection) :=
  s ← build_loop is_in_flight (max_batch_size (bc_epoch cfg)) (bc_gas_limit cfg)
        (length (pending it)) it Selection_new;
  Ret ({| transactions := selected_txs s; b_epoch := bc_epoch cfg; b_beneficiary := bc_address cfg;
          base_fee_per_gas := bc_base_fee cfg; b_worker_id := bc_worker_id cfg;
          BatchOrdering.seq := seq; received_at := None |}, s).

(** ** The pipeline *)

Definition MAX_SEAL_AHEAD : Z := 4.
Definition BOUNDARY_QUIESCE_WINDOW_SECS : Z := 5.
(** [Duration::from_secs(60)] *)
Definition IN_FLIGHT_TTL : Duration := 60 * 10 ^ 9.

Inductive EpochPhase := PhaseActive | PhaseQuiescing | PhaseClosed.

(** [EpochPhase::evaluate] *)
Definition evaluate (epoch_boundary canonical_tip : TimestampSec) : EpochPhase :=
  if epoch_boundary <=? canonical_tip then PhaseClosed
  else if sat_sub epoch_boundary canonical_tip <=? BOUNDARY_QUIESCE_WINDOW_SECS then PhaseQuiescing
  else PhaseActive.

(** [EpochPhase::max_allowed_ahead] *)
Definition max_allowed_ahead (p : EpochPhase) : Z :=
  match p with PhaseActive => MAX_SEAL_AHEAD | PhaseQuiescing => 1 | PhaseClosed => 0 end.

Inductive GateRejectionReason := EpochBoundaryReached | BudgetExhausted | EpochStartThrottled.

Record PipelineData := {
  start_seq : Z;
  highest_durable_sealed_seq : option Z;
  current_seq : Z;
  last_canonical_timestamp : TimestampSec
}.

(** [calculate_in_flight_depth] *)
Definition calculate_in_flight_depth (highest_sealed_seq : option Z) (start : Z)
    (own_executed_seq : option Z) : Z :=
  match highest_sealed_seq with
  | None => 0
  | Some sealed => sat_sub sealed (default (sat_sub start 1) own_executed_seq)
  end.

(** [check_build_budget] *)
Definition check_build_budget (p : PipelineData) (own_executed_seq : option Z)
    (epoch_boundary : TimestampSec) : Exec GateRejectionReason unit :=
  let phase := evaluate epoch_boundary (last_canonical_timestamp p) in
  match phase with
  | PhaseClosed => Err EpochBoundaryReached
  | _ =>
      let in_flight :=
        calculate_in_flight_depth (highest_durable_sealed_seq p) (start_seq p) own_executed_seq in
      let first_of_epoch_executed :=
        match own_executed_seq with Some executed => start_seq p <=? executed | None => false end in
      if negb first_of_epoch_executed && (1 <=? in_flight) then Err EpochStartThrottled
      else if max_allowed_ahead phase <=? in_flight then Err BudgetExhausted
      else Ret tt
  end.

Inductive TaskOutcome :=
  | NothingToSeal
  | QuorumFailed
  | QuorumSucceeded (selected : list TxHash) (full : bool).

Inductive BatchBuilderError := AckChannelClosed | WorkerChannelClosed | BuilderFatalDBFailure | BuildTaskFailed.

(** [BatchBuilderError::is_worker_gone] *)
Definition is_worker_gone (e : BatchBuilderError) : bool :=
  match e with AckChannelClosed | WorkerChannelClosed => true | _ => false end.

(** The task of [spawn_build_task]: building, waiting for the worker, or done
    with its outcome sent ([RecvError] when it panicked). *)
Inductive BuildTask :=
  | Building (task_seq : Z)
  | Submitted (sealed : SealedBatch) (selected : list TxHash) (full : bool)
  | Resolved (res : option (Exec BatchBuilderError TaskOutcome)).

Inductive Phase :=
  | Clean
  | Accumulating
  | BacklogDraining
  | AwaitingQuorum (task : BuildTask) (event_arrived_while_waiting : bool)
  | QuorumRetry.

(** [PipelineState]: the phase and the data that every phase carries. *)
Record PipelineState := { pl_phase : Phase; pl_data : PipelineData }.

Definition set_phase (p : PipelineState) (x : Phase) : PipelineState :=
  {| pl_phase := x; pl_data := pl_data p |}.

(** [BatchPipeline::new] *)
Definition BatchPipeline_new (persisted_highest_sealed_seq : option Z) (start : Z)
    (canonical_timestamp : TimestampSec) : PipelineState :=
  {| pl_phase := Clean;
     pl_data := {| start_seq := start; highest_durable_sealed_seq := persisted_highest_sealed_seq;
                   current_seq := start; last_canonical_timestamp := canonical_timestamp |} |}.

(** [PipelineState::is_awaiting_quorum] *)
Definition is_awaiting_quorum (p : PipelineState) : bool :=
  match pl_phase p with AwaitingQuorum _ _ => true | _ => false end.

(** [PipelineState::on_event], [on_window] and [on_canonical_update] *)
Definition on_event (p : PipelineState) : PipelineState :=
  match pl_phase p with
  | Clean => set_phase p Accumulating
  | AwaitingQuorum task _ => set_phase p (AwaitingQuorum task true)
  | _ => p
  end.
Definition on_window (p : PipelineState) : PipelineState :=
  match pl_phase p with QuorumRetry => set_phase p Accumulating | _ => p end.
Definition on_canonical_update (p : PipelineState) (ts : TimestampSec) : PipelineState :=
  {| pl_phase := pl_phase p;
     pl_data := {| start_seq := start_seq (pl_data p);
                   highest_durable_sealed_seq := highest_durable_sealed_seq (pl_data p);
                   current_seq := current_seq (pl_data p); last_canonical_timestamp := ts |} |}.

(** [BatchPipeline::mark_in_flight_and_advance] on the pipeline; the marks are
    the caller's. *)
Definition seal_advance (p : PipelineData) : Exec NoErr PipelineData :=
  next ← uadd u64_max (current_seq p) 1;
  Ret {| start_seq := start_seq p;
         highest_durable_sealed_seq :=
           Some (match highest_durable_sealed_seq p with
                 | Some prev => Z.max prev (current_seq p) | None => current_seq p end);
         current_seq := next; last_canonical_timestamp := last_canonical_timestamp p |}.
Definition sealed_phase (full event_arrived : bool) : Phase :=
  if full then BacklogDraining else if event_arrived then Accumulating else Clean.

(** ** The loop *)

(** The builder with what it shares: the watermark, the marks of the tracker,
    and the worker that seals; [bb_result] is what [run] returned. *)
Record Builder := {
  bb_pipeline : PipelineState;
  bb_watermark : option Z;
  bb_marks : Inner;
  bb_worker : WorkerState;
  bb_result : option (Exec BatchBuilderError unit)
}.

Definition set_pipeline (b : Builder) (p : PipelineState) : Builder :=
  {| bb_pipeline := p; bb_watermark := bb_watermark b; bb_marks := bb_marks b;
     bb_worker := bb_worker b; bb_result := bb_result b |}.
Definition set_marks (b : Builder) (i : Inner) : Builder :=
  {| bb_pipeline := bb_pipeline b; bb_watermark := bb_watermark b; bb_marks := i;
     bb_worker := bb_worker b; bb_result := bb_result b |}.
Definition set_bb_worker (b : Builder) (w : WorkerState) : Builder :=
  {| bb_pipeline := bb_pipeline b; bb_watermark := bb_watermark b; bb_marks := bb_marks b;
     bb_worker := w; bb_result := bb_result b |}.
Definition finish (b : Builder) (r : Exec BatchBuilderError unit) : Builder :=
  {| bb_pipeline := bb_pipeline b; bb_watermark := bb_watermark b; bb_marks := bb_marks b;
     bb_worker := bb_worker b; bb_result := Some r |}.

(** [OwnWatermarkReceiver::resume_seq] *)
Definition resume_seq (watermark : option Z) (persisted_next : Z) : Z :=
  match watermark with Some executed => sat_add u64_max executed 1 | None => persisted_next end.

(** What wakes the builder, the steps of its task, and the writes of others. *)
Inductive BuilderEvent (It : Type) :=
  | CanonicalUpdate (tip_ts : TimestampSec) (more : list TimestampSec)
  | QuorumResolution (now : Instant)
  | WatermarkChanged
  | PendingTx
  | MarksReleased
  | WindowTick
  | TaskBuilds (pool : It)
  | TaskPanics
  | WorkerSeals (env : SealEnv) (counted answered : bool)
  | WorkerGone (sent : bool)
  | Executed (watermark : option Z)
  | Released (op : Op).
Arguments CanonicalUpdate {It}.
Arguments QuorumResolution {It}.
Arguments WatermarkChanged {It}.
Arguments PendingTx {It}.
Arguments MarksReleased {It}.
Arguments WindowTick {It}.
Arguments TaskBuilds {It}.
Arguments TaskPanics {It}.
Arguments WorkerSeals {It}.
Arguments WorkerGone {It}.
Arguments Executed {It}.
Arguments Released {It}.

Section builder.
Context {It : Type} `{!BestTransactions It, !BatchCodec, !ForkConditionApi}.
Context (committee : Committee) (authority : option Authority) (cfg : BatchBuilderConfig).
Implicit Types (b : Builder) (p : PipelineState).

(** [try_start_build] *)
Definition try_start_build b p : PipelineState :=
  match pl_phase p with
  | Accumulating | BacklogDraining =>
      match check_build_budget (pl_data p) (bb_watermark b) (bc_epoch_boundary cfg) with
      | Ret _ => set_phase p (AwaitingQuorum (Building (current_seq (pl_data p))) false)
      | _ => p
      end
  | _ => p
  end.

(** The top of the loop: the boundary, then a build from a backlog. *)
Definition loop_top b : Builder :=
  match bb_result b with
  | Some _ => b
  | None =>
      if bc_epoch_boundary cfg <=? last_canonical_timestamp (pl_data (bb_pipeline b))
      then finish b (Ret tt)
      else set_pipeline b (try_start_build b (bb_pipeline b))
  end.

(** [handle_quorum_resolution] *)
Definition handle_quorum_resolution b (res : option (Exec BatchBuilderError TaskOutcome))
    (event_arrived : bool) (now : Instant) : Builder :=
  let p := bb_pipeline b in
  match default (Err AckChannelClosed) res with
  | Ret NothingToSeal => set_pipeline b (set_phase p Clean)
  | Ret QuorumFailed => set_pipeline b (set_phase p QuorumRetry)
  | Ret (QuorumSucceeded selected full) =>
      let b := set_marks b (locked (SealMark selected now) (bb_marks b)).1 in
      match seal_advance (pl_data p) with
      | Ret data => set_pipeline b {| pl_phase := sealed_phase full event_arrived; pl_data := data |}
      | _ => finish b Panic
      end
  | Err e => finish b (if is_worker_gone e then Ret tt else Err e)
  | Panic => finish b Panic
  | Diverge => finish b Diverge
  end.

(** The steps of the task. *)
Definition task_builds (task_seq : Z) (marks_now : Inner) (pool : It) : BuildTask :=
  match build_batch (E := NoErr) cfg task_seq
          (fun h => bool_decide (is_Some (marks marks_now !! h))) pool with
  | Ret (batch, s) =>
      if bool_decide (mined_transactions s = []) then Resolved (Some (Ret NothingToSeal))
      else Submitted (seal_slow batch) (mined_transactions s) (at_capacity s)
  | _ => Resolved (Some (Err BuildTaskFailed))
  end.
Definition task_answered (selected : list TxHash) (full : bool) (res : Exec BlockSealError unit) : BuildTask :=
  Resolved (Some (match res with
                  | Ret _ => Ret (QuorumSucceeded selected full)
                  | Err FatalDBFailure => Err BuilderFatalDBFailure
                  | _ => Ret QuorumFailed
                  end)).

(** [select!] *)
Definition builder_branch b (ev : BuilderEvent It) : Builder :=
  let p := bb_pipeline b in
  match ev with
  | CanonicalUpdate tip_ts more =>
      let p' := foldl on_canonical_update (on_canonical_update p tip_ts) more in
      if is_awaiting_quorum p then set_pipeline b p'
      else if bc_epoch_boundary cfg <=? tip_ts then finish (set_pipeline b p') (Ret tt)
      else set_pipeline b (try_start_build b (on_event p'))
  | QuorumResolution now =>
      match pl_phase p with
      | AwaitingQuorum (Resolved res) event_arrived => handle_quorum_resolution b res event_arrived now
      | _ => b
      end
  | WatermarkChanged => if is_awaiting_quorum p then b else set_pipeline b (try_start_build b p)
  | PendingTx | MarksReleased =>
      let p' := on_event p in
      set_pipeline b (if is_awaiting_quorum p then p' else try_start_build b p')
  | WindowTick =>
      if is_awaiting_quorum p then b else set_pipeline b (try_start_build b (on_window p))
  | TaskBuilds pool =>
      match pl_phase p with
      | AwaitingQuorum (Building n) e =>
          set_pipeline b (set_phase p (AwaitingQuorum (task_builds n (bb_marks b) pool) e))
      | _ => b
      end
  | TaskPanics =>
      match pl_phase p with
      | AwaitingQuorum (Building _) e =>
          set_pipeline b (set_phase p (AwaitingQuorum (Resolved (Some (Err BuildTaskFailed))) e))
      | _ => b
      end
  | WorkerSeals env counted answered =>
      match pl_phase p with
      | AwaitingQuorum (Submitted s selected full) e =>
          let '(w, res) := seal_and_count committee authority s env counted (bb_worker b) in
          let b := set_bb_worker b w in
          match res with
          | Ret res =>
              set_pipeline b (set_phase p (AwaitingQuorum
                (if answered then task_answered selected full res
                 else Resolved (Some (Err AckChannelClosed))) e))
          | _ => finish b Panic
          end
      | _ => b
      end
  | WorkerGone sent =>
      match pl_phase p with
      | AwaitingQuorum (Submitted _ _ _) e =>
          set_pipeline b (set_phase p (AwaitingQuorum
            (Resolved (Some (Err (if sent then AckChannelClosed else WorkerChannelClosed)))) e))
      | _ => b
      end
  | Executed x =>
      {| bb_pipeline := p; bb_watermark := x; bb_marks := bb_marks b; bb_worker := bb_worker b;
         bb_result := bb_result b |}
  | Released op => set_marks b (locked op (bb_marks b)).1
  end.

(** A turn: a branch, and the top of the loop before the next when the branch
    was one of the builder's. *)
Definition is_wake (ev : BuilderEvent It) : bool :=
  match ev with
  | CanonicalUpdate _ _ | QuorumResolution _ | WatermarkChanged | PendingTx | MarksReleased
  | WindowTick => true
  | _ => false
  end.
(** After [run] has returned, the worker may still seal what its task had sent;
    a task that is still building finds its channel closed. *)
Definition outlives (ev : BuilderEvent It) : bool :=
  match ev with WorkerSeals _ _ _ | Executed _ | Released _ => true | _ => false end.
Definition turns b (ev : BuilderEvent It) : bool :=
  match bb_result b with None => true | Some (Ret _) | Some (Err _) => outlives ev | _ => false end.
Definition builder_step b (ev : BuilderEvent It) : Builder :=
  if turns b ev then
    let b := builder_branch b ev in if is_wake ev then loop_top b else b
  else b.

(** [BatchBuilder::new] and the start of [run] *)
Definition Builder_new (watermark : option Z) (next_batch_seq : Z) (tip_ts : TimestampSec)
    (tracker : Inner) (w : WorkerState) : Builder :=
  let start := resume_seq watermark next_batch_seq in
  let p := BatchPipeline_new (checked_sub start 1) start tip_ts in
  let b := {| bb_pipeline := p; bb_watermark := watermark;
              bb_marks := (locked (ArmSealing (DuePolicy_ttl IN_FLIGHT_TTL)) tracker).1;
              bb_worker := w; bb_result := None |} in
  loop_top (set_pipeline b (try_start_build b (on_event p))).

Definition builder_run b (evs : list (BuilderEvent It)) : Builder := foldl builder_step b evs.
End builder.
