(* ===== verification/WorkerProps.v ===== *)
(** * Batches in the worker

    The table of batches is addressed by content whatever peers send, a batch
    that was acknowledged passes every check, a request is served within its
    budget, every transaction has one validator that takes it, and a fetch
    completes when one connected peer holds the batches. *)
From S2P Require Import Prelude Lists State Types Committee Certificates LeaderSchedule ConsensusState Bullshark.
From S2P Require Import Hardforks BatchOrdering InFlight Engine ConsensusChain BatchValidator Worker Sealing.
From S2P Require Import EngineBlocks EpochRecords StateSync Subscriber SubscriberProps.
#[local] Open Scope Z_scope.

Section store.
Context `{!BatchCodec, !ForkConditionApi} (spec : ChainSpec) (committee : Committee).
Implicit Types (d : BlockHash) (b : Batch) (w : WorkerState) (m : gmap B256 Batch).
Abbreviation M := (ST WorkerState).

Lemma batch_hash_received b t : batch_hash (set_received_at b t) = batch_hash b.
Proof. done. Qed.

Lemma batch_hash_wire b : batch_hash (wire_batch b) = batch_hash b.
Proof. done. Qed.

(** Every batch is stored under its hash. *)
Definition store_ok m : Prop := map_Forall (fun d b => batch_hash b = d) m.

(** An operation that, from a worker whose store is addressed by content, ends in
    one, and gives [Q] when it returns. *)
Definition keeps {E A} (op : M E A) (Q : A -> Prop) : Prop :=
  forall w, store_ok (wk_batches w) ->
  store_ok (wk_batches (op w).1) /\ forall a, (op w).2 = Ret a -> Q a.

Lemma keeps_ret {E A} (a : A) (Q : A -> Prop) : Q a -> keeps (E := E) (mret a) Q.
Proof. intros HQ w Hw. split; [done|]. by intros ? [= <-]. Qed.
Lemma keeps_throw {E A} (e : E) (Q : A -> Prop) : keeps (throw e) Q.
Proof. intros w Hw. split; [done|]. by intros ? [=]. Qed.
Lemma keeps_ensure {E} c (e : E) : keeps (st_ensure c e) (fun _ => c = true).
Proof. intros w Hw. unfold st_ensure. destruct c; simpl; (split; [done|]); by intros ? [=]. Qed.
Lemma keeps_seq {E A B} (op : M E A) (f : A -> M E B) (P : A -> Prop) (Q : B -> Prop) :
  keeps op P -> (forall a, P a -> keeps (f a) Q) -> keeps (op ≫= f) Q.
Proof.
  intros Hop Hf w Hw. destruct (Hop w Hw) as [Hk HP]. unfold mbind, st_bind.
  destruct (op w) as [w' [a|e| |]] eqn:Ho; simpl in *; try (by split; [|intros ? [=]]).
  apply (Hf a (HP a eq_refl) w' Hk).
Qed.
Lemma keeps_mono {E A} (op : M E A) (P Q : A -> Prop) : keeps op P -> (forall a, P a -> Q a) -> keeps op Q.
Proof. intros Hop HQ w Hw. destruct (Hop w Hw). split; eauto. Qed.
Lemma keeps_gets {E A} (f : WorkerState -> A) : keeps (E := E) (gets f) (fun _ => True).
Proof. by intros w Hw. Qed.
Lemma keeps_send {E} x1 x2 x3 x4 x5 : keeps (E := E) (modify (wk_send x1 x2 x3 x4 x5)) (fun _ => True).
Proof. by intros w Hw. Qed.
Lemma keeps_insert {E} written (e : E) d b :
  batch_hash b = d -> keeps (insert_batch written e d b) (fun _ => True).
Proof.
  intros Hd w Hw. unfold insert_batch. destruct written; simpl; [|done]. split; [|done].
  by apply map_Forall_insert_2.
Qed.

(** ** Validation *)

(** What a validator checks of a batch, apart from the base fee. *)
Record batch_valid (v : BatchValidator) (b : Batch) : Prop := {
  bvd_worker : b_worker_id b = bv_worker_id v;
  bvd_epoch : b_epoch b = bv_epoch v;
  bvd_nonempty : transactions b <> [];
  bvd_bytes : txs_bytes (transactions b) <= max_batch_size (b_epoch b);
  bvd_txs : exists txs, Forall2 (fun x t => recover_signed_transaction x = Some t) (transactions b) txs /\
    Forall (fun t => ts_is_eip4844 t = false) txs /\ zsum (ts_gas_limit <$> txs) <= bv_gas_limit v
}.

Lemma validate_keeps {E} (f : BatchValidationError -> E) mo s :
  keeps (validate spec f mo s) (fun _ => sb_digest s = batch_hash (sb_batch s)).
Proof.
  intros w Hw. unfold validate, validate_batch.
  destruct (_ =? _) eqn:Hd; simpl; [|split; [done|]; by intros ? [=]].
  apply Z.eqb_eq in Hd. split; [|done].
  repeat match goal with |- context [if ?c then _ else _] => destruct c end; simpl; try done.
  match goal with |- context [match ?x with Ret _ => _ | _ => _ end] => destruct x end; done.
Qed.

Lemma exec_map_Ret {E A B} (f : A -> Exec E B) l k :
  exec_map f l = Ret k <-> Forall2 (fun x y => f x = Ret y) l k.
Proof.
  revert k. induction l as [|x l IH]; intros k; simpl.
  { split; [intros [= <-]; constructor|by intros ->%Forall2_nil_inv_l]. }
  split.
  - intros (y & Hy & (ys & Hys & [= <-])%bind_Ret_inv)%bind_Ret_inv. constructor; [done|by apply IH].
  - intros (y & ys & Hy & Hys & ->)%Forall2_cons_inv_l. apply IH in Hys. rewrite Hy. cbn. by rewrite Hys.
Qed.

Lemma total_possible_gas_Ret acc l total :
  total_possible_gas acc l = Ret total -> total = acc + zsum (ts_gas_limit <$> l).
Proof.
  revert acc. induction l as [|t l IH]; intros acc; simpl; [intros [= <-]; lia|].
  destruct (checked_add _ _ _) as [x|] eqn:Hx; [|done]. intros ->%IH.
  apply checked_add_Some in Hx as [-> _]. cbn. fold_fmap. unfold zsum. lia.
Qed.

Lemma find_None_Forall {A} (f : A -> bool) l : List.find f l = None -> Forall (fun x => f x = false) l.
Proof. intros Hf. apply Forall_forall. intros x Hx%list_elem_of_In. by apply (find_none f l). Qed.

(** The checks after the cache of recently validated batches. *)
Lemma checks_valid v tip b d :
  b_worker_id b = bv_worker_id v -> b_epoch b = bv_epoch v ->
  (_ ← validate_batch_size_bytes (transactions b) (b_epoch b);
   decoded ← decode_transactions (transactions b) d;
   _ ← validate_no_blob_txs decoded;
   _ ← validate_batch_gas v decoded;
   validate_basefee spec v tip (base_fee_per_gas b)) = Ret tt ->
  batch_valid v b.
Proof.
  intros Hw He (u1 & Hsize & (txs & Htxs & (u2 & Hblob & (u3 & Hgas & _)%bind_Ret_inv)%bind_Ret_inv)%bind_Ret_inv)%bind_Ret_inv.
  unfold validate_batch_size_bytes in Hsize. destruct (transactions b) eqn:Ht; [done|]. rewrite <-Ht in *.
  destruct (_ <? _) eqn:Hmax in Hsize; [done|]. apply Z.ltb_ge in Hmax.
  split; [done|done|by rewrite Ht|lia|]. exists txs.
  unfold validate_no_blob_txs in Hblob. destruct (find _ _) eqn:Hf in Hblob; [done|].
  unfold validate_batch_gas in Hgas. apply bind_Ret_inv in Hgas as (total & Htot & Hg).
  apply total_possible_gas_Ret in Htot. destruct (_ <? _) eqn:Hlim in Hg; [done|]. apply Z.ltb_ge in Hlim.
  split; [|split; [by apply find_None_Forall|lia]].
  apply exec_map_Ret in Htxs. eapply Forall2_impl; [exact Htxs|].
  intros x t Hx. unfold recover_and_validate in Hx. destruct (recover_signed_transaction x); by simplify_eq.
Qed.

Lemma batch_valid_wire v b b' : wire_batch b = wire_batch b' -> batch_valid v b -> batch_valid v b'.
Proof. destruct b, b'. intros [= -> -> -> -> -> ->] []. by constructor. Qed.

Lemma batch_valid_validated v (x : gmap B256 TimestampSec) b : batch_valid (set_validated v x) b <-> batch_valid v b.
Proof. split; intros []; by constructor. Qed.

(** The cache remembers valid batches only. *)
Definition cache_ok (v : BatchValidator) : Prop :=
  forall d t, validated_batches v !! d = Some t -> exists b, batch_hash b = d /\ batch_valid v b.

(** [encoded_hash] has no collision. *)
Definition collision_free : Prop := forall x y, encoded_hash x = encoded_hash y -> x = y.

Lemma validate_batch_ok tip now s v :
  collision_free -> cache_ok v ->
  let '(v', r) := validate_batch spec tip now s v in
  cache_ok v' /\ (exists x, v' = set_validated v x) /\ (r = Ret tt -> batch_valid v (sb_batch s)).
Proof.
  intros Hinj Hc. unfold validate_batch.
  assert (Hid : exists x, v = set_validated v x) by (exists (validated_batches v); by destruct v).
  destruct (_ =? _) eqn:Hd; simpl; [apply Z.eqb_eq in Hd|by split_and!].
  case_bool_decide as Hseen; simpl.
  { split_and!; [done|done|]. intros _. destruct Hseen as [t (b & Hb & Hv)%Hc].
    eapply batch_valid_wire; [|exact Hv]. apply Hinj. by rewrite Hd in Hb. }
  destruct (b_worker_id _ =? _) eqn:Hw; simpl; [apply Z.eqb_eq in Hw|by split_and!].
  destruct (b_epoch _ =? _) eqn:He; simpl; [apply Z.eqb_eq in He|by split_and!].
  match goal with |- context [match ?x with Ret _ => _ | _ => _ end] => destruct x as [[]|e| |] eqn:Hx end;
    [|by split_and!..].
  pose proof (checks_valid _ _ _ _ Hw He Hx) as Hv.
  split_and!; [|by eexists|done]. intros d t. simpl.
  destruct (decide (d = sb_digest s)) as [->|Hne].
  - intros _. exists (sb_batch s). by rewrite batch_valid_validated.
  - rewrite lookup_insert_ne by done. intros (Ht & _)%map_lookup_filter_Some.
    destruct (Hc d t Ht) as (b & Hb & Hvb). exists b. by rewrite batch_valid_validated.
Qed.

(** A validator that is asked about batches, at tips and times. *)
Definition validator_run (calls : list (Z * TimestampSec * SealedBatch)) (v : BatchValidator) : BatchValidator :=
  foldl (fun v c => (validate_batch spec c.1.1 c.1.2 c.2 v).1) v calls.

Lemma validator_run_ok calls v :
  collision_free -> cache_ok v ->
  cache_ok (validator_run calls v) /\ exists x, validator_run calls v = set_validated v x.
Proof.
  intros Hinj. revert v. induction calls as [|[[tip now] s] calls IH]; intros v Hc.
  { split; [done|]. exists (validated_batches v). by destruct v. }
  pose proof (validate_batch_ok tip now s v Hinj Hc) as Hv. cbn [validator_run foldl] in *. cbn [fst snd].
  destruct (validate_batch spec tip now s v) as [v' r]. destruct Hv as (Hc' & (m & ->) & _).
  destruct (IH _ Hc') as [Hok (m' & Hm')]. split; [done|]. exists m'. unfold validator_run in Hm'. cbn. by rewrite Hm'.
Qed.

(** A batch that a validator accepts passes every check, also when it was
    accepted from the cache of recent digests: over any calls, at whatever tips
    and times, acceptance means that the batch is of this worker and epoch, not
    empty, within the limit of bytes, and that its transactions decode, carry no
    blobs and fit the gas limit. *)
Theorem accepted_batches_valid (v : BatchValidator) calls tip now s :
  collision_free -> validated_batches v = ∅ ->
  (validate_batch spec tip now s (validator_run calls v)).2 = Ret tt ->
  sb_digest s = batch_hash (sb_batch s) /\ batch_valid v (sb_batch s).
Proof.
  intros Hinj Hv Hr. assert (cache_ok v) as Hv0 by (intros d t; rewrite Hv, lookup_empty; discriminate).
  destruct (validator_run_ok calls v Hinj Hv0) as [Hc (m & Hm)].
  split.
  - revert Hr. unfold validate_batch. destruct (_ =? _) eqn:Hd; simpl; [|done]. by apply Z.eqb_eq in Hd.
  - pose proof (validate_batch_ok tip now s _ Hinj Hc) as Hok.
    destruct (validate_batch spec tip now s _) as [v' r]. simpl in Hr. destruct Hok as (_ & _ & Hok).
    specialize (Hok Hr). rewrite Hm in Hok. by rewrite batch_valid_validated in Hok.
Qed.

(** ** Answers of peers *)

Lemma request_batches_from_peer_Ret ds res l :
  request_batches_from_peer ds res = Ret l -> Forall (fun b => batch_hash b ∈ ds) l.
Proof.
  unfold request_batches_from_peer. intros (r & _ & Hr)%bind_Ret_inv. destruct r; try done.
  destruct (forallb _ _) eqn:Hall; [|done]. injection Hr as <-.
  apply Forall_forall. intros b Hb. rewrite forallb_forall in Hall.
  apply list_elem_of_In in Hb. specialize (Hall b Hb). by apply bool_decide_eq_true in Hall.
Qed.

(** What the answers leave: the collected batches were asked for, and a digest
    that is no longer open is the hash of a collected batch. *)
Definition collected (requested : list BlockHash) (st : list BlockHash * list Batch) : Prop :=
  Forall (fun b => batch_hash b ∈ requested) st.2 /\
  (forall d, d ∈ requested -> d ∈ st.1 \/ exists b, b ∈ st.2 /\ batch_hash b = d) /\
  (st.2 = [] -> st.1 = requested).

Lemma absorb_batch_collected requested st b :
  collected requested st -> collected requested (absorb_batch requested st b).
Proof.
  destruct st as [remaining all]. intros (Hall & Hcov & Hnone). unfold absorb_batch. simpl in *.
  case_bool_decide as Hreq; [|done]. case_bool_decide as Hin; [done|].
  split_and!; simpl.
  - apply Forall_app. by split; [|constructor].
  - intros d Hd. destruct (Hcov d Hd) as [Hr|(b' & Hb' & <-)]; [|right; exists b'; set_solver].
    destruct (decide (d = batch_hash b)) as [->|Hne]; [right; exists b; set_solver|left].
    apply list_elem_of_In, filter_In. rewrite <-list_elem_of_In. split; [done|]. by apply negb_true_iff, Z.eqb_neq.
  - intros []%app_eq_nil. done.
Qed.

Lemma absorb_all_collected requested l st :
  collected requested st -> collected requested (foldl (absorb_batch requested) st l).
Proof. revert st. induction l as [|b l IH]; intros st Hst; [done|]. by apply IH, absorb_batch_collected. Qed.

Lemma absorb_answers_collected requested answers st :
  collected requested st ->
  match absorb_answers requested answers st with
  | inl st' => collected requested st'
  | inr all => exists st', collected requested st' /\ st'.1 = [] /\ all = st'.2
  end.
Proof.
  revert st. induction answers as [|[ds res] answers IH]; intros st Hst; simpl; [done|].
  destruct (request_batches_from_peer ds res) as [l|e| |]; [|by apply IH..].
  pose proof (absorb_all_collected requested l st Hst) as Hc.
  case_bool_decide; [by eexists|by apply IH].
Qed.

Lemma request_rounds_collected env requested n r peers st :
  collected requested st ->
  match request_rounds env requested n r peers st with
  | inl st' => collected requested st'
  | inr all => exists st', collected requested st' /\ st'.1 = [] /\ all = st'.2
  end.
Proof.
  revert r peers st. induction n as [|n IH]; intros r peers st Hst; simpl; [done|].
  pose proof (absorb_answers_collected requested
    ((fun q => (q.2, answer env r q.1 q.2)) <$> arrivals env r (round_requests (rotate_left peers) st.1)) st Hst) as Ha.
  destruct (absorb_answers _ _ _) as [st'|all]; [by apply IH|done].
Qed.

Lemma collected_start requested : collected requested (requested, []).
Proof. split_and!; simpl; [done|by left|done]. Qed.

Lemma request_batches_Ret env requested l :
  request_batches env requested = Ret l -> Forall (fun b => batch_hash b ∈ requested) l.
Proof.
  unfold request_batches. intros (peers & _ & Hr)%bind_Ret_inv.
  destruct (_ || _); [by injection Hr as <-|].
  pose proof (request_rounds_collected env requested (length peers) 0 peers _ (collected_start requested)) as Hc.
  destruct (request_rounds _ _ _ _ _ _) as [[rem all]|all].
  - destruct Hc as (Hall & _). case_bool_decide; [done|]. by injection Hr as <-.
  - destruct Hc as (st & (Hall & _) & _ & ->). by injection Hr as <-.
Qed.

(** ** The operations keep the store *)

Lemma keeps_panic {E A} (Q : A -> Prop) : keeps (fun w => (w, Panic : Exec E A)) Q.
Proof. intros w Hw. split; [done|]. by intros ? [=]. Qed.
Lemma keeps_diverge {E A} (Q : A -> Prop) : keeps (fun w => (w, Diverge : Exec E A)) Q.
Proof. intros w Hw. split; [done|]. by intros ? [=]. Qed.

Lemma process_report_batch_keeps peer s mo :
  keeps (process_report_batch spec committee peer s mo) (fun _ => True).
Proof.
  eapply keeps_seq; [apply keeps_ensure|]. intros _ _.
  eapply keeps_seq; [apply validate_keeps|]. intros u Hd.
  eapply keeps_seq; [by apply keeps_insert; rewrite batch_hash_received|]. intros _ _.
  eapply keeps_seq; [apply keeps_ensure|]. intros _ _. apply keeps_send.
Qed.

Lemma process_gossip_keeps g topic env mo authority pool :
  keeps (process_gossip spec committee g topic env mo authority pool) (fun _ => True).
Proof.
  eapply keeps_seq; [apply keeps_ensure|]. intros _ _. destruct g as [d|txs].
  - eapply keeps_seq; [apply keeps_gets|]. intros m _. case_bool_decide; [by apply keeps_ret|].
    destruct (request_batches env [d]) as [[|b l]|e| |];
      [by apply keeps_ret|by apply keeps_insert|by apply keeps_ret|apply keeps_panic|apply keeps_diverge].
  - destruct authority as [a|]; [|by apply keeps_ret].
    destruct (list_find _ _) as [[own x]|]; [|by apply keeps_ret].
    destruct pool; [|by apply keeps_ret].
    cbv zeta. match goal with |- keeps (match ?x with Ret _ => _ | _ => _ end) _ => destruct x as [[l|]|e| |] end;
      [apply keeps_send|by apply keeps_ret|by apply keeps_ret|apply keeps_panic|by apply keeps_ret].
Qed.

Lemma synchronize_loop_keeps certified mo missing sealed :
  Forall (fun s => batch_hash (sb_batch s) = sb_digest s) sealed ->
  keeps (synchronize_loop spec certified mo missing sealed) (fun _ => True).
Proof.
  intros Hs. revert missing. induction Hs as [|s sealed Hs _ IH]; intros missing; simpl; [by apply keeps_ret|].
  eapply (keeps_seq _ _ (fun _ => True)).
  { destruct certified; [by apply keeps_ret|]. eapply keeps_mono; [apply validate_keeps|done]. }
  intros _ _. case_bool_decide; [|apply keeps_throw].
  eapply keeps_seq; [by apply keeps_insert; rewrite batch_hash_received|]. intros _ _. apply IH.
Qed.

Lemma synchronize_keeps ds certified readable in_time order env mo :
  keeps (synchronize spec ds certified readable in_time order env mo) (fun _ => True).
Proof.
  eapply keeps_seq; [apply keeps_ensure|]. intros _ _.
  eapply keeps_seq; [apply keeps_gets|]. intros m _. cbv zeta. case_bool_decide; [by apply keeps_ret|].
  destruct (if in_time then _ else _) as [l|e| |]; [|apply keeps_throw|apply keeps_panic|apply keeps_diverge].
  eapply keeps_seq; [apply synchronize_loop_keeps; apply Forall_fmap; by apply Forall_forall|].
  intros left _. eapply keeps_mono; [apply keeps_ensure|done].
Qed.

(** ** Progress of a request *)

Lemma rotations j (peers : list BlsPublicKey) :
  (j <= length peers)%nat -> Nat.iter j rotate_left peers = drop j peers ++ take j peers.
Proof.
  induction j as [|j IH]; intros Hj; [by rewrite drop_0, take_0, app_nil_r|].
  destruct (lookup_lt_is_Some_2 peers j) as [x Hx]; [lia|].
  simpl. rewrite IH by lia. rewrite (drop_S _ _ _ Hx), (take_S_r _ _ _ Hx). simpl. by rewrite app_assoc.
Qed.

(** In one of the rounds a given peer is the first. *)
Lemma rotation_first p (peers : list BlsPublicKey) :
  p ∈ peers -> exists j, (j < length peers)%nat /\ head (Nat.iter (S j) rotate_left peers) = Some p.
Proof.
  intros [k Hk]%list_elem_of_lookup. pose proof (lookup_lt_Some _ _ _ Hk) as Hlt.
  destruct k as [|k].
  - exists (length peers - 1)%nat. split; [lia|]. rewrite rotations by lia.
    rewrite drop_ge, take_ge by lia. by rewrite head_lookup.
  - exists k. split; [lia|]. rewrite rotations by lia. rewrite head_lookup, lookup_app_l.
    + by rewrite lookup_drop, Nat.add_0_r.
    + rewrite length_drop. lia.
Qed.

Lemma shard_subset n k ds : shard n k ds ⊆ ds.
Proof.
  intros d ([i d'] & -> & [_ Hin]%list_elem_of_filter)%list_elem_of_fmap.
  apply elem_of_lookup_imap in Hin as (i' & x & [= -> ->] & Hx). by apply list_elem_of_lookup_2 in Hx.
Qed.

(** The first peer of a round is asked for the first digest. *)
Lemma first_request p peers d ds :
  head peers = Some p ->
  exists l, (p, l) ∈ round_requests peers (d :: ds) /\ l <> [] /\ l ⊆ d :: ds.
Proof.
  destruct peers as [|q peers]; [done|]. intros [= ->].
  exists (shard (length (p :: peers)) 0 (d :: ds)).
  assert (Hne : shard (length (p :: peers)) 0 (d :: ds) <> []).
  { unfold shard. rewrite imap_cons, filter_cons_True; [done|]. cbn [fst]. apply Nat.Div0.mod_0_l. }
  split_and!; [|done|apply shard_subset].
  unfold round_requests. apply list_elem_of_filter. split; [done|]. left.
Qed.

(** The batches collected so far stay. *)
Lemma absorb_batch_grows requested st b : st.2 <> [] -> (absorb_batch requested st b).2 <> [].
Proof.
  destruct st as [rem all]. unfold absorb_batch. simpl. intros Hne.
  case_bool_decide; [|done]. case_bool_decide; [done|]. simpl. by destruct all.
Qed.
Lemma absorb_all_grows requested l st : st.2 <> [] -> (foldl (absorb_batch requested) st l).2 <> [].
Proof. revert st. induction l as [|b l IH]; intros st Hst; [done|]. by apply IH, absorb_batch_grows. Qed.
Lemma absorb_all_nonempty requested l st :
  l <> [] -> Forall (fun b => batch_hash b ∈ requested) l -> (foldl (absorb_batch requested) st l).2 <> [].
Proof.
  intros Hl Hall. destruct l as [|b l]; [done|]. inversion_clear Hall as [|? ? Hb _]. simpl.
  apply absorb_all_grows. destruct st as [rem all]. unfold absorb_batch.
  rewrite bool_decide_eq_true_2 by done. case_bool_decide as Hin; simpl; [by intros ->; apply not_elem_of_nil in Hin|].
  by destruct all.
Qed.

Lemma absorb_answers_grows requested answers st st' :
  absorb_answers requested answers st = inl st' -> st'.2 = [] -> st.2 = [].
Proof.
  revert st. induction answers as [|[ds res] answers IH]; intros st; simpl; [by intros [= <-]|].
  destruct (request_batches_from_peer ds res) as [l|e| |]; [|by eauto..].
  case_bool_decide; [done|]. intros Ha Hst'. specialize (IH _ Ha Hst').
  destruct (decide (st.2 = [])) as [|Hne]; [done|]. by apply (absorb_all_grows requested l) in Hne.
Qed.

Lemma absorb_answers_nonempty requested answers st st' ds res l :
  (ds, res) ∈ answers -> request_batches_from_peer ds res = Ret l -> l <> [] ->
  Forall (fun b => batch_hash b ∈ requested) l ->
  absorb_answers requested answers st = inl st' -> st'.2 <> [].
Proof.
  intros Hin Hres Hl Hall. revert st.
  induction answers as [|[ds' res'] answers IH]; intros st; [by apply not_elem_of_nil in Hin|].
  simpl. apply elem_of_cons in Hin as [[= <- <-]|Hin].
  - rewrite Hres. case_bool_decide; [done|]. intros Ha Hst'.
    apply absorb_answers_grows in Ha; [|done]. by apply absorb_all_nonempty in Ha.
  - destruct (request_batches_from_peer ds' res') as [l'|e| |]; [|by apply (IH Hin)..].
    case_bool_decide; [done|]. by apply (IH Hin).
Qed.

(** When all the rounds give nothing, every round asked for everything. *)
Lemma request_rounds_empty env requested n r peers st st' :
  request_rounds env requested n r peers st = inl st' -> st'.2 = [] -> collected requested st ->
  st.2 = [] /\
  forall j, (j < n)%nat ->
  exists st'', st''.2 = [] /\
    absorb_answers requested
      ((fun q => (q.2, answer env (r + j) q.1 q.2)) <$>
         arrivals env (r + j) (round_requests (Nat.iter (S j) rotate_left peers) requested)) (requested, [])
    = inl st''.
Proof.
  revert r peers st. induction n as [|n IH]; intros r peers st; simpl; [intros [= <-] ? _; split; [done|lia]|].
  destruct (absorb_answers _ _ _) as [st1|all] eqn:Ha; [|done]. intros Hr Hst' Hc.
  match type of Ha with absorb_answers _ ?x _ = _ =>
    pose proof (absorb_answers_collected requested x st Hc) as Hc1 end. rewrite Ha in Hc1.
  destruct (IH _ _ _ Hr Hst' Hc1) as [Hst1 Hj]. pose proof (absorb_answers_grows _ _ _ _ Ha Hst1) as Hst.
  assert (st = (requested, [])) as Heq.
  { destruct st as [rem all]. destruct Hc as (_ & _ & Hn). simpl in *. subst all. by rewrite Hn. }
  split; [done|]. intros [|j] Hlt.
  - exists st1. split; [done|]. rewrite Nat.add_0_r. rewrite Heq in Ha. simpl in Ha. exact Ha.
  - destruct (Hj j) as (st'' & H1 & H2); [lia|]. exists st''. split; [done|].
    rewrite <-Nat.add_succ_comm, Nat.iter_succ_r. exact H2.
Qed.

(** A peer that answers every request with some of what it is asked for. *)
Definition answers_some (env : NetEnv) (p : BlsPublicKey) (requested : list BlockHash) : Prop :=
  forall r l, l <> [] -> l ⊆ requested ->
  exists x, answer env r p l = Ret (RequestBatchesResponse x) /\ x <> [] /\
            Forall (fun b => batch_hash b ∈ l) x.

Lemma request_batches_progress env requested peers p :
  connected_peers env = Ret peers -> p ∈ peers -> requested <> [] ->
  (forall r q, arrivals env r q ≡ₚ q) -> answers_some env p requested ->
  exists l, request_batches env requested = Ret l /\ l <> [].
Proof.
  intros Hpeers Hp Hreq Harr Hans. unfold request_batches. rewrite Hpeers. cbn.
  rewrite !bool_decide_eq_false_2 by (intros ->; by try apply not_elem_of_nil in Hp). simpl.
  pose proof (request_rounds_collected env requested (length peers) 0 peers _ (collected_start requested)) as Hc.
  destruct (request_rounds _ _ _ _ _ _) as [[rem all]|all] eqn:Hr.
  - case_bool_decide as Hall; [|by eexists]. exfalso. subst all.
    destruct (request_rounds_empty _ _ _ _ _ _ _ Hr eq_refl (collected_start requested)) as [_ Hj].
    destruct (rotation_first p peers Hp) as (j & Hlt & Hhead).
    destruct (Hj j Hlt) as (st & Hst & Ha). destruct requested as [|d ds]; [done|].
    destruct (first_request p _ d ds Hhead) as (l & Hl & Hne & Hsub).
    destruct (Hans j l Hne Hsub) as (x & Hx & Hxne & Hxall).
    eapply (absorb_answers_nonempty _ _ _ _ l (Ret (RequestBatchesResponse x)) (wire_batch <$> x));
      [| | | |exact Ha|exact Hst].
    + apply list_elem_of_fmap. exists (p, l). simpl. rewrite Hx. split; [done|]. by rewrite Harr.
    + unfold request_batches_from_peer. cbn. rewrite (proj2 (forallb_forall _ _)); [done|].
      intros b (b' & -> & Hb')%list_elem_of_In%list_elem_of_fmap. apply bool_decide_eq_true.
      rewrite batch_hash_wire. rewrite Forall_forall in Hxall. by apply Hxall.
    + by destruct x.
    + apply Forall_fmap. eapply Forall_impl; [exact Hxall|]. intros b Hb. by apply Hsub.
  - destruct Hc as (st & (_ & _ & Hn) & Hst & ->). exists st.2. split; [done|]. intros Hnil. apply Hn in Hnil. congruence.
Qed.

(** ** Fetching *)

Lemma index_batches_ok (l : list Batch) m :
  store_ok m -> store_ok (foldl (fun m b => <[batch_hash b := b]> m) m l) /\
  dom (foldl (fun m b => <[batch_hash b := b]> m) m l) = dom m ∪ list_to_set (batch_hash <$> l).
Proof.
  revert m. induction l as [|b l IH]; intros m Hm; simpl; [split; [done|set_solver]|].
  destruct (IH (<[batch_hash b := b]> m)) as [Hi1 Hi2]; [by apply map_Forall_insert_2|].
  split; [done|]. rewrite Hi2, dom_insert_L. set_solver.
Qed.

(** [order] iterates over a set. *)
Definition iterates (order : gset B256 -> list BlockHash) : Prop := forall X, order X ≡ₚ elements X.

Lemma safe_request_batches_Ret env order X m :
  iterates order -> safe_request_batches env order X = Ret m -> store_ok m /\ dom m ⊆ X.
Proof.
  intros Hord. unfold safe_request_batches. case_bool_decide; [intros [= <-]; split; [apply map_Forall_empty|set_solver]|].
  intros (l & Hl%request_batches_Ret & [= <-])%bind_Ret_inv.
  destruct (index_batches_ok l ∅ (map_Forall_empty _)) as [Hi1 Hi2]. split; [done|]. rewrite Hi2.
  intros d. rewrite elem_of_union, elem_of_list_to_set. intros [?|(b & -> & Hb)%list_elem_of_fmap]; [set_solver|].
  rewrite Forall_forall in Hl. specialize (Hl b Hb).
  unfold iterates in Hord. by rewrite Hord, elem_of_elements in Hl.
Qed.

Lemma store_ok_union m m' : store_ok m -> store_ok m' -> store_ok (m ∪ m').
Proof. apply map_Forall_union_2. Qed.
Lemma store_ok_filter (P : B256 * Batch -> Prop) `{!forall x, Decision (P x)} m : store_ok m -> store_ok (filter P m).
Proof. intros Hm d b [Hb _]%map_lookup_filter_Some. by apply Hm. Qed.
Lemma store_ok_received m t : store_ok m -> store_ok ((fun b => set_received_at b t) <$> m).
Proof. intros Hm d b. rewrite lookup_fmap, fmap_Some. intros (b' & Hb' & ->). exact (Hm _ _ Hb'). Qed.

Lemma fetch_local_ok readable m X : store_ok m -> store_ok (fetch_local readable m X) /\ dom (fetch_local readable m X) ⊆ X.
Proof.
  intros Hm. unfold fetch_local. destruct readable; [|split; [apply map_Forall_empty|set_solver]].
  split; [by apply store_ok_filter|]. intros d [b [_ Hd]%map_lookup_filter_Some]%elem_of_dom. done.
Qed.

(** What an attempt keeps. *)
Definition attempt_ok (X : gset B256) (fetched : gmap B256 Batch) (r : gset B256 * gmap B256 Batch) : Prop :=
  r.1 ⊆ X /\ store_ok r.2 /\ dom r.2 ⊆ X ∪ dom fetched.

Lemma fetch_remote_keeps env k X fetched :
  iterates (fe_order env) -> store_ok fetched ->
  keeps (fetch_remote env k X fetched) (attempt_ok X fetched).
Proof.
  intros Hord Hf w Hw. unfold fetch_remote.
  destruct (safe_request_batches _ _ _) as [new|e| |] eqn:Hs; simpl; [|split; [done|]..]; [|intros ? [= <-]|done..].
  2:{ split_and!; [done|done|set_solver]. }
  apply safe_request_batches_Ret in Hs as [Hnew Hdn]; [|done].
  destruct (fe_written env k); simpl; [|done].
  remember ((fun b => set_received_at b (fe_now env k)) <$> filter (fun e => e.1 ∈ X) new) as upd eqn:Hupd.
  assert (Hu : store_ok upd) by (by subst; apply store_ok_received, store_ok_filter).
  assert (dom upd ⊆ X) as Hdu.
  { subst. rewrite dom_fmap_L. intros d [b [Hb _]%map_lookup_filter_Some]%elem_of_dom. apply Hdn. by apply elem_of_dom_2 in Hb. }
  split; [by apply store_ok_union|]. intros ? [= <-].
  split_and!; simpl; [set_solver|by apply store_ok_union|rewrite dom_union_L; set_solver].
Qed.

Lemma fetch_attempt_keeps env k X fetched :
  iterates (fe_order env) -> store_ok fetched ->
  keeps (fetch_attempt env k X fetched) (attempt_ok X fetched).
Proof.
  intros Hord Hf w Hw. unfold fetch_attempt.
  destruct (fetch_local_ok (fe_readable env k) (wk_batches w) X Hw) as [Hl Hdl].
  remember (fetch_local (fe_readable env k) (wk_batches w) X ∪ fetched) as f1 eqn:Hf1.
  assert (Hf1ok : store_ok f1) by (subst; by apply store_ok_union).
  assert (Hf1d : dom f1 ⊆ X ∪ dom fetched) by (subst; rewrite dom_union_L; set_solver).
  remember (filter (fun d => f1 !! d = None) X) as X1 eqn:HX1.
  assert (X1 ⊆ X) as HX by (subst X1; intros d; by rewrite elem_of_filter; intros [_ ?]).
  case_bool_decide; [split; [done|]; intros ? [= <-]; by split_and!|].
  destruct (fetch_remote_keeps env k X1 f1 Hord Hf1ok w Hw) as [Hk Hq]. split; [done|].
  intros r Hr. destruct (Hq r Hr) as (Ha1 & Ha2 & Ha3). split_and!; [set_solver|done|set_solver].
Qed.

Lemma fetch_loop_keeps env n k X fetched :
  iterates (fe_order env) -> store_ok fetched ->
  keeps (fetch_loop env n k X fetched) (fun m => store_ok m /\ dom m ⊆ X ∪ dom fetched).
Proof.
  intros Hord. revert k X fetched. induction n as [|n IH]; intros k X fetched Hf.
  { apply keeps_ret. split; [done|set_solver]. }
  simpl. case_bool_decide; [apply keeps_ret; split; [done|set_solver]|].
  eapply keeps_seq; [by apply fetch_attempt_keeps|]. intros [X' f'] (HX & Hf' & Hd'). simpl in *.
  eapply keeps_mono; [by apply IH|]. intros m [??]. split; [done|set_solver].
Qed.

Lemma fetch_keeps env X :
  iterates (fe_order env) -> keeps (fetch env X) (fun m => store_ok m /\ dom m ⊆ X).
Proof.
  intros Hord. eapply keeps_mono; [by apply fetch_loop_keeps, map_Forall_empty|].
  intros m [Hm Hd]. split; [done|]. rewrite dom_empty_L, union_empty_r_L in Hd. done.
Qed.

(** ** The table of batches *)

Lemma seal_keeps authority b env : keeps (seal committee authority (seal_slow b) env) (fun _ => True).
Proof.
  unfold seal. destruct authority as [a|].
  - destruct (se_joined env); [|apply keeps_throw].
    destruct (verify_batch _ _ _); [|apply keeps_throw|apply keeps_panic|apply keeps_diverge].
    eapply keeps_seq; [by apply keeps_insert|]. intros _ _.
    eapply (keeps_seq _ _ (fun _ => True)); [destruct (se_published env); [apply keeps_send|by apply keeps_ret]|].
    intros _ _. eapply keeps_seq; [apply keeps_ensure|]. intros _ _. apply keeps_send.
  - unfold disburse_txns. destruct (se_published env); [apply keeps_send|by apply keeps_ret].
Qed.

Lemma seal_and_count_keeps authority b env counted :
  keeps (seal_and_count committee authority (seal_slow b) env counted) (fun _ => True).
Proof.
  intros w Hw. split; [|done]. unfold seal_and_count. destruct (uadd _ _ _); [|done..].
  destruct (seal_keeps authority b env w Hw) as [Hk _].
  destruct (seal _ _ _ _ w) as [w' [u|e| |]]; simpl in *; [|done..]. by destruct counted.
Qed.

(** What a worker does, in any order: requests of peers and of the primary, and
    batches of its own builder. *)
Inductive WorkerOp :=
  | OpReport (peer : BlsPublicKey) (s : SealedBatch) (mo : Moment)
  | OpGossip (g : WorkerGossip) (topic_ok : bool) (env : NetEnv) (mo : Moment)
      (authority : option Authority) (pool : bool)
  | OpSynchronize (ds : list BlockHash) (certified readable in_time : bool)
      (order : gset B256 -> list BlockHash) (env : NetEnv) (mo : Moment)
  | OpFetch (env : FetchEnv) (X : gset B256) (Hord : iterates (fe_order env))
  | OpSeal (authority : option Authority) (b : Batch) (env : SealEnv) (counted : bool).

Definition worker_op w (op : WorkerOp) : WorkerState :=
  match op with
  | OpReport peer s mo => (process_report_batch spec committee peer s mo w).1
  | OpGossip g topic_ok env mo authority pool => (process_gossip spec committee g topic_ok env mo authority pool w).1
  | OpSynchronize ds certified readable in_time order env mo =>
      (synchronize spec ds certified readable in_time order env mo w).1
  | OpFetch env X _ => (fetch env X w).1
  | OpSeal authority b env counted => (seal_and_count committee authority (seal_slow b) env counted w).1
  end.
Definition worker_run (ops : list WorkerOp) w : WorkerState := foldl worker_op w ops.

Lemma worker_op_ok w op : store_ok (wk_batches w) -> store_ok (wk_batches (worker_op w op)).
Proof.
  intros Hw. destruct op; simpl.
  - by apply (process_report_batch_keeps peer s mo).
  - by apply (process_gossip_keeps g topic_ok env mo authority pool).
  - by apply (synchronize_keeps ds certified readable in_time order env mo).
  - by apply (fetch_keeps env X Hord).
  - by apply (seal_and_count_keeps authority b env counted).
Qed.

Lemma worker_run_ok ops w : store_ok (wk_batches w) -> store_ok (wk_batches (worker_run ops w)).
Proof. revert w. induction ops as [|op ops IH]; intros w Hw; [done|]. by apply IH, worker_op_ok. Qed.

(** C21: The table of batches is addressed by content: whatever peers report,
    gossip and answer, and in whatever order the worker serves them, the primary
    and its own builder, every batch lies under its hash. So what a fetch returns
    are batches of the digests it was asked for, which is all the subscriber
    assumes of its worker. *)
Theorem batches_content_addressed ops w env X :
  store_ok (wk_batches w) -> iterates (fe_order env) ->
  let w := worker_run ops w in
  store_ok (wk_batches w) /\
  forall m, (fetch env X w).2 = Ret m -> honest_reply batch_hash (Some m) /\ dom m ⊆ X.
Proof.
  intros Hw Hord w'. assert (store_ok (wk_batches w')) as Hw' by (by apply worker_run_ok). split; [done|].
  intros m Hm. destruct (fetch_keeps env X Hord w' Hw') as [_ Hq]. destruct (Hq m Hm) as [Hok Hd].
  split; [|done]. intros m' d b [= <-] Hb. by apply Hok.
Qed.

(** ** Progress of a fetch *)

(** What is missing of a set. *)
Definition missing_of m (X : gset B256) : gset B256 := filter (fun d => m !! d = None) X.

Lemma elem_of_missing m X d : d ∈ missing_of m X <-> d ∈ X /\ m !! d = None.
Proof. unfold missing_of. rewrite elem_of_filter. tauto. Qed.

(** A network in which a peer answers, a store that works. *)
Definition env_serves (env : NetEnv) (p : BlsPublicKey) (X : gset B256) : Prop :=
  (exists peers, connected_peers env = Ret peers /\ p ∈ peers) /\
  (forall r q, arrivals env r q ≡ₚ q) /\ answers_some env p (elements X).
Definition fetch_serves (env : FetchEnv) (p : BlsPublicKey) (X : gset B256) : Prop :=
  iterates (fe_order env) /\
  forall k, fe_readable env k = true /\ fe_written env k = true /\ env_serves (fe_net env k) p X.

Lemma safe_request_progress env order p X Y :
  iterates order -> env_serves env p X -> Y ⊆ X -> Y <> ∅ ->
  exists m, safe_request_batches env order Y = Ret m /\ exists d, d ∈ Y /\ is_Some (m !! d).
Proof.
  intros Hord ((peers & Hpeers & Hp) & Harr & Hans) HY Hne.
  assert (Hsub : order Y ⊆ elements X).
  { intros d. unfold iterates in Hord. rewrite Hord, !elem_of_elements. apply HY. }
  destruct (request_batches_progress env (order Y) peers p) as (l & Hl & Hlne); [done|done| |done| |].
  { intros Hnil. specialize (Hord Y). rewrite Hnil in Hord. apply Permutation_nil_l in Hord.
    symmetry in Hord. apply elements_empty_inv in Hord. set_solver. }
  { intros r q Hq Hqs. apply Hans; [done|]. set_solver. }
  unfold safe_request_batches. rewrite bool_decide_eq_false_2 by done. rewrite Hl. cbn. eexists. split; [done|].
  destruct l as [|b l]; [done|]. exists (batch_hash b). apply request_batches_Ret in Hl.
  inversion_clear Hl as [|? ? Hb _]. split.
  - unfold iterates in Hord. by rewrite Hord, elem_of_elements in Hb.
  - apply elem_of_dom. destruct (index_batches_ok (b :: l) ∅ (map_Forall_empty _)) as [_ ->]. set_solver.
Qed.

(** An attempt leaves open what is still missing of the store, at least one
    digest less than before. *)
Record attempt_progress w (Y : gset B256) (fetched : gmap B256 Batch) w' (Y' : gset B256)
    (f' : gmap B256 Batch) : Prop := {
  ap_open : Y' = missing_of (wk_batches w') Y;
  ap_less : (size Y' <= size (missing_of (wk_batches w) Y) - 1)%nat;
  ap_store : dom (wk_batches w) ⊆ dom (wk_batches w');
  ap_fetched : dom fetched ⊆ dom f';
  ap_got : forall d, d ∈ Y -> d ∈ Y' <-> f' !! d = None
}.

Lemma fetch_remote_progress env p X k Y fetched w :
  fetch_serves env p X -> Y ⊆ X -> Y <> ∅ -> missing_of (wk_batches w) Y = Y ->
  (forall d, d ∈ Y -> fetched !! d = None) ->
  exists w' Y' f', fetch_remote env k Y fetched w = (w', Ret (Y', f')) /\
    attempt_progress w Y fetched w' Y' f'.
Proof.
  intros [Hord Hs] HY Hne Hmiss Hf. destruct (Hs k) as (_ & Hwr & Hnet).
  destruct (safe_request_progress _ _ p X Y Hord Hnet HY Hne) as (new & Hnew & d0 & Hd0 & Hn0).
  destruct (safe_request_batches_Ret _ _ _ _ Hord Hnew) as [_ Hdn].
  unfold fetch_remote. rewrite Hnew, Hwr.
  assert (Hfil : filter (fun e => e.1 ∈ Y) new = new).
  { apply map_filter_id. intros d b Hb. simpl. apply Hdn. by apply elem_of_dom_2 in Hb. }
  rewrite Hfil. remember ((fun b => set_received_at b (fe_now env k)) <$> new) as upd eqn:Hu.
  assert (Hdu : dom upd = dom new) by (subst; apply dom_fmap_L). rewrite <-Hdu.
  do 3 eexists. split; [done|]. apply elem_of_dom in Hn0. rewrite <-Hdu in Hn0, Hdn. split; simpl.
  - apply set_eq. intros d. rewrite elem_of_difference, elem_of_missing, lookup_union_None, not_elem_of_dom.
    split; [|tauto]. intros [Hd Hnu]. rewrite <-Hmiss in Hd. apply elem_of_missing in Hd. tauto.
  - rewrite Hmiss.  assert (Y ∖ dom upd ⊂ Y) as Hsub by set_solver. apply subset_size in Hsub. lia.
  - rewrite dom_union_L. set_solver.
  - rewrite dom_union_L. set_solver.
  - intros d Hd. rewrite elem_of_difference, lookup_union_None, not_elem_of_dom. naive_solver.
Qed.

Lemma fetch_attempt_progress env p X k Y fetched w :
  fetch_serves env p X -> Y ⊆ X -> (forall d, d ∈ Y -> fetched !! d = None) ->
  exists w' Y' f', fetch_attempt env k Y fetched w = (w', Ret (Y', f')) /\
    attempt_progress w Y fetched w' Y' f'.
Proof.
  intros Hs HY Hf. unfold fetch_attempt. destruct (proj2 Hs k) as (Hrd & _).
  set (f1 := fetch_local _ _ _ ∪ fetched).
  assert (Hf1 : forall d, d ∈ Y -> f1 !! d = wk_batches w !! d).
  { intros d Hd. unfold f1, fetch_local. rewrite Hrd. destruct (wk_batches w !! d) as [b|] eqn:Hb.
    - apply lookup_union_Some_l. by apply map_lookup_filter_Some.
    - apply lookup_union_None. split; [|by apply Hf]. apply map_lookup_filter_None. by left. }
  assert (Hopen : filter (fun d => f1 !! d = None) Y = missing_of (wk_batches w) Y).
  { apply set_eq. intros d. rewrite elem_of_missing, elem_of_filter. split.
    - intros [Hn Hd]. by rewrite Hf1 in Hn.
    - intros [Hd Hn]. by rewrite Hf1. }
  assert (Hdf : dom fetched ⊆ dom f1) by (unfold f1; rewrite dom_union_L; set_solver).
  rewrite Hopen. case_bool_decide as Hemp.
  - do 3 eexists. split; [done|]. split; [done|rewrite Hemp, size_empty; lia|done|done|].
    intros d Hd. by rewrite elem_of_missing, Hf1 by done; naive_solver.
  - remember (missing_of (wk_batches w) Y) as Y1 eqn:HY1.
    assert (HY1s : Y1 ⊆ Y) by (subst; intros d; rewrite elem_of_missing; tauto).
    destruct (fetch_remote_progress env p X k Y1 f1 w) as (w' & Y' & f' & Hr & [Ho Hl Hst Hfe Hg]).
    + done.
    + set_solver.
    + done.
    + apply set_eq. intros d. rewrite HY1, !elem_of_missing. tauto.
    + intros d. rewrite HY1, elem_of_missing. intros [Hd Hn]. by rewrite Hf1.
    + exists w', Y', f'. split; [done|].
      assert (Hmm : missing_of (wk_batches w) Y1 = Y1) by (apply set_eq; intros d; rewrite HY1, !elem_of_missing; tauto).
      rewrite Hmm in Hl. split; [|by rewrite <-HY1|done|set_solver|].
      * rewrite Ho. apply set_eq. intros d. rewrite HY1, !elem_of_missing. split; [tauto|].
        intros [Hd Hn]. split_and!; [done| |done]. apply not_elem_of_dom. apply not_elem_of_dom in Hn. set_solver.
      * intros d Hd. destruct (decide (d ∈ Y1)) as [Hin|Hout]; [by apply Hg|].
        assert (d ∉ Y') by (rewrite Ho, elem_of_missing; tauto).
        split; [done|]. intros Hn. exfalso. apply Hout. rewrite HY1, elem_of_missing. split; [done|].
        rewrite <-Hf1 by done. apply not_elem_of_dom. apply not_elem_of_dom in Hn. set_solver.
Qed.

Lemma missing_mono m m' X : dom m ⊆ dom m' -> missing_of m' X ⊆ missing_of m X.
Proof.
  intros Hd d. rewrite !elem_of_missing. intros [? Hn]. split; [done|].
  apply not_elem_of_dom. apply not_elem_of_dom in Hn. set_solver.
Qed.

(** The loop of a fetch: every attempt that is left stores a missing batch, and
    when there are attempts enough, everything is returned. *)
Lemma fetch_loop_progress env p X n k Y fetched w :
  fetch_serves env p X -> Y ⊆ X -> (forall d, d ∈ Y -> fetched !! d = None) ->
  exists w' m, fetch_loop env n k Y fetched w = (w', Ret m) /\
    dom (wk_batches w) ⊆ dom (wk_batches w') /\ dom fetched ⊆ dom m /\
    (size (missing_of (wk_batches w') Y) <= size (missing_of (wk_batches w) Y) - n)%nat /\
    ((0 < n)%nat -> (size (missing_of (wk_batches w) Y) <= n)%nat -> Y ⊆ dom m).
Proof.
  intros Hs. revert k Y fetched w. induction n as [|n IH]; intros k Y fetched w HY Hf.
  { exists w, fetched. simpl. split_and!; [done|done|done|lia|lia]. }
  simpl. case_bool_decide as Hemp.
  { exists w, fetched. split_and!; [done|done|done| |set_solver]. subst Y.
    replace (missing_of (wk_batches w) ∅) with (∅ : gset B256) by set_solver. rewrite size_empty. lia. }
  destruct (fetch_attempt_progress env p X k Y fetched w Hs HY Hf) as (w1 & Y1 & f1 & Hr & [Ho Hl Hst Hfe Hg]).
  assert (HY1 : Y1 ⊆ Y) by (rewrite Ho; intros d; rewrite elem_of_missing; tauto).
  unfold mbind at 1, st_bind at 1. rewrite Hr.
  destruct (IH (S k) Y1 f1 w1) as (w2 & m & Hr2 & Hst2 & Hd2 & Hsz & Hfull); [set_solver|intros d Hd; apply Hg; set_solver|].
  assert (Hm1 : missing_of (wk_batches w1) Y1 = Y1).
  { apply set_eq. intros d. rewrite Ho, !elem_of_missing. tauto. }
  exists w2, m. split_and!; [done|set_solver|set_solver| |].
  - assert (missing_of (wk_batches w2) Y ⊆ missing_of (wk_batches w2) Y1) as Hsub.
    { intros d. rewrite !elem_of_missing, Ho, elem_of_missing. intros [? Hn]. split; [split; [done|]|done].
      apply not_elem_of_dom. apply not_elem_of_dom in Hn. set_solver. }
    apply subseteq_size in Hsub. rewrite Hm1 in Hsz. lia.
  - intros _ Hle d Hd. destruct (decide (d ∈ Y1)) as [Hin|Hout].
    + destruct n as [|n].
      * assert (size Y1 = 0%nat) as H0s by lia. apply size_empty_inv in H0s. set_solver.
      * apply Hfull; [lia|rewrite Hm1; lia|done].
    + apply Hd2, elem_of_dom. destruct (f1 !! d) eqn:Hd1; [done|]. apply Hg in Hd1; done.
Qed.

Lemma fetch_progress env p X w :
  fetch_serves env p X ->
  exists w' m, fetch env X w = (w', Ret m) /\
    (size (missing_of (wk_batches w') X) <= size (missing_of (wk_batches w) X) - MAX_FETCH_RETRIES)%nat /\
    ((size (missing_of (wk_batches w) X) <= MAX_FETCH_RETRIES)%nat -> X ⊆ dom m).
Proof.
  intros Hs. destruct (fetch_loop_progress env p X MAX_FETCH_RETRIES 0 X ∅ w Hs) as (w' & m & Hr & _ & _ & Hsz & Hfull);
    [done|by intros; rewrite lookup_empty|].
  exists w', m. split_and!; [done|done|]. apply Hfull. unfold MAX_FETCH_RETRIES. lia.
Qed.
End store.

(** ** Serving and fetching together *)
Section serving.
Context `{!BatchCodec, !ForkConditionApi} (limits : WorkerLimits).
Implicit Types (d : BlockHash) (b : Batch) (w : WorkerState) (m : gmap B256 Batch).

(** What a response may hold: both ends have the same configuration. *)
Definition response_budget : Z := max_rpc_message_size limits - MESSAGE_OVERHEAD limits.

Definition limits_ok : Prop :=
  0 <= MESSAGE_OVERHEAD limits <= max_rpc_message_size limits /\
  LOCAL_MIN_REQUEST_SIZE limits <= max_rpc_message_size limits /\ 0 <= size_of_batch limits.

Lemma txs_bytes_nonneg txs : 0 <= txs_bytes txs.
Proof. apply zsum_nonneg, Forall_fmap, Forall_forall. intros x _. simpl. lia. Qed.

Lemma collect_requested_ok read max total ds :
  let l := collect_requested limits read max total ds in
  (total <= max -> total + zsum (Batch_size limits <$> l) <= max) /\
  exists ds', ds' `sublist_of` ds /\ Forall2 (fun d b => read d = Some (Some b)) ds' l.
Proof.
  revert total. induction ds as [|d ds IH]; intros total; simpl.
  { split; [unfold zsum; simpl; lia|]. by exists []. }
  destruct (read d) as [[b|]|] eqn:Hd.
  - destruct (_ <? _) eqn:Hlt.
    { split; [unfold zsum; simpl; lia|]. exists []. split; [apply sublist_nil_l|constructor]. }
    apply Z.ltb_ge in Hlt. destruct (IH (total + Batch_size limits b)) as [Hsz (ds' & Hsub & Hall)]. split.
    + intros _. specialize (Hsz Hlt). rewrite fmap_cons. unfold zsum in *. simpl. lia.
    + exists (d :: ds'). split; [by constructor|by constructor].
  - destruct (IH total) as [Hsz (ds' & Hsub & Hall)]. split; [done|]. exists ds'. split; [by constructor|done].
  - destruct (IH total) as [Hsz (ds' & Hsub & Hall)]. split; [done|]. exists ds'. split; [by constructor|done].
Qed.

(** A request is served within its budget: the batches of a response are
    stored ones, in the order of the request and of at most 40000 of its
    digests, and with their sizes they fit what both ends allow. Rows that
    cannot be read are skipped; a request that is empty or leaves no room for a
    batch is refused. *)
Theorem served_within_budget read ds max_response_size :
  limits_ok -> 0 <= max_response_size ->
  match process_request_batches limits read ds max_response_size with
  | Ret l => zsum (Batch_size limits <$> l) <= Z.min max_response_size response_budget /\
             exists ds', ds' `sublist_of` take MAX_SERVED_DIGESTS ds /\
                         Forall2 (fun d b => read d = Some (Some b)) ds' l
  | Err e => e = InvalidRequest /\ (ds = [] \/ max_response_size < LOCAL_MIN_REQUEST_SIZE limits)
  | Panic | Diverge => False
  end.
Proof.
  intros (Hov & Hmin & Hsz) Hpos.
  unfold process_request_batches. destruct (_ <? _) eqn:Hlt; [apply Z.ltb_lt in Hlt; by eauto|].
  case_bool_decide; [by eauto|]. unfold usub. rewrite (proj2 (Z.leb_le _ _)) by lia. cbn.
  destruct (collect_requested_ok read (Z.min max_response_size response_budget) 0 (take MAX_SERVED_DIGESTS ds)) as [Hl Hex].
  split; [|done]. unfold response_budget in *. lia.
Qed.

(** A peer that runs this code on a store that holds the batches of a set. *)
Definition peer_holds (store : gmap B256 Batch) (X : gset B256) : Prop :=
  store_ok store /\ forall d, d ∈ X -> exists b, store !! d = Some b /\ Batch_size limits b <= response_budget.
Definition runs_handler (env : NetEnv) (p : BlsPublicKey) (store : gmap B256 Batch) : Prop :=
  forall r l, answer env r p l =
    match request_response (process_request_batches limits (fun d => Some (store !! d)) l (max_rpc_message_size limits)) with
    | Some (response, _) => Ret response
    | None => Err OtherNetworkError
    end.

Lemma served_positive : exists n, MAX_SERVED_DIGESTS = S n.
Proof.
  exists (Z.to_nat 39999). unfold MAX_SERVED_DIGESTS. replace 40000 with (Z.succ 39999) by lia.
  apply Z2Nat.inj_succ. lia.
Qed.

Lemma holder_answers env p store X :
  limits_ok -> peer_holds store X -> runs_handler env p store -> answers_some env p (elements X).
Proof.
  intros (Hov & Hmin & Hsz) (Hok & Hall) Hrun r l Hne Hsub. rewrite Hrun.
  unfold process_request_batches. rewrite (proj2 (Z.ltb_ge _ _)) by lia. rewrite bool_decide_eq_false_2 by done.
  unfold usub. rewrite (proj2 (Z.leb_le _ _)) by lia. cbn. rewrite Z.min_r by lia.
  eexists. split; [done|]. destruct l as [|d l]; [done|].
  destruct (Hall d) as (b & Hb & Hfit); [apply elem_of_elements, Hsub; left|].
  destruct served_positive as (n & Hn). rewrite Hn. split.
  - simpl. rewrite Hb, (proj2 (Z.ltb_ge _ _)); [done|]. unfold response_budget in Hfit. lia.
  - destruct (collect_requested_ok (fun d => Some (store !! d)) (max_rpc_message_size limits - MESSAGE_OVERHEAD limits) 0
      (take (S n) (d :: l))) as [_ (ds' & Hds & Hfor)].
    apply Forall_forall. intros x Hx. apply list_elem_of_lookup in Hx as [i Hi].
    destruct (Forall2_lookup_r _ _ _ _ _ Hfor Hi) as (d' & Hd' & [= Hx']).
    apply Hok in Hx'. rewrite Hx'. apply list_elem_of_lookup_2 in Hd'.
    assert (d' ∈ take (S n) (d :: l)) as Hin by (eapply elem_of_submseteq; [exact Hd'|by apply sublist_submseteq]).
    apply elem_of_take in Hin as (j & Hj & _). by apply list_elem_of_lookup_2 in Hj.
Qed.

(** The answers that the subscriber gets when it retries: one fetch per attempt,
    each on what the ones before have stored. *)
Fixpoint fetch_replies (envs : list FetchEnv) (X : gset B256) w : list BatchReply :=
  match envs with
  | [] => []
  | env :: envs =>
      let '(w', r) := fetch env X w in
      match r with Ret m => Some m | _ => None end :: fetch_replies envs X w'
  end.

(** A peer that is connected in every attempt and holds the batches, over a local
    store that works. *)
Definition holder_connected (p : BlsPublicKey) (store : gmap B256 Batch) (env : FetchEnv) : Prop :=
  iterates (fe_order env) /\
  forall k, fe_readable env k = true /\ fe_written env k = true /\
    (exists peers, connected_peers (fe_net env k) = Ret peers /\ p ∈ peers) /\
    (forall r q, arrivals (fe_net env k) r q ≡ₚ q) /\ runs_handler (fe_net env k) p store.

Lemma holder_serves p store X env :
  limits_ok -> peer_holds store X -> holder_connected p store env -> fetch_serves env p X.
Proof.
  intros Hl Hp (Hord & Hk). split; [done|]. intros k. destruct (Hk k) as (Hr & Hw & Hc & Ha & Hrun).
  split_and!; [done|done|]. split_and!; [done|done|]. by eapply holder_answers.
Qed.

Lemma retryable committee sd parent n r e :
  (forall c, c ∈ sd_certificates sd -> is_authority committee (origin c) = true) ->
  fetch_batches committee sd parent n r = Err e -> is_batch_fetch_error e = true.
Proof.
  intros Hauth. unfold fetch_batches. case_match; [done|]. destruct r as [m|]; cbn; [|by intros [= <-]].
  destruct (certified_batches committee m (sd_certificates sd)) as [|e'| |] eqn:Hc; try done.
  intros [= <-]. apply certified_batches_Err in Hc as [(d & -> & _)|(c & Hc & -> & Hn)]; [done|].
  rewrite Hauth in Hn by done. done.
Qed.

(** C22: One peer is enough: when a connected peer holds the batches of a
    committed sub-DAG and answers with the code of the worker, the subscriber has
    its output after at most one attempt per five batches that are missing, and
    at least one attempt: every round of requests that brings nothing has asked
    every peer, so each of the five tries of an attempt stores another batch,
    whatever the other peers answer and however the shards fall. *)
Theorem one_peer_suffices committee sd parent n envs w p store :
  let X : gset B256 := list_to_set (payload_digests sd) in
  limits_ok -> peer_holds store X -> Forall (holder_connected p store) envs ->
  (forall c, c ∈ sd_certificates sd -> is_authority committee (origin c) = true) ->
  store_ok (wk_batches w) -> envs <> [] ->
  (size (missing_of (wk_batches w) X) <= MAX_FETCH_RETRIES * length envs)%nat ->
  exists o, fetch_batches_retrying committee sd parent n (fetch_replies envs X w) = Ret o /\
    output_of batch_hash committee sd parent n o.
Proof.
  intros X Hl Hp Henvs Hauth Hw Hne. revert w Hw Hne. induction Henvs as [|env envs Henv _ IH]; [done|].
  intros w Hw _ Hsz. simpl.
  destruct (fetch_progress env p X w) as (w' & m & Hf & Hless & Hfull); [by eapply holder_serves|].
  destruct (fetch_keeps env X (proj1 Henv) w Hw) as [Hw' Hm]. rewrite Hf in *. simpl in Hw', Hm.
  destruct (Hm m eq_refl) as [Hmok _].
  assert (Hhon : honest_reply batch_hash (Some m)) by (intros ? d b [= <-] Hb; by apply Hmok).
  cbn [fetch_batches_retrying].
  destruct (fetch_batches committee sd parent n (Some m)) as [o|e| |] eqn:Ho.
  - exists o. split; [done|]. by eapply fetch_batches_ok.
  - rewrite (retryable _ _ _ _ _ _ Hauth Ho). apply IH; [done| |].
    + intros ->. destruct (fetch_batches_total committee sd parent n m Hauth) as [o Ho']; [|congruence].
      intros d Hd. apply elem_of_dom, Hfull; [cbn [length] in Hsz; by rewrite Nat.mul_1_r in Hsz|]. by apply elem_of_list_to_set.
    + cbn [length] in Hsz. rewrite Nat.mul_succ_r in Hsz. lia.
  - by destruct (fetch_batches_plain committee sd parent n (Some m)).
  - by destruct (fetch_batches_plain committee sd parent n (Some m)).
Qed.
End serving.

(** ** Slots *)
Section slots.
Implicit Types (s : CommitteeSlots).

Lemma find_Some_first {A} (f : A -> bool) l x : List.find f l = Some x -> x ∈ l /\ f x = true.
Proof. intros [Hx Hf]%find_some. by rewrite list_elem_of_In. Qed.

(** The slots of the ring from an owner. *)
Lemma elem_of_ring owner size x :
  0 <= owner < size -> x ∈ ring_walk owner size <-> 0 <= x < size.
Proof.
  intros Ho. unfold ring_walk. rewrite list_elem_of_fmap. split.
  - intros (k & -> & Hk%elem_of_seqZ). apply Z.mod_pos_bound. lia.
  - intros Hx. exists ((x - owner) mod size). split.
    + rewrite Zplus_mod_idemp_r. replace (owner + (x - owner)) with x by lia. symmetry. by apply Z.mod_small.
    + apply elem_of_seqZ. pose proof (Z.mod_pos_bound (x - owner) size). lia.
Qed.

(** The slot that takes the senders of an owner, in a view of who is live. *)
Definition covering (lv : list bool) (owner : Z) : option Z :=
  List.find (slot_live {| own_slot := 0; live := lv |}) (ring_walk (owner mod Z.of_nat (length lv)) (Z.of_nat (length lv))).

Lemma covers_covering s owner :
  live s <> [] -> covers s owner = true <-> covering (live s) owner = Some (own_slot s).
Proof.
  intros Hne. unfold covers, covering, slots_size.
  rewrite (proj2 (Z.eqb_neq _ _)) by (destruct (live s); simpl; [done|lia]).
  change (slot_live {| own_slot := 0; live := live s |}) with (slot_live s).
  destruct (find _ _) as [x|]; [|naive_solver]. rewrite Z.eqb_eq. naive_solver.
Qed.

(** A gossiped transaction has exactly one validator that takes it: among
    the members that see the same slots as live, at least one of which is, one
    covers an owner, it is live, and it is the owner when the owner is live. *)
Theorem one_slot_covers (lv : list bool) (owner : Z) :
  true ∈ lv -> 0 <= owner < Z.of_nat (length lv) ->
  exists slot, 0 <= slot < Z.of_nat (length lv) /\ lv !! Z.to_nat slot = Some true /\
    (lv !! Z.to_nat owner = Some true -> slot = owner) /\
    forall own, covers {| own_slot := own; live := lv |} owner = true <-> own = slot.
Proof.
  intros Hlive Ho. assert (Hne : lv <> []) by (by intros ->; apply not_elem_of_nil in Hlive).
  apply list_elem_of_lookup in Hlive as [i Hi]. pose proof (lookup_lt_Some _ _ _ Hi) as Hlt.
  destruct (covering lv owner) as [slot|] eqn:Hc.
  - pose proof Hc as [Hin Hsl]%find_Some_first. rewrite Z.mod_small in Hin by lia.
    apply elem_of_ring in Hin; [|lia]. exists slot. split_and!; [lia|lia| | |].
    + unfold slot_live in Hsl. simpl in Hsl. destruct (lv !! Z.to_nat slot) as [[]|]; done.
    + intros Hown. unfold covering in Hc. rewrite Z.mod_small in Hc by lia. unfold ring_walk in Hc.
      replace (Z.of_nat (length lv)) with (Z.succ (Z.of_nat (length lv) - 1)) in Hc at 2 by lia.
      rewrite seqZ_cons, fmap_cons in Hc by lia. simpl in Hc. rewrite Z.add_0_r, Z.mod_small in Hc by lia.
      unfold slot_live at 1 in Hc. simpl in Hc. rewrite Hown in Hc. simpl in Hc. by simplify_eq.
    + intros own. rewrite covers_covering by done. simpl. rewrite Hc. naive_solver.
  - exfalso. unfold covering in Hc. rewrite Z.mod_small in Hc by lia. apply find_None_Forall in Hc.
    rewrite Forall_forall in Hc. specialize (Hc (Z.of_nat i)).
    rewrite elem_of_ring in Hc by lia. specialize (Hc ltac:(lia)).
    unfold slot_live in Hc. simpl in Hc. by rewrite Nat2Z.id, Hi in Hc.
Qed.
End slots.

(** ** Examples *)

Module WorkerExamples.

(** A hash without collisions, and transactions of three bytes: the gas limit,
    whether it is a blob, and the hash. *)
#[export] Instance Batch_countable : Countable Batch.
Proof.
  refine (inj_countable'
    (fun b => (transactions b, ((b_epoch b, b_beneficiary b, base_fee_per_gas b), (b_worker_id b, BatchOrdering.seq b, received_at b))))
    (fun '(txs, ((e, a, fee), (i, n, t))) =>
       {| transactions := txs; b_epoch := e; b_beneficiary := a; base_fee_per_gas := fee; b_worker_id := i;
          BatchOrdering.seq := n; received_at := t |}) _).
  by intros [].
Defined.
#[export] Instance example_codec : BatchCodec := {|
  encoded_hash b := Z.pos (encode b);
  recover_signed_transaction tx :=
    match tx with
    | [g; k; h] => Some {| ts_gas_limit := g; ts_is_eip4844 := k =? 1; ts_hash := h |}
    | _ => None
    end;
  recover_sender tx := Some (take 1 tx);
  bytes_to_txn tx := tx !! 2%nat;
  fxhash tx := zsum tx
|}.
Lemma example_hash_injective : collision_free.
Proof. intros x y [= Hxy]. by apply (inj encode). Qed.

Definition validator : BatchValidator :=
  {| bv_worker_id := 0; bv_base_fee := 7; bv_epoch := 0; validated_batches := ∅; bv_gas_limit := 100 |}.
Definition built (n : Z) (txs : list Bytes) : Batch :=
  {| transactions := txs; b_epoch := 0; b_beneficiary := 11; base_fee_per_gas := 7; b_worker_id := 0;
     BatchOrdering.seq := n; received_at := None |}.
Definition sealed_batch : SealedBatch := seal_slow (built 0 [[21; 0; 5]; [21; 0; 6]]).

(** The second time the batch is answered from the cache. *)
Lemma accepted_batches_valid_witness :
  (validate_batch example_spec 10 4 sealed_batch
     (validator_run example_spec [(10, 3, sealed_batch)] validator)).2 = Ret tt /\
  sb_digest sealed_batch = batch_hash (sb_batch sealed_batch) /\ batch_valid validator (sb_batch sealed_batch).
Proof.
  assert (Hr : (validate_batch example_spec 10 4 sealed_batch
    (validator_run example_spec [(10, 3, sealed_batch)] validator)).2 = Ret tt) by (vm_compute; reflexivity).
  split; [exact Hr|].
  exact (accepted_batches_valid example_spec validator [(10, 3, sealed_batch)] 10 4 sealed_batch
    example_hash_injective eq_refl Hr).
Defined.

Definition worker0 : WorkerState :=
  {| wk_batches := ∅; wk_counter := None; wk_validator := validator; wk_others := []; wk_own := [];
     wk_published := []; wk_disbursed := []; wk_admitted := [] |}.
Definition moment : Moment := {| mo_tip := 10; mo_next_tip := 10; mo_now := 3; mo_written := true; mo_acknowledged := true |}.

(** A peer that holds the batch, behind one that does not answer. *)
Definition limits : WorkerLimits :=
  {| LOCAL_MIN_REQUEST_SIZE := 10; MESSAGE_OVERHEAD := 16; size_of_batch := 8; max_rpc_message_size := 1000 |}.
Definition held : gmap B256 Batch := {[sb_digest sealed_batch := sb_batch sealed_batch]}.
Definition network : NetEnv := {|
  connected_peers := Ret [5; 6];
  answer _ p l :=
    if p =? 6 then
      match request_response (process_request_batches limits (fun d => Some (held !! d)) l 1000) with
      | Some (response, _) => Ret response
      | None => Err OtherNetworkError
      end
    else Err RequestTimeout;
  arrivals _ q := q
|}.
Definition fetching : FetchEnv :=
  {| fe_net _ := network; fe_readable _ := true; fe_written _ := true; fe_now _ := 3; fe_order := elements |}.
Lemma fetching_iterates : iterates (fe_order fetching).
Proof. by intros X. Qed.

Lemma batches_content_addressed_witness :
  let ops := [OpReport 1 sealed_batch moment] in
  let w := worker_run example_spec example_committee ops worker0 in
  (store_ok (wk_batches w) /\
   forall m, (fetch fetching {[sb_digest sealed_batch]} w).2 = Ret m ->
     honest_reply batch_hash (Some m) /\ dom m ⊆ {[sb_digest sealed_batch]}) /\
  is_Some (wk_batches w !! sb_digest sealed_batch).
Proof.
  split; [|vm_compute; by eexists].
  exact (batches_content_addressed example_spec example_committee [OpReport 1 sealed_batch moment] worker0 fetching
    {[sb_digest sealed_batch]} (map_Forall_empty _) fetching_iterates).
Defined.

Lemma example_limits : limits_ok limits.
Proof. repeat split; simpl; lia. Qed.

(** The second copy does not fit into the response. *)
Definition asked : list BlockHash := [sb_digest sealed_batch; 7; sb_digest sealed_batch].
Lemma served_within_budget_witness :
  process_request_batches limits (fun d => Some (held !! d)) asked 20 = Ret [sb_batch sealed_batch] /\
  match process_request_batches limits (fun d => Some (held !! d)) asked 20 with
  | Ret l => zsum (Batch_size limits <$> l) <= Z.min 20 (response_budget limits) /\
             exists ds', ds' `sublist_of` take MAX_SERVED_DIGESTS asked /\
                         Forall2 (fun d b => Some (held !! d) = Some (Some b)) ds' l
  | Err e => e = InvalidRequest /\ (asked = [] \/ 20 < LOCAL_MIN_REQUEST_SIZE limits)
  | Panic | Diverge => False
  end.
Proof.
  split; [vm_compute; reflexivity|].
  refine (served_within_budget limits (fun d => Some (held !! d)) asked 20 example_limits _). lia.
Defined.

Definition committed : CommittedSubDag := SubExamples.commit 2 [(sb_digest sealed_batch, 0)].

Lemma example_holds : peer_holds limits held (list_to_set (payload_digests committed)).
Proof.
  split; [by apply map_Forall_singleton|]. intros d Hd. exists (sb_batch sealed_batch).
  assert (d = sb_digest sealed_batch) as -> by (unfold committed, payload_digests in Hd; cbn in Hd; set_solver).
  split; [apply lookup_singleton_eq|by vm_compute].
Qed.
Lemma example_holder : holder_connected limits 6 held fetching.
Proof.
  split; [apply fetching_iterates|]. intros k. split_and!; [done|done| |done|].
  - exists [5; 6]. split; [done|set_solver].
  - done.
Qed.

Lemma one_peer_suffices_witness :
  exists o, fetch_batches_retrying SubExamples.members committed 7 1
      (fetch_replies [fetching] (list_to_set (payload_digests committed)) worker0) = Ret o /\
    output_of batch_hash SubExamples.members committed 7 1 o.
Proof.
  refine (one_peer_suffices limits SubExamples.members committed 7 1 [fetching] worker0 6 held example_limits
    example_holds _ _ (map_Forall_empty _) _ _).
  - repeat constructor; apply example_holder.
  - intros c Hc. cbn in Hc. apply list_elem_of_singleton in Hc as ->. by vm_compute.
  - done.
  - vm_compute. repeat constructor.
Defined.

(** The owner is down, and the next slot covers for it. *)
Lemma one_slot_covers_witness :
  exists slot, 0 <= slot < 3 /\ [false; true; true] !! Z.to_nat slot = Some true /\
    ([false; true; true] !! Z.to_nat 0 = Some true -> slot = 0) /\
    forall own, covers {| own_slot := own; live := [false; true; true] |} 0 = true <-> own = slot.
Proof. apply (one_slot_covers [false; true; true] 0); [set_solver|simpl; lia]. Defined.
End WorkerExamples.
