(* ===== verification/SealingProps.v ===== *)
(** * Availability of sealed batches

    What the quorum waiter decides, and what it means for the committee that a
    batch was sealed: any quorum has an honest member that stores it. *)
From S2P Require Import Prelude Lists State Types Committee Certificates LeaderSchedule ConsensusState Bullshark.
From S2P Require Import Hardforks BatchOrdering InFlight Engine ConsensusChain BatchValidator Worker Sealing.
From S2P Require Import EngineBlocks EpochRecords StateSync Subscriber SubscriberProps WorkerProps.
#[local] Open Scope Z_scope.

Section tally.
Implicit Types (rs : list (Exec WaiterError VotingPower)).

(** The stake of the results of each kind. *)
Definition acked_stake (r : Exec WaiterError VotingPower) : Z := match r with Ret s => s | _ => 0 end.
Definition refused_stake (r : Exec WaiterError VotingPower) : Z :=
  match r with Err (WaiterRejected s) => s | _ => 0 end.
Definition result_stake (r : Exec WaiterError VotingPower) : Z :=
  match r with Ret s | Err (WaiterRejected s) | Err (WaiterNetwork s) => s | _ => 0 end.
Definition plain_result (r : Exec WaiterError VotingPower) : Prop :=
  0 <= result_stake r /\ match r with Ret _ | Err _ => True | _ => False end.
Abbreviation acked rs := (zsum (acked_stake <$> rs)).
Abbreviation refused rs := (zsum (refused_stake <$> rs)).
Abbreviation answered rs := (zsum (result_stake <$> rs)).

Lemma zsum_cons x l : zsum (x :: l) = x + zsum l.
Proof. done. Qed.

Lemma stakes_nonneg rs :
  Forall plain_result rs ->
  0 <= acked rs /\ 0 <= refused rs /\ acked rs + refused rs <= answered rs.
Proof.
  induction 1 as [|r rs [Hr Hp] _ IH]; [by unfold zsum; simpl|]. rewrite !fmap_cons, !zsum_cons.
  destruct r as [s|[s|s]| |]; simpl in *; try done; lia.
Qed.

(** The tally without saturation. *)
Record tally_ok (t : Tally) rs : Prop := {
  to_total : 0 <= total_stake t;
  to_rejected : 0 <= rejected_stake t;
  to_plain : Forall plain_result rs;
  to_available : answered rs <= available_stake t;
  to_bound : total_stake t + available_stake t + rejected_stake t <= u64_max
}.

Lemma tally_step t r rs :
  tally_ok t (r :: rs) ->
  tally_ok (tally t r) rs /\
  total_stake (tally t r) = total_stake t + acked_stake r /\
  rejected_stake (tally t r) = rejected_stake t + refused_stake r /\
  available_stake (tally t r) = available_stake t - result_stake r.
Proof.
  intros [Ht Hr Hp Ha Hb]. inversion_clear Hp as [|? ? [Hr0 Hk] Hp'].
  rewrite fmap_cons, zsum_cons in Ha. pose proof (stakes_nonneg rs Hp') as (? & ? & ?).
  assert (sat_sub (available_stake t) (result_stake r) = available_stake t - result_stake r) as Hs by (unfold sat_sub; lia).
  destruct r as [s|[s|s]| |]; simpl in *; try done; rewrite Hs; unfold sat_add;
    (split; [split; simpl; [lia|lia|done|lia|lia]|split_and!; lia]).
Qed.

(** What the loop decides. *)
Lemma quorum_loop_cases threshold max_rejected all t rs :
  tally_ok t rs ->
  match quorum_loop threshold max_rejected all t rs with
  | Ret _ => threshold <= total_stake t + acked rs
  | Err QuorumRejected => max_rejected < rejected_stake t + refused rs
  | Err AntiQuorum =>
      all = true \/ exists n, total_stake t + acked (take n rs) + (available_stake t - answered (take n rs)) < threshold
  | Err QuorumTimeout => all = false
  | _ => False
  end.
Proof.
  revert t. induction rs as [|r rs IH]; intros t Ht; cbn [quorum_loop]; [destruct all; by auto|].
  destruct (tally_step t r rs Ht) as (Ht' & Htot & Hrej & Hav). rewrite Htot, Hrej.
  pose proof (stakes_nonneg rs (to_plain _ _ Ht')) as (Hn1 & Hn2 & _).
  destruct (match r with Ret _ => _ | _ => _ end) eqn:Hq.
  { destruct r as [s| | |]; try done. apply Z.leb_le in Hq. rewrite fmap_cons, zsum_cons. simpl in *. lia. }
  destruct (max_rejected <? _) eqn:Hm; [apply Z.ltb_lt in Hm; rewrite fmap_cons, zsum_cons; lia|].
  assert (Hsat : sat_add u64_max (total_stake t + acked_stake r) (available_stake (tally t r)) =
    total_stake t + acked_stake r + available_stake (tally t r)).
  { pose proof (to_bound _ _ Ht'). pose proof (to_rejected _ _ Ht'). rewrite Htot in *. unfold sat_add. lia. }
  destruct (sat_add _ _ _ <? _) eqn:Ha.
  { apply Z.ltb_lt in Ha. right. exists 1%nat. cbn [take]. rewrite !fmap_cons, !zsum_cons. unfold zsum. simpl. lia. }
  specialize (IH _ Ht'). rewrite Htot, Hrej in IH.
  destruct (quorum_loop _ _ _ _ _) as [u|[]| |]; try done; rewrite ?fmap_cons, ?zsum_cons; try lia.
  destruct IH as [?|(n & Hn)]; [by left|right]. exists (S n). cbn [take]. rewrite !fmap_cons, !zsum_cons. lia.
Qed.

(** Enough acknowledgements are found, whatever else arrives before them. *)
Lemma quorum_loop_complete threshold max_rejected all t rs :
  tally_ok t rs -> total_stake t < threshold -> threshold <= total_stake t + acked rs ->
  rejected_stake t + refused rs <= max_rejected ->
  quorum_loop threshold max_rejected all t rs = Ret tt.
Proof.
  revert t. induction rs as [|r rs IH]; intros t Ht Hlt Hacked Hrej0; cbn [quorum_loop]; [unfold zsum in Hacked; simpl in Hacked; lia|].
  destruct (tally_step t r rs Ht) as (Ht' & Htot & Hrej & Hav).
  pose proof (stakes_nonneg rs (to_plain _ _ Ht')) as (Hn1 & Hn2 & Hn3). rewrite fmap_cons, zsum_cons in Hacked, Hrej0.
  destruct (match r with Ret _ => _ | _ => _ end) eqn:Hq; [done|].
  rewrite (proj2 (Z.ltb_ge _ _)) by lia.
  pose proof (to_available _ _ Ht') as Hav'. pose proof (to_bound _ _ Ht') as Hb. pose proof (to_rejected _ _ Ht').
  rewrite (proj2 (Z.ltb_ge _ _)) by (unfold sat_add; lia).
  apply IH; [done| |lia|lia]. destruct r as [s| | |]; simpl in *; [apply Z.leb_gt in Hq; lia|lia..].
Qed.
End tally.

(** ** Stake by key *)
Section by_key.
Context (c : Committee) (Hwf : committee_wf c).

(** The identifier of the member with a key. *)
Definition id_of (k : BlsPublicKey) : AuthorityIdentifier :=
  match authorities_map c !! k with Some a => id a | None => 0 end.

Lemma voting_power_nonneg k : 0 <= voting_power c k.
Proof.
  unfold voting_power. destruct (_ !! k) as [a|] eqn:Hk; [|done].
  apply (wf_authorities _ Hwf) in Hk as [_ ?]. lia.
Qed.

Lemma voting_power_id k : k ∈ dom (authorities_map c) -> voting_power_by_id c (id_of k) = voting_power c k.
Proof.
  intros [a Ha]%elem_of_dom. unfold id_of, voting_power, voting_power_by_id. rewrite Ha.
  assert (authorities_by_id c !! id a = Some a) as -> by (apply (wf_by_id _ Hwf); eauto). done.
Qed.

Lemma id_of_inj k k' :
  k ∈ dom (authorities_map c) -> k' ∈ dom (authorities_map c) -> id_of k = id_of k' -> k = k'.
Proof.
  intros [a Ha]%elem_of_dom [a' Ha']%elem_of_dom. unfold id_of. rewrite Ha, Ha'. intros Hid.
  assert (authorities_by_id c !! id a = Some a) as H1 by (apply (wf_by_id _ Hwf); eauto).
  assert (authorities_by_id c !! id a' = Some a') as H2 by (apply (wf_by_id _ Hwf); eauto).
  rewrite Hid in H1. simplify_eq. apply (wf_authorities _ Hwf) in Ha, Ha'. destruct Ha, Ha'. congruence.
Qed.

(** The stake of distinct members, given by their keys. *)
Lemma stake_of_keys ks :
  NoDup ks -> (forall k, k ∈ ks -> k ∈ dom (authorities_map c)) ->
  stake_of c (list_to_set (id_of <$> ks)) = zsum (voting_power c <$> ks).
Proof.
  intros Hnd Hin. unfold stake_of. rewrite wsum_list.
  - rewrite <-list_fmap_compose. f_equal. apply list_fmap_ext. intros i k Hk%list_elem_of_lookup_2.
    by apply voting_power_id, Hin.
  - induction Hnd as [|k ks Hk _ IH]; [constructor|]. rewrite fmap_cons. constructor.
    + intros (k' & Hid & Hk')%list_elem_of_fmap. apply id_of_inj in Hid; [|apply Hin; left|apply Hin; by right].
      by subst.
    + apply IH. intros k' Hk'. apply Hin. by right.
Qed.

Context (a : Authority) (Ha : authorities_map c !! protocol_key a = Some a).
Abbreviation peers := (others_keys_except c (protocol_key a)).

Lemma elem_of_peers k : k ∈ peers <-> k ∈ dom (authorities_map c) /\ k <> protocol_key a.
Proof.
  unfold others_keys_except. rewrite list_elem_of_fmap. split.
  - intros (x & -> & Hx). apply list_elem_of_In, filter_In in Hx as [Hx Hk]. apply list_elem_of_In in Hx.
    apply elem_of_btree_values in Hx as [k Hx]. pose proof (wf_authorities _ Hwf _ _ Hx) as [Hkx _].
    rewrite Hkx in *. split; [by apply elem_of_dom_2 in Hx|]. apply negb_true_iff in Hk. by apply Z.eqb_neq.
  - intros [[x Hx]%elem_of_dom Hne]. pose proof (wf_authorities _ Hwf _ _ Hx) as [Hk _].
    exists x. split; [done|]. apply list_elem_of_In, filter_In. rewrite <-list_elem_of_In.
    split; [apply elem_of_btree_values; eauto|]. apply negb_true_iff, Z.eqb_neq. by rewrite Hk.
Qed.

Lemma NoDup_peers : NoDup peers.
Proof.
  unfold others_keys_except.
  assert (NoDup (protocol_key <$> btree_values (authorities_map c))) as Hnd.
  { assert (protocol_key <$> btree_values (authorities_map c) = btree_keys (authorities_map c)) as ->.
    { unfold btree_values, btree_keys. rewrite <-list_fmap_compose. apply list_fmap_ext.
      intros i [k x] Hx%list_elem_of_lookup_2%elem_of_btree_list. by apply (wf_authorities _ Hwf) in Hx as [? _]. }
    apply NoDup_btree_keys. }
  induction (btree_values (authorities_map c)) as [|x l IH]; [constructor|]. rewrite fmap_cons in Hnd.
  inversion_clear Hnd as [|? ? Hx Hl]. simpl. destruct (negb _); [|by apply IH]. rewrite fmap_cons.
  constructor; [|by apply IH]. intros (y & Hy & Hin)%list_elem_of_fmap. apply Hx. rewrite Hy.
  apply list_elem_of_In, filter_In in Hin as [Hin _]. apply list_elem_of_In in Hin.
  by apply list_elem_of_fmap_2.
Qed.

Lemma peers_stake_total : zsum (voting_power c <$> peers) + authority_voting_power a <= total_power c.
Proof.
  assert (authority_voting_power a = voting_power c (protocol_key a)) as -> by (unfold voting_power; by rewrite Ha).
  pose proof (stake_of_le_total c Hwf (list_to_set (id_of <$> protocol_key a :: peers))) as Hle.
  rewrite stake_of_keys in Hle; [rewrite fmap_cons, zsum_cons in Hle; lia| |].
  - constructor; [|apply NoDup_peers]. rewrite elem_of_peers. tauto.
  - intros k [->|Hk]%elem_of_cons; [by apply elem_of_dom_2 in Ha|]. apply elem_of_peers in Hk. tauto.
Qed.

Lemma foldl_sat_add (l : list BlsPublicKey) s :
  0 <= s -> s + zsum (voting_power c <$> l) <= u64_max ->
  foldl (fun s name => sat_add u64_max s (voting_power c name)) s l = s + zsum (voting_power c <$> l).
Proof.
  revert s. induction l as [|k l IH]; intros s Hs Hle; [unfold zsum; simpl; lia|].
  rewrite fmap_cons, zsum_cons in *. pose proof (voting_power_nonneg k).
  assert (0 <= zsum (voting_power c <$> l)).
  { apply zsum_nonneg, Forall_fmap, Forall_forall. intros x _. apply voting_power_nonneg. }
  simpl. rewrite IH; unfold sat_add; rewrite ?Z.min_r by lia; lia.
Qed.

(** Acknowledgements of distinct peers. *)
Definition acks_ok (acks : list (BlsPublicKey * Ack)) : Prop := NoDup acks.*1 /\ acks.*1 ⊆ peers.

Abbreviation results acks := ((fun p => waiter p.2 (voting_power c p.1)) <$> acks).

Lemma results_plain (acks : list (BlsPublicKey * Ack)) : Forall plain_result (results acks).
Proof.
  apply Forall_fmap, Forall_forall. intros [k r] _. simpl. pose proof (voting_power_nonneg k).
  destruct r as [[u|[]| |]|]; split; done.
Qed.
Lemma results_answered (acks : list (BlsPublicKey * Ack)) :
  zsum (result_stake <$> results acks) = zsum (voting_power c <$> acks.*1).
Proof.
  f_equal. rewrite <-!list_fmap_compose. apply list_fmap_ext. intros i [k r] _. simpl.
  by destruct r as [[u|[]| |]|].
Qed.

Definition available : Z := zsum (voting_power c <$> peers).

Lemma verify_batch_loop acks :
  acks_ok acks ->
  verify_batch c a acks =
    quorum_loop (quorum_threshold c) (sat_sub (available + authority_voting_power a) (quorum_threshold c))
      (bool_decide (length peers = length acks))
      {| total_stake := authority_voting_power a; available_stake := available; rejected_stake := 0 |}
      (results acks) /\
  tally_ok {| total_stake := authority_voting_power a; available_stake := available; rejected_stake := 0 |}
    (results acks).
Proof.
  intros [Hnd Hsub]. pose proof peers_stake_total as Htot. pose proof (wf_total _ Hwf) as Hmax.
  pose proof (total_power_nonneg c (wf_authorities _ Hwf)). fold available in Htot.
  pose proof (wf_authorities _ Hwf _ _ Ha) as [_ Hown].
  assert (0 <= available).
  { apply zsum_nonneg, Forall_fmap, Forall_forall. intros x _. apply voting_power_nonneg. }
  split.
  - unfold verify_batch. rewrite foldl_sat_add by (fold available; lia). fold available.
    rewrite Z.add_0_l. unfold sat_add. by rewrite Z.min_r by lia.
  - split; simpl; [lia|lia|apply results_plain| |lia]. rewrite results_answered. unfold available.
    apply zsum_submseteq; [|apply Forall_fmap, Forall_forall; intros x _; apply voting_power_nonneg].
    apply fmap_submseteq. by apply NoDup_submseteq.
Qed.
End by_key.

(** ** What the waiter decides *)
Section decide.
Context (c : Committee) (Hwf : committee_wf c).
Context (a : Authority) (Ha : authorities_map c !! protocol_key a = Some a).
Abbreviation acks_ok := (acks_ok c a).
Abbreviation results acks := ((fun p => waiter p.2 (voting_power c p.1)) <$> acks).

(** The peers that acknowledged, and those that refused. *)
Definition ackers (acks : list (BlsPublicKey * Ack)) : list BlsPublicKey :=
  (List.filter (fun p => match p.2 with Some (Ret _) => true | _ => false end) acks).*1.
Definition refusers (acks : list (BlsPublicKey * Ack)) : list BlsPublicKey :=
  (List.filter (fun p => match p.2 with Some (Err RPCError) => true | _ => false end) acks).*1.
(** The members that hold the batch as far as the node can tell. *)
Definition acked_members (acks : list (BlsPublicKey * Ack)) : gset AuthorityIdentifier :=
  list_to_set (id_of c <$> protocol_key a :: ackers acks).

Lemma results_acked acks : zsum (acked_stake <$> results acks) = zsum (voting_power c <$> ackers acks).
Proof.
  unfold ackers. induction acks as [|[k r] acks IH]; [done|]. rewrite !fmap_cons, zsum_cons, IH. simpl.
  destruct r as [[u|[]| |]|]; simpl; try done; rewrite ?zsum_cons; lia.
Qed.
Lemma results_refused acks : zsum (refused_stake <$> results acks) = zsum (voting_power c <$> refusers acks).
Proof.
  unfold refusers. induction acks as [|[k r] acks IH]; [done|]. rewrite !fmap_cons, zsum_cons, IH. simpl.
  destruct r as [[u|[]| |]|]; simpl; try done; rewrite ?zsum_cons; lia.
Qed.

Lemma filter_fst_sublist (f : BlsPublicKey * Ack -> bool) acks : (List.filter f acks).*1 `sublist_of` acks.*1.
Proof.
  induction acks as [|x acks IH]; simpl; [done|]. destruct (f x); simpl; by constructor.
Qed.
Lemma ackers_sub acks : acks_ok acks -> NoDup (protocol_key a :: ackers acks) /\
  forall k, k ∈ protocol_key a :: ackers acks -> k ∈ dom (authorities_map c).
Proof.
  intros [Hnd Hsub]. pose proof (filter_fst_sublist
    (fun p => match p.2 with Some (Ret _) => true | _ => false end) acks) as Hs. fold (ackers acks) in Hs.
  assert (Hin : forall k, k ∈ ackers acks -> k ∈ dom (authorities_map c) /\ k <> protocol_key a).
  { intros k Hk. apply (elem_of_peers c Hwf a), Hsub. eapply elem_of_submseteq; [exact Hk|by apply sublist_submseteq]. }
  split.
  - constructor; [intros Hk; by apply Hin in Hk as [_ ?]|]. by eapply sublist_NoDup.
  - intros k [->|Hk]%elem_of_cons; [by apply elem_of_dom_2 in Ha|by apply Hin].
Qed.

Lemma acked_members_stake acks :
  acks_ok acks -> stake_of c (acked_members acks) = authority_voting_power a + zsum (voting_power c <$> ackers acks).
Proof.
  intros Hok. destruct (ackers_sub acks Hok) as [Hnd Hin]. unfold acked_members.
  rewrite stake_of_keys by done. rewrite fmap_cons, zsum_cons. unfold voting_power at 1. by rewrite Ha.
Qed.

(** A batch is accepted when a quorum has it, and only then. *)
Lemma verify_batch_Ret acks :
  acks_ok acks -> verify_batch c a acks = Ret tt -> quorum_threshold c <= stake_of c (acked_members acks).
Proof.
  intros Hok Hv. destruct (verify_batch_loop c Hwf a Ha acks Hok) as [Heq Ht]. rewrite Hv in Heq.
  pose proof (quorum_loop_cases (quorum_threshold c)
    (sat_sub (available c a + authority_voting_power a) (quorum_threshold c))
    (bool_decide (length (others_keys_except c (protocol_key a)) = length acks)) _ _ Ht) as Hc.
  rewrite <-Heq in Hc. rewrite results_acked in Hc. by rewrite acked_members_stake.
Qed.

Lemma answered_available acks : acks_ok acks ->
  zsum (voting_power c <$> ackers acks) + zsum (voting_power c <$> refusers acks) <= available c a /\
  0 <= zsum (voting_power c <$> refusers acks).
Proof.
  intros Hok. destruct (verify_batch_loop c Hwf a Ha acks Hok) as [_ Ht].
  pose proof (stakes_nonneg _ (to_plain _ _ Ht)) as (H1 & H2 & H3). pose proof (to_available _ _ Ht) as H4. simpl in H4.
  rewrite results_acked, results_refused in *. lia.
Qed.

(** The quorum waiter is exact. On answers of distinct peers it accepts the
    batch exactly when the members that acknowledged it make a quorum together
    with this node, in whatever order the answers come; a rejection is
    permanent, since no answers of the other members can make a quorum any more;
    and a timeout is reported only while answers are outstanding. *)
Theorem quorum_waiter_exact acks :
  authority_voting_power a < quorum_threshold c -> acks_ok acks ->
  (verify_batch c a acks = Ret tt <-> reached_quorum c (stake_of c (acked_members acks)) = true) /\
  match verify_batch c a acks with
  | Ret _ | Err AntiQuorum => True
  | Err QuorumRejected =>
      forall acks', acks_ok acks' -> refusers acks ⊆+ refusers acks' -> verify_batch c a acks' <> Ret tt
  | Err QuorumTimeout => length (others_keys_except c (protocol_key a)) <> length acks
  | _ => False
  end.
Proof.
  intros Hown Hok. destruct (verify_batch_loop c Hwf a Ha acks Hok) as [Heq Ht].
  destruct (answered_available acks Hok) as [Hav Hr0]. split.
  - split; [intros Hv; by apply Z.leb_le, verify_batch_Ret|]. intros Hq%Z.leb_le.
    rewrite acked_members_stake in Hq by done. rewrite Heq.
    apply quorum_loop_complete; simpl; [done|done|by rewrite results_acked|].
    rewrite results_refused. unfold sat_sub. lia.
  - pose proof (quorum_loop_cases (quorum_threshold c)
      (sat_sub (available c a + authority_voting_power a) (quorum_threshold c))
      (bool_decide (length (others_keys_except c (protocol_key a)) = length acks)) _ _ Ht) as Hc.
    rewrite <-Heq in Hc. destruct (verify_batch c a acks) as [|[]| |]; try done.
    + intros acks' Hok' Hsub Hv. apply verify_batch_Ret in Hv; [|done]. rewrite acked_members_stake in Hv by done.
      destruct (answered_available acks' Hok') as [Hav' _]. rewrite results_refused in Hc. simpl in Hc.
      assert (zsum (voting_power c <$> refusers acks) <= zsum (voting_power c <$> refusers acks')).
      { apply zsum_submseteq; [by apply fmap_submseteq|].
        apply Forall_fmap, Forall_forall. intros x _. by apply voting_power_nonneg. }
      unfold sat_sub in Hc. lia.
    + by apply bool_decide_eq_false in Hc.
Qed.
End decide.

(** ** Availability *)
Section available.
Context `{!BatchCodec, !ForkConditionApi} (spec : ChainSpec).
Context (c : Committee) (Hwf : committee_wf c).
Context (a : Authority) (Ha : authorities_map c !! protocol_key a = Some a).

(** What the node learns from a peer that handles its report with the code of
    the worker. *)
Definition handler_ack (s : SealedBatch) (mo : Moment) (w : WorkerState) : WorkerState * Ack :=
  let '(w', r) := process_report_batch spec c (protocol_key a) s mo w in
  (w', Some (report_batch (match report_response r with
                           | Some (response, _) => Ret response
                           | None => Err OtherNetworkError
                           end))).

Lemma report_stored s mo w w' :
  process_report_batch spec c (protocol_key a) s mo w = (w', Ret tt) ->
  exists b, wk_batches w' !! sb_digest s = Some b /\ batch_hash b = sb_digest s.
Proof.
  unfold process_report_batch. intros Hr.
  apply st_bind_Ret in Hr as (u1 & w1 & _ & Hr). apply st_bind_Ret in Hr as (u2 & w2 & Hv & Hr).
  apply st_bind_Ret in Hr as (u3 & w3 & Hi & Hr). apply st_bind_Ret in Hr as (u4 & w4 & He & Hr).
  unfold insert_batch in Hi. destruct (mo_written mo); [|done]. injection Hi as <- _.
  unfold st_ensure in He. destruct (mo_acknowledged mo); [|done]. injection He as <- _. injection Hr as <-.
  exists (set_received_at (sb_batch s) (mo_now mo)). split; [apply lookup_insert_eq|].
  rewrite batch_hash_received. revert Hv. unfold validate, validate_batch.
  destruct (_ =? _) eqn:Hd; [|done]. by apply Z.eqb_eq in Hd.
Qed.

Lemma handler_ack_stored s mo w w' :
  handler_ack s mo w = (w', Some (Ret tt)) ->
  exists b, wk_batches w' !! sb_digest s = Some b /\ batch_hash b = sb_digest s.
Proof.
  unfold handler_ack. destruct (process_report_batch _ _ _ _ _ _) as [w1 [u|e| |]] eqn:Hr; simpl; intros [= <-].
  destruct u. by eapply report_stored.
Qed.

(** C18: A batch that was sealed is available. When the node seals a batch and the
    answers of the honest members come from the handler of their workers, or were
    lost, the batch is in the store of an honest member of every quorum, under
    its digest: whoever certifies a header that names the batch, some honest
    member among them can serve it, with the faulty members of any set within the
    tolerance. *)
Theorem sealed_batch_available s env w w' (before after : BlsPublicKey -> WorkerState) F X :
  0 < total_power c -> acks_ok c a (se_acks env) ->
  stake_of c F <= max_faulty c -> reached_quorum c (stake_of c X) = true ->
  (forall k, (k, Some (Ret tt)) ∈ se_acks env -> id_of c k ∉ F ->
     exists mo, handler_ack s mo (before k) = (after k, Some (Ret tt))) ->
  seal c (Some a) s env w = (w', Ret tt) ->
  exists i, i ∈ X /\ i ∉ F /\
    ((i = id a /\ wk_batches w' !! sb_digest s = Some (sb_batch s)) \/
     exists k b, id_of c k = i /\ wk_batches (after k) !! sb_digest s = Some b /\ batch_hash b = sb_digest s).
Proof.
  intros Hpos Hok HF HX Hhon Hseal. unfold seal in Hseal. destruct (se_joined env); [|done].
  destruct (verify_batch c a (se_acks env)) as [[]|e| |] eqn:Hv; [|done..].
  apply (verify_batch_Ret c Hwf a Ha) in Hv; [|done]. apply Z.leb_le in HX.
  destruct (quorums_share_honest c _ X Hwf Hpos Hv HX) as [_ Hshare].
  destruct (Hshare F HF) as (i & Hi & HiX & HiF). exists i. split_and!; [done|done|].
  unfold acked_members in Hi. rewrite elem_of_list_to_set in Hi. apply list_elem_of_fmap in Hi as (k & -> & Hk).
  apply elem_of_cons in Hk as [->|Hk].
  - left. unfold id_of. rewrite Ha. split; [done|].
    apply st_bind_Ret in Hseal as (u1 & w1 & Hi & Hr). apply st_bind_Ret in Hr as (u2 & w2 & Hp & Hr).
    apply st_bind_Ret in Hr as (u3 & w3 & He & Hr). unfold insert_batch in Hi.
    destruct (mo_written _); [|done]. injection Hi as <- _.
    unfold st_ensure in He. destruct (mo_acknowledged _); [|done]. injection He as <- _. injection Hr as <-.
    destruct (se_published env); injection Hp as <- _; apply lookup_insert_eq.
  - right. unfold ackers in Hk. apply list_elem_of_fmap in Hk as ([k' r] & -> & Hin).
    apply list_elem_of_In, filter_In in Hin as [Hin Hr]. apply list_elem_of_In in Hin. simpl in *.
    destruct r as [[[]|e| |]|]; try done. destruct (Hhon k' Hin HiF) as (mo & Hmo).
    destruct (handler_ack_stored _ _ _ _ Hmo) as (b & Hb & Hh). by exists k', b.
Qed.
End available.

(** ** Examples *)

Module SealExamples.
Import WorkerExamples.

Definition node : Authority := default (Authority_new (H := example_crypto) 1 1 1) (authorities_map example_committee !! 1).
Lemma node_member : authorities_map example_committee !! protocol_key node = Some node.
Proof. vm_compute. reflexivity. Qed.

(** One of the three peers refuses. *)
Definition acks : list (BlsPublicKey * Ack) :=
  [(2, Some (Ret tt)); (3, Some (Err RPCError)); (4, Some (Ret tt))].
Lemma example_acks : acks_ok example_committee node acks.
Proof.
  split; [by apply (bool_decide_unpack _); vm_compute|]. intros k Hk. apply elem_of_peers; [apply example_committee_wf|].
  simpl in Hk. repeat (apply elem_of_cons in Hk as [->|Hk]; [by split; [apply elem_of_dom; vm_compute; eauto|vm_compute]|]).
  by apply not_elem_of_nil in Hk.
Qed.

Lemma quorum_waiter_exact_witness :
  ((verify_batch example_committee node acks = Ret tt <->
    reached_quorum example_committee (stake_of example_committee (acked_members example_committee node acks)) = true) /\
   match verify_batch example_committee node acks with
   | Ret _ | Err AntiQuorum => True
   | Err QuorumRejected =>
       forall acks', acks_ok example_committee node acks' -> refusers acks ⊆+ refusers acks' ->
         verify_batch example_committee node acks' <> Ret tt
   | Err QuorumTimeout => length (others_keys_except example_committee (protocol_key node)) <> length acks
   | _ => False
   end) /\ verify_batch example_committee node acks = Ret tt.
Proof.
  split; [|vm_compute; reflexivity].
  refine (quorum_waiter_exact example_committee example_committee_wf node node_member acks _ example_acks).
  vm_compute. reflexivity.
Defined.

(** Member 4 is faulty and did not store what it acknowledged. *)
Definition sealing : SealEnv :=
  {| se_acks := acks; se_joined := true; se_published := true; se_moment := moment |}.
Definition stored (k : BlsPublicKey) : WorkerState :=
  if k =? 4 then worker0 else (handler_ack example_spec example_committee node sealed_batch moment worker0).1.

Lemma sealed_batch_available_witness :
  let w' := (seal example_committee (Some node) sealed_batch sealing worker0).1 in
  exists i, i ∈ ({[2; 3; 4]} : gset AuthorityIdentifier) /\ i ∉ ({[4]} : gset AuthorityIdentifier) /\
    ((i = id node /\ wk_batches w' !! sb_digest sealed_batch = Some (sb_batch sealed_batch)) \/
     exists k b, id_of example_committee k = i /\ wk_batches (stored k) !! sb_digest sealed_batch = Some b /\
       batch_hash b = sb_digest sealed_batch).
Proof.
  refine (sealed_batch_available example_spec example_committee example_committee_wf node node_member sealed_batch sealing
    worker0 _ (fun _ => worker0) stored {[4]} {[2; 3; 4]} _ example_acks _ _ _ _).
  - vm_compute. reflexivity.
  - vm_compute. discriminate.
  - vm_compute. reflexivity.
  - intros k Hk HF. exists moment. simpl in Hk.
    repeat (apply elem_of_cons in Hk as [Hk|Hk]; [try discriminate Hk; injection Hk as ->|]).
    + vm_compute. reflexivity.
    + destruct HF. apply elem_of_singleton. vm_compute. reflexivity.
    + by apply not_elem_of_nil in Hk.
  - vm_compute. reflexivity.
Defined.
End SealExamples.
