(* ===== verification/BatchBuilderProps.v ===== *)
(** * Building and sealing batches in order

    A built batch is one that peers accept and leaves no gap in the nonces of a
    sender; along any run of the builder the batches handed to the primary carry
    consecutive sequence numbers, stay within the budget ahead of execution, and
    seal no transaction twice. *)
From S2P Require Import Prelude Lists State Types Committee Hardforks BatchOrdering InFlight Engine.
From S2P Require Import EngineBlocks BatchValidator Worker Sealing BatchBuilder WorkerProps SealingProps.
#[local] Open Scope Z_scope.

(** ** A snapshot as the list of its transactions *)

#[export] Instance list_best : BestTransactions (list PoolTxn) := {|
  best_next l := match l with [] => None | t :: l => Some (t, l) end;
  mark_invalid l t := filter (fun u => pt_sender u <> pt_sender t) l;
  pending l := l
|}.

#[export] Instance list_best_ok : BestTransactionsOk (list PoolTxn).
Proof. split; [by intros []|intros [|t l] t' l' [=]; by subst|done]. Qed.

Section build.
Context {It : Type} `{!BestTransactions It, !BestTransactionsOk It}.
Context (is_in_flight : TxHash -> bool) (max_size gas_limit : Z).
Implicit Types (L sel : list PoolTxn) (s : Selection).

Lemma build_step_list {E} t (it : It) s :
  match build_step is_in_flight max_size gas_limit (E := E) t it s,
        build_step is_in_flight max_size gas_limit (E := E) t (pending it) s with
  | Ret (it', s1), Ret (L, s2) => pending it' = L /\ s1 = s2
  | Err e1, Err e2 => e1 = e2
  | Panic, Panic | Diverge, Diverge => True
  | _, _ => False
  end.
Proof.
  unfold build_step. destruct (is_in_flight _); [done|].
  destruct (uadd u64_max (selected_gas s) (pt_gas_limit t)) as [gas|e| |]; cbn; try done.
  destruct (gas_limit <? gas); [by rewrite (invalid_pending it t)|].
  destruct (pt_is_eip4844 t); [by rewrite (invalid_pending it t)|].
  destruct (uadd _ _ _) as [bytes|e| |]; cbn; try done.
  destruct (max_size <? bytes); [by rewrite (invalid_pending it t)|done].
Qed.

Lemma build_loop_list {E} fuel (it : It) s :
  build_loop is_in_flight max_size gas_limit (E := E) fuel it s =
  build_loop is_in_flight max_size gas_limit fuel (pending it) s.
Proof.
  revert it s. induction fuel as [|fuel IH]; intros it s; simpl.
  - destruct (best_next it) as [[t it']|] eqn:Hn; [by rewrite (next_some _ _ _ Hn)|by rewrite (next_none _ Hn)].
  - destruct (best_next it) as [[t it']|] eqn:Hn; [rewrite (next_some _ _ _ Hn)|by rewrite (next_none _ Hn)].
    pose proof (build_step_list (E := E) t it' s) as Hs.
    destruct (build_step is_in_flight max_size gas_limit t it' s) as [[it2 s2]|e| |];
      destruct (build_step is_in_flight max_size gas_limit t (pending it') s) as [[L2 s2']|e'| |]; try done; cbn.
    + destruct Hs as [<- <-]. apply IH.
    + by rewrite Hs.
Qed.

(** The selection as one pass over the snapshot, with the senders that were
    marked invalid. *)
#[local] Instance invalid_senders : BestTransactions (gset Address) := {|
  best_next _ := None;
  mark_invalid bad t := {[pt_sender t]} ∪ bad;
  pending _ := []
|}.

Fixpoint select_all {E} (bad : gset Address) L s : Exec E Selection :=
  match L with
  | [] => Ret s
  | t :: L =>
      if bool_decide (pt_sender t ∈ bad) then select_all bad L s
      else '(bad, s) ← build_step is_in_flight max_size gas_limit t bad s; select_all bad L s
  end.

Lemma build_step_senders {E} t L (bad : gset Address) s :
  match build_step is_in_flight max_size gas_limit (E := E) t (filter (fun u => pt_sender u ∉ bad) L) s,
        build_step is_in_flight max_size gas_limit (E := E) t bad s with
  | Ret (L', s1), Ret (bad', s2) => L' = filter (fun u => pt_sender u ∉ bad') L /\ s1 = s2
  | Err e1, Err e2 => e1 = e2
  | Panic, Panic | Diverge, Diverge => True
  | _, _ => False
  end.
Proof.
  assert (Hf : filter (fun u => pt_sender u <> pt_sender t) (filter (fun u => pt_sender u ∉ bad) L) =
    filter (fun u => pt_sender u ∉ {[pt_sender t]} ∪ bad) L).
  { rewrite list_filter_filter. apply list_filter_iff. intros u. set_solver. }
  unfold build_step. destruct (is_in_flight _); [done|].
  destruct (uadd u64_max (selected_gas s) (pt_gas_limit t)) as [gas|e| |]; cbn; try done.
  destruct (gas_limit <? gas); [done|]. destruct (pt_is_eip4844 t); [done|].
  destruct (uadd _ _ _) as [bytes|e| |]; cbn; try done. by destruct (max_size <? bytes).
Qed.

Lemma build_loop_select {E} fuel (bad : gset Address) L s :
  (length (filter (fun u => pt_sender u ∉ bad) L) <= fuel)%nat ->
  build_loop is_in_flight max_size gas_limit (E := E) fuel (filter (fun u => pt_sender u ∉ bad) L) s =
  select_all bad L s.
Proof.
  revert fuel bad s. induction L as [|t L IH]; intros fuel bad s Hlen.
  { by destruct fuel. }
  simpl. case_bool_decide as Hb; rewrite filter_cons in *.
  - rewrite decide_False in * by tauto. by apply IH.
  - rewrite decide_True in * by done. destruct fuel as [|fuel]; simpl in Hlen; [lia|]. simpl.
    pose proof (build_step_senders (E := E) t L bad s) as Hs.
    destruct (build_step is_in_flight max_size gas_limit t (filter _ L) s) as [[L2 s2]|e| |];
      destruct (build_step is_in_flight max_size gas_limit t bad s) as [[bad2 s2']|e'| |] eqn:Hst; try done; cbn.
    + destruct Hs as [-> ->]. apply IH. enough (length (filter (fun u => pt_sender u ∉ bad2) L) <=
        length (filter (fun u => pt_sender u ∉ bad) L))%nat by lia.
      apply sublist_length. assert (bad ⊆ bad2) as Hsub.
      { revert Hst. unfold build_step. destruct (is_in_flight _); [intros ?; by simplify_eq|].
        destruct (uadd u64_max (selected_gas s) (pt_gas_limit t)) as [gas| | |]; cbn; try done.
        destruct (gas_limit <? gas); [intros ?; simplify_eq; set_solver|].
        destruct (pt_is_eip4844 t); [intros ?; simplify_eq; set_solver|].
        destruct (uadd _ _ _); cbn; try done. destruct (_ <? _); intros ?; simplify_eq; set_solver. }
      clear -Hsub. induction L as [|u L IH]; [constructor|]. rewrite !filter_cons.
      repeat case_decide; try constructor; try done. set_solver.
    + by rewrite Hs.
Qed.

(** What has been selected of the transactions seen so far. *)
Record selection_ok (seen : list PoolTxn) s (sel : list PoolTxn) : Prop := {
  so_txs : selected_txs s = pt_encoded <$> sel;
  so_mined : mined_transactions s = pt_hash <$> sel;
  so_gas : selected_gas s = zsum (pt_gas_limit <$> sel);
  so_bytes : total_bytes_size s = zsum (pt_size <$> sel);
  so_gas_limit : 0 <= selected_gas s <= gas_limit;
  so_max : 0 <= total_bytes_size s <= max_size;
  so_sub : sel `sublist_of` seen;
  so_fresh : Forall (fun t => is_in_flight (pt_hash t) = false /\ pt_is_eip4844 t = false) sel
}.

(** The transactions of a pool: limits and sizes of their types, and room above
    the limits of the batch. *)
Definition pool_ok L : Prop :=
  0 <= gas_limit /\ 0 <= max_size /\
  Forall (fun t => 0 <= pt_gas_limit t /\ gas_limit + pt_gas_limit t <= u64_max /\
                   0 <= pt_size t /\ max_size + pt_size t <= u64_max) L.

(** Before a selected transaction, what its sender has in the snapshot is
    selected or in flight. *)
Definition covered (u : PoolTxn) sel : Prop := u ∈ sel \/ is_in_flight (pt_hash u) = true.
Definition no_gap (seen : list PoolTxn) (sel : list PoolTxn) : Prop :=
  forall l1 t l2, seen = l1 ++ t :: l2 -> t ∈ sel -> forall u,
  u ∈ l1 -> pt_sender u = pt_sender t -> covered u sel.

Lemma covered_app u sel t : covered u sel -> covered u (sel ++ t).
Proof. unfold covered. set_solver. Qed.

Lemma no_gap_snoc seen sel t :
  t ∉ seen -> sel ⊆ seen -> no_gap seen sel -> no_gap (seen ++ [t]) sel.
Proof.
  intros Ht Hsub Hg l1 x l2 Heq Hx u Hu Hs. destruct l2 as [|y l2 _] using rev_ind.
  - apply app_inj_tail in Heq as [-> ->]. set_solver.
  - rewrite app_comm_cons, app_assoc in Heq. apply app_inj_tail in Heq as [-> _]. by eapply Hg.
Qed.

Lemma no_gap_select seen sel t :
  t ∉ seen -> no_gap seen sel -> (forall u, u ∈ seen -> pt_sender u = pt_sender t -> covered u sel) ->
  no_gap (seen ++ [t]) (sel ++ [t]).
Proof.
  intros Ht Hg Hc l1 x l2 Heq Hx u Hu Hs. apply covered_app. destruct l2 as [|y l2 _] using rev_ind.
  - apply app_inj_tail in Heq as [<- <-]. by apply Hc.
  - rewrite app_comm_cons, app_assoc in Heq. apply app_inj_tail in Heq as [-> <-].
    apply elem_of_app in Hx as [Hx|Hx]; [by eapply Hg|]. apply list_elem_of_singleton in Hx. set_solver.
Qed.

(** One transaction. *)
Lemma selection_skip seen s sel t s' :
  selection_ok seen s sel -> selected_txs s' = selected_txs s -> mined_transactions s' = mined_transactions s ->
  selected_gas s' = selected_gas s -> total_bytes_size s' = total_bytes_size s ->
  selection_ok (seen ++ [t]) s' sel.
Proof.
  intros [] H1 H2 H3 H4. split; rewrite ?H1, ?H2, ?H3, ?H4; try done. by apply sublist_inserts_r.
Qed.

Lemma selection_add seen s sel t :
  selection_ok seen s sel -> is_in_flight (pt_hash t) = false -> pt_is_eip4844 t = false ->
  0 <= pt_gas_limit t -> selected_gas s + pt_gas_limit t <= gas_limit ->
  0 <= pt_size t -> total_bytes_size s + pt_size t <= max_size ->
  selection_ok (seen ++ [t]) (select_tx s t (selected_gas s + pt_gas_limit t) (total_bytes_size s + pt_size t)) (sel ++ [t]).
Proof.
  intros [] Hf Hb Hg0 Hg Hs0 Hs. split; simpl; rewrite ?fmap_app, ?zsum_app; simpl; try (unfold zsum in *; simpl; lia).
  - by rewrite so_txs0.
  - by rewrite so_mined0.
  - by apply sublist_app.
  - apply Forall_app. split; [done|]. by constructor.
Qed.

Lemma select_all_ok {E} (bad : gset Address) seen L s sel :
  pool_ok L -> NoDup (seen ++ L) -> selection_ok seen s sel -> no_gap seen sel ->
  (forall u, u ∈ seen -> pt_sender u ∉ bad -> covered u sel) ->
  exists s' sel', select_all (E := E) bad L s = Ret s' /\ selection_ok (seen ++ L) s' sel' /\ no_gap (seen ++ L) sel'.
Proof.
  intros (Hg0 & Hm0 & Hpool). revert bad seen s sel.
  induction Hpool as [|t L (Ht1 & Ht2 & Ht3 & Ht4) _ IH]; intros bad seen s sel Hnd Hsel Hgap Hcov.
  { exists s, sel. by rewrite app_nil_r. }
  assert (Htn : t ∉ seen).
  { apply NoDup_app in Hnd as (_ & Hd & _). intros Hin. apply (Hd t Hin). left. }
  assert (Hsub : sel ⊆ seen) by (intros x Hx; eapply elem_of_submseteq; [exact Hx|]; apply sublist_submseteq, (so_sub _ _ _ Hsel)).
  replace (seen ++ t :: L) with ((seen ++ [t]) ++ L) in * by (by rewrite <-app_assoc).
  assert (Hskip : forall bad' s', selected_txs s' = selected_txs s -> mined_transactions s' = mined_transactions s ->
    selected_gas s' = selected_gas s -> total_bytes_size s' = total_bytes_size s -> bad ⊆ bad' ->
    (pt_sender t ∈ bad' \/ is_in_flight (pt_hash t) = true) ->
    exists s'' sel', select_all (E := E) bad' L s' = Ret s'' /\ selection_ok ((seen ++ [t]) ++ L) s'' sel' /\
      no_gap ((seen ++ [t]) ++ L) sel').
  { intros bad' s' H1 H2 H3 H4 Hbad Ht. eapply IH; [done|by eapply selection_skip|by apply no_gap_snoc|].
    intros u Hu Hb. apply elem_of_app in Hu as [Hu|Hu]; [by apply Hcov; set_solver|].
    apply list_elem_of_singleton in Hu as ->. destruct Ht; [done|by right]. }
  simpl. case_bool_decide as Hb; [by apply Hskip; auto|]. unfold build_step.
  destruct (is_in_flight (pt_hash t)) eqn:Hfl; [by apply Hskip; auto|].
  rewrite (uadd_ok u64_max (selected_gas s)) by (pose proof (so_gas_limit _ _ _ Hsel); lia). cbn.
  destruct (gas_limit <? _) eqn:Hgl; [cbn; apply Hskip; try done; set_solver|]. apply Z.ltb_ge in Hgl.
  destruct (pt_is_eip4844 t) eqn:H4; [cbn; apply Hskip; try done; set_solver|].
  rewrite uadd_ok by (pose proof (so_max _ _ _ Hsel); lia). cbn.
  destruct (max_size <? _) eqn:Hms; [cbn; apply Hskip; try done; set_solver|]. apply Z.ltb_ge in Hms. cbn.
  eapply IH; [done|by apply selection_add|apply no_gap_select; [done|done|]|].
  - intros u Hu Hs. apply Hcov; [done|]. by rewrite Hs.
  - intros u Hu Hb'. apply elem_of_app in Hu as [Hu|Hu]; [by apply covered_app, Hcov|].
    apply list_elem_of_singleton in Hu as ->. left. set_solver.
Qed.
End build.

(** ** Built batches *)
Section built.
Context {It : Type} `{!BestTransactions It, !BestTransactionsOk It, !BatchCodec, !ForkConditionApi}.
Context (spec : ChainSpec) (cfg : BatchBuilderConfig).
Abbreviation max_size := (max_batch_size (bc_epoch cfg)).

Lemma build_batch_ok {E} n is_in_flight (it : It) :
  pool_ok max_size (bc_gas_limit cfg) (pending it) -> NoDup (pending it) ->
  exists s sel, build_batch (E := E) cfg n is_in_flight it =
    Ret ({| transactions := pt_encoded <$> sel; b_epoch := bc_epoch cfg; b_beneficiary := bc_address cfg;
            base_fee_per_gas := bc_base_fee cfg; b_worker_id := bc_worker_id cfg;
            BatchOrdering.seq := n; received_at := None |}, s) /\
    selection_ok is_in_flight max_size (bc_gas_limit cfg) (pending it) s sel /\
    no_gap is_in_flight (pending it) sel.
Proof.
  intros Hp Hnd. unfold build_batch. rewrite build_loop_list.
  pose proof (build_loop_select is_in_flight max_size (bc_gas_limit cfg) (E := E) (length (pending it)) ∅ (pending it)
    Selection_new) as Hb. rewrite !filter_Forall_id in Hb by (apply Forall_forall; set_solver). rewrite Hb by done.
  destruct (select_all_ok is_in_flight max_size (bc_gas_limit cfg) (E := E) ∅ [] (pending it) Selection_new [])
    as (s & sel & -> & Hsel & Hgap); [done|done| |by intros [] ? ? ?|by intros ? ?%not_elem_of_nil|].
  { destruct Hp as (? & ? & _). by split; simpl; unfold zsum; simpl. }
  exists s, sel. cbn. rewrite (so_txs _ _ _ _ _ _ Hsel). done.
Qed.

(** The codec on the transactions of a pool: an encoded transaction decodes to
    itself. *)
Definition codec_ok (L : list PoolTxn) : Prop :=
  Forall (fun t => recover_signed_transaction (pt_encoded t) =
                     Some {| ts_gas_limit := pt_gas_limit t; ts_is_eip4844 := pt_is_eip4844 t; ts_hash := pt_hash t |}) L.

(** The pool yields the transactions of a sender in the order of their nonces. *)
Definition nonces_ordered (L : list PoolTxn) : Prop :=
  forall l1 t l2 u, L = l1 ++ t :: l2 -> u ∈ l2 -> pt_sender u = pt_sender t -> pt_nonce t < pt_nonce u.

Lemma no_nonce_gap is_in_flight L sel t u :
  nonces_ordered L -> no_gap is_in_flight L sel -> sel `sublist_of` L -> t ∈ sel -> u ∈ L ->
  pt_sender u = pt_sender t -> pt_nonce u < pt_nonce t -> covered is_in_flight u sel.
Proof.
  intros Ho Hg Hsub Ht Hu Hs Hn.
  assert (t ∈ L) as (l1 & l2 & HL)%list_elem_of_split
    by (eapply elem_of_submseteq; [exact Ht|by apply sublist_submseteq]).
  rewrite HL in Hu. apply elem_of_app in Hu as [Hu|[->|Hu]%elem_of_cons].
  - by eapply Hg.
  - lia.
  - pose proof (Ho l1 t l2 u HL Hu Hs). lia.
Qed.

Definition signed_of (t : PoolTxn) : TransactionSigned :=
  {| ts_gas_limit := pt_gas_limit t; ts_is_eip4844 := pt_is_eip4844 t; ts_hash := pt_hash t |}.

Lemma total_possible_gas_ok acc sel :
  0 <= acc -> Forall (fun t => 0 <= pt_gas_limit t) sel ->
  acc + zsum (pt_gas_limit <$> sel) <= u64_max ->
  total_possible_gas acc (signed_of <$> sel) = Ret (acc + zsum (pt_gas_limit <$> sel)).
Proof.
  intros Hacc Hsel. revert acc Hacc. induction Hsel as [|t sel Ht Hsel IH]; intros acc Hacc Hle.
  { simpl. unfold zsum. simpl. by rewrite Z.add_0_r. }
  rewrite !fmap_cons, zsum_cons in *. simpl.
  assert (0 <= zsum (pt_gas_limit <$> sel)) by (by apply zsum_nonneg, Forall_fmap).
  unfold checked_add. rewrite (proj2 (Z.leb_le _ _)) by lia. rewrite IH by lia. f_equal. lia.
Qed.

(** What the checks of a peer after the size and the encoding say of a
    selection. *)
Lemma selection_checked seen s sel is_in_flight v tip :
  selection_ok is_in_flight max_size (bc_gas_limit cfg) seen s sel -> Forall (fun t => 0 <= pt_gas_limit t) sel ->
  bc_gas_limit cfg <= u64_max -> 0 <= tip < u64_max ->
  bv_gas_limit v = bc_gas_limit cfg -> bv_base_fee v = bc_base_fee cfg ->
  validate_no_blob_txs (signed_of <$> sel) = Ret tt /\
  total_possible_gas 0 (signed_of <$> sel) = Ret (zsum (pt_gas_limit <$> sel)) /\
  (bv_gas_limit v <? zsum (pt_gas_limit <$> sel)) = false.
Proof.
  intros Hsel Hgs Hgl Htip Hg Hb. pose proof (so_gas_limit _ _ _ _ _ _ Hsel) as Hgx.
  rewrite (so_gas _ _ _ _ _ _ Hsel) in Hgx. split_and!.
  - unfold validate_no_blob_txs. destruct (List.find _ _) as [x|] eqn:Hf; [|done].
    apply find_Some_first in Hf as [(t & -> & Ht)%list_elem_of_fmap Hx]. pose proof (so_fresh _ _ _ _ _ _ Hsel) as Hfr.
    rewrite Forall_forall in Hfr. destruct (Hfr t Ht) as [_ Hn]. simpl in Hx. congruence.
  - by rewrite total_possible_gas_ok by (try done; lia).
  - rewrite Hg. apply Z.ltb_ge. lia.
Qed.

(** C23: What the builder builds. For whatever the pool offers, in whatever
    order, building returns. A peer of the same worker id, epoch, gas limit and
    base fee, at any tip, gives to a batch with a transaction in it exactly this
    verdict: accepted when the encoded transactions fit in the maximal size of a
    batch or the peer remembers having validated this batch, otherwise too
    large. (The builder counts the size of a transaction in
    memory and the peer the encoded bytes; nothing ties the two.) And where the
    pool yields the transactions of a sender by nonce, the batch leaves no gap:
    each transaction of the sender with a lower nonce than a selected one is
    selected or in flight. The limits leave room for one transaction in [u64],
    and a transaction of the pool decodes to itself. *)
Theorem built_batch_accepted n is_in_flight (it : It) v tip now :
  pool_ok max_size (bc_gas_limit cfg) (pending it) -> NoDup (pending it) -> codec_ok (pending it) ->
  nonces_ordered (pending it) -> bc_gas_limit cfg <= u64_max -> 0 <= tip < u64_max ->
  bv_worker_id v = bc_worker_id cfg -> bv_epoch v = bc_epoch cfg ->
  bv_gas_limit v = bc_gas_limit cfg -> bv_base_fee v = bc_base_fee cfg ->
  exists b s sel, build_batch (E := NoErr) cfg n is_in_flight it = Ret (b, s) /\
    transactions b = pt_encoded <$> sel /\ sel `sublist_of` pending it /\
    (forall t u, t ∈ sel -> u ∈ pending it -> pt_sender u = pt_sender t -> pt_nonce u < pt_nonce t ->
       u ∈ sel \/ is_in_flight (pt_hash u) = true) /\
    (sel <> [] ->
     let bytes := txs_bytes (pt_encoded <$> sel) in
     (validate_batch spec tip now (seal_slow b) v).2 =
       if (max_size <? bytes) && negb (bool_decide (is_Some (validated_batches v !! batch_hash b)))
       then Err (HeaderTransactionBytesExceedsMax bytes) else Ret tt).
Proof.
  intros Hp Hnd Hco Hord Hgl Htip Hw He Hg Hb.
  destruct (build_batch_ok (E := NoErr) n is_in_flight it Hp Hnd) as (s & sel & Hr & Hsel & Hgap).
  pose proof (so_sub _ _ _ _ _ _ Hsel) as Hsub.
  eexists _, s, sel. split; [exact Hr|]. split_and!; [done|done|by intros; eapply no_nonce_gap|]. intros Hne bytes.
  assert (Hin : forall t, t ∈ sel -> t ∈ pending it)
    by (intros t Ht; eapply elem_of_submseteq; [exact Ht|by apply sublist_submseteq]).
  assert (Hgs : Forall (fun t => 0 <= pt_gas_limit t) sel).
  { destruct Hp as (_ & _ & Hp). rewrite Forall_forall in *. intros t Ht. by apply Hp, Hin. }
  assert (Hdec : forall d, decode_transactions (pt_encoded <$> sel) d = Ret (signed_of <$> sel)).
  { intros d. apply exec_map_Ret. unfold codec_ok in Hco. rewrite Forall_forall in Hco.
    apply Forall2_fmap_2. apply Forall_Forall2_diag, Forall_forall. intros t Ht. unfold recover_and_validate.
    by rewrite (Hco t (Hin t Ht)). }
  destruct (selection_checked _ _ _ _ v tip Hsel Hgs Hgl Htip Hg Hb) as (Hblob & Hgas & Hlim).
  unfold validate_batch, seal_slow. cbn [sb_batch sb_digest b_worker_id b_epoch transactions base_fee_per_gas].
  rewrite Z.eqb_refl. cbn [negb]. destruct (bool_decide (is_Some _)); cbn [negb]; [by rewrite andb_false_r|].
  rewrite andb_true_r, Hw, He, !Z.eqb_refl. cbn [negb].
  assert (Hsz : validate_batch_size_bytes (pt_encoded <$> sel) (bc_epoch cfg) =
    if max_size <? bytes then Err (HeaderTransactionBytesExceedsMax bytes) else Ret tt) by (by destruct sel).
  rewrite Hsz. destruct (max_size <? bytes); [done|]. cbn [mbind exec_bind].
  rewrite Hdec. cbn [mbind exec_bind]. rewrite Hblob. cbn [mbind exec_bind]. unfold validate_batch_gas.
  rewrite Hgas. cbn [mbind exec_bind]. rewrite Hlim. cbn [mbind exec_bind].
  unfold validate_basefee. rewrite uadd_ok by lia. cbn [mbind exec_bind]. rewrite Hb, Z.eqb_refl. cbn [negb].
  by destruct (is_rayls_fork_active_at_block _ _ _).
Qed.
End built.

(** ** Runs of the builder *)
Section run.
Context {It : Type} `{!BestTransactions It, !BatchCodec, !ForkConditionApi}.
Context (committee : Committee) (a : Authority) (cfg : BatchBuilderConfig).
Context (start : Z) (own0 : list BlockHash) (Hstart : 0 <= start).
Abbreviation builder_step := (builder_step (It := It) committee (Some a) cfg).
Abbreviation builder_branch := (builder_branch (It := It) committee (Some a) cfg).
Implicit Types (b : Builder) (p : PipelineState) (l : list (SealedBatch * list TxHash)).

Abbreviation cur p := (current_seq (pl_data p)).
Abbreviation len l := (Z.of_nat (length l)).

(** The data of the pipeline: what is sealed ends right before the next
    number. *)
Definition data_ok (d : PipelineData) : Prop :=
  start_seq d = start /\ start <= current_seq d /\
  highest_durable_sealed_seq d = (if current_seq d =? 0 then None else Some (current_seq d - 1)).

(** The phase against the batches that the primary acknowledged, each with the
    transactions selected for it: the next number is the one after them, except
    while the news of the last one is on its way. *)
Definition phase_ok p l : Prop :=
  match pl_phase p with
  | AwaitingQuorum (Building n) _ => n = cur p /\ cur p = start + len l
  | AwaitingQuorum (Submitted s _ _) _ =>
      BatchOrdering.seq (sb_batch s) = cur p /\ s = seal_slow (sb_batch s) /\ cur p = start + len l
  | AwaitingQuorum (Resolved (Some (Ret (QuorumSucceeded sel _)))) _ =>
      exists l' s, l = l' ++ [(s, sel)] /\ cur p = start + len l'
  | AwaitingQuorum (Resolved (Some (Ret _))) _ => cur p = start + len l
  | AwaitingQuorum (Resolved _) _ => start + len l - 1 <= cur p
  | _ => cur p = start + len l
  end.

Definition pipe_ok p l : Prop := data_ok (pl_data p) /\ phase_ok p l.

(** The worker: the batches of the list are what it handed over, in sequence,
    and it stores them. *)
Record own_ok (w : WorkerState) l : Prop := {
  ow_own : wk_own w = own0 ++ ((fun x => sb_digest x.1) <$> l);
  ow_seqs : (fun x => BatchOrdering.seq (sb_batch x.1)) <$> l = seqZ start (len l);
  ow_slow : Forall (fun x => x.1 = seal_slow (sb_batch x.1)) l;
  ow_stored : Forall (fun x => exists y, wk_batches w !! sb_digest x.1 = Some y /\ batch_hash y = sb_digest x.1) l
}.

Definition builder_ok b l : Prop := pipe_ok (bb_pipeline b) l /\ own_ok (bb_worker b) l.

Lemma pipe_on_event p l : pipe_ok p l -> pipe_ok (on_event p) l.
Proof.
  intros [Hd Hp]. unfold on_event. destruct p as [[| | |task e|] d]; simpl in *; (split; [done|]); done.
Qed.
Lemma pipe_on_window p l : pipe_ok p l -> pipe_ok (on_window p) l.
Proof.
  intros [Hd Hp]. unfold on_window. destruct p as [[| | |task e|] d]; simpl in *; (split; [done|]); done.
Qed.
Lemma pipe_on_canonical p ts l : pipe_ok p l -> pipe_ok (on_canonical_update p ts) l.
Proof. by destruct p as [ph d]. Qed.
Lemma pipe_canonical_all p l (more : list TimestampSec) : pipe_ok p l -> pipe_ok (foldl on_canonical_update p more) l.
Proof. revert p. induction more as [|ts more IH]; intros p Hp; [done|]. by apply IH, pipe_on_canonical. Qed.
Lemma pipe_start b p l : pipe_ok p l -> pipe_ok (try_start_build cfg b p) l.
Proof.
  intros [Hd Hp]. unfold try_start_build. destruct p as [[| | |task e|] d]; simpl in *; try done;
    destruct (check_build_budget _ _ _); (split; [done|]); simpl; try done.
Qed.

Lemma loop_top_ok b l : builder_ok b l -> builder_ok (loop_top cfg b) l.
Proof.
  intros [Hp Ho]. unfold loop_top. destruct (bb_result b); [done|].
  destruct (_ <=? _); [done|]. split; [by apply pipe_start|done].
Qed.

(** The outcome of the task. *)
Lemma resolution_ok b l res e now :
  builder_ok b l -> pl_phase (bb_pipeline b) = AwaitingQuorum (Resolved res) e ->
  builder_ok (handle_quorum_resolution b res e now) l.
Proof.
  intros [[Hd Hp] Ho] Hph. unfold phase_ok in Hp. rewrite Hph in Hp. unfold handle_quorum_resolution.
  destruct res as [[[| |sel full]|err| |]|]; simpl.
  - by split; [split|].
  - by split; [split|].
  - destruct Hp as (l' & s & -> & Hc). destruct Hd as (Hs & Hle & Hh). unfold seal_advance, uadd.
    destruct (_ <=? _); cbn [mbind exec_bind].
    + split; [|done]. split; simpl.
      * unfold data_ok; simpl. split_and!; [done|lia|]. rewrite Hh. rewrite (proj2 (Z.eqb_neq (current_seq _ + 1) 0)) by lia.
        f_equal. destruct (current_seq _ =? 0); simpl; lia.
      * unfold sealed_phase. destruct full; [|destruct e]; unfold phase_ok; simpl;
          rewrite Hc, length_app; simpl; lia.
    + split; [|done]. split; [done|]. unfold phase_ok. simpl. rewrite Hph. eauto.
  - split; [|done]. split; [done|]. unfold phase_ok. simpl. by rewrite Hph.
  - split; [|done]. split; [done|]. unfold phase_ok. simpl. by rewrite Hph.
  - split; [|done]. split; [done|]. unfold phase_ok. simpl. by rewrite Hph.
  - split; [|done]. split; [done|]. unfold phase_ok. simpl. by rewrite Hph.
Qed.

Lemma task_builds_ok n marks_now (pool : It) :
  match task_builds cfg n marks_now pool with
  | Submitted s sel _ => BatchOrdering.seq (sb_batch s) = n /\ s = seal_slow (sb_batch s)
  | Resolved (Some (Ret NothingToSeal)) | Resolved (Some (Err _)) => True
  | _ => False
  end.
Proof.
  unfold task_builds, build_batch. destruct (build_loop _ _ _ _ _ _) as [s| | |]; cbn; try done. by case_bool_decide.
Qed.

(** Sealing hands over exactly when it succeeds. *)
Lemma seal_and_count_cases s env counted w w' res :
  seal_and_count committee (Some a) s env counted w = (w', res) ->
  match res with
  | Ret (Ret _) => wk_own w' = wk_own w ++ [sb_digest s] /\ wk_batches w' = <[sb_digest s := sb_batch s]> (wk_batches w)
  | Ret (Err _) => wk_own w' = wk_own w /\
             (wk_batches w' = wk_batches w \/ wk_batches w' = <[sb_digest s := sb_batch s]> (wk_batches w))
  | Ret _ => False
  | _ => w' = w
  end.
Proof.
  unfold seal_and_count. destruct (uadd _ _ _); [|by intros [= <- <-]..]. unfold seal.
  destruct (se_joined env); [|intros [= <- <-]; by auto].
  destruct (verify_batch _ _ _) as [u|e| |]; [|intros [= <- <-]; by auto..].
  unfold mbind, st_bind, insert_batch, st_ensure.
  destruct (mo_written (se_moment env)); [|intros [= <- <-]; by auto].
  destruct (se_published env), (mo_acknowledged (se_moment env)); simpl; intros [= <- <-]; destruct counted; simpl; auto;
    by rewrite ?app_nil_r; auto.
Qed.

Lemma own_kept w w' l :
  own_ok w l -> wk_own w' = wk_own w -> wk_batches w' = wk_batches w -> own_ok w' l.
Proof. intros [] Ho Hb. split; rewrite ?Ho, ?Hb; done. Qed.

Lemma own_inserted w w' l s :
  own_ok w l -> s = seal_slow (sb_batch s) -> wk_own w' = wk_own w ->
  wk_batches w' = <[sb_digest s := sb_batch s]> (wk_batches w) -> own_ok w' l.
Proof.
  intros [] Hs Ho Hb. split; rewrite ?Ho; try done. eapply Forall_impl; [exact ow_stored0|].
  intros x (y & Hy & Hh). rewrite Hb. destruct (decide (sb_digest x.1 = sb_digest s)) as [Heq|Hne].
  - rewrite Heq, lookup_insert_eq. eexists. split; [done|]. by rewrite Hs.
  - rewrite lookup_insert_ne by done. eauto.
Qed.

Lemma own_handed w w' l s sel :
  own_ok w l -> s = seal_slow (sb_batch s) -> BatchOrdering.seq (sb_batch s) = start + len l ->
  wk_own w' = wk_own w ++ [sb_digest s] ->
  wk_batches w' = <[sb_digest s := sb_batch s]> (wk_batches w) -> own_ok w' (l ++ [(s, sel)]).
Proof.
  intros Hok Hs Hseq Ho Hb.
  destruct (own_inserted w {| wk_batches := wk_batches w'; wk_counter := wk_counter w; wk_validator := wk_validator w;
    wk_others := wk_others w; wk_own := wk_own w; wk_published := wk_published w; wk_disbursed := wk_disbursed w;
    wk_admitted := wk_admitted w |} l s Hok Hs eq_refl Hb) as [_ _ _ Hst]. destruct Hok. split.
  - by rewrite Ho, ow_own0, fmap_app, app_assoc.
  - rewrite fmap_app, ow_seqs0, length_app, Nat2Z.inj_add, seqZ_app by lia. simpl. by rewrite Hseq.
  - apply Forall_app. split; [done|]. by constructor.
  - apply Forall_app. split; [done|]. constructor; [|constructor]. simpl. rewrite Hb, lookup_insert_eq.
    eexists. split; [done|]. by rewrite Hs.
Qed.

(** What an event hands over to the primary, with the transactions selected for
    it. *)
Definition handed b (ev : BuilderEvent It) : list (SealedBatch * list TxHash) :=
  match ev, pl_phase (bb_pipeline b) with
  | WorkerSeals env counted _, AwaitingQuorum (Submitted s sel _) _ =>
      match (seal_and_count committee (Some a) s env counted (bb_worker b)).2 with Ret (Ret _) => [(s, sel)] | _ => [] end
  | _, _ => []
  end.
Fixpoint handed_run b (evs : list (BuilderEvent It)) : list (SealedBatch * list TxHash) :=
  match evs with
  | [] => []
  | ev :: evs => (if turns b ev then handed b ev else []) ++ handed_run (builder_step b ev) evs
  end.

(** The worker seals the batch of the task. *)
Lemma worker_seals_ok b l s sel full e env counted answered :
  builder_ok b l -> pl_phase (bb_pipeline b) = AwaitingQuorum (Submitted s sel full) e ->
  let ev := WorkerSeals env counted answered in builder_ok (builder_branch b ev) (l ++ handed b ev).
Proof.
  intros [[Hd Hp] Ho] Hph. simpl. rewrite Hph. unfold phase_ok in Hp. rewrite Hph in Hp. destruct Hp as (Hseq & Hs & Hc).
  assert (Hpl : pipe_ok (bb_pipeline b) l) by (split; [done|]; unfold phase_ok; by rewrite Hph).
  destruct (seal_and_count _ _ _ _ _ _) as [w' res] eqn:Hseal. apply seal_and_count_cases in Hseal.
  destruct res as [[u|err| |]|[]| |]; try done.
  - destruct Hseal as [Hown Hb]. simpl. split; [split; [done|]|].
    + unfold phase_ok. simpl. destruct answered; simpl; [by exists l, s|]. rewrite length_app. simpl. lia.
    + eapply own_handed; try done. by rewrite Hseq, Hc.
  - destruct Hseal as [Hown Hb]. simpl. rewrite app_nil_r. split; [split; [done|]|].
    + unfold phase_ok. simpl. destruct answered; [|simpl; lia]. destruct err; simpl; lia.
    + simpl. destruct Hb as [Hb|Hb]; [by eapply own_kept|by eapply own_inserted].
  - subst w'. simpl. by rewrite app_nil_r.
  - subst w'. simpl. by rewrite app_nil_r.
Qed.

Lemma builder_branch_ok b ev l :
  builder_ok b l -> builder_ok (builder_branch b ev) (l ++ handed b ev).
Proof.
  intros Hb. pose proof Hb as [Hp Ho].
  destruct ev as [tip more|now| | | | |pool| |env counted answered|sent|x|op].
  9:{ destruct (pl_phase (bb_pipeline b)) as [| | |[|s sel full|] e|] eqn:Hph;
        try by (simpl; rewrite Hph, app_nil_r). by eapply worker_seals_ok. }
  all: simpl; rewrite app_nil_r.
  - assert (Hc : pipe_ok (foldl on_canonical_update (on_canonical_update (bb_pipeline b) tip) more) l)
      by (by apply pipe_canonical_all, pipe_on_canonical).
    destruct (is_awaiting_quorum _); [done|]. destruct (_ <=? _); [done|]. split; [|done].
    by apply pipe_start, pipe_on_event.
  - destruct (pl_phase (bb_pipeline b)) as [| | |[]|] eqn:Hph; try done. by apply resolution_ok.
  - destruct (is_awaiting_quorum _); [done|]. split; [by apply pipe_start|done].
  - split; [|done]. simpl. destruct (is_awaiting_quorum _); [by apply pipe_on_event|by apply pipe_start, pipe_on_event].
  - split; [|done]. simpl. destruct (is_awaiting_quorum _); [by apply pipe_on_event|by apply pipe_start, pipe_on_event].
  - destruct (is_awaiting_quorum _); [done|]. split; [by apply pipe_start, pipe_on_window|done].
  - destruct (pl_phase (bb_pipeline b)) as [| | |[n| |] e|] eqn:Hph; try done. split; [|done].
    destruct Hp as [Hd Hp]. unfold phase_ok in Hp. rewrite Hph in Hp. destruct Hp as [-> Hc]. split; [done|].
    unfold phase_ok. simpl. pose proof (task_builds_ok (cur (bb_pipeline b)) (bb_marks b) pool) as Ht.
    destruct (task_builds _ _ _ _) as [|s sel full|[[[]|err| |]|]]; try done; naive_solver lia.
  - destruct (pl_phase (bb_pipeline b)) as [| | |[n| |] e|] eqn:Hph; try done. split; [|done].
    destruct Hp as [Hd Hp]. unfold phase_ok in Hp. rewrite Hph in Hp. destruct Hp as [-> Hc]. split; [done|].
    unfold phase_ok. simpl. lia.
  - destruct (pl_phase (bb_pipeline b)) as [| | |[|s sel full|] e|] eqn:Hph; try done. split; [|done].
    destruct Hp as [Hd Hp]. unfold phase_ok in Hp. rewrite Hph in Hp. split; [done|]. unfold phase_ok. simpl. lia.
  - done.
  - done.
Qed.

Lemma builder_step_ok b ev l :
  builder_ok b l -> builder_ok (builder_step b ev) (l ++ if turns b ev then handed b ev else []).
Proof.
  intros Hb. unfold BatchBuilder.builder_step. destruct (turns b ev); [|by rewrite app_nil_r].
  pose proof (builder_branch_ok b ev l Hb). destruct (is_wake ev); [by apply loop_top_ok|done].
Qed.

Lemma builder_run_ok evs b l :
  builder_ok b l -> builder_ok (foldl builder_step b evs) (l ++ handed_run b evs).
Proof.
  revert b l. induction evs as [|ev evs IH]; intros b l Hb; simpl; [by rewrite app_nil_r|].
  rewrite app_assoc. by apply IH, builder_step_ok.
Qed.

(** ** The budget ahead of execution *)

(** The number of the last batch executed, as far as it is one of this run. *)
Definition executed_floor (wm : option Z) : Z := match wm with Some x => Z.max x (start - 1) | None => start - 1 end.
(** No batch of this run has executed. *)
Definition first_pending (wm : option Z) : Prop := match wm with Some x => x < start | None => True end.

Definition ahead_ok (wm : option Z) p : Prop :=
  data_ok (pl_data p) /\
  if is_awaiting_quorum p
  then cur p <= executed_floor wm + MAX_SEAL_AHEAD /\ (first_pending wm -> cur p <= Z.max start 1)
  else cur p <= executed_floor wm + 1 + MAX_SEAL_AHEAD /\ (first_pending wm -> cur p <= Z.max start 1 + 1).

Lemma budget_ahead (d : PipelineData) wm boundary :
  data_ok d -> check_build_budget d wm boundary = Ret tt ->
  current_seq d <= executed_floor wm + MAX_SEAL_AHEAD /\ (first_pending wm -> current_seq d <= Z.max start 1).
Proof.
  intros (Hs & Hle & Hh). unfold check_build_budget. rewrite Hs, Hh.
  set (fl := calculate_in_flight_depth _ _ _).
  assert (Hfl : 0 < current_seq d -> current_seq d - 1 - default (sat_sub start 1) wm <= fl).
  { intros Hpos. unfold fl, calculate_in_flight_depth. rewrite (proj2 (Z.eqb_neq _ _)) by lia. unfold sat_sub at 2. lia. }
  destruct (evaluate _ _) eqn:He; try done.
  all: destruct (negb _ && _) eqn:Hth; [done|]; destruct (max_allowed_ahead _ <=? fl) eqn:Hmax; [done|]; intros _; apply Z.leb_gt in Hmax.
  all: cbn [max_allowed_ahead] in Hmax; unfold MAX_SEAL_AHEAD, executed_floor, first_pending in *.
  all: apply andb_false_iff in Hth; rewrite negb_false_iff, Z.leb_gt in Hth; unfold sat_sub in *.
  all: destruct wm as [x|]; simpl in *; [rewrite Z.leb_le in Hth|]; destruct Hth as [Hth|Hth]; try done; lia.
Qed.

Lemma ahead_start b p : ahead_ok (bb_watermark b) p -> ahead_ok (bb_watermark b) (try_start_build cfg b p).
Proof.
  intros [Hd Ha]. unfold try_start_build. destruct p as [[| | |task e|] d]; try (by split).
  all: destruct (check_build_budget _ _ _) as [[]|e| |] eqn:Hc; try (by split).
  all: split; [done|]; simpl; by eapply budget_ahead.
Qed.
Lemma ahead_on_event wm p : ahead_ok wm p -> ahead_ok wm (on_event p).
Proof. unfold on_event. by destruct p as [[| | |task e|] d]. Qed.
Lemma ahead_on_window wm p : ahead_ok wm p -> ahead_ok wm (on_window p).
Proof. unfold on_window. by destruct p as [[| | |task e|] d]. Qed.
Lemma ahead_canonical wm p (more : list TimestampSec) : ahead_ok wm p -> ahead_ok wm (foldl on_canonical_update p more).
Proof. revert p. induction more as [|ts more IH]; intros p Hp; [done|]. apply IH. by destruct p as [ph d]. Qed.
Lemma ahead_task wm p task e task' e' :
  pl_phase p = AwaitingQuorum task e -> ahead_ok wm p -> ahead_ok wm (set_phase p (AwaitingQuorum task' e')).
Proof. destruct p as [ph d]. simpl. by intros ->. Qed.

Lemma ahead_resolution b res e now :
  pl_phase (bb_pipeline b) = AwaitingQuorum (Resolved res) e -> ahead_ok (bb_watermark b) (bb_pipeline b) ->
  let b' := handle_quorum_resolution b res e now in ahead_ok (bb_watermark b') (bb_pipeline b').
Proof.
  intros Hph [Hd Ha]. pose proof Hd as (Hs & Hle & Hh). unfold is_awaiting_quorum in Ha. rewrite Hph in Ha.
  assert (Hsame : ahead_ok (bb_watermark b) (bb_pipeline b)) by (split; [done|]; unfold is_awaiting_quorum; by rewrite Hph).
  assert (Hdone : forall ph, is_awaiting_quorum (set_phase (bb_pipeline b) ph) = false ->
    ahead_ok (bb_watermark b) (set_phase (bb_pipeline b) ph)).
  { intros ph Hn. split; [done|]. rewrite Hn. simpl. destruct Ha as [Ha1 Ha2].
    split; [lia|intros Hf; specialize (Ha2 Hf); lia]. }
  unfold handle_quorum_resolution. destruct res as [[[| |sel full]|err| |]|]; simpl; try done; try by apply Hdone.
  unfold seal_advance, uadd. destruct (_ <=? _); cbn [mbind exec_bind]; [|done]. split; simpl.
  - unfold data_ok; simpl. split_and!; [done|lia|]. rewrite Hh. rewrite (proj2 (Z.eqb_neq (current_seq _ + 1) 0)) by lia.
    f_equal. destruct (current_seq _ =? 0); simpl; lia.
  - replace (is_awaiting_quorum _) with false by (unfold sealed_phase; by destruct full, e). simpl.
    destruct Ha as [Ha1 Ha2]. split; [lia|intros Hf; specialize (Ha2 Hf); lia].
Qed.

(** The watermark grows. *)
Definition watermark_le (x y : option Z) : Prop :=
  match x, y with Some x, Some y => x <= y | None, _ => True | Some _, None => False end.
Lemma ahead_watermark wm wm' p : watermark_le wm wm' -> ahead_ok wm p -> ahead_ok wm' p.
Proof.
  intros Hle [Hd Ha]. split; [done|].
  assert (executed_floor wm <= executed_floor wm') by (destruct wm, wm'; simpl in *; try done; lia).
  assert (first_pending wm' -> first_pending wm) by (destruct wm, wm'; simpl in *; try done; lia).
  destruct (is_awaiting_quorum p); destruct Ha; (split; [lia|auto]).
Qed.

(** The watermarks that the events write grow from the one before. *)
Fixpoint watermarks_grow (wm : option Z) (evs : list (BuilderEvent It)) : Prop :=
  match evs with
  | [] => True
  | Executed x :: evs => watermark_le wm x /\ watermarks_grow x evs
  | _ :: evs => watermarks_grow wm evs
  end.

Lemma watermarks_grow_le x y evs : watermark_le x y -> watermarks_grow y evs -> watermarks_grow x evs.
Proof.
  revert x y. induction evs as [|ev evs IH]; intros x y Hxy; [done|].
  destruct ev as [| | | | | | | | | |z|]; simpl; try by apply IH.
  intros [Hz Hg]. split; [|done]. destruct x, y, z; simpl in *; try done; lia.
Qed.

Lemma ahead_branch b ev :
  match ev with Executed x => watermark_le (bb_watermark b) x | _ => True end ->
  ahead_ok (bb_watermark b) (bb_pipeline b) ->
  let b' := builder_branch b ev in
  bb_watermark b' = (match ev with Executed x => x | _ => bb_watermark b end) /\
  ahead_ok (bb_watermark b') (bb_pipeline b').
Proof.
  intros Hev Ha. destruct ev as [tip more|now| | | | |pool| |env counted answered|sent|x|op]; simpl.
  - pose proof (ahead_canonical (bb_watermark b) (bb_pipeline b) (tip :: more) Ha) as Hc. simpl in Hc.
    destruct (is_awaiting_quorum _); [done|]. destruct (_ <=? _); [done|]. split; [done|]. simpl.
    by apply ahead_start, ahead_on_event.
  - destruct (pl_phase (bb_pipeline b)) as [| | |[|?|res] e|] eqn:Hph; try done.
    split; [|by apply ahead_resolution]. unfold handle_quorum_resolution.
    destruct (default _ _) as [[]| | |]; try done. by destruct (seal_advance _).
  - destruct (is_awaiting_quorum _); [done|]. split; [done|]. simpl. by apply ahead_start.
  - split; [done|]. simpl. destruct (is_awaiting_quorum _); [by apply ahead_on_event|by apply ahead_start, ahead_on_event].
  - split; [done|]. simpl. destruct (is_awaiting_quorum _); [by apply ahead_on_event|by apply ahead_start, ahead_on_event].
  - destruct (is_awaiting_quorum _); [done|]. split; [done|]. simpl. by apply ahead_start, ahead_on_window.
  - destruct (pl_phase (bb_pipeline b)) as [| | |[]|] eqn:Hph; try done. split; [done|]. by eapply ahead_task.
  - destruct (pl_phase (bb_pipeline b)) as [| | |[]|] eqn:Hph; try done. split; [done|]. by eapply ahead_task.
  - destruct (pl_phase (bb_pipeline b)) as [| | |[|s sel full|] e|] eqn:Hph; try done.
    destruct (seal_and_count _ _ _ _ _ _) as [w' [r| | |]]; try done. split; [done|]. by eapply ahead_task.
  - destruct (pl_phase (bb_pipeline b)) as [| | |[]|] eqn:Hph; try done. split; [done|]. by eapply ahead_task.
  - split; [done|]. by eapply ahead_watermark.
  - done.
Qed.

Lemma loop_top_ahead b :
  ahead_ok (bb_watermark b) (bb_pipeline b) ->
  bb_watermark (loop_top cfg b) = bb_watermark b /\ ahead_ok (bb_watermark b) (bb_pipeline (loop_top cfg b)).
Proof.
  intros Ha. unfold loop_top. destruct (bb_result b); [done|]. destruct (_ <=? _); [done|].
  split; [done|]. by apply ahead_start.
Qed.

Lemma ahead_run evs b :
  watermarks_grow (bb_watermark b) evs -> ahead_ok (bb_watermark b) (bb_pipeline b) ->
  let b' := foldl builder_step b evs in ahead_ok (bb_watermark b') (bb_pipeline b').
Proof.
  revert b. induction evs as [|ev evs IH]; intros b Hg Ha; [done|].
  change (foldl builder_step b (ev :: evs)) with (foldl builder_step (builder_step b ev) evs).
  assert (Hev : match ev with Executed x => watermark_le (bb_watermark b) x | _ => True end)
    by (destruct ev; simpl in Hg; tauto).
  destruct (ahead_branch b ev Hev Ha) as [Hwm Hb].
  assert (Hst : watermarks_grow (bb_watermark (builder_step b ev)) evs /\
    ahead_ok (bb_watermark (builder_step b ev)) (bb_pipeline (builder_step b ev))).
  { unfold BatchBuilder.builder_step. destruct (turns b ev) eqn:Ht.
    - assert (watermarks_grow (bb_watermark (builder_branch b ev)) evs) by (rewrite Hwm; destruct ev; simpl in Hg; tauto).
      destruct (is_wake ev); [|done]. destruct (loop_top_ahead _ Hb) as [Hw' Hb']. by rewrite Hw'.
    - split; [|done]. destruct ev; simpl in Hg; try done. by eapply watermarks_grow_le, Hg. }
  destruct Hst. by apply IH.
Qed.

(** ** The start of a run *)
Lemma new_data_ok tip : data_ok (pl_data (BatchPipeline_new (checked_sub start 1) start tip)).
Proof.
  unfold data_ok. simpl. split_and!; [done|lia|]. unfold checked_sub.
  destruct (Z.eqb_spec start 0) as [->|Hne]; [done|]. by rewrite (proj2 (Z.leb_le _ _)) by lia.
Qed.

Lemma new_ahead wm tip : ahead_ok wm (BatchPipeline_new (checked_sub start 1) start tip).
Proof.
  split; [apply new_data_ok|]. simpl. unfold MAX_SEAL_AHEAD. split; [|lia]. destruct wm; simpl; lia.
Qed.

Lemma handed_over_ahead b l :
  builder_ok b l -> ahead_ok (bb_watermark b) (bb_pipeline b) ->
  start + len l - 1 <= executed_floor (bb_watermark b) + MAX_SEAL_AHEAD /\
  (first_pending (bb_watermark b) -> start + len l <= Z.max start 1 + 1).
Proof.
  intros [[Hd Hp] _] [_ Ha]. unfold phase_ok in Hp. unfold is_awaiting_quorum in Ha.
  destruct (pl_phase (bb_pipeline b)) as [| | |[|?|[[[]| | |]|]]|]; destruct Ha as [Ha1 Ha2];
    try (destruct Hp as (l' & s & -> & Hp); rewrite length_app in *; simpl);
    (split; [|intros Hf; specialize (Ha2 Hf)]); naive_solver lia.
Qed.
End run.

(** ** No transaction twice *)
Section once.
Context {It : Type} `{!BestTransactions It, !BestTransactionsOk It, !BatchCodec, !ForkConditionApi}.
Context (committee : Committee) (a : Authority) (cfg : BatchBuilderConfig) (h : TxHash).
Abbreviation builder_step := (builder_step (It := It) committee (Some a) cfg).
Abbreviation builder_branch := (builder_branch (It := It) committee (Some a) cfg).
Abbreviation handed := (handed committee a).
Implicit Types (b : Builder) (p : PipelineState) (l : list (SealedBatch * list TxHash)).

(** The hash of an encoded transaction, and the transactions of a batch against
    the hashes selected for it. *)
Definition tx_hash_of (tx : Bytes) : option TxHash := ts_hash <$> recover_signed_transaction tx.
Definition contents (x : SealedBatch * list TxHash) : Prop := tx_hash_of <$> transactions (sb_batch x.1) = Some <$> x.2.

Definition sealed_in l : Prop := exists x, x ∈ l /\ h ∈ x.2.
Definition at_most_once l : Prop :=
  forall i j x y, l !! i = Some x -> l !! j = Some y -> h ∈ x.2 -> h ∈ y.2 -> i = j.
Definition marked_now b : Prop := is_Some (marks (bb_marks b) !! h).

(** The transaction against the log: it is marked once the news of its batch has
    arrived, and a batch on its way to be sealed holds it only when no earlier
    one does. *)
Definition once_ok b l : Prop :=
  at_most_once l /\ Forall contents l /\
  match pl_phase (bb_pipeline b) with
  | AwaitingQuorum (Submitted s sel _) _ =>
      (sealed_in l -> marked_now b) /\ (h ∈ sel -> ~ sealed_in l) /\ contents (s, sel)
  | AwaitingQuorum (Resolved (Some (Ret (QuorumSucceeded sel _)))) _ => sealed_in l -> marked_now b \/ h ∈ sel
  | AwaitingQuorum (Resolved (Some (Err _))) _ => True
  | AwaitingQuorum (Resolved (Some (Ret _))) _ | AwaitingQuorum (Building _) _ => sealed_in l -> marked_now b
  | AwaitingQuorum (Resolved _) _ => True
  | _ => sealed_in l -> marked_now b
  end.

(** The pools that the builder meets are ones reth yields, and nothing releases
    the mark of the transaction. *)
Definition event_ok (ev : BuilderEvent It) : Prop :=
  match ev with
  | TaskBuilds pool =>
      pool_ok (max_batch_size (bc_epoch cfg)) (bc_gas_limit cfg) (pending pool) /\
      NoDup (pending pool) /\ codec_ok (pending pool)
  | Released op => forall i, is_Some (marks i !! h) -> is_Some (marks (locked op i).1 !! h)
  | _ => True
  end.

Lemma sealed_in_snoc l x : sealed_in (l ++ [x]) <-> sealed_in l \/ h ∈ x.2.
Proof.
  unfold sealed_in. split.
  - intros (y & [Hy|Hy]%elem_of_app & Hh); [eauto|]. apply list_elem_of_singleton in Hy as ->. auto.
  - intros [(y & Hy & Hh)|Hh]; [exists y|exists x]; set_solver.
Qed.

Lemma at_most_once_snoc l x : at_most_once l -> (h ∈ x.2 -> ~ sealed_in l) -> at_most_once (l ++ [x]).
Proof.
  intros Hl Hx i j y z Hy Hz Hhy Hhz.
  apply lookup_app_Some in Hy as [Hy|[Hi Hy]]; apply lookup_app_Some in Hz as [Hz|[Hj Hz]];
    rewrite ?list_lookup_singleton_Some in *.
  - by eapply Hl.
  - destruct Hz as [_ <-]. destruct (Hx Hhz). exists y. split; [by eapply list_elem_of_lookup_2|done].
  - destruct Hy as [_ <-]. destruct (Hx Hhy). exists z. split; [by eapply list_elem_of_lookup_2|done].
  - destruct Hy, Hz. lia.
Qed.

(** Selection skips the marked and encodes what it selects. *)
Lemma task_builds_once n marks_now (pool : It) :
  event_ok (TaskBuilds pool) ->
  match task_builds cfg n marks_now pool with
  | Submitted s sel _ => (h ∈ sel -> marks marks_now !! h = None) /\ contents (s, sel)
  | _ => True
  end.
Proof.
  intros (Hp & Hnd & Hco). unfold task_builds.
  destruct (build_batch_ok cfg (E := NoErr) n (fun h => bool_decide (is_Some (marks marks_now !! h))) pool Hp Hnd)
    as (s & sel & -> & Hsel & _). case_bool_decide; [done|].
  pose proof (so_fresh _ _ _ _ _ _ Hsel) as Hfr. pose proof (so_sub _ _ _ _ _ _ Hsel) as Hsub.
  rewrite (so_mined _ _ _ _ _ _ Hsel). split.
  - intros (t & -> & Ht)%list_elem_of_fmap. rewrite Forall_forall in Hfr. destruct (Hfr t Ht) as [Hf _].
    apply bool_decide_eq_false in Hf. by apply eq_None_not_Some.
  - unfold contents. simpl. rewrite <- !list_fmap_compose. apply list_fmap_ext. intros i t Ht.
    unfold codec_ok in Hco. rewrite Forall_forall in Hco. unfold compose, tx_hash_of. rewrite (Hco t); [done|].
    eapply elem_of_submseteq; [by eapply list_elem_of_lookup_2|by apply sublist_submseteq].
Qed.

Lemma seal_marks sel now i :
  (is_Some (marks i !! h) -> is_Some (marks (locked (SealMark sel now) i).1 !! h)) /\
  (h ∈ sel -> is_Some (marks (locked (SealMark sel now) i).1 !! h)).
Proof.
  simpl. unfold lock_track_all. destruct sel as [|k sel]; [by split; [|intros ?%not_elem_of_nil]|].
  change (marks (with_marks i ?m, _).1) with m.
  assert (Hfold : forall (hs : list TxHash) (m : gmap TxHash Mark) (x : Mark), is_Some (m !! h) \/ h ∈ hs ->
    is_Some (foldl (fun ms hash => <[hash := x]> ms) m hs !! h)).
  { induction hs as [|k' hs IH]; intros m x Hm; simpl; [by destruct Hm as [|?%not_elem_of_nil]|]. apply IH.
    destruct (decide (k' = h)) as [->|Hne]; [rewrite lookup_insert_eq; eauto|]. rewrite lookup_insert_ne by done.
    set_solver. }
  split; intros Hm; apply Hfold; auto.
Qed.

Lemma once_start b p l :
  once_ok (set_pipeline b p) l -> forall b', once_ok (set_pipeline b (try_start_build cfg b' p)) l.
Proof.
  intros Ho b'. unfold try_start_build. destruct p as [[| | |task e|] d]; try done;
    by destruct (check_build_budget _ _ _).
Qed.
Lemma once_on_event b p l : once_ok (set_pipeline b p) l -> once_ok (set_pipeline b (on_event p)) l.
Proof. by destruct p as [[| | |task e|] d]. Qed.
Lemma once_on_window b p l : once_ok (set_pipeline b p) l -> once_ok (set_pipeline b (on_window p)) l.
Proof. by destruct p as [[| | |task e|] d]. Qed.
Lemma once_canonical b p l (more : list TimestampSec) :
  once_ok (set_pipeline b p) l -> once_ok (set_pipeline b (foldl on_canonical_update p more)) l.
Proof. revert p. induction more as [|ts more IH]; intros p Hp; [done|]. by apply IH. Qed.
Lemma once_same b l : once_ok (set_pipeline b (bb_pipeline b)) l <-> once_ok b l.
Proof. done. Qed.

Lemma once_task b task e task' l :
  pl_phase (bb_pipeline b) = AwaitingQuorum task e ->
  once_ok b l ->
  match task' with
  | Submitted s sel _ =>
      (sealed_in l -> marked_now b) -> (h ∈ sel -> ~ sealed_in l) /\ contents (s, sel)
  | Resolved (Some (Ret _)) => False
  | Resolved _ => True
  | Building _ => False
  end ->
  match task with Building _ => True | Submitted _ _ _ => True | _ => False end ->
  once_ok (set_pipeline b (set_phase (bb_pipeline b) (AwaitingQuorum task' e))) l.
Proof.
  intros Hph (Ho & Hc & Hp) Ht Hb. rewrite Hph in Hp. split; [done|]. split; [done|]. simpl.
  destruct task' as [|s sel full|[[]|]]; try done. destruct task as [|s' sel' full'|]; try done; naive_solver.
Qed.

Lemma once_resolution b l res e now :
  once_ok b l -> pl_phase (bb_pipeline b) = AwaitingQuorum (Resolved res) e ->
  once_ok (handle_quorum_resolution b res e now) l.
Proof.
  intros (Ho & Hc & Hp) Hph. rewrite Hph in Hp. unfold handle_quorum_resolution.
  destruct res as [[[| |sel full]|err| |]|]; cbn [default Datatypes.id].
  1-2: by split_and!.
  2-5: by (split_and!; [done..|]; simpl; rewrite Hph).
  destruct (seal_marks sel now (bb_marks b)) as [Hk Hs].
  assert (Hm : sealed_in l -> marked_now (set_marks b (locked (SealMark sel now) (bb_marks b)).1)).
  { intros Hl. destruct (Hp Hl); [by apply Hk|by apply Hs]. }
  destruct (seal_advance _); (split_and!; [done..|]); cbn [finish set_pipeline set_marks bb_pipeline].
  - cbn [pl_phase]. unfold sealed_phase. by destruct full, e.
  - rewrite Hph. auto.
  - rewrite Hph. auto.
  - rewrite Hph. auto.
Qed.

Lemma once_seals b l s sel full e env counted answered :
  once_ok b l -> pl_phase (bb_pipeline b) = AwaitingQuorum (Submitted s sel full) e ->
  let ev := WorkerSeals env counted answered in once_ok (builder_branch b ev) (l ++ handed b ev).
Proof.
  intros (Ho & Hc & Hp) Hph. rewrite Hph in Hp. destruct Hp as (Hm & Hs & Hx). simpl. rewrite Hph.
  destruct (seal_and_count _ _ _ _ _ _) as [w' res] eqn:Hseal. apply seal_and_count_cases in Hseal.
  destruct res as [[u|err| |]|[]| |]; try done; simpl; rewrite ?app_nil_r.
  - split_and!; [by apply at_most_once_snoc|by apply Forall_app; split; [|constructor]|]. simpl.
    destruct answered; simpl; [|done]. rewrite sealed_in_snoc. intros [Hl|Hl]; [left; by apply Hm|by right].
  - split_and!; [done..|]. simpl. destruct answered; simpl; [|done]. by destruct err.
  - split_and!; [done..|]. simpl. by rewrite Hph.
  - split_and!; [done..|]. simpl. by rewrite Hph.
Qed.

Lemma once_branch b ev l : event_ok ev -> once_ok b l -> once_ok (builder_branch b ev) (l ++ handed b ev).
Proof.
  intros Hev Ho. destruct ev as [tip more|now| | | | |pool| |env counted answered|sent|x|op].
  9:{ destruct (pl_phase (bb_pipeline b)) as [| | |[|s sel full|] e|] eqn:Hph;
        try by (simpl; rewrite Hph, app_nil_r). by eapply once_seals. }
  all: simpl; rewrite app_nil_r.
  - pose proof (once_canonical b (bb_pipeline b) l (tip :: more) Ho) as Hc. simpl in Hc.
    destruct (is_awaiting_quorum _); [done|]. destruct (_ <=? _); [done|]. by apply once_start, once_on_event.
  - destruct (pl_phase (bb_pipeline b)) as [| | |[]|] eqn:Hph; try done. by apply once_resolution.
  - destruct (is_awaiting_quorum _); [done|]. by apply once_start.
  - destruct (is_awaiting_quorum _); [by apply once_on_event|by apply once_start, once_on_event].
  - destruct (is_awaiting_quorum _); [by apply once_on_event|by apply once_start, once_on_event].
  - destruct (is_awaiting_quorum _); [done|]. by apply once_start, once_on_window.
  - destruct (pl_phase (bb_pipeline b)) as [| | |[n| |] e|] eqn:Hph; try done.
    pose proof (task_builds_once n (bb_marks b) pool Hev) as Ht. pose proof (task_builds_ok cfg n (bb_marks b) pool) as Ht'.
    destruct (task_builds _ _ _ _) as [|s sel full|[[[]| | |]|]]; try done.
    + eapply once_task; [done|done| |done]. simpl. intros Hm. destruct Ht as [Hf Hc]. split; [|done].
      intros Hin Hl. destruct (Hm Hl) as [x Hx]. rewrite (Hf Hin) in Hx. done.
    + destruct Ho as (? & ? & Hp). rewrite Hph in Hp. by split_and!.
    + by eapply once_task.
  - destruct (pl_phase (bb_pipeline b)) as [| | |[]|] eqn:Hph; try done. by eapply once_task.
  - destruct (pl_phase (bb_pipeline b)) as [| | |[]|] eqn:Hph; try done. by eapply once_task.
  - done.
  - destruct Ho as (? & ? & Hp). split_and!; [done..|]. simpl.
    destruct (pl_phase (bb_pipeline b)) as [| | |[|?|[[[]| | |]|]]|]; unfold marked_now in *; simpl; naive_solver.
Qed.

Lemma once_run evs b l :
  Forall event_ok evs -> once_ok b l -> once_ok (foldl builder_step b evs) (l ++ handed_run committee a cfg b evs).
Proof.
  intros Hev. revert b l. induction Hev as [|ev evs Hev _ IH]; intros b l Ho; simpl; [by rewrite app_nil_r|].
  rewrite app_assoc. apply IH. unfold BatchBuilder.builder_step. destruct (turns b ev); [|by rewrite app_nil_r].
  pose proof (once_branch b ev l Hev Ho) as Hb. destruct (is_wake ev); [|done]. unfold loop_top.
  destruct (bb_result _); [done|]. destruct (_ <=? _); [done|]. by apply once_start.
Qed.
End once.

(** ** What a run hands over *)
Section runs.
Context {It : Type} `{!BestTransactions It, !BatchCodec, !ForkConditionApi}.
Context (committee : Committee) (a : Authority) (cfg : BatchBuilderConfig).
Implicit Types (l : list (SealedBatch * list TxHash)) (wm : option Z).

Lemma new_builder_ok wm next tip tracker w :
  0 <= resume_seq wm next ->
  builder_ok (resume_seq wm next) (wk_own w) (Builder_new cfg wm next tip tracker w) [].
Proof.
  intros Hs. unfold Builder_new. apply loop_top_ok. split.
  - simpl. apply pipe_start, pipe_on_event. split; [by apply new_data_ok|]. unfold phase_ok. simpl. lia.
  - simpl. split; simpl; [by rewrite app_nil_r|done|constructor|constructor].
Qed.

Lemma new_builder_ahead wm next tip tracker w :
  0 <= resume_seq wm next ->
  let b := Builder_new cfg wm next tip tracker w in
  bb_watermark b = wm /\ ahead_ok (resume_seq wm next) wm (bb_pipeline b).
Proof.
  intros Hs. unfold Builder_new. cbv zeta.
  match goal with |- context [loop_top cfg ?b0] => set (b := b0) end.
  apply (loop_top_ahead cfg _ Hs b). unfold b. simpl.
  match goal with |- context [try_start_build cfg ?b0 _] => apply (ahead_start cfg _ Hs b0) end.
  apply ahead_on_event. by apply new_ahead.
Qed.

Lemma handed_hashes l :
  Forall (fun x => x.1 = seal_slow (sb_batch x.1)) l ->
  (fun x => sb_digest x.1) <$> l = (batch_hash ∘ (fun x : SealedBatch * list TxHash => sb_batch x.1)) <$> l.
Proof.
  intros Hslow. apply list_fmap_ext. intros i x Hx. rewrite Forall_lookup in Hslow. by rewrite (Hslow i x Hx) at 1.
Qed.

(** C19: The batches of a validator carry consecutive numbers. Whatever wakes the
    builder, however its tasks and the worker answer, fail or vanish, and
    whatever executes meanwhile, the batches that the worker hands over to the
    primary after a start carry the numbers from the one after the last executed
    batch, without a gap and without a repetition, and are in the worker's store
    under their digests. *)
Theorem own_batches_in_sequence wm next tip tracker w evs :
  0 <= resume_seq wm next ->
  exists bs, let w' := bb_worker (builder_run (It := It) committee (Some a) cfg (Builder_new cfg wm next tip tracker w) evs) in
    wk_own w' = wk_own w ++ (batch_hash <$> bs) /\
    BatchOrdering.seq <$> bs = seqZ (resume_seq wm next) (Z.of_nat (length bs)) /\
    Forall (fun x => exists y, wk_batches w' !! batch_hash x = Some y /\ batch_hash y = batch_hash x) bs.
Proof.
  intros Hs. destruct (builder_run_ok committee a cfg _ (wk_own w) Hs evs _ _ (new_builder_ok wm next tip tracker w Hs))
    as [_ [Hown Hseqs Hslow Hst]]. set (l := [] ++ _) in *.
  exists ((fun x => sb_batch x.1) <$> l). cbv zeta. rewrite <- !list_fmap_compose, length_fmap.
  pose proof (handed_hashes l Hslow) as Hh.
  split_and!; [by rewrite <- Hh|done|]. rewrite Forall_fmap. rewrite Forall_forall in *. intros x Hx. simpl.
  specialize (Hslow x Hx). destruct (Hst x Hx) as (y & Hy & Hyh). rewrite Hslow in Hy, Hyh. eauto.
Qed.

(** C34: The builder stays close to execution. When the watermark of executed own
    batches only grows, no batch handed over is numbered more than
    [MAX_SEAL_AHEAD] past the last executed one, and until the first batch of
    the run has executed at most one is handed over, two when the numbers start
    at zero. *)
Theorem seal_ahead_bounded wm next tip tracker w evs :
  let start := resume_seq wm next in
  let b := builder_run (It := It) committee (Some a) cfg (Builder_new cfg wm next tip tracker w) evs in
  0 <= start -> watermarks_grow wm evs ->
  exists own, wk_own (bb_worker b) = wk_own w ++ own /\
    start + Z.of_nat (length own) - 1 <= Z.max (default (start - 1) (bb_watermark b)) (start - 1) + MAX_SEAL_AHEAD /\
    (from_option (fun x => x < start) True (bb_watermark b) ->
     Z.of_nat (length own) <= if start =? 0 then 2 else 1).
Proof.
  intros start b Hs Hg. unfold b, builder_run. set (b0 := Builder_new _ _ _ _ _ _).
  pose proof (builder_run_ok committee a cfg start (wk_own w) Hs evs b0 [] (new_builder_ok wm next tip tracker w Hs)) as Hok.
  set (l := [] ++ _) in *. destruct (new_builder_ahead wm next tip tracker w Hs) as [Hw Ha].
  pose proof (ahead_run committee a cfg start Hs evs b0) as Hrun. fold b0 in Hw, Ha. rewrite Hw in Hrun.
  specialize (Hrun Hg Ha). destruct (handed_over_ahead _ _ _ _ Hok Hrun) as [H1 H2]. destruct Hok as [_ [Hown _ _ _]].
  exists ((fun x => sb_digest x.1) <$> l). rewrite length_fmap. split; [done|].
  unfold executed_floor, first_pending in *. destruct (bb_watermark (foldl _ _ _)) as [x|]; simpl in *.
  - split; [lia|]. intros Hf. specialize (H2 Hf). destruct (Z.eqb_spec start 0); lia.
  - split; [lia|]. intros Hf. specialize (H2 Hf). destruct (Z.eqb_spec start 0); lia.
Qed.

Lemma new_once_ok h wm next tip tracker w : once_ok h (Builder_new cfg wm next tip tracker w) [].
Proof.
  unfold Builder_new, loop_top. simpl. set (b := set_pipeline _ _).
  assert (Ho : once_ok h b []).
  { apply once_start, once_on_event. split_and!; [by intros i|constructor|]. by intros (x & ?%not_elem_of_nil & _). }
  destruct (_ <=? _); [done|]. by apply once_start.
Qed.

(** C20: No transaction is sealed twice. As long as nothing releases its in-flight
    mark, a transaction is in at most one of the batches that the worker hands
    over in a run of the builder, whatever the pool offers again and again and
    however many seals fail in between. *)
Theorem no_transaction_sealed_twice `{!BestTransactionsOk It} h wm next tip tracker w evs :
  0 <= resume_seq wm next -> Forall (event_ok (It := It) cfg h) evs ->
  exists bs,
    wk_own (bb_worker (builder_run (It := It) committee (Some a) cfg (Builder_new cfg wm next tip tracker w) evs)) =
      wk_own w ++ (batch_hash <$> bs) /\
    forall i j x y, bs !! i = Some x -> bs !! j = Some y ->
      Some h ∈ tx_hash_of <$> transactions x -> Some h ∈ tx_hash_of <$> transactions y -> i = j.
Proof.
  intros Hs Hev. set (b0 := Builder_new _ _ _ _ _ _).
  destruct (builder_run_ok committee a cfg _ (wk_own w) Hs evs b0 [] (new_builder_ok wm next tip tracker w Hs))
    as [_ [Hown _ Hslow _]].
  destruct (once_run committee a cfg h evs b0 [] Hev (new_once_ok h wm next tip tracker w)) as (Honce & Hcon & _).
  set (l := [] ++ _) in *. exists ((fun x => sb_batch x.1) <$> l). split.
  - unfold builder_run. rewrite Hown, <- list_fmap_compose. f_equal. by apply handed_hashes.
  - intros i j x y Hx Hy Hhx Hhy. apply list_lookup_fmap_Some in Hx as (x' & -> & Hx').
    apply list_lookup_fmap_Some in Hy as (y' & -> & Hy'). rewrite Forall_lookup in Hcon.
    rewrite (Hcon i x' Hx') in Hhx. rewrite (Hcon j y' Hy') in Hhy.
    by apply (Honce i j x' y'); [| |set_solver..].
Qed.

(** A turn that brings no candidate: the window, the watermark. *)
Definition no_candidate (ev : BuilderEvent It) : Prop :=
  match ev with WindowTick | WatermarkChanged | Executed _ => True | _ => False end.

Lemma clean_stays b evs :
  bb_result b = None -> pl_phase (bb_pipeline b) = Clean ->
  last_canonical_timestamp (pl_data (bb_pipeline b)) < bc_epoch_boundary cfg -> Forall no_candidate evs ->
  let b' := builder_run (It := It) committee (Some a) cfg b evs in
  bb_result b' = None /\ bb_pipeline b' = bb_pipeline b.
Proof.
  intros Hr Hp Hb Hevs. revert b Hr Hp Hb. induction Hevs as [|ev evs Hev _ IH]; intros b Hr Hp Hb; [done|].
  assert (Hst : bb_result (builder_step committee (Some a) cfg b ev) = None /\
                bb_pipeline (builder_step committee (Some a) cfg b ev) = bb_pipeline b).
  { unfold builder_step, builder_branch, is_awaiting_quorum. rewrite Hr. destruct b as [[ph d] wm ms w r].
    simpl in *. subst ph r. destruct ev; try done; simpl; unfold loop_top; simpl;
      by rewrite (proj2 (Z.leb_gt _ _)) by done. }
  destruct Hst as [Hr' Hp']. cbv zeta in *. simpl. specialize (IH (builder_step committee (Some a) cfg b ev)).
  rewrite Hp' in IH. by apply IH.
Qed.

(** A wake is lost when a build finds nothing to seal. A candidate that arrives
    while a build runs that selects nothing, because the transactions it looked at
    are in flight, is not built: the builder returns to its clean phase, and no
    batching window and no progress of execution makes it look again. *)
Theorem nothing_to_seal_loses_wake b n e pool now evs :
  bb_result b = None -> pl_phase (bb_pipeline b) = AwaitingQuorum (Building n) e ->
  last_canonical_timestamp (pl_data (bb_pipeline b)) < bc_epoch_boundary cfg ->
  task_builds cfg n (bb_marks b) pool = Resolved (Some (Ret NothingToSeal)) ->
  Forall no_candidate evs ->
  let b' := builder_run (It := It) committee (Some a) cfg b
    ([TaskBuilds pool; PendingTx; QuorumResolution now] ++ evs) in
  bb_result b' = None /\ bb_pipeline b' = set_phase (bb_pipeline b) Clean.
Proof.
  intros Hr Hp Hb Ht Hevs. destruct b as [[ph d] wm ms w r]. simpl in Hr, Hp, Hb, Ht. subst ph r.
  cbv zeta. unfold builder_run. rewrite foldl_app.
  match goal with |- context [foldl _ (foldl _ ?b0 _) evs] => set (b1 := b0) end.
  assert (Hb1 : foldl (builder_step committee (Some a) cfg) b1 [TaskBuilds pool; PendingTx; QuorumResolution now] =
    {| bb_pipeline := {| pl_phase := Clean; pl_data := d |}; bb_watermark := wm; bb_marks := ms; bb_worker := w;
       bb_result := None |}).
  { unfold b1. cbn -[task_builds]. rewrite Ht. cbn. unfold loop_top. cbn.
    rewrite (proj2 (Z.leb_gt _ _)) by done. cbn. rewrite (proj2 (Z.leb_gt _ _)) by done. done. }
  rewrite Hb1. by apply clean_stays.
Qed.
End runs.

(** ** Examples *)

Module BuilderExamples.
Import WorkerExamples SealExamples.

Definition config : BatchBuilderConfig :=
  {| bc_address := 11; bc_worker_id := 0; bc_epoch := 0; bc_epoch_boundary := 1000; bc_base_fee := 7;
     bc_gas_limit := 100 |}.
Definition txn (h n : Z) : PoolTxn :=
  {| pt_hash := h; pt_sender := 1; pt_nonce := n; pt_gas_limit := 21; pt_size := 3; pt_is_eip4844 := false;
     pt_encoded := [21; 0; h] |}.
Lemma txns_ok l : pool_ok (max_batch_size 0) 100 (uncurry txn <$> l) /\ codec_ok (uncurry txn <$> l).
Proof.
  unfold pool_ok, codec_ok, max_batch_size, u64_max. rewrite !Forall_fmap, !Forall_forall.
  split_and!; try lia; intros [h n] _; simpl; first [done|split_and!; lia].
Qed.
Definition pool : list PoolTxn := uncurry txn <$> [(5, 0); (6, 1)].
Lemma example_pool : pool_ok (max_batch_size 0) 100 pool.
Proof. apply txns_ok. Qed.
Lemma example_pool_codec : NoDup pool /\ codec_ok pool.
Proof.
  split; [|apply txns_ok]. repeat constructor; rewrite ?list_elem_of_singleton; try by apply not_elem_of_nil. by intros [=].
Qed.

Lemma example_nonces : nonces_ordered pool.
Proof.
  intros l1 t l2 u HL Hu _. destruct l1 as [|x [|y [|z l1]]]; inversion HL; subst.
  - apply list_elem_of_singleton in Hu as ->. done.
  - by apply not_elem_of_nil in Hu.
Qed.

(** Both transactions are selected and the batch is accepted. *)
Lemma built_batch_accepted_witness :
  exists b s, build_batch (E := NoErr) config 3 (fun _ => false) pool = Ret (b, s) /\
    transactions b = [[21; 0; 5]; [21; 0; 6]] /\
    (validate_batch example_spec 10 4 (seal_slow b) validator).2 = Ret tt.
Proof.
  destruct (built_batch_accepted (It := list PoolTxn) example_spec config 3 (fun _ => false) pool validator 10 4)
    as (b & s & sel & Hb & Ht & Hsub & _ & Hv).
  - exact example_pool.
  - exact (proj1 example_pool_codec).
  - exact (proj2 example_pool_codec).
  - exact example_nonces.
  - vm_compute. congruence.
  - vm_compute. split; congruence.
  - reflexivity.
  - reflexivity.
  - reflexivity.
  - reflexivity.
  - assert (Hbt : transactions b = [[21; 0; 5]; [21; 0; 6]]).
    { pose proof Hb as Hb'. vm_compute in Hb'. injection Hb' as <- <-. reflexivity. }
    exists b, s. split; [exact Hb|]. split; [exact Hbt|].
    assert (Hne : sel <> []) by (intros ->; rewrite Hbt in Ht; discriminate).
    rewrite (Hv Hne), <- Ht, Hbt. vm_compute. reflexivity.
Defined.

(** The first seal fails and is tried again at the next window; the second batch
    finds the first transaction marked. *)
Definition refused : SealEnv :=
  {| se_acks := [(2, Some (Err RPCError)); (3, Some (Err RPCError))]; se_joined := true; se_published := true;
     se_moment := moment |}.
Definition events : list (BuilderEvent (list PoolTxn)) :=
  [TaskBuilds [txn 5 0]; WorkerSeals refused true true; QuorumResolution 1; WindowTick;
   TaskBuilds [txn 5 0]; WorkerSeals sealing true true; QuorumResolution 2; PendingTx;
   TaskBuilds pool; WorkerSeals sealing true true; QuorumResolution 3; PendingTx].
Abbreviation started := (Builder_new config None 0 10 (inner InFlightTracker_new) worker0).
Abbreviation ran := (builder_run example_committee (Some node) config started events).

Lemma own_batches_in_sequence_witness :
  (exists bs, let w' := bb_worker ran in
    wk_own w' = wk_own worker0 ++ (batch_hash <$> bs) /\
    BatchOrdering.seq <$> bs = seqZ (resume_seq None 0) (Z.of_nat (length bs)) /\
    Forall (fun x => exists y, wk_batches w' !! batch_hash x = Some y /\ batch_hash y = batch_hash x) bs) /\
  wk_own (bb_worker ran) = [batch_hash (built 0 [[21; 0; 5]]); batch_hash (built 1 [[21; 0; 6]])].
Proof.
  split; [|vm_compute; reflexivity].
  exact (own_batches_in_sequence example_committee node config None 0 10 (inner InFlightTracker_new) worker0 events
    (Z.le_refl 0)).
Defined.

(** Two batches are handed over before the first has executed. *)
Lemma seal_ahead_bounded_witness :
  (exists own, wk_own (bb_worker ran) = wk_own worker0 ++ own /\
    0 + Z.of_nat (length own) - 1 <= Z.max (default (0 - 1) (bb_watermark ran)) (0 - 1) + MAX_SEAL_AHEAD /\
    (from_option (fun x => x < 0) True (bb_watermark ran) -> Z.of_nat (length own) <= if 0 =? 0 then 2 else 1)) /\
  bb_watermark ran = None /\ length (wk_own (bb_worker ran)) = 2%nat.
Proof.
  split; [|vm_compute; by split].
  refine (seal_ahead_bounded example_committee node config None 0 10 (inner InFlightTracker_new) worker0 events
    (Z.le_refl 0) _). by repeat split.
Defined.

Lemma example_events : Forall (event_ok config 5) events.
Proof.
  assert (H1 : event_ok config 5 (TaskBuilds [txn 5 0])).
  { split_and!; [apply (txns_ok [(5, 0)])|apply NoDup_singleton|apply (txns_ok [(5, 0)])]. }
  repeat (constructor; [first [exact H1|split; [exact example_pool|exact example_pool_codec]|exact I]|]). constructor.
Qed.
Lemma no_transaction_sealed_twice_witness :
  exists bs, wk_own (bb_worker ran) = wk_own worker0 ++ (batch_hash <$> bs) /\
    forall i j x y, bs !! i = Some x -> bs !! j = Some y ->
      Some 5 ∈ tx_hash_of <$> transactions x -> Some 5 ∈ tx_hash_of <$> transactions y -> i = j.
Proof.
  exact (no_transaction_sealed_twice example_committee node config 5 None 0 10 (inner InFlightTracker_new) worker0 events
    (Z.le_refl 0) example_events).
Defined.

(** The candidate that arrives is not in the snapshot that the build looked at. *)
Lemma nothing_to_seal_loses_wake_witness :
  let b' := builder_run example_committee (Some node) config started
    ([TaskBuilds []; PendingTx; QuorumResolution 1] ++ [WindowTick; WindowTick; WatermarkChanged]) in
  bb_result b' = None /\ bb_pipeline b' = set_phase (bb_pipeline started) Clean.
Proof.
  refine (nothing_to_seal_loses_wake example_committee node config started 0 false [] 1
    [WindowTick; WindowTick; WatermarkChanged] eq_refl eq_refl eq_refl eq_refl _).
  by repeat constructor.
Defined.
End BuilderExamples.
